(* ===== verification/_CoqProject ===== *)
-Q . S2P
Prelude.v
BoundedQueue.v
IOBufBlock.v
IOBufView.v
IOBuf.v
IOBufSearch.v
IOBufSpec.v
IOBufWriter.v
IOBufEdge.v
IOBufReader.v
IOBufCutter.v
IOBufFrame.v
IOPortal.v
IOBufShrink.v
IOBufMemory.v
IOBufCaps.v
IOBufOutput.v
RecordIO.v
RecordIOSpec.v
RecordIOTheorems.v
RecordSource.v
BitArray.v
FlatMap.v
FlatMapSpec.v
FlatMapTheorems.v
MapInterface.v
WorkStealingQueue.v
PushList.v
MpscQueue.v
SocketRef.v
SocketWrite.v
SocketWriteInv.v
SocketWriteSteps.v
SocketWriteRuns.v
SocketWriteTheorems.v
HpackHuffman.v
HpackPrimitive.v
HpackTable.v
Hpack.v
HpackTheorems.v
Arena.v
RedisReply.v
RedisReplySpec.v
IOBufAppender.v
RedisCommand.v
RedisCommandSpec.v
RedisTheorems.v
Redis.v
StringSplitter.v
QueryRemover.v
Uri.v
UriParse.v
UriQuery.v
DoublyBuffered.v
DoublyBufferedInv.v
DoublyBufferedSteps.v
DoublyBufferedTheorems.v
