(* ===== verification/Prelude.v ===== *)
(** * Verification of brpc

    The repository vendors brpc 1.9.0, an RPC framework in C++ (src/brpc-1.9.0/src).
    Its layers, bottom up: [butil] (buffers, containers, portability), [bthread] (M:N
    threads with work stealing), [bvar] (statistics), [brpc] (sockets, protocols,
    servers, channels), [json2pb] and [mcpack2pb] (converters).  Every message that
    brpc receives or sends is an IOBuf; protocol code cuts IOBufs and keeps its state in
    FlatMaps and BoundedQueues; sockets are addressed by versioned ids and written to
    by any thread without locks; the threads that run all this steal tasks from each
    other.  The development models
    these foundations and what is built on them: a file format (RecordIO), two protocols
    (HPACK and redis) and URIs.

    ** Conventions

    An integer of width [w] is a [Z] with its wrap-around written out ([u32], [i32],
    ...), but for reference counts of blocks and of readers, which are plain numbers; bytes
    are [Z] in 0..255 (signed in Uri).  Undefined behaviour is [None] (or [ub] in the IOBuf
    monad), never a default value.  What the code takes from outside (the allocator, a
    writer, hash functions, a scheduler's choices) is an argument.  CHECK and LOG(FATAL)
    only log, as they do by default.  Loops that are not structural carry fuel; running
    out of it is [None] and the theorems show that it does not happen:
    every theorem about a result says that there is one.

    ** Files

    - Prelude: machine integers, tactics, hints, lemmas on lists and options.
    - IOBufBlock, IOBufView, IOBuf, IOBufSearch (butil/iobuf.cpp, iobuf.h, iobuf_inl.h):
      the heap of reference-counted blocks with the thread-local cache ([Block]), the
      reference queue with its two representations ([View]), the operations, in a state
      monad with failure.  Fuel of a loop is the number of references or bytes.
      IOBufSpec states the contract: [iobuf_refines_byte_strings] runs any sequence of
      operations on any number of buffers against byte strings, [iobuf_no_leak] counts
      the blocks.  Both have memory in plenty and stay within [ops_ok] (distinct buffers
      below 2^29 bytes, text delimiters, something to append and to fetch); IOBufMemory says
      which mallocs an append asks for and what is left when one fails.  IOBufWriter adds
      cut_multiple_into_writer over a partial writer; IOBufEdge has the delimiter search
      and the inputs outside the contract; IOBufReader has IOBufBytesIterator,
      IOBufAsZeroCopyInputStream and IOBufAsSnappySource as cursors ([Reader]).
      IOBufCutter is the cutter with a position of its own; IOPortal reads into a buffer
      from an IReader, a file descriptor or an SSL channel, through a chain of cached
      blocks, and is a queue of bytes.  IOBufFrame says which operations touch
      nothing but reference counts, so that they keep this chain; IOBufShrink that cutting
      leaves a suffix of the references, IOBufCaps bounds the blocks.  IOBufOutput has the
      zero-copy output stream, which lends parts of blocks, and on it IOBufAppender and
      IOBufAsSnappySink; the theorems are in IOBufAppender: they build the string of what was
      written, so the models of HPACK and redis take an appender as a byte string.
    - RecordIO, RecordIOSpec, RecordIOTheorems, RecordSource (butil/recordio.h,
      recordio.cc): records with named metas, RecordWriter and RecordReader.  The IOBufs
      that records are put together in are byte strings; what RecordReader does with its
      portal and cutter is an interface, [ByteSource] with [SourceLaws].  The theorems: the
      round trip, the search for the next record, damaged records, and that reading ends
      (the fuel is the number of bytes).  RecordSource proves the laws for IOPortal and
      IOBufCutter over a reader that fills what it is given, which composes all IOBuf files
      with RecordReader, and runs them on short reads, where records are lost.
    - BoundedQueue (containers/bounded_queue.h): a ring of slots with object lifetimes;
      refines a bounded list for capacities up to 2^31.
    - BitArray (bit_array.h); FlatMap, FlatMapSpec, FlatMapTheorems (containers/
      flat_map.h, flat_map_inl.h): the hash map and its sparse variant; refines an
      association list, sparse maps from 64 buckets on.  At most 64 nested resizes are allowed ([resize_fuel]): each
      doubles the buckets, so 2^50 elements need fewer.  MapInterface is
      what clients use: operations [MapOps], laws [MapLaws], discharged by FlatMap.
    - WorkStealingQueue (bthread/work_stealing_queue.h): every load, store and
      compare-exchange of push, pop and steal is a step; one owner, any number of
      thieves, any schedule of fewer than 2^62 steps (so the 64-bit indexes do not
      wrap).  The queue is linearizable to a bounded deque; pop and push are wait-free,
      steal is lock-free.
    - SocketRef (brpc/socket_inl.h, socket.cpp, socket_id.h, socket.h): the versioned
      reference count behind SocketId, one step per atomic operation, any number of
      threads that respect the contract stated with the steps (a reference is dropped by
      its holder, Revive is called by the health checker); fewer than 2^29 steps, so that
      counts and versions stay within 32 bits.  Addressed Sockets are alive and are the
      ones asked for; failed ones are recycled exactly once.  CHECKs that fail are recorded:
      no schedule reaches a LOG(FATAL) or CHECK(false), but one with a revival fails the
      CHECK_EQ of Address.
    - PushList: the lock-free list that MPSCQueue and the write requests of a
      Socket share (exchange the head, then store the link; the owner turns the links
      round), its shape and what each step of the protocol does to it.
    - MpscQueue (containers/mpsc_queue.h): Enqueue by any number of producers, Dequeue
      and the destructor by one consumer, one step per access to shared memory.  The
      queue is linearizable to a FIFO list, the consumer waits for nobody but a
      producer between its exchange and its store.
    - DoublyBuffered, DoublyBufferedInv, DoublyBufferedSteps, DoublyBufferedTheorems
      (containers/doubly_buffered_data.h): Read with its ScopedPtr, Modify and the exit of
      threads, one step per access, for pthreads and for bthreads that are suspended while
      they read; the function of Modify takes two steps, so that it overlaps with others.
      When threads exit only after the reads through their Wrapper, reads and modifications
      are linearizable, an instance is not read while it is written, nothing deadlocks; a
      thread that exits too early breaks this.
    - SocketWrite (brpc/socket.cpp, socket.h): Write, StartWrite, the callbacks of a
      connect, KeepWrite, IsWriteComplete and the release of requests, one step per
      access to shared memory (counting bytes and setting or clearing _overcrowded are
      separate ones), with failures by other threads or for lack of memory and any answers of
      the kernel.  SocketWriteInv has the invariant (who owns the list, what the requests
      hold, what is counted and by whom it is still due), SocketWriteSteps that every step
      keeps it, SocketWriteRuns whole schedules and when the flag is exact, and
      SocketWriteTheorems the order of the bytes in the fd, the count of unwritten bytes,
      the state when all threads are done, and the schedules in which notifications and
      limits fail.
    - HpackHuffman, HpackPrimitive, HpackTable, Hpack, HpackTheorems (brpc/details/
      hpack.cpp, hpack.h, hpack-static-table.h, containers/case_ignored_flat_map.h): the
      Huffman code, integers and strings, the dynamic tables on BoundedQueue and
      MapInterface, and the HPacker.  Two peers that start with the same size of table
      decode each other's headers.
    - StringSplitter (butil/string_splitter.h, string_splitter_inl.h): the splitters visit
      exactly the fields of a string ([splitter_visits_the_fields]).  QueryRemover, Uri,
      UriParse, UriQuery (brpc/uri.h, uri.cpp), with strings of signed chars and pointers as
      suffixes: QueryRemover keeps the pairs that are not removed; URI with its parsers,
      printers and the lazily filled FlatMap of queries.  UriParse has the round trips of
      printed URLs and HTTP/2 paths and that the two parsers agree, UriQuery that map and
      query string stand for one mapping whatever is done to them, that the printers agree,
      and that a copied URI may be unusable.
    - Arena (butil/arena.h, arena.cpp): the pieces it hands out have the sizes
      asked for and do not overlap.  Its
      clients use the class [ArenaOps] with the laws [ArenaLaws].
    - RedisReply, RedisReplySpec (brpc/redis_reply.h, redis_reply.cpp) and RedisCommand,
      RedisCommandSpec (brpc/redis_command.h, redis_command.cpp), on byte strings for
      IOBufs: the tagged union of a reply, the Set functions, SerializeTo, the parser that
      resumes in the middle of nested arrays, the command formatters and the command
      parser.  Fuel is the length of the buffer plus the depth of the reply, of which
      every recursive call uses up one.  RedisTheorems has the round trips over any
      division of the bytes into pieces ([feed]), totality of the parser on any input below
      2^31 - 8 bytes while the arena gets its memory, and the corner cases.
    - Redis (brpc/redis.h, redis.cpp, policy/redis_protocol.cpp): requests, responses, and
      the server's ParseRedisMessage and ConsumeCommand with handlers as parameters.  A
      server answers pipelined commands in order however they are cut; a response
      collects the replies.

    Interleavings are sequentially consistent: the memory orders of the atomic
    operations are read as the strongest ones, so reorderings that weaker orders allow
    are outside of these theorems.

    Some theorems state what the code does at inputs where it departs from its comments
    (kind [error]); each is listed as a finding.

    ** Not modelled

    System calls and what only calls them (file descriptors, SSL, epoll, files, time,
    logging, profilers), context switches of bthread, the statistics of bvar, protobuf
    and JSON conversion, naming services, the HTTP, RTMP and RPC protocols, servers,
    channels and controllers.  Of IOBuf: the ostream IOBufBuilder and the profiler.
    butil/third_party, gtest and generated files are not
    the program's own code.

    ** What could come next

    bthread_id and ExecutionQueue as step relations like WorkStealingQueue and
    SocketRef; the HTTP parser and messages; load balancers on top of DoublyBufferedData. *)From stdpp Require Import base list gmap.
From Stdlib Require Import ZArith Lia Bool.

Open Scope Z_scope.

(** ** Machine integers

    A C++ unsigned integer of width [w] is a [Z] in [0, 2^w); arithmetic on it
    is exact arithmetic followed by the truncation below. *)
Definition u8 (z : Z) : Z := z mod 2 ^ 8.
Definition u16 (z : Z) : Z := z mod 2 ^ 16.
Definition u32 (z : Z) : Z := z mod 2 ^ 32.
Definition u64 (z : Z) : Z := z mod 2 ^ 64.
(** Conversion to a two's complement signed integer of the same width. *)
Definition i8 (z : Z) : Z := (z + 2 ^ 7) mod 2 ^ 8 - 2 ^ 7.
Definition i32 (z : Z) : Z := (z + 2 ^ 31) mod 2 ^ 32 - 2 ^ 31.
Definition i64 (z : Z) : Z := (z + 2 ^ 63) mod 2 ^ 64 - 2 ^ 63.

(** The range of a byte and strings of bytes. *)
Definition is_byte (z : Z) : Prop := 0 <= z < 256.

Create HintDb brpc discriminated.

Lemma u8_small z : 0 <= z < 2 ^ 8 -> u8 z = z.
Proof. apply Z.mod_small. Qed.
Lemma u16_small z : 0 <= z < 2 ^ 16 -> u16 z = z.
Proof. apply Z.mod_small. Qed.
Lemma u32_small z : 0 <= z < 2 ^ 32 -> u32 z = z.
Proof. apply Z.mod_small. Qed.
Lemma i32_small z : - 2 ^ 31 <= z < 2 ^ 31 -> i32 z = z.
Proof. intros Hz. unfold i32. rewrite Z.mod_small by lia. lia. Qed.
Lemma i64_small z : - 2 ^ 63 <= z < 2 ^ 63 -> i64 z = z.
Proof. intros Hz. unfold i64. rewrite Z.mod_small by lia. lia. Qed.
Lemma u64_small z : 0 <= z < 2 ^ 64 -> u64 z = z.
Proof. apply Z.mod_small. Qed.
Lemma u8_range z : 0 <= u8 z < 2 ^ 8.
Proof. apply Z.mod_pos_bound. lia. Qed.
Lemma u32_range z : 0 <= u32 z < 2 ^ 32.
Proof. apply Z.mod_pos_bound. lia. Qed.
Lemma u64_range z : 0 <= u64 z < 2 ^ 64.
Proof. apply Z.mod_pos_bound. lia. Qed.

(** Rewrites every truncation whose argument is in range; the side conditions
    are closed by [lia]. *)
Ltac untrunc :=
  repeat match goal with
  | |- context [u8 ?z] => rewrite (u8_small z) by lia
  | |- context [u16 ?z] => rewrite (u16_small z) by lia
  | |- context [u32 ?z] => rewrite (u32_small z) by lia
  | |- context [u64 ?z] => rewrite (u64_small z) by lia
  end.

(** Case analysis on the boolean comparisons of [Z] in the goal or in the
    hypotheses, with the order facts left for [lia]. *)
Ltac zcase :=
  match goal with
  | |- context [?a <? ?b] => destruct (Z.ltb_spec a b)
  | |- context [?a <=? ?b] => destruct (Z.leb_spec a b)
  | |- context [?a =? ?b] => destruct (Z.eqb_spec a b)
  | H : context [?a <? ?b] |- _ => destruct (Z.ltb_spec a b)
  | H : context [?a <=? ?b] |- _ => destruct (Z.leb_spec a b)
  | H : context [?a =? ?b] |- _ => destruct (Z.eqb_spec a b)
  end.
Ltac zlia := solve [repeat zcase; lia].

(** ** Ring indices: arithmetic modulo a capacity without [mod] *)
Lemma ring_add c s i :
  0 <= s < c -> 0 <= i <= c ->
  (s + i) mod c = if s + i <? c then s + i else s + i - c.
Proof.
  intros Hs Hi. zcase.
  - apply Z.mod_small. lia.
  - symmetry. apply (Z.mod_unique _ _ 1); lia.
Qed.

Lemma ring_sub c s j :
  0 <= s < c -> 0 <= j < c ->
  (j - s) mod c = if s <=? j then j - s else j - s + c.
Proof.
  intros Hs Hj. zcase.
  - apply Z.mod_small. lia.
  - symmetry. apply (Z.mod_unique _ _ (-1)); lia.
Qed.

(** ** Lists *)
Lemma lookup_snoc_ne {A} (l : list A) x k :
  k <> length l -> (l ++ [x]) !! k = l !! k.
Proof.
  intros Hk. destruct (decide (k < length l)%nat).
  - by rewrite lookup_app_l.
  - rewrite !(proj2 (lookup_ge_None _ _)); [done|lia|]. rewrite length_app. simpl. lia.
Qed.

(** ** A state monad with undefined behaviour

    [M S A] is a computation on a state [S]; [None] is undefined behaviour
    (a dangling pointer, an access outside an array) or an endless loop. *)
Definition M (S A : Type) : Type := S -> option (A * S).
Definition mret {S A} (a : A) : M S A := fun s => Some (a, s).
Definition mbind' {S A B} (c : M S A) (k : A -> M S B) : M S B :=
  fun s => match c s with Some (a, s') => k a s' | None => None end.
Definition ub {S A} : M S A := fun _ => None.
Definition mget {S} : M S S := fun s => Some (s, s).
Definition mmod {S} (f : S -> S) : M S unit := fun s => Some (tt, f s).
Definition mlift {S A} (o : option A) : M S A := fun s => (fun a => (a, s)) <$> o.

Declare Scope m_scope.
Delimit Scope m_scope with m.
Notation "'let*' x := c 'in' k" := (mbind' c (fun x => k))
  (at level 10, x pattern, c at level 200, k at level 200) : m_scope.
Notation "'do*' c 'in' k" := (mbind' c (fun _ => k))
  (at level 10, c at level 200, k at level 200) : m_scope.

Lemma bind_run {S A B} (c : M S A) (k : A -> M S B) s a s1 :
  c s = Some (a, s1) -> mbind' c k s = k a s1.
Proof. intros H. unfold mbind'. by rewrite H. Qed.

(** ** Counting occurrences: reference counts as sums *)
Section Count.
Context {A : Type} `{EqDecision A}.
Definition is1 (x y : A) : Z := if decide (x = y) then 1 else 0.
Fixpoint cnt (x : A) (l : list A) : Z :=
  match l with [] => 0 | y :: l' => is1 x y + cnt x l' end.

Lemma is1_refl x : is1 x x = 1.
Proof. unfold is1. by rewrite decide_True. Qed.
Lemma is1_ne x y : x <> y -> is1 x y = 0.
Proof. intros. unfold is1. by rewrite decide_False. Qed.
Lemma is1_nonneg x y : 0 <= is1 x y.
Proof. unfold is1. case_decide; lia. Qed.
Lemma cnt_app x l1 l2 : cnt x (l1 ++ l2) = cnt x l1 + cnt x l2.
Proof. induction l1; simpl; lia. Qed.
Lemma cnt_nonneg x l : 0 <= cnt x l.
Proof. induction l as [|y l IH]; simpl; pose proof (is1_nonneg x); [lia|]. specialize (H y). lia. Qed.
Lemma cnt_pos x l : x ∈ l <-> 0 < cnt x l.
Proof.
  induction l as [|y l IH]; simpl.
  - rewrite elem_of_nil. lia.
  - rewrite elem_of_cons, IH. unfold is1. pose proof (cnt_nonneg x l).
    case_decide; (split; [intros [?|?]; try done; lia|]); intros; [by left|right; lia].
Qed.
Lemma cnt_zero x l : x ∉ l <-> cnt x l = 0.
Proof. rewrite cnt_pos. pose proof (cnt_nonneg x l). lia. Qed.
Lemma cnt_NoDup x l : NoDup l -> x ∈ l -> cnt x l = 1.
Proof.
  induction 1 as [|y l Hy Hnd IH]; [by rewrite elem_of_nil|].
  rewrite elem_of_cons. simpl. intros [->|Hx].
  - rewrite is1_refl. apply cnt_zero in Hy. lia.
  - rewrite IH, is1_ne by (done || set_solver). lia.
Qed.
End Count.
