(* ===== verification/BoundedQueue.v ===== *)
(** * butil::BoundedQueue (butil/containers/bounded_queue.h)

    A ring buffer over raw storage.  A slot of the storage holds [Some x] while
    an object is constructed in it and [None] otherwise, so constructing into a
    live slot, destroying a dead one, or reading a dead one is visible in the
    model.  Every operation returns an [option]: [None] is undefined behaviour
    (an access outside the storage, a dead slot) or the non-terminating loop of
    [_mod] on a zero capacity.  The theorems show that under the invariant none
    of these happens and that the queue refines a bounded list. *)
From stdpp Require Import base list gmap.
From Stdlib Require Import ZArith Lia Bool.
From S2P Require Import Prelude.

Open Scope Z_scope.

Module BoundedQueue.

Inductive StorageOwnership := OWNS_STORAGE | NOT_OWN_STORAGE.

Record queue (T : Type) := mkQueue {
  _count : Z;
  _cap : Z;
  _start : Z;
  _ownership : StorageOwnership;
  _items : option (list (option T))   (* None: the NULL pointer *)
}.
Arguments mkQueue {T}. Arguments _count {T}. Arguments _cap {T}.
Arguments _start {T}. Arguments _ownership {T}. Arguments _items {T}.

Section Operations.
Context {T : Type}.
Implicit Types (q : queue T) (x : T).

(** The loop of [_mod]; [None] when the fuel runs out. *)
Fixpoint mod_loop (fuel : nat) (off cap : Z) : option Z :=
  match fuel with
  | O => None
  | S fuel' => if cap <=? off then mod_loop fuel' (off - cap) cap else Some off
  end.
Definition _mod (off cap : Z) : option Z :=
  mod_loop (S (Z.to_nat (u32 off))) (u32 off) cap.

(** The constructors. [memsize / sizeof(T)] is the argument [nitem]. *)
Definition BoundedQueue_mem (nitem : Z) (ownership : StorageOwnership) : queue T :=
  mkQueue 0 (u32 nitem) 0 ownership (Some (replicate (Z.to_nat nitem) None)).
Definition BoundedQueue_capacity (capacity : Z) (malloc_ok : bool) : queue T :=
  mkQueue 0 (u32 capacity) 0 OWNS_STORAGE
    (if malloc_ok then Some (replicate (Z.to_nat capacity) None) else None).
Definition BoundedQueue_default : queue T := mkQueue 0 0 0 NOT_OWN_STORAGE None.

(** [new (_items + i) T(x)], [_items[i] = x], [(_items + i)->~T()] and reading
    [_items[i]]. *)
Definition construct (i : Z) (x : T) (q : queue T) : option (queue T) :=
  match _items q with
  | Some a =>
      match a !! Z.to_nat i with
      | Some None => Some (mkQueue (_count q) (_cap q) (_start q) (_ownership q)
                             (Some (<[Z.to_nat i := Some x]> a)))
      | _ => None
      end
  | None => None
  end.
Definition assign (i : Z) (x : T) (q : queue T) : option (queue T) :=
  match _items q with
  | Some a =>
      match a !! Z.to_nat i with
      | Some (Some _) => Some (mkQueue (_count q) (_cap q) (_start q) (_ownership q)
                                 (Some (<[Z.to_nat i := Some x]> a)))
      | _ => None
      end
  | None => None
  end.
Definition destroy (i : Z) (q : queue T) : option (queue T) :=
  match _items q with
  | Some a =>
      match a !! Z.to_nat i with
      | Some (Some _) => Some (mkQueue (_count q) (_cap q) (_start q) (_ownership q)
                                 (Some (<[Z.to_nat i := None]> a)))
      | _ => None
      end
  | None => None
  end.
Definition fetch (i : Z) (q : queue T) : option T :=
  a ← _items q; o ← a !! Z.to_nat i; o.

Definition set_count (n : Z) (q : queue T) : queue T :=
  mkQueue n (_cap q) (_start q) (_ownership q) (_items q).
Definition set_start (s : Z) (q : queue T) : queue T :=
  mkQueue (_count q) (_cap q) s (_ownership q) (_items q).

Definition push (item : T) (q : queue T) : option (bool * queue T) :=
  if _count q <? _cap q then
    i ← _mod (u32 (_start q + _count q)) (_cap q);
    q1 ← construct i item q;
    Some (true, set_count (u32 (_count q + 1)) q1)
  else Some (false, q).

Definition elim_push (item : T) (q : queue T) : option (queue T) :=
  if _count q <? _cap q then
    i ← _mod (u32 (_start q + _count q)) (_cap q);
    q1 ← construct i item q;
    Some (set_count (u32 (_count q + 1)) q1)
  else
    q1 ← assign (_start q) item q;
    s ← _mod (u32 (_start q + 1)) (_cap q);
    Some (set_start s q1).

(** [push()] of a default-constructed item [dflt]: the slot, or NULL. *)
Definition push_default (dflt : T) (q : queue T) : option (option Z * queue T) :=
  if _count q <? _cap q then
    i ← _mod (u32 (_start q + _count q)) (_cap q);
    q1 ← construct i dflt (set_count (u32 (_count q + 1)) q);
    Some (Some i, q1)
  else Some (None, q).

Definition push_top (item : T) (q : queue T) : option (bool * queue T) :=
  if _count q <? _cap q then
    let q1 := set_start (if _start q =? 0 then u32 (_cap q - 1) else u32 (_start q - 1)) q in
    let q2 := set_count (u32 (_count q1 + 1)) q1 in
    q3 ← construct (_start q2) item q2;
    Some (true, q3)
  else Some (false, q).

Definition push_top_default (dflt : T) (q : queue T) : option (option Z * queue T) :=
  if _count q <? _cap q then
    let q1 := set_start (if _start q =? 0 then u32 (_cap q - 1) else u32 (_start q - 1)) q in
    let q2 := set_count (u32 (_count q1 + 1)) q1 in
    q3 ← construct (_start q2) dflt q2;
    Some (Some (_start q2), q3)
  else Some (None, q).

Definition pop (q : queue T) : option (bool * queue T) :=
  if negb (_count q =? 0) then
    let q1 := set_count (u32 (_count q - 1)) q in
    q2 ← destroy (_start q1) q1;
    s ← _mod (u32 (_start q2 + 1)) (_cap q2);
    Some (true, set_start s q2)
  else Some (false, q).

(** [pop(T* item)]: [Some x] is the copy stored in [item], [None] is [false]. *)
Definition pop_item (q : queue T) : option (option T * queue T) :=
  if negb (_count q =? 0) then
    let q1 := set_count (u32 (_count q - 1)) q in
    x ← fetch (_start q1) q1;
    q2 ← destroy (_start q1) q1;
    s ← _mod (u32 (_start q2 + 1)) (_cap q2);
    Some (Some x, set_start s q2)
  else Some (None, q).

Definition pop_bottom (q : queue T) : option (bool * queue T) :=
  if negb (_count q =? 0) then
    let q1 := set_count (u32 (_count q - 1)) q in
    i ← _mod (u32 (_start q1 + _count q1)) (_cap q1);
    q2 ← destroy i q1;
    Some (true, q2)
  else Some (false, q).

Definition pop_bottom_item (q : queue T) : option (option T * queue T) :=
  if negb (_count q =? 0) then
    let q1 := set_count (u32 (_count q - 1)) q in
    i ← _mod (u32 (_start q1 + _count q1)) (_cap q1);
    x ← fetch i q1;
    q2 ← destroy i q1;
    Some (Some x, q2)
  else Some (None, q).

Fixpoint clear_loop (n : nat) (i : Z) (q : queue T) : option (queue T) :=
  match n with
  | O => Some q
  | S n' =>
      j ← _mod (u32 (_start q + i)) (_cap q);
      q1 ← destroy j q;
      clear_loop n' (i + 1) q1
  end.
Definition clear (q : queue T) : option (queue T) :=
  q1 ← clear_loop (Z.to_nat (_count q)) 0 q;
  Some (set_start 0 (set_count 0 q1)).

(** The accessors return the object the pointer designates; the outer option
    is undefined behaviour, the inner one NULL. *)
Definition top (q : queue T) : option (option T) :=
  if negb (_count q =? 0) then x ← fetch (_start q) q; Some (Some x) else Some None.
Definition top_at (index : Z) (q : queue T) : option (option T) :=
  if index <? _count q then
    i ← _mod (u64 (_start q + index)) (_cap q);
    x ← fetch i q; Some (Some x)
  else Some None.
Definition bottom (q : queue T) : option (option T) :=
  if negb (_count q =? 0) then
    i ← _mod (u32 (_start q + _count q - 1)) (_cap q);
    x ← fetch i q; Some (Some x)
  else Some None.
Definition bottom_at (index : Z) (q : queue T) : option (option T) :=
  if index <? _count q then
    i ← _mod (u64 (u32 (_start q + _count q) - index - 1)) (_cap q);
    x ← fetch i q; Some (Some x)
  else Some None.

Definition empty (q : queue T) : bool := _count q =? 0.
Definition full (q : queue T) : bool := _cap q =? _count q.
Definition size (q : queue T) : Z := _count q.
Definition capacity (q : queue T) : Z := _cap q.
Definition max_capacity (q : queue T) : Z := u64 (Z.shiftl 1 (4 * 8)) - 1.
Definition initialized (q : queue T) : bool :=
  match _items q with Some _ => true | None => false end.
Definition swap (q rhs : queue T) : queue T * queue T := (rhs, q).

End Operations.

(** ** The invariant and the abstraction to a list

    [repr q l]: the live slots hold exactly [l], topmost item first. *)
Section Refinement.
Context {T : Type}.
Implicit Types (q : queue T) (x : T) (l : list T).

Definition repr (q : queue T) (l : list T) : Prop :=
  _count q = Z.of_nat (length l) /\
  _count q <= _cap q <= 2 ^ 31 /\
  (0 <= _start q < _cap q \/ (_cap q = 0 /\ _start q = 0)) /\
  match _items q with
  | None => _cap q = 0
  | Some a =>
      Z.of_nat (length a) = _cap q /\
      forall j, 0 <= j < _cap q ->
        a !! Z.to_nat j = Some (l !! Z.to_nat ((j - _start q) mod _cap q))
  end.

Lemma mod_loop_spec fuel off cap :
  0 < cap -> 0 <= off < Z.of_nat fuel -> mod_loop fuel off cap = Some (off mod cap).
Proof.
  intros Hc. revert off. induction fuel as [|fuel IH]; intros off Ho; [lia|].
  simpl. zcase.
  - rewrite IH by lia. f_equal.
    rewrite <- (Z.mod_add off (-1) cap) by lia. by f_equal; lia.
  - by rewrite Z.mod_small by lia.
Qed.

Lemma mod_spec off cap :
  0 < cap -> 0 <= off < 2 ^ 32 -> _mod off cap = Some (off mod cap).
Proof.
  intros. unfold _mod. rewrite u32_small by lia. apply mod_loop_spec; lia.
Qed.

(** The slot of the [i]-th item. *)
Local Abbreviation slot q i := ((_start q + i) mod _cap q).

Lemma slot_range q l i : repr q l -> 0 < _cap q -> 0 <= slot q i < _cap q.
Proof. intros _ ?. apply Z.mod_pos_bound. lia. Qed.

Lemma repr_cap q l :
  repr q l -> 0 < _cap q ->
  exists a, _items q = Some a /\ Z.of_nat (length a) = _cap q /\
    (forall j, 0 <= j < _cap q ->
       a !! Z.to_nat j = Some (l !! Z.to_nat ((j - _start q) mod _cap q))) /\
    (forall i, 0 <= i < _cap q -> a !! Z.to_nat (slot q i) = Some (l !! Z.to_nat i)).
Proof.
  intros (_ & Hc & Hs & Hit) Hpos. destruct (_items q) as [a|]; [|lia].
  destruct Hit as [Hl Ha]. exists a. split_and!; try done.
  intros i Hi. rewrite Ha by (apply Z.mod_pos_bound; lia).
  do 2 f_equal. rewrite ring_add by lia.
  rewrite ring_sub by zlia. zlia.
Qed.

(** Rebuilding [repr] after a write to slot [k]: only that slot changes. *)
Lemma repr_write q l q' l' a k v :
  _items q = Some a -> Z.of_nat (length a) = _cap q -> _cap q' = _cap q ->
  _items q' = Some (<[Z.to_nat k := v]> a) ->
  _cap q <= 2 ^ 31 -> 0 <= _start q' < _cap q -> 0 <= k < _cap q ->
  _count q' = Z.of_nat (length l') -> Z.of_nat (length l') <= _cap q ->
  l' !! Z.to_nat ((k - _start q') mod _cap q) = v ->
  (forall j, 0 <= j < _cap q -> j <> k ->
     a !! Z.to_nat j = Some (l' !! Z.to_nat ((j - _start q') mod _cap q))) ->
  repr q' l'.
Proof.
  intros Ha Hlen Hcap Hit Hb Hs Hk Hcnt Hle Hv Hrest.
  unfold repr. rewrite Hit, Hcap, length_insert. split_and!; try lia.
  intros j Hj. destruct (decide (j = k)) as [->|Hne].
  - rewrite list_lookup_insert_eq by lia. by rewrite Hv.
  - rewrite list_lookup_insert_ne by lia. by apply Hrest.
Qed.

(** Position of a slot in the list, the inverse of [slot]. *)
Lemma pos_slot q s i :
  0 <= s < _cap q -> 0 <= i < _cap q -> ((s + i) mod _cap q - s) mod _cap q = i.
Proof. intros. rewrite ring_add by lia. rewrite ring_sub by zlia. zlia. Qed.

Lemma pos_ne q s j i :
  0 <= s < _cap q -> 0 <= j < _cap q -> 0 <= i < _cap q ->
  j <> (s + i) mod _cap q -> (j - s) mod _cap q <> i.
Proof. intros Hs Hj Hi. rewrite ring_add by lia. rewrite ring_sub by lia. zlia. Qed.

Lemma pos_range q s j : 0 < _cap q -> 0 <= (j - s) mod _cap q < _cap q.
Proof. intros. apply Z.mod_pos_bound. lia. Qed.

(** ** Refinement of each operation *)
Lemma push_refines q l x :
  repr q l ->
  if Z.of_nat (length l) <? _cap q
  then exists q', push x q = Some (true, q') /\ repr q' (l ++ [x]) /\ _cap q' = _cap q
  else push x q = Some (false, q).
Proof.
  intros Hr. pose proof Hr as (Hcnt & Hc & Hs & _). unfold push. rewrite Hcnt.
  zcase; [|done].
  destruct (repr_cap q l Hr) as (a & Hit & Hlen & Ha & Hslot); [lia|].
  rewrite (u32_small (_start q + _)) by lia. rewrite mod_spec by lia. simpl.
  unfold construct. rewrite Hit. rewrite (Hslot (Z.of_nat (length l))) by lia.
  rewrite (proj2 (lookup_ge_None l _)) by lia. simpl.
  eexists. split; [done|]. split; [|done].
  pose proof (slot_range q l (Z.of_nat (length l)) Hr ltac:(lia)) as Hrange.
  eapply (repr_write q l _ _ a (slot q (Z.of_nat (length l))));
    simpl; try done; rewrite ?length_app; simpl; untrunc; try lia.
  - rewrite pos_slot by lia. rewrite lookup_app_r by lia.
    by replace (_ - _)%nat with 0%nat by lia.
  - intros j Hj Hne. rewrite Ha by done. f_equal. rewrite lookup_snoc_ne; [done|].
    pose proof (pos_ne q (_start q) j (Z.of_nat (length l))).
    pose proof (pos_range q (_start q) j). lia.
Qed.

Lemma elim_push_refines q l x :
  repr q l -> 0 < _cap q ->
  exists q', elim_push x q = Some q' /\ _cap q' = _cap q /\
    repr q' (if Z.of_nat (length l) <? _cap q then l ++ [x] else tail l ++ [x]).
Proof.
  intros Hr Hpos. pose proof Hr as (Hcnt & Hc & Hs & _).
  pose proof (push_refines q l x Hr) as Hpush. unfold elim_push, push in *.
  rewrite Hcnt in *. zcase.
  - destruct Hpush as (q' & Heq & Hr' & Hc').
    destruct (_mod _ _) as [i|]; simpl in *; [|done].
    destruct (construct _ _ _) as [q1|]; simpl in *; [|done].
    simplify_eq. eauto.
  - destruct (repr_cap q l Hr) as (a & Hit & Hlen & Ha & Hslot); [lia|].
    destruct l as [|y l]; simpl in *; [lia|].
    unfold assign. rewrite Hit, Ha by lia. rewrite Z.sub_diag, Z.mod_0_l by lia. simpl.
    rewrite (u32_small (_start q + 1)) by lia. rewrite mod_spec by lia. simpl.
    eexists. split_and!; [done|done|].
    pose proof (ring_add (_cap q) (_start q) 1 ltac:(lia) ltac:(lia)) as Hadd.
    pose proof (Z.mod_pos_bound (_start q + 1) (_cap q) Hpos) as Hb.
    eapply (repr_write q (y :: l) _ _ a (_start q));
      simpl; try done; rewrite ?length_app; simpl; untrunc; try lia.
    + rewrite ring_sub by lia. rewrite Hadd. rewrite lookup_app_r by zlia.
      by replace (_ - _)%nat with 0%nat by zlia.
    + intros j Hj Hne. rewrite Ha by done. f_equal. rewrite !ring_sub by lia.
      rewrite Hadd. rewrite lookup_snoc_ne by zlia.
      rewrite lookup_cons_ne_0 by zlia. f_equal. zlia.
Qed.

Lemma push_top_refines q l x :
  repr q l ->
  if Z.of_nat (length l) <? _cap q
  then exists q', push_top x q = Some (true, q') /\ repr q' (x :: l) /\ _cap q' = _cap q
  else push_top x q = Some (false, q).
Proof.
  intros Hr. pose proof Hr as (Hcnt & Hc & Hs & _). unfold push_top. rewrite Hcnt.
  zcase; [|done].
  destruct (repr_cap q l Hr) as (a & Hit & Hlen & Ha & Hslot); [lia|].
  set (s' := if _start q =? 0 then _ else _).
  assert (Hs' : s' = if _start q =? 0 then _cap q - 1 else _start q - 1)
    by (unfold s'; zcase; untrunc; lia).
  simpl. unfold construct. simpl. rewrite Hit, Ha by (rewrite Hs'; zlia).
  rewrite ring_sub by (rewrite ?Hs'; zlia).
  rewrite (proj2 (lookup_ge_None l _)) by (rewrite Hs'; zlia). simpl.
  eexists. split; [done|]. split; [|done].
  eapply (repr_write q l _ _ a s'); simpl; try done; untrunc; try (rewrite ?Hs'; zlia).
  - by rewrite Z.sub_diag, Z.mod_0_l by lia.
  - intros j Hj Hne. rewrite Ha by done. f_equal.
    rewrite !ring_sub by (rewrite ?Hs'; zlia).
    rewrite lookup_cons_ne_0 by (revert Hne; rewrite Hs'; zlia). f_equal.
    revert Hne. rewrite Hs'. zlia.
Qed.

(** Removing the topmost item: the slot of [_start] is destroyed. *)
Lemma pop_step q x l :
  repr q (x :: l) ->
  exists q2, destroy (_start q) (set_count (u32 (_count q - 1)) q) = Some q2 /\
    fetch (_start q) (set_count (u32 (_count q - 1)) q) = Some x /\
    _cap q2 = _cap q /\ _start q2 = _start q /\
    _mod (u32 (_start q2 + 1)) (_cap q2) = Some ((_start q + 1) mod _cap q) /\
    repr (set_start ((_start q + 1) mod _cap q) q2) l.
Proof.
  intros Hr. pose proof Hr as (Hcnt & Hc & Hs & _). simpl in Hcnt.
  destruct (repr_cap q (x :: l) Hr) as (a & Hit & Hlen & Ha & Hslot); [lia|].
  assert (H0 : a !! Z.to_nat (_start q) = Some (Some x)).
  { rewrite Ha by lia. by rewrite Z.sub_diag, Z.mod_0_l by lia. }
  unfold destroy, fetch. simpl. rewrite Hit. simpl. rewrite H0. simpl.
  eexists. split_and!; try done; simpl.
  { rewrite u32_small by lia. apply mod_spec; lia. }
  pose proof (ring_add (_cap q) (_start q) 1 ltac:(lia) ltac:(lia)) as Hadd.
  pose proof (Z.mod_pos_bound (_start q + 1) (_cap q) ltac:(lia)) as Hb.
  eapply (repr_write q (x :: l) _ _ a (_start q)); simpl; try done; untrunc; try lia.
  - rewrite ring_sub by lia. rewrite Hadd. apply lookup_ge_None. zlia.
  - intros j Hj Hne. rewrite Ha by done. f_equal. rewrite !ring_sub by lia.
    rewrite Hadd. rewrite lookup_cons_ne_0 by zlia. f_equal. zlia.
Qed.

Lemma pop_refines q l :
  repr q l ->
  match l with
  | [] => pop q = Some (false, q) /\ pop_item q = Some (None, q)
  | x :: l' =>
      exists q', pop q = Some (true, q') /\ pop_item q = Some (Some x, q') /\
        repr q' l' /\ _cap q' = _cap q
  end.
Proof.
  intros Hr. pose proof Hr as (Hcnt & _). unfold pop, pop_item.
  destruct l as [|x l]; simpl in Hcnt; zcase; try lia; [done|]. simpl.
  destruct (pop_step q x l Hr) as (q2 & Hd & Hf & Hcap & Hst & Hm & Hr').
  rewrite Hd, Hf. simpl. rewrite Hm. simpl. eauto 10.
Qed.

(** Removing the bottommost item: the slot of the last item is destroyed. *)
Lemma pop_bottom_step q x l :
  repr q (l ++ [x]) ->
  let q1 := set_count (u32 (_count q - 1)) q in
  let i := slot q (Z.of_nat (length l)) in
  _mod (u32 (_start q1 + _count q1)) (_cap q1) = Some i /\
  fetch i q1 = Some x /\
  exists q2, destroy i q1 = Some q2 /\ repr q2 l /\ _cap q2 = _cap q.
Proof.
  intros Hr. pose proof Hr as (Hcnt & Hc & Hs & _). rewrite length_app in Hcnt.
  simpl in Hcnt.
  destruct (repr_cap q _ Hr) as (a & Hit & Hlen & Ha & Hslot); [lia|]. simpl.
  assert (H0 : a !! Z.to_nat (slot q (Z.of_nat (length l))) = Some (Some x)).
  { rewrite Hslot by lia. rewrite lookup_app_r by lia.
    by replace (_ - _)%nat with 0%nat by lia. }
  untrunc. replace (_count q - 1) with (Z.of_nat (length l)) by lia. split.
  { apply mod_spec; lia. }
  unfold destroy, fetch. simpl. rewrite Hit. simpl. rewrite H0. simpl.
  split; [done|]. eexists. split_and!; try done.
  pose proof (slot_range q _ (Z.of_nat (length l)) Hr ltac:(lia)) as Hrange.
  eapply (repr_write q (l ++ [x]) _ _ a (slot q (Z.of_nat (length l))));
    simpl; try done; try lia.
  - rewrite pos_slot by lia. apply lookup_ge_None. lia.
  - intros j Hj Hne. rewrite Ha by done. f_equal. rewrite lookup_snoc_ne; [done|].
    pose proof (pos_ne q (_start q) j (Z.of_nat (length l))).
    pose proof (pos_range q (_start q) j). lia.
Qed.

Lemma pop_bottom_refines q l :
  repr q l ->
  match reverse l with
  | [] => pop_bottom q = Some (false, q) /\ pop_bottom_item q = Some (None, q)
  | x :: r =>
      exists q', pop_bottom q = Some (true, q') /\
        pop_bottom_item q = Some (Some x, q') /\
        repr q' (reverse r) /\ _cap q' = _cap q
  end.
Proof.
  intros Hr. pose proof Hr as (Hcnt & _). unfold pop_bottom, pop_bottom_item.
  destruct l as [|x l _] using rev_ind.
  - simpl in *. by rewrite Hcnt.
  - rewrite reverse_snoc, reverse_involutive.
    rewrite length_app in Hcnt. simpl in Hcnt. zcase; [lia|]. simpl.
    destruct (pop_bottom_step q x l Hr) as (Hm & Hf & q2 & Hd & Hr' & Hcap).
    simpl in *. rewrite Hm. simpl. rewrite Hf, Hd. simpl. eauto 10.
Qed.

Lemma top_at_refines q l i :
  repr q l -> 0 <= i -> top_at i q = Some (l !! Z.to_nat i).
Proof.
  intros Hr Hi. pose proof Hr as (Hcnt & Hc & Hs & _). unfold top_at. rewrite Hcnt.
  zcase; [|by rewrite (proj2 (lookup_ge_None l _)) by lia].
  destruct (repr_cap q l Hr) as (a & Hit & Hlen & Ha & Hslot); [lia|].
  rewrite u64_small by lia. rewrite mod_spec by lia. simpl. unfold fetch. rewrite Hit.
  simpl. rewrite Hslot by lia. simpl.
  destruct (lookup_lt_is_Some_2 l (Z.to_nat i)) as [x Hx]; [lia|]. by rewrite Hx.
Qed.

Lemma bottom_at_refines q l i :
  repr q l -> 0 <= i -> bottom_at i q = Some (reverse l !! Z.to_nat i).
Proof.
  intros Hr Hi. pose proof Hr as (Hcnt & Hc & Hs & _).
  pose proof (top_at_refines q l (_count q - i - 1) Hr) as Htop.
  unfold bottom_at, top_at in *. rewrite Hcnt in *. zcase.
  - rewrite (proj2 (Z.ltb_lt _ _)) in Htop by lia.
    rewrite (u32_small (_start q + _)) by lia.
    replace (_start q + Z.of_nat (length l) - i - 1)
      with (_start q + (Z.of_nat (length l) - i - 1)) by lia.
    rewrite Htop by lia. f_equal. rewrite reverse_lookup by lia. f_equal. lia.
  - rewrite (proj2 (lookup_ge_None _ _)); [done|]. rewrite length_reverse. lia.
Qed.

Lemma push_default_refines q l x :
  repr q l ->
  if Z.of_nat (length l) <? _cap q
  then exists q', push_default x q = Some (Some (slot q (Z.of_nat (length l))), q') /\
         repr q' (l ++ [x]) /\ _cap q' = _cap q
  else push_default x q = Some (None, q).
Proof.
  intros Hr. pose proof Hr as (Hcnt & Hc & Hs & _).
  pose proof (push_refines q l x Hr) as Hpush. unfold push_default, push in *.
  rewrite Hcnt in *. zcase; [|done].
  rewrite (u32_small (_start q + _)) in * by lia. rewrite mod_spec in * by lia. simpl in *.
  unfold construct in *. simpl. destruct Hpush as (q' & Heq & Hr' & Hc').
  destruct (_items q) as [a|]; simpl in *; [|done].
  destruct (a !! _) as [[?|]|]; simpl in *; try done. simplify_eq. eauto.
Qed.

Lemma push_top_default_refines q l x :
  repr q l ->
  if Z.of_nat (length l) <? _cap q
  then exists q', push_top_default x q = Some (Some (_start q'), q') /\
         repr q' (x :: l) /\ _cap q' = _cap q
  else push_top_default x q = Some (None, q).
Proof.
  intros Hr. pose proof (push_top_refines q l x Hr) as Hpush.
  pose proof Hr as (Hcnt & _). unfold push_top_default, push_top in *.
  rewrite Hcnt in *. zcase; [|done]. simpl in *.
  destruct Hpush as (q' & Heq & Hr' & Hc'). unfold construct in *. simpl in *.
  destruct (_items q) as [a|]; simpl in *; [|done].
  destruct (a !! _) as [[?|]|]; simpl in *; try done. simplify_eq.
  eexists. split; [|split; [exact Hr'|exact Hc']]. done.
Qed.

Lemma top_refines q l : repr q l -> top q = Some (head l).
Proof.
  intros Hr. pose proof (top_at_refines q l 0 Hr) as Ht. pose proof Hr as (Hcnt & Hc & Hs & _).
  unfold top, top_at in *. rewrite Hcnt in *.
  destruct l as [|x l]; simpl in *; [done|].
  rewrite u64_small, mod_spec in Ht by lia. simpl in Ht.
  rewrite Z.add_0_r, Z.mod_small in Ht by lia. by rewrite Ht by lia.
Qed.

Lemma bottom_refines q l : repr q l -> bottom q = Some (last l).
Proof.
  intros Hr. pose proof (bottom_at_refines q l 0 Hr) as Ht.
  pose proof Hr as (Hcnt & Hc & Hs & _). unfold bottom, bottom_at in *. rewrite Hcnt in *.
  destruct l as [|x l _] using rev_ind; [done|].
  rewrite length_app in *. simpl in *. zcase; [lia|]. simpl.
  rewrite (proj2 (Z.ltb_lt _ _)) in Ht by lia.
  rewrite (u32_small (_start q + _)) in Ht by lia. rewrite u64_small, mod_spec in Ht by lia.
  rewrite u32_small, mod_spec by lia. simpl in *.
  rewrite Z.sub_0_r in Ht. rewrite Ht by lia. by rewrite last_snoc, reverse_snoc.
Qed.

(** [clear] destroys the items from the top; each round leaves the rest, with
    [_count] still counting the destroyed ones. *)
Lemma clear_loop_spec q l i :
  _count q = i + Z.of_nat (length l) -> 0 <= i ->
  repr (set_start ((_start q + i) mod _cap q) (set_count (Z.of_nat (length l)) q)) l ->
  _count q <= _cap q -> 0 <= _start q < _cap q ->
  exists q', clear_loop (length l) i q = Some q' /\ _cap q' = _cap q /\
    _items q' = Some (replicate (Z.to_nat (_cap q)) None).
Proof.
  revert q i. induction l as [|x l IH]; intros q i Hcnt Hi Hr Hle Hs; simpl.
  - exists q. split_and!; try done. destruct Hr as (_ & _ & _ & Hr). simpl in Hr.
    destruct (_items q) as [a|]; [|lia]. destruct Hr as [Hlen Ha]. f_equal.
    apply list_eq. intros j. destruct (decide (j < length a)%nat).
    + rewrite lookup_replicate_2 by lia. rewrite <- (Nat2Z.id j). by rewrite Ha by lia.
    + rewrite !(proj2 (lookup_ge_None _ _)); [done| |lia]. rewrite length_replicate. lia.
  - simpl in *. destruct (pop_step _ x l Hr) as (q2 & Hd & _ & Hcap & Hst & _ & Hr2).
    simpl in *. destruct Hr as (_ & Hc & _). simpl in Hc.
    rewrite u32_small by lia. rewrite mod_spec by lia. simpl.
    unfold destroy in *. simpl in *. destruct (_items q) as [a|]; simpl in *; [|done].
    destruct (a !! _) as [[?|]|]; simpl in *; try done. simplify_eq. simpl in *.
    edestruct (IH (mkQueue (_count q) (_cap q) (_start q) (_ownership q)
                  (Some (<[Z.to_nat ((_start q + i) mod _cap q) := None]> a))) (i + 1))
      as (q' & -> & Hc' & Hit'); simpl; try lia; eauto.
    unfold set_start, set_count in *. simpl in *.
    rewrite Z.add_mod_idemp_l in Hr2 by lia.
    replace (_start q + (i + 1)) with (_start q + i + 1) by lia.
    rewrite u32_small in Hr2 by lia.
    by replace (Z.of_nat (S (length l)) - 1) with (Z.of_nat (length l)) in Hr2 by lia.
Qed.

Lemma clear_refines q l :
  repr q l -> exists q', clear q = Some q' /\ repr q' [] /\ _cap q' = _cap q.
Proof.
  intros Hr. pose proof Hr as (Hcnt & Hc & Hs & Hit). unfold clear.
  destruct (decide (0 < _cap q)) as [Hpos|Hz].
  - destruct (clear_loop_spec q l 0) as (q' & Heq & Hcap & Hit'); try lia.
    { destruct q. simpl in *. rewrite Z.add_0_r, Z.mod_small by lia.
      unfold set_start, set_count. simpl. by rewrite <- Hcnt. }
    rewrite Hcnt, Nat2Z.id, Heq. simpl. eexists. split_and!; try done.
    unfold repr. simpl. rewrite Hit', length_replicate. split_and!; try lia.
    intros j Hj. by rewrite lookup_replicate_2 by lia.
  - destruct l; simpl in *; [|lia]. rewrite Hcnt. simpl. eexists. split_and!; try done.
    unfold repr. simpl. destruct (_items q); split_and!; try lia; naive_solver lia.
Qed.

(** ** Sequences of operations against the bounded-list specification *)
Inductive op :=
| OPush (x : T) | OElimPush (x : T) | OPushDefault (x : T) | OPushTop (x : T)
| OPop | OPopBottom | OClear | OTop (i : Z) | OBottom (i : Z).
(** What an operation answers: a status, or an item ([None] is NULL). *)
Inductive answer := AStatus (b : bool) | AItem (o : option T) | AUnit.

Definition step (o : op) (q : queue T) : option (answer * queue T) :=
  match o with
  | OPush x => '(b, q') ← push x q; Some (AStatus b, q')
  | OElimPush x => q' ← elim_push x q; Some (AUnit, q')
  | OPushDefault x =>
      '(p, q') ← push_default x q; Some (AStatus (bool_decide (is_Some p)), q')
  | OPushTop x => '(b, q') ← push_top x q; Some (AStatus b, q')
  | OPop => '(x, q') ← pop_item q; Some (AItem x, q')
  | OPopBottom => '(x, q') ← pop_bottom_item q; Some (AItem x, q')
  | OClear => q' ← clear q; Some (AUnit, q')
  | OTop i => x ← top_at i q; Some (AItem x, q)
  | OBottom i => x ← bottom_at i q; Some (AItem x, q)
  end.
Fixpoint run (os : list op) (q : queue T) : option (list answer * queue T) :=
  match os with
  | [] => Some ([], q)
  | o :: os' => '(a, q1) ← step o q; '(as_, q2) ← run os' q1; Some (a :: as_, q2)
  end.

(** The specification: a list of at most [cap] items. *)
Definition spec_step (cap : Z) (o : op) (l : list T) : answer * list T :=
  let room := Z.of_nat (length l) <? cap in
  match o with
  | OPush x | OPushDefault x => (AStatus room, if room then l ++ [x] else l)
  | OElimPush x => (AUnit, if room then l ++ [x] else tail l ++ [x])
  | OPushTop x => (AStatus room, if room then x :: l else l)
  | OPop => (AItem (head l), tail l)
  | OPopBottom => (AItem (last l), reverse (tail (reverse l)))
  | OClear => (AUnit, [])
  | OTop i => (AItem (l !! Z.to_nat i), l)
  | OBottom i => (AItem (reverse l !! Z.to_nat i), l)
  end.
Fixpoint spec_run (cap : Z) (os : list op) (l : list T) : list answer * list T :=
  match os with
  | [] => ([], l)
  | o :: os' =>
      let '(a, l1) := spec_step cap o l in
      let '(as_, l2) := spec_run cap os' l1 in (a :: as_, l2)
  end.
(** The indices of the random accesses are [size_t]. *)
Definition op_ok (o : op) : Prop :=
  match o with OTop i | OBottom i => 0 <= i | _ => True end.

Lemma step_refines o q l :
  repr q l -> 0 < _cap q -> op_ok o ->
  exists q', step o q = Some (fst (spec_step (_cap q) o l), q') /\
    repr q' (snd (spec_step (_cap q) o l)) /\ _cap q' = _cap q.
Proof.
  intros Hr Hpos Hok. destruct o as [x|x|x|x| | | |i|i]; simpl in *.
  - pose proof (push_refines q l x Hr) as Hp.
    zcase; [destruct Hp as (q' & -> & ?)|rewrite Hp]; simpl; destruct_and?; eauto.
  - destruct (elim_push_refines q l x Hr Hpos) as (q' & -> & ? & ?). simpl. eauto.
  - pose proof (push_default_refines q l x Hr) as Hp.
    zcase; [destruct Hp as (q' & -> & ?)|rewrite Hp]; simpl; destruct_and?; eauto.
  - pose proof (push_top_refines q l x Hr) as Hp.
    zcase; [destruct Hp as (q' & -> & ?)|rewrite Hp]; simpl; destruct_and?; eauto.
  - pose proof (pop_refines q l Hr) as H.
    destruct l; [destruct H as [_ ->]|destruct H as (q' & _ & -> & ?)]; simpl; destruct_and?; eauto.
  - pose proof (pop_bottom_refines q l Hr) as H. rewrite <- (reverse_involutive l).
    rewrite last_reverse, reverse_involutive.
    destruct (reverse l) eqn:E; [destruct H as [_ ->]|destruct H as (q' & _ & -> & ?)];
      simpl; [|by eauto].
    apply (f_equal reverse) in E. rewrite reverse_involutive in E. subst. eauto.
  - destruct (clear_refines q l Hr) as (q' & -> & ? & ?). simpl. eauto.
  - rewrite (top_at_refines q l i Hr Hok). simpl. eauto.
  - rewrite (bottom_at_refines q l i Hr Hok). simpl. eauto.
Qed.

Lemma run_refines os q l :
  repr q l -> 0 < _cap q -> Forall op_ok os ->
  exists q', run os q = Some (fst (spec_run (_cap q) os l), q') /\
    repr q' (snd (spec_run (_cap q) os l)).
Proof.
  intros Hr Hpos Hok. revert q l Hr Hpos.
  induction Hok as [|o os Ho Hos IH]; intros q l Hr Hpos; simpl; [eauto|].
  destruct (step_refines o q l Hr Hpos Ho) as (q1 & -> & Hr1 & Hc1). simpl.
  destruct (IH q1 (snd (spec_step (_cap q) o l)) Hr1) as (q2 & Heq & Hr2); [lia|].
  rewrite Heq, Hc1. simpl. rewrite Hc1 in Hr2.
  destruct (spec_step (_cap q) o l) as [a l1]; simpl in *.
  destruct (spec_run (_cap q) os l1) as [as_ l2]; simpl in *. eauto.
Qed.

Lemma repr_new (n : Z) :
  0 < n <= 2 ^ 31 -> repr (BoundedQueue_capacity n true) [].
Proof.
  intros Hn. unfold repr, BoundedQueue_capacity. simpl. untrunc.
  rewrite length_replicate. split_and!; try lia.
  intros j Hj. by rewrite lookup_replicate_2 by lia.
Qed.

End Refinement.

(** ** Properties *)

(** C33: any sequence of operations on a queue constructed with a capacity of
    1 to 2^31 runs without undefined behaviour and without the endless loop of
    [_mod], answers what a list of at most [capacity] items answers, and leaves
    exactly the remaining items constructed in the storage. *)
Theorem queue_refines_bounded_list {T} (n : Z) (os : list (op (T:=T))) :
  0 < n <= 2 ^ 31 -> Forall op_ok os ->
  exists q', run os (BoundedQueue_capacity n true) = Some (fst (spec_run n os []), q') /\
    repr q' (snd (spec_run n os [])).
Proof.
  intros Hn Hos. pose proof (repr_new (T:=T) n Hn) as Hr.
  destruct (run_refines os _ [] Hr) as (q' & Heq & Hr'); simpl; untrunc; try lia; try done.
  simpl in *. rewrite u32_small in * by lia. eauto.
Qed.

(** A full queue of two items evicts, pops from both ends and is reused. *)
Lemma queue_refines_witness :
  (0 < 2 <= 2 ^ 31) /\
  exists q', run [OPush 1; OPush 2; OPush 3; OElimPush 4; OPushTop 5; OTop 1; OPopBottom; OPop; OPop]
      (BoundedQueue_capacity 2 true)
    = Some ([AStatus true; AStatus true; AStatus false; AUnit; AStatus false;
             AItem (Some 4); AItem (Some 4); AItem (Some 2); AItem None], q') /\
    repr q' [].
Proof.
  split; [lia|].
  apply (queue_refines_bounded_list 2
    [OPush 1; OPush 2; OPush 3; OElimPush 4; OPushTop 5; OTop 1; OPopBottom; OPop; OPop]).
  - lia.
  - repeat constructor. simpl. lia.
Defined.

(** Beyond 2^31 items the ring index is wrong although [max_capacity] still
    promises 2^32-1: the sum [_start + _count] is computed in 32 bits, so with
    a capacity of 2^32-1 the slot chosen by [push] is not the one after the last
    item. *)
Theorem queue_index_wraps_above_2_31 :
  let cap := 2 ^ 32 - 1 in let start := 2 ^ 31 in let count := 2 ^ 31 + 5 in
  max_capacity (T:=Z) BoundedQueue_default = cap /\ count < cap /\
  _mod (u32 (start + count)) cap = Some 5 /\ (start + count) mod cap = 6.
Proof.
  by split_and!.
Qed.

End BoundedQueue.
