(* ===== verification/IOBufBlock.v ===== *)
(** * IOBuf blocks and the thread-local block cache
      (butil/iobuf.cpp: struct IOBuf::Block, namespace iobuf)

    A block is a reference-counted byte array; [nshared] counts the BlockRefs,
    the thread-local chain and the other holders of a pointer to it.  The heap
    maps addresses to live blocks: a use of a freed or never allocated block is
    undefined behaviour ([ub]).  The allocator is a parameter: the [n]-th
    allocation succeeds when [malloc_ok n] and the memory holds [junk n].
    [nshared], an atomic int in the source, is a number without bounds: 2^31
    references to one block are not considered.
    The IOBuf profiler is off ([IsIOBufProfilerEnabled] = false), so no block
    is sampled and [max_blocks_per_thread] is MAX_BLOCKS_PER_THREAD. *)
From stdpp Require Import base list gmap.
From Stdlib Require Import ZArith Lia Bool.
From S2P Require Import Prelude.

Open Scope Z_scope.
Open Scope m_scope.

(** The address of a block. *)
Abbreviation bid := positive.

Class Env := {
  malloc_ok : bid -> bool;
  junk : bid -> nat -> Z
}.
(** An allocator that always succeeds and returns zeroed memory. *)
Definition plenty : Env := {| malloc_ok := fun _ => true; junk := fun _ _ => 0 |}.

Module Block.

Definition IOBUF_BLOCK_FLAGS_USER_DATA : Z := Z.shiftl 1 0.
Definition DEFAULT_BLOCK_SIZE : Z := 8192.
(** The layout of the struct on LP64: 4 + 2 + 2 + 4 + 4 + 8 + 8 bytes. *)
Definition sizeof_Block : Z := 32.
Definition offsetof_data : Z := 24.

(** The union [u]. *)
Inductive BlockU := portal_next (next : option bid) | data_meta (meta : Z).

Record Block := mkBlock {
  nshared : Z;
  flags : Z;
  size : Z;
  cap : Z;
  u : BlockU;
  data : list Z        (* the bytes the pointer [data] gives access to *)
}.

Definition full (b : Block) : bool := cap b <=? size b.
Definition left_space (b : Block) : Z := u32 (cap b - size b).
Definition is_user_data (b : Block) : bool :=
  negb (Z.land (flags b) IOBUF_BLOCK_FLAGS_USER_DATA =? 0).
(** Reading the other member of the union would be undefined; no block with user data
    is ever in a chain, see [chain] below. *)
Definition get_portal_next (b : Block) : option bid :=
  match u b with portal_next n => n | data_meta _ => None end.

Definition set_nshared (n : Z) (b : Block) : Block :=
  mkBlock n (flags b) (size b) (cap b) (u b) (data b).
Definition set_size (n : Z) (b : Block) : Block :=
  mkBlock (nshared b) (flags b) n (cap b) (u b) (data b).
Definition set_u (x : BlockU) (b : Block) : Block :=
  mkBlock (nshared b) (flags b) (size b) (cap b) x (data b).
Definition set_data (d : list Z) (b : Block) : Block :=
  mkBlock (nshared b) (flags b) (size b) (cap b) (u b) d.

(** The state: the heap, the thread-local data and the global counters. *)
Record World := mkWorld {
  heap : gmap bid Block;
  next_bid : bid;                 (* the next address handed out *)
  block_head : option bid;        (* g_tls_data.block_head *)
  num_blocks : Z;                 (* g_tls_data.num_blocks *)
  registered : bool;              (* g_tls_data.registered *)
  g_nblock : Z;
  g_blockmem : Z;
  g_newbigview : Z;
  g_num_hit_tls_threshold : Z;
  deleter_calls : list bid        (* user-data deleters run, latest first *)
}.

Definition set_heap (h : gmap bid Block) (w : World) : World :=
  mkWorld h (next_bid w) (block_head w) (num_blocks w) (registered w) (g_nblock w)
    (g_blockmem w) (g_newbigview w) (g_num_hit_tls_threshold w) (deleter_calls w).
Definition set_tls (h : option bid) (n : Z) (r : bool) (w : World) : World :=
  mkWorld (heap w) (next_bid w) h n r (g_nblock w)
    (g_blockmem w) (g_newbigview w) (g_num_hit_tls_threshold w) (deleter_calls w).
Definition set_counters (nb bm nv nh : Z) (w : World) : World :=
  mkWorld (heap w) (next_bid w) (block_head w) (num_blocks w) (registered w)
    nb bm nv nh (deleter_calls w).
Definition bump_next (w : World) : World :=
  mkWorld (heap w) (Pos.succ (next_bid w)) (block_head w) (num_blocks w) (registered w)
    (g_nblock w) (g_blockmem w) (g_newbigview w) (g_num_hit_tls_threshold w)
    (deleter_calls w).
Definition log_deleter (b : bid) (w : World) : World :=
  mkWorld (heap w) (next_bid w) (block_head w) (num_blocks w) (registered w)
    (g_nblock w) (g_blockmem w) (g_newbigview w) (g_num_hit_tls_threshold w)
    (b :: deleter_calls w).

Definition w0 : World := mkWorld ∅ 1 None 0 false 0 0 0 0 [].

(** Access to a block through its address. *)
Definition load (b : bid) : M World Block :=
  fun w => (fun blk => (blk, w)) <$> heap w !! b.
Definition store (b : bid) (blk : Block) : M World unit :=
  fun w => match heap w !! b with
           | Some _ => Some (tt, set_heap (<[b := blk]> (heap w)) w)
           | None => None
           end.
Definition modify (b : bid) (f : Block -> Block) : M World unit :=
  let* blk := load b in store b (f blk).
Definition free (b : bid) : M World unit :=
  fun w => match heap w !! b with
           | Some _ => Some (tt, set_heap (delete b (heap w)) w)
           | None => None
           end.

(** [memcpy(b->data + off, src, n)] and reading [n] bytes at [off]. *)
Definition write_at (b : bid) (off : Z) (src : list Z) : M World unit :=
  let* blk := load b in
  if (0 <=? off) && (off + Z.of_nat (length src) <=? Z.of_nat (length (data blk))) then
    store b (set_data (take (Z.to_nat off) (data blk) ++ src ++
                       drop (Z.to_nat off + length src) (data blk)) blk)
  else ub.
Definition read_at (b : bid) (off n : Z) : M World (list Z) :=
  let* blk := load b in
  if (0 <=? off) && (0 <=? n) && (off + n <=? Z.of_nat (length (data blk))) then
    mret (take (Z.to_nat n) (drop (Z.to_nat off) (data blk)))
  else ub.

Definition inc_ref (b : bid) : M World unit :=
  modify b (fun blk => set_nshared (nshared blk + 1) blk).

Definition dec_ref (b : bid) : M World unit :=
  let* blk := load b in
  do* store b (set_nshared (nshared blk - 1) blk) in
  if nshared blk =? 1 then
    if negb (is_user_data blk) then
      do* mmod (fun w => set_counters (u64 (g_nblock w - 1))
                 (u64 (g_blockmem w - (cap blk + sizeof_Block)))
                 (g_newbigview w) (g_num_hit_tls_threshold w) w) in
      free b
    else
      do* mmod (log_deleter b) in
      free b
  else mret tt.

Section WithEnv.
Context `{Env}.

(** [create_block(block_size)]; [None] is NULL. *)
Definition create_block_sized (block_size : Z) : M World (option bid) :=
  if 0xFFFFFFFF <? block_size then mret None
  else
    let* w := mget in
    let b := next_bid w in
    do* mmod bump_next in
    if malloc_ok b then
      let dsize := u32 (block_size - sizeof_Block) in
      let mem := map (junk b) (seq 0 (Z.to_nat (block_size - sizeof_Block))) in
      do* mmod (fun w => set_heap (<[b := mkBlock 1 0 0 dsize (portal_next None) mem]> (heap w)) w) in
      do* mmod (fun w => set_counters (u64 (g_nblock w + 1))
                 (u64 (g_blockmem w + (dsize + sizeof_Block)))
                 (g_newbigview w) (g_num_hit_tls_threshold w) w) in
      mret (Some b)
    else mret None.
Definition create_block : M World (option bid) := create_block_sized DEFAULT_BLOCK_SIZE.

Definition MAX_BLOCKS_PER_THREAD : Z := 8.

(** A chain of [n] blocks needs at most [n] rounds: the fuel of the loops below. *)
Definition chain_fuel (w : World) : nat := S (base.size (heap w)).

(** The do-while loop of [remove_tls_block_chain]: releases the chain at [b],
    returns its length. *)
Fixpoint release_chain (fuel : nat) (b : bid) (n : Z) : M World Z :=
  match fuel with
  | O => ub
  | S fuel' =>
      let* blk := load b in
      let saved_next := get_portal_next blk in
      do* dec_ref b in
      match saved_next with
      | Some b' => release_chain fuel' b' (n + 1)
      | None => mret (n + 1)
      end
  end.

(** [CHECK_EQ(n, num_blocks)] only logs; the counter is reset either way. *)
Definition remove_tls_block_chain : M World unit :=
  let* w := mget in
  match block_head w with
  | None => mret tt
  | Some b =>
      do* mmod (fun w => set_tls None (num_blocks w) (registered w) w) in
      let* _ := release_chain (chain_fuel w) b 0 in
      mmod (fun w => set_tls (block_head w) 0 (registered w) w)
  end.

(** The loop of [share_tls_block] that drops full blocks from the head; the
    TLS head itself is only assigned afterwards. *)
Fixpoint drop_full (fuel : nat) (b : option bid) : M World (option bid) :=
  match fuel with
  | O => ub
  | S fuel' =>
      match b with
      | None => mret None
      | Some b0 =>
          let* blk := load b0 in
          if full blk then
            let saved_next := get_portal_next blk in
            do* dec_ref b0 in
            do* mmod (fun w => set_tls (block_head w) (num_blocks w - 1) (registered w) w) in
            drop_full fuel' saved_next
          else mret (Some b0)
      end
  end.

(** The end of [share_tls_block]: creates a block when none is left and makes
    it the head. *)
Definition share_tls_finish (nb : option bid) : M World (option bid) :=
  let* new_block :=
    match nb with
    | Some b => mret (Some b)
    | None =>
        let* o := create_block in
        match o with
        | Some b =>
            do* mmod (fun w => set_tls (block_head w) (num_blocks w + 1) (registered w) w) in
            mret (Some b)
        | None => mret None
        end
    end in
  do* mmod (fun w => set_tls new_block (num_blocks w) (registered w) w) in
  mret new_block.

Definition share_tls_block : M World (option bid) :=
  let* w := mget in
  match block_head w with
  | Some b =>
      let* blk := load b in
      if negb (full blk) then mret (Some b)
      else
        let* nb := drop_full (chain_fuel w) (Some b) in
        share_tls_finish nb
  | None =>
      do* (if negb (registered w)
           then mmod (fun w => set_tls (block_head w) (num_blocks w) true w)
           else mret tt) in
      share_tls_finish None
  end.

Definition release_tls_block (ob : option bid) : M World unit :=
  match ob with
  | None => mret tt
  | Some b =>
      let* blk := load b in
      let* w := mget in
      if full blk then dec_ref b
      else if MAX_BLOCKS_PER_THREAD <=? num_blocks w then
        do* dec_ref b in
        mmod (fun w => set_counters (g_nblock w) (g_blockmem w) (g_newbigview w)
                (u64 (g_num_hit_tls_threshold w + 1)) w)
      else
        do* modify b (set_u (portal_next (block_head w))) in
        mmod (fun w => set_tls (Some b) (num_blocks w + 1) true w)
  end.

(** The walk to the last block of a chain: its address and the length. *)
Fixpoint last_of_chain (fuel : nat) (b : bid) (n : Z) : M World (bid * Z) :=
  match fuel with
  | O => ub
  | S fuel' =>
      let* blk := load b in
      match get_portal_next blk with
      | None => mret (b, n + 1)
      | Some b' => last_of_chain fuel' b' (n + 1)
      end
  end.

Definition release_tls_block_chain (b : bid) : M World unit :=
  let* w := mget in
  if MAX_BLOCKS_PER_THREAD <=? num_blocks w then
    let* n := release_chain (chain_fuel w) b 0 in
    mmod (fun w => set_counters (g_nblock w) (g_blockmem w) (g_newbigview w)
            (u64 (g_num_hit_tls_threshold w + n)) w)
  else
    let* (last_b, n) := last_of_chain (chain_fuel w) b 0 in
    do* modify last_b (set_u (portal_next (block_head w))) in
    mmod (fun w => set_tls (Some b) (num_blocks w + n) true w).

(** The while loop of [acquire_tls_block]; it pops the head as it goes. *)
Fixpoint acquire_loop (fuel : nat) (b : bid) : M World (option bid) :=
  match fuel with
  | O => ub
  | S fuel' =>
      let* blk := load b in
      if full blk then
        let saved_next := get_portal_next blk in
        do* dec_ref b in
        do* mmod (fun w => set_tls saved_next (num_blocks w - 1) (registered w) w) in
        match saved_next with
        | None => create_block
        | Some b' => acquire_loop fuel' b'
        end
      else
        do* mmod (fun w => set_tls (get_portal_next blk) (num_blocks w - 1) (registered w) w) in
        do* modify b (set_u (portal_next None)) in
        mret (Some b)
  end.
Definition acquire_tls_block : M World (option bid) :=
  let* w := mget in
  match block_head w with
  | None => create_block
  | Some b => acquire_loop (chain_fuel w) b
  end.

(** [acquire_blockref_array] only counts: the array itself is part of the view. *)
Definition acquire_blockref_array : M World unit :=
  mmod (fun w => set_counters (g_nblock w) (g_blockmem w) (u64 (g_newbigview w + 1))
          (g_num_hit_tls_threshold w) w).
End WithEnv.

(** ** The heap invariant

    [inv w rs]: the TLS chain is a duplicate-free chain of [num_blocks] ordinary
    blocks, and every live block is counted exactly once for each holder: its
    place in the TLS chain and each occurrence in [rs], the list of all other
    references (BlockRefs of buffers, cached blocks of streams). *)
Fixpoint is_chain (h : gmap bid Block) (o : option bid) (l : list bid) : Prop :=
  match l with
  | [] => o = None
  | b :: l' => o = Some b /\ exists blk nx, h !! b = Some blk /\ u blk = portal_next nx /\
                 is_user_data blk = false /\ is_chain h nx l'
  end.

Definition block_ok (blk : Block) : Prop :=
  0 <= size blk <= cap blk /\ cap blk < 2 ^ 31 /\
  Z.of_nat (length (data blk)) = cap blk /\
  (is_user_data blk = false -> exists nx, u blk = portal_next nx).

Record inv_core (o : option bid) (tc : list bid) (w : World) (rs : list bid) : Prop := {
  inv_chain : is_chain (heap w) o tc;
  inv_nodup : NoDup tc;
  inv_block b blk : heap w !! b = Some blk ->
    block_ok blk /\ nshared blk = cnt b (tc ++ rs) /\ 0 < nshared blk;
  inv_live b : b ∈ rs -> is_Some (heap w !! b);
  inv_fresh b : (next_bid w <= b)%positive -> heap w !! b = None
}.
Definition inv (w : World) (rs : list bid) : Prop :=
  exists tc, inv_core (block_head w) tc w rs /\ num_blocks w = Z.of_nat (length tc).

(** What a holder of references keeps seeing: the written bytes of a block
    never change, its capacity neither, and its size only grows. *)
Definition block_ext (b1 b2 : Block) : Prop :=
  size b1 <= size b2 /\ cap b2 = cap b1 /\ is_user_data b2 = is_user_data b1 /\
  take (Z.to_nat (size b1)) (data b2) = take (Z.to_nat (size b1)) (data b1).
Definition stable (w1 w2 : World) (rs : list bid) : Prop :=
  forall b blk, b ∈ rs -> heap w1 !! b = Some blk ->
    exists blk', heap w2 !! b = Some blk' /\ block_ext blk blk'.


Lemma block_ext_refl b : block_ext b b.
Proof. done. Qed.
Lemma block_ext_trans b1 b2 b3 : block_ext b1 b2 -> block_ext b2 b3 -> block_ext b1 b3.
Proof.
  intros (? & ? & ? & E1) (? & ? & ? & E2). split_and!; try congruence; [lia|].
  rewrite <- E1. apply (f_equal (take (Z.to_nat (size b1)))) in E2.
  rewrite !take_take in E2. by rewrite !Nat.min_l in E2 by lia.
Qed.

Lemma stable_refl w rs : stable w w rs.
Proof. intros b blk _ Hb. eauto using block_ext_refl. Qed.
Lemma stable_heap w1 w2 rs : heap w2 = heap w1 -> stable w1 w2 rs.
Proof. intros Heq b blk _ Hb. rewrite Heq. eauto using block_ext_refl. Qed.
Lemma stable_sub w1 w2 rs rs' : rs' ⊆ rs -> stable w1 w2 rs -> stable w1 w2 rs'.
Proof. intros Hsub Hst b blk Hb. apply Hst. by apply Hsub. Qed.
Lemma stable_trans w1 w2 w3 rs : stable w1 w2 rs -> stable w2 w3 rs -> stable w1 w3 rs.
Proof.
  intros H12 H23 b blk Hb Hh. destruct (H12 b blk Hb Hh) as (b2 & Hh2 & He2).
  destruct (H23 b b2 Hb Hh2) as (b3 & Hh3 & He3). eauto using block_ext_trans.
Qed.

Lemma is_chain_ext h h' o l :
  (forall b blk, b ∈ l -> h !! b = Some blk ->
     exists blk', h' !! b = Some blk' /\ u blk' = u blk /\ is_user_data blk' = is_user_data blk) ->
  is_chain h o l -> is_chain h' o l.
Proof.
  revert o. induction l as [|b l IH]; intros o Hext; simpl; [done|].
  intros (-> & blk & nx & Hb & Hu & Hd & Hc). split; [done|].
  destruct (Hext b blk) as (blk' & Hb' & Hu' & Hd'); [set_solver|done|].
  exists blk', nx. split_and!; try congruence. apply IH; [|done].
  intros b' blk0 ?. apply Hext. set_solver.
Qed.

Lemma is_chain_live h o l b : is_chain h o l -> b ∈ l -> is_Some (h !! b).
Proof.
  revert o. induction l as [|b0 l IH]; intros o Hc Hb; [by apply elem_of_nil in Hb|].
  destruct Hc as (-> & blk & nx & Hh & _ & _ & Hc).
  apply elem_of_cons in Hb as [->|Hb]; eauto.
Qed.

Lemma live_length (h : gmap bid Block) (l : list bid) :
  NoDup l -> (forall b, b ∈ l -> is_Some (h !! b)) -> (length l <= base.size h)%nat.
Proof.
  intros Hnd Hl. rewrite <- size_dom. rewrite <- (size_list_to_set (C:=gset bid) l) by done.
  apply subseteq_size. intros b Hb. apply elem_of_list_to_set in Hb.
  apply elem_of_dom. eauto.
Qed.

Lemma chain_length o tc w rs : inv_core o tc w rs -> (length tc <= base.size (heap w))%nat.
Proof.
  intros Hi. apply live_length; [apply Hi|]. intros b. apply (is_chain_live _ o). apply Hi.
Qed.

Lemma inv_perm o tc w rs rs' :
  (forall b, cnt b rs = cnt b rs') -> inv_core o tc w rs -> inv_core o tc w rs'.
Proof.
  intros Hp [Hc Hnd Hb Hl Hf]. split; try done.
  - intros b blk Hh. rewrite cnt_app, <- Hp, <- cnt_app. by apply Hb.
  - intros b Hb'. apply Hl. apply cnt_pos. rewrite Hp. by apply cnt_pos.
Qed.

(** Updating one block in place. *)
Lemma inv_update o tc w rs rs' b blk blk' :
  inv_core o tc w rs -> heap w !! b = Some blk ->
  block_ok blk' -> (b ∈ tc -> u blk' = u blk) -> is_user_data blk' = is_user_data blk ->
  (forall x, x <> b -> cnt x rs' = cnt x rs) ->
  nshared blk' = cnt b (tc ++ rs') -> 0 < nshared blk' ->
  inv_core o tc (set_heap (<[b := blk']> (heap w)) w) rs'.
Proof.
  intros [Hc Hnd Hb Hl Hf] Hh Hok Hu Hd Hcnt Hn Hpos. split; simpl; try done.
  - eapply is_chain_ext; [|done]. intros b1 blk1 Hin Hb1.
    destruct (decide (b1 = b)) as [->|Hne].
    + rewrite lookup_insert_eq. simplify_eq. eauto.
    + rewrite lookup_insert_ne by done. eauto.
  - intros b1 blk1. destruct (decide (b1 = b)) as [->|Hne].
    + rewrite lookup_insert_eq. by intros [= <-].
    + rewrite lookup_insert_ne by done. intros Hb1.
      rewrite cnt_app, Hcnt, <- cnt_app by done. by apply Hb.
  - intros b1 Hb1. destruct (decide (b1 = b)) as [->|Hne].
    + by rewrite lookup_insert_eq.
    + rewrite lookup_insert_ne by done. apply Hl, cnt_pos. rewrite <- Hcnt by done.
      by apply cnt_pos.
  - intros b1 Hb1. rewrite lookup_insert_ne; [by apply Hf|]. intros <-.
    rewrite Hf in Hh by done. done.
Qed.

Lemma stable_update w rs b blk blk' :
  heap w !! b = Some blk -> block_ext blk blk' ->
  stable w (set_heap (<[b := blk']> (heap w)) w) rs.
Proof.
  intros Hh He b1 blk1 _ Hb1. simpl. destruct (decide (b1 = b)) as [->|Hne].
  - rewrite lookup_insert_eq. simplify_eq. eauto.
  - rewrite lookup_insert_ne by done. eauto using block_ext_refl.
Qed.

(** Releasing a block that nobody references any more. *)
Lemma inv_delete o tc w rs rs' b :
  inv_core o tc w rs -> cnt b (tc ++ rs') = 0 ->
  (forall x, x <> b -> cnt x rs' = cnt x rs) ->
  inv_core o tc (set_heap (delete b (heap w)) w) rs'.
Proof.
  intros [Hc Hnd Hb Hl Hf] H0 Hcnt. apply cnt_zero in H0. split; simpl; try done.
  - eapply is_chain_ext; [|done]. intros b1 blk1 Hin Hb1.
    rewrite lookup_delete_ne by set_solver. eauto.
  - intros b1 blk1. rewrite lookup_delete_Some. intros [Hne Hb1].
    rewrite cnt_app, Hcnt, <- cnt_app by done. by apply Hb.
  - intros b1 Hb1. rewrite lookup_delete_ne by set_solver. apply Hl, cnt_pos.
    rewrite <- Hcnt by set_solver. by apply cnt_pos.
  - intros b1 Hb1. rewrite lookup_delete_None. right. by apply Hf.
Qed.

(** ** Reference counting *)
Lemma inc_ref_spec o tc w rs b :
  inv_core o tc w rs -> is_Some (heap w !! b) ->
  exists blk, heap w !! b = Some blk /\
    let w' := set_heap (<[b := set_nshared (nshared blk + 1) blk]> (heap w)) w in
    inc_ref b w = Some (tt, w') /\ inv_core o tc w' (b :: rs) /\ stable w w' rs.
Proof.
  intros Hi [blk Hh]. exists blk. split; [done|].
  destruct (inv_block _ _ _ _ Hi b blk Hh) as (Hok & Hn & Hpos). split_and!.
  - unfold inc_ref, modify, load, store, mbind'. rewrite Hh. simpl. by rewrite Hh.
  - eapply inv_update; eauto; simpl; try lia.
    + intros x Hx. rewrite is1_ne by done. lia.
    + rewrite cnt_app in *. simpl. rewrite is1_refl. lia.
  - by eapply stable_update.
Qed.

Lemma dec_ref_spec o tc w rs b :
  inv_core o tc w (b :: rs) ->
  exists w', dec_ref b w = Some (tt, w') /\ inv_core o tc w' rs /\ stable w w' rs /\
    block_head w' = block_head w /\ num_blocks w' = num_blocks w /\
    registered w' = registered w /\
    forall b', b' <> b -> heap w' !! b' = heap w !! b'.
Proof.
  intros Hi. destruct (inv_live _ _ _ _ Hi b) as [blk Hh]; [set_solver|].
  destruct (inv_block _ _ _ _ Hi b blk Hh) as (Hok & Hn & Hpos).
  rewrite cnt_app in Hn. simpl in Hn. rewrite is1_refl in Hn.
  pose proof (cnt_nonneg b tc). pose proof (cnt_nonneg b rs).
  assert (Hother : forall x, x <> b -> cnt x rs = cnt x (b :: rs)).
  { intros x Hx. simpl. rewrite is1_ne by done. lia. }
  unfold dec_ref, load, store, free, mmod, mbind'. rewrite Hh. simpl. rewrite Hh.
  zcase.
  - assert (Hdel : inv_core o tc (set_heap (delete b (heap w)) w) rs).
    { eapply inv_delete; eauto. rewrite cnt_app. lia. }
    assert (Hst : forall w', heap w' = delete b (heap w) -> stable w w' rs).
    { intros w' Hw b1 blk1 Hin Hb1. rewrite Hw, lookup_delete_ne; [by eauto using block_ext_refl|].
      intros <-. apply cnt_pos in Hin. lia. }
    destruct (negb (is_user_data blk)); simpl; rewrite lookup_insert_eq;
      (eexists; split_and!; [done| |apply Hst; simpl; by rewrite delete_insert_eq|done|done|done|
         intros b' Hne; simpl; by rewrite lookup_delete_ne, lookup_insert_ne]);
      destruct Hdel; split; simpl in *; rewrite ?delete_insert_eq; done.
  - eexists. split_and!; [done| |by eapply stable_update|done|done|done|
      intros b' Hne; simpl; by rewrite lookup_insert_ne].
    eapply inv_update; eauto; simpl; rewrite ?cnt_app; lia.
Qed.

(** ** The thread-local chain *)

Lemma chain_pop o tc w rs b :
  inv_core o (b :: tc) w rs ->
  exists blk nx, o = Some b /\ heap w !! b = Some blk /\ u blk = portal_next nx /\
    is_user_data blk = false /\ inv_core nx tc w (b :: rs).
Proof.
  intros [(-> & blk & nx & Hb & Hu & Hd & Hc) Hnd Hblk Hl Hf].
  apply NoDup_cons in Hnd as [Hni Hnd]. exists blk, nx. split_and!; try done.
  split; try done.
  - intros b1 blk1 Hb1. destruct (Hblk b1 blk1 Hb1) as (? & Hn & ?).
    split_and!; try done. rewrite Hn, !cnt_app. simpl. lia.
  - intros b1 Hb1. apply elem_of_cons in Hb1 as [->|Hb1]; eauto.
Qed.

Lemma block_ok_set_u o blk : block_ok blk -> block_ok (set_u (portal_next o) blk).
Proof. intros (? & ? & ? & ?). unfold block_ok. simpl. eauto 10. Qed.

Lemma chain_push o tc w rs b blk :
  inv_core o tc w (b :: rs) -> heap w !! b = Some blk -> is_user_data blk = false ->
  b ∉ tc ->
  inv_core (Some b) (b :: tc) (set_heap (<[b := set_u (portal_next o) blk]> (heap w)) w) rs.
Proof.
  intros [Hc Hnd Hblk Hl Hf] Hb Hd Hni. split; simpl.
  - split; [done|]. exists (set_u (portal_next o) blk), o.
    rewrite lookup_insert_eq. split_and!; try done.
    eapply is_chain_ext; [|done]. intros b1 blk1 Hin Hb1.
    rewrite lookup_insert_ne by set_solver. eauto.
  - by apply NoDup_cons.
  - intros b1 blk1. destruct (decide (b1 = b)) as [->|Hne].
    + rewrite lookup_insert_eq. intros [= <-].
      destruct (Hblk b blk Hb) as (Hok & Hn & ?).
      split; [by apply block_ok_set_u|]. split; [|done].
      simpl. rewrite Hn, !cnt_app. simpl. lia.
    + rewrite lookup_insert_ne by done. intros Hb1.
      destruct (Hblk b1 blk1 Hb1) as (? & Hn & ?). split_and!; try done.
      rewrite Hn, !cnt_app. simpl. lia.
  - intros b1 Hb1. destruct (decide (b1 = b)) as [->|Hne].
    + by rewrite lookup_insert_eq.
    + rewrite lookup_insert_ne by done. apply Hl. set_solver.
  - intros b1 Hb1. rewrite lookup_insert_ne; [by apply Hf|]. intros <-.
    by rewrite Hf in Hb.
Qed.

(** A world that differs only in TLS fields and counters. *)
Lemma inv_core_eq o tc w w' rs :
  heap w' = heap w -> next_bid w' = next_bid w -> inv_core o tc w rs -> inv_core o tc w' rs.
Proof. intros Hh Hn [???? Hf]. split; rewrite ?Hh, ?Hn; done. Qed.

(** The part of the state that block operations leave to the caller. *)
Definition same_tls (w w' : World) : Prop :=
  block_head w' = block_head w /\ num_blocks w' = num_blocks w /\ registered w' = registered w.

(** A new block at the next address, with one reference held by the caller. *)
Lemma inv_alloc o tc w rs blk :
  inv_core o tc w rs -> block_ok blk -> nshared blk = 1 ->
  let w' := set_heap (<[next_bid w := blk]> (heap w)) (bump_next w) in
  inv_core o tc w' (next_bid w :: rs) /\ stable w w' rs /\ heap w !! next_bid w = None.
Proof.
  intros Hi Hok Hn1 w'.
  assert (Hnew : heap w !! next_bid w = None) by (apply Hi; lia).
  assert (Hni : next_bid w ∉ tc ++ rs).
  { rewrite elem_of_app. intros [Hin|Hin].
    - destruct (is_chain_live _ _ _ _ (inv_chain _ _ _ _ Hi) Hin). congruence.
    - destruct (inv_live _ _ _ _ Hi _ Hin). congruence. }
  apply cnt_zero in Hni. split; [|split; [|done]].
  - destruct Hi as [Hc Hnd Hblk Hl Hf]. split; simpl; try done.
    + eapply is_chain_ext; [|done]. intros b1 blk1 _ Hb1.
      rewrite lookup_insert_ne by congruence. eauto.
    + intros b1 blk1. destruct (decide (b1 = next_bid w)) as [->|Hne].
      * rewrite lookup_insert_eq. intros [= <-]. rewrite cnt_app in *.
        split; [done|]. simpl. rewrite is1_refl. lia.
      * rewrite lookup_insert_ne by done. intros Hb1.
        destruct (Hblk b1 blk1 Hb1) as (? & Hn & ?). split; [done|]. split; [|done].
        rewrite Hn, !cnt_app. simpl. rewrite is1_ne by done. lia.
    + intros b1 Hb1. destruct (decide (b1 = next_bid w)) as [->|Hne].
      * by rewrite lookup_insert_eq.
      * rewrite lookup_insert_ne by done. apply Hl. set_solver.
    + intros b1 Hb1. rewrite lookup_insert_ne by lia. apply Hf. lia.
  - intros b blk1 Hb Hh. simpl. rewrite lookup_insert_ne by congruence.
    eauto using block_ext_refl.
Qed.
(** An allocation that failed. *)
Lemma inv_bump o tc w rs : inv_core o tc w rs -> inv_core o tc (bump_next w) rs.
Proof. intros [???? Hf]. split; simpl; try done. intros b1 ?. apply Hf. lia. Qed.

Section WithEnv2.
Context `{Env}.

Lemma create_block_sized_spec o tc w rs sz :
  inv_core o tc w rs -> sizeof_Block <= sz < 2 ^ 31 ->
  exists ob w', create_block_sized sz w = Some (ob, w') /\ same_tls w w' /\ stable w w' rs /\
    (malloc_ok (next_bid w) = true -> ob = Some (next_bid w)) /\
    match ob with
    | None => inv_core o tc w' rs /\ heap w' = heap w
    | Some b =>
        inv_core o tc w' (b :: rs) /\ heap w !! b = None /\
        exists blk, heap w' !! b = Some blk /\ size blk = 0 /\ cap blk = sz - sizeof_Block /\
          is_user_data blk = false /\ u blk = portal_next None
    end.
Proof.
  intros Hi Hsz. unfold sizeof_Block in *. unfold create_block_sized.
  rewrite (proj2 (Z.ltb_ge _ _)) by lia.
  unfold mbind', mget, mmod, mret. destruct (malloc_ok (next_bid w)).
  - set (blk := mkBlock 1 0 0 _ _ _). destruct (inv_alloc o tc w rs blk Hi) as (Hi' & Hst & Hnew); [|done|].
    { split_and!; simpl; unfold sizeof_Block; untrunc; rewrite ?length_map, ?length_seq; try lia. eauto. }
    eexists (Some _), _. split_and!; try done; simpl.
    + by eapply inv_core_eq; [..|exact Hi'].
    + exists blk. rewrite lookup_insert_eq. split_and!; try done. simpl.
      unfold sizeof_Block. untrunc. lia.
  - eexists None, _. split_and!; try done; [by apply stable_heap|by apply inv_bump].
Qed.

Lemma drop_full_spec fuel o tc w rs :
  inv_core o tc w rs -> (length tc < fuel)%nat ->
  exists ob tc' w', drop_full fuel o w = Some (ob, w') /\ inv_core ob tc' w' rs /\
    stable w w' rs /\ block_head w' = block_head w /\ registered w' = registered w /\
    num_blocks w' - Z.of_nat (length tc') = num_blocks w - Z.of_nat (length tc) /\
    match ob with
    | None => tc' = []
    | Some b => exists blk, heap w' !! b = Some blk /\ full blk = false
    end.
Proof.
  revert o tc w. induction fuel as [|fuel IH]; intros o tc w Hi Hf; [lia|]. simpl.
  destruct tc as [|b tc].
  - pose proof (inv_chain _ _ _ _ Hi) as Hc. simpl in Hc. subst o.
    eexists None, [], w. split_and!; eauto using stable_refl.
  - destruct (chain_pop _ _ _ _ _ Hi) as (blk & nx & -> & Hb & Hu & Hd & Hi').
    unfold load, mbind'. rewrite Hb. simpl. destruct (full blk) eqn:Hfull.
    + destruct (dec_ref_spec _ _ _ _ _ Hi') as (w1 & Hdec & Hi1 & Hst1 & Hh1 & Hn1 & Hr1 & _).
      rewrite Hdec. unfold get_portal_next. rewrite Hu. simpl.
      destruct (IH nx tc (set_tls (block_head w1) (num_blocks w1 - 1) (registered w1) w1))
        as (ob & tc' & w' & Heq & Hi2 & Hst2 & Hh2 & Hr2 & Hn2 & Hob).
      { by eapply inv_core_eq; [..|exact Hi1]. } { simpl in Hf. lia. }
      exists ob, tc', w'. unfold mbind', mmod in *. rewrite Heq. simpl in *.
      split_and!; try done; try congruence; [|lia].
      eapply stable_trans; [exact Hst1|]. done.
    + eexists (Some b), (b :: tc), w. split_and!; eauto using stable_refl.
Qed.

(** What a caller of [share_tls_block] gets: a block with room, or NULL. *)
Definition shared_block (w w' : World) (rs : list bid) (ob : option bid) : Prop :=
  inv w' rs /\ stable w w' rs /\
  ((forall b, malloc_ok b = true) -> is_Some ob) /\
  (forall b, ob = Some b ->
     exists blk, heap w' !! b = Some blk /\ full blk = false /\ is_user_data blk = false).

Lemma share_tls_finish_spec w w1 nb tc tc1 o rs :
  inv_core o tc w rs -> stable w w1 rs ->
  inv_core nb tc1 w1 rs -> num_blocks w1 = Z.of_nat (length tc1) ->
  match nb with
  | None => tc1 = []
  | Some b => exists blk, heap w1 !! b = Some blk /\ full blk = false
  end ->
  exists ob w', share_tls_finish nb w1 = Some (ob, w') /\ shared_block w w' rs ob.
Proof.
  intros Hi Hst1 Hi1 Hn1 Hnb. unfold share_tls_finish, mbind', mmod, mret, shared_block.
  destruct nb as [b|].
  - destruct Hnb as (blk & Hb & Hfull). eexists (Some b), _. split_and!; try done.
    + exists tc1. split; [|done]. by eapply inv_core_eq; [..|exact Hi1].
    + intros _ [= <-]. exists blk. split_and!; try done.
      destruct tc1 as [|b' tc1]; pose proof (inv_chain _ _ _ _ Hi1) as Hc; [done|].
      destruct Hc as ([= <-] & blk' & nx & Hb' & _ & Hd & _). simpl in *. congruence.
  - subst tc1. destruct (create_block_sized_spec None [] w1 rs DEFAULT_BLOCK_SIZE Hi1)
      as (ob & w2 & Hc & (Hh & Hn & Hr) & Hst2 & Hok & Hob);
      [unfold DEFAULT_BLOCK_SIZE, sizeof_Block; lia|].
    pose proof (stable_trans _ _ _ _ Hst1 Hst2) as Hst.
    unfold create_block. rewrite Hc. destruct ob as [b|].
    + destruct Hob as (Hi2 & Hnone & blk & Hb & Hsz & Hcap & Hd & Hu).
      eexists (Some b), _. split_and!; try done.
      * exists [b]. split; [|simpl in *; lia].
        eapply inv_core_eq; [..|eapply (chain_push _ _ _ _ _ _ Hi2 Hb Hd)]; simpl; try done.
        -- rewrite insert_id; [done|]. rewrite Hb. f_equal. unfold set_u. destruct blk.
           simpl in *. by subst.
        -- by apply not_elem_of_nil.
      * intros _ [= <-]. exists blk. split_and!; try done. unfold full.
        by rewrite Hsz, Hcap.
    + destruct Hob as [Hi2 Hheap]. eexists None, _. split_and!; try done.
      * exists []. split; [|simpl in *; lia]. by eapply inv_core_eq; [..|exact Hi2].
      * intros Hall. by specialize (Hok (Hall _)).
Qed.

Lemma share_tls_block_spec w rs :
  inv w rs ->
  exists ob w', share_tls_block w = Some (ob, w') /\ shared_block w w' rs ob.
Proof.
  intros (tc & Hi & Hnum). unfold share_tls_block, mbind', mget.
  pose proof (chain_length _ _ _ _ Hi) as Hlen.
  remember (chain_fuel w) as fuel eqn:Hfuel.
  pose proof (inv_chain _ _ _ _ Hi) as Hch. destruct (block_head w) as [b|] eqn:Hhead.
  - destruct tc as [|b' tc]; [done|].
    destruct (chain_pop _ _ _ _ _ Hi) as (blk & nx & [= <-] & Hb & Hu & Hd & _).
    unfold load. rewrite Hb. simpl. destruct (full blk) eqn:Hfull; simpl.
    + destruct (drop_full_spec fuel (Some b) (b :: tc) w rs)
        as (ob & tc' & w1 & Heq & Hi1 & Hst1 & _ & _ & Hn1 & Hob); [done| |].
      { subst fuel. unfold chain_fuel. lia. }
      rewrite Heq. eapply share_tls_finish_spec; eauto. lia.
    + eexists (Some b), w. split; [done|]. split_and!; eauto using stable_refl.
      * exists (b :: tc). by rewrite Hhead.
      * intros _ [= <-]. eauto.
  - destruct tc; [|by destruct Hch as [? _]].
    destruct (negb (registered w)); eapply share_tls_finish_spec; eauto; try done.
    + by apply stable_heap.
    + by eapply inv_core_eq; [..|exact Hi].
    + apply stable_refl.
Qed.

(** Writing the [portal_next] of a block that is not in the TLS chain. *)
Lemma inv_set_u o tc w rs b blk nx :
  inv_core o tc w rs -> heap w !! b = Some blk -> b ∉ tc ->
  let w' := set_heap (<[b := set_u (portal_next nx) blk]> (heap w)) w in
  modify b (set_u (portal_next nx)) w = Some (tt, w') /\ inv_core o tc w' rs /\ stable w w' rs.
Proof.
  intros Hi Hb Hni. destruct (inv_block _ _ _ _ Hi b blk Hb) as (Hok & Hn & Hpos). split_and!.
  - unfold modify, load, store, mbind'. rewrite Hb. simpl. by rewrite Hb.
  - eapply inv_update; eauto; simpl; try done. by apply block_ok_set_u.
  - by eapply stable_update.
Qed.

(** What [acquire_tls_block] gives: a block with room that the caller owns and
    that is no longer in the TLS chain, or NULL. *)
Definition acquired_block (w w' : World) (rs : list bid) (ob : option bid) : Prop :=
  stable w w' rs /\ ((forall b, malloc_ok b = true) -> is_Some ob) /\
  match ob with
  | None => inv w' rs
  | Some b =>
      exists tc blk, inv_core (block_head w') tc w' (b :: rs) /\
        num_blocks w' = Z.of_nat (length tc) /\ (b ∉ tc) /\
        heap w' !! b = Some blk /\ full blk = false /\ is_user_data blk = false /\
        u blk = portal_next None
  end.

Lemma acquire_new w w1 rs tc o :
  inv_core o tc w rs -> stable w w1 rs ->
  inv_core None [] w1 rs -> block_head w1 = None -> num_blocks w1 = 0 ->
  exists ob w', create_block w1 = Some (ob, w') /\ acquired_block w w' rs ob.
Proof.
  intros Hi Hst1 Hi1 Hh1 Hn1.
  destruct (create_block_sized_spec None [] w1 rs DEFAULT_BLOCK_SIZE Hi1)
    as (ob & w2 & Hc & (Hh & Hn & Hr) & Hst2 & Hok & Hob);
    [unfold DEFAULT_BLOCK_SIZE, sizeof_Block; lia|].
  exists ob, w2. split; [done|]. split; [by eapply stable_trans|]. split.
  { intros Hall. by rewrite (Hok (Hall _)). }
  destruct ob as [b|].
  - destruct Hob as (Hi2 & Hnone & blk & Hb & Hsz & Hcap & Hd & Hu).
    exists [], blk. rewrite Hh, Hh1, Hn, Hn1. split_and!; try done; [by apply not_elem_of_nil|].
    unfold full. by rewrite Hsz, Hcap.
  - exists []. rewrite Hh, Hh1, Hn, Hn1. split; [|done].
    apply Hob.
Qed.

Lemma acquire_loop_spec fuel w0 w tc rs b o0 tc0 :
  inv_core o0 tc0 w0 rs -> stable w0 w rs ->
  block_head w = Some b -> inv_core (Some b) tc w rs ->
  num_blocks w = Z.of_nat (length tc) -> (length tc < fuel)%nat ->
  exists ob w', acquire_loop fuel b w = Some (ob, w') /\ acquired_block w0 w' rs ob.
Proof.
  intros Hi0. revert w tc b. induction fuel as [|fuel IH]; intros w tc b Hst Hh Hi Hn Hf; [lia|].
  simpl. destruct tc as [|b' tc]; [by pose proof (inv_chain _ _ _ _ Hi)|].
  pose proof (inv_nodup _ _ _ _ Hi) as Hnd. apply NoDup_cons in Hnd as [Hni _].
  destruct (chain_pop _ _ _ _ _ Hi) as (blk & nx & [= <-] & Hb & Hu & Hd & Hi').
  unfold load, mbind', mmod, mret, get_portal_next. rewrite Hb. simpl. rewrite Hu.
  simpl in Hn, Hf. destruct (full blk) eqn:Hfull.
  - destruct (dec_ref_spec _ _ _ _ _ Hi') as (w1 & Hdec & Hi1 & Hst1 & Hh1 & Hn1 & Hr1 & _).
    rewrite Hdec. pose proof (stable_trans _ _ _ _ Hst Hst1) as Hst'.
    set (w2 := set_tls nx (num_blocks w1 - 1) (registered w1) w1).
    assert (Hi2 : inv_core nx tc w2 rs) by (by eapply inv_core_eq; [..|exact Hi1]).
    destruct nx as [b'|].
    + apply (IH w2 tc b'); try done; simpl; lia.
    + destruct tc as [|? tc]; [|by destruct (inv_chain _ _ _ _ Hi2) as [? _]].
      apply (acquire_new w0 w2 rs tc0 o0); try done. simpl in *. lia.
  - set (w1 := set_tls nx (num_blocks w - 1) (registered w) w).
    assert (Hi1 : inv_core nx tc w1 (b :: rs)) by (by eapply inv_core_eq; [..|exact Hi']).
    destruct (inv_set_u nx tc w1 (b :: rs) b blk None Hi1 Hb Hni) as (Hm & Hi2 & Hst2).
    rewrite Hm. eexists (Some b), _. split; [done|]. split_and!; try done.
    + eapply stable_trans; [exact Hst|].
      eapply stable_sub; [|exact Hst2]. set_solver.
    + eexists tc, _. simpl. rewrite lookup_insert_eq. split_and!; try done. lia.
Qed.

Lemma acquire_tls_block_spec w rs :
  inv w rs -> exists ob w', acquire_tls_block w = Some (ob, w') /\ acquired_block w w' rs ob.
Proof.
  intros (tc & Hi & Hnum). unfold acquire_tls_block, mbind', mget.
  pose proof (chain_length _ _ _ _ Hi) as Hlen.
  destruct (block_head w) as [b|] eqn:Hhead.
  - eapply acquire_loop_spec; eauto using stable_refl. unfold chain_fuel. lia.
  - pose proof (inv_chain _ _ _ _ Hi) as Hc. destruct tc; [|by destruct Hc].
    eapply acquire_new; eauto using stable_refl.
Qed.

(** [release_tls_block] takes back a block that is outside the chain. *)
Lemma release_tls_block_spec w tc rs b blk :
  inv_core (block_head w) tc w (b :: rs) -> num_blocks w = Z.of_nat (length tc) ->
  b ∉ tc -> heap w !! b = Some blk -> is_user_data blk = false ->
  exists w', release_tls_block (Some b) w = Some (tt, w') /\ inv w' rs /\ stable w w' rs.
Proof.
  intros Hi Hn Hni Hb Hd. simpl. unfold load, mbind', mget, mmod. rewrite Hb. simpl.
  destruct (dec_ref_spec _ _ _ _ _ Hi) as (w1 & Hdec & Hi1 & Hst1 & Hh1 & Hn1 & _).
  assert (Hinv : inv w1 rs) by (exists tc; rewrite Hh1, Hn1; eauto).
  destruct (full blk); [by eauto 10|]. zcase.
  - rewrite Hdec. eexists. split_and!; [done| |exact Hst1].
    destruct Hinv as (tc' & Hi' & Hn'). exists tc'. split; [|done].
    by eapply inv_core_eq; [..|exact Hi'].
  - pose proof (chain_push _ _ _ _ _ _ Hi Hb Hd Hni) as Hi'.
    destruct (inv_set_u _ _ _ _ _ _ (block_head w) Hi Hb Hni) as (Hm & _ & Hst).
    rewrite Hm. eexists. split_and!; [done| |].
    + exists (b :: tc). split; [|simpl; lia]. by eapply inv_core_eq; [..|exact Hi'].
    + eapply stable_sub; [|exact Hst]. set_solver.
Qed.

(** Giving up a whole chain of owned blocks. *)
Lemma release_chain_spec fuel o tc w l rs b n :
  inv_core o tc w (l ++ rs) -> is_chain (heap w) (Some b) l -> NoDup l ->
  (length l <= fuel)%nat ->
  exists w', release_chain fuel b n w = Some (n + Z.of_nat (length l), w') /\
    inv_core o tc w' rs /\ stable w w' rs /\ same_tls w w'.
Proof.
  revert w l b n. induction fuel as [|fuel IH]; intros w l b n Hi Hc Hnd Hf;
    (destruct l as [|b' l]; [done|simpl in Hf; try lia]).
  destruct Hc as ([= <-] & blk & nx & Hb & Hu & Hd & Hc). simpl in Hi.
  apply NoDup_cons in Hnd as [Hni Hnd].
  destruct (dec_ref_spec _ _ _ _ _ Hi) as (w1 & Hdec & Hi1 & Hst1 & Hh1 & Hn1 & Hr1 & Hoth).
  simpl. unfold load, mbind', mret, get_portal_next. rewrite Hb. simpl. rewrite Hu, Hdec.
  assert (Hst1' : stable w w1 rs) by (eapply stable_sub; [|exact Hst1]; set_solver).
  destruct nx as [b'|].
  - destruct (IH w1 l b' (n + 1)) as (w' & Heq & Hi' & Hst' & Hh' & Hn' & Hr'); try done; [|lia|].
    { eapply is_chain_ext; [|exact Hc]. intros b1 blk1 Hin Hb1.
      rewrite Hoth by (intros ->; done). eauto. }
    exists w'. rewrite Heq. split; [do 2 f_equal; lia|]. split; [done|].
    split; [by eapply stable_trans|]. split_and!; congruence.
  - destruct l as [|? l]; [|by destruct Hc as [? _]]. exists w1. by split_and!.
Qed.

Lemma inv_core_detach o tc w rs : inv_core o tc w rs -> inv_core None [] w (tc ++ rs).
Proof.
  intros [Hc Hnd Hb Hl Hf]. split; try done; [constructor|].
  intros b. rewrite elem_of_app. intros [?|?]; eauto using is_chain_live.
Qed.

Lemma remove_tls_block_chain_spec w rs :
  inv w rs ->
  exists w', remove_tls_block_chain w = Some (tt, w') /\ inv w' rs /\ stable w w' rs /\
    block_head w' = None /\ num_blocks w' = 0.
Proof.
  intros (tc & Hi & Hn). unfold remove_tls_block_chain, mbind', mget, mmod.
  pose proof (inv_chain _ _ _ _ Hi) as Hc.
  remember (chain_fuel w) as fuel eqn:Hfuel. destruct (block_head w) as [b|] eqn:Hh.
  - set (w1 := set_tls None (num_blocks w) (registered w) w).
    destruct (release_chain_spec fuel None [] w1 tc rs b 0)
      as (w' & Heq & Hi' & Hst & Hh' & Hn' & Hr'); try done.
    { by eapply inv_core_eq; [..|exact (inv_core_detach _ _ _ _ Hi)]. }
    { apply Hi. }
    { pose proof (chain_length _ _ _ _ Hi). subst fuel. unfold chain_fuel. lia. }
    rewrite Heq. eexists. split_and!; try done.
    exists []. split; [|done]. simpl. rewrite Hh'. by eapply inv_core_eq; [..|exact Hi'].
  - destruct tc; [|by destruct Hc as [? _]]. exists w. split_and!; try done.
    + exists []. by rewrite Hh.
    + apply stable_refl.
Qed.

Lemma last_of_chain_spec fuel w l b z n :
  is_chain (heap w) (Some b) l -> last l = Some z -> (length l <= fuel)%nat ->
  last_of_chain fuel b n w = Some ((z, n + Z.of_nat (length l)), w).
Proof.
  revert l b n. induction fuel as [|fuel IH]; intros l b n Hc Hz Hf;
    (destruct l as [|b' l]; [done|simpl in Hf; try lia]).
  destruct Hc as ([= <-] & blk & nx & Hb & Hu & Hd & Hc).
  simpl. unfold load, mbind', mret, get_portal_next. rewrite Hb. simpl. rewrite Hu.
  destruct nx as [b'|].
  - destruct l as [|b1 l]; [done|]. rewrite (IH (b1 :: l)); try done; [|lia].
    do 3 f_equal. simpl. lia.
  - destruct l as [|? l]; [|by destruct Hc as [? _]]. simpl in Hz. by simplify_eq.
Qed.

(** Linking an owned chain in front of the TLS chain. *)
Lemma is_chain_join h o l tc b z blk :
  is_chain h (Some b) l -> is_chain h o tc -> NoDup (l ++ tc) ->
  last l = Some z -> h !! z = Some blk ->
  is_chain (<[z := set_u (portal_next o) blk]> h) (Some b) (l ++ tc).
Proof.
  intros Hc Htc Hnd Hz Hh. revert b Hc.
  assert (Htc' : z ∉ tc -> is_chain (<[z:=set_u (portal_next o) blk]> h) o tc).
  { intros Hni. eapply is_chain_ext; [|done]. intros b1 blk1 Hin Hb1.
    rewrite lookup_insert_ne by (intros ->; done). eauto. }
  induction l as [|b1 l IH]; intros b Hc; [done|].
  destruct Hc as ([= <-] & blk1 & nx & Hb & Hu & Hd & Hc).
  simpl in Hnd. apply NoDup_cons in Hnd as [Hni Hnd]. simpl. split; [done|].
  destruct l as [|b2 l].
  - simpl in *. simplify_eq. exists (set_u (portal_next o) blk), o.
    rewrite lookup_insert_eq. auto.
  - assert (Hz' : z ∈ b2 :: l).
    { change (last (b2 :: l) = Some z) in Hz. by apply last_Some_elem_of in Hz. }
    pose proof Hc as (-> & _).
    exists blk1, (Some b2). rewrite lookup_insert_ne by set_solver. split_and!; try done.
    by apply IH.
Qed.

(** [release_tls_block_chain]: an owned chain of ordinary blocks outside the TLS
    chain is given back, to the TLS chain or to the allocator. *)
Lemma release_tls_block_chain_spec w tc l rs b :
  inv_core (block_head w) tc w (l ++ rs) -> num_blocks w = Z.of_nat (length tc) ->
  is_chain (heap w) (Some b) l -> NoDup (l ++ tc) ->
  exists w', release_tls_block_chain b w = Some (tt, w') /\ inv w' rs /\ stable w w' rs.
Proof.
  intros Hi Hn Hc Hnd. pose proof Hnd as (Hnd1 & Hdisj & Hnd2)%NoDup_app.
  assert (Hlen : (length l <= chain_fuel w)%nat).
  { pose proof (live_length (heap w) l Hnd1). unfold chain_fuel.
    specialize (H0 ltac:(intros; by eapply is_chain_live)). lia. }
  unfold release_tls_block_chain, mbind', mget, mmod. zcase.
  - destruct (release_chain_spec (chain_fuel w) _ tc w l rs b 0 Hi Hc Hnd1 Hlen)
      as (w' & Heq & Hi' & Hst & Hh' & Hn' & Hr').
    rewrite Heq. eexists. split_and!; [done| |exact Hst].
    exists tc. simpl. rewrite Hh', Hn'. split; [|done]. by eapply inv_core_eq; [..|exact Hi'].
  - destruct (last l) as [z|] eqn:Hz; [|apply last_None in Hz; by subst].
    assert (Hzl : z ∈ l) by (by apply last_Some_elem_of in Hz).
    assert (Hzt : z ∉ tc) by (by apply Hdisj).
    rewrite (last_of_chain_spec _ w l b z 0 Hc Hz Hlen).
    destruct (inv_live _ _ _ _ Hi z) as [blk Hblk]; [set_solver|].
    destruct (inv_set_u _ _ _ _ _ _ (block_head w) Hi Hblk Hzt) as (Hm & Hi' & Hst).
    rewrite Hm. eexists. split_and!; [done| |by eapply stable_sub; [|exact Hst]; set_solver].
    exists (l ++ tc). rewrite length_app. split; [|simpl; lia]. simpl.
    destruct Hi' as [Hc' _ Hb' Hl' Hf']. split; simpl; try done.
    + apply is_chain_join; try done. apply Hi.
    + intros b1 blk1 Hb1. destruct (Hb' b1 blk1 Hb1) as (? & Hcnt & ?).
      split; [done|]. split; [|done]. rewrite Hcnt, !cnt_app. lia.
    + intros b1 Hb1. apply Hl'. set_solver.
Qed.

End WithEnv2.
(** ** Operations that only count references

    [frame w w']: no block is created and the content of the surviving blocks is
    untouched; only reference counts, statistics and the deleter log may change. *)
Definition keeps (w w' : World) : Prop :=
  forall x blk', heap w' !! x = Some blk' ->
    exists blk, heap w !! x = Some blk /\ blk' = set_nshared (nshared blk') blk.
Definition frame (w w' : World) : Prop :=
  keeps w w' /\ same_tls w w' /\ next_bid w' = next_bid w.

#[global] Instance frame_preorder : PreOrder frame.
Proof.
  split.
  - intros w. split; [|done]. intros x blk Hx. exists blk. split; [done|]. by destruct blk.
  - intros w1 w2 w3 (K1 & (? & ? & ?) & ?) (K2 & (? & ? & ?) & ?).
    split; [|unfold same_tls in *; split_and!; congruence].
    intros x blk3 Hx. destruct (K2 x blk3 Hx) as (blk2 & Hx2 & E2).
    destruct (K1 x blk2 Hx2) as (blk1 & Hx1 & E1). exists blk1. split; [done|].
    rewrite E2, E1. by destruct blk1.
Qed.

Lemma frame_heap w w' :
  heap w' = heap w -> next_bid w' = next_bid w -> same_tls w w' -> frame w w'.
Proof.
  intros Hh Hn Ht. split; [|done]. intros x blk Hx. rewrite Hh in Hx. exists blk.
  split; [done|]. by destruct blk.
Qed.

Lemma frame_stable o tc w w' rs : frame w w' -> inv_core o tc w' rs -> stable w w' rs.
Proof.
  intros (K & _) Hi b blk Hb Hh. destruct (inv_live _ _ _ _ Hi b Hb) as [blk' Hh'].
  destruct (K b blk' Hh') as (blk1 & Hh1 & E). simplify_eq. exists blk'. split; [done|].
  rewrite E. by destruct blk.
Qed.

Lemma inc_ref_frame o tc w rs b :
  inv_core o tc w rs -> is_Some (heap w !! b) ->
  exists w', inc_ref b w = Some (tt, w') /\ inv_core o tc w' (b :: rs) /\ frame w w'.
Proof.
  intros Hi Hb. destruct (inc_ref_spec o tc w rs b Hi Hb) as (blk & Hh & Heq & Hi' & _).
  eexists. split_and!; [exact Heq|exact Hi'|]. split; [|done].
  intros x blk'. simpl. destruct (decide (x = b)) as [->|Hne].
  - rewrite lookup_insert_eq. intros [= <-]. by exists blk.
  - rewrite lookup_insert_ne by done. intros Hx. exists blk'. split; [done|]. by destruct blk'.
Qed.

Lemma dec_ref_frame o tc w rs b :
  inv_core o tc w (b :: rs) ->
  exists w', dec_ref b w = Some (tt, w') /\ inv_core o tc w' rs /\ frame w w'.
Proof.
  intros Hi. destruct (dec_ref_spec o tc w rs b Hi)
    as (w' & Heq & Hi' & _ & Hh & Hn & Hr & Hoth).
  exists w'. split; [done|]. split; [done|]. split; [|split; [done|]].
  - intros x blk'. destruct (decide (x = b)) as [->|Hne].
    + intros Hx. unfold dec_ref, load, store, free, mmod, mbind', mret in Heq.
      destruct (heap w !! b) as [blk|] eqn:Hb; simpl in Heq; [|done]. rewrite Hb in Heq.
      destruct (nshared blk =? 1); [destruct (negb (is_user_data blk))|]; simpl in Heq;
        rewrite ?lookup_insert_eq in Heq; simplify_eq; simpl in *.
      * by rewrite lookup_delete_eq in Hx.
      * by rewrite lookup_delete_eq in Hx.
      * rewrite lookup_insert_eq in Hx. simplify_eq. by exists blk.
    + rewrite Hoth by done. intros Hx. exists blk'. split; [done|]. by destruct blk'.
  - unfold dec_ref, load, store, free, mmod, mbind', mret in Heq.
    destruct (heap w !! b) as [blk|] eqn:Hb; simpl in Heq; [|done]. rewrite Hb in Heq.
    destruct (nshared blk =? 1); [destruct (negb (is_user_data blk))|]; simpl in Heq;
      rewrite ?lookup_insert_eq in Heq; by simplify_eq.
Qed.

(** Writing into the unused part of a block and extending its size. *)
Lemma write_at_spec o tc w rs b blk off src :
  inv_core o tc w rs -> heap w !! b = Some blk ->
  size blk <= off -> off + Z.of_nat (length src) <= cap blk ->
  exists d, write_at b off src w = Some (tt, set_heap (<[b := set_data d blk]> (heap w)) w) /\
    inv_core o tc (set_heap (<[b := set_data d blk]> (heap w)) w) rs /\
    block_ext blk (set_data d blk) /\
    take (length src) (drop (Z.to_nat off) d) = src /\
    take (Z.to_nat off) d = take (Z.to_nat off) (data blk).
Proof.
  intros Hi Hb Hoff Hlen. destruct (inv_block _ _ _ _ Hi b blk Hb) as (Hok & Hn & Hpos).
  pose proof Hok as (Hsz & Hcap & Hd & Hu).
  assert (Hl0 : length (take (Z.to_nat off) (data blk)) = Z.to_nat off)
    by (rewrite length_take; lia).
  exists (take (Z.to_nat off) (data blk) ++ src ++ drop (Z.to_nat off + length src) (data blk)).
  split_and!.
  - unfold write_at, load, mbind'. rewrite Hb. simpl.
    rewrite (proj2 (Z.leb_le 0 off)) by lia. rewrite (proj2 (Z.leb_le _ _)) by lia. simpl.
    unfold store. by rewrite Hb.
  - eapply inv_update; eauto; simpl; try done. split_and!; simpl; try lia; try done.
    rewrite !length_app, Hl0, length_drop. lia.
  - split_and!; simpl; try done. rewrite take_app_le by (rewrite Hl0; lia).
    by rewrite take_take, Nat.min_l by lia.
  - rewrite drop_app_le by lia. rewrite drop_ge by lia. simpl. by rewrite take_app_length.
  - rewrite take_app_le by lia. by rewrite take_take, Nat.min_id.
Qed.

Lemma set_size_spec o tc w rs b blk n :
  inv_core o tc w rs -> heap w !! b = Some blk -> size blk <= n <= cap blk ->
  let w' := set_heap (<[b := set_size n blk]> (heap w)) w in
  modify b (set_size n) w = Some (tt, w') /\ inv_core o tc w' rs /\
  block_ext blk (set_size n blk).
Proof.
  intros Hi Hb Hn. destruct (inv_block _ _ _ _ Hi b blk Hb) as (Hok & Hcnt & Hpos).
  pose proof Hok as (Hsz & Hcap & Hd & Hu). split; [|split].
  - unfold modify, load, store, mbind'. rewrite Hb. simpl. by rewrite Hb.
  - eapply inv_update; eauto; simpl; try done. split_and!; simpl; try lia; done.
  - unfold block_ext. simpl. split; [lia|done].
Qed.

Lemma inv_w0 : inv w0 [].
Proof.
  exists []. split; [|done]. split; try done; [constructor|].
  intros b Hb. by apply elem_of_nil in Hb.
Qed.

End Block.
