(* ===== verification/IOBufView.v ===== *)
(** * The reference queue of an IOBuf (butil/iobuf.h, iobuf_inl.h, iobuf.cpp)

    An IOBuf is a queue of BlockRefs stored either in place (SmallView, at most
    two) or in a ring of 2^k entries (BigView, at least three).  In the source
    the two views share memory and [_small()] tells them apart by the sign bit
    of the first word: BigView stores the magic -1 there and SmallView the offset
    of its first reference.  The views are the two constructors of [IOBuf]; the
    test is [_small], and [small_iff_view] is what makes the constructors
    faithful.  Operations on blocks run in the monad of [Block.World]. *)
From stdpp Require Import base list gmap.
From Stdlib Require Import ZArith Lia Bool.
From S2P Require Import Prelude IOBufBlock.

Open Scope Z_scope.
Open Scope m_scope.

Module View.
Import Block.

Record BlockRef := mkRef { offset : Z; length : Z; block : option bid }.
(** [reset_block_ref]. *)
Definition null_ref : BlockRef := mkRef 0 0 None.

Record BigView := mkBV {
  start : Z;
  refs : list BlockRef;
  nref : Z;
  cap_mask : Z;
  nbytes : Z
}.
Inductive IOBuf := Sv (r0 r1 : BlockRef) | Bv (bv : BigView).

Definition INITIAL_CAP : Z := 32.
Definition capacity (bv : BigView) : Z := u32 (cap_mask bv + 1).
Definition bv_ref_at (bv : BigView) (i : Z) : option BlockRef :=
  refs bv !! Z.to_nat (Z.land (u32 (start bv + i)) (cap_mask bv)).
Definition bv_set_ref_at (bv : BigView) (i : Z) (r : BlockRef) : BigView :=
  mkBV (start bv) (<[Z.to_nat (Z.land (u32 (start bv + i)) (cap_mask bv)) := r]> (refs bv))
    (nref bv) (cap_mask bv) (nbytes bv).

(** The first 32-bit word of the union, read as the signed [magic]. *)
Definition magic (b : IOBuf) : Z :=
  match b with Sv r0 _ => i32 (offset r0) | Bv _ => -1 end.
Definition _small (b : IOBuf) : bool := 0 <=? magic b.

Definition IOBuf_empty : IOBuf := Sv null_ref null_ref.
Definition nonnull (r : BlockRef) : bool :=
  match block r with Some _ => true | None => false end.

Definition empty (b : IOBuf) : bool :=
  match b with
  | Sv r0 _ => negb (nonnull r0)
  | Bv bv => nbytes bv =? 0
  end.
(** The sum of the two 32-bit lengths is a 32-bit sum. *)
Definition length_ (b : IOBuf) : Z :=
  match b with
  | Sv r0 r1 => u32 (length r0 + length r1)
  | Bv bv => nbytes bv
  end.
Definition _ref_num (b : IOBuf) : Z :=
  match b with
  | Sv r0 r1 => Z.b2z (nonnull r0) + Z.b2z (nonnull r1)
  | Bv bv => nref bv
  end.
Definition _front_ref (b : IOBuf) : option BlockRef :=
  match b with
  | Sv r0 _ => Some r0
  | Bv bv => refs bv !! Z.to_nat (start bv)
  end.
Definition _back_ref (b : IOBuf) : option BlockRef :=
  match b with
  | Sv r0 r1 => Some (if nonnull r1 then r1 else r0)
  | Bv bv => bv_ref_at bv (u32 (nref bv - 1))
  end.
Definition _ref_at (b : IOBuf) (i : Z) : option BlockRef :=
  match b with
  | Sv r0 r1 => [r0; r1] !! Z.to_nat i
  | Bv bv => bv_ref_at bv i
  end.
Definition _pref_at (b : IOBuf) (i : Z) : option BlockRef :=
  match b with
  | Sv r0 r1 =>
      if i <? Z.b2z (nonnull r0) + Z.b2z (nonnull r1) then [r0; r1] !! Z.to_nat i else None
  | Bv bv => if i <? nref bv then bv_ref_at bv i else None
  end.

(** Assignment through the references [_front_ref()] and [_back_ref()], together
    with the update of [_bv.nbytes] by [- n] that follows it in BigView. *)
Definition set_front_ref (b : IOBuf) (r : BlockRef) (n : Z) : IOBuf :=
  match b with
  | Sv _ r1 => Sv r r1
  | Bv bv => Bv (mkBV (start bv) (<[Z.to_nat (start bv) := r]> (refs bv)) (nref bv)
                   (cap_mask bv) (u64 (nbytes bv - n)))
  end.
Definition set_back_ref (b : IOBuf) (r : BlockRef) (n : Z) : IOBuf :=
  match b with
  | Sv r0 r1 => if nonnull r1 then Sv r0 r else Sv r r1
  | Bv bv =>
      let bv' := bv_set_ref_at bv (u32 (nref bv - 1)) r in
      Bv (mkBV (start bv') (refs bv') (nref bv') (cap_mask bv') (u64 (nbytes bv' - n)))
  end.

(** [r.block->inc_ref()] and [r.block->dec_ref()]. *)
Definition ref_inc (r : BlockRef) : M World unit :=
  match block r with Some b => inc_ref b | None => ub end.
Definition ref_dec (r : BlockRef) : M World unit :=
  match block r with Some b => dec_ref b | None => ub end.

Definition same_block (r1 r2 : BlockRef) : bool := bool_decide (block r1 = block r2).
(** The test of the branch "Merge ref". *)
Definition mergeable (r1 r : BlockRef) : bool :=
  same_block r1 r && (u32 (offset r1 + length r1) =? offset r).
Definition merge (r1 r : BlockRef) : BlockRef :=
  mkRef (offset r1) (u32 (length r1 + length r)) (block r1).

Definition _push_or_move_back_ref_to_smallview (MOVE : bool) (r0 r1 r : BlockRef)
  : M World IOBuf :=
  if negb (nonnull r0) then
    do* (if MOVE then mret tt else ref_inc r) in
    mret (Sv r r1)
  else if negb (nonnull r1) then
    if mergeable r0 r then
      do* (if MOVE then ref_dec r else mret tt) in
      mret (Sv (merge r0 r) r1)
    else
      do* (if MOVE then mret tt else ref_inc r) in
      mret (Sv r0 r)
  else if mergeable r1 r then
    do* (if MOVE then ref_dec r else mret tt) in
    mret (Sv r0 (merge r1 r))
  else
    do* acquire_blockref_array in
    let new_refs := [r0; r1; r] ++ replicate (Z.to_nat INITIAL_CAP - 3) null_ref in
    let new_nbytes := u32 (u32 (length r0 + length r1) + length r) in
    do* (if MOVE then mret tt else ref_inc r) in
    mret (Bv (mkBV 0 new_refs 3 (INITIAL_CAP - 1) new_nbytes)).

(** The loop [new_refs[i] = _bv.ref_at(i)], for [n] entries from [i]. *)
Fixpoint copy_refs (bv : BigView) (n : nat) (i : Z) : option (list BlockRef) :=
  match n with
  | O => Some []
  | S n' => r ← bv_ref_at bv i; l ← copy_refs bv n' (i + 1); Some (r :: l)
  end.

Definition _push_or_move_back_ref_to_bigview (MOVE : bool) (bv : BigView) (r : BlockRef)
  : M World IOBuf :=
  let* back := mlift (bv_ref_at bv (u32 (nref bv - 1))) in
  if mergeable back r then
    let bv1 := bv_set_ref_at bv (u32 (nref bv - 1)) (merge back r) in
    do* (if MOVE then ref_dec r else mret tt) in
    mret (Bv (mkBV (start bv1) (refs bv1) (nref bv1) (cap_mask bv1)
                (u64 (nbytes bv1 + length r))))
  else if negb (nref bv =? capacity bv) then
    let bv1 := bv_set_ref_at bv (nref bv) r in
    do* (if MOVE then mret tt else ref_inc r) in
    mret (Bv (mkBV (start bv1) (refs bv1) (u32 (nref bv1 + 1)) (cap_mask bv1)
                (u64 (nbytes bv1 + length r))))
  else
    let new_cap := u32 (capacity bv * 2) in
    do* acquire_blockref_array in
    let* copied := mlift (copy_refs bv (Z.to_nat (nref bv)) 0) in
    let new_refs := copied ++ [r] ++
                    replicate (Z.to_nat new_cap - Z.to_nat (nref bv) - 1) null_ref in
    do* (if MOVE then mret tt else ref_inc r) in
    mret (Bv (mkBV 0 new_refs (u32 (nref bv + 1)) (u32 (new_cap - 1))
                (u64 (nbytes bv + length r)))).

Definition push_or_move_back_ref (MOVE : bool) (b : IOBuf) (r : BlockRef) : M World IOBuf :=
  match b with
  | Sv r0 r1 => _push_or_move_back_ref_to_smallview MOVE r0 r1 r
  | Bv bv => _push_or_move_back_ref_to_bigview MOVE bv r
  end.
Definition _push_back_ref (b : IOBuf) (r : BlockRef) : M World IOBuf :=
  push_or_move_back_ref false b r.
Definition _move_back_ref (b : IOBuf) (r : BlockRef) : M World IOBuf :=
  push_or_move_back_ref true b r.

(** Returns 0 on success and -1 on empty. *)
Definition _pop_or_moveout_front_ref (MOVEOUT : bool) (b : IOBuf) : M World (Z * IOBuf) :=
  match b with
  | Sv r0 r1 =>
      if nonnull r0 then
        do* (if MOVEOUT then mret tt else ref_dec r0) in
        mret (0, Sv r1 null_ref)
      else mret (-1, b)
  | Bv bv =>
      let* r := mlift (refs bv !! Z.to_nat (start bv)) in
      do* (if MOVEOUT then mret tt else ref_dec r) in
      let nref1 := u32 (nref bv - 1) in
      if 2 <? nref1 then
        mret (0, Bv (mkBV (Z.land (u32 (start bv + 1)) (cap_mask bv)) (refs bv) nref1
                       (cap_mask bv) (u64 (nbytes bv - length r))))
      else
        let* r0 := mlift (refs bv !! Z.to_nat (Z.land (u32 (start bv + 1)) (cap_mask bv))) in
        let* r1 := mlift (refs bv !! Z.to_nat (Z.land (u32 (start bv + 2)) (cap_mask bv))) in
        mret (0, Sv r0 r1)
  end.
Definition _pop_front_ref (b : IOBuf) : M World (Z * IOBuf) :=
  _pop_or_moveout_front_ref false b.
Definition _moveout_front_ref (b : IOBuf) : M World (Z * IOBuf) :=
  _pop_or_moveout_front_ref true b.

Definition _pop_back_ref (b : IOBuf) : M World (Z * IOBuf) :=
  match b with
  | Sv r0 r1 =>
      if nonnull r1 then do* ref_dec r1 in mret (0, Sv r0 null_ref)
      else if nonnull r0 then do* ref_dec r0 in mret (0, Sv null_ref r1)
      else mret (-1, b)
  | Bv bv =>
      let* back := mlift (refs bv !! Z.to_nat (Z.land (u32 (start bv + nref bv - 1)) (cap_mask bv))) in
      do* ref_dec back in
      let nref1 := u32 (nref bv - 1) in
      if 2 <? nref1 then
        mret (0, Bv (mkBV (start bv) (refs bv) nref1 (cap_mask bv)
                       (u64 (nbytes bv - length back))))
      else
        let* r0 := mlift (refs bv !! Z.to_nat (start bv)) in
        let* r1 := mlift (refs bv !! Z.to_nat (Z.land (u32 (start bv + 1)) (cap_mask bv))) in
        mret (0, Sv r0 r1)
  end.

(** The loop [for i < nref: ref_at(i).block->dec_ref()]. *)
Fixpoint dec_all (bv : BigView) (n : nat) (i : Z) : M World unit :=
  match n with
  | O => mret tt
  | S n' =>
      let* r := mlift (bv_ref_at bv i) in
      do* ref_dec r in
      dec_all bv n' (i + 1)
  end.

Definition clear (b : IOBuf) : M World IOBuf :=
  match b with
  | Sv r0 r1 =>
      if nonnull r0 then
        do* ref_dec r0 in
        if nonnull r1 then do* ref_dec r1 in mret (Sv null_ref null_ref)
        else mret (Sv null_ref r1)
      else mret b
  | Bv bv => do* dec_all bv (Z.to_nat (nref bv)) 0 in mret IOBuf_empty
  end.

(** The loop of the copy constructor: [_bv.refs[i] = rhs.ref_at(i)] with a new
    reference to the block. *)
Fixpoint copy_inc (bv : BigView) (n : nat) (i : Z) : M World (list BlockRef) :=
  match n with
  | O => mret []
  | S n' =>
      let* r := mlift (bv_ref_at bv i) in
      do* ref_inc r in
      let* l := copy_inc bv n' (i + 1) in
      mret (r :: l)
  end.

Definition IOBuf_copy (rhs : IOBuf) : M World IOBuf :=
  match rhs with
  | Sv r0 r1 =>
      do* (if nonnull r0 then ref_inc r0 else mret tt) in
      do* (if nonnull r1 then ref_inc r1 else mret tt) in
      mret (Sv r0 r1)
  | Bv bv =>
      do* acquire_blockref_array in
      let* l := copy_inc bv (Z.to_nat (nref bv)) 0 in
      mret (Bv (mkBV 0 (l ++ replicate (Z.to_nat (capacity bv) - Z.to_nat (nref bv)) null_ref)
                  (nref bv) (cap_mask bv) (nbytes bv)))
  end.

(** [operator=(const IOBuf&)] on two distinct objects. *)
Definition assign (this rhs : IOBuf) : M World IOBuf :=
  match this, rhs with
  | Bv bv, Bv rbv =>
      if cap_mask bv =? cap_mask rbv then
        do* dec_all bv (Z.to_nat (nref bv)) 0 in
        let* l := copy_inc rbv (Z.to_nat (nref rbv)) 0 in
        mret (Bv (mkBV 0 (l ++ drop (Datatypes.length l) (refs bv)) (nref rbv)
                    (cap_mask bv) (nbytes rbv)))
      else
        let* _ := clear this in IOBuf_copy rhs
  | _, _ => let* _ := clear this in IOBuf_copy rhs
  end.

(** The Movable constructor and assignment, [swap]. *)
Definition IOBuf_move (rhs : IOBuf) : IOBuf * IOBuf := (rhs, IOBuf_empty).
Definition assign_move (this rhs : IOBuf) : M World (IOBuf * IOBuf) :=
  let* _ := clear this in mret (rhs, IOBuf_empty).
Definition swap (this other : IOBuf) : IOBuf * IOBuf := (other, this).

(** ** The abstraction: an IOBuf is a list of references *)

Definition ids (l : list BlockRef) : list bid := omap block l.
Definition total (l : list BlockRef) : Z := foldr (fun r z => length r + z) 0 l.
(** Every reference counted as one more than its length: the sizes below which
    no 32-bit sum or ring capacity overflows. *)
Definition weight (l : list BlockRef) : Z := foldr (fun r z => length r + 1 + z) 0 l.
Definition limit : Z := 2 ^ 30.

Definition ref_shape (r : BlockRef) : Prop :=
  0 <= offset r /\ 0 < length r /\ offset r + length r < 2 ^ 31 /\ is_Some (block r).

(** A ring of 2^k entries that holds the list [l] from index [s] on. *)
Definition ring (k s : Z) (rf l : list BlockRef) : Prop :=
  0 <= k <= 30 /\ Z.of_nat (Datatypes.length rf) = 2 ^ k /\ 0 <= s < 2 ^ k /\
  Z.of_nat (Datatypes.length l) <= 2 ^ k /\
  forall i, 0 <= i < Z.of_nat (Datatypes.length l) ->
    rf !! Z.to_nat ((s + i) mod 2 ^ k) = l !! Z.to_nat i.

Definition repr (b : IOBuf) (l : list BlockRef) : Prop :=
  Forall ref_shape l /\ weight l < limit /\
  match b with
  | Sv r0 r1 =>
      match l with
      | [] => r0 = null_ref /\ r1 = null_ref
      | [a] => r0 = a /\ r1 = null_ref
      | [a; c] => r0 = a /\ r1 = c
      | _ => False
      end
  | Bv bv =>
      exists k : Z, cap_mask bv = 2 ^ k - 1 /\ ring k (start bv) (refs bv) l /\
        nref bv = Z.of_nat (Datatypes.length l) /\ 3 <= nref bv /\ nbytes bv = total l
  end.

(** Pushing a reference: merged with the last one when it continues it. *)
Definition push_ref (l : list BlockRef) (r : BlockRef) : list BlockRef :=
  match last l with
  | Some x => if mergeable x r then take (Datatypes.length l - 1) l ++ [merge x r] else l ++ [r]
  | None => [r]
  end.

(** The bytes a reference designates, and those of a buffer. *)
Definition ref_bytes (w : World) (r : BlockRef) : list Z :=
  match block r with
  | Some b =>
      match heap w !! b with
      | Some blk => take (Z.to_nat (length r)) (drop (Z.to_nat (offset r)) (data blk))
      | None => []
      end
  | None => []
  end.
Definition bytes (w : World) (l : list BlockRef) : list Z := mjoin (map (ref_bytes w) l).

(** A reference is valid when it stays within the written part of its block. *)
Definition ref_ok (w : World) (r : BlockRef) : Prop :=
  exists b blk, block r = Some b /\ heap w !! b = Some blk /\
    0 <= offset r /\ 0 <= length r /\ offset r + length r <= size blk.
Definition valid (w : World) (l : list BlockRef) : Prop := Forall (ref_ok w) l.

(** ** The abstraction: lemmas *)
Abbreviation len l := (Z.of_nat (Datatypes.length l)).

Lemma ids_app l1 l2 : ids (l1 ++ l2) = ids l1 ++ ids l2.
Proof. apply omap_app. Qed.
Lemma total_app l1 l2 : total (l1 ++ l2) = total l1 + total l2.
Proof. induction l1; simpl; lia. Qed.
Lemma weight_app l1 l2 : weight (l1 ++ l2) = weight l1 + weight l2.
Proof. induction l1; simpl; lia. Qed.
Lemma weight_total l : weight l = total l + len l.
Proof. induction l as [|r l IH]; simpl; [done|]. rewrite IH. lia. Qed.
Lemma total_nonneg l : Forall ref_shape l -> 0 <= total l.
Proof. induction 1 as [|r l Hr]; simpl; [done|]. destruct Hr as (? & ? & _). lia. Qed.
Lemma bytes_app w l1 l2 : bytes w (l1 ++ l2) = bytes w l1 ++ bytes w l2.
Proof. unfold bytes. by rewrite map_app, join_app. Qed.

Lemma bytes_one w r : bytes w [r] = ref_bytes w r.
Proof. apply app_nil_r. Qed.
Lemma bytes_cons w r l : bytes w (r :: l) = ref_bytes w r ++ bytes w l.
Proof. done. Qed.

Lemma land_mask x k : 0 <= k -> Z.land x (2 ^ k - 1) = x mod 2 ^ k.
Proof. intros Hk. rewrite <- Z.land_ones, Z.ones_equiv by done. done. Qed.
Lemma pow_bound k : 0 <= k <= 30 -> 1 <= 2 ^ k <= 2 ^ 30.
Proof. intros Hk. split; [|apply Z.pow_le_mono_r; lia]. pose proof (Z.pow_pos_nonneg 2 k). lia. Qed.

(** The slot the source computes for the [i]-th entry. *)
Lemma ring_slot k s i :
  0 <= k <= 30 -> 0 <= s < 2 ^ k -> 0 <= i <= 2 ^ k ->
  Z.land (u32 (s + i)) (2 ^ k - 1) = (s + i) mod 2 ^ k.
Proof.
  intros Hk Hs Hi. pose proof (pow_bound k Hk). rewrite u32_small by lia.
  apply land_mask. lia.
Qed.

Lemma ring_inj k s i j :
  0 <= s < 2 ^ k -> 0 <= i < 2 ^ k -> 0 <= j < 2 ^ k ->
  Z.to_nat ((s + i) mod 2 ^ k) = Z.to_nat ((s + j) mod 2 ^ k) -> i = j.
Proof.
  intros Hs Hi Hj. rewrite !ring_add by lia.
  destruct (Z.ltb_spec (s + i) (2 ^ k)), (Z.ltb_spec (s + j) (2 ^ k)); lia.
Qed.

Lemma ring_snoc k s rf l r :
  ring k s rf l -> len l < 2 ^ k ->
  ring k s (<[Z.to_nat ((s + len l) mod 2 ^ k) := r]> rf) (l ++ [r]).
Proof.
  intros (Hk & Hlen & Hs & Hl & Hat) Hlt. unfold ring.
  rewrite length_insert, length_app. simpl Datatypes.length.
  split; [done|]. split; [done|]. split; [done|]. split; [lia|].
  intros i Hi. destruct (decide (i = len l)) as [->|Hne].
  - pose proof (Z.mod_pos_bound (s + len l) (2 ^ k)).
    rewrite list_lookup_insert_eq by lia. by rewrite Nat2Z.id, list_lookup_middle.
  - rewrite list_lookup_insert_ne by (intros Heq; apply ring_inj in Heq; lia).
    rewrite Hat by lia. rewrite lookup_app_l by lia. done.
Qed.

Lemma ring_set k s rf l r i :
  ring k s rf l -> 0 <= i < len l ->
  ring k s (<[Z.to_nat ((s + i) mod 2 ^ k) := r]> rf) (<[Z.to_nat i := r]> l).
Proof.
  intros (Hk & Hlen & Hs & Hl & Hat) Hi. unfold ring. rewrite !length_insert.
  split; [done|]. split; [done|]. split; [done|]. split; [done|].
  intros j Hj. destruct (decide (i = j)) as [->|Hne].
  - pose proof (Z.mod_pos_bound (s + j) (2 ^ k)).
    rewrite !list_lookup_insert_eq by lia. done.
  - rewrite !list_lookup_insert_ne by first [lia | intros Heq; apply ring_inj in Heq; lia].
    by apply Hat.
Qed.

Lemma ring_pop_front k s rf l r :
  ring k s rf (r :: l) -> ring k ((s + 1) mod 2 ^ k) rf l.
Proof.
  intros (Hk & Hlen & Hs & Hl & Hat). pose proof (pow_bound k Hk). simpl Datatypes.length in *.
  split; [done|]. split; [done|]. split; [apply Z.mod_pos_bound; lia|]. split; [lia|].
  intros i Hi. rewrite Z.add_mod_idemp_l by lia.
  replace (s + 1 + i) with (s + (i + 1)) by lia. rewrite Hat by lia.
  by replace (Z.to_nat (i + 1)) with (S (Z.to_nat i)) by lia.
Qed.

Lemma ring_pop_back k s rf l r : ring k s rf (l ++ [r]) -> ring k s rf l.
Proof.
  intros (Hk & Hlen & Hs & Hl & Hat). rewrite length_app in *. simpl in *.
  split; [done|]. split; [done|]. split; [done|]. split; [lia|].
  intros i Hi. rewrite Hat by lia. by rewrite lookup_app_l by lia.
Qed.

(** A freshly filled array starting at 0. *)
Lemma ring_fresh k l pad :
  0 <= k <= 30 -> len (l ++ pad) = 2 ^ k -> ring k 0 (l ++ pad) l.
Proof.
  intros Hk Hlen. pose proof (pow_bound k Hk). rewrite length_app in Hlen.
  split; [done|]. split; [by rewrite length_app|]. split; [lia|]. split; [lia|].
  intros i Hi. rewrite Z.mod_small by lia. by rewrite lookup_app_l by lia.
Qed.

Lemma bv_ref_at_ring k bv l i :
  ring k (start bv) (refs bv) l -> cap_mask bv = 2 ^ k - 1 -> 0 <= i < len l ->
  bv_ref_at bv i = l !! Z.to_nat i.
Proof.
  intros Hr Hm Hi. pose proof Hr as (Hk & _ & Hs & Hl & Hat). unfold bv_ref_at.
  rewrite Hm, ring_slot by lia. by apply Hat.
Qed.

Lemma ring_front k bv r l : ring k (start bv) (refs bv) (r :: l) ->
  refs bv !! Z.to_nat (start bv) = Some r.
Proof.
  intros (Hk & _ & Hs & Hl & Hat). specialize (Hat 0). rewrite Z.add_0_r, Z.mod_small in Hat by lia.
  apply Hat. simpl. lia.
Qed.

(** A buffer designated by its list: the shape of the two views. *)
Lemma repr_small b l : repr b l -> (Datatypes.length l <= 2)%nat ->
  b = Sv (default null_ref (l !! 0%nat)) (default null_ref (l !! 1%nat)).
Proof.
  intros (_ & _ & Hb) Hl. destruct b as [r0 r1|bv].
  - destruct l as [|a [|c [|d l]]]; [..|done]; simpl; naive_solver.
  - destruct Hb as (k & _ & _ & ? & ? & _). lia.
Qed.
Lemma repr_big b l : repr b l -> (2 < Datatypes.length l)%nat ->
  exists bv k, b = Bv bv /\ cap_mask bv = 2 ^ k - 1 /\ ring k (start bv) (refs bv) l /\
    nref bv = len l /\ nbytes bv = total l.
Proof.
  intros (_ & _ & Hb) Hl. destruct b as [r0 r1|bv].
  - destruct l as [|a [|c [|d l]]]; simpl in Hl; (lia || done).
  - destruct Hb as (k & ? & ? & ? & ? & ?). by exists bv, k.
Qed.

Lemma repr_empty : repr IOBuf_empty [].
Proof. done. Qed.

Lemma ref_shape_nonnull r : ref_shape r -> nonnull r = true.
Proof. intros (_ & _ & _ & [b Hb]). unfold nonnull. by rewrite Hb. Qed.

(** [_small()] identifies the view: the offset in the first reference never has
    its sign bit set. *)
Lemma small_iff_view b l : repr b l ->
  _small b = match b with Sv _ _ => true | Bv _ => false end.
Proof.
  intros (Hsh & _ & Hb). destruct b as [r0 r1|bv]; [|done]. unfold _small, magic, i32.
  assert (Hr0 : 0 <= offset r0 < 2 ^ 31).
  { destruct l as [|a l]; [by destruct Hb as [-> _]|].
    apply Forall_cons in Hsh as [(? & ? & ? & _) _].
    destruct l as [|c [|d l]]; naive_solver lia. }
  rewrite Z.mod_small by lia. apply Z.leb_le. lia.
Qed.

Section Reads.
Context (b : IOBuf) (l : list BlockRef) (Hrepr : repr b l).

Lemma repr_shape : Forall ref_shape l.
Proof. apply Hrepr. Qed.
Lemma repr_weight : 0 <= total l /\ total l + len l < limit.
Proof. destruct Hrepr as (Hsh & Hw & _). rewrite weight_total in Hw. by apply total_nonneg in Hsh. Qed.

Lemma ref_num_spec : _ref_num b = len l.
Proof.
  destruct Hrepr as (Hsh & _ & Hb). destruct b as [r0 r1|bv].
  - destruct l as [|a [|c [|d l']]]; destruct_and?; subst; try done; simpl;
      rewrite ?Forall_cons in Hsh; destruct_and?; by rewrite ?ref_shape_nonnull by done.
  - by destruct Hb as (k & _ & _ & Hn & _).
Qed.
Lemma length_spec : length_ b = total l.
Proof.
  pose proof repr_weight as Hw. unfold limit in Hw.
  destruct Hrepr as (Hsh & _ & Hb). destruct b as [r0 r1|bv].
  - destruct l as [|a [|c [|d l']]]; destruct_and?; subst; try done; simpl in *;
      rewrite u32_small; lia.
  - by destruct Hb as (k & _ & _ & _ & _ & Hn).
Qed.
Lemma front_ref_spec r l' : l = r :: l' -> _front_ref b = Some r.
Proof.
  intros ->. destruct Hrepr as (Hsh & _ & Hb). destruct b as [r0 r1|bv]; simpl.
  - destruct l' as [|c [|d l']]; naive_solver.
  - destruct Hb as (k & _ & Hr & _). by eapply ring_front.
Qed.
Lemma ref_at_spec i : 0 <= i < len l -> _ref_at b i = l !! Z.to_nat i.
Proof.
  intros Hi. destruct Hrepr as (Hsh & _ & Hb). destruct b as [r0 r1|bv]; cbn -[lookup].
  - destruct l as [|a [|c [|d l']]]; [simpl in Hi; lia|..|done]; destruct Hb as [-> ->]; [|done].
    simpl in Hi. by assert (i = 0) as -> by lia.
  - destruct Hb as (k & Hm & Hr & Hn & _). by eapply bv_ref_at_ring.
Qed.
Lemma back_ref_spec r l' : l = l' ++ [r] -> _back_ref b = Some r.
Proof.
  pose proof repr_weight as Hw. intros ->. unfold limit in Hw.
  destruct Hrepr as (Hsh & _ & Hb). destruct b as [r0 r1|bv]; simpl.
  - apply Forall_app in Hsh as [_ [Hsh%ref_shape_nonnull _]%Forall_cons].
    destruct l' as [|c [|d [|e l']]]; simpl in Hb; destruct_and?; subst; simpl; try done;
      by rewrite Hsh.
  - destruct Hb as (k & Hm & Hr & Hn & _). rewrite length_app in *. simpl in *.
    rewrite Hn, u32_small by lia. erewrite bv_ref_at_ring by (done || rewrite length_app; simpl; lia).
    rewrite lookup_app_r by lia. by replace (Z.to_nat _ - _)%nat with 0%nat by lia.
Qed.
End Reads.

Lemma total_zero l : Forall ref_shape l -> total l = 0 -> l = [].
Proof.
  destruct l as [|r l]; [done|]. intros [(_ & ? & _) Hl%total_nonneg]%Forall_cons. simpl. lia.
Qed.
Lemma empty_spec b l : repr b l -> empty b = bool_decide (l = []).
Proof.
  intros (Hsh & _ & Hb). destruct b as [r0 r1|bv]; simpl.
  - destruct l as [|a [|c [|d l']]]; [..|done]; destruct Hb as [-> _]; [done|..];
      apply Forall_cons in Hsh as [Ha%ref_shape_nonnull _]; by rewrite Ha.
  - destruct Hb as (k & _ & _ & Hn & Hn3 & Hnb). rewrite Hnb.
    destruct l as [|a l']; simpl in Hn; [lia|].
    destruct (Z.eqb_spec (total (a :: l')) 0) as [H0|H0]; [|done].
    by apply total_zero in H0.
Qed.

(** ** Pushing references *)
Lemma push_ref_snoc l x r :
  push_ref (l ++ [x]) r = if mergeable x r then l ++ [merge x r] else l ++ [x; r].
Proof.
  unfold push_ref. rewrite last_snoc, length_app. simpl.
  rewrite Nat.add_sub, take_app_length. by rewrite <- app_assoc.
Qed.

Lemma mergeable_spec x r : ref_shape x -> ref_shape r -> mergeable x r = true ->
  block r = block x /\ offset r = offset x + length x /\
  merge x r = mkRef (offset x) (length x + length r) (block x).
Proof.
  intros (? & ? & ? & _) (? & ? & ? & _). unfold mergeable, same_block, merge.
  rewrite andb_true_iff, bool_decide_eq_true, Z.eqb_eq. rewrite u32_small by lia.
  intros [Hb Ho]. rewrite u32_small by lia. done.
Qed.

Lemma merge_shape x r : ref_shape x -> ref_shape r -> mergeable x r = true ->
  ref_shape (merge x r).
Proof.
  intros Hx Hr Hm. destruct (mergeable_spec x r Hx Hr Hm) as (Hb & Ho & ->).
  destruct Hx as (? & ? & ? & ?), Hr as (? & ? & ? & ?). split_and!; simpl; try lia. done.
Qed.

Lemma push_ref_shape l r : Forall ref_shape l -> ref_shape r -> Forall ref_shape (push_ref l r).
Proof.
  destruct l as [|x l _] using rev_ind; intros Hl Hr.
  - constructor; [exact Hr|constructor].
  - rewrite push_ref_snoc. apply Forall_app in Hl as [Hl [Hx _]%Forall_cons].
    destruct (mergeable x r) eqn:Hm; (apply Forall_app; split; [exact Hl|]).
    + constructor; [by apply merge_shape|constructor].
    + constructor; [exact Hx|]. constructor; [exact Hr|constructor].
Qed.

Lemma push_ref_total l r : Forall ref_shape l -> ref_shape r ->
  total (push_ref l r) = total l + length r /\ weight (push_ref l r) <= weight l + length r + 1.
Proof.
  intros Hl Hr. destruct l as [|x l _] using rev_ind; [simpl; lia|].
  rewrite push_ref_snoc. apply Forall_app in Hl as [Hl [Hx _]%Forall_cons].
  destruct (mergeable x r) eqn:Hm;
    [destruct (mergeable_spec x r Hx Hr Hm) as (_ & _ & ->)|];
    rewrite !total_app, !weight_app; simpl; lia.
Qed.

(** The references a buffer holds after a push: one more unless merged. *)
Lemma push_ref_ids l r : Forall ref_shape l -> ref_shape r ->
  forall b, cnt b (ids (push_ref l r)) =
    cnt b (ids l) + (if match last l with Some x => mergeable x r | None => false end
                     then 0 else cnt b (ids [r])).
Proof.
  intros Hl Hr b. destruct l as [|x l _] using rev_ind; [done|].
  rewrite push_ref_snoc, last_snoc. apply Forall_app in Hl as [Hl [Hx _]%Forall_cons].
  destruct (mergeable x r) eqn:Hm; rewrite !ids_app, !cnt_app.
  - destruct (mergeable_spec x r Hx Hr Hm) as (_ & _ & ->). simpl. lia.
  - simpl. destruct (block x), (block r); simpl; lia.
Qed.

Lemma push_ref_mem l r k : Forall ref_shape l -> ref_shape r -> block r = Some k ->
  k ∈ ids (push_ref l r).
Proof.
  intros Hl Hr Hk. destruct l as [|x l _] using rev_ind.
  - unfold ids, push_ref. simpl. rewrite Hk. set_solver.
  - rewrite push_ref_snoc. apply Forall_app in Hl as [Hl [Hx _]%Forall_cons].
    destruct (mergeable x r) eqn:Hm; rewrite ids_app; apply elem_of_app; right.
    + destruct (mergeable_spec x r Hx Hr Hm) as (Hb & _ & ->). unfold ids. simpl.
      rewrite <- Hb, Hk. set_solver.
    + unfold ids. simpl. rewrite Hk. destruct (block x); set_solver.
Qed.

(** What a push needs: a MOVE consumes a reference the caller holds, a plain push
    takes a new one on a live block. *)
Definition can_push (MOVE : bool) (o : option bid) (tc : list bid) (w : World)
    (r : BlockRef) (rs : list bid) : Prop :=
  if MOVE then inv_core o tc w (ids [r] ++ rs)
  else inv_core o tc w rs /\ exists b, block r = Some b /\ is_Some (heap w !! b).

Lemma ref_inc_spec o tc w rs r b :
  inv_core o tc w rs -> block r = Some b -> is_Some (heap w !! b) ->
  exists w', ref_inc r w = Some (tt, w') /\ inv_core o tc w' (ids [r] ++ rs) /\ frame w w'.
Proof. intros Hi Hb Hh. unfold ref_inc, ids. simpl. rewrite Hb. by apply inc_ref_frame. Qed.

Lemma ref_dec_spec o tc w rs r :
  ref_shape r -> inv_core o tc w (ids [r] ++ rs) ->
  exists w', ref_dec r w = Some (tt, w') /\ inv_core o tc w' rs /\ frame w w'.
Proof.
  intros (_ & _ & _ & [b Hb]). unfold ref_dec, ids. simpl. rewrite Hb. apply dec_ref_frame.
Qed.

(** The reference counting of a push, by whether the reference is merged. *)
Definition push_step (MOVE merged : bool) (r : BlockRef) : M World unit :=
  if merged then (if MOVE then ref_dec r else mret tt)
  else (if MOVE then mret tt else ref_inc r).
Definition merges (l : list BlockRef) (r : BlockRef) : bool :=
  match last l with Some x => mergeable x r | None => false end.

Lemma push_step_spec MOVE o tc w r l rs :
  Forall ref_shape l -> ref_shape r -> can_push MOVE o tc w r (ids l ++ rs) ->
  exists w', push_step MOVE (merges l r) r w = Some (tt, w') /\
    inv_core o tc w' (ids (push_ref l r) ++ rs) /\ frame w w'.
Proof.
  intros Hl Hr Hcan. unfold push_step.
  pose proof (push_ref_ids l r Hl Hr) as Hids. fold (merges l r) in Hids.
  assert (Hgoal : forall w', inv_core o tc w' ((if merges l r then [] else ids [r]) ++ ids l ++ rs) ->
            inv_core o tc w' (ids (push_ref l r) ++ rs)).
  { intros w'. apply inv_perm. intros b. rewrite !cnt_app, Hids.
    destruct (merges l r); simpl; lia. }
  destruct (merges l r), MOVE; simpl in Hcan.
  - destruct (ref_dec_spec o tc w (ids l ++ rs) r Hr Hcan) as (w' & ? & ? & ?). eauto.
  - destruct Hcan as [Hi _]. exists w. split; [done|]. split; [auto|reflexivity].
  - exists w. split; [done|]. split; [auto|reflexivity].
  - destruct Hcan as [Hi (b & Hb & Hh)].
    destruct (ref_inc_spec o tc w (ids l ++ rs) r b Hi Hb Hh) as (w' & ? & ? & ?). eauto.
Qed.

Lemma can_push_eq MOVE o tc w w' r rs :
  heap w' = heap w -> next_bid w' = next_bid w ->
  can_push MOVE o tc w r rs -> can_push MOVE o tc w' r rs.
Proof.
  intros Hh Hn. unfold can_push. rewrite Hh.
  destruct MOVE; [|intros [Hi ?]; split; [|done]; revert Hi]; by apply inv_core_eq.
Qed.

(** The counter update of [acquire_blockref_array]. *)
Definition array_acquired (w : World) : World :=
  set_counters (g_nblock w) (g_blockmem w) (u64 (g_newbigview w + 1))
    (g_num_hit_tls_threshold w) w.
Lemma array_acquired_frame w : frame w (array_acquired w).
Proof. by apply frame_heap. Qed.

(** The outcome of an operation on a buffer that leaves it with the list [l']. *)
Definition became {A} (o : option bid) (tc : list bid) (w : World) (rs : list bid)
    (res : option (A * World)) (a : A) (buf' : IOBuf) (l' : list BlockRef) : Prop :=
  exists w', res = Some (a, w') /\ repr buf' l' /\ inv_core o tc w' (ids l' ++ rs) /\ frame w w'.

Lemma push_small_spec MOVE r0 r1 l r o tc w rs :
  repr (Sv r0 r1) l -> ref_shape r -> weight l + length r + 1 < limit ->
  can_push MOVE o tc w r (ids l ++ rs) ->
  exists buf', became o tc w rs (_push_or_move_back_ref_to_smallview MOVE r0 r1 r w)
                 buf' buf' (push_ref l r).
Proof.
  intros (Hsh & Hw & Hb) Hr Hlim Hcan.
  pose proof (push_ref_shape l r Hsh Hr) as Hsh'.
  destruct (push_ref_total l r Hsh Hr) as [Htot Hw'].
  assert (Hlim' : weight (push_ref l r) < limit) by lia.
  pose proof (push_step_spec MOVE o tc w r l rs Hsh Hr Hcan) as Hstep.
  pose proof (can_push_eq MOVE o tc w (array_acquired w) r _ eq_refl eq_refl Hcan) as Hcan'.
  pose proof (push_step_spec MOVE o tc _ r l rs Hsh Hr Hcan') as Hstep'.
  unfold _push_or_move_back_ref_to_smallview, became, repr, push_step in *.
  destruct l as [|a [|c [|d l]]]; [..|done]; destruct Hb as [-> ->];
    cbn [nonnull null_ref block negb].
  - destruct Hstep as (w' & Heq & Hi & Hf). simpl in Heq. unfold mbind'. rewrite Heq.
    eexists _, _. split; [done|]. done.
  - pose proof Hsh as [Ha%ref_shape_nonnull _]%Forall_cons. rewrite Ha. cbn [negb].
    unfold merges, push_ref in *. cbn [last] in *.
    destruct (mergeable a r), Hstep as (w' & Heq & Hi & Hf); unfold mbind'; rewrite Heq;
      eexists _, _; done.
  - pose proof Hsh as [Ha%ref_shape_nonnull [Hc%ref_shape_nonnull _]%Forall_cons]%Forall_cons.
    rewrite Ha, Hc. cbn [negb]. unfold merges, push_ref in *. cbn [last] in *.
    destruct (mergeable c r).
    + destruct Hstep as (w' & Heq & Hi & Hf); unfold mbind'; rewrite Heq; by eexists _, _.
    + destruct Hstep' as (w' & Heq & Hi & Hf). unfold mbind', acquire_blockref_array, mmod.
      fold (array_acquired w). rewrite Heq. eexists _, w'. split; [done|].
      split; [|split; [done|transitivity (array_acquired w); [apply array_acquired_frame|done]]].
      split; [done|]. split; [done|]. exists 5. split; [done|].
      split; [by apply (ring_fresh 5 [a; c; r])|]. split; [done|]. split; [done|].
      simpl in *. unfold limit in *. rewrite !Forall_cons in Hsh'.
      destruct Hsh' as ((_ & ? & _) & (_ & ? & _) & (_ & ? & _) & _).
      rewrite (u32_small (length a + length c)) by lia. rewrite u32_small; lia.
Qed.

Lemma bv_set_ring_snoc k bv l r :
  ring k (start bv) (refs bv) l -> cap_mask bv = 2 ^ k - 1 -> len l < 2 ^ k ->
  ring k (start bv) (refs (bv_set_ref_at bv (len l) r)) (l ++ [r]).
Proof.
  intros Hr Hm Hl. simpl. pose proof Hr as (Hk & _ & Hs & _).
  rewrite Hm, ring_slot by lia. by apply ring_snoc.
Qed.
Lemma bv_set_ring_last k bv l x r :
  ring k (start bv) (refs bv) (l ++ [x]) -> cap_mask bv = 2 ^ k - 1 ->
  ring k (start bv) (refs (bv_set_ref_at bv (len l) r)) (l ++ [r]).
Proof.
  intros Hr Hm. simpl. pose proof Hr as (Hk & _ & Hs & Hl & _).
  rewrite length_app in Hl. simpl in Hl.
  rewrite Hm, ring_slot by lia. apply (ring_set _ _ _ _ r (len l)) in Hr.
  - rewrite Nat2Z.id, insert_app_r_alt, Nat.sub_diag in Hr by lia. exact Hr.
  - rewrite length_app. simpl. lia.
Qed.

Lemma copy_refs_spec bv k l n i :
  ring k (start bv) (refs bv) l -> cap_mask bv = 2 ^ k - 1 ->
  0 <= i -> i + Z.of_nat n = len l ->
  copy_refs bv n i = Some (drop (Z.to_nat i) l).
Proof.
  intros Hr Hm. revert i. induction n as [|n IH]; intros i Hi Hn.
  - simpl. f_equal. symmetry. apply drop_ge. lia.
  - destruct (lookup_lt_is_Some_2 l (Z.to_nat i)) as [r Hlk]; [lia|].
    simpl. rewrite (bv_ref_at_ring k bv l i), Hlk by (done || lia). simpl.
    rewrite IH by lia. simpl. rewrite (drop_S l r (Z.to_nat i) Hlk). do 3 f_equal. lia.
Qed.

Lemma push_big_spec MOVE bv l r o tc w rs :
  repr (Bv bv) l -> ref_shape r -> weight l + length r + 1 < limit ->
  can_push MOVE o tc w r (ids l ++ rs) ->
  exists buf', became o tc w rs (_push_or_move_back_ref_to_bigview MOVE bv r w)
                 buf' buf' (push_ref l r).
Proof.
  intros Hrepr Hr Hlim Hcan. pose proof Hrepr as (Hsh & Hw & k & Hm & Hring & Hn & Hn3 & Hnb).
  pose proof (push_ref_shape l r Hsh Hr) as Hsh'.
  destruct (push_ref_total l r Hsh Hr) as [Htot Hw'].
  assert (Hlim' : weight (push_ref l r) < limit) by lia.
  pose proof (total_nonneg _ Hsh) as Htl. pose proof (weight_total l) as Hwt.
  pose proof Hring as (Hk & Hlen & Hs & Hl & _). pose proof (pow_bound k Hk) as Hpk.
  pose proof (push_step_spec MOVE o tc w r l rs Hsh Hr Hcan) as Hstep.
  pose proof (can_push_eq MOVE o tc w (array_acquired w) r _ eq_refl eq_refl Hcan) as Hcan'.
  pose proof (push_step_spec MOVE o tc _ r l rs Hsh Hr Hcan') as Hstep'.
  pose proof (back_ref_spec _ _ Hrepr) as Hback. pose proof Hr as (_ & Hlr & _). unfold limit in *.
  destruct l as [|x l _] using rev_ind; [simpl in Hn; lia|].
  specialize (Hback x l eq_refl). simpl in Hback. rewrite length_app in Hn, Hl, Hwt.
  simpl in Hn, Hl, Hwt. assert (Hn1 : u32 (nref bv - 1) = len l) by (rewrite u32_small; lia).
  unfold _push_or_move_back_ref_to_bigview, capacity, mlift. rewrite Hm, Hback, Hn1.
  rewrite (u32_small (2 ^ k - 1 + 1)) by lia. unfold mbind' at 1. cbn [fmap option_fmap option_map].
  unfold merges, push_step in Hstep, Hstep'. rewrite last_snoc in Hstep, Hstep'.
  unfold became, mbind'. rewrite push_ref_snoc in *.
  destruct (mergeable x r); [|destruct (Z.eqb_spec (nref bv) (2 ^ k - 1 + 1)) as [Hfull|Hroom]].
  - destruct Hstep as (w' & -> & Hi & Hf). eexists _, w'. split; [done|]. split; [|done].
    split; [done|]. split; [done|]. exists k. split; [done|]. cbn [refs start nref nbytes bv_set_ref_at].
    split; [by apply (bv_set_ring_last k bv l x)|]. rewrite length_app, Htot. simpl.
    split; [lia|]. split; [lia|]. rewrite u64_small; lia.
  - cbn [negb]. unfold acquire_blockref_array, mmod. fold (array_acquired w).
    rewrite (copy_refs_spec bv k (l ++ [x])) by (done || rewrite ?length_app; simpl; lia).
    cbn [fmap option_fmap option_map Z.to_nat]. rewrite drop_0.
    destruct Hstep' as (w' & -> & Hi & Hf). eexists _, w'. split; [done|].
    split; [|split; [done|transitivity (array_acquired w); [apply array_acquired_frame|done]]].
    split; [done|]. split; [done|].
    assert (Hk29 : k < 30) by (apply (Z.pow_lt_mono_r_iff 2); lia).
    assert (Hk1 : 2 ^ (k + 1) = 2 * 2 ^ k) by (rewrite Z.pow_add_r; lia).
    pose proof (pow_bound (k + 1)). exists (k + 1). cbn [refs start nref nbytes cap_mask].
    rewrite !(u32_small ((2 ^ k - 1 + 1) * 2)), !u32_small by lia.
    split; [lia|]. split.
    { rewrite app_assoc, <- (app_assoc l [x] [r]). apply ring_fresh; [lia|].
      rewrite !length_app, length_replicate. simpl. lia. }
    rewrite length_app, Htot, u64_small by lia. simpl. lia.
  - cbn [negb]. destruct Hstep as (w' & -> & Hi & Hf). eexists _, w'. split; [done|]. split; [|done].
    split; [done|]. split; [done|]. exists k. split; [done|]. cbn [refs start nref nbytes bv_set_ref_at].
    split.
    { change (l ++ [x; r]) with (l ++ [x] ++ [r]). rewrite app_assoc.
      replace (nref bv) with (len (l ++ [x])) by (rewrite length_app; simpl; lia).
      apply bv_set_ring_snoc; [done|done|rewrite length_app; simpl; lia]. }
    rewrite length_app, Htot, u64_small, u32_small by lia. simpl. lia.
Qed.

(** Both views: a push appends the reference, merged when it continues the last. *)
Lemma push_spec MOVE buf l r o tc w rs :
  repr buf l -> ref_shape r -> weight l + length r + 1 < limit ->
  can_push MOVE o tc w r (ids l ++ rs) ->
  exists buf', became o tc w rs (push_or_move_back_ref MOVE buf r w) buf' buf' (push_ref l r).
Proof. destruct buf; [apply push_small_spec|apply push_big_spec]. Qed.

(** ** Popping references *)
Lemma ids_cons r l : ids (r :: l) = ids [r] ++ ids l.
Proof. unfold ids. simpl. by destruct (block r). Qed.

Lemma repr_weight_sub l l' : l' `sublist_of` l -> Forall ref_shape l -> weight l < limit ->
  Forall ref_shape l' /\ weight l' < limit.
Proof.
  intros Hs Hsh Hw. enough (Forall ref_shape l' /\ weight l' <= weight l) as [? ?] by (split; [done|lia]).
  clear Hw. revert Hsh.
  induction Hs as [|r l1 l2 _ IH|r l1 l2 _ IH]; intros Hsh; [done|..];
    apply Forall_cons in Hsh as [Hr Hsh]; destruct (IH Hsh), (Hr) as (_ & ? & _); simpl;
    (split; [by try constructor|lia]).
Qed.

(** A big view that shrinks to two references becomes a small one. *)
Lemma repr_pop k bv l s :
  cap_mask bv = 2 ^ k - 1 -> ring k s (refs bv) l -> Forall ref_shape l -> weight l < limit ->
  2 < len l -> repr (Bv (mkBV s (refs bv) (len l) (cap_mask bv) (total l))) l.
Proof.
  intros Hm Hr Hsh Hw Hl. split; [done|]. split; [done|]. exists k.
  split; [done|]. split; [done|]. simpl. lia.
Qed.

Lemma moveout_front_spec buf r l :
  repr buf (r :: l) ->
  exists buf', repr buf' l /\ forall w, _moveout_front_ref buf w = Some ((0, buf'), w).
Proof.
  intros (Hsh & Hw & Hb).
  destruct (repr_weight_sub (r :: l) l) as [Hsh' Hw']; [by apply sublist_cons|done|done|].
  pose proof Hsh as [(_ & Hlr & _ & [b Hbl]) _]%Forall_cons.
  unfold _moveout_front_ref, _pop_or_moveout_front_ref.
  destruct buf as [r0 r1|bv].
  - assert (r0 = r /\ r1 = default null_ref (head l) /\ (Datatypes.length l <= 1)%nat)
      as (-> & -> & Hl) by (destruct l as [|c [|d l]]; [..|done]; destruct Hb as [-> ->]; done || (simpl; split_and!; done || lia)).
    unfold nonnull. rewrite Hbl. eexists. split; [|done]. split; [done|]. split; [done|].
    destruct l as [|c [|]]; simpl in Hl; (done || lia).
  - destruct Hb as (k & Hm & Hr & Hn & Hn3 & Hnb). pose proof Hr as (Hk & _ & Hs & Hl & Hat).
    rewrite weight_total in Hw. pose proof (total_nonneg _ Hsh') as Ht.
    pose proof (pow_bound k Hk). unfold mlift, mbind', mret. rewrite (ring_front k bv r l Hr).
    simpl in Hn, Hl, Hat, Hw, Hnb. unfold limit in *. cbn [fmap option_fmap option_map].
    rewrite Hm, u32_small by lia. zcase.
    + rewrite ring_slot by lia. eexists. split; [|done].
      replace (nref bv - 1) with (len l) by lia.
      replace (u64 _) with (total l) by (rewrite u64_small; lia). rewrite <- Hm.
      eapply (repr_pop k); [done|by eapply ring_pop_front|done|done|lia].
    + rewrite !ring_slot, !Hat by lia. destruct l as [|a [|c [|d l]]]; simpl in Hn; try lia.
      simpl. eexists. split; [|done]. done.
Qed.

Lemma pop_front_spec buf r l o tc w rs :
  repr buf (r :: l) -> inv_core o tc w (ids (r :: l) ++ rs) ->
  exists buf', became o tc w rs (_pop_front_ref buf w) (0, buf') buf' l.
Proof.
  intros Hrepr Hi. destruct (moveout_front_spec buf r l Hrepr) as (buf' & Hb' & Hmv).
  specialize (Hmv w). rewrite ids_cons, <- app_assoc in Hi.
  pose proof (repr_shape _ _ Hrepr) as [Hr _]%Forall_cons.
  destruct (ref_dec_spec o tc w _ r Hr Hi) as (w' & Hdec & Hi' & Hf).
  pose proof (front_ref_spec _ _ Hrepr r l eq_refl) as Hfront.
  exists buf', w'. split; [|done].
  unfold _pop_front_ref, _moveout_front_ref, _pop_or_moveout_front_ref, mbind', mret, mlift in *.
  destruct buf as [r0 r1|bv]; simpl in Hfront.
  - injection Hfront as ->. destruct (nonnull r); [|done]. rewrite Hdec. congruence.
  - rewrite Hfront in *. cbn [fmap option_fmap option_map] in *. rewrite Hdec.
    destruct (2 <? _); [congruence|].
    destruct (refs bv !! _); [|done]. cbn [fmap option_fmap option_map] in *.
    destruct (refs bv !! _); [|done]. cbn [fmap option_fmap option_map] in *. congruence.
Qed.

Lemma pop_front_empty_spec MOVEOUT buf w : repr buf [] ->
  _pop_or_moveout_front_ref MOVEOUT buf w = Some ((-1, buf), w).
Proof. intros Hr. rewrite (repr_small _ _ Hr) by (simpl; lia). done. Qed.

Lemma pop_back_spec buf r l o tc w rs :
  repr buf (l ++ [r]) -> inv_core o tc w (ids (l ++ [r]) ++ rs) ->
  exists buf', became o tc w rs (_pop_back_ref buf w) (0, buf') buf' l.
Proof.
  intros Hrepr Hi. pose proof (repr_shape _ _ Hrepr) as [_ [Hr _]%Forall_cons]%Forall_app.
  destruct (ref_dec_spec o tc w (ids l ++ rs) r Hr) as (w' & Hdec & Hi' & Hf).
  { eapply inv_perm; [|exact Hi]. intros b. rewrite ids_app, !cnt_app. lia. }
  destruct (repr_weight_sub (l ++ [r]) l) as [Hsh' Hw'];
    [by apply sublist_inserts_r|apply Hrepr|apply Hrepr|].
  pose proof (back_ref_spec _ _ Hrepr r l eq_refl) as Hback.
  pose proof (ref_shape_nonnull r Hr) as Hnn.
  destruct Hrepr as (Hsh & Hw & Hb). unfold became, _pop_back_ref.
  destruct buf as [r0 r1|bv].
  - simpl in Hback. unfold mbind', mret.
    destruct l as [|a [|c l]]; simpl in Hb; destruct_and?; subst.
    + rewrite Hnn. simpl. rewrite Hdec. by eexists _, w'.
    + rewrite Hnn, Hdec. by eexists _, w'.
    + by destruct l.
  - destruct Hb as (k & Hm & Hring & Hn & Hn3 & Hnb). pose proof Hring as (Hk & _ & Hs & Hl & Hat).
    rewrite weight_total, length_app, total_app in Hw. simpl in Hw.
    rewrite total_app in Hnb. simpl in Hnb. destruct Hr as (_ & Hlr & _).
    rewrite length_app in Hn, Hl. simpl in Hn, Hl. pose proof (total_nonneg _ Hsh') as Ht.
    pose proof (pow_bound k Hk). unfold limit in *. simpl in Hback. unfold bv_ref_at in Hback.
    rewrite (u32_small (nref bv - 1)) in Hback by lia. unfold mlift, mbind', mret.
    rewrite <- Z.add_sub_assoc, Hback. cbn [fmap option_fmap option_map].
    rewrite Hdec, u32_small by lia. zcase.
    + eexists _, w'. split; [done|]. split; [|done].
      replace (nref bv - 1) with (len l) by lia.
      replace (u64 _) with (total l) by (rewrite u64_small; lia).
      eapply (repr_pop k); [done|by eapply ring_pop_back|done|done|lia].
    + pose proof (ring_front k bv) as Hfr.
      pose proof (ring_pop_back _ _ _ _ _ Hring) as (_ & _ & _ & _ & Hat').
      destruct l as [|a [|c [|d l]]]; simpl in Hn; try lia.
      rewrite (Hfr a [c; r]) by done. cbn [fmap option_fmap option_map].
      rewrite Hm, ring_slot, Hat' by (simpl; lia). by eexists _, w'.
Qed.

Lemma pop_back_empty_spec buf w : repr buf [] -> _pop_back_ref buf w = Some ((-1, buf), w).
Proof. intros Hr. rewrite (repr_small _ _ Hr) by (simpl; lia). done. Qed.

(** ** Clearing and copying *)
Lemma dec_all_spec k bv l n i o tc w rs :
  cap_mask bv = 2 ^ k - 1 -> ring k (start bv) (refs bv) l -> Forall ref_shape l ->
  0 <= i -> i + Z.of_nat n = len l -> inv_core o tc w (ids (drop (Z.to_nat i) l) ++ rs) ->
  exists w', dec_all bv n i w = Some (tt, w') /\ inv_core o tc w' rs /\ frame w w'.
Proof.
  intros Hm Hr Hsh. revert i w. induction n as [|n IH]; intros i w Hi Hn Hinv.
  - rewrite drop_ge in Hinv by lia. exists w. split; [done|]. split; [done|reflexivity].
  - destruct (lookup_lt_is_Some_2 l (Z.to_nat i)) as [r Hlk]; [lia|].
    pose proof (Forall_lookup_1 _ _ _ _ Hsh Hlk) as Hrs.
    rewrite (drop_S l r _ Hlk), ids_cons, <- app_assoc in Hinv.
    destruct (ref_dec_spec _ _ _ _ _ Hrs Hinv) as (w1 & Hdec & Hi1 & Hf1).
    destruct (IH (i + 1) w1) as (w2 & Heq & Hi2 & Hf2); [lia|lia|by replace (Z.to_nat (i + 1)) with (S (Z.to_nat i)) by lia|].
    exists w2. split; [|split; [done|by transitivity w1]].
    simpl. unfold mlift, mbind'. rewrite (bv_ref_at_ring k bv l i), Hlk by (done || lia).
    cbn [fmap option_fmap option_map]. by rewrite Hdec.
Qed.

Lemma clear_spec buf l o tc w rs :
  repr buf l -> inv_core o tc w (ids l ++ rs) ->
  became o tc w rs (clear buf w) IOBuf_empty IOBuf_empty [].
Proof.
  intros (Hsh & Hw & Hb) Hi. unfold became, clear, mbind', mret. destruct buf as [r0 r1|bv].
  - destruct l as [|a [|c [|d l]]]; [..|done]; destruct Hb as [-> ->].
    + exists w. split; [done|]. split; [done|]. split; [done|reflexivity].
    + apply Forall_cons in Hsh as [Ha _].
      destruct (ref_dec_spec _ _ _ _ _ Ha Hi) as (w1 & Hdec & Hi1 & Hf1).
      rewrite (ref_shape_nonnull a Ha), Hdec. by exists w1.
    + apply Forall_cons in Hsh as [Ha [Hc _]%Forall_cons].
      rewrite ids_cons, <- app_assoc in Hi.
      destruct (ref_dec_spec _ _ _ _ _ Ha Hi) as (w1 & Hdec & Hi1 & Hf1).
      destruct (ref_dec_spec _ _ _ _ _ Hc Hi1) as (w2 & Hdec2 & Hi2 & Hf2).
      rewrite (ref_shape_nonnull a Ha), (ref_shape_nonnull c Hc), Hdec, Hdec2.
      exists w2. split; [done|]. split; [done|]. split; [done|by transitivity w1].
  - destruct Hb as (k & Hm & Hring & Hn & Hn3 & Hnb).
    destruct (dec_all_spec k bv l (Z.to_nat (nref bv)) 0 o tc w rs) as (w' & Heq & Hi' & Hf);
      try done; [lia|]. rewrite Heq. by exists w'.
Qed.

(** References whose blocks are still allocated. *)
Definition live_refs (w : World) (l : list BlockRef) : Prop :=
  Forall (fun r => exists b, block r = Some b /\ is_Some (heap w !! b)) l.

Lemma inv_live_refs o tc w rs l :
  Forall ref_shape l -> inv_core o tc w rs -> ids l ⊆ rs -> live_refs w l.
Proof.
  intros Hsh Hi Hsub. apply Forall_forall. intros r Hr.
  destruct (proj1 (Forall_forall _ _) Hsh r Hr) as (_ & _ & _ & [b Hb]). exists b.
  split; [done|]. eapply inv_live; [exact Hi|]. apply Hsub.
  apply list_elem_of_omap. by exists r.
Qed.

Lemma copy_inc_spec k bv l n i o tc w rs :
  cap_mask bv = 2 ^ k - 1 -> ring k (start bv) (refs bv) l -> Forall ref_shape l ->
  0 <= i -> i + Z.of_nat n = len l -> inv_core o tc w rs -> ids l ⊆ rs ->
  exists w', copy_inc bv n i w = Some (drop (Z.to_nat i) l, w') /\
    inv_core o tc w' (ids (drop (Z.to_nat i) l) ++ rs) /\ frame w w'.
Proof.
  intros Hm Hr Hsh. revert i w rs. induction n as [|n IH]; intros i w rs Hi Hn Hinv Hsub.
  - rewrite drop_ge by lia. exists w. split; [done|]. split; [done|reflexivity].
  - destruct (lookup_lt_is_Some_2 l (Z.to_nat i)) as [r Hlk]; [lia|].
    pose proof (inv_live_refs _ _ _ _ _ Hsh Hinv Hsub) as Hlive.
    destruct (Forall_lookup_1 _ _ _ _ Hlive Hlk) as (b & Hb & Hh).
    destruct (ref_inc_spec _ _ _ _ _ _ Hinv Hb Hh) as (w1 & Hinc & Hi1 & Hf1).
    destruct (IH (i + 1) w1 (ids [r] ++ rs)) as (w2 & Heq & Hi2 & Hf2); [lia|lia|done|set_solver|].
    replace (Z.to_nat (i + 1)) with (S (Z.to_nat i)) in * by lia.
    rewrite (drop_S l r _ Hlk). exists w2. split; [|split; [|by transitivity w1]].
    + simpl. unfold mlift, mbind', mret. rewrite (bv_ref_at_ring k bv l i), Hlk by (done || lia).
      cbn [fmap option_fmap option_map]. by rewrite Hinc, Heq.
    + eapply inv_perm; [|exact Hi2]. intros x. rewrite (ids_cons r (drop _ l)), !cnt_app. lia.
Qed.

Lemma copy_spec buf l o tc w rs :
  repr buf l -> inv_core o tc w rs -> ids l ⊆ rs ->
  exists buf', became o tc w rs (IOBuf_copy buf w) buf' buf' l.
Proof.
  intros (Hsh & Hw & Hb) Hi Hsub. pose proof (inv_live_refs _ _ _ _ _ Hsh Hi Hsub) as Hlive.
  unfold became, IOBuf_copy, mbind', mret. destruct buf as [r0 r1|bv].
  - destruct l as [|a [|c [|d l]]]; [..|done]; destruct Hb as [-> ->].
    + eexists _, w. split; [done|]. split; [done|]. split; [done|reflexivity].
    + apply Forall_cons in Hlive as [(b & Hb & Hh) _].
      destruct (ref_inc_spec _ _ _ _ _ _ Hi Hb Hh) as (w1 & Hinc & Hi1 & Hf1).
      unfold nonnull. rewrite Hb, Hinc. eexists _, w1. simpl. done.
    + apply Forall_cons in Hlive as [(b & Hb & Hh) [(b' & Hb' & Hh') _]%Forall_cons].
      destruct (ref_inc_spec _ _ _ _ _ _ Hi Hb Hh) as (w1 & Hinc & Hi1 & Hf1).
      assert (Hh1 : is_Some (heap w1 !! b')).
      { eapply inv_live; [exact Hi1|]. apply elem_of_app. right. apply Hsub.
        unfold ids. simpl. rewrite Hb, Hb'. set_solver. }
      destruct (ref_inc_spec _ _ _ _ _ _ Hi1 Hb' Hh1) as (w2 & Hinc2 & Hi2 & Hf2).
      unfold nonnull. rewrite Hb, Hb', Hinc, Hinc2. eexists _, w2. split; [done|].
      split; [done|]. split; [|by transitivity w1].
      eapply inv_perm; [|exact Hi2]. intros x. rewrite (ids_cons a [c]), !cnt_app. lia.
  - destruct Hb as (k & Hm & Hring & Hn & Hn3 & Hnb). pose proof Hring as (Hk & _ & _ & Hl & _).
    pose proof (pow_bound k Hk). unfold acquire_blockref_array, mmod. fold (array_acquired w).
    destruct (copy_inc_spec k bv l (Z.to_nat (nref bv)) 0 o tc (array_acquired w) rs)
      as (w' & Heq & Hi' & Hf); try done; [lia|by eapply inv_core_eq; [..|exact Hi]|].
    simpl in Heq, Hi'. rewrite drop_0 in Heq, Hi'. rewrite Heq. eexists _, w'. split; [done|].
    split; [|split; [done|transitivity (array_acquired w); [apply array_acquired_frame|done]]].
    split; [done|]. split; [done|]. exists k. split; [done|]. split; [|done].
    unfold capacity. rewrite Hm, u32_small by lia. apply ring_fresh; [done|].
    rewrite length_app, length_replicate. lia.
Qed.

Lemma assign_spec buf l rhs l2 o tc w rs :
  repr buf l -> repr rhs l2 -> inv_core o tc w (ids l ++ rs) -> ids l2 ⊆ rs ->
  exists buf', became o tc w rs (assign buf rhs w) buf' buf' l2.
Proof.
  intros Hb Hrhs Hi Hsub.
  assert (Hgen : exists buf', became o tc w rs ((let* _ := clear buf in IOBuf_copy rhs) w) buf' buf' l2).
  { destruct (clear_spec buf l o tc w rs Hb Hi) as (w1 & Heq1 & _ & Hi1 & Hf1).
    destruct (copy_spec rhs l2 o tc w1 rs Hrhs Hi1 Hsub) as (buf' & w2 & Heq2 & Hr2 & Hi2 & Hf2).
    exists buf', w2. unfold mbind'. rewrite Heq1. split; [done|]. split; [done|].
    split; [done|by transitivity w1]. }
  unfold assign. destruct buf as [r0 r1|bv]; [done|]. destruct rhs as [r2 r3|rbv]; [done|].
  destruct (Z.eqb_spec (cap_mask bv) (cap_mask rbv)) as [Hcap|]; [|done]. clear Hgen.
  destruct Hb as (Hsh & Hw & k & Hm & Hring & Hn & Hn3 & Hnb).
  destruct Hrhs as (Hsh2 & Hw2 & k2 & Hm2 & Hring2 & Hn2 & Hn32 & Hnb2).
  destruct (dec_all_spec k bv l (Z.to_nat (nref bv)) 0 o tc w rs) as (w1 & Heq1 & Hi1 & Hf1);
    try done; [lia|].
  destruct (copy_inc_spec k2 rbv l2 (Z.to_nat (nref rbv)) 0 o tc w1 rs) as (w2 & Heq2 & Hi2 & Hf2);
    try done; [lia|]. simpl in Heq2, Hi2. rewrite drop_0 in Heq2, Hi2.
  unfold became, mbind', mret. rewrite Heq1, Heq2. eexists _, w2. split; [done|].
  split; [|split; [done|by transitivity w1]]. split; [done|]. split; [done|].
  pose proof Hring as (Hk & Hlen & _). pose proof Hring2 as (Hk2 & Hlen2 & _ & Hl2 & _).
  exists k2. split; [simpl; congruence|]. split; [|done]. apply ring_fresh; [done|].
  rewrite length_app, length_drop. lia.
Qed.

(** ** Shrinking the first and the last reference in place *)
Lemma set_front_spec buf x l r n :
  repr buf (x :: l) -> ref_shape r -> length r = length x - n -> 0 <= n ->
  repr (set_front_ref buf r n) (r :: l).
Proof.
  intros (Hsh & Hw & Hb) Hr Hlen Hn0. apply Forall_cons in Hsh as [Hx Hsh].
  assert (Hw' : weight (r :: l) < limit) by (simpl in *; lia).
  split; [by constructor|]. split; [done|]. destruct buf as [r0 r1|bv]; simpl.
  - destruct l as [|c [|d l]]; [naive_solver..|done].
  - destruct Hb as (k & Hm & Hring & Hn & Hn3 & Hnb). exists k. split; [done|].
    split.
    { apply (ring_set _ _ _ _ r 0) in Hring as Hset; [|simpl; lia].
      destruct Hring as (_ & _ & Hs & _). by rewrite Z.add_0_r, Z.mod_small in Hset by lia. }
    split; [done|]. split; [done|]. rewrite Hnb. simpl.
    pose proof (total_nonneg _ Hsh). rewrite weight_total in Hw'. simpl in Hw'.
    destruct Hr as (_ & ? & _). unfold limit in Hw. rewrite weight_total in Hw. simpl in Hw.
    rewrite u64_small; lia.
Qed.

Lemma set_back_spec buf x l r n :
  repr buf (l ++ [x]) -> ref_shape r -> length r = length x - n -> 0 <= n ->
  repr (set_back_ref buf r n) (l ++ [r]).
Proof.
  intros (Hsh & Hw & Hb) Hr Hlen Hn0. apply Forall_app in Hsh as [Hsh [Hx _]%Forall_cons].
  assert (Hw' : weight (l ++ [r]) < limit) by (rewrite weight_app in *; simpl in *; lia).
  split; [apply Forall_app; split; [done|by constructor]|]. split; [done|].
  pose proof (ref_shape_nonnull x Hx) as Hnn. destruct buf as [r0 r1|bv]; simpl.
  - destruct l as [|c [|d l]]; simpl in *; [..|by destruct l]; destruct Hb as [-> ->]; simpl; by rewrite ?Hnn.
  - destruct Hb as (k & Hm & Hring & Hn & Hn3 & Hnb). exists k. split; [done|].
    rewrite length_app in Hn. simpl in Hn. pose proof Hring as (Hk & _ & _ & Hl & _).
    pose proof (pow_bound k Hk). rewrite length_app in Hl. simpl in Hl.
    rewrite (u32_small (nref bv - 1)) by lia. replace (nref bv - 1) with (len l) by lia.
    split; [by apply (bv_set_ring_last k bv l x)|]. rewrite length_app. simpl.
    split; [lia|]. split; [done|]. rewrite Hnb, !total_app. simpl.
    pose proof (total_nonneg _ Hsh). rewrite weight_total, total_app in Hw'. simpl in Hw'.
    destruct Hr as (_ & ? & _). unfold limit in Hw. rewrite weight_total, total_app in Hw. simpl in Hw.
    rewrite u64_small; lia.
Qed.

(** ** The bytes of a buffer *)
Lemma ref_ok_stable w w' r rs : stable w w' rs -> ids [r] ⊆ rs -> ref_ok w r ->
  ref_ok w' r /\ ref_bytes w' r = ref_bytes w r.
Proof.
  intros Hst Hsub (b & blk & Hb & Hh & Ho & Hl & Hs).
  assert (Hbr : b ∈ rs) by (apply Hsub; unfold ids; simpl; rewrite Hb; set_solver).
  destruct (Hst b blk Hbr Hh) as (blk' & Hh' & Hsz & Hcap & _ & Hd). split.
  - exists b, blk'. split_and!; try done. lia.
  - unfold ref_bytes. rewrite Hb, Hh, Hh', !take_drop_commute.
    f_equal. apply (f_equal (take (Z.to_nat (offset r) + Z.to_nat (length r)))) in Hd.
    by rewrite !take_take, !Nat.min_l in Hd by lia.
Qed.

Lemma valid_stable w w' l rs : stable w w' rs -> ids l ⊆ rs -> valid w l ->
  valid w' l /\ bytes w' l = bytes w l.
Proof.
  intros Hst Hsub. induction l as [|r l IH]; intros Hv; [split; [constructor|done]|].
  rewrite ids_cons in Hsub. apply Forall_cons in Hv as [Hr Hv].
  destruct (ref_ok_stable w w' r rs Hst) as [Hr' Hbr]; [set_solver|done|].
  destruct IH as [Hv' Hbl]; [set_solver|done|]. split; [by constructor|].
  unfold bytes in *. simpl. by rewrite Hbr, Hbl.
Qed.

Lemma ref_bytes_len w r : ref_ok w r ->
  (forall b blk, heap w !! b = Some blk -> block_ok blk) ->
  len (ref_bytes w r) = length r.
Proof.
  intros (b & blk & Hb & Hh & Ho & Hl & Hs) Hok. unfold ref_bytes. rewrite Hb, Hh.
  destruct (Hok b blk Hh) as (Hsz & _ & Hd & _). rewrite length_take, length_drop. lia.
Qed.

Lemma bytes_len w l : valid w l ->
  (forall b blk, heap w !! b = Some blk -> block_ok blk) -> len (bytes w l) = total l.
Proof.
  intros Hv Hok. induction Hv as [|r l Hr Hv IH]; [done|]. unfold bytes in *. simpl.
  rewrite length_app. pose proof (ref_bytes_len w r Hr Hok). lia.
Qed.

(** Merging adjacent references does not change the bytes. *)
Lemma merge_bytes w x r : ref_shape x -> ref_shape r -> mergeable x r = true ->
  ref_ok w x -> ref_ok w r ->
  ref_ok w (merge x r) /\ ref_bytes w (merge x r) = ref_bytes w x ++ ref_bytes w r.
Proof.
  intros Hx Hr Hm (b & blk & Hb & Hh & Ho & Hl & Hs) (b' & blk' & Hb' & Hh' & Ho' & Hl' & Hs').
  destruct (mergeable_spec x r Hx Hr Hm) as (Hbl & Hoff & ->).
  assert (b' = b) as -> by congruence. assert (blk' = blk) as -> by congruence. split.
  - exists b, blk. simpl. split_and!; try done; lia.
  - unfold ref_bytes. simpl. rewrite Hb', Hb, Hh, Hoff.
    rewrite !Z2Nat.inj_add, <- drop_drop by lia.
    generalize (drop (Z.to_nat (offset x)) (data blk)). intros d.
    rewrite <- (take_drop (Z.to_nat (length x)) d) at 1.
    destruct (decide (Z.to_nat (length x) <= Datatypes.length d)%nat).
    + rewrite take_app_ge by (rewrite length_take; lia). rewrite length_take.
      do 2 f_equal. lia.
    + rewrite drop_ge by lia. rewrite app_nil_r, !take_nil, app_nil_r.
      rewrite (take_ge d) by lia. by apply take_ge; lia.
Qed.

Lemma push_ref_bytes w l r : Forall ref_shape l -> ref_shape r -> valid w l -> ref_ok w r ->
  valid w (push_ref l r) /\ bytes w (push_ref l r) = bytes w l ++ ref_bytes w r.
Proof.
  intros Hsl Hsr Hv Hr. destruct l as [|x l _] using rev_ind.
  - split; [by constructor|]. unfold bytes. simpl. by rewrite app_nil_r.
  - rewrite push_ref_snoc. apply Forall_app in Hsl as [Hsl [Hsx _]%Forall_cons].
    apply Forall_app in Hv as [Hv [Hx _]%Forall_cons]. destruct (mergeable x r) eqn:Hm.
    + destruct (merge_bytes w x r Hsx Hsr Hm Hx Hr) as [Hok Hb]. split.
      * apply Forall_app. split; [done|by constructor].
      * rewrite !bytes_app, <- app_assoc. f_equal. unfold bytes. simpl.
        rewrite Hb, !app_nil_r. done.
    + split.
      * apply Forall_app. split; [done|by repeat constructor].
      * rewrite !bytes_app, <- app_assoc. f_equal. unfold bytes. simpl. by rewrite !app_nil_r.
Qed.

(** ** The list of references, computed from the view *)
Definition view_list (b : IOBuf) : list BlockRef :=
  match b with
  | Sv r0 r1 => filter (fun r => nonnull r = true) [r0; r1]
  | Bv bv => default [] (copy_refs bv (Z.to_nat (nref bv)) 0)
  end.

Lemma repr_view_list b l : repr b l -> view_list b = l.
Proof.
  intros (Hsh & Hw & Hb). destruct b as [r0 r1|bv]; cbn [view_list].
  - destruct l as [|a [|c [|d l]]]; [..|done]; destruct Hb as [-> ->];
      rewrite ?Forall_cons in Hsh; destruct_and?; rewrite !filter_cons;
      cbn [nonnull null_ref block]; by rewrite ?ref_shape_nonnull by done.
  - destruct Hb as (k & Hm & Hring & Hn & _ & _).
    rewrite (copy_refs_spec bv k l) by (done || lia). done.
Qed.

Lemma weight_le l : Forall ref_shape l -> weight l <= 2 * total l.
Proof. induction 1 as [|r l (_ & ? & _) _ IH]; simpl; lia. Qed.

End View.
