(* ===== verification/IOBuf.v ===== *)
(** * IOBuf operations (butil/iobuf.h, iobuf_inl.h, iobuf.cpp)

    The byte-queue operations of [butil::IOBuf] on top of the reference queue of
    [View] and the blocks of [Block].  A buffer is passed and returned as a value;
    the heap, the thread-local block cache and the counters are the state of the
    monad.  Memory that the caller hands in ([data], [vec], [out]) is a list of
    bytes.  The loops carry fuel; the specifications show it is never used up.

    [holds w b bs] says that buffer [b] represents the byte string [bs] in the
    state [w]; every operation is specified by what it does to that string, by
    the reference counts it leaves ([inv]) and by leaving the bytes seen by all
    other holders alone ([stable]). *)
From stdpp Require Import base list gmap.
From Stdlib Require Import ZArith Lia Bool.
From S2P Require Import Prelude IOBufBlock IOBufView.

Open Scope Z_scope.
Open Scope m_scope.

Module IOBuf.
Import Block View.

Abbreviation buffer := View.IOBuf.

(** The bytes at [r.block->data + r.offset + off]. *)
Definition read_ref (r : BlockRef) (off n : Z) : M World (list Z) :=
  match block r with Some b => read_at b (offset r + off) n | None => ub end.

Definition front_ref (b : buffer) : M World BlockRef := mlift (_front_ref b).
Definition back_ref (b : buffer) : M World BlockRef := mlift (_back_ref b).
Definition ref_at (b : buffer) (i : Z) : M World BlockRef := mlift (_ref_at b i).

(** [r.offset += n; r.length -= n]. *)
Definition ref_skip (r : BlockRef) (n : Z) : BlockRef :=
  mkRef (u32 (offset r + n)) (u32 (length r - n)) (block r).
Definition ref_shrink (r : BlockRef) (n : Z) : BlockRef :=
  mkRef (offset r) (u32 (length r - n)) (block r).

(** The number of rounds a loop over the references can take. *)
Definition ref_fuel (b : buffer) : nat := S (Z.to_nat (_ref_num b)).

(** ** Removing bytes *)

Fixpoint pop_front_loop (fuel : nat) (b : buffer) (n : Z) : M World buffer :=
  if n =? 0 then mret b
  else match fuel with
       | O => ub
       | S fuel' =>
           let* r := front_ref b in
           if n <? length r then mret (set_front_ref b (ref_skip r n) n)
           else
             let* (_, b') := _pop_front_ref b in
             pop_front_loop fuel' b' (n - length r)
       end.
Definition pop_front (b : buffer) (n : Z) : M World (Z * buffer) :=
  let len := length_ b in
  if len <=? n then let* b' := clear b in mret (len, b')
  else let* b' := pop_front_loop (ref_fuel b) b n in mret (n, b').

Fixpoint pop_back_loop (fuel : nat) (b : buffer) (n : Z) : M World buffer :=
  if n =? 0 then mret b
  else match fuel with
       | O => ub
       | S fuel' =>
           let* r := back_ref b in
           if n <? length r then mret (set_back_ref b (ref_shrink r n) n)
           else
             let* (_, b') := _pop_back_ref b in
             pop_back_loop fuel' b' (n - length r)
       end.
Definition pop_back (b : buffer) (n : Z) : M World (Z * buffer) :=
  let len := length_ b in
  if len <=? n then let* b' := clear b in mret (len, b')
  else let* b' := pop_back_loop (ref_fuel b) b n in mret (n, b').

(** [None] is the return value false; otherwise the byte stored at [c]. *)
Definition cut1 (b : buffer) : M World (option Z * buffer) :=
  if empty b then mret (None, b)
  else
    let* r := front_ref b in
    let* c := read_ref r 0 1 in
    if 1 <? length r then mret (head c, set_front_ref b (ref_skip r 1) 1)
    else let* (_, b') := _pop_front_ref b in mret (head c, b').

(** [cutn(IOBuf* out, n)]: returns the count, this buffer and [out]. *)
Fixpoint cutn_loop (fuel : nat) (b out : buffer) (n : Z) : M World (buffer * buffer) :=
  if n =? 0 then mret (b, out)
  else match fuel with
       | O => ub
       | S fuel' =>
           let* r := front_ref b in
           if length r <=? n then
             let* out' := _move_back_ref out r in
             let* (_, b') := _moveout_front_ref b in
             cutn_loop fuel' b' out' (n - length r)
           else
             let* out' := _push_back_ref out (mkRef (offset r) (u32 n) (block r)) in
             mret (set_front_ref b (ref_skip r n) n, out')
       end.
Definition cutn (b out : buffer) (n : Z) : M World (Z * buffer * buffer) :=
  let len := length_ b in
  let n := if len <? n then len else n in
  let* (b', out') := cutn_loop (ref_fuel b) b out n in
  mret (n, b', out').

(** [cutn(void* out, n)]: the bytes copied to [out]. *)
Fixpoint cutn_mem_loop (fuel : nat) (b : buffer) (out : list Z) (n : Z)
  : M World (list Z * buffer) :=
  if n =? 0 then mret (out, b)
  else match fuel with
       | O => ub
       | S fuel' =>
           let* r := front_ref b in
           if length r <=? n then
             let* s := read_ref r 0 (length r) in
             let* (_, b') := _pop_front_ref b in
             cutn_mem_loop fuel' b' (out ++ s) (n - length r)
           else
             let* s := read_ref r 0 n in
             mret (out ++ s, set_front_ref b (ref_skip r n) n)
       end.
Definition cutn_mem (b : buffer) (n : Z) : M World (Z * list Z * buffer) :=
  let len := length_ b in
  let n := if len <? n then len else n in
  let* (out, b') := cutn_mem_loop (ref_fuel b) b [] n in
  mret (n, out, b').
(** [cutn(std::string* out, n)] appends to [out]. *)
Definition cutn_string (b : buffer) (out : list Z) (n : Z) : M World (Z * list Z * buffer) :=
  if n =? 0 then mret (0, out, b)
  else
    let len := length_ b in
    let n := if len <? n then len else n in
    let* (res, b') := cutn_mem b n in
    mret (res.1, out ++ res.2, b').

(** ** Searching *)

(** The inner loop of [_cut_by_char]: [inl n] is the position of a match,
    [inr n] the position after the scanned bytes. *)
Fixpoint scan_char (d : Z) (s : list Z) (n : Z) : Z + Z :=
  match s with
  | [] => inr n
  | c :: s' => if i8 c =? i8 d then inl n else scan_char d s' (n + 1)
  end.
Fixpoint find_char (b : buffer) (d : Z) (k : nat) (i n : Z) : M World (option Z) :=
  match k with
  | O => mret None
  | S k' =>
      let* r := ref_at b i in
      let* s := read_ref r 0 (length r) in
      match scan_char d s n with
      | inl m => mret (Some m)
      | inr m => find_char b d k' (i + 1) m
      end
  end.
Definition _cut_by_char (b out : buffer) (d : Z) : M World (Z * buffer * buffer) :=
  let* m := find_char b d (Z.to_nat (_ref_num b)) 0 0 in
  match m with
  | Some n =>
      let* (res, out') := cutn b out n in
      let* (_, b') := pop_front res.2 1 in
      mret (0, b', out')
  | None => mret (-1, b, out)
  end.

(** [static_cast<unsigned long>] of a (signed) char. *)
Definition sig_of (c : Z) : Z := u64 (i8 c).
Definition sig_step (sig c : Z) : Z := Z.lor (u64 (Z.shiftl sig 8)) (sig_of c).
Definition NMAX : Z := 8.
Definition SIGMASK (ndelim : Z) : Z :=
  if ndelim =? NMAX then u64 (-1) else u64 (Z.shiftl 1 (ndelim * 8) - 1).

Fixpoint scan_sig (dsig mask : Z) (s : list Z) (sig n : Z) : Z + (Z * Z) :=
  match s with
  | [] => inr (sig, n)
  | c :: s' =>
      let sig' := Z.land (sig_step sig c) mask in
      if sig' =? dsig then inl n else scan_sig dsig mask s' sig' (n + 1)
  end.
Fixpoint find_sig (b : buffer) (dsig mask : Z) (k : nat) (i sig n : Z) : M World (option Z) :=
  match k with
  | O => mret None
  | S k' =>
      let* r := ref_at b i in
      let* s := read_ref r 0 (length r) in
      match scan_sig dsig mask s sig n with
      | inl m => mret (Some m)
      | inr (sig', m) => find_sig b dsig mask k' (i + 1) sig' m
      end
  end.
Definition _cut_by_delim (b out : buffer) (delim : list Z) : M World (Z * buffer * buffer) :=
  let ndelim := len delim in
  if (NMAX <? ndelim) || (length_ b <? ndelim) then mret (-1, b, out)
  else
    let dsig := foldl sig_step 0 delim in
    let* m := find_sig b dsig (SIGMASK ndelim) (Z.to_nat (_ref_num b)) 0 0 0 in
    match m with
    | Some n =>
        let* (res, out') := cutn b out (u64 (n + 1 - ndelim)) in
        let* (_, b') := pop_front res.2 ndelim in
        mret (0, b', out')
    | None => mret (-1, b, out)
    end.
(** [cut_until(IOBuf*, const std::string&)]. *)
Definition cut_until (b out : buffer) (delim : list Z) : M World (Z * buffer * buffer) :=
  match delim with
  | [d] => _cut_by_char b out d
  | [] => mret (-1, b, out)
  | _ => _cut_by_delim b out delim
  end.

(** ** Reading *)

(** The loop that skips [pos] bytes: the index and the offset to start at. *)
Fixpoint skip_pos (b : buffer) (k : nat) (offset i : Z) : M World (Z * Z) :=
  if offset =? 0 then mret (offset, i)
  else match k with
       | O => mret (offset, i)
       | S k' =>
           let* r := ref_at b i in
           if offset <? length r then mret (offset, i)
           else skip_pos b k' (offset - length r) (i + 1)
       end.

Fixpoint append_to_loop (b buf : buffer) (k : nat) (m offset0 i : Z) : M World (Z * buffer) :=
  if m =? 0 then mret (m, buf)
  else match k with
       | O => mret (m, buf)
       | S k' =>
           let* r := ref_at b i in
           let nc := Z.min m (u64 (length r - offset0)) in
           let* buf' := _push_back_ref buf (mkRef (u32 (offset r + offset0)) (u32 nc) (block r)) in
           append_to_loop b buf' k' (m - nc) 0 (i + 1)
       end.
Definition append_to (b buf : buffer) (n pos : Z) : M World (Z * buffer) :=
  let nref := _ref_num b in
  let* (off, i) := skip_pos b (Z.to_nat nref) pos 0 in
  let* (m, buf') := append_to_loop b buf (Z.to_nat (nref - i)) n off i in
  mret (n - m, buf').

Fixpoint copy_to_loop (b : buffer) (k : nat) (d : list Z) (m offset0 i : Z)
  : M World (Z * list Z) :=
  if m =? 0 then mret (m, d)
  else match k with
       | O => mret (m, d)
       | S k' =>
           let* r := ref_at b i in
           let nc := Z.min m (u64 (length r - offset0)) in
           let* s := read_ref r offset0 nc in
           copy_to_loop b k' (d ++ s) (m - nc) 0 (i + 1)
       end.
(** [copy_to(void* d, n, pos)]: the count and the bytes written. *)
Definition copy_to (b : buffer) (n pos : Z) : M World (Z * list Z) :=
  let nref := _ref_num b in
  let* (off, i) := skip_pos b (Z.to_nat nref) pos 0 in
  let* (m, d) := copy_to_loop b (Z.to_nat (nref - i)) [] n off i in
  mret (n - m, d).
(** The two string forms: [copy_to(std::string* s, n, pos)] replaces, [append_to] appends;
    the string keeps its content when there is nothing at [pos]. *)
Definition copy_to_string (b : buffer) (s : list Z) (n pos : Z) : M World (Z * list Z) :=
  let len := length_ b in
  if len <=? pos then mret (0, s)
  else copy_to b (if len - pos <? n then len - pos else n) pos.
Definition append_to_string (b : buffer) (s : list Z) (n pos : Z) : M World (Z * list Z) :=
  let len := length_ b in
  if len <=? pos then mret (0, s)
  else let* (c, d) := copy_to b (if len - pos <? n then len - pos else n) pos in
       mret (c, s ++ d).
(** [to_string]: [copy_to] with the default arguments. *)
Definition to_string (b : buffer) : M World (list Z) :=
  let* (_, s) := copy_to_string b [] (u64 (-1)) 0 in mret s.

Fixpoint fetch_loop (b : buffer) (k : nat) (d : list Z) (n total_nc i : Z)
  : M World (option (bool * list Z)) :=
  match k with
  | O => mret None
  | S k' =>
      let* r := ref_at b i in
      if n <=? length r + total_nc then
        let* s := read_ref r 0 (n - total_nc) in
        mret (Some (true, d ++ s))
      else
        let* s := read_ref r 0 (length r) in
        fetch_loop b k' (d ++ s) n (total_nc + length r) (i + 1)
  end.
(** The [n] bytes behind the returned pointer and whether they were copied to
    [d]; [None] is NULL. *)
Definition fetch (b : buffer) (n : Z) : M World (option (bool * list Z)) :=
  if n <=? length_ b then
    let* r0 := ref_at b 0 in
    if n <=? length r0 then
      let* s := read_ref r0 0 n in mret (Some (false, s))
    else
      let* s := read_ref r0 0 (length r0) in
      fetch_loop b (Z.to_nat (_ref_num b) - 1) s n (length r0) 1
  else mret None.
Definition fetch1 (b : buffer) : M World (option (list Z)) :=
  if negb (empty b) then
    let* r0 := front_ref b in
    let* s := read_ref r0 0 1 in mret (Some s)
  else mret None.

Fixpoint equals_loop (b : buffer) (k : nat) (s : list Z) (soff i : Z) : M World bool :=
  match k with
  | O => mret true
  | S k' =>
      let* r := ref_at b i in
      let* d := read_ref r 0 (length r) in
      if bool_decide (d = take (Z.to_nat (length r)) (drop (Z.to_nat soff) s))
      then equals_loop b k' s (soff + length r) (i + 1)
      else mret false
  end.
Definition equals (b : buffer) (s : list Z) : M World bool :=
  if negb (length_ b =? len s) then mret false
  else equals_loop b (Z.to_nat (_ref_num b)) s 0 0.

Definition backing_block_num (b : buffer) : Z := _ref_num b.
Definition backing_block (b : buffer) (i : Z) : M World (list Z) :=
  if i <? _ref_num b then let* r := ref_at b i in read_ref r 0 (length r) else mret [].

(** [equals(const IOBuf&)]: [d1], [d2] are the uncompared bytes of the current
    references, [i] and [j] the next ones. *)
Fixpoint equals_buf_loop (fuel : nat) (b1 b2 : buffer) (d1 d2 : list Z) (i j : Z)
  : M World bool :=
  match fuel with
  | O => ub
  | S fuel' =>
      let cmplen := Nat.min (Datatypes.length d1) (Datatypes.length d2) in
      if negb (bool_decide (take cmplen d1 = take cmplen d2)) then mret false
      else
        let* n1 := match drop cmplen d1 with
                   | [] => if _ref_num b1 <=? i then mret None
                           else let* r := ref_at b1 i in
                                let* s := read_ref r 0 (length r) in mret (Some (s, i + 1))
                   | rest => mret (Some (rest, i))
                   end in
        match n1 with
        | None => mret true
        | Some (d1', i') =>
            let* n2 := match drop cmplen d2 with
                       | [] => if _ref_num b2 <=? j then mret None
                               else let* r := ref_at b2 j in
                                    let* s := read_ref r 0 (length r) in mret (Some (s, j + 1))
                       | rest => mret (Some (rest, j))
                       end in
            match n2 with
            | None => mret true
            | Some (d2', j') => equals_buf_loop fuel' b1 b2 d1' d2' i' j'
            end
        end
  end.
Definition equals_buf (b1 b2 : buffer) : M World bool :=
  if negb (length_ b1 =? length_ b2) then mret false
  else if length_ b1 =? 0 then mret true
  else
    let* r1 := ref_at b1 0 in
    let* d1 := read_ref r1 0 (length r1) in
    let* r2 := ref_at b2 0 in
    let* d2 := read_ref r2 0 (length r2) in
    equals_buf_loop (Z.to_nat (_ref_num b1 + _ref_num b2)) b1 b2 d1 d2 1 1.

Definition get_first_data_meta (b : buffer) : M World Z :=
  if _ref_num b =? 0 then mret 0
  else
    let* r := ref_at b 0 in
    match block r with
    | None => ub
    | Some k =>
        let* blk := load k in
        if negb (is_user_data blk) then mret 0
        else match u blk with
             | data_meta m => mret m
             | portal_next _ => ub
             end
    end.

(** ** Adding bytes *)

Fixpoint append_refs (b other : buffer) (k : nat) (i : Z) : M World buffer :=
  match k with
  | O => mret b
  | S k' =>
      let* r := ref_at other i in
      let* b' := _push_back_ref b r in
      append_refs b' other k' (i + 1)
  end.
(** [append(const IOBuf&)] on two distinct objects. *)
Definition append_buf (b other : buffer) : M World buffer :=
  append_refs b other (Z.to_nat (_ref_num other)) 0.

Fixpoint move_refs (b other : buffer) (k : nat) (i : Z) : M World buffer :=
  match k with
  | O => mret b
  | S k' =>
      let* r := ref_at other i in
      let* b' := _move_back_ref b r in
      move_refs b' other k' (i + 1)
  end.
(** [append(const Movable&)]: this buffer and the moved-from one. *)
Definition append_movable (b other : buffer) : M World (buffer * buffer) :=
  if empty b then mret (swap b other)
  else
    let* b' := move_refs b other (Z.to_nat (_ref_num other)) 0 in
    mret (b', IOBuf_empty).

Section WithEnv.
Context `{Env}.

Definition push_back (b : buffer) (c : Z) : M World (Z * buffer) :=
  let* ob := share_tls_block in
  match ob with
  | None => mret (-1, b)
  | Some k =>
      let* blk := load k in
      do* write_at k (size blk) [c] in
      let r := mkRef (size blk) 1 (Some k) in
      do* modify k (set_size (u32 (size blk + 1))) in
      let* b' := _push_back_ref b r in
      mret (0, b')
  end.

(** The while loop of [append], on the bytes not yet copied. *)
Fixpoint append_loop (fuel : nat) (b : buffer) (data : list Z) : M World (Z * buffer) :=
  match data with
  | [] => mret (0, b)
  | _ =>
      match fuel with
      | O => ub
      | S fuel' =>
          let* ob := share_tls_block in
          match ob with
          | None => mret (-1, b)
          | Some k =>
              let* blk := load k in
              let nc := Z.min (len data) (left_space blk) in
              do* write_at k (size blk) (take (Z.to_nat nc) data) in
              let* b' := _push_back_ref b (mkRef (size blk) (u32 nc) (Some k)) in
              do* modify k (set_size (u32 (size blk + nc))) in
              append_loop fuel' b' (drop (Z.to_nat nc) data)
          end
      end
  end.
Definition append (b : buffer) (data : list Z) : M World (Z * buffer) :=
  match data with
  | [c] => push_back b c
  | _ => append_loop (S (Datatypes.length data)) b data
  end.

(** The inner loop of [appendv]: fills the rest of block [k] from the vectors;
    returns the vectors left, the offset in the first and the bytes copied. *)
Fixpoint appendv_fill (k : bid) (blk : Block) (vec : list (list Z)) (offset total_cp : Z)
  : M World (list (list Z) * Z * Z) :=
  match vec with
  | [] => mret ([], offset, total_cp)
  | v :: vec' =>
      let nc := Z.min (u64 (len v - offset)) (u64 (left_space blk - total_cp)) in
      do* write_at k (size blk + total_cp)
            (take (Z.to_nat nc) (drop (Z.to_nat offset) v)) in
      let total_cp' := u32 (total_cp + nc) in
      let offset' := offset + nc in
      if negb (offset' =? len v) then mret (vec, offset', total_cp')
      else appendv_fill k blk vec' 0 total_cp'
  end.
Fixpoint appendv_loop (fuel : nat) (b : buffer) (vec : list (list Z)) (offset : Z)
  : M World (Z * buffer) :=
  match vec with
  | [] => mret (0, b)
  | _ =>
      match fuel with
      | O => ub
      | S fuel' =>
          let* ob := share_tls_block in
          match ob with
          | None => mret (-1, b)
          | Some k =>
              let* blk := load k in
              let* (st, total_cp) := appendv_fill k blk vec offset 0 in
              do* modify k (set_size (u32 (size blk + total_cp))) in
              let* b' := _push_back_ref b (mkRef (size blk) total_cp (Some k)) in
              appendv_loop fuel' b' st.1 st.2
          end
      end
  end.
Definition appendv (b : buffer) (vec : list (list Z)) : M World (Z * buffer) :=
  appendv_loop (S (Datatypes.length (mjoin vec))) b vec 0.

(** [append_user_data_with_meta]: the second result says whether the deleter has
    been run on the (empty) data at once. *)
Definition append_user_data_with_meta (b : buffer) (data : list Z) (meta : Z)
  : M World (Z * bool * buffer) :=
  if 0xFFFFFFFF - 100 <? len data then mret (-1, false, b)
  else if len data =? 0 then mret (0, true, b)
  else
    let* w := mget in
    let k := next_bid w in
    do* mmod bump_next in
    if malloc_ok k then
      let blk := mkBlock 1 IOBUF_BLOCK_FLAGS_USER_DATA (len data) (len data) (data_meta meta) data in
      do* mmod (fun w => set_heap (<[k := blk]> (heap w)) w) in
      let* b' := _move_back_ref b (mkRef 0 (len data) (Some k)) in
      mret (0, false, b')
    else mret (-1, false, b).

(** The while loop of [resize]: [count] copies of [c] are still to be added. *)
Fixpoint resize_loop (fuel : nat) (b : buffer) (c count : Z) : M World (Z * buffer) :=
  if count <=? 0 then mret (0, b)
  else match fuel with
       | O => ub
       | S fuel' =>
           let* ob := share_tls_block in
           match ob with
           | None => mret (-1, b)
           | Some k =>
               let* blk := load k in
               let nc := Z.min count (left_space blk) in
               do* write_at k (size blk) (replicate (Z.to_nat nc) c) in
               let* b' := _push_back_ref b (mkRef (size blk) (u32 nc) (Some k)) in
               do* modify k (set_size (u32 (size blk + nc))) in
               resize_loop fuel' b' c (count - nc)
           end
       end.
Definition resize (b : buffer) (n c : Z) : M World (Z * buffer) :=
  let saved_len := length_ b in
  if n <? saved_len then let* (_, b') := pop_back b (saved_len - n) in mret (0, b')
  else resize_loop (S (Z.to_nat (n - saved_len))) b c (n - saved_len).

(** ** Areas *)
Definition REF_INDEX_BITS : Z := 19.
Definition REF_OFFSET_BITS : Z := 15.
Definition AREA_SIZE_BITS : Z := 30.
Definition MAX_REF_INDEX : Z := Z.shiftl 1 REF_INDEX_BITS - 1.
Definition MAX_REF_OFFSET : Z := Z.shiftl 1 REF_OFFSET_BITS - 1.
Definition MAX_AREA_SIZE : Z := Z.shiftl 1 AREA_SIZE_BITS - 1.
Definition INVALID_AREA : Z := 0.
Definition make_area (ref_index ref_offset size : Z) : Z :=
  if (MAX_REF_INDEX <? ref_index) || (MAX_REF_OFFSET <? ref_offset) || (MAX_AREA_SIZE <? size)
  then INVALID_AREA
  else Z.lor (Z.lor (Z.shiftl ref_index (REF_OFFSET_BITS + AREA_SIZE_BITS))
                    (Z.shiftl ref_offset AREA_SIZE_BITS)) size.
Definition get_area_ref_index (c : Z) : Z :=
  Z.land (Z.shiftr c (REF_OFFSET_BITS + AREA_SIZE_BITS)) MAX_REF_INDEX.
Definition get_area_ref_offset (c : Z) : Z :=
  Z.land (Z.shiftr c AREA_SIZE_BITS) MAX_REF_OFFSET.
Definition get_area_size (c : Z) : Z := Z.land c MAX_AREA_SIZE.

Fixpoint reserve_loop (fuel : nat) (b : buffer) (count total_nc result : Z)
  : M World (Z * buffer) :=
  if count <=? total_nc then mret (result, b)
  else match fuel with
       | O => ub
       | S fuel' =>
           let* ob := share_tls_block in
           match ob with
           | None => mret (INVALID_AREA, b)
           | Some k =>
               let* blk := load k in
               let nc := Z.min (count - total_nc) (left_space blk) in
               let* b' := _push_back_ref b (mkRef (size blk) (u32 nc) (Some k)) in
               let* back := back_ref b' in
               let result' :=
                 if total_nc =? 0
                 then make_area (u32 (_ref_num b' - 1)) (u32 (length back - nc)) (u32 count)
                 else result in
               do* modify k (set_size (u32 (size blk + nc))) in
               reserve_loop fuel' b' count (total_nc + nc) result'
           end
       end.
Definition reserve (b : buffer) (count : Z) : M World (Z * buffer) :=
  reserve_loop (S (Z.to_nat count)) b count 0 INVALID_AREA.

Fixpoint unsafe_assign_loop (b : buffer) (k : nat) (i ref_offset length0 : Z) (data : list Z)
  : M World Z :=
  match k with
  | O => mret (-1)
  | S k' =>
      let* r := ref_at b i in
      let nc := Z.min length0 (u32 (length r - ref_offset)) in
      do* match block r with
          | Some blk => write_at blk (offset r + ref_offset) (take (Z.to_nat nc) data)
          | None => ub
          end in
      if length0 =? nc then mret 0
      else unsafe_assign_loop b k' (i + 1) 0 (length0 - nc) (drop (Z.to_nat nc) data)
  end.
Definition unsafe_assign (b : buffer) (area : Z) (data : list Z) : M World Z :=
  if area =? INVALID_AREA then mret (-1)
  else
    let ref_index := get_area_ref_index area in
    unsafe_assign_loop b (Z.to_nat (_ref_num b - ref_index)) ref_index
      (get_area_ref_offset area) (get_area_size area) data.

(** ** Writing out *)

(** A writer: what [IWriter::WriteV] or [writev] returns for the given vectors. *)
Class Writer := { WriteV : list (list Z) -> Z }.
Context `{Writer}.

Definition IOBUF_IOV_MAX : Z := 256.

(** The do-while loop that fills the iovec array. *)
Fixpoint fill_iovec (b : buffer) (k : nat) (nvec cur_len size_hint : Z) : M World (list (list Z)) :=
  match k with
  | O => mret []
  | S k' =>
      let* r := ref_at b nvec in
      let* s := read_ref r 0 (length r) in
      let cur_len' := cur_len + length r in
      let* rest := if cur_len' <? size_hint then fill_iovec b k' (nvec + 1) cur_len' size_hint
                   else mret [] in
      mret (s :: rest)
  end.
Definition cut_into_writer (b : buffer) (size_hint : Z) : M World (Z * buffer) :=
  if empty b then mret (0, b)
  else
    let nref := Z.min (_ref_num b) IOBUF_IOV_MAX in
    let* vec := fill_iovec b (Z.to_nat nref) 0 0 size_hint in
    let nw := WriteV vec in
    if 0 <? nw then let* (_, b') := pop_front b nw in mret (nw, b')
    else mret (nw, b).

(** [for j < nref && nvec < IOBUF_IOV_MAX]: the vectors of one piece. *)
Fixpoint piece_iovec (b : buffer) (k : nat) (j : Z) (room : nat) : M World (list (list Z)) :=
  match k, room with
  | S k', S room' =>
      let* r := ref_at b j in
      let* s := read_ref r 0 (length r) in
      let* rest := piece_iovec b k' (j + 1) room' in
      mret (s :: rest)
  | _, _ => mret []
  end.
Fixpoint pieces_iovec (pieces : list buffer) (room : nat) : M World (list (list Z)) :=
  match pieces with
  | [] => mret []
  | p :: ps =>
      let* v := piece_iovec p (Z.to_nat (_ref_num p)) 0 room in
      let* rest := pieces_iovec ps (room - Datatypes.length v) in
      mret (v ++ rest)
  end.
Fixpoint pop_pieces (pieces : list buffer) (npop_all : Z) : M World (list buffer) :=
  match pieces with
  | [] => mret []
  | p :: ps =>
      let* (n, p') := pop_front p npop_all in
      let npop_all' := npop_all - n in
      if npop_all' =? 0 then mret (p' :: ps)
      else let* ps' := pop_pieces ps npop_all' in mret (p' :: ps')
  end.
Definition cut_multiple_into_writer (pieces : list buffer) : M World (Z * list buffer) :=
  match pieces with
  | [] => mret (0, [])
  | [p] =>
      let* (nw, p') := cut_into_writer p (1024 * 1024) in mret (nw, [p'])
  | _ =>
      let* vec := pieces_iovec pieces (Z.to_nat IOBUF_IOV_MAX) in
      let nw := WriteV vec in
      if nw <=? 0 then mret (nw, pieces)
      else let* ps := pop_pieces pieces nw in mret (nw, ps)
  end.
End WithEnv.

(** ** The abstraction *)

(** The blocks a buffer holds references to, and the bytes it represents. *)
Definition owned (b : buffer) : list bid := ids (view_list b).
Definition holds (w : World) (b : buffer) (bs : list Z) : Prop :=
  repr b (view_list b) /\ valid w (view_list b) /\ bytes w (view_list b) = bs.

(** The outcome of an operation: value [a], buffer [b'] with content [bs], the
    references accounted for, and all other holders [rs] undisturbed. *)
Definition yields {A} (w : World) (rs : list bid) (res : option (A * World)) (a : A)
    (b' : buffer) (bs : list Z) : Prop :=
  exists w', res = Some (a, w') /\ holds w' b' bs /\ inv w' (owned b' ++ rs) /\ stable w w' rs.

Lemma holds_elim w b bs : holds w b bs ->
  exists l, view_list b = l /\ owned b = ids l /\ repr b l /\ valid w l /\ bytes w l = bs.
Proof. intros (? & ? & ?). by exists (view_list b). Qed.
Lemma holds_intro w b l : repr b l -> valid w l -> holds w b (bytes w l).
Proof. intros Hr Hv. unfold holds. by rewrite (repr_view_list b l Hr). Qed.
Lemma owned_repr b l : repr b l -> owned b = ids l.
Proof. intros Hr. unfold owned. by rewrite (repr_view_list b l Hr). Qed.

Lemma holds_empty w : holds w IOBuf_empty [].
Proof. apply (holds_intro w IOBuf_empty []); [apply repr_empty|constructor]. Qed.

Lemma holds_stable w w' b bs rs :
  stable w w' rs -> owned b ⊆ rs -> holds w b bs -> holds w' b bs.
Proof.
  intros Hst Hsub (Hr & Hv & Hb). destruct (valid_stable w w' _ rs Hst Hsub Hv) as [Hv' Hb'].
  split; [done|]. split; [done|]. congruence.
Qed.

Lemma inv_ok w rs b blk : inv w rs -> heap w !! b = Some blk -> block_ok blk.
Proof. intros (tc & Hi & _) Hb. by apply (inv_block _ _ _ _ Hi b blk). Qed.

Lemma inv_sub_perm w rs rs' : (forall b, cnt b rs = cnt b rs') -> inv w rs -> inv w rs'.
Proof. intros Hp (tc & Hi & Hn). exists tc. split; [|done]. by eapply inv_perm. Qed.

Lemma length_holds w b bs rs : inv w rs -> holds w b bs -> length_ b = len bs.
Proof.
  intros Hi (Hr & Hv & Hb). rewrite (length_spec b _ Hr), <- Hb. symmetry.
  apply bytes_len; [done|]. intros; by eapply inv_ok.
Qed.

Lemma became_inv {A} w tc rs0 rs (res : option (A * World)) a b' l' :
  inv_core (block_head w) tc w rs0 -> num_blocks w = len tc ->
  became (block_head w) tc w rs res a b' l' ->
  exists w', res = Some (a, w') /\ repr b' l' /\ inv w' (ids l' ++ rs) /\
    stable w w' (ids l' ++ rs).
Proof.
  intros Hi Hn (w' & Heq & Hr & Hi' & Hf). exists w'. split; [done|]. split; [done|].
  pose proof Hf as (_ & (Hh & Hnb & _) & _). split; [|by eapply frame_stable].
  exists tc. rewrite Hh, Hnb. done.
Qed.

(** The common case: the new list is made of bytes that were valid before. *)
Lemma became_yields {A} w tc rs0 rs (res : option (A * World)) a b' l' :
  inv_core (block_head w) tc w rs0 -> num_blocks w = len tc ->
  became (block_head w) tc w rs res a b' l' -> valid w l' ->
  yields w rs res a b' (bytes w l').
Proof.
  intros Hi Hn Hb Hv. destruct (became_inv w tc rs0 rs res a b' l' Hi Hn Hb) as (w' & Heq & Hr & Hi' & Hst).
  destruct (valid_stable w w' l' _ Hst) as [Hv' Hb']; [set_solver|done|].
  exists w'. split; [done|]. rewrite <- Hb'. split; [by apply holds_intro|].
  rewrite (owned_repr b' l' Hr). split; [done|]. eapply stable_sub; [|exact Hst]. set_solver.
Qed.

Lemma yields_bind {A B} w rs (c : M World A) (k : A -> M World B) a b1 bs1 a2 b2 bs2 :
  yields w rs (c w) a b1 bs1 ->
  (forall w1, holds w1 b1 bs1 -> inv w1 (owned b1 ++ rs) -> yields w1 rs (k a w1) a2 b2 bs2) ->
  yields w rs (mbind' c k w) a2 b2 bs2.
Proof.
  intros (w1 & Heq & Hh & Hi & Hst) Hk. destruct (Hk w1 Hh Hi) as (w2 & Heq2 & Hh2 & Hi2 & Hst2).
  exists w2. unfold mbind'. rewrite Heq. split; [done|]. split; [done|]. split; [done|].
  by eapply stable_trans.
Qed.

Lemma yields_ret {A} w rs (a : A) b bs :
  holds w b bs -> inv w (owned b ++ rs) -> yields w rs (mret a w) a b bs.
Proof. intros. exists w. split; [done|]. split; [done|]. split; [done|]. apply stable_refl. Qed.

(** *** References *)
Lemma ref_skip_spec w r n : ref_shape r -> ref_ok w r -> 0 <= n < length r ->
  ref_shape (ref_skip r n) /\ length (ref_skip r n) = length r - n /\ ref_ok w (ref_skip r n) /\
  block (ref_skip r n) = block r /\
  ref_bytes w (ref_skip r n) = drop (Z.to_nat n) (ref_bytes w r).
Proof.
  intros (Ho & Hl & Hs & Hb) (b & blk & Hblk & Hh & _ & _ & Hsz) Hn.
  unfold ref_skip, ref_shape, ref_ok, ref_bytes. cbn [offset length block]. rewrite !u32_small by lia.
  split; [split_and!; lia || done|]. split; [done|]. split.
  { exists b, blk. split_and!; lia || done. }
  split; [done|]. rewrite Hblk, Hh, skipn_firstn_comm, drop_drop. f_equal; [lia|]. f_equal. lia.
Qed.

Lemma ref_prefix_spec w r n : ref_shape r -> ref_ok w r -> 0 < n <= length r ->
  ref_shape (mkRef (offset r) n (block r)) /\ ref_ok w (mkRef (offset r) n (block r)) /\
  ref_bytes w (mkRef (offset r) n (block r)) = take (Z.to_nat n) (ref_bytes w r).
Proof.
  intros (Ho & Hl & Hs & Hb) (b & blk & Hblk & Hh & _ & _ & Hsz) Hn.
  unfold ref_shape, ref_ok, ref_bytes. cbn [offset length block].
  split; [split_and!; lia || done|]. split.
  { exists b, blk. split_and!; lia || done. }
  rewrite Hblk, Hh, take_take. f_equal. lia.
Qed.

Lemma read_ref_spec w r off n rs : inv w rs -> ref_ok w r -> 0 <= off -> 0 <= n ->
  off + n <= length r ->
  read_ref r off n w = Some (take (Z.to_nat n) (drop (Z.to_nat off) (ref_bytes w r)), w).
Proof.
  intros Hi (b & blk & Hblk & Hh & Ho & Hl & Hsz) Hoff Hn Hle.
  pose proof (inv_ok w rs b blk Hi Hh) as (Hsc & _ & Hd & _).
  unfold read_ref, ref_bytes. rewrite Hblk, Hh. unfold read_at, load, mbind', mret. rewrite Hh. simpl.
  rewrite !(proj2 (Z.leb_le _ _)) by lia. simpl. do 2 f_equal.
  rewrite skipn_firstn_comm, take_take, drop_drop, Nat.min_l by lia. do 2 f_equal. lia.
Qed.

Lemma read_ref_all w r rs : inv w rs -> ref_ok w r ->
  read_ref r 0 (length r) w = Some (ref_bytes w r, w).
Proof.
  intros Hi Hr. pose proof Hr as (b & blk & _ & _ & _ & Hl & _).
  rewrite (read_ref_spec w r 0 (length r) rs) by (done || lia). rewrite drop_0, take_ge; [done|].
  pose proof (ref_bytes_len w r Hr) as Hlen.
  rewrite <- Hlen by (intros; by eapply inv_ok). lia.
Qed.

(** The first reference of a non-empty buffer. *)
Lemma holds_front w b bs rs : inv w rs -> holds w b bs -> 0 < len bs ->
  exists r l, view_list b = r :: l /\ owned b = ids (r :: l) /\ repr b (r :: l) /\
    ref_shape r /\ ref_ok w r /\ valid w l /\ front_ref b w = Some (r, w) /\
    len (ref_bytes w r) = length r /\ bs = ref_bytes w r ++ bytes w l.
Proof.
  intros Hi (Hr & Hv & Hb) Hlen. unfold owned. destruct (view_list b) as [|r l] eqn:Hl.
  { by subst bs. }
  exists r, l. pose proof (repr_shape _ _ Hr) as [Hs _]%Forall_cons.
  apply Forall_cons in Hv as [Hok Hv]. do 5 (split; [done|]). split; [done|].
  unfold front_ref, mlift. rewrite (front_ref_spec _ _ Hr r l eq_refl). split; [done|].
  split; [|done]. apply ref_bytes_len; [done|]. intros; by eapply inv_ok.
Qed.

Lemma clear_yields w b bs rs : holds w b bs -> inv w (owned b ++ rs) ->
  yields w rs (clear b w) IOBuf_empty IOBuf_empty [].
Proof.
  intros (Hr & _) (tc & Hi & Hn). apply (became_yields w tc _ _ _ _ _ [] Hi Hn); [|constructor].
  by eapply clear_spec.
Qed.

(** Replacing the first reference by its tail. *)
Lemma skip_front_yields {A} w b r l rs n (a : A) :
  inv w (ids (r :: l) ++ rs) -> repr b (r :: l) -> ref_ok w r -> valid w l -> 0 <= n < length r ->
  yields w rs (Some (a, w)) a (set_front_ref b (ref_skip r n) n)
    (drop (Z.to_nat n) (ref_bytes w r ++ bytes w l)).
Proof.
  intros Hi Hr Hok Hv Hn. pose proof (repr_shape _ _ Hr) as [Hs _]%Forall_cons.
  destruct (ref_skip_spec w r n Hs Hok Hn) as (Hs' & Hl' & Hok' & Hb' & Hby).
  assert (Hr' : repr (set_front_ref b (ref_skip r n) n) (ref_skip r n :: l))
    by (eapply set_front_spec; eauto; lia).
  assert (Hlen : len (ref_bytes w r) = length r)
    by (apply ref_bytes_len; [done|]; intros; by eapply inv_ok).
  exists w. split; [done|]. rewrite drop_app_le, <- Hby by lia.
  split; [apply (holds_intro w _ (_ :: l) Hr'); by constructor|].
  rewrite (owned_repr _ _ Hr'). split; [|apply stable_refl].
  exact Hi.
Qed.

Lemma pop_front_ref_yields w b r l rs :
  inv w (ids (r :: l) ++ rs) -> repr b (r :: l) -> valid w l ->
  exists b', yields w rs (_pop_front_ref b w) (0, b') b' (bytes w l) /\ view_list b' = l.
Proof.
  intros (tc & Hi & Hn) Hr Hv. destruct (pop_front_spec b r l _ tc w rs Hr Hi) as (b' & Hbec).
  exists b'. split; [by eapply (became_yields w tc)|]. apply repr_view_list.
  by destruct Hbec as (? & _ & ? & _).
Qed.

Lemma pop_front_loop_spec fuel w b bs rs n :
  holds w b bs -> inv w (owned b ++ rs) -> 0 <= n <= len bs ->
  (Datatypes.length (view_list b) < fuel)%nat ->
  exists b', yields w rs (pop_front_loop fuel b n w) b' b' (drop (Z.to_nat n) bs).
Proof.
  revert w b bs n. induction fuel as [|fuel IH]; intros w b bs n Hh Hi Hn Hf; [lia|].
  cbn [pop_front_loop]. destruct (Z.eqb_spec n 0) as [->|Hn0].
  { exists b. by apply yields_ret. }
  destruct (holds_front w b bs _ Hi Hh) as (r & l & Hl & Hown & Hr & Hs & Hok & Hv & Hfr & Hlen & ->);
    [lia|]. rewrite Hown in Hi. unfold mbind' at 1. rewrite Hfr. zcase.
  - eexists. apply skip_front_yields; done || lia.
  - destruct (pop_front_ref_yields w b r l rs Hi Hr Hv) as (b1 & Hy & Hl1).
    rewrite Hl in Hf. simpl in Hf. rewrite length_app in Hn.
    destruct Hy as (w1 & Heq & Hh1 & Hi1 & Hst1).
    destruct (IH w1 b1 (bytes w l) (n - length r) Hh1 Hi1) as (b2 & w2 & Heq2 & Hh2 & Hi2 & Hst2);
      [lia|rewrite Hl1; lia|].
    exists b2, w2. unfold mbind'. rewrite Heq. split; [done|]. split; [|split; [done|by eapply stable_trans]].
    rewrite drop_app_ge by lia. by replace (Z.to_nat n - _)%nat with (Z.to_nat (n - length r)) by lia.
Qed.

Lemma ref_num_fuel w b bs : holds w b bs -> (Datatypes.length (view_list b) < ref_fuel b)%nat.
Proof. intros (Hr & _). unfold ref_fuel. rewrite (ref_num_spec b _ Hr). lia. Qed.

(** [pop_front] removes the first [n] bytes, all of them when there are fewer. *)
Lemma pop_front_yields w b bs rs n :
  holds w b bs -> inv w (owned b ++ rs) -> 0 <= n ->
  exists b', yields w rs (pop_front b n w) (Z.min n (len bs), b') b' (drop (Z.to_nat n) bs).
Proof.
  intros Hh Hi Hn. unfold pop_front. rewrite (length_holds _ _ _ _ Hi Hh). zcase.
  - destruct (clear_yields w b bs rs Hh Hi) as (w1 & Heq & Hh1 & Hi1 & Hst).
    exists IOBuf_empty, w1. unfold mbind', mret. rewrite Heq, drop_ge by lia.
    rewrite Z.min_r by lia. done.
  - destruct (pop_front_loop_spec (ref_fuel b) w b bs rs n) as (b' & w1 & Heq & Hrest);
      [done|done|lia|by eapply ref_num_fuel|].
    exists b', w1. unfold mbind', mret. rewrite Heq, Z.min_l by lia. done.
Qed.

Lemma cut1_yields w b bs rs :
  holds w b bs -> inv w (owned b ++ rs) ->
  exists b', yields w rs (cut1 b w) (head bs, b') b' (tail bs).
Proof.
  intros Hh Hi. unfold cut1. pose proof Hh as (Hr & Hv & Hb). rewrite (empty_spec b _ Hr).
  case_bool_decide as Hnil.
  { rewrite Hnil in Hb. subst bs. exists b. by apply yields_ret. }
  assert (Hpos : 0 < len bs).
  { rewrite <- (length_holds _ _ _ _ Hi Hh), (length_spec b _ Hr).
    pose proof (repr_shape _ _ Hr) as Hsh. pose proof (total_nonneg _ Hsh).
    destruct (Z.eq_dec (total (view_list b)) 0) as [H0|]; [by apply total_zero in H0|lia]. }
  destruct (holds_front w b bs _ Hi Hh Hpos) as (r & l & Hl & Hown & Hr' & Hs & Hok & Hv' & Hfr & Hlen & ->).
  clear Hb. unfold mbind'. rewrite Hfr. pose proof Hs as (_ & Hlr & _).
  rewrite (read_ref_spec w r 0 1 _ Hi) by (done || lia). rewrite drop_0.
  rewrite Hown in Hi. replace (head (take _ (ref_bytes w r))) with (head (ref_bytes w r ++ bytes w l))
    by (destruct (ref_bytes w r); [simpl in Hlen; lia|done]).
  replace (tail (ref_bytes w r ++ bytes w l)) with (drop (Z.to_nat 1) (ref_bytes w r ++ bytes w l))
    by (by destruct (ref_bytes w r ++ bytes w l)).
  zcase.
  - eexists. apply skip_front_yields; done || lia.
  - destruct (pop_front_ref_yields w b r l rs Hi Hr' Hv') as (b1 & (w1 & Heq & Hh1 & Hi1 & Hst1) & _).
    exists b1, w1. rewrite Heq, drop_app_ge by lia.
    replace (Z.to_nat 1 - _)%nat with 0%nat by lia. done.
Qed.

(** *** Removing from the back *)
Lemma holds_back w b bs rs : inv w rs -> holds w b bs -> 0 < len bs ->
  exists r l, view_list b = l ++ [r] /\ owned b = ids (l ++ [r]) /\ repr b (l ++ [r]) /\
    ref_shape r /\ ref_ok w r /\ valid w l /\ back_ref b w = Some (r, w) /\
    len (ref_bytes w r) = length r /\ bs = bytes w l ++ ref_bytes w r.
Proof.
  intros Hi (Hr & Hv & Hb) Hlen. unfold owned. destruct (view_list b) as [|r l _] eqn:Hl using rev_ind.
  { by subst bs. }
  exists r, l. pose proof (repr_shape _ _ Hr) as [_ [Hs _]%Forall_cons]%Forall_app.
  apply Forall_app in Hv as [Hv [Hok _]%Forall_cons]. do 6 (split; [done|]).
  unfold back_ref, mlift. rewrite (back_ref_spec _ _ Hr r l eq_refl). split; [done|].
  split; [apply ref_bytes_len; [done|]; intros; by eapply inv_ok|].
  by rewrite <- Hb, bytes_app, bytes_one.
Qed.

Lemma pop_back_loop_spec fuel w b bs rs n :
  holds w b bs -> inv w (owned b ++ rs) -> 0 <= n <= len bs ->
  (Datatypes.length (view_list b) < fuel)%nat ->
  exists b', yields w rs (pop_back_loop fuel b n w) b' b' (take (Z.to_nat (len bs - n)) bs).
Proof.
  revert w b bs n. induction fuel as [|fuel IH]; intros w b bs n Hh Hi Hn Hf; [lia|].
  cbn [pop_back_loop]. destruct (Z.eqb_spec n 0) as [->|Hn0].
  { exists b. rewrite take_ge by lia. by apply yields_ret. }
  destruct (holds_back w b bs _ Hi Hh) as (r & l & Hl & Hown & Hr & Hs & Hok & Hv & Hfr & Hlen & ->);
    [lia|]. rewrite Hown in Hi. unfold mbind' at 1. rewrite Hfr. rewrite length_app in *. zcase.
  - destruct (ref_prefix_spec w r (length r - n) Hs Hok) as (Hs' & Hok' & Hby'); [lia|].
    unfold ref_shrink. destruct Hs as (? & ? & ? & ?). rewrite u32_small by lia.
    set (r' := mkRef (offset r) (length r - n) (block r)) in *.
    assert (Hr' : repr (set_back_ref b r' n) (l ++ [r'])) by (eapply set_back_spec; eauto; simpl; lia).
    eexists _, w. split; [done|]. split; [|split; [|apply stable_refl]].
    + replace (take _ (bytes w l ++ _)) with (bytes w (l ++ [r'])).
      { apply holds_intro; [done|]. apply Forall_app. split; [done|by constructor]. }
      rewrite bytes_app, bytes_one, Hby'.
      rewrite take_app_ge by lia. do 2 f_equal. lia.
    + rewrite (owned_repr _ _ Hr'). rewrite ids_app in *. exact Hi.
  - destruct Hi as (tc & Hi & Hnt). destruct (pop_back_spec b r l _ tc w rs Hr Hi) as (b1 & Hbec).
    pose proof Hbec as (_ & _ & Hr1 & _). apply repr_view_list in Hr1.
    destruct (became_yields _ _ _ _ _ _ _ _ Hi Hnt Hbec Hv) as (w1 & Heq & Hh1 & Hi1 & Hst1).
    rewrite Hl, length_app in Hf. simpl in Hf.
    destruct (IH w1 b1 (bytes w l) (n - length r) Hh1 Hi1) as (b2 & w2 & Heq2 & Hh2 & Hi2 & Hst2);
      [lia|rewrite Hr1; lia|].
    exists b2, w2. unfold mbind'. rewrite Heq. split; [done|]. split; [|split; [done|by eapply stable_trans]].
    rewrite take_app_le by lia. by replace (Z.to_nat _) with (Z.to_nat (len (bytes w l) - (n - length r))) by lia.
Qed.

(** [pop_back] removes the last [n] bytes, all of them when there are fewer. *)
Lemma pop_back_yields w b bs rs n :
  holds w b bs -> inv w (owned b ++ rs) -> 0 <= n ->
  exists b', yields w rs (pop_back b n w) (Z.min n (len bs), b') b'
               (take (Z.to_nat (len bs - n)) bs).
Proof.
  intros Hh Hi Hn. unfold pop_back. rewrite (length_holds _ _ _ _ Hi Hh). zcase.
  - destruct (clear_yields w b bs rs Hh Hi) as (w1 & Heq & Hh1 & Hi1 & Hst).
    exists IOBuf_empty, w1. unfold mbind', mret. rewrite Heq.
    replace (Z.to_nat (len bs - n)) with 0%nat by lia. rewrite Z.min_r by lia. done.
  - destruct (pop_back_loop_spec (ref_fuel b) w b bs rs n) as (b' & w1 & Heq & Hrest);
      [done|done|lia|by eapply ref_num_fuel|].
    exists b', w1. unfold mbind', mret. rewrite Heq, Z.min_l by lia. done.
Qed.

(** *** Pushing references *)
Lemma push_yields (MOVE : bool) w b bs rs r :
  holds w b bs -> inv w ((if MOVE then ids [r] else []) ++ owned b ++ rs) ->
  ref_shape r -> ref_ok w r -> 2 * (len bs + length r) < limit ->
  exists b', yields w rs (push_or_move_back_ref MOVE b r w) b' b' (bs ++ ref_bytes w r).
Proof.
  intros Hh Hi Hs Hok Hlim. pose proof (length_holds _ _ _ _ Hi Hh) as Hlen.
  destruct Hh as (Hr & Hv & Hb). rewrite (length_spec b _ Hr) in Hlen.
  pose proof (repr_shape _ _ Hr) as Hsh. pose proof (weight_le _ Hsh). pose proof Hs as (_ & Hlr & _).
  destruct Hi as (tc & Hi & Hn).
  assert (Hcan : can_push MOVE (block_head w) tc w r (ids (view_list b) ++ rs)).
  { destruct MOVE; [done|]. split; [done|]. destruct Hok as (k & blk & ? & ? & _). eauto. }
  destruct (push_spec MOVE b _ r (block_head w) tc w rs Hr Hs) as (b' & Hbec); [lia|done|].
  destruct (push_ref_bytes w _ r Hsh Hs Hv Hok) as [Hv' Hb'].
  exists b'. rewrite <- Hb, <- Hb'. by eapply (became_yields w tc).
Qed.

Lemma cutn_loop_spec fuel w b out bs os rs n :
  holds w b bs -> holds w out os -> inv w (owned b ++ owned out ++ rs) ->
  0 <= n <= len bs -> 2 * (len os + n) < limit ->
  (Datatypes.length (view_list b) < fuel)%nat ->
  exists b' out' w', cutn_loop fuel b out n w = Some ((b', out'), w') /\
    holds w' b' (drop (Z.to_nat n) bs) /\ holds w' out' (os ++ take (Z.to_nat n) bs) /\
    inv w' (owned b' ++ owned out' ++ rs) /\ stable w w' rs.
Proof.
  revert w b out bs os n. induction fuel as [|fuel IH]; intros w b out bs os n Hh Ho Hi Hn Hlim Hf; [lia|].
  cbn [cutn_loop]. destruct (Z.eqb_spec n 0) as [->|Hn0].
  { exists b, out, w. rewrite take_0, app_nil_r. split; [done|]. do 3 (split; [done|]). apply stable_refl. }
  destruct (holds_front w b bs _ Hi Hh) as (r & l & Hl & Hown & Hr & Hs & Hok & Hv & Hfr & Hlen & ->);
    [lia|]. rewrite Hown in Hi. unfold mbind' at 1. rewrite Hfr. rewrite length_app in Hn. zcase.
  - rewrite ids_cons in Hi.
    destruct (push_yields true w out os (ids l ++ rs) r Ho) as (out1 & w1 & Heq1 & Ho1 & Hi1 & Hst1);
      [|done|done|lia|].
    { eapply inv_sub_perm; [|exact Hi]. intros x. rewrite !cnt_app. lia. }
    destruct (moveout_front_spec b r l Hr) as (b1 & Hr1 & Hmv).
    destruct (valid_stable w w1 l _ Hst1) as [Hv1 Hb1]; [set_solver|done|].
    destruct (IH w1 b1 out1 (bytes w l) (os ++ ref_bytes w r) (n - length r))
      as (b2 & out2 & w2 & Heq2 & Hh2 & Ho2 & Hi2 & Hst2).
    + rewrite <- Hb1. by apply holds_intro.
    + done.
    + rewrite (owned_repr b1 l Hr1). eapply inv_sub_perm; [|exact Hi1]. intros x. rewrite !cnt_app. lia.
    + lia.
    + rewrite length_app. lia.
    + rewrite (repr_view_list b1 l Hr1). rewrite Hl in Hf. simpl in Hf. lia.
    + exists b2, out2, w2. unfold _move_back_ref, mbind'. rewrite Heq1, Hmv. split; [done|].
      rewrite drop_app_ge, take_app_ge by lia.
      replace (Z.to_nat n - Datatypes.length (ref_bytes w r))%nat with (Z.to_nat (n - length r)) by lia.
      split; [done|]. split; [by rewrite app_assoc|]. split; [done|].
      eapply stable_trans; [|done]. eapply stable_sub; [|exact Hst1]. set_solver.
  - destruct (ref_prefix_spec w r n Hs Hok) as (Hs' & Hok' & Hby'); [lia|].
    rewrite u32_small by (destruct Hs as (? & ? & ? & _); lia).
    destruct (push_yields false w out os (ids (r :: l) ++ rs) (mkRef (offset r) n (block r)) Ho) as (out1 & w1 & Heq1 & Ho1 & Hi1 & Hst1);
      [|exact Hs'|exact Hok'|simpl; lia|].
    { cbn [app]. eapply inv_sub_perm; [|exact Hi]. intros x. rewrite !cnt_app. lia. }
    assert (Hv1 : valid w1 (r :: l) /\ bytes w1 (r :: l) = bytes w (r :: l)).
    { apply (valid_stable w w1 _ (ids (r :: l) ++ rs)); [done|set_solver|by constructor]. }
    destruct Hv1 as [[Hok1 Hv1]%Forall_cons Hb1].
    destruct (skip_front_yields w1 b r l (owned out1 ++ rs) n tt) as (w2 & [= <-] & Hh2 & Hi2 & _);
      [|done|done|done|lia|].
    { eapply inv_sub_perm; [|exact Hi1]. intros x. rewrite !cnt_app. lia. }
    eexists _, out1, w1. unfold _push_back_ref, mbind', mret. rewrite Heq1. split; [done|].
    rewrite take_app_le by lia. rewrite <- Hby'. unfold bytes in Hb1 at 1 2. simpl in Hb1.
    split; [|split; [done|split; [done|]]].
    + replace (ref_bytes w r ++ bytes w l) with (ref_bytes w1 r ++ bytes w1 l) by exact Hb1. done.
    + eapply stable_sub; [|exact Hst1]. set_solver.
Qed.

(** [cutn] moves the first [n] bytes to the end of [out]. *)
Lemma cutn_spec w b out bs os rs n :
  holds w b bs -> holds w out os -> inv w (owned b ++ owned out ++ rs) ->
  0 <= n -> 2 * (len os + Z.min n (len bs)) < limit ->
  exists b' out' w', cutn b out n w = Some ((Z.min n (len bs), b', out'), w') /\
    holds w' b' (drop (Z.to_nat n) bs) /\ holds w' out' (os ++ take (Z.to_nat n) bs) /\
    inv w' (owned b' ++ owned out' ++ rs) /\ stable w w' rs.
Proof.
  intros Hh Ho Hi Hn Hlim. unfold cutn. rewrite (length_holds _ _ _ _ Hi Hh).
  replace (if len bs <? n then len bs else n) with (Z.min n (len bs)) by (zcase; lia).
  destruct (cutn_loop_spec (ref_fuel b) w b out bs os rs (Z.min n (len bs)))
    as (b' & out' & w' & Heq & Hh' & Ho' & Hrest); [done|done|done|lia|done|by eapply ref_num_fuel|].
  exists b', out', w'. unfold mbind', mret. rewrite Heq. split; [done|].
  destruct (decide (n <= len bs)); [by rewrite Z.min_l in * by lia|].
  rewrite Z.min_r in * by lia. rewrite drop_ge in * by lia. rewrite take_ge in * by lia. done.
Qed.

Lemma cutn_mem_loop_spec fuel w b bs out rs n :
  holds w b bs -> inv w (owned b ++ rs) -> 0 <= n <= len bs ->
  (Datatypes.length (view_list b) < fuel)%nat ->
  exists b', yields w rs (cutn_mem_loop fuel b out n w) (out ++ take (Z.to_nat n) bs, b') b'
               (drop (Z.to_nat n) bs).
Proof.
  revert w b bs out n. induction fuel as [|fuel IH]; intros w b bs out n Hh Hi Hn Hf; [lia|].
  cbn [cutn_mem_loop]. destruct (Z.eqb_spec n 0) as [->|Hn0].
  { exists b. rewrite take_0, app_nil_r. by apply yields_ret. }
  destruct (holds_front w b bs _ Hi Hh) as (r & l & Hl & Hown & Hr & Hs & Hok & Hv & Hfr & Hlen & ->);
    [lia|]. unfold mbind' at 1. rewrite Hfr. rewrite length_app in Hn. zcase.
  - unfold mbind' at 1. rewrite (read_ref_all w r _ Hi Hok). rewrite Hown in Hi.
    destruct (pop_front_ref_yields w b r l rs Hi Hr Hv) as (b1 & (w1 & Heq & Hh1 & Hi1 & Hst1) & Hl1).
    rewrite Hl in Hf. simpl in Hf.
    destruct (IH w1 b1 (bytes w l) (out ++ ref_bytes w r) (n - length r) Hh1 Hi1)
      as (b2 & w2 & Heq2 & Hh2 & Hi2 & Hst2); [lia|rewrite Hl1; lia|].
    exists b2, w2. unfold mbind'. rewrite Heq, Heq2.
    rewrite drop_app_ge, take_app_ge, <- app_assoc by lia.
    replace (Z.to_nat n - Datatypes.length (ref_bytes w r))%nat with (Z.to_nat (n - length r)) by lia.
    split; [done|]. split; [done|]. split; [done|by eapply stable_trans].
  - unfold mbind'. rewrite (read_ref_spec w r 0 n _ Hi Hok) by lia. rewrite drop_0, Hown in *.
    rewrite take_app_le by lia. eexists. apply skip_front_yields; done || lia.
Qed.

(** The two copying forms of [cutn]. *)
Lemma cutn_mem_yields w b bs rs n :
  holds w b bs -> inv w (owned b ++ rs) -> 0 <= n ->
  exists b', yields w rs (cutn_mem b n w) (Z.min n (len bs), take (Z.to_nat n) bs, b') b'
               (drop (Z.to_nat n) bs).
Proof.
  intros Hh Hi Hn. unfold cutn_mem. rewrite (length_holds _ _ _ _ Hi Hh).
  replace (if len bs <? n then len bs else n) with (Z.min n (len bs)) by (zcase; lia).
  destruct (cutn_mem_loop_spec (ref_fuel b) w b bs [] rs (Z.min n (len bs)))
    as (b' & w' & Heq & Hrest); [done|done|lia|by eapply ref_num_fuel|].
  exists b', w'. unfold mbind', mret. rewrite Heq. simpl.
  destruct (decide (n <= len bs)); [by rewrite Z.min_l in * by lia|].
  rewrite Z.min_r in * by lia. rewrite drop_ge in * by lia. rewrite !take_ge by lia. done.
Qed.
Lemma cutn_string_yields w b bs out rs n :
  holds w b bs -> inv w (owned b ++ rs) -> 0 <= n ->
  exists b', yields w rs (cutn_string b out n w) (Z.min n (len bs), out ++ take (Z.to_nat n) bs, b') b'
               (drop (Z.to_nat n) bs).
Proof.
  intros Hh Hi Hn. unfold cutn_string. destruct (Z.eqb_spec n 0) as [->|Hn0].
  { exists b. rewrite Z.min_l, take_0, app_nil_r by lia. by apply yields_ret. }
  rewrite (length_holds _ _ _ _ Hi Hh).
  replace (if len bs <? n then len bs else n) with (Z.min n (len bs)) by (zcase; lia).
  destruct (cutn_mem_yields w b bs rs (Z.min n (len bs)) Hh Hi) as (b' & w' & Heq & Hrest); [lia|].
  exists b', w'. unfold mbind', mret. rewrite Heq. simpl. rewrite Z.min_l by lia.
  destruct (decide (n <= len bs)); [by rewrite Z.min_l in * by lia|].
  rewrite Z.min_r in * by lia. rewrite drop_ge in * by lia. rewrite !take_ge by lia. done.
Qed.

(** *** Reading *)
Section Reading.
Context (w : World) (b : buffer) (bs : list Z) (rs : list bid).
Context (Hh : holds w b bs) (Hi : inv w rs).
Let l := view_list b.

Lemma read_repr : repr b l. Proof. apply Hh. Qed.
Lemma read_valid : valid w l. Proof. apply Hh. Qed.
Lemma read_nref : _ref_num b = len l. Proof. apply ref_num_spec, read_repr. Qed.

(** The [i]-th reference, as the loops over [_ref_at(i)] meet it. *)
Lemma ref_at_holds i : 0 <= i < len l ->
  exists r, ref_at b i w = Some (r, w) /\ l !! Z.to_nat i = Some r /\ ref_shape r /\ ref_ok w r /\
    len (ref_bytes w r) = length r /\
    bytes w (drop (Z.to_nat i) l) = ref_bytes w r ++ bytes w (drop (Z.to_nat (i + 1)) l).
Proof.
  intros Hlt. destruct (lookup_lt_is_Some_2 l (Z.to_nat i)) as [r Hr]; [lia|]. exists r.
  unfold ref_at, mlift. rewrite (ref_at_spec b l read_repr i Hlt), Hr. split; [done|]. split; [done|].
  split; [exact (Forall_lookup_1 _ _ _ _ (repr_shape _ _ read_repr) Hr)|].
  pose proof (Forall_lookup_1 _ _ _ _ read_valid Hr) as Hok. split; [done|].
  split; [apply ref_bytes_len; [done|]; intros; by eapply inv_ok|].
  rewrite (drop_S l r _ Hr), bytes_cons. by replace (Z.to_nat (i + 1)) with (S (Z.to_nat i)) by lia.
Qed.

Lemma skip_pos_spec k pos i : 0 <= pos -> 0 <= i -> i + Z.of_nat k = len l ->
  exists off i', skip_pos b k pos i w = Some ((off, i'), w) /\ 0 <= off /\ i <= i' <= len l /\
    drop (Z.to_nat pos) (bytes w (drop (Z.to_nat i) l)) =
      drop (Z.to_nat off) (bytes w (drop (Z.to_nat i') l)) /\
    (forall r, l !! Z.to_nat i' = Some r -> off < length r).
Proof.
  revert pos i. induction k as [|k IH]; intros pos i Hp Hi0 Hk; cbn [skip_pos].
  - assert (Hnil : l !! Z.to_nat i = None) by (apply lookup_ge_None; lia).
    destruct (Z.eqb_spec pos 0) as [->|Hp0]; eexists _, i; (split; [done|]); (split; [lia|]); (split; [lia|]);
      (split; [done|]); intros r; rewrite Hnil; done.
  - destruct (ref_at_holds i) as (r & Hat & Hlk & (_ & Hs & _) & Hok & Hlen & Hby); [lia|].
    destruct (Z.eqb_spec pos 0) as [->|Hp0].
    { eexists _, i. split; [done|]. split; [lia|]. split; [lia|]. split; [done|]. intros r'.
      rewrite Hlk. intros [= <-]. lia. }
    unfold mbind'. rewrite Hat. zcase.
    + eexists _, i. split; [done|]. split; [lia|]. split; [lia|]. split; [done|]. intros r'.
      rewrite Hlk. intros [= <-]. lia.
    + destruct (IH (pos - length r) (i + 1)) as (off & i' & Heq & ? & ? & Hdrop & Hlast); [lia|lia|lia|].
      exists off, i'. split; [done|]. split; [lia|]. split; [lia|]. split; [|done].
      rewrite <- Hdrop, Hby, drop_app_ge by lia. f_equal. lia.
Qed.

Lemma copy_to_loop_spec k d m off i :
  0 <= m -> 0 <= off -> 0 <= i -> i + Z.of_nat k = len l ->
  (forall r, l !! Z.to_nat i = Some r -> off < length r) ->
  let t := take (Z.to_nat m) (drop (Z.to_nat off) (bytes w (drop (Z.to_nat i) l))) in
  copy_to_loop b k d m off i w = Some ((m - len t, d ++ t), w).
Proof.
  revert d m off i. induction k as [|k IH]; intros d m off i Hm Hoff Hi0 Hk Hlast t; cbn [copy_to_loop].
  - assert (t = []) as ->.
    { unfold t. rewrite (drop_ge l) by lia. change (bytes w []) with (@nil Z).
      by rewrite drop_nil, take_nil. }
    rewrite app_nil_r. destruct (Z.eqb_spec m 0) as [->|]; simpl; rewrite ?Z.sub_0_r; done.
  - destruct (ref_at_holds i) as (r & Hat & Hlk & (Ho & Hs & Hs' & _) & Hok & Hlen & Hby); [lia|].
    specialize (Hlast r Hlk). destruct (Z.eqb_spec m 0) as [->|Hm0].
    { unfold t. simpl. by rewrite app_nil_r. }
    unfold mbind'. rewrite Hat, u64_small by lia.
    rewrite (read_ref_spec w r off (Z.min m (length r - off)) _ Hi Hok) by lia.
    assert (Hsh : forall r', l !! Z.to_nat (i + 1) = Some r' -> 0 < length r').
    { intros r' Hr'. pose proof (Forall_lookup_1 _ _ _ _ (repr_shape _ _ read_repr) Hr') as (_ & ? & _). lia. }
    rewrite IH by (done || lia).
    rewrite drop_0. unfold t. rewrite Hby, (drop_app_le (ref_bytes w r)) by lia.
    set (q := drop (Z.to_nat off) (ref_bytes w r)). assert (Hq : len q = length r - off)
      by (unfold q; rewrite length_drop; lia).
    destruct (decide (m <= length r - off)).
    + rewrite Z.min_l by lia. replace (m - m) with 0 by lia. simpl. rewrite app_nil_r.
      rewrite take_app_le by lia. do 3 f_equal. rewrite length_take. lia.
    + rewrite Z.min_r by lia. rewrite (take_ge q) by lia. rewrite take_app_ge by lia.
      replace (Z.to_nat m - Datatypes.length q)%nat with (Z.to_nat (m - (length r - off))) by lia.
      rewrite <- app_assoc, length_app. do 3 f_equal. lia.
Qed.

(** [copy_to] copies up to [n] bytes from position [pos]. *)
Lemma copy_to_spec n pos : 0 <= n -> 0 <= pos ->
  let t := take (Z.to_nat n) (drop (Z.to_nat pos) bs) in
  copy_to b n pos w = Some ((len t, t), w).
Proof.
  intros Hn Hp t. unfold copy_to. rewrite read_nref.
  destruct (skip_pos_spec (Z.to_nat (len l)) pos 0) as (off & i' & Heq & ? & ? & Hdrop & Hlast); [lia|lia|lia|].
  unfold mbind', mret. rewrite Heq. rewrite copy_to_loop_spec by (done || lia).
  simpl in Hdrop. rewrite drop_0 in Hdrop. rewrite <- Hdrop.
  replace (bytes w l) with bs by (symmetry; apply Hh). simpl. do 3 f_equal. unfold t. lia.
Qed.
Lemma copy_to_string_spec s n pos : 0 <= n -> 0 <= pos ->
  copy_to_string b s n pos w =
    if len bs <=? pos then Some ((0, s), w)
    else let t := take (Z.to_nat n) (drop (Z.to_nat pos) bs) in Some ((len t, t), w).
Proof.
  intros Hn Hp. unfold copy_to_string. rewrite (length_holds _ _ _ _ Hi Hh).
  destruct (Z.leb_spec (len bs) pos); [done|].
  rewrite copy_to_spec by (repeat zcase; lia). simpl. zcase; [|done].
  rewrite !(take_ge (drop _ _)) by (rewrite length_drop; lia). done.
Qed.
Lemma to_string_spec : len bs < 2 ^ 64 -> to_string b w = Some (bs, w).
Proof.
  intros Hb. unfold to_string, mbind'. rewrite copy_to_string_spec by (lia || apply u64_range).
  change (u64 (-1)) with (2 ^ 64 - 1). zcase.
  - destruct bs; [done|simpl in *; lia].
  - simpl. rewrite drop_0, take_ge by lia. done.
Qed.
Lemma append_to_string_spec s n pos : 0 <= n -> 0 <= pos ->
  let t := take (Z.to_nat n) (drop (Z.to_nat pos) bs) in
  append_to_string b s n pos w = Some ((len t, s ++ t), w).
Proof.
  intros Hn Hp t. unfold append_to_string. rewrite (length_holds _ _ _ _ Hi Hh).
  destruct (Z.leb_spec (len bs) pos).
  - unfold t. rewrite drop_ge, take_nil, app_nil_r by lia. done.
  - unfold mbind'. rewrite copy_to_spec by (repeat zcase; lia). simpl. unfold t. zcase; [|done].
    rewrite !(take_ge (drop _ _)) by (rewrite length_drop; lia). done.
Qed.

Lemma equals_loop_spec s k soff i :
  0 <= soff -> 0 <= i -> i + Z.of_nat k = len l ->
  soff + len (bytes w (drop (Z.to_nat i) l)) = len s ->
  equals_loop b k s soff i w =
    Some (bool_decide (bytes w (drop (Z.to_nat i) l) = drop (Z.to_nat soff) s), w).
Proof.
  revert soff i. induction k as [|k IH]; intros soff i Hso Hi0 Hk Hs; cbn [equals_loop].
  - rewrite (drop_ge l) in * by lia. simpl in Hs. rewrite (drop_ge s) by lia. by rewrite bool_decide_eq_true_2.
  - destruct (ref_at_holds i) as (r & Hat & Hlk & (_ & Hsr & _) & Hok & Hlen & Hby); [lia|].
    rewrite Hby in *. rewrite length_app in Hs. unfold mbind', mret.
    rewrite Hat, (read_ref_all w r _ Hi Hok).
    set (q := drop (Z.to_nat soff) s).
    assert (Hq : q = take (Z.to_nat (length r)) q ++ drop (Z.to_nat (soff + length r)) s).
    { replace (Z.to_nat (soff + length r)) with (Z.to_nat soff + Z.to_nat (length r))%nat by lia.
      rewrite <- drop_drop. symmetry. apply take_drop. }
    case_bool_decide as Heq.
    + rewrite IH by lia. do 2 f_equal. apply bool_decide_ext. rewrite Hq, <- Heq.
      split; [by intros ->|apply app_inv_head].
    + rewrite bool_decide_eq_false_2; [done|]. rewrite Hq. intros Happ. apply Heq.
      apply app_inj_1 in Happ as [Ht _]; [exact Ht|]. unfold q. rewrite length_take, length_drop. lia.
Qed.
(** [equals] decides equality with a string. *)
Lemma equals_spec s : equals b s w = Some (bool_decide (bs = s), w).
Proof.
  unfold equals. rewrite (length_holds _ _ _ _ Hi Hh), read_nref.
  destruct (Z.eqb_spec (len bs) (len s)) as [Hlen|Hne]; cbn [negb].
  - rewrite equals_loop_spec; [|lia|lia|lia|].
    + simpl. rewrite !drop_0. by replace (bytes w l) with bs by (symmetry; apply Hh).
    + simpl. rewrite drop_0. by replace (bytes w l) with bs by (symmetry; apply Hh).
  - rewrite bool_decide_eq_false_2; [done|]. by intros ->.
Qed.

Lemma fetch_loop_spec n k d total_nc i :
  0 <= total_nc < n -> 0 <= i -> i + Z.of_nat k = len l ->
  n <= total_nc + len (bytes w (drop (Z.to_nat i) l)) ->
  fetch_loop b k d n total_nc i w =
    Some (Some (true, d ++ take (Z.to_nat (n - total_nc)) (bytes w (drop (Z.to_nat i) l))), w).
Proof.
  revert d total_nc i. induction k as [|k IH]; intros d total_nc i Hn Hi0 Hk Hle; cbn [fetch_loop].
  - rewrite (drop_ge l) in Hle by lia. simpl in Hle. lia.
  - destruct (ref_at_holds i) as (r & Hat & Hlk & (_ & Hsr & _) & Hok & Hlen & Hby); [lia|].
    rewrite Hby in *. rewrite length_app in Hle. unfold mbind', mret. rewrite Hat. zcase.
    + rewrite (read_ref_spec w r 0 _ _ Hi Hok) by lia. rewrite drop_0, take_app_le by lia. done.
    + rewrite (read_ref_all w r _ Hi Hok), IH by lia. do 4 f_equal. rewrite <- app_assoc. f_equal.
      rewrite take_app_ge by lia. f_equal. f_equal. lia.
Qed.
(** [fetch] gives the first [n] bytes when the buffer has them; it needs a
    non-empty buffer when [n] is 0. *)
Lemma fetch_spec n : 0 <= n -> bs <> [] ->
  exists c, fetch b n w =
    Some (if n <=? len bs then Some (c, take (Z.to_nat n) bs) else None, w).
Proof.
  intros Hn Hne. unfold fetch. rewrite (length_holds _ _ _ _ Hi Hh). zcase; [|by exists false].
  assert (Hbl : bytes w l = bs) by apply Hh. assert (Hl0 : 0 < len l).
  { destruct l; [by subst|simpl; lia]. }
  destruct (ref_at_holds 0) as (r & Hat & Hlk & (_ & Hsr & _) & Hok & Hlen & Hby); [lia|].
  change (Z.to_nat (0 + 1)) with 1%nat in Hby. change (Z.to_nat 0) with 0%nat in Hby.
  rewrite drop_0, Hbl in Hby. unfold mbind', mret. rewrite Hat.
  assert (Hlb : len bs = length r + len (bytes w (drop 1 l))) by (rewrite Hby, length_app; lia). zcase.
  - exists false. rewrite (read_ref_spec w r 0 n _ Hi Hok) by lia. rewrite drop_0, Hby, take_app_le by lia.
    done.
  - exists true. rewrite (read_ref_all w r _ Hi Hok), read_nref.
    rewrite fetch_loop_spec by (change (Z.to_nat 1) with 1%nat; lia).
    change (Z.to_nat 1) with 1%nat. rewrite Hby, take_app_ge by lia.
    by replace (Z.to_nat n - _)%nat with (Z.to_nat (n - length r)) by lia.
Qed.

Lemma backing_block_spec i : 0 <= i ->
  exists s, backing_block b i w = Some (s, w) /\
    (forall r, l !! Z.to_nat i = Some r -> s = ref_bytes w r) /\ (len l <= i -> s = []).
Proof.
  intros Hi0. unfold backing_block. rewrite read_nref. zcase.
  - destruct (ref_at_holds i) as (r & Hat & Hlk & _ & Hok & _); [lia|]. exists (ref_bytes w r).
    unfold mbind'. rewrite Hat, (read_ref_all w r _ Hi Hok). split; [done|].
    split; [|lia]. intros r'. rewrite Hlk. by intros [= ->].
  - exists []. split; [done|]. split; [|done]. intros r Hr. apply lookup_lt_Some in Hr. lia.
Qed.
End Reading.

(** *** Filling the thread's current block *)
Section Filling.
Context `{Env}.

Lemma left_space_ok blk : block_ok blk -> left_space blk = cap blk - size blk.
Proof. intros (? & ? & _). unfold left_space. rewrite u32_small; lia. Qed.
Lemma full_ok blk : full blk = false <-> size blk < cap blk.
Proof. unfold full. rewrite Z.leb_gt. done. Qed.

(** A reference to bytes that are written already, and the size that covers them; [R]
    are the references of others. *)
Lemma push_written_spec w b bs tc R k blk n :
  holds w b bs -> inv_core (block_head w) tc w (owned b ++ R) -> num_blocks w = len tc ->
  heap w !! k = Some blk -> 0 < n <= left_space blk -> 2 * (len bs + n) < limit ->
  exists b' w1 w2 c,
    _push_back_ref b (mkRef (size blk) n (Some k)) w = Some (b', w1) /\ frame w w1 /\
    inv_core (block_head w) tc w1 (owned b' ++ R) /\
    heap w1 !! k = Some (set_nshared c blk) /\
    w2 = set_heap (<[k := set_size (size blk + n) (set_nshared c blk)]> (heap w1)) w1 /\
    modify k (set_size (u32 (size blk + n))) w1 = Some (tt, w2) /\
    holds w2 b' (bs ++ take (Z.to_nat n) (drop (Z.to_nat (size blk)) (data blk))) /\
    inv_core (block_head w2) tc w2 (owned b' ++ R) /\ num_blocks w2 = len tc /\ stable w w2 R /\
    view_list b' = push_ref (view_list b) (mkRef (size blk) n (Some k)).
Proof.
  intros Hh Hi Hnt Hk Hsrc Hlim. destruct (inv_block _ _ _ _ Hi k blk Hk) as (Hok & _).
  rewrite (left_space_ok blk Hok) in Hsrc. pose proof Hok as (Hsz & Hcap & _).
  assert (inv w (owned b ++ R)) as Hinv by (by exists tc).
  pose proof (length_holds _ _ _ _ Hinv Hh) as Hlen.
  destruct Hh as (Hr & Hv & Hb). rewrite (length_spec b _ Hr) in Hlen.
  set (r := mkRef (size blk) n (Some k)).
  pose proof (repr_shape _ _ Hr) as Hsh. pose proof (weight_le _ Hsh).
  assert (Hrs : ref_shape r) by (split_and!; simpl; lia || done).
  destruct (push_spec false b _ r (block_head w) tc w R Hr Hrs) as (b' & w1 & Hpush & Hr1 & Hi1 & Hf1);
    [simpl; lia|by split; [exact Hi|]; exists k|].
  pose proof Hf1 as (Hkeep & (Hh1 & Hn1 & _) & _).
  destruct (inv_live _ _ _ _ Hi1 k) as [blk1 Hk1];
    [apply elem_of_app; left; by apply (push_ref_mem _ r)|].
  destruct (Hkeep k blk1 Hk1) as (blk0 & Hk0 & E1). assert (blk0 = blk) as -> by congruence. rewrite E1 in Hk1.
  destruct (set_size_spec _ tc w1 _ k _ (size blk + n) Hi1 Hk1) as (Hset & Hi2 & Hext); [simpl; lia|].
  set (w2 := set_heap _ w1) in *. exists b', w1, w2, (nshared blk1). rewrite u32_small by lia.
  do 2 (split; [done|]). rewrite (owned_repr _ _ Hr1). do 4 (split; [done|]).
  assert (Hst : stable w w2 (ids (push_ref (view_list b) r) ++ R)).
  { eapply stable_trans; [by eapply frame_stable|]. by eapply stable_update. }
  assert (Hk2 : heap w2 !! k = Some (set_size (size blk + n) (set_nshared (nshared blk1) blk))) by apply lookup_insert_eq.
  assert (ref_ok w2 r /\ ref_bytes w2 r = take (Z.to_nat n) (drop (Z.to_nat (size blk)) (data blk))) as [Hrok Hrb].
  { unfold ref_ok, ref_bytes. cbn [block r]. rewrite Hk2. split; [|done].
    eexists _, _. split; [done|]. split; [done|]. simpl. lia. }
  destruct (valid_stable w w2 (view_list b) _ Hst) as [Hv2 Hb2]; [|done|].
  { intros x Hx. apply elem_of_app. left. apply cnt_pos. rewrite push_ref_ids by done.
    apply cnt_pos in Hx. pose proof (cnt_nonneg x (ids [r])).
    fold (merges (view_list b) r). destruct (merges _ _); lia. }
  destruct (push_ref_bytes w2 (view_list b) r Hsh Hrs Hv2 Hrok) as [Hv' Hb'].
  split; [rewrite <- Hb, <- Hb2, <- Hrb, <- Hb'; by apply holds_intro|].
  split; [simpl; by rewrite Hh1|]. split; [simpl; by rewrite Hn1|].
  split; [eapply stable_sub; [|exact Hst]; set_solver|by apply repr_view_list].
Qed.

(** The three writes of the append loops: the bytes, the reference, the size. *)
Lemma fill_push_yields w b bs rs k blk src :
  holds w b bs -> inv w (owned b ++ rs) -> heap w !! k = Some blk ->
  0 < len src <= left_space blk -> 2 * (len bs + len src) < limit ->
  exists b' w1 w2 w3,
    write_at k (size blk) src w = Some (tt, w1) /\
    _push_back_ref b (mkRef (size blk) (len src) (Some k)) w1 = Some (b', w2) /\
    modify k (set_size (u32 (size blk + len src))) w2 = Some (tt, w3) /\
    holds w3 b' (bs ++ src) /\ inv w3 (owned b' ++ rs) /\ stable w w3 rs.
Proof.
  intros Hh Hi Hk Hsrc Hlim. pose proof (inv_ok _ _ _ _ Hi Hk) as Hok.
  pose proof (left_space_ok blk Hok) as Hls. destruct Hi as (tc & Hi & Hnt).
  destruct (write_at_spec _ tc w _ k blk (size blk) src Hi Hk) as (d & Hwr & Hi1 & Hext1 & Hd & _); [lia|lia|].
  set (w1 := set_heap (<[k:=set_data d blk]> (heap w)) w) in *.
  assert (stable w w1 (owned b ++ rs)) as Hst1 by (by eapply stable_update).
  destruct (push_written_spec w1 b bs tc rs k (set_data d blk) (len src))
    as (b' & w2 & w3 & c & Hpush & _ & _ & _ & _ & Hset & Hh3 & Hi3 & Hn3 & Hst3 & _); try done.
  { eapply holds_stable; [exact Hst1| |done]. set_solver. }
  { apply lookup_insert_eq. }
  exists b', w1, w2, w3. do 3 (split; [done|]). cbn [set_data size data] in Hh3.
  rewrite Nat2Z.id, Hd in Hh3. split; [done|]. split; [by exists tc|].
  eapply stable_trans; [|exact Hst3]. eapply stable_sub; [|exact Hst1]. set_solver.
Qed.

(** [shared_block] carried over to a buffer. *)
Lemma share_yields w b bs rs :
  holds w b bs -> inv w (owned b ++ rs) ->
  exists ob w', share_tls_block w = Some (ob, w') /\ holds w' b bs /\ inv w' (owned b ++ rs) /\
    stable w w' rs /\ ((forall k, malloc_ok k = true) -> is_Some ob) /\
    (forall k, ob = Some k -> exists blk, heap w' !! k = Some blk /\ load k w' = Some (blk, w') /\
       0 < left_space blk).
Proof.
  intros Hh Hi. destruct (share_tls_block_spec w _ Hi) as (ob & w' & Heq & Hi' & Hst & Hall & Hob).
  exists ob, w'. split; [done|]. split; [eapply holds_stable; [exact Hst|set_solver|done]|].
  split; [done|]. split; [eapply stable_sub; [|exact Hst]; set_solver|]. split; [done|].
  intros k ->. destruct (Hob k eq_refl) as (blk & Hk & Hfull & _). exists blk. split; [done|].
  split; [unfold load; by rewrite Hk|]. apply full_ok in Hfull.
  rewrite left_space_ok by (by eapply inv_ok). lia.
Qed.

(** The other order: bytes already written past the size become part of the block,
    then of the buffer. *)
Lemma commit_push_yields w b bs rs k blk src :
  holds w b bs -> inv w (owned b ++ rs) -> heap w !! k = Some blk ->
  0 < len src -> size blk + len src <= cap blk -> 2 * (len bs + len src) < limit ->
  take (Datatypes.length src) (drop (Z.to_nat (size blk)) (data blk)) = src ->
  exists b' w1 w2,
    modify k (set_size (u32 (size blk + len src))) w = Some (tt, w1) /\
    _push_back_ref b (mkRef (size blk) (len src) (Some k)) w1 = Some (b', w2) /\
    holds w2 b' (bs ++ src) /\ inv w2 (owned b' ++ rs) /\ stable w w2 rs.
Proof.
  intros Hh Hi Hk Hpos Hcap Hlim Hd. pose proof (inv_ok _ _ _ _ Hi Hk) as (Hsz & Hc31 & _).
  destruct Hi as (tc & Hi & Hnt).
  destruct (set_size_spec _ tc w _ k blk (size blk + len src) Hi Hk) as (Hset & Hi1 & Hext); [lia|].
  rewrite u32_small by lia. set (w1 := set_heap _ w) in *.
  assert (Hst1 : forall R, stable w w1 R) by (intros R; by eapply stable_update).
  assert (Hk1 : heap w1 !! k = Some (set_size (size blk + len src) blk)) by apply lookup_insert_eq.
  set (r := mkRef (size blk) (len src) (Some k)).
  destruct (push_yields false w1 b bs rs r) as (b' & w2 & Hpush & Hh2 & Hi2 & Hst2).
  - eapply (holds_stable w); [apply Hst1|reflexivity|done].
  - exists tc. split; [|done]. exact Hi1.
  - split_and!; simpl; lia || done.
  - eexists _, _. split; [done|]. split; [exact Hk1|]. simpl. lia.
  - simpl. lia.
  - assert (Hrb : ref_bytes w1 r = src).
    { unfold ref_bytes. cbn [block r]. rewrite Hk1. simpl. rewrite Nat2Z.id. exact Hd. }
    rewrite Hrb in Hh2. exists b', w1, w2. split; [done|]. split; [done|]. split; [done|]. split; [done|].
    eapply stable_trans; [apply Hst1|done].
Qed.

(** The bytes of [data] are appended, or a prefix of them when memory runs out. *)
Definition appended (w : World) (rs : list bid) (res : option ((Z * buffer) * World))
    (bs data : list Z) : Prop :=
  exists rc b' k, yields w rs res (rc, b') b' (bs ++ take k data) /\
    ((forall k, malloc_ok k = true) -> rc = 0) /\
    (rc = 0 /\ k = Datatypes.length data \/ rc = -1 /\ (k < Datatypes.length data)%nat).

Lemma appended_fail w w1 rs b bs src :
  0 < len src -> holds w1 b bs -> inv w1 (owned b ++ rs) -> stable w w1 rs ->
  ((forall k, malloc_ok k = true) -> is_Some (@None bid)) ->
  appended w rs (Some ((-1, b), w1)) bs src.
Proof.
  intros Hpos Hh Hi Hst Hall. exists (-1), b, 0%nat. split; [|split].
  - exists w1. rewrite app_nil_r. done.
  - intros Hm. by destruct (Hall Hm).
  - right. split; [done|lia].
Qed.

Lemma appended_next w w1 rs bs src rest res :
  stable w w1 rs -> appended w1 rs res (bs ++ src) rest -> appended w rs res bs (src ++ rest).
Proof.
  intros Hst (rc & b' & j & (w2 & Heq & Hh & Hi & Hst2) & Hrc & Hj).
  exists rc, b', (Datatypes.length src + j)%nat. split; [|split; [done|]].
  - exists w2. split; [done|]. rewrite take_app_add, app_assoc. split; [done|]. split; [done|].
    by eapply stable_trans.
  - rewrite length_app. lia.
Qed.

Lemma push_back_spec w b bs rs c :
  holds w b bs -> inv w (owned b ++ rs) -> 2 * (len bs + 1) < limit ->
  appended w rs (push_back b c w) bs [c].
Proof.
  intros Hh Hi Hlim. destruct (share_yields w b bs rs Hh Hi) as (ob & w1 & Heq & Hh1 & Hi1 & Hst1 & Hall & Hob).
  unfold push_back, mbind', mret. rewrite Heq. destruct ob as [k|]; [|by apply appended_fail].
  destruct (Hob k eq_refl) as (blk & Hk & Hld & Hroom). rewrite Hld.
  pose proof (inv_ok _ _ _ _ Hi1 Hk) as Hok. rewrite (left_space_ok blk Hok) in Hroom.
  pose proof Hok as (Hsz & Hcap & _). destruct Hi1 as (tc & Hi1 & Hnt).
  destruct (write_at_spec _ tc w1 _ k blk (size blk) [c] Hi1 Hk) as (d & Hwr & Hi2 & Hext2 & Hd & Hd0);
    [lia|simpl; lia|]. rewrite Hwr. set (w2 := set_heap _ w1) in *.
  assert (Hk2 : heap w2 !! k = Some (set_data d blk)) by apply lookup_insert_eq.
  assert (Hst2 : forall R, stable w1 w2 R) by (intros R; by eapply stable_update).
  destruct (commit_push_yields w2 b bs rs k (set_data d blk) [c]) as (b' & w3 & w4 & Hset & Hpush & Hh4 & Hi4 & Hst4);
    [|exists tc; split; [exact Hi2|done]|exact Hk2|simpl; lia|simpl; lia|simpl; lia|exact Hd|].
  { eapply (holds_stable w1); [apply Hst2|reflexivity|done]. }
  simpl in Hset, Hpush. change (Z.of_nat 1) with 1 in Hset, Hpush. rewrite Hset, Hpush. exists 0, b', 1%nat. split; [|split; [done|by left]].
  exists w4. split; [done|]. split; [done|]. split; [done|].
  eapply stable_trans; [exact Hst1|]. eapply stable_trans; [apply Hst2|done].
Qed.

Lemma append_loop_spec fuel w b bs rs src :
  holds w b bs -> inv w (owned b ++ rs) -> 2 * (len bs + len src) < limit ->
  (Datatypes.length src < fuel)%nat -> appended w rs (append_loop fuel b src w) bs src.
Proof.
  revert w b bs src. induction fuel as [|fuel IH]; intros w b bs src Hh Hi Hlim Hf; [lia|].
  destruct src as [|c src].
  { exists 0, b, 0%nat. simpl. rewrite app_nil_r. split; [by apply yields_ret|]. split; [done|by left]. }
  cbn [append_loop]. remember (c :: src) as data eqn:Hdata.
  assert (Hpos : 0 < len data) by (subst; simpl; lia). clear Hdata.
  destruct (share_yields w b bs rs Hh Hi) as (ob & w1 & Heq & Hh1 & Hi1 & Hst1 & Hall & Hob).
  unfold mbind'. rewrite Heq. destruct ob as [k|].
  - destruct (Hob k eq_refl) as (blk & Hk & Hld & Hroom). rewrite Hld.
    pose proof (inv_ok _ _ _ _ Hi1 Hk) as Hok. pose proof (left_space_ok blk Hok) as Hls.
    pose proof Hok as (Hsz & Hcap & _). set (nc := Z.min (len data) (left_space blk)).
    assert (Hnc : len (take (Z.to_nat nc) data) = nc) by (rewrite length_take; lia).
    destruct (fill_push_yields w1 b bs rs k blk (take (Z.to_nat nc) data) Hh1 Hi1 Hk)
      as (b2 & w2 & w3 & w4 & Hwr & Hpush & Hset & Hh4 & Hi4 & Hst4); [lia|lia|].
    rewrite Hnc in Hpush, Hset. rewrite u32_small by lia. rewrite Hwr, Hpush, Hset.
    rewrite <- (take_drop (Z.to_nat nc) data) at 2.
    apply (appended_next w w4); [eapply stable_trans; [exact Hst1|done]|].
    apply IH; [done|done|rewrite length_app, length_drop; lia|rewrite length_drop; lia].
  - by apply appended_fail.
Qed.

(** [append(const void* data, n)]. *)
Lemma append_spec w b bs rs src :
  holds w b bs -> inv w (owned b ++ rs) -> 2 * (len bs + len src) < limit ->
  appended w rs (append b src w) bs src.
Proof.
  intros Hh Hi Hlim. unfold append.
  destruct src as [|c [|c' src]]; [apply append_loop_spec; done || (simpl; lia)|by apply push_back_spec|].
  apply append_loop_spec; [done|done|done|lia].
Qed.

(** The loop of [resize] appends copies of the filling byte. *)
Lemma resize_loop_append fuel b c n :
  0 <= n -> forall w, resize_loop fuel b c n w = append_loop fuel b (replicate (Z.to_nat n) c) w.
Proof.
  revert b n. induction fuel as [|fuel IH]; intros b n Hn w; cbn [resize_loop append_loop].
  - zcase; [by assert (n = 0) as -> by lia|]. by destruct (Z.to_nat n) eqn:?; [lia|].
  - zcase; [by assert (n = 0) as -> by lia|]. destruct (Z.to_nat n) as [|m] eqn:Hm; [lia|].
    cbn [replicate]. rewrite <- replicate_S, <- Hm. rewrite length_replicate, Z2Nat.id by lia.
    unfold mbind'. destruct (share_tls_block w) as [[[k|] w1]|]; [|done|done].
    destruct (load k w1) as [[blk w2]|] eqn:Hld; [|done].
    assert (Hls : 0 <= left_space blk) by apply u32_range.
    rewrite take_replicate, Nat.min_l by lia.
    destruct (write_at _ _ _ _) as [[? w3]|]; [|done].
    destruct (_push_back_ref _ _ _) as [[b2 w4]|]; [|done].
    destruct (modify _ _ _) as [[? w5]|]; [|done].
    rewrite IH by lia. rewrite drop_replicate. do 2 f_equal. lia.
Qed.

(** [resize] cuts the tail or appends the filling byte. *)
Lemma resize_shrink_spec w b bs rs n c :
  holds w b bs -> inv w (owned b ++ rs) -> 0 <= n < len bs ->
  exists b', yields w rs (resize b n c w) (0, b') b' (take (Z.to_nat n) bs).
Proof.
  intros Hh Hi Hn. unfold resize. rewrite (length_holds _ _ _ _ Hi Hh).
  rewrite (proj2 (Z.ltb_lt n (len bs))) by lia.
  destruct (pop_back_yields w b bs rs (len bs - n) Hh Hi) as (b' & w' & Heq & Hrest); [lia|].
  exists b', w'. unfold mbind', mret. rewrite Heq. split; [done|].
  by replace (len bs - (len bs - n)) with n in Hrest by lia.
Qed.
Lemma resize_grow_spec w b bs rs n c :
  holds w b bs -> inv w (owned b ++ rs) -> len bs <= n -> 2 * n < limit ->
  appended w rs (resize b n c w) bs (replicate (Z.to_nat (n - len bs)) c).
Proof.
  intros Hh Hi Hn Hlim. unfold resize. rewrite (length_holds _ _ _ _ Hi Hh).
  rewrite (proj2 (Z.ltb_ge n (len bs))) by lia. rewrite resize_loop_append by lia.
  apply append_loop_spec; [done|done|rewrite length_replicate; lia|rewrite length_replicate; lia].
Qed.

(** The bytes left in a list of vectors from [offset] in the first on. *)
Definition vec_rest (vec : list (list Z)) (offset : Z) : list Z :=
  match vec with [] => [] | v :: vec' => drop (Z.to_nat offset) v ++ mjoin vec' end.
Definition vec_pos (vec : list (list Z)) (offset : Z) : Prop :=
  match vec with [] => True | v :: _ => 0 <= offset <= len v end.

Lemma appendv_fill_spec o tc k blk R vec w d0 offset cp :
  inv_core o tc w R -> heap w !! k = Some (set_data d0 blk) -> block_ok blk ->
  vec_pos vec offset -> 0 <= cp <= cap blk - size blk -> len (vec_rest vec offset) < 2 ^ 31 ->
  let t := take (Z.to_nat (cap blk - size blk - cp)) (vec_rest vec offset) in
  exists vec' offset' d,
    appendv_fill k blk vec offset cp w =
      Some ((vec', offset', cp + len t), set_heap (<[k := set_data d blk]> (heap w)) w) /\
    inv_core o tc (set_heap (<[k := set_data d blk]> (heap w)) w) R /\
    vec_pos vec' offset' /\
    vec_rest vec' offset' = drop (Datatypes.length t) (vec_rest vec offset) /\
    (vec' = [] \/ vec_rest vec' offset' <> []) /\
    take (Z.to_nat (size blk + cp)) d = take (Z.to_nat (size blk + cp)) d0 /\
    take (Datatypes.length t) (drop (Z.to_nat (size blk + cp)) d) = t.
Proof.
  intros Hi Hk Hok. pose proof (left_space_ok blk Hok) as Hls. pose proof Hok as (Hsz & Hcap & _).
  revert w d0 offset cp Hi Hk. induction vec as [|v vec IH]; intros w d0 offset cp Hi Hk Hpos Hcp Hlen t.
  - exists [], offset, d0. unfold t. simpl. rewrite take_nil. simpl. rewrite Z.add_0_r.
    replace (set_heap _ w) with w; [by split_and!; auto|].
    rewrite insert_id by done. by destruct w.
  - cbn [appendv_fill]. simpl in Hpos. simpl vec_rest in *.
    set (q := drop (Z.to_nat offset) v) in *. assert (Hq : len q = len v - offset)
      by (unfold q; rewrite length_drop; lia). rewrite length_app in Hlen.
    rewrite Hls, !u64_small by lia. set (room := cap blk - size blk - cp) in *.
    set (nc := Z.min (len v - offset) room). assert (Hnc : len (take (Z.to_nat nc) q) = nc)
      by (rewrite length_take; lia).
    destruct (write_at_spec o tc w R k _ (size blk + cp) (take (Z.to_nat nc) q) Hi Hk)
      as (d1 & Hwr & Hi1 & _ & Hd1 & Hd1'); [simpl; lia|simpl; lia|].
    unfold mbind'. rewrite Hwr, (u32_small (cp + nc)) by lia. simpl in Hd1'.
    change (set_data d1 (set_data d0 blk)) with (set_data d1 blk) in *.
    set (w1 := set_heap _ w) in *.
    assert (Hk1 : heap w1 !! k = Some (set_data d1 blk)) by apply lookup_insert_eq.
    destruct (Z.eqb_spec (offset + nc) (len v)) as [Hend|Hmore]; cbn [negb].
    + assert (Hvr : vec_rest vec 0 = mjoin vec) by (by destruct vec).
      destruct (IH w1 d1 0 (cp + nc) Hi1 Hk1) as (vec' & off' & d & Heq & Hi2 & Hp2 & Hr2 & Hne & Hd2 & Hd2');
        [destruct vec; simpl; done || lia|lia|rewrite Hvr; lia|]. rewrite Hvr in *.
      replace (take (Z.to_nat nc) q) with q in * by (rewrite take_ge; [done|lia]).
      assert (Ht : t = q ++ take (Z.to_nat (cap blk - size blk - (cp + nc))) (mjoin vec)).
      { unfold t. rewrite take_app_ge by lia. do 2 f_equal. unfold room. lia. }
      exists vec', off', d. rewrite Heq.
      replace (set_heap (<[k:=set_data d blk]> (heap w1)) w1) with (set_heap (<[k:=set_data d blk]> (heap w)) w) in *
        by (simpl; by rewrite insert_insert_eq).
      rewrite Ht, length_app. split; [do 3 f_equal; lia|]. split; [done|]. split; [done|].
      split; [by rewrite drop_app_add|]. split; [done|].
      assert (Hpre : take (Z.to_nat (size blk + cp)) d = take (Z.to_nat (size blk + cp)) d1).
      { apply (f_equal (take (Z.to_nat (size blk + cp)))) in Hd2.
        by rewrite !take_take, !Nat.min_l in Hd2 by lia. }
      split; [by rewrite Hpre|].
      replace (Z.to_nat (size blk + (cp + nc))) with (Z.to_nat (size blk + cp) + Datatypes.length q)%nat in * by lia.
      rewrite <- drop_drop in Hd2'. rewrite <- take_take_drop. f_equal; [|exact Hd2'].
      rewrite <- Hd1 at 2.
      apply (f_equal (drop (Z.to_nat (size blk + cp)))) in Hd2.
      rewrite !skipn_firstn_comm in Hd2.
      by replace (Z.to_nat (size blk + cp) + Datatypes.length q - Z.to_nat (size blk + cp))%nat
        with (Datatypes.length q) in Hd2 by lia.
    + assert (Hncr : nc = room) by lia.
      assert (Ht : t = take (Z.to_nat nc) q) by (unfold t; rewrite take_app_le by lia; by rewrite Hncr).
      exists (v :: vec), (offset + nc), d1. rewrite Ht. split; [by rewrite Hnc|]. split; [done|].
      split; [simpl; lia|]. split.
      { simpl. rewrite drop_app_le by lia. f_equal.
        transitivity (drop (Z.to_nat nc) q); [unfold q; rewrite drop_drop|]; f_equal; lia. }
      split; [|done]. right. simpl. intros Hnil. apply app_eq_nil in Hnil as [Hnil _].
      apply (f_equal Datatypes.length) in Hnil. rewrite length_drop in Hnil. simpl in Hnil. lia.
Qed.

Lemma appendv_loop_spec fuel w b bs rs vec offset :
  holds w b bs -> inv w (owned b ++ rs) -> vec_pos vec offset ->
  (vec = [] \/ vec_rest vec offset <> []) ->
  2 * (len bs + len (vec_rest vec offset)) < limit ->
  (Datatypes.length (vec_rest vec offset) < fuel)%nat ->
  appended w rs (appendv_loop fuel b vec offset w) bs (vec_rest vec offset).
Proof.
  revert w b bs vec offset. induction fuel as [|fuel IH]; intros w b bs vec offset Hh Hi Hp Hne Hlim Hf; [lia|].
  destruct Hne as [->|Hne].
  { exists 0, b, 0%nat. simpl. rewrite app_nil_r. split; [by apply yields_ret|]. split; [done|by left]. }
  destruct vec as [|v vec0]; [done|]. cbn [appendv_loop]. remember (v :: vec0) as vec eqn:Hvec. clear Hvec v vec0.
  assert (Hpos : 0 < len (vec_rest vec offset)) by (destruct (vec_rest vec offset); simpl; done || lia).
  destruct (share_yields w b bs rs Hh Hi) as (ob & w1 & Heq & Hh1 & Hi1 & Hst1 & Hall & Hob).
  unfold mbind' at 1. rewrite Heq. destruct ob as [k|]; [|by apply appended_fail].
  destruct (Hob k eq_refl) as (blk & Hk & Hld & Hroom). unfold mbind' at 1. rewrite Hld.
  pose proof (inv_ok _ _ _ _ Hi1 Hk) as Hok. rewrite (left_space_ok blk Hok) in Hroom.
  pose proof Hok as (Hsz & Hcap & _). unfold limit in *. destruct Hi1 as (tc & Hi1 & Hnt).
  destruct (appendv_fill_spec (block_head w1) tc k blk (owned b ++ rs) vec w1 (data blk) offset 0)
    as (vec' & off' & d & Hfill & Hi2 & Hp' & Hrest & Hne' & Hd0 & Hd); try done; [by destruct blk|lia|lia|].
  set (t := take _ (vec_rest vec offset)) in *. set (w2 := set_heap _ w1) in *.
  rewrite Z.add_0_r in Hd, Hd0. rewrite Z.add_0_l in Hfill.
  assert (Ht : 0 < len t) by (unfold t; rewrite length_take; lia).
  assert (Htl : len t <= len (vec_rest vec offset)) by (unfold t; rewrite length_take; lia).
  assert (Htc : size blk + len t <= cap blk) by (unfold t; rewrite length_take; lia).
  unfold mbind' at 1. rewrite Hfill.
  assert (Hk2 : heap w2 !! k = Some (set_data d blk)) by apply lookup_insert_eq.
  assert (Hext : block_ext blk (set_data d blk)) by (split_and!; done).
  assert (Hst2 : forall R, stable w1 w2 R) by (intros R; by eapply stable_update).
  destruct (commit_push_yields w2 b bs rs k (set_data d blk) t) as (b' & w3 & w4 & Hset & Hpush & Hh4 & Hi4 & Hst4);
    [|exists tc; split; [exact Hi2|done]|exact Hk2|done|simpl; lia|unfold limit; lia|exact Hd|].
  { eapply (holds_stable w1); [apply Hst2|reflexivity|done]. }
  simpl in Hset, Hpush. unfold mbind'. rewrite Hset, Hpush. cbn [fst snd].
  assert (Hsplit : vec_rest vec offset = t ++ vec_rest vec' off').
  { rewrite Hrest. unfold t. rewrite length_take. rewrite <- (take_drop (Z.to_nat (cap blk - size blk - 0)) (vec_rest vec offset)) at 1.
    f_equal. destruct (decide (Z.to_nat (cap blk - size blk - 0) <= Datatypes.length (vec_rest vec offset))%nat).
    - by rewrite Nat.min_l by lia.
    - rewrite !drop_ge by lia. done. }
  rewrite Hsplit in *. rewrite length_app in *.
  apply (appended_next w w4).
  { eapply stable_trans; [exact Hst1|]. eapply stable_trans; [apply Hst2|done]. }
  apply IH; try done; rewrite ?length_app; unfold limit; lia.
Qed.

(** [appendv] appends the concatenation, when there is anything to append. *)
Lemma appendv_spec w b bs rs vec :
  holds w b bs -> inv w (owned b ++ rs) -> (vec = [] \/ mjoin vec <> []) ->
  2 * (len bs + len (mjoin vec)) < limit -> appended w rs (appendv b vec w) bs (mjoin vec).
Proof.
  intros Hh Hi Hne Hlim. unfold appendv.
  assert (Hvr : vec_rest vec 0 = mjoin vec) by (by destruct vec).
  rewrite <- Hvr in *. apply appendv_loop_spec; try done; [destruct vec; simpl; done || lia|lia].
Qed.

(** [append_user_data] adds the user's memory without copying. *)
Lemma append_user_data_spec w b bs rs data meta :
  holds w b bs -> inv w (owned b ++ rs) -> 2 * (len bs + len data) < limit ->
  exists rc b', yields w rs (append_user_data_with_meta b data meta w)
      (rc, bool_decide (data = []), b') b' (bs ++ if rc =? 0 then data else []) /\
    ((forall k, malloc_ok k = true) -> rc = 0) /\ (rc = 0 \/ rc = -1).
Proof.
  intros Hh Hi Hlim. unfold append_user_data_with_meta, limit in *.
  rewrite (proj2 (Z.ltb_ge _ _)) by lia. destruct (Z.eqb_spec (len data) 0) as [H0|Hpos].
  { destruct data; [|simpl in H0; lia]. exists 0, b. simpl. rewrite app_nil_r.
    split; [by apply yields_ret|]. split; [done|by left]. }
  rewrite bool_decide_eq_false_2 by (by intros ->). unfold mbind', mget, mmod, mret.
  destruct Hi as (tc & Hi & Hnt). destruct (malloc_ok (next_bid w)) eqn:Hm.
  - set (blk := mkBlock 1 _ _ _ _ _). destruct (inv_alloc _ tc w _ blk Hi) as (Hi' & Hst & Hnew); [|done|].
    { split; [simpl; lia|]. split; [simpl; lia|]. done. }
    set (w1 := set_heap _ _) in *. set (r := mkRef 0 (len data) (Some (next_bid w))).
    assert (Hk : heap w1 !! next_bid w = Some blk) by apply lookup_insert_eq.
    destruct (push_yields true w1 b bs rs r) as (b' & w2 & Hpush & Hh2 & Hi2 & Hst2).
    + eapply holds_stable; [exact Hst|set_solver|done].
    + exists tc. split; [exact Hi'|done].
    + split_and!; simpl; lia || done.
    + eexists _, _. split; [done|]. split; [exact Hk|]. simpl. lia.
    + simpl. unfold limit. lia.
    + assert (Hrb : ref_bytes w1 r = data).
      { unfold ref_bytes. cbn [block r]. rewrite Hk. simpl. rewrite Nat2Z.id, take_ge; done. }
      rewrite Hrb in Hh2. exists 0, b'. split; [|split; [done|by left]]. exists w2.
      unfold _move_back_ref. change (set_heap (<[next_bid w:=blk]> (heap (bump_next w))) (bump_next w)) with w1.
      rewrite Hpush. split; [done|]. split; [done|]. split; [done|].
      eapply stable_trans; [|exact Hst2]. eapply stable_sub; [|exact Hst]. set_solver.
  - exists (-1), b. split; [|split; [|by right]].
    + exists (bump_next w). rewrite app_nil_r. split; [done|].
      assert (Hst : forall R, stable w (bump_next w) R) by (intros R; by apply stable_heap).
      split; [by eapply (holds_stable w); [apply Hst|reflexivity|]|]. split; [|apply Hst].
      exists tc. split; [by apply inv_bump|done].
    + intros Hall. by rewrite Hall in Hm.
Qed.
End Filling.

(** *** Sharing references with another buffer *)

Lemma ids_drop_sub i l : ids (drop i l) ⊆ ids l.
Proof. rewrite <- (take_drop i l) at 2. rewrite ids_app. set_solver. Qed.
Lemma valid_drop w i l : valid w l -> valid w (drop i l).
Proof. apply Forall_drop. Qed.

Lemma append_refs_spec w b bs other ob rs k i :
  holds w b bs -> holds w other ob -> inv w (owned b ++ rs) -> owned other ⊆ rs ->
  0 <= i -> i + Z.of_nat k = len (view_list other) ->
  2 * (len bs + len (bytes w (drop (Z.to_nat i) (view_list other)))) < limit ->
  exists b', yields w rs (append_refs b other k i w) b' b'
               (bs ++ bytes w (drop (Z.to_nat i) (view_list other))).
Proof.
  revert w b bs i. induction k as [|k IH]; intros w b bs i Hh Ho Hi Hsub Hi0 Hk Hlim.
  - exists b. rewrite drop_ge by lia. change (bytes w []) with (@nil Z). rewrite app_nil_r.
    by apply yields_ret.
  - destruct (ref_at_holds w other ob _ Ho Hi i) as (r & Hat & Hlk & Hs & Hok & Hlen & Hby); [lia|].
    rewrite Hby in *. rewrite length_app in Hlim. cbn [append_refs]. unfold mbind'. rewrite Hat.
    destruct (push_yields false w b bs rs r Hh Hi Hs Hok) as (b1 & w1 & Heq & Hh1 & Hi1 & Hst1); [lia|].
    unfold _push_back_ref. rewrite Heq.
    assert (Hb1 : bytes w1 (drop (Z.to_nat (i + 1)) (view_list other)) =
                  bytes w (drop (Z.to_nat (i + 1)) (view_list other))).
    { eapply valid_stable; [exact Hst1|etransitivity; [apply ids_drop_sub|exact Hsub]|].
      apply valid_drop, Ho. }
    destruct (IH w1 b1 (bs ++ ref_bytes w r) (i + 1)) as (b2 & w2 & Heq2 & Hh2 & Hi2 & Hst2);
      [done|by eapply holds_stable|done|done|lia|lia|rewrite Hb1, length_app; lia|].
    exists b2, w2. rewrite Hb1, <- app_assoc in Hh2. split; [done|]. split; [done|]. split; [done|].
    by eapply stable_trans.
Qed.

(** [append(const IOBuf&)] shares the references of [other]. *)
Lemma append_buf_yields w b bs other ob rs :
  holds w b bs -> holds w other ob -> inv w (owned b ++ rs) -> owned other ⊆ rs ->
  2 * (len bs + len ob) < limit ->
  exists b', yields w rs (append_buf b other w) b' b' (bs ++ ob).
Proof.
  intros Hh Ho Hi Hsub Hlim. unfold append_buf. pose proof Ho as (Hr & _ & Hb).
  rewrite (ref_num_spec _ _ Hr).
  destruct (append_refs_spec w b bs other ob rs (Z.to_nat (len (view_list other))) 0) as (b' & Hy);
    [done|done|done|done|lia|lia|simpl; rewrite drop_0, Hb; lia|].
  exists b'. simpl in Hy. by rewrite drop_0, Hb in Hy.
Qed.

Lemma move_refs_spec w b bs other l rs k i :
  holds w b bs -> repr other l -> valid w (drop (Z.to_nat i) l) ->
  inv w (ids (drop (Z.to_nat i) l) ++ owned b ++ rs) ->
  0 <= i -> i + Z.of_nat k = len l -> 2 * (len bs + len (bytes w (drop (Z.to_nat i) l))) < limit ->
  exists b', yields w rs (move_refs b other k i w) b' b' (bs ++ bytes w (drop (Z.to_nat i) l)).
Proof.
  revert w b bs i. induction k as [|k IH]; intros w b bs i Hh Hr Hv Hi Hi0 Hk Hlim.
  - exists b. rewrite drop_ge in * by lia. change (bytes w []) with (@nil Z). rewrite app_nil_r.
    by apply yields_ret.
  - destruct (lookup_lt_is_Some_2 l (Z.to_nat i)) as [r Hlk]; [lia|].
    pose proof (Forall_lookup_1 _ _ _ _ (repr_shape _ _ Hr) Hlk) as Hs.
    rewrite (drop_S l r _ Hlk) in *. replace (S (Z.to_nat i)) with (Z.to_nat (i + 1)) in * by lia.
    apply Forall_cons in Hv as [Hok Hv]. rewrite bytes_cons, length_app in Hlim.
    rewrite ids_cons in Hi. cbn [move_refs]. unfold mbind', ref_at, mlift.
    rewrite (ref_at_spec _ _ Hr i), Hlk by lia. cbn [fmap option_fmap option_map].
    assert (Hrl : len (ref_bytes w r) = length r)
      by (apply ref_bytes_len; [done|]; intros; by eapply inv_ok).
    destruct (push_yields true w b bs (ids (drop (Z.to_nat (i + 1)) l) ++ rs) r Hh)
      as (b1 & w1 & Heq & Hh1 & Hi1 & Hst1); [|done|done|lia|].
    { eapply inv_sub_perm; [|exact Hi]. intros x. rewrite !cnt_app. lia. }
    unfold _move_back_ref. rewrite Heq.
    destruct (valid_stable w w1 (drop (Z.to_nat (i + 1)) l) _ Hst1) as [Hv1 Hb1]; [set_solver|done|].
    destruct (IH w1 b1 (bs ++ ref_bytes w r) (i + 1)) as (b2 & w2 & Heq2 & Hh2 & Hi2 & Hst2);
      [done|done|done| |lia|lia|rewrite Hb1, length_app; lia|].
    { eapply inv_sub_perm; [|exact Hi1]. intros x. rewrite !cnt_app. lia. }
    exists b2, w2. rewrite Hb1, <- app_assoc in Hh2. split; [done|]. split; [done|]. split; [done|].
    eapply stable_trans; [|exact Hst2]. eapply stable_sub; [|exact Hst1]. set_solver.
Qed.

(** [append(Movable)] empties [other] into the buffer. *)
Lemma append_movable_spec w b bs other ob rs :
  holds w b bs -> holds w other ob -> inv w (owned b ++ owned other ++ rs) ->
  2 * (len bs + len ob) < limit ->
  exists b', yields w rs (append_movable b other w) (b', IOBuf_empty) b' (bs ++ ob).
Proof.
  intros Hh Ho Hi Hlim. unfold append_movable. pose proof Hh as (Hr & _ & Hb).
  rewrite (empty_spec b _ Hr). case_bool_decide as Hnil.
  - rewrite Hnil in Hb. subst bs. exists other. simpl.
    assert (b = IOBuf_empty) as ->.
    { rewrite Hnil in Hr. rewrite (repr_small _ _ Hr) by (simpl; lia). done. }
    by apply yields_ret.
  - pose proof Ho as (Hro & Hvo & Hbo). rewrite (ref_num_spec _ _ Hro).
    destruct (move_refs_spec w b bs other (view_list other) rs (Z.to_nat (len (view_list other))) 0)
      as (b' & w' & Heq & Hrest); [done|done|by rewrite drop_0| |lia|lia|simpl; rewrite drop_0, Hbo; lia|].
    { simpl. rewrite drop_0. eapply inv_sub_perm; [|exact Hi]. intros x. rewrite !cnt_app.
      unfold owned. lia. }
    simpl in Hrest. rewrite drop_0, Hbo in Hrest. exists b', w'. unfold mbind', mret. by rewrite Heq.
Qed.

Lemma append_to_loop_spec w b bs buf ob rs k m off i :
  holds w b bs -> holds w buf ob -> inv w (owned buf ++ rs) -> owned b ⊆ rs ->
  0 <= m -> 0 <= off -> 0 <= i -> i + Z.of_nat k = len (view_list b) ->
  (forall r, view_list b !! Z.to_nat i = Some r -> off < length r) ->
  let t := take (Z.to_nat m) (drop (Z.to_nat off) (bytes w (drop (Z.to_nat i) (view_list b)))) in
  2 * (len ob + len t) < limit ->
  exists buf', yields w rs (append_to_loop b buf k m off i w) (m - len t, buf') buf' (ob ++ t).
Proof.
  revert w buf ob m off i.
  induction k as [|k IH]; intros w buf ob m off i Hh Ho Hi Hsub Hm Hoff Hi0 Hk Hlast t Hlim; cbn [append_to_loop].
  - assert (t = []) as ->.
    { unfold t. rewrite (drop_ge (view_list b)) by lia. change (bytes w []) with (@nil Z).
      by rewrite drop_nil, take_nil. }
    exists buf. rewrite app_nil_r. simpl. rewrite Z.sub_0_r.
    destruct (Z.eqb_spec m 0); by apply yields_ret.
  - destruct (ref_at_holds w b bs _ Hh Hi i) as (r & Hat & Hlk & Hs & Hok & Hlen & Hby); [lia|].
    pose proof Hs as (Hs1 & Hs2 & Hs3 & _). specialize (Hlast r Hlk).
    destruct (Z.eqb_spec m 0) as [->|Hm0].
    { exists buf. unfold t. simpl. rewrite app_nil_r. by apply yields_ret. }
    unfold mbind'. rewrite Hat, u64_small by lia. set (nc := Z.min m (length r - off)).
    assert (Hnc : 0 < nc <= length r - off) by lia. rewrite !u32_small by lia.
    destruct (ref_skip_spec w r off Hs Hok) as (Hs' & Hl' & Hok' & Hb' & Hby'); [lia|].
    destruct (ref_prefix_spec w (ref_skip r off) nc Hs' Hok') as (Hsp & Hokp & Hbyp); [lia|].
    assert (Hskip : offset (ref_skip r off) = offset r + off) by (simpl; rewrite u32_small; lia).
    rewrite Hskip, Hb' in Hsp, Hokp, Hbyp. rewrite Hby' in Hbyp. set (r2 := mkRef (offset r + off) nc (block r)) in *.
    set (q := drop (Z.to_nat off) (ref_bytes w r)) in *.
    assert (Hq : len q = length r - off) by (unfold q; rewrite length_drop; lia).
    set (rest := drop (Z.to_nat (i + 1)) (view_list b)) in *.
    assert (Ht : t = take (Z.to_nat nc) q ++ take (Z.to_nat (m - nc)) (bytes w rest)).
    { unfold t. rewrite Hby, (drop_app_le (ref_bytes w r)) by lia. fold q. destruct (decide (m <= len q)).
      - replace nc with m by lia. rewrite Z.sub_diag. simpl. rewrite app_nil_r, take_app_le by lia. done.
      - rewrite take_app_ge by lia. rewrite (take_ge q) by lia. do 2 f_equal. lia. }
    assert (Hr2l : len (ref_bytes w r2) = nc) by (rewrite Hbyp, length_take; lia).
    destruct (push_yields false w buf ob rs r2 Ho Hi Hsp Hokp) as (b1 & w1 & Heq & Hh1 & Hi1 & Hst1).
    { simpl. rewrite Ht, length_app, <- Hbyp in Hlim. lia. }
    unfold _push_back_ref. rewrite Heq.
    assert (Hb1 : bytes w1 rest = bytes w rest).
    { eapply valid_stable; [exact Hst1|etransitivity; [apply ids_drop_sub|exact Hsub]|]. apply valid_drop, Hh. }
    destruct (IH w1 b1 (ob ++ ref_bytes w r2) (m - nc) 0 (i + 1)) as (b2 & w2 & Heq2 & Hh2 & Hi2 & Hst2);
      [by eapply holds_stable|done|done|done|lia|lia|lia|lia| | |].
    { intros r' Hr'. pose proof Hh as (Hrb & _).
      destruct (Forall_lookup_1 _ _ _ _ (repr_shape _ _ Hrb) Hr') as (_ & ? & _). lia. }
    { fold rest. rewrite Hb1. simpl. rewrite drop_0.
      rewrite Ht, length_app, <- Hbyp in Hlim. rewrite length_app. lia. }
    fold rest in Heq2, Hh2. rewrite Hb1 in Heq2, Hh2. simpl in Heq2, Hh2. rewrite drop_0 in Heq2, Hh2.
    exists b2, w2. rewrite Heq2, Ht, app_assoc, length_app, <- Hbyp. split; [do 3 f_equal; lia|].
    split; [done|]. split; [done|]. by eapply stable_trans.
Qed.

(** [append_to] shares up to [n] bytes from position [pos] with another buffer. *)
Lemma append_to_yields w b bs buf ob rs n pos :
  holds w b bs -> holds w buf ob -> inv w (owned buf ++ rs) -> owned b ⊆ rs ->
  0 <= n -> 0 <= pos ->
  let t := take (Z.to_nat n) (drop (Z.to_nat pos) bs) in
  2 * (len ob + len t) < limit ->
  exists buf', yields w rs (append_to b buf n pos w) (len t, buf') buf' (ob ++ t).
Proof.
  intros Hh Ho Hi Hsub Hn Hp t Hlim. unfold append_to. rewrite (read_nref w b bs Hh).
  destruct (skip_pos_spec w b bs _ Hh Hi (Z.to_nat (len (view_list b))) pos 0)
    as (off & i' & Heq & ? & ? & Hdrop & Hlast); [lia|lia|lia|].
  simpl in Hdrop. rewrite drop_0 in Hdrop.
  assert (Hbs : bytes w (view_list b) = bs) by apply Hh. rewrite Hbs in Hdrop.
  destruct (append_to_loop_spec w b bs buf ob rs (Z.to_nat (len (view_list b) - i')) n off i')
    as (buf' & w' & Heq2 & Hrest); try done; [lia|lia|by rewrite <- Hdrop|].
  rewrite <- Hdrop in Heq2, Hrest. exists buf', w'. unfold mbind', mret. rewrite Heq, Heq2.
  split; [|done]. do 3 f_equal. unfold t. lia.
Qed.

(** *** Copies *)
Lemma copy_yields w b bs rs : holds w b bs -> inv w rs -> owned b ⊆ rs ->
  exists b', yields w rs (IOBuf_copy b w) b' b' bs.
Proof.
  intros (Hr & Hv & <-) (tc & Hi & Hn) Hsub.
  destruct (copy_spec b _ (block_head w) tc w rs Hr Hi Hsub) as (b' & Hbec).
  exists b'. by eapply (became_yields w tc).
Qed.
Lemma assign_yields w b bs rhs bs2 rs :
  holds w b bs -> holds w rhs bs2 -> inv w (owned b ++ rs) -> owned rhs ⊆ rs ->
  exists b', yields w rs (assign b rhs w) b' b' bs2.
Proof.
  intros (Hr & _) (Hr2 & Hv2 & <-) (tc & Hi & Hn) Hsub.
  destruct (assign_spec b _ rhs _ (block_head w) tc w rs Hr Hr2 Hi Hsub) as (b' & Hbec).
  exists b'. by eapply (became_yields w tc).
Qed.

End IOBuf.
