(* ===== verification/IOBufSearch.v ===== *)
(** * Cutting an IOBuf at a delimiter (butil/iobuf.cpp: _cut_by_char, _cut_by_delim)

    [_cut_by_char] compares bytes; [_cut_by_delim] packs the last [ndelim] bytes
    into an unsigned long and compares that with the packed delimiter.  The
    packing goes through (signed) char, so a byte of 0x80 or more sets all the
    higher bits.  The lemmas show that the search is nevertheless right for
    delimiters of bytes 1..127, and the last theorems what happens for others. *)
From stdpp Require Import base list gmap.
From Stdlib Require Import ZArith Lia Bool.
From S2P Require Import Prelude IOBufBlock IOBufView IOBuf.

Open Scope Z_scope.
Open Scope m_scope.

Module IOBufSearch.
Import Block View IOBuf.

(** ** Searching for one byte *)

(** The first position of [d]. *)
Fixpoint find_byte (d : Z) (bs : list Z) : option nat :=
  match bs with
  | [] => None
  | c :: bs' => if c =? d then Some 0%nat else S <$> find_byte d bs'
  end.

Lemma i8_inj c d : is_byte c -> is_byte d -> i8 c = i8 d <-> c = d.
Proof.
  unfold is_byte, i8. intros Hc Hd. split; [|by intros ->]. intros H.
  assert (Hm : (c + 2 ^ 7) mod 2 ^ 8 = (d + 2 ^ 7) mod 2 ^ 8) by lia.
  pose proof (Z.div_mod (c + 2 ^ 7) (2 ^ 8)). pose proof (Z.div_mod (d + 2 ^ 7) (2 ^ 8)).
  assert (0 <= (c + 2 ^ 7) / 2 ^ 8 < 2) by (split; [apply Z.div_pos|apply Z.div_lt_upper_bound]; lia).
  assert (0 <= (d + 2 ^ 7) / 2 ^ 8 < 2) by (split; [apply Z.div_pos|apply Z.div_lt_upper_bound]; lia).
  lia.
Qed.

Lemma scan_char_spec d s n : Forall is_byte s -> is_byte d ->
  scan_char d s n = match find_byte d s with
                    | Some p => inl (n + Z.of_nat p)
                    | None => inr (n + len s)
                    end.
Proof.
  intros Hs Hd. revert n. induction Hs as [|c s Hc Hs IH]; intros n; simpl; [by rewrite Z.add_0_r|].
  destruct (Z.eqb_spec (i8 c) (i8 d)) as [E|E].
  - apply i8_inj in E as ->; [|done|done]. rewrite Z.eqb_refl. by rewrite Z.add_0_r.
  - destruct (Z.eqb_spec c d) as [->|_]; [done|]. rewrite IH.
    destruct (find_byte d s); simpl; f_equal; lia.
Qed.

Lemma find_byte_app d s1 s2 :
  find_byte d (s1 ++ s2) = match find_byte d s1 with
                           | Some p => Some p
                           | None => (fun p => (Datatypes.length s1 + p)%nat) <$> find_byte d s2
                           end.
Proof.
  induction s1 as [|c s1 IH]; simpl; [by destruct (find_byte d s2)|].
  destruct (c =? d); [done|]. rewrite IH. destruct (find_byte d s1); [done|]. by destruct (find_byte d s2).
Qed.
Lemma find_byte_lt d s p : find_byte d s = Some p -> (p < Datatypes.length s)%nat.
Proof.
  revert p. induction s as [|c s IH]; intros p; simpl; [done|].
  destruct (c =? d); [intros [= <-]; lia|]. destruct (find_byte d s) as [q|]; [|done].
  intros [= <-]. specialize (IH q eq_refl). lia.
Qed.

Section Search.
Context (w : World) (b : buffer) (bs : list Z) (rs : list bid).
Context (Hh : holds w b bs) (Hi : inv w rs).

Lemma find_char_spec d k i n :
  is_byte d -> Forall is_byte (bytes w (drop (Z.to_nat i) (view_list b))) ->
  0 <= i -> i + Z.of_nat k = len (view_list b) ->
  find_char b d k i n w =
    Some ((fun p => n + Z.of_nat p) <$> find_byte d (bytes w (drop (Z.to_nat i) (view_list b))), w).
Proof.
  intros Hd. revert i n. induction k as [|k IH]; intros i n Hby Hi0 Hk; cbn [find_char].
  - by rewrite drop_ge by lia.
  - destruct (ref_at_holds w b bs rs Hh Hi i) as (r & Hat & Hlk & _ & Hok & Hlen & Heq); [lia|].
    rewrite Heq in *. apply Forall_app in Hby as [Hb1 Hb2]. unfold mbind'.
    rewrite Hat, (read_ref_all w r rs Hi Hok), (scan_char_spec d _ n Hb1 Hd), find_byte_app.
    destruct (find_byte d (ref_bytes w r)) as [p|]; [done|].
    rewrite IH by (done || lia). do 2 f_equal.
    destruct (find_byte d (bytes w _)); simpl; f_equal. lia.
Qed.
End Search.

(** The outcome of cutting at position [p] with a delimiter of [nd] bytes. *)
Definition cut_at (w : World) (rs : list bid) (res : option ((Z * buffer * buffer) * World))
    (bs os : list Z) (pos : option nat) (nd : nat) : Prop :=
  exists rc b' out' w', res = Some ((rc, b', out'), w') /\
    inv w' (owned b' ++ owned out' ++ rs) /\ stable w w' rs /\
    match pos with
    | Some p => rc = 0 /\ holds w' b' (drop (p + nd) bs) /\ holds w' out' (os ++ take p bs)
    | None => rc = -1 /\ holds w' b' bs /\ holds w' out' os
    end.

(** The tail of both searches: [cutn] up to the match, then drop the delimiter. *)
Lemma cut_and_pop w b out bs os rs p nd :
  holds w b bs -> holds w out os -> inv w (owned b ++ owned out ++ rs) ->
  2 * (len os + len bs) < limit -> (p + nd <= Datatypes.length bs)%nat ->
  cut_at w rs ((let* (res, out') := cutn b out (Z.of_nat p) in
                let* (_, b') := pop_front res.2 (Z.of_nat nd) in mret (0, b', out')) w)
    bs os (Some p) nd.
Proof.
  intros Hh Ho Hi Hlim Hp.
  destruct (cutn_spec w b out bs os rs (Z.of_nat p) Hh Ho Hi) as (b1 & out1 & w1 & Heq & Hb1 & Ho1 & Hi1 & Hst1);
    [lia|lia|]. rewrite Nat2Z.id in Hb1, Ho1.
  destruct (pop_front_yields w1 b1 _ (owned out1 ++ rs) (Z.of_nat nd) Hb1 Hi1)
    as (b2 & w2 & Heq2 & Hb2 & Hi2 & Hst2); [lia|]. rewrite Nat2Z.id, drop_drop in Hb2.
  exists 0, b2, out1, w2. unfold mbind', mret. rewrite Heq. cbn [snd]. rewrite Heq2. split; [done|].
  split; [done|]. split.
  { eapply stable_trans; [exact Hst1|]. eapply stable_sub; [|exact Hst2]. set_solver. }
  split; [done|]. split; [done|]. eapply holds_stable; [exact Hst2|set_solver|done].
Qed.

Lemma cut_by_char_spec w b out bs os rs d :
  holds w b bs -> holds w out os -> inv w (owned b ++ owned out ++ rs) ->
  2 * (len os + len bs) < limit -> Forall is_byte bs -> is_byte d ->
  cut_at w rs (_cut_by_char b out d w) bs os (find_byte d bs) 1.
Proof.
  intros Hh Ho Hi Hlim Hbs Hd. unfold _cut_by_char. pose proof Hh as (Hr & _ & Hb).
  rewrite (ref_num_spec b _ Hr). unfold mbind' at 1.
  rewrite (find_char_spec w b bs _ Hh Hi) by (simpl; rewrite ?drop_0, ?Hb; done || lia).
  simpl. rewrite drop_0, Hb. destruct (find_byte d bs) as [p|] eqn:Hf; simpl.
  - apply (cut_and_pop w b out bs os rs p 1 Hh Ho Hi Hlim). apply find_byte_lt in Hf. lia.
  - exists (-1), b, out, w. split; [done|]. split; [done|]. split; [apply stable_refl|done].
Qed.

(** ** Searching for a packed delimiter *)

(** The big-endian number of a list of bytes. *)
Definition val (q : list Z) : Z := foldl (fun v c => v * 256 + c) 0 q.

Lemma val_snoc q c : val (q ++ [c]) = val q * 256 + c.
Proof. unfold val. by rewrite foldl_app. Qed.
Lemma val_cons c q : val (c :: q) = c * 256 ^ len q + val q.
Proof.
  induction q as [|x q IH] using rev_ind; [unfold val; simpl; lia|].
  change (c :: q ++ [x]) with ((c :: q) ++ [x]). rewrite !val_snoc, IH, length_app.
  rewrite Nat2Z.inj_add, Z.pow_add_r by lia. simpl. lia.
Qed.
Lemma val_range q : Forall is_byte q -> 0 <= val q < 256 ^ len q.
Proof.
  induction q as [|x q IH] using rev_ind; [unfold val; simpl; lia|].
  intros [Hq [Hx _]%Forall_cons]%Forall_app. specialize (IH Hq). unfold is_byte in Hx.
  rewrite val_snoc, length_app, Nat2Z.inj_add, Z.pow_add_r by lia. simpl. lia.
Qed.
Lemma val_inj q1 q2 : Datatypes.length q1 = Datatypes.length q2 -> Forall is_byte q1 -> Forall is_byte q2 ->
  val q1 = val q2 -> q1 = q2.
Proof.
  revert q2. induction q1 as [|x q1 IH] using rev_ind; intros q2 Hlen H1 H2 Hv.
  - by destruct q2.
  - destruct q2 as [|y q2 _] using rev_ind; [rewrite length_app in Hlen; simpl in Hlen; lia|].
    rewrite !length_app in Hlen. simpl in Hlen. rewrite !val_snoc in Hv.
    apply Forall_app in H1 as [H1 [Hx _]%Forall_cons], H2 as [H2 [Hy _]%Forall_cons].
    unfold is_byte in *. assert (x = y) as -> by lia. f_equal. apply IH; (done || lia).
Qed.

Lemma low_bits c n : 0 <= c < 256 -> 8 <= n -> Z.testbit c n = false.
Proof.
  intros Hc Hn. destruct (decide (c = 0)) as [->|]; [apply Z.bits_0|].
  apply Z.bits_above_log2; [lia|]. apply Z.lt_le_trans with 8; [|done]. apply Z.log2_lt_pow2; lia.
Qed.
Lemma lor_shift z c : 0 <= c < 256 -> Z.lor (Z.shiftl z 8) c = z * 256 + c.
Proof.
  intros Hc. assert (Hland : Z.land (Z.shiftl z 8) c = 0).
  { apply Z.bits_inj'. intros n Hn. rewrite Z.land_spec, Z.bits_0.
    destruct (Z.lt_ge_cases n 8); [by rewrite Z.shiftl_spec_low|].
    by rewrite (low_bits c n), andb_false_r. }
  rewrite <- Z.lxor_lor, <- Z.add_nocarry_lxor by done. rewrite Z.shiftl_mul_pow2; lia.
Qed.

(** One step of the signature, by the sign of the byte. *)
Lemma sig_step_low v c : 0 <= v -> 0 <= c < 128 -> sig_step v c = (v * 256) mod 2 ^ 64 + c.
Proof.
  intros Hv Hc. unfold sig_step, sig_of, i8. rewrite (Z.mod_small (c + 2 ^ 7)) by lia.
  replace (c + 2 ^ 7 - 2 ^ 7) with c by lia. rewrite (u64_small c) by lia.
  assert (Hs : u64 (Z.shiftl v 8) = Z.shiftl (v mod 2 ^ 56) 8).
  { unfold u64. rewrite !Z.shiftl_mul_pow2 by lia. change (2 ^ 64) with (2 ^ 56 * 2 ^ 8).
    by rewrite Z.mul_mod_distr_r by lia. }
  rewrite Hs, lor_shift by lia. f_equal. change (2 ^ 64) with (2 ^ 56 * 256).
  by rewrite Z.mul_mod_distr_r by lia.
Qed.
Lemma sig_step_high v c : 0 <= v -> 128 <= c < 256 -> sig_step v c = 2 ^ 64 - 256 + c.
Proof.
  intros Hv Hc. unfold sig_step, sig_of.
  assert (Hi : i8 c = c - 256).
  { unfold i8. replace (c + 2 ^ 7) with (c - 128 + 1 * 2 ^ 8) by lia.
    rewrite Z.mod_add, Z.mod_small by lia. lia. }
  assert (Hu : u64 (i8 c) = Z.lor (Z.shiftl (Z.ones 56) 8) c).
  { rewrite Hi, lor_shift by lia. unfold u64. change (Z.ones 56) with (2 ^ 56 - 1). symmetry.
    apply (Z.mod_unique _ _ (-1)); [left|]; lia. }
  assert (Hs : u64 (Z.shiftl v 8) = Z.shiftl (v mod 2 ^ 56) 8).
  { unfold u64. rewrite !Z.shiftl_mul_pow2 by lia. change (2 ^ 64) with (2 ^ 56 * 2 ^ 8).
    by rewrite Z.mul_mod_distr_r by lia. }
  rewrite Hu, Hs, Z.lor_assoc, <- Z.shiftl_lor.
  pose proof (Z.mod_pos_bound v (2 ^ 56)) as Hm.
  rewrite Z.lor_ones_low.
  - rewrite lor_shift by lia. change (Z.ones 56) with (2 ^ 56 - 1). lia.
  - lia.
  - destruct (decide (v mod 2 ^ 56 = 0)) as [->|]; [cbn; lia|]. apply Z.log2_lt_pow2; lia.
Qed.

(** What the signature remembers of a window of bytes: a byte of 0x80 or more
    overwrites everything before it by 0xFF. *)
Definition high (c : Z) : bool := 128 <=? c.
Fixpoint smear (q : list Z) : list Z :=
  match q with
  | [] => []
  | c :: q' => (if existsb high q' then 255 else c) :: smear q'
  end.
Definition ascii (c : Z) : Prop := 0 < c < 128.

Lemma smear_length q : Datatypes.length (smear q) = Datatypes.length q.
Proof. induction q; simpl; auto. Qed.
Lemma smear_bytes q : Forall is_byte q -> Forall is_byte (smear q).
Proof. induction 1 as [|c q Hc]; simpl; constructor; [|done]. destruct (existsb high q); [done|exact Hc]. Qed.
Lemma smear_low q c : c < 128 -> smear (q ++ [c]) = smear q ++ [c].
Proof.
  intros Hc. induction q as [|x q IH]; simpl; [done|]. rewrite IH, existsb_app. simpl.
  unfold high at 2. rewrite (proj2 (Z.leb_gt 128 c)) by lia. by rewrite !orb_false_r.
Qed.
Lemma smear_high q c : 128 <= c -> smear (q ++ [c]) = replicate (Datatypes.length q) 255 ++ [c].
Proof.
  intros Hc. induction q as [|x q IH]; simpl; [done|]. rewrite IH, existsb_app. simpl.
  unfold high at 2. rewrite (proj2 (Z.leb_le 128 c)) by lia. by rewrite orb_true_r.
Qed.
(** The smeared window equals an ASCII delimiter only when the window does. *)
Lemma smear_ascii q delim : Forall ascii delim -> smear q = delim <-> q = delim.
Proof.
  revert delim. induction q as [|c q IH]; intros delim Hd; simpl; [done|].
  destruct delim as [|x delim]; [done|]. apply Forall_cons in Hd as [Hx Hd].
  assert (Hlow : existsb high delim = false).
  { clear IH Hx. induction Hd as [|y d Hy Hd' IH]; simpl; [done|]. rewrite IH. unfold high.
    rewrite (proj2 (Z.leb_gt 128 y)); [done|]. unfold ascii in Hy. lia. }
  split.
  - intros [= H1 H2]. apply IH in H2 as ->; [|done]. rewrite Hlow in H1. by subst.
  - intros [= -> ->]. rewrite Hlow. f_equal. by apply IH.
Qed.

Definition wstep (q : list Z) (c : Z) : list Z := tail q ++ [c].

Lemma val_ones n : val (replicate n 255) = 256 ^ Z.of_nat n - 1.
Proof.
  induction n as [|n IH]; [done|]. rewrite replicate_S_end, val_snoc, IH.
  rewrite Nat2Z.inj_succ, Z.pow_succ_r by lia. lia.
Qed.

Lemma mask_mod nd z : 1 <= nd <= 8 -> Z.land z (SIGMASK nd) = z mod 256 ^ nd.
Proof.
  intros Hnd. unfold SIGMASK, NMAX. change 256 with (2 ^ 8).
  rewrite <- Z.pow_mul_r by lia. destruct (Z.eqb_spec nd 8) as [->|Hne].
  - change (u64 (-1)) with (Z.ones 64). by rewrite Z.land_ones by lia.
  - rewrite Z.shiftl_mul_pow2, Z.mul_1_l by lia. replace (8 * nd) with (nd * 8) by lia.
    assert (2 ^ (nd * 8) <= 2 ^ 56) by (apply Z.pow_le_mono_r; lia).
    assert (0 < 2 ^ (nd * 8)) by (apply Z.pow_pos_nonneg; lia).
    rewrite u64_small by lia. replace (2 ^ (nd * 8) - 1) with (Z.ones (nd * 8)) by (rewrite Z.ones_equiv; lia).
    by rewrite Z.land_ones by lia.
Qed.

Lemma pow256_divides nd : 1 <= nd <= 8 -> 2 ^ 64 = 256 ^ nd * 256 ^ (8 - nd).
Proof. intros Hnd. rewrite <- Z.pow_add_r by lia. by replace (nd + (8 - nd)) with 8 by lia. Qed.

(** One round of the inner loop of [_cut_by_delim] moves the window by a byte. *)
Lemma sig_window q c nd :
  len q = nd -> 1 <= nd <= 8 -> Forall is_byte q -> is_byte c ->
  Z.land (sig_step (val (smear q)) c) (SIGMASK nd) = val (smear (wstep q c)).
Proof.
  intros Hq Hnd Hb Hc. rewrite mask_mod by done. unfold is_byte in Hc.
  pose proof (val_range _ (smear_bytes q Hb)) as Hv. rewrite smear_length, Hq in Hv.
  pose proof (pow256_divides nd Hnd) as Hdiv. set (K := 256 ^ (8 - nd)) in *.
  assert (HK : 0 < K) by (apply Z.pow_pos_nonneg; lia).
  assert (HN : 0 < 256 ^ nd) by (apply Z.pow_pos_nonneg; lia).
  destruct q as [|a t]; [simpl in Hq; lia|]. unfold wstep. cbn [tail]. simpl in Hq.
  assert (Hpow : 256 ^ nd = 256 * 256 ^ len t).
  { replace nd with (Z.succ (len t)) by lia. by rewrite Z.pow_succ_r by lia. }
  apply Forall_cons in Hb as [_ Ht]. pose proof (val_range _ (smear_bytes t Ht)) as Hvt.
  rewrite smear_length in Hvt. destruct (Z.lt_ge_cases c 128) as [Hlow|Hhigh].
  - rewrite sig_step_low, smear_low, val_snoc by lia. cbn [smear]. rewrite val_cons, smear_length.
    set (a' := if existsb high t then 255 else a). set (T := val (smear t)) in *. set (P := 256 ^ len t) in *.
    rewrite Hdiv. rewrite Z.rem_mul_r by lia. rewrite <- Z.add_assoc, (Z.add_comm _ c), Z.add_assoc.
    rewrite (Z.mul_comm (256 ^ nd)), Z.mod_add, Z.add_mod_idemp_l by lia.
    replace ((a' * P + T) * 256 + c) with (T * 256 + c + a' * 256 ^ nd) by (rewrite Hpow; ring).
    rewrite Z.mod_add by lia. apply Z.mod_small. lia.
  - rewrite sig_step_high, smear_high, val_snoc, val_ones by lia. rewrite Hdiv.
    replace (256 ^ nd * K - 256 + c) with (256 ^ nd - 256 + c + (K - 1) * 256 ^ nd) by ring.
    rewrite Z.mod_add, Z.mod_small by lia. lia.
Qed.

Lemma dsig_val delim : Forall ascii delim -> len delim <= 8 -> foldl sig_step 0 delim = val delim.
Proof.
  induction delim as [|c d IH] using rev_ind; intros Hd Hlen; [done|].
  apply Forall_app in Hd as [Hd [Hc _]%Forall_cons]. rewrite length_app in Hlen. simpl in Hlen.
  rewrite foldl_app. simpl. rewrite IH, val_snoc by (done || lia). unfold ascii in Hc.
  assert (Hb : Forall is_byte d) by (eapply Forall_impl; [exact Hd|]; unfold ascii, is_byte; intros; lia).
  pose proof (val_range d Hb). assert (256 ^ len d <= 256 ^ 7) by (apply Z.pow_le_mono_r; lia).
  rewrite sig_step_low by lia. rewrite Z.mod_small by lia. done.
Qed.

(** The first position of the substring [delim]. *)
Fixpoint find_sub (delim bs : list Z) : option nat :=
  if bool_decide (take (Datatypes.length delim) bs = delim) then Some 0%nat
  else match bs with [] => None | _ :: bs' => S <$> find_sub delim bs' end.

Lemma find_sub_bound delim bs p : find_sub delim bs = Some p ->
  (p + Datatypes.length delim <= Datatypes.length bs)%nat.
Proof.
  revert p. induction bs as [|c bs IH]; intros p; simpl; case_bool_decide as Hd.
  - intros [= <-]. apply (f_equal Datatypes.length) in Hd. rewrite take_nil in Hd. simpl in *. lia.
  - done.
  - intros [= <-]. apply (f_equal Datatypes.length) in Hd. rewrite length_take in Hd. simpl in *. lia.
  - destruct (find_sub delim bs) as [q|]; [|done]. intros [= <-]. specialize (IH q eq_refl). simpl. lia.
Qed.

Section Window.
Context (delim : list Z) (Hasc : Forall ascii delim) (Hlen : 1 <= len delim <= 8).
Let nd := len delim.

(** The search as it runs: [q] is the window before the bytes [s]. *)
Fixpoint find_win (q s : list Z) : option nat :=
  match s with
  | [] => None
  | c :: s' => if bool_decide (wstep q c = delim) then Some 0%nat else S <$> find_win (wstep q c) s'
  end.

Lemma wstep_length q c : len q = nd -> len (wstep q c) = nd.
Proof. unfold wstep. destruct q; rewrite length_app; simpl; unfold nd in *; lia. Qed.
Lemma wstep_bytes q c : Forall is_byte q -> is_byte c -> Forall is_byte (wstep q c).
Proof. intros Hq Hc. apply Forall_app. split; [destruct Hq; [constructor|done]|by constructor]. Qed.
Lemma win_length q s : len q = nd -> len (foldl wstep q s) = nd.
Proof. revert q. induction s as [|c s IH]; intros q Hq; simpl; [done|]. by apply IH, wstep_length. Qed.
Lemma win_bytes q s : Forall is_byte q -> Forall is_byte s -> Forall is_byte (foldl wstep q s).
Proof.
  revert q. induction s as [|c s IH]; intros q Hq Hs; simpl; [done|].
  apply Forall_cons in Hs as [Hc Hs]. apply IH; [by apply wstep_bytes|done].
Qed.

Lemma delim_bytes : Forall is_byte delim.
Proof. eapply Forall_impl; [exact Hasc|]. unfold ascii, is_byte. intros; lia. Qed.

Lemma scan_sig_spec q s n : len q = nd -> Forall is_byte q -> Forall is_byte s ->
  scan_sig (val delim) (SIGMASK nd) s (val (smear q)) n =
    match find_win q s with
    | Some j => inl (n + Z.of_nat j)
    | None => inr (val (smear (foldl wstep q s)), n + len s)
    end.
Proof.
  revert q n. induction s as [|c s IH]; intros q n Hq Hb Hs; cbn [scan_sig find_win foldl].
  - simpl. by rewrite Z.add_0_r.
  - apply Forall_cons in Hs as [Hc Hs]. rewrite (sig_window q c nd Hq Hlen Hb Hc).
    pose proof (wstep_length q c Hq) as Hq'. pose proof (wstep_bytes q c Hb Hc) as Hb'.
    destruct (Z.eqb_spec (val (smear (wstep q c))) (val delim)) as [E|E].
    + apply val_inj in E; [|rewrite smear_length; unfold nd in Hq'; lia|by apply smear_bytes|apply delim_bytes].
      apply (proj1 (smear_ascii _ _ Hasc)) in E. rewrite bool_decide_eq_true_2 by done. by rewrite Z.add_0_r.
    + rewrite bool_decide_eq_false_2.
      * rewrite IH by done. destruct (find_win (wstep q c) s); simpl Datatypes.length; [f_equal; simpl; lia|].
        do 2 f_equal. lia.
      * intros E'. apply E. f_equal. by apply smear_ascii.
Qed.

Lemma find_win_app q s1 s2 :
  find_win q (s1 ++ s2) = match find_win q s1 with
                          | Some j => Some j
                          | None => (fun j => (Datatypes.length s1 + j)%nat) <$> find_win (foldl wstep q s1) s2
                          end.
Proof.
  revert q. induction s1 as [|c s1 IH]; intros q; simpl; [by destruct (find_win q s2)|].
  case_bool_decide; [done|]. rewrite IH. destruct (find_win (wstep q c) s1); [done|].
  by destruct (find_win (foldl wstep (wstep q c) s1) s2).
Qed.

Lemma find_win_sub q s : len q = nd -> find_win q s = find_sub delim (tail q ++ s).
Proof.
  revert q. induction s as [|c s IH]; intros q Hq.
  - simpl. rewrite app_nil_r. symmetry. destruct q as [|a q]; [unfold nd in Hq; simpl in Hq; lia|].
    cbn [tail]. assert (Hs : (Datatypes.length q < Datatypes.length delim)%nat) by (unfold nd in Hq; simpl in Hq; lia).
    clear Hq a. destruct (find_sub delim q) as [p|] eqn:E; [|done]. apply find_sub_bound in E. lia.
  - cbn [find_win]. pose proof (wstep_length q c Hq) as Hq'. rewrite (IH _ Hq').
    assert (Hw : wstep q c ++ s = tail q ++ c :: s) by (unfold wstep; by rewrite <- app_assoc).
    rewrite <- Hw. destruct (wstep q c) as [|a t] eqn:Hwe; [unfold nd in Hq'; simpl in Hq'; lia|].
    cbn [app find_sub tail]. assert (Ht : take (Datatypes.length delim) (a :: t ++ s) = a :: t).
    { change (a :: t ++ s) with ((a :: t) ++ s). rewrite take_app_le, take_ge; unfold nd in Hq'; simpl in *; (done || lia). }
    rewrite Ht. done.
Qed.

(** Leading zeros of the initial window never match. *)
Lemma find_sub_zeros n bs : (n < Datatypes.length delim)%nat ->
  find_sub delim (replicate n 0 ++ bs) = (fun p => (n + p)%nat) <$> find_sub delim bs.
Proof.
  destruct delim as [|x d] eqn:Hd; [simpl; lia|]. intros Hn. clear Hn.
  pose proof Hasc as [Hx _]%Forall_cons.
  induction n as [|n IH]; [simpl; by destruct (find_sub _ bs)|].
  cbn [replicate app find_sub]. rewrite bool_decide_eq_false_2.
  - rewrite IH. by destruct (find_sub (x :: d) bs).
  - simpl. intros [= E _]. unfold ascii in Hx. lia.
Qed.

Section Buffer.
Context (w : World) (b : buffer) (bs : list Z) (rs : list bid).
Context (Hh : holds w b bs) (Hi : inv w rs).

Lemma find_sig_spec q k i n :
  len q = nd -> Forall is_byte q -> Forall is_byte (bytes w (drop (Z.to_nat i) (view_list b))) ->
  0 <= i -> i + Z.of_nat k = len (view_list b) ->
  find_sig b (val delim) (SIGMASK nd) k i (val (smear q)) n w =
    Some ((fun p => n + Z.of_nat p) <$> find_win q (bytes w (drop (Z.to_nat i) (view_list b))), w).
Proof.
  revert q i n. induction k as [|k IH]; intros q i n Hq Hqb Hby Hi0 Hk; cbn [find_sig].
  - by rewrite drop_ge by lia.
  - destruct (ref_at_holds w b bs rs Hh Hi i) as (r & Hat & Hlk & _ & Hok & Hlr & Heq); [lia|].
    rewrite Heq in *. apply Forall_app in Hby as [Hb1 Hb2]. unfold mbind'.
    rewrite Hat, (read_ref_all w r rs Hi Hok), (scan_sig_spec q _ n Hq Hqb Hb1), find_win_app.
    destruct (find_win q (ref_bytes w r)) as [p|]; [done|].
    rewrite IH; [|by apply win_length|by apply win_bytes|done|lia|lia]. do 2 f_equal.
    destruct (find_win _ (bytes w _)); simpl; f_equal. lia.
Qed.
End Buffer.

Lemma cut_by_delim_spec w b out bs os rs :
  holds w b bs -> holds w out os -> inv w (owned b ++ owned out ++ rs) ->
  2 * (len os + len bs) < limit -> Forall is_byte bs ->
  cut_at w rs (_cut_by_delim b out delim w) bs os (find_sub delim bs) (Datatypes.length delim).
Proof.
  intros Hh Ho Hi Hlim Hbs. unfold _cut_by_delim. rewrite (length_holds _ _ _ _ Hi Hh).
  assert (Hfail : find_sub delim bs = None -> cut_at w rs (Some ((-1, b, out), w)) bs os (find_sub delim bs) (Datatypes.length delim)).
  { intros ->. exists (-1), b, out, w. split; [done|]. split; [done|]. split; [apply stable_refl|done]. }
  unfold NMAX. rewrite (proj2 (Z.ltb_ge 8 (len delim))) by lia. cbn [orb].
  destruct (Z.ltb_spec (len bs) (len delim)) as [Hshort|Hlong].
  { apply Hfail. destruct (find_sub delim bs) as [p|] eqn:E; [|done]. apply find_sub_bound in E. lia. }
  pose proof Hh as (Hr & _ & Hb). rewrite (ref_num_spec b _ Hr), dsig_val by (done || lia).
  unfold mbind' at 1. set (z := replicate (Datatypes.length delim) 0).
  assert (Hz0 : val (smear z) = 0).
  { assert (Hsm : forall n, smear (replicate n 0) = replicate n 0).
    { induction n as [|n IHn]; simpl; [done|]. rewrite IHn.
      assert (existsb high (replicate n 0) = false) as ->; [|done].
      clear. induction n; simpl; auto. }
    unfold z. rewrite Hsm. generalize (Datatypes.length delim). clear. induction n as [|n IH]; [done|].
    cbn [replicate]. rewrite val_cons, IH. lia. }
  pose proof (find_sig_spec w b bs _ Hh Hi z (Z.to_nat (len (view_list b))) 0 0) as Hfs.
  rewrite Hz0 in Hfs. unfold nd in Hfs. rewrite Hfs; [|unfold z; by rewrite length_replicate
    |apply Forall_replicate; unfold is_byte; lia|simpl; by rewrite drop_0, Hb|lia|lia].
  simpl. rewrite drop_0, Hb, find_win_sub by (unfold z; rewrite length_replicate; done).
  assert (Hzt : tail z = replicate (Datatypes.length delim - 1) 0).
  { unfold z. destruct (Datatypes.length delim); [done|]. simpl. by rewrite Nat.sub_0_r. }
  rewrite Hzt, find_sub_zeros by lia.
  destruct (find_sub delim bs) as [p|] eqn:E; simpl; [|by apply Hfail].
  pose proof (find_sub_bound _ _ _ E) as Hp. unfold limit in Hlim. rewrite u64_small by lia.
  match goal with |- context [cutn b out ?e] => replace e with (Z.of_nat p) by lia end.
  apply cut_and_pop; try done.
Qed.
End Window.

Lemma find_sub_one d bs : find_sub [d] bs = find_byte d bs.
Proof.
  induction bs as [|c bs IH]; simpl; [done|].
  destruct (Z.eqb_spec c d) as [->|Hne]; [by rewrite bool_decide_eq_true_2|].
  rewrite bool_decide_eq_false_2 by congruence. by rewrite IH.
Qed.

(** The delimiters the search is right for: any single byte, and two to eight
    bytes of 7-bit text without NUL. *)
Definition good_delim (delim : list Z) : Prop :=
  Forall is_byte delim /\ (len delim = 1 \/ 2 <= len delim <= 8 /\ Forall ascii delim).

Lemma cut_until_spec w b out bs os rs delim :
  holds w b bs -> holds w out os -> inv w (owned b ++ owned out ++ rs) ->
  2 * (len os + len bs) < limit -> Forall is_byte bs -> good_delim delim ->
  cut_at w rs (cut_until b out delim w) bs os (find_sub delim bs) (Datatypes.length delim).
Proof.
  intros Hh Ho Hi Hlim Hbs [Hb [H1|[H2 Hasc]]].
  - destruct delim as [|d [|? ?]]; simpl in H1; try lia. apply Forall_cons in Hb as [Hd _].
    rewrite find_sub_one. by apply cut_by_char_spec.
  - destruct delim as [|d [|d2 delim]]; simpl in H2; try lia.
    apply cut_by_delim_spec; try done. simpl. lia.
Qed.

(** ** Delimiters with bytes of 0x80 and more *)

Lemma sig_step_range v c : 0 <= v -> is_byte c -> 0 <= sig_step v c < 2 ^ 64.
Proof.
  unfold is_byte. intros Hv Hc. destruct (Z.lt_ge_cases c 128).
  - rewrite sig_step_low by lia. replace ((v * 256) mod 2 ^ 64) with (v mod 2 ^ 56 * 256).
    + pose proof (Z.mod_pos_bound v (2 ^ 56)). lia.
    + change (2 ^ 64) with (2 ^ 56 * 256). by rewrite Z.mul_mod_distr_r by lia.
  - rewrite sig_step_high by lia. lia.
Qed.

(** A high byte anywhere in the delimiter sets every bit above it. *)
Lemma dsig_high delim : Forall is_byte delim -> len delim <= 8 -> existsb high delim = true ->
  2 ^ 64 - 256 ^ len delim <= foldl sig_step 0 delim < 2 ^ 64.
Proof.
  induction delim as [|c d IH] using rev_ind; intros Hd Hlen Hh; [done|].
  apply Forall_app in Hd as [Hd [Hc _]%Forall_cons]. rewrite length_app in *. simpl in Hlen.
  rewrite foldl_app. simpl. rewrite existsb_app in Hh. simpl in Hh. rewrite orb_false_r in Hh.
  rewrite Nat2Z.inj_add, Z.pow_add_r by lia. change (256 ^ Z.of_nat 1) with 256.
  assert (Hp : 0 < 256 ^ len d <= 256 ^ 7) by (split; [apply Z.pow_pos_nonneg; lia|apply Z.pow_le_mono_r; lia]).
  unfold is_byte in Hc. destruct (Z.lt_ge_cases c 128) as [Hlow|Hhigh].
  - assert (existsb high d = true) as Hh'.
    { unfold high in Hh at 2. rewrite (proj2 (Z.leb_gt 128 c)), orb_false_r in Hh by lia. done. }
    destruct (IH Hd) as [IH1 IH2]; [lia|done|]. rewrite sig_step_low by lia.
    set (v := foldl sig_step 0 d) in *. set (e := 2 ^ 64 - v).
    assert (Hm : (v * 256) mod 2 ^ 64 = 2 ^ 64 - e * 256).
    { symmetry. apply (Z.mod_unique _ _ 255); [left; lia|]. unfold e. lia. }
    rewrite Hm. lia.
  - rewrite sig_step_high; [lia| |lia]. destruct d as [|x d' _] using rev_ind; [done|].
    rewrite foldl_app. simpl. apply Forall_app in Hd as [Hd' [Hx _]%Forall_cons].
    enough (0 <= foldl sig_step 0 d') as Hnn by apply (sig_step_range _ _ Hnn Hx).
    clear -Hd'. induction d' as [|y d' IH] using rev_ind; [done|].
    apply Forall_app in Hd' as [Hd [Hy _]%Forall_cons]. rewrite foldl_app. simpl.
    apply (sig_step_range _ _ (IH Hd) Hy).
Qed.

Lemma scan_sig_none dsig nd s sig n :
  1 <= nd <= 8 -> 256 ^ nd <= dsig -> exists sig', scan_sig dsig (SIGMASK nd) s sig n = inr (sig', n + len s).
Proof.
  intros Hnd Hd. revert sig n. induction s as [|c s IH]; intros sig n; cbn [scan_sig].
  - exists sig. simpl. by rewrite Z.add_0_r.
  - rewrite mask_mod by done. pose proof (Z.mod_pos_bound (sig_step sig c) (256 ^ nd)).
    assert (0 < 256 ^ nd) by (apply Z.pow_pos_nonneg; lia).
    destruct (Z.eqb_spec (sig_step sig c mod 256 ^ nd) dsig); [lia|].
    destruct (IH (sig_step sig c mod 256 ^ nd) (n + 1)) as (sig' & Heq). rewrite Heq.
    exists sig'. do 2 f_equal. simpl. lia.
Qed.

Lemma find_sig_none w b bs rs dsig nd k i sig n :
  holds w b bs -> inv w rs -> 1 <= nd <= 8 -> 256 ^ nd <= dsig ->
  0 <= i -> i + Z.of_nat k = len (view_list b) ->
  find_sig b dsig (SIGMASK nd) k i sig n w = Some (None, w).
Proof.
  intros Hh Hi Hnd Hd. revert i sig n. induction k as [|k IH]; intros i sig n Hi0 Hk; cbn [find_sig]; [done|].
  destruct (ref_at_holds w b bs rs Hh Hi i) as (r & Hat & _ & _ & Hok & _); [lia|].
  unfold mbind'. rewrite Hat, (read_ref_all w r rs Hi Hok).
  destruct (scan_sig_none dsig nd (ref_bytes w r) sig n Hnd Hd) as (sig' & ->). apply IH; lia.
Qed.

Lemma cut_until_high_none w b out bs os rs delim :
  holds w b bs -> holds w out os -> inv w (owned b ++ owned out ++ rs) ->
  2 <= len delim <= 7 -> Forall is_byte delim -> existsb high delim = true ->
  cut_until b out delim w = Some ((-1, b, out), w).
Proof.
  intros Hh Ho Hi Hlen Hb Hhigh. destruct delim as [|c1 [|c2 d]]; simpl in Hlen; [lia|lia|].
  cbn [cut_until]. set (delim := c1 :: c2 :: d) in *.
  assert (Hl : 2 <= len delim <= 7) by (simpl; lia). clearbody delim. unfold _cut_by_delim, NMAX.
  rewrite (proj2 (Z.ltb_ge 8 (len delim))) by lia. cbn [orb].
  destruct (length_ b <? len delim); [done|]. pose proof Hh as (Hr & _). rewrite (ref_num_spec b _ Hr).
  unfold mbind'. rewrite (find_sig_none w b bs (owned b ++ owned out ++ rs) _ (len delim)); try done; try lia.
  destruct (dsig_high delim) as [Hd _]; [done|lia|done|].
  assert (256 ^ len delim <= 256 ^ 7) by (apply Z.pow_le_mono_r; lia). lia.
Qed.

End IOBufSearch.
