(* ===== verification/IOBufSpec.v ===== *)
(** * IOBuf as byte strings: the contract of butil/iobuf.h

    A client that works with several IOBufs sees byte strings; the blocks they
    share, the reference counts and the thread's block cache are invisible.
    [exec] runs the operations of [IOBuf] on a list of buffers; [spec] is what the
    comments of iobuf.h promise, on a list of byte strings.  The refinement is
    proved for every sequence of operations within the size limit, with memory
    available; it includes that no block leaks and none is used after release. *)
From stdpp Require Import base list gmap.
From Stdlib Require Import ZArith Lia Bool.
From S2P Require Import Prelude IOBufBlock IOBufView IOBuf IOBufSearch.

Open Scope Z_scope.
Open Scope m_scope.

Module IOBufSpec.
Import Block View IOBuf IOBufSearch.

Inductive op :=
  | OAppend (i : nat) (data : list Z)
  | OPushBack (i : nat) (c : Z)
  | OAppendv (i : nat) (vec : list (list Z))
  | OAppendUserData (i : nat) (data : list Z) (meta : Z)
  | OAppendBuf (i j : nat)
  | OAppendMovable (i j : nat)
  | OAppendTo (i j : nat) (n pos : Z)
  | OAssign (i j : nat)
  | OSwap (i j : nat)
  | OCutn (i j : nat) (n : Z)
  | OCutnMem (i : nat) (n : Z)
  | OCut1 (i : nat)
  | OCutUntil (i j : nat) (delim : list Z)
  | OPopFront (i : nat) (n : Z)
  | OPopBack (i : nat) (n : Z)
  | OResize (i : nat) (n c : Z)
  | OClear (i : nat)
  | OLength (i : nat)
  | OCopyTo (i : nat) (n pos : Z)
  | OEquals (i : nat) (s : list Z)
  | OFetch (i : nat) (n : Z).

(** What an operation returns: its integer result and the bytes it hands out. *)
Abbreviation result := (Z * list Z)%type.

Definition get (bufs : list buffer) (i : nat) : M World buffer := mlift (bufs !! i).

Section Exec.
Context `{Env}.

(** Running [c] on buffer [i] (or on [i] and [j]) and storing what it returns. *)
Definition on1 (bufs : list buffer) (i : nat) (c : buffer -> M World (result * buffer))
  : M World (result * list buffer) :=
  let* b := get bufs i in
  let* (r, b') := c b in
  mret (r, <[i := b']> bufs).
Definition on2 (bufs : list buffer) (i j : nat)
    (c : buffer -> buffer -> M World (result * (buffer * buffer)))
  : M World (result * list buffer) :=
  let* b1 := get bufs i in
  let* b2 := get bufs j in
  let* (r, bb) := c b1 b2 in
  mret (r, <[i := bb.1]> (<[j := bb.2]> bufs)).

Definition exec (o : op) (bufs : list buffer) : M World (result * list buffer) :=
  match o with
  | OAppend i data => on1 bufs i (fun b => let* (rc, b') := append b data in mret ((rc, []), b'))
  | OPushBack i c => on1 bufs i (fun b => let* (rc, b') := push_back b c in mret ((rc, []), b'))
  | OAppendv i vec => on1 bufs i (fun b => let* (rc, b') := appendv b vec in mret ((rc, []), b'))
  | OAppendUserData i data meta =>
      on1 bufs i (fun b => let* (rc, b') := append_user_data_with_meta b data meta in
                           mret ((rc.1, []), b'))
  | OAppendBuf i j =>
      on2 bufs i j (fun b1 b2 => let* b' := append_buf b1 b2 in mret ((0, []), (b', b2)))
  | OAppendMovable i j =>
      on2 bufs i j (fun b1 b2 => let* bb := append_movable b1 b2 in mret ((0, []), bb))
  | OAppendTo i j n pos =>
      on2 bufs i j (fun b1 b2 => let* (c, b') := append_to b1 b2 n pos in mret ((c, []), (b1, b')))
  | OAssign i j =>
      on2 bufs i j (fun b1 b2 => let* b' := assign b1 b2 in mret ((0, []), (b', b2)))
  | OSwap i j => on2 bufs i j (fun b1 b2 => mret ((0, []), swap b1 b2))
  | OCutn i j n =>
      on2 bufs i j (fun b1 b2 => let* (r, b2') := cutn b1 b2 n in mret ((r.1, []), (r.2, b2')))
  | OCutnMem i n =>
      on1 bufs i (fun b => let* (r, b') := cutn_mem b n in mret (r, b'))
  | OCut1 i =>
      on1 bufs i (fun b => let* (c, b') := cut1 b in
                           mret (match c with Some x => (1, [x]) | None => (0, []) end, b'))
  | OCutUntil i j delim =>
      on2 bufs i j (fun b1 b2 => let* (r, b2') := cut_until b1 b2 delim in
                                 mret ((r.1, []), (r.2, b2')))
  | OPopFront i n => on1 bufs i (fun b => let* (c, b') := pop_front b n in mret ((c, []), b'))
  | OPopBack i n => on1 bufs i (fun b => let* (c, b') := pop_back b n in mret ((c, []), b'))
  | OResize i n c => on1 bufs i (fun b => let* (rc, b') := resize b n c in mret ((rc, []), b'))
  | OClear i => on1 bufs i (fun b => let* b' := clear b in mret ((0, []), b'))
  | OLength i => on1 bufs i (fun b => mret ((length_ b, []), b))
  | OCopyTo i n pos => on1 bufs i (fun b => let* r := copy_to b n pos in mret (r, b))
  | OEquals i s => on1 bufs i (fun b => let* e := equals b s in mret ((Z.b2z e, []), b))
  | OFetch i n =>
      on1 bufs i (fun b => let* r := fetch b n in
                           mret (match r with Some (_, s) => (1, s) | None => (0, []) end, b))
  end.
End Exec.

(** ** The specification on byte strings *)

Definition sget (ss : list (list Z)) (i : nat) : list Z := default [] (ss !! i).
Definition set1 (ss : list (list Z)) (i : nat) (s : list Z) : list (list Z) := <[i := s]> ss.

Definition spec (o : op) (ss : list (list Z)) : result * list (list Z) :=
  match o with
  | OAppend i data => ((0, []), set1 ss i (sget ss i ++ data))
  | OPushBack i c => ((0, []), set1 ss i (sget ss i ++ [c]))
  | OAppendv i vec => ((0, []), set1 ss i (sget ss i ++ mjoin vec))
  | OAppendUserData i data _ => ((0, []), set1 ss i (sget ss i ++ data))
  | OAppendBuf i j => ((0, []), set1 ss i (sget ss i ++ sget ss j))
  | OAppendMovable i j => ((0, []), set1 (set1 ss j []) i (sget ss i ++ sget ss j))
  | OAppendTo i j n pos =>
      let t := take (Z.to_nat n) (drop (Z.to_nat pos) (sget ss i)) in
      ((len t, []), set1 ss j (sget ss j ++ t))
  | OAssign i j => ((0, []), set1 ss i (sget ss j))
  | OSwap i j => ((0, []), set1 (set1 ss j (sget ss i)) i (sget ss j))
  | OCutn i j n =>
      ((Z.min n (len (sget ss i)), []),
       set1 (set1 ss j (sget ss j ++ take (Z.to_nat n) (sget ss i))) i (drop (Z.to_nat n) (sget ss i)))
  | OCutnMem i n =>
      ((Z.min n (len (sget ss i)), take (Z.to_nat n) (sget ss i)),
       set1 ss i (drop (Z.to_nat n) (sget ss i)))
  | OCut1 i =>
      (match sget ss i with c :: _ => (1, [c]) | [] => (0, []) end, set1 ss i (tail (sget ss i)))
  | OCutUntil i j delim =>
      match find_sub delim (sget ss i) with
      | Some p =>
          ((0, []), set1 (set1 ss j (sget ss j ++ take p (sget ss i))) i
                      (drop (p + Datatypes.length delim) (sget ss i)))
      | None => ((-1, []), ss)
      end
  | OPopFront i n =>
      ((Z.min n (len (sget ss i)), []), set1 ss i (drop (Z.to_nat n) (sget ss i)))
  | OPopBack i n =>
      ((Z.min n (len (sget ss i)), []),
       set1 ss i (take (Z.to_nat (len (sget ss i) - n)) (sget ss i)))
  | OResize i n c =>
      ((0, []), set1 ss i (take (Z.to_nat n) (sget ss i) ++
                           replicate (Z.to_nat (n - len (sget ss i))) c))
  | OClear i => ((0, []), set1 ss i [])
  | OLength i => ((len (sget ss i), []), ss)
  | OCopyTo i n pos =>
      let t := take (Z.to_nat n) (drop (Z.to_nat pos) (sget ss i)) in ((len t, t), ss)
  | OEquals i s => ((Z.b2z (bool_decide (sget ss i = s)), []), ss)
  | OFetch i n =>
      (if n <=? len (sget ss i) then (1, take (Z.to_nat n) (sget ss i)) else (0, []), ss)
  end.

(** The inputs the contract covers: distinct existing buffers, non-negative
    counts, results below the size limit, data to append, text delimiters. *)
Definition fits (n : Z) : Prop := 2 * n < limit.
Definition has (ss : list (list Z)) (i : nat) : Prop := is_Some (ss !! i).
Definition pair_ok (ss : list (list Z)) (i j : nat) : Prop := has ss i /\ has ss j /\ i <> j.

Definition op_ok (o : op) (ss : list (list Z)) : Prop :=
  match o with
  | OAppend i data | OAppendUserData i data _ =>
      has ss i /\ Forall is_byte data /\ fits (len (sget ss i) + len data)
  | OPushBack i c => has ss i /\ is_byte c /\ fits (len (sget ss i) + 1)
  | OAppendv i vec =>
      has ss i /\ Forall is_byte (mjoin vec) /\ mjoin vec <> [] /\
      fits (len (sget ss i) + len (mjoin vec))
  | OAppendBuf i j | OAppendMovable i j | OAppendTo j i _ _ | OCutn j i _ =>
      pair_ok ss i j /\ fits (len (sget ss i) + len (sget ss j)) /\
      match o with OAppendTo _ _ n pos => 0 <= n /\ 0 <= pos | OCutn _ _ n => 0 <= n | _ => True end
  | OAssign i j | OSwap i j => pair_ok ss i j
  | OCutUntil i j delim =>
      pair_ok ss i j /\ fits (len (sget ss j) + len (sget ss i)) /\ good_delim delim
  | OCutnMem i n | OPopFront i n | OPopBack i n => has ss i /\ 0 <= n
  | OCut1 i | OClear i | OLength i | OEquals i _ => has ss i
  | OResize i n c => has ss i /\ 0 <= n /\ fits n /\ is_byte c
  | OCopyTo i n pos => has ss i /\ 0 <= n /\ 0 <= pos
  | OFetch i n => has ss i /\ 0 <= n /\ sget ss i <> []
  end.

Fixpoint ops_ok (os : list op) (ss : list (list Z)) : Prop :=
  match os with [] => True | o :: os' => op_ok o ss /\ ops_ok os' (spec o ss).2 end.

Fixpoint run `{Env} (os : list op) (bufs : list buffer) : M World (list result * list buffer) :=
  match os with
  | [] => mret ([], bufs)
  | o :: os' =>
      let* (r, bufs') := exec o bufs in
      let* (rest, bufs'') := run os' bufs' in
      mret (r :: rest, bufs'')
  end.
Fixpoint spec_run (os : list op) (ss : list (list Z)) : list result * list (list Z) :=
  match os with
  | [] => ([], ss)
  | o :: os' =>
      let '(r, ss') := spec o ss in
      let '(rest, ss'') := spec_run os' ss' in (r :: rest, ss'')
  end.

(** ** The simulation relation *)

(** All references held by the buffers. *)
Definition owned_all (bufs : list buffer) : list bid := mjoin (map owned bufs).

Record related (w : World) (bufs : list buffer) (ss : list (list Z)) : Prop := {
  rel_inv : inv w (owned_all bufs);
  rel_holds : Forall2 (holds w) bufs ss;
  rel_bytes : Forall (Forall is_byte) ss
}.

Lemma owned_all_app l1 l2 : owned_all (l1 ++ l2) = owned_all l1 ++ owned_all l2.
Proof. unfold owned_all. by rewrite map_app, join_app. Qed.
Lemma owned_all_sub b l : b ∈ l -> owned b ⊆ owned_all l.
Proof.
  intros Hb. apply list_elem_of_split in Hb as (l1 & l2 & ->). rewrite owned_all_app.
  unfold owned_all. simpl. set_solver.
Qed.

Lemma Forall2_holds_stable w w' l ss rs :
  stable w w' rs -> owned_all l ⊆ rs -> Forall2 (holds w) l ss -> Forall2 (holds w') l ss.
Proof.
  intros Hst Hsub. induction 1 as [|b s l ss Hb Hl IH]; [constructor|].
  unfold owned_all in *. simpl in Hsub. constructor; [|apply IH; set_solver].
  eapply holds_stable; [exact Hst|set_solver|done].
Qed.

(** Splitting off one buffer, and putting a changed one back. *)
Lemma related_split1 w bufs ss i :
  related w bufs ss -> has ss i ->
  exists b rs, bufs !! i = Some b /\ ss !! i = Some (sget ss i) /\
    holds w b (sget ss i) /\ inv w (owned b ++ rs) /\ Forall is_byte (sget ss i) /\
    forall w' b' s', holds w' b' s' -> inv w' (owned b' ++ rs) -> stable w w' rs ->
      Forall is_byte s' -> related w' (<[i := b']> bufs) (<[i := s']> ss).
Proof.
  intros [Hinv Hh Hby] [s Hs]. unfold sget. rewrite Hs. simpl.
  destruct (Forall2_lookup_r _ _ _ _ _ Hh Hs) as (b & Hb & Hbs).
  pose proof (take_drop_middle _ _ _ Hb) as Hbufs. pose proof (take_drop_middle _ _ _ Hs) as Hss.
  set (l1 := take i bufs) in *. set (l2 := drop (S i) bufs) in *.
  set (s1 := take i ss) in *. set (s2 := drop (S i) ss) in *.
  assert (Hi1 : Datatypes.length l1 = i) by (unfold l1; rewrite length_take; apply lookup_lt_Some in Hb; lia).
  assert (Hi2 : Datatypes.length s1 = i) by (unfold s1; rewrite length_take; apply lookup_lt_Some in Hs; lia).
  clearbody l1 l2 s1 s2. subst bufs ss.
  apply Forall2_app_inv in Hh as [Hh1 Hh2]; [|lia]. apply Forall2_cons in Hh2 as [_ Hh2].
  apply Forall_app in Hby as [Hby1 [Hbs' Hby2]%Forall_cons].
  exists b, (owned_all l1 ++ owned_all l2). split; [done|]. split; [done|]. split; [done|].
  assert (Hcnt : forall b0 x, cnt x (owned_all (l1 ++ b0 :: l2)) = cnt x (owned b0 ++ owned_all l1 ++ owned_all l2)).
  { intros b0 x. rewrite owned_all_app, !cnt_app. unfold owned_all. simpl. rewrite cnt_app. lia. }
  split; [by eapply inv_sub_perm; [apply Hcnt|]|]. split; [done|].
  intros w' b' s' Hb' Hi' Hst Hbs0. rewrite !insert_app_r_alt by lia.
  rewrite Hi1, Hi2, !Nat.sub_diag. simpl. split.
  - eapply inv_sub_perm; [|exact Hi']. intros x. by rewrite Hcnt.
  - apply Forall2_app; [|constructor; [done|]]; (eapply Forall2_holds_stable; [exact Hst| |done]; set_solver).
  - apply Forall_app. split; [done|]. by constructor.
Qed.

Lemma owned_empty : owned IOBuf_empty = [].
Proof. done. Qed.

Lemma cnt_owned_insert x bufs i b b' : bufs !! i = Some b ->
  cnt x (owned_all (<[i := b']> bufs)) = cnt x (owned_all bufs) - cnt x (owned b) + cnt x (owned b').
Proof.
  intros Hb. rewrite <- (take_drop_middle _ _ _ Hb) at 2. rewrite insert_take_drop by (by eapply lookup_lt_Some).
  rewrite !owned_all_app, !cnt_app. unfold owned_all. simpl. rewrite !cnt_app. lia.
Qed.

(** The same for two distinct buffers; emptied buffers mark what is left out. *)
Lemma related_split2 w bufs ss i j :
  related w bufs ss -> pair_ok ss i j ->
  exists b1 b2 rs, bufs !! i = Some b1 /\ bufs !! j = Some b2 /\
    holds w b1 (sget ss i) /\ holds w b2 (sget ss j) /\ inv w (owned b1 ++ owned b2 ++ rs) /\
    Forall is_byte (sget ss i) /\ Forall is_byte (sget ss j) /\
    forall w' b1' b2' s1 s2, holds w' b1' s1 -> holds w' b2' s2 ->
      inv w' (owned b1' ++ owned b2' ++ rs) -> stable w w' rs -> Forall is_byte s1 -> Forall is_byte s2 ->
      related w' (<[i := b1']> (<[j := b2']> bufs)) (<[i := s1]> (<[j := s2]> ss)).
Proof.
  intros [Hinv Hh Hby] ([t1 Ht1] & [t2 Ht2] & Hij). unfold sget. rewrite Ht1, Ht2. simpl.
  destruct (Forall2_lookup_r _ _ _ _ _ Hh Ht1) as (b1 & Hb1 & Hh1).
  destruct (Forall2_lookup_r _ _ _ _ _ Hh Ht2) as (b2 & Hb2 & Hh2).
  assert (Hb1' : forall b, <[j:=b]> bufs !! i = Some b1) by (intros b; by rewrite list_lookup_insert_ne).
  exists b1, b2, (owned_all (<[i:=IOBuf_empty]> (<[j:=IOBuf_empty]> bufs))).
  split; [done|]. split; [done|]. split; [done|]. split; [done|]. split.
  { eapply inv_sub_perm; [|exact Hinv]. intros x. rewrite !cnt_app.
    rewrite (cnt_owned_insert _ _ _ _ _ (Hb1' _)), (cnt_owned_insert _ _ _ _ _ Hb2), owned_empty. simpl. lia. }
  split; [by eapply Forall_lookup_1|]. split; [by eapply Forall_lookup_1|].
  intros w' b1' b2' s1 s2 Hk1 Hk2 Hi' Hst Hs1 Hs2. split.
  - eapply inv_sub_perm; [|exact Hi']. intros x. rewrite !cnt_app.
    rewrite !(cnt_owned_insert _ _ _ _ _ (Hb1' _)), !(cnt_owned_insert _ _ _ _ _ Hb2), owned_empty. simpl. lia.
  - apply Forall2_same_length_lookup. rewrite !length_insert.
    split; [by eapply Forall2_length|]. intros k b s Hb Hs.
    apply list_lookup_insert_Some in Hb as [(<- & <- & ?)|[Hki Hb]].
    { rewrite list_lookup_insert_eq in Hs by (rewrite length_insert; by eapply lookup_lt_Some). by simplify_eq. }
    rewrite list_lookup_insert_ne in Hs by done.
    apply list_lookup_insert_Some in Hb as [(<- & <- & ?)|[Hkj Hb]].
    { rewrite list_lookup_insert_eq in Hs by (by eapply lookup_lt_Some). by simplify_eq. }
    rewrite list_lookup_insert_ne in Hs by done.
    eapply holds_stable; [exact Hst| |exact (Forall2_lookup_lr _ _ _ _ _ _ Hh Hb Hs)].
    apply owned_all_sub. apply list_elem_of_lookup. exists k. by rewrite !list_lookup_insert_ne.
  - apply Forall_insert; [by apply Forall_insert|done].
Qed.

(** *** Every operation refines its specification *)
Section Refine.
Context `{Env} (Hmem : forall k, malloc_ok k = true).

Definition refines (o : op) : Prop := forall w bufs ss,
  related w bufs ss -> op_ok o ss ->
  exists bufs' w', exec o bufs w = Some (((spec o ss).1, bufs'), w') /\ related w' bufs' (spec o ss).2.

Lemma on1_refines w bufs ss i c r s' :
  related w bufs ss -> has ss i ->
  (forall b rs, holds w b (sget ss i) -> inv w (owned b ++ rs) -> Forall is_byte (sget ss i) ->
     exists b', yields w rs (c b w) (r, b') b' s' /\ Forall is_byte s') ->
  exists bufs' w', on1 bufs i c w = Some ((r, bufs'), w') /\ related w' bufs' (<[i := s']> ss).
Proof.
  intros Hrel Hi Hc. destruct (related_split1 w bufs ss i Hrel Hi) as (b & rs & Hb & _ & Hh & Hinv & Hby & Hput).
  destruct (Hc b rs Hh Hinv Hby) as (b' & (w' & Heq & Hh' & Hi' & Hst) & Hby').
  exists (<[i:=b']> bufs), w'. unfold on1, get, mlift, mbind', mret. rewrite Hb. simpl. rewrite Heq.
  split; [done|by apply Hput].
Qed.

Lemma on2_refines w bufs ss i j c r s1 s2 :
  related w bufs ss -> pair_ok ss i j ->
  (forall b1 b2 rs, holds w b1 (sget ss i) -> holds w b2 (sget ss j) ->
     inv w (owned b1 ++ owned b2 ++ rs) -> Forall is_byte (sget ss i) -> Forall is_byte (sget ss j) ->
     exists b1' b2' w', c b1 b2 w = Some ((r, (b1', b2')), w') /\ holds w' b1' s1 /\ holds w' b2' s2 /\
       inv w' (owned b1' ++ owned b2' ++ rs) /\ stable w w' rs /\ Forall is_byte s1 /\ Forall is_byte s2) ->
  exists bufs' w', on2 bufs i j c w = Some ((r, bufs'), w') /\
    related w' bufs' (<[i := s1]> (<[j := s2]> ss)).
Proof.
  intros Hrel Hij Hc.
  destruct (related_split2 w bufs ss i j Hrel Hij) as (b1 & b2 & rs & Hb1 & Hb2 & Hh1 & Hh2 & Hinv & Hy1 & Hy2 & Hput).
  destruct (Hc b1 b2 rs Hh1 Hh2 Hinv Hy1 Hy2) as (b1' & b2' & w' & Heq & Hh1' & Hh2' & Hi' & Hst & Hs1 & Hs2).
  eexists _, w'. unfold on2, get, mlift, mbind', mret. rewrite Hb1, Hb2. simpl. rewrite Heq.
  split; [done|]. simpl. by apply Hput.
Qed.

(** An operation that leaves the string alone. *)
Lemma set_same (ss : list (list Z)) i : has ss i -> <[i := sget ss i]> ss = ss.
Proof. intros [s Hs]. unfold sget. rewrite Hs. simpl. by apply list_insert_id. Qed.

Lemma appended_yields w rs bs data (c : M World (Z * buffer)) :
  appended w rs (c w) bs data ->
  exists b', yields w rs ((let* (rc, b') := c in mret ((rc, @nil Z), b')) w) ((0, []), b') b' (bs ++ data).
Proof.
  intros (rc & b' & k & (w' & Heq & Hh & Hrest) & Hrc & Hk). specialize (Hrc Hmem) as ->.
  exists b', w'. unfold mbind', mret. rewrite Heq. destruct Hk as [[_ ->]|[? _]]; [|done].
  rewrite take_ge in Hh by lia. done.
Qed.

(** Closes the byte side conditions of the specifications. *)
Ltac byte_tac :=
  repeat match goal with
  | |- Forall _ (_ ++ _) => apply Forall_app; split
  | |- Forall _ (take _ _) => apply Forall_take
  | |- Forall _ (drop _ _) => apply Forall_drop
  | |- Forall _ (replicate _ _) => apply Forall_replicate
  | |- Forall _ [_] => constructor; [|constructor]
  | |- Forall _ [] => constructor
  end; try done.

Lemma append_refines i data : refines (OAppend i data).
Proof.
  intros w bufs ss Hrel (Hi & Hd & Hfit). apply on1_refines; try done.
  intros b rs Hh Hinv Hby. destruct (appended_yields w rs (sget ss i) data (append b data)) as (b' & Hy);
    [by apply append_spec|]. exists b'. split; [done|]. byte_tac.
Qed.
Lemma push_back_refines i c : refines (OPushBack i c).
Proof.
  intros w bufs ss Hrel (Hi & Hd & Hfit). apply on1_refines; try done.
  intros b rs Hh Hinv Hby. destruct (appended_yields w rs (sget ss i) [c] (push_back b c)) as (b' & Hy);
    [by apply push_back_spec|]. exists b'. split; [done|]. byte_tac.
Qed.
Lemma appendv_refines i vec : refines (OAppendv i vec).
Proof.
  intros w bufs ss Hrel (Hi & Hd & Hne & Hfit). apply on1_refines; try done.
  intros b rs Hh Hinv Hby. destruct (appended_yields w rs (sget ss i) (mjoin vec) (appendv b vec)) as (b' & Hy);
    [by apply appendv_spec; auto|]. exists b'. split; [done|]. byte_tac.
Qed.
Lemma append_user_data_refines i data meta : refines (OAppendUserData i data meta).
Proof.
  intros w bufs ss Hrel (Hi & Hd & Hfit). apply on1_refines; try done.
  intros b rs Hh Hinv Hby.
  destruct (append_user_data_spec w b (sget ss i) rs data meta Hh Hinv Hfit) as (rc & b' & (w' & Heq & Hrest) & Hrc & _).
  specialize (Hrc Hmem) as ->. exists b'. split; [|byte_tac]. exists w'. unfold mbind', mret. by rewrite Heq.
Qed.
Lemma resize_refines i n c : refines (OResize i n c).
Proof.
  intros w bufs ss Hrel (Hi & Hn & Hfit & Hc). apply on1_refines; try done.
  intros b rs Hh Hinv Hby. destruct (Z.lt_ge_cases n (len (sget ss i))) as [Hlt|Hge].
  - destruct (resize_shrink_spec w b _ rs n c Hh Hinv) as (b' & w' & Heq & Hrest); [lia|].
    exists b'. replace (Z.to_nat (n - len (sget ss i))) with 0%nat by lia. simpl. rewrite app_nil_r.
    split; [|byte_tac]. exists w'. unfold mbind', mret. by rewrite Heq.
  - destruct (appended_yields w rs (sget ss i) (replicate (Z.to_nat (n - len (sget ss i))) c) (resize b n c))
      as (b' & Hy); [by apply resize_grow_spec|]. exists b'. rewrite take_ge by lia. split; [done|]. byte_tac.
Qed.

Lemma pop_front_refines i n : refines (OPopFront i n).
Proof.
  intros w bufs ss Hrel (Hi & Hn). apply on1_refines; try done. intros b rs Hh Hinv Hby.
  destruct (pop_front_yields w b _ rs n Hh Hinv Hn) as (b' & w' & Heq & Hrest).
  exists b'. split; [|byte_tac]. exists w'. unfold mbind', mret. by rewrite Heq.
Qed.
Lemma pop_back_refines i n : refines (OPopBack i n).
Proof.
  intros w bufs ss Hrel (Hi & Hn). apply on1_refines; try done. intros b rs Hh Hinv Hby.
  destruct (pop_back_yields w b _ rs n Hh Hinv Hn) as (b' & w' & Heq & Hrest).
  exists b'. split; [|byte_tac]. exists w'. unfold mbind', mret. by rewrite Heq.
Qed.
Lemma cutn_mem_refines i n : refines (OCutnMem i n).
Proof.
  intros w bufs ss Hrel (Hi & Hn). apply on1_refines; try done. intros b rs Hh Hinv Hby.
  destruct (cutn_mem_yields w b _ rs n Hh Hinv Hn) as (b' & w' & Heq & Hrest).
  exists b'. split; [|byte_tac]. exists w'. unfold mbind', mret. by rewrite Heq.
Qed.
Lemma cut1_refines i : refines (OCut1 i).
Proof.
  intros w bufs ss Hrel Hi. apply on1_refines; try done. intros b rs Hh Hinv Hby.
  destruct (cut1_yields w b _ rs Hh Hinv) as (b' & w' & Heq & Hrest).
  exists b'. split; [|destruct Hby; [constructor|done]]. exists w'. unfold mbind', mret. rewrite Heq.
  split; [|done]. cbn [spec fst]. by destruct (sget ss i).
Qed.
Lemma buf_clear_refines i : refines (OClear i).
Proof.
  intros w bufs ss Hrel Hi. apply on1_refines; try done. intros b rs Hh Hinv Hby.
  destruct (clear_yields w b _ rs Hh Hinv) as (w' & Heq & Hrest).
  exists IOBuf_empty. split; [|byte_tac]. exists w'. unfold mbind', mret. by rewrite Heq.
Qed.

Lemma read_refines w bufs ss i c r :
  related w bufs ss -> has ss i ->
  (forall b rs, holds w b (sget ss i) -> inv w (owned b ++ rs) -> c b w = Some ((r, b), w)) ->
  exists bufs' w', on1 bufs i c w = Some ((r, bufs'), w') /\ related w' bufs' ss.
Proof.
  intros Hrel Hi Hc. pose proof (on1_refines w bufs ss i c r (sget ss i) Hrel Hi) as Hon.
  rewrite (set_same ss i Hi) in Hon. apply Hon.
  intros b rs Hh Hinv Hby. exists b. split; [|done]. exists w. split; [by eapply Hc|].
  split; [done|]. split; [done|apply stable_refl].
Qed.
Lemma length_refines i : refines (OLength i).
Proof.
  intros w bufs ss Hrel Hi. apply (read_refines w bufs ss i); try done. intros b rs Hh Hinv.
  by rewrite (length_holds _ _ _ _ Hinv Hh).
Qed.
Lemma copy_to_refines i n pos : refines (OCopyTo i n pos).
Proof.
  intros w bufs ss Hrel (Hi & Hn & Hp). apply (read_refines w bufs ss i); try done. intros b rs Hh Hinv.
  unfold mbind'. by rewrite (copy_to_spec w b _ _ Hh Hinv n pos Hn Hp).
Qed.
Lemma equals_refines i s : refines (OEquals i s).
Proof.
  intros w bufs ss Hrel Hi. apply (read_refines w bufs ss i); try done. intros b rs Hh Hinv.
  unfold mbind'. by rewrite (equals_spec w b _ _ Hh Hinv s).
Qed.
Lemma fetch_refines i n : refines (OFetch i n).
Proof.
  intros w bufs ss Hrel (Hi & Hn & Hne). apply (read_refines w bufs ss i); try done. intros b rs Hh Hinv.
  unfold mbind'. destruct (fetch_spec w b _ _ Hh Hinv n Hn Hne) as (c & ->). cbn [spec fst]. by destruct (n <=? _).
Qed.

(** Operations on two buffers. *)
Lemma cutn_refines i j n : refines (OCutn i j n).
Proof.
  intros w bufs ss Hrel (Hij & Hfit & Hn). apply on2_refines; try done.
  { destruct Hij as (? & ? & ?). by split_and!. }
  intros b1 b2 rs Hh1 Hh2 Hinv Hy1 Hy2. unfold fits in Hfit.
  destruct (cutn_spec w b1 b2 _ _ rs n Hh1 Hh2 Hinv Hn) as (b1' & b2' & w' & Heq & H1 & H2 & H3 & H4); [lia|].
  exists b1', b2', w'. unfold mbind', mret. rewrite Heq. split; [done|].
  do 4 (split; [done|]). split; byte_tac.
Qed.
Lemma cut_until_refines i j delim : refines (OCutUntil i j delim).
Proof.
  intros w bufs ss Hrel (Hij & Hfit & Hgood). unfold fits in Hfit.
  pose proof Hij as (Hi & Hj & Hne). cbn [exec spec].
  destruct (find_sub delim (sget ss i)) as [p|] eqn:Hf.
  - apply on2_refines; try done. intros b1 b2 rs Hh1 Hh2 Hinv Hy1 Hy2.
    destruct (cut_until_spec w b1 b2 _ _ rs delim Hh1 Hh2 Hinv) as (rc & b1' & b2' & w' & Heq & H3 & H4 & Hres); try done.
    rewrite Hf in Hres. destruct Hres as (-> & H1 & H2). exists b1', b2', w'. unfold mbind', mret. rewrite Heq.
    split; [done|]. do 4 (split; [done|]). split; byte_tac.
  - cbn [fst snd]. match goal with |- context [on2 bufs i j ?f] =>
      pose proof (on2_refines w bufs ss i j f (-1, []) (sget ss i) (sget ss j) Hrel Hij) as Hon end.
    rewrite (set_same ss j Hj), (set_same ss i Hi) in Hon. apply Hon. intros b1 b2 rs Hh1 Hh2 Hinv Hy1 Hy2.
    destruct (cut_until_spec w b1 b2 _ _ rs delim Hh1 Hh2 Hinv) as (rc & b1' & b2' & w' & Heq & H3 & H4 & Hres); try done.
    rewrite Hf in Hres. destruct Hres as (-> & H1 & H2). exists b1', b2', w'. unfold mbind', mret. by rewrite Heq.
Qed.
Lemma append_movable_refines i j : refines (OAppendMovable i j).
Proof.
  intros w bufs ss Hrel (Hij & Hfit & _). apply on2_refines; try done.
  intros b1 b2 rs Hh1 Hh2 Hinv Hy1 Hy2.
  destruct (append_movable_spec w b1 _ b2 _ rs Hh1 Hh2 Hinv Hfit) as (b1' & w' & Heq & H1 & H2 & H3).
  exists b1', IOBuf_empty, w'. unfold mbind', mret. rewrite Heq. split; [done|]. split; [done|].
  split; [apply holds_empty|]. split; [done|]. split; [done|]. split; byte_tac.
Qed.
Lemma swap_refines i j : refines (OSwap i j).
Proof.
  intros w bufs ss Hrel Hij. apply on2_refines; try done.
  intros b1 b2 rs Hh1 Hh2 Hinv Hy1 Hy2. exists b2, b1, w. split; [done|]. split; [done|]. split; [done|].
  split; [|split; [apply stable_refl|done]]. eapply inv_sub_perm; [|exact Hinv].
  intros x. rewrite !cnt_app. lia.
Qed.

(** The second buffer is only read. *)
Lemma on2_read_refines w bufs ss i j c r s1 :
  related w bufs ss -> pair_ok ss i j ->
  (forall b1 b2 rs, holds w b1 (sget ss i) -> holds w b2 (sget ss j) ->
     inv w (owned b1 ++ rs) -> owned b2 ⊆ rs ->
     exists b1', yields w rs (c b1 b2 w) (r, (b1', b2)) b1' s1) ->
  Forall is_byte s1 ->
  exists bufs' w', on2 bufs i j c w = Some ((r, bufs'), w') /\ related w' bufs' (<[i := s1]> ss).
Proof.
  intros Hrel Hij Hc Hs1. pose proof Hij as (_ & Hj & _). pose proof (on2_refines w bufs ss i j c r s1 (sget ss j) Hrel Hij) as Hon.
  rewrite (set_same ss j Hj) in Hon. apply Hon. intros b1 b2 rs Hh1 Hh2 Hinv Hy1 Hy2.
  destruct (Hc b1 b2 (owned b2 ++ rs) Hh1 Hh2 Hinv) as (b1' & w' & Heq & Hh' & Hi' & Hst); [set_solver|].
  exists b1', b2, w'. split; [done|]. split; [done|].
  split; [eapply holds_stable; [exact Hst|set_solver|done]|]. split; [done|].
  split; [eapply stable_sub; [|exact Hst]; set_solver|done].
Qed.
Lemma related_bytes w bufs ss i : related w bufs ss -> has ss i -> Forall is_byte (sget ss i).
Proof. intros Hrel Hi. by destruct (related_split1 w bufs ss i Hrel Hi) as (? & ? & _ & _ & _ & _ & ? & _). Qed.

Lemma append_buf_refines i j : refines (OAppendBuf i j).
Proof.
  intros w bufs ss Hrel (Hij & Hfit & _). pose proof Hij as (Hi & Hj & _). apply on2_read_refines; try done.
  - intros b1 b2 rs Hh1 Hh2 Hinv Hsub.
    destruct (append_buf_yields w b1 _ b2 _ rs Hh1 Hh2 Hinv Hsub Hfit) as (b' & w' & Heq & Hrest).
    exists b', w'. unfold mbind', mret. by rewrite Heq.
  - apply Forall_app. split; by eapply related_bytes.
Qed.
Lemma assign_refines i j : refines (OAssign i j).
Proof.
  intros w bufs ss Hrel Hij. pose proof Hij as (Hi & Hj & _). apply on2_read_refines; try done.
  - intros b1 b2 rs Hh1 Hh2 Hinv Hsub.
    destruct (assign_yields w b1 _ b2 _ rs Hh1 Hh2 Hinv Hsub) as (b' & w' & Heq & Hrest).
    exists b', w'. unfold mbind', mret. by rewrite Heq.
  - by eapply related_bytes.
Qed.
Lemma append_to_refines i j n pos : refines (OAppendTo i j n pos).
Proof.
  intros w bufs ss Hrel (Hij & Hfit & Hn & Hp). assert (Hji : pair_ok ss i j).
  { destruct Hij as (? & ? & ?). by split_and!. }
  cbn [spec fst snd exec]. pose proof Hji as (Hi & _).
  assert (Hss : forall s2, set1 ss j s2 = <[i:=sget ss i]> (<[j:=s2]> ss)).
  { intros s2. destruct Hji as (? & ? & Hne). unfold set1. rewrite list_insert_insert_ne by done.
    by rewrite set_same. }
  rewrite Hss. apply on2_refines; try done. intros b1 b2 rs Hh1 Hh2 Hinv Hy1 Hy2.
  assert (Hinv' : inv w (owned b2 ++ owned b1 ++ rs)).
  { eapply inv_sub_perm; [|exact Hinv]. intros x. rewrite !cnt_app. lia. }
  unfold fits in Hfit. set (t := take (Z.to_nat n) (drop (Z.to_nat pos) (sget ss i))).
  assert (Ht : len t <= len (sget ss i)) by (unfold t; rewrite length_take, length_drop; lia).
  destruct (append_to_yields w b1 _ b2 _ (owned b1 ++ rs) n pos Hh1 Hh2 Hinv') as (b' & w' & Heq & H1 & H2 & H3);
    [set_solver|done|done|fold t; lia|]. fold t in Heq, H1.
  exists b1, b', w'. unfold mbind', mret. rewrite Heq. split; [done|].
  split; [eapply holds_stable; [exact H3|set_solver|done]|]. split; [done|].
  split. { eapply inv_sub_perm; [|exact H2]. intros x. rewrite !cnt_app. lia. }
  split; [eapply stable_sub; [|exact H3]; set_solver|]. split; [done|]. unfold t. byte_tac.
Qed.

#[local] Hint Resolve append_refines push_back_refines appendv_refines append_user_data_refines
  resize_refines pop_front_refines pop_back_refines cutn_mem_refines cut1_refines buf_clear_refines
  length_refines copy_to_refines equals_refines fetch_refines cutn_refines cut_until_refines
  append_movable_refines swap_refines append_buf_refines assign_refines append_to_refines : brpc.

Lemma exec_refines o : refines o.
Proof. destruct o; eauto with brpc. Qed.

Lemma buf_run_refines os w bufs ss :
  related w bufs ss -> ops_ok os ss ->
  exists bufs' w', run os bufs w = Some (((spec_run os ss).1, bufs'), w') /\
    related w' bufs' (spec_run os ss).2.
Proof.
  revert w bufs ss. induction os as [|o os IH]; intros w bufs ss Hrel Hok.
  - by exists bufs, w.
  - destruct Hok as [Ho Hok]. destruct (exec_refines o w bufs ss Hrel Ho) as (bufs1 & w1 & Heq & Hrel1).
    cbn [run spec_run]. destruct (spec o ss) as [r ss1]. simpl in *.
    destruct (IH w1 bufs1 ss1 Hrel1 Hok) as (bufs2 & w2 & Heq2 & Hrel2).
    destruct (spec_run os ss1) as [rest ss2]. simpl in *.
    exists bufs2, w2. unfold mbind', mret. by rewrite Heq, Heq2.
Qed.
End Refine.

Lemma related_init n : related w0 (replicate n IOBuf_empty) (replicate n []).
Proof.
  split.
  - assert (owned_all (replicate n IOBuf_empty) = []) as ->; [|apply inv_w0].
    induction n as [|n IH]; [done|]. unfold owned_all in *. simpl. by rewrite IH.
  - induction n; constructor; [apply holds_empty|done].
  - apply Forall_replicate. constructor.
Qed.

Lemma holds_nil w b rs : inv w rs -> holds w b [] -> owned b = [].
Proof.
  intros Hi Hh. pose proof (length_holds _ _ _ _ Hi Hh) as Hl. destruct Hh as (Hr & _).
  rewrite (length_spec b _ Hr) in Hl. unfold owned.
  by rewrite (total_zero _ (repr_shape _ _ Hr) Hl).
Qed.
Lemma owned_all_nil w rs bufs ss : inv w rs -> Forall2 (holds w) bufs ss ->
  Forall (fun s => s = []) ss -> owned_all bufs = [].
Proof.
  intros Hi Hh. induction Hh as [|b s bufs ss Hb Hh IH]; intros He; [done|].
  apply Forall_cons in He as [-> He]. unfold owned_all in *. simpl.
  by rewrite (IH He), (holds_nil w b rs Hi Hb).
Qed.
Lemma empty_related w bufs ss : related w bufs ss -> Forall (fun s => s = []) ss -> inv w [].
Proof. intros [Hi Hh _] He. by rewrite (owned_all_nil w _ bufs ss Hi Hh He) in Hi. Qed.

(** Only the thread's cache is left when nobody holds a reference. *)
Lemma inv_nil_heap w : inv w [] -> block_head w = None -> heap w = ∅.
Proof.
  intros (tc & Hi & _) Hh. rewrite Hh in Hi. pose proof (inv_chain _ _ _ _ Hi) as Hc.
  destruct tc as [|k tc]; [|by destruct Hc]. apply map_eq. intros k. rewrite lookup_empty.
  destruct (heap w !! k) as [blk|] eqn:Hk; [|done].
  destruct (inv_block _ _ _ _ Hi k blk Hk) as (_ & Hn & Hp). simpl in Hn. lia.
Qed.

(** ** The contract *)

(** C1: When malloc never fails, every sequence of IOBuf operations within the contract on
    any number of fresh buffers answers like the specification on byte strings and leaves
    the buffers holding exactly those strings, whatever blocks they share; every operation
    returns without undefined behaviour. The contract (ops_ok): the buffers of one operation
    are distinct, counts are not negative, buffers stay below 2^29 bytes, cut_until gets a
    delimiter of one byte or of 2 to 8 bytes of 7-bit text, appendv gets vectors that are
    not all empty, and fetch is called on a buffer that is not empty. *)
Theorem iobuf_refines_byte_strings `{Env} n os :
  (forall k, malloc_ok k = true) -> ops_ok os (replicate n []) ->
  exists bufs w, run os (replicate n IOBuf_empty) w0 = Some (((spec_run os (replicate n [])).1, bufs), w) /\
    Forall2 (holds w) bufs (spec_run os (replicate n [])).2.
Proof.
  intros Hm Hok. destruct (buf_run_refines Hm os w0 _ _ (related_init n) Hok) as (bufs & w & Heq & Hrel).
  exists bufs, w. split; [done|apply Hrel].
Qed.

(** A client session: headers and a body are assembled, cut at the blank line,
    the rest is shared and partly consumed. *)
Definition session : list op :=
  [OAppend 0 [71; 69; 84; 13; 10]; OAppendUserData 0 [13; 10; 7; 8; 9] 42;
   OCutUntil 0 1 [13; 10; 13; 10]; OAppendBuf 2 0; OCutn 2 1 2; OAppendv 0 [[1]; []; [2; 3]];
   OPopBack 0 1; OResize 2 4 0; OAppendMovable 0 2; OCut1 0; OFetch 0 3; OEquals 1 [71; 69; 84; 7; 8]].

Lemma iobuf_refines_witness :
  exists bufs w, run (H := plenty) session (replicate 3 IOBuf_empty) w0 =
      Some (((spec_run session (replicate 3 [])).1, bufs), w) /\
    Forall2 (holds w) bufs (spec_run session (replicate 3 [])).2.
Proof.
  apply (@iobuf_refines_byte_strings plenty 3 session); [done|].
  vm_compute.
  repeat match goal with
  | |- _ /\ _ => split
  | |- _ \/ _ => right
  | |- Forall _ _ => constructor
  | |- exists _, _ => eexists; reflexivity
  end; discriminate || reflexivity || exact I.
Defined.

(** Emptying every buffer. *)
Definition clear_all (n : nat) : list op := map OClear (seq 0 n).

Lemma clear_all_ok n k ss : (k + n <= Datatypes.length ss)%nat -> ops_ok (map OClear (seq k n)) ss.
Proof.
  revert k ss. induction n as [|n IH]; intros k ss Hl; simpl; [done|].
  split; [apply lookup_lt_is_Some_2; lia|]. apply IH. unfold set1. rewrite length_insert. lia.
Qed.
Lemma clear_all_spec n k ss i : (k + n <= Datatypes.length ss)%nat ->
  let ss' := (spec_run (map OClear (seq k n)) ss).2 in
  Datatypes.length ss' = Datatypes.length ss /\ ((k <= i < k + n)%nat -> ss' !! i = Some []) /\
  (~ (k <= i < k + n)%nat -> ss' !! i = ss !! i).
Proof.
  revert k ss. induction n as [|n IH]; intros k ss Hl; simpl; [split; [done|]; split; [lia|done]|].
  destruct (IH (S k) (set1 ss k [])) as (H1 & H2 & H3); [unfold set1; rewrite length_insert; lia|].
  destruct (spec_run (map OClear (seq (S k) n)) (set1 ss k [])) as [r ss'] eqn:E. simpl in *.
  unfold set1 in *. rewrite length_insert in H1. split; [done|]. split.
  - intros Hik. destruct (decide (i = k)) as [->|]; [|apply H2; lia].
    rewrite H3 by lia. apply list_lookup_insert_eq. lia.
  - intros Hik. rewrite H3 by lia. apply list_lookup_insert_ne. lia.
Qed.

Lemma spec_run_length os ss : Datatypes.length (spec_run os ss).2 = Datatypes.length ss.
Proof.
  revert ss. induction os as [|o os IH]; intros ss; simpl; [done|].
  destruct (spec o ss) as [r ss'] eqn:E. specialize (IH ss'). destruct (spec_run os ss') as [rest ss'']. simpl in *.
  rewrite IH. assert (ss' = (spec o ss).2) as -> by (by rewrite E). clear.
  destruct o; simpl; unfold set1; rewrite ?length_insert; try done. destruct (find_sub delim _); simpl; rewrite ?length_insert; done.
Qed.

(** C14: No block leaks: when malloc never fails, after any sequence of IOBuf operations
    within the contract of iobuf_refines_byte_strings (distinct buffers, below 2^29 bytes,
    delimiters of one byte or of 7-bit text, no appendv of empty vectors only, fetch only on
    buffers that are not empty), clearing the buffers and dropping the cache of the thread
    (remove_tls_block_chain, run at thread exit) leaves no block allocated. *)
Theorem iobuf_no_leak `{Env} n os :
  (forall k, malloc_ok k = true) -> ops_ok os (replicate n []) ->
  exists res bufs w w' res', run os (replicate n IOBuf_empty) w0 = Some ((res, bufs), w) /\
    run (clear_all n) bufs w = Some (res', w') /\
    exists w'', remove_tls_block_chain w' = Some (tt, w'') /\ heap w'' = ∅.
Proof.
  intros Hm Hok. destruct (buf_run_refines Hm os w0 _ _ (related_init n) Hok) as (bufs & w & Heq & Hrel).
  set (ss := (spec_run os (replicate n [])).2) in *.
  assert (Hlen : Datatypes.length ss = n) by (unfold ss; by rewrite spec_run_length, length_replicate).
  destruct (buf_run_refines Hm (clear_all n) w bufs ss Hrel) as (bufs' & w' & Heq' & Hrel');
    [apply clear_all_ok; lia|].
  assert (Hi : inv w' []).
  { eapply empty_related; [exact Hrel'|]. apply Forall_lookup. intros i s Hs.
    destruct (clear_all_spec n 0 ss i) as (H1 & H2 & _); [lia|]. unfold clear_all in *.
    apply lookup_lt_Some in Hs as Hlt. rewrite H2 in Hs by lia. by simplify_eq. }
  destruct (remove_tls_block_chain_spec w' [] Hi) as (w2 & Heq2 & Hi2 & _ & Hh & _).
  eexists _, bufs, w, w', _. split; [exact Heq|]. split; [exact Heq'|]. exists w2. split; [done|].
  by apply inv_nil_heap.
Qed.

Lemma iobuf_no_leak_witness :
  exists res bufs w w' res', run (H := plenty) session (replicate 3 IOBuf_empty) w0 = Some ((res, bufs), w) /\
    run (H := plenty) (clear_all 3) bufs w = Some (res', w') /\
    exists w'', remove_tls_block_chain w' = Some (tt, w'') /\ heap w'' = ∅.
Proof.
  apply (@iobuf_no_leak plenty 3 session); [done|]. vm_compute.
  repeat match goal with
  | |- _ /\ _ => split
  | |- _ \/ _ => right
  | |- Forall _ _ => constructor
  | |- exists _, _ => eexists; reflexivity
  end; discriminate || reflexivity || exact I.
Defined.

End IOBufSpec.
