(* ===== verification/IOBufWriter.v ===== *)
(** * Writing IOBufs out (butil/iobuf.cpp: cut_into_writer, cut_multiple_into_writer)
      and reserved areas (make_area and its decoders)

    The writer is outside the buffer: it is given iovecs and answers how many
    bytes it took ([Writer], documented at butil/writer.h / writev(2)).  Whatever
    it answers, the buffers lose exactly the bytes it took, in order. *)
From stdpp Require Import base list gmap.
From Stdlib Require Import ZArith Lia Bool.
From S2P Require Import Prelude IOBufBlock IOBufView IOBuf IOBufSpec.

Open Scope Z_scope.
Open Scope m_scope.

Module IOBufWriter.
Import Block View IOBuf IOBufSpec.

Section Writing.
Context `{Writer}.
(** A writer takes at most what it is given. *)
Context (Hwriter : forall vec, WriteV vec <= len (mjoin vec)).

Section Fill.
Context (w : World) (b : buffer) (bs : list Z) (rs : list bid).
Context (Hh : holds w b bs) (Hi : inv w rs).

Lemma fill_iovec_spec k nvec cur_len size_hint :
  0 <= nvec -> nvec + Z.of_nat k <= len (view_list b) ->
  exists vec, fill_iovec b k nvec cur_len size_hint w = Some (vec, w) /\
    mjoin vec `prefix_of` bytes w (drop (Z.to_nat nvec) (view_list b)) /\
    (Datatypes.length vec <= k)%nat /\ ((0 < k)%nat -> 0 < len (mjoin vec)).
Proof.
  revert nvec cur_len. induction k as [|k IH]; intros nvec cur_len Hn Hk; cbn [fill_iovec].
  - exists []. split; [done|]. split; [apply prefix_nil|]. split; [done|lia].
  - destruct (ref_at_holds w b bs rs Hh Hi nvec) as (r & Hat & Hlk & (_ & Hs & _) & Hok & Hlen & Hby); [lia|].
    unfold mbind', mret. rewrite Hat, (read_ref_all w r rs Hi Hok), Hby. zcase.
    + destruct (IH (nvec + 1) (cur_len + length r)) as (vec & Heq & Hpre & Hl & _); [lia|lia|].
      rewrite Heq. exists (ref_bytes w r :: vec). split; [done|].
      split; [by apply prefix_app|]. simpl. split; [lia|]. intros _. rewrite length_app. lia.
    + exists [ref_bytes w r]. split; [done|]. simpl. rewrite app_nil_r.
      split; [by apply prefix_app_r|]. split; [lia|]. intros _. lia.
Qed.

Lemma piece_iovec_spec k j room :
  0 <= j -> j + Z.of_nat k = len (view_list b) ->
  exists vec, piece_iovec b k j room w = Some (vec, w) /\
    mjoin vec `prefix_of` bytes w (drop (Z.to_nat j) (view_list b)) /\
    (Datatypes.length vec <= room)%nat /\
    ((Datatypes.length vec < room)%nat -> mjoin vec = bytes w (drop (Z.to_nat j) (view_list b))).
Proof.
  revert j room. induction k as [|k IH]; intros j room Hj Hk; cbn [piece_iovec].
  - exists []. rewrite drop_ge by lia. split; [by destruct room|]. split; [apply prefix_nil|].
    split; [simpl; lia|done].
  - destruct room as [|room].
    { exists []. split; [done|]. split; [apply prefix_nil|]. simpl. split; lia. }
    destruct (ref_at_holds w b bs rs Hh Hi j) as (r & Hat & Hlk & (_ & Hs & _) & Hok & Hlen & Hby); [lia|].
    unfold mbind', mret. rewrite Hat, (read_ref_all w r rs Hi Hok), Hby.
    destruct (IH (j + 1) room) as (vec & Heq & Hpre & Hl & Hall); [lia|lia|]. rewrite Heq.
    exists (ref_bytes w r :: vec). split; [done|]. split; [by apply prefix_app|].
    split; [simpl; lia|]. intros Hlt. simpl in *. rewrite Hall; [done|lia].
Qed.
End Fill.

(** What a call of [cut_into_writer] does: [nw] is the writer's answer for
    vectors that hold a prefix of the buffer. *)
Lemma cut_into_writer_spec w b bs rs size_hint :
  holds w b bs -> inv w (owned b ++ rs) -> bs <> [] ->
  exists vec b', mjoin vec `prefix_of` bs /\ 0 < len (mjoin vec) /\ len vec <= IOBUF_IOV_MAX /\
    yields w rs (cut_into_writer b size_hint w) (WriteV vec, b') b' (drop (Z.to_nat (WriteV vec)) bs).
Proof.
  intros Hh Hi Hne. unfold cut_into_writer. pose proof Hh as (Hr & _ & Hb).
  assert (Hl : view_list b <> []) by (intros E; rewrite E in Hb; by subst).
  rewrite (empty_spec b _ Hr), bool_decide_eq_false_2 by done. rewrite (ref_num_spec b _ Hr).
  assert (0 < len (view_list b)) by (destruct (view_list b); simpl; done || lia). unfold IOBUF_IOV_MAX.
  destruct (fill_iovec_spec w b bs _ Hh Hi (Z.to_nat (Z.min (len (view_list b)) 256)) 0 0 size_hint)
    as (vec & Heq & Hpre & Hlv & Hpos); [lia|lia|].
  simpl in Hpre. rewrite drop_0, Hb in Hpre. unfold mbind' at 1. rewrite Heq.
  pose proof (Hwriter vec). pose proof (prefix_length _ _ Hpre). exists vec. zcase.
  - destruct (pop_front_yields w b bs rs (WriteV vec) Hh Hi) as (b' & w' & Heq2 & Hrest); [lia|].
    exists b'. split; [done|]. split; [apply Hpos; lia|]. split; [lia|]. exists w'. unfold mbind', mret.
    by rewrite Heq2.
  - exists b. split; [done|]. split; [apply Hpos; lia|]. split; [lia|].
    replace (Z.to_nat (WriteV vec)) with 0%nat by lia. rewrite drop_0. by apply yields_ret.
Qed.

(** ** Several buffers at once *)
Lemma pieces_iovec_spec w pieces ss rs room :
  Forall2 (holds w) pieces ss -> inv w rs ->
  exists vec, pieces_iovec pieces room w = Some (vec, w) /\ mjoin vec `prefix_of` mjoin ss /\
    (Datatypes.length vec <= room)%nat.
Proof.
  intros Hall Hi. revert room. induction Hall as [|b s pieces ss Hh Hall IH]; intros room; cbn [pieces_iovec].
  - exists []. split; [done|]. split; [done|simpl; lia].
  - pose proof Hh as (Hr & _ & Hb). rewrite (ref_num_spec b _ Hr).
    destruct (piece_iovec_spec w b s rs Hh Hi (Z.to_nat (len (view_list b))) 0 room)
      as (v & Heq & Hpre & Hlv & Hfull); [lia|lia|].
    simpl in Hpre, Hfull. rewrite drop_0, Hb in Hpre, Hfull.
    destruct (IH (room - Datatypes.length v)%nat) as (rest & Heq2 & Hpre2 & Hlr).
    exists (v ++ rest). unfold mbind', mret. rewrite Heq, Heq2. split; [done|].
    rewrite join_app, length_app. split; [|lia]. simpl.
    destruct (decide (Datatypes.length v < room)%nat) as [Hlt|Hge].
    + rewrite Hfull by done. by apply prefix_app.
    + destruct rest; [|simpl in Hlr; lia]. simpl. rewrite app_nil_r. by apply prefix_app_r.
Qed.

(** The strings left when [n] bytes are popped from the front of the first ones. *)
Fixpoint pop_strings (ss : list (list Z)) (n : Z) : list (list Z) :=
  match ss with
  | [] => []
  | s :: ss' => drop (Z.to_nat n) s :: pop_strings ss' (n - Z.min n (len s))
  end.
Lemma pop_strings_join ss n : 0 <= n -> mjoin (pop_strings ss n) = drop (Z.to_nat n) (mjoin ss).
Proof.
  revert n. induction ss as [|s ss IH]; intros n Hn; simpl; [by rewrite drop_nil|].
  rewrite IH by lia. destruct (Z.le_gt_cases (len s) n).
  - rewrite (drop_ge s), drop_app_ge by lia. simpl. f_equal. lia.
  - rewrite drop_app_le by lia. replace (Z.to_nat (n - Z.min n (len s))) with 0%nat by lia.
    by rewrite drop_0.
Qed.
Lemma pop_strings_0 ss : pop_strings ss 0 = ss.
Proof. induction ss as [|s ss IH]; simpl; [done|]. rewrite Z.min_l, Z.sub_diag, drop_0, IH by lia. done. Qed.

Lemma pop_pieces_spec w pieces ss rs n :
  Forall2 (holds w) pieces ss -> inv w (owned_all pieces ++ rs) -> 0 <= n ->
  exists pieces' w', pop_pieces pieces n w = Some (pieces', w') /\
    Forall2 (holds w') pieces' (pop_strings ss n) /\ inv w' (owned_all pieces' ++ rs) /\ stable w w' rs.
Proof.
  intros Hall. revert w rs n Hall. revert ss. induction pieces as [|b pieces IH]; intros ss w rs n Hall Hi Hn.
  - inversion Hall; subst. exists [], w. split; [done|]. split; [constructor|]. split; [done|apply stable_refl].
  - inversion Hall as [|? s ? ss' Hh Hall']; subst. cbn [pop_pieces pop_strings].
    assert (Hi1 : inv w (owned b ++ owned_all pieces ++ rs)).
    { eapply inv_sub_perm; [|exact Hi]. intros x. unfold owned_all. simpl. rewrite !cnt_app. lia. }
    destruct (pop_front_yields w b s (owned_all pieces ++ rs) n Hh Hi1 Hn) as (b' & w1 & Heq & Hh1 & Hi2 & Hst1).
    unfold mbind', mret. rewrite Heq.
    assert (Hall1 : Forall2 (holds w1) pieces ss') by (eapply Forall2_holds_stable; [exact Hst1|set_solver|done]).
    destruct (Z.eqb_spec (n - Z.min n (len s)) 0) as [H0|H0].
    + exists (b' :: pieces), w1. split; [done|]. rewrite H0, pop_strings_0. split; [by constructor|].
      split; [|eapply stable_sub; [|exact Hst1]; set_solver].
      eapply inv_sub_perm; [|exact Hi2]. intros x. unfold owned_all. simpl. rewrite !cnt_app. lia.
    + destruct (IH ss' w1 (owned b' ++ rs) (n - Z.min n (len s))) as (ps & w2 & Heq2 & Hall2 & Hi3 & Hst2);
        [done| |lia|].
      { eapply inv_sub_perm; [|exact Hi2]. intros x. rewrite !cnt_app. lia. }
      exists (b' :: ps), w2. rewrite Heq2. split; [done|].
      split; [constructor; [eapply holds_stable; [exact Hst2|set_solver|done]|done]|]. split.
      * eapply inv_sub_perm; [|exact Hi3]. intros x. unfold owned_all. simpl. rewrite !cnt_app. lia.
      * eapply stable_trans; [eapply stable_sub; [|exact Hst1]; set_solver|].
        eapply stable_sub; [|exact Hst2]. set_solver.
Qed.

Lemma cut_multiple_spec w pieces ss rs :
  Forall2 (holds w) pieces ss -> inv w (owned_all pieces ++ rs) -> (2 <= Datatypes.length pieces)%nat ->
  exists vec pieces' w', mjoin vec `prefix_of` mjoin ss /\ len vec <= IOBUF_IOV_MAX /\
    cut_multiple_into_writer pieces w = Some ((WriteV vec, pieces'), w') /\
    Forall2 (holds w') pieces' (pop_strings ss (Z.max 0 (WriteV vec))) /\
    inv w' (owned_all pieces' ++ rs) /\ stable w w' rs.
Proof.
  intros Hall Hi Hlen. destruct pieces as [|p1 [|p2 ps]]; simpl in Hlen; try lia.
  unfold cut_multiple_into_writer. set (pieces := p1 :: p2 :: ps) in *.
  destruct (pieces_iovec_spec w pieces ss _ (Z.to_nat IOBUF_IOV_MAX) Hall Hi) as (vec & Heq & Hpre & Hl).
  exists vec. unfold mbind', mret. rewrite Heq. unfold IOBUF_IOV_MAX in *. zcase.
  - exists pieces, w. split; [done|]. split; [lia|]. split; [done|]. rewrite Z.max_l, pop_strings_0 by lia.
    split; [done|]. split; [done|apply stable_refl].
  - destruct (pop_pieces_spec w pieces ss rs (WriteV vec) Hall Hi) as (ps' & w' & Heq2 & Hrest); [lia|].
    exists ps', w'. rewrite Heq2, Z.max_r by lia. split; [done|]. split; [lia|]. done.
Qed.
End Writing.

(** ** Areas *)
Lemma area_fields i o s :
  0 <= i <= MAX_REF_INDEX -> 0 <= o <= MAX_REF_OFFSET -> 0 <= s <= MAX_AREA_SIZE ->
  make_area i o s = (i * 2 ^ 15 + o) * 2 ^ 30 + s.
Proof.
  change MAX_REF_INDEX with (2 ^ 19 - 1). change MAX_REF_OFFSET with (2 ^ 15 - 1).
  change MAX_AREA_SIZE with (2 ^ 30 - 1). intros Hi Ho Hs. unfold make_area.
  change MAX_REF_INDEX with (2 ^ 19 - 1). change MAX_REF_OFFSET with (2 ^ 15 - 1).
  change MAX_AREA_SIZE with (2 ^ 30 - 1). rewrite !(proj2 (Z.ltb_ge _ _)) by lia. cbn [orb].
  unfold REF_OFFSET_BITS, AREA_SIZE_BITS. rewrite <- Z.shiftl_shiftl, <- Z.shiftl_lor by lia.
  assert (Hor : forall z c k, 0 <= k -> 0 <= c < 2 ^ k -> Z.lor (Z.shiftl z k) c = z * 2 ^ k + c).
  { intros z c k Hk Hc. rewrite <- Z.shiftl_mul_pow2 by done. symmetry.
    rewrite <- (Z.mod_small c (2 ^ k)) by done. rewrite <- Z.land_ones by done.
    rewrite Z.add_nocarry_lxor, Z.lxor_lor; [done|..];
      (apply Z.bits_inj'; intros n Hn; rewrite !Z.land_spec, Z.bits_0; destruct (Z.lt_ge_cases n k);
       [by rewrite Z.shiftl_spec_low|rewrite Z.ones_spec_high by lia; by rewrite !andb_false_r]). }
  rewrite (Hor i o 15), (Hor _ s 30) by lia. done.
Qed.

Lemma area_decode i o s :
  0 <= i <= MAX_REF_INDEX -> 0 <= o <= MAX_REF_OFFSET -> 0 <= s <= MAX_AREA_SIZE ->
  let a := make_area i o s in
  get_area_ref_index a = i /\ get_area_ref_offset a = o /\ get_area_size a = s.
Proof.
  intros Hi Ho Hs. rewrite area_fields by done. unfold get_area_ref_index, get_area_ref_offset, get_area_size.
  change MAX_REF_INDEX with (2 ^ 19 - 1) in *. change MAX_REF_OFFSET with (2 ^ 15 - 1) in *.
  change MAX_AREA_SIZE with (2 ^ 30 - 1) in *. unfold REF_OFFSET_BITS, AREA_SIZE_BITS.
  rewrite !land_mask, !Z.shiftr_div_pow2 by lia. change (2 ^ (15 + 30)) with (2 ^ 15 * 2 ^ 30).
  rewrite (Z.mul_comm (2 ^ 15)), <- Z.div_div by lia.
  rewrite Z.div_add_l, (Z.div_small s) by lia. rewrite Z.add_0_r.
  rewrite Z.div_add_l, (Z.div_small o) by lia. rewrite Z.add_0_r.
  split; [apply Z.mod_small; lia|]. split.
  - rewrite Z.add_comm, Z.mod_add by lia. apply Z.mod_small. lia.
  - rewrite Z.add_comm, Z.mod_add by lia. apply Z.mod_small. lia.
Qed.

(** Writing several buffers out in one call.  The writer is offered at most 256
    vectors whose bytes are a prefix of the concatenated buffers; when it takes
    [nw] of them, [nw] is returned and exactly the first [nw] bytes of the
    concatenation are gone, across buffer boundaries; when it answers an error (or
    0) the buffers are unchanged. *)
Theorem cut_multiple_pops_what_was_written `{Writer} w pieces ss rs :
  (forall vec, WriteV vec <= len (mjoin vec)) ->
  Forall2 (holds w) pieces ss -> inv w (owned_all pieces ++ rs) -> (2 <= Datatypes.length pieces)%nat ->
  exists vec nw pieces' ss' w', mjoin vec `prefix_of` mjoin ss /\ len vec <= IOBUF_IOV_MAX /\ nw = WriteV vec /\
    cut_multiple_into_writer pieces w = Some ((nw, pieces'), w') /\
    Forall2 (holds w') pieces' ss' /\ mjoin ss' = drop (Z.to_nat nw) (mjoin ss) /\
    inv w' (owned_all pieces' ++ rs) /\ stable w w' rs.
Proof.
  intros Hw Hall Hi Hl. destruct (cut_multiple_spec Hw w pieces ss rs Hall Hi Hl)
    as (vec & ps & w' & H1 & H2 & H3 & H4 & H5 & H6).
  exists vec, (WriteV vec), ps, (pop_strings ss (Z.max 0 (WriteV vec))), w'.
  do 5 (split; [done|]). split; [|done]. rewrite pop_strings_join by lia. f_equal. lia.
Qed.

(** A writer that takes at most [n] bytes. *)
Definition slow_writer (n : Z) : Writer := {| WriteV := fun vec => Z.min n (len (mjoin vec)) |}.

Lemma cut_multiple_witness :
  exists bufs w, run (H := plenty) [OAppend 0 [1; 2]; OAppend 1 [3; 4; 5]] [IOBuf_empty; IOBuf_empty] w0 =
      Some (([(0, []); (0, [])], bufs), w) /\
  exists vec nw pieces' ss' w', mjoin vec `prefix_of` mjoin [[1; 2]; [3; 4; 5]] /\ len vec <= IOBUF_IOV_MAX /\
    nw = WriteV (Writer := slow_writer 3) vec /\
    cut_multiple_into_writer (H0 := slow_writer 3) bufs w = Some ((nw, pieces'), w') /\
    Forall2 (holds w') pieces' ss' /\ mjoin ss' = drop (Z.to_nat nw) (mjoin [[1; 2]; [3; 4; 5]]) /\
    inv w' (owned_all pieces' ++ []) /\ stable w w' [].
Proof.
  destruct (@buf_run_refines plenty ltac:(done) [OAppend 0 [1; 2]; OAppend 1 [3; 4; 5]] w0 _ _ (related_init 2))
    as (bufs & w & Heq & [Hi Hh _]).
  { split; [|split; [|done]]; (split; [by eexists|]; split; [repeat constructor; vm_compute; discriminate|done]). }
  exists bufs, w. split; [exact Heq|].
  apply (@cut_multiple_pops_what_was_written (slow_writer 3) w bufs [[1; 2]; [3; 4; 5]] []).
  - intros vec. apply Z.le_min_r.
  - exact Hh.
  - rewrite app_nil_r. exact Hi.
  - rewrite (Forall2_length _ _ _ Hh). reflexivity.
Defined.

(** [make_area] packs a position losslessly: within its three limits the index,
    the offset and the size are read back, and outside them the area is invalid. *)
Theorem area_roundtrip i o s :
  0 <= i -> 0 <= o -> 0 < s ->
  (i <= MAX_REF_INDEX /\ o <= MAX_REF_OFFSET /\ s <= MAX_AREA_SIZE ->
     let a := make_area i o s in
     a <> INVALID_AREA /\ get_area_ref_index a = i /\ get_area_ref_offset a = o /\ get_area_size a = s) /\
  (MAX_REF_INDEX < i \/ MAX_REF_OFFSET < o \/ MAX_AREA_SIZE < s -> make_area i o s = INVALID_AREA).
Proof.
  intros Hi Ho Hs. split.
  - intros (Hi' & Ho' & Hs'). split.
    + rewrite area_fields by lia. unfold INVALID_AREA. lia.
    + apply area_decode; lia.
  - intros Hbig. unfold make_area.
    destruct (Z.ltb_spec MAX_REF_INDEX i), (Z.ltb_spec MAX_REF_OFFSET o), (Z.ltb_spec MAX_AREA_SIZE s);
      (done || lia).
Qed.

Lemma area_roundtrip_witness :
  (5 <= MAX_REF_INDEX /\ 100 <= MAX_REF_OFFSET /\ 4096 <= MAX_AREA_SIZE ->
     let a := make_area 5 100 4096 in
     a <> INVALID_AREA /\ get_area_ref_index a = 5 /\ get_area_ref_offset a = 100 /\ get_area_size a = 4096) /\
  (MAX_REF_INDEX < 5 \/ MAX_REF_OFFSET < 100 \/ MAX_AREA_SIZE < 4096 -> make_area 5 100 4096 = INVALID_AREA).
Proof. apply (area_roundtrip 5 100 4096); lia. Defined.

End IOBufWriter.
