(* ===== verification/IOBufEdge.v ===== *)
(** * IOBuf at the edge of its contract

    The delimiter search stated against first occurrences, and the inputs on
    which the operations of butil/iobuf.h do something else than their comments
    say: binary and NUL-led delimiters, [fetch(d, 0)], empty vectors, user data
    of more than 2^31 bytes. *)
From stdpp Require Import base list gmap.
From Stdlib Require Import ZArith Lia Bool.
From S2P Require Import Prelude IOBufBlock IOBufView IOBuf IOBufSearch IOBufSpec.

Open Scope Z_scope.
Open Scope m_scope.

Module IOBufEdge.
Import Block View IOBuf IOBufSearch IOBufSpec.

(** [delim] occurs in [bs] at position [p]. *)
Definition occurs (delim bs : list Z) (p : nat) : Prop :=
  take (Datatypes.length delim) (drop p bs) = delim.

Lemma find_sub_first delim bs p : delim <> [] ->
  find_sub delim bs = Some p <-> occurs delim bs p /\ forall q, (q < p)%nat -> ~ occurs delim bs q.
Proof.
  intros Hne. revert p. induction bs as [|c bs IH]; intros p.
  - simpl. rewrite take_nil, bool_decide_eq_false_2 by congruence. split; [done|].
    intros [Ho _]. unfold occurs in Ho. rewrite drop_nil, take_nil in Ho. congruence.
  - cbn [find_sub]. case_bool_decide as Hd.
    + split.
      * intros [= <-]. split; [done|lia].
      * intros [_ Hq]. destruct p as [|p]; [done|]. exfalso. by apply (Hq 0%nat); [lia|].
    + destruct p as [|p].
      * split; [by destruct (find_sub delim bs)|]. intros [Ho _]. by unfold occurs in Ho.
      * transitivity (find_sub delim bs = Some p).
        { destruct (find_sub delim bs) as [q|]; simpl; split; congruence. }
        rewrite IH. split; intros [Ho Hq]; (split; [exact Ho|]); intros q Hlt Hoq.
        -- destruct q as [|q]; [done|]. apply (Hq q); [lia|exact Hoq].
        -- apply (Hq (S q)); [lia|exact Hoq].
Qed.
Lemma find_sub_none delim bs : delim <> [] -> find_sub delim bs = None <-> forall p, ~ occurs delim bs p.
Proof.
  intros Hne. induction bs as [|c bs IH].
  - simpl. rewrite take_nil, bool_decide_eq_false_2 by congruence. split; [|done].
    intros _ p Ho. unfold occurs in Ho. rewrite drop_nil, take_nil in Ho. congruence.
  - cbn [find_sub]. case_bool_decide as Hd.
    + split; [done|]. intros Hp. by destruct (Hp 0%nat).
    + transitivity (find_sub delim bs = None); [by destruct (find_sub delim bs)|]. rewrite IH.
      split; intros Hp p Ho; [|by apply (Hp (S p))]. destruct p as [|p]; [done|by apply (Hp p)].
Qed.

(** C29: [cut_until] with a one-byte delimiter, or with two to eight bytes of 7-bit
    text, cuts exactly at the first occurrence: the bytes before it move to the end
    of [out], the delimiter is dropped and 0 is returned; without an occurrence -1
    is returned and both buffers keep their content. *)
Theorem cut_until_first_occurrence w b out bs os rs delim :
  holds w b bs -> holds w out os -> inv w (owned b ++ owned out ++ rs) ->
  fits (len os + len bs) -> Forall is_byte bs -> good_delim delim ->
  exists rc b' out' w', cut_until b out delim w = Some ((rc, b', out'), w') /\
    inv w' (owned b' ++ owned out' ++ rs) /\ stable w w' rs /\
    (rc = 0 /\ (exists p, occurs delim bs p /\ (forall q, (q < p)%nat -> ~ occurs delim bs q) /\
       holds w' b' (drop (p + Datatypes.length delim) bs) /\ holds w' out' (os ++ take p bs)) \/
     rc = -1 /\ (forall p, ~ occurs delim bs p) /\ holds w' b' bs /\ holds w' out' os).
Proof.
  intros Hh Ho Hi Hfit Hbs Hgood.
  assert (Hne : delim <> []) by (intros ->; destruct Hgood as [_ [Hl|[Hl _]]]; simpl in Hl; lia).
  destruct (cut_until_spec w b out bs os rs delim Hh Ho Hi Hfit Hbs Hgood)
    as (rc & b' & out' & w' & Heq & Hi' & Hst & Hres).
  exists rc, b', out', w'. split; [done|]. split; [done|]. split; [done|].
  destruct (find_sub delim bs) as [p|] eqn:E.
  - left. destruct Hres as (-> & H1 & H2). split; [done|]. exists p.
    apply (find_sub_first delim bs p Hne) in E as [Hp Hq]. done.
  - right. destruct Hres as (-> & H1 & H2). split; [done|].
    split; [by apply (find_sub_none delim bs Hne)|done].
Qed.

Lemma appended_plenty bs :
  2 * len bs < limit ->
  exists b w, append (H := plenty) IOBuf_empty bs w0 = Some ((0, b), w) /\ holds w b bs /\ inv w (owned b).
Proof.
  intros Hl. destruct (@append_spec plenty w0 IOBuf_empty [] [] bs (holds_empty w0) inv_w0 Hl)
    as (rc & b & k & (w & Heq & Hh & Hi & _) & Hrc & Hk).
  rewrite (Hrc ltac:(done)) in *. destruct Hk as [[_ ->]|[? _]]; [|done].
  exists b, w. rewrite take_ge in Hh by lia. rewrite app_nil_r in Hi. done.
Qed.

Lemma cut_until_first_occurrence_witness :
  exists b w, append (H := plenty) IOBuf_empty [1; 13; 10; 2] w0 = Some ((0, b), w) /\
  exists rc b' out' w', cut_until b IOBuf_empty [13; 10] w = Some ((rc, b', out'), w') /\
    inv w' (owned b' ++ owned out' ++ []) /\ stable w w' [] /\
    (rc = 0 /\ (exists p, occurs [13; 10] [1; 13; 10; 2] p /\
       (forall q, (q < p)%nat -> ~ occurs [13; 10] [1; 13; 10; 2] q) /\
       holds w' b' (drop (p + 2) [1; 13; 10; 2]) /\ holds w' out' ([] ++ take p [1; 13; 10; 2])) \/
     rc = -1 /\ (forall p, ~ occurs [13; 10] [1; 13; 10; 2] p) /\
     holds w' b' [1; 13; 10; 2] /\ holds w' out' []).
Proof.
  destruct (appended_plenty [1; 13; 10; 2]) as (b & w & Heq & Hh & Hi); [done|].
  exists b, w. split; [exact Heq|].
  apply (cut_until_first_occurrence w b IOBuf_empty [1; 13; 10; 2] [] [] [13; 10]).
  - exact Hh.
  - apply holds_empty.
  - rewrite owned_empty, !app_nil_r. exact Hi.
  - reflexivity.
  - repeat constructor; vm_compute; discriminate.
  - split; [repeat constructor; vm_compute; discriminate|]. right. split; [done|].
    repeat constructor.
Defined.

(** A delimiter of two to seven bytes that contains a byte of 0x80 or more is
    never found, although "`delim' could be binary": its packed value has bits the
    masked signature cannot have.  The call returns -1 and changes nothing. *)
Theorem cut_until_binary_delimiter_never_found w b out bs os rs delim :
  holds w b bs -> holds w out os -> inv w (owned b ++ owned out ++ rs) ->
  2 <= len delim <= 7 -> Forall is_byte delim -> existsb high delim = true ->
  cut_until b out delim w = Some ((-1, b, out), w).
Proof. apply cut_until_high_none. Qed.

Lemma cut_until_binary_delimiter_witness :
  exists b w, append (H := plenty) IOBuf_empty [1; 0xC3; 0xA9; 2] w0 = Some ((0, b), w) /\
    occurs [0xC3; 0xA9] [1; 0xC3; 0xA9; 2] 1 /\
    cut_until b IOBuf_empty [0xC3; 0xA9] w = Some ((-1, b, IOBuf_empty), w).
Proof.
  destruct (appended_plenty [1; 0xC3; 0xA9; 2]) as (b & w & Heq & Hh & Hi); [done|].
  exists b, w. split; [exact Heq|]. split; [done|].
  apply (cut_until_binary_delimiter_never_found w b IOBuf_empty [1; 0xC3; 0xA9; 2] [] [] [0xC3; 0xA9]).
  - exact Hh.
  - apply holds_empty.
  - rewrite owned_empty, !app_nil_r. exact Hi.
  - vm_compute. split; discriminate.
  - repeat constructor; vm_compute; discriminate.
  - reflexivity.
Defined.

(** The content of a buffer, by reading it. *)
Definition content (b : buffer) (w : World) : option (list Z) := fst <$> to_string b w.

(** A delimiter led by NUL matches before [ndelim] bytes have been seen: "\0\r"
    is "found" at the very first byte of "\rabc", the count [n + 1 - ndelim] wraps to
    2^64 - 1, and the whole buffer is moved to [out] with return value 0. *)
Theorem cut_until_nul_delimiter_cuts_everything :
  exists b w, append (H := plenty) IOBuf_empty [13; 97; 98; 99] w0 = Some ((0, b), w) /\
    (forall p, ~ occurs [0; 13] [13; 97; 98; 99] p) /\
    exists b' out' w', cut_until b IOBuf_empty [0; 13] w = Some ((0, b', out'), w') /\
      content b' w' = Some [] /\ content out' w' = Some [13; 97; 98; 99].
Proof.
  eexists _, _. split; [vm_compute; reflexivity|]. split; [by apply find_sub_none|].
  eexists _, _, _. split; [vm_compute; reflexivity|]. split; vm_compute; reflexivity.
Qed.

(** [fetch(d, 0)] on an empty buffer dereferences the null block of its first
    reference instead of returning a pointer or NULL. *)
Theorem fetch_zero_of_empty_is_undefined w : fetch IOBuf_empty 0 w = None.
Proof. reflexivity. Qed.

(** [appendv] of vectors that are all empty pushes a reference of length 0: the
    buffer has length 0 but is not [empty()], and [cut1] succeeds and returns a
    byte that was never appended. *)
Theorem appendv_empty_vectors_yield_a_byte :
  exists b w, appendv (H := plenty) IOBuf_empty [[]; []] w0 = Some ((0, b), w) /\
    length_ b = 0 /\ empty b = false /\
    exists c b' w', cut1 b w = Some ((Some c, b'), w').
Proof.
  eexists _, _. split; [vm_compute; reflexivity|]. split; [vm_compute; reflexivity|].
  split; [vm_compute; reflexivity|]. eexists _, _, _. vm_compute. reflexivity.
Qed.

(** The two views are told apart by the sign bit of the first reference's
    offset.  Popping 2^31 or more bytes from a longer user-data reference sets that
    bit: a small view is then taken for a big one by [_small()]. *)
Theorem pop_front_past_2_31_confuses_the_view k L n w :
  2 ^ 31 <= n < L -> L <= 2 ^ 32 - 101 ->
  exists r, pop_front (Sv (mkRef 0 L (Some k)) null_ref) n w = Some ((n, Sv r null_ref), w) /\
    _small (Sv r null_ref) = false.
Proof.
  intros Hn HL. unfold pop_front. cbn [length_ length null_ref]. rewrite (u32_small (L + 0)) by lia.
  rewrite (proj2 (Z.leb_gt _ _)) by lia. unfold ref_fuel, mbind'. cbn [pop_front_loop].
  rewrite (proj2 (Z.eqb_neq n 0)) by lia. unfold mbind', front_ref, mlift. cbn [_front_ref fmap option_fmap option_map].
  rewrite (proj2 (Z.ltb_lt _ _)) by (simpl; lia). eexists. split; [done|].
  unfold _small, magic, i32. cbn [ref_skip offset]. rewrite (u32_small (0 + n)) by lia. apply Z.leb_gt.
  replace (0 + n + 2 ^ 31) with (n - 2 ^ 31 + 1 * 2 ^ 32) by lia. rewrite Z.mod_add, Z.mod_small by lia. lia.
Qed.

Lemma pop_front_past_2_31_witness :
  exists r, pop_front (Sv (mkRef 0 (2 ^ 31 + 5) (Some 1%positive)) null_ref) (2 ^ 31 + 1) w0 =
      Some ((2 ^ 31 + 1, Sv r null_ref), w0) /\ _small (Sv r null_ref) = false.
Proof. apply (pop_front_past_2_31_confuses_the_view 1 (2 ^ 31 + 5) (2 ^ 31 + 1) w0); lia. Defined.

End IOBufEdge.
