(* ===== verification/IOBufReader.v ===== *)
(** * Reading IOBufs: IOBufBytesIterator, IOBufAsZeroCopyInputStream, IOBufAsSnappySource
    (butil/iobuf.h, iobuf_inl.h, iobuf.cpp)

    Cursors over a buffer that does not change.  The pointers [_block_begin] and
    [_block_end] are offsets in the bytes of the current reference, which is number
    [_block_count - 1]. *)
From stdpp Require Import base list gmap.
From Stdlib Require Import ZArith Lia Bool.
From S2P Require Import Prelude IOBufBlock IOBufView IOBuf IOBufSpec IOBufEdge.

Open Scope Z_scope.
Open Scope m_scope.

Module Reader.
Import Block View IOBuf IOBufSpec IOBufEdge.

(** ** IOBufBytesIterator *)
Record BytesIterator := mkIt { _block_begin : Z; _block_end : Z; _block_count : Z; _bytes_left : Z }.

Definition try_next_block (b : buffer) (it : BytesIterator) : M World BytesIterator :=
  if _bytes_left it =? 0 then mret it
  else
    let* s := backing_block b (_block_count it) in
    mret (mkIt 0 (Z.min (len s) (_bytes_left it)) (u32 (_block_count it + 1)) (_bytes_left it)).
Definition BytesIterator_new (b : buffer) : M World BytesIterator :=
  try_next_block b (mkIt 0 0 0 (u32 (length_ b))).
(** The copy that sees [bytes_left] bytes only. *)
Definition BytesIterator_sub (it : BytesIterator) (bytes_left : Z) : BytesIterator :=
  let left := u32 bytes_left in
  mkIt (_block_begin it)
    (if _block_begin it + left <? _block_end it then _block_begin it + left else _block_end it)
    (_block_count it) left.

Definition cur_ref (b : buffer) (it : BytesIterator) : M World BlockRef := ref_at b (_block_count it - 1).
(** [operator*]: a read outside the block is undefined. *)
Definition deref (b : buffer) (it : BytesIterator) : M World Z :=
  let* r := cur_ref b it in
  let* s := read_ref r (_block_begin it) 1 in
  match s with c :: _ => mret c | [] => ub end.
(** The pointers advanced by [k], with the next block when the current one is used up. *)
Definition step_over (b : buffer) (it : BytesIterator) (k : Z) : M World BytesIterator :=
  let it1 := mkIt (_block_begin it + k) (_block_end it) (_block_count it) (u32 (_bytes_left it - k)) in
  if _block_begin it1 =? _block_end it1 then try_next_block b it1 else mret it1.
Definition next (b : buffer) (it : BytesIterator) : M World BytesIterator := step_over b it 1.

(** The loop of [copy_and_forward(void*, n)]; [n] is what is still wanted. *)
Fixpoint copy_loop (fuel : nat) (b : buffer) (it : BytesIterator) (n : Z) (out : list Z)
  : M World (list Z * BytesIterator) :=
  if (0 <? n) && negb (_bytes_left it =? 0) then
    match fuel with
    | O => ub
    | S fuel' =>
        let to_copy := Z.min (_block_end it - _block_begin it) n in
        let* r := cur_ref b it in
        let* s := read_ref r (_block_begin it) to_copy in
        let* it' := step_over b it to_copy in
        copy_loop fuel' b it' (n - to_copy) (out ++ s)
    end
  else mret (out, it).
(** A turn of the loops takes at least one byte. *)
Definition it_fuel (it : BytesIterator) : nat := S (Z.to_nat (_bytes_left it)).
Definition copy_and_forward (b : buffer) (it : BytesIterator) (n : Z) : M World (list Z * BytesIterator) :=
  copy_loop (it_fuel it) b it n [].
(** [copy_and_forward(std::string* s, n)]. *)
Definition copy_and_forward_string (b : buffer) (it : BytesIterator) (s : list Z) (n : Z)
  : M World (Z * list Z * BytesIterator) :=
  let resized := len s <? n in
  let s1 := if resized then s ++ replicate (Z.to_nat (n - len s)) 0 else s in
  let* (out, it') := copy_and_forward b it n in
  let nc := len out in
  let s2 := out ++ drop (Z.to_nat nc) s1 in
  mret (nc, if (nc <? n) && resized then take (Z.to_nat nc) s2 else s2, it').

Fixpoint forward_loop (fuel : nat) (b : buffer) (it : BytesIterator) (n nc : Z) : M World (Z * BytesIterator) :=
  if (nc <? n) && negb (_bytes_left it =? 0) then
    match fuel with
    | O => ub
    | S fuel' =>
        let to_copy := Z.min (_block_end it - _block_begin it) (n - nc) in
        let* it' := step_over b it to_copy in
        forward_loop fuel' b it' n (nc + to_copy)
    end
  else mret (nc, it).
Definition forward (b : buffer) (it : BytesIterator) (n : Z) : M World (Z * BytesIterator) :=
  forward_loop (it_fuel it) b it n 0.

(** [append_and_forward]: the bytes are referenced by [buf]. *)
Fixpoint append_forward_loop (fuel : nat) (b : buffer) (it : BytesIterator) (buf : buffer) (n nc : Z)
  : M World (Z * BytesIterator * buffer) :=
  if (nc <? n) && negb (_bytes_left it =? 0) then
    match fuel with
    | O => ub
    | S fuel' =>
        let* r := cur_ref b it in
        let to_copy := Z.min (_block_end it - _block_begin it) (n - nc) in
        let* buf' := _push_back_ref buf (mkRef (u32 (offset r + _block_begin it)) (u32 to_copy) (block r)) in
        let* it' := step_over b it to_copy in
        append_forward_loop fuel' b it' buf' n (nc + to_copy)
    end
  else mret (nc, it, buf).
Definition append_and_forward (b : buffer) (it : BytesIterator) (buf : buffer) (n : Z)
  : M World (Z * BytesIterator * buffer) :=
  append_forward_loop (it_fuel it) b it buf n 0.

(** The block handed out, or [None] for [false]. *)
Definition forward_one_block (b : buffer) (it : BytesIterator) : M World (option (list Z) * BytesIterator) :=
  if _bytes_left it =? 0 then mret (None, it)
  else
    let block_size := _block_end it - _block_begin it in
    let* r := cur_ref b it in
    let* s := read_ref r (_block_begin it) block_size in
    let* it' := try_next_block b (mkIt (_block_begin it) (_block_end it) (_block_count it) (u32 (_bytes_left it - block_size))) in
    mret (Some s, it').

(** ** IOBufAsZeroCopyInputStream

    [_ref_index] and [_add_offset] are [int], [_byte_count] is [int64]; the lengths
    of references are [uint32_t], in which [cur_ref->length - _add_offset] is computed. *)
Record InputStream := mkIn { _ref_index : Z; _add_offset : Z; _byte_count : Z }.
Definition InputStream_new : InputStream := mkIn 0 0 0.

Definition Next (b : buffer) (s : InputStream) : M World (option (list Z) * InputStream) :=
  match _pref_at b (_ref_index s) with
  | None => mret (None, s)
  | Some r =>
      let left := u32 (length r - _add_offset s) in
      let* d := read_ref r (_add_offset s) (i32 left) in
      mret (Some d, mkIn (_ref_index s + 1) 0 (_byte_count s + left))
  end.
(** The CHECK and the LOG(FATAL) only log; the reference before is never NULL. *)
Definition BackUp (b : buffer) (count : Z) (s : InputStream) : option InputStream :=
  if 0 <? _ref_index s then
    r ← _pref_at b (_ref_index s - 1);
    Some (mkIn (_ref_index s - 1) (i32 (u32 (length r - count))) (_byte_count s - count))
  else Some s.
Fixpoint Skip_loop (fuel : nat) (b : buffer) (count : Z) (s : InputStream) : option (bool * InputStream) :=
  match _pref_at b (_ref_index s) with
  | None => Some (false, s)
  | Some r =>
      let left_bytes := i32 (u32 (length r - _add_offset s)) in
      if count <? left_bytes then Some (true, mkIn (_ref_index s) (_add_offset s + count) (_byte_count s + count))
      else match fuel with
           | O => None
           | S fuel' => Skip_loop fuel' b (count - left_bytes) (mkIn (_ref_index s + 1) 0 (_byte_count s + left_bytes))
           end
  end.
Definition Skip (b : buffer) (count : Z) (s : InputStream) : option (bool * InputStream) :=
  Skip_loop (ref_fuel b) b count s.
Definition ByteCount (s : InputStream) : Z := _byte_count s.

(** ** IOBufAsSnappySource *)
Definition Available (b : buffer) (s : InputStream) : Z := u64 (length_ b - ByteCount s).
Definition snappy_Skip (b : buffer) (n : Z) (s : InputStream) : option InputStream :=
  (fun r => r.2) <$> Skip b (i32 n) s.
Definition Peek (b : buffer) (s : InputStream) : M World (option (list Z) * InputStream) :=
  let* (o, s1) := Next b s in
  match o with
  | Some d => let* s2 := mlift (BackUp b (len d) s1) in mret (Some d, s2)
  | None => mret (None, s1)
  end.

(** ** What is left to read *)
Section Proofs.
Context (w : World) (b : buffer) (bs : list Z) (rs : list bid) (Hh : holds w b bs) (Hi : inv w rs).
Let l := view_list b.
Implicit Types (it : BytesIterator).

Lemma nrefs_bound : len l < limit.
Proof. pose proof (repr_weight b l (read_repr w b bs Hh)). unfold limit in *. lia. Qed.
Lemma bytes_bound : len bs < limit.
Proof.
  pose proof (repr_weight b l (read_repr w b bs Hh)). rewrite <- (length_holds w b bs rs Hi Hh).
  rewrite (length_spec b l (read_repr w b bs Hh)). unfold limit in *. lia.
Qed.

(** [it] stands before the bytes [rem], which end inside the buffer. *)
Definition stands it (rem : list Z) : Prop :=
  _bytes_left it = len rem /\ 0 <= _block_count it <= len l /\
  (rem <> [] -> exists r, 1 <= _block_count it /\ l !! Z.to_nat (_block_count it - 1) = Some r /\
    0 <= _block_begin it < length r /\ _block_end it = Z.min (length r) (_block_begin it + len rem) /\
    exists tail, drop (Z.to_nat (_block_begin it)) (bytes w (drop (Z.to_nat (_block_count it - 1)) l)) = rem ++ tail).

Lemma try_next_spec it rem tail :
  _bytes_left it = len rem -> 0 <= _block_count it <= len l ->
  bytes w (drop (Z.to_nat (_block_count it)) l) = rem ++ tail ->
  exists it', try_next_block b it w = Some (it', w) /\ stands it' rem.
Proof.
  intros Hl Hc Hby. pose proof nrefs_bound as Hn. unfold limit in Hn. unfold try_next_block.
  destruct (Z.eqb_spec (_bytes_left it) 0) as [Hz|Hz].
  { exists it. split; [done|]. split; [done|]. split; [done|]. intros Hne. destruct rem; [done|]. simpl in Hl. lia. }
  assert (Hlt : _block_count it < len l).
  { destruct (Z.lt_ge_cases (_block_count it) (len l)) as [|Hge]; [done|]. rewrite drop_ge in Hby by lia. simpl in Hby.
    symmetry in Hby. apply app_eq_nil in Hby as [-> _]. simpl in Hl. lia. }
  destruct (ref_at_holds w b bs rs Hh Hi (_block_count it)) as (r & _ & Hlk & (_ & Hrl & _) & _ & Hlen & Hby2); [fold l; lia|].
  destruct (backing_block_spec w b bs rs Hh Hi (_block_count it)) as (s & Heq & Hs & _); [lia|].
  unfold mbind', mret. rewrite Heq. eexists. split; [done|]. fold l in Hlk, Hby2. rewrite (Hs r Hlk), Hlen.
  rewrite u32_small by lia. split; [done|]. split; [simpl; lia|]. intros Hne. exists r. simpl.
  replace (_block_count it + 1 - 1) with (_block_count it) by lia.
  split; [lia|]. split; [done|]. split; [lia|]. split; [lia|]. exists tail. by rewrite drop_0.
Qed.

(** Taking [k] bytes of the current block. *)
Lemma advance_spec it rem k : stands it rem -> rem <> [] -> 0 < k <= _block_end it - _block_begin it ->
  exists r it', cur_ref b it w = Some (r, w) /\ ref_ok w r /\ ref_shape r /\ 0 <= _block_begin it /\ _block_begin it + k <= length r /\
    read_ref r (_block_begin it) k w = Some (take (Z.to_nat k) rem, w) /\ k <= len rem /\
    step_over b it k w = Some (it', w) /\ stands it' (drop (Z.to_nat k) rem).
Proof.
  intros (Hleft & Hc & Hcur) Hne Hk. destruct (Hcur Hne) as (r & Hc1 & Hlk & Hb & He & tail & Hby).
  pose proof bytes_bound as Hbb. unfold limit in Hbb.
  destruct (ref_at_holds w b bs rs Hh Hi (_block_count it - 1)) as (r' & Hat & Hlk' & Hsh & Hok & Hlen & Hby2); [fold l; lia|].
  fold l in Hlk', Hby2. rewrite Hlk in Hlk'. injection Hlk' as <-. replace (_block_count it - 1 + 1) with (_block_count it) in Hby2 by lia.
  rewrite Hby2, drop_app_le in Hby by lia.
  exists r. assert (Hkr : k <= len rem) by lia.
  assert (Hread : read_ref r (_block_begin it) k w = Some (take (Z.to_nat k) rem, w)).
  { rewrite (read_ref_spec w r _ _ rs) by (done || lia). do 2 f_equal.
    rewrite <- (take_app_le (drop (Z.to_nat (_block_begin it)) (ref_bytes w r)) (bytes w (drop (Z.to_nat (_block_count it)) l)) (Z.to_nat k))
      by (rewrite length_drop; lia).
    rewrite Hby. by rewrite take_app_le by lia. }
  assert (Hremb : len rem <= len bs).
  { destruct Hh as (_ & _ & Hbytes). fold l in Hbytes. rewrite <- Hbytes.
    rewrite <- (take_drop (Z.to_nat (_block_count it - 1)) l). unfold bytes at 1. rewrite map_app, join_app, length_app.
    fold (bytes w (take (Z.to_nat (_block_count it - 1)) l)) (bytes w (drop (Z.to_nat (_block_count it - 1)) l)).
    apply (f_equal Datatypes.length) in Hby. rewrite !length_app, length_drop in Hby. rewrite Hby2, length_app. lia. }
  unfold cur_ref. rewrite Hat. unfold step_over. cbn [_block_begin _block_end].
  rewrite u32_small by lia. rewrite Hleft.
  assert (Hdrop : drop (Z.to_nat (_block_begin it + k)) (ref_bytes w r) ++ bytes w (drop (Z.to_nat (_block_count it)) l) = drop (Z.to_nat k) rem ++ tail).
  { replace (Z.to_nat (_block_begin it + k)) with (Z.to_nat (_block_begin it) + Z.to_nat k)%nat by lia. rewrite <- drop_drop.
    rewrite <- drop_app_le by (rewrite length_drop; lia). rewrite Hby. by rewrite drop_app_le by lia. }
  destruct (Z.eqb_spec (_block_begin it + k) (_block_end it)) as [Heq|Hneq].
  - destruct (Z.eq_dec k (len rem)) as [Hall|Hsome].
    + exists (mkIt (_block_begin it + k) (_block_end it) (_block_count it) (len rem - k)).
      split; [done|]. split; [done|]. split; [done|]. split; [lia|]. split; [lia|]. split; [done|]. split; [done|].
      split; [unfold try_next_block; simpl; by rewrite (proj2 (Z.eqb_eq _ _)) by lia|].
      rewrite drop_ge by lia. split; [simpl; lia|]. split; [simpl; lia|]. done.
    + assert (Hend : _block_begin it + k = length r) by lia.
      rewrite drop_ge in Hdrop by lia. simpl in Hdrop.
      destruct (try_next_spec (mkIt (_block_begin it + k) (_block_end it) (_block_count it) (len rem - k)) (drop (Z.to_nat k) rem) tail)
        as (it' & Hnext & Hst); [simpl; rewrite length_drop; lia|simpl; lia|done|].
      exists it'. split; [done|]. split; [done|]. split; [done|]. split; [lia|]. split; [lia|]. split; [done|]. split; [done|]. split; [done|done].
  - eexists. split; [done|]. split; [done|]. split; [done|]. split; [lia|]. split; [lia|]. split; [done|]. split; [done|]. split; [done|].
    split; [simpl; rewrite length_drop; lia|]. split; [simpl; lia|]. intros _. exists r. simpl.
    split; [lia|]. split; [done|]. split; [lia|]. split; [rewrite length_drop; lia|]. exists tail.
    rewrite Hby2, drop_app_le by lia. done.
Qed.

Lemma stands_room it rem : stands it rem -> rem <> [] -> 0 < _block_end it - _block_begin it.
Proof. intros (_ & _ & Hcur) Hne. destruct (Hcur Hne) as (r & _ & _ & Hb & He & _). destruct rem; [done|]. cbn [Datatypes.length] in *. lia. Qed.
Lemma stands_left it rem : stands it rem -> _bytes_left it = len rem.
Proof. by intros (? & _). Qed.

Lemma new_spec : exists it, BytesIterator_new b w = Some (it, w) /\ stands it bs.
Proof.
  unfold BytesIterator_new. pose proof bytes_bound as Hbb. unfold limit in Hbb.
  rewrite (length_holds w b bs rs Hi Hh), u32_small by lia.
  apply (try_next_spec (mkIt 0 0 0 (len bs)) bs []); [done|simpl; pose proof nrefs_bound; lia|].
  simpl. rewrite drop_0, app_nil_r. apply Hh.
Qed.
Lemma sub_spec it rem n : stands it rem -> 0 <= n <= len rem -> len rem < 2 ^ 32 -> stands (BytesIterator_sub it n) (take (Z.to_nat n) rem).
Proof.
  intros (Hl & Hc & Hcur) Hn Hlt. unfold BytesIterator_sub. rewrite u32_small by lia.
  split; [simpl; rewrite length_take; lia|]. split; [done|]. intros Hne. assert (rem <> []) as Hne'.
  { intros ->. by rewrite take_nil in Hne. }
  destruct (Hcur Hne') as (r & H1 & H2 & H3 & H4 & tail & H5). exists r. simpl. split; [done|]. split; [done|]. split; [done|].
  split; [rewrite length_take; zcase; lia|]. exists (drop (Z.to_nat n) rem ++ tail). by rewrite app_assoc, take_drop.
Qed.
Lemma next_spec it c rem : stands it (c :: rem) ->
  deref b it w = Some (c, w) /\ exists it', next b it w = Some (it', w) /\ stands it' rem.
Proof.
  intros Hst. pose proof (stands_room it _ Hst ltac:(done)) as Hroom.
  destruct (advance_spec it (c :: rem) 1 Hst) as (r & it' & Hcur & _ & _ & _ & _ & Hread & _ & Hstep & Hst'); [done|lia|].
  split; [|by exists it']. unfold deref, mbind', mret. rewrite Hcur, Hread. done.
Qed.
Lemma copy_loop_spec fuel it rem n out : stands it rem -> 0 <= n -> (Datatypes.length rem < fuel)%nat ->
  exists it', copy_loop fuel b it n out w = Some ((out ++ take (Z.to_nat n) rem, it'), w) /\ stands it' (drop (Z.to_nat n) rem).
Proof.
  revert it rem n out. induction fuel as [|fuel IH]; intros it rem n out Hst Hn Hf; [lia|]. cbn [copy_loop].
  rewrite (stands_left it rem Hst). destruct (Z.ltb_spec 0 n) as [Hpos|Hz]; cbn [andb].
  2:{ exists it. replace (Z.to_nat n) with 0%nat by lia. rewrite drop_0, app_nil_r. done. }
  destruct (Z.eqb_spec (len rem) 0) as [He|Hne]; cbn [negb].
  { destruct rem; [|simpl in He; lia]. exists it. rewrite take_nil, drop_nil, app_nil_r. done. }
  assert (Hrem : rem <> []) by (by intros ->). pose proof (stands_room it rem Hst Hrem).
  set (k := Z.min (_block_end it - _block_begin it) n).
  destruct (advance_spec it rem k Hst Hrem) as (r & it1 & Hcur & _ & _ & _ & _ & Hread & Hkr & Hstep & Hst1); [lia|].
  unfold mbind'. rewrite Hcur, Hread, Hstep.
  destruct (IH it1 (drop (Z.to_nat k) rem) (n - k) (out ++ take (Z.to_nat k) rem) Hst1) as (it' & Heq & Hst'); [lia|rewrite length_drop; lia|].
  exists it'. rewrite Heq, <- app_assoc. rewrite drop_drop in Hst'. replace (Z.to_nat k + Z.to_nat (n - k))%nat with (Z.to_nat n) in Hst' by lia.
  split; [|done]. do 4 f_equal. replace (Z.to_nat n) with (Z.to_nat k + Z.to_nat (n - k))%nat by lia. by rewrite take_take_drop.
Qed.
Lemma copy_and_forward_spec it rem n : stands it rem -> 0 <= n ->
  exists it', copy_and_forward b it n w = Some ((take (Z.to_nat n) rem, it'), w) /\ stands it' (drop (Z.to_nat n) rem).
Proof.
  intros Hst Hn. unfold copy_and_forward, it_fuel. rewrite (stands_left it rem Hst). by apply (copy_loop_spec _ it rem n []); [|lia|lia].
Qed.
Lemma forward_loop_spec fuel it rem n nc : stands it rem -> 0 <= nc <= n -> (Datatypes.length rem < fuel)%nat ->
  exists it', forward_loop fuel b it n nc w = Some ((nc + Z.min (n - nc) (len rem), it'), w) /\ stands it' (drop (Z.to_nat (n - nc)) rem).
Proof.
  revert it rem nc. induction fuel as [|fuel IH]; intros it rem nc Hst Hn Hf; [lia|]. cbn [forward_loop].
  rewrite (stands_left it rem Hst). destruct (Z.ltb_spec nc n) as [Hpos|Hz]; cbn [andb].
  2:{ exists it. replace (Z.to_nat (n - nc)) with 0%nat by lia. rewrite drop_0. split; [|done]. unfold mret. do 3 f_equal. lia. }
  destruct (Z.eqb_spec (len rem) 0) as [He|Hne]; cbn [negb].
  { destruct rem; [|simpl in He; lia]. exists it. rewrite drop_nil. split; [|done]. unfold mret. do 3 f_equal. simpl. lia. }
  assert (Hrem : rem <> []) by (by intros ->). pose proof (stands_room it rem Hst Hrem).
  set (k := Z.min (_block_end it - _block_begin it) (n - nc)).
  destruct (advance_spec it rem k Hst Hrem) as (r & it1 & _ & _ & _ & _ & _ & _ & Hkr & Hstep & Hst1); [lia|].
  unfold mbind'. rewrite Hstep.
  destruct (IH it1 (drop (Z.to_nat k) rem) (nc + k) Hst1) as (it' & Heq & Hst'); [lia|rewrite length_drop; lia|].
  exists it'. rewrite Heq, length_drop. rewrite drop_drop in Hst'.
  replace (Z.to_nat k + Z.to_nat (n - (nc + k)))%nat with (Z.to_nat (n - nc)) in Hst' by lia. split; [|done]. do 3 f_equal. lia.
Qed.
Lemma forward_spec it rem n : stands it rem -> 0 <= n ->
  exists it', forward b it n w = Some ((Z.min n (len rem), it'), w) /\ stands it' (drop (Z.to_nat n) rem).
Proof.
  intros Hst Hn. unfold forward, it_fuel. rewrite (stands_left it rem Hst).
  destruct (forward_loop_spec (S (Z.to_nat (len rem))) it rem n 0 Hst) as (it' & Heq & Hst'); [lia|lia|].
  rewrite Z.sub_0_r in *. exists it'. split; [|done]. by rewrite Heq, Z.add_0_l.
Qed.
Lemma forward_one_block_spec it rem : stands it rem ->
  exists o it', forward_one_block b it w = Some ((o, it'), w) /\
    match o with
    | None => rem = [] /\ it' = it
    | Some s => s <> [] /\ exists rem', rem = s ++ rem' /\ stands it' rem'
    end.
Proof.
  intros Hst. unfold forward_one_block. rewrite (stands_left it rem Hst).
  destruct (Z.eqb_spec (len rem) 0) as [He|Hne].
  { exists None, it. split; [done|]. by destruct rem. }
  assert (Hrem : rem <> []) by (by intros ->). pose proof (stands_room it rem Hst Hrem) as Hroom.
  set (k := _block_end it - _block_begin it).
  destruct (advance_spec it rem k Hst Hrem) as (r & it1 & Hcur & _ & _ & _ & _ & Hread & Hkr & Hstep & Hst1); [lia|].
  unfold mbind'. rewrite Hcur, Hread. unfold step_over in Hstep. cbn [_block_begin _block_end] in Hstep.
  replace (_block_begin it + k) with (_block_end it) in Hstep by lia. rewrite Z.eqb_refl in Hstep. rewrite (stands_left it rem Hst) in Hstep.
  unfold try_next_block in *. cbn [_bytes_left _block_count] in *.
  destruct (u32 (len rem - k) =? 0) eqn:Ez.
  - unfold mret in *. eexists _, _. split; [done|]. assert (Hs : take (Z.to_nat k) rem <> []).
    { intros E. apply (f_equal Datatypes.length) in E. rewrite length_take in E. simpl in E. lia. }
    split; [done|]. exists (drop (Z.to_nat k) rem). split; [by rewrite take_drop|].
    injection Hstep as <-. destruct Hst1 as (S1 & S2 & S3). split; [done|]. split; [done|]. simpl in *.
    apply Z.eqb_eq in Ez. intros Hn. exfalso. apply Hn. rewrite Ez in S1. destruct (drop _ rem); [done|simpl in S1; lia].
  - unfold mbind' in *. destruct (backing_block b (_block_count it) w) as [[s w1]|]; [|done]. unfold mret in *. injection Hstep as <- <-.
    eexists _, _. split; [done|]. assert (Hs : take (Z.to_nat k) rem <> []).
    { intros E. apply (f_equal Datatypes.length) in E. rewrite length_take in E. simpl in E. lia. }
    split; [done|]. exists (drop (Z.to_nat k) rem). split; [by rewrite take_drop|]. done.
Qed.
End Proofs.

(** *** Appending while reading *)
Lemma stands_stable w w' b bs rs it rem :
  holds w b bs -> stable w w' rs -> owned b ⊆ rs -> stands w b it rem -> stands w' b it rem.
Proof.
  intros Hh Hst Hsub (Hl & Hc & Hcur). split; [done|]. split; [done|]. intros Hne.
  destruct (Hcur Hne) as (r & H1 & H2 & H3 & H4 & tail & H5). exists r. split; [done|]. split; [done|]. split; [done|].
  split; [done|]. exists tail.
  destruct (valid_stable w w' (drop (Z.to_nat (_block_count it - 1)) (view_list b)) rs Hst) as [_ ->]; [|apply valid_drop, Hh|done].
  etransitivity; [apply ids_drop_sub|exact Hsub].
Qed.

Lemma append_forward_loop_spec fuel w b bs buf ob rs it rem n nc :
  holds w b bs -> holds w buf ob -> inv w (owned buf ++ rs) -> owned b ⊆ rs ->
  stands w b it rem -> 0 <= nc <= n -> (Datatypes.length rem < fuel)%nat ->
  let t := take (Z.to_nat (n - nc)) rem in
  2 * (len ob + len t) < limit ->
  exists it' buf' w', append_forward_loop fuel b it buf n nc w = Some ((nc + len t, it', buf'), w') /\
    holds w' buf' (ob ++ t) /\ inv w' (owned buf' ++ rs) /\ stable w w' rs /\
    stands w' b it' (drop (Z.to_nat (n - nc)) rem).
Proof.
  revert w buf ob it rem nc. induction fuel as [|fuel IH]; intros w buf ob it rem nc Hh Ho Hi Hsub Hst Hn Hf t Hlim; [lia|].
  cbn [append_forward_loop]. rewrite (stands_left w b it rem Hst).
  destruct (Z.ltb_spec nc n) as [Hpos|Hz]; cbn [andb].
  2:{ exists it, buf, w. subst t. replace (Z.to_nat (n - nc)) with 0%nat by lia. rewrite drop_0, take_0, app_nil_r. simpl.
      rewrite Z.add_0_r. auto using stable_refl. }
  destruct (Z.eqb_spec (len rem) 0) as [He|Hne]; cbn [negb].
  { destruct rem; [|simpl in He; lia]. exists it, buf, w. subst t. rewrite take_nil, drop_nil, app_nil_r. simpl.
    rewrite Z.add_0_r. auto using stable_refl. }
  assert (Hrem : rem <> []) by (by intros ->). pose proof (stands_room w b it rem Hst Hrem).
  set (k := Z.min (_block_end it - _block_begin it) (n - nc)).
  destruct (advance_spec w b bs _ Hh Hi it rem k Hst Hrem) as (r & it0 & Hcur & Hok & Hs & Hb0 & Hbk & Hread & Hkr & _); [lia|].
  pose proof Hs as (Hs1 & Hs2 & Hs3 & _).
  destruct (ref_skip_spec w r (_block_begin it) Hs Hok) as (Hs' & Hl' & Hok' & Hb' & Hby'); [lia|].
  destruct (ref_prefix_spec w (ref_skip r (_block_begin it)) k Hs' Hok') as (Hsp & Hokp & Hbyp); [lia|].
  assert (Hskip : offset (ref_skip r (_block_begin it)) = u32 (offset r + _block_begin it)) by done.
  rewrite Hskip, Hb' in Hsp, Hokp, Hbyp. rewrite Hby' in Hbyp.
  rewrite (read_ref_spec w r (_block_begin it) k _ Hi Hok) in Hread by lia. injection Hread as Hread. rewrite Hread in Hbyp.
  unfold mbind'. rewrite Hcur. rewrite (u32_small k) by lia. set (r2 := mkRef (u32 (offset r + _block_begin it)) k (block r)) in *.
  assert (Ht : t = take (Z.to_nat k) rem ++ take (Z.to_nat (n - (nc + k))) (drop (Z.to_nat k) rem)).
  { subst t. replace (Z.to_nat (n - nc)) with (Z.to_nat k + Z.to_nat (n - (nc + k)))%nat by lia. by rewrite take_take_drop. }
  rewrite Ht, length_app in Hlim.
  destruct (push_yields false w buf ob rs r2 Ho Hi Hsp Hokp) as (b1 & w1 & Heq & Hh1 & Hi1 & Hst1).
  { simpl. rewrite length_take in Hlim. lia. }
  unfold _push_back_ref. rewrite Heq, Hbyp in *.
  pose proof (holds_stable w w1 b bs rs Hst1 Hsub Hh) as Hhb.
  destruct (advance_spec w1 b bs _ Hhb Hi1 it rem k) as (_ & it1 & _ & _ & _ & _ & _ & _ & _ & Hstep & Hst'); [exact (stands_stable w w1 b bs rs it rem Hh Hst1 Hsub Hst)|done|lia|].
  rewrite Hstep.
  destruct (IH w1 b1 (ob ++ take (Z.to_nat k) rem) it1 (drop (Z.to_nat k) rem) (nc + k)) as (it2 & b2 & w2 & Heq2 & Hh2 & Hi2 & Hst2 & Hend);
    [done|done|done|done|done|lia|rewrite length_drop; lia|rewrite length_app; lia|].
  rewrite drop_drop in Hend.
  exists it2, b2, w2. assert (len (take (Z.to_nat k) rem) = k) by (rewrite length_take; lia).
  rewrite Heq2, Ht, app_assoc, length_app. split; [do 4 f_equal; lia|]. split; [done|].
  split; [done|]. split; [by eapply stable_trans|].
  by replace (Z.to_nat (n - nc)) with (Z.to_nat k + Z.to_nat (n - (nc + k)))%nat by lia.
Qed.

Lemma append_and_forward_spec w b bs buf ob rs it rem n :
  holds w b bs -> holds w buf ob -> inv w (owned buf ++ rs) -> owned b ⊆ rs -> stands w b it rem -> 0 <= n ->
  let t := take (Z.to_nat n) rem in
  2 * (len ob + len t) < limit ->
  exists it' buf' w', append_and_forward b it buf n w = Some ((len t, it', buf'), w') /\
    holds w' buf' (ob ++ t) /\ inv w' (owned buf' ++ rs) /\ stable w w' rs /\ stands w' b it' (drop (Z.to_nat n) rem).
Proof.
  intros Hh Ho Hi Hsub Hst Hn t Hlim. unfold append_and_forward, it_fuel. rewrite (stands_left w b it rem Hst).
  destruct (append_forward_loop_spec (S (Z.to_nat (len rem))) w b bs buf ob rs it rem n 0 Hh Ho Hi Hsub Hst) as (it' & buf' & w' & Hres);
    [lia|lia|by rewrite Z.sub_0_r|]. rewrite Z.sub_0_r in Hres. exists it', buf', w'. by rewrite Z.add_0_l in Hres.
Qed.

(** *** Any sequence of reads

    A reader takes one byte, copies, skips, takes a whole block, or appends to the
    buffer [buf], as long as there are bytes left. *)
Inductive rop := RByte | RCopy (n : Z) | RCopyString (s : list Z) (n : Z) | RForward (n : Z) | RBlock | RAppend (n : Z).
Inductive rans := ABytes (s : list Z) | ACount (n : Z) | ABlock (o : option (list Z)) | AString (n : Z) (s : list Z).

Definition rexec (b : buffer) (o : rop) (it : BytesIterator) (buf : buffer) : M World (rans * BytesIterator * buffer) :=
  match o with
  | RByte =>
      if _bytes_left it =? 0 then mret (ABytes [], it, buf)
      else let* c := deref b it in let* it' := next b it in mret (ABytes [c], it', buf)
  | RCopy n => let* (s, it') := copy_and_forward b it n in mret (ABytes s, it', buf)
  | RCopyString s n => let* (nc, s', it') := copy_and_forward_string b it s n in mret (AString nc s', it', buf)
  | RForward n => let* (nc, it') := forward b it n in mret (ACount nc, it', buf)
  | RBlock => let* (o, it') := forward_one_block b it in mret (ABlock o, it', buf)
  | RAppend n => let* (nc, it', buf') := append_and_forward b it buf n in mret (ACount nc, it', buf')
  end.
Fixpoint rrun (b : buffer) (os : list rop) (it : BytesIterator) (buf : buffer)
  : M World (list rans * BytesIterator * buffer) :=
  match os with
  | [] => mret ([], it, buf)
  | o :: os =>
      let* (a, it1, buf1) := rexec b o it buf in
      let* (l, it2, buf2) := rrun b os it1 buf1 in
      mret (a :: l, it2, buf2)
  end.

(** What each read does to the bytes left [rem] and to the content [out] of [buf]. *)
Inductive reads : rop -> rans -> list Z -> list Z -> list Z -> list Z -> Prop :=
  | reads_byte rem out : reads RByte (ABytes (take 1 rem)) rem (drop 1 rem) out out
  | reads_copy n rem out :
      reads (RCopy n) (ABytes (take (Z.to_nat n) rem)) rem (drop (Z.to_nat n) rem) out out
  | reads_copy_string s n rem out :
      let t := take (Z.to_nat n) rem in
      reads (RCopyString s n) (AString (len t) (if len s <? n then t else t ++ drop (Datatypes.length t) s))
        rem (drop (Z.to_nat n) rem) out out
  | reads_forward n rem out :
      reads (RForward n) (ACount (Z.min n (len rem))) rem (drop (Z.to_nat n) rem) out out
  | reads_end out : reads RBlock (ABlock None) [] [] out out
  | reads_block s rem out : s <> [] -> reads RBlock (ABlock (Some s)) (s ++ rem) rem out out
  | reads_append n rem out :
      reads (RAppend n) (ACount (len (take (Z.to_nat n) rem))) rem (drop (Z.to_nat n) rem) out (out ++ take (Z.to_nat n) rem).
Inductive reads_all : list rop -> list rans -> list Z -> list Z -> list Z -> list Z -> Prop :=
  | reads_nil rem out : reads_all [] [] rem rem out out
  | reads_cons o os a l rem rem1 rem2 out out1 out2 :
      reads o a rem rem1 out out1 -> reads_all os l rem1 rem2 out1 out2 ->
      reads_all (o :: os) (a :: l) rem rem2 out out2.
Definition rop_ok (o : rop) : Prop :=
  match o with RCopy n | RCopyString _ n | RForward n | RAppend n => 0 <= n | _ => True end.

Lemma copy_and_forward_string_spec w b bs rs it rem s n :
  holds w b bs -> inv w rs -> stands w b it rem -> 0 <= n ->
  let t := take (Z.to_nat n) rem in
  exists it', copy_and_forward_string b it s n w =
      Some ((len t, if len s <? n then t else t ++ drop (Datatypes.length t) s, it'), w) /\
    stands w b it' (drop (Z.to_nat n) rem).
Proof.
  intros Hh Hi Hst Hn t. destruct (copy_and_forward_spec w b bs rs Hh Hi it rem n Hst Hn) as (it' & Heq & Hst').
  exists it'. split; [|done]. unfold copy_and_forward_string, mbind', mret. rewrite Heq. fold t.
  assert (len t <= n) by (unfold t; rewrite length_take; lia).
  destruct (Z.ltb_spec (len s) n); rewrite ?andb_true_r, ?andb_false_r, Nat2Z.id; [|done].
  destruct (Z.ltb_spec (len t) n).
  - by rewrite take_app_length.
  - rewrite (drop_ge (s ++ _)) by (rewrite length_app, length_replicate; lia). by rewrite app_nil_r.
Qed.

(** What the steps of a reader keep: source, destination and iterator agree with
    the bytes left and the bytes appended. *)
Definition reading w b bs rs it buf rem out : Prop :=
  holds w b bs /\ holds w buf out /\ inv w (owned buf ++ rs) /\ owned b ⊆ rs /\ stands w b it rem /\
  2 * (len out + len rem) < limit.
Lemma reading_same w b bs rs it it' buf rem rem' out :
  reading w b bs rs it buf rem out -> stands w b it' rem' -> len rem' <= len rem -> reading w b bs rs it' buf rem' out.
Proof. intros (H1 & H2 & H3 & H4 & H5 & H6) Hst Hl. repeat (split; [done|]). lia. Qed.

Lemma rexec_spec w b bs rs it buf rem out o :
  reading w b bs rs it buf rem out -> rop_ok o ->
  exists a it' buf' w' rem' out', rexec b o it buf w = Some ((a, it', buf'), w') /\ reads o a rem rem' out out' /\
    reading w' b bs rs it' buf' rem' out' /\ stable w w' rs.
Proof.
  intros Hrd Hok. pose proof Hrd as (Hh & Ho & Hi & Hsub & Hst & Hlim). pose proof (stands_left w b it rem Hst) as Hleft.
  destruct o as [|n|s n|n| |n]; simpl in Hok; cbn [rexec].
  - rewrite Hleft. destruct rem as [|c rem].
    { exists (ABytes []), it, buf, w, [], out. split; [done|]. split; [apply (reads_byte [])|]. split; [done|apply stable_refl]. }
    destruct (Z.eqb_spec (len (c :: rem)) 0); [done|].
    destruct (next_spec w b bs _ Hh Hi it c rem Hst) as (Hd & it' & Hn & Hst'). unfold mbind', mret. rewrite Hd, Hn.
    eexists _, it', buf, w, rem, out. split; [done|]. split; [apply (reads_byte (c :: rem))|].
    split; [|apply stable_refl]. eapply reading_same; [done|done|simpl; lia].
  - destruct (copy_and_forward_spec w b bs _ Hh Hi it rem n Hst Hok) as (it' & Heq & Hst'). unfold mbind', mret. rewrite Heq.
    eexists _, it', buf, w, _, out. split; [done|]. split; [constructor|]. split; [|apply stable_refl].
    eapply reading_same; [done|done|rewrite length_drop; lia].
  - destruct (copy_and_forward_string_spec w b bs _ it rem s n Hh Hi Hst Hok) as (it' & Heq & Hst'). unfold mbind', mret. rewrite Heq.
    eexists _, it', buf, w, _, out. split; [done|]. split; [constructor|]. split; [|apply stable_refl].
    eapply reading_same; [done|done|rewrite length_drop; lia].
  - destruct (forward_spec w b bs _ Hh Hi it rem n Hst Hok) as (it' & Heq & Hst'). unfold mbind', mret. rewrite Heq.
    eexists _, it', buf, w, _, out. split; [done|]. split; [constructor|]. split; [|apply stable_refl].
    eapply reading_same; [done|done|rewrite length_drop; lia].
  - destruct (forward_one_block_spec w b bs _ Hh Hi it rem Hst) as (x & it' & Heq & Hx). unfold mbind', mret. rewrite Heq.
    destruct x as [s|].
    + destruct Hx as (Hne & rem' & -> & Hst'). eexists _, it', buf, w, rem', out. split; [done|]. split; [by constructor|].
      split; [|apply stable_refl]. eapply reading_same; [done|done|rewrite length_app; lia].
    + destruct Hx as [-> ->]. eexists _, it, buf, w, [], out. split; [done|]. split; [by constructor|]. split; [done|apply stable_refl].
  - destruct (append_and_forward_spec w b bs buf out rs it rem n) as (it' & buf' & w' & Heq & Ho' & Hi' & Hst' & Hend);
      [done|done|done|done|done|done|rewrite length_take; lia|].
    unfold mbind', mret. rewrite Heq. eexists _, it', buf', w', _, _. split; [done|]. split; [constructor|]. split; [|done].
    split; [by eapply holds_stable|]. split; [done|]. split; [done|]. split; [done|]. split; [done|].
    rewrite length_app, length_take, length_drop. lia.
Qed.

Lemma rrun_spec os w b bs rs it buf rem out :
  reading w b bs rs it buf rem out -> Forall rop_ok os ->
  exists l it' buf' w' rem' out', rrun b os it buf w = Some ((l, it', buf'), w') /\ reads_all os l rem rem' out out' /\
    reading w' b bs rs it' buf' rem' out' /\ stable w w' rs.
Proof.
  revert w it buf rem out. induction os as [|o os IH]; intros w it buf rem out Hrd Hok.
  { exists [], it, buf, w, rem, out. split; [done|]. split; [constructor|]. split; [done|apply stable_refl]. }
  apply Forall_cons in Hok as [Ho Hok]. cbn [rrun].
  destruct (rexec_spec w b bs rs it buf rem out o Hrd Ho) as (a & it1 & buf1 & w1 & rem1 & out1 & Heq & Hr & Hrd1 & Hst1).
  destruct (IH w1 it1 buf1 rem1 out1 Hrd1 Hok) as (l & it2 & buf2 & w2 & rem2 & out2 & Heq2 & Hr2 & Hrd2 & Hst2).
  unfold mbind', mret. rewrite Heq, Heq2. exists (a :: l), it2, buf2, w2, rem2, out2. split; [done|]. split; [by econstructor|].
  split; [done|]. by eapply stable_trans.
Qed.

(** C30: An iterator over the first n bytes of a buffer delivers exactly these bytes, in
    order, whatever mix of single bytes, copies, skips, whole blocks and appends by
    reference to another buffer (below 2^29 bytes) it is asked for with counts that are not
    negative; every read is defined and ends, bytes_left is what remains, and neither the
    source nor another holder of its blocks is disturbed. *)
Theorem bytes_iterator_delivers w b bs buf out rs n os :
  holds w b bs -> holds w buf out -> inv w (owned buf ++ rs) -> owned b ⊆ rs ->
  0 <= n <= len bs -> 2 * (len out + n) < limit -> Forall rop_ok os ->
  exists it0, BytesIterator_new b w = Some (it0, w) /\
  exists l it' buf' w' rem' out', rrun b os (BytesIterator_sub it0 n) buf w = Some ((l, it', buf'), w') /\
    reads_all os l (take (Z.to_nat n) bs) rem' out out' /\ _bytes_left it' = len rem' /\
    holds w' b bs /\ holds w' buf' out' /\ inv w' (owned buf' ++ rs) /\ stable w w' rs.
Proof.
  intros Hh Ho Hi Hsub Hn Hlim Hok. destruct (new_spec w b bs _ Hh Hi) as (it0 & Hnew & Hst0). exists it0. split; [done|].
  pose proof (bytes_bound w b bs _ Hh Hi) as Hb. unfold limit in Hb.
  pose proof (sub_spec w b it0 bs n Hst0 Hn ltac:(lia)) as Hst.
  destruct (rrun_spec os w b bs rs (BytesIterator_sub it0 n) buf (take (Z.to_nat n) bs) out) as
    (l & it' & buf' & w' & rem' & out' & Heq & Hr & (Hb' & Ho' & Hi' & _ & Hst' & _) & Hs'); [|done|].
  { repeat (split; [done|]). rewrite length_take. lia. }
  exists l, it', buf', w', rem', out'. split; [done|]. split; [done|]. split; [by eapply stands_left|]. done.
Qed.

Definition some_reads : list rop := [RByte; RCopy 2; RAppend 3; RForward 1; RCopyString [9; 9] 1; RBlock; RBlock].
Lemma bytes_iterator_witness :
  exists b w, append (H := plenty) IOBuf_empty [1; 2; 3; 4; 5; 6; 7; 8; 9; 10] w0 = Some ((0, b), w) /\
  exists it0, BytesIterator_new b w = Some (it0, w) /\
  exists l it' buf' w' rem' out', rrun b some_reads (BytesIterator_sub it0 9) IOBuf_empty w = Some ((l, it', buf'), w') /\
    reads_all some_reads l (take (Z.to_nat 9) [1; 2; 3; 4; 5; 6; 7; 8; 9; 10]) rem' [] out' /\ _bytes_left it' = len rem' /\
    holds w' b [1; 2; 3; 4; 5; 6; 7; 8; 9; 10] /\ holds w' buf' out' /\ inv w' (owned buf' ++ owned b) /\ stable w w' (owned b).
Proof.
  destruct (appended_plenty [1; 2; 3; 4; 5; 6; 7; 8; 9; 10] ltac:(done)) as (b & w & Heq & Hh & Hi).
  exists b, w. split; [exact Heq|].
  apply (bytes_iterator_delivers w b _ IOBuf_empty [] (owned b) 9 some_reads Hh (holds_empty w) Hi); [done|done|done|].
  repeat constructor; done.
Defined.

(** *** The input stream

    [at_pos s p]: the stream stands [p] bytes into the buffer.  [_add_offset] may be
    all of the current reference, after [BackUp(0)]. *)
Section Stream.
Context (w : World) (b : buffer) (bs : list Z) (rs : list bid) (Hh : holds w b bs) (Hi : inv w rs).
Let l := view_list b.

Lemma pref_at_holds i : 0 <= i -> _pref_at b i = l !! Z.to_nat i.
Proof.
  intros H0. pose proof (read_repr w b bs Hh) as Hr. fold l in Hr. destruct (Z.lt_ge_cases i (len l)) as [Hlt|Hge].
  - rewrite <- (ref_at_spec b l Hr i) by lia. pose proof (ref_num_spec b l Hr) as Hn. unfold _pref_at, _ref_at, _ref_num in *.
    destruct b as [r0 r1|bv]; rewrite Hn; by rewrite (proj2 (Z.ltb_lt _ _)) by lia.
  - rewrite lookup_ge_None_2 by lia. pose proof (ref_num_spec b l Hr) as Hn. unfold _pref_at, _ref_num in *.
    destruct b as [r0 r1|bv]; rewrite Hn; by rewrite (proj2 (Z.ltb_ge _ _)) by lia.
Qed.

Definition at_pos (s : InputStream) (p : Z) : Prop :=
  0 <= _ref_index s <= len l /\ 0 <= _add_offset s /\ _byte_count s = p /\
  p = len (bytes w (take (Z.to_nat (_ref_index s)) l)) + _add_offset s /\
  match l !! Z.to_nat (_ref_index s) with Some r => _add_offset s <= length r | None => _add_offset s = 0 end.

Lemma bytes_split i : bs = bytes w (take i l) ++ bytes w (drop i l).
Proof. destruct Hh as (_ & _ & Hb). fold l in Hb. unfold bytes in *. by rewrite <- join_app, <- map_app, take_drop. Qed.

(** What the loops meet at a position: the current reference and the bytes left. *)
Lemma at_pos_cur s p r : at_pos s p -> l !! Z.to_nat (_ref_index s) = Some r ->
  ref_ok w r /\ 0 < length r < 2 ^ 31 /\ 0 <= p /\ len bs < limit /\
  drop (Z.to_nat p) bs = drop (Z.to_nat (_add_offset s)) (ref_bytes w r) ++ bytes w (drop (Z.to_nat (_ref_index s + 1)) l) /\
  len (ref_bytes w r) = length r /\
  at_pos (mkIn (_ref_index s + 1) 0 (p + (length r - _add_offset s))) (p + (length r - _add_offset s)).
Proof.
  intros (Hx & Ha & Hc & Hp & Hr) Hlk. rewrite Hlk in Hr. pose proof (lookup_lt_Some _ _ _ Hlk) as Hlt.
  destruct (ref_at_holds w b bs rs Hh Hi (_ref_index s)) as (r' & _ & Hlk' & (Ho & Hl1 & Hl2 & _) & Hok & Hlen & Hby); [fold l; lia|].
  fold l in Hlk', Hby. rewrite Hlk in Hlk'. injection Hlk' as <-.
  split; [done|]. split; [lia|]. split; [lia|]. split; [by eapply bytes_bound|]. split.
  { rewrite (bytes_split (Z.to_nat (_ref_index s))) at 1. rewrite drop_app_ge by lia. rewrite Hby, drop_app_le by lia.
    do 2 f_equal. lia. }
  split; [done|]. unfold at_pos. cbn [_ref_index _add_offset _byte_count]. split; [lia|]. split; [lia|]. split; [done|].
  replace (Z.to_nat (_ref_index s + 1)) with (S (Z.to_nat (_ref_index s))) by lia. rewrite (take_S_r l _ r Hlk).
  unfold bytes in *. rewrite map_app, join_app, length_app. cbn [map mjoin list_join]. rewrite app_nil_r. split; [lia|].
  destruct (l !! S _) as [r'|] eqn:E; [|done].
  pose proof (Forall_lookup_1 _ _ _ _ (repr_shape _ _ (read_repr w b bs Hh)) E) as (_ & ? & _). lia.
Qed.
Lemma at_pos_le s p : at_pos s p -> 0 <= p <= len bs.
Proof.
  intros Hat. pose proof Hat as (Hx & Ha & Hc & Hp & Hr). pose proof (bytes_split (Z.to_nat (_ref_index s))) as Hs.
  apply (f_equal Datatypes.length) in Hs. rewrite length_app in Hs.
  destruct (l !! Z.to_nat (_ref_index s)) as [r|] eqn:Hlk; [|lia]. pose proof (lookup_lt_Some _ _ _ Hlk) as Hlt.
  destruct (ref_at_holds w b bs rs Hh Hi (_ref_index s)) as (r' & _ & Hlk' & _ & _ & Hlen & Hby); [fold l; lia|].
  fold l in Hlk', Hby. rewrite Hlk in Hlk'. injection Hlk' as <-. rewrite Hby, length_app in Hs. lia.
Qed.
Lemma at_pos_end s p : at_pos s p -> l !! Z.to_nat (_ref_index s) = None -> p = len bs.
Proof.
  intros (Hx & Ha & Hc & Hp & Hr) Hlk. rewrite Hlk in Hr. apply lookup_ge_None in Hlk. rewrite take_ge in Hp by lia.
  destruct Hh as (_ & _ & Hb). fold l in Hb. rewrite Hb in Hp. lia.
Qed.
Lemma at_pos_new : at_pos InputStream_new 0.
Proof.
  unfold at_pos, InputStream_new. cbn [_ref_index _add_offset _byte_count]. split; [lia|]. split; [lia|]. split; [done|].
  split; [done|]. change (Z.to_nat 0) with 0%nat.
  destruct (l !! 0%nat) as [r|] eqn:E; [|done].
  pose proof (Forall_lookup_1 _ _ _ _ (repr_shape _ _ (read_repr w b bs Hh)) E) as (_ & ? & _). lia.
Qed.

(** [Next] hands out the rest of the current reference, a prefix of what is left. *)
Lemma Next_spec s p : at_pos s p ->
  exists o s', Next b s w = Some ((o, s'), w) /\
    match o with
    | None => p = len bs /\ s' = s
    | Some d => at_pos s' (p + len d) /\ 0 <= p /\ (exists tail, drop (Z.to_nat p) bs = d ++ tail) /\
        _add_offset s' = 0 /\ exists r, 0 < _ref_index s' /\ l !! Z.to_nat (_ref_index s' - 1) = Some r /\ len d <= length r
    end.
Proof.
  intros Hat. pose proof Hat as (Hx & Ha & Hc & _ & Hr). unfold Next. rewrite pref_at_holds by lia.
  destruct (l !! Z.to_nat (_ref_index s)) as [r|] eqn:Hlk.
  2:{ exists None, s. split; [done|]. split; [|done]. by apply (at_pos_end s p Hat). }
  destruct (at_pos_cur s p r Hat Hlk) as (Hok & Hlr & Hp0 & _ & Hdrop & Hlen & Hat').
  rewrite u32_small, i32_small by lia. unfold mbind', mret. rewrite (read_ref_spec w r _ _ rs Hi Hok) by lia.
  set (d := take _ _). assert (Hd : d = drop (Z.to_nat (_add_offset s)) (ref_bytes w r)) by (apply take_ge; rewrite length_drop; lia).
  assert (Hdl : len d = length r - _add_offset s) by (rewrite Hd, length_drop; lia).
  eexists (Some d), _. split; [done|]. rewrite Hdl, Hc. split; [done|]. split; [done|]. split.
  { eexists. rewrite Hd. exact Hdrop. }
  cbn [_add_offset _ref_index]. split; [done|]. exists r.
  replace (_ref_index s + 1 - 1) with (_ref_index s) by lia. split; [lia|]. split; [done|lia].
Qed.
Lemma BackUp_spec s p c r : at_pos s p -> _add_offset s = 0 -> 0 < _ref_index s ->
  l !! Z.to_nat (_ref_index s - 1) = Some r -> 0 <= c <= length r ->
  exists s', BackUp b c s = Some s' /\ at_pos s' (p - c).
Proof.
  intros (Hx & Ha & Hc & Hp & Hr) Hz Hpos Hlk Hcr. unfold BackUp. rewrite (proj2 (Z.ltb_lt _ _)) by lia.
  rewrite pref_at_holds, Hlk by lia. simpl.
  destruct (ref_at_holds w b bs rs Hh Hi (_ref_index s - 1)) as (r' & _ & Hlk' & (Ho & Hl1 & Hl2 & _) & Hok & Hlen & Hby); [fold l; lia|].
  fold l in Hlk'. rewrite Hlk in Hlk'. injection Hlk' as <-.
  rewrite u32_small, i32_small by lia. eexists. split; [done|]. unfold at_pos. cbn [_ref_index _add_offset _byte_count].
  split; [lia|]. split; [lia|]. split; [lia|]. rewrite Hlk. split; [|lia].
  replace (Z.to_nat (_ref_index s)) with (S (Z.to_nat (_ref_index s - 1))) in Hp by lia.
  rewrite (take_S_r l _ r Hlk) in Hp. unfold bytes in *. rewrite map_app, join_app, length_app in Hp.
  cbn [map mjoin list_join] in Hp. rewrite app_nil_r in Hp. lia.
Qed.
(** [Skip] moves on by [c] bytes and says whether any is left behind them. *)
Lemma Skip_loop_spec fuel s p c : at_pos s p -> 0 <= c -> len l < _ref_index s + Z.of_nat fuel ->
  exists s', Skip_loop fuel b c s = Some (bool_decide (p + c < len bs), s') /\ at_pos s' (Z.min (p + c) (len bs)).
Proof.
  revert s p c. induction fuel as [|fuel IH]; intros s p c Hat Hc Hf.
  { destruct Hat as (? & _). lia. }
  pose proof Hat as (Hx & Ha & Hbc & Hp & Hr). cbn [Skip_loop]. rewrite pref_at_holds by lia.
  destruct (l !! Z.to_nat (_ref_index s)) as [r|] eqn:Hlk.
  2:{ pose proof (at_pos_end s p Hat Hlk) as Hend. rewrite bool_decide_eq_false_2 by lia. exists s. split; [done|].
      by replace (Z.min (p + c) (len bs)) with p by lia. }
  destruct (at_pos_cur s p r Hat Hlk) as (Hok & Hlr & Hp0 & _ & Hdrop & Hlen & Hat').
  rewrite u32_small, i32_small by lia.
  pose proof (at_pos_le _ _ Hat') as Hlb.
  destruct (Z.ltb_spec c (length r - _add_offset s)) as [Hlt|Hge].
  - rewrite bool_decide_eq_true_2 by lia. eexists. split; [done|]. rewrite Z.min_l by lia. unfold at_pos.
    cbn [_ref_index _add_offset _byte_count]. rewrite Hlk. split; [done|]. split; [lia|]. split; [lia|]. split; lia.
  - rewrite Hbc. destruct (IH _ _ (c - (length r - _add_offset s)) Hat') as (s' & Heq & Hat2); [lia|simpl; lia|].
    exists s'. replace (p + (length r - _add_offset s) + (c - (length r - _add_offset s))) with (p + c) in * by lia. done.
Qed.
Lemma Skip_spec s p c : at_pos s p -> 0 <= c ->
  exists s', Skip b c s = Some (bool_decide (p + c < len bs), s') /\ at_pos s' (Z.min (p + c) (len bs)).
Proof.
  intros Hat Hc. apply Skip_loop_spec; [done|done|]. unfold ref_fuel.
  rewrite (ref_num_spec b l (read_repr w b bs Hh)). destruct Hat as (? & _). lia.
Qed.
End Stream.

(** *** Any use of the input stream within its contract

    A client remembers the size of the chunk that [Next] just handed out, and calls
    [BackUp] right after [Next] only, with no more than that size. *)
Inductive sop := SNext | SBackUp (count : Z) | SSkip (count : Z) | SByteCount | SAvailable | SPeek | SSnappySkip (n : Z).
Inductive sans := SData (o : option (list Z)) | SUnit | SBool (ok : bool) | SNum (n : Z).
Definition may_back_up (c : Z) (k : option Z) : bool := match k with Some n => c <=? n | None => false end.

Definition sexec (b : buffer) (o : sop) (s : InputStream) (k : option Z) : M World (sans * InputStream * option Z) :=
  match o with
  | SNext => let* (d, s') := Next b s in mret (SData d, s', (fun d => len d) <$> d)
  | SBackUp c =>
      if may_back_up c k then let* s' := mlift (BackUp b c s) in mret (SUnit, s', None)
      else mret (SUnit, s, None)
  | SSkip c => let* (ok, s') := mlift (Skip b c s) in mret (SBool ok, s', None)
  | SByteCount => mret (SNum (ByteCount s), s, k)
  | SAvailable => mret (SNum (Available b s), s, k)
  | SPeek => let* (d, s') := Peek b s in mret (SData d, s', None)
  | SSnappySkip n => let* s' := mlift (snappy_Skip b n s) in mret (SUnit, s', None)
  end.
Fixpoint srun (b : buffer) (os : list sop) (s : InputStream) (k : option Z)
  : M World (list sans * InputStream * option Z) :=
  match os with
  | [] => mret ([], s, k)
  | o :: os =>
      let* (a, s1, k1) := sexec b o s k in
      let* (l, s2, k2) := srun b os s1 k1 in
      mret (a :: l, s2, k2)
  end.

(** The specification: a position in the byte string. *)
Inductive streams (bs : list Z) : sop -> sans -> Z -> option Z -> Z -> option Z -> Prop :=
  | streams_next d p k : take (Datatypes.length d) (drop (Z.to_nat p) bs) = d ->
      streams bs SNext (SData (Some d)) p k (p + len d) (Some (len d))
  | streams_eof k : streams bs SNext (SData None) (len bs) k (len bs) None
  | streams_backup c p k : streams bs (SBackUp c) SUnit p k (if may_back_up c k then p - c else p) None
  | streams_skip c p k : streams bs (SSkip c) (SBool (bool_decide (p + c < len bs))) p k (Z.min (p + c) (len bs)) None
  | streams_count p k : streams bs SByteCount (SNum p) p k p k
  | streams_available p k : streams bs SAvailable (SNum (len bs - p)) p k p k
  | streams_peek d p k : take (Datatypes.length d) (drop (Z.to_nat p) bs) = d ->
      streams bs SPeek (SData (Some d)) p k p None
  | streams_peek_eof k : streams bs SPeek (SData None) (len bs) k (len bs) None
  | streams_snappy_skip c p k : streams bs (SSnappySkip c) SUnit p k (Z.min (p + c) (len bs)) None.
Inductive streams_all (bs : list Z) : list sop -> list sans -> Z -> option Z -> Z -> option Z -> Prop :=
  | streams_nil p k : streams_all bs [] [] p k p k
  | streams_cons o os a l p k p1 k1 p2 k2 :
      streams bs o a p k p1 k1 -> streams_all bs os l p1 k1 p2 k2 -> streams_all bs (o :: os) (a :: l) p k p2 k2.
(** Counts are [int]s that are not negative. *)
Definition sop_ok (o : sop) : Prop :=
  match o with SBackUp c | SSkip c | SSnappySkip c => 0 <= c < 2 ^ 31 | _ => True end.

(** What a client may rely on after each call. *)
Definition streaming w b s p (k : option Z) : Prop :=
  at_pos w b s p /\
  match k with
  | Some n => _add_offset s = 0 /\ exists r, 0 < _ref_index s /\
      view_list b !! Z.to_nat (_ref_index s - 1) = Some r /\ n <= length r
  | None => True
  end.

Lemma sexec_spec w b bs rs s p k o :
  holds w b bs -> inv w rs -> streaming w b s p k -> sop_ok o ->
  exists a s' k' p', sexec b o s k w = Some ((a, s', k'), w) /\ streams bs o a p k p' k' /\ streaming w b s' p' k'.
Proof.
  intros Hh Hi [Hat Hk] Hok. pose proof (at_pos_le w b bs rs Hh Hi s p Hat) as Hp.
  pose proof (bytes_bound w b bs rs Hh Hi) as Hbb. unfold limit in Hbb.
  destruct o as [|c|c| | | |c]; simpl in Hok; cbn [sexec]; unfold mbind', mret, mlift.
  - destruct (Next_spec w b bs rs Hh Hi s p Hat) as (d & s' & Heq & Hd). rewrite Heq. destruct d as [d|].
    + destruct Hd as (Hat' & _ & (tail & Htl) & Hz & Hr). eexists _, s', _, _. split; [done|].
      split; [constructor; by rewrite Htl, take_app_length|]. done.
    + destruct Hd as [-> ->]. eexists _, s, _, _. split; [done|]. split; [constructor|]. done.
  - destruct (may_back_up c k) eqn:Hm.
    + destruct k as [n|]; [|done]. destruct Hk as (Hz & r & H0 & Hlk & Hn). apply Z.leb_le in Hm.
      destruct (BackUp_spec w b bs rs Hh Hi s p c r Hat Hz H0 Hlk) as (s' & Heq & Hat'); [lia|]. rewrite Heq.
      eexists _, s', None, (p - c). split; [done|]. split; [|done].
      pose proof (streams_backup bs c p (Some n)) as Hs. cbn in Hs. by rewrite (proj2 (Z.leb_le _ _) Hm) in Hs.
    + eexists _, s, None, p. split; [done|]. split; [|done]. pose proof (streams_backup bs c p k) as Hs. by rewrite Hm in Hs.
  - destruct (Skip_spec w b bs rs Hh Hi s p c Hat) as (s' & Heq & Hat'); [lia|]. rewrite Heq.
    eexists _, s', _, _. split; [done|]. split; [constructor|done].
  - eexists _, s, k, p. split; [done|]. split; [|done]. destruct Hat as (_ & _ & Hc & _). unfold ByteCount. rewrite Hc. constructor.
  - eexists _, s, k, p. split; [done|]. split; [|done]. pose proof Hat as (_ & _ & Hc & _). unfold Available, ByteCount.
    rewrite Hc, (length_holds w b bs rs Hi Hh), u64_small by lia. constructor.
  - unfold Peek, mbind', mret, mlift.
    destruct (Next_spec w b bs rs Hh Hi s p Hat) as (d & s1 & Heq & Hd). rewrite Heq. destruct d as [d|].
    + destruct Hd as (Hat1 & _ & (tail & Htl) & Hz & r & H0 & Hlk & Hn).
      destruct (BackUp_spec w b bs rs Hh Hi s1 (p + len d) (len d) r Hat1 Hz H0 Hlk) as (s' & Heq2 & Hat'); [lia|]. rewrite Heq2.
      eexists _, s', _, p. split; [done|]. split; [constructor; by rewrite Htl, take_app_length|].
      split; [|done]. by replace (p + len d - len d) with p in Hat' by lia.
    + destruct Hd as [-> ->]. eexists _, s, _, _. split; [done|]. split; [constructor|]. done.
  - unfold snappy_Skip. rewrite i32_small by lia. destruct (Skip_spec w b bs rs Hh Hi s p c Hat) as (s' & Heq & Hat'); [lia|].
    rewrite Heq. simpl. eexists _, s', _, _. split; [done|]. split; [constructor|done].
Qed.

Lemma srun_spec w b bs rs os s p k :
  holds w b bs -> inv w rs -> Forall sop_ok os -> streaming w b s p k ->
  exists l s' k' p', srun b os s k w = Some ((l, s', k'), w) /\ streams_all bs os l p k p' k' /\ streaming w b s' p' k'.
Proof.
  intros Hh Hi Hok. revert s p k. induction Hok as [|o os Ho Hok IH]; intros s p k Hst; cbn [srun].
  - exists [], s, k, p. split; [done|]. split; [constructor|done].
  - destruct (sexec_spec w b bs rs s p k o Hh Hi Hst Ho) as (a & s1 & k1 & p1 & Heq & Hs & Hst1).
    destruct (IH s1 p1 k1 Hst1) as (l & s2 & k2 & p2 & Heq2 & Hs2 & Hrest).
    exists (a :: l), s2, k2, p2. unfold mbind', mret. rewrite Heq, Heq2. split; [done|]. split; [by econstructor|done].
Qed.

(** C31: a zero-copy input stream over a buffer is a position in its bytes: under any
    sequence of [Next], [BackUp] (right after [Next], no more than it handed out),
    [Skip], [ByteCount], and of the snappy source's [Available], [Peek] and [Skip], every
    chunk handed out is what stands at the position, end of stream is reported at the
    end only, and [ByteCount] is the position, [Available] the rest. *)
Theorem input_stream_is_a_position w b bs rs os :
  holds w b bs -> inv w rs -> Forall sop_ok os ->
  exists l s' k' p', srun b os InputStream_new None w = Some ((l, s', k'), w) /\
    streams_all bs os l 0 None p' k' /\ ByteCount s' = p' /\ 0 <= p' <= len bs.
Proof.
  intros Hh Hi Hok.
  assert (Hst : streaming w b InputStream_new 0 None) by (split; [by eapply at_pos_new|done]).
  destruct (srun_spec w b bs rs os InputStream_new 0 None Hh Hi Hok Hst) as (l & s' & k' & p' & Heq & Hs & Hat & _).
  exists l, s', k', p'. split; [done|]. split; [done|]. split; [apply Hat|]. by apply (at_pos_le w b bs rs Hh Hi s').
Qed.

Definition some_calls : list sop := [SNext; SBackUp 3; SByteCount; SPeek; SAvailable; SSkip 2; SNext; SBackUp 0; SNext; SNext; SSnappySkip 4].
Lemma input_stream_witness :
  exists b w, append (H := plenty) IOBuf_empty [1; 2; 3; 4; 5] w0 = Some ((0, b), w) /\
  exists l s' k' p', srun b some_calls InputStream_new None w = Some ((l, s', k'), w) /\
    streams_all [1; 2; 3; 4; 5] some_calls l 0 None p' k' /\ ByteCount s' = p' /\ 0 <= p' <= len [1; 2; 3; 4; 5].
Proof.
  destruct (appended_plenty [1; 2; 3; 4; 5] ltac:(done)) as (b & w & Heq & Hh & Hi).
  exists b, w. split; [exact Heq|].
  apply (input_stream_is_a_position w b _ (owned b) some_calls Hh Hi). repeat constructor; done.
Defined.

End Reader.
