(* ===== verification/IOBufCutter.v ===== *)
(** * IOBufCutter (butil/iobuf.h, iobuf_inl.h, iobuf.cpp)

    A cursor that cuts bytes from the front of a buffer and writes its position back to
    the buffer only when it is destroyed.  The pointers [_data] and [_data_end] are
    offsets in [_block]; a NULL [_block] stands for NULL pointers. *)
From stdpp Require Import base list gmap.
From Stdlib Require Import ZArith Lia Bool.
From S2P Require Import Prelude IOBufBlock IOBufView IOBuf IOBufSpec IOBufEdge.

Open Scope Z_scope.
Open Scope m_scope.

Module IOBufCutter.
Import Block View IOBuf IOBufSpec IOBufEdge.

Record Cutter := mkCutter { _block : option bid; _data : Z; _data_end : Z }.
Definition Cutter_new : Cutter := mkCutter None 0 0.
Definition room (c : Cutter) : Z := _data_end c - _data c.
Definition advance (c : Cutter) (n : Z) : Cutter := mkCutter (_block c) (_data c + n) (_data_end c).
(** [memcpy] from [_data]: nothing may be read behind a NULL pointer. *)
Definition read_here (c : Cutter) (n : Z) : M World (list Z) :=
  match _block c with Some k => read_at k (_data c) n | None => if n =? 0 then mret [] else ub end.

Definition load_next_ref (b : buffer) (c : Cutter) : M World (bool * buffer * Cutter) :=
  let* b' := match _block c with
             | Some _ => let* (_, b') := _pop_front_ref b in mret b'
             | None => mret b
             end in
  if _ref_num b' =? 0 then mret (false, b', Cutter_new)
  else
    let* r := front_ref b' in
    mret (true, b', mkCutter (block r) (offset r) (offset r + length r)).
Definition remaining_bytes (b : buffer) (c : Cutter) : M World Z :=
  match _block c with
  | Some _ => let* r := front_ref b in mret (u64 (room c + length_ b - length r))
  | None => mret (length_ b)
  end.
(** A pointer to the next byte, or NULL. *)
Definition fetch1 (b : buffer) (c : Cutter) : M World (option Z * buffer * Cutter) :=
  let* (ok, b', c') := (if _data c =? _data_end c then load_next_ref b c else mret (true, b, c)) in
  if ok then let* s := read_here c' 1 in match s with x :: _ => mret (Some x, b', c') | [] => ub end
  else mret (None, b', c').
Definition cut1 (b : buffer) (c : Cutter) : M World (option Z * buffer * Cutter) :=
  let* (o, b', c') := fetch1 b c in
  mret (o, b', match o with Some _ => advance c' 1 | None => c' end).

(** The loop over the references behind the first one in [slower_copy_to]. *)
Fixpoint copy_refs_loop (b : buffer) (k : nat) (i n : Z) (out : list Z) : M World (list Z) :=
  match k with
  | O => mret out
  | S k' =>
      let* r := ref_at b i in
      let nc := Z.min n (length r) in
      let* s := read_ref r 0 nc in
      if n - nc =? 0 then mret (out ++ s) else copy_refs_loop b k' (i + 1) (n - nc) (out ++ s)
  end.
Definition copy_behind (b : buffer) (c : Cutter) (n : Z) : M World (list Z * buffer * Cutter) :=
  let* s := read_here c (room c) in
  let* out := copy_refs_loop b (Z.to_nat (_ref_num b - 1)) 1 (n - room c) s in
  mret (out, b, c).
Definition slower_copy_to (b : buffer) (c : Cutter) (n : Z) : M World (list Z * buffer * Cutter) :=
  if room c =? 0 then
    let* (ok, b', c') := load_next_ref b c in
    if negb ok then mret ([], b', c')
    else if n <=? room c' then let* s := read_here c' n in mret (s, b', c')
    else copy_behind b' c' n
  else copy_behind b c n.
Definition copy_to (b : buffer) (c : Cutter) (n : Z) : M World (list Z * buffer * Cutter) :=
  if n <=? room c then let* s := read_here c n in mret (s, b, c) else slower_copy_to b c n.

(** The loop of [pop_front]: one more turn than there are references. *)
Fixpoint pop_front_loop (fuel : nat) (b : buffer) (c : Cutter) (n saved_n : Z) : M World (Z * buffer * Cutter) :=
  match fuel with
  | O => ub
  | S fuel' =>
      if n <=? room c then mret (saved_n, b, advance c n)
      else
        let n' := n - room c in
        let* (ok, b', c') := load_next_ref b c in
        if ok then pop_front_loop fuel' b' c' n' saved_n else mret (saved_n - n', b', c')
  end.
Definition pop_front (b : buffer) (c : Cutter) (n : Z) : M World (Z * buffer * Cutter) :=
  pop_front_loop (S (ref_fuel b)) b c n n.

(** The three versions of [cutn]: into a buffer, memory or a string. *)
Definition cutn (b : buffer) (c : Cutter) (out : buffer) (n : Z) : M World (Z * buffer * Cutter * buffer) :=
  if n =? 0 then mret (0, b, c, out)
  else if n <=? room c then
    let* out' := _push_back_ref out (mkRef (u32 (_data c)) (u32 n) (_block c)) in
    mret (n, b, advance c n, out')
  else if negb (room c =? 0) then
    let* out1 := _push_back_ref out (mkRef (u32 (_data c)) (u32 (room c)) (_block c)) in
    let* (_, b1) := _pop_front_ref b in
    let* (m, b2, out2) := IOBuf.cutn b1 out1 (n - room c) in
    mret (m + room c, b2, Cutter_new, out2)
  else
    let* b1 := match _block c with Some _ => let* (_, b1) := _pop_front_ref b in mret b1 | None => mret b end in
    let* (m, b2, out2) := IOBuf.cutn b1 out n in
    mret (m, b2, Cutter_new, out2).
Definition cutn_mem (b : buffer) (c : Cutter) (n : Z) : M World (Z * list Z * buffer * Cutter) :=
  if n =? 0 then mret (0, [], b, c)
  else if n <=? room c then let* s := read_here c n in mret (n, s, b, advance c n)
  else if negb (room c =? 0) then
    let* s := read_here c (room c) in
    let* (_, b1) := _pop_front_ref b in
    let* (m, s2, b2) := IOBuf.cutn_mem b1 (n - room c) in
    mret (m + room c, s ++ s2, b2, Cutter_new)
  else
    let* b1 := match _block c with Some _ => let* (_, b1) := _pop_front_ref b in mret b1 | None => mret b end in
    let* (m, s, b2) := IOBuf.cutn_mem b1 n in
    mret (m, s, b2, Cutter_new).
Definition cutn_string (b : buffer) (c : Cutter) (out : list Z) (n : Z) : M World (Z * list Z * buffer * Cutter) :=
  if n =? 0 then mret (0, out, b, c)
  else
    let* len := remaining_bytes b c in
    let n := if len <? n then len else n in
    let* (m, s, b', c') := cutn_mem b c n in
    mret (m, out ++ s ++ replicate (Z.to_nat (n - m)) 0, b', c').
(** [~IOBufCutter]: the reference is shortened, [_bv.nbytes] is left alone. *)
Definition Cutter_delete (b : buffer) (c : Cutter) : M World buffer :=
  match _block c with
  | None => mret b
  | Some _ =>
      if negb (_data c =? _data_end c) then
        let* r := front_ref b in
        mret (set_front_ref b (mkRef (u32 (_data c)) (u32 (room c)) (block r)) 0)
      else let* (_, b') := _pop_front_ref b in mret b'
  end.

(** ** What is left to cut *)
Definition cutting (w : World) (b : buffer) (c : Cutter) (rem : list Z) : Prop :=
  match _block c with
  | None => c = Cutter_new /\ holds w b rem
  | Some k => exists r l, repr b (r :: l) /\ valid w (r :: l) /\ block r = Some k /\
      offset r <= _data c <= _data_end c /\ _data_end c = offset r + length r /\
      rem = drop (Z.to_nat (_data c - offset r)) (ref_bytes w r) ++ bytes w l
  end.
Section Cutting.
Context (w : World) (b : buffer) (c : Cutter) (rem : list Z) (rs : list bid).
Hypothesis Hc : cutting w b c rem.
Hypothesis Hi : inv w (owned b ++ rs).

Lemma cutting_here : 0 <= room c <= len rem /\
  (forall n, 0 <= n <= room c -> read_here c n w = Some (take (Z.to_nat n) rem, w) /\ cutting w b (advance c n) (drop (Z.to_nat n) rem)).
Proof.
  unfold room, cutting, read_here, advance in *. destruct c as [[k|] d e]; cbn [_block _data _data_end] in *.
  - destruct Hc as (r & l & Hr & Hv & Hk & Hd & He & ->). pose proof Hv as [Hok Hv']%Forall_cons.
    assert (len (ref_bytes w r) = length r) as Hlen by (apply ref_bytes_len; [done|]; intros; by eapply inv_ok).
    split; [rewrite length_app, length_drop; lia|]. intros n Hn. split.
    + pose proof (read_ref_spec w r (d - offset r) n _ Hi Hok) as Hread. unfold read_ref in Hread. rewrite Hk in Hread.
      replace (offset r + (d - offset r)) with d in Hread by lia. rewrite Hread by lia. rewrite take_app_le; [done|]. rewrite length_drop. lia.
    + exists r, l. do 3 (split; [done|]). split; [lia|]. split; [done|]. rewrite drop_app_le by (rewrite length_drop; lia).
      rewrite drop_drop. do 2 f_equal. lia.
  - destruct Hc as ([= -> ->] & Hh). split; [lia|]. intros n Hn. assert (n = 0) as -> by lia. done.
Qed.
Lemma room_bound : 0 <= room c <= len rem.
Proof. apply cutting_here. Qed.
Lemma read_here_spec n : 0 <= n <= room c -> read_here c n w = Some (take (Z.to_nat n) rem, w).
Proof. intros Hn. by apply cutting_here. Qed.
Lemma cutter_advance_spec n : 0 <= n <= room c -> cutting w b (advance c n) (drop (Z.to_nat n) rem).
Proof. intros Hn. by apply cutting_here. Qed.

(** The reference that is worked on is dropped. *)
Lemma drop_current_spec :
  exists b' w', match _block c with Some _ => let* (_, b') := _pop_front_ref b in mret b' | None => mret b end w = Some (b', w') /\
    holds w' b' (drop (Z.to_nat (room c)) rem) /\ inv w' (owned b' ++ rs) /\ stable w w' rs /\
    (Datatypes.length (view_list b') = Datatypes.length (view_list b) - (match _block c with Some _ => 1 | None => 0 end))%nat.
Proof.
  unfold cutting, room in *. destruct c as [[k|] d e]; cbn [_block _data _data_end] in *.
  - destruct Hc as (r & l & Hr & Hv & Hk & Hd & He & ->). pose proof Hv as [Hok Hv']%Forall_cons. pose proof Hi as Hi'. rewrite (owned_repr b _ Hr) in Hi'.
    assert (len (ref_bytes w r) = length r) as Hlen by (apply ref_bytes_len; [done|]; intros; by eapply inv_ok).
    destruct (pop_front_ref_yields w b r l rs Hi' Hr Hv') as (b' & (w' & Heq & Hh & Hi2 & Hst) & Hl). exists b', w'. unfold mbind', mret. rewrite Heq.
    split; [done|]. rewrite drop_app_ge by (rewrite length_drop; lia). rewrite length_drop.
    replace (Z.to_nat (e - d) - _)%nat with 0%nat by lia. rewrite drop_0. split; [done|]. split; [done|]. split; [done|].
    rewrite Hl, (repr_view_list b _ Hr). cbn. lia.
  - destruct Hc as ([= -> ->] & Hh). exists b, w. rewrite drop_0. split; [done|]. split; [done|]. split; [done|]. split; [apply stable_refl|]. lia.
Qed.
Lemma load_next_spec : exists ok b' c' w', load_next_ref b c w = Some ((ok, b', c'), w') /\
  cutting w' b' c' (drop (Z.to_nat (room c)) rem) /\ inv w' (owned b' ++ rs) /\ stable w w' rs /\
  (ok = false -> len rem = room c /\ room c' = 0) /\ (ok = true -> 0 < room c' /\ is_Some (_block c')) /\
  (Datatypes.length (view_list b') = Datatypes.length (view_list b) - (match _block c with Some _ => 1 | None => 0 end))%nat.
Proof.
  destruct drop_current_spec as (b' & w' & Heq & Hh & Hi' & Hst & Hlen). unfold load_next_ref. unfold mbind' at 1. rewrite Heq.
  pose proof Hh as (Hr & Hv & Hb). rewrite (ref_num_spec b' _ Hr). pose proof room_bound as Hroom.
  destruct (view_list b') as [|r l] eqn:Hl; cbn [Datatypes.length].
  - exists false, b', Cutter_new, w'. split; [done|]. split; [done|]. split; [done|]. split; [done|]. split; [|split; [done|by rewrite Hl]].
    intros _. split; [|done]. apply (f_equal Datatypes.length) in Hb. rewrite length_drop in Hb. cbn in Hb. lia.
  - destruct (Z.eqb_spec (Z.of_nat (S (Datatypes.length l))) 0); [lia|]. unfold front_ref, mlift, mbind', mret. rewrite (front_ref_spec _ _ Hr r l eq_refl). cbn [fmap option_fmap option_map].
    pose proof (repr_shape _ _ Hr) as [(_ & Hpos & _ & [k Hk]) _]%Forall_cons.
    exists true, b', (mkCutter (block r) (offset r) (offset r + length r)), w'. split; [done|]. split; [|split; [done|split; [done|split; [done|]]]].
    + unfold cutting. cbn [_block _data _data_end]. rewrite Hk. exists r, l. do 3 (split; [done|]). split; [lia|]. split; [done|].
      rewrite Z.sub_diag, drop_0, <- bytes_cons. done.
    + split; [|by rewrite Hl]. intros _. unfold room. cbn [_data _data_end _block]. split; [lia|]. by rewrite Hk.
Qed.
End Cutting.

(** The outcome of an operation of the cutter. *)
Definition cut_yields {A} (w : World) (rs : list bid) (res : option ((A * buffer * Cutter) * World)) (a : A) (rem : list Z) : Prop :=
  exists b' c' w', res = Some ((a, b', c'), w') /\ cutting w' b' c' rem /\ inv w' (owned b' ++ rs) /\ stable w w' rs.

Lemma fetch1_spec w b c rem rs : cutting w b c rem -> inv w (owned b ++ rs) ->
  exists b' c' w', fetch1 b c w = Some ((head rem, b', c'), w') /\ cutting w' b' c' rem /\ inv w' (owned b' ++ rs) /\ stable w w' rs /\
    (rem <> [] -> 0 < room c').
Proof.
  intros Hc Hi. pose proof (room_bound w b c rem rs Hc Hi) as Hroom. unfold fetch1. destruct (Z.eqb_spec (_data c) (_data_end c)) as [Heq|Hne].
  - destruct (load_next_spec w b c rem rs Hc Hi) as (ok & b' & c' & w' & Hl & Hc' & Hi' & Hst & Hno & Hyes & _). unfold mbind', mret. rewrite Hl.
    assert (room c = 0) as Hr0 by (unfold room; lia). rewrite Hr0, drop_0 in Hc'. destruct ok.
    + destruct (Hyes eq_refl) as [Hpos _]. rewrite (read_here_spec w' b' c' rem rs Hc' Hi' 1) by lia. pose proof (room_bound w' b' c' rem rs Hc' Hi') as Hr'.
      destruct rem as [|x rem]; [cbn in Hr'; lia|]. exists b', c', w'. done.
    + destruct (Hno eq_refl) as [Hlen _]. destruct rem; [|cbn in Hlen; lia]. exists b', c', w'. done.
  - unfold mbind', mret. assert (0 < room c) as Hpos by (unfold room in *; lia). rewrite (read_here_spec w b c rem rs Hc Hi 1) by lia.
    destruct rem as [|x rem]; [cbn in Hroom; lia|]. exists b, c, w. do 3 (split; [done|]). split; [apply stable_refl|done].
Qed.
Lemma cut1_spec w b c rem rs : cutting w b c rem -> inv w (owned b ++ rs) -> cut_yields w rs (cut1 b c w) (head rem) (tail rem).
Proof.
  intros Hc Hi. destruct (fetch1_spec w b c rem rs Hc Hi) as (b' & c' & w' & Heq & Hc' & Hi' & Hst & Hpos). unfold cut1, mbind', mret. rewrite Heq.
  destruct rem as [|x rem].
  - exists b', c', w'. done.
  - specialize (Hpos ltac:(done)). exists b', (advance c' 1), w'. split; [done|]. split; [|done].
    by apply (cutter_advance_spec w' b' c' (x :: rem) rs Hc' Hi' 1 ltac:(lia)).
Qed.

Lemma copy_refs_loop_spec w b bs rs k i n out : holds w b bs -> inv w rs -> 0 <= i -> i + Z.of_nat k = len (view_list b) -> 0 < n ->
  copy_refs_loop b k i n out w = Some (out ++ take (Z.to_nat n) (bytes w (drop (Z.to_nat i) (view_list b))), w).
Proof.
  intros Hh Hi. revert i n out. induction k as [|k IH]; intros i n out Hi0 Hik Hn; cbn [copy_refs_loop].
  { rewrite drop_ge by lia. cbn. by rewrite take_nil, app_nil_r. }
  destruct (ref_at_holds w b bs rs Hh Hi i) as (r & Hat & _ & (_ & Hpos & _) & Hok & Hlen & Hby); [lia|]. unfold mbind', mret. rewrite Hat.
  rewrite (read_ref_spec w r 0 (Z.min n (length r)) rs) by (done || lia). rewrite drop_0, Hby. zcase.
  - rewrite take_app_le by lia. by replace (Z.min n (length r)) with n by lia.
  - rewrite IH by lia. rewrite take_app_ge, <- app_assoc by lia. rewrite (take_ge (ref_bytes w r)) by lia. replace (Z.to_nat n - Datatypes.length (ref_bytes w r))%nat with (Z.to_nat (n - Z.min n (length r))) by lia. done.
Qed.
Lemma copy_behind_spec w b c rem rs n : cutting w b c rem -> inv w (owned b ++ rs) -> is_Some (_block c) -> room c < n ->
  copy_behind b c n w = Some ((take (Z.to_nat n) rem, b, c), w).
Proof.
  intros Hc Hi [k Hk] Hn. pose proof (room_bound w b c rem rs Hc Hi) as Hroom. unfold copy_behind, mbind', mret.
  rewrite (read_here_spec w b c rem rs Hc Hi) by lia. unfold cutting in Hc. rewrite Hk in Hc. destruct Hc as (r & l & Hr & Hv & Hbk & Hd & He & ->).
  pose proof (holds_intro w b _ Hr Hv) as Hh. rewrite (ref_num_spec b _ Hr). cbn [Datatypes.length].
  pose proof Hv as [Hok _]%Forall_cons. assert (len (ref_bytes w r) = length r) as Hlen by (apply ref_bytes_len; [done|]; intros; by eapply inv_ok).
  rewrite (copy_refs_loop_spec w b _ _ _ 1 (n - room c) _ Hh Hi); [|lia|rewrite (repr_view_list b _ Hr); cbn [Datatypes.length]; lia|lia].
  rewrite (repr_view_list b _ Hr). change (drop (Z.to_nat 1) (r :: l)) with l. unfold room in *.
  rewrite take_app_le by (rewrite length_drop; lia). rewrite (take_ge (drop _ _)) by (rewrite length_drop; lia).
  rewrite take_app_ge by (rewrite length_drop; lia). rewrite length_drop. by replace (Z.to_nat n - _)%nat with (Z.to_nat (n - (_data_end c - _data c))) by lia.
Qed.
Lemma cutter_copy_to_spec w b c rem rs n : cutting w b c rem -> inv w (owned b ++ rs) -> 0 <= n ->
  cut_yields w rs (copy_to b c n w) (take (Z.to_nat n) rem) rem.
Proof.
  intros Hc Hi Hn. pose proof (room_bound w b c rem rs Hc Hi) as Hroom. unfold copy_to. destruct (Z.leb_spec n (room c)) as [Hle|Hgt].
  { unfold mbind', mret. rewrite (read_here_spec w b c rem rs Hc Hi) by lia. exists b, c, w. do 3 (split; [done|]). apply stable_refl. }
  unfold slower_copy_to. destruct (Z.eqb_spec (room c) 0) as [H0|H0].
  - destruct (load_next_spec w b c rem rs Hc Hi) as (ok & b' & c' & w' & Hl & Hc' & Hi' & Hst & Hno & Hyes & _). unfold mbind' at 1. rewrite Hl.
    rewrite H0, drop_0 in Hc'. destruct ok; cbn [negb].
    + destruct (Hyes eq_refl) as [Hpos Hsome]. destruct (Z.leb_spec n (room c')) as [Hle|Hgt'].
      * unfold mbind', mret. rewrite (read_here_spec w' b' c' rem rs Hc' Hi') by lia. by exists b', c', w'.
      * rewrite (copy_behind_spec w' b' c' rem rs n Hc' Hi' Hsome Hgt'). by exists b', c', w'.
    + destruct (Hno eq_refl) as [Hlen _]. destruct rem; [|cbn in Hlen; lia]. rewrite take_nil. by exists b', c', w'.
  - rewrite (copy_behind_spec w b c rem rs n Hc Hi); [|unfold cutting, room in *; destruct (_block c) eqn:Hk; [done|]; by destruct Hc as [-> _]|lia].
    exists b, c, w. do 3 (split; [done|]). apply stable_refl.
Qed.

Lemma pop_front_cut_loop_spec fuel w b c rem rs n m : cutting w b c rem -> inv w (owned b ++ rs) -> 0 <= n ->
  (Datatypes.length (view_list b) + 1 < fuel + match _block c with Some _ => 1 | None => 0 end)%nat ->
  cut_yields w rs (pop_front_loop fuel b c n m w) (m - n + Z.min n (len rem)) (drop (Z.to_nat n) rem).
Proof.
  revert w b c rem n. induction fuel as [|fuel IH]; intros w b c rem n Hc Hi Hn Hf; pose proof (room_bound w b c rem rs Hc Hi) as Hroom.
  { unfold cutting in Hc. destruct (_block c); [|lia]. destruct Hc as (r & l & Hr & _). rewrite (repr_view_list b _ Hr) in Hf. cbn in Hf. lia. }
  cbn [pop_front_loop]. destruct (Z.leb_spec n (room c)) as [Hle|Hgt].
  - exists b, (advance c n), w. unfold mret. split; [do 4 f_equal; lia|]. split; [by eapply cutter_advance_spec|]. split; [done|apply stable_refl].
  - destruct (load_next_spec w b c rem rs Hc Hi) as (ok & b' & c' & w' & Hl & Hc' & Hi' & Hst & Hno & Hyes & Hlen). unfold mbind' at 1. rewrite Hl. destruct ok.
    + destruct (Hyes eq_refl) as [_ [k Hk]].
      destruct (IH w' b' c' (drop (Z.to_nat (room c)) rem) (n - room c) Hc' Hi') as (b2 & c2 & w2 & Heq & Hc2 & Hi2 & Hst2).
      { lia. } { rewrite Hlen, Hk. destruct (_block c) eqn:Hk0; [|lia]. unfold cutting in Hc. rewrite Hk0 in Hc. destruct Hc as (r & l & Hr & _). rewrite (repr_view_list b _ Hr) in *. cbn in *. lia. }
      exists b2, c2, w2. rewrite Heq. split; [do 4 f_equal; rewrite length_drop; lia|]. rewrite drop_drop in Hc2.
      replace (Z.to_nat (room c) + Z.to_nat (n - room c))%nat with (Z.to_nat n) in Hc2 by lia. split; [done|]. split; [done|by eapply stable_trans].
    + destruct (Hno eq_refl) as [Hall _]. exists b', c', w'. unfold mret. split; [do 4 f_equal; lia|]. rewrite (drop_ge rem (Z.to_nat n)) by lia. rewrite drop_ge in Hc' by lia. done.
Qed.
Lemma pop_front_cut_spec w b c rem rs n : cutting w b c rem -> inv w (owned b ++ rs) -> 0 <= n ->
  cut_yields w rs (pop_front b c n w) (Z.min n (len rem)) (drop (Z.to_nat n) rem).
Proof.
  intros Hc Hi Hn. unfold pop_front. replace (Z.min n (len rem)) with (n - n + Z.min n (len rem)) by lia. apply pop_front_cut_loop_spec; try done.
  assert (exists l, repr b l) as [l Hr] by (unfold cutting in Hc; destruct (_block c); [destruct Hc as (r & l & ? & _)|destruct Hc as (_ & ? & _)]; by eexists).
  unfold ref_fuel. rewrite (ref_num_spec b _ Hr), (repr_view_list b _ Hr). lia.
Qed.
Lemma remaining_spec w b c rem rs : cutting w b c rem -> inv w (owned b ++ rs) -> remaining_bytes b c w = Some (len rem, w).
Proof.
  intros Hc Hi. unfold remaining_bytes, cutting, room in *. destruct (_block c) as [k|] eqn:Hk.
  - destruct Hc as (r & l & Hr & Hv & Hbk & Hd & He & ->). pose proof Hv as [Hok Hv']%Forall_cons.
    assert (len (ref_bytes w r) = length r) as Hlen by (apply ref_bytes_len; [done|]; intros; by eapply inv_ok).
    unfold mbind', mret, front_ref, mlift. rewrite (front_ref_spec _ _ Hr r l eq_refl). cbn [fmap option_fmap option_map].
    pose proof (length_holds w b _ _ Hi (holds_intro w b _ Hr Hv)) as Hb. pose proof (repr_weight b _ Hr) as Hw. rewrite <- (length_spec b _ Hr) in Hw.
    rewrite Hb, bytes_cons, length_app in *. do 2 f_equal. rewrite length_app, length_drop. unfold limit in Hw. rewrite u64_small by lia. lia.
  - destruct Hc as [_ Hh]. by rewrite (length_holds w b rem _ Hi Hh).
Qed.
(** The part of the current reference that is left, as a reference. *)
Lemma current_ref_spec w b c rem rs n : cutting w b c rem -> inv w (owned b ++ rs) -> 0 < n <= room c ->
  let r := mkRef (u32 (_data c)) (u32 n) (_block c) in ref_shape r /\ ref_ok w r /\ length r = n /\ ref_bytes w r = take (Z.to_nat n) rem.
Proof.
  intros Hc Hi Hn. unfold cutting, room in *. destruct (_block c) as [k|] eqn:Hk; [|destruct Hc as [-> _]; cbn in Hn; lia].
  destruct Hc as (r & l & Hr & Hv & Hbk & Hd & He & ->). pose proof Hv as [Hok _]%Forall_cons. pose proof (repr_shape _ _ Hr) as [Hs _]%Forall_cons.
  pose proof Hs as (Ho & Hpos & H31 & _). assert (len (ref_bytes w r) = length r) as Hlen by (apply ref_bytes_len; [done|]; intros; by eapply inv_ok).
  destruct (ref_skip_spec w r (_data c - offset r) Hs Hok) as (Hs1 & Hl1 & Hok1 & Hb1 & Hby1); [lia|].
  destruct (ref_prefix_spec w _ n Hs1 Hok1) as (Hs2 & Hok2 & Hby2); [lia|].
  assert (mkRef (u32 (_data c)) (u32 n) (Some k) = mkRef (offset (ref_skip r (_data c - offset r))) n (block (ref_skip r (_data c - offset r)))) as ->.
  { rewrite Hb1, Hbk. unfold ref_skip. cbn [offset]. rewrite !u32_small by lia. f_equal. lia. }
  split; [done|]. split; [done|]. split; [done|]. rewrite Hby2, Hby1, take_app_le; [done|]. rewrite length_drop. lia.
Qed.

Lemma cutting_stable w w' b c rem R : stable w w' R -> owned b ⊆ R -> cutting w b c rem -> cutting w' b c rem.
Proof.
  intros Hst Hsub. unfold cutting. destruct (_block c) as [k|].
  - intros (r & l & Hr & Hv & Hk & Hd & He & ->). rewrite (owned_repr b _ Hr) in Hsub. destruct (valid_stable w w' _ R Hst Hsub Hv) as [Hv' _].
    pose proof Hv as [Hok Hvl]%Forall_cons. rewrite ids_cons in Hsub. destruct (valid_stable w w' [r] R Hst) as [_ Hbr]; [intros x Hx; apply Hsub, elem_of_app; by left|by constructor|].
    destruct (valid_stable w w' l R Hst) as [_ Hbl]; [intros x Hx; apply Hsub, elem_of_app; by right|done|]. rewrite !bytes_one in Hbr.
    exists r, l. do 5 (split; [done|]). by rewrite Hbr, Hbl.
  - intros [-> Hh]. split; [done|]. by eapply holds_stable.
Qed.
Lemma cutting_none w b rem : holds w b rem -> cutting w b Cutter_new rem.
Proof. done. Qed.

Lemma cutn_cut_spec w b c rem out os rs n : cutting w b c rem -> holds w out os -> inv w (owned b ++ owned out ++ rs) -> 0 <= n ->
  2 * (len os + Z.min n (len rem)) < limit ->
  exists b' c' out' w', cutn b c out n w = Some ((Z.min n (len rem), b', c', out'), w') /\
    cutting w' b' c' (drop (Z.to_nat n) rem) /\ holds w' out' (os ++ take (Z.to_nat n) rem) /\ inv w' (owned b' ++ owned out' ++ rs) /\ stable w w' rs.
Proof.
  intros Hc Ho Hi Hn Hlim. pose proof (room_bound w b c rem _ Hc Hi) as Hroom. unfold cutn. destruct (Z.eqb_spec n 0) as [->|Hn0].
  { exists b, c, out, w. rewrite Z.min_l, drop_0, take_0, app_nil_r by lia. do 4 (split; [done|]). apply stable_refl. }
  destruct (Z.leb_spec n (room c)) as [Hle|Hgt].
  - destruct (current_ref_spec w b c rem _ n Hc Hi) as (Hs & Hok & Hln & Hby); [lia|].
    destruct (push_yields false w out os (owned b ++ rs) (mkRef (u32 (_data c)) (u32 n) (_block c)) Ho) as (out' & w' & Heq & Ho' & Hi' & Hst); [|exact Hs|exact Hok|rewrite Hln; lia|].
    { cbn [app]. eapply inv_sub_perm; [|exact Hi]. intros x. rewrite !cnt_app. lia. }
    exists b, (advance c n), out', w'. unfold mbind', mret, _push_back_ref. rewrite Heq, Z.min_l by lia. split; [done|]. rewrite <- Hby. split.
    { eapply cutting_stable; [exact Hst|set_solver|]. by eapply cutter_advance_spec. }
    split; [done|]. split; [|eapply stable_sub; [|exact Hst]; set_solver]. eapply inv_sub_perm; [|exact Hi']. intros x. rewrite !cnt_app. lia.
  - destruct (Z.eqb_spec (room c) 0) as [H0|H0]; cbn [negb].
    + destruct (drop_current_spec w b c rem (owned out ++ rs) Hc Hi) as (b1 & w1 & Heq & Hh1 & Hi1 & Hst1 & _). rewrite H0, drop_0 in Hh1.
      assert (holds w1 out os) as Ho1 by (eapply holds_stable; [exact Hst1|set_solver|done]).
      destruct (IOBuf.cutn_spec w1 b1 out rem os rs n Hh1 Ho1 Hi1 Hn Hlim) as (b2 & out2 & w2 & Heq2 & Hh2 & Ho2 & Hi2 & Hst2).
      exists b2, Cutter_new, out2, w2. unfold mbind' at 1. rewrite Heq. unfold mbind', mret. rewrite Heq2. split; [done|]. split; [done|]. split; [done|]. split; [done|].
      eapply stable_trans; [|done]. eapply stable_sub; [|exact Hst1]. set_solver.
    + destruct (current_ref_spec w b c rem _ (room c) Hc Hi) as (Hs & Hok & Hln & Hby); [lia|].
      destruct (push_yields false w out os (owned b ++ rs) (mkRef (u32 (_data c)) (u32 (room c)) (_block c)) Ho) as (out1 & w1 & Heq1 & Ho1 & Hi1 & Hst1); [|exact Hs|exact Hok|rewrite Hln; lia|].
      { cbn [app]. eapply inv_sub_perm; [|exact Hi]. intros x. rewrite !cnt_app. lia. }
      assert (cutting w1 b c rem) as Hc1 by (eapply cutting_stable; [exact Hst1|set_solver|done]).
      assert (inv w1 (owned b ++ owned out1 ++ rs)) as Hi1' by (eapply inv_sub_perm; [|exact Hi1]; intros x; rewrite !cnt_app; lia).
      destruct (drop_current_spec w1 b c rem (owned out1 ++ rs) Hc1 Hi1') as (b2 & w2 & Heq2 & Hh2 & Hi2 & Hst2 & _).
      assert (is_Some (_block c)) as [k Hk] by (unfold cutting, room in *; destruct (_block c) eqn:?; [done|]; by destruct Hc as [-> _]). rewrite Hk in Heq2.
      unfold _push_back_ref, mbind', mret in *. rewrite Heq1. destruct (_pop_front_ref b w1) as [[[x b2'] w2']|]; [|done]. injection Heq2 as -> ->.
      assert (holds w2 out1 (os ++ ref_bytes w {| offset := u32 (_data c); length := u32 (room c); block := _block c |})) as Ho2 by (eapply holds_stable; [exact Hst2|set_solver|done]).
      destruct (IOBuf.cutn_spec w2 b2 out1 _ _ rs (n - room c) Hh2 Ho2 Hi2) as (b3 & out3 & w3 & Heq3 & Hh3 & Ho3 & Hi3 & Hst3);
        [lia|rewrite length_app, Hby, length_take, length_drop; lia|].
      exists b3, Cutter_new, out3, w3. rewrite Heq3, length_drop. split; [do 5 f_equal; lia|]. rewrite drop_drop in Hh3.
      replace (Z.to_nat (room c) + Z.to_nat (n - room c))%nat with (Z.to_nat n) in Hh3 by lia. split; [done|].
      rewrite Hby, <- app_assoc, take_take_drop in Ho3. replace (Z.to_nat (room c) + Z.to_nat (n - room c))%nat with (Z.to_nat n) in Ho3 by lia.
      split; [done|]. split; [done|]. eapply stable_trans; [eapply stable_sub; [|exact Hst1]; set_solver|]. eapply stable_trans; [eapply stable_sub; [|exact Hst2]; set_solver|done].
Qed.
Lemma cutn_mem_cut_spec w b c rem rs n : cutting w b c rem -> inv w (owned b ++ rs) -> 0 <= n ->
  exists b' c' w', cutn_mem b c n w = Some ((Z.min n (len rem), take (Z.to_nat n) rem, b', c'), w') /\
    cutting w' b' c' (drop (Z.to_nat n) rem) /\ inv w' (owned b' ++ rs) /\ stable w w' rs.
Proof.
  intros Hc Hi Hn. pose proof (room_bound w b c rem _ Hc Hi) as Hroom. unfold cutn_mem. destruct (Z.eqb_spec n 0) as [->|Hn0].
  { exists b, c, w. rewrite Z.min_l, drop_0 by lia. do 3 (split; [done|]). apply stable_refl. }
  destruct (Z.leb_spec n (room c)) as [Hle|Hgt].
  { exists b, (advance c n), w. unfold mbind', mret. rewrite (read_here_spec w b c rem rs Hc Hi), Z.min_l by lia. split; [done|].
    split; [by eapply cutter_advance_spec|]. split; [done|apply stable_refl]. }
  destruct (drop_current_spec w b c rem rs Hc Hi) as (b1 & w1 & Heq & Hh1 & Hi1 & Hst1 & _). destruct (Z.eqb_spec (room c) 0) as [H0|H0]; cbn [negb].
  - rewrite H0, drop_0 in Hh1. destruct (cutn_mem_yields w1 b1 rem rs n Hh1 Hi1 Hn) as (b2 & w2 & Heq2 & Hh2 & Hi2 & Hst2).
    exists b2, Cutter_new, w2. unfold mbind' at 1. rewrite Heq. unfold mbind', mret. rewrite Heq2. split; [done|]. split; [done|]. split; [done|]. by eapply stable_trans.
  - assert (is_Some (_block c)) as [k Hk] by (unfold cutting, room in *; destruct (_block c) eqn:?; [done|]; by destruct Hc as [-> _]). rewrite Hk in Heq.
    unfold mbind', mret in *. rewrite (read_here_spec w b c rem rs Hc Hi) by lia. destruct (_pop_front_ref b w) as [[[x b1'] w1']|]; [|done]. injection Heq as -> ->.
    destruct (cutn_mem_yields w1 b1 _ rs (n - room c) Hh1 Hi1) as (b2 & w2 & Heq2 & Hh2 & Hi2 & Hst2); [lia|].
    exists b2, Cutter_new, w2. rewrite Heq2, length_drop, take_take_drop. rewrite drop_drop in Hh2.
    replace (Z.to_nat (room c) + Z.to_nat (n - room c))%nat with (Z.to_nat n) in * by lia. split; [do 5 f_equal; lia|]. split; [done|]. split; [done|]. by eapply stable_trans.
Qed.
Lemma cutn_string_cut_spec w b c rem rs out n : cutting w b c rem -> inv w (owned b ++ rs) -> 0 <= n ->
  exists b' c' w', cutn_string b c out n w = Some ((Z.min n (len rem), out ++ take (Z.to_nat n) rem, b', c'), w') /\
    cutting w' b' c' (drop (Z.to_nat n) rem) /\ inv w' (owned b' ++ rs) /\ stable w w' rs.
Proof.
  intros Hc Hi Hn. unfold cutn_string. destruct (Z.eqb_spec n 0) as [->|Hn0].
  { exists b, c, w. rewrite Z.min_l, drop_0, take_0, app_nil_r by lia. do 3 (split; [done|]). apply stable_refl. }
  unfold mbind' at 1. rewrite (remaining_spec w b c rem rs Hc Hi).
  replace (if len rem <? n then len rem else n) with (Z.min n (len rem)) by (zcase; lia).
  destruct (cutn_mem_cut_spec w b c rem rs (Z.min n (len rem)) Hc Hi) as (b' & c' & w' & Heq & Hc' & Hi' & Hst); [lia|].
  exists b', c', w'. unfold mbind', mret. rewrite Heq. rewrite Z.min_l, Z.sub_diag, app_nil_r by lia.
  destruct (decide (n <= len rem)); [by rewrite !Z.min_l in * by lia|]. rewrite Z.min_r in * by lia. rewrite !take_ge, !drop_ge in * by lia. done.
Qed.

(** ** The destructor *)

(** What the cutter has taken of the first reference, when it is not used up. *)
Definition consumed (b : buffer) (c : Cutter) : Z :=
  match _block c, _front_ref b with
  | Some _, Some r => if _data c =? _data_end c then 0 else _data c - offset r
  | _, _ => 0
  end.
Lemma copy_refs_nbytes s rf nr cm nb nb' n i : copy_refs (mkBV s rf nr cm nb) n i = copy_refs (mkBV s rf nr cm nb') n i.
Proof. revert i. induction n as [|n IH]; intros i; [done|]. cbn [copy_refs]. by rewrite IH. Qed.
Lemma set_front_view b r n n' : view_list (set_front_ref b r n) = view_list (set_front_ref b r n').
Proof. destruct b as [|bv]; [done|]. cbn [set_front_ref view_list nref]. f_equal. apply copy_refs_nbytes. Qed.
Lemma delete_spec w b c rem rs : cutting w b c rem -> inv w (owned b ++ rs) ->
  exists b' w', Cutter_delete b c w = Some (b', w') /\ inv w' (owned b' ++ rs) /\ stable w w' rs /\
    valid w' (view_list b') /\ bytes w' (view_list b') = rem /\
    length_ b' = len rem + (if _small b' then 0 else consumed b c) /\
    (_small b' = true \/ consumed b c = 0 -> holds w' b' rem).
Proof.
  intros Hc Hi. pose proof (drop_current_spec w b c rem rs Hc Hi) as Hdrop. pose proof (room_bound w b c rem rs Hc Hi) as Hroom.
  unfold Cutter_delete, consumed. unfold cutting in Hc. destruct (_block c) as [k|] eqn:Hk.
  - destruct Hc as (r & l & Hr & Hv & Hbk & Hd & He & ->). rewrite (front_ref_spec _ _ Hr r l eq_refl). destruct (Z.eqb_spec (_data c) (_data_end c)) as [Heq|Hne]; cbn [negb].
    + destruct Hdrop as (b' & w' & Heq' & Hh & Hi' & Hst & _). exists b', w'. unfold room in Hh. rewrite Heq in *.
      rewrite Z.sub_diag, drop_0 in Hh. pose proof (length_holds w' b' _ _ Hi' Hh) as Hlen. pose proof Hh as (Hr' & Hv' & Hb').
      split; [done|]. split; [done|]. split; [done|]. split; [done|]. split; [done|]. split; [rewrite Hlen; case_match; lia|done].
    + unfold mbind', mret, front_ref, mlift. rewrite (front_ref_spec _ _ Hr r l eq_refl). cbn [fmap option_fmap option_map].
      pose proof Hv as [Hok Hvl]%Forall_cons. pose proof (repr_shape _ _ Hr) as [Hs _]%Forall_cons. pose proof Hs as (Ho & Hpos & H31 & _).
      set (d := _data c - offset r). destruct (ref_skip_spec w r d Hs Hok) as (Hs1 & Hl1 & Hok1 & Hb1 & Hby1); [lia|].
      assert (mkRef (u32 (_data c)) (u32 (room c)) (block r) = ref_skip r d) as Href.
      { unfold ref_skip, room, d. f_equal; f_equal; lia. }
      rewrite Href. assert (repr (set_front_ref b (ref_skip r d) d) (ref_skip r d :: l)) as Hr' by (eapply set_front_spec; eauto; lia).
      assert (view_list (set_front_ref b (ref_skip r d) 0) = ref_skip r d :: l) as Hview by (rewrite (set_front_view _ _ 0 d); by apply repr_view_list).
      assert (bytes w (ref_skip r d :: l) = drop (Z.to_nat d) (ref_bytes w r) ++ bytes w l) as Hbytes by (by rewrite bytes_cons, Hby1).
      assert (valid w (ref_skip r d :: l)) as Hv' by by constructor.
      assert (inv w (ids (ref_skip r d :: l) ++ rs)) as Hi' by (rewrite (owned_repr b _ Hr) in Hi; exact Hi).
      assert (length_ (set_front_ref b (ref_skip r d) d) = len (drop (Z.to_nat d) (ref_bytes w r) ++ bytes w l)) as Hlen.
      { rewrite <- Hbytes. apply (length_holds w _ _ (ids (ref_skip r d :: l) ++ rs) Hi'). by apply holds_intro. }
      exists (set_front_ref b (ref_skip r d) 0), w. split; [done|]. unfold owned. rewrite Hview. split; [done|]. split; [apply stable_refl|].
      split; [done|]. split; [done|]. pose proof (repr_weight b _ Hr) as Hw. rewrite <- (length_spec b _ Hr) in Hw.
      destruct b as [r0 r1|bv]; cbn [set_front_ref length_ nbytes] in *.
      * rewrite (small_iff_view _ _ Hr'). split; [lia|]. intros _. rewrite <- Hbytes. by apply holds_intro.
      * assert (_small (Bv (mkBV (start bv) (<[Z.to_nat (start bv) := ref_skip r d]> (refs bv)) (nref bv) (cap_mask bv) (u64 (nbytes bv - 0)))) = false) as Hsm by done.
        rewrite Hsm. unfold limit in Hw. pose proof Hr' as (_ & Hw' & _). pose proof Hr as (_ & _ & (k0 & _ & _ & _ & _ & Hnb)). cbn [total foldr] in Hnb. fold (total l) in Hnb.
        assert (0 <= total l) by (apply total_nonneg; pose proof (repr_shape _ _ Hr) as [_ ?]%Forall_cons; done).
        rewrite !u64_small in * by (unfold d in *; lia). split; [lia|]. intros [?|Hz]; [done|]. assert (d = 0) as Hd0 by lia.
        rewrite Hd0 in Hr', Hbytes, Hv' |- *. rewrite <- Hbytes. apply holds_intro; [|done]. by rewrite Z.sub_0_r in *.
  - destruct Hc as (-> & Hh). exists b, w. pose proof (length_holds w b _ _ Hi Hh) as Hlen. pose proof Hh as (Hr' & Hv' & Hb').
    split; [done|]. split; [done|]. split; [apply stable_refl|]. split; [done|]. split; [done|]. split; [rewrite Hlen; case_match; lia|done].
Qed.

(** ** Sessions *)
Inductive cop := KCut1 | KFetch1 | KCopyTo (n : Z) | KPopFront (n : Z) | KCutn (n : Z) | KCutnMem (n : Z) | KCutnString (s : list Z) (n : Z) | KRemaining.
Inductive cans := AByte (c : option Z) | ACopied (s : list Z) | ANumber (n : Z) | ACut (n : Z) (s : list Z).
Definition cexec (o : cop) (b : buffer) (c : Cutter) (out : buffer) : M World (cans * buffer * Cutter * buffer) :=
  match o with
  | KCut1 => let* (x, b', c') := cut1 b c in mret (AByte x, b', c', out)
  | KFetch1 => let* (x, b', c') := fetch1 b c in mret (AByte x, b', c', out)
  | KCopyTo n => let* (s, b', c') := copy_to b c n in mret (ACopied s, b', c', out)
  | KPopFront n => let* (m, b', c') := pop_front b c n in mret (ANumber m, b', c', out)
  | KCutn n => let* (m, b', c', out') := cutn b c out n in mret (ANumber m, b', c', out')
  | KCutnMem n => let* (m, s, b', c') := cutn_mem b c n in mret (ACut m s, b', c', out)
  | KCutnString s n => let* (m, s', b', c') := cutn_string b c s n in mret (ACut m s', b', c', out)
  | KRemaining => let* m := remaining_bytes b c in mret (ANumber m, b, c, out)
  end.
Fixpoint crun (os : list cop) (b : buffer) (c : Cutter) (out : buffer) : M World (list cans * buffer * Cutter * buffer) :=
  match os with
  | [] => mret ([], b, c, out)
  | o :: os =>
      let* (a, b1, c1, out1) := cexec o b c out in
      let* (l, b2, c2, out2) := crun os b1 c1 out1 in
      mret (a :: l, b2, c2, out2)
  end.
(** The same on the bytes that are left and the bytes cut into the other buffer. *)
Definition cspec (o : cop) (rem out : list Z) : cans * list Z * list Z :=
  match o with
  | KCut1 => (AByte (head rem), tail rem, out)
  | KFetch1 => (AByte (head rem), rem, out)
  | KCopyTo n => (ACopied (take (Z.to_nat n) rem), rem, out)
  | KPopFront n => (ANumber (Z.min n (len rem)), drop (Z.to_nat n) rem, out)
  | KCutn n => (ANumber (Z.min n (len rem)), drop (Z.to_nat n) rem, out ++ take (Z.to_nat n) rem)
  | KCutnMem n => (ACut (Z.min n (len rem)) (take (Z.to_nat n) rem), drop (Z.to_nat n) rem, out)
  | KCutnString s n => (ACut (Z.min n (len rem)) (s ++ take (Z.to_nat n) rem), drop (Z.to_nat n) rem, out)
  | KRemaining => (ANumber (len rem), rem, out)
  end.
Fixpoint cspec_run (os : list cop) (rem out : list Z) : list cans * list Z * list Z :=
  match os with
  | [] => ([], rem, out)
  | o :: os => let '(a, rem1, out1) := cspec o rem out in let '(l, rem2, out2) := cspec_run os rem1 out1 in (a :: l, rem2, out2)
  end.
Definition cop_ok (o : cop) : Prop := match o with KCopyTo n | KPopFront n | KCutn n | KCutnMem n | KCutnString _ n => 0 <= n | _ => True end.

Definition session_state w b c out rs rem os : Prop :=
  cutting w b c rem /\ holds w out os /\ inv w (owned b ++ owned out ++ rs) /\ 2 * (len os + len rem) < limit.
Lemma cexec_spec w b c out rs rem os o : session_state w b c out rs rem os -> cop_ok o ->
  exists b' c' out' w', cexec o b c out w = Some (((cspec o rem os).1.1, b', c', out'), w') /\
    session_state w' b' c' out' rs (cspec o rem os).1.2 (cspec o rem os).2 /\ stable w w' rs.
Proof.
  intros (Hc & Ho & Hi & Hlim) Hok.
  assert (forall {A} (res : option ((A * buffer * Cutter) * World)) a rem', cut_yields w (owned out ++ rs) res a rem' -> len rem' <= len rem ->
    exists b' c' w', res = Some ((a, b', c'), w') /\ session_state w' b' c' out rs rem' os /\ stable w w' rs) as Hquiet.
  { intros A res a rem' (b' & c' & w' & Heq & Hc' & Hi' & Hst) Hl. exists b', c', w'. split; [done|]. split; [|eapply stable_sub; [|exact Hst]; set_solver].
    split; [done|]. split; [eapply holds_stable; [exact Hst|set_solver|done]|]. split; [done|lia]. }
  destruct o as [| |n|n|n|n|s n|]; cbn [cexec cspec fst snd cop_ok] in *; unfold mbind', mret.
  - destruct (Hquiet _ _ _ _ (cut1_spec w b c rem _ Hc Hi)) as (b' & c' & w' & -> & Hs & Hst); [destruct rem; cbn; lia|]. by exists b', c', out, w'.
  - destruct (fetch1_spec w b c rem _ Hc Hi) as (b' & c' & w' & Heq & Hc' & Hi' & Hst & _).
    destruct (Hquiet _ (fetch1 b c w) (head rem) rem) as (b2 & c2 & w2 & -> & Hs & Hst2); [by exists b', c', w'|lia|]. by exists b2, c2, out, w2.
  - destruct (Hquiet _ _ _ _ (cutter_copy_to_spec w b c rem _ n Hc Hi Hok)) as (b' & c' & w' & -> & Hs & Hst); [lia|]. by exists b', c', out, w'.
  - destruct (Hquiet _ _ _ _ (pop_front_cut_spec w b c rem _ n Hc Hi Hok)) as (b' & c' & w' & -> & Hs & Hst); [rewrite length_drop; lia|]. by exists b', c', out, w'.
  - destruct (cutn_cut_spec w b c rem out os rs n Hc Ho Hi Hok) as (b' & c' & out' & w' & -> & Hc' & Ho' & Hi' & Hst); [lia|].
    exists b', c', out', w'. split; [done|]. split; [|done]. split; [done|]. split; [done|]. split; [done|]. rewrite length_app, length_take, length_drop. lia.
  - destruct (cutn_mem_cut_spec w b c rem _ n Hc Hi Hok) as (b' & c' & w' & -> & Hc' & Hi' & Hst).
    destruct (Hquiet _ (Some (((), b', c'), w')) tt (drop (Z.to_nat n) rem)) as (b2 & c2 & w2 & [= <- <- <-] & Hs & Hst2); [by exists b', c', w'|rewrite length_drop; lia|]. by exists b', c', out, w'.
  - destruct (cutn_string_cut_spec w b c rem _ s n Hc Hi Hok) as (b' & c' & w' & -> & Hc' & Hi' & Hst).
    destruct (Hquiet _ (Some (((), b', c'), w')) tt (drop (Z.to_nat n) rem)) as (b2 & c2 & w2 & [= <- <- <-] & Hs & Hst2); [by exists b', c', w'|rewrite length_drop; lia|]. by exists b', c', out, w'.
  - rewrite (remaining_spec w b c rem _ Hc Hi). exists b, c, out, w. split; [done|]. split; [done|apply stable_refl].
Qed.
Lemma crun_spec cops w b c out rs rem os : session_state w b c out rs rem os -> Forall cop_ok cops ->
  exists b' c' out' w', crun cops b c out w = Some (((cspec_run cops rem os).1.1, b', c', out'), w') /\
    session_state w' b' c' out' rs (cspec_run cops rem os).1.2 (cspec_run cops rem os).2 /\ stable w w' rs.
Proof.
  revert w b c out rem os. induction cops as [|o cops IH]; intros w b c out rem os Hs Hok.
  { exists b, c, out, w. split; [done|]. split; [done|apply stable_refl]. }
  apply Forall_cons in Hok as [Ho Hok]. destruct (cexec_spec w b c out rs rem os o Hs Ho) as (b1 & c1 & out1 & w1 & Heq & Hs1 & Hst1).
  destruct (IH w1 b1 c1 out1 _ _ Hs1 Hok) as (b2 & c2 & out2 & w2 & Heq2 & Hs2 & Hst2). cbn [crun cspec_run]. unfold mbind', mret. rewrite Heq.
  destruct (cspec o rem os) as [[a rem1] os1]; cbn [fst snd] in *. rewrite Heq2. destruct (cspec_run cops rem1 os1) as [[l rem2] os2]; cbn [fst snd] in *.
  exists b2, c2, out2, w2. split; [done|]. split; [done|]. by eapply stable_trans.
Qed.

(** C21: Whatever sequence of operations a cutter is asked for, it is a cursor on the
    bytes of the buffer: every answer is that of the byte string, the bytes cut are
    those appended to the other buffer, other holders of the blocks are not disturbed,
    and after the destructor the references of the buffer are exactly the bytes left.
    But the destructor does not correct the size of a buffer of more than two references:
    it still counts what was taken of the first reference, unless nothing or all of it
    was. *)
Theorem cutter_is_a_cursor w b bs out os rs cops :
  holds w b bs -> holds w out os -> inv w (owned b ++ owned out ++ rs) -> 2 * (len os + len bs) < limit -> Forall cop_ok cops ->
  exists b1 c1 out1 w1, crun cops b Cutter_new out w = Some (((cspec_run cops bs os).1.1, b1, c1, out1), w1) /\
  exists b2 w2, Cutter_delete b1 c1 w1 = Some (b2, w2) /\
    bytes w2 (view_list b2) = (cspec_run cops bs os).1.2 /\ holds w2 out1 (cspec_run cops bs os).2 /\
    inv w2 (owned b2 ++ owned out1 ++ rs) /\ stable w w2 rs /\
    length_ b2 = len (cspec_run cops bs os).1.2 + (if _small b2 then 0 else consumed b1 c1) /\
    (_small b2 = true \/ consumed b1 c1 = 0 -> holds w2 b2 (cspec_run cops bs os).1.2).
Proof.
  intros Hh Ho Hi Hlim Hok. destruct (crun_spec cops w b Cutter_new out rs bs os) as (b1 & c1 & out1 & w1 & Heq & (Hc1 & Ho1 & Hi1 & _) & Hst1); [done|done|].
  destruct (delete_spec w1 b1 c1 _ _ Hc1 Hi1) as (b2 & w2 & Heq2 & Hi2 & Hst2 & _ & Hb2 & Hl2 & Hh2).
  exists b1, c1, out1, w1. split; [done|]. exists b2, w2. split; [done|]. split; [done|]. split; [eapply holds_stable; [exact Hst2|set_solver|done]|].
  split; [done|]. split; [|done]. eapply stable_trans; [exact Hst1|]. eapply stable_sub; [|exact Hst2]. set_solver.
Qed.

(** ** Concrete sessions *)
#[local] Existing Instance plenty.
(** Three user blocks of three bytes. *)
Definition three_blocks : M World buffer :=
  let* (_, _, b1) := append_user_data_with_meta IOBuf_empty [1; 2; 3] 0 in
  let* (_, _, b2) := append_user_data_with_meta b1 [4; 5; 6] 0 in
  let* (_, _, b3) := append_user_data_with_meta b2 [7; 8; 9] 0 in
  mret b3.
(** A byte is cut from them; then all the bytes that the buffer says it has. *)
Definition cut_a_byte : M World (option Z * buffer) :=
  let* b := three_blocks in
  let* (x, b1, c1) := cut1 b Cutter_new in
  let* b2 := Cutter_delete b1 c1 in
  mret (x, b2).
Definition cut_the_rest : M World (Z * buffer * buffer) :=
  let* (_, b) := cut_a_byte in IOBuf.cutn b IOBuf_empty (length_ b).
(** Bytes are appended to the buffer of a cutter. *)
Definition append_under_a_cutter : M World (list Z * Z * list Z * Z * Z * Z) :=
  let* (_, b) := append IOBuf_empty [1; 2; 3] in
  let* (s1, b1, c1) := copy_to b Cutter_new 9 in
  let* (_, b2) := append b1 [4; 5; 6; 7; 8; 9] in
  let* (s2, b3, c3) := copy_to b2 c1 9 in
  let* rest := remaining_bytes b3 c3 in
  let* (popped, b4, c4) := pop_front b3 c3 9 in
  mret (s1, length_ b2, s2, rest, popped, length_ b4).

(** The destructor of a cutter that took one of nine bytes in three blocks leaves
    eight bytes in a buffer whose size() is still nine; cutting size() bytes of it then
    finds no reference for the ninth byte. *)
Theorem cutter_leaves_the_size : exists b w, cut_a_byte w0 = Some ((Some 1, b), w) /\
  bytes w (view_list b) = [2; 3; 4; 5; 6; 7; 8; 9] /\ length_ b = 9 /\ cut_the_rest w0 = None.
Proof. do 2 eexists. split; [vm_compute; reflexivity|]. by vm_compute. Qed.
(** Bytes that are appended behind the reference a cutter works on, in the same
    block, are not seen by the cutter and dropped with this reference: of nine bytes three
    are delivered, and then the buffer is empty. *)
Theorem append_under_a_cutter_is_lost :
  fst <$> append_under_a_cutter w0 = Some ([1; 2; 3], 9, [1; 2; 3], 3, 3, 0).
Proof. vm_compute. reflexivity. Qed.

Lemma cutter_is_a_cursor_witness : exists b w, append IOBuf_empty [1; 2; 3; 4; 5; 6; 7; 8; 9] w0 = Some ((0, b), w) /\
  exists b1 c1 out1 w1, crun [KCut1; KCopyTo 4; KCutn 3; KPopFront 1; KCutnMem 2] b Cutter_new IOBuf_empty w =
    Some (([AByte (Some 1); ACopied [2; 3; 4; 5]; ANumber 3; ANumber 1; ACut 2 [6; 7]], b1, c1, out1), w1).
Proof.
  destruct (appended_plenty [1; 2; 3; 4; 5; 6; 7; 8; 9] ltac:(done)) as (b & w & Heq & Hh & Hi). exists b, w. split; [exact Heq|].
  destruct (cutter_is_a_cursor w b _ IOBuf_empty [] [] [KCut1; KCopyTo 4; KCutn 3; KPopFront 1; KCutnMem 2] Hh (holds_empty w)) as (b1 & c1 & out1 & w1 & Hrun & _);
    [rewrite app_nil_r; exact Hi|done|repeat constructor; done|]. exists b1, c1, out1, w1. exact Hrun.
Defined.
End IOBufCutter.
