(* ===== verification/IOBufFrame.v ===== *)
(** * Operations that only count references

    Removing and reading bytes of a buffer leaves the thread's cache and the content of
    all blocks alone: [Framing c] says so of a computation [c], and is derived from the
    way [c] is composed. *)
From stdpp Require Import base list gmap.
From Stdlib Require Import ZArith Lia Bool.
From S2P Require Import Prelude IOBufBlock IOBufView IOBuf.

Open Scope Z_scope.
Open Scope m_scope.

Module IOBufFrame.
Import Block View IOBuf.

Class Framing {A} (c : M World A) : Prop := framing : forall w a w', c w = Some (a, w') -> frame w w'.

#[global] Instance framing_ret {A} (a : A) : Framing (mret a).
Proof. intros w a' w' [= _ <-]. reflexivity. Qed.
#[global] Instance framing_ub {A} : Framing (ub : M World A).
Proof. by intros w a w'. Qed.
#[global] Instance framing_lift {A} (o : option A) : Framing (mlift o).
Proof. intros w a w'. destruct o; [|done]. intros [= _ <-]. reflexivity. Qed.
#[global] Instance framing_bind {A B} (c : M World A) (k : A -> M World B) : Framing c -> (forall a, Framing (k a)) -> Framing (mbind' c k).
Proof.
  intros Hc Hk w b w'. unfold mbind'. destruct (c w) as [[a w1]|] eqn:E; [|done]. intros Hw. etrans; [exact (Hc _ _ _ E)|exact (Hk a _ _ _ Hw)].
Qed.
#[global] Instance framing_if {A} (c : bool) (x y : M World A) : Framing x -> Framing y -> Framing (if c then x else y).
Proof. by destruct c. Qed.
#[global] Instance framing_load k : Framing (load k).
Proof. intros w a w'. unfold load. destruct (heap w !! k); [|done]. intros [= _ <-]. reflexivity. Qed.
#[global] Instance framing_read_at k off n : Framing (read_at k off n).
Proof. unfold read_at. apply _. Qed.

Lemma frame_recounted w k blk c : heap w !! k = Some blk -> frame w (set_heap (<[k := set_nshared c blk]> (heap w)) w).
Proof.
  intros Hk. split; [|done]. intros x bx. cbn. destruct (decide (x = k)) as [->|Hne].
  - rewrite lookup_insert_eq. intros [= <-]. by exists blk.
  - rewrite lookup_insert_ne by done. intros Hx. exists bx. split; [done|]. by destruct bx.
Qed.
Lemma frame_freed w w' k : heap w' = delete k (heap w) -> next_bid w' = next_bid w -> same_tls w w' -> frame w w'.
Proof.
  intros Hh Hn Ht. split; [|done]. intros x bx. rewrite Hh, lookup_delete_Some. intros [_ Hx]. exists bx. split; [done|]. by destruct bx.
Qed.
#[global] Instance framing_inc_ref k : Framing (inc_ref k).
Proof.
  intros w a w'. unfold inc_ref, modify, mbind', load, store. destruct (heap w !! k) as [blk|] eqn:Hk; [|done]. cbn. rewrite Hk.
  intros [= _ <-]. by apply frame_recounted.
Qed.
#[global] Instance framing_dec_ref k : Framing (dec_ref k).
Proof.
  intros w a w'. unfold dec_ref, mbind', load, store, free, mmod, mret. destruct (heap w !! k) as [blk|] eqn:Hk; [|done]. cbn. rewrite Hk.
  intros Heq. etrans; [apply (frame_recounted w k blk (nshared blk - 1) Hk)|]. destruct (nshared blk =? 1); [destruct (negb (is_user_data blk))|].
  - cbn in Heq. rewrite lookup_insert_eq in Heq. injection Heq as _ <-. by apply (frame_freed _ _ k).
  - cbn in Heq. rewrite lookup_insert_eq in Heq. injection Heq as _ <-. by apply (frame_freed _ _ k).
  - injection Heq as _ <-. reflexivity.
Qed.
#[global] Instance framing_array : Framing acquire_blockref_array.
Proof. intros w a w' [= _ <-]. apply array_acquired_frame. Qed.
#[global] Instance framing_ref_inc r : Framing (ref_inc r).
Proof. unfold ref_inc. destruct (block r); apply _. Qed.
#[global] Instance framing_ref_dec r : Framing (ref_dec r).
Proof. unfold ref_dec. destruct (block r); apply _. Qed.
#[global] Instance framing_read_ref r off n : Framing (read_ref r off n).
Proof. unfold read_ref. destruct (block r); apply _. Qed.

(** Binds, tests and matches are passed through; what remains is an instance. *)
Ltac framing_step :=
  match goal with
  | |- forall _, _ => intro
  | |- Framing (mbind' _ _) => apply framing_bind
  | |- Framing (match ?x with _ => _ end) => destruct x
  end.
Ltac framing := repeat first [framing_step | exact _].

#[global] Instance framing_push MOVE b r : Framing (push_or_move_back_ref MOVE b r).
Proof. destruct b; cbn [push_or_move_back_ref]; unfold _push_or_move_back_ref_to_smallview, _push_or_move_back_ref_to_bigview; framing. Qed.
#[global] Instance framing_push_back b r : Framing (_push_back_ref b r).
Proof. apply framing_push. Qed.
#[global] Instance framing_move_back b r : Framing (_move_back_ref b r).
Proof. apply framing_push. Qed.
#[global] Instance framing_pop_front MOVEOUT b : Framing (_pop_or_moveout_front_ref MOVEOUT b).
Proof. unfold _pop_or_moveout_front_ref. framing. Qed.
#[global] Instance framing_pop_front_ref b : Framing (_pop_front_ref b).
Proof. apply framing_pop_front. Qed.
#[global] Instance framing_moveout_front_ref b : Framing (_moveout_front_ref b).
Proof. apply framing_pop_front. Qed.
#[global] Instance framing_dec_all bv n i : Framing (dec_all bv n i).
Proof. revert i. induction n; intros i; cbn [dec_all]; framing. Qed.
#[global] Instance framing_clear b : Framing (clear b).
Proof. unfold clear. framing. Qed.
#[global] Instance framing_pop_front_loop fuel b n : Framing (pop_front_loop fuel b n).
Proof. revert b n. induction fuel; intros b n; cbn [pop_front_loop]; unfold front_ref; framing. Qed.
#[global] Instance framing_buf_pop_front b n : Framing (pop_front b n).
Proof. unfold pop_front. framing. Qed.
#[global] Instance framing_cutn_mem_loop fuel b out n : Framing (cutn_mem_loop fuel b out n).
Proof. revert b out n. induction fuel; intros b out n; cbn [cutn_mem_loop]; unfold front_ref; framing. Qed.
#[global] Instance framing_cutn_mem b n : Framing (cutn_mem b n).
Proof. unfold cutn_mem. framing. Qed.
#[global] Instance framing_cutn_loop fuel b out n : Framing (cutn_loop fuel b out n).
Proof. revert b out n. induction fuel; intros b out n; cbn [cutn_loop]; unfold front_ref; framing. Qed.
#[global] Instance framing_cutn b out n : Framing (cutn b out n).
Proof. unfold cutn. framing. Qed.

(** The thread's cache is the same list before and after. *)
Lemma is_chain_unique h o l1 l2 : is_chain h o l1 -> is_chain h o l2 -> l1 = l2.
Proof.
  revert o l2. induction l1 as [|k l1 IH]; intros o [|k2 l2]; cbn [is_chain].
  - done.
  - intros -> [? _]. done.
  - intros [-> _] ?. done.
  - intros (-> & blk & nx & Hb & Hu & _ & Hc) ([= <-] & blk2 & nx2 & Hb2 & Hu2 & _ & Hc2). assert (nx2 = nx) as -> by congruence. f_equal. by eapply IH.
Qed.
Lemma frame_inv o tc w w' rs rs' : frame w w' -> inv_core o tc w rs -> o = block_head w -> num_blocks w = len tc -> inv w' rs' ->
  inv_core (block_head w') tc w' rs' /\ num_blocks w' = len tc.
Proof.
  intros (Hk & (Hh & Hn & _) & _) Hi -> Hl (tc' & Hi' & Hn'). assert (tc' = tc) as ->; [|done]. pose proof (inv_chain _ _ _ _ Hi') as Hc. rewrite Hh in Hc.
  apply (is_chain_unique (heap w) (block_head w)); [|apply Hi]. eapply is_chain_ext; [|exact Hc]. intros x bx _ Hb. destruct (Hk x bx Hb) as (b0 & Hb0 & ->).
  by exists b0.
Qed.
End IOBufFrame.
