(* ===== verification/IOPortal.v ===== *)
(** * IOPortal (butil/iobuf.h, iobuf.cpp): reading into a buffer

    An IOPortal is an IOBuf with a chain of blocks, taken out of the thread's cache, into
    which the next bytes are read.  [append_from_reader] and
    [pappend_from_file_descriptor] are the same code over [IReader::ReadV] and over
    [readv] or [preadv]; what is read is an argument. *)
From stdpp Require Import base list gmap.
From Stdlib Require Import ZArith Lia Bool.
From S2P Require Import Prelude IOBufBlock IOBufView IOBuf IOBufSpec IOBufEdge IOBufFrame.

Open Scope Z_scope.
Open Scope m_scope.

Module IOPortal.
Import Block View IOBuf IOBufSpec IOBufEdge IOBufFrame.

Record Portal := mkPortal { _buf : buffer; _block : option bid }.
Definition Portal_new : Portal := mkPortal IOBuf_empty None.
Definition MAX_APPEND_IOVEC : nat := 64.
(** Where and how much to read: a block, an offset in it and a length. *)
Record iovec := mkVec { iov_block : bid; iov_base : Z; iov_len : Z }.

(** What a reader answers when it is asked for vectors of the given lengths: bytes,
    more than none, or what [ReadV] returns instead (0 or a negative number). *)
Class Reader (R : Type) := ReadV : list Z -> R -> (Z + list Z) * R.

Section WithEnv.
Context `{Env}.

(** The loop that prepares the vectors, with [n] of them left; the result is [None] when
    no block can be had, and the new value of [_block]. *)
Fixpoint prepare (n : nat) (prev_p p head : option bid) (space max_count : Z) : M World (option (list iovec) * option bid) :=
  match n with
  | O => mret (Some [], head)
  | S n' =>
      let* (p', head') :=
        match p with
        | Some _ => mret (p, head)
        | None =>
            let* q := acquire_tls_block in
            match q, prev_p with
            | None, _ => mret (None, head)
            | Some _, Some prev => do* modify prev (set_u (portal_next q)) in mret (q, head)
            | Some _, None => mret (q, q)
            end
        end in
      match p' with
      | None => mret (None, head')
      | Some k =>
          let* blk := load k in
          let v := mkVec k (size blk) (Z.min (left_space blk) (max_count - space)) in
          let space' := space + iov_len v in
          if (max_count <=? space') || bool_decide (n' = O) then mret (Some [v], head')
          else
            let* (vs, head'') := prepare n' (Some k) (get_portal_next blk) head' space' max_count in
            mret ((fun vs => v :: vs) <$> vs, head'')
      end
  end.
(** [readv]: the bytes go to the vectors in order. *)
Fixpoint scatter (vec : list iovec) (data : list Z) : M World unit :=
  match vec with
  | [] => mret tt
  | v :: vec =>
      do* write_at (iov_block v) (iov_base v) (take (Z.to_nat (iov_len v)) data) in
      scatter vec (drop (Z.to_nat (iov_len v)) data)
  end.
(** The loop that makes what was read part of the buffer; a turn takes a byte at
    least, or the first block is full, which the blocks of the chain are not. *)
Fixpoint commit (fuel : nat) (p : Portal) (total_len : Z) : M World Portal :=
  match fuel, _block p with
  | S fuel', Some k =>
      let* blk := load k in
      let len := Z.min total_len (left_space blk) in
      let total_len' := total_len - len in
      let* b' := _push_back_ref (_buf p) (mkRef (size blk) (u32 len) (Some k)) in
      do* modify k (fun blk => set_size (u32 (size blk + len)) blk) in
      let* blk' := load k in
      let* next := (if full blk' then do* dec_ref k in mret (get_portal_next blk') else mret (Some k)) in
      if total_len' =? 0 then mret (mkPortal b' next) else commit fuel' (mkPortal b' next) total_len'
  | _, _ => ub
  end.
Definition return_cached_blocks (p : Portal) : M World Portal :=
  match _block p with
  | Some k => do* release_tls_block_chain k in mret (mkPortal (_buf p) None)
  | None => mret p
  end.
Definition append_from_reader {R} `{Reader R} (p : Portal) (max_count : Z) (rd : R) : M World (Z * Portal * R) :=
  let* (vec, head) := prepare MAX_APPEND_IOVEC None (_block p) (_block p) 0 max_count in
  let p1 := mkPortal (_buf p) head in
  match vec with
  | None => mret (-1, p1, rd)
  | Some vec =>
      match ReadV (iov_len <$> vec) rd with
      | (inl nr, rd') =>
          let* p2 := (if empty (_buf p1) then return_cached_blocks p1 else mret p1) in
          mret (nr, p2, rd')
      | (inr data, rd') =>
          do* scatter vec data in
          let* p2 := commit (S (Datatypes.length data)) p1 (len data) in
          mret (len data, p2, rd')
      end
  end.
(** The same code over [readv], or over [preadv] when [offset] is not negative: the
    descriptor and the offset are the reader. *)
Definition pappend_from_file_descriptor {R} `{Reader R} (p : Portal) (fd : R) (max_count : Z) : M World (Z * Portal * R) :=
  append_from_reader p max_count fd.
(** [append_from_SSL_channel], a block at a time, with [*ssl_error] as the third result.
    [SSL_read] gives bytes, or a number that is not positive with what [SSL_get_error]
    and [BIO_fd_non_fatal_error] say of it. *)
Record ssl_failure := mkFailure { ssl_rc : Z; ssl_err : Z; non_fatal : bool }.
Class SSL (S : Type) := SSL_read : Z -> S -> (ssl_failure + list Z) * S.
Definition SSL_ERROR_NONE : Z := 0.
Definition SSL_ERROR_WANT_READ : Z := 2.
Definition SSL_ERROR_SYSCALL : Z := 5.
Fixpoint append_from_SSL_loop {S} `{SSL S} (fuel : nat) (p : Portal) (max_count nr : Z) (ssl : S) : M World (Z * Z * Portal * S) :=
  match fuel with
  | O => ub
  | Datatypes.S fuel' =>
      let* p1 := match _block p with
                 | Some _ => mret p
                 | None => let* q := acquire_tls_block in mret (mkPortal (_buf p) q)
                 end in
      match _block p1 with
      | None => mret (-1, SSL_ERROR_SYSCALL, p1, ssl)
      | Some k =>
          let* blk := load k in
          match SSL_read (Z.min (left_space blk) (max_count - nr)) ssl with
          | (inr data, ssl') =>
              let rc := len data in
              do* write_at k (size blk) data in
              let* b' := _push_back_ref (_buf p1) (mkRef (u32 (size blk)) (u32 rc) (Some k)) in
              do* modify k (fun blk => set_size (u32 (size blk + rc)) blk) in
              let* blk' := load k in
              let* next := (if full blk' then do* dec_ref k in mret (get_portal_next blk') else mret (Some k)) in
              let p2 := mkPortal b' next in
              if nr + rc <? max_count then append_from_SSL_loop fuel' p2 max_count (nr + rc) ssl' else mret (nr + rc, SSL_ERROR_NONE, p2, ssl')
          | (inl f, ssl') =>
              let again := (ssl_err f =? SSL_ERROR_WANT_READ) || ((ssl_err f =? SSL_ERROR_SYSCALL) && non_fatal f) in
              if (ssl_rc f <? 0) && negb again then mret (ssl_rc f, ssl_err f, p1, ssl')
              else mret (if 0 <? nr then nr else ssl_rc f, if ssl_rc f <? 0 then SSL_ERROR_WANT_READ else ssl_err f, p1, ssl')
          end
      end
  end.
Definition append_from_SSL_channel {S} `{SSL S} (p : Portal) (max_count : Z) (ssl : S) : M World (Z * Z * Portal * S) :=
  append_from_SSL_loop (Datatypes.S (Z.to_nat max_count)) p max_count 0 ssl.
(** [clear] and the destructor. *)
Definition clear (p : Portal) : M World Portal :=
  let* b := View.clear (_buf p) in return_cached_blocks (mkPortal b (_block p)).
(** Copies share the bytes and not the cached blocks. *)
Definition Portal_copy (rhs : Portal) : M World Portal := let* b := IOBuf_copy (_buf rhs) in mret (mkPortal b None).
Definition Portal_assign (this rhs : Portal) : M World Portal := let* b := assign (_buf this) (_buf rhs) in mret (mkPortal b (_block this)).
Definition Portal_delete (p : Portal) : M World unit :=
  let* p1 := return_cached_blocks p in let* _ := View.clear (_buf p1) in mret tt.
End WithEnv.

(** ** Taking blocks out of the cache

    What [acquire_tls_block] does to the blocks outside of the cache: nothing. *)
Definition acquired `{Env} (w : World) (tc : list bid) (w' : World) (tc' : list bid) (rs : list bid) (ob : option bid) : Prop :=
  stable w w' rs /\ ((forall b, malloc_ok b = true) -> is_Some ob) /\ (forall x, x ∈ tc' -> x ∈ tc) /\ num_blocks w' = len tc' /\
  (forall x, x ∉ tc -> is_Some (heap w !! x) -> heap w' !! x = heap w !! x) /\
  match ob with
  | None => inv_core (block_head w') tc' w' rs
  | Some k => inv_core (block_head w') tc' w' (k :: rs) /\ (k ∉ tc') /\ (k ∈ tc \/ heap w !! k = None) /\
      exists blk, heap w' !! k = Some blk /\ full blk = false /\ is_user_data blk = false /\ u blk = portal_next None
  end.
Section Acquire.
Context `{Env}.
Lemma create_other sz w ob w' x : create_block_sized sz w = Some (ob, w') -> x <> next_bid w -> heap w' !! x = heap w !! x.
Proof.
  unfold create_block_sized, mbind', mget, mmod, mret. intros Hc Hx. destruct (_ <? _); [by simplify_eq|]. destruct (malloc_ok (next_bid w)); simplify_eq; [|done].
  cbn. by rewrite lookup_insert_ne.
Qed.
Lemma create_acquired w rs : inv_core None [] w rs -> block_head w = None -> num_blocks w = 0 ->
  exists ob w', create_block w = Some (ob, w') /\ acquired w [] w' [] rs ob.
Proof.
  intros Hi Hh Hn. destruct (create_block_sized_spec None [] w rs DEFAULT_BLOCK_SIZE Hi) as (ob & w' & Hc & (Hh' & Hn' & _) & Hst & Hok & Hob);
    [unfold DEFAULT_BLOCK_SIZE, sizeof_Block; lia|]. exists ob, w'. split; [done|]. split; [done|]. split; [intros Hall; by rewrite (Hok (Hall _))|].
  split; [done|]. split; [cbn; lia|]. rewrite Hh', Hh. split.
  - intros x _ [blk Hx]. apply (create_other DEFAULT_BLOCK_SIZE w ob w' x Hc). intros ->. by rewrite (inv_fresh _ _ _ _ Hi) in Hx by lia.
  - destruct ob as [b|].
    + destruct Hob as (Hi2 & Hnone & blk & Hb & Hsz & Hcap & Hd & Hu). split; [done|]. split; [by apply not_elem_of_nil|]. split; [by right|].
      exists blk. split; [done|]. split; [|done]. unfold full. by rewrite Hsz, Hcap.
    + apply Hob.
Qed.
Lemma acquire_loop_strong fuel w tc rs b : block_head w = Some b -> inv_core (Some b) tc w rs -> num_blocks w = len tc -> (Datatypes.length tc < fuel)%nat ->
  exists ob w' tc', acquire_loop fuel b w = Some (ob, w') /\ acquired w tc w' tc' rs ob.
Proof.
  revert w tc b. induction fuel as [|fuel IH]; intros w tc b Hh Hi Hn Hf; [lia|]. cbn [acquire_loop]. destruct tc as [|b' tc]; [by pose proof (inv_chain _ _ _ _ Hi)|].
  pose proof (inv_nodup _ _ _ _ Hi) as Hnd. apply NoDup_cons in Hnd as [Hni _]. destruct (chain_pop _ _ _ _ _ Hi) as (blk & nx & [= <-] & Hb & Hu & Hd & Hi').
  unfold load, mbind', mmod, mret, get_portal_next. rewrite Hb. cbn [fmap option_fmap option_map]. rewrite Hu. cbn [Datatypes.length] in Hn, Hf. destruct (full blk) eqn:Hfull.
  - destruct (dec_ref_spec _ _ _ _ _ Hi') as (w1 & Hdec & Hi1 & Hst1 & Hh1 & Hn1 & Hr1 & Hoth). rewrite Hdec.
    set (w2 := set_tls nx (num_blocks w1 - 1) (registered w1) w1). assert (inv_core nx tc w2 rs) as Hi2 by (by eapply inv_core_eq; [..|exact Hi1]).
    assert (exists ob w' tc', (match nx with None => create_block | Some b' => acquire_loop fuel b' end) w2 = Some (ob, w') /\ acquired w2 tc w' tc' rs ob) as (ob & w' & tc' & Heq & Ha).
    { destruct nx as [b'|]; [apply IH; try done; cbn; lia|]. destruct tc as [|? tc]; [|by destruct (inv_chain _ _ _ _ Hi2) as [? _]].
      destruct (create_acquired w2 rs) as (ob & w' & Hc & Ha); [done|done|cbn in *; lia|]. by exists ob, w', []. }
    exists ob, w', tc'. split; [by destruct nx|]. destruct Ha as (H1 & H2 & H3 & H4 & H5 & H6). split; [by eapply stable_trans|]. split; [done|].
    split; [intros x Hx; right; by apply H3|]. split; [done|]. split.
    + intros x [Hxb Hx]%not_elem_of_cons Hs. rewrite H5; [cbn; by apply Hoth|done|]. cbn. by rewrite Hoth.
    + destruct ob as [k|]; [|done]. destruct H6 as (H61 & H62 & H63 & H64). split; [done|]. split; [done|]. split; [|done].
      destruct H63 as [?|Hnone]; [left; by right|]. destruct (decide (k = b)) as [->|Hkb]; [left; left|right]. cbn in Hnone. by rewrite Hoth in Hnone.
  - set (w1 := set_tls nx (num_blocks w - 1) (registered w) w). assert (inv_core nx tc w1 (b :: rs)) as Hi1 by (by eapply inv_core_eq; [..|exact Hi']).
    destruct (inv_set_u nx tc w1 (b :: rs) b blk None Hi1 Hb Hni) as (Hm & Hi2 & Hst2). rewrite Hm. eexists (Some b), _, tc. split; [done|].
    split; [eapply stable_sub; [|exact Hst2]; set_solver|]. split; [done|]. split; [intros x Hx; by right|]. split; [cbn; lia|]. split.
    + intros x [Hxb _]%not_elem_of_cons _. cbn. by rewrite lookup_insert_ne.
    + split; [done|]. split; [done|]. split; [left; left|]. eexists. cbn. rewrite lookup_insert_eq. done.
Qed.
Lemma acquire_strong w tc rs : inv_core (block_head w) tc w rs -> num_blocks w = len tc ->
  exists ob w' tc', acquire_tls_block w = Some (ob, w') /\ acquired w tc w' tc' rs ob.
Proof.
  intros Hi Hn. unfold acquire_tls_block, mbind', mget. pose proof (chain_length _ _ _ _ Hi) as Hlen. destruct (block_head w) as [b|] eqn:Hh.
  - apply acquire_loop_strong; try done. unfold chain_fuel. lia.
  - pose proof (inv_chain _ _ _ _ Hi) as Hc. destruct tc; [|by destruct Hc]. destruct (create_acquired w rs Hi Hh Hn) as (ob & w' & Heq & Ha). by exists ob, w', [].
Qed.
End Acquire.

(** ** The chain of a portal *)
Definition room_in (w : World) (k : bid) : Prop := exists blk, heap w !! k = Some blk /\ full blk = false.
(** [ch] is the chain that starts with [hd]; [R] are all other references. *)
Record cache (w : World) (hd : option bid) (ch tc R : list bid) : Prop := mkCache {
  ca_inv : inv_core (block_head w) tc w (ch ++ R);
  ca_num : num_blocks w = len tc;
  ca_chain : is_chain (heap w) hd ch;
  ca_nodup : NoDup (ch ++ tc);
  ca_room : Forall (room_in w) ch }.
(** Nothing of a block but its [portal_next] and its count has changed. *)
Definition kept (w w' : World) (k : bid) : Prop :=
  exists blk blk', heap w !! k = Some blk /\ heap w' !! k = Some blk' /\ size blk' = size blk /\ cap blk' = cap blk /\ data blk' = data blk.
Lemma kept_refl w k : is_Some (heap w !! k) -> kept w w k.
Proof. intros [blk Hk]. by exists blk, blk. Qed.
Lemma kept_trans w1 w2 w3 k : kept w1 w2 k -> kept w2 w3 k -> kept w1 w3 k.
Proof. intros (b1 & b2 & E1 & E2 & ? & ? & ?) (b2' & b3 & E2' & E3 & ? & ? & ?). simplify_eq. exists b1, b3. split; [done|]. split; [done|]. split_and!; congruence. Qed.
Lemma kept_room w w' k : kept w w' k -> room_in w k -> room_in w' k.
Proof. intros (b1 & b2 & H1 & H2 & Hs & Hc & _) (blk & Hk & Hf). simplify_eq. exists b2. split; [done|]. unfold full in *. by rewrite Hs, Hc. Qed.

Lemma chain_next h hd ch1 k t blk : is_chain h hd (ch1 ++ k :: t) -> h !! k = Some blk -> get_portal_next blk = head t /\ is_chain h (head t) t.
Proof.
  revert hd. induction ch1 as [|c ch1 IH]; intros hd; cbn [app is_chain].
  - intros (_ & blk' & nx & Hk & Hu & _ & Hc) Hb. simplify_eq. unfold get_portal_next. rewrite Hu. destruct t as [|k' t]; cbn in *; [by subst|]. by destruct Hc as [-> ?].
  - intros (_ & blk' & nx & _ & _ & _ & Hc). exact (IH nx Hc).
Qed.
Lemma cache_alive w hd ch tc R k : cache w hd ch tc R -> k ∈ ch ++ R -> is_Some (heap w !! k).
Proof. intros Hca Hk. by apply (inv_live _ _ _ _ (ca_inv _ _ _ _ _ Hca)). Qed.

Section Prepare.
Context `{Env}.
(** The next block of the loop: one of the chain, or a new one that is linked. *)
Lemma next_block_spec w hd ch1 ch2 tc R : cache w hd (ch1 ++ ch2) tc R ->
  exists p' hd' w', (match head ch2 with
    | Some _ => mret (head ch2, hd)
    | None => let* q := acquire_tls_block in
        match q, last ch1 with
        | None, _ => mret (None, hd)
        | Some _, Some prev => do* modify prev (set_u (portal_next q)) in mret (q, hd)
        | Some _, None => mret (q, q)
        end
    end) w = Some ((p', hd'), w') /\ stable w w' (ch1 ++ ch2 ++ R) /\ (forall k, k ∈ ch1 ++ ch2 -> kept w w' k) /\
    match p' with
    | None => (exists tc', cache w' hd' (ch1 ++ ch2) tc' R) /\ ~ forall b, malloc_ok b = true
    | Some k => exists t tc', cache w' hd' (ch1 ++ k :: t) tc' R /\ ch2 `prefix_of` k :: t /\ (Datatypes.length t <= Datatypes.length ch2 - 1)%nat
    end.
Proof.
  intros Hca. pose proof Hca as [Hi Hn Hc Hnd Hr]. destruct ch2 as [|k t]; cbn [head].
  2:{ exists (Some k), hd, w. split; [done|]. split; [apply stable_refl|]. split; [|exists t, tc; split; [done|]; split; [done|cbn; lia]]. intros x Hx. apply kept_refl. eapply cache_alive; [done|]. apply elem_of_app. by left. }
  rewrite app_nil_r in *. pose proof Hnd as (Hnd1 & Hdis & Hnd2)%NoDup_app. cbn [app].
  destruct (acquire_strong w tc (ch1 ++ R) Hi Hn) as (ob & w1 & tc1 & Heq & Hst & Hall & Hsub & Hn1 & Hsame & Hob). unfold mbind' at 1. rewrite Heq.
  assert (forall x, x ∈ ch1 -> heap w1 !! x = heap w !! x) as Hch by (intros x Hx; apply Hsame; [by apply Hdis|]; eapply cache_alive; [done|]; apply elem_of_app; by left).
  assert (is_chain (heap w1) hd ch1) as Hc1 by (eapply is_chain_ext; [|exact Hc]; intros x blk Hx Hb; exists blk; by rewrite Hch).
  assert (NoDup (ch1 ++ tc1)) as Hnd' by (apply NoDup_app; split; [done|]; split; [intros x Hx Hx'; by apply (Hdis x Hx), Hsub|]; destruct ob; apply Hob).
  assert (forall x, x ∈ ch1 -> kept w w1 x) as Hkept.
  { intros x Hx. destruct (cache_alive _ _ _ _ _ x Hca) as [blk Hb]; [apply elem_of_app; by left|]. exists blk, blk. by rewrite Hch. }
  assert (Forall (room_in w1) ch1) as Hr1 by (apply Forall_forall; intros x Hx; apply (kept_room w); [by apply Hkept|by apply (proj1 (Forall_forall _ _) Hr)]).
  destruct ob as [k|].
  2:{ exists None, hd, w1. split; [done|]. split; [done|]. split; [done|]. split; [exists tc1; by split|]. intros Hm. by destruct (Hall Hm). }
  destruct Hob as (Hi1 & Hk & Hnew & blk & Hb & Hf & Hud & Hu).
  assert (k ∉ ch1) as Hkch. { intros Hx. destruct Hnew as [Hnew|Hnew]; [by apply (Hdis k)|]. destruct (cache_alive _ _ _ _ _ k Hca) as [? ?]; [apply elem_of_app; by left|]. congruence. }
  assert (NoDup ((ch1 ++ [k]) ++ tc1)) as Hnd3.
  { apply NoDup_app in Hnd' as (_ & Hd' & Ht'). apply NoDup_app. split; [apply NoDup_app; split; [done|]; split; [set_solver|apply NoDup_singleton]|]. split; [set_solver|done]. }
  destruct (last ch1) as [z|] eqn:Hz.
  - assert (z ∈ ch1) as Hzc by (by apply last_Some_elem_of in Hz). destruct (cache_alive _ _ _ _ _ z Hca) as [zb Hzb]; [apply elem_of_app; by left|].
    assert (z ∉ tc1) as Hztc by (apply NoDup_app in Hnd' as (_ & Hd' & _); by apply Hd'). rewrite <- (Hch z Hzc) in Hzb.
    destruct (inv_set_u _ _ _ _ _ _ (Some k) Hi1 Hzb Hztc) as (Hm & Hi2 & Hst2). unfold mbind', mret. rewrite Hm. set (w2 := set_heap _ w1) in *.
    assert (forall x, x <> z -> heap w2 !! x = heap w1 !! x) as Hoth by (intros x Hx; cbn; by rewrite lookup_insert_ne).
    assert (forall x, is_Some (heap w1 !! x) -> kept w1 w2 x) as Hkept2.
    { intros x [b0 Hb0]. destruct (decide (x = z)) as [->|Hx]; [|exists b0, b0; by rewrite Hoth]. rewrite Hb0 in Hzb. injection Hzb as ->. exists zb, (set_u (portal_next (Some k)) zb). split; [done|]. split; [cbn; by rewrite lookup_insert_eq|done]. }
    exists (Some k), hd, w2. split; [done|]. split; [eapply stable_trans; [exact Hst|]; eapply stable_sub; [|exact Hst2]; set_solver|]. split.
    { intros x Hx. eapply kept_trans; [by apply Hkept|]. apply Hkept2. rewrite Hch by done. eapply cache_alive; [done|]. apply elem_of_app. by left. }
    exists [], tc1. split; [|split; [apply prefix_nil|cbn; lia]]. split; try done.
    + eapply inv_perm; [|exact Hi2]. intros x. rewrite (cnt_app x (ch1 ++ [k])), (cnt_app x ch1 [k]), (cnt_app x [k] (ch1 ++ R)), (cnt_app x ch1 R). lia.
    + assert (exists b0, hd = Some b0) as [b0 ->] by (destruct ch1; [done|]; destruct Hc1 as [-> _]; by eexists). apply is_chain_join; try done.
      * cbn. split; [done|]. exists blk, None. by rewrite Hu.
      * apply NoDup_app in Hnd3 as [? _]. done.
    + apply Forall_app. split; [|constructor; [|constructor]].
      * apply Forall_forall. intros x Hx. apply (kept_room w1); [apply Hkept2; rewrite Hch by done; eapply cache_alive; [done|]; apply elem_of_app; by left|by apply (proj1 (Forall_forall _ _) Hr1)].
      * apply (kept_room w1); [by apply Hkept2; rewrite Hb|by exists blk].
  - apply last_None in Hz as ->. exists (Some k), (Some k), w1. split; [done|]. split; [done|]. split; [done|]. exists [], tc1. split; [|split; [apply prefix_nil|cbn; lia]]. split; try done.
    + cbn. split; [done|]. exists blk, None. by rewrite Hu.
    + constructor; [by exists blk|constructor].
Qed.

(** The vectors are the free parts of the first blocks of the chain; all but the last
    one are whole. *)
Fixpoint vec_ok (w : World) (vec : list iovec) (ch : list bid) : Prop :=
  match vec, ch with
  | [], _ => True
  | _ :: _, [] => False
  | v :: vec', k :: t => iov_block v = k /\ (exists blk, heap w !! k = Some blk /\ iov_base v = size blk /\
      0 <= iov_len v <= left_space blk /\ (vec' <> [] -> iov_len v = left_space blk)) /\ vec_ok w vec' t
  end.
Definition capacity_of (vec : list iovec) : Z := foldr (fun v z => iov_len v + z) 0 vec.

(** No vector is shorter than the room of its block. *)
Fixpoint whole (w : World) (vec : list iovec) (ch : list bid) : Prop :=
  match vec, ch with
  | [], _ => True
  | _ :: _, [] => False
  | v :: vec', k :: t => (exists blk, heap w !! k = Some blk /\ iov_len v = left_space blk) /\ whole w vec' t
  end.
Definition prepared (n : nat) (w w' : World) (ch1 ch2 R : list bid) (space max_count : Z) (hd' : option bid) (res : option (list iovec)) : Prop :=
  stable w w' (ch1 ++ ch2 ++ R) /\ (forall k, k ∈ ch1 ++ ch2 -> kept w w' k) /\
  exists ch' tc', cache w' hd' (ch1 ++ ch') tc' R /\ ch2 `prefix_of` ch' /\
  match res with
  | None => ~ forall b, malloc_ok b = true
  | Some vec => vec <> [] /\ vec_ok w' vec ch' /\ space + capacity_of vec <= max_count /\ (space < max_count -> 0 < capacity_of vec) /\
      (Datatypes.length ch' <= Nat.max (Datatypes.length ch2) (Datatypes.length vec))%nat /\ (Datatypes.length vec <= n)%nat /\ (space + capacity_of vec < max_count -> whole w' vec ch')
  end.
Lemma room_left w hd ch tc R k blk : cache w hd ch tc R -> k ∈ ch -> heap w !! k = Some blk -> 0 < left_space blk.
Proof.
  intros [Hi _ _ _ Hr] Hk Hb. destruct (proj1 (Forall_forall _ _) Hr k Hk) as (blk' & Hb' & Hf). rewrite Hb in Hb'. injection Hb' as <-.
  destruct (inv_block _ _ _ _ Hi k blk Hb) as (Hok & _). rewrite (left_space_ok _ Hok). apply full_ok in Hf. lia.
Qed.
Lemma prepare_spec n w hd ch1 ch2 tc R space max_count : cache w hd (ch1 ++ ch2) tc R -> (0 < n)%nat -> 0 <= space <= max_count ->
  exists res hd' w', prepare n (last ch1) (head ch2) hd space max_count w = Some ((res, hd'), w') /\ prepared n w w' ch1 ch2 R space max_count hd' res.
Proof.
  revert w hd ch1 ch2 tc space. induction n as [|n IH]; intros w hd ch1 ch2 tc space Hca Hn Hsp; [lia|]. cbn [prepare].
  destruct (next_block_spec w hd ch1 ch2 tc R Hca) as (p' & hd1 & w1 & Heq & Hst & Hkept & Hp). unfold mbind' at 1. rewrite Heq.
  destruct p' as [k|].
  2:{ destruct Hp as [(tc' & Hca') Hm]. exists None, hd1, w1. split; [done|]. split; [done|]. split; [done|]. exists ch2, tc'. by split_and!. }
  destruct Hp as (t & tc1 & Hca1 & Hpre & Hlt). destruct (cache_alive _ _ _ _ _ k Hca1) as [blk Hb]; [set_solver|].
  pose proof (room_left _ _ _ _ _ k blk Hca1 ltac:(set_solver) Hb) as Hroom. destruct (chain_next _ _ _ _ _ _ (ca_chain _ _ _ _ _ Hca1) Hb) as [Hnext _].
  unfold mbind' at 1, load at 1. rewrite Hb. cbn [fmap option_fmap option_map]. rewrite Hnext. cbn [iov_len]. set (v := mkVec k (size blk) (Z.min (left_space blk) (max_count - space))).
  destruct ((max_count <=? space + _) || bool_decide (n = O)) eqn:Hstop.
  { exists (Some [v]), hd1, w1. split; [done|]. split; [done|]. split; [done|]. exists (k :: t), tc1. split; [done|]. split; [done|]. cbn. split; [done|].
    split; [split; [done|]; split; [|done]; exists blk; split; [done|]; split; [done|]; split; [lia|done]|]. split; [lia|]. split; [lia|]. split; [lia|]. split; [lia|].
    intros Hl. split; [|done]. exists blk. split; [done|lia]. }
  apply orb_false_iff in Hstop as [Hstop Hn0]. apply Z.leb_gt in Hstop. apply bool_decide_eq_false in Hn0.
  destruct (IH w1 hd1 (ch1 ++ [k]) t tc1 (space + Z.min (left_space blk) (max_count - space))) as (res & hd2 & w2 & Heq2 & Hst2 & Hkept2 & ch2' & tc2 & Hca2 & Hpre2 & Hres);
    [by rewrite <- app_assoc|lia|lia|]. rewrite last_snoc in Heq2. unfold mbind'. rewrite Heq2. unfold mret.
  rewrite <- app_assoc in Hst2, Hca2, Hkept2. eexists _, hd2, w2. split; [done|].
  assert (forall x, x ∈ ch1 ++ ch2 -> x ∈ ch1 ++ [k] ++ t) as Hin.
  { intros x [Hx|Hx]%elem_of_app; apply elem_of_app; [by left|right]. by eapply elem_of_prefix. }
  split; [eapply stable_trans; [exact Hst|]; eapply stable_sub; [|exact Hst2]; intros x; rewrite !elem_of_app; specialize (Hin x); rewrite !elem_of_app in Hin; tauto|].
  split; [intros x Hx; eapply kept_trans; [by apply Hkept|by apply Hkept2, Hin]|]. exists (k :: ch2'), tc2. split; [done|].
  split; [etrans; [exact Hpre|]; by apply prefix_cons|]. destruct res as [vec|]; [|done]. destruct Hres as (Hne & Hvec & Hle & Hpos & Hlc & Hlv & Hwh). cbn. split; [done|]. fold (capacity_of vec).
  assert (iov_len v = left_space blk) as Hvl by (cbn; lia). 
  destruct (Hkept2 k ltac:(set_solver)) as (b1 & b2 & Hb1 & Hb2 & Hs2 & Hc2 & _). assert (b1 = blk) as -> by congruence.
  assert (left_space b2 = left_space blk) as Hl2 by (unfold left_space; by rewrite Hs2, Hc2).
  split; [split; [done|]; split; [|done]; exists b2; split; [done|]; rewrite Hs2, Hl2; split; [done|]; split; [lia|done]|].
  pose proof (Hpos ltac:(lia)). split; [lia|]. split; [lia|]. split; [cbn [Datatypes.length] in *; lia|]. split; [lia|]. intros Hl. split; [exists b2; split; [done|by rewrite Hl2]|apply Hwh; lia].
Qed.
End Prepare.

(** ** Reading into the chain *)

(** The bytes [d] stand in the free parts of the chain. *)
Fixpoint filled (w : World) (ch : list bid) (d : list Z) : Prop :=
  match ch with
  | [] => d = []
  | k :: t => exists blk, heap w !! k = Some blk /\
      let s := take (Z.to_nat (left_space blk)) d in
      take (Datatypes.length s) (drop (Z.to_nat (size blk)) (data blk)) = s /\ filled w t (drop (Z.to_nat (left_space blk)) d)
  end.
Lemma filled_nil w ch : (forall k, k ∈ ch -> is_Some (heap w !! k)) -> filled w ch [].
Proof.
  induction ch as [|k t IH]; intros Hl; [done|]. destruct (Hl k) as [blk Hb]; [left|]. exists blk. rewrite take_nil, drop_nil. split; [done|]. split; [done|].
  apply IH. intros x Hx. apply Hl. by right.
Qed.
(** Only the count of a block has changed. *)
Definition recount (w w' : World) (x : bid) : Prop := forall bx, heap w !! x = Some bx -> exists c, heap w' !! x = Some (set_nshared c bx).
Lemma recount_trans w1 w2 w3 x : recount w1 w2 x -> recount w2 w3 x -> recount w1 w3 x.
Proof. intros Ha Hb bx Hx. destruct (Ha bx Hx) as (c & Hc). destruct (Hb _ Hc) as (c' & Hc'). by exists c'. Qed.
Lemma recount_same w w' x : heap w' !! x = heap w !! x -> recount w w' x.
Proof. intros Hs bx Hx. exists (nshared bx). rewrite Hs, Hx. by destruct bx. Qed.
Lemma frame_recount o tc w w' rs x : frame w w' -> inv_core o tc w' rs -> x ∈ rs -> recount w w' x.
Proof.
  intros (Hk & _) Hi Hx bx Hb. destruct (inv_live _ _ _ _ Hi x Hx) as [bx' Hb']. destruct (Hk x bx' Hb') as (b0 & Hb0 & E). rewrite Hb in Hb0. injection Hb0 as <-. rewrite E in Hb'. by eexists.
Qed.
Lemma filled_recount w w' ch d : (forall k, k ∈ ch -> recount w w' k) -> filled w ch d -> filled w' ch d.
Proof.
  revert d. induction ch as [|k t IH]; intros d Hr; [done|]. cbn [filled]. intros (blk & Hb & Hs & Hf). destruct (Hr k ltac:(left) blk Hb) as (c & Hc).
  exists (set_nshared c blk). split; [done|]. split; [exact Hs|]. apply IH; [|exact Hf]. intros x Hx. apply Hr. by right.
Qed.
Lemma chain_recount w w' hd ch : (forall k, k ∈ ch -> recount w w' k) -> is_chain (heap w) hd ch -> is_chain (heap w') hd ch.
Proof. intros Hr. apply is_chain_ext. intros x blk Hx Hb. destruct (Hr x Hx blk Hb) as (c & Hc). by exists (set_nshared c blk). Qed.
Lemma room_recount w w' ch : (forall k, k ∈ ch -> recount w w' k) -> Forall (room_in w) ch -> Forall (room_in w') ch.
Proof.
  rewrite !Forall_forall. intros Hr Hf x Hx. destruct (Hf x Hx) as (blk & Hb & Hfull). destruct (Hr x Hx blk Hb) as (c & Hc). by exists (set_nshared c blk).
Qed.

Lemma cache_set_data w hd ch tc R k blk d : cache w hd ch tc R -> heap w !! k = Some blk -> inv_core (block_head w) tc (set_heap (<[k := set_data d blk]> (heap w)) w) (ch ++ R) ->
  cache (set_heap (<[k := set_data d blk]> (heap w)) w) hd ch tc R.
Proof.
  intros [Hi Hn Hc Hnd Hr] Hk Hi'. split; try done.
  - eapply is_chain_ext; [|exact Hc]. intros x bx Hx Hb. destruct (decide (x = k)) as [->|Hne]; [|exists bx; cbn; by rewrite lookup_insert_ne].
    exists (set_data d blk). assert (bx = blk) as -> by congruence. cbn. by rewrite lookup_insert_eq.
  - eapply Forall_impl; [exact Hr|]. intros x (bx & Hb & Hf). destruct (decide (x = k)) as [->|Hne]; [|exists bx; cbn; by rewrite lookup_insert_ne].
    exists (set_data d blk). assert (bx = blk) as -> by congruence. cbn. by rewrite lookup_insert_eq.
Qed.
Lemma vec_ok_ext w w' vec ch : (forall k, k ∈ ch -> heap w' !! k = heap w !! k) -> vec_ok w vec ch -> vec_ok w' vec ch.
Proof.
  revert ch. induction vec as [|v vec IH]; intros [|k t] He; try done. cbn [vec_ok]. intros (? & (blk & Hb & Hrest) & Hv). split; [done|].
  split; [exists blk; by rewrite He by left|]. apply IH; [|done]. intros x Hx. apply He. by right.
Qed.
Lemma capacity_nonneg w vec ch : vec_ok w vec ch -> 0 <= capacity_of vec.
Proof. revert ch. induction vec as [|v vec IH]; intros [|k t]; try done. cbn. intros (_ & (blk & _ & _ & ? & _) & Hv). specialize (IH _ Hv). unfold capacity_of in IH. lia. Qed.
Lemma written_block w k blk d w' : heap w !! k = Some blk -> write_at k (size blk) d w = Some (tt, w') -> exists d', heap w' !! k = Some (set_data d' blk).
Proof.
  intros Hb. unfold write_at, mbind', load, store. rewrite Hb. cbn [fmap option_fmap option_map]. destruct (_ && _); [|done]. rewrite Hb. intros [= <-].
  eexists. cbn. by rewrite lookup_insert_eq.
Qed.
Lemma scatter_spec w hd cha ch tc R vec d : cache w hd (cha ++ ch) tc R -> vec_ok w vec ch -> len d <= capacity_of vec ->
  exists w', scatter vec d w = Some (tt, w') /\ cache w' hd (cha ++ ch) tc R /\ stable w w' (cha ++ ch ++ R) /\ filled w' ch d /\
    (forall x, x ∉ ch -> heap w' !! x = heap w !! x).
Proof.
  revert w cha ch d. induction vec as [|v vec IH]; intros w cha ch d Hca Hv Hd.
  { exists w. cbn in Hd. destruct d; [|cbn in Hd; lia]. split; [done|]. split; [done|]. split; [apply stable_refl|]. split; [|done]. apply filled_nil.
    intros k Hk. eapply cache_alive; [done|]. set_solver. }
  destruct ch as [|k t]; [done|]. destruct Hv as (Hk & (blk & Hb & Hbase & Hlen & Hwhole) & Hv). cbn in Hd. fold (capacity_of vec) in Hd. cbn [scatter]. rewrite Hk, Hbase.
  pose proof (ca_inv _ _ _ _ _ Hca) as Hi. destruct (inv_block _ _ _ _ Hi k blk Hb) as (Hok & _). pose proof (left_space_ok _ Hok) as Hls.
  set (s := take (Z.to_nat (iov_len v)) d). assert (len s <= iov_len v) as Hs by (unfold s; rewrite length_take; lia).
  destruct (write_at_spec _ _ _ _ k blk (size blk) s Hi Hb) as (dd & Hwr & Hi1 & Hext & Hdd & _); [lia|lia|]. unfold mbind'. rewrite Hwr.
  pose proof (cache_set_data _ _ _ _ _ _ _ dd Hca Hb Hi1) as Hca1. assert (stable w (set_heap (<[k := set_data dd blk]> (heap w)) w) (cha ++ (k :: t) ++ R)) as Hst1 by (by eapply stable_update).
  set (w1 := set_heap _ w) in *. pose proof (ca_nodup _ _ _ _ _ Hca) as Hnd. rewrite <- app_assoc in Hnd. apply NoDup_app in Hnd as (_ & _ & Hnd). cbn in Hnd. apply NoDup_cons in Hnd as [Hkt _].
  assert (take (Z.to_nat (iov_len v)) d = take (Z.to_nat (left_space blk)) d /\ drop (Z.to_nat (iov_len v)) d = drop (Z.to_nat (left_space blk)) d) as [Ht Hdr].
  { destruct vec as [|v2 vec]; [cbn in Hd; rewrite !take_ge, !drop_ge by lia; done|by rewrite Hwhole]. }
  destruct (IH w1 (cha ++ [k]) t (drop (Z.to_nat (iov_len v)) d)) as (w2 & Heq & Hca2 & Hst2 & Hf2 & Hoth).
  - by rewrite <- app_assoc.
  - eapply vec_ok_ext; [|exact Hv]. intros x Hx. cbn. rewrite lookup_insert_ne; [done|]. intros ->. set_solver.
  - pose proof (capacity_nonneg _ _ _ Hv). rewrite length_drop. lia.
  - exists w2. rewrite <- app_assoc in Hca2, Hst2. split; [done|]. split; [done|]. split; [by eapply stable_trans|]. split.
    + exists (set_data dd blk). rewrite Hoth by set_solver. split; [cbn; by rewrite lookup_insert_eq|]. unfold left_space in *. cbn [set_data size cap data]. rewrite <- Ht, <- Hdr. by fold s.
    + intros x [Hxk Hx]%not_elem_of_cons. rewrite Hoth by done. cbn. by rewrite lookup_insert_ne.
Qed.
(** The room in a chain, and blocks without any. *)
Fixpoint room_sum (w : World) (ch : list bid) : Z :=
  match ch with [] => 0 | k :: t => match heap w !! k with Some blk => left_space blk | None => 0 end + room_sum w t end.
Definition full_in (w : World) (k : bid) : Prop := exists blk, heap w !! k = Some blk /\ full blk = true.
Lemma room_sum_recount w w' ch : (forall k, k ∈ ch -> is_Some (heap w !! k)) -> (forall k, k ∈ ch -> recount w w' k) -> room_sum w' ch = room_sum w ch.
Proof.
  induction ch as [|k t IH]; intros Hl Hr; [done|]. cbn [room_sum]. destruct (Hl k) as [blk Hb]; [left|]. destruct (Hr k ltac:(left) blk Hb) as (c & Hc). rewrite Hb, Hc, IH; [done|..]; intros x Hx; [apply Hl|apply Hr]; by right.
Qed.
Lemma full_recount w w' k : recount w w' k -> full_in w k -> full_in w' k.
Proof. intros Hr (blk & Hb & Hf). destruct (Hr blk Hb) as (c & Hc). by exists (set_nshared c blk). Qed.
Lemma push_ref_grows l0 l1 r : (l1 = [] -> forall r0, last l0 = Some r0 -> block r0 <> block r) -> exists l2, push_ref (l0 ++ l1) r = l0 ++ l2 /\ l2 <> [].
Proof.
  destruct l1 as [|x l1 _] using rev_ind; intros Hne.
  - rewrite app_nil_r. destruct l0 as [|y l0 _] using rev_ind; [by exists [r]|]. rewrite push_ref_snoc. assert (mergeable y r = false) as ->.
    { unfold mergeable, same_block. rewrite bool_decide_eq_false_2; [done|]. apply Hne; [done|]. by rewrite last_snoc. }
    exists [r]. by rewrite <- app_assoc.
  - rewrite app_assoc, push_ref_snoc. destruct (mergeable x r); rewrite <- ?app_assoc; [exists (l1 ++ [merge x r])|exists (l1 ++ [x; r])]; (split; [done|by destruct l1]).
Qed.
Lemma push_ref_owned l r k x : Forall ref_shape l -> ref_shape r -> block r = Some k -> x ∈ ids (push_ref l r) -> x = k \/ x ∈ ids l.
Proof.
  intros Hl Hr Hk Hx. apply cnt_pos in Hx. rewrite push_ref_ids in Hx by done. assert (ids [r] = [k]) as Hid by (unfold ids; cbn; by rewrite Hk). rewrite Hid in Hx.
  destruct (decide (x = k)) as [->|Hne]; [by left|right]. apply cnt_pos. assert (cnt x [k] = 0) as H0 by (apply cnt_zero; set_solver). destruct (match last l with Some _ => _ | None => _ end); lia.
Qed.
Lemma push_ref_keeps l r x : Forall ref_shape l -> ref_shape r -> x ∈ ids l -> x ∈ ids (push_ref l r).
Proof.
  intros Hl Hr Hx. apply cnt_pos. rewrite push_ref_ids by done. apply cnt_pos in Hx. pose proof (cnt_nonneg x (ids [r])). destruct (match last l with Some _ => _ | None => _ end); lia.
Qed.
(** One turn of [commit]: what the head of the chain has of [d] is pushed, and the block
    leaves the chain when it is full. *)
Lemma chain_head h hd k t : is_chain h hd (k :: t) -> hd = Some k.
Proof. by intros [? _]. Qed.
Lemma finish_block_spec w hd k t tc R blk : is_chain (heap w) hd (k :: t) -> heap w !! k = Some blk -> inv_core (block_head w) tc w ((k :: t) ++ R) -> num_blocks w = len tc ->
  NoDup ((k :: t) ++ tc) -> Forall (room_in w) t ->
  exists w' next ch', (if full blk then do* dec_ref k in mret (get_portal_next blk) else mret (Some k)) w = Some (next, w') /\
    cache w' next ch' tc R /\ ch' `suffix_of` k :: t /\ stable w w' R /\ ch' = (if full blk then t else k :: t) /\ (forall x, x ∈ t ++ R -> recount w w' x) /\
    (full blk = false -> w' = w).
Proof.
  intros Hc Hb Hi Hn Hnd Hr. destruct (full blk) eqn:Hf.
  - destruct (dec_ref_frame _ _ _ _ _ Hi) as (w' & Heq & Hi' & Hfr). pose proof Hfr as (_ & (Hh & Hnb & _) & _). destruct (chain_next _ hd [] k t blk Hc Hb) as [Hnext Hct].
    assert (forall x, x ∈ t ++ R -> recount w w' x) as Hre' by (intros x Hx; by eapply frame_recount).
    assert (forall x, x ∈ t -> recount w w' x) as Hre by (intros x Hx; apply Hre', elem_of_app; by left).
    exists w', (head t), t. unfold mbind'. rewrite Heq, Hnext. split; [done|]. apply NoDup_cons in Hnd as [_ Hnd]. split.
    { split; [by rewrite Hh|by rewrite Hnb|by eapply chain_recount|done|by eapply room_recount]. }
    split; [apply suffix_cons_r; reflexivity|]. split; [eapply stable_sub; [|by eapply frame_stable]; set_solver|done].
  - exists w, (Some k), (k :: t). split; [done|]. split; [|split; [reflexivity|]; split; [apply stable_refl|]; split; [done|]; split; [|done]; intros x _; by apply recount_same].
    split; try done; [by rewrite <- (chain_head _ _ _ _ Hc)|]. constructor; [by exists blk|done].
Qed.
Lemma turn_owned o tc w w1 w2 w3 b b' R k t n blk blk' c ch' : repr b (view_list b) -> ref_shape (mkRef (size blk) n (Some k)) -> view_list b' = push_ref (view_list b) (mkRef (size blk) n (Some k)) ->
  frame w w1 -> inv_core o tc w1 (owned b' ++ R) -> heap w !! k = Some blk -> full blk = false -> heap w1 !! k = Some (set_nshared c blk) ->
  w2 = set_heap (<[k := blk']> (heap w1)) w1 -> heap w2 !! k = Some blk' -> (forall x, x ∈ owned b' -> recount w2 w3 x) -> ch' = (if full blk' then t else k :: t) ->
  (forall x, x ∈ owned b' -> x = k \/ x ∈ owned b) /\ (forall x, x ∈ owned b -> full_in w x -> full_in w3 x) /\ (k ∈ ch' \/ full_in w3 k) /\ (full blk' = true -> full_in w3 k).
Proof.
  intros Hr Hs Hv Hf Hi Hb Hnf Hk1 -> Hk2 Hre ->. pose proof (repr_shape _ _ Hr) as Hsh. unfold owned in *. rewrite Hv in *. assert (full blk' = true -> full_in w3 k) as Hfk.
  { intros Hf'. eapply full_recount; [apply Hre; by apply (push_ref_mem _ (mkRef (size blk) n (Some k)))|by exists blk']. }
  split; [|split].
  - intros x. by apply push_ref_owned.
  - intros x Hx Hfx. assert (x <> k) as Hne by (intros ->; destruct Hfx as (bx & Hbx & Hfx); congruence). apply (push_ref_keeps _ (mkRef (size blk) n (Some k))) in Hx as Hx'; [|done|done].
    eapply full_recount; [by apply Hre|]. eapply full_recount; [apply (recount_same w1); cbn; by rewrite lookup_insert_ne|]. eapply full_recount; [|exact Hfx]. eapply frame_recount; [exact Hf|exact Hi|].
    apply elem_of_app. by left.
  - split; [|done]. destruct (full blk'); [right; by apply Hfk|left; left].
Qed.
Lemma commit_turn w b bs hd k t tc rs d blk (n := Z.min (len d) (left_space blk)) : cache w hd (k :: t) tc (owned b ++ rs) -> holds w b bs -> filled w (k :: t) d -> heap w !! k = Some blk ->
  0 < n -> 2 * (len bs + n) < limit ->
  exists b' w1 w2 w3 next ch' blk', _push_back_ref b (mkRef (size blk) n (Some k)) w = Some (b', w1) /\
    modify k (fun blk => set_size (u32 (size blk + n)) blk) w1 = Some (tt, w2) /\ heap w2 !! k = Some blk' /\
    (if full blk' then do* dec_ref k in mret (get_portal_next blk') else mret (Some k)) w2 = Some (next, w3) /\
    holds w3 b' (bs ++ take (Z.to_nat n) d) /\ cache w3 next ch' tc (owned b' ++ rs) /\ ch' `suffix_of` k :: t /\ stable w w3 rs /\ (n < len d -> filled w3 ch' (drop (Z.to_nat n) d)) /\
    view_list b' = push_ref (view_list b) (mkRef (size blk) n (Some k)) /\ room_sum w3 ch' = room_sum w (k :: t) - n /\
    (forall x, x ∈ owned b' -> x = k \/ x ∈ owned b) /\ (forall x, x ∈ owned b -> full_in w x -> full_in w3 x) /\ (k ∈ ch' \/ full_in w3 k) /\ (n < len d -> full_in w3 k).
Proof.
  intros [Hi Hnt Hc Hnd Hr] Hh (blk0 & Hb0 & Hs & Hf) Hb Hn Hlim. assert (blk0 = blk) as -> by congruence. destruct (inv_block _ _ _ _ Hi k blk Hb) as (Hok & _). pose proof Hok as (Hsz & Hcap & _).
  pose proof (left_space_ok _ Hok) as Hls. rewrite length_take in Hs.
  assert (forall b, inv_core (block_head w) tc w (k :: t ++ owned b ++ rs) -> inv_core (block_head w) tc w (owned b ++ (k :: t) ++ rs)) as Hperm.
  { intros b0. apply inv_perm. intros x. change (k :: t ++ owned b0 ++ rs) with ((k :: t) ++ owned b0 ++ rs). rewrite !cnt_app. lia. }
  destruct (push_written_spec w b bs tc ((k :: t) ++ rs) k blk n Hh (Hperm _ Hi) Hnt Hb) as (b' & w1 & w2 & c & Hpush & Hfr & Hi1 & Hk1 & Hw2 & Hmod & Hh2 & Hi2 & Hn2 & Hst2 & Hview); [lia|done|].
  set (blk' := set_size (size blk + n) (set_nshared c blk)) in *. assert (heap w2 !! k = Some blk') as Hk2 by (rewrite Hw2; apply lookup_insert_eq).
  assert (forall x, x ∈ t -> recount w w2 x) as Hre.
  { intros x Hx. apply (recount_trans w w1 w2); [eapply frame_recount; [exact Hfr|exact Hi1|]; set_solver|]. apply recount_same. rewrite Hw2. cbn. rewrite lookup_insert_ne; [done|].
    intros ->. rewrite <- app_comm_cons in Hnd. apply NoDup_cons in Hnd as [Hnd _]. set_solver. }
  assert (is_chain (heap w2) hd (k :: t)) as Hc2.
  { destruct Hc as (-> & blk0 & nx & Hb1 & Hu & Hud & Hct). assert (blk0 = blk) as -> by congruence. split; [done|]. exists blk', nx. do 3 (split; [done|]). by eapply chain_recount. }
  destruct (finish_block_spec w2 hd k t tc (owned b' ++ rs) blk' Hc2 Hk2) as (w3 & next & ch' & Heq & Hca & Hsuf & Hst3 & Hch' & Hre3 & Hsame); [|done|done|eapply room_recount; [exact Hre|by apply Forall_cons in Hr as [_ ?]]|].
  { eapply inv_perm; [|exact Hi2]. intros x. rewrite !cnt_app. lia. }
  assert (take (Z.to_nat n) (drop (Z.to_nat (size blk)) (data blk)) = take (Z.to_nat n) d) as Hby.
  { replace (Z.to_nat n) with (Nat.min (Z.to_nat (left_space blk)) (Datatypes.length d)) by lia. rewrite Hs, <- take_take. by rewrite firstn_all. }
  rewrite Hby in Hh2. exists b', w1, w2, w3, next, ch', blk'. split; [done|]. split.
  { rewrite <- Hmod. unfold modify, mbind', load. rewrite Hk1. done. }
  do 2 (split; [done|]). split; [eapply holds_stable; [exact Hst3| |done]; set_solver|]. split; [done|]. split; [done|].
  split; [eapply stable_trans; (eapply stable_sub; [|eassumption]); set_solver|].
  assert (full blk' = true <-> n = left_space blk) as Hfull by (unfold full; rewrite Z.leb_le; unfold blk'; cbn; lia).
  assert (forall x, x ∈ t -> recount w w3 x) as Hre' by (intros x Hx; eapply recount_trans; [by apply Hre|]; apply Hre3, elem_of_app; by left).
  split; [intros Hlt; assert (n = left_space blk) as Hnl by lia; rewrite Hch', (proj2 Hfull Hnl), Hnl; by eapply filled_recount|]. split; [done|].
  destruct (turn_owned (block_head w) tc w w1 w2 w3 b b' ((k :: t) ++ rs) k t n blk blk' c ch') as (Hown & Hkeep & Hk & Hkf); [apply Hh|split_and!; cbn; lia || done|done|exact Hfr|exact Hi1|exact Hb|unfold full; apply Z.leb_gt; lia|exact Hk1|exact Hw2|exact Hk2| |exact Hch'|].
  { intros x Hx. apply Hre3. set_solver. }
  split; [|do 3 (split; [done|]); intros Hlt; apply Hkf, Hfull; lia].
  assert (forall x, x ∈ t -> is_Some (heap w !! x)) as Hlive by (intros x Hx; apply (inv_live _ _ _ _ Hi); set_solver). cbn [room_sum]. rewrite Hb, Hch'. destruct (full blk').
  - rewrite (room_sum_recount w w3 t) by done. rewrite (proj1 Hfull eq_refl) at 1. lia.
  - rewrite (Hsame eq_refl). cbn [room_sum]. rewrite Hk2, (room_sum_recount w w2 t) by done. assert (left_space blk' = left_space blk - n) as ->; [|lia].
    unfold left_space, blk'. cbn [set_size set_nshared size cap]. rewrite !u32_small by lia. lia.
Qed.
Lemma commit_spec fuel w b bs hd ch tc rs d : cache w hd ch tc (owned b ++ rs) -> holds w b bs -> filled w ch d -> d <> [] -> (Datatypes.length d < fuel)%nat -> 2 * (len bs + len d) < limit ->
  exists b' hd' ch' w', commit fuel (mkPortal b hd) (len d) w = Some (mkPortal b' hd', w') /\ holds w' b' (bs ++ d) /\ cache w' hd' ch' tc (owned b' ++ rs) /\ ch' `suffix_of` ch /\ stable w w' rs /\
    room_sum w' ch' = room_sum w ch - len d /\
    (forall l0 l1, view_list b = l0 ++ l1 -> (l1 = [] -> forall r, last l0 = Some r -> block r <> head ch) -> exists l2, view_list b' = l0 ++ l2) /\
    ((forall x, x ∈ owned b -> full_in w x) -> ch' = [] -> forall x, x ∈ owned b' -> full_in w' x).
Proof.
  revert w b bs hd ch d. induction fuel as [|fuel IH]; intros w b bs hd ch d Hca Hh Hf Hd Hfuel Hlim; [lia|].
  destruct ch as [|k t]; [done|]. destruct (cache_alive _ _ _ _ _ k Hca) as [blk Hb]; [left|]. pose proof (room_left _ _ _ _ _ k blk Hca ltac:(left) Hb) as Hroom.
  destruct (inv_block _ _ _ _ (ca_inv _ _ _ _ _ Hca) k blk Hb) as (Hok & _). pose proof Hok as (Hsz & Hcap & _). pose proof (left_space_ok _ Hok) as Hls.
  assert (0 < len d) as Hd0 by (destruct d; [done|cbn; lia]).
  destruct (commit_turn w b bs hd k t tc rs d blk Hca Hh Hf Hb) as (b' & w1 & w2 & w3 & next & ch' & blk' & Hpush & Hmod & Hk2 & Hnext & Hh3 & Hca3 & Hsuf & Hst & Hfil & Hview & Hsum & Hown & Hfull & Hk & Hkf); [lia|lia|].
  cbn [commit]. rewrite (chain_head _ _ _ _ (ca_chain _ _ _ _ _ Hca)). cbn [_block _buf]. set (n := Z.min (len d) (left_space blk)) in *.
  unfold mbind' at 1, load at 1. rewrite Hb. cbn [fmap option_fmap option_map]. fold n. rewrite (u32_small n) by lia.
  unfold mbind' at 1. rewrite Hpush. unfold mbind' at 1. rewrite Hmod. unfold mbind' at 1, load at 1. rewrite Hk2. cbn [fmap option_fmap option_map]. unfold mbind' at 1. rewrite Hnext.
  destruct (Z.eqb_spec (len d - n) 0) as [Hz|Hz].
  - exists b', next, ch', w3. split; [done|]. rewrite take_ge in Hh3 by lia. do 4 (split; [done|]). split; [lia|]. split.
    + intros l0 l1 Hl Hne. rewrite Hview, Hl. destruct (push_ref_grows l0 l1 (mkRef (size blk) n (Some k)) Hne) as (l2 & -> & _). by exists l2.
    + intros Hall -> x Hx. destruct (Hown x Hx) as [->|Hx']; [|by apply Hfull, Hall]. destruct Hk as [Hk|Hk]; [by apply not_elem_of_nil in Hk|done].
  - destruct (IH w3 b' (bs ++ take (Z.to_nat n) d) next ch' (drop (Z.to_nat n) d)) as (b2 & hd2 & ch2 & w4 & Heq & Hh4 & Hca4 & Hsuf4 & Hst4 & Hsum4 & Hview4 & Hfull4); try done.
    + apply Hfil. lia.
    + intros Hnil. apply (f_equal Datatypes.length) in Hnil. rewrite length_drop in Hnil. cbn in Hnil. lia.
    + rewrite length_drop. lia.
    + rewrite length_app, length_take, length_drop. lia.
    + exists b2, hd2, ch2, w4. rewrite length_drop in Heq. replace (len d - n) with (Z.of_nat (Datatypes.length d - Z.to_nat n)) by lia. split; [exact Heq|].
      rewrite <- app_assoc, take_drop in Hh4. split; [done|]. split; [done|]. split; [by etrans|]. split; [by eapply stable_trans|]. split; [rewrite Hsum4, Hsum, length_drop; lia|]. split.
      * intros l0 l1 Hl Hne. destruct (push_ref_grows l0 l1 (mkRef (size blk) n (Some k)) Hne) as (l2 & Hpr & Hl2). apply (Hview4 l0 l2); [by rewrite Hview, Hl|done].
      * intros Hall. apply Hfull4. intros x Hx. destruct (Hown x Hx) as [->|Hx']; [apply Hkf; lia|by apply Hfull, Hall].
Qed.

(** ** A portal is a queue of bytes *)

(** The portal [p] holds the bytes [bs] and a chain of blocks with room; [rs] are the
    references of others. *)
Definition portal_ok (w : World) (p : Portal) (bs : list Z) (rs : list bid) : Prop :=
  holds w (_buf p) bs /\ exists ch tc, cache w (_block p) ch tc (owned (_buf p) ++ rs).
Lemma cache_inv w hd ch tc R : cache w hd ch tc R -> inv w (ch ++ R).
Proof. intros [Hi Hn _ _ _]. by exists tc. Qed.
Lemma cache_none w R : inv w R <-> exists tc, cache w None [] tc R.
Proof.
  split.
  - intros (tc & Hi & Hn). exists tc. split; [exact Hi|exact Hn|done|apply Hi|constructor].
  - intros (tc & Hca). exact (cache_inv _ _ _ _ _ Hca).
Qed.
Lemma portal_new_ok w rs : inv w rs -> portal_ok w Portal_new [] rs.
Proof. intros Hi. split; [apply holds_empty|]. exists []. by apply cache_none. Qed.
(** What removes bytes keeps the chain. *)
Lemma cache_frame w w' hd ch tc R R' : frame w w' -> cache w hd ch tc R -> inv w' (ch ++ R') -> cache w' hd ch tc R'.
Proof.
  intros Hf [Hi Hn Hc Hnd Hr] Hi'. destruct (frame_inv _ _ _ _ _ _ Hf Hi eq_refl Hn Hi') as [Hi2 Hn2].
  assert (forall k, k ∈ ch -> recount w w' k) as Hre by (intros k Hk; eapply frame_recount; [exact Hf|exact Hi2|]; apply elem_of_app; by left).
  split; [done|done|by eapply chain_recount|done|by eapply room_recount].
Qed.
Lemma portal_remove {A} (c : M World A) `{!Framing c} (g : buffer -> A) w p bs rs bs' :
  (forall R, inv w (owned (_buf p) ++ R) -> exists b', yields w R (c w) (g b') b' bs') -> portal_ok w p bs rs ->
  exists b' w', c w = Some (g b', w') /\ portal_ok w' (mkPortal b' (_block p)) bs' rs /\ stable w w' rs.
Proof.
  intros Hc (Hh & ch & tc & Hca). destruct (Hc (ch ++ rs)) as (b' & w' & Heq & Hh' & Hi' & Hst).
  { eapply inv_sub_perm; [|exact (cache_inv _ _ _ _ _ Hca)]. intros x. rewrite !cnt_app. lia. }
  exists b', w'. split; [done|]. split; [|eapply stable_sub; [|exact Hst]; set_solver]. split; [done|]. exists ch, tc. eapply cache_frame; [by eapply framing|exact Hca|].
  eapply inv_sub_perm; [|exact Hi']. intros x. cbn [_buf]. rewrite !cnt_app. lia.
Qed.
Lemma portal_pop_front_spec w p bs rs n : portal_ok w p bs rs -> 0 <= n ->
  exists b' w', pop_front (_buf p) n w = Some ((Z.min n (len bs), b'), w') /\ portal_ok w' (mkPortal b' (_block p)) (drop (Z.to_nat n) bs) rs /\ stable w w' rs.
Proof.
  intros Hok Hn. eapply (portal_remove (pop_front (_buf p) n) (fun b' => (Z.min n (len bs), b'))); [|exact Hok]. intros R Hi. eapply pop_front_yields; [apply Hok|done|done].
Qed.
Lemma portal_cutn_mem_spec w p bs rs n : portal_ok w p bs rs -> 0 <= n ->
  exists b' w', cutn_mem (_buf p) n w = Some ((Z.min n (len bs), take (Z.to_nat n) bs, b'), w') /\ portal_ok w' (mkPortal b' (_block p)) (drop (Z.to_nat n) bs) rs /\ stable w w' rs.
Proof.
  intros Hok Hn. eapply (portal_remove (cutn_mem (_buf p) n) (fun b' => (Z.min n (len bs), take (Z.to_nat n) bs, b'))); [|exact Hok]. intros R Hi. eapply cutn_mem_yields; [apply Hok|done|done].
Qed.

Lemma return_cached_blocks_spec w b hd ch tc R : cache w hd ch tc R ->
  exists w', return_cached_blocks (mkPortal b hd) w = Some (mkPortal b None, w') /\ inv w' R /\ stable w w' R.
Proof.
  intros Hca. pose proof Hca as [Hi Hn Hc Hnd _]. unfold return_cached_blocks. cbn [_block _buf]. destruct hd as [k|].
  - destruct (release_tls_block_chain_spec w tc ch R k Hi Hn Hc Hnd) as (w' & Heq & Hi' & Hst). exists w'. unfold mbind', mret. rewrite Heq. done.
  - destruct ch; [|by destruct Hc]. exists w. split; [done|]. split; [by exists tc|apply stable_refl].
Qed.
Lemma return_portal_spec w p bs rs : portal_ok w p bs rs ->
  exists w', return_cached_blocks p w = Some (mkPortal (_buf p) None, w') /\ holds w' (_buf p) bs /\ inv w' (owned (_buf p) ++ rs) /\ stable w w' rs.
Proof.
  intros (Hh & ch & tc & Hca). destruct p as [b hd]. destruct (return_cached_blocks_spec w b hd ch tc _ Hca) as (w' & Heq & Hi & Hst).
  exists w'. split; [done|]. cbn [_buf] in *. split; [eapply holds_stable; [exact Hst| |done]; set_solver|]. split; [done|]. eapply stable_sub; [|exact Hst]. set_solver.
Qed.

(** [clear] and the destructor give everything back. *)
Lemma portal_clear_spec w p bs rs : portal_ok w p bs rs ->
  exists p' w', clear p w = Some (p', w') /\ portal_ok w' p' [] rs /\ _block p' = None /\ stable w w' rs.
Proof.
  intros Hok. destruct (portal_remove (View.clear (_buf p)) (fun b => b) w p bs rs []) as (b1 & w1 & Heq1 & Hok1 & Hst1); [|done|].
  { intros R Hi. exists IOBuf_empty. eapply clear_yields; [apply Hok|done]. }
  destruct (return_portal_spec _ _ _ _ Hok1) as (w2 & Heq2 & Hh2 & Hi2 & Hst2). eexists _, w2. unfold clear. unfold mbind' at 1. rewrite Heq1, Heq2.
  split; [done|]. split; [split; [done|exists []; by apply cache_none]|]. split; [done|by eapply stable_trans].
Qed.
Lemma portal_delete_spec w p bs rs : portal_ok w p bs rs -> exists w', Portal_delete p w = Some (tt, w') /\ inv w' rs /\ stable w w' rs.
Proof.
  intros Hok. destruct (return_portal_spec _ _ _ _ Hok) as (w1 & Heq1 & Hh1 & Hi1 & Hst1). unfold Portal_delete. unfold mbind' at 1. rewrite Heq1.
  destruct (clear_yields w1 _ bs rs Hh1 Hi1) as (w2 & Heq2 & _ & Hi2 & Hst2). exists w2. unfold mbind', mret. cbn [_buf]. rewrite Heq2.
  split; [done|]. split; [exact Hi2|by eapply stable_trans].
Qed.

(** What [ReadV] promises: bytes that fit the vectors, or a number that is not
    positive. *)
Class ReaderOk (R : Type) `{Reader R} : Prop := {
  read_fits (lens : list Z) (rd : R) d rd' : ReadV lens rd = (inr d, rd') -> 0 < len d <= foldr Z.add 0 lens;
  read_fails (lens : list Z) (rd : R) nr rd' : ReadV lens rd = (inl nr, rd') -> nr <= 0 }.
Ltac sub_app := intros ?; repeat first [rewrite elem_of_app | rewrite elem_of_cons]; tauto.
Section Reading.
Context `{Env} {R : Type} `{ReaderOk R}.

(** The answer of [append_from_reader], the bytes that were added and the reader that is
    left: no memory, or what the reader says to vectors of [max_count] bytes at most. *)
Inductive read_answer (max_count : Z) (rd : R) : Z -> list Z -> R -> Prop :=
| read_no_memory : (~ forall b, malloc_ok b = true) -> read_answer max_count rd (-1) [] rd
| read_nothing lens nr rd' : ReadV lens rd = (inl nr, rd') -> lens <> [] -> foldr Z.add 0 lens <= max_count -> (0 < max_count -> 0 < foldr Z.add 0 lens) ->
    read_answer max_count rd nr [] rd'
| read_bytes lens d rd' : ReadV lens rd = (inr d, rd') -> lens <> [] -> foldr Z.add 0 lens <= max_count -> (0 < max_count -> 0 < foldr Z.add 0 lens) ->
    read_answer max_count rd (len d) d rd'.
Lemma capacity_sum vec : foldr Z.add 0 (iov_len <$> vec) = capacity_of vec.
Proof. induction vec as [|v vec IH]; [done|]. cbn. rewrite IH. done. Qed.

Lemma portal_read_spec w p bs rs rd max_count : portal_ok w p bs rs -> 0 <= max_count -> 2 * (len bs + max_count) < limit ->
  exists nr p' rd' w' d, append_from_reader p max_count rd w = Some ((nr, p', rd'), w') /\ read_answer max_count rd nr d rd' /\
    portal_ok w' p' (bs ++ d) rs /\ stable w w' rs /\ (nr <= 0 -> d = []) /\ (0 < nr -> nr = len d).
Proof.
  intros (Hh & ch & tc & Hca) Hmax Hlim. pose proof (ca_chain _ _ _ _ _ Hca) as Hch. assert (head ch = _block p) as Hhd by (destruct ch; cbn in *; [done|]; by destruct Hch as [-> _]).
  destruct (prepare_spec MAX_APPEND_IOVEC w (_block p) [] ch tc (owned (_buf p) ++ rs) 0 max_count) as (res & hd1 & w1 & Heq1 & Hst1 & _ & ch1 & tc1 & Hca1 & _ & Hres); [done|unfold MAX_APPEND_IOVEC; lia|lia|].
  rewrite Hhd in Heq1. cbn [last app] in *. unfold append_from_reader. unfold mbind' at 1. rewrite Heq1.
  assert (holds w1 (_buf p) bs) as Hh1 by (eapply holds_stable; [exact Hst1|sub_app|exact Hh]). assert (stable w w1 rs) as Hst1' by (eapply stable_sub; [|exact Hst1]; sub_app).
  destruct res as [vec|].
  2:{ exists (-1), (mkPortal (_buf p) hd1), rd, w1, []. split; [done|]. split; [by constructor|]. rewrite app_nil_r. split; [split; [done|]; by exists ch1, tc1|]. split; [done|]. split; [done|lia]. }
  destruct Hres as (Hne & Hvec & Hle & Hpos & _). rewrite Z.add_0_l in Hle. set (lens := iov_len <$> vec). assert (foldr Z.add 0 lens = capacity_of vec) as Hsum by apply capacity_sum.
  assert (lens <> []) as Hlens by (by destruct vec). destruct (ReadV lens rd) as [[nr|d] rd'] eqn:Hrd.
  - assert (nr <= 0) by (by eapply read_fails). assert (read_answer max_count rd nr [] rd') as Ha by (eapply read_nothing; [done|done|lia|lia]). cbn [_buf].
    destruct (empty (_buf p)).
    + destruct (return_portal_spec w1 (mkPortal (_buf p) hd1) bs rs) as (w2 & Heq2 & Hh2 & Hi2 & Hst2); [split; [done|]; by exists ch1, tc1|]. unfold mbind'. rewrite Heq2.
      eexists _, _, _, w2, []. split; [done|]. split; [exact Ha|]. rewrite app_nil_r. split; [split; [done|exists []; by apply cache_none]|]. split; [by eapply stable_trans|]. split; [done|lia].
    + eexists _, _, _, w1, []. split; [done|]. split; [exact Ha|]. rewrite app_nil_r. split; [split; [done|by exists ch1, tc1]|]. split; [done|]. split; [done|lia].
  - destruct (read_fits _ _ _ _ Hrd) as [Hd0 Hd1]. rewrite Hsum in Hd1.
    destruct (scatter_spec w1 hd1 [] ch1 tc1 _ vec d Hca1 Hvec Hd1) as (w2 & Heq2 & Hca2 & Hst2 & Hf2 & _). cbn [app] in *. unfold mbind' at 1. rewrite Heq2.
    destruct (commit_spec (S (Datatypes.length d)) w2 (_buf p) bs hd1 ch1 tc1 rs d Hca2) as (b' & hd' & ch' & w3 & Heq3 & Hh3 & Hca3 & _ & Hst3 & _); [|done| |lia|lia|].
    { eapply holds_stable; [exact Hst2| |done]. sub_app. } { intros ->. cbn in Hd0. lia. }
    unfold mbind'. rewrite Heq3. eexists _, _, _, w3, d. split; [done|]. split; [eapply read_bytes; [done|done|lia|lia]|]. split; [split; [done|by exists ch', tc1]|].
    split; [|split; [intros; lia|done]]. eapply stable_trans; [exact Hst1'|]. eapply stable_trans; [|exact Hst3]. eapply stable_sub; [|exact Hst2]. sub_app.
Qed.
End Reading.

(** ** Reading from an SSL channel *)
Class SSLOk (T : Type) `{SSL T} : Prop := {
  ssl_fits n (ssl : T) d ssl' : SSL_read n ssl = (inr d, ssl') -> 0 < len d <= n;
  ssl_fails n (ssl : T) f ssl' : SSL_read n ssl = (inl f, ssl') -> ssl_rc f <= 0 }.
(** The answer after [done_] bytes: all of them, or an error that says nothing of them. *)
Inductive ssl_answer (done_ max_count : Z) : Z -> Z -> Prop :=
| ssl_full : max_count <= done_ -> ssl_answer done_ max_count done_ SSL_ERROR_NONE
| ssl_some err : 0 < done_ -> ssl_answer done_ max_count done_ err
| ssl_none rc err : done_ = 0 -> rc <= 0 -> ssl_answer done_ max_count rc err
| ssl_fatal rc err : rc < 0 -> err <> SSL_ERROR_WANT_READ -> ssl_answer done_ max_count rc err.
Section SSLReading.
Context `{Env} {T : Type} `{SSLOk T}.
(** A block to read into. *)
Lemma ssl_block_spec w p bs rs : portal_ok w p bs rs ->
  exists hd w', (match _block p with Some _ => mret p | None => let* q := acquire_tls_block in mret (mkPortal (_buf p) q) end) w = Some (mkPortal (_buf p) hd, w') /\
    portal_ok w' (mkPortal (_buf p) hd) bs rs /\ stable w w' rs.
Proof.
  intros (Hh & ch & tc & Hca). destruct p as [b hd]. cbn [_block _buf] in *. destruct (next_block_spec w hd [] ch tc _ Hca) as (p' & hd' & w' & Heq & Hst & _ & Hp).
  assert (holds w' b bs) as Hh' by (eapply holds_stable; [exact Hst|sub_app|exact Hh]). assert (stable w w' rs) as Hst' by (eapply stable_sub; [|exact Hst]; sub_app).
  pose proof (ca_chain _ _ _ _ _ Hca) as Hch. destruct ch as [|k t]; cbn [app is_chain head last] in *.
  - rewrite Hch in *. unfold mbind', mret in *. destruct (acquire_tls_block w) as [[q w1]|]; [|done]. destruct q as [k|].
    + injection Heq as <- <- <-. destruct Hp as (t & tc' & Hca' & _). exists (Some k), w1. split; [done|]. split; [split; [done|by exists (k :: t), tc']|done].
    + injection Heq as <- <- <-. destruct Hp as ((tc' & Hca') & _). exists None, w1. split; [done|]. split; [split; [done|by exists [], tc']|done].
  - destruct Hch as [-> _]. exists (Some k), w. split; [done|]. split; [split; [done|by exists (k :: t), tc]|apply stable_refl].
Qed.
Lemma ssl_loop_spec fuel w p bs rs ssl max_count nr : portal_ok w p bs rs -> 0 <= nr <= max_count -> (Z.to_nat (max_count - nr) < fuel)%nat -> 2 * (len bs + (max_count - nr)) < limit ->
  exists ret err p' ssl' w' d, append_from_SSL_loop fuel p max_count nr ssl w = Some ((ret, err, p', ssl'), w') /\ portal_ok w' p' (bs ++ d) rs /\ stable w w' rs /\
    nr + len d <= max_count /\ ssl_answer (nr + len d) max_count ret err.
Proof.
  revert w p bs ssl nr. induction fuel as [|fuel IH]; intros w p bs ssl nr Hok Hnr Hfuel Hlim; [lia|]. cbn [append_from_SSL_loop].
  destruct (ssl_block_spec w p bs rs Hok) as (hd & w1 & Heq1 & Hok1 & Hst1). unfold mbind' at 1. rewrite Heq1. cbn [_block]. destruct hd as [k|].
  2:{ eexists _, _, _, _, w1, []. rewrite app_nil_r. split; [done|]. split; [exact Hok1|]. split; [done|]. split; [cbn; lia|]. by apply ssl_fatal. }
  pose proof Hok1 as (Hh & ch & tc & Hca). pose proof (ca_chain _ _ _ _ _ Hca) as Hch. cbn [_block _buf] in *. destruct ch as [|k' t]; [done|]. destruct Hch as [[= <-] _].
  destruct (cache_alive _ _ _ _ _ k Hca) as [blk Hb]; [left|]. pose proof (room_left _ _ _ _ _ k blk Hca ltac:(left) Hb) as Hroom.
  destruct (inv_block _ _ _ _ (ca_inv _ _ _ _ _ Hca) k blk Hb) as (Hbok & _). pose proof Hbok as (Hsz & Hcap & _). pose proof (left_space_ok _ Hbok) as Hls.
  unfold mbind' at 1, load at 1. rewrite Hb. cbn [fmap option_fmap option_map].
  destruct (SSL_read (Z.min (left_space blk) (max_count - nr)) ssl) as [[f|d] ssl'] eqn:Hrd.
  - pose proof (ssl_fails _ _ _ _ Hrd) as Hrc. match goal with |- context [if ?c then mret (ssl_rc f, _, _, _) else _] => destruct c eqn:Hc end.
    + eexists _, _, _, _, w1, []. rewrite app_nil_r. split; [done|]. split; [exact Hok1|]. split; [done|]. split; [cbn; lia|]. apply andb_true_iff in Hc as [Hneg Hag].
      apply ssl_fatal; [by apply Z.ltb_lt|]. intros He. rewrite He in Hag. done.
    + eexists _, _, _, _, w1, []. rewrite app_nil_r. split; [done|]. split; [exact Hok1|]. split; [done|]. split; [cbn; lia|]. cbn. rewrite Z.add_0_r.
      destruct (Z.ltb_spec 0 nr) as [Hp|Hp]; [by apply ssl_some|apply ssl_none; lia].
  - destruct (ssl_fits _ _ _ _ Hrd) as [Hd0 Hd1].
    destruct (scatter_spec w1 (Some k) [] (k :: t) tc _ [mkVec k (size blk) (Z.min (left_space blk) (max_count - nr))] d Hca) as (w2 & Heq2 & Hca2 & Hst2 & Hf2 & _).
    { cbn. split; [done|]. split; [|done]. exists blk. split; [done|]. split; [done|]. split; [lia|done]. } { cbn. lia. }
    cbn [scatter iov_block iov_base iov_len app] in Heq2, Hca2, Hst2. rewrite take_ge in Heq2 by lia. unfold mbind' at 1 in Heq2. destruct (write_at k (size blk) d w1) as [[[] w2']|] eqn:Hwr; [|done].
    injection Heq2 as ->. destruct (written_block w1 k blk d w2 Hb Hwr) as (d2 & Hb2). destruct (commit_turn w2 (_buf p) bs (Some k) k t tc rs d (set_data d2 blk) Hca2) as
      (b' & w3 & w4 & w5 & next & ch' & blk' & Hpush & Hmod & Hk4 & Hnext & Hh5 & Hca5 & _ & Hst5 & _); [eapply holds_stable; [exact Hst2|sub_app|exact Hh]|exact Hf2|exact Hb2| | |].
    { change (left_space (set_data d2 blk)) with (left_space blk). lia. } { change (left_space (set_data d2 blk)) with (left_space blk). lia. }
    change (left_space (set_data d2 blk)) with (left_space blk) in *. change (size (set_data d2 blk)) with (size blk) in *. rewrite Z.min_l in Hpush, Hmod, Hh5 by lia. rewrite take_ge in Hh5 by lia.
    unfold mbind' at 1. rewrite Hwr. rewrite (u32_small (size blk)), (u32_small (len d)) by lia. unfold mbind' at 1. rewrite Hpush. unfold mbind' at 1. rewrite Hmod.
    unfold mbind' at 1, load at 1. rewrite Hk4. cbn [fmap option_fmap option_map]. unfold mbind' at 1. rewrite Hnext.
    assert (portal_ok w5 (mkPortal b' next) (bs ++ d) rs) as Hok5 by (split; [done|by exists ch', tc]).
    assert (stable w w5 rs) as Hst by (eapply stable_trans; [exact Hst1|]; eapply stable_trans; [|exact Hst5]; eapply stable_sub; [|exact Hst2]; sub_app).
    destruct (Z.ltb_spec (nr + len d) max_count) as [Hlt|Hge].
    + destruct (IH w5 (mkPortal b' next) (bs ++ d) ssl' (nr + len d) Hok5) as (ret & err & p' & ssl2 & w6 & d6 & Heq6 & Hok6 & Hst6 & Hle6 & Ha6); [lia|lia|rewrite length_app; lia|].
      rewrite <- app_assoc in Hok6. eexists _, _, _, _, w6, (d ++ d6). split; [exact Heq6|]. split; [done|]. split; [by eapply stable_trans|]. rewrite length_app, Nat2Z.inj_add, Z.add_assoc. done.
    + eexists _, _, _, _, w5, d. split; [done|]. split; [done|]. split; [done|]. split; [lia|by apply ssl_full].
Qed.
(** [append_from_SSL_channel] returns: the bytes it read are at the end of the portal, a
    positive result is their number, and a caller that is told to try again after an
    error has received none. *)
Theorem ssl_appends_what_was_read w p bs rs ssl max_count : portal_ok w p bs rs -> 0 <= max_count -> 2 * (len bs + max_count) < limit ->
  exists ret err p' ssl' w' d, append_from_SSL_channel p max_count ssl w = Some ((ret, err, p', ssl'), w') /\ portal_ok w' p' (bs ++ d) rs /\ stable w w' rs /\
    len d <= max_count /\ (0 < ret -> ret = len d) /\ (ret < 0 -> err = SSL_ERROR_WANT_READ -> d = []).
Proof.
  intros Hok Hmax Hlim. destruct (ssl_loop_spec (S (Z.to_nat max_count)) w p bs rs ssl max_count 0 Hok) as (ret & err & p' & ssl' & w' & d & Heq & Hok' & Hst & Hle & Ha); [lia|lia|lia|].
  exists ret, err, p', ssl', w', d. do 4 (split; [done|]). rewrite Z.add_0_l in Ha.
  inversion Ha as [Hf|? Hp|? ? Hz Hrc|? ? Hrc Hne]; subst; (split; [intros; lia|intros Hneg Hw]); [lia|lia| |done]. destruct d; [done|cbn in Hz; lia].
Qed.
End SSLReading.

(** ** Sessions *)
Inductive portal_op := PRead (max_count : Z) | PPopFront (n : Z) | PCutn (n : Z) | PClear.
Inductive portal_ans := PReadAns (nr : Z) | PCount (n : Z) | PBytes (n : Z) (s : list Z) | PDone.
Section Sessions.
Context `{Env} {R : Type} `{ReaderOk R}.
Definition pexec (o : portal_op) (p : Portal) (rd : R) : M World (portal_ans * Portal * R) :=
  match o with
  | PRead max_count => let* (nr, p', rd') := append_from_reader p max_count rd in mret (PReadAns nr, p', rd')
  | PPopFront n => let* (m, b') := IOBuf.pop_front (_buf p) n in mret (PCount m, mkPortal b' (_block p), rd)
  | PCutn n => let* (m, s, b') := IOBuf.cutn_mem (_buf p) n in mret (PBytes m s, mkPortal b' (_block p), rd)
  | PClear => let* p' := clear p in mret (PDone, p', rd)
  end.
Fixpoint prun (os : list portal_op) (p : Portal) (rd : R) : M World (list portal_ans * Portal * R) :=
  match os with
  | [] => mret ([], p, rd)
  | o :: os => let* (a, p1, rd1) := pexec o p rd in let* (l, p2, rd2) := prun os p1 rd1 in mret (a :: l, p2, rd2)
  end.
(** The queue of bytes: at its end goes what the reader gives. *)
Inductive queue_step : portal_op -> list Z -> R -> portal_ans -> list Z -> R -> Prop :=
| queue_read max_count bs rd nr d rd' : read_answer max_count rd nr d rd' -> queue_step (PRead max_count) bs rd (PReadAns nr) (bs ++ d) rd'
| queue_pop n bs rd : queue_step (PPopFront n) bs rd (PCount (Z.min n (len bs))) (drop (Z.to_nat n) bs) rd
| queue_cut n bs rd : queue_step (PCutn n) bs rd (PBytes (Z.min n (len bs)) (take (Z.to_nat n) bs)) (drop (Z.to_nat n) bs) rd
| queue_clear bs rd : queue_step PClear bs rd PDone [] rd.
Inductive queue_steps : list portal_op -> list Z -> R -> list portal_ans -> list Z -> R -> Prop :=
| queue_steps_nil bs rd : queue_steps [] bs rd [] bs rd
| queue_steps_cons o os bs rd a bs1 rd1 l bs2 rd2 : queue_step o bs rd a bs1 rd1 -> queue_steps os bs1 rd1 l bs2 rd2 ->
    queue_steps (o :: os) bs rd (a :: l) bs2 rd2.
(** Counts are not negative, and what can be read at all is within the bounds of a
    buffer. *)
Definition portal_op_bytes (o : portal_op) : Z := match o with PRead n => n | _ => 0 end.
Definition portal_op_ok (o : portal_op) : Prop := match o with PRead n | PPopFront n | PCutn n => 0 <= n | PClear => True end.
Definition bytes_asked (os : list portal_op) : Z := foldr (fun o z => portal_op_bytes o + z) 0 os.

Lemma read_answer_len max_count rd nr d rd' : read_answer max_count rd nr d rd' -> 0 <= max_count -> len d <= max_count.
Proof. intros Ha Hm. inversion Ha as [|lens ? ? Hr ? Hle|lens ? ? Hr ? Hle]; subst; cbn; [lia|lia|]. destruct (read_fits _ _ _ _ Hr). lia. Qed.
Lemma pexec_spec o w p bs rs rd : portal_ok w p bs rs -> portal_op_ok o -> 2 * (len bs + portal_op_bytes o) < limit ->
  exists a p' rd' w' bs', pexec o p rd w = Some ((a, p', rd'), w') /\ queue_step o bs rd a bs' rd' /\ portal_ok w' p' bs' rs /\ stable w w' rs /\
    len bs' <= len bs + portal_op_bytes o.
Proof.
  intros Hok Ho Hlim. destruct o as [m|n|n|]; cbn [portal_op_ok portal_op_bytes pexec] in *.
  - destruct (portal_read_spec w p bs rs rd m Hok Ho Hlim) as (nr & p' & rd' & w' & d & Heq & Ha & Hok' & Hst & _). pose proof (read_answer_len _ _ _ _ _ Ha Ho).
    unfold mbind'. rewrite Heq. eexists _, _, _, w', _. split; [done|]. split; [by apply queue_read|]. split; [done|]. split; [done|]. rewrite length_app. lia.
  - destruct (portal_pop_front_spec w p bs rs n Hok Ho) as (b' & w' & Heq & Hok' & Hst). unfold mbind'. rewrite Heq. eexists _, _, _, w', _. split; [done|].
    split; [apply queue_pop|]. split; [done|]. split; [done|]. rewrite length_drop. lia.
  - destruct (portal_cutn_mem_spec w p bs rs n Hok Ho) as (b' & w' & Heq & Hok' & Hst). unfold mbind'. rewrite Heq. eexists _, _, _, w', _. split; [done|].
    split; [apply queue_cut|]. split; [done|]. split; [done|]. rewrite length_drop. lia.
  - destruct (portal_clear_spec w p bs rs Hok) as (p' & w' & Heq & Hok' & _ & Hst). unfold mbind'. rewrite Heq. eexists _, _, _, w', _. split; [done|].
    split; [apply queue_clear|]. split; [done|]. split; [done|]. cbn. lia.
Qed.

Lemma prun_spec os w p bs rs rd : portal_ok w p bs rs -> Forall portal_op_ok os -> 2 * (len bs + bytes_asked os) < limit ->
  exists l p' rd' w' bs', prun os p rd w = Some ((l, p', rd'), w') /\ queue_steps os bs rd l bs' rd' /\ portal_ok w' p' bs' rs /\ stable w w' rs.
Proof.
  revert w p bs rd. induction os as [|o os IH]; intros w p bs rd Hok Hos Hlim; cbn [prun].
  { eexists _, _, _, w, _. split; [done|]. split; [constructor|]. split; [done|apply stable_refl]. }
  apply Forall_cons in Hos as [Ho Hos]. assert (0 <= bytes_asked os) as Hpos.
  { clear -Hos. induction Hos as [|o os Ho Hos IH]; [done|]. cbn. fold (bytes_asked os). destruct o; cbn in *; lia. }
  cbn in Hlim. fold (bytes_asked os) in Hlim.
  destruct (pexec_spec o w p bs rs rd Hok Ho) as (a & p1 & rd1 & w1 & bs1 & Heq1 & Hq1 & Hok1 & Hst1 & Hlen1); [lia|].
  destruct (IH w1 p1 bs1 rd1 Hok1 Hos) as (l & p2 & rd2 & w2 & bs2 & Heq2 & Hq2 & Hok2 & Hst2); [lia|].
  unfold mbind'. rewrite Heq1, Heq2. eexists _, _, _, w2, _. split; [done|]. split; [by econstructor|]. split; [done|by eapply stable_trans].
Qed.
End Sessions.

(** C20: A portal is a queue of bytes: whatever a reader answers, each [append_from_reader]
    adds exactly the bytes that were read to its end, or nothing when the reader fails or
    there is no memory; popping and cutting takes them from its front in order; and its
    destructor returns every reference the portal took, the cached blocks included. *)
Theorem portal_is_a_queue `{Env} {R} `{ReaderOk R} os w rs (rd : R) :
  inv w rs -> Forall portal_op_ok os -> 2 * bytes_asked os < limit ->
  exists l p' rd' w' bs', prun os Portal_new rd w = Some ((l, p', rd'), w') /\ queue_steps os [] rd l bs' rd' /\ holds w' (_buf p') bs' /\
    exists w2, Portal_delete p' w' = Some (tt, w2) /\ inv w2 rs /\ stable w w2 rs.
Proof.
  intros Hi Hos Hlim. destruct (prun_spec os w Portal_new [] rs rd (portal_new_ok w rs Hi) Hos) as (l & p' & rd' & w' & bs' & Heq & Hq & Hok & Hst); [cbn; lia|].
  destruct (portal_delete_spec w' p' bs' rs Hok) as (w2 & Hd & Hi2 & Hst2). exists l, p', rd', w', bs'. split; [done|]. split; [done|]. split; [apply Hok|].
  exists w2. split; [done|]. split; [done|by eapply stable_trans].
Qed.
(** A reader of chunks: each read gives the next chunk, cut to what fits; the end is 0. *)
Definition Chunks : Type := list (list Z).
#[global] Instance chunks_reader : Reader Chunks := fun lens rd =>
  match rd with
  | (x :: c) :: rd' =>
      let n := Z.to_nat (foldr Z.add 0 lens) in
      match take n (x :: c) with [] => (inl 0, rd) | d => (inr d, match drop n (x :: c) with [] => rd' | c' => c' :: rd' end) end
  | _ => (inl 0, rd)
  end.
#[global] Instance chunks_reader_ok : ReaderOk Chunks.
Proof.
  split; intros lens rd d rd'; unfold ReadV, chunks_reader; destruct rd as [|[|x c] rd]; try done; try (by intros [= <- _]).
  - destruct (take _ (x :: c)) as [|y t] eqn:Ht; [done|]. intros [= <- _]. rewrite <- Ht, length_take. apply (f_equal Datatypes.length) in Ht. rewrite length_take in Ht. cbn in Ht |- *. lia.
  - destruct (take _ (x :: c)) as [|y t] eqn:Ht; [|done]. by intros [= <- _].
Qed.
Definition portal_session : list portal_op := [PRead 4; PCutn 2; PRead 100; PPopFront 1; PRead 5].
Definition portal_chunks : Chunks := [[1; 2; 3; 4; 5; 6]; [7]].
Example portal_session_answers :
  (fun x => x.1.1.1) <$> prun (H := plenty) portal_session Portal_new portal_chunks w0 =
  Some [PReadAns 4; PBytes 2 [1; 2]; PReadAns 2; PCount 1; PReadAns 1].
Proof. vm_compute. reflexivity. Qed.
Lemma portal_is_a_queue_witness : exists p' rd' w' bs',
  prun (H := plenty) portal_session Portal_new portal_chunks w0 = Some (([PReadAns 4; PBytes 2 [1; 2]; PReadAns 2; PCount 1; PReadAns 1], p', rd'), w') /\ holds w' (_buf p') bs'.
Proof.
  destruct (portal_is_a_queue (H := plenty) portal_session w0 [] portal_chunks) as (l & p' & rd' & w' & bs' & Heq & _ & Hh & _);
    [apply inv_w0|repeat constructor; done|done|]. pose proof portal_session_answers as Hl. rewrite Heq in Hl. injection Hl as ->.
  exists p', rd', w', bs'. exact (conj Heq Hh).
Defined.
End IOPortal.
