(* ===== verification/IOBufShrink.v ===== *)
(** * Cutting takes references from the front

    Whatever is cut from a buffer, the references that are left are a suffix of those that
    were there, the first of them possibly shortened. *)
From stdpp Require Import base list gmap.
From Stdlib Require Import ZArith Lia Bool.
From S2P Require Import Prelude IOBufBlock IOBufView IOBuf IOBufCutter IOBufFrame.

Open Scope Z_scope.
Open Scope m_scope.

Module IOBufShrink.
Import Block View IOBuf IOBufFrame.

Definition shrunk (b b' : buffer) : Prop := forall l, repr b l ->
  exists l', repr b' l' /\ map block l' `suffix_of` map block l /\ total l' <= total l.
#[global] Instance shrunk_preorder : PreOrder shrunk.
Proof.
  split.
  - intros b l Hr. exists l. split; [done|]. split; [reflexivity|lia].
  - intros b1 b2 b3 H12 H23 l Hr. destruct (H12 l Hr) as (l2 & Hr2 & Hs2 & Ht2). destruct (H23 l2 Hr2) as (l3 & Hr3 & Hs3 & Ht3).
    exists l3. split; [done|]. split; [by etrans|lia].
Qed.
Lemma shrunk_owned b b' l : shrunk b b' -> repr b l -> owned b' ⊆ owned b /\ total (view_list b') <= total (view_list b).
Proof.
  intros Hs Hr. destruct (Hs l Hr) as (l' & Hr' & [t Hsuf] & Ht). rewrite (owned_repr _ _ Hr), (owned_repr _ _ Hr'), (repr_view_list _ _ Hr), (repr_view_list _ _ Hr'). split; [|done].
  intros x Hx. unfold ids in *. apply list_elem_of_omap in Hx as (r & Hin & Hb). apply list_elem_of_omap.
  assert (Some x ∈ map block l) as Hm by (rewrite Hsuf; apply elem_of_app; right; rewrite <- Hb; by apply list_elem_of_fmap_2). apply list_elem_of_fmap in Hm as (r0 & Hr0 & Hin0). by exists r0.
Qed.

Lemma bind_inv {S A B} (c : M S A) (k : A -> M S B) s r : mbind' c k s = Some r -> exists a s1, c s = Some (a, s1) /\ k a s1 = Some r.
Proof. unfold mbind'. destruct (c s) as [[a s1]|]; [|done]. by exists a, s1. Qed.
(** Takes a run of [H] apart, bind by bind. *)
Ltac inv_bind H := let a := fresh "a" in let s := fresh "s" in let E := fresh "E" in apply bind_inv in H as (a & s & E & H).

Lemma pop_ref_shrunk MOVEOUT b w rc b' w' : _pop_or_moveout_front_ref MOVEOUT b w = Some ((rc, b'), w') -> shrunk b b'.
Proof.
  intros Hp l Hr. destruct l as [|r l].
  { rewrite (pop_front_empty_spec MOVEOUT b w Hr) in Hp. injection Hp as _ <- _. exists []. split; [done|]. split; [reflexivity|done]. }
  destruct (moveout_front_spec b r l Hr) as (b1 & Hr1 & Hmv). specialize (Hmv w). pose proof (repr_shape _ _ Hr) as [(_ & Hlr & _) _]%Forall_cons.
  exists l. split; [|split; [by exists [block r]|change (total (r :: l)) with (length r + total l); lia]]. enough (b' = b1) as -> by done.
  unfold _moveout_front_ref, _pop_or_moveout_front_ref in *. pose proof (front_ref_spec _ _ Hr r l eq_refl) as Hfront. destruct b as [r0 r1|bv]; cbn in Hfront.
  - injection Hfront as ->. destruct (nonnull r); [|done]. injection Hmv as <-. inv_bind Hp. by injection Hp as _ <- _.
  - unfold mlift in *. rewrite Hfront in *. unfold mbind' at 1 in Hmv. unfold mbind' at 1 in Hp. cbn [fmap option_fmap option_map] in *. rewrite (bind_run _ _ w tt w) in Hmv by done. inv_bind Hp.
    destruct (2 <? _); [unfold mret in *; congruence|]. unfold mbind' in *. destruct (refs bv !! _); [|done]. cbn [fmap option_fmap option_map] in *.
    destruct (refs bv !! _); [|done]. cbn [fmap option_fmap option_map] in *. unfold mret in *. congruence.
Qed.
Lemma skip_shrunk b r n w w' : front_ref b w = Some (r, w') -> 0 <= n < length r -> shrunk b (set_front_ref b (ref_skip r n) n).
Proof.
  intros Hf Hn l Hr. unfold front_ref, mlift in Hf. destruct l as [|r0 l]; [rewrite (repr_small _ _ Hr) in Hf by (cbn; lia); injection Hf as <- _; cbn in Hn; lia|].
  rewrite (front_ref_spec _ _ Hr r0 l eq_refl) in Hf. injection Hf as -> _. pose proof (repr_shape _ _ Hr) as [(Ho & Hl & H31 & Hb) _]%Forall_cons.
  assert (length (ref_skip r n) = length r - n) as Hlen by (unfold ref_skip; cbn [length]; by rewrite u32_small by lia).
  exists (ref_skip r n :: l). split; [apply (set_front_spec b r l); [done| |done|lia]|split; [reflexivity|]].
  2:{ change (total (r :: l)) with (length r + total l). change (total (ref_skip r n :: l)) with (length (ref_skip r n) + total l). lia. }
  unfold ref_shape. rewrite Hlen. unfold ref_skip. cbn [offset block]. rewrite u32_small by lia. split_and!; lia || done.
Qed.
Lemma cutn_loop_shrunk fuel b out n w b' out' w' : cutn_loop fuel b out n w = Some ((b', out'), w') -> 0 <= n -> shrunk b b'.
Proof.
  revert b out n w. induction fuel as [|fuel IH]; intros b out n w; cbn [cutn_loop]; destruct (Z.eqb_spec n 0); [by intros [= <- _ _]|done|by intros [= <- _ _]|]. intros Hrun Hn. inv_bind Hrun.
  destruct (Z.leb_spec (length a) n).
  - inv_bind Hrun. inv_bind Hrun. destruct a1 as [rc b1]. transitivity b1; [by eapply pop_ref_shrunk|]. eapply IH; [exact Hrun|lia].
  - inv_bind Hrun. injection Hrun as <- _ _. eapply skip_shrunk; [exact E|lia].
Qed.
Lemma cutn_mem_loop_shrunk fuel b out n w out' b' w' : cutn_mem_loop fuel b out n w = Some ((out', b'), w') -> 0 <= n -> shrunk b b'.
Proof.
  revert b out n w. induction fuel as [|fuel IH]; intros b out n w; cbn [cutn_mem_loop]; destruct (Z.eqb_spec n 0); [by intros [= _ <- _]|done|by intros [= _ <- _]|]. intros Hrun Hn. inv_bind Hrun.
  destruct (Z.leb_spec (length a) n).
  - inv_bind Hrun. inv_bind Hrun. destruct a1 as [rc b1]. transitivity b1; [by eapply pop_ref_shrunk|]. eapply IH; [exact Hrun|lia].
  - inv_bind Hrun. injection Hrun as _ <- _. eapply skip_shrunk; [exact E|lia].
Qed.
Lemma clipped_nonneg b l n : repr b l -> 0 <= n -> 0 <= (if length_ b <? n then length_ b else n).
Proof. intros Hr Hn. rewrite (length_spec _ _ Hr). pose proof (total_nonneg _ (repr_shape _ _ Hr)). by destruct (_ <? _). Qed.
Lemma cutn_shrunk b out n w m b' out' w' : cutn b out n w = Some ((m, b', out'), w') -> 0 <= n -> shrunk b b'.
Proof.
  unfold cutn. intros Hrun Hn l Hr. inv_bind Hrun. destruct a as [b1 out1]. injection Hrun as _ -> _ _. eapply cutn_loop_shrunk; [exact E|by eapply clipped_nonneg|exact Hr].
Qed.
Lemma cutn_mem_shrunk b n w m s b' w' : cutn_mem b n w = Some ((m, s, b'), w') -> 0 <= n -> shrunk b b'.
Proof.
  unfold cutn_mem. intros Hrun Hn l Hr. inv_bind Hrun. destruct a as [s1 b1]. injection Hrun as _ _ -> _. eapply cutn_mem_loop_shrunk; [exact E|by eapply clipped_nonneg|exact Hr].
Qed.

(** ** The cutter *)
Section Cutter.
Context (c : IOBufCutter.Cutter).
Lemma drop_current_shrunk b w b' w' :
  match IOBufCutter._block c with Some _ => let* (_, b') := _pop_front_ref b in mret b' | None => mret b end w = Some (b', w') -> shrunk b b'.
Proof.
  destruct (IOBufCutter._block c); [|by intros [= <- _]]. intros Hrun. inv_bind Hrun. destruct a as [rc b1]. injection Hrun as <- _. by eapply pop_ref_shrunk.
Qed.
Lemma load_next_shrunk b w ok b' c' w' : IOBufCutter.load_next_ref b c w = Some ((ok, b', c'), w') -> shrunk b b'.
Proof.
  unfold IOBufCutter.load_next_ref. intros Hrun. inv_bind Hrun. apply drop_current_shrunk in E. destruct (_ =? 0); [by injection Hrun as _ <- _ _|]. inv_bind Hrun. by injection Hrun as _ <- _ _.
Qed.
Lemma cut1_shrunk b w o b' c' w' : IOBufCutter.cut1 b c w = Some ((o, b', c'), w') -> shrunk b b'.
Proof.
  unfold IOBufCutter.cut1, IOBufCutter.fetch1. intros Hrun. inv_bind Hrun. destruct a as [[o1 b1] c1]. injection Hrun as _ -> _ _. inv_bind E. destruct a as [[ok b2] c2].
  assert (shrunk b b2) as Hs by (destruct (_ =? _); [by eapply load_next_shrunk|by injection E0 as _ <- _ _]). destruct ok; [|by injection E as _ <- _ _].
  inv_bind E. destruct a; [done|]. by injection E as _ <- _ _.
Qed.
Lemma copy_behind_shrunk b d n w s b' c' w' : IOBufCutter.copy_behind b d n w = Some ((s, b', c'), w') -> shrunk b b'.
Proof. unfold IOBufCutter.copy_behind. intros Hrun. inv_bind Hrun. inv_bind Hrun. by injection Hrun as _ <- _ _. Qed.
Lemma copy_to_shrunk b n w s b' c' w' : IOBufCutter.copy_to b c n w = Some ((s, b', c'), w') -> shrunk b b'.
Proof.
  unfold IOBufCutter.copy_to, IOBufCutter.slower_copy_to. intros Hrun. destruct (n <=? _); [inv_bind Hrun; by injection Hrun as _ <- _ _|]. destruct (_ =? 0); [|by eapply copy_behind_shrunk].
  inv_bind Hrun. destruct a as [[ok b1] c1]. apply load_next_shrunk in E. destruct (negb ok); [by injection Hrun as _ <- _ _|].
  transitivity b1; [done|]. destruct (n <=? _); [inv_bind Hrun; by injection Hrun as _ <- _ _|by eapply copy_behind_shrunk].
Qed.
Lemma cutter_cutn_shrunk b out n w m b' c' out' w' : IOBufCutter.cutn b c out n w = Some ((m, b', c', out'), w') -> 0 <= n -> shrunk b b'.
Proof.
  unfold IOBufCutter.cutn. intros Hrun Hn. destruct (n =? 0); [by injection Hrun as _ <- _ _ _|]. destruct (Z.leb_spec n (IOBufCutter.room c)); [inv_bind Hrun; by injection Hrun as _ <- _ _ _|].
  destruct (negb _).
  - inv_bind Hrun. inv_bind Hrun. destruct a0 as [rc b1]. inv_bind Hrun. destruct a0 as [[m1 b2] out2]. injection Hrun as _ <- _ _ _. transitivity b1; [by eapply pop_ref_shrunk|]. eapply cutn_shrunk; [exact E1|lia].
  - inv_bind Hrun. inv_bind Hrun. destruct a0 as [[m1 b2] out2]. injection Hrun as _ <- _ _ _. transitivity a; [by eapply drop_current_shrunk|]. eapply cutn_shrunk; [exact E0|lia].
Qed.
Lemma cutter_cutn_mem_shrunk b n w m s b' c' w' : IOBufCutter.cutn_mem b c n w = Some ((m, s, b', c'), w') -> 0 <= n -> shrunk b b'.
Proof.
  unfold IOBufCutter.cutn_mem. intros Hrun Hn. destruct (n =? 0); [by injection Hrun as _ _ <- _ _|]. destruct (Z.leb_spec n (IOBufCutter.room c)); [inv_bind Hrun; by injection Hrun as _ _ <- _ _|].
  destruct (negb _).
  - inv_bind Hrun. inv_bind Hrun. destruct a0 as [rc b1]. inv_bind Hrun. destruct a0 as [[m1 t1] b2]. injection Hrun as _ _ <- _ _. transitivity b1; [by eapply pop_ref_shrunk|]. eapply cutn_mem_shrunk; [exact E1|lia].
  - inv_bind Hrun. inv_bind Hrun. destruct a0 as [[m1 t1] b2]. injection Hrun as _ _ <- _ _. transitivity a; [by eapply drop_current_shrunk|]. eapply cutn_mem_shrunk; [exact E0|lia].
Qed.
End Cutter.
Lemma pop_front_loop_shrunk fuel b c n m w r b' c' w' : IOBufCutter.pop_front_loop fuel b c n m w = Some ((r, b', c'), w') -> shrunk b b'.
Proof.
  revert b c n w. induction fuel as [|fuel IH]; intros b c n w; cbn [IOBufCutter.pop_front_loop]; [done|]. destruct (n <=? _); [by intros [= _ <- _ _]|].
  intros Hrun. inv_bind Hrun. destruct a as [[ok b1] c1]. apply load_next_shrunk in E. destruct ok; [|by injection Hrun as _ <- _ _]. transitivity b1; [done|]. by eapply IH.
Qed.
Lemma cutter_cutn_string_shrunk b c out n w m s b' c' w' : IOBufCutter.cutn_string b c out n w = Some ((m, s, b', c'), w') -> 0 <= n -> shrunk b b'.
Proof.
  unfold IOBufCutter.cutn_string. intros Hrun Hn. destruct (n =? 0); [by injection Hrun as _ _ <- _ _|]. inv_bind Hrun. inv_bind Hrun. destruct a0 as [[[m1 t1] b1] c1]. injection Hrun as _ _ <- _ _.
  intros l Hr. refine (cutter_cutn_mem_shrunk _ _ _ _ _ _ _ _ _ E0 _ l Hr). destruct (_ <? n); [|done]. unfold IOBufCutter.remaining_bytes in E. destruct (IOBufCutter._block c).
  - inv_bind E. injection E as <- _. apply u64_range.
  - injection E as <- _. rewrite (length_spec _ _ Hr). exact (total_nonneg _ (repr_shape _ _ Hr)).
Qed.
End IOBufShrink.
