(* ===== verification/IOBufMemory.v ===== *)
(** * Running out of memory: IOBuf::append (butil/iobuf.cpp)

    Which allocations an append makes and what is left when one fails.  malloc is called
    once per block, and its calls are numbered by the addresses they return: the calls
    made between two states are those from [next_bid] of the first up to [next_bid] of the
    second. *)
From stdpp Require Import base list gmap.
From Stdlib Require Import ZArith Lia Bool.
From S2P Require Import Prelude IOBufBlock IOBufView IOBuf IOBufSpec IOBufFrame IOBufShrink.

Open Scope Z_scope.
Open Scope m_scope.

Module IOBufMemory.
Import Block View IOBuf IOBufSpec IOBufFrame IOBufShrink.

(** ** The calls of malloc *)
Section Calls.
Context `{Env}.
(** The calls from number [a] up to and without [b] succeeded. *)
Definition granted (a b : bid) : Prop := forall j, (a <= j < b)%positive -> malloc_ok j = true.
(** All calls between [w] and [w'] succeeded. *)
Definition served (w w' : World) : Prop := (next_bid w <= next_bid w')%positive /\ granted (next_bid w) (next_bid w').
(** The last call between [w] and [w'] failed, the ones before succeeded, and the
    thread's cache of blocks is empty. *)
Definition exhausted (w w' : World) : Prop :=
  exists j, next_bid w' = Pos.succ j /\ (next_bid w <= j)%positive /\ granted (next_bid w) j /\ malloc_ok j = false /\
    block_head w' = None.

Lemma granted_trans a b c : granted a b -> granted b c -> granted a c.
Proof. intros H1 H2 j Hj. destruct (decide (j < b)%positive); [apply H1; lia|apply H2; lia]. Qed.
Lemma served_same w w' : next_bid w' = next_bid w -> served w w'.
Proof. intros E. unfold served. rewrite E. split; [reflexivity|]. intros j Hj. lia. Qed.
Lemma served_trans w1 w2 w3 : served w1 w2 -> served w2 w3 -> served w1 w3.
Proof. intros [H1 G1] [H2 G2]. split; [lia|by eapply granted_trans]. Qed.
Lemma served_exhausted w1 w2 w3 : served w1 w2 -> exhausted w2 w3 -> exhausted w1 w3.
Proof.
  intros [H1 G1] (j & En & Hj & G & Hf & Hh). exists j. split; [done|]. split; [lia|]. split; [by eapply granted_trans|done].
Qed.

(** ** Computations that do not call malloc *)
Class Frugal {A} (c : M World A) : Prop := frugal : forall w a w', c w = Some (a, w') -> next_bid w' = next_bid w.
#[local] Instance frugal_framing {A} (c : M World A) : Framing c -> Frugal c.
Proof. intros Hf w a w' Hr. apply (Hf _ _ _ Hr). Qed.
#[local] Instance frugal_bind {A B} (c : M World A) (k : A -> M World B) : Frugal c -> (forall a, Frugal (k a)) -> Frugal (mbind' c k).
Proof. intros Hc Hk w b w' Hr. apply bind_inv in Hr as (a & w1 & E & Hr). rewrite (Hk a _ _ _ Hr). exact (Hc _ _ _ E). Qed.
#[local] Instance frugal_store k blk : Frugal (store k blk).
Proof. intros w a w'. unfold store. destruct (heap w !! k); [|done]. by intros [= _ <-]. Qed.
#[local] Instance frugal_modify k f : Frugal (modify k f).
Proof. unfold modify. apply _. Qed.
#[local] Instance frugal_write_at k off d : Frugal (write_at k off d).
Proof. unfold write_at. apply frugal_bind; [apply _|]. intros blk. destruct (_ && _); apply _. Qed.
Lemma frugal_mmod f : (forall w, next_bid (f w) = next_bid w) -> Frugal (mmod f).
Proof. intros Hf w a w' Heq. injection Heq as _ <-. apply Hf. Qed.
Lemma frugal_drop_full fuel b : Frugal (drop_full fuel b).
Proof.
  revert b. induction fuel as [|fuel IH]; intros b; cbn [drop_full]; [apply _|]. destruct b as [b|]; [|apply _].
  apply frugal_bind; [apply _|]. intros blk. destruct (full blk); [|apply _].
  repeat (apply frugal_bind; [by apply frugal_mmod || apply _|intros _]). apply IH.
Qed.

(** ** Computations that report a failed call

    [Asking ok c]: when the result of [c] is [ok] all calls it made succeeded, and
    otherwise it stopped at the call that failed. *)
Definition outcome (w : World) (good : bool) (w' : World) : Prop := if good then served w w' else exhausted w w'.
Class Asking {A} (ok : A -> bool) (c : M World A) : Prop := asking : forall w a w', c w = Some (a, w') -> outcome w (ok a) w'.

Lemma outcome_after w w1 good w' : served w w1 -> outcome w1 good w' -> outcome w good w'.
Proof. destruct good; [apply served_trans|apply served_exhausted]. Qed.
Lemma asking_ret {A} (ok : A -> bool) a : ok a = true -> Asking ok (mret a).
Proof. intros Ha w a' w' [= <- <-]. rewrite Ha. by apply served_same. Qed.
Lemma asking_ub {A} (ok : A -> bool) : Asking ok (ub : M World A).
Proof. by intros w a w'. Qed.
(** First something that does not call malloc. *)
Lemma asking_after {A B} (ok : B -> bool) (c : M World A) k : Frugal c -> (forall a, Asking ok (k a)) -> Asking ok (mbind' c k).
Proof.
  intros Hc Hk w b w' Hr. apply bind_inv in Hr as (a & w1 & E & Hr). eapply outcome_after; [|exact (Hk a _ _ _ Hr)].
  apply served_same. exact (Hc _ _ _ E).
Qed.
(** First something that may fail; then the failure is passed on. *)
Lemma asking_check {A B} (okc : A -> bool) (ok : B -> bool) (c : M World A) k :
  Asking okc c -> (forall a, if okc a then Asking ok (k a) else exists b, k a = mret b /\ ok b = false) -> Asking ok (mbind' c k).
Proof.
  intros Hc Hk w b w' Hr. apply bind_inv in Hr as (a & w1 & E & Hr). apply Hc in E. specialize (Hk a).
  destruct (okc a); [eapply outcome_after; [exact E|exact (Hk _ _ _ Hr)]|].
  destruct Hk as (b' & Hk & Hb). rewrite Hk in Hr. injection Hr as <- <-. by rewrite Hb.
Qed.

(** ** The thread's cache asks for one block when it has none with room *)
Definition some_block (ob : option bid) : bool := match ob with Some _ => true | None => false end.

Lemma asking_finish nb : Asking some_block (share_tls_finish nb).
Proof.
  intros w ob w' Hr. unfold share_tls_finish in Hr. apply bind_inv in Hr as (x & w1 & Hx & Hr).
  unfold mbind', mmod, mret in Hr. injection Hr as <- <-. destruct nb as [b|]; [injection Hx as <- <-; by apply served_same|].
  unfold create_block, create_block_sized, mbind', mget, mmod, mret in Hx.
  change (0xFFFFFFFF <? DEFAULT_BLOCK_SIZE) with false in Hx. cbv beta iota in Hx.
  set (mem := map _ _) in Hx. clearbody mem. cbn in Hx.
  destruct (malloc_ok (next_bid w)) eqn:Hm; injection Hx as <- <-.
  - split; cbn; [lia|]. intros j Hj. by replace j with (next_bid w) by lia.
  - exists (next_bid w). split; [done|]. split; [lia|]. split; [intros j Hj; lia|]. by split.
Qed.

Lemma asking_share : Asking some_block share_tls_block.
Proof.
  unfold share_tls_block. apply asking_after; [by intros w a w' [= _ <-]|]. intros w. destruct (block_head w) as [b|].
  - apply asking_after; [apply _|]. intros blk. destruct (negb (full blk)); [by apply asking_ret|].
    apply asking_after; [apply frugal_drop_full|]. apply asking_finish.
  - apply asking_after; [|intros _; apply asking_finish]. destruct (negb (registered w)); [by apply frugal_mmod|apply _].
Qed.

(** ** append *)
Definition returns_0 (r : Z * IOBuf) : bool := r.1 =? 0.

Lemma asking_push_back b c : Asking returns_0 (push_back b c).
Proof.
  unfold push_back. eapply asking_check; [apply asking_share|]. intros [k|]; cbn [some_block]; [|by exists (-1, b)].
  repeat (apply asking_after; [apply _|intros ?]). by apply asking_ret.
Qed.

Lemma asking_append_loop fuel b data : Asking returns_0 (append_loop fuel b data).
Proof.
  revert b data. induction fuel as [|fuel IH]; intros b [|x data]; cbn [append_loop];
    try (by apply asking_ret) || (by apply asking_ub).
  eapply asking_check; [apply asking_share|]. intros [k|]; cbn [some_block]; [|by exists (-1, b)].
  repeat (apply asking_after; [apply _|intros ?]). apply IH.
Qed.

Lemma asking_append b data : Asking returns_0 (append b data).
Proof. destruct data as [|c [|c' data]]; [apply asking_append_loop|apply asking_push_back|apply asking_append_loop]. Qed.
End Calls.

(** C39: append returns 0 and has appended all the data exactly when every malloc it asked
    for succeeded. Otherwise it returns -1: its last malloc, asked for when the cache of the
    thread had no block with room left, failed, the ones before succeeded, and a proper
    prefix of the data was appended. In both cases the references of the buffer are
    accounted for and every other holder of blocks is undisturbed. The buffer stays below
    2^29 bytes. *)
Theorem append_out_of_memory `{Env} w b bs rs data :
  holds w b bs -> inv w (owned b ++ rs) -> fits (len bs + len data) ->
  exists rc b' k w', append b data w = Some ((rc, b'), w') /\ holds w' b' (bs ++ take k data) /\
    inv w' (owned b' ++ rs) /\ stable w w' rs /\
    (rc = 0 /\ k = Datatypes.length data /\ served w w' \/
     rc = -1 /\ (k < Datatypes.length data)%nat /\ exhausted w w').
Proof.
  intros Hh Hi Hfit. destruct (append_spec w b bs rs data Hh Hi Hfit) as (rc & b' & k & (w' & Hr & ? & ? & ?) & _ & Hk).
  exists rc, b', k, w'. do 4 (split; [done|]). apply asking_append in Hr as Ho.
  destruct Hk as [[-> Hk]|[-> Hk]]; [left|right]; done.
Qed.

(** An allocator that hands out one block only: the data does not fit. *)
Definition one_block : Env := {| malloc_ok := fun k => bool_decide (k = 1%positive); junk := fun _ _ => 0 |}.
Definition big_data : list Z := replicate (Z.to_nat 9000) 7.
Lemma append_out_of_memory_witness :
  exists rc b' k w', append (H := one_block) IOBuf_empty big_data w0 = Some ((rc, b'), w') /\
    holds w' b' ([] ++ take k big_data) /\ inv w' (owned b' ++ []) /\ stable w0 w' [] /\
    (rc = 0 /\ k = Datatypes.length big_data /\ @served one_block w0 w' \/
     rc = -1 /\ (k < Datatypes.length big_data)%nat /\ @exhausted one_block w0 w').
Proof.
  apply (@append_out_of_memory one_block w0 IOBuf_empty [] [] big_data).
  - apply holds_empty.
  - apply inv_w0.
  - vm_compute. reflexivity.
Defined.

End IOBufMemory.
