(* ===== verification/IOBufCaps.v ===== *)
(** * Blocks of the default size

    Streams and portals take whole blocks from the thread's cache; how much they get at
    once is bounded as long as no block is larger than the default.  [Capped c] says that the
    computation [c] keeps it so. *)
From stdpp Require Import base list gmap.
From Stdlib Require Import ZArith Lia Bool.
From S2P Require Import Prelude IOBufBlock IOBufView IOBuf IOBufFrame IOBufShrink.

Open Scope Z_scope.
Open Scope m_scope.

Module IOBufCaps.
Import Block View IOBuf IOBufFrame IOBufShrink.

Definition default_caps (w : World) : Prop := forall k blk, heap w !! k = Some blk -> is_user_data blk = false -> cap blk <= DEFAULT_BLOCK_SIZE - sizeof_Block.
Class Capped {A} (c : M World A) : Prop := capped : forall w a w', c w = Some (a, w') -> default_caps w -> default_caps w'.

Lemma caps_insert w k blk : (is_user_data blk = false -> cap blk <= DEFAULT_BLOCK_SIZE - sizeof_Block) -> default_caps w -> default_caps (set_heap (<[k := blk]> (heap w)) w).
Proof. intros Hb Hc x bx. cbn. rewrite lookup_insert_Some. intros [[<- <-]|[_ Hx]]; [done|by apply (Hc x)]. Qed.
Lemma caps_heap w w' : heap w' = heap w -> default_caps w -> default_caps w'.
Proof. intros Hh Hc x bx. rewrite Hh. apply Hc. Qed.
#[global] Instance capped_framing {A} (c : M World A) : Framing c -> Capped c.
Proof. intros Hf w a w' Hrun Hc x bx Hx. destruct (proj1 (Hf _ _ _ Hrun) x bx Hx) as (b0 & Hb0 & ->). exact (Hc x b0 Hb0). Qed.
#[global] Instance capped_bind {A B} (c : M World A) (k : A -> M World B) : Capped c -> (forall a, Capped (k a)) -> Capped (mbind' c k).
Proof. intros Hc Hk w b w' Hrun. apply bind_inv in Hrun as (a & w1 & E & Hrun). intros Hcap. exact (Hk a _ _ _ Hrun (Hc _ _ _ E Hcap)). Qed.
#[global] Instance capped_get : Capped mget.
Proof. by intros w a w' [= _ <-]. Qed.
Lemma capped_mmod f : (forall w, heap (f w) = heap w) -> Capped (mmod f).
Proof. intros Hf w a w' Heq. injection Heq as _ <-. apply caps_heap, Hf. Qed.
Lemma capped_modify k f : (forall blk, cap (f blk) = cap blk /\ is_user_data (f blk) = is_user_data blk) -> Capped (modify k f).
Proof.
  intros Hf w a w'. unfold modify, mbind', load, store. destruct (heap w !! k) as [blk|] eqn:Hk; [|done]. cbn. rewrite Hk. intros Heq Hc. injection Heq as _ <-. apply caps_insert; [|exact Hc].
  destruct (Hf blk) as [-> ->]. exact (Hc k blk Hk).
Qed.
#[global] Instance capped_write_at k off d : Capped (write_at k off d).
Proof.
  intros w a w'. unfold write_at, mbind', load, store. destruct (heap w !! k) as [blk|] eqn:Hk; [|done]. cbn. destruct (_ && _); [|done]. rewrite Hk. intros Heq Hc. injection Heq as _ <-.
  apply caps_insert; [|exact Hc]. exact (Hc k blk Hk).
Qed.
Lemma capped_create_sized `{Env} sz : u32 (sz - sizeof_Block) <= DEFAULT_BLOCK_SIZE - sizeof_Block -> Capped (create_block_sized sz).
Proof.
  intros Hsz w a w'. unfold create_block_sized, mbind', mget, mmod, mret. destruct (_ <? sz); [intros Heq Hc; injection Heq as <- <-; done|].
  destruct (malloc_ok _); intros Heq Hc; injection Heq as <- <-; [|by apply (caps_heap w)]. intros x bx. cbn [heap set_counters set_heap]. rewrite lookup_insert_Some.
  intros [[<- <-]|[_ Hx]]; [done|by apply (Hc x)].
Qed.
#[global] Instance capped_create `{Env} : Capped create_block.
Proof. apply capped_create_sized. unfold DEFAULT_BLOCK_SIZE, sizeof_Block. rewrite u32_small; lia. Qed.
Ltac capped_step :=
  match goal with
  | |- forall _, _ => intro
  | |- Capped (mbind' _ _) => apply capped_bind
  | |- Capped (mmod _) => apply capped_mmod; done
  | |- Capped (modify _ _) => apply capped_modify; intros []; done
  | |- Capped (match ?x with _ => _ end) => destruct x
  end.
Ltac capped := repeat first [capped_step | exact _].
#[global] Instance capped_acquire_loop `{Env} fuel b : Capped (acquire_loop fuel b).
Proof. revert b. induction fuel; intros b; cbn [acquire_loop]; capped. Qed.
#[global] Instance capped_acquire `{Env} : Capped acquire_tls_block.
Proof. unfold acquire_tls_block. capped. Qed.
#[global] Instance capped_release ob : Capped (release_tls_block ob).
Proof. unfold release_tls_block. capped. Qed.
End IOBufCaps.
