(* ===== verification/IOBufOutput.v ===== *)
(** * Writers on an IOBuf (butil/iobuf.h, iobuf.cpp, iobuf_inl.h)

    IOBufAsZeroCopyOutputStream lends the free part of a block to its caller, IOBufAppender
    and IOBufAsSnappySink write through it.  As for the readers, the buffer is an argument
    of the operations and the rest of the object a record; a pointer into a block is the block
    and an offset. *)
From stdpp Require Import base list gmap.
From Stdlib Require Import ZArith Lia Bool.
From S2P Require Import Prelude IOBufBlock IOBufView IOBuf IOBufFrame IOBufShrink IOBufCaps IOPortal.

Open Scope Z_scope.
Open Scope m_scope.

Module IOBufOutput.
Import Block View IOBuf IOBufFrame IOBufShrink IOBufCaps.

(** ** IOBufAsZeroCopyOutputStream *)
Record OutStream := mkOut { _block_size : Z; _cur_block : option bid; _byte_count : Z }.
Definition OutStream_new : OutStream := mkOut 0 None 0.
(** [None] when the constructor throws. *)
Definition OutStream_sized (block_size : Z) : option OutStream :=
  if block_size <=? offsetof_data then None else Some (mkOut block_size None 0).
Definition set_cur (k : option bid) (s : OutStream) : OutStream := mkOut (_block_size s) k (_byte_count s).
Definition count_bytes (n : Z) (s : OutStream) : OutStream := mkOut (_block_size s) (_cur_block s) (i64 (_byte_count s + n)).
(** Where the caller may write: a block, an offset and an [int]. *)
Record area := mkArea { ar_block : bid; ar_data : Z; ar_size : Z }.

Section WithEnv.
Context `{Env}.
Definition _release_block (s : OutStream) : M World OutStream :=
  do* (if 0 <? _block_size s then match _cur_block s with Some k => dec_ref k | None => mret tt end else release_tls_block (_cur_block s)) in
  mret (set_cur None s).
(** The first part of [Next]: [_cur_block] is a block with room, or NULL. *)
Definition next_block (s : OutStream) : M World OutStream :=
  let* use := match _cur_block s with Some k => let* blk := load k in mret (negb (full blk)) | None => mret false end in
  if (use : bool) then mret s
  else
    let* s1 := _release_block s in
    let* k := (if 0 <? _block_size s1 then create_block_sized (_block_size s1) else acquire_tls_block) in
    mret (set_cur k s1).
(** [Next]: the block is marked as full and all of its free part becomes part of the buffer. *)
Definition Next (b : buffer) (s : OutStream) : M World (option area * buffer * OutStream) :=
  let* s1 := next_block s in
  match _cur_block s1 with
  | None => mret (None, b, s1)
  | Some k =>
      let* blk := load k in
      let r := mkRef (size blk) (left_space blk) (Some k) in
      do* modify k (fun blk => set_size (cap blk) blk) in
      let* b' := _push_back_ref b r in
      mret (Some (mkArea k (offset r) (i32 (length r))), b', count_bytes (length r) s1)
  end.
(** The end of a turn of [BackUp], with [_cur_block] set and matching the last reference; what is
    left of [count]. *)
Definition back_up_ref (k : bid) (b : buffer) (s : OutStream) (count : Z) : M World (Z * buffer * OutStream) :=
  let* r := back_ref b in
  if u32 count <? length r then
    do* modify k (fun blk => set_size (u32 (size blk - count)) blk) in
    let b' := set_back_ref b (ref_shrink r count) count in
    let s1 := count_bytes (- count) s in
    if _block_size s =? 0 then do* release_tls_block (Some k) in mret (0, b', set_cur None s1) else mret (0, b', s1)
  else
    do* modify k (fun blk => set_size (u32 (size blk - length r)) blk) in
    let* (_, b') := _pop_back_ref b in
    let* s' := _release_block (count_bytes (- length r) s) in
    mret (i32 (count - length r), b', s').
(** [BackUp]; a turn that does not return takes a reference away. *)
Fixpoint BackUp_loop (fuel : nat) (b : buffer) (s : OutStream) (count : Z) : M World (buffer * OutStream) :=
  match fuel with
  | O => ub
  | S fuel' =>
      if empty b then mret (b, s)
      else
        let* r := back_ref b in
        match block r with
        | None => ub
        | Some kr =>
            let* blk := load kr in
            let at_end := u32 (offset r + length r) =? size blk in
            match _cur_block s with
            | Some k =>
                if negb (bool_decide (kr = k)) then mret (b, s)
                else if negb at_end then mret (b, s)
                else
                  let* (count', b', s') := back_up_ref k b s count in
                  if count' =? 0 then mret (b', s') else BackUp_loop fuel' b' s' count'
            | None =>
                if (nshared blk =? 1) && negb at_end then mret (b, s)
                else if negb at_end then
                  let* (n, b') := pop_back b (u64 count) in mret (b', count_bytes (- n) s)
                else
                  do* inc_ref kr in
                  let* (count', b', s') := back_up_ref kr b (set_cur (Some kr) s) count in
                  if count' =? 0 then mret (b', s') else BackUp_loop fuel' b' s' count'
            end
        end
  end.
Definition BackUp (b : buffer) (s : OutStream) (count : Z) : M World (buffer * OutStream) := BackUp_loop (ref_fuel b) b s count.
Definition ByteCount (s : OutStream) : Z := _byte_count s.
Definition OutStream_delete (s : OutStream) : M World unit := do* _release_block s in mret tt.

(** ** IOBufAppender

    [_data] and [_data_end] are offsets in [a_block]; NULL is no block. *)
Record Appender := mkApp { a_block : option bid; _data : Z; _data_end : Z; a_buf : buffer; _zc_stream : OutStream }.
Definition Appender_new : Appender := mkApp None 0 0 IOBuf_empty OutStream_new.
Definition set_data_ptr (d : Z) (a : Appender) : Appender := mkApp (a_block a) d (_data_end a) (a_buf a) (_zc_stream a).
(** [memcpy] to [_data]. *)
Definition write_area (a : Appender) (src : list Z) : M World unit :=
  match src, a_block a with
  | [], _ => mret tt
  | _, Some k => write_at k (_data a) src
  | _, None => ub
  end.
Definition add_block (a : Appender) : M World (Z * Appender) :=
  let* (o, b', s') := Next (a_buf a) (_zc_stream a) in
  match o with
  | Some (mkArea k d n) => mret (0, mkApp (Some k) d (d + n) b' s')
  | None => mret (-1, mkApp None 0 0 b' s')
  end.
Fixpoint append_loop (fuel : nat) (a : Appender) (src : list Z) : M World (Z * Appender) :=
  match fuel with
  | O => ub
  | S fuel' =>
      let size := u64 (_data_end a - _data a) in
      if len src <=? size then
        do* write_area a src in mret (0, set_data_ptr (_data a + len src) a)
      else
        do* write_area a (take (Z.to_nat size) src) in
        let* (rc, a') := add_block a in
        if negb (rc =? 0) then mret (-1, a') else append_loop fuel' a' (drop (Z.to_nat size) src)
  end.
Definition append (a : Appender) (src : list Z) : M World (Z * Appender) := append_loop (S (S (Datatypes.length src))) a src.
Definition push_back (a : Appender) (c : Z) : M World (Z * Appender) :=
  let* (rc, a1) := (if _data a =? _data_end a then add_block a else mret (0, a)) in
  if negb (rc =? 0) then mret (-1, a1)
  else do* write_area a1 [c] in mret (0, set_data_ptr (_data a1 + 1) a1).
Definition shrink (a : Appender) : M World Appender :=
  let size := u64 (_data_end a - _data a) in
  if size =? 0 then mret a
  else let* (b', s') := BackUp (a_buf a) (_zc_stream a) (i32 size) in mret (mkApp None 0 0 b' s').
(** [buf()]: the buffer is that of the new state. *)
Definition buf (a : Appender) : M World Appender := shrink a.
(** [move_to(target)]: the old content of the target is dropped. *)
Definition move_to (a : Appender) (target : buffer) : M World (buffer * Appender) :=
  let* a1 := buf a in
  let* _ := clear target in
  mret (a_buf a1, mkApp (a_block a1) (_data a1) (_data_end a1) IOBuf_empty (_zc_stream a1)).
Definition Appender_delete (a : Appender) : M World unit :=
  do* OutStream_delete (_zc_stream a) in let* _ := clear (a_buf a) in mret tt.

(** ** IOBufAsSnappySink *)
Record SnappySink := mkSink { _cur_buf : option area; _cur_len : Z; _buf_stream : OutStream }.
Definition SnappySink_new : SnappySink := mkSink None 0 OutStream_new.
(** The bytes of [Append] are already in [_cur_buf] when that was handed out. *)
Definition Append (b : buffer) (s : SnappySink) (bytes : list Z) : M World (buffer * SnappySink) :=
  if 0 <? _cur_len s then
    let* (b', s') := BackUp b (_buf_stream s) (i32 (_cur_len s - len bytes)) in
    mret (b', mkSink (_cur_buf s) 0 s')
  else let* (_, b') := IOBuf.append b bytes in mret (b', s).
(** [None] is the scratch memory of the caller. *)
Definition GetAppendBuffer (b : buffer) (s : SnappySink) (length : Z) : M World (option area * buffer * SnappySink) :=
  if length <=? 8000 then
    let* (o, b1, s1) := Next b (_buf_stream s) in
    match o with
    | Some ar =>
        if length <=? ar_size ar then mret (Some ar, b1, mkSink (Some ar) (ar_size ar) s1)
        else let* (b2, s2) := BackUp b1 s1 (ar_size ar) in mret (None, b2, mkSink None 0 s2)
    | None => mret (None, b1, mkSink None 0 s1)
    end
  else mret (None, b, mkSink None 0 (_buf_stream s)).
End WithEnv.

(** ** The state of a stream

    [ws] is the heap at the beginning and [rs] the references of others: what they refer to is
    what was written then. *)
Definition held (s : OutStream) : list bid := match _cur_block s with Some k => [k] | None => [] end.
Definition accounted (w : World) (s : OutStream) (R : list bid) : Prop :=
  exists tc, inv_core (block_head w) tc w (held s ++ R) /\ num_blocks w = len tc /\
    forall k, _cur_block s = Some k -> (k ∉ tc) /\ exists blk, heap w !! k = Some blk /\ is_user_data blk = false.
Section State.
Context (ws : World) (rs : list bid).
(** Nothing is lent. *)
Definition idle (w : World) (b : buffer) (s : OutStream) (bs : list Z) : Prop :=
  holds w b bs /\ stable ws w rs /\ default_caps w /\ accounted w s (owned b ++ rs).
(** The part of [k] from [d] to [e] is lent: the last reference ends with it, and nobody
    refers to bytes behind [d] but this reference. *)
Definition lent (w : World) (b : buffer) (s : OutStream) (bs : list Z) (k : bid) (d e : Z) : Prop :=
  _cur_block s = Some k /\ stable ws w rs /\ default_caps w /\ accounted w s (owned b ++ rs) /\ d <= e /\
  (forall blk0, k ∈ rs -> heap ws !! k = Some blk0 -> size blk0 <= d) /\
  exists l r blk fill, repr b (l ++ [r]) /\ valid w (l ++ [r]) /\ block r = Some k /\ offset r <= d /\ offset r + length r = e /\
    heap w !! k = Some blk /\ size blk = e /\ cap blk = e /\ bytes w (l ++ [r]) = bs ++ fill /\ len fill = e - d /\
    (forall r', r' ∈ l -> block r' = Some k -> offset r' + length r' <= d).

Lemma accounted_inv w s R : accounted w s R -> inv w (held s ++ R).
Proof. intros (tc & Hi & Hn & _). by exists tc. Qed.
Lemma lent_all w b s bs k e : lent w b s bs k e e -> idle w b s bs.
Proof.
  intros (_ & Hst & Hcap & Hacc & _ & _ & l & r & blk & fill & Hr & Hv & _ & _ & _ & _ & _ & _ & Hb & Hf & _). split; [|done].
  destruct fill; [|cbn in Hf; lia]. rewrite app_nil_r in Hb. rewrite <- Hb. by apply holds_intro.
Qed.
Lemma release_block_spec w b s bs : idle w b s bs ->
  exists w', _release_block s w = Some (set_cur None s, w') /\ idle w' b (set_cur None s) bs.
Proof.
  intros (Hh & Hst & Hcap & tc & Hi & Hn & Hk).
  assert (exists w', (if 0 <? _block_size s then match _cur_block s with Some k => dec_ref k | None => mret tt end else release_tls_block (_cur_block s)) w = Some (tt, w') /\
    inv w' (owned b ++ rs) /\ stable w w' (owned b ++ rs) /\ default_caps w') as (w' & Heq & Hi' & Hst' & Hcap').
  { unfold held in Hi. destruct (_cur_block s) as [k|].
    - destruct (Hk k eq_refl) as (Hni & blk & Hb & Hud). cbn [app] in Hi. destruct (0 <? _block_size s).
      + destruct (dec_ref_spec _ _ _ _ _ Hi) as (w' & Heq & Hi' & Hst' & Hh' & Hn' & _). exists w'. split; [done|]. split; [exists tc; by rewrite Hh', Hn'|]. split; [done|].
        exact (capped_framing _ (framing_dec_ref k) _ _ _ Heq Hcap).
      + destruct (release_tls_block_spec w tc (owned b ++ rs) k blk Hi Hn Hni Hb Hud) as (w' & Heq & Hi' & Hst'). exists w'. split; [done|]. split; [done|]. split; [done|].
        exact (capped_release (Some k) _ _ _ Heq Hcap).
    - exists w. destruct (0 <? _block_size s); (split; [done|]); (split; [by exists tc|]); (split; [apply stable_refl|done]). }
  exists w'. unfold _release_block. rewrite (bind_run _ _ _ _ _ Heq). split; [done|]. split; [eapply holds_stable; [exact Hst'| |done]; set_solver|].
  split; [eapply stable_trans; [exact Hst|]; eapply stable_sub; [|exact Hst']; set_solver|]. split; [done|]. destruct Hi' as (tc' & Hi' & Hn'). exists tc'. by split_and!.
Qed.

Context `{Env}.
Definition size_ok (s : OutStream) : Prop := _block_size s = 0 \/ sizeof_Block < _block_size s <= DEFAULT_BLOCK_SIZE.
Lemma get_block_spec w b s bs : idle w b s bs -> _cur_block s = None -> size_ok s ->
  exists ok w', (if 0 <? _block_size s then create_block_sized (_block_size s) else acquire_tls_block) w = Some (ok, w') /\ idle w' b (set_cur ok s) bs /\
    (forall k, ok = Some k -> exists blk, heap w' !! k = Some blk /\ full blk = false) /\ ((forall k, malloc_ok k = true) -> is_Some ok).
Proof.
  intros (Hh & Hst & Hcap & tc & Hi & Hn & _) Hcur Hsz. unfold held in Hi. rewrite Hcur in Hi. cbn [app] in Hi.
  assert (exists ok w' tc', (if 0 <? _block_size s then create_block_sized (_block_size s) else acquire_tls_block) w = Some (ok, w') /\ stable w w' (owned b ++ rs) /\ num_blocks w' = len tc' /\
    default_caps w' /\ ((forall k, malloc_ok k = true) -> is_Some ok) /\ inv_core (block_head w') tc' w' (match ok with Some k => [k] | None => [] end ++ owned b ++ rs) /\
    (forall k, ok = Some k -> (k ∉ tc') /\ exists blk, heap w' !! k = Some blk /\ full blk = false /\ is_user_data blk = false)) as (ok & w' & tc' & Heq & Hst' & Hn' & Hcap' & Hall & Hi' & Hk).
  { destruct Hsz as [Hsz|Hsz].
    - rewrite Hsz. destruct (IOPortal.acquire_strong w tc _ Hi Hn) as (ok & w' & tc' & Heq & Hst' & Hall & _ & Hn' & _ & Hob). exists ok, w', tc'. split; [exact Heq|]. do 2 (split; [done|]).
      split; [exact (capped_acquire _ _ _ Heq Hcap)|]. split; [done|]. destruct ok as [k|]; [|done]. destruct Hob as (Hi' & Hni & _ & blk & Hb & Hf & Hud & _). split; [done|].
      intros k' [= <-]. split; [done|]. by exists blk.
    - unfold sizeof_Block, DEFAULT_BLOCK_SIZE in Hsz. destruct (Z.ltb_spec 0 (_block_size s)); [|lia].
      destruct (create_block_sized_spec _ _ _ _ (_block_size s) Hi) as (ok & w' & Heq & (Hh' & Hn' & _) & Hst' & Hall & Hob); [unfold sizeof_Block; lia|].
      exists ok, w', tc. split; [exact Heq|]. split; [done|]. split; [by rewrite Hn'|]. split.
      { refine (capped_create_sized _ _ _ _ _ Heq Hcap). unfold DEFAULT_BLOCK_SIZE, sizeof_Block. rewrite u32_small; lia. }
      split; [intros Hm; by rewrite (Hall (Hm _))|]. rewrite Hh'. destruct ok as [k|]; [|split; [apply Hob|done]]. destruct Hob as (Hi' & Hnone & blk & Hb & Hs0 & Hc0 & Hud & _). split; [done|].
      intros k' [= <-]. split; [|exists blk; split; [done|]; split; [|done]; apply full_ok; unfold sizeof_Block in Hc0; lia]. intros Hin.
      destruct (is_chain_live _ _ _ _ (inv_chain _ _ _ _ Hi) Hin). congruence. }
  exists ok, w'. split; [exact Heq|]. split; [|split; [|done]].
  - split; [eapply holds_stable; [exact Hst'| |done]; set_solver|]. split; [eapply stable_trans; [exact Hst|]; eapply stable_sub; [|exact Hst']; set_solver|]. split; [done|].
    exists tc'. split; [exact Hi'|]. split; [done|]. intros k Hok. destruct (Hk k Hok) as (? & blk & ? & _ & ?). split; [done|]. by exists blk.
  - intros k Hok. destruct (Hk k Hok) as (_ & blk & ? & ? & _). by exists blk.
Qed.

(** ** Lending *)
Lemma push_ref_last l r : Forall ref_shape l -> ref_shape r ->
  exists l' x, push_ref l r = l' ++ [x] /\ block x = block r /\ offset x + length x = offset r + length r /\ offset x <= offset r /\ (forall y, y ∈ l' -> y ∈ l).
Proof.
  intros Hl Hr. destruct l as [|x l _] using rev_ind; [exists [], r; split; [done|]; split; [done|]; split; [done|]; split; [lia|done]|].
  apply Forall_app in Hl as [Hl [Hx _]%Forall_cons]. rewrite push_ref_snoc. destruct (mergeable x r) eqn:Hm.
  - destruct (mergeable_spec x r Hx Hr Hm) as (Hb & Ho & Hmr). pose proof Hx as (_ & Hlx & _). exists l, (merge x r). split; [done|]. rewrite Hmr. cbn [block offset length]. split; [done|]. split; [lia|]. split; [lia|]. intros y Hy. apply elem_of_app. by left.
  - exists (l ++ [x]), r. split; [by rewrite <- app_assoc|]. split; [done|]. split; [done|]. split; [lia|done].
Qed.
Lemma lend_spec w b s bs k blk : idle w b s bs -> _cur_block s = Some k -> heap w !! k = Some blk -> full blk = false -> 2 * (len bs + DEFAULT_BLOCK_SIZE) < limit ->
  exists w1 b' w2, modify k (fun blk => set_size (cap blk) blk) w = Some (tt, w1) /\ _push_back_ref b (mkRef (size blk) (left_space blk) (Some k)) w1 = Some (b', w2) /\
    lent w2 b' s bs k (size blk) (cap blk) /\ left_space blk = cap blk - size blk /\ 0 <= size blk < cap blk /\ cap blk <= DEFAULT_BLOCK_SIZE.
Proof.
  intros (Hh & Hst & Hcap & tc & Hi & Hn & Hk) Hcur Hb Hf Hlim. destruct (Hk k Hcur) as (Hni & blk' & Hb' & Hud). assert (blk' = blk) as -> by congruence.
  destruct (inv_block _ _ _ _ Hi k blk Hb) as (Hok & _). pose proof Hok as (Hsz & Hc31 & _). rewrite (left_space_ok _ Hok). apply full_ok in Hf. pose proof (Hcap k blk Hb Hud) as Hdef. unfold DEFAULT_BLOCK_SIZE, sizeof_Block in *.
  destruct (set_size_spec _ tc w _ k blk (cap blk) Hi Hb) as (Hset & Hi1 & Hext); [lia|]. set (w1 := set_heap _ w) in *. pose proof (length_holds _ _ _ _ (ex_intro _ tc (conj Hi Hn)) Hh) as Hlen.
  pose proof Hh as (Hr & Hv & Hby). rewrite (length_spec b _ Hr) in Hlen. pose proof (repr_shape _ _ Hr) as Hsh. pose proof (weight_le _ Hsh). set (r := mkRef (size blk) (cap blk - size blk) (Some k)).
  assert (ref_shape r) as Hrs by (split_and!; cbn; lia || done).
  destruct (push_spec false b _ r (block_head w) tc w1 (held s ++ rs) Hr Hrs) as (b' & w2 & Hpush & Hr2 & Hi2 & Hfr); [cbn; unfold limit in *; lia| |].
  { split; [|exists k; split; [done|]; cbn; rewrite lookup_insert_eq; by eexists]. eapply inv_perm; [|exact Hi1]. intros x. unfold owned. rewrite !cnt_app. lia. }
  assert (stable w w2 (owned b ++ rs)) as Hst2.
  { eapply stable_trans; [by eapply stable_update|]. eapply stable_sub; [|by eapply frame_stable]. intros x. rewrite !elem_of_app. intros [Hx|Hx]; [left; by apply IOPortal.push_ref_keeps|tauto]. }
  destruct (valid_stable w w2 _ _ Hst2 (fun x Hx => proj2 (elem_of_app _ _ x) (or_introl Hx)) Hv) as [Hv2 Hb2].
  destruct (inv_live _ _ _ _ Hi2 k) as [blk2 Hk2]; [apply elem_of_app; left; by apply (push_ref_mem _ r)|]. pose proof Hfr as (Hkeep & (Hh2 & Hn2 & _) & _).
  destruct (Hkeep k blk2 Hk2) as (blk1 & Hk1 & E). unfold w1 in Hk1. cbn [heap set_heap] in Hk1. rewrite lookup_insert_eq in Hk1. injection Hk1 as <-. rewrite E in Hk2.
  assert (ref_ok w2 r) as Hrok by (exists k; eexists; split; [done|]; split; [exact Hk2|]; cbn; lia). destruct (push_ref_bytes w2 _ r Hsh Hrs Hv2 Hrok) as [Hv3 Hb3].
  destruct (push_ref_last _ r Hsh Hrs) as (l & x & Hl & Hbx & Hex & Hox & Hsub). cbn [r block offset length] in Hbx, Hex, Hox.
  exists w1, b', w2. split; [rewrite <- Hset; unfold modify, mbind', load; by rewrite Hb|]. split; [exact Hpush|]. split; [|lia]. split; [done|]. split; [eapply stable_trans; [exact Hst|]; eapply stable_sub; [|exact Hst2]; set_solver|].
  split; [eapply (capped_framing (_push_back_ref b r) _); [exact Hpush|]; apply caps_insert; [intros _; cbn; unfold DEFAULT_BLOCK_SIZE, sizeof_Block; lia|exact Hcap]|]. split.
  { exists tc. split; [rewrite Hh2; eapply inv_perm; [|exact Hi2]; intros y; rewrite (owned_repr _ _ Hr2), !cnt_app; lia|]. split; [by rewrite Hn2|]. intros k' Hk'. assert (k' = k) as -> by congruence. split; [done|]. by eexists. }
  split; [lia|]. split; [intros blk0 Hin Hb0; destruct (Hst k blk0 Hin Hb0) as (? & ? & Hle & _); simplify_eq; lia|].
  exists l, x. eexists _, (ref_bytes w2 r). rewrite Hl in Hr2, Hv3, Hb3. split; [done|]. split; [done|]. split; [done|]. split; [lia|]. split; [lia|]. split; [exact Hk2|]. split; [done|]. split; [done|].
  split; [by rewrite Hb3, Hb2, Hby|]. split; [rewrite (ref_bytes_len w2 r Hrok); [done|]; intros ? ? Hx; by apply (inv_block _ _ _ _ Hi2 _ _ Hx)|].
  intros r' Hr' Hbr'. unfold valid in Hv. rewrite Forall_forall in Hv. destruct (Hv r' (Hsub r' Hr')) as (k' & blk' & Hbk' & Hh' & _ & _ & Hle). simplify_eq. lia.
Qed.
Lemma out_block_spec w b s bs : idle w b s bs -> size_ok s ->
  exists s' w', next_block s w = Some (s', w') /\ idle w' b s' bs /\ _block_size s' = _block_size s /\ _byte_count s' = _byte_count s /\
    (forall k, _cur_block s' = Some k -> exists blk, heap w' !! k = Some blk /\ full blk = false) /\ ((forall k, malloc_ok k = true) -> is_Some (_cur_block s')).
Proof.
  intros Hid Hsz. assert (exists use, match _cur_block s with Some k => let* blk := load k in mret (negb (full blk)) | None => mret false end w = Some (use, w) /\
    (use = true -> exists k blk, _cur_block s = Some k /\ heap w !! k = Some blk /\ full blk = false)) as (use & Huse & Htrue).
  { destruct Hid as (_ & _ & _ & tc & Hi & _ & Hk). destruct (_cur_block s) as [k|]; [|by exists false]. destruct (Hk k eq_refl) as (_ & blk & Hb & _). exists (negb (full blk)). unfold mbind', load, mret. rewrite Hb.
    split; [done|]. intros Hf. exists k, blk. split; [done|]. split; [done|]. by destruct (full blk). }
  unfold next_block. rewrite (bind_run _ _ _ _ _ Huse). destruct use.
  - destruct (Htrue eq_refl) as (k & blk & Hc & Hb & Hf). exists s, w. do 4 (split; [done|]). split; [|intros _; by rewrite Hc]. intros k' Hk'. exists blk. by simplify_eq.
  - destruct (release_block_spec w b s bs Hid) as (w1 & Heq1 & Hid1). rewrite (bind_run _ _ _ _ _ Heq1).
    destruct (get_block_spec w1 b (set_cur None s) bs Hid1 eq_refl Hsz) as (ok & w2 & Heq2 & Hid2 & Hk2 & Hall). rewrite (bind_run _ _ _ _ _ Heq2). eexists _, w2. split; [done|]. split; [exact Hid2|]. done.
Qed.
Lemma out_next_spec w b s bs : idle w b s bs -> size_ok s -> 2 * (len bs + DEFAULT_BLOCK_SIZE) < limit ->
  exists o b' s' w', Next b s w = Some ((o, b', s'), w') /\ _block_size s' = _block_size s /\
    match o with
    | None => b' = b /\ idle w' b s' bs /\ _byte_count s' = _byte_count s /\ _cur_block s' = None /\ ~ forall k, malloc_ok k = true
    | Some (mkArea k d n) => lent w' b' s' bs k d (d + n) /\ 0 < n /\ 0 <= d /\ d + n <= DEFAULT_BLOCK_SIZE /\ _byte_count s' = i64 (_byte_count s + n)
    end.
Proof.
  intros Hid Hsz Hlim. destruct (out_block_spec w b s bs Hid Hsz) as (s1 & w1 & Heq1 & Hid1 & Hbs1 & Hbc1 & Hk1 & Hall). unfold Next. rewrite (bind_run _ _ _ _ _ Heq1). destruct (_cur_block s1) as [k|] eqn:Hc.
  - destruct (Hk1 k eq_refl) as (blk & Hb & Hf). destruct (lend_spec w1 b s1 bs k blk Hid1 Hc Hb Hf Hlim) as (w2 & b' & w3 & Hm & Hp & Hl & Hls & Hr & Hd). unfold mbind' at 1, load at 1. rewrite Hb. cbn [fmap option_fmap option_map].
    rewrite (bind_run _ _ _ _ _ Hm), (bind_run _ _ _ _ _ Hp). eexists _, _, _, w3. split; [done|]. split; [done|]. cbn [offset length]. unfold DEFAULT_BLOCK_SIZE in *.
    rewrite Hls, i32_small by lia. replace (size blk + (cap blk - size blk)) with (cap blk) by lia. split; [exact Hl|]. split; [lia|]. split; [lia|]. split; [lia|]. cbn. by rewrite Hbc1.
  - eexists _, _, _, w1. split; [done|]. split; [done|]. split; [done|]. split; [done|]. split; [done|]. split; [done|]. intros Hm. by destruct (Hall Hm).
Qed.

(** ** Changing a block behind what others see of it *)
Lemma slice_take (x : list Z) (o n d : nat) : (o + n <= d)%nat -> take n (drop o x) = take n (drop o (take d x)).
Proof. intros Hd. rewrite skipn_firstn_comm, take_take. f_equal. lia. Qed.
Lemma ref_bytes_in w r k blk : block r = Some k -> heap w !! k = Some blk -> ref_bytes w r = take (Z.to_nat (length r)) (drop (Z.to_nat (offset r)) (data blk)).
Proof. intros Hb Hk. unfold ref_bytes. by rewrite Hb, Hk. Qed.
Section Above.
Context (w : World) (k : bid) (blk blk' : Block) (d : Z).
Hypothesis Hk : heap w !! k = Some blk.
Hypothesis Hd : 0 <= d <= size blk'.
Hypothesis Hdata : take (Z.to_nat d) (data blk') = take (Z.to_nat d) (data blk).
Let w' := set_heap (<[k := blk']> (heap w)) w.
Lemma above_valid l : valid w l -> (forall r, r ∈ l -> block r = Some k -> offset r + length r <= d) -> valid w' l /\ bytes w' l = bytes w l.
Proof.
  unfold valid. intros Hv Hb. induction Hv as [|r l Hr Hv IH]; [done|]. destruct IH as [IHv IHb]; [intros x Hx; apply Hb; by right|]. rewrite !bytes_cons, IHb.
  destruct Hr as (kr & blkr & Hbr & Hhr & Ho & Hl & He). destruct (decide (kr = k)) as [->|Hne].
  - specialize (Hb r ltac:(left) Hbr). assert (heap w' !! k = Some blk') as Hk' by apply lookup_insert_eq. split.
    + constructor; [|done]. exists k, blk'. split; [done|]. split; [done|]. split_and!; lia.
    + f_equal. rewrite (ref_bytes_in w' r k blk' Hbr Hk'), (ref_bytes_in w r k blk Hbr Hk). rewrite (slice_take (data blk') _ _ (Z.to_nat d)), (slice_take (data blk) _ _ (Z.to_nat d)) by lia. by rewrite Hdata.
  - assert (heap w' !! kr = Some blkr) as Hk' by (cbn; by rewrite lookup_insert_ne). split; [constructor; [|done]; by exists kr, blkr|].
    f_equal. by rewrite (ref_bytes_in w' r kr blkr Hbr Hk'), (ref_bytes_in w r kr blkr Hbr Hhr).
Qed.
Hypothesis Hok : block_ok blk'.
Hypothesis Hsame : cap blk' = cap blk /\ nshared blk' = nshared blk /\ u blk' = u blk /\ is_user_data blk' = is_user_data blk.
Lemma above_state s R : stable ws w rs -> (forall blk0, k ∈ rs -> heap ws !! k = Some blk0 -> size blk0 <= d) -> default_caps w -> accounted w s R ->
  stable ws w' rs /\ default_caps w' /\ accounted w' s R.
Proof.
  destruct Hsame as (Hcap & Hns & Hu & Hud). intros Hst Hlow Hcaps (tc & Hi & Hn & Hc). split; [|split].
  - intros x blkx Hx Hbx. destruct (Hst x blkx Hx Hbx) as (blk1 & Hb1 & Hs1 & Hc1 & Hu1 & Ht1). destruct (decide (x = k)) as [->|Hne]; [|exists blk1; cbn; by rewrite lookup_insert_ne].
    exists blk'. cbn. rewrite lookup_insert_eq. split; [done|]. assert (blk1 = blk) as -> by congruence. specialize (Hlow blkx Hx Hbx). split; [lia|]. split; [congruence|]. split; [congruence|].
    rewrite <- Ht1. replace (Z.to_nat (size blkx)) with (Nat.min (Z.to_nat (size blkx)) (Z.to_nat d)) by lia. by rewrite <- !take_take, Hdata.
  - apply caps_insert; [|done]. rewrite Hcap, Hud. apply (Hcaps k blk Hk).
  - exists tc. destruct (inv_block _ _ _ _ Hi k blk Hk) as (_ & Hcnt & Hpos). split; [|split; [done|]].
    + eapply inv_update; [exact Hi|exact Hk|done|done|done|done|by rewrite Hns|by rewrite Hns].
    + intros k' Hk'. destruct (Hc k' Hk') as (Hni & bx & Hbx & Hudx). split; [done|]. destruct (decide (k' = k)) as [->|Hne]; [|exists bx; cbn; by rewrite lookup_insert_ne].
      exists blk'. cbn. rewrite lookup_insert_eq. split; [done|]. congruence.
Qed.
End Above.
(** What the last reference has of the content, and the rest of the block. *)
Lemma lent_content w l r k blk bs fill d e : valid w (l ++ [r]) -> block r = Some k -> offset r <= d <= e -> offset r + length r = e -> heap w !! k = Some blk -> len (data blk) = e ->
  bytes w (l ++ [r]) = bs ++ fill -> len fill = e - d ->
  0 <= offset r /\ bs = bytes w l ++ drop (Z.to_nat (offset r)) (take (Z.to_nat d) (data blk)) /\ fill = drop (Z.to_nat d) (data blk).
Proof.
  intros [_ [(kr & blkr & Hbr & Hhr & Ho & Hl & He) _]%Forall_cons]%Forall_app Hb Hd Hend Hk Hdl Hby Hf. split; [done|]. rewrite bytes_app, bytes_one, (ref_bytes_in w r k blk Hb Hk) in Hby.
  rewrite take_ge in Hby by (rewrite length_drop; lia). assert (drop (Z.to_nat (offset r)) (data blk) = drop (Z.to_nat (offset r)) (take (Z.to_nat d) (data blk)) ++ drop (Z.to_nat d) (data blk)) as Hsplit.
  { rewrite <- (take_drop (Z.to_nat d) (data blk)) at 1. rewrite drop_app_le; [done|]. rewrite length_take. lia. }
  rewrite Hsplit, app_assoc in Hby. apply app_inj_2 in Hby as [<- <-]; [done|]. rewrite length_drop. lia.
Qed.

(** ** Using what is lent *)
Lemma write_lent w b s bs k d e src : lent w b s bs k d e -> d + len src <= e ->
  exists w', write_at k d src w = Some (tt, w') /\ lent w' b s (bs ++ src) k (d + len src) e.
Proof.
  intros (Hcur & Hst & Hcap & Hacc & Hde & Hlow & l & r & blk & fill & Hr & Hv & Hbr & Ho & He & Hk & Hsz & Hc & Hby & Hf & Hl) Hfit.
  pose proof Hacc as (tc & Hi & _). destruct (inv_block _ _ _ _ Hi k blk Hk) as ((_ & H31 & Hdl & Hu) & _).
  destruct (lent_content w l r k blk bs fill d e Hv Hbr) as (Ho0 & Hbs & Hfill); [lia|lia|done|lia|done|lia|].
  set (dat := take (Z.to_nat d) (data blk) ++ src ++ drop (Z.to_nat d + Datatypes.length src) (data blk)).
  assert (Z.of_nat (Datatypes.length dat) = e) as Hlen by (unfold dat; rewrite !length_app, length_take, length_drop; lia).
  assert (take (Z.to_nat d) dat = take (Z.to_nat d) (data blk)) as Hpre by (unfold dat; rewrite take_app_le by (rewrite length_take; lia); rewrite take_take; f_equal; lia).
  assert (block_ok (set_data dat blk)) as Hok by (split_and!; cbn; lia || done). set (w' := set_heap (<[k := set_data dat blk]> (heap w)) w).
  exists w'. split.
  { unfold write_at, mbind', load, store. rewrite Hk. cbn [fmap option_fmap option_map]. rewrite (proj2 (Z.leb_le 0 d)), (proj2 (Z.leb_le (d + len src) _)) by lia. cbn [andb]. by rewrite Hk. }
  destruct (above_state w k blk (set_data dat blk) d Hk) with (s := s) (R := owned b ++ rs) as (Hst' & Hcap' & Hacc'); [cbn; lia|done|done|done|done|done|done|done|].
  split; [done|]. split; [done|]. split; [done|]. split; [done|]. split; [lia|]. split; [intros blk0 Hin Hb0; specialize (Hlow blk0 Hin Hb0); lia|].
  pose proof Hv as [Hvl [Hvr _]%Forall_cons]%Forall_app. destruct (above_valid w k blk (set_data dat blk) d Hk) with (l := l) as [Hvl' Hbl']; [cbn; lia|done|done|done|]. fold w' in Hvl', Hbl'.
  assert (heap w' !! k = Some (set_data dat blk)) as Hk' by apply lookup_insert_eq.
  exists l, r, (set_data dat blk), (drop (Datatypes.length src) fill). split; [done|]. split.
  { apply Forall_app. split; [done|]. constructor; [|constructor]. destruct Hvr as (kr & br & Hbkr & Hbr' & ? & ? & ?). simplify_eq. exists k, (set_data dat blk). by split_and!. }
  split; [done|]. split; [lia|]. do 4 (split; [done|]). split; [|split; [rewrite length_drop; lia|intros r' Hr' Hbr'; specialize (Hl r' Hr' Hbr'); lia]].
  rewrite bytes_app, bytes_one, Hbl', (ref_bytes_in w' r k _ Hbr Hk'), take_ge by (cbn; rewrite length_drop; lia). cbn [data set_data]. rewrite Hbs, Hfill, <- !app_assoc. f_equal.
  unfold dat. rewrite drop_app_le by (rewrite length_take; lia). by rewrite drop_drop.
Qed.
#[local] Instance framing_pop_back b : Framing (_pop_back_ref b).
Proof. unfold _pop_back_ref. framing. Qed.
Lemma release_tls_idle w b s bs k : idle w b s bs -> _cur_block s = Some k -> _block_size s = 0 ->
  exists w', release_tls_block (Some k) w = Some (tt, w') /\ idle w' b (set_cur None s) bs.
Proof.
  intros Hid Hc Hz. destruct (release_block_spec w b s bs Hid) as (w' & Heq & Hid'). exists w'. split; [|done]. unfold _release_block in Heq. rewrite Hz, Hc in Heq. change (0 <? 0) with false in Heq. cbn iota in Heq.
  inv_bind Heq. injection Heq as <-. rewrite E. by destruct a.
Qed.
Lemma back_up_ref_spec w b s bs k d e : lent w b s bs k d e -> 0 <= e -> e < 2 ^ 31 -> 0 <= d ->
  exists b' s' w', back_up_ref k b s (e - d) w = Some ((0, b', s'), w') /\ idle w' b' s' bs /\ _block_size s' = _block_size s /\ _byte_count s' = i64 (_byte_count s - (e - d)) /\
    (_block_size s = 0 -> _cur_block s' = None).
Proof.
  intros (Hcur & Hst & Hcap & Hacc & Hde & Hlow & l & r & blk & fill & Hr & Hv & Hbr & Ho & He & Hk & Hsz & Hc & Hby & Hf & Hl) He0 He31 Hd0.
  pose proof Hacc as (tc & Hi & Hn & _). destruct (inv_block _ _ _ _ Hi k blk Hk) as ((_ & H31 & Hdl & Hu) & _).
  destruct (lent_content w l r k blk bs fill d e Hv Hbr) as (Ho0 & Hbs & Hfill); [lia|lia|done|lia|done|lia|]. pose proof (repr_shape _ _ Hr) as [Hsl [Hsr _]%Forall_cons]%Forall_app. pose proof Hsr as (_ & Hlr & _).
  assert (block_ok (set_size d blk)) as Hok by (split_and!; cbn; lia || done). set (w1 := set_heap (<[k := set_size d blk]> (heap w)) w).
  destruct (above_state w k blk (set_size d blk) d Hk) with (s := s) (R := owned b ++ rs) as (Hst1 & Hcap1 & Hacc1); [cbn; lia|done|done|done|done|done|done|done|]. fold w1 in Hst1, Hcap1, Hacc1.
  pose proof Hv as [Hvl [Hvr _]%Forall_cons]%Forall_app. destruct (above_valid w k blk (set_size d blk) d Hk) with (l := l) as [Hvl1 Hbl1]; [cbn; lia|done|done|done|]. fold w1 in Hvl1, Hbl1.
  assert (heap w1 !! k = Some (set_size d blk)) as Hk1 by apply lookup_insert_eq. unfold back_up_ref, back_ref, mlift. unfold mbind' at 1. rewrite (back_ref_spec _ _ Hr r l eq_refl). cbn [fmap option_fmap option_map].
  assert (forall n, size blk - n = d -> modify k (fun blk => set_size (u32 (size blk - n)) blk) w = Some (tt, w1)) as Hmod.
  { intros n Hnd. unfold modify, mbind', load, store. rewrite Hk. cbn [fmap option_fmap option_map]. rewrite Hk, Hnd, u32_small by lia. done. }
  rewrite (u32_small (e - d)) by lia. destruct (Z.ltb_spec (e - d) (length r)) as [Hlt|Hge].
  - rewrite (bind_run _ _ _ _ _ (Hmod (e - d) ltac:(lia))). set (r' := ref_shrink r (e - d)). assert (length r' = length r - (e - d)) as Hlr' by (unfold r', ref_shrink; cbn; rewrite u32_small by lia; done).
    assert (ref_shape r') as Hsr' by (destruct Hsr as (? & ? & ? & ?); split_and!; rewrite ?Hlr'; cbn; lia || done).
    pose proof (set_back_spec b r l r' (e - d) Hr Hsr' Hlr' ltac:(lia)) as Hr'. set (b' := set_back_ref b r' (e - d)) in *.
    assert (idle w1 b' (count_bytes (- (e - d)) s) bs) as Hid.
    { split; [|split; [done|split; [done|]]].
      - assert (bs = bytes w1 (l ++ [r'])) as ->.
        { rewrite bytes_app, bytes_one, Hbl1, (ref_bytes_in w1 r' k _ Hbr Hk1), Hlr', Hbs. f_equal. cbn [offset r' ref_shrink data set_size]. rewrite skipn_firstn_comm. f_equal. lia. }
        apply holds_intro; [done|]. apply Forall_app. split; [done|]. constructor; [|constructor]. exists k, (set_size d blk). split; [done|]. split; [done|]. rewrite Hlr'. cbn. lia.
      - assert (owned b' = owned b) as Hown by (rewrite (owned_repr _ _ Hr), (owned_repr _ _ Hr'), !ids_app; done). rewrite Hown. exact Hacc1. }
    destruct (Z.eqb_spec (_block_size s) 0) as [Hz|Hz].
    + destruct (release_tls_idle w1 b' _ bs k Hid Hcur Hz) as (w2 & Heq2 & Hid2). rewrite (bind_run _ _ _ _ _ Heq2). eexists _, _, w2. split; [done|]. split; [exact Hid2|]. done.
    + eexists _, _, w1. split; [done|]. split; [exact Hid|]. done.
  - assert (d = offset r) as -> by lia. rewrite (bind_run _ _ _ _ _ (Hmod (length r) ltac:(lia))). destruct Hacc1 as (tc1 & Hi1 & Hn1 & Hc1).
    destruct (pop_back_spec b r l (block_head w1) tc1 w1 (held s ++ rs) Hr) as (b' & w2 & Heq2 & Hr2 & Hi2 & Hfr).
    { eapply inv_perm; [|exact Hi1]. intros x. rewrite (owned_repr _ _ Hr), !cnt_app. lia. }
    rewrite (bind_run _ _ _ _ _ Heq2). pose proof Hfr as (Hkeep & (Hh2 & Hn2 & _) & _). pose proof (frame_stable _ _ _ _ _ Hfr Hi2) as Hst2.
    assert (idle w2 b' (count_bytes (- length r) s) bs) as Hid.
    { split; [|split; [eapply stable_trans; [exact Hst1|]; eapply stable_sub; [|exact Hst2]; set_solver|split; [exact (capped_framing _ (framing_pop_back b) _ _ _ Heq2 Hcap1)|]]].
      - destruct (valid_stable w1 w2 l _ Hst2) as [Hvl2 Hbl2]; [set_solver|done|]. assert (bs = bytes w2 l) as ->; [|by apply holds_intro].
        rewrite Hbl2, Hbl1, Hbs, skipn_firstn_comm, Nat.sub_diag, take_0. by rewrite app_nil_r.
      - exists tc1. split; [rewrite Hh2; eapply inv_perm; [|exact Hi2]; intros x; rewrite (owned_repr _ _ Hr2); unfold held; cbn; rewrite !cnt_app; lia|]. split; [by rewrite Hn2|].
        intros k' Hk'. destruct (Hc1 k' Hk') as (Hni & bx & Hbx & Hudx). split; [done|]. assert (k' ∈ ids l ++ held s ++ rs) as Hin by (unfold held; cbn in Hk'; rewrite Hk'; set_solver).
        destruct (inv_live _ _ _ _ Hi2 k' Hin) as [by' Hby']. exists by'. split; [done|]. destruct (Hkeep k' by' Hby') as (b0 & Hb0 & E). simplify_eq. by rewrite E. }
    destruct (release_block_spec w2 b' _ bs Hid) as (w3 & Heq3 & Hid3). rewrite (bind_run _ _ _ _ _ Heq3). eexists _, _, w3. split; [by replace (i32 (e - offset r - length r)) with 0 by (rewrite i32_small; lia)|].
    split; [exact Hid3|]. split; [done|]. split; [|done]. cbn. f_equal. lia.
Qed.
Lemma back_up_spec w b s bs k d e : lent w b s bs k d e -> 0 <= d -> e < 2 ^ 31 ->
  exists b' s' w', BackUp b s (e - d) w = Some ((b', s'), w') /\ idle w' b' s' bs /\ _block_size s' = _block_size s /\ _byte_count s' = i64 (_byte_count s - (e - d)) /\
    (_block_size s = 0 -> _cur_block s' = None).
Proof.
  intros Hl Hd He. pose proof Hl as (Hcur & _ & _ & _ & Hde & _ & l & r & blk & fill & Hr & _ & Hbr & _ & Hend & Hk & Hsz & _).
  destruct (back_up_ref_spec w b s bs k d e Hl) as (b' & s' & w' & Heq & Hrest); [lia|done|done|]. exists b', s', w'. split; [|exact Hrest].
  unfold BackUp, ref_fuel. cbn [BackUp_loop]. rewrite (empty_spec _ _ Hr), bool_decide_eq_false_2 by (by destruct l). unfold back_ref, mlift. unfold mbind' at 1. rewrite (back_ref_spec _ _ Hr r l eq_refl). cbn [fmap option_fmap option_map].
  rewrite Hbr. unfold mbind' at 1, load at 1. rewrite Hk. cbn [fmap option_fmap option_map]. rewrite Hcur, bool_decide_eq_true_2 by done. rewrite Hend, u32_small, Hsz, Z.eqb_refl by lia. cbn [negb].
  rewrite (bind_run _ _ _ _ _ Heq). done.
Qed.
(** With the lent part as content. *)
Lemma lent_idle w b s bs k d e : lent w b s bs k d e -> exists fill, idle w b s (bs ++ fill).
Proof.
  intros (_ & Hst & Hcap & Hacc & _ & _ & l & r & blk & fill & Hr & Hv & _ & _ & _ & _ & _ & _ & Hb & _). exists fill. split; [|done]. rewrite <- Hb. by apply holds_intro.
Qed.
(** The destructors give back what the stream and the buffer hold. *)
Lemma delete_idle w b s bs : idle w b s bs -> exists w1 w2, OutStream_delete s w = Some (tt, w1) /\ holds w1 b bs /\ inv w1 (owned b ++ rs) /\ stable ws w1 rs /\
  clear b w1 = Some (IOBuf_empty, w2) /\ inv w2 rs /\ stable ws w2 rs.
Proof.
  intros Hid. destruct (release_block_spec w b s bs Hid) as (w1 & Heq1 & Hh1 & Hst1 & _ & Hacc1). pose proof (accounted_inv _ _ _ Hacc1) as Hi1. cbn [held set_cur _cur_block app] in Hi1.
  destruct (clear_yields w1 b bs rs Hh1 Hi1) as (w2 & Heq2 & _ & Hi2 & Hst2). exists w1, w2. unfold OutStream_delete. rewrite (bind_run _ _ _ _ _ Heq1). do 5 (split; [done|]). split; [exact Hi2|by eapply stable_trans].
Qed.
End State.
End IOBufOutput.
