(* ===== verification/RecordIO.v ===== *)
(** * Records in a stream of bytes (butil/recordio.h, recordio.cc)

    A record has a payload and named metas.  RecordWriter writes it behind a header with a
    magic number, a size and a checksum of the size; RecordReader cuts records from what
    an IReader gives and looks for the next magic number when one is damaged.

    The contents of the IOBufs of a record are byte strings here.  What the reader does with
    its IOPortal and IOBufCutter is an interface, [ByteSource]; the theorems about the reader
    are proved from its laws, and RecordSource shows when portal and cutter satisfy them. *)
From stdpp Require Import base list.
From Stdlib Require Import ZArith Lia Bool.
From S2P Require Import Prelude.

Open Scope Z_scope.
Open Scope m_scope.

Module RecordIO.
Abbreviation len l := (Z.of_nat (length l)).

(** ** Records *)
Record NamedMeta := mkMeta { name : list Z; data : list Z }.
Record Rec := mkRec { _payload : list Z; _metas : list NamedMeta }.
Definition Record_new : Rec := mkRec [] [].
Definition MAX_NAME_SIZE : Z := 256.

(** The index of the first meta with the name. *)
Fixpoint find_meta (nm : list Z) (ms : list NamedMeta) : option nat :=
  match ms with
  | [] => None
  | m :: ms => if decide (name m = nm) then Some O else S <$> find_meta nm ms
  end.
Definition Meta (r : Rec) (nm : list Z) : option (list Z) :=
  i ← find_meta nm (_metas r); data <$> _metas r !! i.
(** The pointer to the IOBuf of a meta is its index. *)
Definition MutableMeta (r : Rec) (nm : list Z) (null_on_found : bool) : option nat * Rec :=
  match find_meta nm (_metas r) with
  | Some i => (if null_on_found then None else Some i, r)
  | None =>
      if MAX_NAME_SIZE <? len nm then (None, r)
      else if decide (nm = []) then (None, r)
      else (Some (length (_metas r)), mkRec (_payload r) (_metas r ++ [mkMeta nm []]))
  end.
(** The removed meta is replaced by the last one. *)
Definition RemoveMeta (r : Rec) (nm : list Z) : bool * Rec :=
  match find_meta nm (_metas r), last (_metas r) with
  | Some i, Some m => (true, mkRec (_payload r) (take (length (_metas r) - 1) (<[i := m]> (_metas r))))
  | _, _ => (false, r)
  end.
Definition Clear (r : Rec) : Rec := mkRec [] [].
Definition ByteSize (r : Rec) : Z :=
  u64 (foldl (fun n m => n + (5 + len (name m) + len (data m))) (9 + len (_payload r)) (_metas r)).
(** Writing to the IOBuf behind the pointer. *)
Definition meta_append (r : Rec) (i : nat) (d : list Z) : Rec :=
  mkRec (_payload r) (alter (fun m => mkMeta (name m) (data m ++ d)) i (_metas r)).

(** ** The format *)
Definition BRPC_RECORDIO_MAGIC : list Z := [82; 68; 73; 79].
(** [NetToHost32] of four bytes in memory, and [HostToNet32] stored to memory; the host
    is little-endian. *)
Definition net32 (s : list Z) : Z := foldl (fun z c => z * 256 + c) 0 s.
Definition be32 (z : Z) : list Z := [z / 2 ^ 24 mod 256; z / 2 ^ 16 mod 256; z / 2 ^ 8 mod 256; z mod 256].
Definition le32 (z : Z) : list Z := rev (be32 z).

Definition crc8_table : list Z :=
  [234; 212; 150; 168; 18; 44; 110; 80; 127; 65; 3; 61; 135; 185; 251; 197; 165; 155; 217; 231; 93; 99; 33; 31;
   48; 14; 76; 114; 200; 246; 180; 138; 116; 74; 8; 54; 140; 178; 240; 206; 225; 223; 157; 163; 25; 39; 101; 91;
   59; 5; 71; 121; 195; 253; 191; 129; 174; 144; 210; 236; 86; 104; 42; 20; 179; 141; 207; 241; 75; 117; 55; 9;
   38; 24; 90; 100; 222; 224; 162; 156; 252; 194; 128; 190; 4; 58; 120; 70; 105; 87; 21; 43; 145; 175; 237; 211;
   45; 19; 81; 111; 213; 235; 169; 151; 184; 134; 196; 250; 64; 126; 60; 2; 98; 92; 30; 32; 154; 164; 230; 216;
   247; 201; 139; 181; 15; 49; 115; 77; 88; 102; 36; 26; 160; 158; 220; 226; 205; 243; 177; 143; 53; 11; 73; 119;
   23; 41; 107; 85; 239; 209; 147; 173; 130; 188; 254; 192; 122; 68; 6; 56; 198; 248; 186; 132; 62; 0; 66; 124;
   83; 109; 47; 17; 171; 149; 215; 233; 137; 183; 245; 203; 113; 79; 13; 51; 28; 34; 96; 94; 228; 218; 152; 166;
   1; 63; 125; 67; 249; 199; 133; 187; 148; 170; 232; 214; 108; 82; 16; 46; 78; 112; 50; 12; 182; 136; 202; 244;
   219; 229; 167; 153; 35; 29; 95; 97; 159; 161; 227; 221; 103; 89; 27; 37; 10; 52; 118; 72; 242; 204; 142; 176;
   208; 238; 172; 146; 40; 22; 84; 106; 69; 123; 57; 7; 189; 131; 193; 255].
Definition crc8 (crc c : Z) : Z := nth (Z.to_nat (Z.lxor crc c)) crc8_table 0.
Definition SizeChecksum (input : Z) : Z :=
  let crc := crc8 0 (Z.land input 255) in
  let crc := crc8 crc (Z.land (Z.shiftr input 8) 255) in
  let crc := crc8 crc (Z.land (Z.shiftr input 16) 255) in
  crc8 crc (Z.land (Z.shiftr input 24) 255).
Definition SIZE_MASK : Z := 2147483647.
Definition META_BIT : Z := 2147483648.

(** ** RecordWriter

    [_buf] is a byte string; the reserved header is filled in when the size is known. *)
Fixpoint write_metas (buf : list Z) (ms : list NamedMeta) : option (list Z) :=
  match ms with
  | [] => Some buf
  | m :: ms' =>
      if MAX_NAME_SIZE <? len (name m) then None
      else if SIZE_MASK <? len (data m) then None
      else
        let tmp := Z.land (len (data m)) SIZE_MASK in
        let tmp := match ms' with [] => tmp | _ => Z.lor tmp META_BIT end in
        write_metas (buf ++ (u8 (len (name m)) :: name m ++ be32 tmp) ++ data m) ms'
  end.
Definition WriteWithoutFlush (buf : list Z) (r : Rec) : Z * list Z :=
  let old_size := len buf in
  let buf1 := buf ++ replicate 9 0 in
  match write_metas buf1 (_metas r) with
  | None => (-1, buf)
  | Some buf2 =>
      let buf3 := match _payload r with [] => buf2 | p => buf2 ++ p end in
      let data_size := len buf3 - old_size - 9 in
      if SIZE_MASK <? data_size then (-1, take (Z.to_nat old_size) buf3)
      else
        let tmp := Z.land data_size SIZE_MASK in
        let tmp := match _metas r with [] => tmp | _ => Z.lor tmp META_BIT end in
        let headbuf := BRPC_RECORDIO_MAGIC ++ be32 tmp ++ [SizeChecksum tmp] in
        (0, take (Z.to_nat old_size) buf3 ++ headbuf ++ drop (Z.to_nat old_size + 9) buf3)
  end.

(** An IWriter: of the bytes it is offered it takes some, or it answers 0 or a negative
    number with an [errno]. *)
Class Sink (W : Type) := WriteSome : list Z -> W -> (Z * Z) * W.
Definition EAGAIN : Z := 11.
Section Writer.
Context {W : Type} `{Sink W}.
Definition cut_into_writer (buf : list Z) (w : W) : (Z * Z) * list Z * W :=
  match buf with
  | [] => (0, 0, [], w)
  | _ => let '(nw, err, w') := WriteSome buf w in
         if 0 <? nw then (nw, err, drop (Z.to_nat nw) buf, w') else (nw, err, buf, w')
  end.
Fixpoint Flush_loop (fuel : nat) (total_nw : Z) (buf : list Z) (w : W) : option (Z * list Z * W) :=
  match fuel with
  | O => None
  | S fuel' =>
      let '(nw, err, buf', w') := cut_into_writer buf w in
      if 0 <? nw then Flush_loop fuel' (total_nw + nw) buf' w'
      else if 0 <? total_nw then Some (0, buf', w')
      else if nw =? 0 then Some (if decide (buf' = []) then 0 else EAGAIN, buf', w')
      else Some (err, buf', w')
  end.
Definition Flush (buf : list Z) (w : W) : option (Z * list Z * W) := Flush_loop (S (length buf)) 0 buf w.
Definition Write (buf : list Z) (r : Rec) (w : W) : option (Z * list Z * W) :=
  let (rc, buf') := WriteWithoutFlush buf r in
  if negb (rc =? 0) then Some (rc, buf', w) else Flush buf' w.
End Writer.

(** ** RecordReader *)
Inductive dest := ToBuffer | ToString | ToMemory.
Class ByteSource (S : Type) := {
  copy_to : Z -> M S (list Z);
  pop_front : Z -> M S Z;
  cut1 : M S (option Z);
  cutn : dest -> Z -> M S (list Z);
  remaining_bytes : M S Z;
  fill : Z -> M S (Z * Z)  (* append_from_reader: the bytes read and errno *)
}.
Definition END_OF_READER : Z := -1.
Definition MAX_READ : Z := 1024 * 1024.

(** The first [i < m] at which the magic number stands. *)
Fixpoint find_magic (buf : list Z) (m : nat) : option nat :=
  match m with
  | O => None
  | S m' => if decide (take 4 buf = BRPC_RECORDIO_MAGIC) then Some O else S <$> find_magic (drop 1 buf) m'
  end.

Section Reader.
Context (recordio_max_record_size : Z) {S : Type} `{ByteSource S}.

(** The loop over the metas and the payload after it; [tmp] is the variable that the
    sizes are read into, [has_meta] its highest bit. *)
Fixpoint cut_metas (fuel : nat) (rec : Rec) (ncut tmp data_size consumed_bytes : Z) (has_meta : bool) : M S (Z * Rec * Z) :=
  if has_meta then
    match fuel with
    | O => ub
    | Datatypes.S fuel' =>
        let* name_size_buf := cut1 in
        let name_size := default 0 name_size_buf in
        let* nm := cutn ToString name_size in
        let* s := cutn ToMemory 4 in
        let tmp := net32 (s ++ drop (length s) (le32 tmp)) in
        let has_meta := Z.testbit tmp 31 in
        let meta_size := Z.land tmp SIZE_MASK in
        let ncut := ncut + 5 + name_size in
        if data_size <? consumed_bytes + 5 + name_size + meta_size then mret (-1, rec, ncut)
        else
          match MutableMeta rec nm true with
          | (None, rec) => mret (-1, rec, ncut)
          | (Some i, rec) =>
              let* d := cutn ToBuffer meta_size in
              cut_metas fuel' (meta_append rec i d) (ncut + meta_size) tmp data_size (consumed_bytes + 5 + name_size + meta_size) has_meta
          end
    end
  else
    let* d := cutn ToBuffer (data_size - consumed_bytes) in
    mret (1, mkRec (_payload rec ++ d) (_metas rec), ncut + len d).
Definition CutRecord (rec : Rec) (ncut : Z) : M S (Z * Rec * Z) :=
  let* headbuf := copy_to 9 in
  if negb (len headbuf =? 9) then mret (0, rec, ncut)
  else if decide (take 4 headbuf <> BRPC_RECORDIO_MAGIC) then mret (-1, rec, ncut)
  else
    let tmp := net32 (take 4 (drop 4 headbuf)) in
    let has_meta := Z.testbit tmp 31 in
    let data_size := Z.land tmp SIZE_MASK in
    if negb (SizeChecksum tmp =? nth 8 headbuf 0) then mret (-1, rec, ncut)
    else if recordio_max_record_size <? data_size then mret (-1, rec, ncut)
    else
      let* rem := remaining_bytes in
      if rem <? data_size + 9 then mret (0, rec, ncut)
      else
        do* pop_front 9 in
        cut_metas (Datatypes.S (Z.to_nat data_size)) (Clear rec) (ncut + 9) tmp data_size 0 has_meta.

(** The loop over windows of 512 bytes. *)
Fixpoint find_candidate (fuel : nat) (ncut : Z) : M S (bool * Z) :=
  match fuel with
  | O => ub
  | Datatypes.S fuel' =>
      let* buf := copy_to 512 in
      let nc := len buf in
      if nc <? 4 then mret (false, ncut)
      else
        let m := nc + 1 - 4 in
        match find_magic buf (Z.to_nat m) with
        | Some i => do* pop_front (Z.of_nat i) in mret (true, ncut + Z.of_nat i)
        | None => do* pop_front m in if nc <? 512 then mret (false, ncut + m) else find_candidate fuel' (ncut + m)
        end
  end.
Definition CutUntilNextRecordCandidate (fuel : nat) (ncut : Z) : M S (bool * Z) :=
  let* magic := copy_to 4 in
  if negb (len magic =? 4) then mret (false, ncut)
  else
    let* ncut' := (if decide (magic = BRPC_RECORDIO_MAGIC) then do* pop_front 4 in mret (ncut + 4) else mret ncut) in
    find_candidate fuel ncut'.

(** [_last_error] after a read that gave nothing. *)
Definition read_error (nr err : Z) : Z := if nr <? 0 then err else END_OF_READER.
(** [while (!CutUntilNextRecordCandidate())]: [None] when a candidate was found. *)
Fixpoint next_candidate (fuel : nat) (ncut : Z) : M S (option Z * Z) :=
  match fuel with
  | O => ub
  | Datatypes.S fuel' =>
      let* (found, ncut) := CutUntilNextRecordCandidate fuel ncut in
      if (found : bool) then mret (None, ncut)
      else
        let* (nr, err) := fill MAX_READ in
        if nr <=? 0 then mret (Some (read_error nr err), ncut) else next_candidate fuel' ncut
  end.
(** The result, the record, [_ncut] and [_last_error]. *)
Fixpoint ReadNext (fuel : nat) (out : Rec) (ncut : Z) : M S (bool * Rec * Z * Z) :=
  match fuel with
  | O => ub
  | Datatypes.S fuel' =>
      let* (rc, out, ncut) := CutRecord out ncut in
      if 0 <? rc then mret (true, out, ncut, 0)
      else if rc <? 0 then
        let* (err, ncut) := next_candidate fuel ncut in
        match err with
        | None => ReadNext fuel' out ncut
        | Some err => mret (false, out, ncut, err)
        end
      else
        let* (nr, err) := fill MAX_READ in
        if nr <=? 0 then mret (false, out, ncut, read_error nr err) else ReadNext fuel' out ncut
  end.
End Reader.

(** ** A source that is a list of chunks *)
Record Stream := mkStream { buffered : list Z; unread : list (list Z); ending : Z * Z }.
#[global] Instance stream_source : ByteSource Stream := {
  copy_to n s := Some (take (Z.to_nat n) (buffered s), s);
  pop_front n s := Some (Z.min n (len (buffered s)), mkStream (drop (Z.to_nat n) (buffered s)) (unread s) (ending s));
  cut1 s := Some (head (buffered s), mkStream (tail (buffered s)) (unread s) (ending s));
  cutn _ n s := Some (take (Z.to_nat n) (buffered s), mkStream (drop (Z.to_nat n) (buffered s)) (unread s) (ending s));
  remaining_bytes s := Some (len (buffered s), s);
  fill _ s := match unread s with
              | [] => Some (ending s, s)
              | c :: cs => Some (len c, 0, mkStream (buffered s ++ c) cs (ending s))
              end }.
End RecordIO.
