(* ===== verification/RecordIOSpec.v ===== *)
(** * The format of records, and what the reader makes of a stream

    The laws of a [ByteSource], the encoding of a record, and the lemmas that relate
    RecordWriter and RecordReader to it. *)
From stdpp Require Import base list.
From Stdlib Require Import ZArith Lia Bool.
From S2P Require Import Prelude RecordIO.

Open Scope Z_scope.
Open Scope m_scope.

Module RecordIOSpec.
Import RecordIO.

(** ** What the reader relies on

    [represents s bs un]: the bytes [bs] can be cut, and the reads to come deliver [un], in
    pieces that are not empty, and then nothing. *)
Class SourceLaws (S : Type) `{ByteSource S} := {
  represents : S -> list Z -> list Z -> Prop;
  copy_to_law s bs un n : represents s bs un -> 0 <= n ->
    exists s', copy_to n s = Some (take (Z.to_nat n) bs, s') /\ represents s' bs un;
  pop_front_law s bs un n : represents s bs un -> 0 <= n ->
    exists s', pop_front n s = Some (Z.min n (len bs), s') /\ represents s' (drop (Z.to_nat n) bs) un;
  cut1_law s bs un : represents s bs un -> exists s', cut1 s = Some (head bs, s') /\ represents s' (tail bs) un;
  cutn_law s bs un d n : represents s bs un -> 0 <= n ->
    exists s', cutn d n s = Some (take (Z.to_nat n) bs, s') /\ represents s' (drop (Z.to_nat n) bs) un;
  remaining_law s bs un : represents s bs un -> exists s', remaining_bytes s = Some (len bs, s') /\ represents s' bs un;
  fill_law s bs un : represents s bs un -> un <> [] ->
    exists s' c un' err, un = c ++ un' /\ c <> [] /\ fill MAX_READ s = Some ((len c, err), s') /\ represents s' (bs ++ c) un';
  fill_end_law s bs : represents s bs [] ->
    exists s' nr err, fill MAX_READ s = Some ((nr, err), s') /\ nr <= 0 /\ represents s' bs [] }.

(** Runs the first operation of the goal with its law. *)
Ltac run law :=
  let s' := fresh "s" in let Heq := fresh "Heq" in let Hrep := fresh "Hrep" in
  destruct law as (s' & Heq & Hrep); [..|rewrite (bind_run _ _ _ _ _ Heq)].
(** Runs a read: the end, or a piece that is not empty. *)
Lemma fill_cases {S} `{SourceLaws S} (s : S) bs un : represents s bs un ->
  exists s' nr err, fill MAX_READ s = Some ((nr, err), s') /\
    ((un = [] /\ nr <= 0 /\ represents s' bs []) \/ exists c un', un = c ++ un' /\ (0 < length c)%nat /\ 0 < nr /\ represents s' (bs ++ c) un').
Proof.
  intros Hr. destruct (decide (un = [])) as [->|Hne].
  - destruct (fill_end_law _ _ Hr) as (s' & nr & err & Hf & Hn & Hr'). exists s', nr, err. split; [done|by left].
  - destruct (fill_law _ _ _ Hr Hne) as (s' & c & un' & err & -> & Hc & Hf & Hr'). assert (0 < length c)%nat by (destruct c; [done|cbn; lia]).
    exists s', (len c), err. split; [done|]. right. exists c, un'. do 2 (split; [done|]). split; [lia|done].
Qed.

#[global] Program Instance stream_laws : SourceLaws Stream := {|
  represents s bs un := buffered s = bs /\ mjoin (unread s) = un /\ Forall (fun c => c <> []) (unread s) /\ (ending s).1 <= 0 |}.
Next Obligation. intros s bs un n Hr _. destruct Hr as (<- & Hr). by eexists. Qed.
Next Obligation. intros s bs un n (<- & Hr) _. by eexists. Qed.
Next Obligation. intros s bs un (<- & Hr). by eexists. Qed.
Next Obligation. intros s bs un d n (<- & Hr) _. by eexists. Qed.
Next Obligation. intros s bs un (<- & Hr). by eexists. Qed.
Next Obligation.
  intros s bs un (<- & <- & Hc & He) Hne. cbn. destruct (unread s) as [|c cs]; [done|]. apply Forall_cons in Hc as [Hc1 Hc]. by eexists _, c, (mjoin cs), _.
Qed.
Next Obligation.
  intros s bs (<- & Hu & Hc & He). cbn. destruct (unread s) as [|c cs] eqn:E; [|apply Forall_cons in Hc as [Hc _]; by apply app_nil in Hu as [-> _]].
  exists s, (ending s).1, (ending s).2. split; [by destruct (ending s)|]. by rewrite E.
Qed.

(** ** The encoding *)
Definition sized (n : Z) (more : bool) : Z := n + if more then 2 ^ 31 else 0.
Definition nonempty {A} (l : list A) : bool := match l with [] => false | _ => true end.
Definition encode_meta (more : bool) (m : NamedMeta) : list Z :=
  len (name m) :: name m ++ be32 (sized (len (data m)) more) ++ data m.
Fixpoint encode_metas (ms : list NamedMeta) : list Z :=
  match ms with [] => [] | m :: ms' => encode_meta (nonempty ms') m ++ encode_metas ms' end.
Definition body (r : Rec) : list Z := encode_metas (_metas r) ++ _payload r.
Definition head_of (r : Rec) : list Z :=
  let tmp := sized (len (body r)) (nonempty (_metas r)) in BRPC_RECORDIO_MAGIC ++ be32 tmp ++ [SizeChecksum tmp].
Definition encode (r : Rec) : list Z := head_of r ++ body r.
(** Records that can be read back: names are not empty, shorter than 256 bytes and
    pairwise different, and the reader's limit is kept. *)
Record good (max : Z) (r : Rec) : Prop := {
  good_names : Forall (fun m => 1 <= len (name m) <= 255) (_metas r);
  good_nodup : NoDup (map name (_metas r));
  good_size : len (body r) <= max }.

Lemma net32_be32 z : 0 <= z < 2 ^ 32 -> net32 (be32 z) = z.
Proof.
  intros Hz. unfold net32, be32. cbn [foldl]. rewrite Z.mul_0_l, Z.add_0_l. change (2 ^ 24) with (2 ^ 16 * 256). change (2 ^ 16) with (2 ^ 8 * 256). change (2 ^ 8) with 256.
  rewrite <- !Z.div_div by lia. rewrite (Z.mod_small (z / 256 / 256 / 256)).
  - pose proof (Z.div_mod (z / 256 / 256) 256). pose proof (Z.div_mod (z / 256) 256). pose proof (Z.div_mod z 256). lia.
  - split; [repeat apply Z.div_pos; lia|]. repeat apply Z.div_lt_upper_bound; lia.
Qed.
Lemma sized_bits n more : 0 <= n < 2 ^ 31 -> Z.testbit (sized n more) 31 = more /\ Z.land (sized n more) SIZE_MASK = n /\ 0 <= sized n more < 2 ^ 32.
Proof.
  intros Hn. unfold sized. change SIZE_MASK with (Z.ones 31). rewrite Z.land_ones by lia. split; [|split; [|destruct more; lia]].
  - rewrite Z.testbit_odd, Z.shiftr_div_pow2 by lia. destruct more.
    + replace (n + 2 ^ 31) with (n + 1 * 2 ^ 31) by lia. by rewrite Z.div_add, Z.div_small by lia.
    + by rewrite Z.add_0_r, Z.div_small by lia.
  - destruct more; [|rewrite Z.add_0_r; by apply Z.mod_small]. replace (n + 2 ^ 31) with (n + 1 * 2 ^ 31) by lia. rewrite Z.mod_add by lia. by apply Z.mod_small.
Qed.
Lemma sized_lor n : 0 <= n < 2 ^ 31 -> Z.lor (Z.land n SIZE_MASK) META_BIT = sized n true /\ Z.land n SIZE_MASK = sized n false.
Proof.
  intros Hn. change SIZE_MASK with (Z.ones 31). rewrite Z.land_ones, Z.mod_small by lia. unfold sized. rewrite Z.add_0_r. split; [|done].
  change META_BIT with (2 ^ 31). rewrite <- Z.lxor_lor, <- Z.add_nocarry_lxor; [done| |]; (apply Z.bits_inj'; intros k Hk; rewrite Z.land_spec, Z.bits_0, Z.pow2_bits_eqb by lia;
    destruct (Z.eqb_spec 31 k) as [<-|]; [|by rewrite andb_false_r]; rewrite andb_true_r, Z.testbit_odd, Z.shiftr_div_pow2, Z.div_small by lia; done).
Qed.
Lemma length_be32 z : length (be32 z) = 4%nat.
Proof. done. Qed.
Lemma head_of_length r : length (head_of r) = 9%nat.
Proof. done. Qed.
Lemma encode_length r : len (encode r) = 9 + len (body r).
Proof. unfold encode. rewrite length_app, head_of_length. lia. Qed.
Lemma encode_meta_length more m : len (encode_meta more m) = 5 + len (name m) + len (data m).
Proof. unfold encode_meta. cbn [length]. rewrite !length_app, length_be32. lia. Qed.
Lemma body_size r : ByteSize r = u64 (len (encode r)).
Proof.
  unfold ByteSize, encode, body. f_equal. rewrite !length_app, head_of_length.
  assert (forall ms z, foldl (fun n m => n + (5 + len (name m) + len (data m))) z ms = z + len (encode_metas ms)) as ->; [|lia].
  induction ms as [|m ms IH]; intros z; [cbn; lia|]. cbn [foldl encode_metas]. rewrite IH, length_app. pose proof (encode_meta_length (nonempty ms) m). lia.
Qed.

(** ** RecordWriter *)
Lemma write_metas_spec buf ms : Forall (fun m => 1 <= len (name m) <= 255) ms -> len (encode_metas ms) < 2 ^ 31 ->
  write_metas buf ms = Some (buf ++ encode_metas ms).
Proof.
  revert buf. induction ms as [|m ms IH]; intros buf Hn Hlen; cbn [write_metas encode_metas]; [by rewrite app_nil_r|].
  apply Forall_cons in Hn as [Hm Hn]. cbn [encode_metas] in Hlen. rewrite length_app in Hlen. pose proof (encode_meta_length (nonempty ms) m) as Hl.
  unfold MAX_NAME_SIZE, SIZE_MASK at 1. destruct (Z.ltb_spec 256 (len (name m))); [lia|]. destruct (Z.ltb_spec 2147483647 (len (data m))); [lia|].
  rewrite IH by (done || lia). f_equal. rewrite <- app_assoc. f_equal. unfold encode_meta. rewrite u8_small by lia. destruct (sized_lor (len (data m))) as [Hlor Hland]; [lia|].
  replace (match ms with [] => _ | _ => _ end) with (sized (len (data m)) (nonempty ms)) by (destruct ms; cbn [nonempty]; congruence).
  cbn [app]. f_equal. by rewrite <- !app_assoc.
Qed.
Lemma write_spec buf r : Forall (fun m => 1 <= len (name m) <= 255) (_metas r) -> len (body r) < 2 ^ 31 -> WriteWithoutFlush buf r = (0, buf ++ encode r).
Proof.
  intros Hn Hb. unfold WriteWithoutFlush. pose proof Hb as Hb'. unfold body in Hb'. rewrite length_app in Hb'. rewrite write_metas_spec by (done || lia).
  replace (match _payload r with [] => _ | _ => _ end) with (buf ++ replicate 9 0 ++ body r) by (unfold body; destruct (_payload r); rewrite ?app_nil_r, <- !app_assoc; done).
  assert (len (buf ++ replicate 9 0 ++ body r) - len buf - 9 = len (body r)) as -> by (rewrite !length_app, length_replicate; lia).
  unfold SIZE_MASK at 1. destruct (Z.ltb_spec 2147483647 (len (body r))); [lia|]. destruct (sized_lor (len (body r))) as [Hlor Hland]; [lia|].
  replace (match _metas r with [] => _ | _ => _ end) with (sized (len (body r)) (nonempty (_metas r))) by (destruct (_metas r); cbn [nonempty]; congruence).
  rewrite Nat2Z.id, take_app_length, <- drop_drop, drop_app_length. done.
Qed.
(** When WriteWithoutFlush fails, the buffer is as it was. *)
Lemma write_failed buf r : (WriteWithoutFlush buf r).1 <> 0 -> WriteWithoutFlush buf r = (-1, buf).
Proof.
  unfold WriteWithoutFlush. destruct (write_metas _ (_metas r)) as [buf2|] eqn:Hw; [|done]. destruct (SIZE_MASK <? _); [|done]. intros _. do 2 f_equal.
  assert (exists t, buf2 = buf ++ t) as [t ->].
  { assert (forall ms b b', write_metas b ms = Some b' -> exists t, b' = b ++ t) as Hx.
    - induction ms as [|m ms IH]; intros b b'; cbn [write_metas]; [intros [= <-]; exists []; by rewrite app_nil_r|].
      destruct (MAX_NAME_SIZE <? _); [done|]. destruct (SIZE_MASK <? _); [done|]. intros Hb. destruct (IH _ _ Hb) as [t ->]. eexists. by rewrite <- app_assoc.
    - destruct (Hx _ _ _ Hw) as [t ->]. eexists. by rewrite <- app_assoc. }
  rewrite Nat2Z.id. destruct (_payload r); by rewrite <- ?app_assoc, take_app_length.
Qed.

(** ** RecordReader *)
Section Reading.
Context (max : Z) (Hmax : 0 <= max < 2 ^ 31) {S : Type} `{SourceLaws S}.

Lemma find_meta_none nm ms : nm ∉ map name ms -> find_meta nm ms = None.
Proof.
  induction ms as [|m ms IH]; [done|]. cbn [map find_meta]. intros [Hne Hni]%not_elem_of_cons. rewrite decide_False by congruence. by rewrite IH.
Qed.
Lemma new_meta rec nm d : nm ∉ map name (_metas rec) -> 1 <= len nm <= 255 ->
  exists i r, MutableMeta rec nm true = (Some i, r) /\ meta_append r i d = mkRec (_payload rec) (_metas rec ++ [mkMeta nm d]).
Proof.
  intros Hni Hl. unfold MutableMeta. rewrite find_meta_none by done. unfold MAX_NAME_SIZE. destruct (Z.ltb_spec 256 (len nm)); [lia|].
  rewrite decide_False by (intros ->; cbn in Hl; lia). eexists _, _. split; [done|]. unfold meta_append. cbn [_payload _metas]. f_equal.
  rewrite alter_app_r_alt by lia. by rewrite Nat.sub_diag.
Qed.
Lemma cut_metas_spec fuel s ms pl rest un rec ncut tmp data_size consumed :
  represents s (encode_metas ms ++ pl ++ rest) un -> Forall (fun m => 1 <= len (name m) <= 255) ms -> NoDup (map name (_metas rec) ++ map name ms) ->
  data_size = consumed + len (encode_metas ms) + len pl -> data_size < 2 ^ 31 -> 0 <= consumed -> (length ms < fuel)%nat ->
  exists s', cut_metas fuel rec ncut tmp data_size consumed (nonempty ms) s =
    Some ((1, mkRec (_payload rec ++ pl) (_metas rec ++ ms), ncut + len (encode_metas ms) + len pl), s') /\ represents s' rest un.
Proof.
  revert s fuel rec ncut tmp consumed. induction ms as [|m ms IH]; intros s fuel rec ncut tmp consumed Hr Hn Hnd Hds H31 Hc Hf; (destruct fuel as [|fuel]; [cbn in Hf; lia|]); cbn [nonempty cut_metas].
  { cbn [encode_metas app length] in *. run (cutn_law s (pl ++ rest) un ToBuffer (data_size - consumed) Hr); [lia|]. replace (Z.to_nat (data_size - consumed)) with (length pl) in * by lia.
    rewrite take_app_length, drop_app_length in *. eexists. split; [|done]. unfold mret. rewrite app_nil_r. do 3 f_equal. lia. }
  apply Forall_cons in Hn as [Hm Hn]. cbn [encode_metas] in *. rewrite length_app, Nat2Z.inj_add, encode_meta_length in Hds. rewrite length_app, Nat2Z.inj_add, encode_meta_length.
  set (tmp1 := sized (len (data m)) (nonempty ms)). destruct (sized_bits (len (data m)) (nonempty ms)) as (Hbit & Hsize & Hrange); [lia|]. fold tmp1 in Hbit, Hsize, Hrange.
  unfold encode_meta in Hr. rewrite <- !app_assoc in Hr. cbn [app] in Hr. run (cut1_law _ _ _ Hr). cbn [head default tail] in *. unfold id. rewrite <- !app_assoc in Hrep. fold tmp1 in Hrep.
  run (cutn_law _ _ _ ToString (len (name m)) Hrep); [lia|]. rewrite Nat2Z.id, take_app_length, drop_app_length in *.
  run (cutn_law _ _ _ ToMemory 4 Hrep0); [lia|]. change (Z.to_nat 4) with (length (be32 tmp1)) in *. rewrite take_app_length, drop_app_length in *.
  change (drop (length (be32 tmp1)) (le32 tmp)) with (@nil Z). rewrite app_nil_r, net32_be32, Hbit, Hsize by done.
  destruct (Z.ltb_spec data_size (consumed + 5 + len (name m) + len (data m))); [lia|].
  cbn [map] in Hnd. destruct (new_meta rec (name m) (data m)) as (i & r & -> & Happ); [|done|]. { apply NoDup_app in Hnd as (_ & Hd & _). intros Hin. apply (Hd _ Hin). left. }
  run (cutn_law _ _ _ ToBuffer (len (data m)) Hrep1); [lia|]. rewrite Nat2Z.id, take_app_length, drop_app_length in *. rewrite Happ.
  destruct (IH s3 fuel (mkRec (_payload rec) (_metas rec ++ [mkMeta (name m) (data m)])) (ncut + 5 + len (name m) + len (data m)) tmp1 (consumed + 5 + len (name m) + len (data m))) as (s4 & Heq4 & Hrep4);
    [done|done| |lia|lia|lia|cbn in Hf; lia|].
  { cbn [_metas]. rewrite map_app, <- app_assoc. exact Hnd. }
  rewrite Heq4. exists s4. split; [|done]. cbn [_payload _metas]. rewrite <- app_assoc. cbn [app]. destruct m as [nm d]. cbn [name data]. do 3 f_equal. lia.
Qed.

(** What [CutRecord] sees of the head of a good record. *)
Lemma encode_head r : good max r -> exists tmp, encode r = BRPC_RECORDIO_MAGIC ++ be32 tmp ++ [SizeChecksum tmp] ++ body r /\
  net32 (be32 tmp) = tmp /\ Z.testbit tmp 31 = nonempty (_metas r) /\ Z.land tmp SIZE_MASK = len (body r).
Proof.
  intros [_ _ Hs]. exists (sized (len (body r)) (nonempty (_metas r))). destruct (sized_bits (len (body r)) (nonempty (_metas r))) as (Hb & Hl & Hr); [lia|].
  split; [done|]. split; [by apply net32_be32|done].
Qed.
Lemma metas_fuel ms : (length ms <= length (encode_metas ms))%nat.
Proof. induction ms as [|m ms IH]; [done|]. cbn [encode_metas length]. rewrite length_app. pose proof (encode_meta_length (nonempty ms) m). lia. Qed.

(** A complete record is cut off. *)
Lemma cut_record_spec s r rest un rec ncut : good max r -> represents s (encode r ++ rest) un ->
  exists s', CutRecord max rec ncut s = Some ((1, r, ncut + len (encode r)), s') /\ represents s' rest un.
Proof.
  intros Hg Hr. pose proof Hg as [Hn Hnd Hs]. destruct (encode_head r Hg) as (tmp & He & Hnet & Hbit & Hland). rewrite He in Hr. unfold CutRecord.
  run (copy_to_law _ _ _ 9 Hr); [lia|]. change (Z.to_nat 9) with 9%nat in *. cbn [take app BRPC_RECORDIO_MAGIC be32 length drop nth]. cbn [Z.of_nat Pos.of_succ_nat Pos.succ Z.eqb Pos.eqb negb].
  change (Pos.eqb 9 9) with true. rewrite decide_False by (intros Hx; by apply Hx). change (net32 _) with (net32 (be32 tmp)). rewrite Hnet, !Z.eqb_refl, Hbit, Hland. cbn [negb].
  destruct (Z.ltb_spec max (len (body r))); [lia|]. run (remaining_law _ _ _ Hrep).
  rewrite <- He in *. match goal with |- context [?a <? ?b] => destruct (Z.ltb_spec a b) as [Hlt|_]; [rewrite length_app in Hlt; pose proof (encode_length r); lia|] end.
  rewrite He in Hrep0.
  run (pop_front_law _ _ _ 9 Hrep0); [lia|]. change (drop (Z.to_nat 9) _) with (body r ++ rest) in Hrep1. unfold body in Hrep1. rewrite <- app_assoc in Hrep1.
  assert (len (body r) = len (encode_metas (_metas r)) + len (_payload r)) as Hbl by (unfold body; rewrite length_app; lia).
  destruct (cut_metas_spec (Datatypes.S (Z.to_nat (len (body r)))) s2 (_metas r) (_payload r) rest un (Clear rec) (ncut + 9) tmp (len (body r)) 0 Hrep1) as (s3 & Heq3 & Hrep3);
    [done|done|lia|lia|lia|pose proof (metas_fuel (_metas r)); lia|].
  rewrite Heq3. exists s3. split; [|done]. cbn [Clear _payload _metas app]. rewrite encode_length, Hbl. destruct r as [p ms]. cbn [_payload _metas]. do 3 f_equal. lia.
Qed.
(** Of a part of a record nothing is cut. *)
Lemma cut_record_short s r bs un rec ncut : good max r -> represents s bs un -> bs `prefix_of` encode r -> len bs < len (encode r) ->
  exists s', CutRecord max rec ncut s = Some ((0, rec, ncut), s') /\ represents s' bs un.
Proof.
  intros Hg Hr [t Ht] Hlen. destruct (encode_head r Hg) as (tmp & He & Hnet & Hbit & Hland). unfold CutRecord. run (copy_to_law _ _ _ 9 Hr); [lia|].
  destruct (Z.eqb_spec (len (take (Z.to_nat 9) bs)) 9) as [H9|H9]; [|by exists s0]. cbn [negb]. rewrite length_take in H9.
  assert (take (Z.to_nat 9) bs = BRPC_RECORDIO_MAGIC ++ be32 tmp ++ [SizeChecksum tmp]) as Hh.
  { transitivity (take 9 (encode r)); [rewrite Ht, take_app_le by lia; done|]. by rewrite He. }
  rewrite Hh. rewrite decide_False by (intros Hx; by apply Hx). change (net32 _) with (net32 (be32 tmp)). rewrite Hnet. change (nth 8 _ 0) with (SizeChecksum tmp). rewrite Z.eqb_refl, Hland. cbn [negb].
  destruct Hg as [_ _ Hs]. destruct (Z.ltb_spec max (len (body r))); [lia|]. run (remaining_law _ _ _ Hrep). rewrite encode_length in Hlen.
  destruct (Z.ltb_spec (len bs) (len (body r) + 9)); [|lia]. by exists s1.
Qed.
End Reading.
End RecordIOSpec.
