(* ===== verification/RecordIOTheorems.v ===== *)
(** * RecordWriter and RecordReader: round trip, resynchronization, termination *)
From stdpp Require Import base list.
From Stdlib Require Import ZArith Lia Bool.
From S2P Require Import Prelude RecordIO RecordIOSpec.

Open Scope Z_scope.
Open Scope m_scope.

Module RecordIOTheorems.
Import RecordIO RecordIOSpec.

(** ** Looking for the magic number *)
Definition magic_at (l : list Z) (p : nat) : Prop := take 4 (drop p l) = BRPC_RECORDIO_MAGIC.
#[global] Instance magic_at_dec l p : Decision (magic_at l p).
Proof. unfold magic_at. apply _. Defined.
Lemma find_magic_ext l l' m : (forall i, (i < m)%nat -> take 4 (drop i l) = take 4 (drop i l')) -> find_magic l m = find_magic l' m.
Proof.
  revert l l'. induction m as [|m IH]; intros l l' He; [done|]. cbn [find_magic]. pose proof (He 0%nat ltac:(lia)) as H0. rewrite !drop_0 in H0. rewrite H0.
  rewrite (IH (drop 1 l) (drop 1 l')); [done|]. intros i Hi. rewrite !drop_drop. apply He. lia.
Qed.
Lemma find_magic_add l a b : find_magic l (a + b) = match find_magic l a with Some i => Some i | None => Nat.add a <$> find_magic (drop a l) b end.
Proof.
  revert l. induction a as [|a IH]; intros l; cbn [find_magic Nat.add]; [rewrite drop_0; by destruct (find_magic l b)|].
  destruct (decide _); [done|]. rewrite IH, drop_drop. destruct (find_magic (drop 1 l) a); [done|]. cbn. by destruct (find_magic _ b).
Qed.
Lemma find_magic_some l m p : find_magic l m = Some p <-> (p < m)%nat /\ magic_at l p /\ forall i, (i < p)%nat -> ~ magic_at l i.
Proof.
  unfold magic_at. revert l p. induction m as [|m IH]; intros l p; cbn [find_magic]; [split; [done|lia]|]. destruct (decide _) as [Hd|Hd].
  - split; [intros [= <-]; rewrite drop_0; split; [lia|]; split; [done|lia]|]. intros (_ & _ & Hmin). destruct p; [done|]. exfalso. apply (Hmin 0%nat); [lia|by rewrite drop_0].
  - split.
    + destruct (find_magic (drop 1 l) m) as [q|] eqn:Hq; [|done]. intros [= <-]. apply IH in Hq as (Hlt & Hat & Hmin). rewrite drop_drop in Hat. split; [lia|]. split; [done|].
      intros [|i] Hi; [by rewrite drop_0|]. specialize (Hmin i ltac:(lia)). by rewrite drop_drop in Hmin.
    + intros (Hlt & Hat & Hmin). destruct p as [|p]; [by rewrite drop_0 in Hat|]. assert (find_magic (drop 1 l) m = Some p) as ->; [|done]. apply IH. split; [lia|].
      split; [by rewrite drop_drop|]. intros i Hi. rewrite drop_drop. apply (Hmin (S i)). lia.
Qed.
Lemma find_magic_none l m : find_magic l m = None -> forall i, (i < m)%nat -> ~ magic_at l i.
Proof.
  unfold magic_at. revert l. induction m as [|m IH]; intros l; cbn [find_magic]; [lia|]. destruct (decide _) as [|Hd]; [done|].
  destruct (find_magic (drop 1 l) m) eqn:Hq; [done|]. intros _ [|i] Hi; [by rewrite drop_0|]. specialize (IH _ Hq i ltac:(lia)). by rewrite drop_drop in IH.
Qed.
Lemma magic_at_lt l p : magic_at l p -> (p < length l)%nat.
Proof. unfold magic_at. intros Hm. destruct (decide (p < length l)%nat); [done|]. by rewrite drop_ge in Hm by lia. Qed.
(** A position too near to the end is no match. *)
Lemma find_magic_end l a : (length l - 3 <= a)%nat -> find_magic l a = find_magic l (length l - 3).
Proof.
  intros Ha. replace a with ((length l - 3) + (a - (length l - 3)))%nat at 1 by lia. rewrite find_magic_add. destruct (find_magic l (length l - 3)); [done|].
  destruct (find_magic (drop _ l) _) as [q|] eqn:Hq; [|done]. apply find_magic_some in Hq as (_ & Hat & _). unfold magic_at in Hat.
  apply (f_equal length) in Hat. rewrite length_take, !length_drop in Hat. change (length BRPC_RECORDIO_MAGIC) with 4%nat in Hat. lia.
Qed.

(** What [CutUntilNextRecordCandidate] is to find: the first magic number, not counting
    one at the very beginning; without one all is consumed but three bytes. *)
Definition searched (l : list Z) : nat := (length l - 3)%nat.
Definition next_magic (bs : list Z) : bool * nat :=
  if decide (length bs < 4)%nat then (false, 0%nat)
  else
    let k := if decide (take 4 bs = BRPC_RECORDIO_MAGIC) then 4%nat else 0%nat in
    match find_magic (drop k bs) (length bs) with
    | Some p => (true, (k + p)%nat)
    | None => (false, (k + searched (drop k bs))%nat)
    end.

Section Reading.
Context (max : Z) (Hmax : 0 <= max < 2 ^ 31) {S : Type} `{SourceLaws S}.

Lemma find_candidate_spec fuel s bs un ncut : represents s bs un -> (length bs < fuel)%nat ->
  exists s', let n := default (searched bs) (find_magic bs (length bs)) in
    find_candidate fuel ncut s = Some ((bool_decide (is_Some (find_magic bs (length bs))), ncut + Z.of_nat n), s') /\ represents s' (drop n bs) un.
Proof.
  revert s bs ncut. induction fuel as [|fuel IH]; intros s bs ncut Hr Hf; [lia|]. cbn [find_candidate]. run (copy_to_law _ _ _ 512 Hr); [lia|]. change (Z.to_nat 512) with 512%nat in *.
  rewrite (find_magic_end bs (length bs)) by lia. set (buf := take 512 bs) in *. assert (length buf = Nat.min 512 (length bs)) as Hbuf by (unfold buf; apply length_take).
  destruct (Z.ltb_spec (len buf) 4) as [Hlt|Hge].
  { exists s0. unfold searched. replace (length bs - 3)%nat with 0%nat by lia. cbn. rewrite Z.add_0_r. split; [done|by rewrite drop_0]. }
  set (m := (length buf - 3)%nat). replace (Z.to_nat (len buf + 1 - 4)) with m by lia. assert (find_magic buf m = find_magic bs m) as Hbm.
  { apply find_magic_ext. intros i Hi. unfold buf. rewrite skipn_firstn_comm, take_take. f_equal. lia. }
  rewrite Hbm. replace (length bs - 3)%nat with (m + (length bs - 3 - m))%nat by lia. rewrite find_magic_add. destruct (find_magic bs m) as [i|] eqn:Hm.
  { run (pop_front_law _ _ _ (Z.of_nat i) Hrep); [lia|]. exists s1. rewrite Nat2Z.id in Hrep0. cbn. split; [|done]. done. }
  run (pop_front_law _ _ _ (len buf + 1 - 4) Hrep); [lia|]. replace (Z.to_nat (len buf + 1 - 4)) with m in * by lia. destruct (Z.ltb_spec (len buf) 512) as [Hlt|Hge'].
  - exists s1. replace (length bs - 3 - m)%nat with 0%nat by lia. cbn. unfold searched, mret. replace (length bs - 3)%nat with m by lia.
    split; [do 3 f_equal; lia|done].
  - destruct (IH s1 (drop m bs) (ncut + (len buf + 1 - 4)) Hrep0) as (s2 & Heq2 & Hrep2); [rewrite length_drop; lia|]. rewrite (find_magic_end (drop m bs)) in Heq2, Hrep2 by lia.
    rewrite length_drop in Heq2, Hrep2. replace (length bs - m - 3)%nat with (length bs - 3 - m)%nat in * by lia. rewrite Heq2. exists s2. unfold searched in *. rewrite length_drop in *.
    destruct (find_magic (drop m bs) _) as [q|]; cbn in Hrep2 |- *; rewrite drop_drop in Hrep2; unfold id in *.
    + split; [|done]. do 3 f_equal. lia.
    + replace (m + (length bs - m - 3))%nat with (length bs - 3)%nat in Hrep2 by lia. split; [|done]. do 3 f_equal. lia.
Qed.
Lemma until_spec fuel s bs un ncut : represents s bs un -> (length bs < fuel)%nat ->
  exists s', CutUntilNextRecordCandidate fuel ncut s = Some (((next_magic bs).1, ncut + Z.of_nat (next_magic bs).2), s') /\ represents s' (drop (next_magic bs).2 bs) un.
Proof.
  intros Hr Hf. unfold CutUntilNextRecordCandidate, next_magic. run (copy_to_law _ _ _ 4 Hr); [lia|]. change (Z.to_nat 4) with 4%nat in *. rewrite length_take.
  destruct (decide (length bs < 4)%nat) as [Hlt|Hge].
  { destruct (Z.eqb_spec (Z.of_nat (4 `min` length bs)) 4); [lia|]. cbn [negb fst snd]. exists s0. rewrite drop_0. split; [|done]. unfold mret. do 3 f_equal. lia. }
  destruct (Z.eqb_spec (Z.of_nat (4 `min` length bs)) 4); [|lia]. cbn [negb]. destruct (decide (take 4 bs = _)) as [Hm|Hm].
  - destruct (pop_front_law _ _ _ 4 Hrep) as (s1 & Heq1 & Hrep1); [lia|]. rewrite (bind_run _ _ s0 (ncut + 4) s1) by (unfold mbind', mret; by rewrite Heq1).
    change (Z.to_nat 4) with 4%nat in *. destruct (find_candidate_spec fuel s1 (drop 4 bs) un (ncut + 4) Hrep1) as (s2 & Heq2 & Hrep2); [rewrite length_drop; lia|]. rewrite Heq2. exists s2.
    rewrite (find_magic_end (drop 4 bs) (length bs)) by (rewrite length_drop; lia). rewrite (find_magic_end (drop 4 bs) (length (drop 4 bs))) in * by lia.
    destruct (find_magic (drop 4 bs) _) as [p|]; cbn [default fst snd bool_decide from_option] in *; unfold id in *; rewrite drop_drop in Hrep2; (split; [|done]); do 3 f_equal; lia.
  - rewrite (bind_run _ _ s0 ncut s0) by done. destruct (find_candidate_spec fuel s0 bs un ncut Hrep Hf) as (s2 & Heq2 & Hrep2). rewrite Heq2. exists s2. rewrite drop_0.
    destruct (find_magic bs (length bs)); done.
Qed.

(** ** Reading back *)
Lemma read_next_spec fuel s bs un r rest out ncut : good max r -> represents s bs un -> bs ++ un = encode r ++ rest -> (length un < fuel)%nat ->
  exists s' bs' un', ReadNext max fuel out ncut s = Some ((true, r, ncut + len (encode r), 0), s') /\ represents s' bs' un' /\ bs' ++ un' = rest /\ (length un' <= length un)%nat.
Proof.
  intros Hg. revert s bs un. induction fuel as [|fuel IH]; intros s bs un Hr Heq Hf; [lia|]. cbn [ReadNext]. destruct (decide (len (encode r) <= len bs)) as [Hge|Hlt].
  - assert (exists t, bs = encode r ++ t /\ t ++ un = rest) as (t & -> & Ht).
    { exists (drop (length (encode r)) bs). apply (f_equal (take (length (encode r)))) in Heq as Htk. apply (f_equal (drop (length (encode r)))) in Heq.
      rewrite take_app_le, take_app_length in Htk by lia. rewrite drop_app_le, drop_app_length in Heq by lia. split; [by rewrite <- Htk at 1; rewrite take_drop|done]. }
    destruct (cut_record_spec max Hmax s r t un out ncut Hg Hr) as (s' & Hcut & Hr'). rewrite (bind_run _ _ _ _ _ Hcut). by exists s', t, un.
  - destruct (cut_record_short max Hmax s r bs un out ncut Hg Hr) as (s1 & Hcut & Hr1); [|lia|].
    { apply (f_equal (take (length bs))) in Heq. rewrite take_app_length, take_app_le in Heq by lia. rewrite Heq. apply prefix_take. }
    rewrite (bind_run _ _ _ _ _ Hcut). cbn [Z.ltb Z.compare]. destruct (fill_cases _ _ _ Hr1) as (s2 & nr & err & Hfill & Hcase). rewrite (bind_run _ _ _ _ _ Hfill).
    destruct Hcase as [(-> & _ & _)|(c & un' & -> & Hc & Hnr & Hr2)]; [rewrite app_nil_r in Heq; rewrite Heq, length_app in Hlt; lia|].
    destruct (Z.leb_spec nr 0); [lia|]. rewrite length_app in *.
    destruct (IH s2 (bs ++ c) un' Hr2) as (s' & bs' & un2 & HR & Hrep & Hrest & Hlen); [by rewrite <- app_assoc|lia|]. exists s', bs', un2. split; [exact HR|]. split; [done|]. split; [done|lia].
Qed.
(** [while (rd.ReadNext(&rec))]: the records, [offset()] and [last_error()]. *)
Fixpoint read_records (n fuel : nat) (out : Rec) (ncut : Z) : M S (list Rec * Z * Z) :=
  match n with
  | O => ub
  | Datatypes.S n' =>
      let* (ok, out, ncut, err) := ReadNext max fuel out ncut in
      if (ok : bool) then let* (l, ncut, err) := read_records n' fuel out ncut in mret (out :: l, ncut, err)
      else mret ([], ncut, err)
  end.
Lemma read_end_spec fuel s out ncut : represents s [] [] -> (0 < fuel)%nat -> exists s' err, ReadNext max fuel out ncut s = Some ((false, out, ncut, err), s').
Proof.
  intros Hr Hf. destruct fuel as [|fuel]; [lia|]. cbn [ReadNext]. assert (exists s1, CutRecord max out ncut s = Some ((0, out, ncut), s1) /\ represents s1 [] []) as (s1 & Hcut & Hr1).
  { unfold CutRecord. run (copy_to_law _ _ _ 9 Hr); [lia|]. cbn. by exists s0. }
  rewrite (bind_run _ _ _ _ _ Hcut). cbn [Z.ltb Z.compare].
  destruct (fill_end_law _ _ Hr1) as (s2 & nr & err & Hfill & Hnr & _). rewrite (bind_run _ _ _ _ _ Hfill). destruct (Z.leb_spec nr 0); [|lia]. by eexists _, _.
Qed.
Lemma read_records_spec rs fuel s bs un out ncut : Forall (good max) rs -> represents s bs un -> bs ++ un = mjoin (map encode rs) -> (length un < fuel)%nat ->
  exists s' err, read_records (length rs + 1) fuel out ncut s = Some ((rs, ncut + len (mjoin (map encode rs)), err), s').
Proof.
  revert s bs un out ncut. induction rs as [|r rs IH]; intros s bs un out ncut Hg Hr Heq Hf; cbn [length Nat.add read_records map].
  - apply app_nil in Heq as [-> ->]. destruct (read_end_spec fuel s out ncut Hr ltac:(lia)) as (s' & err & Hend). rewrite (bind_run _ _ _ _ _ Hend).
    exists s', err. unfold mret. change (len (mjoin (map encode []))) with 0. by rewrite Z.add_0_r.
  - apply Forall_cons in Hg as [Hg1 Hg]. destruct (read_next_spec fuel s bs un r (mjoin (map encode rs)) out ncut Hg1 Hr Heq Hf) as (s1 & bs1 & un1 & Hnext & Hr1 & Heq1 & Hlen).
    rewrite (bind_run _ _ _ _ _ Hnext). destruct (IH s1 bs1 un1 r (ncut + len (encode r)) Hg Hr1 Heq1) as (s2 & err & Hrest); [lia|]. rewrite (bind_run _ _ _ _ _ Hrest).
    exists s2, err. unfold mret. change (mjoin (encode r :: map encode rs)) with (encode r ++ mjoin (map encode rs)). by rewrite length_app, Nat2Z.inj_add, Z.add_assoc.
Qed.

(** ** The reader always returns *)
Definition volume (bs un : list Z) : nat := length bs + length un.
Lemma volume_drop n bs un : volume (drop n bs) un = (volume bs un - Nat.min n (length bs))%nat.
Proof. unfold volume. rewrite length_drop. lia. Qed.
Lemma volume_fill bs c un : volume (bs ++ c) un = volume bs (c ++ un).
Proof. unfold volume. rewrite !length_app. lia. Qed.
Lemma bytes_drop n (bs un : list Z) : Forall is_byte (bs ++ un) -> Forall is_byte (drop n bs ++ un).
Proof. rewrite !Forall_app. intros [? ?]. split; [by apply Forall_drop|done]. Qed.

Lemma cut_metas_total fuel s bs un rec ncut tmp data_size consumed more : represents s bs un -> Forall is_byte bs -> 0 <= consumed <= data_size -> (Z.to_nat (data_size - consumed) < fuel)%nat ->
  exists rc rec' ncut' n s', cut_metas fuel rec ncut tmp data_size consumed more s = Some ((rc, rec', ncut'), s') /\ represents s' (drop n bs) un /\ (rc = 1 \/ rc = -1).
Proof.
  revert s bs rec ncut tmp consumed more. induction fuel as [|fuel IH]; intros s bs rec ncut tmp consumed more Hr Hb Hc Hf; [lia|]. cbn [cut_metas]. destruct more.
  2:{ run (cutn_law _ _ _ ToBuffer (data_size - consumed) Hr); [lia|]. eexists _, _, _, _, s0. split; [done|]. split; [exact Hrep|by left]. }
  run (cut1_law _ _ _ Hr). set (k := default 0 (head bs)). assert (0 <= k) as Hk by (unfold k; destruct Hb as [|x bs [Hx _] _]; cbn; [lia|exact Hx]).
  assert (tail bs = drop 1 bs) as Htl by (by destruct bs). rewrite Htl in Hrep.
  run (cutn_law _ _ _ ToString k Hrep); [done|]. run (cutn_law _ _ _ ToMemory 4 Hrep0); [lia|]. rewrite !drop_drop in Hrep1.
  match goal with |- context [Z.land ?t SIZE_MASK] => set (tmp1 := t) in *; assert (0 <= Z.land tmp1 SIZE_MASK) as Hm by (change SIZE_MASK with (Z.ones 31); rewrite Z.land_ones by lia; apply Z.mod_pos_bound; lia) end.
  destruct (Z.ltb_spec data_size (consumed + 5 + k + Z.land tmp1 SIZE_MASK)); [eexists _, _, _, _, s2; split; [done|]; split; [exact Hrep1|by right]|].
  destruct (MutableMeta rec _ true) as [[i|] r]; [|eexists _, _, _, _, s2; split; [done|]; split; [exact Hrep1|by right]].
  run (cutn_law _ _ _ ToBuffer (Z.land tmp1 SIZE_MASK) Hrep1); [done|]. rewrite drop_drop in Hrep2.
  match goal with |- context [cut_metas fuel ?r ?n ?t ?d ?c ?b s3] => destruct (IH s3 _ r n t c b Hrep2) as (rc & rec' & ncut' & n' & s4 & Heq4 & Hrep4 & Hrc) end; [by apply Forall_drop|lia|lia|].
  rewrite Heq4. eexists _, _, _, _, s4. split; [done|]. rewrite drop_drop in Hrep4. split; [exact Hrep4|done].
Qed.
Lemma cut_record_total s bs un rec ncut : represents s bs un -> Forall is_byte bs ->
  exists rc rec' ncut' n s', CutRecord max rec ncut s = Some ((rc, rec', ncut'), s') /\ represents s' (drop n bs) un /\
    ((rc = 0 /\ n = 0%nat) \/ (rc = 1 /\ (9 <= n)%nat /\ (9 <= length bs)%nat) \/ (rc = -1 /\ (9 <= length bs)%nat /\ (n = 0 \/ 9 <= n)%nat)).
Proof.
  intros Hr Hb. unfold CutRecord. run (copy_to_law _ _ _ 9 Hr); [lia|]. change (Z.to_nat 9) with 9%nat. destruct (Z.eqb_spec (len (take 9 bs)) 9) as [H9|H9]; cbn [negb].
  2:{ exists 0, rec, ncut, 0%nat, s0. split; [done|]. split; [by rewrite drop_0|]. by left. }
  rewrite length_take in H9. assert (9 <= length bs)%nat as Hlen by lia.
  assert (exists rc rec' ncut' n s', mret (-1, rec, ncut) s0 = Some ((rc, rec', ncut'), s') /\ represents s' (drop n bs) un /\
    ((rc = 0 /\ n = 0%nat) \/ (rc = 1 /\ (9 <= n)%nat /\ (9 <= length bs)%nat) \/ (rc = -1 /\ (9 <= length bs)%nat /\ (n = 0 \/ 9 <= n)%nat))) as Hbad.
  { exists (-1), rec, ncut, 0%nat, s0. split; [done|]. split; [by rewrite drop_0|]. right. right. split; [done|]. split; [done|by left]. }
  destruct (decide _) as [_|_]; [exact Hbad|]. destruct (negb _); [exact Hbad|]. set (tmp := net32 _). destruct (Z.ltb_spec max (Z.land tmp SIZE_MASK)); [exact Hbad|]. clear Hbad.
  run (remaining_law _ _ _ Hrep). assert (0 <= Z.land tmp SIZE_MASK) as Hm by (change SIZE_MASK with (Z.ones 31); rewrite Z.land_ones by lia; apply Z.mod_pos_bound; lia).
  destruct (_ <? _); [exists 0, rec, ncut, 0%nat, s1; split; [done|]; split; [by rewrite drop_0|by left]|].
  run (pop_front_law _ _ _ 9 Hrep0); [lia|]. change (Z.to_nat 9) with 9%nat in *.
  destruct (cut_metas_total (Datatypes.S (Z.to_nat (Z.land tmp SIZE_MASK))) s2 (drop 9 bs) un (Clear rec) (ncut + 9) tmp (Z.land tmp SIZE_MASK) 0 (Z.testbit tmp 31) Hrep1)
    as (rc & rec' & ncut' & n & s3 & Heq3 & Hrep3 & Hrc); [by apply Forall_drop|lia|lia|]. rewrite drop_drop in Hrep3. exists rc, rec', ncut', (9 + n)%nat, s3. split; [exact Heq3|]. split; [done|].
  right. destruct Hrc as [->| ->]; [left|right]; split; try done; split; lia.
Qed.
Lemma next_magic_progress bs : (9 <= length bs)%nat -> (0 < (next_magic bs).2)%nat.
Proof.
  intros Hl. unfold next_magic. rewrite decide_False by lia. destruct (decide (take 4 bs = _)) as [Hm|Hm].
  - destruct (find_magic _ _); cbn; lia.
  - rewrite drop_0. destruct (find_magic bs _) as [p|] eqn:Hp; [|cbn; unfold searched; lia]. apply find_magic_some in Hp as (_ & Hat & _). destruct p; [by rewrite <- (drop_0 bs) in Hm|cbn; lia].
Qed.
Lemma next_candidate_total fuel s bs un ncut : represents s bs un -> (volume bs un + length un < fuel)%nat ->
  exists r ncut' s' bs' un', next_candidate fuel ncut s = Some ((r, ncut'), s') /\ represents s' bs' un' /\ (Forall is_byte (bs ++ un) -> Forall is_byte (bs' ++ un')) /\ (length un' <= length un)%nat /\
    (volume bs' un' <= volume bs un)%nat /\ ((9 <= length bs)%nat -> (volume bs' un' < volume bs un)%nat).
Proof.
  revert s bs un ncut. induction fuel as [|fuel IH]; intros s bs un ncut Hr Hf; [lia|]. cbn [next_candidate]. assert (length bs <= volume bs un)%nat as Hle by (unfold volume; lia).
  destruct (until_spec (Datatypes.S fuel) s bs un ncut Hr) as (s1 & Heq1 & Hr1); [lia|]. rewrite (bind_run _ _ _ _ _ Heq1). pose proof (next_magic_progress bs) as Hprog.
  pose proof (volume_drop (next_magic bs).2 bs un) as Hv. destruct (next_magic bs) as [found n]. cbn [fst snd] in *. destruct found.
  { eexists _, _, s1, _, un. split; [done|]. split; [exact Hr1|]. split; [apply bytes_drop|]. split; [done|]. split; lia. }
  destruct (fill_cases _ _ _ Hr1) as (s2 & nr & err & Hfill & Hcase). rewrite (bind_run _ _ _ _ _ Hfill). destruct Hcase as [(-> & Hnr & Hr2)|(c & un' & -> & Hc & Hnr & Hr2)].
  - destruct (Z.leb_spec nr 0); [|lia]. eexists _, _, s2, _, []. split; [done|]. split; [exact Hr2|]. split; [apply bytes_drop|]. split; [done|]. split; lia.
  - destruct (Z.leb_spec nr 0); [lia|]. pose proof (volume_fill (drop n bs) c un') as Hvf. rewrite length_app in *.
    destruct (IH s2 _ un' (ncut + Z.of_nat n) Hr2) as (r & ncut' & s3 & bs' & un2 & Heq3 & Hr3 & Hb3 & Hl3 & Hv3 & _); [lia|]. rewrite Heq3.
    exists r, ncut', s3, bs', un2. split; [done|]. split; [done|]. split; [intros Hb; apply Hb3; rewrite <- app_assoc; by apply bytes_drop|]. split; [lia|]. split; lia.
Qed.
Lemma read_next_total fuel s bs un out ncut : represents s bs un -> Forall is_byte (bs ++ un) -> (volume bs un + length un < fuel)%nat ->
  exists ok out' ncut' err s' bs' un', ReadNext max fuel out ncut s = Some ((ok, out', ncut', err), s') /\ represents s' bs' un' /\ Forall is_byte (bs' ++ un') /\ (length un' <= length un)%nat /\
    (volume bs' un' <= volume bs un)%nat /\ (ok = true -> volume bs' un' < volume bs un)%nat.
Proof.
  revert s bs un out ncut. induction fuel as [|fuel IH]; intros s bs un out ncut Hr Hb Hf; [lia|]. cbn [ReadNext].
  destruct (cut_record_total s bs un out ncut Hr) as (rc & out1 & ncut1 & n & s1 & Heq1 & Hr1 & Hrc); [by apply Forall_app in Hb as [? _]|]. rewrite (bind_run _ _ _ _ _ Heq1).
  pose proof (volume_drop n bs un) as Hv. assert (length bs <= volume bs un)%nat as Hle by (unfold volume; lia). destruct Hrc as [[-> ->]|[(-> & Hn & Hl)|(-> & Hl & Hn)]]; cbn [Z.ltb Z.compare].
  - rewrite drop_0 in *. destruct (fill_cases _ _ _ Hr1) as (s2 & nr & err & Hfill & Hcase). rewrite (bind_run _ _ _ _ _ Hfill). destruct Hcase as [(-> & Hnr & Hr2)|(c & un' & -> & Hc & Hnr & Hr2)].
    + destruct (Z.leb_spec nr 0); [|lia]. eexists _, _, _, _, s2, bs, []. split; [done|]. split; [done|]. split; [done|]. split; [done|]. split; [lia|done].
    + destruct (Z.leb_spec nr 0); [lia|]. pose proof (volume_fill bs c un') as Hvf. rewrite length_app in *.
      destruct (IH s2 _ un' out1 ncut1 Hr2) as (ok & out2 & ncut2 & err2 & s3 & bs' & un2 & Heq3 & Hr3 & Hb3 & Hl3 & Hv3 & Hok); [by rewrite <- app_assoc|lia|]. rewrite Heq3.
      eexists _, _, _, _, s3, bs', un2. split; [done|]. split; [done|]. split; [done|]. split; [lia|]. split; [lia|]. intros Ht. specialize (Hok Ht). lia.
  - eexists _, _, _, _, s1, _, un. split; [done|]. split; [exact Hr1|]. split; [by apply bytes_drop|]. split; [done|]. split; lia.
  - destruct (next_candidate_total (Datatypes.S fuel) s1 (drop n bs) un ncut1 Hr1) as (r & ncut2 & s2 & bs2 & un2 & Heq2 & Hr2 & Hb2 & Hl2 & Hv2 & Hstrict); [lia|]. rewrite (bind_run _ _ _ _ _ Heq2).
    specialize (Hb2 (bytes_drop _ _ _ Hb)). assert (volume bs2 un2 < volume bs un)%nat as Hlt by (destruct Hn as [-> |Hn]; [rewrite drop_0 in *; lia|lia]). destruct r as [err|].
    + eexists _, _, _, _, s2, bs2, un2. split; [done|]. split; [done|]. split; [done|]. split; [done|]. split; lia.
    + destruct (IH s2 bs2 un2 out1 ncut2 Hr2 Hb2) as (ok & out3 & ncut3 & err3 & s3 & bs' & un' & Heq3 & Hr3 & Hb3 & Hl3 & Hv3 & Hok); [lia|]. rewrite Heq3.
      eexists _, _, _, _, s3, bs', un'. split; [done|]. split; [done|]. split; [done|]. split; [lia|]. split; lia.
Qed.
Lemma read_records_total n fuel s bs un out ncut : represents s bs un -> Forall is_byte (bs ++ un) -> (volume bs un + length un < fuel)%nat -> (volume bs un < n)%nat ->
  exists l ncut' err s', read_records n fuel out ncut s = Some ((l, ncut', err), s') /\ (length l <= volume bs un)%nat.
Proof.
  revert s bs un out ncut. induction n as [|n IH]; intros s bs un out ncut Hr Hb Hf Hn; [lia|]. cbn [read_records].
  destruct (read_next_total fuel s bs un out ncut Hr Hb Hf) as (ok & out1 & ncut1 & err1 & s1 & bs1 & cs1 & Heq1 & Hr1 & Hb1 & Hl1 & Hv1 & Hok). rewrite (bind_run _ _ _ _ _ Heq1). destruct ok.
  - specialize (Hok eq_refl). destruct (IH s1 bs1 cs1 out1 ncut1 Hr1 Hb1) as (l & ncut2 & err2 & s2 & Heq2 & Hlen); [lia|lia|]. rewrite (bind_run _ _ _ _ _ Heq2).
    eexists _, _, _, s2. split; [done|]. cbn [length]. lia.
  - eexists _, _, _, s1. split; [done|]. cbn. lia.
Qed.

(** ** Damaged records

    What [CutRecord] refuses at sight: no magic number, a wrong checksum, a size above
    the limit. *)
Definition damaged (bs : list Z) : Prop :=
  (9 <= length bs)%nat /\ (take 4 bs <> BRPC_RECORDIO_MAGIC \/ SizeChecksum (net32 (take 4 (drop 4 bs))) <> nth 8 bs 0 \/ max < Z.land (net32 (take 4 (drop 4 bs))) SIZE_MASK).
Lemma cut_damaged s bs un rec ncut : damaged bs -> represents s bs un -> exists s', CutRecord max rec ncut s = Some ((-1, rec, ncut), s') /\ represents s' bs un.
Proof.
  intros [Hl Hd] Hr. unfold CutRecord. run (copy_to_law _ _ _ 9 Hr); [lia|]. change (Z.to_nat 9) with 9%nat. rewrite length_take, Nat.min_l by lia. cbn [Z.of_nat Pos.of_succ_nat Pos.succ Z.eqb]. change (Pos.eqb 9 9) with true. cbn [negb].
  exists s0. split; [|done]. rewrite take_take, skipn_firstn_comm, take_take. change (4 `min` 9)%nat with 4%nat. change (4 `min` (9 - 4))%nat with 4%nat.
  assert (nth 8 (take 9 bs) 0 = nth 8 bs 0) as -> by (do 9 (destruct bs as [|? bs]; [cbn in Hl; lia|]); done). destruct (decide _) as [|Hm]; [done|].
  destruct (Z.eqb_spec (SizeChecksum (net32 (take 4 (drop 4 bs)))) (nth 8 bs 0)) as [Hc|Hc]; [|done]. cbn [negb]. destruct (Z.ltb_spec max (Z.land (net32 (take 4 (drop 4 bs))) SIZE_MASK)); [done|].
  exfalso. destruct Hd as [Hd|[Hd|Hd]]; [by apply Hm|done|lia].
Qed.
Definition skip_of (bs : list Z) : nat := if decide (take 4 bs = BRPC_RECORDIO_MAGIC) then 4%nat else 0%nat.
Lemma magic_at_drop k l i : magic_at (drop k l) i <-> magic_at l (k + i).
Proof. unfold magic_at. by rewrite drop_drop. Qed.
Lemma next_magic_spec bs : (4 <= length bs)%nat -> let '(found, n) := next_magic bs in (skip_of bs <= n)%nat /\
  (forall i, (skip_of bs <= i < n)%nat -> ~ magic_at bs i) /\ if found then magic_at bs n else (length (drop n bs) <= 3)%nat /\ forall i, (skip_of bs <= i)%nat -> ~ magic_at bs i.
Proof.
  intros Hl. unfold next_magic. rewrite decide_False by lia. fold (skip_of bs). set (k := skip_of bs). destruct (find_magic (drop k bs) (length bs)) as [p|] eqn:Hp.
  - apply find_magic_some in Hp as (_ & Hat & Hmin). split; [lia|]. split; [|by apply magic_at_drop]. intros i Hi. specialize (Hmin (i - k)%nat ltac:(lia)). rewrite magic_at_drop in Hmin.
    by replace (k + (i - k))%nat with i in Hmin by lia.
  - assert (forall i, (k <= i)%nat -> ~ magic_at bs i) as Hno.
    { intros i Hi Hat. pose proof (magic_at_lt _ _ Hat). apply (find_magic_none _ _ Hp (i - k)%nat); [lia|]. apply magic_at_drop. by replace (k + (i - k))%nat with i by lia. }
    split; [lia|]. split; [intros i Hi; apply Hno; lia|]. split; [|exact Hno]. unfold searched. rewrite !length_drop. lia.
Qed.
Lemma read_damaged fuel s g r rest un out ncut (bs := g ++ encode r ++ rest) : good max r -> represents s bs un -> damaged bs -> (skip_of bs <= length g)%nat ->
  (forall i, (skip_of bs <= i < length g)%nat -> ~ magic_at bs i) -> (length bs + 1 < fuel)%nat ->
  exists s', ReadNext max fuel out ncut s = Some ((true, r, ncut + len g + len (encode r), 0), s') /\ represents s' rest un.
Proof.
  intros Hg Hr Hd Hk Hno Hf. destruct fuel as [|[|fuel]]; [lia..|]. cbn [ReadNext]. destruct (cut_damaged s bs un out ncut Hd Hr) as (s1 & Hcut & Hr1). rewrite (bind_run _ _ _ _ _ Hcut). cbn [Z.ltb Z.compare].
  assert (magic_at bs (length g)) as Hat. { unfold magic_at, bs. rewrite drop_app_length. destruct (encode_head max Hmax r Hg) as (tmp & -> & _). done. }
  assert (next_magic bs = (true, length g)) as Hnext.
  { pose proof (next_magic_spec bs ltac:(destruct Hd; lia)) as Hspec. destruct (next_magic bs) as [[|] n]; destruct Hspec as (Hkn & Hmin & Hfound).
    - f_equal. destruct (Nat.lt_trichotomy n (length g)) as [Hlt|[->|Hgt]]; [|done|]; exfalso; [by apply (Hno n)|by apply (Hmin (length g))].
    - exfalso. by apply (proj2 Hfound (length g)). }
  destruct (until_spec (Datatypes.S (Datatypes.S fuel)) s1 bs un ncut Hr1) as (s2 & Hunt & Hr2); [lia|]. rewrite Hnext in Hunt, Hr2. cbn [fst snd] in Hunt, Hr2.
  rewrite (bind_run _ _ s1 (None, ncut + len g) s2) by (cbn [next_candidate]; by rewrite (bind_run _ _ _ _ _ Hunt)). unfold bs in Hr2. rewrite drop_app_length in Hr2.
  destruct (cut_record_spec max Hmax s2 r rest un out (ncut + len g) Hg Hr2) as (s3 & Hcut3 & Hr3). rewrite (bind_run _ _ _ _ _ Hcut3). by exists s3.
Qed.
End Reading.

(** ** Writing out *)
Class SinkLaws (W : Type) `{Sink W} := {
  written : W -> list Z;
  write_law b (w : W) nw err w' : WriteSome b w = (nw, err, w') -> nw <= len b /\ written w' = written w ++ take (Z.to_nat nw) b }.
Section Writing.
Context {W : Type} `{SinkLaws W}.
Lemma record_flush_spec fuel total buf (w : W) : (length buf < fuel)%nat ->
  exists rc buf' w', Flush_loop fuel total buf w = Some (rc, buf', w') /\ written w' ++ buf' = written w ++ buf.
Proof.
  revert total buf w. induction fuel as [|fuel IH]; intros total buf w Hf; [lia|]. cbn [Flush_loop].
  assert (exists nw err buf1 w1, cut_into_writer buf w = (nw, err, buf1, w1) /\ written w1 ++ buf1 = written w ++ buf /\ (0 < nw -> (length buf1 < length buf)%nat)) as (nw & err & buf1 & w1 & -> & Hw & Hlt).
  { destruct buf as [|x b]; [by exists 0, 0, [], w|]. unfold cut_into_writer. destruct (WriteSome (x :: b) w) as [[nw err] w1] eqn:Hwr. destruct (write_law _ _ _ _ _ Hwr) as [Hle Hwn].
    destruct (Z.ltb_spec 0 nw) as [Hpos|Hneg]; eexists _, _, _, _; (split; [done|]); rewrite Hwn, <- app_assoc; [rewrite take_drop|].
    - split; [done|]. intros _. rewrite length_drop. cbn [length]. lia.
    - replace (Z.to_nat nw) with 0%nat by lia. split; [done|]. lia. }
  destruct (Z.ltb_spec 0 nw) as [Hpos|Hneg].
  - destruct (IH (total + nw) buf1 w1) as (rc & buf2 & w2 & Heq & Hw2); [specialize (Hlt Hpos); lia|]. exists rc, buf2, w2. split; [done|]. by rewrite Hw2.
  - destruct (0 <? total); [by eexists _, _, _|]. destruct (nw =? 0); by eexists _, _, _.
Qed.
(** A sequence of [Write] calls: the results, what is left in [_buf] and the writer. *)
Fixpoint write_records (buf : list Z) (rs : list Rec) (w : W) : option (list Z * list Z * W) :=
  match rs with
  | [] => Some ([], buf, w)
  | r :: rs =>
      '(rc, buf1, w1) ← Write buf r w; '(rcs, buf2, w2) ← write_records buf1 rs w1; Some (rc :: rcs, buf2, w2)
  end.
Lemma write_records_spec max rs buf (w : W) : max < 2 ^ 31 -> Forall (good max) rs ->
  exists rcs buf' w', write_records buf rs w = Some (rcs, buf', w') /\ written w' ++ buf' = written w ++ buf ++ mjoin (map encode rs).
Proof.
  intros Hmax. revert buf w. induction rs as [|r rs IH]; intros buf w Hg; cbn [write_records map]; [eexists _, _, _; split; [done|]; cbn; by rewrite app_nil_r|].
  apply Forall_cons in Hg as [[Hn _ Hs] Hg]. unfold Write. rewrite write_spec by (done || lia). cbn [Z.eqb negb]. destruct (record_flush_spec (S (length (buf ++ encode r))) 0 (buf ++ encode r) w) as (rc & buf1 & w1 & Hfl & Hw1); [lia|].
  unfold Flush. rewrite Hfl. cbn. destruct (IH buf1 w1 Hg) as (rcs & buf2 & w2 & -> & Hw2). cbn. eexists _, _, _. split; [done|]. rewrite Hw2, app_assoc, Hw1, <- !app_assoc. done.
Qed.
End Writing.

(** ** Theorems *)

(** RecordIO round trip.  Records with distinct names of 1 to 255 bytes and within the
    reader's limit, written one after the other through any writer that takes the bytes
    piece by piece, reach it as one byte string (with what is still in the buffer); a reader
    that receives this string, in whatever pieces, returns exactly these records in order and
    then reports the end, with offset() at the last byte. *)
Theorem recordio_roundtrip {W} `{SinkLaws W} {S} `{SourceLaws S} max rs (w : W) :
  0 <= max < 2 ^ 31 -> Forall (good max) rs ->
  exists rcs buf' w', write_records [] rs w = Some (rcs, buf', w') /\ written w' ++ buf' = written w ++ mjoin (map encode rs) /\
    forall (s : S) un out, buf' = [] -> represents s [] un -> written w ++ un = written w' ->
      exists s' err, read_records max (length rs + 1) (length un + 1) out 0 s = Some ((rs, len un, err), s').
Proof.
  intros Hmax Hg. destruct (write_records_spec max rs [] w (proj2 Hmax) Hg) as (rcs & buf' & w' & Heq & Hw). exists rcs, buf', w'. split; [done|]. split; [done|].
  intros s un out -> Hr Hun. rewrite app_nil_r, <- Hun in Hw. apply app_inv_head in Hw. cbn [app] in Hw.
  destruct (read_records_spec max Hmax rs (length un + 1) s [] un out 0 Hg Hr) as (s' & err & Hread); [done|lia|]. rewrite <- Hw in Hread. by exists s', err.
Qed.

(** The search in windows of 512 bytes is exact.  CutUntilNextRecordCandidate moves to
    the first magic number in the buffered bytes, not counting one that they begin with; if
    there is none it consumes all but the last three bytes, which may be the start of one. *)
Theorem candidate_search_is_exact {S} `{SourceLaws S} fuel (s : S) bs un ncut :
  represents s bs un -> (4 <= length bs < fuel)%nat ->
  exists found n s', CutUntilNextRecordCandidate fuel ncut s = Some ((found, ncut + Z.of_nat n), s') /\ represents s' (drop n bs) un /\
    (skip_of bs <= n)%nat /\ (forall i, (skip_of bs <= i < n)%nat -> ~ magic_at bs i) /\
    if found then magic_at bs n else (length (drop n bs) <= 3)%nat /\ forall i, (skip_of bs <= i)%nat -> ~ magic_at bs i.
Proof.
  intros Hr Hf. destruct (until_spec fuel s bs un ncut Hr (proj2 Hf)) as (s' & Heq & Hr'). pose proof (next_magic_spec bs (proj1 Hf)) as Hspec.
  destruct (next_magic bs) as [found n]. by exists found, n, s'.
Qed.

(** A damaged record is skipped.  When the buffered bytes begin with something that
    is no record (no magic number, a wrong checksum or too large a size) and the next magic
    number in them is that of an intact record, ReadNext returns this record, and offset()
    counts the skipped bytes. *)
Theorem damaged_record_is_skipped {S} `{SourceLaws S} max fuel (s : S) g r rest un out ncut (bs := g ++ encode r ++ rest) :
  0 <= max < 2 ^ 31 -> good max r -> represents s bs un -> damaged max bs -> (skip_of bs <= length g)%nat ->
  (forall i, (skip_of bs <= i < length g)%nat -> ~ magic_at bs i) -> (length bs + 1 < fuel)%nat ->
  exists s', ReadNext max fuel out ncut s = Some ((true, r, ncut + len g + len (encode r), 0), s') /\ represents s' rest un.
Proof. intros Hmax. exact (read_damaged max Hmax fuel s g r rest un out ncut). Qed.

(** C32: Whatever bytes the reads deliver, a loop that calls ReadNext until it fails ends
    after no more records than there are bytes, on any source that satisfies SourceLaws, as
    IOPortal and IOBufCutter on a file do. *)
Theorem record_reader_returns {S} `{SourceLaws S} max (s : S) bs un out ncut :
  represents s bs un -> Forall is_byte (bs ++ un) ->
  exists l ncut' err s', read_records max (volume bs un + 1) (volume bs un + length un + 1) out ncut s = Some ((l, ncut', err), s') /\ (length l <= volume bs un)%nat.
Proof. intros Hr Hb. eapply (read_records_total max); [exact Hr|exact Hb|lia|lia]. Qed.

(** ** Concrete records *)
Definition rec_a : Rec := mkRec [1; 2; 3] [mkMeta [65] [9; 9]; mkMeta [66; 67] []].
Definition rec_b : Rec := mkRec (replicate 600 7) [].
Example encode_rec_a : encode rec_a = [82; 68; 73; 79; 128; 0; 0; 18; 229; 1; 65; 128; 0; 0; 2; 9; 9; 2; 66; 67; 0; 0; 0; 0; 1; 2; 3].
Proof. vm_compute. reflexivity. Qed.
Lemma good_a : good 1000 rec_a.
Proof. split; [repeat constructor; cbn; lia|apply (bool_decide_unpack _); vm_compute; exact I|vm_compute; discriminate]. Qed.
Lemma good_b : good 1000 rec_b.
Proof. split; [constructor|constructor|vm_compute; discriminate]. Qed.
(** A writer that takes at most 10 bytes of what it is offered. *)
#[global] Instance ten_bytes : Sink (list Z) := fun b w => let nw := Z.min 10 (len b) in (nw, 0, w ++ take (Z.to_nat nw) b).
#[global] Program Instance ten_bytes_laws : SinkLaws (list Z) := {| written w := w |}.
Next Obligation. intros b w nw err w' [= <- <- <-]. split; [lia|done]. Qed.

Lemma recordio_roundtrip_witness : exists rcs buf' w', write_records [] [rec_a; rec_b] [] = Some (rcs, buf', w') /\
  exists s' err, read_records 1000 3 (length w' + 1) Record_new 0 (mkStream [] [take 100 w'; drop 100 w'] (0, 0)) = Some (([rec_a; rec_b], len w', err), s').
Proof.
  destruct (recordio_roundtrip (W := list Z) (S := Stream) 1000 [rec_a; rec_b] []) as (rcs & buf' & w' & Heq & Hw & Hread); [lia|apply Forall_cons; split; [apply good_a|apply Forall_cons; split; [apply good_b|constructor]]|].
  exists rcs, buf', w'. split; [exact Heq|]. assert (write_records [] [rec_a; rec_b] [] = Some ([0; 0], [], mjoin (map encode [rec_a; rec_b]))) as Hc by (vm_compute; reflexivity).
  rewrite Heq in Hc. injection Hc as -> -> ->. set (all := mjoin (map encode [rec_a; rec_b])) in *.
  destruct (Hread (mkStream [] [take 100 all; drop 100 all] (0, 0)) all Record_new eq_refl) as (s' & err & Hr).
  - split; [reflexivity|]. split; [vm_compute; reflexivity|]. split; [|cbn; lia]. repeat constructor; vm_compute; discriminate.
  - reflexivity.
  - exists s', err. exact Hr.
Defined.
Lemma candidate_search_witness : exists found n s', CutUntilNextRecordCandidate 1000 0 (mkStream (replicate 520 7 ++ encode rec_a) [] (0, 0)) = Some ((found, 0 + Z.of_nat n), s').
Proof.
  destruct (candidate_search_is_exact 1000 (mkStream (replicate 520 7 ++ encode rec_a) [] (0, 0)) (replicate 520 7 ++ encode rec_a) [] 0) as (found & n & s' & Heq & _).
  - split; [reflexivity|]. split; [reflexivity|]. split; [constructor|cbn; lia].
  - rewrite length_app, length_replicate, encode_rec_a. cbn [length]. lia.
  - exists found, n, s'. exact Heq.
Defined.
Definition garbage : list Z := BRPC_RECORDIO_MAGIC ++ replicate 20 7.
Lemma no_magic_before (bs : list Z) (k n : nat) : forallb (fun i => negb (bool_decide (magic_at bs i))) (seq k (n - k)) = true -> forall i, (k <= i < n)%nat -> ~ magic_at bs i.
Proof.
  intros Hf i Hi Hm. rewrite forallb_forall in Hf. specialize (Hf i). rewrite bool_decide_eq_true_2 in Hf by done. cbn in Hf. discriminate Hf. apply in_seq. lia.
Qed.
Lemma damaged_record_witness : exists s', ReadNext 1000 100 Record_new 0 (mkStream (garbage ++ encode rec_a ++ [5]) [] (0, 0)) = Some ((true, rec_a, 0 + len garbage + len (encode rec_a), 0), s').
Proof.
  destruct (damaged_record_is_skipped 1000 100 (mkStream (garbage ++ encode rec_a ++ [5]) [] (0, 0)) garbage rec_a [5] [] Record_new 0) as (s' & Heq & _).
  - lia.
  - apply good_a.
  - split; [reflexivity|]. split; [reflexivity|]. split; [constructor|cbn; lia].
  - split; [vm_compute; lia|]. right. left. vm_compute. discriminate.
  - vm_compute. lia.
  - apply no_magic_before. vm_compute. reflexivity.
  - vm_compute. lia.
  - exists s'. exact Heq.
Defined.
Lemma record_reader_witness : exists l ncut' err s', read_records 1000 29 57 Record_new 0 (mkStream [] [garbage; [82; 68; 73; 79]] (0, 0)) = Some ((l, ncut', err), s').
Proof.
  destruct (record_reader_returns 1000 (mkStream [] [garbage; [82; 68; 73; 79]] (0, 0)) [] (garbage ++ [82; 68; 73; 79]) Record_new 0) as (l & ncut' & err & s' & Heq & _).
  - split; [reflexivity|]. split; [reflexivity|]. split; [|cbn; lia]. repeat constructor; discriminate.
  - repeat (constructor; [unfold is_byte; lia|]). constructor.
  - exists l, ncut', err, s'. exact Heq.
Defined.

(** Reads everything from the given chunks. *)
Definition read_chunks (cs : list (list Z)) : option (list Rec * Z * Z) := fst <$> read_records 1000 10 50 Record_new 0 (mkStream [] cs (0, 0)).
(** Intact records are skipped.  A record after one that is refused at its last meta (a
    name that was used already, with no bytes behind it) is lost, because the reader takes
    its magic number for that of the refused one; one byte between them and it is found.  And
    a record behind bytes without a magic number is found or not depending on how the
    bytes are divided by the reads: not, when a read ends after three bytes of its magic
    number. *)
Theorem intact_records_are_skipped (b := mkRec [] [mkMeta [65] [9; 9]; mkMeta [65] []]) :
  read_chunks [encode b ++ encode rec_a] = Some ([], len (encode b) + len (encode rec_a) - 3, END_OF_READER) /\
  read_chunks [encode b ++ [0] ++ encode rec_a] = Some ([rec_a], len (encode b) + 1 + len (encode rec_a), END_OF_READER) /\
  read_chunks [replicate 20 7 ++ take 2 (encode rec_a); drop 2 (encode rec_a)] = Some ([rec_a], 20 + len (encode rec_a), END_OF_READER) /\
  read_chunks [replicate 20 7 ++ take 3 (encode rec_a); drop 3 (encode rec_a)] = Some ([], 20 + len (encode rec_a) - 3, END_OF_READER).
Proof. vm_compute. done. Qed.
(** A name of 256 bytes is accepted by MutableMeta and by the writer, which stores its
    length in one byte as 0; the reader does not get the record back. *)
Theorem long_name_is_not_read_back (r := mkRec [1] [mkMeta (replicate 256 65) [9]]) :
  (MutableMeta (mkRec [1] []) (replicate 256 65) false).1 = Some 0%nat /\ (WriteWithoutFlush [] r).1 = 0 /\ (fun x => x.1.1) <$> read_chunks [(WriteWithoutFlush [] r).2] = Some [].
Proof. vm_compute. done. Qed.
End RecordIOTheorems.
