(* ===== verification/RecordSource.v ===== *)
(** * RecordReader on its IOPortal and IOBufCutter

    The [ByteSource] that RecordReader really uses: it cuts from the buffer of a portal with
    a cutter and lets the portal read more in between.  For readers that fill what they are
    asked to, like files, this source satisfies the laws, because a reference that the
    cutter may be working on never grows; for readers that return less it does not. *)
From stdpp Require Import base list gmap.
From Stdlib Require Import ZArith Lia Bool.
From S2P Require Import Prelude IOBufBlock IOBufView IOBuf IOBufSpec IOBufCutter IOBufFrame IOBufShrink IOBufCaps IOPortal RecordIO RecordIOSpec RecordIOTheorems.

Open Scope Z_scope.
Open Scope m_scope.

Module RecordSource.
Import RecordIO RecordIOSpec RecordIOTheorems.
Import Block View IOBuf IOBufSpec IOBufFrame IOBufShrink IOBufCaps IOPortal.

#[global] Instance capped_prepare `{Env} n prev p hd space m : Capped (prepare n prev p hd space m).
Proof. revert prev p hd space. induction n; intros prev p hd space; cbn [prepare]; capped. Qed.
#[global] Instance capped_scatter vec d : Capped (scatter vec d).
Proof. revert d. induction vec; intros d; cbn [scatter]; capped. Qed.
#[global] Instance capped_commit fuel p n : Capped (commit fuel p n).
Proof. revert p n. induction fuel; intros p n; cbn [commit]; capped. Qed.

(** ** The cutter only counts references *)
#[global] Instance framing_read_here c n : Framing (IOBufCutter.read_here c n).
Proof. unfold IOBufCutter.read_here. framing. Qed.
#[global] Instance framing_load_next b c : Framing (IOBufCutter.load_next_ref b c).
Proof. unfold IOBufCutter.load_next_ref, front_ref. framing. Qed.
#[global] Instance framing_cut1 b c : Framing (IOBufCutter.cut1 b c).
Proof. unfold IOBufCutter.cut1, IOBufCutter.fetch1. framing. Qed.
#[global] Instance framing_copy_refs b k i n out : Framing (IOBufCutter.copy_refs_loop b k i n out).
Proof. revert i n out. induction k; intros i n out; cbn [IOBufCutter.copy_refs_loop]; unfold ref_at; framing. Qed.
#[global] Instance framing_copy_behind b c n : Framing (IOBufCutter.copy_behind b c n).
Proof. unfold IOBufCutter.copy_behind. framing. Qed.
#[global] Instance framing_cutter_copy_to b c n : Framing (IOBufCutter.copy_to b c n).
Proof. unfold IOBufCutter.copy_to, IOBufCutter.slower_copy_to. framing. Qed.
#[global] Instance framing_cutter_pop b c fuel n m : Framing (IOBufCutter.pop_front_loop fuel b c n m).
Proof. revert b c n. induction fuel; intros b c n; cbn [IOBufCutter.pop_front_loop]; framing. Qed.
#[global] Instance framing_cutter_cutn b c out n : Framing (IOBufCutter.cutn b c out n).
Proof. unfold IOBufCutter.cutn. framing. Qed.
#[global] Instance framing_cutter_cutn_mem b c n : Framing (IOBufCutter.cutn_mem b c n).
Proof. unfold IOBufCutter.cutn_mem. framing. Qed.
#[global] Instance framing_remaining b c : Framing (IOBufCutter.remaining_bytes b c).
Proof. unfold IOBufCutter.remaining_bytes, front_ref. framing. Qed.
#[global] Instance framing_cutter_cutn_string b c out n : Framing (IOBufCutter.cutn_string b c out n).
Proof. unfold IOBufCutter.cutn_string. framing. Qed.
#[global] Instance framing_copy_to_loop b k d m off i : Framing (copy_to_loop b k d m off i).
Proof. revert d m off i. induction k; intros d m off i; cbn [copy_to_loop]; unfold ref_at; framing. Qed.
#[global] Instance framing_skip_pos b k off i : Framing (skip_pos b k off i).
Proof. revert off i. induction k; intros off i; cbn [skip_pos]; unfold ref_at; framing. Qed.
#[global] Instance framing_to_string b : Framing (to_string b).
Proof. unfold to_string, copy_to_string, copy_to. framing. Qed.
#[global] Instance framing_cutter_pop_front b c n : Framing (IOBufCutter.pop_front b c n).
Proof. unfold IOBufCutter.pop_front. framing. Qed.

(** ** The source of RecordReader *)
Abbreviation Cutter := IOBufCutter.Cutter.
Record CutState (R : Type) := mkCut { world : World; portal : Portal; cutter : Cutter; reader : R }.
Arguments mkCut {R}. Arguments world {R}. Arguments portal {R}. Arguments cutter {R}. Arguments reader {R}.
(** An operation of the cutter on the buffer of the portal. *)
Definition on_cut {R A} (f : buffer -> Cutter -> M World (A * buffer * Cutter)) : M (CutState R) A := fun s =>
  match f (_buf (portal s)) (cutter s) (world s) with
  | Some ((a, b', c'), w') => Some (a, mkCut w' (mkPortal b' (_block (portal s))) c' (reader s))
  | None => None
  end.
(** What is cut into a buffer stays there; its content is the result. *)
Definition cut_into (d : dest) (n : Z) (b : buffer) (c : Cutter) : M World (list Z * buffer * Cutter) :=
  match d with
  | ToBuffer => let* (_, b', c', out) := IOBufCutter.cutn b c IOBuf_empty n in let* s := to_string out in mret (s, b', c')
  | ToString => let* (_, s, b', c') := IOBufCutter.cutn_string b c [] n in mret (s, b', c')
  | ToMemory => let* (_, s, b', c') := IOBufCutter.cutn_mem b c n in mret (s, b', c')
  end.
(** [errno] after a read. *)
Class Errno (R : Type) := errno : R -> Z.
#[global] Instance cut_source `{Env} {R} `{Reader R} `{Errno R} : ByteSource (CutState R) := {
  RecordIO.copy_to n := on_cut (fun b c => IOBufCutter.copy_to b c n);
  RecordIO.pop_front n := on_cut (fun b c => IOBufCutter.pop_front b c n);
  RecordIO.cut1 := on_cut IOBufCutter.cut1;
  RecordIO.cutn d n := on_cut (cut_into d n);
  RecordIO.remaining_bytes := on_cut (fun b c => let* n := IOBufCutter.remaining_bytes b c in mret (n, b, c));
  RecordIO.fill n s :=
    match append_from_reader (portal s) n (reader s) (world s) with
    | Some ((nr, p', rd'), w') => Some ((nr, errno rd'), mkCut w' p' (cutter s) rd')
    | None => None
    end }.

(** A file: as many bytes as are asked for, while there are any. *)
Record File := mkFile { content : list Z }.
#[global] Instance file_reader : Reader File := fun lens rd =>
  let n := Z.to_nat (foldr Z.add 0 lens) in
  match take n (content rd) with [] => (inl 0, rd) | d => (inr d, mkFile (drop n (content rd))) end.
#[global] Instance file_errno : Errno File := fun _ => 0.

(** The buffered bytes are those from the position of the cutter on.  While there is more
    to read, no block is kept for it, and every block that the buffer refers to is full: what
    is read next cannot be merged into the reference that the cutter works on. *)
Definition cut_represents (s : CutState File) (bs un : list Z) : Prop :=
  content (reader s) = un /\ IOBufCutter.cutting (world s) (_buf (portal s)) (cutter s) bs /\
  2 * (total (view_list (_buf (portal s))) + len un) < limit /\
  (exists rs ch tc, cache (world s) (_block (portal s)) ch tc (owned (_buf (portal s)) ++ rs)) /\
  (un = [] \/ _block (portal s) = None /\ default_caps (world s) /\ forall x, x ∈ owned (_buf (portal s)) -> full_in (world s) x).

Lemma cutting_repr w b c rem : IOBufCutter.cutting w b c rem -> repr b (view_list b) /\ valid w (view_list b).
Proof.
  unfold IOBufCutter.cutting. destruct (IOBufCutter._block c).
  - intros (r & l & Hr & Hv & _). by rewrite (repr_view_list _ _ Hr).
  - by intros (_ & Hr & Hv & _).
Qed.
Lemma cut_law {A} (f : buffer -> Cutter -> M World (A * buffer * Cutter)) s bs un a bs' : cut_represents s bs un ->
  (forall b c, Framing (f b c)) -> (forall b c w a b' c' w', f b c w = Some ((a, b', c'), w') -> shrunk b b') ->
  (forall R, inv (world s) (owned (_buf (portal s)) ++ R) -> exists b' c' w' new, f (_buf (portal s)) (cutter s) (world s) = Some ((a, b', c'), w') /\
    IOBufCutter.cutting w' b' c' bs' /\ inv w' (owned b' ++ new ++ R)) ->
  exists s', on_cut f s = Some (a, s') /\ cut_represents s' bs' un.
Proof.
  destruct s as [w [b hd] c rd]. unfold cut_represents, on_cut. cbn [world portal cutter reader _buf _block]. intros (Hu & Hc & Hlim & (rs & ch & tc & Hca) & Hmore) Hfr Hsh Hf.
  destruct (Hf (ch ++ rs)) as (b' & c' & w' & new & Heq & Hc' & Hi').
  { eapply inv_sub_perm; [|exact (cache_inv _ _ _ _ _ Hca)]. intros x. rewrite !cnt_app. lia. }
  rewrite Heq. eexists. split; [reflexivity|]. cbn [world portal cutter reader _buf _block]. pose proof (Hfr b c _ _ _ Heq) as Hframe. pose proof (Hsh _ _ _ _ _ _ _ Heq) as Hshr.
  destruct (shrunk_owned b b' _ Hshr (proj1 (cutting_repr _ _ _ _ Hc))) as [Hown Htot].
  assert (inv w' (ch ++ owned b' ++ new ++ rs)) as Hi2 by (eapply inv_sub_perm; [|exact Hi']; intros x; rewrite !cnt_app; lia).
  pose proof (cache_frame w w' hd ch tc _ _ Hframe Hca Hi2) as Hca2. split; [done|]. split; [done|]. split; [lia|]. split; [by exists (new ++ rs), ch, tc|].
  destruct Hmore as [?|(Hb & Hcap & Hfull)]; [by left|right]. split; [done|]. split; [exact (capped_framing _ (Hfr b c) _ _ _ Heq Hcap)|].
  intros x Hx. eapply full_recount; [|by apply Hfull, Hown]. eapply frame_recount; [exact Hframe|apply (ca_inv _ _ _ _ _ Hca2)|]. rewrite !elem_of_app. tauto.
Qed.
#[global] Instance framing_cut_into d n b c : Framing (cut_into d n b c).
Proof. unfold cut_into. destruct d; framing. Qed.
Lemma cut_into_shrunk d n b c w s b' c' w' : 0 <= n -> cut_into d n b c w = Some ((s, b', c'), w') -> shrunk b b'.
Proof.
  intros Hn Hrun. destruct d; cbn [cut_into] in Hrun.
  - inv_bind Hrun. destruct a as [[[m b1] c1] out]. inv_bind Hrun. injection Hrun as _ <- _ _. by eapply cutter_cutn_shrunk.
  - inv_bind Hrun. destruct a as [[[m t] b1] c1]. injection Hrun as _ <- _ _. by eapply cutter_cutn_string_shrunk.
  - inv_bind Hrun. destruct a as [[[m t] b1] c1]. injection Hrun as _ <- _ _. by eapply cutter_cutn_mem_shrunk.
Qed.
Lemma cutting_total w b c bs R : IOBufCutter.cutting w b c bs -> inv w (owned b ++ R) -> len bs <= total (view_list b) /\ len (bytes w (view_list b)) = total (view_list b).
Proof.
  intros Hc Hi. destruct (cutting_repr _ _ _ _ Hc) as [Hr Hv]. pose proof (bytes_len w _ Hv (fun b blk => inv_ok w _ b blk Hi)) as Hlen. split; [|done].
  rewrite <- Hlen. unfold IOBufCutter.cutting in Hc. destruct (IOBufCutter._block c).
  - destruct Hc as (r & l & Hr' & _ & _ & _ & _ & ->). rewrite (repr_view_list _ _ Hr'), bytes_cons, !length_app, length_drop. lia.
  - by destruct Hc as (_ & _ & _ & <-).
Qed.
Lemma cut_into_spec w b c bs R d n : IOBufCutter.cutting w b c bs -> inv w (owned b ++ R) -> 0 <= n -> 2 * len bs < limit ->
  exists b' c' w' new, cut_into d n b c w = Some ((take (Z.to_nat n) bs, b', c'), w') /\ IOBufCutter.cutting w' b' c' (drop (Z.to_nat n) bs) /\ inv w' (owned b' ++ new ++ R).
Proof.
  intros Hc Hi Hn Hlim. destruct d; cbn [cut_into]; unfold mbind', mret.
  - destruct (IOBufCutter.cutn_cut_spec w b c bs IOBuf_empty [] R n Hc (holds_empty w) Hi Hn) as (b' & c' & out & w' & Heq & Hc' & Ho & Hi' & _); [cbn; lia|]. rewrite Heq. cbn [app] in Ho.
    rewrite (to_string_spec w' out _ _ Ho Hi'); [|rewrite length_take; unfold limit in Hlim; lia]. by exists b', c', w', (owned out).
  - destruct (IOBufCutter.cutn_string_cut_spec w b c bs R [] n Hc Hi Hn) as (b' & c' & w' & Heq & Hc' & Hi' & _). rewrite Heq. by exists b', c', w', [].
  - destruct (IOBufCutter.cutn_mem_cut_spec w b c bs R n Hc Hi Hn) as (b' & c' & w' & Heq & Hc' & Hi' & _). rewrite Heq. by exists b', c', w', [].
Qed.
Lemma cut_yields_law {A} (f : buffer -> Cutter -> M World (A * buffer * Cutter)) s bs un a bs' : cut_represents s bs un ->
  (forall b c, Framing (f b c)) -> (forall b c w a b' c' w', f b c w = Some ((a, b', c'), w') -> shrunk b b') ->
  (forall w b c R, IOBufCutter.cutting w b c bs -> inv w (owned b ++ R) -> IOBufCutter.cut_yields w R (f b c w) a bs') ->
  exists s', on_cut f s = Some (a, s') /\ cut_represents s' bs' un.
Proof.
  intros Hr Hfr Hsh Hf. apply (cut_law f s bs); try done. intros R Hi. destruct (Hf (world s) _ (cutter s) R (proj1 (proj2 Hr)) Hi) as (b' & c' & w' & Heq & Hc & Hi' & _). by exists b', c', w', [].
Qed.

(** ** Reading more *)
Lemma full_stable w w' R x : stable w w' R -> x ∈ R -> full_in w x -> full_in w' x.
Proof.
  intros Hst Hx (blk & Hb & Hf). destruct (Hst x blk Hx Hb) as (blk' & Hb' & Hsz & Hcap & _). exists blk'. split; [done|]. unfold full in *. apply Z.leb_le in Hf. apply Z.leb_le. lia.
Qed.
(** The vectors are together as long as the room of the chain when none is shortened. *)
Lemma whole_sum w vec ch : whole w vec ch -> (Datatypes.length ch <= Datatypes.length vec)%nat -> capacity_of vec = room_sum w ch.
Proof.
  revert ch. induction vec as [|v vec IH]; intros [|k t] Hw Hl; try done; [cbn in Hl; lia|]. destruct Hw as ((blk & Hb & Hv) & Hw). cbn [capacity_of foldr room_sum]. rewrite Hb, Hv.
  fold (capacity_of vec). rewrite (IH t); [done|done|cbn in Hl; lia].
Qed.
Lemma chain_bound w hd ch R tc k blk : default_caps w -> cache w hd ch tc R -> k ∈ ch -> heap w !! k = Some blk -> left_space blk <= DEFAULT_BLOCK_SIZE - sizeof_Block.
Proof.
  intros Hcap Hca Hk Hb. destruct (inv_block _ _ _ _ (ca_inv _ _ _ _ _ Hca) k blk Hb) as (Hok & _). pose proof Hok as (Hsz & _). rewrite (left_space_ok _ Hok).
  assert (is_user_data blk = false) as Hud; [|pose proof (Hcap k blk Hb Hud); lia].
  pose proof (ca_chain _ _ _ _ _ Hca) as Hch. clear Hca. revert hd Hch. induction ch as [|x t IH]; intros hd; [by apply not_elem_of_nil in Hk|].
  cbn [is_chain]. intros (_ & bx & nx & Hbx & _ & Hd & Hct). apply elem_of_cons in Hk as [->|Hk]; [congruence|by eapply IH].
Qed.
Lemma vec_bound w hd ch0 ch R tc vec : default_caps w -> cache w hd (ch0 ++ ch) tc R -> vec_ok w vec ch -> capacity_of vec <= len vec * (DEFAULT_BLOCK_SIZE - sizeof_Block).
Proof.
  intros Hcap Hca. revert ch0 ch Hca. induction vec as [|v vec IH]; intros ch0 [|k t] Hca; try done. cbn [vec_ok]. intros (_ & (blk & Hb & _ & Hl & _) & Hv).
  assert (k ∈ ch0 ++ k :: t) as Hk by (apply elem_of_app; right; left). pose proof (chain_bound _ _ _ _ _ _ _ Hcap Hca Hk Hb) as Hbound.
  pose proof (IH (ch0 ++ [k]) t ltac:(by rewrite <- app_assoc) Hv) as Hrest. cbn [capacity_of foldr Datatypes.length]. fold (capacity_of vec). lia.
Qed.
(** Without cached blocks new ones are prepared, and 64 of them do not reach the limit. *)
Lemma fresh_chain `{Env} w tc R : (forall k, malloc_ok k = true) -> cache w None [] tc R -> default_caps w ->
  exists vec hd ch tc' w', prepare MAX_APPEND_IOVEC None None None 0 MAX_READ w = Some ((Some vec, hd), w') /\ stable w w' R /\ cache w' hd ch tc' R /\ default_caps w' /\
    vec_ok w' vec ch /\ vec <> [] /\ capacity_of vec = room_sum w' ch /\ 0 < capacity_of vec.
Proof.
  intros Hm Hca Hcap. destruct (prepare_spec MAX_APPEND_IOVEC w None [] [] tc R 0 MAX_READ Hca) as (res & hd & w' & Heq & Hst & _ & ch & tc' & Hca' & _ & Hres); [unfold MAX_APPEND_IOVEC; lia|unfold MAX_READ; lia|].
  cbn [last head app] in *. pose proof (capped_prepare _ _ _ _ _ _ _ _ _ Heq Hcap) as Hcap'. destruct res as [vec|]; [|done]. destruct Hres as (Hne & Hv & Hle & Hpos & Hlc & Hlv & Hwh).
  pose proof (vec_bound w' hd [] ch R tc' vec Hcap' Hca' Hv) as Hb. cbn [Datatypes.length] in Hlc. rewrite Nat.max_0_l in Hlc. unfold MAX_APPEND_IOVEC, DEFAULT_BLOCK_SIZE, sizeof_Block, MAX_READ in *.
  exists vec, hd, ch, tc', w'. do 6 (split; [done|]). split; [|lia]. apply whole_sum; [|done]. apply Hwh. lia.
Qed.
(** The cutter sees what is added behind the references that are there. *)
Lemma cutting_grows w w' b b' c bs d l R R' : IOBufCutter.cutting w b c bs -> inv w (owned b ++ R) -> inv w' (owned b' ++ R') ->
  holds w' b' (bytes w (view_list b) ++ d) -> view_list b' = view_list b ++ l -> IOBufCutter.cutting w' b' c (bs ++ d).
Proof.
  intros Hc Hi Hi' (Hr' & Hv' & Hb') Hl. unfold IOBufCutter.cutting in *. destruct (IOBufCutter._block c) as [k|].
  - destruct Hc as (r & t & Hr & Hv & Hk & Hd & He & ->). rewrite (repr_view_list _ _ Hr) in *. rewrite Hl, <- app_comm_cons in *.
    pose proof Hv as [Hok _]%Forall_cons. pose proof Hv' as [Hok' _]%Forall_cons. rewrite !bytes_cons, <- app_assoc in Hb'.
    assert (len (ref_bytes w r) = length r) as Hlen by (apply ref_bytes_len; [done|]; intros ? ?; exact (inv_ok w _ _ _ Hi)).
    assert (len (ref_bytes w' r) = length r) as Hlen' by (apply ref_bytes_len; [done|]; intros ? ?; exact (inv_ok w' _ _ _ Hi')).
    apply app_inj_1 in Hb' as [Hb1 Hb2]; [|lia]. exists r, (t ++ l). do 5 (split; [done|]). by rewrite Hb1, Hb2, <- app_assoc.
  - destruct Hc as (Hn & Hr & Hv & Hb). rewrite Hb in Hb'. by split_and!.
Qed.
Lemma room_sum_zero w hd ch tc R : cache w hd ch tc R -> room_sum w ch <= 0 -> ch = [].
Proof.
  intros Hca. assert (forall t, (forall k, k ∈ t -> k ∈ ch) -> 0 <= room_sum w t) as Hpos.
  { induction t as [|k t IH]; intros Hsub; [done|]. cbn [room_sum]. specialize (IH ltac:(intros x Hx; apply Hsub; by right)).
    destruct (heap w !! k) as [blk|] eqn:Hb; [|lia]. pose proof (room_left _ _ _ _ _ k blk Hca (Hsub k ltac:(left)) Hb). lia. }
  destruct ch as [|k t]; [done|]. cbn [room_sum]. specialize (Hpos t ltac:(intros x Hx; by right)). destruct (cache_alive _ _ _ _ _ k Hca) as [blk Hb]; [left|].
  pose proof (room_left _ _ _ _ _ k blk Hca ltac:(left) Hb). rewrite Hb. lia.
Qed.
Lemma write_room k off d w u w' ch : write_at k off d w = Some (u, w') -> room_sum w' ch = room_sum w ch.
Proof.
  unfold write_at, mbind', load, store. destruct (heap w !! k) as [blk|] eqn:Hk; [|done]. cbn [fmap option_fmap option_map]. destruct (_ && _); [|done]. rewrite Hk. intros Heq. injection Heq as _ <-.
  induction ch as [|x t IH]; [done|]. cbn [room_sum heap set_heap]. f_equal; [|exact IH]. destruct (decide (x = k)) as [->|Hne]; [by rewrite lookup_insert_eq, Hk|by rewrite lookup_insert_ne].
Qed.
Lemma scatter_room vec d w u w' ch : scatter vec d w = Some (u, w') -> room_sum w' ch = room_sum w ch.
Proof.
  revert d w. induction vec as [|v vec IH]; intros d w Hrun; [by injection Hrun as _ <-|]. cbn [scatter] in Hrun. inv_bind Hrun. rewrite (IH _ _ Hrun). by eapply write_room.
Qed.
(** [scatter] and [commit] of what a file gives, from blocks that are all full and a new
    chain: nothing is merged, and if the chain is used up all blocks are full again. *)
Lemma file_commit w b hd ch tc rs vec bs c d : cache w hd ch tc (owned b ++ rs) -> IOBufCutter.cutting w b c bs -> vec_ok w vec ch -> d <> [] -> len d <= capacity_of vec ->
  capacity_of vec = room_sum w ch -> 2 * (total (view_list b) + len d) < limit -> default_caps w -> (forall x, x ∈ owned b -> full_in w x) ->
  exists w1 b' hd' ch' w2, scatter vec d w = Some (tt, w1) /\ commit (S (Datatypes.length d)) (mkPortal b hd) (len d) w1 = Some (mkPortal b' hd', w2) /\
    cache w2 hd' ch' tc (owned b' ++ rs) /\ IOBufCutter.cutting w2 b' c (bs ++ d) /\ total (view_list b') = total (view_list b) + len d /\ default_caps w2 /\
    (capacity_of vec <= len d -> hd' = None /\ forall x, x ∈ owned b' -> full_in w2 x).
Proof.
  intros Hca Hc Hv Hd Hle Hsum Hlim Hcap Hfull. assert (forall w hd ch b, cache w hd ch tc (owned b ++ rs) -> inv w (owned b ++ ch ++ rs)) as Hperm.
  { intros w0 hd0 ch0 b0 Hca0. eapply inv_sub_perm; [|exact (cache_inv _ _ _ _ _ Hca0)]. intros x. rewrite !cnt_app. lia. }
  destruct (scatter_spec w hd [] ch tc _ vec d Hca Hv Hle) as (w1 & Heq1 & Hca1 & Hst1 & Hf1 & Hoth1). cbn [app] in *.
  assert (holds w1 b (bytes w (view_list b))) as Hh1 by (eapply holds_stable; [exact Hst1|sub_app|]; destruct (cutting_repr _ _ _ _ Hc); by apply holds_intro).
  destruct (cutting_total _ _ _ _ _ Hc (Hperm _ _ _ _ Hca)) as [_ Htot].
  destruct (commit_spec (S (Datatypes.length d)) w1 b _ hd ch tc rs d Hca1 Hh1 Hf1 Hd) as (b' & hd' & ch' & w2 & Heq2 & Hh2 & Hca2 & _ & _ & Hrs & Hgrow & Hfull2); [lia|lia|].
  assert (forall x, x ∈ owned b -> full_in w1 x) as Hfull1 by (intros x Hx; eapply full_stable; [exact Hst1|rewrite !elem_of_app; tauto|by apply Hfull]).
  assert (room_sum w1 ch = room_sum w ch) as Hrs1 by (by eapply scatter_room).
  destruct (Hgrow (view_list b) []) as (l2 & Hl2); [by rewrite app_nil_r|..].
  { intros _ r Hr Heq. destruct ch as [|k t]; cbn [head] in Heq; [apply cutting_repr in Hc as [Hrep _]; pose proof (repr_shape _ _ Hrep) as Hsh; rewrite Forall_forall in Hsh; apply last_Some_elem_of, Hsh in Hr as (_ & _ & _ & [? ?]); congruence|].
    assert (k ∈ owned b) as Hk by (apply list_elem_of_omap; exists r; split; [by apply last_Some_elem_of|done]). destruct (Hfull1 k Hk) as (blk & Hb & Hfb).
    pose proof (ca_room _ _ _ _ _ Hca1) as [(blk' & Hb' & Hfb') _]%Forall_cons. congruence. }
  exists w1, b', hd', ch', w2. split; [exact Heq1|]. split; [exact Heq2|]. split; [exact Hca2|].
  split; [eapply cutting_grows; [exact Hc|by eapply Hperm|by eapply Hperm|exact Hh2|exact Hl2]|]. split.
  { pose proof (length_holds _ _ _ _ (Hperm _ _ _ _ Hca2) Hh2) as Hlen. rewrite (length_spec _ _ (proj1 Hh2)), length_app in Hlen. lia. }
  split; [exact (capped_commit _ _ _ _ _ _ Heq2 (capped_scatter _ _ _ _ _ Heq1 Hcap))|]. intros Hall.
  assert (ch' = []) as Hnil by (eapply room_sum_zero; [exact Hca2|lia]). split; [|by apply Hfull2]. pose proof (ca_chain _ _ _ _ _ Hca2) as Hch. by rewrite Hnil in Hch.
Qed.
(** There is memory for every block. *)
Class Memory `{Env} : Prop := memory : forall k, malloc_ok k = true.
Section FileLaws.
Context `{Env} `{!Memory}.
Lemma file_fill_law (s : CutState File) bs un : cut_represents s bs un -> un <> [] ->
  exists s' c un' err, un = c ++ un' /\ c <> [] /\ RecordIO.fill MAX_READ s = Some ((len c, err), s') /\ cut_represents s' (bs ++ c) un'.
Proof.
  destruct s as [w [b hd] c [un0]]. unfold cut_represents. cbn [world portal cutter reader _buf _block content]. intros (-> & Hc & Hlim & (rs & ch & tc & Hca) & [->|(-> & Hcap & Hfull)]) Hne; [done|].
  pose proof (ca_chain _ _ _ _ _ Hca) as Hch. destruct ch as [|? ?]; [|by destruct Hch as [? _]].
  destruct (fresh_chain w tc _ memory Hca Hcap) as (vec & hd & ch & tc1 & w1 & Heq1 & Hst1 & Hca1 & Hcap1 & Hv & Hvne & Hsum & Hpos).
  assert (IOBufCutter.cutting w1 b c bs) as Hc1 by (eapply IOBufCutter.cutting_stable; [exact Hst1|sub_app|exact Hc]).
  assert (forall x, x ∈ owned b -> full_in w1 x) as Hfull1 by (intros x Hx; eapply full_stable; [exact Hst1|rewrite elem_of_app; tauto|by apply Hfull]).
  set (d := take (Z.to_nat (capacity_of vec)) un). assert (d <> []) as Hd by (unfold d; destruct un; [done|]; destruct (Z.to_nat (capacity_of vec)) eqn:E; [lia|done]).
  assert (len d <= capacity_of vec /\ len d <= len un) as [Hd1 Hd2] by (unfold d; rewrite length_take; lia).
  destruct (file_commit w1 b hd ch tc1 rs vec bs c d Hca1 Hc1 Hv Hd Hd1 Hsum) as (w2 & b' & hd' & ch' & w3 & Heq2 & Heq3 & Hca3 & Hc3 & Htot & Hcap3 & Hall); [lia|done|done|].
  exists (mkCut w3 (mkPortal b' hd') c (mkFile (drop (Z.to_nat (capacity_of vec)) un))), d, (drop (Z.to_nat (capacity_of vec)) un), 0. split; [symmetry; apply take_drop|]. split; [exact Hd|].
  assert (len un = len d + len (drop (Z.to_nat (capacity_of vec)) un)) as Hlen by (unfold d; rewrite length_take, length_drop; lia). split.
  - cbn [RecordIO.fill cut_source world portal cutter reader]. unfold append_from_reader. unfold mbind' at 1. cbn [_block _buf]. rewrite Heq1. unfold ReadV, file_reader. rewrite capacity_sum. cbn [content]. fold d.
    destruct d as [|x d'] eqn:Ed; [done|]. unfold mbind' at 1. rewrite Heq2. unfold mbind' at 1. rewrite Heq3. done.
  - cbn [world portal cutter reader _buf _block content]. split; [done|]. split; [exact Hc3|]. split; [lia|]. split; [by exists rs, ch', tc1|].
    destruct (decide (len un <= capacity_of vec)) as [Hle|Hgt]; [left; apply drop_ge; lia|right]. destruct Hall as [Hhd Hall]; [unfold d; rewrite length_take; lia|]. by split_and!.
Qed.
Lemma file_fill_end_law (s : CutState File) bs : cut_represents s bs [] ->
  exists s' nr err, RecordIO.fill MAX_READ s = Some ((nr, err), s') /\ nr <= 0 /\ cut_represents s' bs [].
Proof.
  destruct s as [w [b hd] c [un0]]. unfold cut_represents. cbn [world portal cutter reader _buf _block content]. intros (-> & Hc & Hlim & (rs & ch & tc & Hca) & _).
  assert (head ch = hd) as Hhd by (pose proof (ca_chain _ _ _ _ _ Hca) as Hch; destruct ch; cbn in *; [done|]; by destruct Hch as [-> _]).
  destruct (prepare_spec MAX_APPEND_IOVEC w hd [] ch tc (owned b ++ rs) 0 MAX_READ Hca) as (res & hd1 & w1 & Heq1 & Hst1 & _ & ch1 & tc1 & Hca1 & _ & Hres); [unfold MAX_APPEND_IOVEC; lia|unfold MAX_READ; lia|].
  cbn [last app] in *. rewrite Hhd in Heq1. assert (IOBufCutter.cutting w1 b c bs) as Hc1 by (eapply IOBufCutter.cutting_stable; [exact Hst1|sub_app|exact Hc]).
  cbn [RecordIO.fill cut_source world portal cutter reader]. unfold append_from_reader. unfold mbind' at 1. cbn [_block _buf]. rewrite Heq1. destruct res as [vec|]; [|by destruct Hres; apply memory].
  unfold ReadV, file_reader. cbn [content]. rewrite take_nil. cbn [_buf]. destruct (empty b).
  - destruct (return_cached_blocks_spec w1 b hd1 ch1 tc1 _ Hca1) as (w2 & Heq2 & Hi2 & Hst2). unfold mbind' at 1. rewrite Heq2. eexists _, 0, _. split; [reflexivity|]. split; [done|].
    cbn [world portal cutter reader _buf _block content]. split; [done|]. split; [eapply IOBufCutter.cutting_stable; [exact Hst2|sub_app|exact Hc1]|]. split; [done|]. split; [|by left].
    exists rs, []. by apply cache_none.
  - eexists _, 0, _. split; [reflexivity|]. split; [done|]. cbn [world portal cutter reader _buf _block content]. do 3 (split; [done|]). split; [by exists rs, ch1, tc1|by left].
Qed.
#[global] Program Instance file_laws : SourceLaws (CutState File) := {| represents := cut_represents |}.
Next Obligation.
  intros s bs un n Hr Hn. apply (cut_yields_law _ s bs un _ _ Hr); [exact _|intros *; apply copy_to_shrunk|]. intros w b c R Hc Hi. by apply IOBufCutter.cutter_copy_to_spec.
Qed.
Next Obligation.
  intros s bs un n Hr Hn. apply (cut_yields_law _ s bs un _ _ Hr); [exact _|intros *; apply pop_front_loop_shrunk|]. intros w b c R Hc Hi. by apply IOBufCutter.pop_front_cut_spec.
Qed.
Next Obligation.
  intros s bs un Hr. apply (cut_yields_law _ s bs un _ _ Hr); [exact _|intros *; apply cut1_shrunk|]. intros w b c R Hc Hi. by apply IOBufCutter.cut1_spec.
Qed.
Next Obligation.
  intros s bs un d n Hr Hn. apply (cut_law _ s bs un _ _ Hr); [exact _|intros *; by apply cut_into_shrunk|]. intros R Hi. destruct Hr as (_ & Hc & Hlim & _).
  destruct (cutting_total _ _ _ _ _ Hc Hi) as [Hle _]. apply cut_into_spec; [done|done|done|]. lia.
Qed.
Next Obligation.
  intros s bs un Hr. apply (cut_yields_law _ s bs un _ _ Hr); [intros b c; framing|intros * Hrun; inv_bind Hrun; by injection Hrun as _ <- _ _|].
  intros w b c R Hc Hi. unfold mbind', mret. rewrite (IOBufCutter.remaining_spec w b c bs R Hc Hi). exists b, c, w. do 3 (split; [done|]). apply stable_refl.
Qed.
Next Obligation. exact file_fill_law. Qed.
Next Obligation. exact file_fill_end_law. Qed.
Lemma new_source_represents w R f : inv w R -> default_caps w -> 2 * len f < limit -> cut_represents (mkCut w Portal_new IOBufCutter.Cutter_new (mkFile f)) [] f.
Proof.
  intros Hi Hcap Hlim. split; [done|]. split; [split; [done|apply holds_empty]|]. split; [exact Hlim|]. split; [exists R, []; by apply cache_none|]. right. split; [done|]. split; [exact Hcap|].
  intros x Hx. by apply not_elem_of_nil in Hx.
Qed.
End FileLaws.

(** C26: RecordIO round trip over a file, with the buffers of the implementation: records
    whose metas have distinct names of 1 to 255 bytes and whose body is within
    recordio_max_record_size are written through any writer that takes the bytes piece by
    piece; when all of the bytes have arrived in a file of less than 512 MB, a RecordReader
    on a new IOPortal and IOBufCutter returns exactly these records and then the end. Memory
    does not run out, the heap may have any other references, its blocks have at most the
    default size, and reads of the file return all they are asked for up to its end. *)
Theorem recordio_file_roundtrip {W} `{SinkLaws W} `{Env} `{!Memory} max rs (w : W) heap0 R out :
  0 <= max < 2 ^ 31 -> Forall (good max) rs -> written w = [] -> inv heap0 R -> default_caps heap0 -> 2 * len (mjoin (map encode rs)) < limit ->
  exists rcs buf' w', write_records [] rs w = Some (rcs, buf', w') /\ (buf' = [] ->
    let s := mkCut heap0 Portal_new IOBufCutter.Cutter_new (mkFile (written w')) in
    exists s' err, read_records max (Datatypes.length rs + 1) (Datatypes.length (written w') + 1) out 0 s = Some ((rs, len (written w'), err), s')).
Proof.
  intros Hmax Hg Hw Hi Hcap Hlim. destruct (write_records_spec max rs [] w (proj2 Hmax) Hg) as (rcs & buf' & w' & Heq & Hw'). exists rcs, buf', w'. split; [exact Heq|].
  intros ->. rewrite app_nil_r, Hw in Hw'. cbn [app] in Hw'. rewrite Hw'. cbv zeta.
  apply (read_records_spec max Hmax rs (Datatypes.length (mjoin (map encode rs)) + 1) _ [] (mjoin (map encode rs)) out 0 Hg); [|done|lia]. by apply (new_source_represents heap0 R).
Qed.
#[global] Instance memory_plenty : Memory (H := plenty).
Proof. done. Qed.
Lemma recordio_file_witness : exists rcs buf' w', write_records [] [rec_a; rec_b] [] = Some (rcs, buf', w') /\
  exists s' err, read_records (H := cut_source (H := plenty)) 1000 3 (Datatypes.length w' + 1) Record_new 0 (mkCut w0 Portal_new IOBufCutter.Cutter_new (mkFile w')) = Some (([rec_a; rec_b], len w', err), s').
Proof.
  destruct (recordio_file_roundtrip (W := list Z) (H1 := plenty) 1000 [rec_a; rec_b] [] w0 [] Record_new) as (rcs & buf' & w' & Heq & Hread);
    [lia|constructor; [apply good_a|constructor; [apply good_b|constructor]]|reflexivity|apply inv_w0|intros k blk Hk; cbn in Hk; by rewrite lookup_empty in Hk|vm_compute; reflexivity|].
  exists rcs, buf', w'. split; [exact Heq|]. apply Hread. assert (snd <$> (fst <$> write_records [] [rec_a; rec_b] []) = Some []) as Hc by (vm_compute; reflexivity). rewrite Heq in Hc. by injection Hc as ->.
Defined.

(** ** Readers that return less than is asked for *)
#[local] Existing Instance plenty.
#[global] Instance chunks_errno : Errno Chunks := fun _ => 0.
Definition read_pieces (cs : Chunks) : option (list Rec * Z * Z) := fst <$> read_records 1000 10 50 Record_new 0 (mkCut w0 Portal_new IOBufCutter.Cutter_new cs).
(** Short reads lose records.  RecordReader gets the same bytes in one read or in two;
    when the first read ends within a record (after 5 bytes of the first one, or of the
    second one) the rest of the bytes is put into the reference that the cutter works on and
    dropped with it, and the reader reports the end without the record.  With a cutter that
    noticed what is appended ([Stream]) both records are read. *)
Theorem short_reads_lose_records (a := encode rec_a) (b := encode rec_b) :
  read_pieces [a ++ b] = Some ([rec_a; rec_b], len (a ++ b), END_OF_READER) /\
  read_pieces [take 5 a; drop 5 a ++ b] = Some ([], 0, END_OF_READER) /\
  read_pieces [a ++ take 5 b; drop 5 b] = Some ([rec_a], len a, END_OF_READER) /\
  read_chunks [take 5 a; drop 5 a ++ b] = Some ([rec_a; rec_b], len (a ++ b), END_OF_READER).
Proof. vm_compute. done. Qed.
End RecordSource.
