(* ===== verification/BitArray.v ===== *)
(** * Bit arrays (butil/bit_array.h)

    An array of uint64_t used as bits: bit [i] is bit [i mod 64] of word [i / 64].
    The functions take the words as a list; an access outside of it is undefined
    behaviour ([None]).  [bit_array_first1] finds a bit word by word; its
    specification is the first set bit of the range. *)
From stdpp Require Import base list.
From Stdlib Require Import ZArith Lia Bool.
From S2P Require Import Prelude.

Open Scope Z_scope.

Module BitArray.

(** The number of words [bit_array_malloc] allocates for [nbit] bits. *)
Definition bit_array_words (nbit : Z) : Z := (nbit + 63) / 64.
(** [junk] is the content of the fresh memory; NULL for no bits. *)
Definition bit_array_malloc (junk : nat -> Z) (nbit : Z) : option (list Z) :=
  if nbit =? 0 then None
  else Some (map (fun i => u64 (junk i)) (seq 0 (Z.to_nat (bit_array_words nbit)))).

(** [~((1 << k) - 1)] in 64 bits. *)
Definition high_mask (k : Z) : Z := u64 (Z.lnot (u64 (Z.shiftl 1 k) - 1)).
Definition one_bit (k : Z) : Z := u64 (Z.shiftl 1 k).
Definition set_word (array : list Z) (off : Z) (f : Z -> Z) : option (list Z) :=
  v ← array !! Z.to_nat off; Some (<[Z.to_nat off := f v]> array).

Definition bit_array_clear (array : list Z) (nbit : Z) : option (list Z) :=
  let off := Z.shiftr nbit 6 in
  if off <=? Z.of_nat (length array) then
    let array1 := replicate (Z.to_nat off) 0 ++ drop (Z.to_nat off) array in
    let last := Z.shiftl off 6 in
    if negb (last =? nbit) then set_word array1 off (fun v => Z.land v (high_mask (nbit - last)))
    else Some array1
  else None.

Definition bit_array_set (array : list Z) (i : Z) : option (list Z) :=
  let off := Z.shiftr i 6 in
  set_word array off (fun v => Z.lor v (one_bit (i - Z.shiftl off 6))).
Definition bit_array_unset (array : list Z) (i : Z) : option (list Z) :=
  let off := Z.shiftr i 6 in
  set_word array off (fun v => Z.land v (u64 (Z.lnot (one_bit (i - Z.shiftl off 6))))).
Definition bit_array_get (array : list Z) (i : Z) : option Z :=
  let off := Z.shiftr i 6 in
  v ← array !! Z.to_nat off; Some (Z.land v (one_bit (i - Z.shiftl off 6))).

(** [__builtin_ctzl]: the number of trailing zeros of a non-zero word. *)
Fixpoint ctz_loop (fuel : nat) (v i : Z) : Z :=
  match fuel with
  | O => i
  | S fuel' => if Z.testbit v i then i else ctz_loop fuel' v (i + 1)
  end.
Definition ctzl (v : Z) : Z := ctz_loop 64 v 0.

(** The loop over the words [off1 .. off2). *)
Fixpoint first1_words (array : list Z) (k : nat) (i : Z) : option (option Z) :=
  match k with
  | O => Some None
  | S k' =>
      v ← array !! Z.to_nat i;
      if negb (v =? 0) then Some (Some (i * 64 + ctzl v)) else first1_words array k' (i + 1)
  end.
Definition first1_tail (array : list Z) (off1 end_ : Z) : option Z :=
  let off2 := Z.shiftr end_ 6 in
  r ← first1_words array (Z.to_nat (off2 - off1)) off1;
  match r with
  | Some n => Some n
  | None =>
      let last := Z.shiftl off2 6 in
      if negb (last =? end_) then
        v ← array !! Z.to_nat off2;
        if negb (v =? 0) then Some (Z.min (last + ctzl v) end_) else Some end_
      else Some end_
  end.
Definition bit_array_first1 (array : list Z) (begin end_ : Z) : option Z :=
  let off1 := Z.shiftr begin 6 in
  let first := Z.shiftl off1 6 in
  if negb (first =? begin) then
    v0 ← array !! Z.to_nat off1;
    let v := Z.land v0 (high_mask (begin - first)) in
    if negb (v =? 0) then Some (Z.min (first + ctzl v) end_)
    else first1_tail array (off1 + 1) end_
  else first1_tail array off1 end_.

(** ** Bits *)

(** The [i]-th bit. *)
Definition bit (array : list Z) (i : Z) : bool :=
  Z.testbit (default 0 (array !! Z.to_nat (i / 64))) (i mod 64).
Definition words_ok (array : list Z) (nbit : Z) : Prop :=
  Forall (fun v => 0 <= v < 2 ^ 64) array /\ nbit <= 64 * Z.of_nat (length array).

Lemma shiftr6 i : Z.shiftr i 6 = i / 64.
Proof. by rewrite Z.shiftr_div_pow2. Qed.
Lemma shiftl6 i : Z.shiftl i 6 = i * 64.
Proof. by rewrite Z.shiftl_mul_pow2. Qed.
Lemma mod64 i : i - i / 64 * 64 = i mod 64.
Proof. rewrite Z.mod_eq by lia. lia. Qed.

Lemma one_bit_spec k j : 0 <= k < 64 -> 0 <= j -> Z.testbit (one_bit k) j = (k =? j).
Proof.
  intros Hk Hj. unfold one_bit. rewrite Z.shiftl_mul_pow2, Z.mul_1_l by lia.
  rewrite u64_small by (split; [lia|apply Z.pow_lt_mono_r; lia]). apply Z.pow2_bits_eqb. lia.
Qed.
Lemma u64_bit z j : 0 <= j -> Z.testbit (u64 z) j = (j <? 64) && Z.testbit z j.
Proof.
  intros Hj. unfold u64. zcase; simpl.
  - apply Z.mod_pow2_bits_low. lia.
  - apply Z.mod_pow2_bits_high. lia.
Qed.
Lemma high_mask_spec k j : 0 <= k < 64 -> 0 <= j -> Z.testbit (high_mask k) j = (j <? 64) && (k <=? j).
Proof.
  intros Hk Hj. unfold high_mask. rewrite u64_bit by done. f_equal. rewrite Z.lnot_spec by done.
  rewrite Z.shiftl_mul_pow2, Z.mul_1_l by lia.
  rewrite u64_small by (split; [lia|apply Z.pow_lt_mono_r; lia]).
  replace (2 ^ k - 1) with (Z.ones k) by (rewrite Z.ones_equiv; lia).
  rewrite Z.testbit_ones_nonneg by lia. repeat zcase; simpl; (done || lia).
Qed.

Lemma words_lookup array nbit i : words_ok array nbit -> 0 <= i < nbit ->
  exists v, array !! Z.to_nat (i / 64) = Some v /\ 0 <= v < 2 ^ 64.
Proof.
  intros [Hw Hn] Hi. assert (Hlt : (Z.to_nat (i / 64) < length array)%nat).
  { enough (i / 64 < Z.of_nat (length array)) by (pose proof (Z.div_pos i 64); lia).
    apply Z.div_lt_upper_bound; lia. }
  apply lookup_lt_is_Some_2 in Hlt as [v Hv]. exists v. split; [done|].
  exact (Forall_lookup_1 _ _ _ _ Hw Hv).
Qed.

Lemma land_range v m : 0 <= v < 2 ^ 64 -> 0 <= m -> 0 <= Z.land v m < 2 ^ 64.
Proof.
  intros Hv Hm. split; [apply Z.land_nonneg; lia|].
  destruct (Z.eq_dec (Z.land v m) 0) as [->|]; [lia|].
  apply Z.log2_lt_pow2; [pose proof (proj2 (Z.land_nonneg v m)); lia|].
  pose proof (Z.log2_land v m). destruct (Z.eq_dec v 0) as [->|]; [by rewrite Z.land_0_l in *|].
  assert (Z.log2 v < 64) by (apply Z.log2_lt_pow2; lia). lia.
Qed.
Lemma lor_range a b : 0 <= a < 2 ^ 64 -> 0 <= b < 2 ^ 64 -> 0 <= Z.lor a b < 2 ^ 64.
Proof.
  intros Ha Hb. split; [apply Z.lor_nonneg; lia|].
  destruct (Z.eq_dec (Z.lor a b) 0) as [->|]; [lia|].
  apply Z.log2_lt_pow2; [pose proof (proj2 (Z.lor_nonneg a b)); lia|]. rewrite Z.log2_lor by lia.
  assert (forall x, 0 <= x < 2 ^ 64 -> Z.log2 x < 64) as Hl.
  { intros x Hx. destruct (Z.eq_dec x 0) as [->|]; [cbn; lia|]. apply Z.log2_lt_pow2; lia. }
  apply Z.max_lub_lt; by apply Hl.
Qed.

(** A word changed by a function changes its own 64 bits. *)
Lemma set_word_bits array nbit i f v j :
  words_ok array nbit -> array !! Z.to_nat (i / 64) = Some v -> 0 <= f v < 2 ^ 64 -> 0 <= i -> 0 <= j ->
  exists array', set_word array (i / 64) f = Some array' /\ words_ok array' nbit /\
    length array' = length array /\
    bit array' j = if j / 64 =? i / 64 then Z.testbit (f v) (j mod 64) else bit array j.
Proof.
  intros [Hw Hn] Hv Hf Hi Hj. unfold set_word. rewrite Hv. simpl. eexists. split; [done|].
  split; [split; [by apply Forall_insert|by rewrite length_insert]|]. split; [apply length_insert|].
  unfold bit. pose proof (Z.div_pos i 64). pose proof (Z.div_pos j 64).
  destruct (Z.eqb_spec (j / 64) (i / 64)) as [E|E].
  - rewrite E, list_lookup_insert_eq by (by eapply lookup_lt_Some). done.
  - rewrite list_lookup_insert_ne by lia. done.
Qed.

Lemma bit_array_set_spec array nbit i j :
  words_ok array nbit -> 0 <= i < nbit -> 0 <= j ->
  exists array', bit_array_set array i = Some array' /\ words_ok array' nbit /\
    length array' = length array /\ bit array' j = (i =? j) || bit array j.
Proof.
  intros Hw Hi Hj. destruct (words_lookup array nbit i Hw Hi) as (v & Hv & Hr).
  unfold bit_array_set. rewrite shiftr6, shiftl6, mod64.
  pose proof (Z.mod_pos_bound i 64). pose proof (Z.mod_pos_bound j 64).
  destruct (set_word_bits array nbit i (fun v => Z.lor v (one_bit (i mod 64))) v j Hw Hv)
    as (a' & Heq & Hw' & Hl & Hb); [|lia|lia|].
  { apply lor_range; [done|]. apply u64_range. }
  exists a'. split; [done|]. split; [done|]. split; [done|]. rewrite Hb.
  pose proof (Z.div_mod i 64). pose proof (Z.div_mod j 64).
  destruct (Z.eqb_spec (j / 64) (i / 64)) as [E|E].
  - rewrite Z.lor_spec, one_bit_spec by lia. unfold bit. rewrite E, Hv. simpl.
    destruct (Z.testbit v (j mod 64)); simpl; [by rewrite orb_true_r|]. rewrite orb_false_r.
    destruct (Z.eqb_spec (i mod 64) (j mod 64)), (Z.eqb_spec i j); (done || lia).
  - destruct (Z.eqb_spec i j) as [->|]; [done|]. done.
Qed.

Lemma bit_array_unset_spec array nbit i j :
  words_ok array nbit -> 0 <= i < nbit -> 0 <= j ->
  exists array', bit_array_unset array i = Some array' /\ words_ok array' nbit /\
    length array' = length array /\ bit array' j = negb (i =? j) && bit array j.
Proof.
  intros Hw Hi Hj. destruct (words_lookup array nbit i Hw Hi) as (v & Hv & Hr).
  unfold bit_array_unset. rewrite shiftr6, shiftl6, mod64.
  pose proof (Z.mod_pos_bound i 64). pose proof (Z.mod_pos_bound j 64).
  destruct (set_word_bits array nbit i (fun v => Z.land v (u64 (Z.lnot (one_bit (i mod 64))))) v j Hw Hv)
    as (a' & Heq & Hw' & Hl & Hb); [|lia|lia|].
  { apply land_range; [done|]. apply u64_range. }
  exists a'. split; [done|]. split; [done|]. split; [done|]. rewrite Hb.
  pose proof (Z.div_mod i 64). pose proof (Z.div_mod j 64).
  destruct (Z.eqb_spec (j / 64) (i / 64)) as [E|E].
  - rewrite Z.land_spec, u64_bit, Z.lnot_spec, one_bit_spec by lia. unfold bit. rewrite E, Hv. simpl.
    rewrite (proj2 (Z.ltb_lt (j mod 64) 64)) by lia. simpl. rewrite andb_comm. f_equal. f_equal.
    destruct (Z.eqb_spec (i mod 64) (j mod 64)), (Z.eqb_spec i j); (done || lia).
  - destruct (Z.eqb_spec i j) as [->|]; [done|]. done.
Qed.

Lemma bit_array_get_spec array nbit i :
  words_ok array nbit -> 0 <= i < nbit ->
  exists v, bit_array_get array i = Some v /\ (v =? 0) = negb (bit array i).
Proof.
  intros Hw Hi. destruct (words_lookup array nbit i Hw Hi) as (v & Hv & Hr).
  unfold bit_array_get. rewrite shiftr6, shiftl6, mod64, Hv. simpl. eexists. split; [done|].
  pose proof (Z.mod_pos_bound i 64). unfold bit. rewrite Hv. simpl.
  destruct (Z.testbit v (i mod 64)) eqn:Hb; simpl.
  - apply Z.eqb_neq. intros H0. apply (f_equal (fun z => Z.testbit z (i mod 64))) in H0.
    rewrite Z.land_spec, one_bit_spec, Hb, Z.bits_0, Z.eqb_refl in H0 by lia. done.
  - apply Z.eqb_eq. apply Z.bits_inj'. intros n Hn. rewrite Z.land_spec, one_bit_spec, Z.bits_0 by lia.
    destruct (Z.eqb_spec (i mod 64) n) as [<-|]; [by rewrite Hb|apply andb_false_r].
Qed.

Lemma bit_array_clear_spec array nbit j :
  words_ok array nbit -> 0 <= nbit -> 0 <= j ->
  exists array', bit_array_clear array nbit = Some array' /\ words_ok array' nbit /\
    length array' = length array /\ bit array' j = (nbit <=? j) && bit array j.
Proof.
  intros [Hw Hn] Hnb Hj. unfold bit_array_clear. rewrite shiftr6, shiftl6.
  pose proof (Z.div_mod nbit 64). pose proof (Z.mod_pos_bound nbit 64).
  pose proof (Z.div_pos nbit 64). pose proof (Z.div_mod j 64). pose proof (Z.mod_pos_bound j 64).
  pose proof (Z.div_pos j 64).
  rewrite (proj2 (Z.leb_le _ _)) by lia. set (k := Z.to_nat (nbit / 64)).
  set (a1 := replicate k 0 ++ drop k array).
  assert (Hl1 : length a1 = length array) by (unfold a1; rewrite length_app, length_replicate, length_drop; lia).
  assert (Hw1 : words_ok a1 nbit).
  { split; [|by rewrite Hl1]. apply Forall_app. split; [apply Forall_replicate; lia|by apply Forall_drop]. }
  assert (Hb1 : bit a1 j = (nbit / 64 <=? j / 64) && bit array j).
  { unfold bit, a1. zcase; simpl.
    - rewrite lookup_app_r, length_replicate, lookup_drop by (rewrite length_replicate; lia).
      do 4 f_equal. lia.
    - rewrite lookup_app_l, lookup_replicate_2 by (rewrite ?length_replicate; lia). apply Z.bits_0. }
  destruct (Z.eqb_spec (nbit / 64 * 64) nbit) as [E|E]; cbn [negb].
  - exists a1. split; [done|]. split; [done|]. split; [done|]. rewrite Hb1. f_equal.
    destruct (Z.leb_spec (nbit / 64) (j / 64)), (Z.leb_spec nbit j); (done || lia).
  - rewrite mod64. destruct (lookup_lt_is_Some_2 a1 (Z.to_nat (nbit / 64))) as [v Hv]; [lia|].
    pose proof (Forall_lookup_1 _ _ _ _ (proj1 Hw1) Hv) as Hvr. simpl in Hvr.
    destruct (set_word_bits a1 nbit nbit (fun v => Z.land v (high_mask (nbit mod 64))) v j Hw1 Hv)
      as (a' & Heq & Hw' & Hl & Hb); [apply land_range; [done|apply u64_range]|lia|lia|].
    exists a'. split; [done|]. split; [done|]. split; [lia|]. rewrite Hb.
    destruct (Z.eqb_spec (j / 64) (nbit / 64)) as [Ej|Ej].
    + rewrite Z.land_spec, high_mask_spec by lia. rewrite (proj2 (Z.ltb_lt (j mod 64) 64)) by lia. simpl.
      rewrite andb_comm. assert (Hbv : bit array j = Z.testbit v (j mod 64)).
      { rewrite <- (andb_true_l (bit array j)). unfold bit in Hb1 at 1. rewrite Ej, Hv in Hb1.
        rewrite Z.leb_refl in Hb1. simpl in Hb1. simpl. by rewrite Hb1. }
      rewrite Hbv. f_equal. destruct (Z.leb_spec (nbit mod 64) (j mod 64)), (Z.leb_spec nbit j); (done || lia).
    + rewrite Hb1. f_equal. destruct (Z.leb_spec (nbit / 64) (j / 64)), (Z.leb_spec nbit j); (done || lia).
Qed.

Lemma ctz_loop_spec fuel v i :
  0 <= i -> (forall j, 0 <= j < i -> Z.testbit v j = false) ->
  (exists j, i <= j < i + Z.of_nat fuel /\ Z.testbit v j = true) ->
  let n := ctz_loop fuel v i in
  i <= n < i + Z.of_nat fuel /\ Z.testbit v n = true /\ forall j, 0 <= j < n -> Z.testbit v j = false.
Proof.
  revert i. induction fuel as [|fuel IH]; intros i Hi Hlow (j & Hj & Hb); [lia|]. cbn [ctz_loop].
  destruct (Z.testbit v i) eqn:Hbi; [split; [lia|done]|].
  destruct (IH (i + 1)) as (H1 & H2 & H3); [lia| | |split; [lia|done]].
  - intros j' Hj'. destruct (Z.eq_dec j' i) as [->|]; [done|apply Hlow; lia].
  - exists j. split; [|done]. destruct (Z.eq_dec j i) as [->|]; [congruence|lia].
Qed.
Lemma ctzl_spec v : 0 <= v < 2 ^ 64 -> v <> 0 ->
  0 <= ctzl v < 64 /\ Z.testbit v (ctzl v) = true /\ forall j, 0 <= j < ctzl v -> Z.testbit v j = false.
Proof.
  intros Hv Hne. apply (ctz_loop_spec 64 v 0); [lia|lia|]. exists (Z.log2 v).
  split; [|apply Z.bit_log2; lia]. split; [apply Z.log2_nonneg|]. apply Z.log2_lt_pow2; lia.
Qed.

(** The first set bit of a range. *)
Definition first1_in (array : list Z) (begin end_ n : Z) : Prop :=
  begin <= n <= end_ /\ (n < end_ -> bit array n = true) /\
  forall j, begin <= j < n -> bit array j = false.

Lemma bit_word array i r : 0 <= r < 64 -> bit array (i * 64 + r) = Z.testbit (default 0 (array !! Z.to_nat i)) r.
Proof.
  intros Hr. unfold bit. rewrite Z.div_add_l, (Z.div_small r), Z.add_0_r by lia.
  by rewrite Z.add_comm, Z.mod_add, Z.mod_small by lia.
Qed.
Lemma zero_word array i : array !! Z.to_nat i = Some 0 -> forall j, i * 64 <= j < i * 64 + 64 -> bit array j = false.
Proof.
  intros Hz j Hj. replace j with (i * 64 + (j - i * 64)) by lia. rewrite bit_word, Hz by lia. apply Z.bits_0.
Qed.

Lemma first1_words_spec array k i :
  Forall (fun v => 0 <= v < 2 ^ 64) array -> 0 <= i -> i + Z.of_nat k <= Z.of_nat (length array) ->
  exists r, first1_words array k i = Some r /\
    match r with
    | Some n => i * 64 <= n < (i + Z.of_nat k) * 64 /\ bit array n = true /\
                forall j, i * 64 <= j < n -> bit array j = false
    | None => forall j, i * 64 <= j < (i + Z.of_nat k) * 64 -> bit array j = false
    end.
Proof.
  intros Hw. revert i. induction k as [|k IH]; intros i Hi Hk; cbn [first1_words].
  - exists None. split; [done|]. lia.
  - destruct (lookup_lt_is_Some_2 array (Z.to_nat i)) as [v Hv]; [lia|]. rewrite Hv. simpl.
    pose proof (Forall_lookup_1 _ _ _ _ Hw Hv) as Hr. simpl in Hr.
    destruct (Z.eqb_spec v 0) as [->|Hne]; cbn [negb].
    + destruct (IH (i + 1)) as (r & Heq & Hres); [lia|lia|]. exists r. split; [done|].
      pose proof (zero_word array i Hv) as Hz. destruct r as [n|].
      * destruct Hres as (H1 & H2 & H3). split; [lia|]. split; [done|]. intros j Hj.
        destruct (Z.lt_ge_cases j (i * 64 + 64)); [apply Hz; lia|apply H3; lia].
      * intros j Hj. destruct (Z.lt_ge_cases j (i * 64 + 64)); [apply Hz; lia|apply Hres; lia].
    + destruct (ctzl_spec v Hr Hne) as (Hc & Hb & Hlow). exists (Some (i * 64 + ctzl v)). split; [done|].
      split; [lia|]. split; [by rewrite bit_word, Hv|]. intros j Hj.
      replace j with (i * 64 + (j - i * 64)) by lia. rewrite bit_word, Hv by lia. apply Hlow. lia.
Qed.

Lemma first1_tail_spec array off1 end_ :
  words_ok array end_ -> 0 <= off1 -> off1 <= end_ / 64 -> 0 <= end_ ->
  exists n, first1_tail array off1 end_ = Some n /\ first1_in array (off1 * 64) end_ n.
Proof.
  intros [Hw Hn] Ho Hoe He. unfold first1_tail. rewrite shiftr6, shiftl6.
  pose proof (Z.div_mod end_ 64). pose proof (Z.mod_pos_bound end_ 64).
  destruct (first1_words_spec array (Z.to_nat (end_ / 64 - off1)) off1 Hw Ho) as (r & Heq & Hres); [lia|].
  rewrite Heq. simpl. rewrite Z2Nat.id in Hres by lia. replace (off1 + (end_ / 64 - off1)) with (end_ / 64) in Hres by lia.
  destruct r as [n|].
  - exists n. split; [done|]. destruct Hres as (H1 & H2 & H3). split; [lia|]. done.
  - destruct (Z.eqb_spec (end_ / 64 * 64) end_) as [E|E]; cbn [negb].
    + exists end_. split; [done|]. split; [lia|]. split; [lia|]. intros j Hj. apply Hres. lia.
    + destruct (lookup_lt_is_Some_2 array (Z.to_nat (end_ / 64))) as [v Hv]; [lia|]. rewrite Hv. simpl.
      pose proof (Forall_lookup_1 _ _ _ _ Hw Hv) as Hr. simpl in Hr.
      destruct (Z.eqb_spec v 0) as [->|Hne]; cbn [negb].
      * exists end_. split; [done|]. split; [lia|]. split; [lia|]. intros j Hj.
        destruct (Z.lt_ge_cases j (end_ / 64 * 64)); [apply Hres; lia|].
        apply (zero_word array (end_ / 64) Hv). lia.
      * destruct (ctzl_spec v Hr Hne) as (Hc & Hb & Hlow).
        exists (Z.min (end_ / 64 * 64 + ctzl v) end_). split; [done|]. split; [lia|]. split.
        -- intros Hlt. rewrite Z.min_l by lia. by rewrite bit_word, Hv.
        -- intros j Hj. destruct (Z.lt_ge_cases j (end_ / 64 * 64)); [apply Hres; lia|].
           replace j with (end_ / 64 * 64 + (j - end_ / 64 * 64)) by lia. rewrite bit_word, Hv by lia.
           apply Hlow. lia.
Qed.

(** [bit_array_first1] is right unless the range starts inside the word it ends in. *)
Lemma bit_array_first1_spec array begin end_ :
  words_ok array end_ -> 0 <= begin <= end_ -> (begin mod 64 = 0 \/ begin / 64 < end_ / 64) ->
  exists n, bit_array_first1 array begin end_ = Some n /\ first1_in array begin end_ n.
Proof.
  intros Hwo Hbe Hcond. pose proof Hwo as [Hw Hn]. unfold bit_array_first1. rewrite shiftr6, shiftl6.
  pose proof (Z.div_mod begin 64). pose proof (Z.mod_pos_bound begin 64). pose proof (Z.div_pos begin 64).
  pose proof (Z.div_mod end_ 64). pose proof (Z.mod_pos_bound end_ 64).
  destruct (Z.eqb_spec (begin / 64 * 64) begin) as [E|E]; cbn [negb].
  - destruct (first1_tail_spec array (begin / 64) end_ Hwo) as (n & Heq & Hres);
      [lia|apply Z.div_le_mono; lia|lia|]. exists n. split; [done|]. by rewrite E in Hres.
  - destruct Hcond as [?|Hlt]; [lia|].
    destruct (lookup_lt_is_Some_2 array (Z.to_nat (begin / 64))) as [v Hv]; [lia|]. rewrite Hv. simpl.
    pose proof (Forall_lookup_1 _ _ _ _ Hw Hv) as Hr. simpl in Hr. rewrite mod64.
    set (m := Z.land v (high_mask (begin mod 64))).
    assert (Hm : 0 <= m < 2 ^ 64) by (apply land_range; [done|apply u64_range]).
    assert (Hmb : forall j, 0 <= j < 64 -> Z.testbit m j = Z.testbit v j && (begin mod 64 <=? j)).
    { intros j Hj. unfold m. rewrite Z.land_spec, high_mask_spec by lia.
      by rewrite (proj2 (Z.ltb_lt j 64)) by lia. }
    assert (Hlow : forall j, begin <= j < begin / 64 * 64 + 64 -> bit array j = Z.testbit m (j - begin / 64 * 64)).
    { intros j Hj. rewrite Hmb by lia. rewrite (proj2 (Z.leb_le _ _)), andb_true_r by lia.
      replace j with (begin / 64 * 64 + (j - begin / 64 * 64)) at 1 by lia. by rewrite bit_word, Hv by lia. }
    destruct (Z.eqb_spec m 0) as [Hm0|Hne]; cbn [negb].
    + destruct (first1_tail_spec array (begin / 64 + 1) end_ Hwo) as (n & Heq & K1 & K2 & K3); [lia|lia|lia|].
      exists n. split; [done|]. split; [lia|]. split; [done|]. intros j Hj.
      destruct (Z.lt_ge_cases j (begin / 64 * 64 + 64)); [|apply K3; lia].
      rewrite Hlow by lia. rewrite Hm0. apply Z.bits_0.
    + destruct (ctzl_spec m Hm Hne) as (Hc & Hb & Hz). rewrite Hmb in Hb by lia.
      apply andb_true_iff in Hb as [Hbv Hge%Z.leb_le].
      exists (Z.min (begin / 64 * 64 + ctzl m) end_). split; [done|]. split; [lia|]. split.
      * intros Hlt'. rewrite Z.min_l by lia. by rewrite bit_word, Hv.
      * intros j Hj. rewrite Hlow by lia. apply Hz. lia.
Qed.

(** In a range that starts at a word boundary or does not end in the word it starts in,
    [bit_array_first1] returns the first set bit of the range, or its end when there is none. *)
Theorem first1_is_the_first_set_bit array begin end_ :
  words_ok array end_ -> 0 <= begin <= end_ -> (begin mod 64 = 0 \/ begin / 64 < end_ / 64) ->
  exists n, bit_array_first1 array begin end_ = Some n /\ begin <= n <= end_ /\
    (n < end_ -> bit array n = true) /\ forall j, begin <= j < n -> bit array j = false.
Proof. exact (bit_array_first1_spec array begin end_). Qed.
Lemma first1_witness : exists n, bit_array_first1 [0; 4] 3 100 = Some n /\ 3 <= n <= 100 /\
  (n < 100 -> bit [0; 4] n = true) /\ forall j, 3 <= j < n -> bit [0; 4] j = false.
Proof.
  apply (first1_is_the_first_set_bit [0; 4] 3 100); [|lia|right; vm_compute; reflexivity].
  split; [repeat constructor; lia|simpl; lia].
Defined.

(** When the range starts inside the word it ends in and has no set bit, a set bit of that
    word before the range is returned: the result is below [begin]. *)
Theorem first1_in_one_word_goes_back k begin end_ :
  0 <= k < begin -> begin < end_ < 64 ->
  bit_array_first1 [one_bit k] begin end_ = Some k.
Proof.
  intros Hk Hb. unfold bit_array_first1, first1_tail. rewrite !shiftr6, !shiftl6.
  rewrite !(Z.div_small begin 64), !(Z.div_small end_ 64) by lia. rewrite !Z.mul_0_l.
  rewrite (proj2 (Z.eqb_neq 0 begin)) by lia. cbn [negb].
  change ([one_bit k] !! Z.to_nat 0) with (Some (one_bit k)). cbn [mbind option_bind].
  assert (Hz : Z.land (one_bit k) (high_mask (begin - 0)) = 0).
  { apply Z.bits_inj'. intros j Hj. rewrite Z.land_spec, one_bit_spec, high_mask_spec, Z.bits_0 by lia.
    destruct (Z.eqb_spec k j) as [<-|]; [|done]. by rewrite (proj2 (Z.leb_gt (begin - 0) k)), andb_false_r by lia. }
  rewrite Hz. change (0 =? 0) with true. cbn [negb].
  change (Z.to_nat (0 - (0 + 1))) with 0%nat. cbn [first1_words mbind option_bind].
  rewrite (proj2 (Z.eqb_neq 0 end_)) by lia. cbn [negb].
  assert (Hne : one_bit k <> 0).
  { intros E. pose proof (one_bit_spec k k ltac:(lia) ltac:(lia)) as Hb1. rewrite E, Z.bits_0, Z.eqb_refl in Hb1. done. }
  rewrite (proj2 (Z.eqb_neq _ _) Hne). cbn [negb]. f_equal.
  destruct (ctzl_spec (one_bit k) (u64_range _) Hne) as (Hc & Hbit & _).
  rewrite one_bit_spec in Hbit by lia. apply Z.eqb_eq in Hbit. lia.
Qed.
Lemma first1_goes_back_witness : bit_array_first1 [one_bit 0] 2 8 = Some 0.
Proof. apply (first1_in_one_word_goes_back 0 2 8); lia. Defined.

End BitArray.
