(* ===== verification/FlatMap.v ===== *)
(** * FlatMap (butil/containers/flat_map.h, flat_map_inl.h)

    A hash map with a power-of-two array of buckets; a bucket is invalid or holds
    its first element in place and the others in a linked list.  A bucket is the
    list of its elements in chain order ([[]] = invalid); node addresses and the
    node pool are not modelled.  The sparse variant ([_S]) keeps one bit per bucket
    in a bit array and iterates with it.  The bucket allocator and the word
    allocator of the bit array are parameters.  [None] is undefined behaviour (a
    null or dangling access) or a loop that does not end. *)
From stdpp Require Import base list.
From Stdlib Require Import ZArith Lia Bool.
From S2P Require Import Prelude BitArray.

Open Scope Z_scope.

Module FlatMap.
Import BitArray.

(** ** Bucket counts *)

(** NOTE: find_power2(0) = 0. *)
Definition find_power2 (b : Z) : Z :=
  let b := u64 (b - 1) in
  let b := Z.lor b (Z.shiftr b 1) in
  let b := Z.lor b (Z.shiftr b 2) in
  let b := Z.lor b (Z.shiftr b 4) in
  let b := Z.lor b (Z.shiftr b 8) in
  let b := Z.lor b (Z.shiftr b 16) in
  let b := Z.lor b (Z.shiftr b 32) in
  u64 (b + 1).
Definition flatmap_round (nbucket : Z) : Z := if nbucket <=? 8 then 8 else find_power2 nbucket.
Definition flatmap_mod (hash_code nbucket : Z) : Z := Z.land hash_code (u64 (nbucket - 1)).

(** What a map is instantiated with: hash, equality, default value, sparseness,
    and the allocators for a number of buckets. *)
Class Params (K V : Type) := {
  _hashfn : K -> Z;
  _eql : K -> K -> bool;
  default_value : V;
  _S : bool;
  alloc_ok : Z -> bool;
  thumb_ok : Z -> bool;
  thumb_junk : nat -> Z
}.

Section Map.
Context {K V : Type} `{P : Params K V}.

Abbreviation elem := (K * V)%type.

Record FlatMap := mkMap {
  _size : Z;
  _nbucket : Z;
  _buckets : option (list (list elem));
  _thumbnail : option (list Z);
  _load_factor : Z
}.

Definition FlatMap_new : FlatMap := mkMap 0 0 None None 0.
Definition initialized (m : FlatMap) : bool := match _buckets m with Some _ => true | None => false end.
Definition empty (m : FlatMap) : bool := _size m =? 0.
Definition size (m : FlatMap) : Z := _size m.
Definition bucket_count (m : FlatMap) : Z := _nbucket m.
Definition load_factor (m : FlatMap) : Z := _load_factor m.
Definition is_too_crowded (m : FlatMap) (size : Z) : bool :=
  u64 (_nbucket m * _load_factor m) <=? u64 (size * 100).
Definition is_valid (b : list elem) : bool := match b with [] => false | _ => true end.

Definition set_buckets (m : FlatMap) (bs : list (list elem)) (sz : Z) (th : option (list Z)) : FlatMap :=
  mkMap sz (_nbucket m) (Some bs) th (_load_factor m).

(** [bit_array_malloc] followed by [bit_array_clear]; the outer [None] is undefined. *)
Definition new_thumbnail (nbucket : Z) : option (option (list Z)) :=
  match (if thumb_ok nbucket then bit_array_malloc thumb_junk nbucket else None) with
  | None => Some None
  | Some t => Some <$> bit_array_clear t nbucket
  end.

(** Returns 0 on success, -1 otherwise. *)
Definition init (m : FlatMap) (nbucket load_factor : Z) : option (Z * FlatMap) :=
  if initialized m then Some (-1, m)
  else if nbucket =? 0 then Some (-1, m)
  else if (load_factor <? 10) || (100 <? load_factor) then Some (-1, m)
  else
    let nb := flatmap_round nbucket in
    if negb (alloc_ok nb) then Some (-1, mkMap 0 nb None (_thumbnail m) load_factor)
    else
      let bs := replicate (Z.to_nat nb) [] in
      if _S then
        t ← new_thumbnail nb;
        match t with
        | None => Some (-1, mkMap 0 nb (Some bs) None load_factor)
        | Some th => Some (0, mkMap 0 nb (Some bs) (Some th) load_factor)
        end
      else Some (0, mkMap 0 nb (Some bs) (_thumbnail m) load_factor).

Definition swap (m rhs : FlatMap) : FlatMap * FlatMap := (rhs, m).

Definition clear (m : FlatMap) : option FlatMap :=
  if _size m =? 0 then Some m
  else
    let bs := match _buckets m with Some bs => Some (map (fun _ => []) bs) | None => None end in
    match _thumbnail m with
    | None => Some (mkMap 0 (_nbucket m) bs None (_load_factor m))
    | Some th =>
        th' ← bit_array_clear th (_nbucket m);
        Some (mkMap 0 (_nbucket m) bs (Some th') (_load_factor m))
    end.
(** [_pool.reset()] frees pool memory only. *)
Definition clear_and_reset_pool (m : FlatMap) : option FlatMap := clear m.

(** ** Search *)
Fixpoint find_in (b : list elem) (key : K) : option V :=
  match b with
  | [] => None
  | e :: b' => if _eql e.1 key then Some e.2 else find_in b' key
  end.
Definition index_of (m : FlatMap) (key : K) : Z := flatmap_mod (_hashfn key) (_nbucket m).
Definition seek (m : FlatMap) (key : K) : option (option V) :=
  match _buckets m with
  | None => Some None
  | Some bs => b ← bs !! Z.to_nat (index_of m key); Some (find_in b key)
  end.

(** ** Iteration *)

(** An iterator: the bucket index [_entry] (or [_pos]) and the place in the chain. *)
Abbreviation iterator := (Z * nat)%type.

(** [for (; !_entry->is_valid(); ++_entry)] over the buckets from [pos] on; the
    extra bucket at [_nbucket] is valid. *)
Fixpoint next_valid (bs : list (list elem)) (pos : Z) : Z :=
  match bs with
  | [] => pos
  | b :: bs' => if is_valid b then pos else next_valid bs' (pos + 1)
  end.
Definition find_and_set_valid_node (m : FlatMap) (bs : list (list elem)) (pos : Z) : option iterator :=
  if _S then
    if pos =? _nbucket m then Some (pos, 0%nat)
    else
      b ← bs !! Z.to_nat pos;
      if is_valid b then Some (pos, 0%nat)
      else
        th ← _thumbnail m;
        n ← bit_array_first1 th (pos + 1) (_nbucket m);
        Some (n, 0%nat)
  else Some (next_valid (drop (Z.to_nat pos) bs) pos, 0%nat).
(** [begin()] and [end()]; the iterators of an uninitialized map are equal. *)
Definition end_ (m : FlatMap) : iterator := (if initialized m then _nbucket m else 0, 0%nat).
Definition begin (m : FlatMap) : option iterator :=
  match _buckets m with
  | None => Some (0, 0%nat)
  | Some bs => find_and_set_valid_node m bs 0
  end.
Definition deref (m : FlatMap) (it : iterator) : option elem :=
  bs ← _buckets m; b ← bs !! Z.to_nat it.1; b !! it.2.
Definition next (m : FlatMap) (it : iterator) : option iterator :=
  bs ← _buckets m;
  b ← bs !! Z.to_nat it.1;
  if (it.2 + 1 <? length b)%nat then Some (it.1, (it.2 + 1)%nat)
  else find_and_set_valid_node m bs (it.1 + 1).

(** [for (it = begin(); it != end(); ++it)]: the elements visited from [it] on. *)
Fixpoint iterate (fuel : nat) (m : FlatMap) (it : iterator) : option (list elem) :=
  if bool_decide (it = end_ m) then Some []
  else match fuel with
       | O => None
       | S fuel' =>
           e ← deref m it;
           it' ← next m it;
           l ← iterate fuel' m it';
           Some (e :: l)
       end.
Definition visit (m : FlatMap) : option (list elem) :=
  it ← begin m; iterate (Z.to_nat (_size m)) m it.

(** ** Insertion *)

(** Writing through the reference that [operator[]] returned. *)
Fixpoint set_in (b : list elem) (key : K) (v : V) : list elem :=
  match b with
  | [] => []
  | e :: b' => if _eql e.1 key then (e.1, v) :: b' else e :: set_in b' key v
  end.
Definition assign_at (m : FlatMap) (key : K) (v : V) : option FlatMap :=
  bs ← _buckets m;
  b ← bs !! Z.to_nat (index_of m key);
  Some (set_buckets m (<[Z.to_nat (index_of m key) := set_in b key v]> bs) (_size m) (_thumbnail m)).

(** [operator[]]: the key is present afterwards.  [fuel] bounds the nesting of
    resizes. *)
Fixpoint subscript (fuel : nat) (m : FlatMap) (key : K) : option FlatMap :=
  bs ← _buckets m;
  let index := index_of m key in
  b ← bs !! Z.to_nat index;
  let put bs' th := set_buckets m bs' (_size m + 1) th in
  if negb (is_valid b) then
    th ← (if _S then th0 ← _thumbnail m; Some <$> bit_array_set th0 index else Some (_thumbnail m));
    Some (put (<[Z.to_nat index := [(key, default_value)]]> bs) th)
  else match find_in b key with
  | Some _ => Some m
  | None =>
      let append := Some (put (<[Z.to_nat index := b ++ [(key, default_value)]]> bs) (_thumbnail m)) in
      if is_too_crowded m (_size m) then
        match fuel with
        | O => None
        | S fuel' =>
            (* resize(_nbucket + 1) *)
            let nb2 := flatmap_round (_nbucket m + 1) in
            if _nbucket m =? nb2 then append
            else
              i ← init FlatMap_new nb2 (_load_factor m);
              if negb (i.1 =? 0) then append
              else
                l ← visit m;
                new_map ← foldl (fun om (e : elem) =>
                  m' ← om; m1 ← subscript fuel' m' e.1; assign_at m1 e.1 e.2) (Some i.2) l;
                subscript fuel' new_map key
        end
      else append
  end.
Definition resize_fuel : nat := 64.
Definition insert (m : FlatMap) (key : K) (value : V) : option FlatMap :=
  m1 ← subscript resize_fuel m key; assign_at m1 key value.

(** Inserting the elements of a list one after the other. *)
Definition insert_all (om : option FlatMap) (l : list elem) : option FlatMap :=
  foldl (fun om (e : elem) => m ← om; insert m e.1 e.2) om l.

Definition resize (m : FlatMap) (nbucket2 : Z) : option (bool * FlatMap) :=
  let nb2 := flatmap_round nbucket2 in
  if _nbucket m =? nb2 then Some (false, m)
  else
    i ← init FlatMap_new nb2 (_load_factor m);
    if negb (i.1 =? 0) then Some (false, m)
    else
      l ← visit m;
      new_map ← insert_all (Some i.2) l;
      Some (true, new_map).

(** ** Removal *)

(** The rest of the chain without the first element equal to [key]. *)
Fixpoint erase_in (b : list elem) (key : K) : option (V * list elem) :=
  match b with
  | [] => None
  | e :: b' => if _eql e.1 key then Some (e.2, b')
               else r ← erase_in b' key; Some (r.1, e :: r.2)
  end.
(** Returns the count and the old value. *)
Definition erase (m : FlatMap) (key : K) : option (Z * option V * FlatMap) :=
  match _buckets m with
  | None => Some (0, None, m)
  | Some bs =>
      let index := index_of m key in
      b ← bs !! Z.to_nat index;
      match erase_in b key with
      | None => Some (0, None, m)
      | Some (v, b') =>
          th ← (if _S && negb (is_valid b')
                then th0 ← _thumbnail m; Some <$> bit_array_unset th0 index
                else Some (_thumbnail m));
          Some (1, Some v, set_buckets m (<[Z.to_nat index := b']> bs) (_size m - 1) th)
      end
  end.

(** ** Copying *)

(** [bit_array_set] for every valid bucket, in order. *)
Fixpoint copy_bits (bs : list (list elem)) (th : list Z) (i : Z) : option (list Z) :=
  match bs with
  | [] => Some th
  | b :: bs' =>
      th' ← (if is_valid b then bit_array_set th i else Some th);
      copy_bits bs' th' (i + 1)
  end.
(** [operator=] on two distinct maps. *)
Definition assign (m rhs : FlatMap) : option FlatMap :=
  m0 ← clear m;
  if empty rhs then Some m0
  else
    let lf := if initialized m0 then _load_factor m0 else _load_factor rhs in
    let m1 := mkMap (_size m0) (_nbucket m0) (_buckets m0) (_thumbnail m0) lf in
    r ← (if negb (initialized m1) || is_too_crowded m1 (_size rhs) then
           let nb := _nbucket rhs in
           if negb (alloc_ok nb) then Some (inr (mkMap (_size m1) nb None (_thumbnail m1) lf))
           else
             let bs := replicate (Z.to_nat nb) [] in
             if _S then
               t ← new_thumbnail nb;
               match t with
               | None => Some (inr (mkMap (_size m1) nb (Some bs) None lf))
               | Some th => Some (inl (mkMap (_size m1) nb (Some bs) (Some th) lf))
               end
             else Some (inl (mkMap (_size m1) nb (Some bs) (_thumbnail m1) lf))
         else Some (inl m1));
    match r with
    | inr m2 => Some m2
    | inl m2 =>
        if _nbucket m2 =? _nbucket rhs then
          rbs ← _buckets rhs;
          th ← (if _S then th0 ← _thumbnail m2; Some <$> copy_bits rbs th0 0 else Some (_thumbnail m2));
          Some (set_buckets m2 rbs (_size rhs) th)
        else
          l ← visit rhs;
          insert_all (Some m2) l
    end.
Definition FlatMap_copy (rhs : FlatMap) : option FlatMap :=
  assign (mkMap 0 0 None None (_load_factor rhs)) rhs.

(** ** Saved positions *)
Record PositionHint := mkHint { h_nbucket : Z; h_offset : Z; at_entry : bool; h_key : option K }.
Definition save_iterator (m : FlatMap) (it : iterator) : option PositionHint :=
  if negb (bool_decide (it = end_ m)) then
    e ← deref m it;
    Some (mkHint (_nbucket m) it.1 (it.2 =? 0)%nat (Some e.1))
  else Some (mkHint (_nbucket m) it.1 false None).
Fixpoint position_in (b : list elem) (key : K) (i : nat) : option nat :=
  match b with
  | [] => None
  | e :: b' => if _eql e.1 key then Some i else position_in b' key (S i)
  end.
Definition restore_iterator (m : FlatMap) (hint : PositionHint) : option iterator :=
  if negb (h_nbucket hint =? _nbucket m) then begin m
  else if _nbucket m <=? h_offset hint then Some (end_ m)
  else
    bs ← _buckets m;
    b ← bs !! Z.to_nat (h_offset hint);
    if at_entry hint then find_and_set_valid_node m bs (h_offset hint)
    else if negb (is_valid b) then find_and_set_valid_node m bs (h_offset hint + 1)
    else
      key ← h_key hint;
      match position_in b key 0 with
      | Some i => Some (h_offset hint, i)
      | None => find_and_set_valid_node m bs (h_offset hint)
      end.

(** The longest chain and the number of used buckets of [bucket_info]. *)
Definition bucket_info (m : FlatMap) : option (Z * Z) :=
  bs ← _buckets m;
  Some (foldr (fun (b : list elem) n => Z.max (Z.of_nat (length b)) n) 0 bs,
        Z.of_nat (length (filter (fun b => is_valid b = true) bs))).
End Map.

End FlatMap.
