(* ===== verification/FlatMapSpec.v ===== *)
(** * FlatMap is a finite map

    The contents of a map are the elements of its buckets, in order.  Every
    operation is specified by its effect on the contents, keys compared with the
    map's own equality; the specifications are collected in the interface
    [MapLaws] that clients of the map rely on. *)
From stdpp Require Import base list.
From Stdlib Require Import ZArith Lia Bool.
From S2P Require Import Prelude BitArray FlatMap.

Open Scope Z_scope.

Module FlatMapSpec.
Import BitArray FlatMap.

(** ** Rounding to a power of two *)

(** [x] has a bit where [c] has one at the same place or up to [n - 1] above. *)
Definition smeared (c n x : Z) : Prop :=
  forall i, 0 <= i -> Z.testbit x i = true <-> exists j, 0 <= j < n /\ Z.testbit c (i + j) = true.
Lemma smeared_1 c : smeared c 1 c.
Proof.
  intros i Hi. split.
  - intros H. exists 0. rewrite Z.add_0_r. split; [lia|done].
  - intros (j & Hj & H). replace (i + j) with i in H by lia. done.
Qed.
Lemma smeared_step c n m x : 0 < n -> m = 2 * n -> smeared c n x -> smeared c m (Z.lor x (Z.shiftr x n)).
Proof.
  intros Hn -> Hx i Hi. rewrite Z.lor_spec, Z.shiftr_spec, orb_true_iff by lia.
  rewrite (Hx i Hi), (Hx (i + n)) by lia. split.
  - intros [(j & Hj & H)|(j & Hj & H)]; [exists j; split; [lia|done]|].
    exists (n + j). rewrite Z.add_assoc. split; [lia|done].
  - intros (j & Hj & H). destruct (Z.lt_ge_cases j n); [left; exists j; split; [lia|done]|].
    right. exists (j - n). split; [lia|]. by replace (i + n + (j - n)) with (i + j) by lia.
Qed.
Lemma smeared_ones c x : 0 < c < 2 ^ 64 -> 0 <= x -> smeared c 64 x -> x = Z.ones (Z.log2 c + 1).
Proof.
  intros Hc Hx0 Hx. apply Z.bits_inj'. intros i Hi. pose proof (Z.log2_nonneg c).
  assert (Z.log2 c < 64) by (apply Z.log2_lt_pow2; lia).
  rewrite Z.testbit_ones_nonneg by lia. apply eq_true_iff_eq. rewrite (Hx i Hi), Z.ltb_lt. split.
  - intros (j & Hj & H1). destruct (Z.le_gt_cases (i + j) (Z.log2 c)); [lia|].
    rewrite Z.bits_above_log2 in H1 by lia. done.
  - intros H1. exists (Z.log2 c - i). split; [lia|]. replace (i + (Z.log2 c - i)) with (Z.log2 c) by lia.
    apply Z.bit_log2. lia.
Qed.

Lemma find_power2_eq b : 1 < b <= 2 ^ 63 -> find_power2 b = 2 ^ Z.log2_up b.
Proof.
  intros Hb. unfold find_power2. rewrite (u64_small (b - 1)) by lia. set (c := b - 1).
  pose proof (smeared_1 c) as H1. apply (smeared_step c 1 2) in H1; [|lia|lia].
  apply (smeared_step c 2 4) in H1; [|lia|lia]. apply (smeared_step c 4 8) in H1; [|lia|lia].
  apply (smeared_step c 8 16) in H1; [|lia|lia]. apply (smeared_step c 16 32) in H1; [|lia|lia].
  apply (smeared_step c 32 64) in H1; [|lia|lia].
  assert (Hn : forall x k, 0 <= x -> 0 <= Z.lor x (Z.shiftr x k)).
  { intros x k Hx. apply Z.lor_nonneg. split; [done|]. by apply Z.shiftr_nonneg. }
  apply smeared_ones in H1; [|lia|repeat apply Hn; lia]. cbn zeta. rewrite H1, Z.ones_equiv.
  pose proof (Z.log2_nonneg c). assert (Z.log2 c < 63) by (apply Z.log2_lt_pow2; lia).
  replace (Z.log2_up b) with (Z.log2 c + 1) by (rewrite Z.log2_up_eqn by lia; subst c; f_equal; f_equal; lia).
  pose proof (Z.pow_le_mono_r 2 (Z.log2 c + 1) 63). rewrite u64_small by lia. lia.
Qed.
Lemma flatmap_round_double a : 3 <= a <= 62 -> flatmap_round (2 ^ a + 1) = 2 ^ (a + 1).
Proof.
  intros Ha. pose proof (Z.pow_le_mono_r 2 3 a). pose proof (Z.pow_le_mono_r 2 a 62).
  unfold flatmap_round. rewrite (proj2 (Z.leb_gt _ _)) by lia. rewrite find_power2_eq by lia.
  rewrite Z.add_1_r, Z.log2_up_succ_pow2 by lia. done.
Qed.
(** The bucket count is the least power of two from 8 on that is not below the request. *)
Lemma flatmap_round_spec n : 0 <= n <= 2 ^ 63 ->
  exists a, 3 <= a <= 63 /\ flatmap_round n = 2 ^ a /\ n <= 2 ^ a /\ (8 < n -> 2 ^ (a - 1) < n).
Proof.
  intros Hn. unfold flatmap_round. zcase.
  - exists 3. split; [lia|]. split; [done|]. lia.
  - exists (Z.log2_up n). rewrite find_power2_eq by lia. pose proof (Z.log2_up_spec n).
    assert (Z.log2_up 9 <= Z.log2_up n) by (apply Z.log2_up_le_mono; lia).
    assert (Z.log2_up n <= Z.log2_up (2 ^ 63)) by (apply Z.log2_up_le_mono; lia).
    rewrite Z.log2_up_pow2 in * by lia. change (Z.log2_up 9) with 4 in *.
    rewrite <- Z.sub_1_r in *. split; [lia|]. split; [done|]. lia.
Qed.
(** ** Contents *)

(** What the map relies on: [_eql] is an equivalence the hash respects. *)
Class Lawful (K V : Type) `{P : Params K V} := {
  eql_refl : forall k, _eql k k = true;
  eql_sym : forall k k', _eql k k' = _eql k' k;
  eql_trans : forall k k' k'', _eql k k' = true -> _eql k' k'' = true -> _eql k k'' = true;
  hash_eql : forall k k', _eql k k' = true -> _hashfn k = _hashfn k';
  hash_range : forall k, 0 <= _hashfn k < 2 ^ 64
}.

Section Proofs.
Context {K V : Type} `{P : Params K V} `{!Lawful K V}.
Abbreviation elem := (K * V)%type.
Implicit Types (m : @FlatMap K V) (b l : list elem) (bs : list (list elem)) (k : K) (v : V) (e : elem).

(** No two elements have equal keys. *)
Fixpoint distinct (l : list elem) : Prop :=
  match l with [] => True | e :: l' => find_in l' e.1 = None /\ distinct l' end.

Lemma eql_cong_l k k' k'' : _eql k k' = true -> _eql k k'' = _eql k' k''.
Proof.
  intros E. destruct (_eql k' k'') eqn:E'; [by eapply eql_trans|].
  destruct (_eql k k'') eqn:E''; [|done]. rewrite <- E'. symmetry. eapply eql_trans; [|done]. by rewrite eql_sym.
Qed.
Lemma find_in_None l k : find_in l k = None <-> Forall (fun e => _eql e.1 k = false) l.
Proof.
  induction l as [|e l IH]; simpl; [split; [constructor|done]|]. rewrite Forall_cons.
  destruct (_eql e.1 k); [split; [done|intros [? ?]; done]|]. rewrite IH. naive_solver.
Qed.
Lemma find_in_app l1 l2 k : find_in (l1 ++ l2) k = match find_in l1 k with Some v => Some v | None => find_in l2 k end.
Proof. induction l1 as [|e l1 IH]; simpl; [done|]. by destruct (_eql e.1 k). Qed.
Lemma find_in_eql l k k' : _eql k k' = true -> find_in l k = find_in l k'.
Proof.
  intros E. induction l as [|e l IH]; simpl; [done|].
  rewrite (eql_sym e.1 k), (eql_sym e.1 k'), (eql_cong_l k k' e.1 E), IH. done.
Qed.
Lemma find_in_elem l k v : find_in l k = Some v -> exists e, e ∈ l /\ _eql e.1 k = true /\ e.2 = v.
Proof.
  induction l as [|e l IH]; simpl; [done|]. destruct (_eql e.1 k) eqn:E.
  - intros [= <-]. exists e. split; [by left|done].
  - intros (e' & H1 & H2)%IH. exists e'. split; [by right|done].
Qed.
Lemma find_in_distinct l e : distinct l -> e ∈ l -> find_in l e.1 = Some e.2.
Proof.
  induction l as [|e' l IH]; simpl; [by rewrite elem_of_nil|]. intros [Hn Hd] [->|Hin]%elem_of_cons.
  - by rewrite eql_refl.
  - destruct (_eql e'.1 e.1) eqn:E; [|by apply IH]. apply find_in_None in Hn.
    rewrite Forall_forall in Hn. specialize (Hn e Hin). rewrite eql_sym in E. congruence.
Qed.

(** The keys of [l1] and [l2] do not meet. *)
Definition apart (l1 l2 : list elem) : Prop := Forall (fun e => find_in l1 e.1 = None) l2.
Lemma apart_spec l1 l2 : apart l1 l2 <-> forall e1 e2, e1 ∈ l1 -> e2 ∈ l2 -> _eql e1.1 e2.1 = false.
Proof.
  unfold apart. rewrite Forall_forall. split.
  - intros Ha e1 e2 H1 H2. specialize (Ha e2 H2). apply find_in_None in Ha. rewrite Forall_forall in Ha. by apply Ha.
  - intros Ha e2 H2. apply find_in_None. rewrite Forall_forall. intros e1 H1. by apply Ha.
Qed.
Lemma apart_sym l1 l2 : apart l1 l2 -> apart l2 l1.
Proof. rewrite !apart_spec. intros Ha e1 e2 H1 H2. rewrite eql_sym. by apply Ha. Qed.
Lemma distinct_app l1 l2 : distinct (l1 ++ l2) <-> distinct l1 /\ distinct l2 /\ apart l1 l2.
Proof.
  induction l1 as [|e l1 IH]; simpl.
  - split; [intros H1; split; [done|split; [done|by apply Forall_true]]|by intros (_ & ? & _)].
  - rewrite find_in_app, IH, !apart_spec. split.
    + intros (H1 & H2 & H3 & H4). destruct (find_in l1 e.1) eqn:E; [done|]. split; [done|]. split; [done|].
      intros e1 e2 [->|He1]%elem_of_cons He2; [|by apply H4].
      apply find_in_None in H1. rewrite Forall_forall in H1. rewrite eql_sym. by apply H1.
    + intros ((H1 & H2) & H3 & H4). rewrite H1. split; [|split; [done|split; [done|]]].
      * apply find_in_None, Forall_forall. intros e2 He2. rewrite eql_sym. apply H4; [by left|done].
      * intros e1 e2 He1 He2. apply H4; [by right|done].
Qed.

(** The elements of all buckets. *)
Definition all (bs : list (list elem)) : list elem := mjoin bs.
Definition elems (m : FlatMap) : list elem := default [] (all <$> _buckets m).
(** The map a FlatMap stands for. *)
Definition get (m : FlatMap) (k : K) : option V := find_in (elems m) k.

(** Every element is in the bucket of its hash code. *)
Definition placed (nb : Z) (bs : list (list elem)) : Prop :=
  forall i b e, bs !! i = Some b -> e ∈ b -> Z.to_nat (flatmap_mod (_hashfn e.1) nb) = i.

(** A bucket splits the contents; keys that hash to it are in no other bucket. *)
Lemma all_split nb bs i b : placed nb bs -> bs !! i = Some b ->
  exists A C, (forall b', all (<[i := b']> bs) = A ++ b' ++ C) /\
    forall k, Z.to_nat (flatmap_mod (_hashfn k) nb) = i -> find_in A k = None /\ find_in C k = None.
Proof.
  intros Hp Hi. exists (all (take i bs)), (all (drop (S i) bs)). split.
  - intros b'. unfold all. rewrite insert_take_drop by (by eapply lookup_lt_Some).
    rewrite join_app. done.
  - assert (Hout : forall bs' k, (forall j b', bs' !! j = Some b' -> exists j', bs !! j' = Some b' /\ j' <> i) ->
      Z.to_nat (flatmap_mod (_hashfn k) nb) = i -> find_in (all bs') k = None).
    { intros bs' k Hbs' Hk. apply find_in_None, Forall_forall. intros e (b' & He & Hb')%list_elem_of_join.
      apply list_elem_of_lookup in Hb' as [j Hj]. destruct (Hbs' j b' Hj) as (j' & Hj' & Hne).
      destruct (_eql e.1 k) eqn:E; [|done]. apply hash_eql in E. pose proof (Hp j' b' e Hj' He) as Hpl.
      rewrite E in Hpl. congruence. }
    intros k Hk. split; apply Hout; try done; intros j b' Hj.
    + apply lookup_take_Some in Hj as [Hj ?]. exists j. split; [done|lia].
    + rewrite lookup_drop in Hj. exists (S i + j)%nat. split; [done|lia].
Qed.

(** The sparse variant's bits tell which buckets are valid. *)
Definition bucket_at (bs : list (list elem)) (i : Z) : list elem := default [] (bs !! Z.to_nat i).
Definition thumb_agrees (nb : Z) (bs : list (list elem)) (t : option (list Z)) : Prop :=
  if _S then exists th, t = Some th /\ words_ok th nb /\
               forall i, 0 <= i < nb -> bit th i = is_valid (bucket_at bs i)
  else t = None.

(** The invariant; [a] is the logarithm of the number of buckets.  The iterator of
    a sparse map needs at least 64 buckets. *)
Record wf_at (m : FlatMap) (bs : list (list elem)) (a : Z) : Prop := mkWf {
  wf_buckets : _buckets m = Some bs;
  wf_nbucket : _nbucket m = 2 ^ a;
  wf_log : 3 <= a <= 56;
  wf_length : Z.of_nat (length bs) = 2 ^ a;
  wf_placed : placed (_nbucket m) bs;
  wf_distinct : distinct (all bs);
  wf_size : _size m = Z.of_nat (length (all bs));
  wf_lf : 10 <= _load_factor m <= 100;
  wf_thumb : thumb_agrees (_nbucket m) bs (_thumbnail m);
  wf_sparse : _S = true -> 6 <= a
}.
Definition wf (m : FlatMap) : Prop := exists bs a, wf_at m bs a.

Lemma flatmap_mod_range h a : 0 <= a <= 63 -> 0 <= flatmap_mod h (2 ^ a) < 2 ^ a.
Proof.
  intros Ha. unfold flatmap_mod. pose proof (Z.pow_pos_nonneg 2 a). pose proof (Z.pow_le_mono_r 2 a 63).
  rewrite u64_small by lia. replace (2 ^ a - 1) with (Z.ones a) by (rewrite Z.ones_equiv; lia).
  rewrite Z.land_ones by lia. apply Z.mod_pos_bound. lia.
Qed.

Section Invariant.
Context m bs a (Hwf : wf_at m bs a).

Lemma index_range k : 0 <= index_of m k < 2 ^ a.
Proof. pose proof (wf_log _ _ _ Hwf). unfold index_of. rewrite (wf_nbucket _ _ _ Hwf). apply flatmap_mod_range. lia. Qed.
Lemma bucket_lookup i : 0 <= i < 2 ^ a -> bs !! Z.to_nat i = Some (bucket_at bs i).
Proof.
  intros Hi. unfold bucket_at. destruct (lookup_lt_is_Some_2 bs (Z.to_nat i)) as [b Hb]; [|by rewrite Hb].
  pose proof (wf_length _ _ _ Hwf). lia.
Qed.
Lemma bucket_lookup_key k : bs !! Z.to_nat (index_of m k) = Some (bucket_at bs (index_of m k)).
Proof. apply bucket_lookup, index_range. Qed.
Lemma elems_eq : elems m = all bs.
Proof. unfold elems. by rewrite (wf_buckets _ _ _ Hwf). Qed.
Lemma bucket_get k : get m k = find_in (bucket_at bs (index_of m k)) k.
Proof.
  destruct (all_split _ bs _ _ (wf_placed _ _ _ Hwf) (bucket_lookup_key k)) as (A & C & Heq & Hout).
  destruct (Hout k eq_refl) as [HA HC]. unfold get. rewrite elems_eq.
  specialize (Heq (bucket_at bs (index_of m k))). rewrite list_insert_id in Heq by apply bucket_lookup_key.
  rewrite Heq, !find_in_app, HA, HC. by destruct (find_in (bucket_at bs (index_of m k)) k).
Qed.
Lemma size_get : _size m = Z.of_nat (length (elems m)).
Proof. rewrite elems_eq. apply (wf_size _ _ _ Hwf). Qed.

(** Replacing a bucket. *)
Lemma update_wf i b' sz t :
  0 <= i < 2 ^ a ->
  (forall e, e ∈ b' -> index_of m e.1 = i) -> distinct b' ->
  sz = _size m + Z.of_nat (length b') - Z.of_nat (length (bucket_at bs i)) ->
  thumb_agrees (_nbucket m) (<[Z.to_nat i := b']> bs) t ->
  wf_at (set_buckets m (<[Z.to_nat i := b']> bs) sz t) (<[Z.to_nat i := b']> bs) a.
Proof.
  intros Hi Hpl Hd Hsz Ht. pose proof (bucket_lookup i Hi) as Hb.
  destruct (all_split _ bs _ _ (wf_placed _ _ _ Hwf) Hb) as (A & C & Heq & Hout).
  pose proof (Heq (bucket_at bs i)) as Hall. rewrite list_insert_id in Hall by done.
  constructor; try (by apply Hwf); try done.
  - rewrite length_insert. apply Hwf.
  - intros j b e. simpl. destruct (decide (j = Z.to_nat i)) as [->|Hne].
    + rewrite list_lookup_insert_eq by (by eapply lookup_lt_Some). intros [= <-] He. by rewrite <- (Hpl e He).
    + rewrite list_lookup_insert_ne by done. apply (wf_placed _ _ _ Hwf).
  - rewrite Heq. pose proof (wf_distinct _ _ _ Hwf) as Hdall. rewrite Hall in Hdall.
    apply distinct_app in Hdall as (HA & HBC & Hap). apply distinct_app in HBC as (_ & HC & _).
    assert (Hin : forall e, e ∈ b' -> find_in A e.1 = None /\ find_in C e.1 = None).
    { intros e He. apply Hout. by rewrite <- (Hpl e He). }
    apply distinct_app. split; [done|]. split.
    + apply distinct_app. split; [done|]. split; [done|]. apply apart_sym. apply Forall_forall.
      intros e He. by apply Hin.
    + apply Forall_app. apply Forall_app in Hap as [_ Hap]. split; [|done].
      apply Forall_forall. intros e He. by apply Hin.
  - simpl. rewrite Heq, Hsz, (wf_size _ _ _ Hwf), Hall, !length_app. lia.
Qed.
End Invariant.

(** A bucket replaced changes the map for the keys that hash to it. *)
Lemma update_get m bs a i b' sz t k :
  wf_at m bs a -> 0 <= i < 2 ^ a ->
  wf_at (set_buckets m (<[Z.to_nat i := b']> bs) sz t) (<[Z.to_nat i := b']> bs) a ->
  get (set_buckets m (<[Z.to_nat i := b']> bs) sz t) k = if index_of m k =? i then find_in b' k else get m k.
Proof.
  intros Hwf Hi Hwf'. rewrite (bucket_get _ _ _ Hwf'), (bucket_get _ _ _ Hwf).
  change (index_of (set_buckets _ _ _ _) k) with (index_of m k). pose proof (index_range m bs a Hwf k).
  pose proof (wf_length _ _ _ Hwf). unfold bucket_at. zcase.
  - subst i. rewrite list_lookup_insert_eq by lia. done.
  - rewrite list_lookup_insert_ne by lia. done.
Qed.

Lemma seek_spec m k : wf m -> seek m k = Some (get m k).
Proof.
  intros (bs & a & Hwf). unfold seek. rewrite (wf_buckets _ _ _ Hwf), (bucket_lookup_key _ _ _ Hwf).
  simpl. by rewrite (bucket_get _ _ _ Hwf).
Qed.

(** ** Assignment through a reference *)
Lemma set_in_find b k v k' :
  find_in (set_in b k v) k' =
    match find_in b k with None => find_in b k' | Some _ => if _eql k k' then Some v else find_in b k' end.
Proof.
  induction b as [|e b IH]; simpl; [done|]. destruct (_eql e.1 k) eqn:E; simpl.
  - rewrite (eql_cong_l _ _ k' E). by destruct (_eql k k').
  - destruct (_eql e.1 k') eqn:E'; rewrite ?IH; destruct (find_in b k); try done.
    destruct (_eql k k') eqn:E''; [|done]. rewrite eql_sym, (eql_cong_l _ _ _ E''), eql_sym in E. congruence.
Qed.
Lemma set_in_None b k v k' : find_in (set_in b k v) k' = None <-> find_in b k' = None.
Proof.
  rewrite set_in_find. destruct (find_in b k) eqn:E; [|done]. destruct (_eql k k') eqn:E'; [|done].
  rewrite <- (find_in_eql b k k' E'), E. done.
Qed.
Lemma set_in_distinct b k v : distinct b -> distinct (set_in b k v).
Proof.
  induction b as [|e b IH]; simpl; [done|]. intros [H1 H2]. destruct (_eql e.1 k); simpl; [done|].
  split; [by apply set_in_None|by apply IH].
Qed.
Lemma set_in_keys b k v : map fst (set_in b k v) = map fst b.
Proof. induction b as [|e b IH]; simpl; [done|]. destruct (_eql e.1 k); simpl; by rewrite ?IH. Qed.
Lemma keys_placed m b b' i : map fst b' = map fst b -> (forall e, e ∈ b -> index_of m e.1 = i) ->
  forall e, e ∈ b' -> index_of m e.1 = i.
Proof.
  intros Hk Hb e He. assert (Hin : e.1 ∈ map fst b) by (rewrite <- Hk; by apply list_elem_of_fmap_2).
  apply list_elem_of_fmap in Hin as (e' & -> & He'). by apply Hb.
Qed.

(** A map whose bucket of [k] has been given its value at [k]. *)
Lemma bucket_placed m bs a i : wf_at m bs a -> 0 <= i < 2 ^ a ->
  forall e, e ∈ bucket_at bs i -> index_of m e.1 = i.
Proof.
  intros Hwf Hi e He. pose proof (wf_placed _ _ _ Hwf _ _ e (bucket_lookup _ _ _ Hwf i Hi) He) as Hp.
  pose proof (index_range _ _ _ Hwf e.1). unfold index_of in *. lia.
Qed.
Lemma bucket_distinct m bs a i : wf_at m bs a -> 0 <= i < 2 ^ a -> distinct (bucket_at bs i).
Proof.
  intros Hwf Hi. pose proof (bucket_lookup _ _ _ Hwf i Hi) as Hb.
  destruct (all_split _ bs _ _ (wf_placed _ _ _ Hwf) Hb) as (A & C & Heq & _).
  specialize (Heq (bucket_at bs i)). rewrite list_insert_id in Heq by done.
  pose proof (wf_distinct _ _ _ Hwf) as Hd. rewrite Heq in Hd.
  apply distinct_app in Hd as (_ & Hd & _). by apply distinct_app in Hd as (? & _).
Qed.
Lemma index_eql m k k' : _eql k k' = true -> index_of m k = index_of m k'.
Proof. intros E. unfold index_of. by rewrite (hash_eql _ _ E). Qed.

(** The bits after a bucket changed. *)
Lemma thumb_same nb bs t i b' : thumb_agrees nb bs t -> 0 <= i < nb -> nb <= Z.of_nat (length bs) ->
  is_valid b' = is_valid (bucket_at bs i) -> thumb_agrees nb (<[Z.to_nat i := b']> bs) t.
Proof.
  unfold thumb_agrees. intros Ht Hi Hl Hv. destruct _S; [|done]. destruct Ht as (th & -> & Hw & Hb).
  exists th. split; [done|]. split; [done|]. intros j Hj. rewrite Hb by done. unfold bucket_at in *.
  destruct (Z.eq_dec j i) as [->|]; [rewrite list_lookup_insert_eq by lia; done|].
  by rewrite list_lookup_insert_ne by lia.
Qed.
Lemma thumb_set nb bs t i b' : thumb_agrees nb bs t -> 0 <= i < nb -> nb <= Z.of_nat (length bs) ->
  is_valid b' = true ->
  exists t', (if _S then th0 ← t; Some <$> bit_array_set th0 i else Some t) = Some t' /\
    thumb_agrees nb (<[Z.to_nat i := b']> bs) t'.
Proof.
  unfold thumb_agrees. intros Ht Hi Hl Hv. destruct _S; [|eauto]. destruct Ht as (th & -> & Hw & Hb). simpl.
  destruct (bit_array_set_spec th nb i 0 Hw Hi) as (th' & Heq & Hw' & _ & _); [lia|].
  rewrite Heq. simpl. eexists. split; [done|]. exists th'. split; [done|]. split; [done|]. intros j Hj.
  destruct (bit_array_set_spec th nb i j Hw Hi) as (th2 & Heq2 & _ & _ & Hbit); [lia|].
  rewrite Heq in Heq2. injection Heq2 as <-. rewrite Hbit, Hb by done. unfold bucket_at.
  destruct (Z.eqb_spec i j) as [->|]; [rewrite list_lookup_insert_eq by lia; done|].
  by rewrite list_lookup_insert_ne by lia.
Qed.
Lemma thumb_unset nb bs t i : thumb_agrees nb bs t -> 0 <= i < nb -> nb <= Z.of_nat (length bs) ->
  exists t', (if _S then th0 ← t; Some <$> bit_array_unset th0 i else Some t) = Some t' /\
    thumb_agrees nb (<[Z.to_nat i := []]> bs) t'.
Proof.
  unfold thumb_agrees. intros Ht Hi Hl. destruct _S; [|eauto]. destruct Ht as (th & -> & Hw & Hb). simpl.
  destruct (bit_array_unset_spec th nb i 0 Hw Hi) as (th' & Heq & Hw' & _ & _); [lia|].
  rewrite Heq. simpl. eexists. split; [done|]. exists th'. split; [done|]. split; [done|]. intros j Hj.
  destruct (bit_array_unset_spec th nb i j Hw Hi) as (th2 & Heq2 & _ & _ & Hbit); [lia|].
  rewrite Heq in Heq2. injection Heq2 as <-. rewrite Hbit, Hb by done. unfold bucket_at.
  destruct (Z.eqb_spec i j) as [->|]; [rewrite list_lookup_insert_eq by lia; done|].
  by rewrite list_lookup_insert_ne by lia.
Qed.

(** [put m k v]: the map with [k] bound to [v]. *)
Definition updated (m m' : FlatMap) (k : K) (v : V) : Prop :=
  forall k', get m' k' = if _eql k k' then Some v else get m k'.

Lemma assign_at_spec m k v : wf m -> get m k <> None ->
  exists m', assign_at m k v = Some m' /\ wf m' /\ updated m m' k v /\
    _size m' = _size m /\ _nbucket m' = _nbucket m /\ _load_factor m' = _load_factor m.
Proof.
  intros (bs & a & Hwf) Hk. unfold assign_at. rewrite (wf_buckets _ _ _ Hwf). simpl.
  rewrite (bucket_lookup_key _ _ _ Hwf). simpl. eexists. split; [done|].
  pose proof (index_range _ _ _ Hwf k) as Hi. set (i := index_of m k) in *.
  pose proof (set_in_keys (bucket_at bs i) k v) as Hkeys.
  assert (Hlen : length (set_in (bucket_at bs i) k v) = length (bucket_at bs i)).
  { apply (f_equal length) in Hkeys. by rewrite !length_map in Hkeys. }
  assert (Hwf' : wf_at (set_buckets m (<[Z.to_nat i:=set_in (bucket_at bs i) k v]> bs) (_size m) (_thumbnail m))
                       (<[Z.to_nat i:=set_in (bucket_at bs i) k v]> bs) a).
  { apply update_wf; [done|done| | |lia|].
    - apply (keys_placed m _ _ i Hkeys). by apply (bucket_placed m bs a).
    - apply set_in_distinct. by apply (bucket_distinct m bs a).
    - apply thumb_same; [apply Hwf|by rewrite (wf_nbucket _ _ _ Hwf)|
        by rewrite (wf_nbucket _ _ _ Hwf), (wf_length _ _ _ Hwf)|].
      by destruct (bucket_at bs i), (set_in _ k v). }
  split; [by exists (<[Z.to_nat i:=set_in (bucket_at bs i) k v]> bs), a|]. split; [|done].
  intros k'. rewrite (update_get m bs a) by done. rewrite set_in_find.
  rewrite (bucket_get _ _ _ Hwf) in Hk. fold i in Hk. destruct (find_in (bucket_at bs i) k) eqn:E; [|done].
  destruct (_eql k k') eqn:Ekk.
  - unfold i. by rewrite (index_eql m k k' Ekk), Z.eqb_refl.
  - destruct (Z.eqb_spec (index_of m k') i) as [Hix|]; [|done]. by rewrite (bucket_get _ _ _ Hwf), Hix.
Qed.

(** A key that is not there is appended to its bucket. *)
Lemma put_new_spec m bs a k v t :
  wf_at m bs a -> get m k = None ->
  thumb_agrees (_nbucket m) (<[Z.to_nat (index_of m k) := bucket_at bs (index_of m k) ++ [(k, v)]]> bs) t ->
  let m' := set_buckets m (<[Z.to_nat (index_of m k) := bucket_at bs (index_of m k) ++ [(k, v)]]> bs) (_size m + 1) t in
  wf m' /\ updated m m' k v.
Proof.
  intros Hwf Hk Ht m'. pose proof (index_range _ _ _ Hwf k) as Hi. rewrite (bucket_get _ _ _ Hwf) in Hk.
  unfold m'. clear m'. set (i := index_of m k) in *.
  assert (Hwf' : wf_at (set_buckets m (<[Z.to_nat i := bucket_at bs i ++ [(k, v)]]> bs) (_size m + 1) t)
    (<[Z.to_nat i := bucket_at bs i ++ [(k, v)]]> bs) a).
  { apply update_wf; [done|done| | | |done].
    - intros e [He|He]%elem_of_app; [by apply (bucket_placed m bs a)|].
      by apply list_elem_of_singleton in He as ->.
    - apply distinct_app. split; [by apply (bucket_distinct m bs a)|]. split; [done|]. constructor; [done|constructor].
    - rewrite length_app. simpl. lia. }
  split; [by eexists _, a|]. intros k'. rewrite (update_get m bs a) by done.
  rewrite find_in_app. simpl. destruct (_eql k k') eqn:Ekk.
  - rewrite <- (index_eql m k k' Ekk), <- (find_in_eql _ _ _ Ekk). fold i. by rewrite Z.eqb_refl, Hk.
  - destruct (Z.eqb_spec (index_of m k') i) as [Hix|]; [|done]. rewrite (bucket_get _ _ _ Hwf), Hix.
    by destruct (find_in (bucket_at bs i) k').
Qed.

(** ** Initialization *)
Lemma flatmap_round_pow2 a : 3 <= a <= 63 -> flatmap_round (2 ^ a) = 2 ^ a.
Proof.
  intros Ha. pose proof (Z.pow_le_mono_r 2 3 a). pose proof (Z.pow_le_mono_r 2 a 63).
  unfold flatmap_round. zcase; [lia|]. rewrite find_power2_eq, Z.log2_up_pow2 by lia. done.
Qed.
Lemma all_replicate n : all (replicate n ([] : list elem)) = [].
Proof. induction n; [done|]. simpl. done. Qed.
Lemma bucket_at_replicate n i : bucket_at (replicate n []) i = ([] : list elem).
Proof. unfold bucket_at. by destruct (replicate n [] !! Z.to_nat i) eqn:E; [apply lookup_replicate in E as [-> _]|]. Qed.

Lemma new_thumbnail_spec nb : 0 < nb ->
  exists t, new_thumbnail nb = Some t /\
    match t with
    | None => thumb_ok nb = false
    | Some th => words_ok th nb /\ forall i, 0 <= i < nb -> bit th i = false
    end.
Proof.
  intros Hnb. unfold new_thumbnail, bit_array_malloc. destruct (thumb_ok nb); [|by exists None].
  rewrite (proj2 (Z.eqb_neq nb 0)) by lia.
  set (t0 := map _ _). assert (Hw : words_ok t0 nb).
  { split; [apply Forall_forall; intros v (j & -> & _)%list_elem_of_fmap; apply u64_range|].
    unfold t0. rewrite length_map, length_seq. unfold bit_array_words.
    pose proof (Z.div_mod (nb + 63) 64). pose proof (Z.mod_pos_bound (nb + 63) 64).
    pose proof (Z.div_pos (nb + 63) 64). lia. }
  destruct (bit_array_clear_spec t0 nb 0 Hw) as (t1 & Heq & Hw1 & _); [lia|lia|]. rewrite Heq. simpl.
  exists (Some t1). split; [done|]. split; [done|]. intros i Hi.
  destruct (bit_array_clear_spec t0 nb i Hw) as (t2 & Heq2 & _ & _ & Hb); [lia|lia|].
  rewrite Heq in Heq2. injection Heq2 as <-. rewrite Hb. by rewrite (proj2 (Z.leb_gt nb i)) by lia.
Qed.

(** A map with fresh buckets. *)
Lemma fresh_wf a lf t : 3 <= a <= 56 -> 10 <= lf <= 100 -> (_S = true -> 6 <= a) ->
  thumb_agrees (2 ^ a) (replicate (Z.to_nat (2 ^ a)) []) t ->
  wf (mkMap 0 (2 ^ a) (Some (replicate (Z.to_nat (2 ^ a)) [])) t lf).
Proof.
  intros Ha Hlf Hs Ht. exists (replicate (Z.to_nat (2 ^ a)) []), a.
  constructor; simpl; try done; rewrite ?all_replicate; try done.
  - rewrite length_replicate. lia.
  - intros i b e Hb. apply lookup_replicate in Hb as [-> _]. by rewrite elem_of_nil.
Qed.

Lemma init_spec m n lf a :
  _buckets m = None -> (_S = false -> _thumbnail m = None) ->
  n <> 0 -> flatmap_round n = 2 ^ a -> 3 <= a <= 56 -> 10 <= lf <= 100 -> (_S = true -> 6 <= a) ->
  exists r m', init m n lf = Some (r, m') /\
    ((r = -1 /\ (alloc_ok (2 ^ a) = false \/ (_S = true /\ thumb_ok (2 ^ a) = false))) \/
     (r = 0 /\ wf m' /\ elems m' = [] /\ _size m' = 0 /\ _nbucket m' = 2 ^ a /\ _load_factor m' = lf)).
Proof.
  intros Hb Hth Hn Hr Ha Hlf Hs. unfold init, initialized. rewrite Hb, (proj2 (Z.eqb_neq n 0)) by lia.
  rewrite (proj2 (Z.ltb_ge lf 10)), (proj2 (Z.ltb_ge 100 lf)) by lia. simpl. rewrite Hr.
  destruct (alloc_ok (2 ^ a)); simpl; [|eexists _, _; split; [done|]; left; split; [done|by left]].
  destruct _S eqn:ES.
  - destruct (new_thumbnail_spec (2 ^ a)) as (t & Heq & Ht); [apply Z.pow_pos_nonneg; lia|]. rewrite Heq. simpl.
    destruct t as [th|]; eexists _, _; (split; [done|]); [right|left; split; [done|right; done]].
    split; [done|]. split; [|done || (split; [by unfold elems; simpl; rewrite all_replicate|done])].
    apply fresh_wf; [done|done|by rewrite ES|]. unfold thumb_agrees. rewrite ES. exists th. split; [done|].
    split; [apply Ht|]. intros i Hi. rewrite bucket_at_replicate. by apply Ht.
  - eexists _, _. split; [done|]. right. split; [done|].
    split; [|split; [by unfold elems; simpl; rewrite all_replicate|done]].
    apply fresh_wf; [done|done|by rewrite ES|]. unfold thumb_agrees. rewrite ES. by apply Hth.
Qed.

(** ** Iteration *)
Lemma next_valid_spec bs pos :
  let n := next_valid bs pos in
  pos <= n <= pos + Z.of_nat (length bs) /\
  (forall j, pos <= j < n -> bs !! Z.to_nat (j - pos) = Some []) /\
  (n < pos + Z.of_nat (length bs) -> exists e b, bs !! Z.to_nat (n - pos) = Some (e :: b)).
Proof.
  revert pos. induction bs as [|[|e b] bs IH]; intros pos; cbn [next_valid is_valid length].
  - split; [lia|]. split; [intros; lia|]. simpl. lia.
  - destruct (IH (pos + 1)) as (H1 & H2 & H3). split; [lia|]. split.
    + intros j Hj. destruct (Z.eq_dec j pos) as [->|]; [by rewrite Z.sub_diag|].
      replace (Z.to_nat (j - pos)) with (S (Z.to_nat (j - (pos + 1)))) by lia. apply H2. lia.
    + intros Hlt. destruct H3 as (e & b & Hb); [lia|]. exists e, b.
      by replace (Z.to_nat (next_valid bs (pos + 1) - pos)) with (S (Z.to_nat (next_valid bs (pos + 1) - (pos + 1)))) by lia.
  - split; [lia|]. split; [lia|]. intros _. exists e, b. by rewrite Z.sub_diag.
Qed.

Lemma find_valid_spec m bs a pos :
  wf_at m bs a -> 0 <= pos <= 2 ^ a ->
  exists n, find_and_set_valid_node m bs pos = Some (n, 0%nat) /\ pos <= n <= 2 ^ a /\
    (forall j, pos <= j < n -> bucket_at bs j = []) /\ (n < 2 ^ a -> is_valid (bucket_at bs n) = true).
Proof.
  intros Hwf Hpos. pose proof (wf_length _ _ _ Hwf) as Hlen. pose proof (wf_nbucket _ _ _ Hwf) as Hnb.
  pose proof (wf_log _ _ _ Hwf). unfold find_and_set_valid_node. destruct _S eqn:ES.
  - rewrite Hnb. destruct (Z.eqb_spec pos (2 ^ a)) as [->|Hne].
    { eexists. split; [done|]. split; [lia|]. split; [lia|]. lia. }
    rewrite (bucket_lookup _ _ _ Hwf) by lia. simpl. destruct (is_valid (bucket_at bs pos)) eqn:Hv.
    { eexists. split; [done|]. split; [lia|]. split; [lia|]. done. }
    pose proof (wf_thumb _ _ _ Hwf) as Ht. unfold thumb_agrees in Ht. rewrite ES, Hnb in Ht.
    destruct Ht as (th & -> & Hw & Hbit). simpl.
    pose proof (wf_sparse _ _ _ Hwf ES) as H6.
    assert (Hmul : 2 ^ a = 2 ^ (a - 6) * 64) by (change 64 with (2 ^ 6); rewrite <- Z.pow_add_r by lia; f_equal; lia).
    destruct (bit_array_first1_spec th (pos + 1) (2 ^ a) Hw) as (n & Heq & Hn1 & Hn2 & Hn3); [lia| |].
    { destruct (Z.eq_dec (pos + 1) (2 ^ a)) as [->|]; [left; rewrite Hmul; apply Z.mod_mul; lia|right].
      rewrite Hmul, Z.div_mul by lia. apply Z.div_lt_upper_bound; lia. }
    rewrite Heq. simpl. exists n. split; [done|]. split; [lia|].
    assert (Hinv : forall j, 0 <= j < 2 ^ a -> is_valid (bucket_at bs j) = false -> bucket_at bs j = []).
    { intros j Hj. by destruct (bucket_at bs j). }
    split; [|intros Hlt; rewrite <- Hbit by lia; by apply Hn2].
    intros j Hj. apply Hinv; [lia|]. destruct (Z.eq_dec j pos) as [->|]; [done|].
    rewrite <- Hbit by lia. apply Hn3. lia.
  - pose proof (next_valid_spec (drop (Z.to_nat pos) bs) pos) as (H1 & H2 & H3).
    rewrite length_drop in *. set (n := next_valid _ _) in *. exists n. split; [done|]. split; [lia|].
    unfold bucket_at. split.
    + intros j Hj. specialize (H2 j Hj). rewrite lookup_drop in H2.
      by replace (Z.to_nat pos + Z.to_nat (j - pos))%nat with (Z.to_nat j) in H2 by lia; rewrite H2.
    + intros Hlt. destruct H3 as (e & b & Hb); [lia|]. rewrite lookup_drop in Hb.
      by replace (Z.to_nat pos + Z.to_nat (n - pos))%nat with (Z.to_nat n) in Hb by lia; rewrite Hb.
Qed.

Lemma all_drop_skip bs p n : (p <= n)%nat ->
  (forall j, (p <= j < n)%nat -> default [] (bs !! j) = []) -> all (drop p bs) = all (drop n bs).
Proof.
  intros Hpn. induction Hpn as [|n Hpn IH]; intros Hj; [done|]. rewrite IH by (intros; apply Hj; lia).
  destruct (bs !! n) as [b|] eqn:Hb.
  - rewrite (drop_S _ _ _ Hb). unfold all. simpl. specialize (Hj n ltac:(lia)). rewrite Hb in Hj. simpl in Hj.
    by subst b.
  - apply lookup_ge_None in Hb. rewrite !drop_ge by lia. done.
Qed.

Lemma iterate_spec fuel m bs a i j :
  wf_at m bs a -> 0 <= i <= 2 ^ a ->
  (i < 2 ^ a -> (j < length (bucket_at bs i))%nat) -> (i = 2 ^ a -> j = 0%nat) ->
  (length (drop j (bucket_at bs i) ++ all (drop (S (Z.to_nat i)) bs)) <= fuel)%nat ->
  iterate fuel m (i, j) = Some (drop j (bucket_at bs i) ++ all (drop (S (Z.to_nat i)) bs)).
Proof.
  intros Hwf. pose proof (wf_length _ _ _ Hwf) as Hlen.
  assert (Hend : end_ m = (2 ^ a, 0%nat)).
  { unfold end_, initialized. by rewrite (wf_buckets _ _ _ Hwf), (wf_nbucket _ _ _ Hwf). }
  assert (Hlast : forall fuel, iterate fuel m (2 ^ a, 0%nat) = Some []).
  { intros f. destruct f; cbn [iterate]; rewrite bool_decide_true by (by rewrite Hend); done. }
  assert (Hbend : forall i, 2 ^ a <= i -> bucket_at bs i = []).
  { intros i' Hi'. unfold bucket_at. by rewrite lookup_ge_None_2 by lia. }
  revert i j. induction fuel as [|fuel IH]; intros i j Hi Hj Hj0 Hf.
  all: destruct (Z.eq_dec i (2 ^ a)) as [->|Hne].
  all: try (rewrite (Hj0 eq_refl), Hlast, Hbend, (drop_ge bs) by lia; done).
  - rewrite length_app, length_drop in Hf. specialize (Hj ltac:(lia)). lia.
  - assert (Hib : 0 <= i < 2 ^ a) by lia. specialize (Hj ltac:(lia)). cbn [iterate].
    rewrite bool_decide_false by (rewrite Hend; congruence).
    unfold deref, next. rewrite (wf_buckets _ _ _ Hwf). simpl. rewrite (bucket_lookup _ _ _ Hwf) by done. simpl.
    destruct (lookup_lt_is_Some_2 (bucket_at bs i) j Hj) as [e He]. rewrite He. simpl.
    rewrite (drop_S _ _ _ He) in Hf |- *. cbn [length app] in Hf.
    destruct (Nat.ltb_spec (j + 1) (length (bucket_at bs i))) as [Hlt|Hge].
    + simpl. rewrite (IH i (j + 1)%nat); [by rewrite Nat.add_1_r|lia|lia|lia|rewrite Nat.add_1_r; lia].
    + destruct (find_valid_spec m bs a (i + 1) Hwf) as (n & Heq & Hn1 & Hn2 & Hn3); [lia|].
      rewrite Heq. simpl. rewrite (drop_ge _ (S j)) by lia. simpl.
      assert (Hskip : all (drop (S (Z.to_nat i)) bs) = bucket_at bs n ++ all (drop (S (Z.to_nat n)) bs)).
      { rewrite (all_drop_skip bs (S (Z.to_nat i)) (Z.to_nat n)); [|lia|].
        - destruct (Z.eq_dec n (2 ^ a)) as [->|]; [rewrite Hbend, !drop_ge by lia; done|].
          by rewrite (drop_S _ _ _ (bucket_lookup _ _ _ Hwf n ltac:(lia))).
        - intros j' Hj'. specialize (Hn2 (Z.of_nat j') ltac:(lia)). unfold bucket_at in Hn2.
          by rewrite Nat2Z.id in Hn2. }
      rewrite (drop_ge _ (S j)) in Hf by lia. cbn [app] in Hf. rewrite Hskip in Hf |- *.
      rewrite (IH n 0%nat); [done|lia| |done|rewrite drop_0; lia].
      intros Hlt. specialize (Hn3 Hlt). destruct (bucket_at bs n); simpl; [done|lia].
Qed.

Lemma visit_spec m : wf m -> visit m = Some (elems m).
Proof.
  intros (bs & a & Hwf). pose proof (wf_length _ _ _ Hwf) as Hlen. unfold visit, begin.
  rewrite (wf_buckets _ _ _ Hwf). destruct (find_valid_spec m bs a 0 Hwf) as (n & Heq & Hn1 & Hn2 & Hn3); [lia|].
  rewrite Heq. simpl. rewrite (elems_eq _ _ _ Hwf).
  assert (Hskip : all bs = bucket_at bs n ++ all (drop (S (Z.to_nat n)) bs)).
  { rewrite <- (drop_0 bs) at 1. rewrite (all_drop_skip bs 0 (Z.to_nat n)); [|lia|].
    - destruct (Z.eq_dec n (2 ^ a)) as [->|].
      + unfold bucket_at. rewrite lookup_ge_None_2, !drop_ge by lia. done.
      + by rewrite (drop_S _ _ _ (bucket_lookup _ _ _ Hwf n ltac:(lia))).
    - intros j' Hj'. specialize (Hn2 (Z.of_nat j') ltac:(lia)). unfold bucket_at in Hn2. by rewrite Nat2Z.id in Hn2. }
  rewrite (iterate_spec _ m bs a n 0 Hwf); [by rewrite Hskip|lia| |done|].
  - intros Hlt. specialize (Hn3 Hlt). destruct (bucket_at bs n); simpl; [done|lia].
  - rewrite (wf_size _ _ _ Hwf), drop_0, <- Hskip. lia.
Qed.

(** ** [operator[]] *)
Lemma crowded_spec m bs a sz : wf_at m bs a -> 0 <= sz <= 2 ^ 50 ->
  is_too_crowded m sz = (_nbucket m * _load_factor m <=? sz * 100).
Proof.
  intros Hwf Hsz. unfold is_too_crowded. pose proof (wf_log _ _ _ Hwf). pose proof (wf_lf _ _ _ Hwf).
  rewrite (wf_nbucket _ _ _ Hwf). pose proof (Z.pow_pos_nonneg 2 a). pose proof (Z.pow_le_mono_r 2 a 56).
  rewrite !u64_small by nia. done.
Qed.

(** The outcome of binding [k] to [v] when it is absent. *)
Definition ensured (m m' : FlatMap) (k : K) : Prop :=
  wf m' /\ _nbucket m <= _nbucket m' /\ _load_factor m' = _load_factor m /\
  match get m k with
  | Some _ => _size m' = _size m /\ forall k', get m' k' = get m k'
  | None => _size m' = _size m + 1 /\ updated m m' k default_value
  end.
(** [fuel] nested resizes are enough: each doubles the number of buckets. *)
Definition roomy (fuel : nat) (m : @FlatMap K V) : Prop :=
  _size m <= 2 ^ 50 /\ _size m * 100 < _nbucket m * _load_factor m * 2 ^ Z.of_nat fuel.
Definition ensures (fuel : nat) : Prop :=
  forall m k, wf m -> roomy fuel m -> exists m', subscript fuel m k = Some m' /\ ensured m m' k.

Lemma put_spec fuel m k v : ensures fuel -> wf m -> roomy fuel m ->
  exists m', (m1 ← subscript fuel m k; assign_at m1 k v) = Some m' /\ wf m' /\ updated m m' k v /\
    _nbucket m <= _nbucket m' /\ _load_factor m' = _load_factor m /\
    _size m' = _size m + match get m k with Some _ => 0 | None => 1 end.
Proof.
  intros IH Hwf Hr. destruct (IH m k Hwf Hr) as (m1 & Heq & Hwf1 & Hnb & Hlf & Hm1). rewrite Heq. simpl.
  destruct (assign_at_spec m1 k v Hwf1) as (m2 & Heq2 & Hwf2 & Hup & Hsz2 & Hnb2 & Hlf2).
  { destruct (get m k) eqn:E; destruct Hm1 as [_ Hg]; rewrite Hg; [by rewrite E|by rewrite eql_refl]. }
  exists m2. split; [done|]. split; [done|]. split.
  - intros k'. rewrite Hup. destruct (_eql k k') eqn:Ekk; [done|].
    destruct (get m k); destruct Hm1 as [_ Hg]; rewrite Hg; [done|by rewrite Ekk].
  - destruct (get m k); destruct Hm1 as [? _]; repeat split; (congruence || lia).
Qed.

(** Putting a list of elements with distinct new keys. *)
Lemma put_all_spec fuel l m : ensures fuel -> wf m -> distinct l -> Forall (fun e => get m e.1 = None) l ->
  _size m + Z.of_nat (length l) <= 2 ^ 50 ->
  (_size m + Z.of_nat (length l)) * 100 < _nbucket m * _load_factor m * 2 ^ Z.of_nat fuel ->
  exists m', foldl (fun om (e : elem) => m' ← om; m1 ← subscript fuel m' e.1; assign_at m1 e.1 e.2) (Some m) l = Some m' /\
    wf m' /\ _nbucket m <= _nbucket m' /\ _load_factor m' = _load_factor m /\
    _size m' = _size m + Z.of_nat (length l) /\
    forall k, get m' k = match find_in l k with Some v => Some v | None => get m k end.
Proof.
  intros IH. revert m. induction l as [|e l IHl]; intros m Hwf Hd Hnew Hs Hf; simpl.
  { exists m. split; [done|]. split; [done|]. split; [lia|]. split; [done|]. split; [lia|done]. }
  simpl in *. destruct Hd as [Hd1 Hd2]. apply Forall_cons in Hnew as [He Hnew].
  pose proof (Z.pow_pos_nonneg 2 (Z.of_nat fuel)).
  destruct (put_spec fuel m e.1 e.2 IH Hwf) as (m1 & Heq & Hwf1 & Hup & Hnb1 & Hlf1 & Hsz1); [split; lia|].
  rewrite Heq. rewrite He in Hsz1.
  destruct (IHl m1) as (m2 & Heq2 & Hwf2 & Hnb2 & Hlf2 & Hsz2 & Hg2); [done|done| |lia| |].
  - apply Forall_forall. intros e' He'. rewrite Hup. rewrite Forall_forall in Hnew. rewrite Hnew by done.
    apply find_in_None in Hd1. rewrite Forall_forall in Hd1. by rewrite eql_sym, Hd1.
  - rewrite Hlf1, Hsz1. destruct Hwf as (bs & a & Hwf). pose proof (wf_lf _ _ _ Hwf).
    eapply Z.lt_le_trans; [|apply Z.mul_le_mono_nonneg_r; [lia|]; apply Z.mul_le_mono_nonneg_r; [lia|exact Hnb1]]. lia.
  - exists m2. split; [done|]. split; [done|]. split; [lia|]. split; [congruence|]. split; [lia|].
    intros k. rewrite Hg2, Hup. destruct (_eql e.1 k) eqn:E; [|done].
    by rewrite <- (find_in_eql l e.1 k E), Hd1.
Qed.

Lemma distinct_self_None m l : get m = find_in [] -> Forall (fun e => get m e.1 = None) l.
Proof. intros Hg. apply Forall_forall. intros e _. by rewrite Hg. Qed.

Lemma size_bound m bs a : wf_at m bs a -> 0 <= _size m.
Proof. intros Hwf. rewrite (wf_size _ _ _ Hwf). lia. Qed.

(** The two ways to add an absent key to this map, without resizing. *)
Lemma add_here m bs a k t : wf_at m bs a -> get m k = None ->
  thumb_agrees (_nbucket m) (<[Z.to_nat (index_of m k) := bucket_at bs (index_of m k) ++ [(k, default_value)]]> bs) t ->
  ensured m (set_buckets m (<[Z.to_nat (index_of m k) := bucket_at bs (index_of m k) ++ [(k, default_value)]]> bs)
    (_size m + 1) t) k.
Proof.
  intros Hwf Hk Ht. destruct (put_new_spec m bs a k default_value t Hwf Hk Ht) as [H1 H2].
  split; [done|]. split; [done|]. split; [done|]. by rewrite Hk.
Qed.

Lemma subscript_spec fuel : ensures fuel.
Proof.
  induction fuel as [|fuel IH]; intros m k (bs & a & Hwf) [Hs Hroom].
  all: pose proof (wf_lf _ _ _ Hwf) as Hlf; pose proof (wf_log _ _ _ Hwf) as Hlog.
  all: pose proof (wf_nbucket _ _ _ Hwf) as Hnb; pose proof (size_bound _ _ _ Hwf) as Hs0.
  all: pose proof (index_range _ _ _ Hwf k) as Hi; pose proof (bucket_get _ _ _ Hwf k) as Hget.
  all: cbn [subscript]; rewrite (wf_buckets _ _ _ Hwf); cbn [mbind option_bind];
       rewrite (bucket_lookup_key _ _ _ Hwf); cbn [mbind option_bind].
  all: set (i := index_of m k) in *; set (b := bucket_at bs i) in *.
  all: assert (Hlen : _nbucket m <= Z.of_nat (length bs)) by (rewrite Hnb; pose proof (wf_length _ _ _ Hwf); lia).
  all: destruct (is_valid b) eqn:Hv; cbn [negb].
  all: try (assert (Hb : b = []) by (by destruct b);
    destruct (thumb_set (_nbucket m) bs (_thumbnail m) i [(k, default_value)]) as (t & -> & Ht);
      [apply Hwf|by rewrite Hnb|done|done|];
    cbn [mbind option_bind]; eexists; split; [done|];
    pose proof (add_here m bs a k t Hwf) as Hadd; fold i in Hadd; fold b in Hadd; rewrite Hb in *; cbn [app] in Hadd;
    by apply Hadd).
  all: destruct (find_in b k) as [v|] eqn:Hf;
    [exists m; split; [done|]; split; [by exists bs, a|]; split; [lia|]; split; [done|]; rewrite Hget; done|].
  all: rewrite (crowded_spec m bs a) by (done || lia).
  all: assert (Happ : ensured m (set_buckets m (<[Z.to_nat i := b ++ [(k, default_value)]]> bs) (_size m + 1) (_thumbnail m)) k)
    by (apply (add_here m bs a); [done|done|]; apply thumb_same; [apply Hwf|by rewrite Hnb|done|];
        fold i; fold b; rewrite Hv; by destruct b).
  all: destruct (Z.leb_spec (_nbucket m * _load_factor m) (_size m * 100)) as [Hc|Hc]; [|eauto].
  - simpl in Hroom. lia.
  - rewrite Nat2Z.inj_succ, Z.pow_succ_r in Hroom by lia. rewrite Hnb in Hc, Hroom |- *.
    assert (Hlog54 : a <= 54).
    { apply Z.lt_succ_r. apply (Z.pow_lt_mono_r_iff 2); [lia|lia|]. change (2 ^ Z.succ 54) with (2 ^ 55). nia. }
    rewrite flatmap_round_double by lia. assert (H2a : 2 ^ (a + 1) = 2 * 2 ^ a) by (rewrite Z.add_1_r, Z.pow_succ_r; lia).
    pose proof (Z.pow_pos_nonneg 2 a). rewrite (proj2 (Z.eqb_neq _ _)) by lia.
    destruct (init_spec FlatMap_new (2 ^ (a + 1)) (_load_factor m) (a + 1)) as (r & m0 & Heq & Hr);
      [done|done|lia|apply flatmap_round_pow2; lia|lia|lia|intros HS; pose proof (wf_sparse _ _ _ Hwf HS); lia|].
    rewrite Heq. cbn [mbind option_bind fst snd]. destruct Hr as [[-> _]|(-> & Hwf0 & He0 & Hs00 & Hnb0 & Hlf0)];
      cbn [negb Z.eqb]; [eauto|].
    rewrite visit_spec by (by exists bs, a). cbn [mbind option_bind]. rewrite (elems_eq _ _ _ Hwf).
    pose proof (wf_size _ _ _ Hwf) as Hsz. assert (Hg0 : forall k', get m0 k' = None) by (intros; unfold get; by rewrite He0).
    destruct (put_all_spec fuel (all bs) m0 IH Hwf0) as (m1 & Heq1 & Hwf1 & Hnb1 & Hlf1 & Hsz1 & Hg1).
    { apply Hwf. } { apply Forall_forall. intros. apply Hg0. } { lia. } { rewrite Hs00, Hnb0, Hlf0, H2a. lia. }
    rewrite Heq1. cbn [mbind option_bind].
    pose proof (Z.pow_pos_nonneg 2 (Z.of_nat fuel)).
    destruct (IH m1 k Hwf1) as (m2 & Heq2 & Hwf2 & Hnb2 & Hlf2 & Hm2).
    { split; [lia|]. rewrite Hsz1, Hlf1, Hlf0, Hs00, <- Hsz. rewrite Hnb0, H2a in Hnb1.
      eapply Z.lt_le_trans; [|apply Z.mul_le_mono_nonneg_r; [lia|]; apply Z.mul_le_mono_nonneg_r; [lia|exact Hnb1]]. lia. }
    exists m2. split; [done|]. split; [done|]. split; [lia|]. split; [congruence|].
    assert (Hg : forall k', get m1 k' = get m k').
    { intros k'. rewrite Hg1, Hg0. unfold get. rewrite (elems_eq _ _ _ Hwf). by destruct (find_in (all bs) k'). }
    rewrite Hg, Hget in Hm2. rewrite Hget. destruct Hm2 as [? Hup]. split; [lia|].
    intros k'. by rewrite Hup, Hg.
Qed.

Lemma roomy_64 m : wf m -> _size m <= 2 ^ 50 -> roomy resize_fuel m.
Proof.
  intros (bs & a & Hwf) Hs. split; [done|]. pose proof (wf_lf _ _ _ Hwf). pose proof (wf_log _ _ _ Hwf).
  rewrite (wf_nbucket _ _ _ Hwf). pose proof (Z.pow_le_mono_r 2 3 a). unfold resize_fuel.
  change (2 ^ Z.of_nat 64) with 18446744073709551616. nia.
Qed.

(** What an insertion of [k] with [v] does. *)
Definition inserted (m m' : FlatMap) (k : K) (v : V) : Prop :=
  wf m' /\ updated m m' k v /\ _size m' = _size m + match get m k with Some _ => 0 | None => 1 end.
Lemma insert_spec m k v : wf m -> _size m <= 2 ^ 50 ->
  exists m', insert m k v = Some m' /\ inserted m m' k v.
Proof.
  intros Hwf Hs. destruct (put_spec resize_fuel m k v (subscript_spec _) Hwf (roomy_64 m Hwf Hs))
    as (m' & Heq & Hwf' & Hup & _ & _ & Hsz). exists m'. split; [exact Heq|]. done.
Qed.

Lemma resize_spec m n a : wf m -> _size m <= 2 ^ 50 ->
  n <> 0 -> flatmap_round n = 2 ^ a -> 3 <= a <= 56 -> (_S = true -> 6 <= a) ->
  exists r m', resize m n = Some (r, m') /\ wf m' /\ _size m' = _size m /\ (forall k, get m' k = get m k) /\
    (r = true -> 2 ^ a <= _nbucket m').
Proof.
  intros Hwf Hs Hn Hr Ha HS. pose proof Hwf as (bs & a0 & Hat). unfold resize. rewrite Hr.
  zcase; [eexists _, m; split; [done|]; done|].
  destruct (init_spec FlatMap_new (2 ^ a) (_load_factor m) a) as (r & m0 & Heq & Hres);
    [done|done|lia|by apply flatmap_round_pow2; lia|lia|apply Hat|done|].
  rewrite Heq. cbn [mbind option_bind fst snd].
  destruct Hres as [[-> _]|(-> & Hwf0 & He0 & Hs00 & Hnb0 & Hlf0)]; cbn [negb Z.eqb]; [eexists _, m; done|].
  rewrite visit_spec by done. cbn [mbind option_bind]. rewrite (elems_eq _ _ _ Hat).
  assert (Hg0 : forall k', get m0 k' = None) by (intros; unfold get; by rewrite He0).
  pose proof (roomy_64 m0 Hwf0) as [_ Hroom]; [lia|]. pose proof (wf_size _ _ _ Hat) as Hsz.
  destruct (put_all_spec resize_fuel (all bs) m0 (subscript_spec _) Hwf0) as (m1 & Heq1 & Hwf1 & Hnb1 & _ & Hsz1 & Hg1).
  { apply Hat. } { apply Forall_forall. intros. apply Hg0. } { lia. }
  { rewrite Hs00, Hnb0, Hlf0, <- Hsz. pose proof (wf_lf _ _ _ Hat). pose proof (Z.pow_le_mono_r 2 3 a).
    unfold resize_fuel. change (2 ^ Z.of_nat 64) with 18446744073709551616. nia. }
  unfold insert_all. change (fun om (e : elem) => m ← om; insert m e.1 e.2) with
    (fun om (e : elem) => m' ← om; m1 ← subscript resize_fuel m' e.1; assign_at m1 e.1 e.2).
  rewrite Heq1. cbn [mbind option_bind]. eexists _, m1. split; [done|]. split; [done|]. split; [lia|].
  split; [|lia]. intros k. rewrite Hg1, Hg0. unfold get. rewrite (elems_eq _ _ _ Hat).
  by destruct (find_in (all bs) k).
Qed.

(** ** Removal *)
Lemma erase_in_spec b k : distinct b ->
  match erase_in b k with
  | None => find_in b k = None
  | Some (v, b') => find_in b k = Some v /\ distinct b' /\ length b = S (length b') /\
      (forall e, e ∈ b' -> e ∈ b) /\ forall k', find_in b' k' = if _eql k k' then None else find_in b k'
  end.
Proof.
  induction b as [|e b IH]; simpl; [done|]. intros [Hn Hd]. destruct (_eql e.1 k) eqn:E.
  - split; [done|]. split; [done|]. split; [done|]. split; [by intros; right|]. intros k'.
    rewrite (eql_cong_l _ _ _ E). destruct (_eql k k') eqn:E'; [|done].
    rewrite <- (find_in_eql b e.1 k'); [done|]. by rewrite (eql_cong_l _ _ _ E).
  - specialize (IH Hd). destruct (erase_in b k) as [[v b']|]; simpl; [|done].
    destruct IH as (H1 & H2 & H3 & H4 & H5). split; [done|]. split; [split; [|done]|].
    + rewrite H5. by destruct (_eql k e.1).
    + split; [by rewrite H3|]. split.
      * intros e' [->|?]%elem_of_cons; [by left|right; by apply H4].
      * intros k'. rewrite H5. destruct (_eql e.1 k') eqn:E', (_eql k k') eqn:E''; try done.
        rewrite eql_sym, (eql_cong_l _ _ _ E''), eql_sym in E. congruence.
Qed.

Definition erased (m m' : FlatMap) (k : K) : Prop :=
  wf m' /\ (forall k', get m' k' = if _eql k k' then None else get m k') /\
  _size m' = _size m - match get m k with Some _ => 1 | None => 0 end.
Lemma erase_spec m k : wf m ->
  exists m', erase m k = Some (match get m k with Some _ => 1 | None => 0 end, get m k, m') /\ erased m m' k.
Proof.
  intros (bs & a & Hwf). unfold erase. rewrite (wf_buckets _ _ _ Hwf), (bucket_lookup_key _ _ _ Hwf).
  cbn [mbind option_bind]. pose proof (index_range _ _ _ Hwf k) as Hi. rewrite (bucket_get _ _ _ Hwf).
  pose proof (bucket_get _ _ _ Hwf k) as Hget. set (i := index_of m k) in *.
  pose proof (erase_in_spec (bucket_at bs i) k (bucket_distinct _ _ _ _ Hwf Hi)) as He.
  destruct (erase_in (bucket_at bs i) k) as [[v b']|].
  2:{ rewrite He in *. exists m. split; [done|]. split; [by exists bs, a|]. split.
      - intros k'. destruct (_eql k k') eqn:E; [|done]. rewrite <- Hget. unfold get. by rewrite (find_in_eql _ _ _ E).
      - rewrite Hget. lia. }
  destruct He as (H1 & H2 & H3 & H4 & H5). rewrite H1 in *.
  assert (Hnbl : _nbucket m <= Z.of_nat (length bs)).
  { rewrite (wf_nbucket _ _ _ Hwf). pose proof (wf_length _ _ _ Hwf). lia. }
  assert (Ht : exists t, (if _S && negb (is_valid b') then th0 ← _thumbnail m; Some <$> bit_array_unset th0 i
                          else Some (_thumbnail m)) = Some t /\
                         thumb_agrees (_nbucket m) (<[Z.to_nat i := b']> bs) t).
  { destruct (is_valid b') eqn:Hv; cbn [negb].
    - rewrite andb_false_r. eexists. split; [done|]. apply thumb_same; [apply Hwf|by rewrite (wf_nbucket _ _ _ Hwf)|done|].
      rewrite Hv. by destruct (bucket_at bs i).
    - rewrite andb_true_r. assert (b' = []) as -> by (by destruct b').
      apply thumb_unset; [apply Hwf|by rewrite (wf_nbucket _ _ _ Hwf)|done]. }
  destruct Ht as (t & Heq & Ht). rewrite Heq. cbn [mbind option_bind]. eexists. split; [done|].
  assert (Hwf' : wf_at (set_buckets m (<[Z.to_nat i := b']> bs) (_size m - 1) t) (<[Z.to_nat i := b']> bs) a).
  { apply update_wf; [done|done| |done| |done].
    - intros e Hin. apply (bucket_placed m bs a); [done|done|by apply H4].
    - rewrite H3. lia. }
  split; [by eexists _, a|]. split; [|by rewrite Hget].
  intros k'. rewrite (update_get m bs a) by done. rewrite H5. destruct (_eql k k') eqn:E.
  - rewrite <- (index_eql m k k' E). fold i. by rewrite Z.eqb_refl.
  - destruct (Z.eqb_spec (index_of m k') i) as [Hix|]; [|done]. by rewrite (bucket_get _ _ _ Hwf), Hix.
Qed.

Lemma elems_empty m bs a : wf_at m bs a -> _size m = 0 -> elems m = [].
Proof. intros Hwf Hs. rewrite (size_get _ _ _ Hwf) in Hs. by apply nil_length_inv; lia. Qed.
Lemma clear_map_spec m : wf m -> exists m', clear m = Some m' /\ wf m' /\ elems m' = [] /\ _size m' = 0 /\
  _nbucket m' = _nbucket m /\ _load_factor m' = _load_factor m.
Proof.
  intros (bs & a & Hwf). unfold clear. destruct (Z.eqb_spec (_size m) 0) as [Hs|Hs].
  { exists m. split; [done|]. split; [by exists bs, a|]. split; [by eapply elems_empty|done]. }
  rewrite (wf_buckets _ _ _ Hwf). assert (Hnil : map (fun _ => []) bs = replicate (Z.to_nat (2 ^ a)) ([] : list elem)).
  { rewrite <- (wf_length _ _ _ Hwf), Nat2Z.id. clear. induction bs; simpl; congruence. }
  rewrite Hnil. pose proof (wf_thumb _ _ _ Hwf) as Ht. pose proof (wf_nbucket _ _ _ Hwf) as Hnb.
  rewrite Hnb in *. assert (Hfresh := fun t => fresh_wf a (_load_factor m) t (wf_log _ _ _ Hwf) (wf_lf _ _ _ Hwf)
    (wf_sparse _ _ _ Hwf)).
  unfold thumb_agrees in Ht, Hfresh. destruct _S eqn:ES.
  - destruct Ht as (th & -> & Hw & Hbit). pose proof (Z.pow_pos_nonneg 2 a). pose proof (wf_log _ _ _ Hwf).
    destruct (bit_array_clear_spec th (2 ^ a) 0 Hw) as (t1 & Heq & Hw1 & _); [lia|lia|]. rewrite Heq.
    cbn [mbind option_bind]. eexists. split; [done|]. split.
    + apply Hfresh. exists t1. split; [done|]. split; [done|]. intros j Hj.
      destruct (bit_array_clear_spec th (2 ^ a) j Hw) as (t2 & Heq2 & _ & _ & Hb); [lia|lia|].
      rewrite Heq in Heq2. injection Heq2 as <-. rewrite Hb, (proj2 (Z.leb_gt _ _)) by lia.
      by rewrite bucket_at_replicate.
    + split; [by unfold elems; simpl; rewrite all_replicate|done].
  - rewrite Ht. eexists. split; [done|]. split; [by apply Hfresh|].
    split; [by unfold elems; simpl; rewrite all_replicate|done].
Qed.

(** ** Copying *)
Lemma copy_bits_spec bs th nb i :
  words_ok th nb -> 0 <= i -> i + Z.of_nat (length bs) <= nb ->
  exists th', copy_bits bs th i = Some th' /\ words_ok th' nb /\
    forall j, 0 <= j -> bit th' j = bit th j || ((i <=? j) && is_valid (bucket_at bs (j - i))).
Proof.
  revert th i. induction bs as [|b bs IH]; intros th i Hw Hi Hl; cbn [copy_bits].
  { exists th. split; [done|]. split; [done|]. intros j Hj. unfold bucket_at. simpl.
    by rewrite andb_false_r, orb_false_r. }
  simpl in Hl. assert (Hset : exists th1, (if is_valid b then bit_array_set th i else Some th) = Some th1 /\ words_ok th1 nb /\
    forall j, 0 <= j -> bit th1 j = bit th j || ((i =? j) && is_valid b)).
  { destruct (is_valid b).
    - destruct (bit_array_set_spec th nb i 0 Hw) as (t & Heq & Hw' & _); [lia|lia|]. exists t. split; [done|].
      split; [done|]. intros j Hj. destruct (bit_array_set_spec th nb i j Hw) as (t2 & Heq2 & _ & _ & Hb); [lia|lia|].
      rewrite Heq in Heq2. injection Heq2 as <-. by rewrite Hb, andb_true_r, orb_comm.
    - exists th. split; [done|]. split; [done|]. intros. by rewrite andb_false_r, orb_false_r. }
  destruct Hset as (th1 & -> & Hw1 & Hb1). cbn [mbind option_bind].
  destruct (IH th1 (i + 1)) as (th' & Heq & Hw' & Hb'); [done|lia|lia|]. exists th'. split; [done|]. split; [done|].
  intros j Hj. rewrite Hb', Hb1 by done. rewrite <- orb_assoc. f_equal. unfold bucket_at.
  destruct (Z.eqb_spec i j) as [->|Hne].
  - rewrite Z.sub_diag, Z.leb_refl, (proj2 (Z.leb_gt (j + 1) j)) by lia. simpl. by rewrite orb_false_r.
  - simpl. destruct (Z.leb_spec (i + 1) j), (Z.leb_spec i j); try lia; try done.
    by replace (Z.to_nat (j - i)) with (S (Z.to_nat (j - (i + 1)))) by lia.
Qed.

(** A cleared thumbnail. *)
Definition blank (nb : Z) (t : option (list Z)) : Prop :=
  if _S then exists th, t = Some th /\ words_ok th nb /\ forall i, 0 <= i < nb -> bit th i = false else t = None.

Lemma copied_wf m2 rhs bs a :
  wf_at rhs bs a -> _nbucket m2 = 2 ^ a -> 10 <= _load_factor m2 <= 100 -> blank (2 ^ a) (_thumbnail m2) ->
  exists m', (th ← (if _S then th0 ← _thumbnail m2; Some <$> copy_bits bs th0 0 else Some (_thumbnail m2));
              Some (set_buckets m2 bs (_size rhs) th)) = Some m' /\ wf m' /\
    elems m' = elems rhs /\ _size m' = _size rhs.
Proof.
  intros Hwf Hnb Hlf Hbl. pose proof (wf_length _ _ _ Hwf) as Hlen.
  assert (Ht : exists t, (if _S then th0 ← _thumbnail m2; Some <$> copy_bits bs th0 0 else Some (_thumbnail m2)) = Some t /\
                         thumb_agrees (2 ^ a) bs t).
  { unfold blank, thumb_agrees in *. destruct _S; [|by eexists]. destruct Hbl as (th & -> & Hw & Hb).
    destruct (copy_bits_spec bs th (2 ^ a) 0 Hw) as (th' & Heq & Hw' & Hb'); [lia|lia|].
    cbn [mbind option_bind]. rewrite Heq. eexists. split; [done|]. exists th'. split; [done|]. split; [done|].
    intros i Hi. rewrite Hb', Hb, Z.sub_0_r by lia. by rewrite (proj2 (Z.leb_le 0 i)) by lia. }
  destruct Ht as (t & -> & Ht). cbn [mbind option_bind]. eexists. split; [done|]. split.
  - exists bs, a. constructor; try (by apply Hwf); try done.
    + simpl. rewrite Hnb, <- (wf_nbucket _ _ _ Hwf). apply Hwf.
    + simpl. by rewrite Hnb.
  - split; [|done]. unfold elems at 1. simpl. by rewrite (elems_eq _ _ _ Hwf).
Qed.

Definition can_alloc (nb : Z) : Prop := alloc_ok nb = true /\ thumb_ok nb = true.

(** The part of [operator=] after the buckets have been prepared. *)
Lemma assign_same_spec m rhs m0 lf bs a :
  wf_at rhs bs a -> _size rhs <> 0 -> clear m = Some m0 -> can_alloc (2 ^ a) ->
  lf = (if initialized m0 then _load_factor m0 else _load_factor rhs) -> 10 <= lf <= 100 ->
  (_S = false -> _thumbnail m0 = None) ->
  negb (initialized m0) || is_too_crowded (mkMap (_size m0) (_nbucket m0) (_buckets m0) (_thumbnail m0) lf) (_size rhs) = true ->
  exists m', assign m rhs = Some m' /\ wf m' /\ elems m' = elems rhs /\ _size m' = _size rhs.
Proof.
  intros Hwf Hs Hcl [Hal Hth] Elf Hlf Hd Hc. unfold assign. rewrite Hcl. cbn [mbind option_bind].
  unfold empty. rewrite (proj2 (Z.eqb_neq _ _)) by done. unfold initialized in *. simpl in *.
  rewrite <- Elf, Hc.
  pose proof (wf_nbucket _ _ _ Hwf) as Hnb. rewrite Hnb, Hal. cbn [negb].
  assert (Hpos : 0 < 2 ^ a) by (pose proof (wf_log _ _ _ Hwf); apply Z.pow_pos_nonneg; lia).
  destruct _S eqn:ES.
  - destruct (new_thumbnail_spec (2 ^ a) Hpos) as (t & -> & Ht). cbn [mbind option_bind].
    destruct t as [th|]; [|congruence]. simpl. rewrite Z.eqb_refl, (wf_buckets _ _ _ Hwf). simpl.
    pose proof (copied_wf (mkMap (_size m0) (2 ^ a) (Some (replicate (Z.to_nat (2 ^ a)) [])) (Some th) lf) rhs bs a Hwf) as Hcp.
    rewrite ES in Hcp. apply Hcp; [done|done|]. unfold blank. rewrite ES. by exists th.
  - simpl. rewrite Z.eqb_refl, (wf_buckets _ _ _ Hwf). simpl.
    pose proof (copied_wf (mkMap (_size m0) (2 ^ a) (Some (replicate (Z.to_nat (2 ^ a)) [])) (_thumbnail m0) lf) rhs bs a Hwf) as Hcp.
    rewrite ES in Hcp. apply Hcp; [done|done|]. unfold blank. rewrite ES. by apply Hd.
Qed.

Lemma thumb_blank m bs a : wf_at m bs a -> elems m = [] -> blank (2 ^ a) (_thumbnail m).
Proof.
  intros Hwf He. pose proof (wf_thumb _ _ _ Hwf) as Ht. rewrite (wf_nbucket _ _ _ Hwf) in Ht.
  unfold blank, thumb_agrees in *. destruct _S; [|done]. destruct Ht as (th & -> & Hw & Hb).
  exists th. split; [done|]. split; [done|]. intros i Hi. rewrite Hb by done.
  rewrite (elems_eq _ _ _ Hwf) in He. destruct (bucket_at bs i) as [|e b] eqn:E; [done|].
  assert (e ∈ all bs) as Hin; [|rewrite He in Hin; by apply elem_of_nil in Hin].
  apply list_elem_of_join. exists (e :: b). split; [by left|]. apply list_elem_of_lookup. exists (Z.to_nat i).
  rewrite <- E. by apply (bucket_lookup _ _ _ Hwf).
Qed.

(** Assignment to an initialized map. *)
Lemma assign_map_spec m rhs : wf m -> wf rhs -> _size rhs <= 2 ^ 50 -> can_alloc (_nbucket rhs) ->
  exists m', assign m rhs = Some m' /\ wf m' /\ (forall k, get m' k = get rhs k) /\ _size m' = _size rhs.
Proof.
  intros Hm (bs & a & Hwf) Hs Hal. rewrite (wf_nbucket _ _ _ Hwf) in Hal.
  destruct (clear_map_spec m Hm) as (m0 & Hcl & Hwf0 & He0 & Hs0 & Hnb0 & Hlf0).
  destruct (Z.eq_dec (_size rhs) 0) as [Hz|Hz].
  { exists m0. unfold assign. rewrite Hcl. cbn [mbind option_bind]. unfold empty. rewrite Hz. split; [done|].
    split; [done|]. split; [|done]. intros k. unfold get. by rewrite He0, (elems_empty _ _ _ Hwf Hz). }
  pose proof Hwf0 as (bs0 & a0 & Hat0).
  assert (Hini : initialized m0 = true) by (unfold initialized; by rewrite (wf_buckets _ _ _ Hat0)).
  pose proof (wf_lf _ _ _ Hat0) as Hlf.
  destruct (is_too_crowded (mkMap (_size m0) (_nbucket m0) (_buckets m0) (_thumbnail m0) (_load_factor m0)) (_size rhs)) eqn:Hc.
  - destruct (assign_same_spec m rhs m0 (_load_factor m0) bs a) as (m' & Heq & Hwf' & He & Hsz);
      try done; [by rewrite Hini| |by rewrite Hini|].
    + intros HS. pose proof (wf_thumb _ _ _ Hat0) as Ht. unfold thumb_agrees in Ht. by rewrite HS in Ht.
    + exists m'. split; [done|]. split; [done|]. split; [|done]. intros k. unfold get. by rewrite He.
  - unfold assign. rewrite Hcl. cbn [mbind option_bind]. unfold empty. rewrite (proj2 (Z.eqb_neq _ _)) by done.
    rewrite Hini. unfold initialized. simpl in *. rewrite (wf_buckets _ _ _ Hat0) in *. simpl. rewrite Hc. simpl.
    rewrite (wf_nbucket _ _ _ Hwf). zcase.
    + rewrite (wf_buckets _ _ _ Hwf). simpl.
      assert (Hbl : blank (2 ^ a) (_thumbnail m0)).
      { rewrite <- e, (wf_nbucket _ _ _ Hat0). by apply (thumb_blank m0 bs0). }
      destruct (copied_wf (mkMap (_size m0) (_nbucket m0) (Some bs0) (_thumbnail m0) (_load_factor m0)) rhs bs a Hwf)
        as (m' & Heq & Hwf' & He & Hsz); [done|done|done|].
      exists m'. split; [done|]. split; [done|]. split; [|done]. intros k. unfold get. by rewrite He.
    + rewrite visit_spec by (by exists bs, a). cbn [mbind option_bind]. rewrite (elems_eq _ _ _ Hwf).
      pose proof (wf_size _ _ _ Hwf) as Hsz. pose proof (roomy_64 m0 Hwf0) as [_ Hroom]; [lia|].
      replace (mkMap (_size m0) (_nbucket m0) (Some bs0) (_thumbnail m0) (_load_factor m0)) with m0 in *
        by (destruct m0; simpl in *; rewrite <- (wf_buckets _ _ _ Hat0); done).
      rewrite (crowded_spec m0 bs0 a0 _ Hat0) in Hc by lia. apply Z.leb_gt in Hc.
      destruct (put_all_spec resize_fuel (all bs) m0 (subscript_spec _) Hwf0) as (m1 & Heq1 & Hwf1 & _ & _ & Hsz1 & Hg1).
      { apply Hwf. } { apply Forall_forall. intros. unfold get. by rewrite He0. } { lia. }
      { rewrite Hs0, <- Hsz. unfold resize_fuel. change (2 ^ Z.of_nat 64) with 18446744073709551616. lia. }
      exists m1. split; [exact Heq1|]. split; [done|]. split; [|lia].
      intros k. rewrite Hg1. unfold get. rewrite He0, (elems_eq _ _ _ Hwf). by destruct (find_in (all bs) k).
Qed.

(** The copy constructor, for a map with elements. *)
Lemma copy_map_spec rhs : wf rhs -> _size rhs <> 0 -> can_alloc (_nbucket rhs) ->
  exists m', FlatMap_copy rhs = Some m' /\ wf m' /\ elems m' = elems rhs /\ _size m' = _size rhs.
Proof.
  intros (bs & a & Hwf) Hs Hal. rewrite (wf_nbucket _ _ _ Hwf) in Hal.
  eapply (assign_same_spec _ rhs _ _ bs a); try done. apply Hwf.
Qed.

(** ** Saved positions *)
Lemma position_in_spec b j e n : distinct b -> b !! j = Some e -> position_in b e.1 n = Some (n + j)%nat.
Proof.
  revert j n. induction b as [|e0 b IH]; intros j n Hd Hj; [done|]. destruct Hd as [Hn Hd]. simpl.
  destruct j as [|j]; simpl in Hj.
  - injection Hj as <-. rewrite eql_refl. f_equal. lia.
  - destruct (_eql e0.1 e.1) eqn:E.
    + apply find_in_None in Hn. rewrite Forall_forall in Hn. apply list_elem_of_lookup_2 in Hj.
      specialize (Hn e Hj). rewrite eql_sym in Hn. congruence.
    + rewrite (IH j (S n) Hd Hj). f_equal. lia.
Qed.
Lemma restore_save m it : wf m -> (it = end_ m \/ (0 <= it.1 /\ deref m it <> None)) -> _S = false ->
  exists h, save_iterator m it = Some h /\ restore_iterator m h = Some it.
Proof.
  intros (bs & a & Hwf) Hit HS. pose proof (wf_nbucket _ _ _ Hwf) as Hnb. pose proof (wf_length _ _ _ Hwf) as Hlen.
  assert (Hend : end_ m = (_nbucket m, 0%nat)) by (unfold end_, initialized; by rewrite (wf_buckets _ _ _ Hwf)).
  unfold save_iterator. case_bool_decide as He; cbn [negb].
  - eexists. split; [done|]. unfold restore_iterator. simpl. rewrite Z.eqb_refl. cbn [negb].
    rewrite He, Hend. simpl. by rewrite Z.leb_refl.
  - destruct Hit as [|[Hpos Hd]]; [done|]. destruct (deref m it) as [e|] eqn:Hde; [|done].
    destruct it as [i j]. unfold deref in Hde. rewrite (wf_buckets _ _ _ Hwf) in Hde. simpl in *.
    destruct (bs !! Z.to_nat i) as [b|] eqn:Hb; [|done]. simpl in Hde.
    assert (Hi : 0 <= i < 2 ^ a) by (apply lookup_lt_Some in Hb; lia).
    assert (Hbe : b = bucket_at bs i) by (unfold bucket_at; by rewrite Hb).
    eexists. split; [done|]. unfold restore_iterator. simpl. rewrite Z.eqb_refl. cbn [negb].
    rewrite (proj2 (Z.leb_gt _ _)) by lia. rewrite (wf_buckets _ _ _ Hwf). simpl. rewrite Hb. simpl.
    assert (Hv : is_valid b = true) by (by destruct b). rewrite Hv. cbn [negb].
    destruct (Nat.eqb_spec j 0) as [->|Hj].
    + unfold find_and_set_valid_node. rewrite HS, (drop_S _ _ _ Hb). simpl. by rewrite Hv.
    + rewrite (position_in_spec b j e 0); [done| |done]. subst b. by apply (bucket_distinct m bs a).
Qed.

(** ** The map as a sequence of operations *)
Inductive op := Insert (k : K) (v : V) | Subscript (k : K) | Seek (k : K) | Erase (k : K) | Clear | Size | Visit.
Inductive res := RUnit | RValue (o : option V) | RErase (n : Z) (o : option V) | RSize (n : Z) | RKeys (l : list elem).

Definition exec (o : op) (m : FlatMap) : option (res * FlatMap) :=
  match o with
  | Insert k v => m' ← insert m k v; Some (RUnit, m')
  | Subscript k => m' ← subscript resize_fuel m k; r ← seek m' k; Some (RValue r, m')
  | Seek k => r ← seek m k; Some (RValue r, m)
  | Erase k => r ← erase m k; Some (RErase r.1.1 r.1.2, r.2)
  | Clear => m' ← clear m; Some (RUnit, m')
  | Size => Some (RSize (size m), m)
  | Visit => l ← visit m; Some (RKeys l, m)
  end.
Fixpoint run (os : list op) (m : FlatMap) : option (list res * FlatMap) :=
  match os with
  | [] => Some ([], m)
  | o :: os' => r ← exec o m; rs ← run os' r.2; Some (r.1 :: rs.1, rs.2)
  end.

(** The specification: an association list without equal keys, in no order. *)
Definition remove (l : list elem) (k : K) : list elem := filter (fun e => _eql e.1 k = false) l.
Definition answers (o : op) (l : list elem) (r : res) (l' : list elem) : Prop :=
  match o, r with
  | Insert k v, RUnit => l' = (k, v) :: remove l k
  | Subscript k, RValue x => x = Some (default default_value (find_in l k)) /\
                             l' = (k, default default_value (find_in l k)) :: remove l k
  | Seek k, RValue x => x = find_in l k /\ l' = l
  | Erase k, RErase n x => x = find_in l k /\ n = match find_in l k with Some _ => 1 | None => 0 end /\ l' = remove l k
  | Clear, RUnit => l' = []
  | Size, RSize n => n = Z.of_nat (length l) /\ l' = l
  | Visit, RKeys es => distinct es /\ length es = length l /\ (forall k, find_in es k = find_in l k) /\ l' = l
  | _, _ => False
  end.
Inductive spec_run : list op -> list elem -> list res -> list elem -> Prop :=
  | spec_nil l : spec_run [] l [] l
  | spec_cons o os l r l1 rs l2 : answers o l r l1 -> spec_run os l1 rs l2 -> spec_run (o :: os) l (r :: rs) l2.

(** The map and the association list bind the same keys to the same values. *)
Definition stands (m : FlatMap) (l : list elem) : Prop :=
  wf m /\ distinct l /\ (forall k, get m k = find_in l k) /\ _size m = Z.of_nat (length l).

Lemma remove_find l k k' : find_in (remove l k) k' = if _eql k k' then None else find_in l k'.
Proof.
  induction l as [|e l IH]; simpl; [by destruct (_eql k k')|]. unfold remove in *. rewrite filter_cons.
  case_decide as E; simpl; rewrite ?IH.
  - destruct (_eql e.1 k') eqn:E'; [|done]. destruct (_eql k k') eqn:E''; [|done].
    rewrite eql_sym, (eql_cong_l _ _ _ E''), eql_sym in E. congruence.
  - apply not_false_is_true in E. rewrite (eql_cong_l _ _ _ E). by destruct (_eql k k').
Qed.
Lemma remove_distinct l k : distinct l -> distinct (remove l k).
Proof.
  induction l as [|e l IH]; simpl; [done|]. intros [H1 H2]. unfold remove in *. rewrite filter_cons.
  case_decide; [|by apply IH]. simpl. split; [|by apply IH]. fold (remove l k). rewrite remove_find.
  by destruct (_eql k e.1).
Qed.
Lemma remove_length l k : distinct l ->
  Z.of_nat (length (remove l k)) = Z.of_nat (length l) - match find_in l k with Some _ => 1 | None => 0 end.
Proof.
  induction l as [|e l IH]; [done|]. intros [H1 H2]. unfold remove in *. rewrite filter_cons. cbn [find_in].
  case_decide as E.
  - rewrite E. simpl. specialize (IH H2). lia.
  - apply not_false_is_true in E. rewrite E. specialize (IH H2). rewrite <- (find_in_eql _ _ _ E), H1 in IH. simpl. lia.
Qed.
Lemma stands_insert m m' l k v : stands m l -> inserted m m' k v -> stands m' ((k, v) :: remove l k).
Proof.
  intros (Hwf & Hd & Hg & Hs) (Hwf' & Hup & Hs'). split; [done|]. split; [|split].
  - simpl. split; [rewrite remove_find; by rewrite eql_refl|by apply remove_distinct].
  - intros k'. rewrite Hup. simpl. rewrite remove_find, Hg. by destruct (_eql k k').
  - simpl. pose proof (remove_length l k Hd). rewrite Hs', Hg, Hs. destruct (find_in l k); lia.
Qed.
Lemma stands_ensured m m' l k : stands m l -> ensured m m' k ->
  stands m' ((k, default default_value (find_in l k)) :: remove l k).
Proof.
  intros (Hwf & Hd & Hg & Hs) (Hwf' & _ & _ & Hm). rewrite Hg in Hm. split; [done|]. split; [|split].
  - simpl. split; [rewrite remove_find; by rewrite eql_refl|by apply remove_distinct].
  - intros k'. simpl. rewrite remove_find. destruct (find_in l k) as [v|] eqn:E; destruct Hm as [_ Hm]; rewrite Hm, ?Hg.
    + destruct (_eql k k') eqn:Ekk; [|done]. by rewrite <- (find_in_eql _ _ _ Ekk), E.
    + by destruct (_eql k k').
  - simpl. pose proof (remove_length l k Hd). destruct (find_in l k); destruct Hm as [Hm _]; lia.
Qed.

Lemma map_exec_refines o m l : stands m l -> Z.of_nat (length l) <= 2 ^ 50 ->
  exists r m' l', exec o m = Some (r, m') /\ answers o l r l' /\ stands m' l' /\ (length l' <= S (length l))%nat.
Proof.
  intros Hst Hl. pose proof Hst as (Hwf & Hd & Hg & Hs). pose proof (remove_length l) as Hrl.
  destruct o as [k v|k|k|k| | |]; cbn [exec answers].
  - destruct (insert_spec m k v Hwf) as (m' & -> & Hin); [lia|]. eexists _, m', _. split; [done|]. split; [done|].
    split; [by eapply stands_insert|]. simpl. specialize (Hrl k Hd). destruct (find_in l k); lia.
  - destruct (subscript_spec resize_fuel m k Hwf) as (m' & -> & Hen); [apply roomy_64; [done|lia]|].
    pose proof (stands_ensured m m' l k Hst Hen) as Hst'. cbn [mbind option_bind].
    rewrite seek_spec by apply Hst'. cbn [mbind option_bind]. eexists _, m', _. split; [done|].
    split; [split; [|done]|]; [|split; [done|]].
    + destruct Hst' as (_ & _ & -> & _). simpl. by rewrite eql_refl.
    + simpl. specialize (Hrl k Hd). destruct (find_in l k); lia.
  - rewrite seek_spec by done. cbn [mbind option_bind]. eexists _, m, l. split; [done|]. rewrite Hg. split; [done|]. split; [done|lia].
  - destruct (erase_spec m k Hwf) as (m' & -> & Hwf' & Hg' & Hs'). cbn [mbind option_bind fst snd].
    eexists _, m', (remove l k). split; [done|]. rewrite Hg in *. split; [done|]. specialize (Hrl k Hd).
    split; [|destruct (find_in l k); lia]. split; [done|]. split; [by apply remove_distinct|].
    split; [|destruct (find_in l k); lia]. intros k'. by rewrite Hg', remove_find, Hg.
  - destruct (clear_map_spec m Hwf) as (m' & -> & Hwf' & He & Hs' & _). cbn [mbind option_bind].
    eexists _, m', []. split; [done|]. split; [done|]. split; [|simpl; lia]. split; [done|]. split; [done|].
    split; [|by rewrite Hs']. intros k. unfold get. by rewrite He.
  - eexists _, m, l. split; [done|]. split; [done|]. split; [done|lia].
  - rewrite visit_spec by done. cbn [mbind option_bind]. eexists _, m, l. split; [done|].
    destruct Hwf as (bs & a & Hwf). split; [|split; [done|lia]]. split; [rewrite (elems_eq _ _ _ Hwf); apply Hwf|].
    split; [rewrite (size_get _ _ _ Hwf) in Hs; lia|]. split; [|done]. intros k. by rewrite <- Hg.
Qed.
Lemma map_run_refines os m l : stands m l -> Z.of_nat (length l + length os) <= 2 ^ 50 ->
  exists rs m' l', run os m = Some (rs, m') /\ spec_run os l rs l' /\ stands m' l'.
Proof.
  revert m l. induction os as [|o os IH]; intros m l Hst Hl; cbn [run].
  - exists [], m, l. split; [done|]. split; [constructor|done].
  - simpl in Hl. destruct (map_exec_refines o m l Hst) as (r & m1 & l1 & -> & Ha & Hst1 & Hl1); [lia|]. cbn [mbind option_bind fst snd].
    destruct (IH m1 l1 Hst1) as (rs & m2 & l2 & -> & Hsp & Hst2); [lia|]. cbn [mbind option_bind fst snd].
    eexists _, m2, l2. split; [done|]. split; [by econstructor|done].
Qed.
End Proofs.
End FlatMapSpec.
