(* ===== verification/FlatMapTheorems.v ===== *)
(** * FlatMap: theorems

    The properties of the hash map for every key type with a lawful hash, and two
    corner cases: iteration of a small sparse map and copies of empty maps. *)
From stdpp Require Import base list.
From Stdlib Require Import ZArith Lia Bool.
From S2P Require Import Prelude BitArray FlatMap FlatMapSpec.

Open Scope Z_scope.

Module FlatMapTheorems.
Import BitArray FlatMap FlatMapSpec.

(** Integer keys hashed to themselves, with and without the bit array. *)
Definition int_params (sparse : bool) : Params Z Z :=
  Build_Params Z Z u64 Z.eqb 0 sparse (fun _ => true) (fun _ => true) (fun _ => 0).
#[local] Instance int_map : Params Z Z := int_params false.
#[local] Instance int_map_lawful : Lawful Z Z.
Proof.
  split; intros; cbn [_eql _hashfn int_map int_params] in *.
  - apply Z.eqb_refl.
  - apply Z.eqb_sym.
  - apply Z.eqb_eq in H, H0. subst. apply Z.eqb_refl.
  - apply Z.eqb_eq in H. by subst.
  - apply u64_range.
Qed.

(** The bucket count a map is given is a power of two, at least 8, at least the request
    and below twice a request above 8. *)
Theorem flatmap_round_least_power_of_two n : 0 <= n <= 2 ^ 63 ->
  exists a, 3 <= a <= 63 /\ flatmap_round n = 2 ^ a /\ n <= 2 ^ a /\ (8 < n -> 2 ^ (a - 1) < n).
Proof. apply flatmap_round_spec. Qed.
Lemma flatmap_round_witness : exists a, 3 <= a <= 63 /\ flatmap_round 1000 = 2 ^ a /\ 1000 <= 2 ^ a /\ (8 < 1000 -> 2 ^ (a - 1) < 1000).
Proof. apply (flatmap_round_least_power_of_two 1000). lia. Defined.

(** C11: On every well-formed map - one with at least 64 buckets if it is sparse - whose key
    equality is an equivalence that the hash respects, every sequence of insert, operator[],
    seek, erase, clear, size and iteration is defined, ends, and answers like an association
    list with the key equality of the map, for any hash codes and any allocation failures
    during resizes, up to 2^50 elements and operations; the map stays well-formed. (A sparse
    map with fewer buckets may iterate for ever: sparse_map_iteration_never_ends.) *)
Theorem flatmap_refines_association_list {K V : Type} `{P : Params K V} `{!Lawful K V}
    (m : @FlatMap K V) (l : list (K * V)) (os : list op) :
  stands m l -> Z.of_nat (length l + length os) <= 2 ^ 50 ->
  exists rs m' l', run os m = Some (rs, m') /\ spec_run os l rs l' /\ stands m' l'.
Proof. apply map_run_refines. Qed.

Lemma int_empty : exists m, init FlatMap_new 1 80 = Some (0, m) /\ stands m [].
Proof.
  destruct (init_spec FlatMap_new 1 80 3) as (r & m & Heq & Hr); try done; try lia.
  destruct Hr as [[_ [?|[? ?]]]|(-> & Hwf & He & Hs & _)]; [done|done|]. exists m. split; [done|].
  split; [done|]. split; [done|]. split; [|done]. intros k. unfold get. by rewrite He.
Qed.
Lemma flatmap_refines_witness : exists m, init FlatMap_new 1 80 = Some (0, m) /\
  exists rs m' l', run [Insert 1 5; Insert 9 6; Seek 9; Erase 1; Visit] m = Some (rs, m') /\
    spec_run [Insert 1 5; Insert 9 6; Seek 9; Erase 1; Visit] [] rs l' /\ stands m' l'.
Proof.
  destruct int_empty as (m & Heq & Hst). exists m. split; [exact Heq|].
  apply (flatmap_refines_association_list m [] _ Hst). simpl. lia.
Defined.

(** Iterating from [begin()] to [end()] ends after one step per element, visits every
    element exactly once and nothing else. *)
Theorem flatmap_iteration_visits_each_once {K V : Type} `{P : Params K V} `{!Lawful K V} (m : @FlatMap K V) :
  wf m -> exists l, visit m = Some l /\ distinct l /\ Z.of_nat (length l) = size m /\
    forall k, seek m k = Some (find_in l k).
Proof.
  intros Hwf. exists (elems m). split; [by apply visit_spec|]. pose proof Hwf as (bs & a & Hat).
  split; [rewrite (elems_eq _ _ _ Hat); apply Hat|]. split; [symmetry; apply (size_get _ _ _ Hat)|].
  intros k. by rewrite seek_spec.
Qed.
Lemma flatmap_iteration_witness : exists m, init FlatMap_new 1 80 = Some (0, m) /\
  exists l, visit m = Some l /\ distinct l /\ Z.of_nat (length l) = size m /\ forall k, seek m k = Some (find_in l k).
Proof.
  destruct int_empty as (m & Heq & Hst). exists m. split; [exact Heq|].
  apply (flatmap_iteration_visits_each_once m). exact (proj1 Hst).
Defined.

(** Resizing a map, whether the new buckets can be allocated or not, keeps its elements. *)
Theorem flatmap_resize_keeps_elements {K V : Type} `{P : Params K V} `{!Lawful K V} (m : @FlatMap K V) (n : Z) :
  wf m -> _size m <= 2 ^ 50 -> 64 <= n <= 2 ^ 56 ->
  exists r m', resize m n = Some (r, m') /\ wf m' /\ size m' = size m /\ (forall k, seek m' k = seek m k) /\
    (r = true -> n <= bucket_count m').
Proof.
  intros Hwf Hs Hn. destruct (flatmap_round_spec n) as (a & Ha & Hr & Hge & Hlt); [lia|].
  assert (6 <= a) by (apply (Z.pow_le_mono_r_iff 2); [lia|lia|]; change (2 ^ 6) with 64; lia).
  assert (a - 1 < 56) by (apply (Z.pow_lt_mono_r_iff 2); lia).
  destruct (resize_spec m n a Hwf Hs) as (r & m' & Heq & Hwf' & Hs' & Hg & Hnb); [lia|done|lia|lia|].
  exists r, m'. split; [done|]. split; [done|]. split; [done|]. split.
  - intros k. by rewrite !seek_spec, Hg by done.
  - intros Hrt. specialize (Hnb Hrt). unfold bucket_count. lia.
Qed.
Lemma flatmap_resize_witness : exists m, init FlatMap_new 1 80 = Some (0, m) /\
  exists r m', resize m 100 = Some (r, m') /\ wf m' /\ size m' = size m /\ (forall k, seek m' k = seek m k) /\
    (r = true -> 100 <= bucket_count m').
Proof.
  destruct int_empty as (m & Heq & Hst). exists m. split; [exact Heq|].
  apply (flatmap_resize_keeps_elements m 100); [exact (proj1 Hst)| |lia].
  destruct Hst as (_ & _ & _ & Hs). rewrite Hs. simpl. lia.
Defined.

(** Assignment makes an initialized map equal to the other one, whichever of the three
    ways (new buckets, bucket by bucket, element by element) it takes. *)
Theorem flatmap_assign_copies {K V : Type} `{P : Params K V} `{!Lawful K V} (m rhs : @FlatMap K V) :
  wf m -> wf rhs -> _size rhs <= 2 ^ 50 -> can_alloc (_nbucket rhs) ->
  exists m', assign m rhs = Some m' /\ wf m' /\ size m' = size rhs /\ forall k, seek m' k = seek rhs k.
Proof.
  intros Hm Hr Hs Hal. destruct (assign_map_spec m rhs Hm Hr Hs Hal) as (m' & Heq & Hwf & Hg & Hsz).
  exists m'. split; [done|]. split; [done|]. split; [done|]. intros k. by rewrite !seek_spec, Hg by done.
Qed.
Lemma flatmap_assign_witness : exists m, init FlatMap_new 1 80 = Some (0, m) /\
  exists m', assign m m = Some m' /\ wf m' /\ size m' = size m /\ forall k, seek m' k = seek m k.
Proof.
  destruct int_empty as (m & Heq & Hst). exists m. split; [exact Heq|].
  apply (flatmap_assign_copies m m); [exact (proj1 Hst)|exact (proj1 Hst)| |split; reflexivity].
  destruct Hst as (_ & _ & _ & Hs). rewrite Hs. simpl. lia.
Defined.

(** A position saved on a dense map and restored on the unchanged map is the same position. *)
Theorem flatmap_saved_position_is_restored {K V : Type} `{P : Params K V} `{!Lawful K V} (m : @FlatMap K V) it :
  wf m -> (it = end_ m \/ (0 <= it.1 /\ deref m it <> None)) -> _S = false ->
  exists h, save_iterator m it = Some h /\ restore_iterator m h = Some it.
Proof. apply restore_save. Qed.
Lemma flatmap_position_witness : exists m, init FlatMap_new 1 80 = Some (0, m) /\
  exists h, save_iterator m (end_ m) = Some h /\ restore_iterator m h = Some (end_ m).
Proof.
  destruct int_empty as (m & Heq & Hst). exists m. split; [exact Heq|].
  apply (flatmap_saved_position_is_restored m (end_ m)); [exact (proj1 Hst)|left; reflexivity|reflexivity].
Defined.

(** A sparse map of 8 buckets with the one element 0 is never iterated to its end: the search
    for the next set bit goes back to the element. *)
Theorem sparse_map_iteration_never_ends :
  exists i m it, @init Z Z (int_params true) FlatMap_new 1 80 = Some i /\
    @insert Z Z (int_params true) i.2 0 7 = Some m /\ @begin Z Z (int_params true) m = Some it /\
    size m = 1 /\ forall fuel, @iterate Z Z (int_params true) fuel m it = None.
Proof.
  eexists _, _, _. split; [vm_compute; reflexivity|]. split; [vm_compute; reflexivity|].
  split; [vm_compute; reflexivity|]. split; [reflexivity|].
  intros fuel. induction fuel as [|fuel IH]; [reflexivity|].
  cbn [iterate]. rewrite bool_decide_false by done.
  match goal with |- (_ ← @deref _ _ ?m ?it; _) = _ => change (@deref Z Z m it) with (Some (0, 7)) end.
  cbn [mbind option_bind].
  match goal with |- (_ ← @next _ _ _ ?m ?it; _) = _ => change (@next Z Z (int_params true) m it) with (Some (0, 0%nat)) end.
  cbn [mbind option_bind]. by rewrite IH.
Qed.

(** The copy of an empty map is not initialized, whatever map it was copied from: its
    [operator[]] reads the null bucket array. *)
Theorem copy_of_empty_map_is_uninitialized {K V : Type} `{P : Params K V} (m : @FlatMap K V) :
  size m = 0 -> exists m', FlatMap_copy m = Some m' /\ initialized m' = false /\
    (forall k, seek m' k = Some None) /\ forall k, subscript resize_fuel m' k = None.
Proof.
  unfold size. intros Hs. exists (mkMap 0 0 None None (_load_factor m)). split.
  - unfold FlatMap_copy, assign, clear, empty. cbn [_size Z.eqb mbind option_bind]. by rewrite Hs.
  - split; [done|]. split; [done|]. intros k. generalize resize_fuel. by intros [|fuel].
Qed.
Lemma copy_of_empty_witness : exists m, init FlatMap_new 1 80 = Some (0, m) /\ initialized m = true /\
  exists m', FlatMap_copy m = Some m' /\ initialized m' = false /\
    (forall k, seek m' k = Some None) /\ forall k, subscript resize_fuel m' k = None.
Proof.
  eexists. split; [vm_compute; reflexivity|]. split; [reflexivity|].
  apply copy_of_empty_map_is_uninitialized. reflexivity.
Defined.
End FlatMapTheorems.
