(* ===== verification/MapInterface.v ===== *)
(** * The map interface

    What a client of a hash map relies on: the operations [MapOps] and their laws
    [MapLaws], for the keys of a domain on which hash and equality agree.  The second
    part shows that a [FlatMap] offers it: on keys of the domain it behaves like a map
    whose key type is the domain, to which the results of [FlatMapSpec] apply. *)
From stdpp Require Import base list.
From Stdlib Require Import ZArith Lia Bool.
From S2P Require Import Prelude BitArray FlatMap FlatMapSpec.

Open Scope Z_scope.

Module MapInterface.
Import FlatMap FlatMapSpec.

Class MapOps (M K V : Type) := {
  map_new : M;
  map_init : M -> Z -> option (Z * M);
  map_seek : M -> K -> option (option V);
  map_insert : M -> K -> V -> option M;
  map_erase : M -> K -> option M
}.
Class MapLaws (M K V : Type) `{!MapOps M K V} := {
  map_dom : K -> Prop;
  map_eq : K -> K -> bool;
  map_ok : M -> Prop;
  map_get : M -> K -> option V;
  map_count : M -> Z;
  init_law n : 0 < n <= 2 ^ 32 ->
    exists r m, map_init map_new n = Some (r, m) /\
      (r = 0 -> map_ok m /\ map_count m = 0 /\ forall k, map_get m k = None);
  seek_law m k : map_ok m -> map_dom k -> map_seek m k = Some (map_get m k);
  insert_law m k v : map_ok m -> map_dom k -> map_count m <= 2 ^ 50 ->
    exists m', map_insert m k v = Some m' /\ map_ok m' /\ map_count m' <= map_count m + 1 /\
      forall k', map_dom k' -> map_get m' k' = if map_eq k k' then Some v else map_get m k';
  erase_law m k : map_ok m -> map_dom k ->
    exists m', map_erase m k = Some m' /\ map_ok m' /\ map_count m' <= map_count m /\
      forall k', map_dom k' -> map_get m' k' = if map_eq k k' then None else map_get m k'
}.

#[export] Instance flatmap_ops (K V : Type) `{P : Params K V} : MapOps (@FlatMap K V) K V := {
  map_new := FlatMap_new;
  map_init m n := init m n 80;
  map_seek := seek;
  map_insert := insert;
  map_erase m k := (fun r => r.2) <$> erase m k
}.

(** ** Renaming keys

    [f] embeds the keys of one map into those of another with the same hash codes
    and the same equality; every operation commutes with it. *)
Section Embedding.
Context {K1 K2 V : Type} `{P : Params K2 V} (f : K1 -> K2).

#[local] Instance pulled : Params K1 V := {
  _hashfn k := _hashfn (f k);
  _eql k k' := _eql (f k) (f k');
  default_value := default_value;
  _S := _S;
  alloc_ok := alloc_ok;
  thumb_ok := thumb_ok;
  thumb_junk := thumb_junk
}.
Definition ren (e : K1 * V) : K2 * V := (f e.1, e.2).
Definition embed (m : @FlatMap K1 V) : @FlatMap K2 V :=
  mkMap (_size m) (_nbucket m) (map (map ren) <$> _buckets m) (_thumbnail m) (_load_factor m).
Implicit Types (m : @FlatMap K1 V) (b : list (K1 * V)) (k : K1) (v : V).

Lemma find_in_ren b k : find_in (map ren b) (f k) = find_in b k.
Proof. induction b as [|e b IH]; simpl; [done|]. by rewrite IH. Qed.
Lemma set_in_ren b k v : set_in (map ren b) (f k) v = map ren (set_in b k v).
Proof. induction b as [|e b IH]; simpl; [done|]. rewrite IH. by destruct (_eql (f e.1) (f k)). Qed.
Lemma erase_in_ren b k : erase_in (map ren b) (f k) = (fun r => (r.1, map ren r.2)) <$> erase_in b k.
Proof.
  induction b as [|e b IH]; simpl; [done|]. rewrite IH. destruct (_eql (f e.1) (f k)); [done|].
  by destruct (erase_in b k) as [[]|].
Qed.
Lemma is_valid_ren b : is_valid (map ren b) = is_valid b.
Proof. by destruct b. Qed.
Lemma next_valid_ren bs pos : next_valid (map (map ren) bs) pos = next_valid bs pos.
Proof. revert pos. induction bs as [|b bs IH]; intros pos; simpl; [done|]. by rewrite is_valid_ren, IH. Qed.
Lemma lookup_ren (bs : list (list (K1 * V))) i : map (map ren) bs !! i = map ren <$> bs !! i.
Proof. apply list_lookup_fmap. Qed.

Lemma seek_embed m k : seek (embed m) (f k) = seek m k.
Proof.
  unfold seek, index_of, embed. simpl. destruct (_buckets m) as [bs|]; simpl; [|done].
  rewrite lookup_ren. destruct (bs !! _) as [b|]; simpl; [|done]. by rewrite find_in_ren.
Qed.
Lemma assign_at_embed m k v : assign_at (embed m) (f k) v = embed <$> assign_at m k v.
Proof.
  unfold assign_at, index_of, embed. simpl. destruct (_buckets m) as [bs|]; simpl; [|done].
  rewrite lookup_ren. destruct (bs !! _) as [b|]; simpl; [|done]. rewrite set_in_ren.
  unfold set_buckets. simpl. do 2 f_equal. f_equal. symmetry. apply list_fmap_insert.
Qed.
Lemma erase_embed m k : erase (embed m) (f k) = (fun r => (r.1, embed r.2)) <$> erase m k.
Proof.
  unfold erase, index_of, embed. simpl. destruct (_buckets m) as [bs|] eqn:Hb; simpl; [|by rewrite Hb].
  rewrite lookup_ren. destruct (bs !! _) as [b|]; simpl; [|done]. rewrite erase_in_ren.
  destruct (erase_in b k) as [[v b']|]; simpl; [|by rewrite Hb]. rewrite is_valid_ren.
  destruct (if _S && negb (is_valid b') then _ else _) as [th|]; simpl; [|done].
  unfold set_buckets. simpl. do 3 f_equal. f_equal. symmetry. apply list_fmap_insert.
Qed.

Lemma find_valid_embed m bs pos :
  find_and_set_valid_node (embed m) (map (map ren) bs) pos = find_and_set_valid_node m bs pos.
Proof.
  unfold find_and_set_valid_node. simpl. destruct _S.
  - destruct (pos =? _nbucket m); [done|]. rewrite lookup_ren. destruct (bs !! _) as [b|]; simpl; [|done].
    by rewrite is_valid_ren.
  - by rewrite <- fmap_drop, next_valid_ren.
Qed.
Lemma iterate_embed fuel m it : iterate fuel (embed m) it = map ren <$> iterate fuel m it.
Proof.
  revert it. induction fuel as [|fuel IH]; intros it; cbn [iterate].
  all: assert (Hend : end_ (embed m) = end_ m) by (unfold end_, initialized, embed; simpl; by destruct (_buckets m)).
  all: rewrite Hend; case_bool_decide; [done|]; try done.
  unfold deref, next. simpl. destruct (_buckets m) as [bs|]; simpl; [|done]. rewrite lookup_ren.
  destruct (bs !! Z.to_nat it.1) as [b|]; simpl; [|done]. rewrite list_lookup_fmap.
  destruct (b !! it.2) as [e|]; simpl; [|done]. rewrite length_map, find_valid_embed.
  destruct (if (it.2 + 1 <? length b)%nat then _ else _) as [it'|]; simpl; [|done].
  rewrite IH. by destruct (iterate fuel m it').
Qed.
Lemma visit_embed m : visit (embed m) = map ren <$> visit m.
Proof.
  unfold visit, begin. simpl. destruct (_buckets m) as [bs|] eqn:Hb; simpl.
  - rewrite find_valid_embed. destruct (find_and_set_valid_node m bs 0) as [it|]; simpl; [|done]. apply iterate_embed.
  - apply iterate_embed.
Qed.
Lemma init_embed m n lf : init (embed m) n lf = (fun r => (r.1, embed r.2)) <$> init m n lf.
Proof.
  assert (Hnil : forall i : nat, map (map ren) (replicate i []) = replicate i []) by (intros i; induction i; simpl; congruence).
  unfold init, initialized. simpl. destruct (_buckets m) as [bs|] eqn:Hb; simpl.
  { unfold embed. by rewrite Hb. }
  destruct (n =? 0); [simpl; unfold embed; by rewrite Hb|].
  destruct ((lf <? 10) || (100 <? lf)); [simpl; unfold embed; by rewrite Hb|].
  destruct (alloc_ok _); simpl; [|done]. destruct _S; [|simpl; unfold embed; simpl; by rewrite Hnil].
  change (new_thumbnail (P := pulled)) with (new_thumbnail (P := P)).
  destruct (new_thumbnail _) as [[t|]|]; simpl; unfold embed; simpl; by rewrite ?Hnil.
Qed.

Lemma fold_embed (g1 : @FlatMap K1 V -> K1 -> option (@FlatMap K1 V)) (g2 : @FlatMap K2 V -> K2 -> option (@FlatMap K2 V)) l om :
  (forall m k, g2 (embed m) (f k) = embed <$> g1 m k) ->
  foldl (fun om e => m' ← om; m1 ← g2 m' e.1; assign_at m1 e.1 e.2) (embed <$> om) (map ren l) =
  embed <$> foldl (fun om e => m' ← om; m1 ← g1 m' e.1; assign_at m1 e.1 e.2) om l.
Proof.
  intros Hg. revert om. induction l as [|e l IH]; intros om; simpl; [done|]. rewrite <- IH. f_equal.
  destruct om as [m|]; simpl; [|done]. rewrite Hg. destruct (g1 m e.1) as [m1|]; simpl; [|done]. apply assign_at_embed.
Qed.

Lemma subscript_embed fuel m k : subscript fuel (embed m) (f k) = embed <$> subscript fuel m k.
Proof.
  revert m k. induction fuel as [|fuel IH]; intros m k; cbn [subscript].
  all: unfold index_of; cbn [embed _buckets _nbucket _size _thumbnail _load_factor _hashfn _S default_value pulled].
  all: destruct (_buckets m) as [bs|] eqn:Hb; simpl; [|done].
  all: rewrite lookup_ren; destruct (bs !! _) as [b|]; simpl; [|done]; rewrite is_valid_ren, find_in_ren.
  all: change (is_too_crowded (embed m) (_size m)) with (is_too_crowded m (_size m)).
  all: assert (Hput : forall i (x : list (K1 * V)) sz t, set_buckets (embed m) (<[i := map ren x]> (map (map ren) bs)) sz t =
         embed (set_buckets m (<[i := x]> bs) sz t))
       by (intros; unfold set_buckets, embed; simpl; f_equal; f_equal; symmetry; apply list_fmap_insert).
  all: destruct (is_valid b); cbn [negb].
  all: try (destruct (if _S then _ else _) as [th|]; simpl; [|done]; f_equal;
            apply (Hput _ [(k, default_value)] _ th)).
  all: destruct (find_in b k); [simpl; unfold embed; by rewrite Hb|].
  all: destruct (is_too_crowded m (_size m)).
  all: assert (Happ : forall sz t, set_buckets (embed m) (<[Z.to_nat (flatmap_mod (_hashfn (f k)) (_nbucket m)) :=
         map ren b ++ [(f k, default_value)]]> (map (map ren) bs)) sz t =
       embed (set_buckets m (<[Z.to_nat (flatmap_mod (_hashfn (f k)) (_nbucket m)) := b ++ [(k, default_value)]]> bs) sz t))
     by (intros; rewrite <- Hput; f_equal; f_equal; by rewrite map_app).
  all: try (simpl; f_equal; apply Happ).
  destruct (_nbucket m =? flatmap_round (_nbucket m + 1)); [simpl; f_equal; apply Happ|].
    change (@FlatMap_new K2 V) with (embed FlatMap_new). rewrite init_embed.
    destruct (init FlatMap_new _ _) as [[r m0]|]; simpl; [|done]. destruct (negb (r =? 0)); [simpl; f_equal; apply Happ|].
    rewrite visit_embed. destruct (visit m) as [l|]; simpl; [|done].
    change (Some (embed m0)) with (embed <$> Some m0). rewrite (fold_embed (subscript fuel) (subscript fuel) l (Some m0) IH).
    destruct (foldl _ _ l) as [m1|]; simpl; [|done]. apply IH.
Qed.
Lemma insert_embed m k v : insert (embed m) (f k) v = embed <$> insert m k v.
Proof.
  unfold insert. rewrite subscript_embed. destruct (subscript _ m k) as [m1|]; simpl; [|done]. apply assign_at_embed.
Qed.
End Embedding.

(** ** FlatMap on a domain of keys *)

(** Hash and equality are lawful on the keys that satisfy [dom]. *)
Class LawfulOn {K V : Type} `{P : Params K V} (dom : K -> bool) := {
  on_refl k : dom k = true -> _eql k k = true;
  on_sym k k' : dom k = true -> dom k' = true -> _eql k k' = _eql k' k;
  on_trans k k' k'' : dom k = true -> dom k' = true -> dom k'' = true ->
    _eql k k' = true -> _eql k' k'' = true -> _eql k k'' = true;
  on_hash k k' : dom k = true -> dom k' = true -> _eql k k' = true -> _hashfn k = _hashfn k';
  on_range k : dom k = true -> 0 <= _hashfn k < 2 ^ 64
}.

Section Domain.
Context {K V : Type} `{P : Params K V} (dom : K -> bool) `{!LawfulOn dom} (dense : _S = false).

Definition key : Type := { k : K | dom k = true }.
#[local] Instance key_params : Params key V := pulled (fun k : key => proj1_sig k).
#[local] Instance key_lawful : Lawful key V.
Proof.
  split.
  - intros [k Hk]. by apply (on_refl (dom := dom)).
  - intros [k Hk] [k' Hk']. by apply (on_sym (dom := dom)).
  - intros [k Hk] [k' Hk'] [k'' Hk'']. by apply (on_trans (dom := dom)).
  - intros [k Hk] [k' Hk']. by apply (on_hash (dom := dom)).
  - intros [k Hk]. by apply (on_range (dom := dom)).
Qed.
Definition over (m0 : @FlatMap key V) : @FlatMap K V := embed (fun k : key => proj1_sig k) m0.
Definition dom_get (m : @FlatMap K V) (k : K) : option V := default None (seek m k).

Lemma dom_get_over m0 (k : key) : wf m0 -> dom_get (over m0) (proj1_sig k) = get m0 k.
Proof. intros Hwf. unfold dom_get, over. rewrite (seek_embed (fun k : key => proj1_sig k) m0 k). by rewrite seek_spec. Qed.

Program Definition flatmap_laws : MapLaws (@FlatMap K V) K V := {|
  map_dom k := dom k = true;
  map_eq := _eql;
  map_ok m := exists m0, wf m0 /\ m = over m0;
  map_get := dom_get;
  map_count := _size
|}.
Next Obligation.
  intros n Hn. cbn [map_init map_new flatmap_ops]. destruct (flatmap_round_spec n) as (a & Ha & Hr & Hge & Hlt); [lia|].
  assert (a <= 33).
  { destruct (Z.lt_ge_cases 8 n) as [H8|H8].
    - enough (a - 1 < 32) by lia. apply (Z.pow_lt_mono_r_iff 2); lia.
    - enough (a = 3) by lia. apply (Z.pow_inj_r 2); [lia|lia|lia|]. rewrite <- Hr. unfold flatmap_round.
      by rewrite (proj2 (Z.leb_le n 8)) by lia. }
  destruct (init_spec (FlatMap_new (K := key)) n 80 a) as (r & m0 & Heq & Hres);
    [done|done|lia|done|lia|lia|cbn; congruence|].
  change (@FlatMap_new K V) with (over FlatMap_new). unfold over, key_params in *. rewrite init_embed, Heq. simpl.
  eexists r, _. split; [done|]. intros ->. destruct Hres as [[? _]|(_ & Hwf & He & Hs & _)]; [done|].
  split; [by exists m0|]. split; [done|]. intros k. unfold dom_get, seek. simpl.
  destruct Hwf as (bs & a' & Hwf). rewrite (elems_eq _ _ _ Hwf) in He. rewrite (wf_buckets _ _ _ Hwf). simpl.
  rewrite lookup_ren. destruct (bs !! _) as [b|] eqn:Hb; simpl; [|done].
  destruct b as [|e b]; [done|]. assert (Hin : e ∈ all bs); [|rewrite He in Hin; by apply elem_of_nil in Hin].
  apply list_elem_of_join. exists (e :: b). split; [by left|]. by eapply list_elem_of_lookup_2.
Qed.
Next Obligation.
  intros m k (m0 & Hwf & ->) Hk. simpl. unfold dom_get, over.
  rewrite (seek_embed (fun k : key => proj1_sig k) m0 (k ↾ Hk)). by rewrite seek_spec.
Qed.
Next Obligation.
  intros m k v (m0 & Hwf & ->) Hk Hc. destruct (insert_spec m0 (k ↾ Hk) v Hwf Hc) as (m1 & Heq & Hwf1 & Hup & Hs).
  exists (over m1). split; [|split; [by exists m1|split]].
  - simpl. unfold over, key_params in *. rewrite (insert_embed (fun k : key => proj1_sig k) m0 (k ↾ Hk) v). by rewrite Heq.
  - simpl. destruct (get m0 _); lia.
  - intros k' Hk'. etrans; [exact (dom_get_over m1 (k' ↾ Hk') Hwf1)|].
    rewrite (Hup (k' ↾ Hk')), <- (dom_get_over m0 (k' ↾ Hk') Hwf). done.
Qed.
Next Obligation.
  intros m k (m0 & Hwf & ->) Hk. destruct (erase_spec m0 (k ↾ Hk) Hwf) as (m1 & Heq & Hwf1 & Hup & Hs).
  exists (over m1). split; [|split; [by exists m1|split]].
  - simpl. unfold over, key_params in *. rewrite (erase_embed (fun k : key => proj1_sig k) m0 (k ↾ Hk)). by rewrite Heq.
  - simpl. destruct (get m0 _); lia.
  - intros k' Hk'. etrans; [exact (dom_get_over m1 (k' ↾ Hk') Hwf1)|].
    rewrite (Hup (k' ↾ Hk')), <- (dom_get_over m0 (k' ↾ Hk') Hwf). done.
Qed.
End Domain.
End MapInterface.
