(* ===== verification/WorkStealingQueue.v ===== *)
(** * WorkStealingQueue (bthread/work_stealing_queue.h)

    The Chase-Lev deque of bthread's task groups: one owner pushes and pops at the
    bottom, any number of thieves steal from the top.  Every load, store and
    compare-exchange is one step of the thread that does it, and the scheduler may
    interleave steps in any order; steps are sequentially consistent.  Writing an
    item takes two steps, between which the slot is indeterminate ([None]), so that
    a thief that reads a slot while it is overwritten is accounted for. *)
From stdpp Require Import base list sets.
From Stdlib Require Import ZArith Lia Bool.
From S2P Require Import Prelude.

Open Scope Z_scope.

Module Wsq.
Section Queue.
Context {T : Type}.

(** ** The code, by program counters

    A constructor says what the thread does next, with the values of its local
    variables. *)
Inductive op := OpPush (x : T) | OpPop | OpSteal.
(** [Taken None] is an indeterminate value. *)
Inductive res := Pushed (ok : bool) | Taken (v : option T) | Nothing.

Inductive owner_pc :=
  | OIdle
  | Push0 (x : T)                       (* load _bottom *)
  | Push1 (x : T) (b : Z)               (* load _top, test for full *)
  | Push2 (x : T) (b : Z)               (* begin writing the slot *)
  | Push3 (x : T) (b : Z)               (* end writing the slot *)
  | Push4 (x : T) (b : Z)               (* store _bottom *)
  | Pop0                                (* load _bottom *)
  | Pop1 (b : Z)                        (* load _top, fast check *)
  | Pop2 (b : Z)                        (* store _bottom *)
  | Pop3 (b : Z)                        (* fence, load _top *)
  | Pop4 (b : Z)                        (* restore _bottom *)
  | Pop5 (b t : Z)                      (* read the slot *)
  | Pop6 (b t : Z) (v : option T)       (* compete for the last item *)
  | Pop7 (b : Z) (popped : bool) (v : option T). (* restore _bottom *)
Inductive thief_pc :=
  | TIdle
  | Steal0                              (* load _top *)
  | Steal1 (t : Z)                      (* load _bottom *)
  | Steal2 (t : Z)                      (* fence, load _bottom again *)
  | Steal3 (t : Z)                      (* read the slot *)
  | Steal4 (t : Z) (v : option T).      (* compare-exchange _top *)

Record queue := mkQ { _bottom : Z; _capacity : Z; _buffer : list (option T); _top : Z }.
Record state := mkS { q : queue; owner : owner_pc; thieves : list thief_pc }.

Definition new : queue := mkQ 1 0 [] 1.
(** [init]; [alloc_ok] is whether [new(std::nothrow)] succeeds. *)
Definition init (alloc_ok : bool) (capacity : Z) (s : queue) : Z * queue :=
  if negb (_capacity s =? 0) then (-1, s)
  else if capacity =? 0 then (-1, s)
  else if negb (Z.land capacity (u64 (capacity - 1)) =? 0) then (-1, s)
  else if negb alloc_ok then (-1, s)
  else (0, mkQ (_bottom s) capacity (replicate (Z.to_nat capacity) None) (_top s)).
(** [volatile_size], for the two values it loads. *)
Definition volatile_size (b t : Z) : Z := if b <=? t then 0 else u64 (b - t).

Definition slot (s : queue) (i : Z) : nat := Z.to_nat (Z.land i (u64 (_capacity s - 1))).
Definition set_bottom (b : Z) (s : queue) : queue := mkQ b (_capacity s) (_buffer s) (_top s).
Definition set_top (t : Z) (s : queue) : queue := mkQ (_bottom s) (_capacity s) (_buffer s) t.
Definition write (i : Z) (v : option T) (s : queue) : queue :=
  mkQ (_bottom s) (_capacity s) (<[slot s i := v]> (_buffer s)) (_top s).
(** A read outside the array is undefined. *)
Definition read (i : Z) (s : queue) : option (option T) := _buffer s !! slot s i.

(** One step of [push] and [pop]: the queue, the next program counter and the result
    when the call returns; [None] when there is nothing to do or on undefined
    behaviour. *)
Definition owner_step (s : queue) (pc : owner_pc) : option (queue * owner_pc * option res) :=
  match pc with
  | OIdle => None
  | Push0 x => Some (s, Push1 x (_bottom s), None)
  | Push1 x b =>
      if u64 (_top s + _capacity s) <=? b then Some (s, OIdle, Some (Pushed false))
      else Some (s, Push2 x b, None)
  | Push2 x b => Some (write b None s, Push3 x b, None)
  | Push3 x b => Some (write b (Some x) s, Push4 x b, None)
  | Push4 x b => Some (set_bottom (u64 (b + 1)) s, OIdle, Some (Pushed true))
  | Pop0 => Some (s, Pop1 (_bottom s), None)
  | Pop1 b => if b <=? _top s then Some (s, OIdle, Some Nothing) else Some (s, Pop2 b, None)
  | Pop2 b => Some (set_bottom (u64 (b - 1)) s, Pop3 b, None)
  | Pop3 b =>
      if u64 (b - 1) <? _top s then Some (s, Pop4 b, None) else Some (s, Pop5 b (_top s), None)
  | Pop4 b => Some (set_bottom b s, OIdle, Some Nothing)
  | Pop5 b t =>
      v ← read (u64 (b - 1)) s;
      if t =? u64 (b - 1) then Some (s, Pop6 b t v, None) else Some (s, OIdle, Some (Taken v))
  | Pop6 b t v =>
      if _top s =? t then Some (set_top (u64 (t + 1)) s, Pop7 b true v, None)
      else Some (s, Pop7 b false v, None)
  | Pop7 b popped v => Some (set_bottom b s, OIdle, Some (if popped then Taken v else Nothing))
  end.
(** One step of [steal]. *)
Definition thief_step (s : queue) (pc : thief_pc) : option (queue * thief_pc * option res) :=
  match pc with
  | TIdle => None
  | Steal0 => Some (s, Steal1 (_top s), None)
  | Steal1 t => if _bottom s <=? t then Some (s, TIdle, Some Nothing) else Some (s, Steal2 t, None)
  | Steal2 t => if _bottom s <=? t then Some (s, TIdle, Some Nothing) else Some (s, Steal3 t, None)
  | Steal3 t => v ← read t s; Some (s, Steal4 t v, None)
  | Steal4 t v =>
      if _top s =? t then Some (set_top (u64 (t + 1)) s, TIdle, Some (Taken v))
      else Some (s, Steal2 (_top s), None)
  end.

(** ** Schedules

    The environment calls operations on idle threads, respecting the comments of the
    header: the owner only pushes and pops, one call at a time. *)
Inductive tid := Owner | Thief (i : nat).
Inductive choice := SCall (t : tid) (o : op) | SStep (t : tid).
Inductive act := Call (t : tid) (o : op) | Ret (t : tid) (r : res).

Definition ret (t : tid) (r : option res) : list act := match r with Some r => [Ret t r] | None => [] end.
(** What a choice of the scheduler does; a choice that does not apply leaves the state. *)
Definition step (c : choice) (s : state) : option (state * list act) :=
  match c with
  | SCall Owner (OpPush x) =>
      match owner s with
      | OIdle => Some (mkS (q s) (Push0 x) (thieves s), [Call Owner (OpPush x)])
      | _ => Some (s, [])
      end
  | SCall Owner OpPop =>
      match owner s with
      | OIdle => Some (mkS (q s) Pop0 (thieves s), [Call Owner OpPop])
      | _ => Some (s, [])
      end
  | SCall (Thief i) OpSteal =>
      match thieves s !! i with
      | Some TIdle => Some (mkS (q s) (owner s) (<[i := Steal0]> (thieves s)), [Call (Thief i) OpSteal])
      | _ => Some (s, [])
      end
  | SCall _ _ => Some (s, [])
  | SStep Owner =>
      match owner s with
      | OIdle => Some (s, [])
      | pc => '(q', pc', r) ← owner_step (q s) pc; Some (mkS q' pc' (thieves s), ret Owner r)
      end
  | SStep (Thief i) =>
      match thieves s !! i with
      | None | Some TIdle => Some (s, [])
      | Some pc => '(q', pc', r) ← thief_step (q s) pc; Some (mkS q' (owner s) (<[i := pc']> (thieves s)), ret (Thief i) r)
      end
  end.
Fixpoint run (cs : list choice) (s : state) : option (state * list act) :=
  match cs with
  | [] => Some (s, [])
  | c :: cs => '(s1, l1) ← step c s; '(s2, l2) ← run cs s1; Some (s2, l1 ++ l2)
  end.
(** An initialised queue, with [n] idle thieves. *)
Definition start (capacity : Z) (n : nat) : state :=
  mkS (init true capacity new).2 OIdle (replicate n TIdle).

(** ** The specification: a bounded deque with atomic operations

    A call takes effect at one instant between its invocation and its return. *)
Inductive phase := Idle | Called (o : op) | Done (r : res).
Record deque := mkD { items : list T; a_owner : phase; a_thieves : list phase }.

Inductive astep (cap : Z) : deque -> list act -> deque -> Prop :=
  | a_call_push x l ts : astep cap (mkD l Idle ts) [Call Owner (OpPush x)] (mkD l (Called (OpPush x)) ts)
  | a_call_pop l ts : astep cap (mkD l Idle ts) [Call Owner OpPop] (mkD l (Called OpPop) ts)
  | a_push x l ts : Z.of_nat (length l) < cap ->
      astep cap (mkD l (Called (OpPush x)) ts) [] (mkD (l ++ [x]) (Done (Pushed true)) ts)
  | a_push_full x l ts : Z.of_nat (length l) = cap ->
      astep cap (mkD l (Called (OpPush x)) ts) [] (mkD l (Done (Pushed false)) ts)
  | a_pop x l ts : astep cap (mkD (l ++ [x]) (Called OpPop) ts) [] (mkD l (Done (Taken (Some x))) ts)
  | a_pop_empty ts : astep cap (mkD [] (Called OpPop) ts) [] (mkD [] (Done Nothing) ts)
  | a_ret_owner r l ts : astep cap (mkD l (Done r) ts) [Ret Owner r] (mkD l Idle ts)
  | a_call_steal i l o ts : ts !! i = Some Idle ->
      astep cap (mkD l o ts) [Call (Thief i) OpSteal] (mkD l o (<[i := Called OpSteal]> ts))
  | a_steal i x l o ts : ts !! i = Some (Called OpSteal) ->
      astep cap (mkD (x :: l) o ts) [] (mkD l o (<[i := Done (Taken (Some x))]> ts))
  (* a thief may find nothing while the owner is about to take the last item *)
  | a_steal_nothing i l o ts : ts !! i = Some (Called OpSteal) -> (length l <= 1)%nat ->
      astep cap (mkD l o ts) [] (mkD l o (<[i := Done Nothing]> ts))
  | a_ret_thief i r l o ts : ts !! i = Some (Done r) ->
      astep cap (mkD l o ts) [Ret (Thief i) r] (mkD l o (<[i := Idle]> ts)).
Inductive asteps (cap : Z) : deque -> list act -> deque -> Prop :=
  | asteps_refl d : asteps cap d [] d
  | asteps_step d1 l1 d2 l2 d3 : astep cap d1 l1 d2 -> asteps cap d2 l2 d3 -> asteps cap d1 (l1 ++ l2) d3.
Definition a_start (n : nat) : deque := mkD [] Idle (replicate n Idle).

(** ** The simulation *)
Implicit Types (s : queue) (l : list T).

(** What the program counter of the owner says about the queue, the end [ab] of the
    abstract deque and the phase of the abstract call. *)
Definition orel s (ab : Z) (pc : owner_pc) (ph : phase) : Prop :=
  match pc with
  | OIdle => ph = Idle /\ _bottom s = ab
  | Push0 x => ph = Called (OpPush x) /\ _bottom s = ab
  | Push1 x b => ph = Called (OpPush x) /\ _bottom s = ab /\ b = ab
  | Push2 x b | Push3 x b => ph = Called (OpPush x) /\ _bottom s = ab /\ b = ab /\ b < _top s + _capacity s
  | Push4 x b => ph = Called (OpPush x) /\ _bottom s = ab /\ b = ab /\ b < _top s + _capacity s /\
      read b s = Some (Some x)
  | Pop0 => ph = Called OpPop /\ _bottom s = ab
  | Pop1 b => ph = Called OpPop /\ _bottom s = ab /\ b = ab
  | Pop2 b => ph = Called OpPop /\ _bottom s = ab /\ b = ab /\ 1 < b
  | Pop3 b => ph = Called OpPop /\ _bottom s = b - 1 /\ b = ab /\ 1 < b
  | Pop4 b => ph = Done Nothing /\ _bottom s = b - 1 /\ b = ab
  | Pop5 b t => _bottom s = b - 1 /\ 1 < b /\ t <= _top s /\
      (t < b - 1 /\ ab = b - 1 /\ (exists x, ph = Done (Taken (Some x)) /\ read (b - 1) s = Some (Some x)) \/
       t = b - 1 /\ ab = b /\ ph = Called OpPop)
  | Pop6 b t v => _bottom s = b - 1 /\ 1 < b /\ t = b - 1 /\ ab = b /\ ph = Called OpPop /\ t <= _top s /\
      (_top s = t -> read t s = Some v)
  | Pop7 b popped v => _bottom s = b - 1 /\ ab = b /\ ph = Done (if popped then Taken v else Nothing)
  end.
(** A thief that has seen [t] below the bottom may still count on the item there, as
    long as nobody has moved the top. *)
Definition trel s (ab : Z) (pc : thief_pc) (ph : phase) : Prop :=
  match pc with
  | TIdle => ph = Idle
  | Steal0 => ph = Called OpSteal
  | Steal1 t | Steal2 t => ph = Called OpSteal /\ 1 <= t <= _top s
  | Steal3 t => ph = Called OpSteal /\ 1 <= t <= _top s /\ (_top s = t -> t < ab)
  | Steal4 t v => ph = Called OpSteal /\ 1 <= t <= _top s /\ (_top s = t -> t < ab /\ read t s = Some v)
  end.
(** The queue represents [l] between [_top] and [ab]. *)
Definition rep (n : Z) s (ab : Z) l : Prop :=
  (exists k, 0 <= k <= 62 /\ _capacity s = 2 ^ k) /\ Z.of_nat (length (_buffer s)) = _capacity s /\
  1 <= _top s /\ _top s + Z.of_nat (length l) = ab /\ ab <= n + 1 /\ Z.of_nat (length l) <= _capacity s /\
  forall i x, l !! i = Some x -> read (_top s + Z.of_nat i) s = Some (Some x).
Definition sim (n : Z) (s : state) (d : deque) : Prop :=
  exists ab, rep n (q s) ab (items d) /\ orel (q s) ab (owner s) (a_owner d) /\
    Forall2 (trel (q s) ab) (thieves s) (a_thieves d).

Lemma rep_mono n n' s ab l : n <= n' -> rep n s ab l -> rep n' s ab l.
Proof. intros Hn (? & ? & ? & ? & ? & H). do 4 (split; [done|]). split; [lia|]. exact H. Qed.

Lemma rep_slot n s ab l i : rep n s ab l -> 0 <= i -> slot s i = Z.to_nat (i mod _capacity s).
Proof.
  intros ((k & Hk & Hc) & _) Hi. unfold slot. rewrite Hc. pose proof (Z.pow_pos_nonneg 2 k ltac:(lia) ltac:(lia)).
  pose proof (Z.pow_le_mono_r 2 k 62 ltac:(lia) ltac:(lia)). rewrite u64_small by lia.
  replace (2 ^ k - 1) with (Z.ones k) by (rewrite Z.ones_equiv; lia). by rewrite Z.land_ones by lia.
Qed.
Lemma rep_cap n s ab l : rep n s ab l -> 0 < _capacity s <= 2 ^ 62.
Proof.
  intros ((k & Hk & ->) & _). pose proof (Z.pow_pos_nonneg 2 k ltac:(lia) ltac:(lia)).
  pose proof (Z.pow_le_mono_r 2 k 62 ltac:(lia) ltac:(lia)). lia.
Qed.
Lemma mod_ne i j c : 0 <= i -> i < j < i + c -> i mod c <> j mod c.
Proof.
  intros Hi Hj Heq. pose proof (Z.div_mod i c ltac:(lia)). pose proof (Z.div_mod j c ltac:(lia)).
  assert (c * (j / c - i / c) = j - i) by lia. assert (0 < j / c - i / c) by nia. nia.
Qed.
(** Writing the slot of an index does not touch those less than a capacity below. *)
Lemma read_write_ne n s ab l i j v : rep n s ab l -> 0 <= i -> i < j < i + _capacity s ->
  read i (write j v s) = read i s.
Proof.
  intros Hr Hi Hj. unfold read. change (slot (write j v s) i) with (slot s i). cbn [write _buffer].
  apply list_lookup_insert_ne. rewrite (rep_slot n s ab l j Hr), (rep_slot n s ab l i Hr) by lia.
  pose proof (mod_ne i j (_capacity s) Hi Hj). pose proof (rep_cap n s ab l Hr).
  pose proof (Z.mod_pos_bound i (_capacity s)). pose proof (Z.mod_pos_bound j (_capacity s)). lia.
Qed.
Lemma slot_lt n s ab l i : rep n s ab l -> 0 <= i -> (slot s i < length (_buffer s))%nat.
Proof.
  intros Hr Hi. rewrite (rep_slot n s ab l i Hr Hi). pose proof (rep_cap n s ab l Hr).
  pose proof (Z.mod_pos_bound i (_capacity s)). destruct Hr as (_ & ? & _). lia.
Qed.
Lemma read_write_eq n s ab l i v : rep n s ab l -> 0 <= i -> read i (write i v s) = Some v.
Proof.
  intros Hr Hi. unfold read. change (slot (write i v s) i) with (slot s i). cbn [write _buffer].
  apply list_lookup_insert_eq. by eapply slot_lt.
Qed.
Lemma read_some n s ab l i : rep n s ab l -> 0 <= i -> exists v, read i s = Some v.
Proof. intros Hr Hi. apply lookup_lt_is_Some_2. by eapply slot_lt. Qed.

(** Thieves keep their knowledge when the top moves on, or when the item at the top
    stays. *)
Lemma trel_mono s s' ab ab' pc ph :
  _top s <= _top s' ->
  (_top s' = _top s -> 1 <= _top s < ab -> _top s < ab' /\ read (_top s) s' = read (_top s) s) ->
  trel s ab pc ph -> trel s' ab' pc ph.
Proof.
  intros Ht Hr. destruct pc as [| |t|t|t|t v]; simpl; try done.
  - intros [? ?]. split; [done|lia].
  - intros [? ?]. split; [done|lia].
  - intros (? & ? & Hs). split; [done|]. split; [lia|]. intros He.
    destruct Hr as [? _]; [lia| |lia]. specialize (Hs ltac:(lia)). lia.
  - intros (? & ? & Hs). split; [done|]. split; [lia|]. intros He.
    destruct (Hs ltac:(lia)) as [Hlt Hrd]. destruct Hr as [? Hrd']; [lia|lia|]. split; [lia|].
    assert (_top s = t) by lia. congruence.
Qed.
Lemma trels_mono s s' ab ab' pcs phs :
  _top s <= _top s' ->
  (_top s' = _top s -> 1 <= _top s < ab -> _top s < ab' /\ read (_top s) s' = read (_top s) s) ->
  Forall2 (trel s ab) pcs phs -> Forall2 (trel s' ab') pcs phs.
Proof. intros Ht Hr Hf. eapply Forall2_impl; [exact Hf|]. intros pc ph. by apply trel_mono. Qed.

Lemma asteps_one cap d1 a d2 : astep cap d1 a d2 -> asteps cap d1 a d2.
Proof. intros Hs. rewrite <- (app_nil_r a). eapply asteps_step; [done|constructor]. Qed.
Lemma asteps_two cap d1 a1 d2 a2 d3 : astep cap d1 a1 d2 -> astep cap d2 a2 d3 -> asteps cap d1 (a1 ++ a2) d3.
Proof. intros H1 H2. eapply asteps_step; [done|]. by apply asteps_one. Qed.
Lemma asteps_app cap d1 a1 d2 a2 d3 : asteps cap d1 a1 d2 -> asteps cap d2 a2 d3 -> asteps cap d1 (a1 ++ a2) d3.
Proof. induction 1 as [|d1 l1 d2 l2 d3' Hs Hss IH]; intros H2; [done|]. rewrite <- app_assoc. eapply asteps_step; [done|by apply IH]. Qed.

(** *** How the represented deque changes *)
Lemma rep_bottom n s ab l b : rep n s ab l -> rep n (set_bottom b s) ab l.
Proof. done. Qed.
Lemma rep_write n s ab l v : rep n s ab l -> ab < _top s + _capacity s -> rep n (write ab v s) ab l.
Proof.
  intros Hr Hlt. pose proof Hr as (H1 & H2 & H3 & H4 & H5 & H6 & H7). split; [done|].
  split; [cbn; by rewrite length_insert|]. do 4 (split; [done|]). intros i x Hx. apply lookup_lt_Some in Hx as Hi.
  cbn [write _top]. rewrite (read_write_ne n s ab l) by (done || lia). by apply H7.
Qed.
Lemma rep_push n s ab l x : rep n s ab l -> ab < _top s + _capacity s -> read ab s = Some (Some x) ->
  rep (n + 1) (set_bottom (ab + 1) s) (ab + 1) (l ++ [x]).
Proof.
  intros (H1 & H2 & H3 & H4 & H5 & H6 & H7) Hlt Hx. do 3 (split; [done|]). rewrite length_app. cbn [length set_bottom _top _capacity].
  split; [lia|]. split; [lia|]. split; [lia|]. intros i y Hy. change (read (_top s + Z.of_nat i) s = Some (Some y)).
  destruct (decide (i < length l)%nat) as [Hi|Hi].
  - rewrite lookup_app_l in Hy by done. by apply H7.
  - rewrite lookup_app_r in Hy by lia. destruct (i - length l)%nat eqn:E; [|done]. injection Hy as <-.
    by replace (_top s + Z.of_nat i) with ab by lia.
Qed.
Lemma rep_pop n s ab l x : rep n s ab (l ++ [x]) -> rep n s (ab - 1) l /\ read (ab - 1) s = Some (Some x).
Proof.
  intros (H1 & H2 & H3 & H4 & H5 & H6 & H7). rewrite length_app in H4, H6. cbn [length] in H4, H6. split.
  - do 3 (split; [done|]). split; [lia|]. split; [lia|]. split; [lia|]. intros i y Hy. apply H7. rewrite lookup_app_l; [done|].
    by eapply lookup_lt_Some.
  - replace (ab - 1) with (_top s + Z.of_nat (length l)) by lia. apply H7. by rewrite lookup_app_r, Nat.sub_diag by lia.
Qed.
Lemma rep_take n s ab l x : rep n s ab (x :: l) ->
  rep n (set_top (_top s + 1) s) ab l /\ read (_top s) s = Some (Some x).
Proof.
  intros (H1 & H2 & H3 & H4 & H5 & H6 & H7). cbn [length] in H4, H6. split.
  - do 2 (split; [done|]). cbn [set_top _top _capacity]. split; [lia|]. split; [lia|]. split; [lia|]. split; [lia|].
    intros i y Hy. specialize (H7 (S i) y Hy). change (read (_top s + 1 + Z.of_nat i) s = Some (Some y)). rewrite <- H7. f_equal. lia.
  - rewrite <- (Z.add_0_r (_top s)). by apply (H7 0%nat).
Qed.
Lemma rep_nonempty n s ab l : rep n s ab l -> _top s < ab -> exists x l', l = x :: l' /\ read (_top s) s = Some (Some x).
Proof. intros Hr Hlt. destruct l as [|x l]; [destruct Hr as (_ & _ & _ & ? & _); simpl in *; lia|]. exists x, l. split; [done|]. by apply (rep_take n s ab l x). Qed.

(** *** The owner's steps *)
Definition owner_simulated n s l pc ph pcs phs : Prop :=
  exists s' pc' r ab' l' ph', owner_step s pc = Some (s', pc', r) /\ _capacity s' = _capacity s /\
    asteps (_capacity s) (mkD l ph phs) (ret Owner r) (mkD l' ph' phs) /\
    rep (n + 1) s' ab' l' /\ orel s' ab' pc' ph' /\ Forall2 (trel s' ab') pcs phs.

(** A step that neither changes the queue nor takes effect. *)
Lemma owner_stutter n s ab l pc pc' ph pcs phs :
  rep n s ab l -> Forall2 (trel s ab) pcs phs -> owner_step s pc = Some (s, pc', None) -> orel s ab pc' ph ->
  owner_simulated n s l pc ph pcs phs.
Proof.
  intros Hr Ht Hs Ho. exists s, pc', None, ab, l, ph. split; [done|]. split; [done|]. split; [constructor|].
  split; [eapply rep_mono; [|done]; lia|done].
Qed.
(** A step that moves the bottom only, as the abstract call returns. *)
Lemma owner_restore n s ab l pc b r pcs phs :
  rep n s ab l -> Forall2 (trel s ab) pcs phs -> owner_step s pc = Some (set_bottom b s, OIdle, Some r) -> b = ab ->
  owner_simulated n s l pc (Done r) pcs phs.
Proof.
  intros Hr Ht Hs ->. exists (set_bottom ab s), OIdle, (Some r), ab, l, Idle. split; [done|]. split; [done|].
  split; [apply asteps_one; constructor|]. split; [eapply rep_mono; [|by apply rep_bottom]; lia|]. done.
Qed.

Lemma push_sim n s ab l pc ph pcs phs x b :
  n < 2 ^ 62 -> rep n s ab l -> orel s ab pc ph -> Forall2 (trel s ab) pcs phs ->
  pc ∈ [Push0 x; Push1 x b; Push2 x b; Push3 x b; Push4 x b] ->
  owner_simulated n s l pc ph pcs phs.
Proof.
  intros Hn Hr Ho Ht Hpc. pose proof (rep_cap n s ab l Hr) as Hc. pose proof Hr as (_ & _ & Htop & Hab & Hbn & Hle & _).
  rewrite !elem_of_cons in Hpc. destruct Hpc as [->|[->|[->|[->|[->|[]%elem_of_nil]]]]]; simpl in Ho.
  - eapply owner_stutter; [done|done|done|]. naive_solver.
  - destruct Ho as (-> & Hb & ->). destruct (Z.leb_spec (_top s + _capacity s) ab) as [Hfull|Hroom].
    + exists s, OIdle, (Some (Pushed false)), ab, l, Idle. cbn [owner_step]. rewrite u64_small, (proj2 (Z.leb_le _ _)) by lia.
      split; [done|]. split; [done|]. split; [apply (asteps_two _ _ [] (mkD l (Done (Pushed false)) phs)); constructor; lia|].
      split; [eapply rep_mono; [|done]; lia|done].
    + eapply owner_stutter with (pc' := Push2 x ab); [done|done| |done]. cbn [owner_step].
      by rewrite u64_small, (proj2 (Z.leb_gt _ _)) by lia.
  - destruct Ho as (-> & Hb & -> & Hlt). exists (write ab None s), (Push3 x ab), None, ab, l, (Called (OpPush x)).
    split; [done|]. split; [done|]. split; [constructor|]. split; [eapply rep_mono; [|by apply rep_write]; lia|]. split; [done|].
    eapply trels_mono; [| |exact Ht]; [done|]. intros _ ?. split; [lia|]. apply (read_write_ne n s ab l); [done|lia|lia].
  - destruct Ho as (-> & Hb & -> & Hlt). exists (write ab (Some x) s), (Push4 x ab), None, ab, l, (Called (OpPush x)).
    split; [done|]. split; [done|]. split; [constructor|]. split; [eapply rep_mono; [|by apply rep_write]; lia|].
    split; [repeat (split; [done|]); apply (read_write_eq n s ab l); [done|lia]|].
    eapply trels_mono; [| |exact Ht]; [done|]. intros _ ?. split; [lia|]. apply (read_write_ne n s ab l); [done|lia|lia].
  - destruct Ho as (-> & Hb & -> & Hlt & Hx). exists (set_bottom (ab + 1) s), OIdle, (Some (Pushed true)), (ab + 1), (l ++ [x]), Idle.
    cbn [owner_step]. rewrite u64_small by lia. split; [done|]. split; [done|].
    split; [apply (asteps_two _ _ [] (mkD (l ++ [x]) (Done (Pushed true)) phs)); constructor; lia|].
    split; [by apply rep_push|]. split; [done|]. eapply trels_mono; [| |exact Ht]; [done|]. intros _ ?. split; [lia|done].
Qed.

(** The second load of [_top] in [pop]: more than one item is left and the last is
    taken for good, or one is left, or none. *)
Lemma pop3_sim n s ab l ph pcs phs b :
  n < 2 ^ 62 -> rep n s ab l -> orel s ab (Pop3 b) ph -> Forall2 (trel s ab) pcs phs ->
  owner_simulated n s l (Pop3 b) ph pcs phs.
Proof.
  intros Hn Hr (-> & Hb & -> & Hb1) Ht. pose proof Hr as (_ & _ & Htop & Hab & Hbn & Hle & _).
  assert (Hstep : owner_step s (Pop3 ab) = if ab - 1 <? _top s then Some (s, Pop4 ab, None) else Some (s, Pop5 ab (_top s), None))
    by (cbn [owner_step]; by rewrite u64_small by lia).
  destruct (Z.ltb_spec (ab - 1) (_top s)) as [Hlt|Hge].
  - destruct l; [|simpl in Hab; lia]. exists s, (Pop4 ab), None, ab, [], (Done Nothing).
    split; [done|]. split; [done|]. split; [apply asteps_one; constructor|]. split; [eapply rep_mono; [|done]; lia|done].
  - destruct (Z.eq_dec (_top s) (ab - 1)) as [He|Hne].
    + eapply owner_stutter; [done|done|exact Hstep|]. split; [done|]. split; [done|]. split; [lia|]. by right.
    + destruct l as [|y l] using rev_ind; [simpl in Hab; lia|]. clear IHl. destruct (rep_pop n s ab l y Hr) as [Hr' Hy].
      exists s, (Pop5 ab (_top s)), None, (ab - 1), l, (Done (Taken (Some y))).
      split; [done|]. split; [done|]. split; [apply asteps_one; constructor|]. split; [eapply rep_mono; [|done]; lia|].
      split; [|eapply trels_mono; [| |exact Ht]; [done|]; intros _ ?; split; [lia|done]].
      split; [done|]. split; [done|]. split; [lia|]. left. split; [lia|]. split; [done|]. by exists y.
Qed.
(** The competition with the thieves for the last item. *)
Lemma pop6_sim n s ab l ph pcs phs b t v :
  n < 2 ^ 62 -> rep n s ab l -> orel s ab (Pop6 b t v) ph -> Forall2 (trel s ab) pcs phs ->
  owner_simulated n s l (Pop6 b t v) ph pcs phs.
Proof.
  intros Hn Hr (Hb & Hb1 & -> & -> & -> & Htt & Hv) Ht. pose proof Hr as (_ & _ & Htop & Hab & Hbn & Hle & _).
  unfold owner_simulated. cbn [owner_step]. destruct (Z.eqb_spec (_top s) (b - 1)) as [He|Hne].
  - destruct l as [|x [|y l]]; [simpl in Hab; lia| |simpl in Hab; lia]. destruct (rep_take n s b [] x Hr) as [Hr' Hx].
    specialize (Hv He). rewrite <- He, Hx in Hv. injection Hv as <-.
    exists (set_top (_top s + 1) s), (Pop7 b true (Some x)), None, b, [], (Done (Taken (Some x))).
    rewrite u64_small, <- He by lia. split; [done|]. split; [done|]. split; [apply asteps_one, (a_pop _ x [])|].
    split; [eapply rep_mono; [|done]; lia|]. split; [done|].
    eapply trels_mono; [| |exact Ht]; cbn [set_top _top]; lia.
  - destruct l; [|simpl in Hab; lia]. exists s, (Pop7 b false v), None, b, [], (Done Nothing).
    split; [done|]. split; [done|]. split; [apply asteps_one; constructor|]. split; [eapply rep_mono; [|done]; lia|done].
Qed.

Lemma pop_sim n s ab l pc ph pcs phs b t p v :
  n < 2 ^ 62 -> rep n s ab l -> orel s ab pc ph -> Forall2 (trel s ab) pcs phs ->
  pc ∈ [Pop0; Pop1 b; Pop2 b; Pop3 b; Pop4 b; Pop5 b t; Pop6 b t v; Pop7 b p v] ->
  owner_simulated n s l pc ph pcs phs.
Proof.
  intros Hn Hr Ho Ht Hpc. pose proof Hr as (_ & _ & Htop & Hab & Hbn & Hle & _). rewrite !elem_of_cons in Hpc.
  destruct Hpc as [->|[->|[->|[->|[->|[->|[->|[->|[]%elem_of_nil]]]]]]]]; simpl in Ho.
  - eapply owner_stutter; [done|done|done|]. naive_solver.
  - destruct Ho as (-> & Hb & ->). destruct (Z.leb_spec ab (_top s)) as [Hle'|Hgt].
    + destruct l; [|simpl in Hab; lia]. exists s, OIdle, (Some Nothing), ab, [], Idle.
      cbn [owner_step]. rewrite (proj2 (Z.leb_le _ _)) by lia. split; [done|]. split; [done|].
      split; [apply (asteps_two _ _ [] (mkD [] (Done Nothing) phs)); constructor|]. split; [eapply rep_mono; [|done]; lia|done].
    + eapply owner_stutter with (pc' := Pop2 ab); [done|done| |].
      * cbn [owner_step]. by rewrite (proj2 (Z.leb_gt _ _)) by lia.
      * split; [done|]. split; [done|]. split; [done|lia].
  - destruct Ho as (-> & Hb & -> & Hb1). exists (set_bottom (ab - 1) s), (Pop3 ab), None, ab, l, (Called OpPop).
    cbn [owner_step]. rewrite u64_small by lia. split; [done|]. split; [done|]. split; [constructor|].
    split; [eapply rep_mono; [|by apply rep_bottom]; lia|]. done.
  - by eapply pop3_sim.
  - destruct Ho as (-> & Hb & ->). by eapply owner_restore.
  - destruct Ho as (Hb & Hb1 & Htt & [(Hlt & -> & x & -> & Hx)|(-> & -> & ->)]).
    + exists s, OIdle, (Some (Taken (Some x))), (b - 1), l, Idle. cbn [owner_step]. rewrite u64_small, Hx by lia. simpl.
      rewrite (proj2 (Z.eqb_neq _ _)) by lia. split; [done|]. split; [done|]. split; [apply asteps_one; constructor|].
      split; [eapply rep_mono; [|done]; lia|done].
    + destruct (read_some n s b l (b - 1) Hr) as [v' Hv]; [lia|]. eapply owner_stutter with (pc' := Pop6 b (b - 1) v'); [done|done| |].
      * cbn [owner_step]. rewrite u64_small, Hv by lia. simpl. by rewrite Z.eqb_refl.
      * repeat (split; [done|]). done.
  - by eapply pop6_sim.
  - destruct Ho as (Hb & -> & ->). by eapply owner_restore.
Qed.
Lemma owner_sim n s ab l pc ph pcs phs :
  n < 2 ^ 62 -> rep n s ab l -> orel s ab pc ph -> Forall2 (trel s ab) pcs phs -> pc <> OIdle ->
  owner_simulated n s l pc ph pcs phs.
Proof.
  intros Hn Hr Ho Ht Hpc. destruct pc as [|x|x b|x b|x b|x b| |b|b|b|b|b t|b t v|b p v]; [done|..].
  1: eapply (push_sim n s ab l _ ph pcs phs x 0); try done; set_solver.
  1-4: eapply (push_sim n s ab l _ ph pcs phs x b); try done; set_solver.
  1: eapply (pop_sim n s ab l _ ph pcs phs 0 0 true None); try done; set_solver.
  1-4: eapply (pop_sim n s ab l _ ph pcs phs b 0 true None); try done; set_solver.
  1: eapply (pop_sim n s ab l _ ph pcs phs b t true None); try done; set_solver.
  1: eapply (pop_sim n s ab l _ ph pcs phs b t true v); try done; set_solver.
  1: eapply (pop_sim n s ab l _ ph pcs phs b 0 p v); try done; set_solver.
Qed.

(** *** The thieves' steps *)
Lemma orel_bottom s ab o ph : orel s ab o ph -> ab - 1 <= _bottom s <= ab.
Proof. destruct o; simpl; intros; destruct_and?; lia. Qed.
Lemma orel_take s ab o ph : orel s ab o ph -> orel (set_top (_top s + 1) s) ab o ph.
Proof.
  destruct o; cbn [orel set_top _top _bottom _capacity]; intros; destruct_and?; split_and?; try done; try lia.
Qed.

Definition thief_simulated n s ab l o ph0 pcs phs i pc : Prop :=
  exists s' pc' r l' phs', thief_step s pc = Some (s', pc', r) /\ _capacity s' = _capacity s /\
    asteps (_capacity s) (mkD l ph0 phs) (ret (Thief i) r) (mkD l' ph0 phs') /\
    rep (n + 1) s' ab l' /\ orel s' ab o ph0 /\ Forall2 (trel s' ab) (<[i := pc']> pcs) phs'.

Section ThiefSim.
Context (n : Z) s (ab : Z) l (o : owner_pc) (ph0 : phase) (pcs : list thief_pc) (phs : list phase) (i : nat).
Context (Hn : n < 2 ^ 62) (Hr : rep n s ab l) (Ho : orel s ab o ph0) (Ht : Forall2 (trel s ab) pcs phs).

Lemma thief_stutter pc pc' : phs !! i = Some (Called OpSteal) ->
  thief_step s pc = Some (s, pc', None) -> trel s ab pc' (Called OpSteal) -> thief_simulated n s ab l o ph0 pcs phs i pc.
Proof.
  intros Hph Hs Hpc'. exists s, pc', None, l, phs. split; [done|]. split; [done|]. split; [constructor|].
  split; [eapply rep_mono; [|done]; lia|]. split; [done|].
  rewrite <- (list_insert_id phs i (Called OpSteal)) by done. by apply Forall2_insert.
Qed.
(** A thief that sees no item below the bottom goes home. *)
Lemma thief_nothing pc t : phs !! i = Some (Called OpSteal) -> t <= _top s -> _bottom s <= t ->
  thief_step s pc = Some (s, TIdle, Some Nothing) -> thief_simulated n s ab l o ph0 pcs phs i pc.
Proof.
  intros Hph Htt Hb Hs. exists s, TIdle, (Some Nothing), l, (<[i := Idle]> (<[i := Done Nothing]> phs)).
  split; [done|]. split; [done|]. pose proof (orel_bottom s ab o ph0 Ho). pose proof Hr as (_ & _ & _ & Hab & _). split.
  { eapply (asteps_two _ _ []); [apply (a_steal_nothing _ i l); [done|lia]|]. apply a_ret_thief.
    apply list_lookup_insert_eq. by eapply lookup_lt_Some. }
  split; [eapply rep_mono; [|done]; lia|]. split; [done|]. rewrite list_insert_insert_eq. by apply Forall2_insert.
Qed.
Lemma thief_takes t v : phs !! i = Some (Called OpSteal) -> _top s = t -> t < ab -> read t s = Some v ->
  thief_simulated n s ab l o ph0 pcs phs i (Steal4 t v).
Proof.
  intros Hph <- Hlt Hv. destruct (rep_nonempty n s ab l Hr Hlt) as (x & l' & -> & Hx).
  rewrite Hx in Hv. injection Hv as <-. destruct (rep_take n s ab l' x Hr) as [Hr' _].
  exists (set_top (_top s + 1) s), TIdle, (Some (Taken (Some x))), l', (<[i := Idle]> (<[i := Done (Taken (Some x))]> phs)).
  pose proof Hr as (_ & _ & ? & _ & ? & _). cbn [thief_step]. rewrite Z.eqb_refl, u64_small by lia.
  split; [done|]. split; [done|]. split.
  { eapply (asteps_two _ _ []); [by apply (a_steal _ i x)|]. apply a_ret_thief.
    apply list_lookup_insert_eq. by eapply lookup_lt_Some. }
  split; [eapply rep_mono; [|done]; lia|]. split; [by apply orel_take|]. rewrite list_insert_insert_eq. apply Forall2_insert; [|done].
  eapply trels_mono; [| |exact Ht]; cbn [set_top _top]; lia.
Qed.
Lemma thief_sim pc : pcs !! i = Some pc -> pc <> TIdle -> thief_simulated n s ab l o ph0 pcs phs i pc.
Proof.
  intros Hpc Hne. destruct (Forall2_lookup_l _ _ _ _ _ Ht Hpc) as (ph & Hph & Hrel).
  pose proof (orel_bottom s ab o ph0 Ho). pose proof Hr as (_ & _ & Htop & Hab & _).
  destruct pc as [| |t|t|t|t v]; [done|..]; simpl in Hrel.
  - subst ph. eapply thief_stutter; [done|done|]. simpl. split; [done|lia].
  - destruct Hrel as (-> & Ht1). destruct (Z.leb_spec (_bottom s) t).
    + eapply thief_nothing; [done|apply Ht1|done|]. simpl. by rewrite (proj2 (Z.leb_le _ _)).
    + eapply thief_stutter; [done|simpl; by rewrite (proj2 (Z.leb_gt _ _))|done].
  - destruct Hrel as (-> & Ht1). destruct (Z.leb_spec (_bottom s) t).
    + eapply thief_nothing; [done|apply Ht1|done|]. simpl. by rewrite (proj2 (Z.leb_le _ _)).
    + eapply thief_stutter; [done|simpl; by rewrite (proj2 (Z.leb_gt _ _))|]. simpl. split; [done|]. lia.
  - destruct Hrel as (-> & Ht1 & Hlt). destruct (read_some n s ab l t Hr) as [v Hv]; [lia|].
    eapply thief_stutter; [done|simpl; by rewrite Hv|]. simpl. split; [done|]. split; [done|]. intros He. split; [by apply Hlt|done].
  - destruct Hrel as (-> & Ht1 & Hv). destruct (Z.eqb_spec (_top s) t) as [He|Hne'].
    + destruct (Hv He) as [Hlt Hrd]. by apply thief_takes.
    + eapply thief_stutter; [done|simpl; by rewrite (proj2 (Z.eqb_neq _ _))|]. simpl. split; [done|lia].
Qed.
End ThiefSim.

(** *** Every step of every schedule *)
Lemma classic_idle (o : owner_pc) : o = OIdle \/ o <> OIdle.
Proof. destruct o; (by left) || by right. Qed.
Lemma classic_tidle (o : thief_pc) : o = TIdle \/ o <> TIdle.
Proof. destruct o; (by left) || by right. Qed.
Lemma step_sim n (s : state) d c : n < 2 ^ 62 -> sim n s d ->
  exists (s' : state) a d', step c s = Some (s', a) /\ _capacity (q s') = _capacity (q s) /\
    asteps (_capacity (q s)) d a d' /\ sim (n + 1) s' d'.
Proof.
  intros Hn (ab & Hr & Ho & Ht). destruct s as [s o ts], d as [l ph phs]. cbn [q owner thieves items a_owner a_thieves] in *.
  assert (Hstay : exists (s' : state) a d', Some (mkS s o ts, []) = Some (s', a) /\ _capacity (q s') = _capacity s /\
    asteps (_capacity s) (mkD l ph phs) a d' /\ sim (n + 1) s' d').
  { eexists _, _, (mkD l ph phs). split; [done|]. split; [done|]. split; [constructor|]. exists ab. split; [|done].
    eapply rep_mono; [|done]; lia. }
  assert (Hr' : rep (n + 1) s ab l) by (eapply rep_mono; [|done]; lia).
  destruct c as [[|i] op0|[|i]]; cbn [step q owner thieves].
  - destruct op0 as [x| |]; [| |done]; (destruct o; try done); destruct Ho as [-> Hb].
    + eexists _, _, (mkD l (Called (OpPush x)) phs). split; [done|]. split; [done|]. split; [apply asteps_one; constructor|]. by exists ab.
    + eexists _, _, (mkD l (Called OpPop) phs). split; [done|]. split; [done|]. split; [apply asteps_one; constructor|]. by exists ab.
  - destruct op0 as [x| |]; [done|done|]. destruct (ts !! i) as [[| | | | |]|] eqn:E; try done.
    destruct (Forall2_lookup_l _ _ _ _ _ Ht E) as (ph' & Hph & ->).
    eexists _, _, (mkD l ph (<[i := Called OpSteal]> phs)). split; [done|]. split; [done|].
    split; [apply asteps_one; by constructor|]. exists ab. split; [done|]. split; [done|]. by apply Forall2_insert.
  - destruct (classic_idle o) as [->|Hne]; [done|].
    destruct (owner_sim n s ab l o ph ts phs Hn Hr Ho Ht Hne) as (s' & pc' & r & ab' & l' & ph' & Heq & Hc & Ha & Hrep & Horel & Htr).
    exists (mkS s' pc' ts), (ret Owner r), (mkD l' ph' phs). split; [|split; [done|]; split; [done|]; by exists ab'].
    by destruct o; rewrite ?Heq.
  - destruct (ts !! i) as [pc|] eqn:E; [|done]. destruct (classic_tidle pc) as [->|Hne]; [done|].
    destruct (thief_sim n s ab l o ph ts phs i Hn Hr Ho Ht pc E Hne) as (s' & pc' & r & l' & phs' & Heq & Hc & Ha & Hrep & Horel & Htr).
    exists (mkS s' o (<[i := pc']> ts)), (ret (Thief i) r), (mkD l' ph phs'). split; [|split; [done|]; split; [done|]; by exists ab].
    by destruct pc; rewrite ?Heq.
Qed.
Lemma run_sim cs : forall n (s : state) d, n + Z.of_nat (length cs) < 2 ^ 62 -> sim n s d ->
  exists (s' : state) a d', run cs s = Some (s', a) /\ asteps (_capacity (q s)) d a d' /\ sim (n + Z.of_nat (length cs)) s' d'.
Proof.
  induction cs as [|c cs IH]; intros n s d Hn Hs.
  - exists s, [], d. split; [done|]. split; [constructor|]. simpl. by rewrite Z.add_0_r.
  - cbn [length] in *. destruct (step_sim n s d c) as (s1 & a1 & d1 & Heq1 & Hc & Ha1 & Hs1); [lia|done|].
    destruct (IH (n + 1) s1 d1) as (s2 & a2 & d2 & Heq2 & Ha2 & Hs2); [lia|done|].
    exists s2, (a1 ++ a2), d2. cbn [run]. rewrite Heq1. simpl. rewrite Heq2. split; [done|].
    split; [rewrite Hc in Ha2; by eapply asteps_app|]. by replace (n + Z.of_nat (S (length cs))) with (n + 1 + Z.of_nat (length cs)) by lia.
Qed.

Lemma start_spec k m : 0 <= k <= 62 -> _capacity (q (start (2 ^ k) m)) = 2 ^ k /\ sim 0 (start (2 ^ k) m) (a_start m).
Proof.
  intros Hk. pose proof (Z.pow_pos_nonneg 2 k ltac:(lia) ltac:(lia)). pose proof (Z.pow_le_mono_r 2 k 62 ltac:(lia) ltac:(lia)).
  assert (Hinit : (init true (2 ^ k) new).2 = mkQ 1 (2 ^ k) (replicate (Z.to_nat (2 ^ k)) None) 1).
  { unfold init. cbn [_capacity new negb Z.eqb]. rewrite (proj2 (Z.eqb_neq _ _)) by lia. rewrite u64_small by lia.
    replace (2 ^ k - 1) with (Z.ones k) by (rewrite Z.ones_equiv; lia).
    by rewrite Z.land_ones, Z.mod_same by lia. }
  unfold start. rewrite Hinit. split; [done|]. exists 1. cbn [q owner thieves a_start items a_owner a_thieves]. split.
  - split; [by exists k|]. cbn [_buffer _capacity _top length]. rewrite length_replicate. split; [lia|]. split; [lia|].
    split; [done|]. split; [lia|]. split; [lia|]. done.
  - split; [done|]. by apply Forall2_replicate.
Qed.

(** C3: the work-stealing queue is linearizable: under every interleaving of the owner's
    pushes and pops with the steps of any number of thieves, calls and returns are those
    of a bounded deque on which every call takes effect at one instant - push appends
    unless it is full, pop takes the last item unless it is empty, steal takes the first -
    except that steal may come back with nothing when at most one item is left.  No
    schedule reads outside the array or returns an indeterminate slot. *)
Theorem wsq_linearizable k m cs :
  0 <= k <= 62 -> Z.of_nat (length cs) < 2 ^ 62 ->
  exists (s' : state) a d', run cs (start (2 ^ k) m) = Some (s', a) /\ asteps (2 ^ k) (a_start m) a d' /\
    sim (Z.of_nat (length cs)) s' d'.
Proof.
  intros Hk Hcs. destruct (start_spec k m Hk) as [Hc Hs].
  destruct (run_sim cs 0 (start (2 ^ k) m) (a_start m)) as (s' & a & d' & Heq & Ha & Hs'); [lia|done|].
  rewrite Hc in Ha. by exists s', a, d'.
Qed.


(** ** Nothing is lost or taken twice

    The items of the pushes that returned true and of the calls that returned an
    item, in the order of the returns; [p] is the argument of the push under way. *)
Fixpoint pushed (p : option T) (a : list act) : list T :=
  match a with
  | [] => []
  | Call Owner (OpPush x) :: a => pushed (Some x) a
  | Ret Owner (Pushed true) :: a => option_list p ++ pushed None a
  | _ :: a => pushed p a
  end.
Definition taken1 (e : act) : list T := match e with Ret _ (Taken (Some x)) => [x] | _ => [] end.
Definition taken (a : list act) : list T := a ≫= taken1.
(** The slots between top and bottom. *)
Definition contents (s : queue) : list (option (option T)) :=
  map (fun i => read (_top s + Z.of_nat i) s) (seq 0 (Z.to_nat (_bottom s - _top s))).

(** What calls that have taken effect but not returned hold. *)
Definition held (ph : phase) : list T := match ph with Done (Taken (Some x)) => [x] | _ => [] end.
Definition last_push (p : option T) (ph : phase) : Prop :=
  match ph with Called (OpPush x) => p = Some x | Done (Pushed true) => is_Some p | _ => True end.
Definition unreturned (p : option T) (ph : phase) : list T :=
  match ph with Done (Pushed true) => option_list p | _ => [] end.
Definition next_push (p : option T) (a : list act) : option T :=
  fold_left (fun p e => match e with Call Owner (OpPush x) => Some x | Ret Owner (Pushed true) => None | _ => p end) a p.

Lemma pushed_app p a1 a2 : pushed p (a1 ++ a2) = pushed p a1 ++ pushed (next_push p a1) a2.
Proof.
  revert p. induction a1 as [|e a1 IH]; intros p; [done|]. cbn [app pushed next_push fold_left].
  destruct e as [[|i] [x| |]|[|i] [[|]|v|]]; rewrite ?IH; try done. by rewrite <- app_assoc.
Qed.
Lemma held_insert phs i ph ph' : phs !! i = Some ph ->
  (phs ≫= held) ++ held ph' ≡ₚ (<[i := ph']> phs ≫= held) ++ held ph.
Proof.
  intros Hi. rewrite (insert_take_drop phs i ph') by (by eapply lookup_lt_Some).
  rewrite <- (take_drop_middle phs i ph Hi) at 1. rewrite !bind_app. cbn [mbind list_bind].
  fold (mbind (M := list) held). solve_Permutation.
Qed.
Definition whole (d : deque) : list T := held (a_owner d) ++ (a_thieves d ≫= held) ++ items d.

Lemma astep_conserves cap d a d' p : astep cap d a d' -> last_push p (a_owner d) ->
  last_push (next_push p a) (a_owner d') /\
  pushed p a ++ unreturned (next_push p a) (a_owner d') ++ whole d ≡ₚ unreturned p (a_owner d) ++ taken a ++ whole d'.
Proof.
  intros Hs. destruct Hs as [x l ts|l ts|x l ts Hl|x l ts Hl|x l ts|ts|r l ts|i l o ts Hi|i x l o ts Hi|i l o ts Hi Hl|i r l o ts Hi];
    intros Hp; unfold whole, taken; cbn [items a_owner a_thieves]; cbn -[mbind] in *.
  1-3: split; [done || by subst p|]; subst; cbn -[mbind]; solve_Permutation.
  1-3: split; [done|]; solve_Permutation.
  - destruct r as [[|]|[x|]|]; cbn -[mbind] in *; (split; [done|]); rewrite ?app_nil_r; solve_Permutation.
  - split; [done|]. pose proof (held_insert ts i _ (Called OpSteal) Hi) as Hh. cbn -[mbind] in Hh. rewrite !app_nil_r in Hh. by rewrite Hh.
  - split; [done|]. pose proof (held_insert ts i _ (Done (Taken (Some x))) Hi) as Hh. cbn -[mbind] in Hh. rewrite app_nil_r in Hh.
    rewrite <- Hh. solve_Permutation.
  - split; [done|]. pose proof (held_insert ts i _ (Done Nothing) Hi) as Hh. cbn -[mbind] in Hh. rewrite !app_nil_r in Hh. by rewrite Hh.
  - split; [done|]. pose proof (held_insert ts i _ Idle Hi) as Hh. cbn -[mbind] in Hh. rewrite app_nil_r in Hh. rewrite Hh.
    destruct r as [[|]|[x|]|]; cbn -[mbind]; solve_Permutation.
Qed.
Lemma balance_trans (p1 p2 u1 u2 u3 w1 w2 w3 t1 t2 : list T) :
  p1 ++ u2 ++ w1 ≡ₚ u1 ++ t1 ++ w2 -> p2 ++ u3 ++ w2 ≡ₚ u2 ++ t2 ++ w3 ->
  (p1 ++ p2) ++ u3 ++ w1 ≡ₚ u1 ++ (t1 ++ t2) ++ w3.
Proof.
  intros H1 H2. apply (Permutation_app_inv_l (u2 ++ w2)).
  transitivity ((p1 ++ u2 ++ w1) ++ (p2 ++ u3 ++ w2)); [solve_Permutation|]. rewrite H1, H2. solve_Permutation.
Qed.
Lemma asteps_conserve cap d a d' : asteps cap d a d' -> forall p, last_push p (a_owner d) ->
  last_push (next_push p a) (a_owner d') /\
  pushed p a ++ unreturned (next_push p a) (a_owner d') ++ whole d ≡ₚ unreturned p (a_owner d) ++ taken a ++ whole d'.
Proof.
  induction 1 as [d|d1 a1 d2 a2 d3 Hs Hss IH]; intros p Hp; [done|].
  destruct (astep_conserves cap d1 a1 d2 p Hs Hp) as [Hp1 H1]. destruct (IH _ Hp1) as [Hp2 H2].
  assert (Hn : next_push p (a1 ++ a2) = next_push (next_push p a1) a2) by (unfold next_push; by rewrite fold_left_app).
  rewrite Hn, pushed_app. split; [done|]. unfold taken in *. rewrite bind_app. by eapply balance_trans.
Qed.

Definition quiescent (s : state) : Prop := owner s = OIdle /\ Forall (eq TIdle) (thieves s).
Lemma idle_held s ab pcs phs : Forall2 (trel s ab) pcs phs -> Forall (eq TIdle) pcs -> phs ≫= held = [].
Proof.
  induction 1 as [|pc ph pcs phs Hr Hf IH]; [done|]. intros [<- Hi]%Forall_cons. simpl in Hr. subst ph. simpl. by apply IH.
Qed.
Lemma rep_contents n s ab l : rep n s ab l -> _bottom s = ab -> contents s = (fun x => Some (Some x)) <$> l.
Proof.
  intros (_ & _ & _ & Hab & _ & _ & Hl) Hb. unfold contents. rewrite Hb. apply list_eq. intros i.
  rewrite list_lookup_fmap. change (map ?f ?m) with (f <$> m). rewrite list_lookup_fmap.
  destruct (l !! i) as [x|] eqn:E.
  - apply lookup_lt_Some in E as Hlt. rewrite lookup_seq_lt by lia. simpl. by rewrite (Hl i x E).
  - apply lookup_ge_None in E. by rewrite lookup_seq_ge by lia.
Qed.

(** C19: No item is lost, invented or handed out twice: whatever the interleaving, of fewer
    than 2^62 steps on a queue of capacity 2^0 to 2^62, once no call is under way the items
    pushed are, as a multiset, those returned by pops and steals together with those still
    between top and bottom. *)
Theorem wsq_conserves_items k m cs (s : state) a :
  0 <= k <= 62 -> Z.of_nat (length cs) < 2 ^ 62 -> run cs (start (2 ^ k) m) = Some (s, a) -> quiescent s ->
  exists l, contents (q s) = (fun x => Some (Some x)) <$> l /\ pushed None a ≡ₚ taken a ++ l.
Proof.
  intros Hk Hcs Hrun [Ho Ht]. destruct (start_spec k m Hk) as [Hc Hs].
  destruct (run_sim cs 0 (start (2 ^ k) m) (a_start m)) as (s' & a' & d & Heq & Ha & ab & Hr & Horel & Htr); [lia|done|].
  rewrite Hrun in Heq. injection Heq as <- <-. rewrite Ho in Horel. destruct Horel as [Hph Hb].
  destruct (asteps_conserve _ _ _ _ Ha None) as [_ Hp]; [done|].
  exists (items d). split; [by eapply rep_contents|].
  unfold whole in Hp. rewrite Hph, (idle_held _ _ _ _ Htr Ht) in Hp. cbn -[mbind] in Hp.
  assert (Hstart : replicate m Idle ≫= held = []) by (clear; induction m; simpl; done).
  rewrite Hstart in Hp. simpl in Hp. by rewrite app_nil_r in Hp.
Qed.

(** ** Every call ends

    The number of steps the owner needs at most from each program counter. *)
Definition owner_rank (pc : owner_pc) : nat :=
  match pc with
  | OIdle => 0 | Push0 _ => 5 | Push1 _ _ => 4 | Push2 _ _ => 3 | Push3 _ _ => 2 | Push4 _ _ => 1
  | Pop0 => 7 | Pop1 _ => 6 | Pop2 _ => 5 | Pop3 _ => 4 | Pop4 _ => 1 | Pop5 _ _ => 3 | Pop6 _ _ _ => 2 | Pop7 _ _ _ => 1
  end.
(** A thief may have to go round once more for every move of the top by somebody else. *)
Definition late (s : queue) (t : Z) : Z := if t =? _top s then 0 else 3.
Definition thief_rank (s : queue) (pc : thief_pc) : Z :=
  match pc with
  | TIdle => 0 | Steal0 => 5 | Steal1 t => 4 + late s t | Steal2 t => 3 + late s t | Steal3 t => 2 + late s t
  | Steal4 t _ => 1 + late s t
  end.
Definition tid_eqb (t1 t2 : tid) : bool :=
  match t1, t2 with Owner, Owner => true | Thief i, Thief j => Nat.eqb i j | _, _ => false end.
Definition steps_of (t : tid) (cs : list choice) : nat :=
  length (List.filter (fun c => match c with SStep t' => tid_eqb t' t | _ => false end) cs).
Definition returns (t : tid) (a : list act) : bool :=
  existsb (fun e => match e with Ret t' _ => tid_eqb t' t | _ => false end) a.

Lemma owner_step_rank s pc s' pc' r : owner_step s pc = Some (s', pc', r) ->
  (r = None /\ S (owner_rank pc') <= owner_rank pc)%nat \/ is_Some r.
Proof.
  destruct pc; simpl; intros Heq; simplify_option_eq; repeat case_match; simplify_eq; simpl; (by right) || (left; split; [done|lia]).
Qed.
Lemma steps_of_cons t c cs : steps_of t (c :: cs) = (steps_of t [c] + steps_of t cs)%nat.
Proof. unfold steps_of. change (c :: cs) with ([c] ++ cs). by rewrite List.filter_app, length_app. Qed.
Lemma returns_app t a1 a2 : returns t (a1 ++ a2) = returns t a1 || returns t a2.
Proof. apply existsb_app. Qed.

Lemma step_owner_eq (s : state) : owner s <> OIdle -> step (SStep Owner) s =
  owner_step (q s) (owner s) ≫= (fun '(q', pc', r) => Some (mkS q' pc' (thieves s), ret Owner r)).
Proof. simpl. by destruct (owner s). Qed.
Lemma step_thief_eq (s : state) i pc : thieves s !! i = Some pc -> pc <> TIdle -> step (SStep (Thief i)) s =
  thief_step (q s) pc ≫= (fun '(q', pc', r) => Some (mkS q' (owner s) (<[i := pc']> (thieves s)), ret (Thief i) r)).
Proof. cbn -[thief_step]. intros ->. by destruct pc. Qed.

Lemma owner_progress c (s s1 : state) a : step c s = Some (s1, a) -> owner s <> OIdle -> returns Owner a = false ->
  owner s1 <> OIdle /\ (owner_rank (owner s1) + steps_of Owner [c] <= owner_rank (owner s))%nat.
Proof.
  intros Hs Hne Hret. destruct c as [[|i] o|[|i]]; cbn -[owner_step thief_step owner_rank] in Hs |- *.
  - destruct o, (owner s) eqn:E; simplify_eq; rewrite ?E; split; done || (simpl; lia).
  - destruct o; simplify_eq; try (split; [done|lia]). destruct (thieves s !! i) as [[]|]; simplify_eq; split; done || (simpl in *; lia).
  - assert (Hst : owner_step (q s) (owner s) ≫= (fun '(q', pc', r) => Some (mkS q' pc' (thieves s), ret Owner r)) = Some (s1, a))
      by (by destruct (owner s)).
    destruct (owner_step (q s) (owner s)) as [[[q' pc'] r]|] eqn:E; simplify_eq/=.
    destruct (owner_step_rank _ _ _ _ _ E) as [[-> Hrk]|[r' ->]]; [|done]. split; [|lia].
    destruct pc'; try done. exfalso. destruct (owner s); simpl in E; simplify_option_eq; repeat case_match; simplify_eq.
  - destruct (thieves s !! i) as [pc|] eqn:E; [|by simplify_eq; split; [done|simpl; lia]].
    destruct pc; [by simplify_eq; split; [done|simpl; lia]|..]; destruct (thief_step (q s) _) as [[[q' pc'] r]|]; simplify_eq/=; split; done || lia.
Qed.
Lemma owner_bounded cs : forall (s s' : state) a, run cs s = Some (s', a) -> owner s <> OIdle -> returns Owner a = false ->
  (owner_rank (owner s') + steps_of Owner cs <= owner_rank (owner s))%nat /\ owner s' <> OIdle.
Proof.
  induction cs as [|c cs IH]; intros s s' a Hrun Hne Hret; cbn [run] in Hrun; [simplify_eq; split; [change (steps_of Owner []) with 0%nat; lia|done]|].
  destruct (step c s) as [[s1 a1]|] eqn:E1; [|done]. simpl in Hrun. destruct (run cs s1) as [[s2 a2]|] eqn:E2; [|done]. simplify_eq/=.
  rewrite returns_app in Hret. apply orb_false_elim in Hret as [Hr1 Hr2].
  destruct (owner_progress c s s1 a1 E1 Hne Hr1) as [Hne1 H1]. destruct (IH s1 s' a2 E2 Hne1 Hr2) as [H2 Hne2].
  split; [|done]. rewrite steps_of_cons. lia.
Qed.

(** Push and pop are wait-free: whatever the thieves do, a call of the owner has
    returned after at most seven of its own steps. *)
Theorem wsq_owner_wait_free (s s' : state) cs a :
  run cs s = Some (s', a) -> owner s <> OIdle -> (7 <= steps_of Owner cs)%nat -> returns Owner a = true.
Proof.
  intros Hrun Hne Hsteps. destruct (returns Owner a) eqn:Hret; [done|].
  destruct (owner_bounded cs s s' a Hrun Hne Hret) as [Hb Hne']. destruct (owner s), (owner s'); simpl in *; done || lia.
Qed.

Lemma thief_step_rank s pc s' pc' : 0 <= _top s < 2 ^ 63 -> thief_step s pc = Some (s', pc', None) ->
  s' = s /\ thief_rank s pc' + 1 <= thief_rank s pc /\ pc' <> TIdle.
Proof.
  intros Ht. destruct pc; simpl; intros Heq; simplify_option_eq; repeat case_match; simplify_eq; simpl;
    (split; [done|]; split; [|done]); unfold late; rewrite ?Z.eqb_refl; repeat case_match; lia.
Qed.
Lemma thief_rank_mono s s' pc : _top s' = _top s \/ _top s' = _top s + 1 ->
  thief_rank s' pc <= thief_rank s pc + 3 * (_top s' - _top s).
Proof.
  intros [He|He]; destruct pc; simpl; unfold late; rewrite ?He; repeat case_match; lia.
Qed.
Lemma owner_step_top s pc s' pc' r : 0 <= _top s < 2 ^ 63 -> owner_step s pc = Some (s', pc', r) ->
  _top s' = _top s \/ _top s' = _top s + 1.
Proof.
  intros Ht. destruct pc; simpl; intros Heq; simplify_option_eq; repeat case_match; simplify_eq; simpl; try (by left); right;
    rewrite u64_small; lia.
Qed.
Lemma thief_step_top s pc s' pc' r : 0 <= _top s < 2 ^ 63 -> thief_step s pc = Some (s', pc', r) ->
  _top s' = _top s \/ _top s' = _top s + 1.
Proof.
  intros Ht. destruct pc; simpl; intros Heq; simplify_option_eq; repeat case_match; simplify_eq; simpl; try (by left); right;
    rewrite u64_small; lia.
Qed.
(** One choice of the scheduler, seen by a thief whose call is under way. *)
Lemma thief_progress c (s s1 : state) a i pc :
  0 <= _top (q s) < 2 ^ 63 -> step c s = Some (s1, a) -> thieves s !! i = Some pc -> pc <> TIdle -> returns (Thief i) a = false ->
  exists pc1, thieves s1 !! i = Some pc1 /\ pc1 <> TIdle /\ _top (q s) <= _top (q s1) /\
    thief_rank (q s1) pc1 + Z.of_nat (steps_of (Thief i) [c]) <= thief_rank (q s) pc + 3 * (_top (q s1) - _top (q s)).
Proof.
  intros Htop Hs Hpc Hne Hret.
  assert (Hstay : s1 = s -> steps_of (Thief i) [c] = 0%nat -> exists pc1, thieves s1 !! i = Some pc1 /\ pc1 <> TIdle /\ _top (q s) <= _top (q s1) /\
    thief_rank (q s1) pc1 + Z.of_nat (steps_of (Thief i) [c]) <= thief_rank (q s) pc + 3 * (_top (q s1) - _top (q s)))
    by (intros -> ->; exists pc; split; [done|]; split; [done|]; lia).
  destruct c as [[|j] o|[|j]].
  - cbn in Hs. destruct o, (owner s); simplify_eq; try (by apply Hstay);
      (exists pc; split; [done|]; split; [done|]; split; [done|]; cbn -[thief_rank]; lia).
  - cbn in Hs. destruct o; [by simplify_eq; apply Hstay..|]. destruct (thieves s !! j) as [[]|] eqn:E; simplify_eq; try (by apply Hstay).
    exists pc. destruct (decide (i = j)) as [->|Hij]; [congruence|]. cbn -[thief_rank].
    rewrite list_lookup_insert_ne by done. split; [done|]. split; [done|]. lia.
  - destruct (classic_idle (owner s)) as [E|E]; [cbn in Hs; rewrite E in Hs; simplify_eq; by apply Hstay|].
    rewrite (step_owner_eq s E) in Hs. destruct (owner_step (q s) (owner s)) as [[[q' pc'] r]|] eqn:Est; simplify_eq/=.
    pose proof (owner_step_top _ _ _ _ _ Htop Est) as Ht. pose proof (thief_rank_mono (q s) q' pc Ht).
    exists pc. cbn -[thief_rank]. split; [done|]. split; [done|]. lia.
  - destruct (thieves s !! j) as [pcj|] eqn:E.
    2:{ cbn in Hs. rewrite E in Hs. simplify_eq. apply Hstay; [done|]. cbn. by rewrite (proj2 (Nat.eqb_neq _ _)) by congruence. }
    destruct (classic_tidle pcj) as [->|Hj].
    { cbn in Hs. rewrite E in Hs. simplify_eq. apply Hstay; [done|]. cbn. by rewrite (proj2 (Nat.eqb_neq _ _)) by congruence. }
    rewrite (step_thief_eq s j pcj E Hj) in Hs. destruct (thief_step (q s) pcj) as [[[q' pc'] r]|] eqn:Est; simplify_eq/=.
    destruct (Nat.eqb_spec j i) as [->|Hji].
    + rewrite Hpc in E. injection E as <-. destruct r as [r|]; [by cbn in Hret; rewrite Nat.eqb_refl in Hret|].
      destruct (thief_step_rank _ _ _ _ Htop Est) as (-> & Hrk & Hne'). exists pc'. cbn -[thief_rank]. rewrite Nat.eqb_refl.
      rewrite list_lookup_insert_eq by (by eapply lookup_lt_Some). split; [done|]. split; [done|]. cbn -[thief_rank]. lia.
    + pose proof (thief_step_top _ _ _ _ _ Htop Est) as Ht. pose proof (thief_rank_mono (q s) q' pc Ht).
      exists pc. cbn -[thief_rank]. rewrite (proj2 (Nat.eqb_neq j i)) by done. rewrite list_lookup_insert_ne by done.
      split; [done|]. split; [done|]. cbn -[thief_rank]. lia.
Qed.
Lemma sim_top n (s : state) d : sim n s d -> 1 <= _top (q s) <= n + 1.
Proof. intros (ab & (_ & _ & ? & ? & ? & _) & _). lia. Qed.
Lemma thief_bounded cs i : forall n (s s' : state) d a pc,
  sim n s d -> n + Z.of_nat (length cs) < 2 ^ 62 -> run cs s = Some (s', a) ->
  thieves s !! i = Some pc -> pc <> TIdle -> returns (Thief i) a = false ->
  exists pc', thieves s' !! i = Some pc' /\ _top (q s) <= _top (q s') /\
    thief_rank (q s') pc' + Z.of_nat (steps_of (Thief i) cs) <= thief_rank (q s) pc + 3 * (_top (q s') - _top (q s)).
Proof.
  induction cs as [|c cs IH]; intros n s s' d a pc Hsim Hn Hrun Hpc Hne Hret; cbn [run] in Hrun.
  { simplify_eq. exists pc. change (steps_of (Thief i) []) with 0%nat. split; [done|]. lia. }
  destruct (step_sim n s d c) as (s1 & a1 & d1 & E1 & _ & _ & Hsim1); [cbn [length] in Hn; lia|done|]. rewrite E1 in Hrun. simpl in Hrun.
  destruct (run cs s1) as [[s2 a2]|] eqn:E2; [|done]. simplify_eq/=.
  rewrite returns_app in Hret. apply orb_false_elim in Hret as [Hr1 Hr2]. pose proof (sim_top n s d Hsim).
  destruct (thief_progress c s s1 a1 i pc) as (pc1 & Hpc1 & Hne1 & Ht1 & H1); [lia|done|done|done|done|].
  destruct (IH (n + 1) s1 s' d1 a2 pc1) as (pc2 & Hpc2 & Ht2 & H2); [done|lia|done|done|done|done|].
  exists pc2. split; [done|]. rewrite steps_of_cons. lia.
Qed.

(** C35: steal is lock-free: a thief whose call has not returned after seven of its own
    steps is held up only by others that took items: each further round of its loop (three
    steps) is paid for by a move of the top. *)
Theorem wsq_thief_lock_free k m cs0 cs (s s' : state) a0 a i :
  0 <= k <= 62 -> Z.of_nat (length cs0 + length cs) < 2 ^ 62 ->
  run cs0 (start (2 ^ k) m) = Some (s, a0) -> run cs s = Some (s', a) ->
  (exists pc, thieves s !! i = Some pc /\ pc <> TIdle) -> returns (Thief i) a = false ->
  Z.of_nat (steps_of (Thief i) cs) <= 7 + 3 * (_top (q s') - _top (q s)).
Proof.
  intros Hk Hcs Hrun0 Hrun (pc & Hpc & Hne) Hret. destruct (start_spec k m Hk) as [_ Hs].
  destruct (run_sim cs0 0 (start (2 ^ k) m) (a_start m)) as (s1 & a1 & d1 & E & _ & Hsim); [lia|done|].
  rewrite Hrun0 in E. injection E as <- <-.
  destruct (thief_bounded cs i _ s s' d1 a pc Hsim) as (pc' & _ & _ & Hb); [lia|done|done|done|done|].
  assert (thief_rank (q s) pc <= 7 /\ 0 <= thief_rank (q s') pc') by (destruct pc, pc'; simpl; unfold late; repeat case_match; lia).
  lia.
Qed.
End Queue.

(** ** A race for the last item

    The owner pushes 1, 2 and 3; two thieves and a pop compete. *)
Definition owner_steps (n : nat) : list (@choice Z) := replicate n (SStep Owner).
Definition race : list (@choice Z) :=
  SCall Owner (OpPush 1) :: owner_steps 5 ++ SCall Owner (OpPush 2) :: owner_steps 5 ++
  [SCall (Thief 0) OpSteal; SStep (Thief 0); SStep (Thief 0); SCall (Thief 1) OpSteal; SStep (Thief 1); SStep (Thief 1)] ++
  [SStep (Thief 1); SStep (Thief 1); SStep (Thief 0); SStep (Thief 0); SStep (Thief 1); SStep (Thief 0)] ++
  SCall Owner OpPop :: owner_steps 3 ++ [SStep (Thief 0)] ++ owner_steps 4.

Lemma wsq_linearizable_witness :
  exists (s' : @state Z) a d', run race (start (2 ^ 1) 2) = Some (s', a) /\ asteps (2 ^ 1) (a_start 2) a d' /\
    sim (Z.of_nat (length race)) s' d'.
Proof. apply (wsq_linearizable 1 2 race); vm_compute; (split; discriminate) || reflexivity. Defined.

Definition race_end : @state Z * list act := default (start 2 2, []) (run race (start (2 ^ 1) 2)).
Lemma wsq_conserves_witness :
  exists l, contents (q race_end.1) = (fun x => Some (Some x)) <$> l /\ pushed None race_end.2 ≡ₚ taken race_end.2 ++ l.
Proof.
  apply (wsq_conserves_items 1 2 race race_end.1 race_end.2).
  - lia.
  - vm_compute. reflexivity.
  - vm_compute. reflexivity.
  - split; [vm_compute; reflexivity|]. vm_compute. repeat constructor.
Defined.
(** The trace of the race: the pop gets the last item, the late thief nothing. *)
Example race_outcome : taken race_end.2 = [1; 2] /\ pushed None race_end.2 = [1; 2].
Proof. vm_compute. done. Qed.

Definition popping : @state Z := mkS (mkQ 3 2 [Some 2; Some 1] 1) Pop0 [Steal3 1].
Lemma wsq_owner_wait_free_witness :
  returns Owner (default (popping, []) (run (owner_steps 3 ++ [SStep (Thief 0); SStep (Thief 0)] ++ owner_steps 4) popping)).2 = true.
Proof.
  apply (wsq_owner_wait_free popping
    (default (popping, []) (run (owner_steps 3 ++ [SStep (Thief 0); SStep (Thief 0)] ++ owner_steps 4) popping)).1
    (owner_steps 3 ++ [SStep (Thief 0); SStep (Thief 0)] ++ owner_steps 4)).
  - vm_compute. reflexivity.
  - discriminate.
  - vm_compute. lia.
Defined.

(** A thief that loses the race once. *)
Definition before_race : list (@choice Z) := take 22 race.
Definition mid_race : @state Z * list act := default (start 2 2, []) (run before_race (start (2 ^ 1) 2)).
Lemma wsq_thief_lock_free_witness :
  let cs := [SStep (Thief 1); SStep (Thief 0); SStep (Thief 0); SStep (Thief 0)] in
  let fin := (default mid_race (run cs mid_race.1)).1 in
  Z.of_nat (steps_of (Thief 0) cs) <= 7 + 3 * (_top (q fin) - _top (q mid_race.1)).
Proof.
  intros cs fin.
  apply (wsq_thief_lock_free 1 2 before_race cs mid_race.1 fin mid_race.2 (default mid_race (run cs mid_race.1)).2 0).
  - lia.
  - vm_compute. reflexivity.
  - vm_compute. reflexivity.
  - vm_compute. reflexivity.
  - eexists. split; [vm_compute; reflexivity|discriminate].
  - vm_compute. reflexivity.
Defined.
End Wsq.
