(* ===== verification/PushList.v ===== *)
(** * Lists that many threads push to and one thread reverses

    MPSCQueue, ExecutionQueue and the write requests of Socket share a protocol:
    a thread makes a node with [next] = UNCONNECTED, exchanges it with the head and
    then stores the previous head to [next]; the thread whose exchange returned NULL
    owns the list, in which it works through the nodes in the order of the exchanges.
    When it comes to the last node it knows of, it tries to set the head back to
    NULL; if that fails it walks from the new head down to the node it knows, waiting
    for every UNCONNECTED link, and turns the links around.

    This file has the links, the shape of such a list and what every step of the
    protocol does to it; the nodes, their contents and the threads are those of the
    client. *)
From stdpp Require Import base list sets.
From Stdlib Require Import Lia.
From S2P Require Import Prelude.

Module PushList.

(** Addresses of nodes and values of a [next] field. *)
Definition addr : Type := nat.
Inductive link := UNCONNECTED | Null | To (a : addr).
#[global] Instance link_eq_dec : EqDecision link.
Proof. solve_decision. Defined.

(** The link to the first node of a list that ends with the link [e]. *)
Definition first (l : list addr) (e : link) : link := match l with [] => e | a :: _ => To a end.
Definition top (o : addr) (l : list addr) : addr := List.last l o.

Lemma top_nil o : top o [] = o.
Proof. done. Qed.
Lemma top_snoc o l a : top o (l ++ [a]) = a.
Proof. apply List.last_last. Qed.
Lemma top_cons o a l : top o (a :: l) = top a l.
Proof.
  unfold top. revert o a. induction l as [|b l IH]; intros o a; [done|].
  change (List.last (b :: l) o = List.last (b :: l) a). by rewrite (IH o b), (IH a b).
Qed.
Lemma top_app o l1 l2 : top o (l1 ++ l2) = top (top o l1) l2.
Proof. revert o. induction l1 as [|a l1 IH]; intros o; [done|]. cbn [app]. by rewrite !top_cons, IH. Qed.
Lemma top_in o l : top o l ∈ o :: l.
Proof.
  revert o. induction l as [|a l IH]; intros o; [left|]. rewrite top_cons. right. apply IH.
Qed.

(** Every theorem of the section is about links [nx] ([None] for an address that is
    not allocated) and the stores [wait a b] of [b] to the link of [a] that some thread
    is about to do. *)
Section Shape.
Implicit Types (nx : addr -> option link) (wait : addr -> addr -> Prop).
Implicit Types (a b o p : addr) (l fs todo rev back : list addr) (e lo : link).

(** Nodes linked in the order of the list. *)
Fixpoint chain nx l e : Prop :=
  match l with [] => True | a :: l' => nx a = Some (first l' e) /\ chain nx l' e end.
(** Nodes pushed one after the other on top of [b]. *)
Fixpoint above nx wait b l : Prop :=
  match l with
  | [] => True
  | a :: l' => (nx a = Some (To b) \/ nx a = Some UNCONNECTED /\ wait a b) /\ above nx wait a l'
  end.

Lemma chain_app nx l1 l2 e : chain nx (l1 ++ l2) e <-> chain nx l1 (first l2 e) /\ chain nx l2 e.
Proof.
  induction l1 as [|a l1 IH]; cbn [app chain]; [tauto|]. rewrite IH.
  replace (first (l1 ++ l2) e) with (first l1 (first l2 e)) by by destruct l1. tauto.
Qed.
Lemma chain_ext nx nx' l e : (forall a, a ∈ l -> nx' a = nx a) -> chain nx l e -> chain nx' l e.
Proof.
  induction l as [|a l IH]; [done|]. intros Heq [H1 H2]. split.
  - rewrite Heq by set_solver. done.
  - apply IH; [set_solver|done].
Qed.
Lemma chain_lookup nx l e a : chain nx l e -> a ∈ l -> exists x, nx a = Some x /\ (x = e \/ x <> UNCONNECTED).
Proof.
  induction l as [|c l IH]; [by rewrite elem_of_nil|]. intros [H1 H2]. rewrite elem_of_cons. intros [->|Ha]; [|by apply IH].
  eexists. split; [done|]. destruct l; [by left|by right].
Qed.
Lemma above_app nx wait b l1 l2 :
  above nx wait b (l1 ++ l2) <-> above nx wait b l1 /\ above nx wait (top b l1) l2.
Proof.
  revert b. induction l1 as [|a l1 IH]; intros b; cbn [app above]; [unfold top; simpl; tauto|].
  rewrite IH, top_cons. tauto.
Qed.
Lemma above_ext nx nx' wait wait' b l : (forall a, a ∈ l -> nx' a = nx a) ->
  (forall a c, a ∈ l -> wait a c -> wait' a c) -> above nx wait b l -> above nx' wait' b l.
Proof.
  revert b. induction l as [|a l IH]; intros b; [done|]. intros Heq Hw [H1 H2]. split.
  - rewrite Heq by set_solver. destruct H1 as [?|[? ?]]; [by left|right]. split; [done|]. apply Hw; set_solver.
  - apply IH; [set_solver|set_solver|done].
Qed.
Lemma above_dom nx wait b l a : above nx wait b l -> a ∈ l -> is_Some (nx a).
Proof.
  revert b. induction l as [|c l IH]; intros b; [by rewrite elem_of_nil|]. intros [H1 H2].
  rewrite elem_of_cons. intros [->|Ha]; [|by apply (IH c)]. destruct H1 as [->|[-> _]]; done.
Qed.
(** The store a waiting thread does is the one the list waits for. *)
Lemma above_link nx nx' wait wait' b l n c :
  NoDup l -> (forall d, wait n d -> d = c) -> nx n = Some UNCONNECTED ->
  nx' n = Some (To c) -> (forall a, a <> n -> nx' a = nx a) -> (forall a d, a <> n -> wait a d -> wait' a d) ->
  above nx wait b l -> above nx' wait' b l.
Proof.
  intros Hnd Hc Hn Hn' Heq Hw. revert b. induction l as [|a l IH]; intros b; [done|]. apply NoDup_cons in Hnd as [Ha Hnd].
  intros [H1 H2]. split; [|by apply IH]. destruct (decide (a = n)) as [->|Hne].
  - left. destruct H1 as [?|[_ Hwt]]; [congruence|]. by rewrite (Hc b).
  - rewrite Heq by done. destruct H1 as [?|[? ?]]; [by left|right; split; [done|by apply Hw]].
Qed.

(** A list with an owner: the nodes [fs] and [o] in order, [o] being the last node the
    owner knows of, with link [lo]; the nodes [todo] the owner is about to turn round,
    [rev] that it has turned round; and [back] that were pushed since it looked at the
    head. *)
Record owned nx wait (head : option addr) fs o lo todo rev back : Prop := mkOwned {
  ow_front : chain nx fs (To o);
  ow_last : nx o = Some lo;
  ow_todo : above nx wait o todo;
  ow_rev : chain nx rev Null;
  ow_back : above nx wait (top o (todo ++ rev)) back;
  ow_nodup : NoDup (fs ++ o :: todo ++ rev ++ back);
  ow_head : head = Some (top o (todo ++ rev ++ back)) }.

Lemma owned_ext nx nx' wait wait' head fs o lo todo rev back :
  (forall a, a ∈ fs ++ o :: todo ++ rev ++ back -> nx' a = nx a) ->
  (forall a c, a ∈ todo ++ back -> wait a c -> wait' a c) ->
  owned nx wait head fs o lo todo rev back -> owned nx' wait' head fs o lo todo rev back.
Proof.
  intros Heq Hw []. split; try done.
  - apply (chain_ext nx); [set_solver|done].
  - rewrite Heq by set_solver. done.
  - apply (above_ext nx _ wait); [set_solver|set_solver|done].
  - apply (chain_ext nx); [set_solver|done].
  - apply (above_ext nx _ wait); [set_solver|set_solver|done].
Qed.
(** Every node of the list is allocated. *)
Lemma owned_dom nx wait head fs o lo todo rev back a :
  owned nx wait head fs o lo todo rev back -> a ∈ fs ++ o :: todo ++ rev ++ back -> is_Some (nx a).
Proof.
  intros []. rewrite !elem_of_app, elem_of_cons, !elem_of_app. intros [H|[->|[H|[H|H]]]].
  - by destruct (chain_lookup nx fs (To o) a) as (? & -> & _).
  - by rewrite ow_last0.
  - by apply (above_dom nx wait o todo).
  - by destruct (chain_lookup nx rev Null a) as (? & -> & _).
  - by eapply above_dom.
Qed.

(** The first exchange. *)
Lemma owned_open nx wait n : nx n = Some UNCONNECTED -> owned nx wait (Some n) [] n UNCONNECTED [] [] [].
Proof. intros Hn. split; try done. apply NoDup_singleton. Qed.
(** [node->next = NULL] by the new owner. *)
Lemma owned_terminate nx nx' wait n back lo lo' :
  (forall a, a <> n -> nx' a = nx a) -> nx' n = Some lo' ->
  owned nx wait (Some (top n back)) [] n lo [] [] back -> owned nx' wait (Some (top n back)) [] n lo' [] [] back.
Proof.
  intros Heq Hn []. cbn [app] in *. apply NoDup_cons in ow_nodup0 as [Hnin Hnd]. split; try done.
  - apply (above_ext nx _ wait); [|done|done]. intros a Ha. apply Heq. by intros ->.
  - cbn [app]. by apply NoDup_cons.
Qed.
(** A later exchange: the new node is on top, its thread about to store the old top. *)
Lemma owned_push nx nx' wait wait' head fs o lo todo rev back n :
  owned nx wait head fs o lo todo rev back -> n ∉ fs ++ o :: todo ++ rev ++ back ->
  (forall a, a <> n -> nx' a = nx a) -> nx' n = Some UNCONNECTED -> (forall a c, wait a c -> wait' a c) ->
  wait' n (top o (todo ++ rev ++ back)) ->
  owned nx' wait' (Some n) fs o lo todo rev (back ++ [n]).
Proof.
  intros Ho Hn Heq Hnx Hw Hwn.
  assert (owned nx' wait' head fs o lo todo rev back) as [] by (apply (owned_ext nx _ wait); [|by auto|done]; intros a Ha; apply Heq; set_solver).
  split; try done.
  - apply above_app. split; [done|]. cbn [above]. split; [|done]. right. rewrite <- top_app, <- app_assoc. done.
  - replace (fs ++ o :: todo ++ rev ++ back ++ [n]) with ((fs ++ o :: todo ++ rev ++ back) ++ [n]) by (by rewrite <- !app_assoc; cbn [app]; rewrite <- !app_assoc).
    apply NoDup_app. split; [done|]. split; [|apply NoDup_singleton]. intros x Hx ->%list_elem_of_singleton. done.
  - by rewrite !app_assoc, top_snoc.
Qed.
(** [node->next = prev_head]. *)
Lemma owned_link nx nx' wait wait' head fs o lo todo rev back n c :
  owned nx wait head fs o lo todo rev back -> n <> o -> nx n = Some UNCONNECTED -> (forall d, wait n d -> d = c) ->
  nx' n = Some (To c) -> (forall a, a <> n -> nx' a = nx a) -> (forall a d, a <> n -> wait a d -> wait' a d) ->
  owned nx' wait' head fs o lo todo rev back.
Proof.
  intros [] Hno Hn Hc Hn' Heq Hw. apply NoDup_app in ow_nodup0 as Hnd. destruct Hnd as (_ & _ & Hnd).
  apply NoDup_cons in Hnd as [_ Hnd]. apply NoDup_app in Hnd as (Hnd1 & _ & Hnd). apply NoDup_app in Hnd as (_ & _ & Hnd2).
  assert ((n ∉ fs) /\ (n ∉ rev)) as [Hf Hr].
  { split; intros Hin.
    - destruct (chain_lookup nx fs (To o) n) as (b & Hb & [->|Hne]); congruence.
    - destruct (chain_lookup nx rev Null n) as (b & Hb & [->|Hne]); congruence. }
  split; try done.
  - apply (chain_ext nx); [|done]. intros a Ha. apply Heq. by intros ->.
  - by rewrite Heq.
  - by apply (above_link nx nx' wait wait' o todo n c).
  - apply (chain_ext nx); [|done]. intros a Ha. apply Heq. by intros ->.
  - by apply (above_link nx nx' wait wait' _ back n c).
Qed.
(** The owner finds a new head. *)
Lemma owned_take nx wait head fs o lo back :
  owned nx wait head fs o lo [] [] back -> owned nx wait head fs o lo back [] [].
Proof. intros []. cbn [app] in *. split; rewrite ?app_nil_r; try done. Qed.
(** One round of the loop that turns the links. *)
Lemma owned_saved nx wait head fs o lo todo p rev back (s : link) :
  owned nx wait head fs o lo (todo ++ [p]) rev back -> nx p = Some s -> s <> UNCONNECTED -> s = To (top o todo).
Proof.
  intros [] Hp Hs. apply above_app in ow_todo0 as [_ [[H|[H _]] _]]; congruence.
Qed.
Lemma owned_reverse nx nx' wait head fs o lo todo p rev back :
  owned nx wait head fs o lo (todo ++ [p]) rev back -> nx' p = Some (first rev Null) -> (forall a, a <> p -> nx' a = nx a) ->
  owned nx' wait head fs o lo todo (p :: rev) back.
Proof.
  intros [] Hp Heq. rewrite <- !app_assoc in *. cbn [app] in *.
  assert ((p ∉ fs) /\ p <> o /\ (p ∉ todo) /\ (p ∉ rev) /\ (p ∉ back)) as (Hf & Ho & Ht & Hr & Hb).
  { clear - ow_nodup0. rewrite NoDup_app, NoDup_cons, NoDup_app, NoDup_cons in ow_nodup0.
    destruct ow_nodup0 as (_ & Hf & Ho & _ & Ht & Hp & _). split; [|split; [|split]].
    - intros H. apply (Hf p); set_solver.
    - set_solver.
    - intros H. apply (Ht p); set_solver.
    - set_solver. }
  apply above_app in ow_todo0 as [Htodo _]. split; try done.
  - apply (chain_ext nx); [|done]. intros a Ha. apply Heq. by intros ->.
  - rewrite Heq by congruence. done.
  - apply (above_ext nx _ wait); [|done|done]. intros a Ha. apply Heq. by intros ->.
  - split; [done|]. apply (chain_ext nx); [|done]. intros a Ha. apply Heq. by intros ->.
  - apply (above_ext nx _ wait); [|done|done]. intros a Ha. apply Heq. by intros ->.
Qed.
(** [old_head->next = tail]: the nodes that were turned round follow the old ones. *)
Lemma owned_join nx nx' wait head fs o lo rs o' back :
  owned nx wait head fs o lo [] (rs ++ [o']) back -> nx' o = Some (first (rs ++ [o']) Null) -> (forall a, a <> o -> nx' a = nx a) ->
  owned nx' wait head (fs ++ o :: rs) o' Null [] [] back.
Proof.
  intros [] Ho Heq. cbn [app] in *.
  assert ((o ∉ fs) /\ (o ∉ rs ++ [o']) /\ (o ∉ back)) as (Hf & Hr & Hb).
  { clear - ow_nodup0. rewrite NoDup_app, NoDup_cons in ow_nodup0. destruct ow_nodup0 as (_ & Hf & Ho & _).
    split; [|set_solver]. intros H. apply (Hf o); set_solver. }
  assert (chain nx' (rs ++ [o']) Null) as Hch by (apply (chain_ext nx); [|done]; intros a Ha; apply Heq; by intros ->).
  apply chain_app in Hch as [Hc1 [Hc2 _]]. split; try done.
  - apply chain_app. cbn [first chain]. split; [|split].
    + apply (chain_ext nx); [|done]. intros a Ha. apply Heq. by intros ->.
    + rewrite Ho. by destruct rs.
    + done.
  - cbn [app]. rewrite top_snoc in ow_back0. apply (above_ext nx _ wait); [|done|done]. intros a Ha. apply Heq. by intros ->.
  - cbn [app]. rewrite <- !app_assoc in *. done.
  - cbn [app]. rewrite <- app_assoc in ow_head0. cbn [app] in ow_head0. rewrite ow_head0. f_equal.
    by rewrite top_app, top_cons.
Qed.
(** The owner is finished with the first node. *)
Lemma owned_pop nx wait head a fs o lo todo rev back :
  owned nx wait head (a :: fs) o lo todo rev back ->
  owned nx wait head fs o lo todo rev back /\ nx a = Some (first fs (To o)) /\ a ∉ fs ++ o :: todo ++ rev ++ back.
Proof.
  intros []. destruct ow_front0 as [Ha Hf]. cbn [app] in *. apply NoDup_cons in ow_nodup0 as [Hn Hnd].
  split; [by split|]. done.
Qed.
(** The compare-exchange of the head succeeds only if nothing was pushed. *)
Lemma owned_alone nx wait fs o lo back :
  owned nx wait (Some o) fs o lo [] [] back -> back = [].
Proof.
  intros []. cbn [app] in *. destruct back as [|b back] using rev_ind; [done|]. rewrite top_snoc in ow_head0.
  simplify_eq. rewrite NoDup_app, NoDup_cons in ow_nodup0. set_solver.
Qed.
Lemma owned_nonempty nx wait head fs o lo back : owned nx wait head fs o lo [] [] back -> head <> Some o -> back <> [].
Proof. intros [] Hne ->. done. Qed.

End Shape.
End PushList.
