(* ===== verification/MpscQueue.v ===== *)
(** * MPSCQueue (butil/containers/mpsc_queue.h)

    Any number of threads enqueue, one dequeues and destroys.  Every access to memory
    that two threads share is a step, and the scheduler interleaves the steps of the
    threads in any order; steps are sequentially consistent.  The nodes are in a heap of
    allocated addresses: an access to an address that is not allocated is undefined
    behaviour ([None]), [Alloc] returns any address that is not allocated - also one
    that was freed before - and is taken to succeed. *)
From stdpp Require Import base list gmap sets.
From Stdlib Require Import Lia.
From S2P Require Import Prelude PushList.

Module Mpsc.
Import PushList.

Section Queue.
Context {T : Type}.

(** ** The code, by program counters *)

(** [MPSCQueueNode]; the data is [None] once it has been moved out. *)
Record node := mkNode { next : link; data : option T }.
Record queue := mkQ {
  heap : gmap addr node;
  _head : option addr; _cur_enqueue_node : option addr; _cur_dequeue_node : option addr }.
Definition new : queue := mkQ ∅ None None None.

Definition set_heap (h : gmap addr node) (s : queue) : queue :=
  mkQ h (_head s) (_cur_enqueue_node s) (_cur_dequeue_node s).
Definition set_head (a : option addr) (s : queue) : queue :=
  mkQ (heap s) a (_cur_enqueue_node s) (_cur_dequeue_node s).
Definition set_cur_enqueue_node (a : option addr) (s : queue) : queue :=
  mkQ (heap s) (_head s) a (_cur_dequeue_node s).
Definition set_cur_dequeue_node (a : option addr) (s : queue) : queue :=
  mkQ (heap s) (_head s) (_cur_enqueue_node s) a.
(** [a->next], [a->next = x], and moving the data of [a] out. *)
Definition load_next (s : queue) (a : addr) : option link := next <$> heap s !! a.
Definition store_next (a : addr) (x : link) (s : queue) : option queue :=
  n ← heap s !! a; Some (set_heap (<[a := mkNode x (data n)]> (heap s)) s).
Definition move_data (a : addr) (s : queue) : option (queue * option T) :=
  n ← heap s !! a; Some (set_heap (<[a := mkNode (next n) None]> (heap s)) s, data n).

(** A thread in [Enqueue]. *)
Inductive producer_pc :=
  | PIdle
  | Enq0 (x : T)                        (* Alloc, fill the node *)
  | Enq1 (n : addr)                     (* exchange _head *)
  | Enq2 (n prev : addr)                (* node->next = prev *)
  | Enq3 (n : addr)                     (* node->next = NULL *)
  | Enq4 (n : addr).                    (* store _cur_enqueue_node *)
(** The thread in [DequeueImpl]; [out] says whether its argument is not NULL, [n] is
    [node], also [old_head] of [ReverseList], and [v] is what was moved to [*data]. *)
Inductive consumer_pc :=
  | CIdle
  | Deq0 (out : bool)                   (* find the node *)
  | Deq1 (out : bool) (n : addr)        (* store _cur_enqueue_node *)
  | Deq2 (out : bool) (n : addr)        (* move the data *)
  | Deq3 (out : bool) (n : addr) (v : option T)  (* test node->next *)
  | Rev0 (out : bool) (n : addr) (v : option T)  (* compare-exchange _head *)
  | Rev1 (out : bool) (n : addr) (v : option T) (p : addr) (tail : link)  (* wait for p->next *)
  | Rev2 (out : bool) (n : addr) (v : option T) (p : addr) (tail saved : link) (* p->next = tail *)
  | Rev3 (out : bool) (n : addr) (v : option T) (tail : link) (* old_head->next = tail *)
  | Deq4 (out : bool) (n : addr) (v : option T)  (* _cur_dequeue_node = node->next *)
  | Deq5 (out : bool) (n : addr) (v : option T). (* Free *)

Inductive op := OpEnqueue (x : T) | OpDequeue | OpDestroy.
(** [Dequeued None] when [Dequeue] returns false; the data of [Dequeued (Some v)] is
    [None] when it had been moved out before. *)
Inductive res := Enqueued | Dequeued (v : option (option T)) | Destroyed.

(** One step of [Enqueue]; [mem] is the address that [Alloc] returns if it is called in
    this step.  The allocator does not return an address in use: then there is no such
    step ([Some] with the state unchanged). *)
Definition Enqueue_step (mem : addr) (s : queue) (pc : producer_pc) : option (queue * producer_pc * option res) :=
  match pc with
  | PIdle => None
  | Enq0 x =>
      match heap s !! mem with
      | Some _ => Some (s, pc, None)
      | None => Some (set_heap (<[mem := mkNode UNCONNECTED (Some x)]> (heap s)) s, Enq1 mem, None)
      end
  | Enq1 n =>
      match _head s with
      | Some prev => Some (set_head (Some n) s, Enq2 n prev, None)
      | None => Some (set_head (Some n) s, Enq3 n, None)
      end
  | Enq2 n prev => s' ← store_next n (To prev) s; Some (s', PIdle, Some Enqueued)
  | Enq3 n => s' ← store_next n Null s; Some (s', Enq4 n, None)
  | Enq4 n => Some (set_cur_enqueue_node (Some n) s, PIdle, Some Enqueued)
  end.

(** [ReverseList], from the compare-exchange on. *)
Definition ReverseList_step (s : queue) (pc : consumer_pc) : option (queue * consumer_pc * option res) :=
  match pc with
  | Rev0 out n v =>
      if decide (_head s = Some n) then Some (set_head None s, Deq4 out n v, None)
      else p ← _head s; Some (s, Rev1 out n v p Null, None)
  | Rev1 out n v p tail =>
      x ← load_next s p;
      if decide (x = UNCONNECTED) then Some (s, pc, None) else Some (s, Rev2 out n v p tail x, None)
  | Rev2 out n v p tail saved =>
      s' ← store_next p tail s;
      match saved with
      | To p' => Some (s', if decide (p' = n) then Rev3 out n v (To p) else Rev1 out n v p' (To p), None)
      | _ => None
      end
  | Rev3 out n v tail => s' ← store_next n tail s; Some (s', Deq4 out n v, None)
  | _ => None
  end.
(** [DequeueImpl], and [~MPSCQueue], which repeats it with NULL until it returns false. *)
Definition Dequeue_step (s : queue) (pc : consumer_pc) : option (queue * consumer_pc * option res) :=
  match pc with
  | CIdle => None
  | Deq0 out =>
      match (match _cur_dequeue_node s with Some n => Some n | None => _cur_enqueue_node s end) with
      | Some n => Some (s, Deq1 out n, None)
      | None => Some (s, CIdle, Some (if out then Dequeued None else Destroyed))
      end
  | Deq1 out n => Some (set_cur_enqueue_node None s, Deq2 out n, None)
  | Deq2 out n =>
      if out then '(s', v) ← move_data n s; Some (s', Deq3 out n v, None) else Some (s, Deq3 out n None, None)
  | Deq3 out n v =>
      x ← load_next s n;
      Some (s, if decide (x = Null) then Rev0 out n v else Deq4 out n v, None)
  | Deq4 out n v =>
      x ← load_next s n;
      match x with
      | UNCONNECTED => None
      | Null => Some (set_cur_dequeue_node None s, Deq5 out n v, None)
      | To a => Some (set_cur_dequeue_node (Some a) s, Deq5 out n v, None)
      end
  | Deq5 out n v =>
      _ ← heap s !! n;
      Some (set_heap (delete n (heap s)) s, if out then CIdle else Deq0 out,
            if out then Some (Dequeued (Some v)) else None)
  | _ => ReverseList_step s pc
  end.

(** ** Schedules

    Threads call [Enqueue] when they are idle, the consumer calls [Dequeue] and, when no
    thread is in [Enqueue], the destructor, after which nothing is called. *)
Inductive tid := Producer (i : nat) | Consumer.
Inductive choice := SCall (t : tid) (o : op) | SStep (t : tid) (mem : addr).
Inductive act := Call (t : tid) (o : op) | Ret (t : tid) (r : res).
Record state := mkS { q : queue; producers : list producer_pc; consumer : consumer_pc; dying : bool }.

Definition ret (t : tid) (r : option res) : list act := match r with Some r => [Ret t r] | None => [] end.
Definition idle (pc : producer_pc) : bool := match pc with PIdle => true | _ => false end.
Definition step (c : choice) (s : state) : option (state * list act) :=
  match c with
  | SCall (Producer i) (OpEnqueue x) =>
      match producers s !! i, dying s with
      | Some PIdle, false =>
          Some (mkS (q s) (<[i := Enq0 x]> (producers s)) (consumer s) false, [Call (Producer i) (OpEnqueue x)])
      | _, _ => Some (s, [])
      end
  | SCall Consumer OpDequeue =>
      match consumer s, dying s with
      | CIdle, false => Some (mkS (q s) (producers s) (Deq0 true) false, [Call Consumer OpDequeue])
      | _, _ => Some (s, [])
      end
  | SCall Consumer OpDestroy =>
      match consumer s, forallb idle (producers s), dying s with
      | CIdle, true, false => Some (mkS (q s) (producers s) (Deq0 false) true, [Call Consumer OpDestroy])
      | _, _, _ => Some (s, [])
      end
  | SCall _ _ => Some (s, [])
  | SStep (Producer i) mem =>
      match producers s !! i with
      | None | Some PIdle => Some (s, [])
      | Some pc =>
          '(q', pc', r) ← Enqueue_step mem (q s) pc;
          Some (mkS q' (<[i := pc']> (producers s)) (consumer s) (dying s), ret (Producer i) r)
      end
  | SStep Consumer _ =>
      match consumer s with
      | CIdle => Some (s, [])
      | pc => '(q', pc', r) ← Dequeue_step (q s) pc; Some (mkS q' (producers s) pc' (dying s), ret Consumer r)
      end
  end.
Fixpoint run (cs : list choice) (s : state) : option (state * list act) :=
  match cs with
  | [] => Some (s, [])
  | c :: cs => '(s1, l1) ← step c s; '(s2, l2) ← run cs s1; Some (s2, l1 ++ l2)
  end.
Definition start (n : nat) : state := mkS new (replicate n PIdle) CIdle false.

(** ** The specification: a queue with atomic operations

    A call takes effect at one instant between its invocation and its return.  The
    thread that enqueues into the empty queue is its opener until it returns; meanwhile
    the consumer may not see what is in the queue. *)
Inductive phase := Idle | Called (o : op) | Done (r : res).
Record fifo := mkF { items : list T; opener : option nat; a_producers : list phase; a_consumer : phase }.

Inductive astep : fifo -> list act -> fifo -> Prop :=
  | a_call_enqueue i x l op ts c : ts !! i = Some Idle ->
      astep (mkF l op ts c) [Call (Producer i) (OpEnqueue x)] (mkF l op (<[i := Called (OpEnqueue x)]> ts) c)
  | a_enqueue i x l op ts c : ts !! i = Some (Called (OpEnqueue x)) -> l <> [] ->
      astep (mkF l op ts c) [] (mkF (l ++ [x]) op (<[i := Done Enqueued]> ts) c)
  | a_enqueue_first i x ts c : ts !! i = Some (Called (OpEnqueue x)) ->
      astep (mkF [] None ts c) [] (mkF [x] (Some i) (<[i := Done Enqueued]> ts) c)
  | a_ret_opener i r l ts c : ts !! i = Some (Done r) ->
      astep (mkF l (Some i) ts c) [Ret (Producer i) r] (mkF l None (<[i := Idle]> ts) c)
  | a_ret_producer i r l op ts c : ts !! i = Some (Done r) -> op <> Some i ->
      astep (mkF l op ts c) [Ret (Producer i) r] (mkF l op (<[i := Idle]> ts) c)
  | a_call_consumer o l op ts :
      astep (mkF l op ts Idle) [Call Consumer o] (mkF l op ts (Called o))
  | a_dequeue x l ts :
      astep (mkF (x :: l) None ts (Called OpDequeue)) [] (mkF l None ts (Done (Dequeued (Some (Some x)))))
  | a_dequeue_empty l op ts : l = [] \/ op <> None ->
      astep (mkF l op ts (Called OpDequeue)) [] (mkF l op ts (Done (Dequeued None)))
  | a_discard x l ts : astep (mkF (x :: l) None ts (Called OpDestroy)) [] (mkF l None ts (Called OpDestroy))
  | a_destroy ts : astep (mkF [] None ts (Called OpDestroy)) [] (mkF [] None ts (Done Destroyed))
  | a_ret_consumer r l op ts : astep (mkF l op ts (Done r)) [Ret Consumer r] (mkF l op ts Idle).
Inductive asteps : fifo -> list act -> fifo -> Prop :=
  | asteps_refl d : asteps d [] d
  | asteps_step d1 l1 d2 l2 d3 : astep d1 l1 d2 -> asteps d2 l2 d3 -> asteps d1 (l1 ++ l2) d3.
Definition a_start (n : nat) : fifo := mkF [] None (replicate n Idle) Idle.

Lemma fifo_steps_one d l d' : astep d l d' -> asteps d l d'.
Proof. intros H. rewrite <- (app_nil_r l). by eapply asteps_step, asteps_refl. Qed.
Lemma fifo_steps_two d d1 l d' : astep d [] d1 -> astep d1 l d' -> asteps d l d'.
Proof. intros H1 H2. by apply (asteps_step d [] d1 l d'); [|apply fifo_steps_one]. Qed.

(** ** The simulation *)

(** How the list of nodes is, between the threads: [VOpening] while the thread that
    found the queue empty has not announced its node. *)
Inductive view :=
  | VEmpty
  | VOpening (i : nat) (o : addr) (back : list addr)
  | VOpen (fs : list addr) (o : addr) (todo rev back : list addr).
#[local] Instance view_eq_dec : EqDecision view.
Proof. solve_decision. Defined.
Definition nodes (w : view) : list addr :=
  match w with VEmpty => [] | VOpening _ o back => o :: back | VOpen fs o todo rev back => fs ++ o :: todo ++ rev ++ back end.
(** The first node, once it is announced. *)
Definition announced (w : view) : option addr := match w with VOpen fs o _ _ _ => Some (hd o fs) | _ => None end.
Definition settled (w : view) : Prop := match w with VOpen _ _ todo rev _ => todo = [] /\ rev = [] | _ => True end.

Definition wait (ps : list producer_pc) (a b : addr) : Prop := exists i, ps !! i = Some (Enq2 a b).
Definition shape (s : queue) (ps : list producer_pc) (op : option nat) (w : view) : Prop :=
  match w with
  | VEmpty => _head s = None /\ op = None
  | VOpening i o back => op = Some i /\
      (ps !! i = Some (Enq3 o) /\ owned (load_next s) (wait ps) (_head s) [] o UNCONNECTED [] [] back \/
       ps !! i = Some (Enq4 o) /\ owned (load_next s) (wait ps) (_head s) [] o Null [] [] back)
  | VOpen fs o todo rev back => op = None /\ owned (load_next s) (wait ps) (_head s) fs o Null todo rev back
  end.

Definition pnode (pc : producer_pc) : option addr :=
  match pc with Enq1 n | Enq2 n _ | Enq3 n | Enq4 n => Some n | _ => None end.
Definition prel (s : queue) (pc : producer_pc) (ph : phase) : Prop :=
  match pc with
  | PIdle => ph = Idle
  | Enq0 x => ph = Called (OpEnqueue x)
  | Enq1 n => exists x, ph = Called (OpEnqueue x) /\ heap s !! n = Some (mkNode UNCONNECTED (Some x))
  | Enq2 n _ => ph = Done Enqueued /\ load_next s n = Some UNCONNECTED
  | Enq3 n => ph = Done Enqueued /\ load_next s n = Some UNCONNECTED
  | Enq4 n => ph = Done Enqueued
  end.

Definition avail (s : queue) (w : view) : Prop :=
  settled w /\ (_cur_dequeue_node s = None /\ _cur_enqueue_node s = announced w \/
                _cur_dequeue_node s = announced w /\ _cur_enqueue_node s = None).
Definition holding (s : queue) (n : addr) : Prop :=
  _cur_enqueue_node s = None /\ (_cur_dequeue_node s = None \/ _cur_dequeue_node s = Some n).
Definition called (out : bool) : phase := Called (if out then OpDequeue else OpDestroy).
Definition taken (out : bool) (v : option T) : phase := if out then Done (Dequeued (Some v)) else Called OpDestroy.
Definition moved (out : bool) (v : option T) : Prop := if out then is_Some v else v = None.
(** What the consumer knows; [gone] is the node it has taken off the list but not freed. *)
Definition crel (s : queue) (w : view) (gone : list addr) (pc : consumer_pc) (ph : phase) : Prop :=
  match pc with
  | CIdle => ph = Idle /\ gone = [] /\ avail s w
  | Deq0 out => ph = called out /\ gone = [] /\ avail s w
  | Deq1 out n => ph = called out /\ gone = [] /\ avail s w /\ announced w = Some n
  | Deq2 out n => ph = called out /\ gone = [] /\ holding s n /\ settled w /\ announced w = Some n
  | Deq3 out n v => ph = called out /\ moved out v /\ gone = [] /\ holding s n /\ settled w /\ announced w = Some n
  | Rev0 out n v => ph = called out /\ moved out v /\ gone = [] /\ holding s n /\ exists back, w = VOpen [] n [] [] back
  | Rev1 out n v p tail => ph = called out /\ moved out v /\ gone = [] /\ holding s n /\
      exists t rev back, w = VOpen [] n (t ++ [p]) rev back /\ tail = first rev Null
  | Rev2 out n v p tail saved => ph = called out /\ moved out v /\ gone = [] /\ holding s n /\
      exists t rev back, w = VOpen [] n (t ++ [p]) rev back /\ tail = first rev Null /\ saved = To (top n t) /\
        load_next s p = Some saved
  | Rev3 out n v tail => ph = called out /\ moved out v /\ gone = [] /\ holding s n /\
      exists r rev back, w = VOpen [] n [] (r :: rev) back /\ tail = To r
  | Deq4 out n v => moved out v /\
      (ph = called out /\ gone = [] /\ holding s n /\ (exists fs o back, w = VOpen (n :: fs) o [] [] back) \/
       ph = taken out v /\ gone = [n] /\ load_next s n = Some Null /\ settled w /\
         (_cur_dequeue_node s = None \/ _cur_dequeue_node s = Some n) /\ _cur_enqueue_node s = announced w)
  | Deq5 out n v => ph = taken out v /\ gone = [n] /\ avail s w
  end.

(** The value of a node: the consumer has moved that of its node out. *)
Definition hand (pc : consumer_pc) : option (addr * T) :=
  match pc with
  | Deq3 _ n (Some x) | Rev0 _ n (Some x) | Rev1 _ n (Some x) _ _ | Rev2 _ n (Some x) _ _ _
  | Rev3 _ n (Some x) _ | Deq4 _ n (Some x) => Some (n, x)
  | _ => None
  end.
Definition val (s : queue) (pc : consumer_pc) (a : addr) : option T :=
  match hand pc with
  | Some (n, x) => if decide (a = n) then Some x else heap s !! a ≫= data
  | None => heap s !! a ≫= data
  end.

(** The consumer is in the destructor. *)
Definition destroying (pc : consumer_pc) : bool :=
  match pc with
  | CIdle => false
  | Deq0 out | Deq1 out _ | Deq2 out _ | Deq3 out _ _ | Rev0 out _ _ | Rev1 out _ _ _ _ | Rev2 out _ _ _ _ _ | Rev3 out _ _ _
  | Deq4 out _ _ | Deq5 out _ _ => negb out
  end.

Record simv (s : state) (d : fifo) (w : view) (gone : list addr) : Prop := mkSim {
  sm_producers : Forall2 (prel (q s)) (producers s) (a_producers d);
  sm_inj : forall i j a, producers s !! i ≫= pnode = Some a -> producers s !! j ≫= pnode = Some a -> i = j;
  sm_shape : shape (q s) (producers s) (opener d) w;
  sm_consumer : crel (q s) w gone (consumer s) (a_consumer d);
  sm_vals : Forall2 (fun a x => val (q s) (consumer s) a = Some x) (nodes w) (items d);
  sm_dom : forall a, is_Some (heap (q s) !! a) <->
    a ∈ nodes w \/ a ∈ gone \/ exists i, producers s !! i = Some (Enq1 a);
  sm_gone : forall a, a ∈ gone -> a ∉ nodes w;
  sm_private : forall i a, producers s !! i = Some (Enq1 a) -> a ∉ nodes w ++ gone;
  sm_linking : forall i a b, producers s !! i = Some (Enq2 a b) -> a ∈ nodes w;
  sm_opener : forall i n, producers s !! i = Some (Enq3 n) \/ producers s !! i = Some (Enq4 n) -> opener d = Some i;
  sm_out : consumer s <> CIdle -> destroying (consumer s) = dying s;
  sm_dying : dying s = true -> Forall (eq PIdle) (producers s) /\ (consumer s = CIdle -> w = VEmpty) }.
Definition sim (s : state) (d : fifo) : Prop := exists w gone, simv s d w gone.

(** *** Memory *)
Lemma load_store s a x n : heap s !! a = Some n ->
  exists s', store_next a x s = Some s' /\ load_next s' a = Some x /\ (forall b, b <> a -> heap s' !! b = heap s !! b) /\
    (forall b, heap s' !! b ≫= data = heap s !! b ≫= data) /\ (forall b, is_Some (heap s' !! b) <-> is_Some (heap s !! b)) /\
    _head s' = _head s /\ _cur_enqueue_node s' = _cur_enqueue_node s /\ _cur_dequeue_node s' = _cur_dequeue_node s.
Proof.
  intros Hn. unfold store_next. rewrite Hn. cbn [mbind option_bind]. eexists. split; [done|]. cbn [set_heap heap].
  split; [|split; [|split; [|split; [|done]]]].
  - unfold load_next. cbn [set_heap heap]. by rewrite lookup_insert_eq.
  - intros b Hb. by rewrite lookup_insert_ne.
  - intros b. destruct (decide (b = a)) as [->|Hb]; [|by rewrite lookup_insert_ne]. by rewrite lookup_insert_eq, Hn.
  - intros b. destruct (decide (b = a)) as [->|Hb]; [|by rewrite lookup_insert_ne]. rewrite lookup_insert_eq, Hn. done.
Qed.
Lemma load_next_heap s a x : load_next s a = Some x -> exists n, heap s !! a = Some n /\ next n = x.
Proof. unfold load_next. destruct (heap s !! a) as [n|]; [|done]. intros [= <-]. by exists n. Qed.
Lemma load_next_eq s s' a : heap s' !! a = heap s !! a -> load_next s' a = load_next s a.
Proof. unfold load_next. by intros ->. Qed.

Lemma producers_update ps phs s s' i pc' ph' : Forall2 (prel s) ps phs ->
  (forall j a, j <> i -> ps !! j ≫= pnode = Some a -> heap s' !! a = heap s !! a) -> prel s' pc' ph' ->
  Forall2 (prel s') (<[i := pc']> ps) (<[i := ph']> phs).
Proof.
  intros HF Hh Hi. apply Forall2_same_length_lookup. rewrite !length_insert. split; [by eapply Forall2_length|].
  intros j pc ph. rewrite !list_lookup_insert_Some. intros [(<- & <- & _)|[Hj Hpc]] [(Hij & Hph & _)|[Hij Hph]]; try congruence.
  pose proof (Forall2_lookup_lr _ _ _ _ _ _ HF Hpc Hph) as Hr. specialize (Hh j). rewrite Hpc in Hh. cbn [mbind option_bind] in Hh.
  destruct pc; cbn [prel pnode] in *; try done.
  - rewrite (Hh n); done.
  - rewrite (load_next_eq s s' n) by (by apply Hh). done.
  - rewrite (load_next_eq s s' n) by (by apply Hh). done.
Qed.
Lemma producers_heap ps phs s s' : Forall2 (prel s) ps phs ->
  (forall j a, ps !! j ≫= pnode = Some a -> heap s' !! a = heap s !! a) -> Forall2 (prel s') ps phs.
Proof.
  intros HF Hh. rewrite <- (list_insert_ge ps (length ps) PIdle), <- (list_insert_ge phs (length ps) Idle).
  - apply (producers_update _ _ s); [done| |done]. intros j a _. apply Hh.
  - by rewrite (Forall2_length _ _ _ HF).
  - done.
Qed.
Lemma inj_update (ps : list producer_pc) i pc' :
  (forall i j a, ps !! i ≫= pnode = Some a -> ps !! j ≫= pnode = Some a -> i = j) ->
  (forall a j, pnode pc' = Some a -> ps !! j ≫= pnode = Some a -> j = i) ->
  forall j k a, <[i := pc']> ps !! j ≫= pnode = Some a -> <[i := pc']> ps !! k ≫= pnode = Some a -> j = k.
Proof.
  intros Hinj Hf j k a. destruct (decide (i < length ps)%nat).
  - destruct (decide (j = i)) as [->|Hj], (decide (k = i)) as [->|Hk]; try done.
    + rewrite list_lookup_insert_eq, list_lookup_insert_ne by done. intros H1 H2. by rewrite (Hf a k).
    + rewrite list_lookup_insert_eq, list_lookup_insert_ne by done. intros H1 H2. by rewrite (Hf a j).
    + rewrite !list_lookup_insert_ne by done. apply Hinj.
  - rewrite list_insert_ge by lia. apply Hinj.
Qed.

(** *** What the steps of a producer do to the consumer's view *)
Definition push (w : view) (n : addr) : view :=
  match w with
  | VEmpty => VEmpty
  | VOpening i o back => VOpening i o (back ++ [n])
  | VOpen fs o todo rev back => VOpen fs o todo rev (back ++ [n])
  end.
Lemma nodes_push w n : w <> VEmpty -> nodes (push w n) = nodes w ++ [n].
Proof. destruct w; [done| |]; intros _; cbn [push nodes]; [done|]. rewrite <- !app_assoc. cbn [app]. by rewrite <- !app_assoc. Qed.
Lemma announced_push w n : announced (push w n) = announced w.
Proof. by destruct w. Qed.
Lemma settled_push w n : settled w -> settled (push w n).
Proof. by destruct w. Qed.

Lemma crel_frame s s' w gone pc ph :
  _cur_enqueue_node s' = _cur_enqueue_node s -> _cur_dequeue_node s' = _cur_dequeue_node s ->
  (forall a x, load_next s a = Some x -> x <> UNCONNECTED -> load_next s' a = Some x) ->
  crel s w gone pc ph -> crel s' w gone pc ph.
Proof.
  intros He Hd Hl. destruct pc; cbn [crel]; unfold avail, holding; rewrite ?He, ?Hd; try done.
  - intros (? & ? & ? & ? & t & rev & back & ? & ? & -> & Hs). do 4 (split; [done|]). exists t, rev, back.
    do 3 (split; [done|]). by apply Hl.
  - intros (? & [H|(? & ? & ? & ?)]); (split; [done|]); [by left|right]. do 2 (split; [done|]). split; [by apply Hl|done].
Qed.
Lemma crel_push s w gone pc ph n : crel s w gone pc ph -> crel s (push w n) gone pc ph.
Proof.
  destruct pc; cbn [crel]; unfold avail; rewrite ?announced_push; intros H; destruct_and?; try (destruct_or?; destruct_and?);
    repeat match goal with H : exists _, _ |- _ => destruct H end; destruct_and?; subst; cbn [push];
    eauto 15 using settled_push.
Qed.
Lemma crel_open s gone pc ph i n : crel s VEmpty gone pc ph -> crel s (VOpening i n []) gone pc ph.
Proof.
  destruct pc; cbn [crel]; unfold avail; cbn [announced settled]; intros H; destruct_and?; try done;
    repeat match goal with H : exists _, _ |- _ => destruct H end; destruct_and?; try done.
  split; [done|]. match goal with H : _ \/ _ |- _ => destruct H as [(? & ? & ? & ? & ? & ? & ?)|?] end; [done|by right].
Qed.
Lemma crel_announce s gone pc ph i o back : crel s (VOpening i o back) gone pc ph ->
  crel (set_cur_enqueue_node (Some o) s) (VOpen [] o [] [] back) gone pc ph.
Proof.
  destruct pc; cbn [crel]; unfold avail; cbn [announced settled set_cur_enqueue_node _cur_dequeue_node _cur_enqueue_node hd]; intros H;
    destruct_and?; try done; repeat match goal with H : exists _, _ |- _ => destruct H end; destruct_and?; try done.
  1-2,4: do 2 (split; [done|]); split; [done|]; left; naive_solver.
  split; [done|]. match goal with H : _ \/ _ |- _ => destruct H as [(? & ? & ? & ? & ? & ? & ?)|?] end; [done|right]. naive_solver.
Qed.

(** *** The steps of a producer *)
Definition simulated (s : state) (d : fifo) (c : choice) : Prop :=
  exists s' a d', step c s = Some (s', a) /\ asteps d a d' /\ sim s' d'.

Lemma shape_map s s' ps i pc' op w :
  _head s' = _head s -> (forall n, ps !! i <> Some (Enq3 n) /\ ps !! i <> Some (Enq4 n)) ->
  (forall fs o lo todo rev back, nodes w = fs ++ o :: todo ++ rev ++ back ->
    (lo = UNCONNECTED -> exists j, ps !! j = Some (Enq3 o)) ->
    owned (load_next s) (wait ps) (_head s) fs o lo todo rev back ->
    owned (load_next s') (wait (<[i := pc']> ps)) (_head s) fs o lo todo rev back) ->
  shape s ps op w -> shape s' (<[i := pc']> ps) op w.
Proof.
  intros Hhd Hi Ho. destruct w; cbn [shape nodes] in *; rewrite Hhd; [done| |].
  - intros [-> [[Hps H]|[Hps H]]]; (split; [done|]); [left|right].
    all: rewrite list_lookup_insert_ne by (intros ->; by destruct (Hi o)); split; [done|]; apply Ho; try done.
    intros _. by exists i0.
  - intros [-> H]. split; [done|]. by apply Ho.
Qed.
Lemma shape_owned s ps op w a : shape s ps op w -> w <> VEmpty ->
  exists fs o lo todo rev back, nodes w = fs ++ o :: todo ++ rev ++ back /\ _head s = Some (top o (todo ++ rev ++ back)) /\
    owned (load_next s) (wait ps) (_head s) fs o lo todo rev back /\
    (load_next s a = Some UNCONNECTED -> a <> o \/ exists j, ps !! j = Some (Enq3 o)).
Proof.
  destruct w; [done| |]; cbn [shape nodes]; intros H _.
  - destruct H as [_ [[Hps H]|[Hps H]]]; eexists [], o, _, [], [], back; (split; [done|]); (split; [apply H|]); (split; [done|]).
    + intros _. right. by exists i.
    + intros Ha. left. intros ->. destruct H. congruence.
  - destruct H as [_ H]. eexists fs, o, _, todo, rev, back. split; [done|]. split; [apply H|]. split; [done|].
    intros Ha. left. intros ->. destruct H. congruence.
Qed.
Lemma mpsc_wait_mono ps i pc' pc : ps !! i = Some pc -> (forall a b, pc <> Enq2 a b) ->
  forall a b, wait ps a b -> wait (<[i := pc']> ps) a b.
Proof.
  intros Hi Hpc a b [j Hj]. exists j. rewrite list_lookup_insert_ne; [done|]. intros ->. rewrite Hi in Hj. simplify_eq. by eapply Hpc.
Qed.
Lemma val_heap s s' pc a : heap s' !! a ≫= data = heap s !! a ≫= data -> val s' pc a = val s pc a.
Proof. unfold val. by intros ->. Qed.
Lemma lookup_pnode (ps : list producer_pc) i pc a : ps !! i = Some pc -> pnode pc = Some a -> ps !! i ≫= pnode = Some a.
Proof. by intros ->. Qed.

Section Producer.
Context (s : state) (d : fifo) (w : view) (gone : list addr) (i : nat).
Hypothesis Hsim : simv s d w gone.

Lemma producer_phase pc : producers s !! i = Some pc ->
  exists ph, a_producers d !! i = Some ph /\ prel (q s) pc ph /\ (i < length (producers s))%nat /\ (i < length (a_producers d))%nat.
Proof.
  intros Hpc. destruct (Forall2_lookup_l _ _ _ _ _ (sm_producers _ _ _ _ Hsim) Hpc) as (ph & Hph & Hr).
  exists ph. split; [done|]. split; [done|]. split; by eapply lookup_lt_Some.
Qed.
Lemma not_dying pc : producers s !! i = Some pc -> pc <> PIdle -> dying s = false.
Proof.
  intros Hpc Hne. destruct (dying s) eqn:Hd; [|done]. destruct (sm_dying _ _ _ _ Hsim Hd) as [HF _].
  by apply (Forall_lookup_1 _ _ _ _ HF) in Hpc as <-.
Qed.

(** The opener's node is the first. *)
Lemma opener_view j n : producers s !! j = Some (Enq3 n) \/ producers s !! j = Some (Enq4 n) ->
  exists back, w = VOpening j n back.
Proof.
  intros Hj. pose proof (sm_opener _ _ _ _ Hsim j n Hj) as Hop. pose proof (sm_shape _ _ _ _ Hsim) as Hs. rewrite Hop in Hs.
  destruct w; cbn [shape] in Hs; destruct Hs as [? Hs]; simplify_eq. exists back. f_equal.
  destruct Hs as [[Hs _]|[Hs _]], Hj; congruence.
Qed.
(** The node of a producer: its own until the exchange, then in the list. *)
Lemma busy_node j a : producers s !! j ≫= pnode = Some a -> producers s !! j = Some (Enq1 a) \/ a ∈ nodes w.
Proof.
  destruct (producers s !! j) as [pc|] eqn:Hj; [|done]. intros Ha. destruct pc; simplify_eq/=.
  - by left.
  - right. by apply (sm_linking _ _ _ _ Hsim j _ prev).
  - right. destruct (opener_view j a) as [back ->]; [by left|left].
  - right. destruct (opener_view j a) as [back ->]; [by right|left].
Qed.
Lemma busy_dom j a : producers s !! j ≫= pnode = Some a -> is_Some (heap (q s) !! a).
Proof. intros [H|H]%busy_node; apply (sm_dom _ _ _ _ Hsim); eauto. Qed.

Lemma sim_alloc x mem : producers s !! i = Some (Enq0 x) -> simulated s d (SStep (Producer i) mem).
Proof.
  intros Hpc. destruct (producer_phase _ Hpc) as (ph & Hph & Hr & Hlt & Hlt'). pose proof (not_dying _ Hpc ltac:(done)) as Hdy.
  unfold simulated. cbn [step]. rewrite Hpc. cbn [Enqueue_step]. destruct (heap (q s) !! mem) eqn:Hm.
  - cbn [mbind option_bind ret]. rewrite list_insert_id by done. eexists _, [], d. split; [done|]. split; [apply asteps_refl|].
    exists w, gone. destruct s. apply Hsim.
  - cbn [mbind option_bind ret]. eexists _, [], d. split; [done|]. split; [apply asteps_refl|]. exists w, gone.
    assert (forall a, is_Some (heap (q s) !! a) -> a <> mem) as Hne by (intros a Ha ->; rewrite Hm in Ha; by destruct Ha).
    set (s' := set_heap (<[mem:=mkNode UNCONNECTED (Some x)]> (heap (q s))) (q s)).
    assert (forall a, a <> mem -> heap s' !! a = heap (q s) !! a) as Hsame
      by (intros a Ha; cbn [s' set_heap heap]; by rewrite lookup_insert_ne).
    assert (forall a, a ∈ nodes w -> heap s' !! a = heap (q s) !! a) as Hnodes
      by (intros a Ha; apply Hsame, Hne; apply (sm_dom _ _ _ _ Hsim); by left).
    assert (mem ∉ nodes w ++ gone) as Hnot
      by (rewrite elem_of_app; intros Hin; apply (Hne mem); [apply (sm_dom _ _ _ _ Hsim); tauto|done]).
    pose proof busy_dom as Hbusy. destruct Hsim as [H1 H2 H3 H4 H5 H6 H7 H8 H9 H10 H11 H12]. rewrite Hdy in *.
    split; cbn [q producers consumer dying]; try done.
    + rewrite <- (list_insert_id (a_producers d) i ph) by done. apply (producers_update _ _ (q s)); [done| |].
      * intros j a _ Ha. by eapply Hsame, Hne, Hbusy.
      * cbn [prel] in *. exists x. split; [done|]. cbn [s' set_heap heap]. by rewrite lookup_insert_eq.
    + apply inj_update; [done|]. intros a j [= <-] Ha. exfalso. by apply (Hne mem); [eapply Hbusy|].
    + apply (shape_map (q s)); [done|by rewrite Hpc| |done]. intros * Hw _. apply owned_ext.
      * intros a Ha. apply load_next_eq, Hnodes. by rewrite Hw.
      * intros a c _. by apply (mpsc_wait_mono _ i _ (Enq0 x)).
    + apply (crel_frame (q s)); [done|done| |done]. intros a y Hy _. rewrite <- Hy. apply load_next_eq, Hsame, Hne.
      apply load_next_heap in Hy as (? & -> & _). done.
    + apply Forall2_same_length_lookup. split; [by eapply Forall2_length|]. intros k a y Ha Hy.
      rewrite <- (Forall2_lookup_lr _ _ _ _ _ _ H5 Ha Hy). apply val_heap. rewrite Hnodes; [done|]. by eapply list_elem_of_lookup_2.
    + intros a. destruct (decide (a = mem)) as [->|Ha].
      * cbn [s' set_heap heap]. rewrite lookup_insert_eq. split; [|done]. intros _. right; right. exists i. by apply list_lookup_insert_eq.
      * rewrite (Hsame a Ha), H6. setoid_rewrite list_lookup_insert_Some. split; [|naive_solver].
        intros [?|[?|[j Hj]]]; [tauto|tauto|]. right; right. exists j. right. split; [|done]. congruence.
    + intros j a. rewrite list_lookup_insert_Some. intros [(<- & [= ->] & _)|[_ Hj]]; [done|by eapply H8].
    + intros j a b. rewrite list_lookup_insert_Some. naive_solver.
    + intros j n. rewrite !list_lookup_insert_Some. naive_solver.
Qed.

Lemma vals_frame pc (l : list addr) (xs : list T) s1 s2 :
  (forall a, a ∈ l -> heap s2 !! a ≫= data = heap s1 !! a ≫= data) ->
  Forall2 (fun a x => val s1 pc a = Some x) l xs -> Forall2 (fun a x => val s2 pc a = Some x) l xs.
Proof.
  intros Hd HF. apply Forall2_same_length_lookup. split; [by eapply Forall2_length|]. intros k a y Ha Hy.
  rewrite <- (Forall2_lookup_lr _ _ _ _ _ _ HF Ha Hy). apply val_heap, Hd. by eapply list_elem_of_lookup_2.
Qed.
(** A node that nobody has taken has its value. *)
Lemma val_private n x : producers s !! i = Some (Enq1 n) -> heap (q s) !! n = Some (mkNode UNCONNECTED (Some x)) ->
  val (q s) (consumer s) n = Some x.
Proof.
  intros Hpc Hn. unfold val. destruct (hand (consumer s)) as [[m y]|] eqn:Hh; [|by rewrite Hn]. case_decide as Hm; [|by rewrite Hn].
  subst m. exfalso. apply (sm_private _ _ _ _ Hsim i n Hpc), elem_of_app. pose proof (sm_consumer _ _ _ _ Hsim) as Hc.
  assert (announced w = Some n -> n ∈ nodes w) as Hann.
  { destruct w as [| |[|f fs] o todo rev back]; simpl; try done; intros [= ->]; set_solver. }
  destruct (consumer s); simplify_eq/=; repeat case_match; simplify_eq; destruct_and?;
    try (left; by apply Hann); repeat match goal with H : exists _, _ |- _ => destruct H end; destruct_and?; subst; try (left; simpl; set_solver).
  match goal with H : _ \/ _ |- _ => destruct H as [(? & ? & ? & ? & ? & ? & ->)|(? & -> & ?)] end; simpl; set_solver.
Qed.

Lemma sim_exchange_first mem n : w = VEmpty -> producers s !! i = Some (Enq1 n) -> simulated s d (SStep (Producer i) mem).
Proof.
  intros Hw Hpc. destruct (producer_phase _ Hpc) as (ph & Hph & (x & -> & Hn) & Hlt & Hlt'). pose proof (not_dying _ Hpc ltac:(done)) as Hdy.
  pose proof (val_private n x Hpc Hn) as Hval. pose proof (lookup_pnode _ _ _ n Hpc eq_refl) as Hbusy.
  unfold simulated. cbn [step]. rewrite Hpc. cbn [Enqueue_step].
  destruct Hsim as [H1 H2 H3 H4 H5 H6 H7 H8 H9 H10 H11 H12]. rewrite Hdy in *.
  pose proof (H8 i n Hpc) as Hfresh. rewrite elem_of_app in Hfresh.
  assert (load_next (q s) n = Some UNCONNECTED) as Hun by (unfold load_next; by rewrite Hn).
  rewrite Hw in *. cbn [shape] in H3. destruct H3 as [-> Hop]. destruct d as [l op ts c]; cbn [opener items a_producers a_consumer] in *.
  subst op. apply Forall2_nil_inv_l in H5 as ->. cbn [mbind option_bind ret].
  eexists _, [], (mkF [x] (Some i) (<[i := Done Enqueued]> ts) c). split; [done|]. split; [apply fifo_steps_one; by apply a_enqueue_first|].
  exists (VOpening i n []), gone. split; cbn [q producers consumer dying opener items a_producers a_consumer nodes]; try done.
  - apply (producers_update _ _ (q s)); [done|done|]. by cbn [prel].
  - apply inj_update; [done|]. intros a j [= <-] Ha. by eapply H2.
  - cbn [shape]. split; [done|]. left. rewrite list_lookup_insert_eq by done. split; [done|]. by apply owned_open.
  - apply crel_open, (crel_frame (q s)); done.
  - constructor; [|done]. done.
  - intros a. rewrite H6. rewrite list_elem_of_singleton. setoid_rewrite list_lookup_insert_Some. cbn [nodes]. split.
    + intros [[]%elem_of_nil|[?|[j Hj]]]; [tauto|]. destruct (decide (j = i)) as [->|Hji]; [left; congruence|]. right; right. exists j. right. done.
    + intros [->|[?|[j [(? & ? & ?)|[? ?]]]]]; [|tauto|done|]; right; right; eauto.
  - intros a Ha ->%list_elem_of_singleton. tauto.
  - intros j a. rewrite list_lookup_insert_Some. intros [(_ & ? & _)|[Hji Hj]]; [done|]. rewrite elem_of_app, list_elem_of_singleton.
    pose proof (H8 j a Hj) as Ha. intros [->|Hg]; [|by apply Ha]. destruct Hji. apply (H2 _ _ n); [done|]. by rewrite Hj.
  - intros j a b. rewrite list_lookup_insert_Some. intros [(_ & ? & _)|[Hji Hj]]; [done|]. pose proof (H9 j a b Hj) as Hx. by apply elem_of_nil in Hx.
  - intros j m. rewrite !list_lookup_insert_Some. intros [[(<- & _)|[_ Hj]]|[(<- & _)|[_ Hj]]]; [done| |done|]; (assert (@None nat = Some j) by (apply (H10 j m); eauto); done).
Qed.
Lemma sim_exchange_next mem n : w <> VEmpty -> producers s !! i = Some (Enq1 n) -> simulated s d (SStep (Producer i) mem).
Proof.
  intros Hw Hpc. destruct (producer_phase _ Hpc) as (ph & Hph & (x & -> & Hn) & Hlt & Hlt'). pose proof (not_dying _ Hpc ltac:(done)) as Hdy.
  pose proof (val_private n x Hpc Hn) as Hval. pose proof (lookup_pnode _ _ _ n Hpc eq_refl) as Hbusy.
  unfold simulated. cbn [step]. rewrite Hpc. cbn [Enqueue_step].
  destruct Hsim as [H1 H2 H3 H4 H5 H6 H7 H8 H9 H10 H11 H12]. rewrite Hdy in *.
  pose proof (H8 i n Hpc) as Hfresh. rewrite elem_of_app in Hfresh.
  assert (load_next (q s) n = Some UNCONNECTED) as Hun by (unfold load_next; by rewrite Hn).
  destruct (shape_owned _ _ _ _ n H3 Hw) as (fs & o & lo & todo & rev & back & Hnodes & Hhd & Ho & _). rewrite Hhd. cbn [mbind option_bind ret].
  set (s' := set_head (Some n) (q s)). set (prev := top o (todo ++ rev ++ back)).
  destruct d as [l op ts c]; cbn [opener items a_producers a_consumer] in *.
  eexists _, [], (mkF (l ++ [x]) op (<[i := Done Enqueued]> ts) c). split; [done|]. split.
  { apply fifo_steps_one, a_enqueue; [done|]. intros ->. apply Forall2_nil_inv_r in H5. rewrite H5 in Hnodes. by destruct fs. }
  exists (push w n), gone. split; cbn [q producers consumer dying opener items a_producers a_consumer]; rewrite ?nodes_push by done; try done.
  - apply (producers_update _ _ (q s)); [done|done|]. by cbn [prel].
  - apply inj_update; [done|]. intros a j [= <-] Ha. by eapply H2.
  - assert (forall fs o lo todo rev back, nodes w = fs ++ o :: todo ++ rev ++ back -> 
      owned (load_next (q s)) (wait (producers s)) (_head (q s)) fs o lo todo rev back ->
      owned (load_next s') (wait (<[i := Enq2 n prev]> (producers s))) (_head s') fs o lo todo rev (back ++ [n])) as Hpush.
    { intros fs' o' lo' todo' rev' back' Hw' Ho'. apply (owned_push (load_next (q s)) _ (wait (producers s)) _ (_head (q s))); try done.
      * rewrite <- Hw'. tauto.
      * intros a b. by apply (mpsc_wait_mono _ i _ (Enq1 n)).
      * exists i. rewrite list_lookup_insert_eq by done. pose proof (ow_head _ _ _ _ _ _ _ _ _ Ho') as Hh. unfold prev. congruence. }
    destruct w; cbn [shape push nodes] in *; [done| |].
    + destruct H3 as [-> [[Hps H3]|[Hps H3]]]; (split; [done|]); [left|right].
      all: rewrite list_lookup_insert_ne by congruence; split; [done|]; by apply Hpush.
    + destruct H3 as [-> H3]. split; [done|]. by apply Hpush.
  - apply crel_push, (crel_frame (q s)); done.
  - apply Forall2_app; [done|]. constructor; [|done]. done.
  - intros a. change (heap s' !! a) with (heap (q s) !! a). rewrite H6, elem_of_app, list_elem_of_singleton. setoid_rewrite list_lookup_insert_Some. split.
    + intros [?|[?|[j Hj]]]; [tauto|tauto|]. destruct (decide (j = i)) as [->|Hji]; [left; right; congruence|]. right; right. exists j. right. done.
    + intros [[?| ->]|[?|[j [(? & ? & ?)|[? ?]]]]]; [tauto| |tauto|done|]; right; right; eauto.
  - intros a Ha. rewrite elem_of_app, list_elem_of_singleton. intros [Hin| ->]; [by apply (H7 a)|tauto].
  - intros j a. rewrite list_lookup_insert_Some. intros [(_ & ? & _)|[Hji Hj]]; [done|]. rewrite !elem_of_app, list_elem_of_singleton.
    pose proof (H8 j a Hj) as Ha. rewrite elem_of_app in Ha. intros [[?| ->]|Hg]; [tauto| |tauto]. destruct Hji. apply (H2 _ _ n); [done|]. by rewrite Hj.
  - intros j a b. rewrite list_lookup_insert_Some, elem_of_app, list_elem_of_singleton. intros [(_ & [= -> _] & _)|[Hji Hj]]; [by right|]. left. by eapply H9.
  - intros j m. rewrite !list_lookup_insert_Some. intros [[(_ & ? & _)|[_ Hj]]|[(_ & ? & _)|[_ Hj]]]; try done; apply (H10 j m); eauto.
Qed.

(** What a producer that stores to its node in the list leaves to be shown. *)
Lemma sim_store (n : addr) x pc pc' ph' op' l' w' q' :
  producers s !! i = Some pc -> pnode pc = Some n -> n ∈ nodes w -> (pnode pc' = Some n \/ pnode pc' = None) ->
  (forall a, pc' <> Enq1 a) -> (forall a, pc <> Enq1 a) -> (forall a b, pc' <> Enq2 a b) -> (forall a, pc' = Enq3 a \/ pc' = Enq4 a -> op' = Some i) ->
  (forall j, j <> i -> opener d = Some j -> op' = Some j) -> nodes w' = nodes w -> l' = items d ->
  (forall b, b <> n -> heap q' !! b = heap (q s) !! b) -> (forall b, heap q' !! b ≫= data = heap (q s) !! b ≫= data) ->
  (forall b, is_Some (heap q' !! b) <-> is_Some (heap (q s) !! b)) -> load_next q' n = x -> prel q' pc' ph' -> dying s = false ->
  shape q' (<[i := pc']> (producers s)) op' w' -> crel q' w' gone (consumer s) (a_consumer d) ->
  simv (mkS q' (<[i := pc']> (producers s)) (consumer s) false) (mkF l' op' (<[i := ph']> (a_producers d)) (a_consumer d)) w' gone.
Proof.
  intros Hpc Hpn Hin Hpn' Hne1 Hne1' Hne2 Hop Hop' Hw -> Hh Hdat Hdom Hx Hrel Hdy Hsh Hcr.
  pose proof (lookup_pnode _ _ _ n Hpc Hpn) as Hbusy. destruct Hsim as [H1 H2 H3 H4 H5 H6 H7 H8 H9 H10 H11 H12].
  rewrite Hdy in *. split; cbn [q producers consumer dying opener items a_producers a_consumer]; rewrite ?Hw; try done.
  - apply (producers_update _ _ (q s)); [done| |done]. intros j a Hj Ha. apply Hh. intros ->. apply Hj. by eapply H2.
  - apply inj_update; [done|]. intros a j Ha Hj. destruct Hpn' as [Hp|Hp]; rewrite Hp in Ha; simplify_eq. by eapply H2.
  - by apply (vals_frame _ _ _ (q s)).
  - intros a. rewrite Hdom, H6. setoid_rewrite list_lookup_insert_Some. split.
    + intros [?|[?|[j Hj]]]; [tauto|tauto|]. right; right. exists j. right. split; [|done]. intros ->. rewrite Hpc in Hj. simplify_eq. by eapply Hne1'.
    + intros [?|[?|[j [(? & ? & ?)|[? ?]]]]]; [tauto|tauto| |]; [by eapply Hne1 in H0|eauto].
  - intros j a. rewrite list_lookup_insert_Some. intros [(_ & ? & _)|[_ Hj]]; [by eapply Hne1 in H|by eapply H8].
  - intros j a b. rewrite list_lookup_insert_Some. intros [(_ & ? & _)|[_ Hj]]; [by eapply Hne2 in H|by eapply H9].
  - intros j m. rewrite !list_lookup_insert_Some. intros [[(<- & ? & _)|[Hij Hj]]|[(<- & ? & _)|[Hij Hj]]]; try (by eapply Hop; eauto).
    all: apply Hop'; [done|]; eapply H10; eauto.
Qed.

Lemma sim_link mem n prev : producers s !! i = Some (Enq2 n prev) -> simulated s d (SStep (Producer i) mem).
Proof.
  intros Hpc. destruct (producer_phase _ Hpc) as (ph & Hph & (-> & Hn) & Hlt & Hlt'). pose proof (not_dying _ Hpc ltac:(done)) as Hdy.
  pose proof (sm_linking _ _ _ _ Hsim i n prev Hpc) as Hin. pose proof (lookup_pnode _ _ _ n Hpc eq_refl) as Hbusy.
  destruct (load_next_heap _ _ _ Hn) as (nd & Hnd & Hnx). destruct (load_store (q s) n (To prev) nd Hnd) as (s' & Hst & Hl & Hh & Hdat & Hdom & Hhd & He & Hdq).
  assert (forall a, a <> n -> load_next s' a = load_next (q s) a) as Hlo by (intros a Ha; by apply load_next_eq, Hh).
  unfold simulated. cbn [step]. rewrite Hpc. cbn [Enqueue_step]. rewrite Hst, Hdy. cbn [mbind option_bind ret].
  eexists _, _, (mkF (items d) (opener d) (<[i := Idle]> (a_producers d)) (a_consumer d)). split; [done|].
  assert (opener d <> Some i) as Hni.
  { intros Hop. pose proof (sm_shape _ _ _ _ Hsim) as H3. rewrite Hop in H3. destruct w; cbn [shape] in H3; destruct H3 as [? H3]; simplify_eq.
    destruct H3 as [[? _]|[? _]]; congruence. }
  split. { destruct d. apply fifo_steps_one. by apply a_ret_producer. }
  exists w, gone. apply (sim_store n (Some (To prev)) (Enq2 n prev)); try done; try by (right || intros ? [?|?]).
  - apply (shape_map (q s)); [done|by rewrite Hpc| |apply Hsim]. intros fs o lo todo rev back Hw Hlo3 Ho.
    apply (owned_link (load_next (q s)) _ (wait (producers s)) _ _ _ _ _ _ _ _ n prev Ho); try done.
    + intros ->. pose proof (ow_last _ _ _ _ _ _ _ _ _ Ho) as Hl0. destruct Hlo3 as [j Hj]; [congruence|].
      assert (i = j) as ->; [|congruence]. eapply (sm_inj _ _ _ _ Hsim); [done|]. by rewrite Hj.
    + intros b [j Hj]. assert (i = j) as ->; [|congruence]. eapply (sm_inj _ _ _ _ Hsim); [done|]. by rewrite Hj.
    + intros a b Ha [j Hj]. exists j. rewrite list_lookup_insert_ne; [done|]. intros ->. congruence.
  - apply (crel_frame (q s)); [done|done| |apply Hsim]. intros a y Hy Hne. rewrite Hlo; [done|]. intros ->. congruence.
Qed.
Lemma sim_terminate mem n : producers s !! i = Some (Enq3 n) -> simulated s d (SStep (Producer i) mem).
Proof.
  intros Hpc. destruct (producer_phase _ Hpc) as (ph & Hph & (-> & Hn) & Hlt & Hlt'). pose proof (not_dying _ Hpc ltac:(done)) as Hdy.
  destruct (opener_view i n) as [back Hw]; [by left|]. pose proof (sm_opener _ _ _ _ Hsim i n (or_introl Hpc)) as Hop.
  destruct (load_next_heap _ _ _ Hn) as (nd & Hnd & Hnx). destruct (load_store (q s) n Null nd Hnd) as (s' & Hst & Hl & Hh & Hdat & Hdom & Hhd & He & Hdq).
  assert (forall a, a <> n -> load_next s' a = load_next (q s) a) as Hlo by (intros a Ha; by apply load_next_eq, Hh).
  unfold simulated. cbn [step]. rewrite Hpc. cbn [Enqueue_step]. rewrite Hst, Hdy. cbn [mbind option_bind ret].
  eexists _, _, (mkF (items d) (opener d) (<[i := Done Enqueued]> (a_producers d)) (a_consumer d)). split; [done|].
  split. { rewrite list_insert_id by done. destruct d. apply asteps_refl. }
  exists w, gone. apply (sim_store n (Some Null) (Enq3 n)); try done; try by left.
  - rewrite Hw. left.
  - pose proof (sm_shape _ _ _ _ Hsim) as H3. rewrite Hw in *. cbn [shape] in *. destruct H3 as [_ [[_ H3]|[? _]]]; [|congruence].
    split; [done|]. right. rewrite list_lookup_insert_eq by done. split; [done|]. rewrite Hhd. pose proof (ow_head _ _ _ _ _ _ _ _ _ H3) as Hh0.
    cbn [app] in Hh0. rewrite Hh0 in *. apply (owned_terminate (load_next (q s)) _ _ n back UNCONNECTED); [done|done|].
    apply (owned_ext (load_next (q s)) _ (wait (producers s))); [done| |done]. intros a b _. by apply (mpsc_wait_mono _ i _ (Enq3 n)).
  - apply (crel_frame (q s)); [done|done| |apply Hsim]. intros a y Hy Hne. rewrite Hlo; [done|]. intros ->. congruence.
Qed.
Lemma sim_announce mem n : producers s !! i = Some (Enq4 n) -> simulated s d (SStep (Producer i) mem).
Proof.
  intros Hpc. destruct (producer_phase _ Hpc) as (ph & Hph & Hr & Hlt & Hlt'). cbn [prel] in Hr. subst ph. pose proof (not_dying _ Hpc ltac:(done)) as Hdy.
  destruct (opener_view i n) as [back Hw]; [by right|]. pose proof (sm_opener _ _ _ _ Hsim i n (or_intror Hpc)) as Hop.
  unfold simulated. cbn [step]. rewrite Hpc. cbn [Enqueue_step]. rewrite Hdy. cbn [mbind option_bind ret].
  eexists _, _, (mkF (items d) None (<[i := Idle]> (a_producers d)) (a_consumer d)). split; [done|].
  split. { apply fifo_steps_one. clear Hsim. destruct d as [l op ts c]; cbn [opener items a_producers a_consumer] in *. subst op. by apply a_ret_opener. }
  exists (VOpen [] n [] [] back), gone.
  pose proof (sm_shape _ _ _ _ Hsim) as H3. rewrite Hw in H3. cbn [shape] in H3. destruct H3 as [_ [[? _]|[_ H3]]]; [congruence|].
  pose proof (sm_consumer _ _ _ _ Hsim) as Hc. rewrite Hw in Hc.
  apply (sim_store n (load_next (q s) n) (Enq4 n)); try done; try by (right || intros ? [?|?]).
  - rewrite Hw. left.
  - intros j Hj Hoj. congruence.
  - by rewrite Hw.
  - cbn [shape]. split; [done|]. apply (owned_ext (load_next (q s)) _ (wait (producers s))); [done| |done]. intros a b _. by apply (mpsc_wait_mono _ i _ (Enq4 n)).
  - by apply (crel_announce _ _ _ _ i).
Qed.
Lemma producer_sim mem pc : producers s !! i = Some pc -> pc <> PIdle -> simulated s d (SStep (Producer i) mem).
Proof.
  intros Hpc Hne. destruct pc; [done|by eapply sim_alloc| |by eapply sim_link|by eapply sim_terminate|by eapply sim_announce].
  destruct (decide (w = VEmpty)); [by eapply sim_exchange_first|by eapply sim_exchange_next].
Qed.
End Producer.

(** *** The steps of the consumer *)

(** How far the consumer is from its return: the nodes it still has to turn round and
    the steps around them; [weight] counts the nodes that the destructor has to free. *)
Definition unturned (w : view) : nat := match w with VOpen _ _ todo _ _ => length todo | _ => 0 end.
Definition unseen (w : view) : nat := match w with VOpen _ _ _ _ back => length back | _ => 0 end.
Definition rank (w : view) (pc : consumer_pc) : nat :=
  match pc with
  | CIdle => 0 | Deq5 _ _ _ => 1 | Deq4 _ _ _ => 2 | Rev3 _ _ _ _ => 3
  | Rev2 _ _ _ _ _ _ => 2 * unturned w + 2 | Rev1 _ _ _ _ _ => 2 * unturned w + 3 | Rev0 _ _ _ => 2 * unseen w + 4
  | Deq3 _ _ _ => 2 * unseen w + 5 | Deq2 _ _ => 2 * unseen w + 6 | Deq1 _ _ => 2 * unseen w + 7 | Deq0 _ => 2 * unseen w + 8
  end.
Definition weight (w : view) (gone : list addr) : nat := length (nodes w) + length gone.
Definition progress (w : view) (gone : list addr) (pc : consumer_pc) (w' : view) (gone' : list addr) (pc' : consumer_pc) : Prop :=
  (weight w' gone' < weight w gone /\ rank w' pc' <= 2 * weight w' gone' + 8 \/
   weight w' gone' = weight w gone /\ rank w' pc' < rank w pc)%nat.
(** Some thread is between the exchange and the store to [next]. *)
Definition linking (ps : list producer_pc) : Prop := exists j a b, ps !! j = Some (Enq2 a b).
Section Consumer.
Context (s : state) (d : fifo) (w : view) (gone : list addr).
Hypothesis Hsim : simv s d w gone.

(** A node of the announced list that is linked belongs to no producer. *)
Lemma linked_not_busy fs o todo rev back a x j : w = VOpen fs o todo rev back -> a ∈ nodes w ->
  load_next (q s) a = Some x -> x <> UNCONNECTED -> producers s !! j ≫= pnode = Some a -> False.
Proof.
  intros Hw Ha Hx Hne. destruct (producers s !! j) as [pc|] eqn:Hj; [|done]. intros Hp.
  destruct (Forall2_lookup_l _ _ _ _ _ (sm_producers _ _ _ _ Hsim) Hj) as (ph & _ & Hr).
  pose proof (sm_shape _ _ _ _ Hsim) as Hop. rewrite Hw in Hop. destruct Hop as [Hop _].
  destruct pc; simplify_eq/=.
  - apply (sm_private _ _ _ _ Hsim j a Hj). set_solver.
  - destruct Hr as [_ Hr]. congruence.
  - destruct Hr as [_ Hr]. congruence.
  - pose proof (sm_opener _ _ _ _ Hsim j a (or_intror Hj)). congruence.
Qed.

Lemma consumer_update q' pc' w' gone' l' ph' :
  (forall j a, producers s !! j ≫= pnode = Some a -> heap q' !! a = heap (q s) !! a) ->
  (forall a, is_Some (heap q' !! a) <-> a ∈ nodes w' ++ gone' \/ is_Some (heap (q s) !! a) /\ a ∉ nodes w ++ gone) ->
  (forall a, a ∈ nodes w' ++ gone' -> a ∈ nodes w ++ gone) ->
  (forall a, a ∈ gone' -> a ∉ nodes w') ->
  (forall j a b, producers s !! j = Some (Enq2 a b) -> a ∈ nodes w') ->
  shape q' (producers s) (opener d) w' -> crel q' w' gone' pc' ph' ->
  Forall2 (fun a x => val q' pc' a = Some x) (nodes w') l' ->
  (pc' <> CIdle -> destroying pc' = dying s) -> (dying s = true -> pc' = CIdle -> w' = VEmpty) ->
  simv (mkS q' (producers s) pc' (dying s)) (mkF l' (opener d) (a_producers d) ph') w' gone'.
Proof.
  intros Hh Hdom Hsub Hg Hlk Hsh Hcr Hv Hout Hdy. destruct Hsim as [H1 H2 H3 H4 H5 H6 H7 H8 H9 H10 H11 H12].
  split; cbn [q producers consumer dying opener items a_producers a_consumer]; try done.
  - by apply (producers_heap _ _ (q s)).
  - intros a. rewrite Hdom, H6, !elem_of_app. split; [naive_solver|]. intros [?|[?|[j Hj]]]; [tauto|tauto|].
    right. split; [eauto|]. pose proof (H8 j a Hj) as Ha. by rewrite elem_of_app in Ha.
  - intros j a Hj Ha. by apply (H8 j a Hj), Hsub.
  - intros Hd. destruct (H12 Hd). eauto.
Qed.
(** Steps that change one node, which no producer is busy with. *)
Lemma consumer_touch n q' pc' w' :
  consumer s <> CIdle -> (forall j, producers s !! j ≫= pnode <> Some n) -> (forall a, a <> n -> heap q' !! a = heap (q s) !! a) ->
  is_Some (heap (q s) !! n) -> is_Some (heap q' !! n) -> nodes w' = nodes w ->
  shape q' (producers s) (opener d) w' -> crel q' w' gone pc' (a_consumer d) ->
  (forall a, a ∈ nodes w -> val q' pc' a = val (q s) (consumer s) a) ->
  destroying pc' = destroying (consumer s) -> pc' <> CIdle ->
  simv (mkS q' (producers s) pc' (dying s)) d w' gone.
Proof.
  intros Hc Hb Hh Hn Hn' Hw Hsh Hcr Hv Hdes Hci. pose proof (sm_dom _ _ _ _ Hsim) as H6. pose proof (sm_vals _ _ _ _ Hsim) as H5.
  replace d with (mkF (items d) (opener d) (a_producers d) (a_consumer d)) by by destruct d.
  apply consumer_update; rewrite ?Hw; try done; try apply Hsim.
  - intros j a Ha. apply Hh. intros ->. by eapply Hb.
  - intros a. rewrite elem_of_app. destruct (decide (a = n)) as [->|Ha]; [|rewrite (Hh a Ha)].
    + specialize (H6 n). destruct (decide (n ∈ nodes w)), (decide (n ∈ gone)); tauto.
    + specialize (H6 a). destruct (decide (a ∈ nodes w)), (decide (a ∈ gone)); tauto.
  - apply Forall2_same_length_lookup. split; [by eapply Forall2_length|]. intros k a x Ha Hx. rewrite Hv by by eapply list_elem_of_lookup_2.
    apply (Forall2_lookup_lr _ _ _ _ _ _ H5 Ha Hx).
  - intros _. rewrite Hdes. by apply (sm_out _ _ _ _ Hsim).
Qed.
(** Steps that touch neither the heap nor the list. *)
Lemma consumer_stutter q' pc' ph' : consumer s <> CIdle ->
  heap q' = heap (q s) -> _head q' = _head (q s) -> hand pc' = hand (consumer s) -> destroying pc' = destroying (consumer s) ->
  pc' <> CIdle -> crel q' w gone pc' ph' -> ph' = a_consumer d ->
  simv (mkS q' (producers s) pc' (dying s)) d w gone.
Proof.
  intros Hc Hh Hhd Hhand Hdes Hci Hcr ->. pose proof (sm_shape _ _ _ _ Hsim) as H3. pose proof (sm_vals _ _ _ _ Hsim) as H5.
  pose proof (sm_dom _ _ _ _ Hsim) as H6.
  replace d with (mkF (items d) (opener d) (a_producers d) (a_consumer d)) by by destruct d.
  apply consumer_update; try done.
  - by rewrite Hh.
  - intros a. rewrite Hh, H6, elem_of_app. destruct (decide (a ∈ nodes w)), (decide (a ∈ gone)); tauto.
  - apply (sm_gone _ _ _ _ Hsim).
  - apply (sm_linking _ _ _ _ Hsim).
  - assert (load_next q' = load_next (q s)) as Hl by (unfold load_next; by rewrite Hh). destruct w; cbn [shape] in *; by rewrite ?Hl, Hhd.
  - eapply Forall2_impl; [exact H5|]. intros a x. unfold val. by rewrite Hh, Hhand.
  - intros _. rewrite Hdes. by apply (sm_out _ _ _ _ Hsim).
Qed.

Definition consumed : Prop := exists s' a d' w' gone', step (SStep Consumer 0%nat) s = Some (s', a) /\ asteps d a d' /\ simv s' d' w' gone' /\
  producers s' = producers s /\ (consumer s' = CIdle <-> a <> []) /\
  (progress w gone (consumer s) w' gone' (consumer s') \/ linking (producers s)).
Lemma step_consumer q' pc' r d' w' gone' : consumer s <> CIdle -> Dequeue_step (q s) (consumer s) = Some (q', pc', r) ->
  asteps d (ret Consumer r) d' -> (pc' = CIdle <-> r <> None) -> progress w gone (consumer s) w' gone' pc' \/ linking (producers s) ->
  simv (mkS q' (producers s) pc' (dying s)) d' w' gone' -> consumed.
Proof.
  intros Hne Hst Ha Hr Hp Hs. exists (mkS q' (producers s) pc' (dying s)), (ret Consumer r), d', w', gone'. split.
  - cbn [step]. by destruct (consumer s); rewrite ?Hst.
  - split; [done|]. split; [done|]. split; [done|]. split; [|done]. cbn [consumer]. rewrite Hr. by destruct r.
Qed.
Lemma step_stutter q' pc' : consumer s <> CIdle -> Dequeue_step (q s) (consumer s) = Some (q', pc', None) ->
  heap q' = heap (q s) -> _head q' = _head (q s) -> hand pc' = hand (consumer s) -> destroying pc' = destroying (consumer s) ->
  pc' <> CIdle -> (rank w pc' < rank w (consumer s))%nat \/ linking (producers s) -> crel q' w gone pc' (a_consumer d) -> consumed.
Proof.
  intros Hc Hst Hh Hhd Hha Hdes Hne Hrk Hcr. eapply (step_consumer _ _ _ _ w gone); [done|done|apply asteps_refl|done| |].
  - destruct Hrk as [Hrk|?]; [|by right]. left. by right.
  - by eapply consumer_stutter.
Qed.

Lemma sim_find out : consumer s = Deq0 out -> consumed.
Proof.
  intros Hc. pose proof (sm_consumer _ _ _ _ Hsim) as Hr. rewrite Hc in Hr. cbn [crel] in Hr. destruct Hr as (Hph & Hgone & Hav).
  assert ((match _cur_dequeue_node (q s) with Some n => Some n | None => _cur_enqueue_node (q s) end) = announced w) as Hf.
  { destruct Hav as [_ [[-> ->]|[-> ->]]]; [done|by destruct (announced w)]. }
  destruct (announced w) as [n|] eqn:Hw.
  - apply (step_stutter (q s) (Deq1 out n)); rewrite ?Hc; try done.
    + cbn [Dequeue_step]. by rewrite Hf.
    + left. cbn [rank]. lia.
  - pose proof (sm_shape _ _ _ _ Hsim) as H3. pose proof (sm_vals _ _ _ _ Hsim) as H5. pose proof (sm_dom _ _ _ _ Hsim) as H6.
    assert (out = false -> w = VEmpty) as Hout.
    { intros ->. pose proof (sm_out _ _ _ _ Hsim) as Ho. rewrite Hc in Ho. destruct (sm_dying _ _ _ _ Hsim (eq_sym (Ho ltac:(done)))) as [HF _].
      destruct w; try done. destruct H3 as [_ [[Hi _]|[Hi _]]]; by apply (Forall_lookup_1 _ _ _ _ HF) in Hi. }
    apply (step_consumer (q s) CIdle (Some (if out then Dequeued None else Destroyed)) (mkF (items d) (opener d) (a_producers d) Idle) w gone).
    + by rewrite Hc.
    + rewrite Hc. cbn [Dequeue_step]. by rewrite Hf.
    + clear Hsim Hc H6. destruct d as [l op ts c]; cbn [opener items a_producers a_consumer] in *. subst c. destruct out; cbn [called ret].
      * apply (fifo_steps_two _ (mkF l op ts (Done (Dequeued None)))); [|apply a_ret_consumer]. apply a_dequeue_empty.
        destruct w; [left; by apply Forall2_nil_inv_l in H5| |done]. right. destruct H3 as [-> _]. done.
      * rewrite (Hout eq_refl) in H3, H5. apply Forall2_nil_inv_l in H5 as ->. destruct H3 as [_ ->].
        apply (fifo_steps_two _ (mkF [] None ts (Done Destroyed))); [apply a_destroy|apply a_ret_consumer].
    + done.
    + left. right. split; [done|]. rewrite Hc. cbn [rank]. lia.
    + apply consumer_update; try done; try apply Hsim.
      * intros a. rewrite H6, Hgone, app_nil_r. destruct (decide (a ∈ nodes w)); set_solver.
      * eapply Forall2_impl; [exact H5|]. intros a x. by rewrite Hc.
      * intros Hd _. apply Hout. pose proof (sm_out _ _ _ _ Hsim) as Ho. rewrite Hc, Hd in Ho. destruct out; [|done]. by specialize (Ho ltac:(done)).
Qed.

Lemma sim_clear out n : consumer s = Deq1 out n -> consumed.
Proof.
  intros Hc. pose proof (sm_consumer _ _ _ _ Hsim) as Hr. rewrite Hc in Hr. cbn [crel] in Hr. destruct Hr as (Hph & Hgone & [Hset Hav] & Hann).
  apply (step_stutter (set_cur_enqueue_node None (q s)) (Deq2 out n)); rewrite ?Hc; try done; [left; cbn [rank]; lia|].
  cbn [crel]. rewrite Hann in Hav. do 2 (split; [done|]). split; [|done]. split; [done|]. cbn [set_cur_enqueue_node _cur_dequeue_node].
  destruct Hav as [[-> _]|[-> _]]; [by left|by right].
Qed.
(** The node that the consumer works on is linked and the first. *)
Lemma mpsc_front_node n : announced w = Some n -> settled w ->
  exists fs o back rest, w = VOpen fs o [] [] back /\ n = hd o fs /\ nodes w = n :: rest /\ (n ∉ rest) /\
    (fs = [] /\ n = o /\ load_next (q s) n = Some Null \/
     exists fs' a, fs = n :: fs' /\ load_next (q s) n = Some (To a) /\ a = hd o fs').
Proof.
  pose proof (sm_shape _ _ _ _ Hsim) as H3. destruct w as [| |fs o todo rev back]; try done. cbn [announced settled shape nodes] in *.
  intros [= <-] [-> ->]. destruct H3 as [_ H3]. cbn [app]. pose proof (ow_nodup _ _ _ _ _ _ _ _ _ H3) as Hnd. cbn [app] in Hnd.
  destruct fs as [|f fs]; cbn [hd app] in *.
  - exists [], o, back, back. apply NoDup_cons in Hnd as [Hn _]. split; [done|]. split; [done|]. split; [done|]. split; [done|]. left.
    split; [done|]. split; [done|]. apply H3.
  - exists (f :: fs), o, back, (fs ++ o :: back). apply NoDup_cons in Hnd as [Hn _]. split; [done|]. split; [done|]. split; [done|]. split; [done|].
    right. exists fs, (hd o fs). split; [done|]. destruct (owned_pop _ _ _ _ _ _ _ _ _ _ H3) as (_ & -> & _). split; [|done]. by destruct fs.
Qed.
Lemma front_not_busy n j a : announced w = Some n -> settled w -> producers s !! j ≫= pnode = Some a -> a <> n.
Proof.
  intros Hann Hset Ha ->. destruct (mpsc_front_node n Hann Hset) as (fs & o & back & rest & Hw & _ & Hn & _ & Hl).
  assert (exists x, load_next (q s) n = Some x /\ x <> UNCONNECTED) as (x & Hx & Hne).
  { destruct Hl as [(_ & _ & ->)|(fs' & a & _ & -> & _)]; eauto. }
  apply (linked_not_busy fs o [] [] back n x j); try done. rewrite Hn. left.
Qed.
Lemma sim_move out n : consumer s = Deq2 out n -> consumed.
Proof.
  intros Hc. pose proof (sm_consumer _ _ _ _ Hsim) as Hr. rewrite Hc in Hr. cbn [crel] in Hr. destruct Hr as (Hph & Hgone & Hho & Hset & Hann).
  destruct out; [|apply (step_stutter (q s) (Deq3 false n None)); rewrite ?Hc; try done; left; cbn [rank]; lia].
  destruct (mpsc_front_node n Hann Hset) as (fs & o & back & rest & Hw & Hno & Hnodes & Hnr & _). pose proof (sm_vals _ _ _ _ Hsim) as H5.
  rewrite Hnodes, Hc in H5. apply Forall2_cons_inv_l in H5 as (x & l & Hx & H5 & Hl). unfold val in Hx. cbn [hand] in Hx.
  destruct (heap (q s) !! n) as [[nx dt]|] eqn:Hn; [|done]. cbn [mbind option_bind data] in Hx. subst dt.
  set (q' := set_heap (<[n := mkNode nx None]> (heap (q s))) (q s)).
  assert (forall a, a <> n -> heap q' !! a = heap (q s) !! a) as Hsame by (intros a Ha; cbn [q' set_heap heap]; by rewrite lookup_insert_ne).
  assert (forall a, load_next q' a = load_next (q s) a) as Hload.
  { intros a. destruct (decide (a = n)) as [->|Ha]; [|by apply load_next_eq, Hsame]. unfold load_next. rewrite Hn. cbn [q' set_heap heap]. by rewrite lookup_insert_eq. }
  apply (step_consumer q' (Deq3 true n (Some x)) None d w gone); [by rewrite Hc| |apply asteps_refl|done| |].
  { rewrite Hc. cbn [Dequeue_step]. unfold move_data. by rewrite Hn. }
  { left. right. split; [done|]. rewrite Hc. cbn [rank]. lia. }
  apply (consumer_touch n); rewrite ?Hc; try done.
  - intros j Ha. by apply (front_not_busy n j n).
  - cbn [q' set_heap heap]. by rewrite lookup_insert_eq.
  - pose proof (sm_shape _ _ _ _ Hsim) as H3. rewrite Hw in *. destruct H3 as [H3 Ho]. split; [done|].
    by apply (owned_ext (load_next (q s)) _ (wait (producers s))).
  - rewrite Hph. cbn [crel]. split; [done|]. split; [by eexists|]. done.
  - intros a Ha. unfold val. cbn [hand]. case_decide as Han; [|by rewrite Hsame]. by rewrite Han, Hn.
Qed.

Lemma sim_test out n v : consumer s = Deq3 out n v -> consumed.
Proof.
  intros Hc. pose proof (sm_consumer _ _ _ _ Hsim) as Hr. rewrite Hc in Hr. cbn [crel] in Hr. destruct Hr as (Hph & Hmv & Hgone & Hho & Hset & Hann).
  destruct (mpsc_front_node n Hann Hset) as (fs & o & back & rest & Hw & Hno & Hnodes & Hnr & [(Hfs & Hn & Hl)|(fs' & a & Hfs & Hl & Ha)]).
  - apply (step_stutter (q s) (Rev0 out n v)); rewrite ?Hc; try done.
    + cbn [Dequeue_step]. by rewrite Hl.
    + left. cbn [rank]. lia.
    + cbn [crel]. do 4 (split; [done|]). exists back. by rewrite Hw, Hfs, Hn.
  - apply (step_stutter (q s) (Deq4 out n v)); rewrite ?Hc; try done.
    + cbn [Dequeue_step]. by rewrite Hl.
    + left. cbn [rank]. lia.
    + cbn [crel]. split; [done|]. left. do 3 (split; [done|]). exists fs', o, back. by rewrite Hw, Hfs.
Qed.
(** The value of the item that is dequeued. *)
Lemma front_value out n v rest : nodes w = n :: rest -> moved out v -> consumer s = Deq4 out n v \/ consumer s = Rev0 out n v ->
  n ∉ rest -> exists x l, items d = x :: l /\ (out = true -> v = Some x) /\ Forall2 (fun a x => heap (q s) !! a ≫= data = Some x) rest l.
Proof.
  intros Hn Hmv Hc Hnr. pose proof (sm_vals _ _ _ _ Hsim) as H5. rewrite Hn in H5. apply Forall2_cons_inv_l in H5 as (x & l & Hx & H5 & Hl).
  exists x, l. split; [done|].
  assert (hand (consumer s) = (fun x => (n, x)) <$> v) as Hh by (destruct Hc as [-> | ->]; by destruct v). unfold val in *. rewrite Hh in *. split.
  - intros ->. destruct Hmv as [y ->]. cbn [fmap option_fmap option_map] in Hx. rewrite decide_True in Hx by done. congruence.
  - apply Forall2_same_length_lookup. split; [by eapply Forall2_length|]. intros k a y Ha Hy.
    pose proof (Forall2_lookup_lr _ _ _ _ _ _ H5 Ha Hy) as Hv. destruct v; cbn [fmap option_fmap option_map] in Hv; [|done].
    rewrite decide_False in Hv; [done|]. intros ->. apply Hnr. by eapply list_elem_of_lookup_2.
Qed.
Lemma spec_dequeue out v x l : moved out v -> (out = true -> v = Some x) -> items d = x :: l -> opener d = None -> a_consumer d = called out ->
  astep d [] (mkF l (opener d) (a_producers d) (taken out v)).
Proof.
  intros Hmv Hv Hi Hop Hc. clear Hsim. destruct d as [its op ts c]; cbn [opener items a_producers a_consumer] in *. subst. destruct out; cbn [called taken].
  - rewrite (Hv eq_refl). apply a_dequeue.
  - apply a_discard.
Qed.
Lemma sim_close out n v : consumer s = Rev0 out n v -> consumed.
Proof.
  intros Hc. pose proof (sm_consumer _ _ _ _ Hsim) as Hr. rewrite Hc in Hr. cbn [crel] in Hr. destruct Hr as (Hph & Hmv & Hgone & Hho & back & Hw).
  pose proof (sm_shape _ _ _ _ Hsim) as H3. rewrite Hw in H3. destruct H3 as [Hop Ho]. pose proof (ow_head _ _ _ _ _ _ _ _ _ Ho) as Hhd. cbn [app] in Hhd.
  destruct (decide (_head (q s) = Some n)) as [Heq|Hne].
  - rewrite Heq in Ho. apply owned_alone in Ho as Hb. subst back. destruct (front_value out n v [] ltac:(by rewrite Hw) Hmv (or_intror Hc)) as (x & l & Hi & Hv & HF); [set_solver|].
    apply Forall2_nil_inv_l in HF. subst l.
    apply (step_consumer (set_head None (q s)) (Deq4 out n v) None (mkF [] (opener d) (a_producers d) (taken out v)) VEmpty [n]); [by rewrite Hc| | |done| |].
    + rewrite Hc. cbn [Dequeue_step ReverseList_step]. by rewrite decide_True.
    + apply fifo_steps_one. by apply (spec_dequeue out v x).
    + left. right. rewrite Hw, Hgone, Hc. split; [done|]. cbn [rank]. lia.
    + apply consumer_update; try done.
      * intros a. rewrite Hgone, Hw. cbn [nodes app]. change (heap (set_head None (q s)) !! a) with (heap (q s) !! a).
        rewrite (sm_dom _ _ _ _ Hsim a), Hw, Hgone. cbn [nodes app]. destruct (decide (a ∈ [n])); set_solver.
      * rewrite Hw, Hgone. done.
      * set_solver.
      * intros j a b Hj. pose proof (sm_linking _ _ _ _ Hsim j a b Hj) as Ha. rewrite Hw in Ha. apply list_elem_of_singleton in Ha as ->.
        exfalso. apply (linked_not_busy [] n [] [] [] n Null j); [done|rewrite Hw; left|apply Ho|done|by rewrite Hj].
      * cbn [crel]. split; [done|]. right. split; [done|]. split; [done|]. split; [apply Ho|]. split; [done|]. destruct Hho. done.
      * intros _. cbn [destroying]. pose proof (sm_out _ _ _ _ Hsim) as Hout. rewrite Hc in Hout. by apply Hout.
  - destruct back as [|p t _] using rev_ind; [by rewrite Hhd in Hne|]. rewrite top_snoc in Hhd.
    apply (step_consumer (q s) (Rev1 out n v p Null) None d (VOpen [] n (t ++ [p]) [] []) gone); [by rewrite Hc| |apply asteps_refl|done| |].
    + rewrite Hc. cbn [Dequeue_step ReverseList_step]. rewrite decide_False by done. by rewrite Hhd.
    + left. right. rewrite Hw, Hc. split; [unfold weight; cbn [nodes app]; by rewrite app_nil_r|]. cbn [rank unturned unseen]. lia.
    + apply (consumer_touch n); rewrite ?Hc; try done.
      * intros j Ha. apply (linked_not_busy [] n [] [] (t ++ [p]) n Null j); [done|rewrite Hw; left|apply Ho|done|done].
      * apply (sm_dom _ _ _ _ Hsim). left. rewrite Hw. left.
      * apply (sm_dom _ _ _ _ Hsim). left. rewrite Hw. left.
      * rewrite Hw. cbn [nodes app]. by rewrite app_nil_r.
      * split; [done|]. by apply owned_take.
      * cbn [crel]. do 4 (split; [done|]). by exists t, [], [].
Qed.

Lemma sim_spin out n v p tail : consumer s = Rev1 out n v p tail -> consumed.
Proof.
  intros Hc. pose proof (sm_consumer _ _ _ _ Hsim) as Hr. rewrite Hc in Hr. cbn [crel] in Hr.
  destruct Hr as (Hph & Hmv & Hgone & Hho & t & rev & back & Hw & Ht).
  pose proof (sm_shape _ _ _ _ Hsim) as H3. rewrite Hw in H3. destruct H3 as [Hop Ho].
  destruct (owned_dom _ _ _ _ _ _ _ _ _ p Ho) as [x Hx]; [set_solver|]. destruct (decide (x = UNCONNECTED)) as [Hu|Hu].
  - apply (step_stutter (q s) (Rev1 out n v p tail)); rewrite ?Hc; try done.
    + cbn [Dequeue_step ReverseList_step]. rewrite Hx. cbn [mbind option_bind]. by rewrite decide_True.
    + right. pose proof (ow_todo _ _ _ _ _ _ _ _ _ Ho) as Htodo. apply above_app in Htodo as [_ [[?|[_ [j Hj]]] _]]; [congruence|]. by exists j, p, (top n t).
    + cbn [crel]. do 4 (split; [done|]). by exists t, rev, back.
  - apply (step_stutter (q s) (Rev2 out n v p tail x)); rewrite ?Hc; try done.
    + cbn [Dequeue_step ReverseList_step]. rewrite Hx. cbn [mbind option_bind]. by rewrite decide_False.
    + left. cbn [rank]. lia.
    + cbn [crel]. do 4 (split; [done|]). exists t, rev, back. do 2 (split; [done|]). split; [by eapply owned_saved|done].
Qed.
Lemma val_store q' pc' a : (forall b, heap q' !! b ≫= data = heap (q s) !! b ≫= data) -> hand pc' = hand (consumer s) ->
  val q' pc' a = val (q s) (consumer s) a.
Proof. intros Hd Hh. unfold val. by rewrite Hh, Hd. Qed.
Lemma sim_turn out n v p tail saved : consumer s = Rev2 out n v p tail saved -> consumed.
Proof.
  intros Hc. pose proof (sm_consumer _ _ _ _ Hsim) as Hr. rewrite Hc in Hr. cbn [crel] in Hr.
  destruct Hr as (Hph & Hmv & Hgone & Hho & t & rev & back & Hw & Ht & Hs & Hp).
  pose proof (sm_shape _ _ _ _ Hsim) as H3. rewrite Hw in H3. destruct H3 as [Hop Ho].
  destruct (load_next_heap _ _ _ Hp) as (nd & Hnd & _). destruct (load_store (q s) p tail nd Hnd) as (s' & Hst & Hl & Hh & Hdat & Hdom & Hhd & He & Hdq).
  assert (owned (load_next s') (wait (producers s)) (_head s') [] n Null t (p :: rev) back) as Ho'.
  { rewrite Hhd. apply (owned_reverse (load_next (q s)) _ _ _ _ _ _ _ _ _ _ Ho); [by rewrite Hl, Ht|]. intros a Ha. by apply load_next_eq, Hh. }
  assert (holding s' n) as Hho' by (unfold holding; by rewrite He, Hdq).
  apply (step_consumer s' (if decide (top n t = n) then Rev3 out n v (To p) else Rev1 out n v (top n t) (To p)) None d (VOpen [] n t (p :: rev) back) gone).
  - by rewrite Hc.
  - rewrite Hc. cbn [Dequeue_step ReverseList_step]. rewrite Hst. cbn [mbind option_bind]. by rewrite Hs.
  - apply asteps_refl.
  - by case_decide.
  - left. right. rewrite Hw, Hc. split; [unfold weight; cbn [nodes app]; by rewrite <- !app_assoc|]. case_decide; cbn [rank unturned]; rewrite length_app; cbn [length]; lia.
  - apply (consumer_touch p); rewrite ?Hc; try done.
    + intros j Ha. apply (linked_not_busy [] n (t ++ [p]) rev back p saved j); try done; [|by rewrite Hs]. rewrite Hw. cbn [nodes]. set_solver.
    + apply Hdom. done.
    + rewrite Hw. cbn [nodes app]. by rewrite <- !app_assoc.
    + rewrite Hph. case_decide as Htop.
      * cbn [crel]. do 4 (split; [done|]). assert (t = []) as ->; [|by exists p, rev, back].
        destruct t as [|a t _] using rev_ind; [done|]. rewrite top_snoc in Htop. subst a. pose proof (ow_nodup _ _ _ _ _ _ _ _ _ Ho) as Hnd'.
        cbn [app] in Hnd'. apply NoDup_cons in Hnd' as [Hn _]. set_solver.
      * cbn [crel]. do 4 (split; [done|]). destruct t as [|a t _] using rev_ind; [done|]. rewrite top_snoc. by exists t, (p :: rev), back.
    + intros a _. rewrite <- Hc. apply val_store; [done|]. rewrite Hc. by case_decide.
    + by case_decide.
    + by case_decide.
Qed.
Lemma sim_join out n v tail : consumer s = Rev3 out n v tail -> consumed.
Proof.
  intros Hc. pose proof (sm_consumer _ _ _ _ Hsim) as Hr. rewrite Hc in Hr. cbn [crel] in Hr.
  destruct Hr as (Hph & Hmv & Hgone & Hho & r & rev & back & Hw & Ht).
  pose proof (sm_shape _ _ _ _ Hsim) as H3. rewrite Hw in H3. destruct H3 as [Hop Ho]. pose proof (ow_last _ _ _ _ _ _ _ _ _ Ho) as Hn.
  destruct (load_next_heap _ _ _ Hn) as (nd & Hnd & _). destruct (load_store (q s) n tail nd Hnd) as (s' & Hst & Hl & Hh & Hdat & Hdom & Hhd & He & Hdq).
  destruct (exists_last (l := r :: rev) ltac:(done)) as (rs & o' & Hrs). rewrite Hrs in Ho, Hw.
  assert (owned (load_next s') (wait (producers s)) (_head s') (n :: rs) o' Null [] [] back) as Ho'.
  { rewrite Hhd. apply (owned_join (load_next (q s)) _ _ _ [] n Null rs o' back Ho).
    - rewrite Hl, Ht, <- Hrs. done.
    - intros a Ha. by apply load_next_eq, Hh. }
  apply (step_consumer s' (Deq4 out n v) None d (VOpen (n :: rs) o' [] [] back) gone); [by rewrite Hc| |apply asteps_refl|done| |].
  - rewrite Hc. cbn [Dequeue_step ReverseList_step]. by rewrite Hst.
  - left. right. rewrite Hw, Hc. split; [unfold weight; cbn [nodes app]; by rewrite <- !app_assoc|]. cbn [rank]. lia.
  - apply (consumer_touch n); rewrite ?Hc; try done.
    + intros j Ha. apply (linked_not_busy [] n [] (rs ++ [o']) back n Null j); try done. rewrite Hw. left.
    + apply Hdom. done.
    + rewrite Hw. cbn [nodes app]. by rewrite <- !app_assoc.
    + cbn [crel]. split; [done|]. left. do 2 (split; [done|]). split; [unfold holding; by rewrite He, Hdq|]. by exists rs, o', back.
    + intros a _. rewrite <- Hc. apply val_store; [done|]. by rewrite Hc.
Qed.
(** A node that was taken off the list belongs to no producer. *)
Lemma gone_not_busy j a : producers s !! j ≫= pnode = Some a -> a ∈ gone -> False.
Proof.
  intros Hb Ha. destruct (busy_node s d w gone Hsim j a Hb) as [Hj|Hn].
  - apply (sm_private _ _ _ _ Hsim j a Hj), elem_of_app. by right.
  - by apply (sm_gone _ _ _ _ Hsim a).
Qed.
Lemma sim_advance out n v : consumer s = Deq4 out n v -> consumed.
Proof.
  intros Hc. pose proof (sm_consumer _ _ _ _ Hsim) as Hr. rewrite Hc in Hr. cbn [crel] in Hr.
  destruct Hr as (Hmv & [(Hph & Hgone & Hho & fs & o & back & Hw)|(Hph & Hgone & Hl & Hset & Hdq & He)]).
  - pose proof (sm_shape _ _ _ _ Hsim) as H3. rewrite Hw in H3. destruct H3 as [Hop Ho].
    destruct (owned_pop _ _ _ _ _ _ _ _ _ _ Ho) as (Ho' & Hl & Hnr). cbn [app] in Hnr.
    destruct (front_value out n v (fs ++ o :: back) ltac:(by rewrite Hw) Hmv (or_introl Hc) Hnr) as (x & l & Hi & Hv & HF).
    assert (first fs (To o) = To (hd o fs)) as Hf by by destruct fs.
    apply (step_consumer (set_cur_dequeue_node (Some (hd o fs)) (q s)) (Deq5 out n v) None (mkF l (opener d) (a_producers d) (taken out v)) (VOpen fs o [] [] back) [n]); [by rewrite Hc| | |done| |].
    + rewrite Hc. cbn [Dequeue_step]. by rewrite Hl, Hf.
    + apply fifo_steps_one. by apply (spec_dequeue out v x).
    + left. right. rewrite Hw, Hgone, Hc. split; [unfold weight; cbn [nodes app length]; lia|]. cbn [rank]. lia.
    + apply consumer_update; try done.
      * intros a. change (heap (set_cur_dequeue_node _ (q s)) !! a) with (heap (q s) !! a).
        rewrite (sm_dom _ _ _ _ Hsim a), Hw, Hgone. cbn [nodes app]. destruct (decide (a = n)) as [->|Ha]; [set_solver|].
        destruct (decide (a ∈ fs ++ o :: back)); set_solver.
      * rewrite Hw, Hgone. cbn [nodes app]. set_solver.
      * intros a ->%list_elem_of_singleton. done.
      * intros j a b Hj. pose proof (sm_linking _ _ _ _ Hsim j a b Hj) as Ha. rewrite Hw in Ha. cbn [nodes app] in Ha.
        apply elem_of_cons in Ha as [->|Ha]; [|done]. exfalso. apply (front_not_busy n j n); [by rewrite Hw|by rewrite Hw|by rewrite Hj|done].
      * cbn [crel]. split; [done|]. split; [done|]. split; [done|]. right. destruct Hho. done.
      * intros _. cbn [destroying]. pose proof (sm_out _ _ _ _ Hsim) as Hout. rewrite Hc in Hout. by apply Hout.
  - assert (n ∉ nodes w) as Hn by (apply (sm_gone _ _ _ _ Hsim); rewrite Hgone; left).
    apply (step_consumer (set_cur_dequeue_node None (q s)) (Deq5 out n v) None d w gone); [by rewrite Hc| |apply asteps_refl|done| |].
    + rewrite Hc. cbn [Dequeue_step]. by rewrite Hl.
    + left. right. rewrite Hc. split; [done|]. cbn [rank]. lia.
    + apply load_next_heap in Hl as (nd & Hnd & _). apply (consumer_touch n); rewrite ?Hc; try done.
      * intros j Ha. by apply (gone_not_busy j n Ha); rewrite Hgone; left.
      * pose proof (sm_shape _ _ _ _ Hsim) as H3. by destruct w.
      * cbn [crel]. split; [done|]. split; [done|]. split; [done|]. left. done.
      * intros a Ha. unfold val. destruct v; cbn [hand]; [|done]. rewrite decide_False; [done|]. by intros ->.
Qed.
Lemma sim_free out n v : consumer s = Deq5 out n v -> consumed.
Proof.
  intros Hc. pose proof (sm_consumer _ _ _ _ Hsim) as Hr. rewrite Hc in Hr. cbn [crel] in Hr. destruct Hr as (Hph & Hgone & Hav).
  assert (n ∉ nodes w) as Hn by (apply (sm_gone _ _ _ _ Hsim); rewrite Hgone; left).
  assert (is_Some (heap (q s) !! n)) as [nd Hnd] by (apply (sm_dom _ _ _ _ Hsim); right; left; rewrite Hgone; left).
  pose proof (sm_out _ _ _ _ Hsim) as Hout. rewrite Hc in Hout. specialize (Hout ltac:(done)). cbn [destroying] in Hout.
  set (q' := set_heap (delete n (heap (q s))) (q s)).
  assert (forall a, a <> n -> heap q' !! a = heap (q s) !! a) as Hh by (intros a Ha; cbn [q' set_heap heap]; by rewrite lookup_delete_ne).
  apply (step_consumer q' (if out then CIdle else Deq0 out) (if out then Some (Dequeued (Some v)) else None)
    (mkF (items d) (opener d) (a_producers d) (if out then Idle else Called OpDestroy)) w []).
  - by rewrite Hc.
  - rewrite Hc. cbn [Dequeue_step]. by rewrite Hnd.
  - clear Hsim. destruct d as [l op ts c]; cbn [opener items a_producers a_consumer] in *. subst c. destruct out; cbn [ret taken].
    + apply fifo_steps_one, a_ret_consumer.
    + apply asteps_refl.
  - by destruct out.
  - left. left. rewrite Hgone. unfold weight. cbn [length]. split; [lia|]. assert (unseen w <= length (nodes w))%nat by (destruct w; cbn [unseen nodes]; rewrite ?length_app; cbn [length]; rewrite ?length_app; lia).
    destruct out; cbn [rank]; lia.
  - apply consumer_update; try apply Hsim; try done.
    + intros j a Ha. apply Hh. intros ->. apply (gone_not_busy j n Ha). rewrite Hgone. left.
    + intros a. pose proof (sm_dom _ _ _ _ Hsim a) as H6. rewrite Hgone in *. rewrite !elem_of_app, elem_of_nil, list_elem_of_singleton in *.
      destruct (decide (a = n)) as [->|Ha].
      * cbn [q' set_heap heap]. rewrite lookup_delete_eq. split; [by intros [? ?]|]. tauto.
      * rewrite (Hh a Ha). destruct (decide (a ∈ nodes w)); tauto.
    + intros a. rewrite !elem_of_app, elem_of_nil. tauto.
    + intros a []%elem_of_nil.
    + pose proof (sm_shape _ _ _ _ Hsim) as H3. assert (forall a, a ∈ nodes w -> load_next q' a = load_next (q s) a) as Hl.
      { intros a Ha. apply load_next_eq, Hh. by intros ->. }
      destruct w; cbn [shape nodes] in *; [done| |].
      * destruct H3 as [-> [[Hps H3]|[Hps H3]]]; (split; [done|]); [left|right]; (split; [done|]).
        all: apply (owned_ext (load_next (q s)) _ (wait (producers s))); done.
      * destruct H3 as [-> H3]. split; [done|]. by apply (owned_ext (load_next (q s)) _ (wait (producers s))).
    + destruct out; cbn [crel called]; done.
    + pose proof (sm_vals _ _ _ _ Hsim) as H5. rewrite Hc in H5. apply Forall2_same_length_lookup. split; [by eapply Forall2_length|].
      intros k a x Ha Hx. pose proof (Forall2_lookup_lr _ _ _ _ _ _ H5 Ha Hx) as Hv. unfold val in *. cbn [hand] in Hv.
      rewrite <- Hv, <- (Hh a); [by destruct out|]. intros ->. apply Hn. by eapply list_elem_of_lookup_2.
    + intros _. by destruct out.
    + intros Hd. rewrite Hd in Hout. by destruct out.
Qed.
Lemma consumer_sim : consumer s <> CIdle -> consumed.
Proof.
  destruct (consumer s) eqn:Hc; [done|..]; intros _; eauto using sim_find, sim_clear, sim_move, sim_test, sim_close, sim_spin, sim_turn, sim_join, sim_advance, sim_free.
Qed.
End Consumer.

(** *** Calls *)
Lemma stay s d c : sim s d -> step c s = Some (s, []) -> simulated s d c.
Proof. intros Hs Hst. exists s, [], d. split; [done|]. split; [apply asteps_refl|done]. Qed.
Lemma call_enqueue s d i x : sim s d -> simulated s d (SCall (Producer i) (OpEnqueue x)).
Proof.
  intros Hs. destruct (producers s !! i) as [[| | | | |]|] eqn:Hi; try (apply stay; [done|]; cbn [step]; by rewrite Hi).
  destruct (dying s) eqn:Hdy; [apply stay; [done|]; cbn [step]; by rewrite Hi, Hdy|].
  destruct Hs as (w & gone & Hsim). destruct (producer_phase s d w gone i Hsim _ Hi) as (ph & Hph & Hr & Hlt & Hlt'). cbn [prel] in Hr. subst ph.
  unfold simulated. cbn [step]. rewrite Hi, Hdy. eexists _, _, (mkF (items d) (opener d) (<[i := Called (OpEnqueue x)]> (a_producers d)) (a_consumer d)).
  split; [done|]. split; [destruct d; by apply fifo_steps_one, a_call_enqueue|]. exists w, gone.
  destruct Hsim as [H1 H2 H3 H4 H5 H6 H7 H8 H9 H10 H11 H12]. rewrite Hdy in *.
  split; cbn [q producers consumer dying opener items a_producers a_consumer]; try done.
  - by apply (producers_update _ _ (q s)).
  - by apply inj_update.
  - apply (shape_map (q s)); [done|by rewrite Hi| |done]. intros * _ _. apply owned_ext; [done|]. intros a b _. by apply (mpsc_wait_mono _ i _ PIdle).
  - intros a. rewrite H6. setoid_rewrite list_lookup_insert_Some. split; [|naive_solver].
    intros [?|[?|[k Hk]]]; [tauto|tauto|]. right; right. exists k. right. split; [|done]. intros ->. congruence.
  - intros k a. rewrite list_lookup_insert_Some. intros [(_ & ? & _)|[_ Hk]]; [done|by eapply H8].
  - intros k a b. rewrite list_lookup_insert_Some. intros [(_ & ? & _)|[_ Hk]]; [done|by eapply H9].
  - intros k m. rewrite !list_lookup_insert_Some. intros [[(_ & ? & _)|[_ Hk]]|[(_ & ? & _)|[_ Hk]]]; try done; apply (H10 k m); eauto.
Qed.
Lemma call_consumer s d (o : op) out dy : sim s d -> consumer s = CIdle -> dying s = false -> dy = negb out -> called out = Called o ->
  (dy = true -> Forall (eq PIdle) (producers s)) ->
  asteps d [Call Consumer o] (mkF (items d) (opener d) (a_producers d) (Called o)) /\
  sim (mkS (q s) (producers s) (Deq0 out) dy) (mkF (items d) (opener d) (a_producers d) (Called o)).
Proof.
  intros (w & gone & Hsim) Hc Hdy -> Ho HF. pose proof (sm_consumer _ _ _ _ Hsim) as Hr. rewrite Hc in Hr. destruct Hr as (Hph & Hgone & Hav). split.
  - clear Hsim. destruct d as [l op ts c]; cbn [opener items a_producers a_consumer] in *. subst c. apply fifo_steps_one, a_call_consumer.
  - exists w, gone. destruct Hsim as [H1 H2 H3 H4 H5 H6 H7 H8 H9 H10 H11 H12].
    split; cbn [q producers consumer dying opener items a_producers a_consumer]; try done.
    + rewrite Hc in H5. eapply Forall2_impl; [exact H5|]. done.
    + intros Hd. split; [by apply HF|done].
Qed.
Lemma calls_sim s d t o : sim s d -> simulated s d (SCall t o).
Proof.
  intros Hs. destruct t as [i|], o as [x| |]; try (by apply stay); [by apply call_enqueue| |].
  - destruct (consumer s) eqn:Hc; try (apply stay; [done|]; cbn [step]; by rewrite Hc).
    destruct (dying s) eqn:Hdy; [apply stay; [done|]; cbn [step]; by rewrite Hc, Hdy|].
    destruct (call_consumer s d OpDequeue true false Hs Hc Hdy) as [Ha Hs']; [done|done|done|].
    eexists _, _, _. split; [|by split]. cbn [step]. by rewrite Hc, Hdy.
  - destruct (consumer s) eqn:Hc; try (apply stay; [done|]; cbn [step]; by rewrite Hc).
    destruct (forallb idle (producers s)) eqn:HF; [|apply stay; [done|]; cbn [step]; by rewrite Hc, HF].
    destruct (dying s) eqn:Hdy; [apply stay; [done|]; cbn [step]; by rewrite Hc, HF, Hdy|].
    destruct (call_consumer s d OpDestroy false true Hs Hc Hdy) as [Ha Hs']; [done|done| |].
    + intros _. rewrite forallb_forall in HF. apply Forall_forall. intros pc Hpc%list_elem_of_In. specialize (HF pc Hpc). by destruct pc.
    + eexists _, _, _. split; [|by split]. cbn [step]. by rewrite Hc, HF, Hdy.
Qed.
Lemma mpsc_step_sim s d c : sim s d -> simulated s d c.
Proof.
  intros Hs. destruct c as [t o|[i|] mem].
  - by apply calls_sim.
  - destruct Hs as (w & gone & Hs). destruct (producers s !! i) as [pc|] eqn:Hi.
    + assert (pc = PIdle \/ pc <> PIdle) as [->|Hne] by (destruct pc; (by left) || by right); [|by eapply producer_sim]. exists s, [], d. cbn [step]. rewrite Hi. split; [done|]. split; [apply asteps_refl|]. by exists w, gone.
    + exists s, [], d. cbn [step]. rewrite Hi. split; [done|]. split; [apply asteps_refl|]. by exists w, gone.
  - assert (consumer s = CIdle \/ consumer s <> CIdle) as [Hc|Hc] by (destruct (consumer s); (by left) || by right).
    + exists s, [], d. cbn [step]. rewrite Hc. split; [done|]. split; [apply asteps_refl|]. done.
    + destruct Hs as (w & gone & Hs). destruct (consumer_sim s d w gone Hs Hc) as (s' & a & d' & w' & gone' & Hst & Ha & Hs' & _). exists s', a, d'. split; [done|]. split; [done|]. by exists w', gone'.
Qed.

Lemma fifo_steps_app d1 l1 d2 l2 d3 : asteps d1 l1 d2 -> asteps d2 l2 d3 -> asteps d1 (l1 ++ l2) d3.
Proof. induction 1; [done|]. intros H3. rewrite <- app_assoc. eapply asteps_step; [done|by apply IHasteps]. Qed.
Lemma mpsc_run_sim cs : forall s d, sim s d -> exists s' a d', run cs s = Some (s', a) /\ asteps d a d' /\ sim s' d'.
Proof.
  induction cs as [|c cs IH]; intros s d Hs; [exists s, [], d; split; [done|]; split; [apply asteps_refl|done]|].
  destruct (mpsc_step_sim s d c Hs) as (s1 & a1 & d1 & Hst & Ha1 & Hs1). destruct (IH s1 d1 Hs1) as (s2 & a2 & d2 & Hrun & Ha2 & Hs2).
  exists s2, (a1 ++ a2), d2. cbn [run]. rewrite Hst. cbn [mbind option_bind]. rewrite Hrun. split; [done|]. split; [by eapply fifo_steps_app|done].
Qed.
Lemma start_sim n : sim (start n) (a_start n).
Proof.
  exists VEmpty, []. split; cbn [start a_start q producers consumer dying opener items a_producers a_consumer new]; try done.
  - by apply Forall2_replicate.
  - intros i j a. destruct (replicate n PIdle !! i) as [pc|] eqn:Hi; [|done]. apply lookup_replicate in Hi as [-> _]. done.
  - split; [done|]. split; [done|]. split; [done|]. by left.
  - intros a. cbn [new heap nodes]. rewrite lookup_empty. split; [by intros [? ?]|].
    intros [[]%elem_of_nil|[[]%elem_of_nil|[i Hi]]]. by apply lookup_replicate in Hi as [? _].
  - intros a []%elem_of_nil.
  - intros i a Hi. by apply lookup_replicate in Hi as [? _].
  - intros i a b Hi. by apply lookup_replicate in Hi as [? _].
  - intros i a [Hi|Hi]; by apply lookup_replicate in Hi as [? _].
Qed.

(** C4: MPSCQueue is a queue: under every interleaving of any number of enqueuing
    threads with the consumer, calls and returns are those of a queue on which every call
    takes effect at one instant - Enqueue appends, Dequeue takes the oldest item, the
    destructor discards what is left - except that Dequeue may also return false while the
    thread that enqueued into the empty queue has not returned.  No schedule dereferences
    NULL, UNCONNECTED or a freed node. *)
Theorem mpsc_linearizable n cs :
  exists s' a d', run cs (start n) = Some (s', a) /\ asteps (a_start n) a d' /\ sim s' d'.
Proof. apply mpsc_run_sim, start_sim. Qed.


(** ** The destructor frees every node *)

(** The destructor of MPSCQueue frees every node that was allocated: when it has
    returned the heap of nodes is empty, whatever was enqueued and dequeued before. *)
Theorem mpsc_destructor_frees_all n cs s a :
  run cs (start n) = Some (s, a) -> dying s = true -> consumer s = CIdle -> heap (q s) = ∅.
Proof.
  intros Hrun Hd Hc. destruct (mpsc_run_sim cs _ _ (start_sim n)) as (s' & a' & d' & Hrun' & _ & w & gone & Hs). rewrite Hrun in Hrun'. simplify_eq.
  destruct (sm_dying _ _ _ _ Hs Hd) as [HF Hw]. specialize (Hw Hc). pose proof (sm_consumer _ _ _ _ Hs) as Hr. rewrite Hc in Hr.
  destruct Hr as (_ & Hg & _). apply map_empty. intros b. apply eq_None_not_Some. rewrite (sm_dom _ _ _ _ Hs), Hw, Hg. cbn [nodes].
  intros [[]%elem_of_nil|[[]%elem_of_nil|[i Hi]]]. by apply (Forall_lookup_1 _ _ _ _ HF) in Hi.
Qed.

(** ** The consumer waits for nobody but a thread that links its node *)
Definition consumer_steps (k : nat) : list choice := replicate k (SStep Consumer 0%nat).
Lemma simv_weight s d w gone : simv s d w gone -> (weight w gone <= size (heap (q s)))%nat.
Proof.
  intros Hs. unfold weight. rewrite <- length_app, <- size_dom.
  assert (NoDup (nodes w ++ gone)) as Hnd.
  { apply NoDup_app. split; [|split].
    - pose proof (sm_shape _ _ _ _ Hs) as H3. destruct w; cbn [shape nodes] in *; [by constructor| |].
      + destruct H3 as [_ [[_ H3]|[_ H3]]]; apply (ow_nodup _ _ _ _ _ _ _ _ _ H3).
      + apply (ow_nodup _ _ _ _ _ _ _ _ _ (proj2 H3)).
    - intros a Ha Hg. by apply (sm_gone _ _ _ _ Hs a).
    - pose proof (sm_consumer _ _ _ _ Hs) as Hr. destruct (consumer s); cbn [crel] in Hr; destruct_and?; subst; try apply NoDup_nil_2; try apply NoDup_singleton.
      destruct_or?; destruct_and?; subst; [apply NoDup_nil_2|apply NoDup_singleton]. }
  rewrite <- (size_list_to_set (C := gset addr) _ Hnd). apply subseteq_size. intros a. rewrite elem_of_list_to_set, elem_of_app, elem_of_dom.
  intros Ha. apply (sm_dom _ _ _ _ Hs). tauto.
Qed.
Lemma consumer_finishes W : forall R s d w gone, simv s d w gone -> consumer s <> CIdle -> ~ linking (producers s) ->
  (weight w gone <= W)%nat -> (rank w (consumer s) <= R)%nat ->
  exists k s' a, (k <= W * (2 * W + 8) + R)%nat /\ run (consumer_steps k) s = Some (s', a) /\ consumer s' = CIdle /\ a <> [].
Proof.
  induction W as [W IHW] using lt_wf_ind. induction R as [R IHR] using lt_wf_ind. intros s d w gone Hs Hc Hl HW HR.
  destruct (consumer_sim s d w gone Hs Hc) as (s1 & a1 & d1 & w1 & gone1 & Hst & _ & Hs1 & Hps & Hret & [Hp|?]); [|done].
  assert (consumer s1 = CIdle \/ consumer s1 <> CIdle) as [Hc1|Hc1] by (destruct (consumer s1); (by left) || by right).
  - exists 1%nat, s1, a1. split; [|split; [|by split; [|apply Hret]]].
    + assert (R <> 0)%nat; [|lia]. intros ->. by destruct (consumer s); cbn [rank] in HR; try lia.
    + cbn [consumer_steps replicate run]. rewrite Hst. cbn [mbind option_bind]. by rewrite app_nil_r.
  - assert (exists k s' a, (k < W * (2 * W + 8) + R)%nat /\ run (consumer_steps k) s1 = Some (s', a) /\ consumer s' = CIdle /\ a <> []) as (k & s2 & a2 & Hk & Hrun & Hc2 & Ha2).
    { rewrite <- Hps in Hl. destruct Hp as [[Hw Hr]|[Hw Hr]].
      - destruct (IHW (W - 1)%nat ltac:(lia) (2 * W + 6)%nat s1 d1 w1 gone1) as (k & s2 & a2 & Hk & Hrest); try done; [lia|lia|].
        exists k, s2, a2. split; [|done]. assert (R <> 0)%nat; [|nia]. intros ->. by destruct (consumer s); cbn [rank] in HR; try lia.
      - destruct (IHR (R - 1)%nat ltac:(lia) s1 d1 w1 gone1) as (k & s2 & a2 & Hk & Hrest); try done; [lia|lia|]. exists k, s2, a2. split; [lia|done]. }
    exists (S k), s2, (a1 ++ a2). split; [lia|]. split; [|split; [done|]].
    + cbn [consumer_steps replicate run]. rewrite Hst. cbn [mbind option_bind]. fold (consumer_steps k). rewrite Hrun. done.
    + intros [_ ?]%app_nil. done.
Qed.

(** C36: Dequeue and the destructor wait for nobody but a producer between the two accesses
    of Enqueue: from every reachable state in which the consumer is in a call and no thread
    is between its exchange of _head and its store to node->next, the consumer returns on
    its own, after a number of steps quadratic in the number of nodes. *)
Theorem mpsc_consumer_returns n cs s a :
  run cs (start n) = Some (s, a) -> consumer s <> CIdle -> ~ linking (producers s) ->
  let m := size (heap (q s)) in
  exists k s' a', (k <= (m + 1) * (2 * m + 8))%nat /\ run (consumer_steps k) s = Some (s', a') /\ consumer s' = CIdle /\ a' <> [].
Proof.
  intros Hrun Hc Hl m. destruct (mpsc_run_sim cs _ _ (start_sim n)) as (s' & a' & d' & Hrun' & _ & w & gone & Hs). rewrite Hrun in Hrun'. simplify_eq.
  pose proof (simv_weight _ _ _ _ Hs) as Hw. fold m in Hw.
  assert (unturned w <= length (nodes w) /\ unseen w <= length (nodes w))%nat as [Hu1 Hu2]
    by (destruct w; cbn [unseen unturned nodes]; rewrite ?length_app; cbn [length]; rewrite ?length_app; lia).
  destruct (consumer_finishes m (2 * m + 8) s' d' w gone) as (k & s2 & a2 & Hk & Hrest); try done.
  - unfold weight in Hw. destruct (consumer s'); cbn [rank]; lia.
  - exists k, s2, a2. split; [lia|done].
Qed.

End Queue.

(** ** A schedule

    Thread 0 finds the queue empty and is interrupted after its exchange; thread 1
    enqueues 8 and returns, but the consumer does not find it.  Then thread 0 goes on, the
    consumer dequeues 7 - turning the list round - and the destructor frees the rest. *)
Definition steps_of (t : tid) (k mem : nat) : list (@choice Z) := replicate k (SStep t mem).
Definition interrupted : list (@choice Z) :=
  SCall (Producer 0) (OpEnqueue 7) :: steps_of (Producer 0) 2 1 ++ SCall (Producer 1) (OpEnqueue 8) :: steps_of (Producer 1) 3 2 ++
  SCall Consumer OpDequeue :: steps_of Consumer 1 0.
Definition resumed : list (@choice Z) :=
  interrupted ++ steps_of (Producer 0) 2 0 ++ SCall Consumer OpDequeue :: steps_of Consumer 6 0.
Definition drained : list (@choice Z) := resumed ++ steps_of Consumer 4 0 ++ SCall Consumer OpDestroy :: steps_of Consumer 8 0.
Definition after (cs : list (@choice Z)) : @state Z * list act := default (start 2, []) (run cs (start 2)).

Example dequeue_misses_a_returned_item :
  (after interrupted).2 = [Call (Producer 0) (OpEnqueue 7); Call (Producer 1) (OpEnqueue 8); Ret (Producer 1) Enqueued;
                           Call Consumer OpDequeue; Ret Consumer (Dequeued None)].
Proof. vm_compute. reflexivity. Qed.

Lemma mpsc_destructor_witness : heap (q (after drained).1) = ∅.
Proof. apply (mpsc_destructor_frees_all 2 drained (after drained).1 (after drained).2); vm_compute; reflexivity. Defined.
Lemma mpsc_consumer_returns_witness :
  let s := (after resumed).1 in let m := size (heap (q s)) in
  exists k s' a', (k <= (m + 1) * (2 * m + 8))%nat /\ run (consumer_steps k) s = Some (s', a') /\ consumer s' = CIdle /\ a' <> [].
Proof.
  apply (mpsc_consumer_returns 2 resumed (after resumed).1 (after resumed).2).
  - vm_compute. reflexivity.
  - vm_compute. discriminate.
  - intros (j & a & b & Hj). vm_compute in Hj. do 2 (destruct j; [discriminate|]). discriminate.
Defined.

End Mpsc.
