(* ===== verification/SocketRef.v ===== *)
(** * Versioned references of Sockets (brpc/socket_inl.h, socket.cpp, socket_id.h)

    One slot of the resource pool in which Sockets are created, addressed by id,
    failed, revived and recycled over and over by any number of threads.  Every
    atomic operation is one step; the scheduler interleaves the steps of the threads
    in any order, sequentially consistently.  Modelled of the Socket is what this
    protocol reads and writes: [_versioned_ref], [_this_id] and
    [_additional_ref_status], with the effect of [OnRecycle] and [return_resource]. *)
From stdpp Require Import base list sets.
From Stdlib Require Import ZArith Lia Bool.
From S2P Require Import Prelude.

Open Scope Z_scope.

Module SocketRef.

(** ** Ids and versioned reference counts *)
Definition MakeSocketId (version slot : Z) : Z := Z.lor (Z.shiftl version 32) slot.
Definition SlotOfSocketId (sid : Z) : Z := Z.land sid (2 ^ 32 - 1).
Definition VersionOfSocketId (sid : Z) : Z := u32 (Z.shiftr sid 32).
Definition VersionOfVRef (vref : Z) : Z := u32 (Z.shiftr vref 32).
Definition NRefOfVRef (vref : Z) : Z := i32 (Z.land vref (2 ^ 32 - 1)).
Definition MakeVRef (version nref : Z) : Z := Z.lor (Z.shiftl version 32) (u32 nref).

Inductive AdditionalRefStatus := REF_USING | REF_REVIVING | REF_RECYCLED.
#[global] Instance AdditionalRefStatus_eq_dec : EqDecision AdditionalRefStatus.
Proof. solve_decision. Defined.

(** The slot.  [pool] is how often it is in the free list, [recycled] the ids with
    which [OnRecycle] ran, [issued] the ids that [Create] returned, [fatal] whether
    a LOG(FATAL) or CHECK(false) of the protocol was reached, [unequal] whether the
    CHECK_EQ(ver1, ver2) of [Address] failed (which logs and goes on). *)
Record Socket := mkSock {
  _versioned_ref : Z; _this_id : Z; _additional_ref_status : AdditionalRefStatus;
  pool : Z; recycled : list Z; issued : list Z; fatal : bool; unequal : bool }.
Definition set_vref (v : Z) (s : Socket) : Socket :=
  mkSock v (_this_id s) (_additional_ref_status s) (pool s) (recycled s) (issued s) (fatal s) (unequal s).
Definition set_status (x : AdditionalRefStatus) (s : Socket) : Socket :=
  mkSock (_versioned_ref s) (_this_id s) x (pool s) (recycled s) (issued s) (fatal s) (unequal s).
Definition set_this_id (i : Z) (s : Socket) : Socket :=
  mkSock (_versioned_ref s) i (_additional_ref_status s) (pool s) (recycled s) (issued s) (fatal s) (unequal s).
Definition set_pool (p : Z) (s : Socket) : Socket :=
  mkSock (_versioned_ref s) (_this_id s) (_additional_ref_status s) p (recycled s) (issued s) (fatal s) (unequal s).
Definition set_recycled (l : list Z) (s : Socket) : Socket :=
  mkSock (_versioned_ref s) (_this_id s) (_additional_ref_status s) (pool s) l (issued s) (fatal s) (unequal s).
Definition set_issued (l : list Z) (s : Socket) : Socket :=
  mkSock (_versioned_ref s) (_this_id s) (_additional_ref_status s) (pool s) (recycled s) l (fatal s) (unequal s).
Definition set_fatal (s : Socket) : Socket :=
  mkSock (_versioned_ref s) (_this_id s) (_additional_ref_status s) (pool s) (recycled s) (issued s) true (unequal s).
Definition set_unequal (s : Socket) : Socket :=
  mkSock (_versioned_ref s) (_this_id s) (_additional_ref_status s) (pool s) (recycled s) (issued s) (fatal s) true.

(** ** Program counters

    [Deref0 own]: whether the reference dropped is one of the thread's own or the
    additional one.  [Done r] keeps the code that the caller of [Dereference] or
    [ReleaseAdditionalReference] returns. *)
Inductive res := RCreate (id : Z) | RAddress (rc : Z) | RDereference (rc : Z) | RSetFailed (rc : Z) | RRelease (rc : Z) | RRevive | RReAddress.
Inductive caller := ByUser | BySetFailed.
Inductive pc :=
  | Idle
  | Create0 | Create1 (version : Z) | Create2
  | Addr0 (as_well : bool) (id : Z) | Addr1 (as_well : bool) (id ver1 : Z) | Addr2 (vref2 : Z)
  | ReAddr0
  | Deref0 (own : bool) (k : caller) | Deref1 (id vref : Z) (own : bool) (k : caller)
  | Recycle1 (r : res) | Recycle2 (r : res)
  | SetFailed0 | SetFailed1 (vref : Z)
  | Release0 (k : caller)
  | Revive0 | Revive1 (vref : Z) | Revive2 (vref : Z) | Revive3 | Revive4.
(** A thread and the ids of the references (SocketUniquePtr) it holds. *)
Record thread := mkT { at_pc : pc; held : list Z }.

(** What [Dereference] returns to its caller. *)
Definition deref_result (rc : Z) (own : bool) (k : caller) : res :=
  if own then RDereference rc else match k with ByUser => RRelease rc | BySetFailed => RSetFailed 0 end.

Section Code.
(** The slot number that the resource pool gave to this slot. *)
Context (slot : Z).

(** The end of [Address] and [AddressFailedAsWell] after a mismatch, with the value
    [vref2] before the reference was given back.  Only [Address] checks that a slot
    that it takes for free has kept its version. *)
Definition addr_unref (as_well : bool) (s : Socket) (ver1 vref2 : Z) : Socket * pc * option res :=
  let nref := NRefOfVRef vref2 in
  if 1 <? nref then (s, Idle, Some (RAddress (-1)))
  else if nref =? 1 then
    let ver2 := VersionOfVRef vref2 in
    if Z.odd ver2 then
      if (ver1 =? ver2) || (u32 (ver1 + 1) =? ver2) then (s, Addr2 vref2, None)
      else (set_fatal s, Idle, Some (RAddress (-1)))
    else (if as_well || (ver1 =? ver2) then s else set_unequal s, Idle, Some (RAddress (-1)))
  else (set_fatal s, Idle, Some (RAddress (-1))).

(** The steps of each function.  [go]: the thread goes on; [ret]: the call returns. *)
Definition go (t : thread) (s' : Socket) (p : pc) : Socket * thread * option res := (s', mkT p (held t), None).
Definition ret (t : thread) (s' : Socket) (r : res) : Socket * thread * option res := (s', mkT Idle (held t), Some r).

(** [Create], after get_resource. *)
Definition Create_step (s : Socket) (t : thread) : Socket * thread * option res :=
  let vref := _versioned_ref s in
  match at_pc t with
  | Create0 => go t (set_vref (u64 (vref + 1)) s) (Create1 (VersionOfVRef vref))
  | Create1 version => go t (set_this_id (MakeSocketId version slot) s) Create2
  | Create2 =>
      let s' := set_status REF_USING s in
      ret t (set_issued (_this_id s :: issued s) s') (RCreate (_this_id s))
  | _ => (s, t, None)
  end.
(** [Address] and, with [as_well], [AddressFailedAsWell]. *)
Definition Address_step (s : Socket) (t : thread) : Socket * thread * option res :=
  let vref := _versioned_ref s in
  match at_pc t with
  | Addr0 w id =>
      let s' := set_vref (u64 (vref + 1)) s in
      let ver1 := VersionOfVRef vref in
      if ver1 =? VersionOfSocketId id then (s', mkT Idle (id :: held t), Some (RAddress 0))
      else if w && (ver1 =? u32 (VersionOfSocketId id + 1)) then (s', mkT Idle (id :: held t), Some (RAddress 1))
      else go t s' (Addr1 w id ver1)
  | Addr1 w id ver1 =>
      let '(s', p, r) := addr_unref w (set_vref (u64 (vref - 1)) s) ver1 vref in (s', mkT p (held t), r)
  | Addr2 vref2 =>
      if vref =? u64 (vref2 - 1)
      then go t (set_vref (MakeVRef (u32 (VersionOfVRef vref2 + 1)) 0) s) (Recycle1 (RAddress (-1)))
      else ret t s (RAddress (-1))
  | _ => (s, t, None)
  end.
Definition ReAddress_step (s : Socket) (t : thread) : Socket * thread * option res :=
  (set_vref (u64 (_versioned_ref s + 1)) s, mkT Idle (_this_id s :: held t), Some RReAddress).
Definition Dereference_step (s : Socket) (t : thread) : Socket * thread * option res :=
  let vref := _versioned_ref s in
  match at_pc t with
  | Deref0 own k =>
      let id := _this_id s in
      let s' := set_vref (u64 (vref - 1)) s in
      let held' := if own then tail (held t) else held t in
      let nref := NRefOfVRef vref in
      if 1 <? nref then (s', mkT Idle held', Some (deref_result 0 own k))
      else if nref =? 1 then
        let ver := VersionOfVRef vref in
        let id_ver := VersionOfSocketId id in
        if (ver =? id_ver) || (ver =? u32 (id_ver + 1)) then (s', mkT (Deref1 id vref own k) held', None)
        else (set_fatal s', mkT Idle held', Some (deref_result (-1) own k))
      else (set_fatal s', mkT Idle held', Some (deref_result (-1) own k))
  | Deref1 id vref0 own k =>
      if vref =? u64 (vref0 - 1)
      then go t (set_vref (MakeVRef (u32 (VersionOfSocketId id + 2)) 0) s) (Recycle1 (deref_result 1 own k))
      else ret t s (deref_result 0 own k)
  | _ => (s, t, None)
  end.
(** [OnRecycle] and return_resource, as [Dereference] and [Address] call them. *)
Definition recycle_step (s : Socket) (t : thread) : Socket * thread * option res :=
  match at_pc t with
  | Recycle1 r => go t (set_recycled (_this_id s :: recycled s) s) (Recycle2 r)
  | Recycle2 r => ret t (set_pool (pool s + 1) s) r
  | _ => (s, t, None)
  end.
(** [SetFailed], up to its call of [ReleaseAdditionalReference]. *)
Definition SetFailed_step (s : Socket) (t : thread) : Socket * thread * option res :=
  let vref := _versioned_ref s in
  match at_pc t with
  | SetFailed0 => go t s (SetFailed1 vref)
  | SetFailed1 vref0 =>
      let id_ver := VersionOfSocketId (_this_id s) in
      if negb (VersionOfVRef vref0 =? id_ver) then ret t s (RSetFailed (-1))
      else if vref =? vref0
      then go t (set_vref (MakeVRef (u32 (id_ver + 1)) (NRefOfVRef vref0)) s) (Release0 BySetFailed)
      else go t s (SetFailed1 vref)
  | _ => (s, t, None)
  end.
(** [ReleaseAdditionalReference], which ends in [Dereference]. *)
Definition ReleaseAdditionalReference_step (s : Socket) (t : thread) (k : caller) : Socket * thread * option res :=
  match _additional_ref_status s with
  | REF_USING => go t (set_status REF_RECYCLED s) (Deref0 false k)
  | REF_REVIVING => go t s (Release0 k)
  | REF_RECYCLED => ret t s (match k with ByUser => RRelease (-1) | BySetFailed => RSetFailed 0 end)
  end.
(** [Revive]; [spurious] lets its compare_exchange_weak fail. *)
Definition Revive_step (spurious : bool) (s : Socket) (t : thread) : Socket * thread * option res :=
  let vref := _versioned_ref s in
  match at_pc t with
  | Revive0 => go t s (Revive1 vref)
  | Revive1 vref0 => go t (set_status REF_REVIVING s) (Revive2 vref0)
  | Revive2 vref0 =>
      let nref := NRefOfVRef vref0 in
      if nref <=? 1 then go t s Revive3
      else if (vref =? vref0) && negb spurious
      then go t (set_vref (MakeVRef (VersionOfSocketId (_this_id s)) (nref + 1)) s) Revive4
      else go t s (Revive2 vref)
  | Revive3 => ret t (set_status REF_RECYCLED s) RRevive
  | Revive4 => ret t (set_status REF_USING s) RRevive
  | _ => (s, t, None)
  end.

(** One step of a thread. *)
Definition tstep (spurious : bool) (s : Socket) (t : thread) : Socket * thread * option res :=
  match at_pc t with
  | Idle => (s, t, None)
  | Create0 | Create1 _ | Create2 => Create_step s t
  | Addr0 _ _ | Addr1 _ _ _ | Addr2 _ => Address_step s t
  | ReAddr0 => ReAddress_step s t
  | Deref0 _ _ | Deref1 _ _ _ _ => Dereference_step s t
  | Recycle1 _ | Recycle2 _ => recycle_step s t
  | SetFailed0 | SetFailed1 _ => SetFailed_step s t
  | Release0 k => ReleaseAdditionalReference_step s t k
  | Revive0 | Revive1 _ | Revive2 _ | Revive3 | Revive4 => Revive_step spurious s t
  end.

(** ** Calls and schedules

    [Create] runs on a slot taken from the pool, [Address] is given ids that [Create]
    returned, the member functions are called through a reference that the thread
    holds, and [Revive] by one health checker at a time, after the additional
    reference was released.  A call outside this contract is not made. *)
Inductive call := CCreate | CAddress (id : Z) | CAddressFailedAsWell (id : Z) | CReAddress | CDereference | CSetFailed
  | CReleaseAdditionalReference | CRevive.
Inductive choice := SCall (i : nat) (c : call) | SStep (i : nat) (spurious : bool).
Record state := mkS { sock : Socket; threads : list thread }.

Definition revives (p : pc) : bool :=
  match p with Revive0 | Revive1 _ | Revive2 _ | Revive3 | Revive4 => true | _ => false end.
Definition entry (s : state) (t : thread) (c : call) : option (Socket * pc) :=
  match c with
  | CCreate => if 0 <? pool (sock s) then Some (set_pool (pool (sock s) - 1) (sock s), Create0) else None
  | CAddress id => if bool_decide (id ∈ issued (sock s)) then Some (sock s, Addr0 false id) else None
  | CAddressFailedAsWell id => if bool_decide (id ∈ issued (sock s)) then Some (sock s, Addr0 true id) else None
  | CReAddress => if bool_decide (held t = []) then None else Some (sock s, ReAddr0)
  | CDereference => if bool_decide (held t = []) then None else Some (sock s, Deref0 true ByUser)
  | CSetFailed => if bool_decide (held t = []) then None else Some (sock s, SetFailed0)
  | CReleaseAdditionalReference => if bool_decide (held t = []) then None else Some (sock s, Release0 ByUser)
  | CRevive =>
      if bool_decide (held t = []) || negb (bool_decide (_additional_ref_status (sock s) = REF_RECYCLED)) ||
         existsb (fun t => revives (at_pc t)) (threads s)
      then None else Some (sock s, Revive0)
  end.
Definition step (c : choice) (s : state) : state * list (nat * res) :=
  match c with
  | SCall i c =>
      match threads s !! i with
      | Some (mkT Idle h) =>
          match entry s (mkT Idle h) c with
          | Some (s', p) => (mkS s' (<[i := mkT p h]> (threads s)), [])
          | None => (s, [])
          end
      | _ => (s, [])
      end
  | SStep i spurious =>
      match threads s !! i with
      | Some t =>
          let '(s', t', r) := tstep spurious (sock s) t in
          (mkS s' (<[i := t']> (threads s)), match r with Some r => [(i, r)] | None => [] end)
      | None => (s, [])
      end
  end.
Fixpoint run (cs : list choice) (s : state) : state * list (nat * res) :=
  match cs with
  | [] => (s, [])
  | c :: cs => let '(s1, l1) := step c s in let '(s2, l2) := run cs s1 in (s2, l1 ++ l2)
  end.
(** A slot fresh from the pool: [Socket::Socket()] sets version and references to 0. *)
Definition start (n : nat) : state :=
  mkS (mkSock 0 0 REF_USING 1 [] [] false false) (replicate n (mkT Idle [])).
End Code.

(** ** Packing *)
Definition pack (v n : Z) : Z := v * 2 ^ 32 + n.

Lemma lor_pack v n : 0 <= n < 2 ^ 32 -> Z.lor (Z.shiftl v 32) n = pack v n.
Proof.
  intros Hn. unfold pack. rewrite Z.shiftl_mul_pow2 by lia. apply Z.bits_inj'. intros i Hi. rewrite Z.lor_spec.
  replace (v * 2 ^ 32 + n) with (n + v * 2 ^ 32) by lia. destruct (Z.lt_ge_cases i 32) as [Hlt|Hge].
  - rewrite Z.mul_pow2_bits_low by lia. simpl. rewrite <- (Z.mod_pow2_bits_low (n + v * 2 ^ 32) 32 i) by lia.
    rewrite Z.mod_add by lia. by rewrite Z.mod_small by lia.
  - rewrite Z.mul_pow2_bits by lia. assert (Hz : Z.testbit n i = false).
    { rewrite <- (Z.mod_small n (2 ^ 32)) by lia. by apply Z.mod_pow2_bits_high. }
    rewrite Hz, orb_false_r. replace i with ((i - 32) + 32) at 2 by lia.
    rewrite <- Z.shiftr_spec by lia. rewrite Z.shiftr_div_pow2, Z.div_add, Z.div_small by lia. by rewrite Z.add_0_l.
Qed.
Lemma pack_version v n : 0 <= v < 2 ^ 32 -> 0 <= n < 2 ^ 32 -> u32 (Z.shiftr (pack v n) 32) = v.
Proof.
  intros Hv Hn. unfold pack. rewrite Z.shiftr_div_pow2 by lia. replace (v * 2 ^ 32 + n) with (n + v * 2 ^ 32) by lia.
  rewrite Z.div_add, Z.div_small by lia. apply u32_small. lia.
Qed.
Lemma pack_low v n : 0 <= n < 2 ^ 32 -> Z.land (pack v n) (2 ^ 32 - 1) = n.
Proof.
  intros Hn. change (2 ^ 32 - 1) with (Z.ones 32). rewrite Z.land_ones by lia. unfold pack.
  replace (v * 2 ^ 32 + n) with (n + v * 2 ^ 32) by lia. by rewrite Z.mod_add, Z.mod_small by lia.
Qed.
Lemma pack_inj v n v' n' : 0 <= n < 2 ^ 32 -> 0 <= n' < 2 ^ 32 -> pack v n = pack v' n' -> v = v' /\ n = n'.
Proof.
  unfold pack. intros Hn Hn' He. assert (v = v') as ->; [|lia].
  apply (f_equal (fun z => z / 2 ^ 32)) in He. rewrite !Z.div_add_l, !Z.div_small, !Z.add_0_r in He by lia. done.
Qed.

Section Packed.
Context (v n : Z) (Hv : 0 <= v < 2 ^ 32) (Hn : 0 <= n < 2 ^ 31).
Lemma VersionOfVRef_pack : VersionOfVRef (pack v n) = v.
Proof. unfold VersionOfVRef. by rewrite pack_version by lia. Qed.
Lemma NRefOfVRef_pack : NRefOfVRef (pack v n) = n.
Proof. unfold NRefOfVRef. rewrite pack_low by lia. apply i32_small. lia. Qed.
Lemma MakeVRef_pack : MakeVRef v n = pack v n.
Proof. unfold MakeVRef. rewrite u32_small, lor_pack by lia. done. Qed.
Lemma vref_incr : n + 1 < 2 ^ 31 -> u64 (pack v n + 1) = pack v (n + 1).
Proof. intros H. unfold pack. rewrite u64_small; lia. Qed.
Lemma vref_decr : 1 <= n -> u64 (pack v n - 1) = pack v (n - 1).
Proof. intros H. unfold pack. rewrite u64_small; lia. Qed.
End Packed.

(** ** The invariant *)
Section Invariant.
Context (slot : Z) (Hslot : 0 <= slot < 2 ^ 32).
Definition sid (v : Z) : Z := MakeSocketId v slot.
Lemma sid_pack v : sid v = pack v slot.
Proof. unfold sid, MakeSocketId. by rewrite lor_pack by lia. Qed.
Lemma sid_version v : 0 <= v < 2 ^ 32 -> VersionOfSocketId (sid v) = v.
Proof. intros Hv. rewrite sid_pack. unfold VersionOfSocketId. by rewrite pack_version by lia. Qed.
Lemma sid_inj v v' : sid v = sid v' -> v = v'.
Proof. rewrite !sid_pack. unfold pack. lia. Qed.

(** References a thread accounts for: those it holds and the one its current call
    has added or is about to drop. *)
Definition carry (p : pc) : Z :=
  match p with Addr1 _ _ _ | Create1 _ | Create2 | Deref0 false _ | Revive4 => 1 | _ => 0 end.
Definition refs (t : thread) : Z := Z.of_nat (length (held t)) + carry (at_pc t).
(** The thread that is creating or recycling owns the slot. *)
Definition owns (t : thread) : Z :=
  match at_pc t with Create0 | Create1 _ | Create2 | Recycle1 _ | Recycle2 _ => 1 | _ => 0 end.
Definition reviver (t : thread) : Z := if revives (at_pc t) then 1 else 0.
Definition reviving (t : thread) : Z := match at_pc t with Revive2 _ | Revive3 | Revive4 => 1 | _ => 0 end.
(** A thread that has revived the Socket but not yet said so, and one that has failed it
    and not yet released the additional reference. *)
Definition revived (t : thread) : Z := match at_pc t with Revive4 => 1 | _ => 0 end.
Definition failing (t : thread) : Z := match at_pc t with Release0 BySetFailed => 1 | _ => 0 end.
Definition tot (f : thread -> Z) (ths : list thread) : Z := fold_right (fun t z => f t + z) 0 ths.

Definition live (S : Socket) (ths : list thread) : Prop := pool S + tot owns ths = 0.
(** [gen]: the version of the Socket's id. *)
Definition gen (ver : Z) : Z := 2 * (ver / 2).

Definition pc_ok (S : Socket) (ver : Z) (alive : Prop) (t : thread) : Prop :=
  match at_pc t with
  | Addr0 _ id => id ∈ issued S
  | Addr1 _ _ ver1 => 0 <= ver1 /\ gen ver1 = gen ver
  | Addr2 vref2 => exists x, vref2 = pack x 1 /\ 0 <= x < 2 ^ 32 /\ x mod 2 = 1
  | Deref1 id vref0 _ _ => exists x g, vref0 = pack x 1 /\ id = sid g /\ g mod 2 = 0 /\ 0 <= g < 2 ^ 32 /\
      (x = g \/ x = g + 1) /\ (alive -> g <= ver) /\ (~ alive -> g < ver)
  | Create1 v => v = ver
  | Create2 => _this_id S = sid ver
  | Recycle1 _ => 2 <= ver /\ _this_id S = sid (ver - 2) /\ sid (ver - 2) ∉ recycled S
  | ReAddr0 | Deref0 _ _ | SetFailed0 | SetFailed1 _ | Release0 _ | Revive0 | Revive1 _ | Revive2 _ | Revive3 | Revive4 => held t <> []
  | _ => True
  end.
Definition ok (S : Socket) (ver : Z) (alive : Prop) (t : thread) : Prop :=
  (held t <> [] -> alive /\ Forall (eq (_this_id S)) (held t)) /\ pc_ok S ver alive t.
(** A thread that will try to recycle the version [ver] with no reference left. *)
Definition pending (ver : Z) (t : thread) : Prop :=
  match at_pc t with Addr2 v | Deref1 _ v _ _ => v = pack ver 1 | _ => False end.

Definition old_id (ver : Z) (alive : Prop) (id : Z) : Prop :=
  exists v, id = sid v /\ v mod 2 = 0 /\ 0 <= v /\ (alive -> v <= ver) /\ (~ alive -> v < ver).
Definition recycled_id (ver : Z) (id : Z) : Prop := exists v, id = sid v /\ v mod 2 = 0 /\ 0 <= v /\ v + 2 <= ver.

Definition in_use (S : Socket) : Z := if decide (_additional_ref_status S = REF_USING) then 1 else 0.
Definition additional (S : Socket) (ths : list thread) : Z := if pool S + tot owns ths =? 0 then in_use S else 0.
Record inv (N : Z) (S : Socket) (ths : list thread) (ver n : Z) : Prop := mkInv {
  i_vref : _versioned_ref S = pack ver n;
  i_ver : 0 <= ver <= 2 * N;
  i_n : n <= N;
  i_pool : 0 <= pool S;
  i_owns : pool S + tot owns ths <= 1;
  i_refs : n = tot refs ths + additional S ths;
  i_live : live S ths -> _this_id S = sid (gen ver);
  i_dead : ~ live S ths -> ver mod 2 = 0;
  i_reviver : tot reviver ths <= 1;
  i_reviving : tot reviving ths = if decide (_additional_ref_status S = REF_REVIVING) then 1 else 0;
  i_revive : tot reviving ths < tot reviver ths -> _additional_ref_status S = REF_RECYCLED;
  i_issued : Forall (old_id ver (live S ths)) (issued S);
  i_recycled : Forall (recycled_id ver) (recycled S);
  i_once : NoDup (recycled S);
  i_ok : Forall (ok S ver (live S ths)) ths;
  i_pending : live S ths -> n = 0 -> ver mod 2 = 1 -> Exists (pending ver) ths;
  i_fail : live S ths -> ver mod 2 = 1 -> 0 < in_use S + tot revived ths -> 0 < tot failing ths;
  i_fatal : fatal S = false
}.

Implicit Types (S : Socket) (t : thread) (o : list thread) (ver n N : Z).

(** *** The order of the threads does not matter *)
Lemma tot_cons f t l : tot f (t :: l) = f t + tot f l.
Proof. done. Qed.
Lemma tot_perm f l l' : l ≡ₚ l' -> tot f l = tot f l'.
Proof. induction 1; simpl; lia. Qed.
Lemma tot_nonneg f l : (forall t, 0 <= f t) -> 0 <= tot f l.
Proof. intros Hf. induction l as [|t l IH]; simpl; [lia|]. pose proof (Hf t). lia. Qed.
Lemma owns_nonneg t : 0 <= owns t.
Proof. unfold owns. destruct (at_pc t); lia. Qed.
Lemma failing_nonneg t : 0 <= failing t.
Proof. unfold failing. destruct (at_pc t) as [| | | | | | | | | | | | | |k| | | | |]; try lia. destruct k; lia. Qed.
Lemma carry_nonneg p : 0 <= carry p.
Proof. destruct p; simpl; try lia. destruct own; lia. Qed.
Lemma refs_nonneg t : 0 <= refs t.
Proof. unfold refs. pose proof (carry_nonneg (at_pc t)). lia. Qed.
Lemma reviving_le t : 0 <= reviving t <= reviver t.
Proof. unfold reviving, reviver. destruct (at_pc t); simpl; lia. Qed.
Lemma tot_reviving_le l : 0 <= tot reviving l <= tot reviver l.
Proof. induction l as [|t l IH]; simpl; [lia|]. pose proof (reviving_le t). lia. Qed.
Lemma tot_revived_le l : 0 <= tot revived l <= tot reviving l.
Proof.
  induction l as [|t l IH]; [done|]. rewrite !tot_cons.
  assert (0 <= revived t <= reviving t) by (unfold revived, reviving; destruct (at_pc t); lia). lia.
Qed.
Lemma sock_inv_perm N S l l' ver n : l ≡ₚ l' -> inv N S l ver n -> inv N S l' ver n.
Proof.
  intros Hp [H1 H2 H3 H4 H5 H6 H7 H8 H9 H10 H11 H12 H13 H14 H15 H16 H18 H17]. unfold live, additional in *.
  constructor; unfold live, additional; rewrite <- ?(tot_perm _ _ _ Hp); try done.
  - by rewrite <- Hp.
  - intros. rewrite <- Hp. by apply H16.
Qed.
Lemma threads_perm ths i t t' : ths !! i = Some t -> exists o, ths ≡ₚ t :: o /\ <[i := t']> ths ≡ₚ t' :: o.
Proof.
  intros Hi. exists (take i ths ++ drop (Datatypes.S i) ths). split.
  - rewrite <- (take_drop_middle ths i t Hi) at 1. by rewrite Permutation_middle.
  - rewrite insert_take_drop by (by eapply lookup_lt_Some). by rewrite Permutation_middle.
Qed.
Lemma exists_app_pending ver t o : pending ver t \/ Exists (pending ver) o -> Exists (pending ver) (t :: o).
Proof. intros [H|H]; [by constructor|by constructor 2]. Qed.

(** *** What a thread knows survives the steps of the others *)
Lemma gen_bounds ver : 0 <= ver -> ver mod 2 = 0 /\ gen ver = ver \/ ver mod 2 = 1 /\ gen ver = ver - 1.
Proof. intros Hv. unfold gen. pose proof (Z.div_mod ver 2 ltac:(lia)). pose proof (Z.mod_pos_bound ver 2 ltac:(lia)). lia. Qed.
Lemma gen_le ver : 0 <= ver -> 0 <= gen ver <= ver.
Proof. intros Hv. unfold gen. pose proof (Z.div_mod ver 2 ltac:(lia)). pose proof (Z.mod_pos_bound ver 2 ltac:(lia)). pose proof (Z.div_pos ver 2). lia. Qed.
Lemma even_le_gen g ver : g mod 2 = 0 -> 0 <= ver -> g <= ver -> g <= gen ver.
Proof. intros Hg Hv Hle. destruct (gen_bounds ver Hv) as [[? ->]|[? ->]]; [lia|]. assert (g <> ver) by congruence. lia. Qed.

Lemma gen_even v ver : v mod 2 = 0 -> ver = v \/ ver = v + 1 -> v = gen ver.
Proof. intros Hv Hver. unfold gen. destruct Hver as [->| ->]; Z.to_euclidean_division_equations; lia. Qed.

Lemma ok_stable S S' ver ver' (alive alive' : Prop) t :
  ok S ver alive t -> issued S ⊆ issued S' -> gen ver' = gen ver -> _this_id S' = _this_id S -> recycled S' = recycled S ->
  (alive <-> alive') -> (~ alive -> ver' = ver) -> owns t = 0 \/ ver' = ver -> 0 <= ver -> 0 <= ver' ->
  ok S' ver' alive' t.
Proof.
  intros [Hh Hp] Hiss Hgen Hid Hrec Hal Hdead Hown Hv Hv'. split; [rewrite Hid; naive_solver|].
  unfold pc_ok, owns in *. destruct (at_pc t); try done; try (destruct Hown as [?|Hvv]; [lia|]; rewrite Hvv; try done).
  - by rewrite Hid.
  - by apply Hiss.
  - destruct Hp as (x & g & H1 & H2 & H3 & H4 & H5 & H6 & H7). exists x, g. do 5 (split; [done|]). split.
    + intros Ha. apply Hal in Ha. apply even_le_gen in H6; [|done|done|done]. destruct (gen_bounds ver' Hv'); lia.
    + intros Ha. rewrite Hdead; naive_solver.
  - rewrite Hid, Hrec. done.
Qed.
(** A thread without references, when the slot is recycled. *)
Lemma ok_recycle S S' ver ver' (alive alive' : Prop) t :
  ok S ver alive t -> refs t = 0 -> owns t = 0 -> issued S ⊆ issued S' -> alive -> 0 <= ver -> ver' = gen ver + 2 ->
  ok S' ver' alive' t.
Proof.
  intros [Hh Hp] Hr Hown Hiss Hal Hv Hv'. unfold refs in Hr. pose proof (carry_nonneg (at_pc t)) as Hc.
  assert (Hnil : held t = []) by (destruct (held t); [done|simpl in Hr; lia]). split; [by rewrite Hnil|].
  unfold pc_ok, owns in *. destruct (at_pc t); try done; try (simpl in Hr; lia).
  - by apply Hiss.
  - destruct Hp as (x & g & H1 & H2 & H3 & H4 & H5 & H6 & H7). exists x, g. do 5 (split; [done|]).
    specialize (H6 Hal). apply even_le_gen in H6; [|done|done]. lia.
Qed.
(** A thread that does not own the slot, while another one does. *)
Lemma ok_dead S S' ver (alive alive' : Prop) t :
  ok S ver alive t -> ~ alive -> owns t = 0 -> issued S ⊆ issued S' -> ok S' ver alive' t.
Proof.
  intros [Hh Hp] Hal Hown Hiss. assert (Hnil : held t = []) by (destruct (held t); [done|]; destruct Hh; done).
  split; [by rewrite Hnil|]. unfold pc_ok, owns in *. destruct (at_pc t); try done.
  - by apply Hiss.
  - destruct Hp as (x & g & H1 & H2 & H3 & H4 & H5 & H6 & H7). exists x, g. do 5 (split; [done|]). specialize (H7 Hal). split; intros; lia.
Qed.

(** *** Assembling the invariant after a step of one thread *)
Lemma tot_zero f l : (forall t, 0 <= f t) -> tot f l = 0 -> Forall (fun t => f t = 0) l.
Proof.
  intros Hf. induction l as [|t l IH]; intros H; [constructor|]. simpl in H. pose proof (Hf t). pose proof (tot_nonneg f l Hf).
  constructor; [lia|]. apply IH. lia.
Qed.
Lemma old_id_stable ver ver' (alive alive' : Prop) id :
  gen ver' = gen ver -> (alive <-> alive') -> (~ alive -> ver' = ver) -> 0 <= ver -> 0 <= ver' ->
  old_id ver alive id -> old_id ver' alive' id.
Proof.
  intros Hgen Hal Hdead Hv Hv' (v & H1 & H2 & H3 & H4 & H5). exists v. do 3 (split; [done|]). split.
  - intros Ha. apply Hal in Ha. apply even_le_gen in H4; [|done|done|done]. destruct (gen_bounds ver' Hv'); lia.
  - intros Ha. rewrite Hdead; naive_solver.
Qed.
Lemma recycled_id_stable ver ver' id : gen ver <= gen ver' -> 0 <= ver -> 0 <= ver' -> recycled_id ver id -> recycled_id ver' id.
Proof.
  intros Hgen Hv Hv' (v & H1 & H2 & H3 & H4). exists v. do 3 (split; [done|]).
  assert (v + 2 <= gen ver) by (apply even_le_gen; [rewrite <- Zplus_mod_idemp_l, H2; done|done|done]).
  destruct (gen_bounds ver' Hv'); lia.
Qed.

(** A step that leaves the ownership of the slot alone. *)
Lemma inv_step N S S' t t' o ver ver' n n' :
  inv N S (t :: o) ver n -> pool S' = pool S -> owns t' = owns t -> _this_id S' = _this_id S ->
  recycled S' = recycled S -> issued S' = issued S -> fatal S' = false ->
  _versioned_ref S' = pack ver' n' -> 0 <= ver' <= 2 * (N + 1) -> n' <= N + 1 -> gen ver' = gen ver ->
  (~ live S (t :: o) -> ver' = ver) ->
  n' - n = refs t' - refs t + (in_use S' - in_use S) ->
  (_additional_ref_status S' = _additional_ref_status S \/ live S (t :: o)) ->
  tot reviver (t' :: o) <= 1 ->
  tot reviving (t' :: o) = (if decide (_additional_ref_status S' = REF_REVIVING) then 1 else 0) ->
  (tot reviving (t' :: o) < tot reviver (t' :: o) -> _additional_ref_status S' = REF_RECYCLED) ->
  ok S' ver' (live S (t :: o)) t' ->
  (live S (t :: o) -> n' = 0 -> ver' mod 2 = 1 -> pending ver' t' \/ Exists (pending ver') o) ->
  (live S (t :: o) -> ver' mod 2 = 1 -> 0 < in_use S' + tot revived (t' :: o) -> 0 < tot failing (t' :: o)) ->
  inv (N + 1) S' (t' :: o) ver' n'.
Proof.
  intros [H1 H2 H3 H4 H5 H6 H7 H8 H9 H10 H11 H12 H13 H14 H15 H16 H18 H17] Hpool Hown Hid Hrec Hiss Hfat Hvref Hver Hn Hgen Hdead Hrefs Hst
    Hr1 Hr2 Hr3 Hok Hpend Hfail.
  assert (Hlive : live S' (t' :: o) = live S (t :: o)) by (unfold live; simpl; by rewrite Hpool, Hown).
  assert (Hadd : additional S' (t' :: o) - additional S (t :: o) = in_use S' - in_use S).
  { unfold additional. cbn [tot fold_right]. rewrite Hpool, Hown. fold (tot owns o). destruct (Z.eqb_spec (pool S + (owns t + tot owns o)) 0) as [|Hne]; [lia|].
    destruct Hst as [Hst|Hst]; [unfold in_use; rewrite Hst; lia|]. unfold live in Hst. simpl in Hst. lia. }
  constructor; rewrite ?Hlive, ?Hpool, ?Hid, ?Hrec, ?Hiss; try done; try lia.
  - simpl in *. lia.
  - simpl in *. lia.
  - intros Hl. rewrite Hgen. by apply H7.
  - intros Hl. rewrite Hdead by done. by apply H8.
  - eapply Forall_impl; [exact H12|]. intros id. apply old_id_stable; [done|done|done|lia|lia].
  - eapply Forall_impl; [exact H13|]. intros id. apply recycled_id_stable; lia.
  - constructor; [done|]. apply Forall_cons in H15 as [_ H15].
    destruct (Z.eq_dec (pool S + tot owns (t :: o)) 0) as [Hl|Hl].
    + assert (Ho : Forall (fun t => owns t = 0) o).
      { apply tot_zero; [apply owns_nonneg|]. simpl in Hl. pose proof (owns_nonneg t). pose proof (tot_nonneg owns o owns_nonneg). lia. }
      eapply Forall_impl; [exact (proj2 (Forall_and _ _) (conj H15 Ho))|]. intros x [Hx Hx0].
      eapply ok_stable; [exact Hx|by rewrite Hiss|done|done|done|done|done|by left|lia|lia].
    + eapply Forall_impl; [exact H15|]. intros x Hx.
      eapply ok_stable; [exact Hx|by rewrite Hiss|done|done|done|done|done|right; by apply Hdead|lia|lia].
  - intros Hl Hn0 Hodd. apply exists_app_pending. by apply Hpend.
Qed.
Lemma ok_no_reviver S ver (alive : Prop) t : ok S ver alive t -> held t = [] -> reviver t = 0.
Proof. intros [_ Hp] Hh. unfold pc_ok, reviver in *. destruct (at_pc t); done. Qed.
Lemma dead_no_reviver S ver (alive : Prop) l : ~ alive -> Forall (ok S ver alive) l -> tot reviver l = 0.
Proof.
  intros Hd. induction 1 as [|t l Hok Hf IH]; [done|]. simpl. rewrite IH.
  assert (Hh : held t = []) by (destruct Hok as [Hh _]; destruct (held t); [done|]; by destruct Hh).
  by rewrite (ok_no_reviver S ver alive t Hok Hh).
Qed.

Lemma unheld t : refs t = 0 -> held t = [].
Proof. intros Hx. unfold refs in Hx. pose proof (carry_nonneg (at_pc t)). destruct (held t); [done|simpl in Hx; lia]. Qed.
Lemma unheld_no_reviver S ver (alive : Prop) l :
  Forall (fun t => refs t = 0) l -> Forall (ok S ver alive) l -> tot reviver l = 0.
Proof.
  induction 1 as [|t l Ht Hl IH]; intros Hf; [done|]. apply Forall_cons in Hf as [Hk Hf]. rewrite tot_cons, IH by done.
  by rewrite (ok_no_reviver _ _ _ _ Hk (unheld t Ht)).
Qed.

(** A step by which the slot gets or changes its owner, or is handed to the public. *)
Lemma inv_owner_step N S S' t t' o ver n n' :
  inv N S (t :: o) ver n -> ~ live S (t :: o) -> tot owns o = 0 -> reviver t' = 0 ->
  _versioned_ref S' = pack ver n' -> n' <= N + 1 -> 0 <= pool S' -> pool S' + owns t' <= 1 -> fatal S' = false ->
  (pool S' + owns t' = 0 -> _this_id S' = sid ver) ->
  n' - n = refs t' - refs t + (if pool S' + owns t' =? 0 then in_use S' else 0) ->
  _additional_ref_status S' <> REF_REVIVING -> issued S ⊆ issued S' ->
  Forall (old_id ver (pool S' + owns t' = 0)) (issued S') ->
  Forall (recycled_id ver) (recycled S') -> NoDup (recycled S') -> ok S' ver (pool S' + owns t' = 0) t' ->
  inv (N + 1) S' (t' :: o) ver n'.
Proof.
  intros [H1 H2 H3 H4 H5 H6 H7 H8 H9 H10 H11 H12 H13 H14 H15 H16 H18 H17] Hdead Hown Hrev Hvref Hn Hp0 Hp1 Hfat Hid Hrefs Hst Hsub Hiss Hrec Hnd Hok.
  assert (Hlive : live S' (t' :: o) = (pool S' + owns t' = 0)) by (unfold live; simpl; f_equal; lia).
  assert (Hadd : additional S (t :: o) = 0).
  { unfold additional. destruct (Z.eqb_spec (pool S + tot owns (t :: o)) 0); [done|lia]. }
  assert (Hadd' : additional S' (t' :: o) = if pool S' + owns t' =? 0 then in_use S' else 0).
  { unfold additional. simpl. rewrite Hown. by rewrite Z.add_0_r. }
  pose proof (dead_no_reviver S ver _ _ Hdead H15) as Hnr. pose proof (tot_reviving_le o). pose proof (reviving_le t). pose proof (reviving_le t').
  assert (Heven : ver mod 2 = 0) by (by apply H8).
  apply Forall_cons in H15 as [_ Hoks]. rewrite tot_cons in Hnr, H9, H10, H11, H5.
  pose proof (proj1 (reviving_le t)). pose proof (proj2 (reviving_le t)).
  rewrite tot_cons in H6. constructor; rewrite ?Hlive; try done; rewrite ?tot_cons; try lia.
  - intros Hl. rewrite Hid by done. f_equal. destruct (gen_bounds ver ltac:(lia)); lia.
  - rewrite decide_False by done. lia.
  - constructor; [done|]. assert (Ho : Forall (fun t => owns t = 0) o) by (by apply tot_zero; [apply owns_nonneg|]).
    eapply Forall_impl; [exact (proj2 (Forall_and _ _) (conj Hoks Ho))|]. intros x [Hx Hx0]. by eapply ok_dead.
Qed.

(** The compare-exchange that recycles the slot: nobody holds a reference. *)
Lemma inv_recycle N S t r o ver :
  inv N S (t :: o) ver 0 -> live S (t :: o) -> owns t = 0 ->
  inv (N + 1) (set_vref (pack (gen ver + 2) 0) S) (mkT (Recycle1 r) (held t) :: o) (gen ver + 2) 0.
Proof.
  intros [H1 H2 H3 H4 H5 H6 H7 H8 H9 H10 H11 H12 H13 H14 H15 H16 H18 H17] Hlive Hown.
  pose proof (tot_nonneg refs (t :: o) refs_nonneg) as Hr0. pose proof (gen_bounds ver ltac:(lia)) as Hg.
  pose proof (gen_le ver ltac:(lia)).
  assert (Hadd0 : 0 <= additional S (t :: o)) by (unfold additional, in_use; repeat case_match; lia).
  assert (Hz : Forall (fun t => refs t = 0) (t :: o)) by (apply tot_zero; [apply refs_nonneg|lia]).
  pose proof Hlive as Hl0. unfold live in Hl0. simpl in Hl0. pose proof (tot_nonneg owns o owns_nonneg).
  assert (Ho : Forall (fun t => owns t = 0) o) by (apply tot_zero; [apply owns_nonneg|lia]).
  apply Forall_cons in Hz as [Hzt Hzo]. apply Forall_cons in H15 as [[Hht Hpt] Hoks].
  assert (Hnro : tot reviver o = 0).
  { by eapply unheld_no_reviver. }
  pose proof (tot_reviving_le o). pose proof (reviving_le t). rewrite ?tot_cons in H9, H10, H11, H5, H6.
  assert (Hnrt : reviver t = 0) by (apply (ok_no_reviver S ver (live S (t :: o))); [by split|by apply unheld]).
  assert (Hdead : ~ live (set_vref (pack (gen ver + 2) 0) S) (mkT (Recycle1 r) (held t) :: o)).
  { unfold live. simpl. unfold owns at 1. simpl. lia. }
  assert (Hadd : additional (set_vref (pack (gen ver + 2) 0) S) (mkT (Recycle1 r) (held t) :: o) = 0).
  { unfold additional. destruct (Z.eqb_spec (pool (set_vref (pack (gen ver + 2) 0) S) + tot owns (mkT (Recycle1 r) (held t) :: o)) 0); [done|lia]. }
  constructor; rewrite ?Hadd; cbn [set_vref _versioned_ref _this_id _additional_ref_status pool recycled issued fatal]; try done; try lia.
  - rewrite tot_cons. unfold owns at 1. simpl. lia.
  - rewrite tot_cons. unfold refs at 1. simpl. rewrite (unheld t Hzt). simpl.
    assert (tot refs o = 0); [|lia]. clear -Hzo. induction o as [|x o IH]; [done|]. apply Forall_cons in Hzo as [Hx Hzo]. simpl. rewrite Hx, IH; done.
  - intros _. unfold gen. rewrite <- Zplus_mod_idemp_r. change (2 mod 2) with 0. rewrite Z.add_0_r, Z.mul_comm. apply Z.mod_mul. lia.
  - rewrite tot_cons. unfold reviver at 1. simpl. lia.
  - rewrite tot_cons. unfold reviving at 1. simpl. rewrite <- H10. lia.
  - rewrite !tot_cons. unfold reviver at 1, reviving at 1. simpl. lia.
  - eapply Forall_impl; [exact H12|]. intros id (v & I1 & I2 & I3 & I4 & I5). exists v. do 3 (split; [done|]).
    specialize (I4 Hlive). apply even_le_gen in I4; [|done|lia]. split; intros; lia.
  - eapply Forall_impl; [exact H13|]. intros id (v & I1 & I2 & I3 & I4). exists v. do 3 (split; [done|]). lia.
  - constructor.
    + split; [simpl; by rewrite (unheld t Hzt)|]. unfold pc_ok. cbn [at_pc set_vref _this_id recycled].
      replace (gen ver + 2 - 2) with (gen ver) by lia. split; [lia|]. split; [by apply H7|]. intros Hin.
      apply list_elem_of_lookup_1 in Hin as [i Hi]. destruct (Forall_lookup_1 _ _ _ _ H13 Hi) as (v & I1 & I2 & I3 & I4).
      apply sid_inj in I1. assert (v + 2 <= gen ver); [|lia]. apply even_le_gen; [|lia|done].
      rewrite <- Zplus_mod_idemp_l, I2. done.
    + eapply Forall_impl; [exact (proj2 (Forall_and _ _) (conj Hoks (proj2 (Forall_and _ _) (conj Hzo Ho))))|]. intros x (Hx & Hx0 & Hx1).
      eapply ok_recycle; [exact Hx|done|done|done|done|lia|done].
Qed.

(** *** The steps, one program counter at a time *)
Section Steps.
Context N S t o ver n (HN : N < 2 ^ 29) (Hinv : inv N S (t :: o) ver n).

Lemma n_bounds : refs t <= n /\ 0 <= n < 2 ^ 30.
Proof.
  pose proof (i_refs _ _ _ _ _ Hinv) as H. pose proof (i_n _ _ _ _ _ Hinv). rewrite tot_cons in H.
  pose proof (tot_nonneg refs o refs_nonneg). pose proof (refs_nonneg t).
  assert (0 <= additional S (t :: o)) by (unfold additional, in_use; repeat case_match; lia). lia.
Qed.
Lemma ver_bounds : 0 <= ver < 2 ^ 30.
Proof. pose proof (i_ver _ _ _ _ _ Hinv). lia. Qed.
Lemma cur_version : VersionOfVRef (_versioned_ref S) = ver.
Proof. pose proof n_bounds. pose proof ver_bounds. rewrite (i_vref _ _ _ _ _ Hinv). apply VersionOfVRef_pack; lia. Qed.
Lemma cur_nref : NRefOfVRef (_versioned_ref S) = n.
Proof. pose proof n_bounds. pose proof ver_bounds. rewrite (i_vref _ _ _ _ _ Hinv). apply NRefOfVRef_pack; lia. Qed.
Lemma me_ok : ok S ver (live S (t :: o)) t.
Proof. pose proof (i_ok _ _ _ _ _ Hinv) as H. by apply Forall_cons in H as [? _]. Qed.
Lemma live_by_held : held t <> [] -> live S (t :: o).
Proof. intros Hh. by apply me_ok in Hh as [? _]. Qed.
Lemma this_version : held t <> [] -> VersionOfSocketId (_this_id S) = gen ver.
Proof.
  intros Hh. rewrite (i_live _ _ _ _ _ Hinv) by (by apply live_by_held). pose proof ver_bounds. pose proof (gen_le ver ltac:(lia)). apply sid_version. lia.
Qed.
Lemma pending_others : ~ pending ver t -> live S (t :: o) -> n = 0 -> ver mod 2 = 1 -> Exists (pending ver) o.
Proof. intros Hp Hl Hn Ho. pose proof (i_pending _ _ _ _ _ Hinv Hl Hn Ho) as He. by apply Exists_cons in He as [?|?]. Qed.

(** A failed Socket keeps somebody who releases the additional reference. *)
Definition unfailed t' ver' : Prop :=
  live S (t :: o) -> ver' mod 2 = 1 -> 0 < in_use S + tot revived (t' :: o) -> 0 < tot failing (t' :: o).
Lemma unfailed_same t' : revived t' = revived t -> failing t <= failing t' -> unfailed t' ver.
Proof.
  intros H1 H2 Hl Ho. pose proof (i_fail _ _ _ _ _ Hinv Hl Ho) as H. rewrite !tot_cons in *. intros. lia.
Qed.

(** A step that changes the reference word only. *)
Lemma inv_quiet t' ver' n' :
  0 <= ver' <= 2 * (N + 1) -> n' <= N + 1 -> gen ver' = gen ver -> (~ live S (t :: o) -> ver' = ver) ->
  n' - n = refs t' - refs t -> owns t' = owns t -> reviver t' = reviver t -> reviving t' = reviving t ->
  ok (set_vref (pack ver' n') S) ver' (live S (t :: o)) t' ->
  (live S (t :: o) -> n' = 0 -> ver' mod 2 = 1 -> pending ver' t' \/ Exists (pending ver') o) ->
  unfailed t' ver' ->
  inv (N + 1) (set_vref (pack ver' n') S) (t' :: o) ver' n'.
Proof.
  intros Hv Hn' Hg Hd Hn Ho Hr1 Hr2 Hok Hp Hf. pose proof Hinv as [_ _ _ _ _ _ _ _ H9 H10 H11 _ _ _ _ _ _ H17].
  rewrite tot_cons in H9, H10. rewrite !tot_cons in H11.
  eapply (inv_step N S (set_vref (pack ver' n') S) t t' o ver ver' n n' Hinv); try done; rewrite ?tot_cons, ?Hr1, ?Hr2; try done; [|by left].
  rewrite Hn. unfold in_use. simpl. lia.
Qed.
(** A step that changes nothing in the slot. *)
Lemma inv_local t' :
  refs t' = refs t -> owns t' = owns t -> reviver t' = reviver t -> reviving t' = reviving t ->
  ok S ver (live S (t :: o)) t' -> (live S (t :: o) -> n = 0 -> ver mod 2 = 1 -> ~ pending ver t) ->
  unfailed t' ver ->
  inv (N + 1) S (t' :: o) ver n.
Proof.
  intros Hr Ho Hr1 Hr2 Hok Hp Hf. pose proof Hinv as [H1 _ _ _ _ _ _ _ H9 H10 H11 _ _ _ _ _ _ H17].
  pose proof n_bounds. pose proof (i_n _ _ _ _ _ Hinv). pose proof (i_ver _ _ _ _ _ Hinv).
  rewrite tot_cons in H9, H10. rewrite !tot_cons in H11.
  eapply (inv_step N S S t t' o ver ver n n Hinv); try done; rewrite ?tot_cons, ?Hr1, ?Hr2; try done; try lia; [by left|].
  intros Hl Hn0 Hodd. right. apply pending_others; try done. by apply Hp.
Qed.
Lemma inv_mono : inv (N + 1) S (t :: o) ver n.
Proof.
  destruct Hinv as [H1 H2 H3 H4 H5 H6 H7 H8 H9 H10 H11 H12 H13 H14 H15 H16 H18 H17]. constructor; try done; lia.
Qed.

Definition kept (spurious : bool) : Prop :=
  let '(S', t', _) := tstep slot spurious S t in exists ver' n', inv (N + 1) S' (t' :: o) ver' n'.

Ltac at_step Hpc :=
  unfold kept, tstep; rewrite Hpc;
  cbv delta [Create_step Address_step ReAddress_step Dereference_step recycle_step SetFailed_step ReleaseAdditionalReference_step Revive_step go ret] beta zeta;
  rewrite ?Hpc.

Lemma ok_same_held (t' : thread) v' S' : _this_id S' = _this_id S -> held t' = held t -> pc_ok S' v' (live S (t :: o)) t' ->
  ok S' v' (live S (t :: o)) t'.
Proof. intros Hid Hh Hp. split; [rewrite Hid, Hh; apply me_ok|done]. Qed.
Lemma ok_gained (t' : thread) v' S' id : _this_id S' = _this_id S -> held t' = id :: held t -> at_pc t' = Idle ->
  live S (t :: o) -> id = _this_id S -> ok S' v' (live S (t :: o)) t'.
Proof.
  intros Hid Hh Hp Hl Hi. split; [|by unfold pc_ok; rewrite Hp]. intros _. split; [done|]. rewrite Hh, Hid. constructor; [done|].
  destruct (held t) as [|x h] eqn:E; [constructor|]. rewrite <- E. apply me_ok. by rewrite E.
Qed.
(** An id that [Create] returned and that matches the version is the Socket's. *)
Lemma issued_current id : id ∈ issued S ->
  exists v, VersionOfSocketId id = v /\ 0 <= v < 2 ^ 30 /\ (ver = v \/ ver = v + 1 -> live S (t :: o) /\ id = _this_id S).
Proof.
  intros Hid. pose proof ver_bounds as Hv. pose proof (gen_bounds ver ltac:(lia)) as Hg. pose proof (i_issued _ _ _ _ _ Hinv) as Hf.
  apply list_elem_of_lookup_1 in Hid as [i Hi]. destruct (Forall_lookup_1 _ _ _ _ Hf Hi) as (v & -> & Hev & Hv0 & Hl & Hd).
  destruct (Z.eq_dec (pool S + tot owns (t :: o)) 0) as [Hlive|Hdead].
  - specialize (Hl Hlive). exists v. split; [apply sid_version; lia|]. split; [lia|]. intros Hver. split; [done|].
    rewrite (i_live _ _ _ _ _ Hinv Hlive). f_equal. by apply gen_even.
  - specialize (Hd Hdead). exists v. split; [apply sid_version; lia|]. split; [lia|]. intros Hver.
    pose proof (i_dead _ _ _ _ _ Hinv Hdead) as He. destruct Hver as [?| ->]; [lia|].
    rewrite <- Zplus_mod_idemp_l, Hev in He. done.
Qed.

Ltac same_fail Hpc := apply unfailed_same; unfold revived, failing; rewrite Hpc; cbn [at_pc]; (done || lia).

Lemma kept_addr0 w id sp : at_pc t = Addr0 w id -> kept sp.
Proof.
  intros Hpc. pose proof me_ok as [Hh Hp]. unfold pc_ok in Hp. rewrite Hpc in Hp. at_step Hpc.
  pose proof n_bounds. pose proof ver_bounds. pose proof (i_n _ _ _ _ _ Hinv). pose proof (i_ver _ _ _ _ _ Hinv).
  destruct (issued_current id Hp) as (v & -> & Hv & Hcur). rewrite cur_version. rewrite (i_vref _ _ _ _ _ Hinv), vref_incr by lia.
  rewrite (u32_small (v + 1)) by lia.
  assert (Hgain : ver = v \/ ver = v + 1 -> inv (N + 1) (set_vref (pack ver (n + 1)) S) (mkT Idle (id :: held t) :: o) ver (n + 1)).
  { intros Hver. destruct (Hcur Hver) as [Hl Hid]. apply inv_quiet; try lia; try (unfold owns, reviver, reviving; by rewrite Hpc).
    - unfold refs. rewrite Hpc. cbn [at_pc held carry length]. lia.
    - by apply (ok_gained _ _ _ id).
    - same_fail Hpc. }
  destruct (Z.eqb_spec ver v); [exists ver, (n + 1); apply Hgain; by left|].
  destruct (w && (ver =? v + 1)) eqn:E.
  { apply andb_prop in E as [_ E%Z.eqb_eq]. exists ver, (n + 1). apply Hgain. by right. }
  exists ver, (n + 1). apply inv_quiet; try lia; try (unfold owns, reviver, reviving; by rewrite Hpc).
  - unfold refs. rewrite Hpc. cbn [at_pc held carry]. lia.
  - apply ok_same_held; [done|done|]. split; [lia|done].
  - same_fail Hpc.
Qed.
Lemma kept_addr1 w id ver1 sp : at_pc t = Addr1 w id ver1 -> kept sp.
Proof.
  intros Hpc. pose proof me_ok as [Hh Hp]. unfold pc_ok in Hp. rewrite Hpc in Hp. destruct Hp as [Hv1 Hg1].
  pose proof n_bounds as [Hrn Hnb]. pose proof ver_bounds. pose proof (i_n _ _ _ _ _ Hinv). pose proof (i_ver _ _ _ _ _ Hinv).
  assert (Hn1 : 1 <= n) by (unfold refs in Hrn; rewrite Hpc in Hrn; simpl in Hrn; lia).
  pose proof (gen_bounds ver ltac:(lia)). pose proof (gen_bounds ver1 ltac:(lia)).
  assert (Hleave : forall p, carry p = 0 -> owns (mkT p []) = 0 -> revives p = false ->
    (pc_ok (set_vref (pack ver (n - 1)) S) ver (live S (t :: o)) (mkT p (held t))) -> (n = 1 -> ver mod 2 = 1 -> pending ver (mkT p (held t))) ->
    inv (N + 1) (set_vref (pack ver (n - 1)) S) (mkT p (held t) :: o) ver (n - 1)).
  { intros p Hc Ho Hr Hpk Hpd. apply inv_quiet; try lia.
    - unfold refs. rewrite Hpc. cbn [at_pc held]. rewrite Hc. simpl. lia.
    - unfold owns in *. by rewrite Hpc.
    - unfold reviver. rewrite Hpc. cbn [at_pc]. by rewrite Hr.
    - unfold reviving. rewrite Hpc. cbn [at_pc]. by destruct p.
    - by apply ok_same_held.
    - intros _ Hz Hodd. left. apply Hpd; [lia|done].
    - apply unfailed_same; [unfold revived; rewrite Hpc; by destruct p|]. unfold failing at 1. rewrite Hpc. apply failing_nonneg. }
  at_step Hpc. unfold addr_unref. rewrite cur_nref, cur_version, (i_vref _ _ _ _ _ Hinv), vref_decr by lia.
  destruct (Z.ltb_spec 1 n); [exists ver, (n - 1); apply Hleave; (done || lia)|]. rewrite (proj2 (Z.eqb_eq n 1)) by lia.
  assert (Hodd : Z.odd ver = true -> ver mod 2 = 1) by (intros Ho; rewrite Zmod_odd, Ho; done).
  assert (Heven : Z.odd ver = false -> ver mod 2 = 0) by (intros Ho; rewrite Zmod_odd, Ho; done).
  destruct (Z.odd ver).
  2:{ exists ver, (n - 1). assert (forall X ths, inv (N + 1) X ths ver (n - 1) -> inv (N + 1) (if w || (ver1 =? ver) then X else set_unequal X) ths ver (n - 1)) as Hu.
      { intros X ths HX. case_match; [done|]. destruct HX. by constructor. }
      apply Hu, Hleave; try done; lia. }
  rewrite u32_small by lia. assert ((ver1 =? ver) = true \/ (ver1 + 1 =? ver) = true) as Hor by lia.
  rewrite (proj2 (orb_true_iff _ _) Hor). exists ver, (n - 1). apply Hleave; try done.
  - unfold pc_ok. cbn [at_pc]. exists ver. replace n with 1 by lia. split; [done|]. split; [lia|]. by apply Hodd.
  - intros _ _. unfold pending. cbn [at_pc]. by replace n with 1 by lia.
Qed.

(** The compare-exchanges that try to recycle. *)
Lemma kept_addr2 vref2 sp : at_pc t = Addr2 vref2 -> kept sp.
Proof.
  intros Hpc. pose proof me_ok as [Hh Hp]. unfold pc_ok in Hp. rewrite Hpc in Hp. destruct Hp as (x & -> & Hx & Hodd).
  pose proof n_bounds. pose proof ver_bounds. at_step Hpc. rewrite vref_decr, VersionOfVRef_pack by lia. change (1 - 1) with 0.
  rewrite (i_vref _ _ _ _ _ Hinv). destruct (Z.eqb_spec (pack ver n) (pack x 0)) as [He|Hne].
  - destruct (pack_inj ver n x 0 ltac:(lia) ltac:(lia) He) as [<- Hn0]. rewrite u32_small, MakeVRef_pack by lia.
    pose proof (gen_bounds ver ltac:(lia)) as Hg. replace (ver + 1) with (gen ver + 2) by lia.
    exists (gen ver + 2), 0. apply inv_recycle; [by rewrite <- Hn0| |unfold owns; by rewrite Hpc].
    destruct (Z.eq_dec (pool S + tot owns (t :: o)) 0) as [|Hd]; [done|]. pose proof (i_dead _ _ _ _ _ Hinv Hd). lia.
  - exists ver, n. apply inv_local; try (unfold refs, owns, reviver, reviving; by rewrite Hpc); [by apply ok_same_held| |same_fail Hpc].
    intros _ Hn0 _. unfold pending. rewrite Hpc, Hn0 in *. intros He. apply Hne. by destruct (pack_inj x 1 ver 1 ltac:(lia) ltac:(lia) He) as [-> _].
Qed.
Lemma kept_deref1 id vref0 own k sp : at_pc t = Deref1 id vref0 own k -> kept sp.
Proof.
  intros Hpc. pose proof me_ok as [Hh Hp]. unfold pc_ok in Hp. rewrite Hpc in Hp.
  destruct Hp as (x & g & -> & -> & Hev & Hg0 & Hx & Hal & Hde).
  pose proof n_bounds. pose proof ver_bounds. at_step Hpc. rewrite (i_vref _ _ _ _ _ Hinv).
  assert (Hx2 : 0 <= x < 2 ^ 32) by (destruct Hx as [->| ->]; Z.to_euclidean_division_equations; lia).
  rewrite vref_decr by lia. change (1 - 1) with 0.
  destruct (Z.eqb_spec (pack ver n) (pack x 0)) as [He|Hne].
  - destruct (pack_inj ver n x 0 ltac:(lia) ltac:(lia) He) as [<- Hn0].
    assert (Hl : live S (t :: o)).
    { destruct (Z.eq_dec (pool S + tot owns (t :: o)) 0) as [|Hd]; [done|]. pose proof (i_dead _ _ _ _ _ Hinv Hd) as Hd2. specialize (Hde Hd).
      destruct Hx as [->| ->]; [lia|]. rewrite <- Zplus_mod_idemp_l, Hev in Hd2. done. }
    specialize (Hal Hl). rewrite sid_version, u32_small, MakeVRef_pack by lia. rewrite (gen_even g ver) by done.
    exists (gen ver + 2), 0. apply inv_recycle; [by rewrite <- Hn0|done|unfold owns; by rewrite Hpc].
  - exists ver, n. apply inv_local; try (unfold refs, owns, reviver, reviving; by rewrite Hpc); [by apply ok_same_held| |same_fail Hpc].
    intros _ Hn0 _. unfold pending. rewrite Hpc, Hn0 in *. intros He. apply Hne. by destruct (pack_inj x 1 ver 1 ltac:(lia) ltac:(lia) He) as [-> _].
Qed.

Lemma kept_readdr0 sp : at_pc t = ReAddr0 -> kept sp.
Proof.
  intros Hpc. pose proof me_ok as [Hh Hp]. unfold pc_ok in Hp. rewrite Hpc in Hp. at_step Hpc.
  pose proof n_bounds. pose proof ver_bounds. pose proof (i_n _ _ _ _ _ Hinv). pose proof (i_ver _ _ _ _ _ Hinv).
  rewrite (i_vref _ _ _ _ _ Hinv), vref_incr by lia. exists ver, (n + 1).
  apply inv_quiet; try lia; try (unfold owns, reviver, reviving; by rewrite Hpc).
  - unfold refs. rewrite Hpc. cbn [at_pc held carry length]. lia.
  - by apply (ok_gained _ _ _ (_this_id S)); [..|apply live_by_held|].
  - same_fail Hpc.
Qed.
Lemma kept_deref0 own k sp : at_pc t = Deref0 own k -> kept sp.
Proof.
  intros Hpc. pose proof me_ok as [Hh Hp]. unfold pc_ok in Hp. rewrite Hpc in Hp.
  pose proof n_bounds as [Hrn Hnb]. pose proof ver_bounds. pose proof (i_n _ _ _ _ _ Hinv). pose proof (i_ver _ _ _ _ _ Hinv).
  pose proof (live_by_held Hp) as Hl. pose proof (gen_le ver ltac:(lia)). pose proof (gen_bounds ver ltac:(lia)) as Hg.
  destruct (held t) as [|x h] eqn:Eh; [done|]. set (h' := if own then tail (held t) else held t).
  assert (Hr : Z.of_nat (length h') = refs t - 1).
  { unfold h', refs. rewrite Hpc, Eh. destruct own; cbn [carry tail length]; lia. }
  assert (Hn1 : 1 <= n) by lia.
  assert (Hh' : Forall (eq (_this_id S)) h').
  { destruct (Hh ltac:(done)) as [_ Hf]. unfold h'. rewrite Eh. apply Forall_cons in Hf as Hf2. destruct own; [apply Hf2|done]. }
  assert (Hleave : forall p, carry p = 0 -> owns (mkT p []) = 0 -> revives p = false ->
    (pc_ok (set_vref (pack ver (n - 1)) S) ver (live S (t :: o)) (mkT p h')) -> (n = 1 -> pending ver (mkT p h')) ->
    inv (N + 1) (set_vref (pack ver (n - 1)) S) (mkT p h' :: o) ver (n - 1)).
  { intros p Hc Ho Hrv Hpk Hpd. apply inv_quiet; try lia.
    - unfold refs at 1. cbn [at_pc held]. lia.
    - unfold owns in *. by rewrite Hpc.
    - unfold reviver. rewrite Hpc. cbn [at_pc]. by rewrite Hrv.
    - unfold reviving. rewrite Hpc. cbn [at_pc]. by destruct p.
    - split; [|done]. intros _. done.
    - intros _ Hz Hodd. left. apply Hpd. lia.
    - apply unfailed_same; [unfold revived; rewrite Hpc; by destruct p|]. unfold failing at 1. rewrite Hpc. apply failing_nonneg. }
  assert (Hthis : VersionOfSocketId (_this_id S) = gen ver) by (apply this_version; by rewrite Eh).
  at_step Hpc. fold h'. rewrite cur_nref, cur_version, Hthis, (i_vref _ _ _ _ _ Hinv), vref_decr by lia.
  destruct (Z.ltb_spec 1 n); [exists ver, (n - 1); apply Hleave; (done || lia)|]. rewrite (proj2 (Z.eqb_eq n 1)) by lia.
  rewrite u32_small by lia. assert ((ver =? gen ver) = true \/ (ver =? gen ver + 1) = true) as Hor by lia.
  rewrite (proj2 (orb_true_iff _ _) Hor). exists ver, (n - 1). apply Hleave; try done.
  - unfold pc_ok. cbn [at_pc]. exists ver, (gen ver). replace n with 1 by lia. split; [done|].
    split; [by apply (i_live _ _ _ _ _ Hinv)|]. split; [unfold gen; rewrite Z.mul_comm; by apply Z.mod_mul|]. split; [lia|].
    split; [lia|]. split; [lia|]. done.
  - intros _. unfold pending. cbn [at_pc]. by replace n with 1 by lia.
Qed.

(** The steps of the thread that owns the slot. *)
Lemma owner_facts : owns t = 1 ->
  ~ live S (t :: o) /\ pool S = 0 /\ tot owns o = 0 /\ held t = [] /\ _additional_ref_status S <> REF_REVIVING /\ ver mod 2 = 0.
Proof.
  intros Ho. pose proof (i_owns _ _ _ _ _ Hinv) as Hown. rewrite tot_cons in Hown. pose proof (tot_nonneg owns o owns_nonneg).
  pose proof (i_pool _ _ _ _ _ Hinv).
  assert (Hd : ~ live S (t :: o)) by (unfold live; rewrite tot_cons; lia).
  split; [done|]. split; [lia|]. split; [lia|]. split.
  - pose proof me_ok as [Hh _]. destruct (held t); [done|]. by destruct Hh.
  - split; [|by apply (i_dead _ _ _ _ _ Hinv)]. pose proof (dead_no_reviver S ver _ _ Hd (i_ok _ _ _ _ _ Hinv)).
    pose proof (tot_reviving_le (t :: o)). pose proof (i_reviving _ _ _ _ _ Hinv) as Hr. intros He. rewrite decide_True in Hr by done. lia.
Qed.
Lemma old_ids_dead (alive : Prop) : ~ live S (t :: o) -> Forall (old_id ver alive) (issued S).
Proof.
  intros Hd. eapply Forall_impl; [exact (i_issued _ _ _ _ _ Hinv)|]. intros id (v & H1 & H2 & H3 & H4 & H5). exists v.
  do 3 (split; [done|]). specialize (H5 Hd). split; intros; lia.
Qed.

Lemma kept_create0 sp : at_pc t = Create0 -> kept sp.
Proof.
  intros Hpc. destruct owner_facts as (Hd & Hpool & Ho & Hh & Hst & Hev); [unfold owns; by rewrite Hpc|].
  pose proof n_bounds. pose proof ver_bounds. pose proof (i_n _ _ _ _ _ Hinv). pose proof Hinv as [_ _ _ _ _ _ _ _ _ _ _ _ I13 I14 _ _ _ I17].
  at_step Hpc. rewrite cur_version, (i_vref _ _ _ _ _ Hinv), vref_incr by lia. exists ver, (n + 1).
  eapply (inv_owner_step N S _ t _ o ver n); try done; cbn [set_vref pool _this_id]; try lia; try (unfold owns at 1; cbn [at_pc]); try lia.
  - rewrite Hpool. simpl. unfold refs. rewrite Hpc, Hh. simpl. lia.
  - by apply old_ids_dead.
Qed.
Lemma kept_create1 v sp : at_pc t = Create1 v -> kept sp.
Proof.
  intros Hpc. destruct owner_facts as (Hd & Hpool & Ho & Hh & Hst & Hev); [unfold owns; by rewrite Hpc|].
  pose proof me_ok as [_ Hp]. unfold pc_ok in Hp. rewrite Hpc in Hp.
  pose proof n_bounds. pose proof (i_n _ _ _ _ _ Hinv). pose proof Hinv as [I1 _ _ _ _ _ _ _ _ _ _ _ I13 I14 _ _ _ I17].
  at_step Hpc. exists ver, n.
  eapply (inv_owner_step N S _ t _ o ver n); try done; cbn [set_this_id pool _this_id]; try lia; try (unfold owns at 1; cbn [at_pc]); try lia.
  - rewrite Hpool. simpl. unfold refs. rewrite Hpc, Hh. simpl. lia.
  - by apply old_ids_dead.
  - split; [simpl; by rewrite Hh|]. unfold pc_ok. cbn. by rewrite Hp.
Qed.
Lemma kept_create2 sp : at_pc t = Create2 -> kept sp.
Proof.
  intros Hpc. destruct owner_facts as (Hd & Hpool & Ho & Hh & Hst & Hev); [unfold owns; by rewrite Hpc|].
  pose proof me_ok as [_ Hp]. unfold pc_ok in Hp. rewrite Hpc in Hp.
  pose proof n_bounds. pose proof ver_bounds. pose proof (i_n _ _ _ _ _ Hinv). pose proof Hinv as [I1 _ _ _ _ _ _ _ _ _ _ _ I13 I14 _ _ _ I17].
  at_step Hpc. exists ver, n.
  eapply (inv_owner_step N S _ t _ o ver n); try done; cbn [set_status set_issued pool _this_id _additional_ref_status issued]; try lia;
    try (unfold owns at 1; cbn [at_pc]); try lia.
  - rewrite Hpool. simpl. unfold refs, in_use. rewrite Hpc, Hh. simpl. lia.
  - set_solver.
  - constructor; [|by apply old_ids_dead]. exists ver. split; [done|]. split; [done|]. split; [lia|]. split; intros; lia.
Qed.
Lemma kept_recycle1 r sp : at_pc t = Recycle1 r -> kept sp.
Proof.
  intros Hpc. destruct owner_facts as (Hd & Hpool & Ho & Hh & Hst & Hev); [unfold owns; by rewrite Hpc|].
  pose proof me_ok as [_ Hp]. unfold pc_ok in Hp. rewrite Hpc in Hp. destruct Hp as (Hv2 & Hid & Hnin).
  pose proof n_bounds. pose proof (i_n _ _ _ _ _ Hinv). pose proof Hinv as [I1 _ _ _ _ _ _ _ _ _ _ _ I13 I14 _ _ _ I17].
  at_step Hpc. exists ver, n.
  eapply (inv_owner_step N S _ t _ o ver n); try done; cbn [set_recycled pool _this_id recycled]; try lia; try (unfold owns at 1; cbn [at_pc]); try lia.
  - rewrite Hpool. simpl. unfold refs. rewrite Hpc, Hh. simpl. lia.
  - by apply old_ids_dead.
  - constructor; [|done]. exists (ver - 2). split; [done|]. split; [|lia].
    replace (ver - 2) with (ver + (-1) * 2) by lia. by rewrite Z.mod_add.
  - constructor; [by rewrite Hid|done].
Qed.
Lemma kept_recycle2 r sp : at_pc t = Recycle2 r -> kept sp.
Proof.
  intros Hpc. destruct owner_facts as (Hd & Hpool & Ho & Hh & Hst & Hev); [unfold owns; by rewrite Hpc|].
  pose proof n_bounds. pose proof (i_n _ _ _ _ _ Hinv). pose proof Hinv as [I1 _ _ _ _ _ _ _ _ _ _ _ I13 I14 _ _ _ I17].
  at_step Hpc. exists ver, n.
  eapply (inv_owner_step N S _ t _ o ver n); try done; cbn [set_pool pool]; try lia; try (unfold owns at 1; cbn [at_pc]); try lia.
  - rewrite Hpool. simpl. unfold refs. rewrite Hpc, Hh. simpl. lia.
  - by apply old_ids_dead.
Qed.

Ltac same_pc Hpc := unfold refs, owns, reviver, reviving; rewrite Hpc; done.

Lemma kept_set_failed0 sp : at_pc t = SetFailed0 -> kept sp.
Proof.
  intros Hpc. pose proof me_ok as [Hh Hp]. unfold pc_ok in Hp. rewrite Hpc in Hp. at_step Hpc. exists ver, n.
  apply inv_local; try (same_pc Hpc); [by apply ok_same_held| |same_fail Hpc]. intros _ _ _. unfold pending. rewrite Hpc. tauto.
Qed.
Lemma kept_set_failed1 v0 sp : at_pc t = SetFailed1 v0 -> kept sp.
Proof.
  intros Hpc. pose proof me_ok as [Hh Hp]. unfold pc_ok in Hp. rewrite Hpc in Hp. pose proof (live_by_held Hp) as Hl.
  pose proof n_bounds as [Hrn Hnb]. pose proof ver_bounds. pose proof (i_n _ _ _ _ _ Hinv). pose proof (i_ver _ _ _ _ _ Hinv).
  pose proof (gen_le ver ltac:(lia)). at_step Hpc. rewrite (this_version Hp).
  assert (Hstay : forall p, p = Idle \/ p = SetFailed1 (_versioned_ref S) -> exists ver' n', inv (N + 1) S (mkT p (held t) :: o) ver' n').
  { intros p Hpp. exists ver, n. apply inv_local; try (destruct Hpp as [->| ->]; same_pc Hpc).
    - apply ok_same_held; [done|done|]. by destruct Hpp as [->| ->].
    - intros _ _ _. unfold pending. rewrite Hpc. tauto.
    - destruct Hpp as [->| ->]; same_fail Hpc. }
  destruct (Z.eqb_spec (VersionOfVRef v0) (gen ver)) as [Hv0|]; cbn [negb]; [|apply Hstay; by left].
  destruct (Z.eqb_spec (_versioned_ref S) v0) as [<-|]; [|apply Hstay; by right].
  rewrite cur_version in Hv0. rewrite cur_nref, u32_small, MakeVRef_pack by lia. exists (gen ver + 1), n.
  assert (Hgen : gen (gen ver + 1) = gen ver) by (unfold gen; Z.to_euclidean_division_equations; lia).
  apply inv_quiet; try lia; try (same_pc Hpc); [done| |..].
  - unfold refs. rewrite Hpc. simpl. lia.
  - by apply ok_same_held.
  - intros _ Hz. unfold refs in Hrn. destruct (held t); [done|simpl in Hrn]. pose proof (carry_nonneg (at_pc t)). lia.
  - intros _ _ _. rewrite tot_cons. pose proof (tot_nonneg failing o failing_nonneg). change (failing (mkT (Release0 BySetFailed) (held t))) with 1. lia.
Qed.

(** Steps that change the status of the additional reference, by a thread that holds
    a reference of its own. *)
Lemma inv_status t' x :
  held t <> [] -> held t' = held t -> owns t' = owns t -> pc_ok (set_status x S) ver (live S (t :: o)) t' ->
  refs t' + in_use (set_status x S) = refs t + in_use S ->
  tot reviver (t' :: o) <= 1 -> tot reviving (t' :: o) = (if decide (x = REF_REVIVING) then 1 else 0) ->
  (tot reviving (t' :: o) < tot reviver (t' :: o) -> x = REF_RECYCLED) ->
  (live S (t :: o) -> ver mod 2 = 1 -> 0 < in_use (set_status x S) + tot revived (t' :: o) -> 0 < tot failing (t' :: o)) ->
  inv (N + 1) (set_status x S) (t' :: o) ver n.
Proof.
  intros Hh Hh' Ho Hok Hr H1 H2 H3 H4. pose proof (i_n _ _ _ _ _ Hinv). pose proof (i_ver _ _ _ _ _ Hinv). pose proof n_bounds as [Hrn _].
  eapply (inv_step N S _ t t' o ver ver n n Hinv); try done; try lia.
  - apply (i_fatal _ _ _ _ _ Hinv).
  - apply (i_vref _ _ _ _ _ Hinv).
  - right. by apply live_by_held.
  - by apply ok_same_held.
  - intros _ Hz. unfold refs in Hrn. pose proof (carry_nonneg (at_pc t)). destruct (held t); [done|simpl in Hrn; lia].
Qed.
Lemma kept_release0 k sp : at_pc t = Release0 k -> kept sp.
Proof.
  intros Hpc. pose proof me_ok as [Hh Hp]. unfold pc_ok in Hp. rewrite Hpc in Hp. at_step Hpc.
  pose proof (i_reviver _ _ _ _ _ Hinv) as Hr1. pose proof (i_reviving _ _ _ _ _ Hinv) as Hr2. rewrite tot_cons in Hr1, Hr2.
  assert (Hrv : reviver t = 0 /\ reviving t = 0) by (unfold reviver, reviving; by rewrite Hpc). destruct Hrv as [Hrv1 Hrv2].
  assert (Hstay : forall p, (p = Idle /\ _additional_ref_status S = REF_RECYCLED) \/ p = Release0 k -> exists ver' n', inv (N + 1) S (mkT p (held t) :: o) ver' n').
  { intros p Hpp. exists ver, n. apply inv_local; try (destruct Hpp as [[-> _]| ->]; same_pc Hpc).
    - apply ok_same_held; [done|done|]. by destruct Hpp as [[-> _]| ->].
    - intros _ _ _. unfold pending. rewrite Hpc. tauto.
    - destruct Hpp as [[-> Hst]| ->]; [|same_fail Hpc]. intros _ _. rewrite tot_cons. unfold in_use. rewrite Hst.
      rewrite Hst in Hr2. simpl in Hr2. pose proof (tot_revived_le o). pose proof (tot_reviving_le o).
      change (revived (mkT Idle (held t))) with 0. simpl. lia. }
  destruct (_additional_ref_status S) eqn:Est; [|apply Hstay; by right|apply Hstay; by left].
  exists ver, n. apply inv_status; try done.
  - unfold owns. by rewrite Hpc.
  - unfold refs, in_use. rewrite Hpc, Est. simpl. lia.
  - rewrite tot_cons. unfold reviver at 1. simpl. lia.
  - rewrite tot_cons. unfold reviving at 1. simpl. rewrite Hrv2 in Hr2. simpl in Hr2. done.
  - intros _ _. rewrite tot_cons. rewrite Hrv2 in Hr2. simpl in Hr2. pose proof (tot_revived_le o). unfold in_use.
    change (revived (mkT (Deref0 false k) (held t))) with 0. simpl. lia.
Qed.
Lemma reviver_alone : reviver t = 1 -> tot reviver o = 0 /\ tot reviving o = 0.
Proof.
  intros H. pose proof (i_reviver _ _ _ _ _ Hinv) as Hr1. rewrite tot_cons in Hr1. pose proof (tot_reviving_le o). lia.
Qed.
Lemma reviving_status : reviving t = 1 -> _additional_ref_status S = REF_REVIVING.
Proof.
  intros H. pose proof (i_reviving _ _ _ _ _ Hinv) as Hr. rewrite tot_cons in Hr. pose proof (tot_reviving_le o).
  destruct (decide (_additional_ref_status S = REF_REVIVING)); [done|lia].
Qed.

Lemma kept_revive0 sp : at_pc t = Revive0 -> kept sp.
Proof.
  intros Hpc. pose proof me_ok as [Hh Hp]. unfold pc_ok in Hp. rewrite Hpc in Hp. at_step Hpc. exists ver, n.
  apply inv_local; try (same_pc Hpc); [by apply ok_same_held| |same_fail Hpc]. intros _ _ _. unfold pending. rewrite Hpc. tauto.
Qed.
Lemma kept_revive1 v0 sp : at_pc t = Revive1 v0 -> kept sp.
Proof.
  intros Hpc. pose proof me_ok as [Hh Hp]. unfold pc_ok in Hp. rewrite Hpc in Hp. at_step Hpc.
  destruct reviver_alone as [Ha1 Ha2]; [unfold reviver; by rewrite Hpc|].
  assert (Hst : _additional_ref_status S = REF_RECYCLED).
  { apply (i_revive _ _ _ _ _ Hinv). rewrite !tot_cons, Ha1, Ha2. unfold reviver, reviving. rewrite Hpc. simpl. lia. }
  exists ver, n. apply inv_status; try done.
  - unfold owns. by rewrite Hpc.
  - unfold refs, in_use. rewrite Hpc, Hst. simpl. lia.
  - rewrite tot_cons, Ha1. done.
  - rewrite tot_cons, Ha2. done.
  - rewrite !tot_cons, Ha1, Ha2. unfold reviver, reviving. simpl. lia.
  - intros _ _. rewrite tot_cons. pose proof (tot_revived_le o). change (revived (mkT (Revive2 v0) (held t))) with 0. unfold in_use. simpl. lia.
Qed.
Lemma kept_revive2 v0 sp : at_pc t = Revive2 v0 -> kept sp.
Proof.
  intros Hpc. pose proof me_ok as [Hh Hp]. unfold pc_ok in Hp. rewrite Hpc in Hp. pose proof (live_by_held Hp) as Hl.
  pose proof n_bounds as [Hrn Hnb]. pose proof ver_bounds. pose proof (i_n _ _ _ _ _ Hinv). pose proof (i_ver _ _ _ _ _ Hinv).
  pose proof (gen_le ver ltac:(lia)). at_step Hpc. rewrite (this_version Hp).
  assert (Hstay : forall p, p = Revive3 \/ p = Revive2 (_versioned_ref S) -> exists ver' n', inv (N + 1) S (mkT p (held t) :: o) ver' n').
  { intros p Hpp. exists ver, n. apply inv_local; try (destruct Hpp as [->| ->]; same_pc Hpc).
    - apply ok_same_held; [done|done|]. by destruct Hpp as [->| ->].
    - intros _ _ _. unfold pending. rewrite Hpc. tauto.
    - destruct Hpp as [->| ->]; same_fail Hpc. }
  destruct (Z.leb_spec (NRefOfVRef v0) 1); [apply Hstay; by left|].
  destruct (Z.eqb_spec (_versioned_ref S) v0) as [<-|]; [|apply Hstay; by right].
  destruct sp; [apply Hstay; by right|]. cbn [andb negb]. rewrite cur_nref in *. rewrite MakeVRef_pack by lia. exists (gen ver), (n + 1).
  assert (Hgen : gen (gen ver) = gen ver) by (unfold gen; Z.to_euclidean_division_equations; lia).
  apply inv_quiet; try lia; try (same_pc Hpc); [done| |..].
  - unfold refs. rewrite Hpc. simpl. lia.
  - by apply ok_same_held.
  - intros _ Hodd. unfold gen in Hodd. rewrite Z.mul_comm, Z.mod_mul in Hodd by lia. done.
Qed.
Lemma kept_revive34 p sp : at_pc t = p -> p = Revive3 \/ p = Revive4 -> kept sp.
Proof.
  intros Hpc Hpp. pose proof me_ok as [Hh Hp]. unfold pc_ok in Hp. rewrite Hpc in Hp.
  destruct reviver_alone as [Ha1 Ha2]; [unfold reviver; rewrite Hpc; by destruct Hpp as [->| ->]|].
  assert (Hst : _additional_ref_status S = REF_REVIVING) by (apply reviving_status; unfold reviving; rewrite Hpc; by destruct Hpp as [->| ->]).
  destruct Hpp as [->| ->]; at_step Hpc; exists ver, n; (apply inv_status; [done|done|unfold owns; by rewrite Hpc|done| |rewrite tot_cons, Ha1; done|rewrite tot_cons, Ha2; done|rewrite !tot_cons, Ha1, Ha2; unfold reviver, reviving; simpl; lia|]).
  - unfold refs, in_use. rewrite Hpc, Hst. simpl. lia.
  - intros _ _. rewrite tot_cons. pose proof (tot_revived_le o). change (revived (mkT Idle (held t))) with 0. unfold in_use. simpl. lia.
  - unfold refs, in_use. rewrite Hpc, Hst. simpl. lia.
  - intros Hl Hodd _. pose proof (i_fail _ _ _ _ _ Hinv Hl Hodd) as Hf. pose proof (tot_revived_le o). rewrite !tot_cons in *.
    change (failing (mkT Idle (held t))) with 0. unfold revived at 1, failing at 1 in Hf. rewrite Hpc in Hf.
    apply Hf. unfold in_use. rewrite Hst. simpl. lia.
Qed.
Lemma tstep_kept sp : kept sp.
Proof.
  destruct (at_pc t) eqn:Hpc; eauto using kept_create0, kept_create1, kept_create2, kept_addr0, kept_addr1, kept_addr2,
    kept_readdr0, kept_deref0, kept_deref1, kept_recycle1, kept_recycle2, kept_set_failed0, kept_set_failed1, kept_release0,
    kept_revive0, kept_revive1, kept_revive2, kept_revive34.
  at_step Hpc. exists ver, n. by apply inv_mono.
Qed.
End Steps.

(** *** Calls and schedules *)
Lemma existsb_no_reviver l : existsb (fun t => revives (at_pc t)) l = false -> tot reviver l = 0.
Proof.
  induction l as [|t l IH]; [done|]. cbn [existsb]. intros [H1 H2]%orb_false_elim. rewrite tot_cons, IH by done. unfold reviver. by rewrite H1.
Qed.
Lemma entry_inv N (s : state) i h c S' p ver n : N < 2 ^ 29 -> inv N (sock s) (threads s) ver n ->
  threads s !! i = Some (mkT Idle h) -> entry s (mkT Idle h) c = Some (S', p) ->
  inv (N + 1) S' (<[i := mkT p h]> (threads s)) ver n.
Proof.
  intros HN Hinv Hi He. destruct (threads_perm (threads s) i (mkT Idle h) (mkT p h) Hi) as (o & Hp1 & Hp2).
  eapply sock_inv_perm; [by symmetry|]. pose proof (sock_inv_perm _ _ _ _ _ _ Hp1 Hinv) as Hinv1. clear Hp2.
  pose proof (me_ok _ _ _ _ _ _ Hinv1) as [Hh _]. pose proof (n_bounds _ _ _ _ _ _ HN Hinv1) as [Hrn Hnb].
  pose proof (i_n _ _ _ _ _ Hinv). pose proof (i_ver _ _ _ _ _ Hinv).
  assert (Hlocal : forall p, revives p = false -> carry p = 0 -> owns (mkT p h) = 0 -> pc_ok (sock s) ver (live (sock s) (mkT Idle h :: o)) (mkT p h) ->
    inv (N + 1) (sock s) (mkT p h :: o) ver n).
  { intros p0 Hr Hc Ho Hok. eapply (inv_local N (sock s) (mkT Idle h)); [exact HN|exact Hinv1| | | | |by split|by intros ? ? ? []|].
    - unfold refs. cbn [at_pc held]. rewrite Hc. done.
    - done.
    - unfold reviver. cbn [at_pc]. by rewrite Hr.
    - unfold reviving. cbn [at_pc]. by destruct p0.
    - eapply unfailed_same; [exact Hinv1|unfold revived; by destruct p0|apply failing_nonneg]. }
  destruct c; cbn [entry held] in He; repeat case_bool_decide; simplify_eq; try (by apply Hlocal).
  - destruct (Z.ltb_spec 0 (pool (sock s))) as [Hpool|]; simplify_eq.
    pose proof Hinv1 as [I1 _ _ _ I5 _ _ _ _ I10 _ _ I13 I14 I15 _ _ I17]. rewrite tot_cons in I5. pose proof (tot_nonneg owns o owns_nonneg).
    change (owns (mkT Idle h)) with 0 in I5.
    assert (Hd : ~ live (sock s) (mkT Idle h :: o)) by (unfold live; rewrite tot_cons; change (owns (mkT Idle h)) with 0; lia).
    pose proof (dead_no_reviver _ _ _ _ Hd I15). pose proof (tot_reviving_le (mkT Idle h :: o)).
    eapply (inv_owner_step N (sock s) _ (mkT Idle h) _ o ver n); try done; cbn [set_pool pool]; change (owns (mkT Create0 h)) with 1; try lia.
    + replace (pool (sock s) - 1 + 1 =? 0) with false by lia. unfold refs. simpl. lia.
    + cbn [_additional_ref_status]. intros Hst. rewrite decide_True in I10 by done. lia.
    + cbn [set_pool issued]. eapply old_ids_dead; [exact Hinv1|exact Hd].
    + split; [|done]. cbn [held]. intros Hne. by destruct (Hh Hne).
  - pose proof (existsb_no_reviver (threads s)) as Hex. rewrite (tot_perm _ _ _ Hp1), tot_cons in Hex.
    destruct (existsb _ _); [done|]. simpl in He. simplify_eq. specialize (Hex eq_refl).
    pose proof Hinv1 as [I1 _ _ _ _ _ _ _ _ I10 I11 _ I13 I14 I15 _ _ I17]. pose proof (tot_reviving_le o).
    change (reviver (mkT Idle h)) with 0 in Hex.
    eapply (inv_step N (sock s) (sock s) (mkT Idle h) (mkT Revive0 h) o ver ver n n Hinv1); try done; try lia.
    + unfold refs. simpl. lia.
    + by left.
    + rewrite tot_cons. change (reviver (mkT Revive0 h)) with 1. lia.
    + intros Hl Hn0 Hodd. right. by eapply pending_others; [exact Hinv1|intros []|..].
    + intros _ _. rewrite tot_cons. change (revived (mkT Revive0 h)) with 0. pose proof (tot_revived_le o). unfold in_use. rewrite decide_False by congruence. lia.
Qed.
Lemma step_inv N (s : state) c ver n : N < 2 ^ 29 -> inv N (sock s) (threads s) ver n ->
  exists ver' n', inv (N + 1) (sock (step slot c s).1) (threads (step slot c s).1) ver' n'.
Proof.
  intros HN Hinv. assert (Hstay : exists ver' n', inv (N + 1) (sock s) (threads s) ver' n').
  { exists ver, n. destruct Hinv. constructor; try done; lia. }
  destruct c as [i c|i sp]; cbn [step].
  - destruct (threads s !! i) as [[p h]|] eqn:Hi; [|done]. destruct p; try done.
    destruct (entry s (mkT Idle h) c) as [[S' p]|] eqn:He; [|done]. exists ver, n. cbn [fst sock threads]. by eapply entry_inv.
  - destruct (threads s !! i) as [t|] eqn:Hi; [|done]. destruct (tstep slot sp (sock s) t) as [[S' t'] r] eqn:Et.
    destruct (threads_perm (threads s) i t t' Hi) as (o & Hp1 & Hp2). pose proof (sock_inv_perm _ _ _ _ _ _ Hp1 Hinv) as Hinv1.
    pose proof (tstep_kept _ _ _ _ _ _ HN Hinv1 sp) as Hk. unfold kept in Hk. rewrite Et in Hk. destruct Hk as (ver' & n' & Hk).
    exists ver', n'. cbn [fst sock threads]. eapply sock_inv_perm; [by symmetry|done].
Qed.
Lemma run_inv cs : forall N (s : state) ver n, N + Z.of_nat (length cs) <= 2 ^ 29 -> inv N (sock s) (threads s) ver n ->
  exists ver' n', inv (N + Z.of_nat (length cs)) (sock (run slot cs s).1) (threads (run slot cs s).1) ver' n'.
Proof.
  induction cs as [|c cs IH]; intros N s ver n HN Hinv; [exists ver, n; simpl; by rewrite Z.add_0_r|]. cbn [length] in HN |- *.
  destruct (step_inv N s c ver n) as (v1 & n1 & H1); [lia|done|]. cbn [run]. destruct (step slot c s) as [s1 l1]. cbn [fst] in H1.
  destruct (IH (N + 1) s1 v1 n1) as (v2 & n2 & H2); [lia|done|]. destruct (run slot cs s1) as [s2 l2]. exists v2, n2. cbn [fst] in *.
  by replace (N + Z.of_nat (Datatypes.S (length cs))) with (N + 1 + Z.of_nat (length cs)) by lia.
Qed.
Lemma start_inv m : inv 0 (sock (start m)) (threads (start m)) 0 0.
Proof.
  assert (Htot : forall f, f (mkT Idle []) = 0 -> tot f (replicate m (mkT Idle [])) = 0).
  { intros f Hf. induction m; [done|]. cbn [replicate]. rewrite tot_cons, Hf. lia. }
  assert (Hd : ~ live (sock (start m)) (threads (start m))) by (unfold live, start; cbn [sock threads pool]; rewrite Htot by done; lia).
  constructor; unfold start; cbn [sock threads _versioned_ref _additional_ref_status pool recycled issued fatal]; rewrite ?Htot by done; try done; try lia.
  - unfold additional. cbn [pool]. by rewrite Htot.
  - constructor.
  - apply Forall_replicate. by split.
Qed.

(** C5: references are safe.  Whatever threads create, address, fail, revive and
    release Sockets of a slot, in whatever interleaving: a Socket to which somebody holds
    a reference is the one whose id was addressed, it has not been recycled and its slot
    is not free; no Socket is recycled twice, the slot is never returned twice to the
    pool, and none of the LOG(FATAL)s of Dereference and of the CHECK(false)s of Address
    and AddressFailedAsWell is reached.  Not covered is the CHECK_EQ(ver1, ver2) of
    Address, which can fail ([revived_socket_fails_the_check]).  The callers keep the
    contract of [entry], and the schedule has at most 2^29 choices. *)
Theorem socket_references_are_safe m cs :
  Z.of_nat (length cs) <= 2 ^ 29 ->
  let s := (run slot cs (start m)).1 in
  (forall i t id, threads s !! i = Some t -> id ∈ held t ->
     id = _this_id (sock s) /\ (id ∉ recycled (sock s)) /\ pool (sock s) = 0 /\
     (VersionOfVRef (_versioned_ref (sock s)) = VersionOfSocketId id \/
      VersionOfVRef (_versioned_ref (sock s)) = VersionOfSocketId id + 1)) /\
  NoDup (recycled (sock s)) /\ 0 <= pool (sock s) <= 1 /\ fatal (sock s) = false.
Proof.
  intros Hcs s. destruct (run_inv cs 0 (start m) 0 0) as (ver & n & Hinv); [lia|apply start_inv|]. fold s in Hinv. rewrite Z.add_0_l in Hinv.
  pose proof Hinv as [I1 I2 I3 I4 I5 I6 I7 I8 I9 I10 I11 I12 I13 I14 I15 I16 I17 I18].
  pose proof (tot_nonneg owns (threads s) owns_nonneg). pose proof (tot_nonneg refs (threads s) refs_nonneg).
  assert (Hn : 0 <= n <= 2 ^ 29).
  { assert (0 <= additional (sock s) (threads s)) by (unfold additional, in_use; repeat case_match; lia). lia. }
  split; [|split; [done|]; split; [lia|done]].
  intros i t id Ht Hid. destruct (Forall_lookup_1 _ _ _ _ I15 Ht) as [Hh _].
  destruct Hh as [Hl Hf]; [by intros E; rewrite E in Hid; apply elem_of_nil in Hid|].
  assert (He : id = _this_id (sock s)) by (rewrite Forall_forall in Hf; symmetry; by apply Hf).
  pose proof (gen_le ver ltac:(lia)). pose proof (gen_bounds ver ltac:(lia)).
  assert (Hsid : id = sid (gen ver)) by (rewrite He; by apply I7).
  split; [done|]. split.
  { intros Hin. rewrite Forall_forall in I13. destruct (I13 id Hin) as (v & Hv & Hev & Hv0 & Hv2). rewrite Hsid in Hv. apply sid_inj in Hv.
    assert (v + 2 <= gen ver); [|lia]. apply even_le_gen; [|lia|done]. rewrite <- Zplus_mod_idemp_l, Hev. done. }
  split; [unfold live in Hl; lia|]. rewrite Hsid, sid_version, I1, VersionOfVRef_pack by lia. lia.
Qed.

Definition quiescent (s : state) : Prop := Forall (fun t => t = mkT Idle []) (threads s).

End Invariant.

(** ** Schedules

    [steps i k]: thread [i] takes [k] steps. *)
Definition steps (i k : nat) : list choice := replicate k (SStep i false).
Definition id0 : Z := MakeSocketId 0 5.
Definition id2 : Z := MakeSocketId 2 5.
(** Thread 0 creates; thread 1 addresses and fails the Socket while thread 2 tries the
    id: the reference that thread 2 gives back is the last one. *)
Definition fail_race : list choice :=
  SCall 0 CCreate :: steps 0 3 ++ SCall 1 (CAddress id0) :: steps 1 1 ++ SCall 1 CSetFailed :: steps 1 3 ++
  [SCall 2 (CAddress id0); SStep 2 false] ++ steps 1 1 ++ SCall 1 CDereference :: steps 1 1 ++ steps 2 4.

Lemma socket_references_witness :
  let s := (run 5 fail_race (start 3)).1 in
  (forall i t id, threads s !! i = Some t -> id ∈ held t ->
     id = _this_id (sock s) /\ (id ∉ recycled (sock s)) /\ pool (sock s) = 0 /\
     (VersionOfVRef (_versioned_ref (sock s)) = VersionOfSocketId id \/
      VersionOfVRef (_versioned_ref (sock s)) = VersionOfSocketId id + 1)) /\
  NoDup (recycled (sock s)) /\ 0 <= pool (sock s) <= 1 /\ fatal (sock s) = false.
Proof.
  apply (socket_references_are_safe 5).
  - lia.
  - vm_compute. discriminate.
Defined.
(** It is thread 2, whose [Address] fails, that recycles. *)
Example fail_race_outcome : (run 5 fail_race (start 3)).2 =
  [(0%nat, RCreate id0); (1%nat, RAddress 0); (1%nat, RSetFailed 0); (1%nat, RDereference 0); (2%nat, RAddress (-1))].
Proof. vm_compute. reflexivity. Qed.

(** The id of an earlier Socket is addressed while the references to the present one,
    which is released without being failed, are dropped. *)
Definition leak : list choice :=
  fail_race ++ SCall 0 CCreate :: steps 0 3 ++ SCall 1 (CAddress id2) :: steps 1 1 ++
  [SCall 2 (CAddress id0); SStep 2 false] ++ SCall 1 CReleaseAdditionalReference :: steps 1 2 ++
  SCall 1 CDereference :: steps 1 1 ++ steps 2 1.
(** A Socket that is released with ReleaseAdditionalReference instead of SetFailed
    can be left behind: when a concurrent Address of an outdated id gives back the last
    reference, it sees an even version, takes the slot for a free one and nobody recycles
    it.  In the end no call is under way and nobody holds a reference, the additional
    reference is released and the count is 0, but the Socket is neither recycled nor in
    the pool. *)
Theorem released_socket_can_leak :
  let s := (run 5 leak (start 3)).1 in
  quiescent s /\ _this_id (sock s) = id2 /\ _additional_ref_status (sock s) = REF_RECYCLED /\
  NRefOfVRef (_versioned_ref (sock s)) = 0 /\ pool (sock s) = 0 /\ recycled (sock s) = [id0].
Proof. vm_compute. repeat (split; [reflexivity || (repeat constructor)|]). reflexivity. Qed.

(** Thread 1 fails the Socket, thread 2 addresses its id meanwhile, thread 1 revives it
    and gives up all references. *)
Definition revival : list choice :=
  SCall 0 CCreate :: steps 0 3 ++ SCall 1 (CAddress id0) :: steps 1 1 ++ SCall 1 CReAddress :: steps 1 1 ++ SCall 1 CSetFailed :: steps 1 4 ++
  [SCall 2 (CAddress id0); SStep 2 false] ++ SCall 1 CRevive :: steps 1 4 ++ SCall 1 CReleaseAdditionalReference :: steps 1 2 ++
  SCall 1 CDereference :: steps 1 1 ++ SCall 1 CDereference :: steps 1 1.
(** [Address] checks that the slot had the same version when it took and when it gave
    back its reference, if the version is even at last.  When the Socket was failed and
    is revived in between, the check fails; and since its references are gone by then,
    the Socket is not recycled either. *)
Theorem revived_socket_fails_the_check :
  let s := (run 5 revival (start 3)).1 in
  let s' := (run 5 (revival ++ steps 2 1) (start 3)).1 in
  unequal (sock s) = false /\ unequal (sock s') = true /\ fatal (sock s') = false /\ quiescent s' /\
  NRefOfVRef (_versioned_ref (sock s')) = 0 /\ pool (sock s') = 0 /\ recycled (sock s') = [].
Proof. vm_compute. repeat (split; [reflexivity || (repeat constructor)|]). reflexivity. Qed.

End SocketRef.
