(* ===== verification/SocketWrite.v ===== *)
(** * Writing into a Socket (brpc/socket.cpp, socket.h)

    [Socket::Write] of any number of threads, the thread that owns the list of write
    requests - the caller whose exchange found the list empty, the callback of a
    connect, or a [KeepWrite] bthread - and failures that other threads report, on one
    Socket without SSL, RDMA or a SocketConnection.  Every access to memory that two
    threads share is a step - the addition to [_unwritten_bytes] and the store to
    [_overcrowded] that may follow it are two -; the scheduler interleaves the steps in
    any order, sequentially consistently, and chooses what the kernel answers. *)
From stdpp Require Import base list gmap sets.
From Stdlib Require Import ZArith Lia Bool.
From S2P Require Import Prelude PushList IOBufWriter.

Open Scope Z_scope.

(** ** PackedPtr: 48 bits of pointer, 16 bits of anything *)
Module PackedPtr.
Definition MAX_POINTER_LEN : Z := 48.
Definition POINTER_MASK : Z := Z.shiftl 1 MAX_POINTER_LEN - 1.
Definition EXTRA_MASK : Z := u64 (Z.lnot POINTER_MASK).
Definition set (p d : Z) : Z := Z.lor (Z.land d EXTRA_MASK) (Z.land p POINTER_MASK).
Definition reset (d : Z) : Z := Z.land d EXTRA_MASK.
Definition get (d : Z) : Z := Z.land d POINTER_MASK.
Definition set_extra (e d : Z) : Z := Z.lor (Z.land d POINTER_MASK) (u64 (Z.shiftl e MAX_POINTER_LEN)).
Definition reset_extra (d : Z) : Z := Z.land d POINTER_MASK.
Definition extra (d : Z) : Z := u16 (Z.shiftr d MAX_POINTER_LEN).
Definition set_ptr_and_extra (p e : Z) : Z := Z.lor (Z.land p POINTER_MASK) (u64 (Z.shiftl e MAX_POINTER_LEN)).
End PackedPtr.

Module SocketWrite.
Import PushList.

Definition INVALID_BTHREAD_ID : Z := 0.
Definition EINVAL : Z := 22.
Definition EAGAIN : Z := 11.
Definition ENOMEM : Z := 12.
Definition ETIMEDOUT : Z := 110.
Definition EOVERFLOW : Z := 75.
Definition EOVERCROWDED : Z := 1011.
Definition ESHUTDOWNWRITE : Z := 2007.
Definition EFAILEDSOCKET : Z := 1009.
Definition MAX_PIPELINED_COUNT : Z := 16384.
Definition DATA_LIST_MAX : nat := 256.

(** ** Write requests *)

(** A user message is an object of another class: what matters of it is what its
    [AppendAndDestroySelf] does - append bytes, or fail with an error code. *)
Inductive SocketMessage := DUMMY_USER_MESSAGE | UserMessage (outcome : Z + list Z).
(** The two packed pointers are pairs of a pointer and 16 bits ([PackedPtr] below shows
    that they are independent); the pointer to the Socket is left out.  [ticket] is a
    history variable: the position of the request in the order of the exchanges. *)
Record WriteRequest := mkReq {
  data : list Z; next : link; id_wait : Z; control_bits : Z;
  user_message : option SocketMessage; pc_bits : Z; ticket : nat }.
Definition fresh_request : WriteRequest := mkReq [] UNCONNECTED INVALID_BTHREAD_ID 0 None 0 0.

Definition set_next (x : link) (r : WriteRequest) : WriteRequest :=
  mkReq (data r) x (id_wait r) (control_bits r) (user_message r) (pc_bits r) (ticket r).
Definition set_data (d : list Z) (r : WriteRequest) : WriteRequest :=
  mkReq d (next r) (id_wait r) (control_bits r) (user_message r) (pc_bits r) (ticket r).
Definition set_ticket (t : nat) (r : WriteRequest) : WriteRequest :=
  mkReq (data r) (next r) (id_wait r) (control_bits r) (user_message r) (pc_bits r) t.
Definition bit (b : bool) : Z := if b then 1 else 0.
Definition control (notify_on_success shutdown_write : bool) : Z :=
  u16 (Z.lor (Z.shiftl (bit notify_on_success) 1) (bit shutdown_write)).
Definition is_notify_on_success (r : WriteRequest) : bool := negb (Z.land (control_bits r) (Z.shiftl 1 1) =? 0).
Definition need_shutdown_write (r : WriteRequest) : bool := negb (Z.land (control_bits r) 1 =? 0).
Definition pipelined_count (r : WriteRequest) : Z := Z.land (pc_bits r) 0x3FFF.
Definition get_auth_flags (r : WriteRequest) : Z := Z.land (Z.shiftr (pc_bits r) 14) 0x03.
Definition clear_pipelined_count_and_auth_flags (r : WriteRequest) : WriteRequest :=
  mkReq (data r) (next r) (id_wait r) (control_bits r) (user_message r) 0 (ticket r).
Definition clear_user_message (r : WriteRequest) : WriteRequest :=
  mkReq (data r) (next r) (id_wait r) (control_bits r) None (pc_bits r) (ticket r).
Definition set_pipelined_count_and_user_message (pc : Z) (m : option SocketMessage) (auth_flags : Z) (r : WriteRequest) : WriteRequest :=
  let pc := if auth_flags =? 0 then pc else Z.lor pc (Z.shiftl (Z.land auth_flags 0x03) 14) in
  mkReq (data r) (next r) (id_wait r) (control_bits r) m (u16 pc) (ticket r).
Definition reset_pipelined_count_and_user_message (r : WriteRequest) : bool * WriteRequest :=
  match user_message r with
  | Some _ => (true, set_pipelined_count_and_user_message 0 None 0 r)
  | None => (false, r)
  end.

(** ** The Socket *)
Record PipelinedInfo := mkPI { count : Z; auth_flags : Z; pi_id_wait : Z }.
(** [heap] has every request that was ever allocated, [pooled] those that are in the
    object pool, which keeps their contents; [signals] are the calls of
    [bthread_id_error], [waiting] is [_id_wait_list], [failed] the error code of a
    failed Socket and [wire] what was written into the fd.  [history] (what was given
    to [Write], in the order of the exchanges) and [ended] (the requests that left the
    list, with their tickets and whether they succeeded) are history variables. *)
Record Socket := mkSock {
  heap : gmap addr WriteRequest; pooled : gset addr; _write_head : option addr;
  _is_write_shutdown : bool; _unwritten_bytes : Z; _overcrowded : bool;
  failed : option Z; connected : bool; _pipeline_q : list PipelinedInfo;
  waiting : list Z; signals : list (Z * Z); wire : list Z;
  history : list (list Z); ended : list (nat * bool) }.
Definition new : Socket := mkSock ∅ ∅ None false 0 false None false [] [] [] [] [] [].

Definition set_heap (h : gmap addr WriteRequest) (s : Socket) : Socket :=
  mkSock h (pooled s) (_write_head s) (_is_write_shutdown s) (_unwritten_bytes s) (_overcrowded s)
    (failed s) (connected s) (_pipeline_q s) (waiting s) (signals s) (wire s) (history s) (ended s).
Definition set_pooled (p : gset addr) (s : Socket) : Socket :=
  mkSock (heap s) p (_write_head s) (_is_write_shutdown s) (_unwritten_bytes s) (_overcrowded s)
    (failed s) (connected s) (_pipeline_q s) (waiting s) (signals s) (wire s) (history s) (ended s).
Definition set_write_head (a : option addr) (s : Socket) : Socket :=
  mkSock (heap s) (pooled s) a (_is_write_shutdown s) (_unwritten_bytes s) (_overcrowded s)
    (failed s) (connected s) (_pipeline_q s) (waiting s) (signals s) (wire s) (history s) (ended s).
Definition set_write_shutdown (b : bool) (s : Socket) : Socket :=
  mkSock (heap s) (pooled s) (_write_head s) b (_unwritten_bytes s) (_overcrowded s)
    (failed s) (connected s) (_pipeline_q s) (waiting s) (signals s) (wire s) (history s) (ended s).
Definition set_unwritten (n : Z) (s : Socket) : Socket :=
  mkSock (heap s) (pooled s) (_write_head s) (_is_write_shutdown s) n (_overcrowded s)
    (failed s) (connected s) (_pipeline_q s) (waiting s) (signals s) (wire s) (history s) (ended s).
Definition set_overcrowded (b : bool) (s : Socket) : Socket :=
  mkSock (heap s) (pooled s) (_write_head s) (_is_write_shutdown s) (_unwritten_bytes s) b
    (failed s) (connected s) (_pipeline_q s) (waiting s) (signals s) (wire s) (history s) (ended s).
Definition set_failed (e : option Z) (s : Socket) : Socket :=
  mkSock (heap s) (pooled s) (_write_head s) (_is_write_shutdown s) (_unwritten_bytes s) (_overcrowded s)
    e (connected s) (_pipeline_q s) (waiting s) (signals s) (wire s) (history s) (ended s).
Definition set_connected (b : bool) (s : Socket) : Socket :=
  mkSock (heap s) (pooled s) (_write_head s) (_is_write_shutdown s) (_unwritten_bytes s) (_overcrowded s)
    (failed s) b (_pipeline_q s) (waiting s) (signals s) (wire s) (history s) (ended s).
Definition PushPipelinedInfo (pi : PipelinedInfo) (s : Socket) : Socket :=
  mkSock (heap s) (pooled s) (_write_head s) (_is_write_shutdown s) (_unwritten_bytes s) (_overcrowded s)
    (failed s) (connected s) (_pipeline_q s ++ [pi]) (waiting s) (signals s) (wire s) (history s) (ended s).
Definition set_ids (w : list Z) (l : list (Z * Z)) (s : Socket) : Socket :=
  mkSock (heap s) (pooled s) (_write_head s) (_is_write_shutdown s) (_unwritten_bytes s) (_overcrowded s)
    (failed s) (connected s) (_pipeline_q s) w l (wire s) (history s) (ended s).
Definition set_wire (w : list Z) (s : Socket) : Socket :=
  mkSock (heap s) (pooled s) (_write_head s) (_is_write_shutdown s) (_unwritten_bytes s) (_overcrowded s)
    (failed s) (connected s) (_pipeline_q s) (waiting s) (signals s) w (history s) (ended s).
Definition set_log (h : list (list Z)) (e : list (nat * bool)) (s : Socket) : Socket :=
  mkSock (heap s) (pooled s) (_write_head s) (_is_write_shutdown s) (_unwritten_bytes s) (_overcrowded s)
    (failed s) (connected s) (_pipeline_q s) (waiting s) (signals s) (wire s) h e.
Definition update (a : addr) (f : WriteRequest -> WriteRequest) (s : Socket) : option Socket :=
  r ← heap s !! a; Some (set_heap (<[a := f r]> (heap s)) s).
Definition load_next (s : Socket) (a : addr) : option link := next <$> heap s !! a.

Definition Failed (s : Socket) : bool := match failed s with Some _ => true | None => false end.
Definition non_zero_error_code (e : Z) : Z := if e =? 0 then EFAILEDSOCKET else e.
(** [bthread_id_error] and [bthread_id_error2]; an invalid id is refused there. *)
Definition bthread_id_error (id e : Z) (s : Socket) : Socket :=
  if id =? INVALID_BTHREAD_ID then s else set_ids (waiting s) (signals s ++ [(id, e)]) s.
(** Adding to the list of ids is taken to succeed. *)
Definition NotifyOnFailed (id : Z) (s : Socket) : Socket :=
  match failed s with
  | None => set_ids (waiting s ++ [id]) (signals s) s
  | Some e => bthread_id_error id (non_zero_error_code e) s
  end.
(** [SetFailed]: the first call makes the Socket failed and signals the waiting ids. *)
Definition SetFailed (e : Z) (s : Socket) : Socket :=
  match failed s with
  | Some _ => s
  | None => set_ids [] (signals s ++ ((fun id => (id, non_zero_error_code e)) <$> waiting s)) (set_failed (Some e) s)
  end.
Definition SetError (id e : Z) (s : Socket) : Socket * (Z * Z) :=
  if id =? INVALID_BTHREAD_ID then (s, (-1, e)) else (bthread_id_error id e s, (0, 0)).

Section Write.
(** [-socket_max_unwritten_bytes]. *)
Context (max_unwritten : Z).

Definition size (d : list Z) : Z := Z.of_nat (length d).

(** What a function still has to do to shared memory before it goes on, one step each:
    [CancelUnwrittenBytes] from its beginning, the store to [_overcrowded] that follows
    an addition or subtraction, [PushPipelinedInfo] and [bthread_id_error2]. *)
Inductive access := ACancel (bytes : Z) | AOvercrowded (b : bool) | APush (pi : PipelinedInfo) | ASignal (id e : Z).
(** [CancelUnwrittenBytes]: the subtraction, and the store that it calls for. *)
Definition CancelUnwrittenBytes (bytes : Z) (s : Socket) : Socket * list access :=
  let before_minus := _unwritten_bytes s in
  (set_unwritten (i64 (before_minus - bytes)) s, if before_minus <? bytes + max_unwritten then [AOvercrowded false] else []).
Definition perform (x : access) (s : Socket) : Socket * list access :=
  match x with
  | ACancel bytes => CancelUnwrittenBytes bytes s
  | AOvercrowded b => (set_overcrowded b s, [])
  | APush pi => (PushPipelinedInfo pi s, [])
  | ASignal id e => (bthread_id_error id e s, [])
  end.

(** What a request contributes once it is set up. *)
Definition payload (r : WriteRequest) : list Z :=
  match user_message r with
  | None | Some DUMMY_USER_MESSAGE => data r
  | Some (UserMessage (inr bs)) => data r ++ bs
  | Some (UserMessage (inl _)) => []
  end.
(** The second half of [Setup]: the pipelined count. *)
Definition setup_pipeline (a : addr) (r : WriteRequest) (s : Socket) : Socket * list access :=
  if pipelined_count r =? 0 then (set_heap (<[a := r]> (heap s)) s, [])
  else (set_heap (<[a := clear_pipelined_count_and_auth_flags r]> (heap s)) s,
        [APush (mkPI (pipelined_count r) (get_auth_flags r) (id_wait r))]).
(** [Setup] up to its first access to the Socket - the addition to [_unwritten_bytes] or
    the error of a message - with what remains.  The request is the owner's own. *)
Definition Setup (a : addr) (s : Socket) : option (Socket * list access) :=
  r ← heap s !! a;
  match user_message r with
  | Some (UserMessage (inl e)) =>
      Some (bthread_id_error (id_wait r) e (set_heap (<[a := set_data [] (clear_user_message r)]> (heap s)) s), [])
  | Some _ =>
      let r' := set_data (payload r) (clear_user_message r) in
      let before_write := _unwritten_bytes s in
      let '(s', l) := setup_pipeline a r' (set_unwritten (i64 (before_write + size (data r'))) s) in
      Some (s', (if max_unwritten <=? before_write + size (data r') then [AOvercrowded true] else []) ++ l)
  | None => Some (setup_pipeline a r s)
  end.

(** The beginning of [ReturnFailedWriteRequest], and of the loop in
    [ReleaseAllFailedWriteRequests] for the last request: the subtraction from
    [_unwritten_bytes], and [data.clear()]. *)
Definition abandon (a : addr) (s : Socket) : option (Socket * list access) :=
  r ← heap s !! a;
  let '(was_set, r') := reset_pipelined_count_and_user_message r in
  let '(s1, l) := if was_set then (s, []) else CancelUnwrittenBytes (size (data r)) s in
  Some (set_heap (<[a := set_data [] r']> (heap s1)) s1, l).

(** [DoWrite]: the requests that go into one call of writev. *)
Fixpoint data_list (n : nat) (s : Socket) (a : addr) : option (list addr * bool) :=
  match n with
  | O => Some ([], false)
  | S n =>
      r ← heap s !! a;
      if need_shutdown_write r then Some ([a], true)
      else match next r with
           | To b => '(l, sh) ← data_list n s b; Some (a :: l, sh)
           | Null => Some ([a], false)
           | UNCONNECTED => None
           end
  end.
Definition store_all (l : list (addr * list Z)) (h : gmap addr WriteRequest) : gmap addr WriteRequest :=
  fold_right (fun '(a, d) h => alter (set_data d) a h) h l.
(** [cut_into_file_descriptor] and [cut_multiple_into_file_descriptor] when the kernel
    takes up to [n] bytes: what was written is gone from the front of the buffers. *)
Definition cut_into_fd (l : list addr) (n : Z) (s : Socket) : Z * Socket :=
  let ds := (fun a => default [] (data <$> heap s !! a)) <$> l in
  let nw := Z.max 0 (Z.min n (size (mjoin ds))) in
  (nw, set_wire (wire s ++ take (Z.to_nat nw) (mjoin ds))
         (set_heap (store_all (zip l (IOBufWriter.pop_strings ds nw)) (heap s)) s)).

(** ** The threads, by program counters *)
Record WriteOptions := mkOpt {
  o_id_wait : Z; o_notify_on_success : bool; o_pipelined_count : Z; o_auth_flags : Z;
  o_ignore_eovercrowded : bool; o_write_in_background : bool; o_shutdown_write : bool }.
(** The argument of the two versions of [Write]. *)
Inductive source := FromIOBuf (d : list Z) | FromMessage (outcome : Z + list Z).
(** The bytes that are to be sent: nothing of a message that cannot be serialized. *)
Definition message (m : source) : list Z := match m with FromIOBuf d | FromMessage (inr d) => d | FromMessage (inl _) => [] end.

(** Who called [IsWriteComplete]: [StartWrite], [KeepWrite] - whose first request is
    [req] - or [ReleaseAllFailedWriteRequests] - with its error code and what
    [StartWrite] returns at last. *)
Inductive completing := InStart | InKeep (req : addr) | InRelease (e : Z) (rc : Z * Z).
(** What follows [ReturnFailedWriteRequest]: the next request or the end; and what
    follows [ReturnSuccessfulWriteRequest]: the end of the thread, or another place in
    the loop of [KeepWrite]; [need] is [need_shutdown]. *)
Inductive after_failed := FNext (req : addr) (rc : Z * Z) | FEnd (rc : Z * Z).
Inductive returning := RDone | RSkip (req : addr) (tail : option addr) (need : bool)
  | RRelease (req : addr) (tail : option addr) (wait need : bool).

Inductive pc :=
  | Idle
  | WFailed (m : source) (o : WriteOptions)       (* Write: if (Failed()) *)
  | WCrowded (m : source) (o : WriteOptions)      (* if (_overcrowded) *)
  | WAlloc (m : source) (o : WriteOptions)        (* get_object, fill *)
  | WExchange (a : addr) (m : source) (o : WriteOptions) (* StartWrite: exchange _write_head *)
  | WLink (a prev : addr)                         (* req->next = prev_head *)
  | WOwn (a : addr) (o : WriteOptions)            (* req->next = NULL, shutdown *)
  | WConnect (a : addr) (o : WriteOptions)        (* ConnectIfNot *)
  | WSetup (a : addr) (o : WriteOptions)          (* req->Setup *)
  | WOnce (a : addr)                              (* write once *)
  | WSpawn (a : addr)                             (* start KeepWrite *)
  | Connected (a : addr)                          (* KeepWriteIfConnected ... AfterAppConnected *)
  | CSetup (a : addr)                             (* Setup of AfterAppConnected *)
  | CSpawn (a : addr)                             (* its start of KeepWrite *)
  | KSkip (req : addr) (tail : option addr)       (* KeepWrite: skip what was written *)
  | KWrite (req : addr) (tail : option addr)      (* DoWrite *)
  | KRelease (req : addr) (tail : option addr) (wait : bool) (* release what was written *)
  | KWait (req : addr) (tail : option addr) (wait : bool)    (* WaitEpollOut *)
  | KWalk (req t : addr)                          (* look for cur_tail *)
  | Complete0 (k : completing) (old : addr) (singular : bool)    (* compare-exchange *)
  | Complete1 (k : completing) (old new_head p : addr) (tail : link) (* wait for p->next *)
  | Complete2 (k : completing) (old new_head p : addr) (tail saved : link) (* p->next = tail *)
  | Complete3 (k : completing) (old new_head : addr) (tail : link)   (* old_head->next = tail *)
  | Complete4 (k : completing) (old new_head q : addr)               (* q->Setup *)
  | Success0 (a : addr) (k : returning)           (* ReturnSuccessfulWriteRequest: return_object *)
  | Success1 (a : addr) (id : Z) (k : returning)  (* p->is_notify_on_success(), signal *)
  | Release0 (req : addr) (rc : Z * Z)              (* ReleaseAllFailedWriteRequests: error code *)
  | Release1 (req : addr) (e : Z) (rc : Z * Z)            (* all but the last *)
  | Release2 (req : addr) (e : Z) (rc : Z * Z)            (* the last *)
  | Release3 (req : addr) (e : Z) (rc : Z * Z)            (* the last, at the end *)
  | Fail0 (a : addr) (e : Z) (k : after_failed)   (* ReturnFailedWriteRequest: return_object, signal *)
  | Return (rc : Z * Z).                          (* the end of Write *)

(** What the environment answers in a step: the address of an object, how many bytes
    the kernel takes, and the errno of a call that can fail ([0] if it succeeds). *)
Record env := mkEnv { mem : addr; nbytes : Z; errno : Z }.
(** A step: the Socket, the next program counter, what [Write] returns (with errno) when
    it ends, the threads it starts, and what is to be done before the next step. *)
Definition outcome : Type := Socket * pc * option (Z * Z) * list pc * list access.
Definition go_after (l : list access) (s : Socket) (p : pc) : option outcome := Some (s, p, None, [], l).
Definition go (s : Socket) (p : pc) : option outcome := go_after [] s p.
Definition retval (s : Socket) (r : Z * Z) : option outcome := Some (s, Idle, Some r, [], []).
Definition spawn (s : Socket) (r : option (Z * Z)) (p : pc) : option outcome := Some (s, Idle, r, [p], []).

Definition fill (m : source) (o : WriteOptions) (r : WriteRequest) : WriteRequest :=
  let r1 := mkReq (match m with FromIOBuf d => d | FromMessage _ => data r end) UNCONNECTED (o_id_wait o)
    (control (o_notify_on_success o) (o_shutdown_write o)) (user_message r) (pc_bits r) (ticket r) in
  set_pipelined_count_and_user_message (o_pipelined_count o)
    (Some (match m with FromIOBuf _ => DUMMY_USER_MESSAGE | FromMessage out => UserMessage out end)) (o_auth_flags o) r1.

(** [Write], before the shared state is looked at. *)
Definition Write_call (m : source) (o : WriteOptions) (s : Socket) : Socket * pc * option (Z * Z) :=
  match m with
  | FromIOBuf [] => let '(s', r) := SetError (o_id_wait o) EINVAL s in (s', Idle, Some r)
  | _ =>
      if MAX_PIPELINED_COUNT <? o_pipelined_count o
      then let '(s', r) := SetError (o_id_wait o) EOVERFLOW s in (s', Idle, Some r)
      else (s, WFailed m o, None)
  end.
Definition Write_step (e : env) (s : Socket) (p : pc) : option outcome :=
  match p with
  | WFailed m o =>
      match failed s with
      | Some code => let '(s', r) := SetError (o_id_wait o) (non_zero_error_code code) s in retval s' r
      | None => go s (WCrowded m o)
      end
  | WCrowded m o =>
      if negb (o_ignore_eovercrowded o) && _overcrowded s
      then let '(s', r) := SetError (o_id_wait o) EOVERCROWDED s in retval s' r
      else go s (WAlloc m o)
  | WAlloc m o =>
      if negb (errno e =? 0) then let '(s', r) := SetError (o_id_wait o) ENOMEM s in retval s' r
      else match heap s !! mem e with
      | Some r =>
          if decide (mem e ∈ pooled s)
          then go (set_pooled (pooled s ∖ {[mem e]}) (set_heap (<[mem e := fill m o r]> (heap s)) s)) (WExchange (mem e) m o)
          else go s p
      | None => go (set_heap (<[mem e := fill m o fresh_request]> (heap s)) s) (WExchange (mem e) m o)
      end
  | _ => None
  end.
(** [StartWrite] up to the first write, and the callbacks of a connect. *)
Definition StartWrite_step (e : env) (s : Socket) (p : pc) : option outcome :=
  match p with
  | WExchange a m o =>
      s1 ← update a (set_ticket (length (history s))) s;
      let s2 := set_write_head (Some a) (set_log (history s ++ [message m]) (ended s) s1) in
      match _write_head s with
      | Some prev => go s2 (WLink a prev)
      | None => go s2 (WOwn a o)
      end
  | WLink a prev => s' ← update a (set_next (To prev)) s; retval s' (0, 0)
  | WOwn a o =>
      r ← heap s !! a; s' ← update a (set_next Null) s;
      if _is_write_shutdown s then go s' (Release0 a (-1, 0))
      else go (set_write_shutdown (need_shutdown_write r) s') (WConnect a o)
  | WConnect a o =>
      if connected s then go s (WSetup a o)
      else if negb (errno e =? 0) then go (SetFailed (errno e) s) (Release0 a (-1, errno e))
      else spawn s (Some (0, 0)) (Connected a)
  | WSetup a o => '(s', l) ← Setup a s; go_after l s' (if o_write_in_background o then WSpawn a else WOnce a)
  | WOnce a =>
      if negb (errno e =? 0) then
        if negb (errno e =? EAGAIN) && negb (errno e =? EOVERCROWDED)
        then go (SetFailed (errno e) s) (Release0 a (-1, errno e))
        else go s (Complete0 InStart a true)
      else
        _ ← heap s !! a;
        let '(nw, s1) := cut_into_fd [a] (nbytes e) s in
        go_after [ACancel nw] s1 (Complete0 InStart a true)
  | WSpawn a => if errno e =? 0 then spawn s (Some (0, 0)) (KSkip a None) else go s (KSkip a None)
  | Connected a =>
      if errno e =? 0 then go (set_connected true s) (CSetup a) else go (SetFailed (errno e) s) (Release0 a (0, 0))
  | CSetup a => '(s', l) ← Setup a s; go_after l s' (CSpawn a)
  | CSpawn a => if errno e =? 0 then spawn s None (KSkip a None) else go s (KSkip a None)
  | _ => None
  end.
Definition after_skip (req : addr) (tail : option addr) (need : bool) : pc :=
  if need then Release0 req (0, 0) else KWrite req tail.
Definition after_release (req : addr) (tail : option addr) (wait need : bool) : pc :=
  if need then Release0 req (0, 0) else KRelease req tail wait.
(** [KeepWrite]. *)
Definition KeepWrite_step (e : env) (s : Socket) (p : pc) : option outcome :=
  match p with
  | KSkip req tail =>
      r ← heap s !! req;
      match next r with
      | UNCONNECTED => None
      | Null => go s (KWrite req tail)
      | To b =>
          match data r with
          | [] => go (set_log (history s) (ended s ++ [(ticket r, true)]) s)
                     (Success0 req (RSkip b tail (need_shutdown_write r)))
          | _ => go s (KWrite req tail)
          end
      end
  | KWrite req tail =>
      match data_list DATA_LIST_MAX s req with
      | None => None
      | Some (l, sh) =>
          let s1 := if sh then set_write_shutdown true s else s in
          if negb (errno e =? 0) then
            if negb (errno e =? EAGAIN) && negb (errno e =? EOVERCROWDED)
            then go (SetFailed (errno e) s1) (Release0 req (0, 0))
            else go s1 (KRelease req tail true)
          else
            let '(nw, s2) := cut_into_fd l (nbytes e) s1 in
            go_after [ACancel nw] s2 (KRelease req tail (nw <=? 0))
      end
  | KRelease req tail wait =>
      r ← heap s !! req;
      match next r with
      | UNCONNECTED => None
      | Null => go s (KWait req tail wait)
      | To b =>
          match data r with
          | [] => go (set_log (history s) (ended s ++ [(ticket r, true)]) s)
                     (Success0 req (RRelease b tail wait (need_shutdown_write r)))
          | _ => go s (KWait req tail wait)
          end
      end
  | KWait req tail wait =>
      if wait && negb (errno e =? 0) && negb (errno e =? ETIMEDOUT)
      then go (SetFailed (errno e) s) (Release0 req (0, 0))
      else match tail with
           | None => go s (KWalk req req)
           | Some t => go s (Complete0 (InKeep req) t (bool_decide (req = t)))
           end
  | KWalk req t =>
      x ← load_next s t;
      match x with
      | UNCONNECTED => None
      | To b => go s (KWalk req b)
      | Null => go s (Complete0 (InKeep req) t (bool_decide (req = t)))
      end
  | _ => None
  end.
(** Returning from [IsWriteComplete]. *)
Definition complete (k : completing) (old : addr) (t : nat) (s : Socket) : option outcome :=
  match k with
  | InStart => go (set_log (history s) (ended s ++ [(t, true)]) s) (Success0 old RDone)
  | InKeep req => go (set_log (history s) (ended s ++ [(t, true)]) s) (Success0 req RDone)
  | InRelease e rc => go (set_log (history s) (ended s ++ [(t, false)]) s) (Release3 old e rc)
  end.
Definition incomplete (k : completing) (old tail : addr) : pc :=
  match k with
  | InStart => WSpawn old
  | InKeep req => KSkip req (Some tail)
  | InRelease e rc => Release1 old e rc
  end.
Definition IsWriteComplete_step (s : Socket) (p : pc) : option outcome :=
  match p with
  | Complete0 k old singular =>
      r ← heap s !! old;
      let unfinished := match data r with [] => negb singular | _ => true end in
      if decide (_write_head s = Some old) then
        if unfinished then go s (incomplete k old old)
        else complete k old (ticket r) (set_write_head None s)
      else h ← _write_head s; go s (Complete1 k old h h Null)
  | Complete1 k old h q tail =>
      x ← load_next s q;
      if decide (x = UNCONNECTED) then go s p else go s (Complete2 k old h q tail x)
  | Complete2 k old h q tail saved =>
      s' ← update q (set_next tail) s;
      match saved with
      | To q' => go s' (if decide (q' = old) then Complete3 k old h (To q) else Complete1 k old h q' (To q))
      | _ => None
      end
  | Complete3 k old h tail =>
      s' ← update old (set_next tail) s;
      match tail with To q => go s' (Complete4 k old h q) | _ => None end
  | Complete4 k old h q =>
      '(s', l) ← Setup q s;
      x ← load_next s' q;
      match x with
      | UNCONNECTED => None
      | To q' => go_after l s' (Complete4 k old h q')
      | Null => go_after l s' (incomplete k old h)
      end
  | _ => None
  end.
(** [ReturnSuccessfulWriteRequest] and [ReleaseAllFailedWriteRequests]. *)
Definition Return_step (s : Socket) (p : pc) : option outcome :=
  match p with
  | Success0 a k =>
      r ← heap s !! a;
      go (set_pooled (pooled s ∪ {[a]}) s) (Success1 a (id_wait r) k)
  | Success1 a id k =>
      r ← heap s !! a;
      let s' := if id =? INVALID_BTHREAD_ID then s
                else if is_notify_on_success r && negb (Failed s) then bthread_id_error id 0 s
                else NotifyOnFailed id s in
      match k with
      | RDone => retval s' (0, 0)
      | RSkip req tail need => go s' (after_skip req tail need)
      | RRelease req tail wait need => go s' (after_release req tail wait need)
      end
  | Release0 req rc =>
      go s (Release1 req (match failed s with Some e => non_zero_error_code e | None => ESHUTDOWNWRITE end) rc)
  | Release1 req e rc =>
      r ← heap s !! req;
      match next r with
      | UNCONNECTED => None
      | To b =>
          '(s', l) ← abandon req s;
          go_after l (set_log (history s') (ended s' ++ [(ticket r, false)]) s') (Fail0 req e (FNext b rc))
      | Null => go s (Release2 req e rc)
      end
  | Release2 req e rc => '(s', l) ← abandon req s; go_after l s' (Complete0 (InRelease e rc) req true)
  | Release3 req e rc => '(s', l) ← abandon req s; go_after l s' (Fail0 req e (FEnd rc))
  | Fail0 a e k =>
      r ← heap s !! a;
      go_after (if id_wait r =? INVALID_BTHREAD_ID then [] else [ASignal (id_wait r) e]) (set_pooled (pooled s ∪ {[a]}) s)
        (match k with FNext b rc => Release1 b e rc | FEnd rc => Return rc end)
  | Return rc => retval s rc
  | _ => None
  end.
Definition pstep (e : env) (s : Socket) (p : pc) : option outcome :=
  match p with
  | Idle => None
  | WFailed _ _ | WCrowded _ _ | WAlloc _ _ => Write_step e s p
  | WExchange _ _ _ | WLink _ _ | WOwn _ _ | WConnect _ _ | WSetup _ _ | WOnce _ | WSpawn _ | Connected _ | CSetup _ | CSpawn _ =>
      StartWrite_step e s p
  | KSkip _ _ | KWrite _ _ | KRelease _ _ _ | KWait _ _ _ | KWalk _ _ => KeepWrite_step e s p
  | Complete0 _ _ _ | Complete1 _ _ _ _ _ | Complete2 _ _ _ _ _ _ | Complete3 _ _ _ _ | Complete4 _ _ _ _ =>
      IsWriteComplete_step s p
  | _ => Return_step s p
  end.

(** ** Schedules

    A thread is at a program counter and first does the accesses that are left of the
    function before.  Idle threads call [Write]; any thread may make the Socket failed. *)
Record thread := mkT { accesses : list access; at_pc : pc }.
Definition idle : thread := mkT [] Idle.
Inductive choice := SWrite (i : nat) (m : source) (o : WriteOptions) | SFail (e : Z) | SStep (i : nat) (e : env).
Record state := mkS { sock : Socket; threads : list thread }.
Definition emit (i : nat) (r : option (Z * Z)) : list (nat * (Z * Z)) := match r with Some r => [(i, r)] | None => [] end.
Definition step (c : choice) (s : state) : option (state * list (nat * (Z * Z))) :=
  match c with
  | SWrite i m o =>
      match threads s !! i with
      | Some (mkT [] Idle) =>
          let '(s', p, r) := Write_call m o (sock s) in Some (mkS s' (<[i := mkT [] p]> (threads s)), emit i r)
      | _ => Some (s, [])
      end
  | SFail e => Some (mkS (SetFailed e (sock s)) (threads s), [])
  | SStep i e =>
      match threads s !! i with
      | None | Some (mkT [] Idle) => Some (s, [])
      | Some (mkT (x :: l) p) =>
          let '(s', l') := perform x (sock s) in Some (mkS s' (<[i := mkT (l' ++ l) p]> (threads s)), [])
      | Some (mkT [] p) =>
          '(s', p', r, new, l) ← pstep e (sock s) p;
          Some (mkS s' (<[i := mkT l p']> (threads s) ++ (mkT [] <$> new)), emit i r)
      end
  end.
Fixpoint run (cs : list choice) (s : state) : option (state * list (nat * (Z * Z))) :=
  match cs with
  | [] => Some (s, [])
  | c :: cs => '(s1, l1) ← step c s; '(s2, l2) ← run cs s1; Some (s2, l1 ++ l2)
  end.
Definition start (n : nat) (already_connected : bool) : state :=
  mkS (set_connected already_connected new) (replicate n idle).
End Write.
End SocketWrite.
