(* ===== verification/SocketWriteInv.v ===== *)
(** * The invariant of the write path of Socket

    Who owns the list of write requests, what the owner knows of it at every program
    counter, what the requests contribute to the fd and how they are counted; and that
    every step of every thread keeps all of this. *)
From stdpp Require Import base list gmap sets.
From Stdlib Require Import ZArith Lia Bool.
From S2P Require Import Prelude PushList IOBufWriter SocketWrite.

Open Scope Z_scope.

Module SocketWriteInv.
Import PushList SocketWrite.

Section Inv.
(** [due] is what threads have written and not yet subtracted from [_unwritten_bytes]. *)
Context (max_unwritten due : Z).
Abbreviation pstep := (pstep max_unwritten).

(** ** The list and its owner *)

(** [VOwned i]: thread [i] owns the list; the first [k] requests are set up and, unless
    the owner is [failing], the rest is not. *)
Inductive view :=
  | VEmpty
  | VOwned (i : nat) (fs : list addr) (o : addr) (lo : link) (todo rev back : list addr) (k : nat) (failing : bool).
Definition nodes (w : view) : list addr :=
  match w with VEmpty => [] | VOwned _ fs o _ todo rev back _ _ => fs ++ o :: todo ++ rev ++ back end.
Definition set_up (w : view) : nat := match w with VEmpty => 0 | VOwned _ _ _ _ _ _ _ k _ => k end.
Definition failing (w : view) : bool := match w with VEmpty => false | VOwned _ _ _ _ _ _ _ _ fl => fl end.

Definition is_owner (p : pc) : bool :=
  match p with
  | Idle | WFailed _ _ | WCrowded _ _ | WAlloc _ _ | WExchange _ _ _ | WLink _ _
  | Success0 _ RDone | Success1 _ _ RDone | Release3 _ _ _ | Fail0 _ _ (FEnd _) | Return _ => false
  | _ => true
  end.
Definition wait (ths : list pc) (a b : addr) : Prop := exists i, ths !! i = Some (WLink a b).

(** The owner knows the whole list that it has seen, linked and set up. *)
Definition calm (fs : list addr) (lo : link) (todo rev : list addr) (k : nat) (fl : bool) : Prop :=
  lo = Null /\ todo = [] /\ rev = [] /\ k = S (length fs) /\ fl = false.
Definition tail_ok (tail : option addr) (o : addr) : Prop := tail = None \/ tail = Some o.
(** What the caller of [IsWriteComplete] knows. *)
Definition caller (c : completing) (fs : list addr) (o : addr) (k : nat) (fl : bool) : Prop :=
  match c with
  | InStart => fs = [] /\ k = 1%nat /\ fl = false
  | InKeep req => hd o fs = req /\ k = S (length fs) /\ fl = false
  | InRelease _ _ => fs = [] /\ fl = true
  end.
Definition singular_ok (c : completing) (sg : bool) (fs : list addr) : Prop :=
  match c with InKeep _ => sg = bool_decide (fs = []) | _ => sg = true end.
Definition first_of (c : completing) (old : addr) : addr := match c with InKeep req => req | _ => old end.
Definition releasing (c : completing) : bool := match c with InRelease _ _ => true | _ => false end.

Definition orel (s : Socket) (p : pc) fs o lo todo rev (k : nat) (fl : bool) : Prop :=
  match p with
  | WOwn a _ => fs = [] /\ o = a /\ lo = UNCONNECTED /\ todo = [] /\ rev = [] /\ k = 0%nat /\ fl = false
  | WConnect a _ | WSetup a _ | Connected a | CSetup a =>
      fs = [] /\ o = a /\ lo = Null /\ todo = [] /\ rev = [] /\ k = 0%nat /\ fl = false
  | WOnce a => fs = [] /\ o = a /\ calm fs lo todo rev k fl
  | WSpawn a | CSpawn a => calm fs lo todo rev k fl /\ hd o fs = a
  | KSkip req tail | KWrite req tail | KRelease req tail _ | KWait req tail _
  | Success0 _ (RSkip req tail _) | Success0 _ (RRelease req tail _ _)
  | Success1 _ _ (RSkip req tail _) | Success1 _ _ (RRelease req tail _ _) =>
      calm fs lo todo rev k fl /\ hd o fs = req /\ tail_ok tail o
  | KWalk req t => calm fs lo todo rev k fl /\ hd o fs = req /\ t ∈ fs ++ [o]
  | Release0 req _ | Release1 req _ _ | Fail0 _ _ (FNext req _) => lo = Null /\ todo = [] /\ rev = [] /\ fl = true /\ hd o fs = req
  | Release2 req _ _ => lo = Null /\ todo = [] /\ rev = [] /\ fl = true /\ fs = [] /\ o = req
  | Complete0 c old sg => o = old /\ lo = Null /\ todo = [] /\ rev = [] /\ caller c fs o k fl /\ singular_ok c sg fs
  | Complete1 c old h p tail => o = old /\ lo = Null /\ caller c fs o k fl /\
      exists t, todo = t ++ [p] /\ tail = first rev Null /\ h = top o (todo ++ rev)
  | Complete2 c old h p tail saved => o = old /\ lo = Null /\ caller c fs o k fl /\
      exists t, todo = t ++ [p] /\ tail = first rev Null /\ h = top o (todo ++ rev) /\ saved = To (top o t) /\ load_next s p = Some saved
  | Complete3 c old h tail => o = old /\ lo = Null /\ caller c fs o k fl /\ todo = [] /\
      exists r rev', rev = r :: rev' /\ tail = To r /\ h = top o rev
  | Complete4 c old h q => lo = Null /\ todo = [] /\ rev = [] /\ h = o /\ hd o fs = first_of c old /\ fl = releasing c /\
      exists l1 l2, fs ++ [o] = l1 ++ q :: l2 /\ (fl = false -> k = length l1)
  | _ => False
  end.

Definition shape (s : Socket) (ths : list pc) (w : view) : Prop :=
  match w with
  | VEmpty => _write_head s = None /\ forall j p, ths !! j = Some p -> is_owner p = false
  | VOwned i fs o lo todo rev back k fl =>
      owned (load_next s) (wait ths) (_write_head s) fs o lo todo rev back /\
      (exists p, ths !! i = Some p /\ is_owner p = true /\ orel s p fs o lo todo rev k fl) /\
      (forall j p, ths !! j = Some p -> is_owner p = true -> j = i)
  end.

(** The request a thread has for itself, is linking, or is about to return. *)
Definition tnode (p : pc) : option addr :=
  match p with WExchange a _ _ | WLink a _ | WOwn a _ | Success0 a _ | Release3 a _ _ | Fail0 a _ _ => Some a | _ => None end.
Definition tok (s : Socket) (l : list addr) (p : pc) : Prop :=
  match p with
  | WExchange a m _ => (a ∉ l) /\ (a ∉ pooled s) /\
      exists r, heap s !! a = Some r /\ next r = UNCONNECTED /\ is_Some (user_message r) /\ payload r = message m
  | WLink a _ | WOwn a _ => a ∈ l /\ load_next s a = Some UNCONNECTED
  | Success0 a _ | Release3 a _ _ | Fail0 a _ _ => (a ∉ l) /\ (a ∉ pooled s) /\
      exists r, heap s !! a = Some r /\ data r = []
  | Success1 a _ _ => is_Some (heap s !! a)
  | _ => True
  end.
Record threads_ok (s : Socket) (ths : list pc) (l : list addr) : Prop := mkThreads {
  th_inj : forall i j a, ths !! i ≫= tnode = Some a -> ths !! j ≫= tnode = Some a -> i = j;
  th_ok : forall j p, ths !! j = Some p -> tok s l p;
  th_pool : forall a, a ∈ pooled s -> (a ∉ l) /\ exists r, heap s !! a = Some r /\ data r = [] }.

(** ** What the requests hold *)
Definition holds (s : Socket) (a : addr) (h : list Z) : Prop :=
  exists r, heap s !! a = Some r /\
    match user_message r with None => data r `suffix_of` h | Some _ => payload r = h end.
Definition dat (s : Socket) (a : addr) : list Z := match heap s !! a with Some r => data r | None => [] end.
Definition is_set (s : Socket) (a : addr) : Prop := exists r, heap s !! a = Some r /\ user_message r = None.
Definition unset (s : Socket) (a : addr) : Prop := exists r, heap s !! a = Some r /\ is_Some (user_message r).
(** What is still to come of the requests in the list. *)
Definition pending (s : Socket) : list (list Z) := drop (length (ended s)) (history s).
(** [V] is what the fd has of the requests in the list. *)
Definition progress (s : Socket) (l : list addr) (k : nat) (fl : bool) (V : list Z) : Prop :=
  if fl then V `prefix_of` mjoin (pending s)
  else (k <= length l)%nat /\ V ++ mjoin (dat s <$> take k l) = mjoin (take k (pending s)) /\
       Forall (is_set s) (take k l) /\ Forall (unset s) (drop k l).
(** What the fd got of a request that has left the list. *)
Definition delivered (w : list Z) (e : nat * bool) (h : list Z) : Prop :=
  w `prefix_of` h /\ (e.2 = true -> w = h).
Record contents (s : Socket) (l : list addr) (k : nat) (fl : bool) : Prop := mkContents {
  ct_length : (length (history s) = length (ended s) + length l)%nat;
  ct_holds : Forall2 (holds s) l (pending s);
  ct_tickets : forall i a r, l !! i = Some a -> heap s !! a = Some r -> ticket r = (length (ended s) + i)%nat;
  ct_ended : forall i e, ended s !! i = Some e -> e.1 = i;
  ct_wire : exists ws V, wire s = mjoin ws ++ V /\
    Forall3 delivered ws (ended s) (take (length (ended s)) (history s)) /\ progress s l k fl V }.

(** ** What is counted *)
Definition counted (s : Socket) (a : addr) : Z :=
  match heap s !! a with
  | Some r => match user_message r with None => size (data r) | Some _ => 0 end
  | None => 0
  end.
Definition total (l : list (list Z)) : Z := size (mjoin l).
Fixpoint sum (s : Socket) (l : list addr) : Z := match l with [] => 0 | a :: l => counted s a + sum s l end.
(** The bytes of a subtraction that is still to come are counted. *)
Definition accounts (s : Socket) (l : list addr) : Prop :=
  _unwritten_bytes s = i64 (sum s l + due) /\ (due = 0 \/ 0 <= due /\ sum s l + due <= total (pending s)).
(** No subtraction is to come. *)
Definition plain (l : list access) : bool := forallb (fun x => match x with ACancel _ => false | _ => true end) l.

Record invw (s : Socket) (ths : list pc) (w : view) : Prop := mkInv {
  in_shape : shape s ths w;
  in_threads : threads_ok s ths (nodes w);
  in_contents : contents s (nodes w) (set_up w) (failing w);
  in_accounts : accounts s (nodes w) }.

(** ** Frames *)

(** What of a request the contents depend on. *)
Definition core (s : Socket) (a : addr) : option (list Z * option SocketMessage * nat) :=
  (fun r => (data r, user_message r, ticket r)) <$> heap s !! a.
Lemma core_heap s s' a : heap s' !! a = heap s !! a -> core s' a = core s a.
Proof. unfold core. by intros ->. Qed.
Lemma core_inv s s' a r : core s' a = core s a -> heap s !! a = Some r ->
  exists r', heap s' !! a = Some r' /\ data r' = data r /\ user_message r' = user_message r /\ ticket r' = ticket r.
Proof. unfold core. intros H Hr. rewrite Hr in H. destruct (heap s' !! a) as [r'|]; simplify_eq/=. by exists r'. Qed.
Lemma core_dat s s' a : core s' a = core s a -> dat s' a = dat s a.
Proof. unfold core, dat. intros H. by destruct (heap s !! a), (heap s' !! a); simplify_eq/=. Qed.
Lemma core_counted s s' a : core s' a = core s a -> counted s' a = counted s a.
Proof. unfold core, counted. intros H. destruct (heap s !! a), (heap s' !! a); simplify_eq/=; [|done]. by replace (user_message w0) with (user_message w) by congruence; replace (data w0) with (data w) by congruence. Qed.
Lemma core_holds s s' a h : core s' a = core s a -> holds s a h -> holds s' a h.
Proof.
  intros Hc (r & Hr & Hm). destruct (core_inv _ _ _ _ Hc Hr) as (r' & Hr' & Hd & Hu & _). exists r'. split; [done|].
  unfold payload in *. rewrite Hu, Hd. done.
Qed.
Lemma core_is_set s s' a : core s' a = core s a -> is_set s a -> is_set s' a.
Proof. intros Hc (r & Hr & Hm). destruct (core_inv _ _ _ _ Hc Hr) as (r' & Hr' & _ & Hu & _). exists r'. by rewrite Hu. Qed.
Lemma core_unset s s' a : core s' a = core s a -> unset s a -> unset s' a.
Proof. intros Hc (r & Hr & Hm). destruct (core_inv _ _ _ _ Hc Hr) as (r' & Hr' & _ & Hu & _). exists r'. by rewrite Hu. Qed.
Lemma core_sum s s' l : (forall a, a ∈ l -> core s' a = core s a) -> sum s' l = sum s l.
Proof. induction l as [|a l IH]; [done|]. intros H. cbn [sum]. rewrite IH by set_solver. f_equal. apply core_counted, H. set_solver. Qed.

Lemma progress_frame s s' l k fl V : pending s' = pending s -> (forall a, a ∈ l -> core s' a = core s a) ->
  progress s l k fl V -> progress s' l k fl V.
Proof.
  intros Hp Hc. unfold progress. rewrite Hp. destruct fl; [done|]. intros (Hk & Heq & H1 & H2). split; [done|].
  assert (dat s' <$> take k l = dat s <$> take k l) as ->.
  { apply list_fmap_ext. intros j a Ha. apply core_dat, Hc. eapply list_elem_of_lookup_2. eapply lookup_take_Some in Ha as [? _]. done. }
  split; [done|]. split.
  - apply Forall_forall. intros a Ha. apply (core_is_set s); [|by apply (proj1 (Forall_forall _ _) H1)]. apply Hc.
    rewrite <- (take_drop k l). set_solver.
  - apply Forall_forall. intros a Ha. apply (core_unset s); [|by apply (proj1 (Forall_forall _ _) H2)]. apply Hc.
    rewrite <- (take_drop k l). set_solver.
Qed.
Lemma contents_frame s s' l k fl : wire s' = wire s -> history s' = history s -> ended s' = ended s ->
  (forall a, a ∈ l -> core s' a = core s a) -> contents s l k fl -> contents s' l k fl.
Proof.
  intros Hw Hh He Hc [H1 H2 H3 H4 (ws & V & H5 & H6 & H7)]. assert (pending s' = pending s) as Hp by (unfold pending; by rewrite Hh, He).
  split; rewrite ?Hh, ?He, ?Hp; try done.
  - apply Forall2_same_length_lookup. split; [by eapply Forall2_length|]. intros j a h Ha Hh'.
    apply (core_holds s); [apply Hc; by eapply list_elem_of_lookup_2|]. apply (Forall2_lookup_lr _ _ _ _ _ _ H2 Ha Hh').
  - intros j a r Ha Hr. destruct (core_inv s' s a r) as (r0 & Hr0 & _ & _ & Ht); [symmetry; apply Hc; by eapply list_elem_of_lookup_2|done|].
    rewrite <- Ht. by apply (H3 j a).
  - exists ws, V. rewrite Hw. split; [done|]. split; [done|]. by apply (progress_frame s).
Qed.
Lemma accounts_frame s s' l : _unwritten_bytes s' = _unwritten_bytes s -> history s' = history s -> ended s' = ended s ->
  (forall a, a ∈ l -> core s' a = core s a) -> accounts s l -> accounts s' l.
Proof. intros Hu Hh He Hc [H1 H2]. unfold accounts, pending. rewrite Hu, Hh, He, (core_sum s s') by done. done. Qed.

Lemma tok_frame s s' l l' p : (forall a, is_Some (heap s !! a) -> is_Some (heap s' !! a)) ->
  (forall a, tnode p = Some a -> heap s' !! a = heap s !! a /\ (a ∉ pooled s -> a ∉ pooled s') /\ (a ∈ l' <-> a ∈ l)) ->
  tok s l p -> tok s' l' p.
Proof.
  intros Hd Ht. destruct p; cbn [tok tnode] in *; try done.
  - destruct (Ht a eq_refl) as (-> & Hp & Hl). rewrite Hl. intros (? & ? & ?). split; [done|]. split; [by apply Hp|done].
  - destruct (Ht a eq_refl) as (Hh & Hp & Hl). rewrite Hl. unfold load_next. by rewrite Hh.
  - destruct (Ht a eq_refl) as (Hh & Hp & Hl). rewrite Hl. unfold load_next. by rewrite Hh.
  - destruct (Ht a eq_refl) as (-> & Hp & Hl). rewrite Hl. intros (? & ? & ?). split; [done|]. split; [by apply Hp|done].
  - apply Hd.
  - destruct (Ht req eq_refl) as (-> & Hp & Hl). rewrite Hl. intros (? & ? & ?). split; [done|]. split; [by apply Hp|done].
  - destruct (Ht a eq_refl) as (-> & Hp & Hl). rewrite Hl. intros (? & ? & ?). split; [done|]. split; [by apply Hp|done].
Qed.
(** Thread [i] moves, and starts threads that have no request of their own. *)
Lemma threads_update s s' ths l l' i p' (new : list pc) :
  threads_ok s ths l -> (i < length ths)%nat ->
  (forall a, is_Some (heap s !! a) -> is_Some (heap s' !! a)) ->
  (forall j a, j <> i -> ths !! j ≫= tnode = Some a ->
    heap s' !! a = heap s !! a /\ (a ∉ pooled s -> a ∉ pooled s') /\ (a ∈ l' <-> a ∈ l)) ->
  tok s' l' p' -> (forall a j, tnode p' = Some a -> ths !! j ≫= tnode = Some a -> j = i) ->
  (forall a, a ∈ pooled s' -> (a ∉ l') /\ exists r, heap s' !! a = Some r /\ data r = []) ->
  Forall (fun q => tnode q = None /\ tok s' l' q) new ->
  threads_ok s' (<[i := p']> ths ++ new) l'.
Proof.
  intros [H1 H2 H3] Hi Hd Hs Hp' Hinj Hpool Hnew.
  assert (forall j q, (<[i := p']> ths ++ new) !! j = Some q -> j = i /\ q = p' \/ j <> i /\ ths !! j = Some q \/ tnode q = None /\ tok s' l' q) as Hlook.
  { intros j q. rewrite lookup_app_Some, list_lookup_insert_Some, length_insert. intros [[(<- & <- & _)|[? ?]]|[? Hq]]; [by left|right; left; by split; [congruence|]|].
    right; right. by apply (Forall_lookup_1 _ _ _ _ Hnew Hq). }
  split; [|  |done].
  - intros j k a. destruct ((<[i := p']> ths ++ new) !! j) as [qj|] eqn:Hj; [|done]. destruct ((<[i := p']> ths ++ new) !! k) as [qk|] eqn:Hk; [|done].
    cbn [mbind option_bind]. intros Ha Hb. destruct (Hlook j qj Hj) as [[-> ->]|[[Hji Hjl]|[? _]]], (Hlook k qk Hk) as [[-> ->]|[[Hki Hkl]|[? _]]]; try congruence.
    + symmetry. apply (Hinj a k); [done|]. by rewrite Hkl.
    + apply (Hinj a j); [done|]. by rewrite Hjl.
    + apply (H1 _ _ a); [by rewrite Hjl|by rewrite Hkl].
  - intros j q Hj. destruct (Hlook j q Hj) as [[-> ->]|[[Hji Hjl]|[_ Hq]]]; [done| |done].
    apply (tok_frame s s' l); [done| |by apply (H2 j)]. intros a Ha. apply (Hs j a Hji). by rewrite Hjl.
Qed.
(** A thread that has a node of the list is linking it. *)
Lemma busy_linking s ths l j a : threads_ok s ths l -> ths !! j ≫= tnode = Some a -> a ∈ l ->
  load_next s a = Some UNCONNECTED.
Proof.
  intros Hth Ha Hl. destruct (ths !! j) as [p|] eqn:Hj; [|done]. pose proof (th_ok _ _ _ Hth j p Hj) as Hok.
  destruct p; simplify_eq/=; by destruct Hok.
Qed.

Lemma linking_mono ths i p p' (new : list pc) : ths !! i = Some p -> (forall a b, p <> WLink a b) ->
  forall a b, wait ths a b -> wait (<[i := p']> ths ++ new) a b.
Proof.
  intros Hi Hp a b [j Hj]. exists j. rewrite lookup_app_l by (rewrite length_insert; by eapply lookup_lt_Some).
  rewrite list_lookup_insert_ne; [done|]. intros ->. rewrite Hi in Hj. simplify_eq. by eapply Hp.
Qed.
Lemma owner_not_link p a b : is_owner p = true -> p <> WLink a b.
Proof. by intros H ->. Qed.
(** The owner goes on. *)
Lemma shape_owner s s' ths i p p' fs o lo todo rev back k fl fs' o' lo' todo' rev' back' k' fl' :
  shape s ths (VOwned i fs o lo todo rev back k fl) -> ths !! i = Some p ->
  owned (load_next s') (wait ths) (_write_head s') fs' o' lo' todo' rev' back' -> is_owner p' = true ->
  orel s' p' fs' o' lo' todo' rev' k' fl' ->
  shape s' (<[i := p']> ths ++ []) (VOwned i fs' o' lo' todo' rev' back' k' fl').
Proof.
  intros (_ & (p0 & Hp0 & Hown & _) & Huniq) Hp Ho Hp' Hr. rewrite Hp in Hp0. simplify_eq. split; [|split].
  - apply (owned_ext (load_next s') _ (wait ths)); [done| |done]. intros a c _. apply (linking_mono _ _ p0); [done|]. intros. by apply owner_not_link.
  - exists p'. rewrite app_nil_r, list_lookup_insert_eq by (by eapply lookup_lt_Some). done.
  - intros j q. rewrite app_nil_r, list_lookup_insert_Some. intros [(<- & _ & _)|[_ Hj]] Hq; [done|]. by eapply Huniq.
Qed.
(** The owner hands the list to a new thread. *)
Lemma shape_spawn s s' ths i p p' q fs o lo todo rev back k fl k' fl' :
  shape s ths (VOwned i fs o lo todo rev back k fl) -> ths !! i = Some p ->
  owned (load_next s') (wait ths) (_write_head s') fs o lo todo rev back -> is_owner p' = false -> is_owner q = true ->
  orel s' q fs o lo todo rev k' fl' ->
  shape s' (<[i := p']> ths ++ [q]) (VOwned (length ths) fs o lo todo rev back k' fl').
Proof.
  intros (_ & (p0 & Hp0 & Hown & _) & Huniq) Hp Ho Hp' Hq Hr. rewrite Hp in Hp0. simplify_eq. pose proof (lookup_lt_Some _ _ _ Hp) as Hlt. split; [|split].
  - apply (owned_ext (load_next s') _ (wait ths)); [done| |done]. intros a c _. apply (linking_mono _ _ p0); [done|]. intros. by apply owner_not_link.
  - exists q. rewrite lookup_app_r by (by rewrite length_insert). rewrite length_insert, Nat.sub_diag. done.
  - intros j r. rewrite lookup_app_Some, list_lookup_insert_Some, length_insert. intros [[(<- & <- & _)|[Hne Hj]]|[Hge Hj]] Hown'.
    + congruence.
    + destruct Hne. symmetry. by apply (Huniq j r).
    + apply list_lookup_singleton_Some in Hj as [? _]. lia.
Qed.
(** A thread that is not the owner moves. *)
Lemma shape_other s s' ths i p p' w : shape s ths w -> ths !! i = Some p -> is_owner p = false -> is_owner p' = false ->
  (forall a b, p <> WLink a b) -> _write_head s' = _write_head s ->
  (forall a, a ∈ nodes w -> load_next s' a = load_next s a) ->
  shape s' (<[i := p']> ths ++ []) w.
Proof.
  intros Hs Hp Hno Hno' Hnl Hh Hl. pose proof (linking_mono ths i p p' [] Hp Hnl) as Hw. rewrite app_nil_r in *.
  destruct w; cbn [shape nodes] in *.
  - destruct Hs as [H1 H2]. split; [by rewrite Hh|]. intros j q. rewrite list_lookup_insert_Some. intros [(_ & <- & _)|[_ Hj]]; [done|by eapply H2].
  - destruct Hs as (H1 & (q & Hq & Hown & Hr) & H3). split; [|split].
    + rewrite Hh. apply (owned_ext (load_next s) _ (wait ths)); [done| |done]. intros a b _. apply Hw.
    + exists q. rewrite list_lookup_insert_ne by congruence. split; [done|]. split; [done|]. destruct q; cbn [orel] in *; try done.
      destruct Hr as (? & ? & ? & t & ? & ? & ? & ? & Hx). do 3 (split; [done|]). exists t. do 4 (split; [done|]). rewrite Hl; [done|]. subst. set_solver.
    + intros j r. rewrite list_lookup_insert_Some. intros [(_ & <- & _)|[_ Hj]] Hr'; [congruence|by eapply H3].
Qed.

(** ** Steps that leave the requests alone *)

(** The Sockets differ in what the invariant does not mention. *)
Record same (s s' : Socket) : Prop := mkSame {
  sa_heap : heap s' = heap s; sa_pooled : pooled s' = pooled s; sa_head : _write_head s' = _write_head s;
  sa_unwritten : _unwritten_bytes s' = _unwritten_bytes s;
  sa_wire : wire s' = wire s; sa_history : history s' = history s; sa_ended : ended s' = ended s }.
Lemma same_socket_refl s : same s s.
Proof. by split. Qed.
Lemma same_socket_trans s1 s2 s3 : same s1 s2 -> same s2 s3 -> same s1 s3.
Proof. intros [] []. split; congruence. Qed.
Lemma same_error id e s : same s (bthread_id_error id e s).
Proof. unfold bthread_id_error. case_match; by split. Qed.
Lemma same_set_failed e s : same s (SetFailed e s).
Proof. unfold SetFailed. destruct (failed s); by split. Qed.
Lemma same_notify id s : same s (NotifyOnFailed id s).
Proof. unfold NotifyOnFailed. destruct (failed s); [apply same_error|by split]. Qed.
Lemma same_set_error id e s : same s (SetError id e s).1.
Proof. unfold SetError. case_match; [apply same_socket_refl|apply same_error]. Qed.
Lemma same_shutdown b s : same s (set_write_shutdown b s).
Proof. by split. Qed.
Lemma same_connected b s : same s (set_connected b s).
Proof. by split. Qed.
#[local] Hint Resolve same_socket_refl same_error same_set_failed same_notify same_set_error same_shutdown same_connected : core.

Lemma same_load s s' : same s s' -> load_next s' = load_next s.
Proof. intros []. unfold load_next. by rewrite sa_heap0. Qed.
Lemma same_core s s' a : same s s' -> core s' a = core s a.
Proof. intros []. unfold core. by rewrite sa_heap0. Qed.
Lemma same_inv s s' ths w : same s s' -> invw s ths w -> invw s' ths w.
Proof.
  intros Hsame [H1 H2 H3 H4]. pose proof Hsame as []. split.
  - destruct w; cbn [shape] in *; rewrite ?(same_load s s'), ?sa_head0 by done; [done|]. destruct H1 as (? & (p & ? & ? & Hr) & ?).
    split; [done|]. split; [|done]. exists p. do 2 (split; [done|]). destruct p; cbn [orel] in *; rewrite ?(same_load s s') by done; done.
  - destruct H2 as [T1 T2 T3]. split; [done| |by rewrite sa_pooled0, sa_heap0].
    intros j p Hj. apply (tok_frame s s' (nodes w)); [by rewrite sa_heap0| |by apply (T2 j)]. intros a _. rewrite sa_heap0, sa_pooled0. done.
  - apply (contents_frame s); try done. intros a _. by apply same_core.
  - apply (accounts_frame s); try done. intros a _. by apply same_core.
Qed.

Definition stepped (e : env) (s : Socket) (ths : list pc) (i : nat) (p : pc) : Prop :=
  exists s' p' r new l w', pstep e s p = Some (s', p', r, new, l) /\ plain l = true /\ invw s' (<[i := p']> ths ++ new) w'.

(** Another thread than the owner moves. *)
Lemma quiet_other s s' ths w i p p' : invw s ths w -> ths !! i = Some p -> is_owner p = false -> is_owner p' = false ->
  (forall a b, p <> WLink a b) -> tok s (nodes w) p' -> tnode p' = None \/ tnode p' = tnode p -> same s s' ->
  invw s' (<[i := p']> ths ++ []) w.
Proof.
  intros [H1 H2 H3 H4] Hi Ho Ho' Hnl Ht Hn Hs. apply (same_inv s); [done|]. split; [|  |done|done].
  - by apply (shape_other s s _ _ p).
  - apply (threads_update s s _ (nodes w)); try done.
    + by eapply lookup_lt_Some.
    + intros a j Ha Hj. destruct Hn as [Hn|Hn]; rewrite Hn in Ha; [done|]. apply (th_inj _ _ _ H2 _ _ a); [done|]. by rewrite Hi.
    + apply (th_pool _ _ _ H2).
Qed.
(** The owner moves; [contents] may change from normal to failing. *)
Lemma quiet_owner s s' ths i p p' fs o lo todo rev back k fl k' fl' :
  invw s ths (VOwned i fs o lo todo rev back k fl) -> ths !! i = Some p -> is_owner p' = true -> orel s p' fs o lo todo rev k' fl' ->
  tok s (fs ++ o :: todo ++ rev ++ back) p' -> tnode p' = None \/ tnode p' = tnode p -> same s s' ->
  contents s (fs ++ o :: todo ++ rev ++ back) k' fl' ->
  invw s' (<[i := p']> ths ++ []) (VOwned i fs o lo todo rev back k' fl').
Proof.
  intros [H1 H2 H3 H4] Hi Ho' Hr Ht Hn Hs Hc. apply (same_inv s); [done|]. split; [|  |done|done].
  - pose proof (proj1 H1) as Hown. by apply (shape_owner s s _ _ p _ fs o lo todo rev back k fl).
  - apply (threads_update s s _ (fs ++ o :: todo ++ rev ++ back)); try done.
    + by eapply lookup_lt_Some.
    + intros a j Ha Hj. destruct Hn as [Hn|Hn]; rewrite Hn in Ha; [done|]. apply (th_inj _ _ _ H2 _ _ a); [done|]. by rewrite Hi.
    + apply (th_pool _ _ _ H2).
Qed.
Lemma quiet_spawn s s' ths i p q fs o lo todo rev back k fl :
  invw s ths (VOwned i fs o lo todo rev back k fl) -> ths !! i = Some p -> is_owner q = true -> tnode q = None ->
  orel s q fs o lo todo rev k fl -> tok s (fs ++ o :: todo ++ rev ++ back) q -> same s s' ->
  invw s' (<[i := Idle]> ths ++ [q]) (VOwned (length ths) fs o lo todo rev back k fl).
Proof.
  intros [H1 H2 H3 H4] Hi Ho' Hn Hr Ht Hs. apply (same_inv s); [done|]. split; [|  |done|done].
  - pose proof (proj1 H1) as Hown. by apply (shape_spawn s s _ _ p _ _ fs o lo todo rev back k fl).
  - apply (threads_update s s _ (fs ++ o :: todo ++ rev ++ back)); try done.
    + by eapply lookup_lt_Some.
    + apply (th_pool _ _ _ H2).
    + by constructor.
Qed.
Lemma contents_fail s l k fl k' : contents s l k fl -> contents s l k' true.
Proof.
  intros [H1 H2 H3 H4 (ws & V & H5 & H6 & H7)]. split; try done. exists ws, V. split; [done|]. split; [done|]. unfold progress in *.
  destruct fl; [done|]. destruct H7 as (_ & Heq & _). transitivity (mjoin (take k (pending s))); [rewrite <- Heq; by apply prefix_app_r|].
  rewrite <- (take_drop k (pending s)) at 2. rewrite join_app. by apply prefix_app_r.
Qed.

(** ** Counting *)
Lemma i64_sub x n : i64 (i64 x - n) = i64 (x - n).
Proof.
  unfold i64. replace ((x + 2 ^ 63) mod 2 ^ 64 - 2 ^ 63 - n + 2 ^ 63) with ((x + 2 ^ 63) mod 2 ^ 64 - n) by lia.
  rewrite Zminus_mod_idemp_l. do 2 f_equal. lia.
Qed.
Lemma i64_add x n : i64 (i64 x + n) = i64 (x + n).
Proof. rewrite <- (Z.opp_involutive n), !Z.add_opp_r. apply i64_sub. Qed.
Lemma size_nonneg d : 0 <= size d.
Proof. unfold size. lia. Qed.
Lemma size_app d1 d2 : size (d1 ++ d2) = size d1 + size d2.
Proof. unfold size. rewrite length_app. lia. Qed.
Lemma total_cons h l : total (h :: l) = size h + total l.
Proof. unfold total. cbn [mjoin list_join]. by rewrite size_app. Qed.
Lemma messages_app l1 l2 : total (l1 ++ l2) = total l1 + total l2.
Proof. unfold total. rewrite join_app. apply size_app. Qed.
Lemma messages_nonneg l : 0 <= total l.
Proof. apply size_nonneg. Qed.
Lemma sum_app s l1 l2 : sum s (l1 ++ l2) = sum s l1 + sum s l2.
Proof. induction l1 as [|a l1 IH]; [done|]. cbn [app sum]. lia. Qed.
Lemma counted_bound s a h : holds s a h -> 0 <= counted s a <= size h.
Proof.
  intros (r & Hr & Hm). unfold counted. rewrite Hr. pose proof (size_nonneg h). destruct (user_message r); [lia|].
  destruct Hm as [k ->]. rewrite size_app. pose proof (size_nonneg k). pose proof (size_nonneg (data r)). lia.
Qed.
Lemma sum_bound s l hs : Forall2 (holds s) l hs -> 0 <= sum s l <= total hs.
Proof.
  induction 1 as [|a h l hs Ha _ IH]; [unfold total; cbn [sum mjoin list_join]; pose proof (size_nonneg []); lia|].
  cbn [sum]. rewrite total_cons. pose proof (counted_bound _ _ _ Ha). lia.
Qed.
Lemma contents_sum s l k fl : contents s l k fl -> 0 <= sum s l <= total (history s).
Proof.
  intros Hc. pose proof (sum_bound _ _ _ (ct_holds _ _ _ _ Hc)) as Hb. unfold pending in Hb.
  rewrite <- (take_drop (length (ended s)) (history s)), messages_app. pose proof (messages_nonneg (take (length (ended s)) (history s))). lia.
Qed.
(** ** The other threads *)
Section Other.
Context (e : env) (s : Socket) (ths : list pc) (w : view) (i : nat).
Hypothesis Hinv : invw s ths w.

(** Requests of the list and of threads are allocated and not in the pool. *)
Lemma node_alive a : a ∈ nodes w -> is_Some (heap s !! a) /\ a ∉ pooled s.
Proof.
  intros Ha. split.
  - apply list_elem_of_lookup in Ha as [j Hj]. destruct (Forall2_lookup_l _ _ _ _ _ (ct_holds _ _ _ _ (in_contents _ _ _ Hinv)) Hj) as (h & _ & r & Hr & _). by rewrite Hr.
  - intros Hp. by destruct (th_pool _ _ _ (in_threads _ _ _ Hinv) a Hp).
Qed.
Lemma tnode_alive j a : ths !! j ≫= tnode = Some a -> is_Some (heap s !! a) /\ a ∉ pooled s.
Proof.
  destruct (ths !! j) as [p|] eqn:Hj; [|done]. intros Ha. pose proof (th_ok _ _ _ (in_threads _ _ _ Hinv) j p Hj) as Hok.
  destruct p; simplify_eq/=; [|by apply node_alive, Hok|by apply node_alive, Hok|..]; destruct Hok as (_ & ? & r & -> & _); done.
Qed.

Lemma fill_payload m o r : data r = [] -> payload (fill m o r) = message m.
Proof. intros Hd. destruct m as [d|[er|d]]; try done. unfold payload. cbn. by rewrite Hd. Qed.
Lemma step_alloc m o : ths !! i = Some (WAlloc m o) -> stepped e s ths i (WAlloc m o).
Proof.
  intros Hi. set (a := mem e).
  assert (forall s', (a ∈ pooled s /\ pooled s' = pooled s ∖ {[a]} \/ heap s !! a = None /\ pooled s' = pooled s) ->
    (forall b, b <> a -> heap s' !! b = heap s !! b) -> (exists r, heap s' !! a = Some (fill m o r) /\ data r = []) ->
    _write_head s' = _write_head s -> _unwritten_bytes s' = _unwritten_bytes s ->
    wire s' = wire s -> history s' = history s -> ended s' = ended s ->
    invw s' (<[i := WExchange a m o]> ths ++ []) w) as Hgo.
  { intros s' Hcase Hh (r & Hr & Hd0) Hhd Hu Hw Hhi He.
    assert (forall b, is_Some (heap s !! b) /\ b ∉ pooled s -> b <> a) as Hne.
    { intros b [[r' Hb] Hnb] ->. destruct Hcase as [[? _]|[? _]]; [done|congruence]. }
    assert (a ∉ pooled s') as Hna by (destruct Hcase as [[_ ->]|[Hnone ->]]; [set_solver|]; intros Hp; destruct (th_pool _ _ _ (in_threads _ _ _ Hinv) a Hp) as (_ & r' & ? & _); congruence).
    assert (forall b, b ∈ pooled s' -> b ∈ pooled s) as Hsub by (destruct Hcase as [[_ ->]|[_ ->]]; set_solver).
    assert (forall b, b ∈ nodes w -> heap s' !! b = heap s !! b) as Hnodes by (intros b Hb; apply Hh, Hne; by apply node_alive).
    destruct Hinv as [H1 H2 H3 H4] eqn:HI. split.
    - apply (shape_other s s' _ _ (WAlloc m o)); try done. intros b Hb. unfold load_next. by rewrite Hnodes.
    - apply (threads_update s s' _ (nodes w)); [done|by eapply lookup_lt_Some| | | | | |done].
      + intros b Hb. destruct (decide (b = a)) as [->|Hb']; [by rewrite Hr|by rewrite Hh].
      + intros j b _ Hb. split; [apply Hh, Hne; by eapply tnode_alive|]. split; [|done]. intros Hnb Hp. by apply Hnb, Hsub.
      + cbn [tok]. split; [|split; [done|]].
        * intros Hin. by apply (Hne a); [apply node_alive|].
        * exists (fill m o r). split; [done|]. split; [done|]. split; [by eexists|]. by apply fill_payload.
      + intros b j [= <-] Hb. exfalso. by apply (Hne a); [eapply tnode_alive|].
      + intros b Hb. destruct (th_pool _ _ _ H2 b) as (Hbl & r' & Hr' & Hd); [by apply Hsub|]. split; [done|]. exists r'. rewrite Hh; [done|]. intros ->. done.
    - apply (contents_frame s); try done. intros b Hb. by apply core_heap, Hnodes.
    - apply (accounts_frame s); try done. intros b Hb. by apply core_heap, Hnodes. }
  destruct (errno e =? 0) eqn:He.
  2:{ exists (SetError (o_id_wait o) ENOMEM s).1, Idle, (Some (SetError (o_id_wait o) ENOMEM s).2), [], [], w. split.
      - cbn [pstep Write_step]. rewrite He. cbn [negb]. by destruct (SetError _ _ _).
      - split; [done|]. apply (quiet_other s _ _ _ _ (WAlloc m o)); try done; by left. }
  unfold stepped. cbn [pstep Write_step]. rewrite He. cbn [negb]. fold a. destruct (heap s !! a) as [r|] eqn:Ha.
  - case_decide as Hp.
    + eexists _, _, _, _, [], w. split; [done|]. split; [done|]. apply Hgo; try done; [by left| |]; cbn [set_pooled set_heap heap].
      * intros b Hb. by rewrite lookup_insert_ne.
      * exists r. rewrite lookup_insert_eq. split; [done|]. destruct (th_pool _ _ _ (in_threads _ _ _ Hinv) a Hp) as (_ & r' & Hr' & Hd'). rewrite Ha in Hr'. by injection Hr' as <-.
    + eexists _, _, _, _, [], w. split; [done|]. split; [done|]. apply (quiet_other s s _ _ _ (WAlloc m o)); try done; by left.
  - eexists _, _, _, _, [], w. split; [done|]. split; [done|]. apply Hgo; try done; [by right| |]; cbn [set_pooled set_heap heap].
    + intros b Hb. by rewrite lookup_insert_ne.
    + exists fresh_request. by rewrite lookup_insert_eq.
Qed.

Lemma quiet_stepped p s' p' r : ths !! i = Some p -> is_owner p = false -> is_owner p' = false ->
  (forall a b, p <> WLink a b) -> tok s (nodes w) p' -> tnode p' = None -> same s s' ->
  pstep e s p = Some (s', p', r, [], []) -> stepped e s ths i p.
Proof. intros Hi Ho Ho' Hnl Ht Hn Hs Hst. exists s', p', r, [], [], w. split; [done|]. split; [done|]. apply (quiet_other s s' _ _ _ p); try done. by left. Qed.
Lemma step_failed m o : ths !! i = Some (WFailed m o) -> stepped e s ths i (WFailed m o).
Proof.
  intros Hi. destruct (failed s) as [code|] eqn:Hf.
  - apply (quiet_stepped _ (SetError (o_id_wait o) (non_zero_error_code code) s).1 Idle (Some (SetError (o_id_wait o) (non_zero_error_code code) s).2)); try done; auto.
    cbn [pstep Write_step]. rewrite Hf. by destruct (SetError _ _ _).
  - apply (quiet_stepped _ s (WCrowded m o) None); try done. cbn [pstep Write_step]. by rewrite Hf.
Qed.
Lemma step_crowded m o : ths !! i = Some (WCrowded m o) -> stepped e s ths i (WCrowded m o).
Proof.
  intros Hi. destruct (negb (o_ignore_eovercrowded o) && _overcrowded s) eqn:Hf.
  - apply (quiet_stepped _ (SetError (o_id_wait o) EOVERCROWDED s).1 Idle (Some (SetError (o_id_wait o) EOVERCROWDED s).2)); try done; auto.
    cbn [pstep Write_step]. rewrite Hf. by destruct (SetError _ _ _).
  - apply (quiet_stepped _ s (WAlloc m o) None); try done. cbn [pstep Write_step]. by rewrite Hf.
Qed.

(** The contents after an exchange. *)
Lemma contents_push s' l k fl a r : contents s l k fl -> a ∉ l -> heap s !! a = Some r -> is_Some (user_message r) ->
  heap s' = <[a := set_ticket (length (history s)) r]> (heap s) -> wire s' = wire s -> ended s' = ended s ->
  history s' = history s ++ [payload r] -> contents s' (l ++ [a]) k fl.
Proof.
  intros Hc Ha Hr Hu Hh Hw He Hhi. destruct (Hc) as [H1 H2 H3 H4 (ws & V & H5 & H6 & H7)].
  assert (forall b, b ∈ l -> core s' b = core s b) as Hcore.
  { intros b Hb. apply core_heap. rewrite Hh, lookup_insert_ne; [done|]. by intros ->. }
  assert (heap s' !! a = Some (set_ticket (length (history s)) r)) as Ha' by (by rewrite Hh, lookup_insert_eq).
  assert (pending s' = pending s ++ [payload r]) as Hp by (unfold pending; rewrite He, Hhi, drop_app_le by lia; done).
  pose proof (Forall2_length _ _ _ H2) as Hlen.
  split.
  - rewrite He, Hhi, !length_app. cbn [length]. lia.
  - rewrite Hp. apply Forall2_app.
    + apply Forall2_same_length_lookup. split; [done|]. intros j b h Hb Hh'. apply (core_holds s); [apply Hcore; by eapply list_elem_of_lookup_2|].
      apply (Forall2_lookup_lr _ _ _ _ _ _ H2 Hb Hh').
    + constructor; [|done]. eexists. split; [done|]. destruct Hu as [m Hm]. cbn [set_ticket user_message]. unfold payload. cbn [set_ticket user_message data]. by rewrite Hm.
  - intros j b r'. rewrite He, lookup_app_Some. intros [Hb|[Hj Hb]] Hr'.
    + destruct (core_inv s' s b r') as (r0 & Hr0 & _ & _ & <-); [symmetry; apply Hcore; by eapply list_elem_of_lookup_2|done|]. by apply (H3 j b).
    + apply list_lookup_singleton_Some in Hb as [Hj0 ->]. rewrite Ha' in Hr'. simplify_eq/=. lia.
  - by rewrite He.
  - exists ws, V. rewrite Hw, He, Hhi, take_app_le by lia. split; [done|]. split; [done|]. unfold progress in *. rewrite Hp. destruct fl.
    + rewrite join_app. by apply prefix_app_r.
    + destruct H7 as (Hk & Heq & Hs & Hun). rewrite !take_app_le, drop_app_le by lia. split; [rewrite length_app; lia|]. split; [|split].
      * rewrite <- Heq. f_equal. f_equal. apply list_fmap_ext. intros j b Hb. apply core_dat, Hcore. eapply list_elem_of_lookup_2. by eapply lookup_take_Some in Hb as [? _].
      * apply Forall_forall. intros b Hb. apply (core_is_set s); [|by apply (proj1 (Forall_forall _ _) Hs)]. apply Hcore. rewrite <- (take_drop k l). set_solver.
      * apply Forall_app. split; [|constructor; [|done]].
        -- apply Forall_forall. intros b Hb. apply (core_unset s); [|by apply (proj1 (Forall_forall _ _) Hun)]. apply Hcore. rewrite <- (take_drop k l). set_solver.
        -- eexists. split; [exact Ha'|done].
Qed.
Lemma accounts_push s' l a r : accounts s l -> a ∉ l -> heap s !! a = Some r -> is_Some (user_message r) ->
  heap s' = <[a := set_ticket (length (history s)) r]> (heap s) -> _unwritten_bytes s' = _unwritten_bytes s -> ended s' = ended s ->
  (length (ended s) <= length (history s))%nat -> history s' = history s ++ [payload r] -> accounts s' (l ++ [a]).
Proof.
  intros [H1 H2] Ha Hr [m Hm] Hh Hu He Hle Hhi. assert (sum s' (l ++ [a]) = sum s l) as Hs.
  { rewrite sum_app, (core_sum s s').
    - cbn [sum]. unfold counted. rewrite Hh, lookup_insert_eq. cbn [set_ticket user_message]. rewrite Hm. lia.
    - intros b Hb. apply core_heap. rewrite Hh, lookup_insert_ne; [done|]. by intros ->. }
  split; rewrite Hs, ?Hu; [done|]. destruct H2 as [?|[H0 H2]]; [by left|right]. split; [done|]. unfold pending in *. rewrite He, Hhi, drop_app_le, messages_app by done.
  pose proof (messages_nonneg [payload r]). lia.
Qed.

(** The Socket after an exchange. *)
Definition exchanged (a : addr) (r : WriteRequest) : Socket :=
  set_write_head (Some a) (set_log (history s ++ [payload r]) (ended s) (set_heap (<[a := set_ticket (length (history s)) r]> (heap s)) s)).
Lemma exchanged_load a r b : heap s !! a = Some r -> load_next (exchanged a r) b = load_next s b.
Proof.
  intros Hr. unfold load_next. cbn [exchanged set_write_head set_log set_heap heap].
  destruct (decide (b = a)) as [->|Hb]; [by rewrite lookup_insert_eq, Hr|by rewrite lookup_insert_ne].
Qed.
Lemma exchanged_threads a m o r p' : ths !! i = Some (WExchange a m o) -> heap s !! a = Some r ->
  (a ∉ nodes w) -> (a ∉ pooled s) -> tnode p' = None \/ tnode p' = Some a -> tok (exchanged a r) (nodes w ++ [a]) p' ->
  threads_ok (exchanged a r) (<[i := p']> ths ++ []) (nodes w ++ [a]).
Proof.
  intros Hi Hr Hal Hap Hn Ht. pose proof (in_threads _ _ _ Hinv) as H2. assert (ths !! i ≫= tnode = Some a) as Hb by by rewrite Hi.
  apply (threads_update s _ _ (nodes w)); try done.
  - by eapply lookup_lt_Some.
  - intros b Hbs. cbn [exchanged set_write_head set_log set_heap heap]. destruct (decide (b = a)) as [->|Hne]; [by rewrite lookup_insert_eq|by rewrite lookup_insert_ne].
  - intros j b Hj Hjb. assert (b <> a) as Hne by (intros ->; apply Hj; by eapply (th_inj _ _ _ H2)).
    cbn [exchanged set_write_head set_log set_heap heap pooled]. rewrite lookup_insert_ne by done. split; [done|]. split; [done|]. rewrite elem_of_app, list_elem_of_singleton. tauto.
  - intros b j Hpb Hj. destruct Hn as [Hn|Hn]; rewrite Hn in Hpb; simplify_eq. by eapply (th_inj _ _ _ H2).
  - cbn [exchanged set_write_head set_log set_heap heap pooled]. intros b Hbp. destruct (th_pool _ _ _ H2 b Hbp) as (Hbl & r' & Hr' & Hd).
    assert (b <> a) by (by intros ->). split; [rewrite elem_of_app, list_elem_of_singleton; tauto|]. exists r'. by rewrite lookup_insert_ne.
Qed.
Lemma step_exchange a m o : ths !! i = Some (WExchange a m o) -> stepped e s ths i (WExchange a m o).
Proof.
  intros Hi. destruct (th_ok _ _ _ (in_threads _ _ _ Hinv) i _ Hi) as (Hal & Hap & r & Hr & Hnx & Hu & Hpay).
  pose proof (exchanged_load a r) as Hload. specialize (fun b => Hload b Hr) as Hload'. clear Hload. rename Hload' into Hload.
  assert (load_next (exchanged a r) a = Some UNCONNECTED) as Ha' by (rewrite Hload; unfold load_next; rewrite Hr; cbn; by rewrite Hnx).
  pose proof (contents_push (exchanged a r) (nodes w) (set_up w) (failing w) a r (in_contents _ _ _ Hinv) Hal Hr Hu eq_refl eq_refl eq_refl eq_refl) as Hcont.
  pose proof (accounts_push (exchanged a r) (nodes w) a r (in_accounts _ _ _ Hinv) Hal Hr Hu eq_refl eq_refl eq_refl ltac:(pose proof (ct_length _ _ _ _ (in_contents _ _ _ Hinv)); lia) eq_refl) as Hacc.
  pose proof (exchanged_threads a m o r) as Hth. pose proof (in_shape _ _ _ Hinv) as Hsh.
  assert (exists p', pstep e s (WExchange a m o) = Some (exchanged a r, p', None, [], []) /\ p' = match _write_head s with Some prev => WLink a prev | None => WOwn a o end) as (p' & Hst & Hp').
  { cbn [pstep StartWrite_step]. unfold update. rewrite Hr. cbn [mbind option_bind]. unfold exchanged. rewrite Hpay. destruct (_write_head s); eexists; done. }
  pose proof (linking_mono ths i (WExchange a m o) p' [] Hi ltac:(done)) as Hwait.
  clear Hinv. destruct w as [|i0 fs o0 lo todo rev back k fl]; cbn [shape nodes set_up failing] in *.
  - destruct Hsh as [Hhd Hno]. rewrite Hhd in Hp'. eexists _, _, _, _, [], (VOwned i [] a UNCONNECTED [] [] [] 0 false). split; [exact Hst|]. split; [done|]. subst p'. split; cbn [nodes set_up failing app] in *; try done.
    + split; [by apply owned_open|]. split.
      * exists (WOwn a o). rewrite app_nil_r, list_lookup_insert_eq by (by eapply lookup_lt_Some). done.
      * intros j q. rewrite app_nil_r, list_lookup_insert_Some. intros [(<- & _)|[_ Hj]] Hq; [done|]. by rewrite (Hno j q Hj) in Hq.
    + apply Hth; try done; [by right|]. cbn [tok]. split; [set_solver|done].
  - destruct Hsh as (Hown & (q & Hq & Hqo & Hqr) & Huniq). pose proof (ow_head _ _ _ _ _ _ _ _ _ Hown) as Hhd. rewrite Hhd in Hp'.
    assert (i0 <> i) as Hii by (intros ->; rewrite Hi in Hq; by simplify_eq).
    assert ((fs ++ o0 :: todo ++ rev ++ back) ++ [a] = fs ++ o0 :: todo ++ rev ++ back ++ [a]) as Happ by (rewrite <- !app_assoc; cbn [app]; by rewrite <- !app_assoc).
    rewrite Happ in *. eexists _, _, _, _, [], (VOwned i0 fs o0 lo todo rev (back ++ [a]) k fl). split; [exact Hst|]. split; [done|]. subst p'. split; cbn [nodes set_up failing] in *; try done.
    + split; [|split].
      * apply (owned_push (load_next s) _ (wait ths) _ (_write_head s)); try done.
        exists i. rewrite app_nil_r, list_lookup_insert_eq by (by eapply lookup_lt_Some). done.
      * exists q. rewrite app_nil_r, list_lookup_insert_ne by done. split; [done|]. split; [done|].
        destruct q; cbn [orel] in *; try done. by rewrite Hload.
      * intros j q'. rewrite app_nil_r, list_lookup_insert_Some. intros [(_ & <- & _)|[_ Hj]] Hq'; [done|by eapply Huniq].
    + apply Hth; try done; [by right|]. cbn [tok]. split; [set_solver|done].
Qed.
Lemma step_link a prev : ths !! i = Some (WLink a prev) -> stepped e s ths i (WLink a prev).
Proof.
  intros Hi. destruct (th_ok _ _ _ (in_threads _ _ _ Hinv) i _ Hi) as (Hal & Hun). pose proof (in_threads _ _ _ Hinv) as H2.
  unfold load_next in Hun. destruct (heap s !! a) as [r|] eqn:Hr; [|done]. injection Hun as Hnx.
  set (s' := set_heap (<[a := set_next (To prev) r]> (heap s)) s).
  assert (pstep e s (WLink a prev) = Some (s', Idle, Some (0, 0), [], [])) as Hst by (cbn [pstep StartWrite_step]; unfold update; by rewrite Hr).
  assert (forall b, b <> a -> heap s' !! b = heap s !! b) as Hh by (intros b Hb; cbn [s' set_heap heap]; by rewrite lookup_insert_ne).
  assert (heap s' !! a = Some (set_next (To prev) r)) as Ha' by (cbn [s' set_heap heap]; by rewrite lookup_insert_eq).
  assert (forall b, core s' b = core s b) as Hcore.
  { intros b. destruct (decide (b = a)) as [->|Hb]; [|by apply core_heap, Hh]. unfold core. by rewrite Ha', Hr. }
  assert (ths !! i ≫= tnode = Some a) as Hbusy by by rewrite Hi.
  eexists _, _, _, _, [], w. split; [exact Hst|]. split; [done|]. split.
  - pose proof (in_shape _ _ _ Hinv) as Hsh. destruct w as [|i0 fs o lo todo rev back k fl]; cbn [shape nodes] in *; [by apply elem_of_nil in Hal|].
    destruct Hsh as (Hown & (q & Hq & Hqo & Hqr) & Huniq). assert (i0 <> i) as Hii by (intros ->; rewrite Hi in Hq; by simplify_eq). split; [|split].
    + apply (owned_link (load_next s) _ (wait ths) _ _ _ _ _ _ _ _ a prev Hown).
      * intros ->. assert (lo = UNCONNECTED) as Hlo. { pose proof (ow_last _ _ _ _ _ _ _ _ _ Hown) as Hl. unfold load_next in Hl. rewrite Hr in Hl. simplify_eq/=. congruence. }
        apply Hii. apply (th_inj _ _ _ H2 _ _ o); [|done]. rewrite Hq.
        destruct q; try match goal with k : returning |- _ => destruct k | k : after_failed |- _ => destruct k end; cbn [orel] in Hqr; unfold calm in Hqr; destruct_and?; try done; try congruence; cbn; congruence.
      * unfold load_next. by rewrite Hr; cbn; rewrite Hnx.
      * intros b [j Hj]. assert (i = j) as ->; [|congruence]. apply (th_inj _ _ _ H2 _ _ a); [done|]. by rewrite Hj.
      * unfold load_next. by rewrite Ha'.
      * intros b Hb. unfold load_next. by rewrite Hh.
      * intros b c Hb [j Hj]. exists j. rewrite app_nil_r, list_lookup_insert_ne; [done|]. intros ->. congruence.
    + exists q. rewrite app_nil_r, list_lookup_insert_ne by done. split; [done|]. split; [done|].
      destruct q; cbn [orel] in *; try done. destruct Hqr as (? & ? & ? & t & ? & ? & ? & Hsv & Hx). do 3 (split; [done|]). exists t. do 4 (split; [done|]).
      unfold load_next in *. rewrite Hh; [done|]. intros ->. rewrite Hr in Hx. simplify_eq/=. congruence.
    + intros j q'. rewrite app_nil_r, list_lookup_insert_Some. intros [(_ & <- & _)|[_ Hj]] Hq'; [done|by eapply Huniq].
  - apply (threads_update s s' _ (nodes w)); try done.
    + by eapply lookup_lt_Some.
    + intros b Hb. destruct (decide (b = a)) as [->|Hne]; [by rewrite Ha'|by rewrite Hh].
    + intros j b Hj Hjb. split; [|done]. apply Hh. intros ->. apply Hj. by eapply (th_inj _ _ _ H2).
    + intros b Hb. destruct (th_pool _ _ _ H2 b Hb) as (Hbl & r' & Hr' & Hd). split; [done|]. exists r'. rewrite Hh; [done|]. by intros ->.
  - apply (contents_frame s); try done; apply Hinv.
  - apply (accounts_frame s); try done; apply Hinv.
Qed.

(** A thread returns its request to the pool. *)
Lemma pool_threads s' p p' a r' : ths !! i = Some p -> tnode p = Some a -> a ∉ nodes w ->
  (forall b, b <> a -> heap s' !! b = heap s !! b) -> heap s' !! a = Some r' -> data r' = [] -> pooled s' = pooled s ∪ {[a]} ->
  tnode p' = None -> tok s' (nodes w) p' -> threads_ok s' (<[i := p']> ths ++ []) (nodes w).
Proof.
  intros Hi Hp Ha Hh Hr Hd Hpl Hn Ht. pose proof (in_threads _ _ _ Hinv) as H2. assert (ths !! i ≫= tnode = Some a) as Hb by by rewrite Hi.
  apply (threads_update s s' _ (nodes w)); try done.
  - by eapply lookup_lt_Some.
  - intros b Hbs. destruct (decide (b = a)) as [->|Hne]; [by rewrite Hr|by rewrite Hh].
  - intros j b Hj Hjb. assert (b <> a) as Hne by (intros ->; apply Hj; by eapply (th_inj _ _ _ H2)). split; [by apply Hh|]. split; [|done]. rewrite Hpl. set_solver.
  - intros b j. by rewrite Hn.
  - intros b. rewrite Hpl, elem_of_union, elem_of_singleton. destruct (decide (b = a)) as [->|Hne].
    + intros _. split; [done|]. by exists r'.
    + intros [Hbp|?]; [|done]. destruct (th_pool _ _ _ H2 b Hbp) as (Hbl & r0 & Hr0 & Hd0). split; [done|]. exists r0. by rewrite Hh.
Qed.
Lemma step_success_done a : ths !! i = Some (Success0 a RDone) -> stepped e s ths i (Success0 a RDone).
Proof.
  intros Hi. destruct (th_ok _ _ _ (in_threads _ _ _ Hinv) i _ Hi) as (Hal & Hap & r & Hr & Hd).
  eexists (set_pooled (pooled s ∪ {[a]}) s), (Success1 a (id_wait r) RDone), None, [], [], w. split; [cbn [pstep Return_step]; by rewrite Hr|]. split; [done|]. split.
  - apply (shape_other s _ _ _ (Success0 a RDone)); try done; apply Hinv.
  - apply (pool_threads _ (Success0 a RDone) _ a r); try done. cbn [tok]. cbn [set_pooled heap]. by rewrite Hr.
  - apply (contents_frame s); try done; apply Hinv.
  - apply (accounts_frame s); try done; apply Hinv.
Qed.
Lemma step_signal_done a id : ths !! i = Some (Success1 a id RDone) -> stepped e s ths i (Success1 a id RDone).
Proof.
  intros Hi. destruct (th_ok _ _ _ (in_threads _ _ _ Hinv) i _ Hi) as (r & Hr).
  set (s' := if id =? INVALID_BTHREAD_ID then s else if is_notify_on_success r && negb (Failed s) then bthread_id_error id 0 s else NotifyOnFailed id s).
  apply (quiet_stepped _ s' Idle (Some (0, 0))); try done.
  - unfold s'. case_match; [apply same_socket_refl|]. case_match; [apply same_error|apply same_notify].
  - cbn [pstep Return_step]. by rewrite Hr.
Qed.
(** What [abandon] does to a request [r], in terms of what it leaves. *)
Record abandoned (a : addr) (r : WriteRequest) (s' : Socket) (r' : WriteRequest) : Prop := mkAbandoned {
  ab_heap : heap s' = <[a := r']> (heap s);
  ab_data : data r' = []; ab_message : user_message r' = None; ab_next : next r' = next r; ab_ticket : ticket r' = ticket r;
  ab_pooled : pooled s' = pooled s; ab_head : _write_head s' = _write_head s; ab_wire : wire s' = wire s;
  ab_history : history s' = history s; ab_ended : ended s' = ended s;
  ab_unwritten : forall x, _unwritten_bytes s = i64 x -> _unwritten_bytes s' = i64 (x - counted s a) }.
Lemma abandon_spec a r : heap s !! a = Some r -> exists s' l r', abandon max_unwritten a s = Some (s', l) /\ plain l = true /\ abandoned a r s' r'.
Proof.
  intros Hr. unfold abandon, reset_pipelined_count_and_user_message. rewrite Hr. cbn [mbind option_bind].
  assert (counted s a = match user_message r with None => size (data r) | Some _ => 0 end) as Hc by (unfold counted; by rewrite Hr).
  destruct (user_message r) as [m|] eqn:Hm; cbn beta iota zeta; eexists _, _, _; (split; [done|]); (split; [by case_match || done|]); split; try done; rewrite Hc.
  - intros x. by rewrite Z.sub_0_r.
  - intros x Hx. cbn [set_heap CancelUnwrittenBytes set_unwritten _unwritten_bytes]. rewrite Hx. apply i64_sub.
Qed.
Lemma step_release_done a er rc : ths !! i = Some (Release3 a er rc) -> stepped e s ths i (Release3 a er rc).
Proof.
  intros Hi. destruct (th_ok _ _ _ (in_threads _ _ _ Hinv) i _ Hi) as (Hal & Hap & r & Hr & Hd).
  destruct (abandon_spec a r Hr) as (s' & l & r' & Hst & Hl & []).
  assert (forall b, b <> a -> heap s' !! b = heap s !! b) as Hh by (intros b Hb; by rewrite ab_heap0, lookup_insert_ne).
  assert (heap s' !! a = Some r') as Hr' by (by rewrite ab_heap0, lookup_insert_eq).
  assert (forall b, b ∈ nodes w -> heap s' !! b = heap s !! b) as Hnodes by (intros b Hb; apply Hh; by intros ->).
  eexists s', (Fail0 a er (FEnd rc)), None, [], l, w. split; [cbn [pstep Return_step]; by rewrite Hst|]. split; [done|]. split.
  - apply (shape_other s _ _ _ (Release3 a er rc)); try done; [apply Hinv|]. intros b Hb. unfold load_next. by rewrite Hnodes.
  - pose proof (in_threads _ _ _ Hinv) as H2. assert (ths !! i ≫= tnode = Some a) as Hb by by rewrite Hi. apply (threads_update s s' _ (nodes w)); try done.
    + by eapply lookup_lt_Some.
    + intros b Hbs. destruct (decide (b = a)) as [->|Hne]; [by rewrite Hr'|by rewrite Hh].
    + intros j b Hj Hjb. assert (b <> a) as Hne by (intros ->; apply Hj; by eapply (th_inj _ _ _ H2)). rewrite ab_pooled0. by rewrite Hh.
    + cbn [tok]. rewrite ab_pooled0. split; [done|]. split; [done|]. by exists r'.
    + intros b j [= <-] Hj. by eapply (th_inj _ _ _ H2).
    + rewrite ab_pooled0. intros b Hbp. destruct (th_pool _ _ _ H2 b Hbp) as (Hbl & r0 & Hr0 & Hd0). split; [done|]. exists r0. rewrite Hh; [done|]. by intros ->.
  - apply (contents_frame s); try done; [|apply Hinv]. intros b Hb. by apply core_heap, Hnodes.
  - destruct (in_accounts _ _ _ Hinv) as [Hu Hdue]. assert (counted s a = 0) as H0 by (unfold counted; rewrite Hr, Hd; by destruct (user_message r)).
    unfold accounts, pending. rewrite ab_history0, ab_ended0, (core_sum s s') by (intros b Hb; by apply core_heap, Hnodes). split; [|done].
    rewrite (ab_unwritten0 _ Hu), H0. f_equal. lia.
Qed.
Lemma step_fail_done a er rc : ths !! i = Some (Fail0 a er (FEnd rc)) -> stepped e s ths i (Fail0 a er (FEnd rc)).
Proof.
  intros Hi. destruct (th_ok _ _ _ (in_threads _ _ _ Hinv) i _ Hi) as (Hal & Hap & r & Hr & Hd).
  eexists (set_pooled (pooled s ∪ {[a]}) s), (Return rc), None, [], _, w. split; [cbn [pstep Return_step]; by rewrite Hr|]. split; [by case_match|]. split.
  - apply (shape_other s _ _ _ (Fail0 a er (FEnd rc))); try done; apply Hinv.
  - by apply (pool_threads _ (Fail0 a er (FEnd rc)) _ a r).
  - apply (contents_frame s); try done; apply Hinv.
  - apply (accounts_frame s); try done; apply Hinv.
Qed.
Lemma step_return rc : ths !! i = Some (Return rc) -> stepped e s ths i (Return rc).
Proof. intros Hi. by apply (quiet_stepped _ s Idle (Some rc)). Qed.
End Other.

(** ** The owner *)
Section Owner.
Context (e : env) (s : Socket) (ths : list pc) (i : nat) (p : pc).
Context (fs : list addr) (o : addr) (lo : link) (todo rev back : list addr) (k : nat) (fl : bool).
Abbreviation l := (fs ++ o :: todo ++ rev ++ back).
Abbreviation w := (VOwned i fs o lo todo rev back k fl).
Hypothesis Hinv : invw s ths w.
Hypothesis Hi : ths !! i = Some p.
Hypothesis Hdue : due = 0.

Lemma owner_rel : orel s p fs o lo todo rev k fl /\ owned (load_next s) (wait ths) (_write_head s) fs o lo todo rev back.
Proof. destruct (in_shape _ _ _ Hinv) as (Ho & (q & Hq & _ & Hr) & _). rewrite Hi in Hq. by simplify_eq. Qed.
Lemma node_request a : a ∈ l -> exists r, heap s !! a = Some r.
Proof. intros Ha. destruct (proj1 (node_alive s ths w Hinv a Ha)) as [r Hr]. by exists r. Qed.
Lemma front_node a : a ∈ fs ++ [o] -> lo = Null -> exists x r, load_next s a = Some x /\ x <> UNCONNECTED /\ heap s !! a = Some r /\ next r = x /\ a ∈ l.
Proof.
  intros Ha Hlo. destruct owner_rel as [_ Ho]. assert (a ∈ l) as Hl by set_solver. destruct (node_request a Hl) as [r Hr].
  exists (next r), r. unfold load_next. rewrite Hr. split; [done|]. split; [|done].
  apply elem_of_app in Ha as [Ha|Ha%list_elem_of_singleton].
  - destruct (chain_lookup _ _ _ a (ow_front _ _ _ _ _ _ _ _ _ Ho) Ha) as (x & Hx & Hne). unfold load_next in Hx. rewrite Hr in Hx. simplify_eq/=. by destruct Hne as [->|?].
  - subst a. pose proof (ow_last _ _ _ _ _ _ _ _ _ Ho) as Hx. unfold load_next in Hx. rewrite Hr in Hx. simplify_eq/=. congruence.
Qed.
(** The first node of the list. *)
Lemma first_node : exists rest, l = hd o fs :: rest /\ (hd o fs ∉ rest) /\ hd o fs ∈ fs ++ [o].
Proof.
  destruct owner_rel as [_ Ho]. pose proof (ow_nodup _ _ _ _ _ _ _ _ _ Ho) as Hnd. destruct fs as [|f fs']; cbn [hd app] in *.
  - eexists. split; [done|]. apply NoDup_cons in Hnd as [? _]. split; [done|]. set_solver.
  - eexists. split; [done|]. apply NoDup_cons in Hnd as [? _]. split; [done|]. set_solver.
Qed.

Lemma threads_touch s' p' new l' :
  (forall b, heap s' !! b = heap s !! b \/ b ∈ l /\ (load_next s b <> Some UNCONNECTED \/ tnode p = Some b)) ->
  (forall b, is_Some (heap s !! b) -> is_Some (heap s' !! b)) -> pooled s' = pooled s ->
  (forall b, b ∈ l' -> b ∈ l) -> (forall b, b ∈ l -> b ∈ l' \/ load_next s b <> Some UNCONNECTED) ->
  tok s' l' p' -> (forall a, tnode p' = Some a -> a ∈ l /\ load_next s a <> Some UNCONNECTED) ->
  Forall (fun q => tnode q = None /\ tok s' l' q) new ->
  threads_ok s' (<[i := p']> ths ++ new) l'.
Proof.
  intros Hh Hd Hp Hl1 Hl2 Ht Hn Hnew. pose proof (in_threads _ _ _ Hinv) as H2. cbn [nodes] in H2.
  assert (forall j b, j <> i -> ths !! j ≫= tnode = Some b -> heap s' !! b = heap s !! b /\ (b ∈ l' <-> b ∈ l)) as Hj.
  { intros j b Hji Hb. split.
    - destruct (Hh b) as [?|[Hbl [Hne|Hpb]]]; [done| |].
      + by rewrite (busy_linking _ _ _ _ _ H2 Hb Hbl) in Hne.
      + destruct Hji. apply (th_inj _ _ _ H2 _ _ b); [done|]. by rewrite Hi.
    - split; [apply Hl1|]. intros Hbl. destruct (Hl2 b Hbl) as [?|Hne]; [done|]. by rewrite (busy_linking _ _ _ _ _ H2 Hb Hbl) in Hne. }
  apply (threads_update s s' _ l); try done.
  - by eapply lookup_lt_Some.
  - intros j b Hji Hb. destruct (Hj j b Hji Hb). rewrite Hp. done.
  - intros a j Ha Hja. destruct (decide (j = i)) as [|Hji]; [done|]. destruct (Hn a Ha) as [Hal Hne].
    by rewrite (busy_linking _ _ _ _ _ H2 Hja Hal) in Hne.
  - intros b. rewrite Hp. intros Hb. destruct (th_pool _ _ _ H2 b Hb) as (Hbl & r & Hr & Hdr). split; [intros Hb'; by apply Hbl, Hl1|].
    exists r. destruct (Hh b) as [->|[? _]]; done.
Qed.

(** Steps that only move the program counter. *)
Lemma move s' p' r : is_owner p' = true -> tnode p' = None -> tok s l p' -> orel s p' fs o lo todo rev k fl -> same s s' ->
  pstep e s p = Some (s', p', r, [], []) -> stepped e s ths i p.
Proof.
  intros Ho Hn Ht Hr Hs Hst. exists s', p', r, [], [], w. split; [done|]. split; [done|]. apply (quiet_owner s s' _ _ p _ fs o lo todo rev back k fl); try done; [by left|]. apply (in_contents _ _ _ Hinv).
Qed.
Lemma move_fail s' rc r : lo = Null -> todo = [] -> rev = [] -> same s s' ->
  pstep e s p = Some (s', Release0 (hd o fs) rc, r, [], []) -> stepped e s ths i p.
Proof.
  intros Hlo Ht Hr Hs Hst. exists s', (Release0 (hd o fs) rc), r, [], [], (VOwned i fs o lo todo rev back k true). split; [done|]. split; [done|].
  apply (quiet_owner s s' _ _ p _ fs o lo todo rev back k fl); try done; [by left|]. eapply contents_fail, (in_contents _ _ _ Hinv).
Qed.
Lemma move_spawn s' q r : is_owner q = true -> tnode q = None -> tok s l q -> orel s q fs o lo todo rev k fl -> same s s' ->
  pstep e s p = Some (s', Idle, r, [q], []) -> stepped e s ths i p.
Proof.
  intros Ho Hn Ht Hr Hs Hst. exists s', Idle, r, [q], [], (VOwned (length ths) fs o lo todo rev back k fl). split; [done|]. split; [done|]. by apply (quiet_spawn s s' _ _ p _ fs o lo todo rev back k fl).
Qed.

Lemma step_connect a op : p = WConnect a op -> stepped e s ths i p.
Proof.
  intros Hp. destruct owner_rel as [Hr _]. rewrite Hp in Hr. cbn [orel] in Hr. destruct Hr as (Hfs & Ho & Hlo & Ht & Hv & Hk & Hfl).
  destruct (connected s) eqn:Hc; [|destruct (errno e =? 0) eqn:He].
  - apply (move s (WSetup a op) None); try done. rewrite Hp. cbn [pstep StartWrite_step]. by rewrite Hc.
  - apply (move_spawn s (Connected a) (Some (0, 0))); try done. rewrite Hp. cbn [pstep StartWrite_step]. by rewrite Hc, He.
  - apply (move_fail (SetFailed (errno e) s) (-1, errno e) None); try done.
    rewrite Hp, Hfs. cbn [pstep StartWrite_step hd]. by rewrite Hc, He, Ho.
Qed.
Lemma step_spawn a : p = WSpawn a -> stepped e s ths i p.
Proof.
  intros Hp. destruct owner_rel as [Hr _]. rewrite Hp in Hr. cbn [orel] in Hr. destruct Hr as (Hcalm & Ha). destruct (errno e =? 0) eqn:He.
  - apply (move_spawn s (KSkip a None) (Some (0, 0))); try done; [cbn [orel]; split; [done|]; split; [done|by left]|]. rewrite Hp. cbn [pstep StartWrite_step]. by rewrite He.
  - apply (move s (KSkip a None) None); try done; [cbn [orel]; split; [done|]; split; [done|by left]|]. rewrite Hp. cbn [pstep StartWrite_step]. by rewrite He.
Qed.
Lemma step_connected a : p = Connected a -> stepped e s ths i p.
Proof.
  intros Hp. destruct owner_rel as [Hr _]. rewrite Hp in Hr. cbn [orel] in Hr. destruct Hr as (Hfs & Ho & Hlo & Ht & Hv & Hk & Hfl). destruct (errno e =? 0) eqn:He.
  - apply (move (set_connected true s) (CSetup a) None); try done. rewrite Hp. cbn [pstep StartWrite_step]. by rewrite He.
  - apply (move_fail (SetFailed (errno e) s) (0, 0) None); try done. rewrite Hp, Hfs. cbn [pstep StartWrite_step hd]. by rewrite He, Ho.
Qed.
Lemma step_wait req tail wt : p = KWait req tail wt -> stepped e s ths i p.
Proof.
  intros Hp. destruct owner_rel as [Hr Ho]. rewrite Hp in Hr. cbn [orel] in Hr. destruct Hr as (Hcalm & Hreq & Htl). pose proof Hcalm as (Hlo & Ht & Hv & Hk & Hfl).
  destruct (wt && negb (errno e =? 0) && negb (errno e =? ETIMEDOUT)) eqn:He; [|destruct tail as [t|] eqn:Htail].
  - apply (move_fail (SetFailed (errno e) s) (0, 0) None); try done. rewrite Hp. cbn [pstep KeepWrite_step]. by rewrite He, Hreq.
  - destruct Htl as [?|[= ->]]; [done|]. apply (move s (Complete0 (InKeep req) o (bool_decide (req = o))) None); try done.
    + cbn [orel caller singular_ok]. do 5 (split; [done|]). apply bool_decide_ext. rewrite <- Hreq. pose proof (ow_nodup _ _ _ _ _ _ _ _ _ Ho) as Hnd.
      destruct fs as [|f fs']; cbn [hd app] in *; [done|]. split; [|done]. intros ->. apply NoDup_cons in Hnd as [Hn _]. set_solver.
    + rewrite Hp. cbn [pstep KeepWrite_step]. by rewrite He.
  - apply (move s (KWalk req req) None); try done.
    + cbn [orel]. split; [done|]. split; [done|]. rewrite <- Hreq. destruct fs; cbn [hd]; set_solver.
    + rewrite Hp. cbn [pstep KeepWrite_step]. by rewrite He.
Qed.
Lemma step_walk req t : p = KWalk req t -> stepped e s ths i p.
Proof.
  intros Hp. destruct owner_rel as [Hr Ho]. rewrite Hp in Hr. cbn [orel] in Hr. destruct Hr as (Hcalm & Hreq & Hin). pose proof Hcalm as (Hlo & Ht & Hv & Hk & Hfl).
  pose proof (ow_nodup _ _ _ _ _ _ _ _ _ Ho) as Hnd. pose proof (ow_last _ _ _ _ _ _ _ _ _ Ho) as Hlast. rewrite Hlo in Hlast.
  apply elem_of_app in Hin as [Hin|Hin%list_elem_of_singleton].
  - apply list_elem_of_split in Hin as (l1 & l2 & Hfs). pose proof (ow_front _ _ _ _ _ _ _ _ _ Ho) as Hch. rewrite Hfs in Hch. apply chain_app in Hch as [_ [Hx _]].
    assert (exists b, first l2 (To o) = To b /\ b ∈ fs ++ [o]) as (b & Hb & Hbin).
    { rewrite Hfs. destruct l2 as [|b l2]; cbn [first]; eexists; (split; [done|]); set_solver. }
    apply (move s (KWalk req b) None); try done. rewrite Hp. cbn [pstep KeepWrite_step]. by rewrite Hx, Hb.
  - subst t. apply (move s (Complete0 (InKeep req) o (bool_decide (req = o))) None); try done.
    + cbn [orel caller singular_ok]. do 5 (split; [done|]). apply bool_decide_ext. rewrite <- Hreq.
      destruct fs as [|f fs']; cbn [hd app] in *; [done|]. split; [|done]. intros ->. apply NoDup_cons in Hnd as [Hn _]. set_solver.
    + rewrite Hp. cbn [pstep KeepWrite_step]. by rewrite Hlast.
Qed.
Lemma step_signal a id kk : p = Success1 a id kk -> kk <> RDone -> stepped e s ths i p.
Proof.
  intros Hp Hkk. destruct owner_rel as [Hr _]. rewrite Hp in Hr. pose proof (th_ok _ _ _ (in_threads _ _ _ Hinv) i p Hi) as Hok. rewrite Hp in Hok. destruct Hok as [r Hheap].
  set (s' := if id =? INVALID_BTHREAD_ID then s else if is_notify_on_success r && negb (Failed s) then bthread_id_error id 0 s else NotifyOnFailed id s).
  assert (same s s') as Hs by (unfold s'; case_match; [apply same_socket_refl|]; case_match; [apply same_error|apply same_notify]).
  destruct kk as [|req tail need|req tail wt need]; [done|..]; cbn [orel] in Hr; destruct Hr as (Hcalm & Hreq & Htl); pose proof Hcalm as (Hlo & Ht & Hv & Hk & Hfl); destruct need.
  - apply (move_fail s' (0, 0) None); try done. rewrite Hp. cbn [pstep Return_step]. by rewrite Hheap, Hreq.
  - apply (move s' (KWrite req tail) None); try done. rewrite Hp. cbn [pstep Return_step]. by rewrite Hheap.
  - apply (move_fail s' (0, 0) None); try done. rewrite Hp. cbn [pstep Return_step]. by rewrite Hheap, Hreq.
  - apply (move s' (KRelease req tail wt) None); try done. rewrite Hp. cbn [pstep Return_step]. by rewrite Hheap.
Qed.
Lemma step_release0 req rc : p = Release0 req rc -> stepped e s ths i p.
Proof.
  intros Hp. destruct owner_rel as [Hr _]. rewrite Hp in Hr. cbn [orel] in Hr.
  apply (move s (Release1 req (match failed s with Some er => non_zero_error_code er | None => ESHUTDOWNWRITE end) rc) None); try done. by rewrite Hp.
Qed.
Lemma step_complete1 c old h q tail : p = Complete1 c old h q tail -> stepped e s ths i p.
Proof.
  intros Hp. destruct owner_rel as [Hr Ho]. rewrite Hp in Hr. cbn [orel] in Hr. destruct Hr as (Hold & Hlo & Hca & t & Ht & Htl & Hh).
  destruct (owned_dom _ _ _ _ _ _ _ _ _ q Ho) as [x Hx]; [rewrite Ht; set_solver|]. destruct (decide (x = UNCONNECTED)) as [Hu|Hu].
  - apply (move s (Complete1 c old h q tail) None); try done; [cbn [orel]; do 3 (split; [done|]); by exists t|].
    rewrite Hp. cbn [pstep IsWriteComplete_step]. rewrite Hx. cbn [mbind option_bind]. by rewrite decide_True.
  - apply (move s (Complete2 c old h q tail x) None); try done.
    + cbn [orel]. do 3 (split; [done|]). exists t. do 3 (split; [done|]). split; [|done]. rewrite Ht in Ho. by eapply owned_saved.
    + rewrite Hp. cbn [pstep IsWriteComplete_step]. rewrite Hx. cbn [mbind option_bind]. by rewrite decide_False.
Qed.

(** Steps that store a link. *)
Lemma relink n x r s' p' rv fs' o' lo' todo' rev' back' k' fl' :
  n ∈ l -> load_next s n <> Some UNCONNECTED \/ tnode p = Some n -> heap s !! n = Some r ->
  same (set_heap (<[n := set_next x r]> (heap s)) s) s' ->
  fs' ++ o' :: todo' ++ rev' ++ back' = l ->
  (forall nx', nx' n = Some x -> (forall b, b <> n -> nx' b = load_next s b) ->
    owned nx' (wait ths) (_write_head s) fs' o' lo' todo' rev' back') ->
  is_owner p' = true -> tnode p' = None -> (forall t, tok t l p') -> (forall t, (forall b, b <> n -> load_next t b = load_next s b) -> orel t p' fs' o' lo' todo' rev' k' fl') ->
  contents s l k' fl' -> pstep e s p = Some (s', p', rv, [], []) -> stepped e s ths i p.
Proof.
  remember (set_heap (<[n := set_next x r]> (heap s)) s) as s1 eqn:Hs1.
  intros Hn Hne Hr Hsame Hl Ho Hown Htn Htok Hrel Hc Hst. exists s', p', rv, [], [], (VOwned i fs' o' lo' todo' rev' back' k' fl'). split; [done|]. split; [done|].
  apply (same_inv s1); [done|].
  assert (forall b, b <> n -> heap s1 !! b = heap s !! b) as Hh by (intros b Hb; rewrite Hs1; cbn [set_heap heap]; by rewrite lookup_insert_ne).
  assert (heap s1 !! n = Some (set_next x r)) as Hn1 by (rewrite Hs1; cbn [set_heap heap]; by rewrite lookup_insert_eq).
  assert (forall b, b <> n -> load_next s1 b = load_next s b) as Hload by (intros b Hb; unfold load_next; by rewrite Hh).
  assert (forall b, core s1 b = core s b) as Hcore.
  { intros b. destruct (decide (b = n)) as [->|Hb]; [|by apply core_heap, Hh]. unfold core. by rewrite Hn1, Hr. }
  split; cbn [nodes set_up failing]; rewrite ?Hl.
  - apply (shape_owner s s1 _ _ p _ fs o lo todo rev back k fl); try done; [apply Hinv| |by apply Hrel]. rewrite Hs1 at 2. cbn [set_heap _write_head].
    apply Ho; [|done]. unfold load_next. by rewrite Hn1.
  - apply threads_touch; try done.
    + intros b. destruct (decide (b = n)) as [->|Hb]; [right; done|left; by apply Hh].
    + intros b Hb. destruct (decide (b = n)) as [->|Hbn]; [by rewrite Hn1|by rewrite Hh].
    + by rewrite Hs1.
    + intros b. by left.
    + intros a. by rewrite Htn.
  - apply (contents_frame s); try done; by rewrite Hs1.
  - apply (accounts_frame s); try done; try by rewrite Hs1. apply Hinv.
Qed.
Lemma step_own a op : p = WOwn a op -> stepped e s ths i p.
Proof.
  intros Hp. destruct owner_rel as [Hr Ho]. rewrite Hp in Hr. cbn [orel] in Hr. destruct Hr as (Hfs & Hoa & Hlo & Ht & Hv & Hk & Hfl).
  assert (a ∈ l) as Ha by (rewrite Hoa; set_solver). destruct (node_request a Ha) as [r Hr].
  assert (forall nx', nx' a = Some Null -> (forall b, b <> a -> nx' b = load_next s b) -> owned nx' (wait ths) (_write_head s) [] a Null [] [] back) as Hown.
  { intros nx' Hnx Hother. pose proof (ow_head _ _ _ _ _ _ _ _ _ Ho) as Hhd. rewrite Hfs, Hoa, Hlo, Ht, Hv in *. cbn [app] in Hhd. rewrite Hhd in *.
    by apply (owned_terminate (load_next s) _ _ a back UNCONNECTED). }
  assert ([] ++ a :: [] ++ [] ++ back = l) as Hl by (by rewrite Hfs, Hoa, Ht, Hv). pose proof (in_contents _ _ _ Hinv) as Hc. cbn [nodes set_up failing] in Hc.
  destruct (_is_write_shutdown s) eqn:Hsh.
  - apply (relink a Null r (set_heap (<[a := set_next Null r]> (heap s)) s) (Release0 a (-1, 0)) None [] a Null [] [] back k true); try done.
    + right. by rewrite Hp.
    + by eapply contents_fail.
    + rewrite Hp. cbn [pstep StartWrite_step]. unfold update. rewrite Hr. cbn [mbind option_bind]. by rewrite Hsh.
  - apply (relink a Null r (set_write_shutdown (need_shutdown_write r) (set_heap (<[a := set_next Null r]> (heap s)) s)) (WConnect a op) None [] a Null [] [] back k fl); try done.
    + right. by rewrite Hp.
    + rewrite Hp. cbn [pstep StartWrite_step]. unfold update. rewrite Hr. cbn [mbind option_bind]. by rewrite Hsh.
Qed.
Lemma step_complete2 c old h q tail saved : p = Complete2 c old h q tail saved -> stepped e s ths i p.
Proof.
  intros Hp. destruct owner_rel as [Hr Ho]. rewrite Hp in Hr. cbn [orel] in Hr. destruct Hr as (Hold & Hlo & Hca & t & Ht & Htl & Hh & Hsv & Hq).
  assert (q ∈ l) as Hql by (rewrite Ht; set_solver). destruct (node_request q Hql) as [r Hr]. pose proof (ow_nodup _ _ _ _ _ _ _ _ _ Ho) as Hnd.
  apply (relink q tail r (set_heap (<[q := set_next tail r]> (heap s)) s) (if decide (top o t = old) then Complete3 c old h (To q) else Complete1 c old h (top o t) (To q)) None fs o lo t (q :: rev) back k fl); try done.
  - left. rewrite Hq, Hsv. done.
  - rewrite Ht. by rewrite <- !app_assoc.
  - intros nx' Hnx Hother. rewrite Ht in Ho. apply (owned_reverse (load_next s) _ _ _ _ _ _ _ _ _ _ Ho); [by rewrite Hnx, Htl|done].
  - by case_decide.
  - by case_decide.
  - intros t0. by case_decide.
  - intros t0 _. case_decide as Htop.
    + cbn [orel]. do 3 (split; [done|]). assert (t = []) as ->.
      { destruct t as [|a t' _] using rev_ind; [done|]. rewrite top_snoc in Htop. rewrite Ht in Hnd. apply NoDup_app in Hnd as (_ & _ & Hnd). apply NoDup_cons in Hnd as [Hn _]. set_solver. }
      split; [done|]. exists q, rev. split; [done|]. split; [done|]. by rewrite Hh, Ht.
    + cbn [orel]. do 3 (split; [done|]). destruct t as [|a t' _] using rev_ind; [done|]. exists t'. rewrite top_snoc. split; [done|]. split; [done|]. rewrite Hh, Ht. by rewrite <- !app_assoc.
  - apply (in_contents _ _ _ Hinv).
  - rewrite Hp. cbn [pstep IsWriteComplete_step]. unfold update. rewrite Hr. cbn [mbind option_bind]. by rewrite Hsv.
Qed.
Lemma step_complete3 c old h tail : p = Complete3 c old h tail -> stepped e s ths i p.
Proof.
  intros Hp. destruct owner_rel as [Hr Ho]. rewrite Hp in Hr. cbn [orel] in Hr. destruct Hr as (Hold & Hlo & Hca & Ht & r0 & rev' & Hv & Htl & Hh).
  assert (o ∈ l) as Hol by set_solver. destruct (node_request o Hol) as [r Hr]. pose proof (ow_last _ _ _ _ _ _ _ _ _ Ho) as Hlast.
  destruct (exists_last (l := r0 :: rev') ltac:(done)) as (rs & o' & Hrs). rewrite Hrs in Hv.
  assert (h = o') as Hh' by (by rewrite Hh, Hv, top_snoc).
  assert (hd o' (fs ++ o :: rs) = hd o fs) as Hhd by (by destruct fs).
  apply (relink o tail r (set_heap (<[o := set_next tail r]> (heap s)) s) (Complete4 c old h r0) None (fs ++ o :: rs) o' Null [] [] back k fl); try done.
  - left. rewrite Hlast, Hlo. done.
  - rewrite Ht, Hv. cbn [app]. by rewrite <- !app_assoc.
  - intros nx' Hnx Hother. rewrite Ht, Hv in Ho. apply (owned_join (load_next s) _ _ _ _ _ _ _ _ _ Ho); [|done]. by rewrite Hnx, Htl, <- Hrs.
  - intros t0 _. cbn [orel]. do 3 (split; [done|]). split; [done|]. rewrite Hhd. split; [|split].
    + destruct c; cbn [caller first_of] in *; destruct_and?; subst; done.
    + by destruct c; cbn [caller releasing] in *; destruct_and?.
    + exists (fs ++ [o]), rev'. split; [rewrite <- app_assoc; cbn [app]; by rewrite <- app_assoc, <- Hrs; cbn [app]; rewrite <- ?app_assoc|].
      intros Hfl. rewrite length_app. cbn [length]. destruct c; cbn [caller] in Hca; destruct_and?; subst; cbn [length]; lia || done.
  - apply (in_contents _ _ _ Hinv).
  - rewrite Hp. cbn [pstep IsWriteComplete_step]. unfold update. rewrite <- Hold, Hr. cbn [mbind option_bind]. by rewrite Htl.
Qed.

(** *** Setup *)
Lemma setup_pipeline_spec a r1 s1 : exists s2 l r', setup_pipeline a r1 s1 = (s2, l) /\ plain l = true /\ s2 = set_heap (<[a := r']> (heap s1)) s1 /\
  data r' = data r1 /\ user_message r' = user_message r1 /\ next r' = next r1 /\ ticket r' = ticket r1.
Proof. unfold setup_pipeline. case_match; eexists _, _, _; done. Qed.
(** What [Setup] does to a request [r], in terms of what it leaves. *)
Record setting_up (a : addr) (r : WriteRequest) (s' : Socket) (r' : WriteRequest) : Prop := mkSetting {
  su_heap : heap s' = <[a := r']> (heap s);
  su_data : data r' = payload r; su_message : user_message r' = None; su_next : next r' = next r; su_ticket : ticket r' = ticket r;
  su_pooled : pooled s' = pooled s; su_head : _write_head s' = _write_head s; su_wire : wire s' = wire s;
  su_history : history s' = history s; su_ended : ended s' = ended s;
  su_unwritten : forall x, _unwritten_bytes s = i64 x -> _unwritten_bytes s' = i64 (x - counted s a + size (payload r)) }.
Lemma setup_spec a r : heap s !! a = Some r -> exists s' l r', Setup max_unwritten a s = Some (s', l) /\ plain l = true /\ setting_up a r s' r'.
Proof.
  intros Hr. assert (counted s a = match user_message r with None => size (data r) | Some _ => 0 end) as Hcnt by (unfold counted; by rewrite Hr).
  set (r1 := set_data (payload r) (clear_user_message r)). set (s1 := set_unwritten (i64 (_unwritten_bytes s + size (payload r))) s).
  assert ((exists er, user_message r = Some (UserMessage (inl er))) \/ user_message r = None \/
    Setup max_unwritten a s = (let '(s', l) := setup_pipeline a r1 s1 in
      Some (s', (if max_unwritten <=? _unwritten_bytes s + size (payload r) then [AOvercrowded true] else []) ++ l)) /\ counted s a = 0) as [[er Hm]|[Hm|[Hst H0]]].
  { unfold Setup. rewrite Hr. cbn [mbind option_bind]. destruct (user_message r) as [[|[er|bs]]|] eqn:Hm; [right; right|left; by exists er|right; right|by right; left]; (split; [done|by rewrite Hcnt]). }
  - eexists _, _, (set_data [] (clear_user_message r)). split; [unfold Setup; rewrite Hr; cbn [mbind option_bind]; rewrite Hm; done|]. split; [done|].
    assert (payload r = []) as Hp by (unfold payload; by rewrite Hm). rewrite Hm in Hcnt.
    split; rewrite ?(sa_heap _ _ (same_error _ _ _)), ?(sa_pooled _ _ (same_error _ _ _)), ?(sa_head _ _ (same_error _ _ _)),
      ?(sa_wire _ _ (same_error _ _ _)), ?(sa_history _ _ (same_error _ _ _)), ?(sa_ended _ _ (same_error _ _ _)), ?(sa_unwritten _ _ (same_error _ _ _)); try done.
    intros x Hx. rewrite Hcnt, Hp. replace (x - 0 + size []) with x by (unfold size; cbn; lia). done.
  - destruct (setup_pipeline_spec a r s) as (s2 & l2 & r' & Hst & Hl & -> & Hd & Hu & Hn & Ht).
    assert (payload r = data r) as Hpl by (unfold payload; by rewrite Hm). rewrite Hm in Hcnt.
    eexists _, _, r'. split; [unfold Setup; rewrite Hr; cbn [mbind option_bind]; rewrite Hm, Hst; done|]. split; [done|]. split; rewrite ?Hpl; try done; [congruence|].
    intros x Hx. cbn [set_heap _unwritten_bytes]. rewrite Hcnt, Hx. f_equal. lia.
  - destruct (setup_pipeline_spec a r1 s1) as (s2 & l2 & r' & Hst2 & Hl & -> & Hd & Hu & Hn & Ht). rewrite Hst2 in Hst.
    eexists _, _, r'. split; [exact Hst|]. split; [unfold plain in *; rewrite forallb_app, Hl; by case_match|]. split; try done.
    intros x Hx. unfold s1. cbn [set_heap set_unwritten _unwritten_bytes]. rewrite H0, Hx, Z.sub_0_r. apply i64_add.
Qed.

(** The node that is set up is the first that was not. *)
Lemma setup_contents a r s' r' l1 l2 : l = l1 ++ a :: l2 -> heap s !! a = Some r -> setting_up a r s' r' -> (a ∉ l1 ++ l2) ->
  (fl = false -> k = length l1) -> contents s' l (S (length l1)) fl.
Proof.
  intros Hl Hr [] Hal Hk. pose proof (in_contents _ _ _ Hinv) as [H1 H2 H3 H4 (ws & V & H5 & H6 & H7)]. cbn [nodes set_up failing] in *.
  assert (forall b, b ∈ l1 ++ l2 -> core s' b = core s b) as Hcore.
  { intros b Hb. apply core_heap. rewrite su_heap0, lookup_insert_ne; [done|]. by intros ->. }
  assert (heap s' !! a = Some r') as Ha' by (by rewrite su_heap0, lookup_insert_eq).
  assert (pending s' = pending s) as Hp by (unfold pending; by rewrite su_history0, su_ended0).
  rewrite Hl in *. split; rewrite ?su_history0, ?su_ended0, ?su_wire0, ?Hp; try done.
  - apply Forall2_app_inv_l in H2 as (h1 & h2 & HF1 & HF2 & ->). apply Forall2_cons_inv_l in HF2 as (h & h3 & Hh & HF2 & ->).
    assert (forall m hs, (forall b, b ∈ m -> b ∈ l1 ++ l2) -> Forall2 (holds s) m hs -> Forall2 (holds s') m hs) as Hmap.
    { intros m hs Hsub HF. apply Forall2_same_length_lookup. split; [by eapply Forall2_length|]. intros j b x Hb Hx.
      apply (core_holds s); [apply Hcore, Hsub; by eapply list_elem_of_lookup_2|]. apply (Forall2_lookup_lr _ _ _ _ _ _ HF Hb Hx). }
    apply Forall2_app; [apply Hmap; [set_solver|done]|]. constructor; [|apply Hmap; [set_solver|done]].
    exists r'. split; [done|]. rewrite su_message0, su_data0. destruct Hh as (r0 & Hr0 & Hm). rewrite Hr in Hr0. simplify_eq.
    destruct (user_message r0) eqn:Hm0; [by rewrite Hm|]. unfold payload. by rewrite Hm0.
  - intros j b r0 Hb Hr0. destruct (decide (b = a)) as [->|Hne].
    + rewrite Ha' in Hr0. simplify_eq. rewrite su_ticket0. by apply (H3 j a).
    + rewrite su_heap0, lookup_insert_ne in Hr0 by done. by apply (H3 j b).
  - exists ws, V. split; [done|]. split; [done|]. unfold progress in *. rewrite Hp. destruct fl; [done|]. specialize (Hk eq_refl). subst k.
    destruct H7 as (_ & Heq & Hs & Hu). rewrite take_app_length, drop_app_length in *. inversion Hu as [|? ? Hua Hu2]; subst.
    destruct Hua as (r0 & Hr0 & [m Hm]). rewrite Hr in Hr0. simplify_eq.
    assert (take (S (length l1)) (l1 ++ a :: l2) = l1 ++ [a]) as -> by (replace (l1 ++ a :: l2) with ((l1 ++ [a]) ++ l2) by (by rewrite <- app_assoc); rewrite take_app_length'; [done|rewrite length_app; cbn; lia]).
    assert (drop (S (length l1)) (l1 ++ a :: l2) = l2) as -> by (replace (l1 ++ a :: l2) with ((l1 ++ [a]) ++ l2) by (by rewrite <- app_assoc); rewrite drop_app_length'; [done|rewrite length_app; cbn; lia]).
    split; [rewrite length_app; cbn; lia|]. split; [|split].
    + assert ((l1 ++ a :: l2) !! length l1 = Some a) as Hla by (by rewrite list_lookup_middle).
      destruct (Forall2_lookup_l _ _ _ _ _ H2 Hla) as (h & Hh & r1 & Hr1 & Hpay). rewrite Hr in Hr1. simplify_eq. rewrite Hm in Hpay.
      rewrite (take_S_r _ _ _ Hh), join_app, <- Heq, fmap_app, join_app. cbn [fmap list_fmap mjoin list_join]. rewrite !app_nil_r.
      unfold dat at 2. rewrite Ha', su_data0, Hpay. rewrite app_assoc. do 3 f_equal. apply list_fmap_ext. intros j b Hb. apply core_dat, Hcore.
      apply elem_of_app. left. by eapply list_elem_of_lookup_2.
    + apply Forall_app. split; [|constructor; [|done]].
      * apply Forall_forall. intros b Hb. apply (core_is_set s); [apply Hcore; set_solver|]. by apply (proj1 (Forall_forall _ _) Hs).
      * exists r'. done.
    + apply Forall_forall. intros b Hb. apply (core_unset s); [apply Hcore; set_solver|]. by apply (proj1 (Forall_forall _ _) Hu2).
Qed.

Lemma middle_nodup l1 a l2 : l = l1 ++ a :: l2 -> a ∉ l1 ++ l2.
Proof.
  intros Hl. destruct owner_rel as [_ Ho]. pose proof (ow_nodup _ _ _ _ _ _ _ _ _ Ho) as Hnd. rewrite Hl in Hnd.
  apply NoDup_app in Hnd as (_ & Hd & Hnd). apply NoDup_cons in Hnd as [Hn _]. intros [Ha|Ha]%elem_of_app; [|done]. apply (Hd a Ha). left.
Qed.
Lemma setup_inv a r s' r' l1 l2 : l = l1 ++ a :: l2 -> a ∈ fs ++ [o] -> lo = Null -> heap s !! a = Some r -> setting_up a r s' r' ->
  (fl = false -> k = length l1) ->
  forall p', is_owner p' = true -> tnode p' = None -> tok s' l p' -> orel s' p' fs o lo todo rev (S (length l1)) fl ->
    invw s' (<[i := p']> ths ++ []) (VOwned i fs o lo todo rev back (S (length l1)) fl).
Proof.
  intros Hl Ha Hlo Hr Hsu Hk. pose proof (middle_nodup _ _ _ Hl) as Hna. pose proof (setup_contents a r s' r' l1 l2 Hl Hr Hsu Hna Hk) as Hc.
  destruct (front_node a Ha Hlo) as (x & r0 & Hx & Hxu & Hr0 & Hnx & Hal). rewrite Hr in Hr0. injection Hr0 as <-.
  assert (forall b, b <> a -> heap s' !! b = heap s !! b) as Hh by (intros b Hb; rewrite (su_heap _ _ _ _ Hsu); by rewrite lookup_insert_ne).
  assert (heap s' !! a = Some r') as Ha' by (by rewrite (su_heap _ _ _ _ Hsu), lookup_insert_eq).
  assert (forall b, load_next s' b = load_next s b) as Hload.
  { intros b. unfold load_next. destruct (decide (b = a)) as [->|Hb]; [|by rewrite Hh]. rewrite Ha', Hr. cbn. by rewrite (su_next _ _ _ _ Hsu). }
  assert (owned (load_next s') (wait ths) (_write_head s') fs o lo todo rev back) as Ho.
  { rewrite (su_head _ _ _ _ Hsu). apply (owned_ext (load_next s) _ (wait ths)); [done|done|]. apply owner_rel. }
  assert (accounts s' l) as Hacc.
  { assert (sum s' l = sum s l - counted s a + size (payload r)) as Hsum.
    { rewrite Hl, !sum_app. cbn [sum]. rewrite !(core_sum s s') by (intros b Hb; apply core_heap, Hh; intros ->; set_solver).
      assert (counted s' a = size (payload r)) as -> by (unfold counted; by rewrite Ha', (su_message _ _ _ _ Hsu), (su_data _ _ _ _ Hsu)). lia. }
    split; [|by left]. rewrite (su_unwritten _ _ _ _ Hsu _ (proj1 (in_accounts _ _ _ Hinv))), Hsum. cbn [nodes]. f_equal. lia. }
  assert (forall p' new, (forall q, q ∈ new -> tnode q = None /\ tok s' l q) -> tnode p' = None -> tok s' l p' -> threads_ok s' (<[i := p']> ths ++ new) l) as Hth.
  { intros p' new Hnew Hn Ht. apply threads_touch; try done.
    - intros b. destruct (decide (b = a)) as [->|Hb]; [right|left; by apply Hh]. split; [done|]. left. congruence.
    - intros b Hb. destruct (decide (b = a)) as [->|Hba]; [by rewrite Ha'|by rewrite Hh].
    - apply (su_pooled _ _ _ _ Hsu).
    - intros b. by left.
    - intros b. by rewrite Hn.
    - by apply Forall_forall. }
  intros p' Hp' Hn Ht Hrel. split; try done.
  - apply (shape_owner s s' _ _ p _ fs o lo todo rev back k fl); try done. apply Hinv.
  - apply Hth; try done. intros q []%elem_of_nil.
Qed.
Lemma step_setup a op : p = WSetup a op -> stepped e s ths i p.
Proof.
  intros Hp. destruct owner_rel as [Hr Ho]. rewrite Hp in Hr. cbn [orel] in Hr. destruct Hr as (Hfs & Hoa & Hlo & Ht & Hv & Hk & Hfl).
  assert (a ∈ l) as Hal by (rewrite Hoa; set_solver). destruct (node_request a Hal) as [r Hr]. destruct (setup_spec a r Hr) as (s' & acc & r' & Hst & Hacc & Hsu).
  pose proof (setup_inv a r s' r' [] back ltac:(by rewrite Hfs, Hoa, Ht, Hv) ltac:(rewrite Hoa; set_solver) Hlo Hr Hsu ltac:(done)) as Hgo.
  assert (calm fs lo todo rev 1 fl) as Hcalm by (unfold calm; by rewrite Hfs).
  destruct (o_write_in_background op) eqn:Hb.
  - eexists s', (WSpawn a), None, [], acc, _. split; [rewrite Hp; cbn [pstep StartWrite_step]; rewrite Hst; cbn [mbind option_bind]; by rewrite Hb|]. split; [done|]. apply Hgo; try done. cbn [orel]. split; [done|]. by rewrite Hfs.
  - eexists s', (WOnce a), None, [], acc, _. split; [rewrite Hp; cbn [pstep StartWrite_step]; rewrite Hst; cbn [mbind option_bind]; by rewrite Hb|]. split; [done|]. apply Hgo; done.
Qed.
Lemma step_csetup a : p = CSetup a -> stepped e s ths i p.
Proof.
  intros Hp. destruct owner_rel as [Hr Ho]. rewrite Hp in Hr. cbn [orel] in Hr. destruct Hr as (Hfs & Hoa & Hlo & Ht & Hv & Hk & Hfl).
  assert (a ∈ l) as Hal by (rewrite Hoa; set_solver). destruct (node_request a Hal) as [r Hr]. destruct (setup_spec a r Hr) as (s' & acc & r' & Hst & Hacc & Hsu).
  eexists s', (CSpawn a), None, [], acc, _. split; [rewrite Hp; cbn [pstep StartWrite_step]; by rewrite Hst|]. split; [done|].
  apply (setup_inv a r s' r' [] back); try done; [by rewrite Hfs, Hoa, Ht, Hv|rewrite Hoa; set_solver|]. cbn [orel]. unfold calm. by rewrite Hfs.
Qed.
Lemma step_cspawn a : p = CSpawn a -> stepped e s ths i p.
Proof.
  intros Hp. destruct owner_rel as [Hr _]. rewrite Hp in Hr. cbn [orel] in Hr. destruct Hr as (Hcalm & Ha). destruct (errno e =? 0) eqn:He.
  - apply (move_spawn s (KSkip a None) None); try done; [cbn [orel]; split; [done|]; split; [done|by left]|]. rewrite Hp. cbn [pstep StartWrite_step]. by rewrite He.
  - apply (move s (KSkip a None) None); try done; [cbn [orel]; split; [done|]; split; [done|by left]|]. rewrite Hp. cbn [pstep StartWrite_step]. by rewrite He.
Qed.
Lemma step_complete4 c old h q : p = Complete4 c old h q -> stepped e s ths i p.
Proof.
  intros Hp. destruct owner_rel as [Hr Ho]. rewrite Hp in Hr. cbn [orel] in Hr. destruct Hr as (Hlo & Ht & Hv & Hh & Hhd & Hfl & l1 & l2 & Hsplit & Hk).
  assert (q ∈ fs ++ [o]) as Hqin by (rewrite Hsplit; set_solver). destruct (front_node q Hqin Hlo) as (x & r & Hx & Hxu & Hr & Hnx & Hql).
  destruct (setup_spec q r Hr) as (s' & acc & r' & Hst & Hacc & Hsu).
  assert (l = l1 ++ q :: l2 ++ back) as Hl by (rewrite Ht, Hv; cbn [app]; replace (fs ++ o :: back) with ((fs ++ [o]) ++ back) by (by rewrite <- app_assoc); rewrite Hsplit, <- app_assoc; done).
  pose proof (setup_inv q r s' r' l1 (l2 ++ back) Hl Hqin Hlo Hr Hsu Hk) as Hgo.
  assert (load_next s' q = Some (first l2 Null)) as Hload.
  { unfold load_next. rewrite (su_heap _ _ _ _ Hsu), lookup_insert_eq. cbn. rewrite (su_next _ _ _ _ Hsu), Hnx. f_equal.
    assert (chain (load_next s) (fs ++ [o]) Null) as Hch.
    { apply chain_app. split; [apply (ow_front _ _ _ _ _ _ _ _ _ Ho)|]. cbn [chain first]. split; [|done]. pose proof (ow_last _ _ _ _ _ _ _ _ _ Ho). congruence. }
    rewrite Hsplit in Hch. apply chain_app in Hch as [_ [Hq _]]. congruence. }
  destruct l2 as [|q' l2]; cbn [first] in Hload.
  - eexists s', (incomplete c old h), None, [], acc, _. split; [rewrite Hp; cbn [pstep IsWriteComplete_step]; rewrite Hst; cbn [mbind option_bind]; by rewrite Hload|]. split; [done|].
    assert (length l1 = length fs) as Hlen by (apply (f_equal length) in Hsplit; rewrite !length_app in Hsplit; cbn in Hsplit; lia).
    assert (releasing c = false -> calm fs lo todo rev (S (length l1)) fl) as Hcalm by (intros Hc; unfold calm; rewrite Hlen, Hfl, Hc; done).
    apply Hgo; destruct c; cbn [incomplete orel first_of releasing] in *; try done; [by split; [apply Hcalm|]|].
    split; [by apply Hcalm|]. split; [done|]. right. by rewrite Hh.
  - eexists s', (Complete4 c old h q'), None, [], acc, _. split; [rewrite Hp; cbn [pstep IsWriteComplete_step]; rewrite Hst; cbn [mbind option_bind]; by rewrite Hload|]. split; [done|].
    apply Hgo; try done. cbn [orel]. do 6 (split; [done|]). exists (l1 ++ [q]), l2. split; [by rewrite <- app_assoc|]. intros _. rewrite length_app. cbn. lia.
Qed.

(** *** Requests that leave the list *)
Lemma suffix_total (ds hs : list (list Z)) : Forall2 suffix ds hs -> (length (mjoin ds) <= length (mjoin hs))%nat.
Proof.
  induction 1 as [|d h ds hs [x ->] _ IH]; [done|].
  change (mjoin (d :: ds)) with (d ++ mjoin ds). change (mjoin ((x ++ d) :: hs)) with ((x ++ d) ++ mjoin hs). rewrite !length_app. lia.
Qed.
Lemma split_off (V D h P : list Z) : V ++ D = h ++ P -> (length D <= length P)%nat -> exists V', V = h ++ V' /\ V' ++ D = P.
Proof.
  intros Heq Hlen. apply app_eq_inv in Heq as [(x & -> & ->)|(x & -> & ->)]; [by exists x|].
  rewrite length_app in Hlen. destruct x as [|y x]; [|cbn in Hlen; lia]. exists []. by rewrite !app_nil_r.
Qed.
Lemma pending_cons (s1 : Socket) h hs x : pending s1 = h :: hs -> drop (length (ended s1 ++ [x])) (history s1) = hs /\
  take (length (ended s1 ++ [x])) (history s1) = take (length (ended s1)) (history s1) ++ [h].
Proof.
  unfold pending. intros Hp. rewrite length_app, Nat.add_1_r. split.
  - by rewrite <- (skipn_skipn 1 (length (ended s1))), Hp.
  - apply take_S_r. by rewrite <- (Nat.add_0_r (length (ended s1))), <- lookup_drop, Hp.
Qed.
(** A request that was written leaves the list. *)
Lemma pop_contents (s1 : Socket) a r l' k' b0 : contents s1 (a :: l') k' (negb b0) -> heap s1 !! a = Some r ->
  (b0 = true -> data r = [] /\ (1 <= k')%nat) ->
  contents (set_log (history s1) (ended s1 ++ [(ticket r, b0)]) s1) l' (k' - 1) (negb b0).
Proof.
  intros [H1 H2 H3 H4 (ws & V & H5 & H6 & H7)] Hr Hb. apply Forall2_cons_inv_l in H2 as (h & hs & Hh & H2 & Hp).
  destruct (pending_cons s1 h hs (ticket r, b0) Hp) as [Hp' Ht']. pose proof (H3 0%nat a r eq_refl Hr) as Htk. rewrite Nat.add_0_r in Htk.
  split; cbn [set_log history ended heap wire]; unfold pending; cbn [set_log history ended]; rewrite ?Hp', ?length_app; cbn [length] in *.
  - rewrite ?length_app. cbn [length]. lia.
  - done.
  - intros j b rb Hj Hrb. rewrite (H3 (S j) b rb); [lia|done|done].
  - intros j x. rewrite lookup_app_Some. intros [Hj|[Hj Hx]]; [by apply H4|]. apply list_lookup_singleton_Some in Hx as [Hj0 <-]. cbn. rewrite Htk. lia.
  - assert (exists wd V', V = wd ++ V' /\ delivered wd (ticket r, b0) h /\ progress (set_log (history s1) (ended s1 ++ [(ticket r, b0)]) s1) l' (k' - 1) (negb b0) V') as (wd & V' & -> & Hdel & Hpr).
    { unfold progress in *. unfold pending at 1 2. cbn [set_log history ended]. rewrite Hp'. destruct b0; cbn [negb] in *.
      - destruct Hb as [Hd Hk]; [done|]. destruct k' as [|k']; [lia|]. destruct H7 as (Hle & Heq & Hs & Hu). cbn [length] in Hle. rewrite Hp in Heq. cbn [take drop fmap list_fmap mjoin list_join] in *.
        assert (dat s1 a = []) as Hda by (unfold dat; by rewrite Hr, Hd). rewrite Hda in Heq. cbn [app] in Heq.
        apply split_off in Heq as (V' & -> & Heq).
        + exists h, V'. split; [done|]. split; [by split|]. rewrite Nat.sub_succ, Nat.sub_0_r. split; [lia|]. split; [done|]. apply Forall_cons in Hs as [_ Hs]. split; [done|done].
        + apply suffix_total. apply Forall_cons in Hs as [_ Hs']. clear - H2 Hs'. revert l' hs H2 Hs'. induction k' as [|k' IH]; intros l' hs H2 Hs'; [constructor|].
          destruct H2 as [|b h l' hs Hb H2]; [constructor|]. cbn [take fmap list_fmap] in *. inversion Hs' as [|? ? Hsb Hs'']; subst. constructor; [|by apply IH].
          destruct Hb as (rb & Hrb & Hm), Hsb as (rb' & Hrb' & Hm'). rewrite Hrb in Hrb'. simplify_eq. rewrite Hm' in Hm. unfold dat. by rewrite Hrb.
      - rewrite Hp in H7. cbn [mjoin list_join] in H7. destruct H7 as [x Hx]. symmetry in Hx. apply app_eq_inv in Hx as [(y & -> & Hy)|(y & Hy & Hy')].
        + exists h, y. split; [done|]. split; [by split|]. exists x. done.
        + exists V, []. rewrite app_nil_r. split; [done|]. split; [split; [by exists y|done]|]. apply prefix_nil. }
    exists (ws ++ [wd]), V'. rewrite H5, join_app. cbn [mjoin list_join]. rewrite app_nil_r, <- app_assoc. split; [done|]. split; [|done].
    rewrite length_app in Ht'. cbn [length] in Ht'. rewrite Ht'. apply Forall3_app; [done|]. constructor; [done|constructor].
Qed.

End Owner.

(** The first of several requests leaves the list. *)
Section Pop.
Context (e : env) (s : Socket) (ths : list pc) (i : nat) (p : pc).
Context (a : addr) (fs : list addr) (o : addr) (back : list addr) (k : nat) (fl : bool).
Abbreviation w := (VOwned i (a :: fs) o Null [] [] back k fl).
Hypothesis Hinv : invw s ths w.
Hypothesis Hi : ths !! i = Some p.
Hypothesis Hdue : due = 0.

Lemma pop_facts : owned (load_next s) (wait ths) (_write_head s) fs o Null [] [] back /\ load_next s a = Some (To (hd o fs)) /\ (a ∉ fs ++ o :: back).
Proof.
  destruct (in_shape _ _ _ Hinv) as (Ho & _). destruct (owned_pop _ _ _ _ _ _ _ _ _ _ Ho) as (Ho' & Hload & Hnot). split; [done|]. split; [|done].
  rewrite Hload. by destruct fs.
Qed.
Lemma pop_request : exists r, heap s !! a = Some r /\ next r = To (hd o fs).
Proof.
  destruct pop_facts as (_ & Hl & _). unfold load_next in Hl. destruct (heap s !! a) as [r|]; [|done]. exists r. split; [done|]. by injection Hl.
Qed.
Lemma pop_sum : sum s (nodes w) = counted s a + sum s (fs ++ o :: back).
Proof. done. Qed.
(** It was completely written. *)
Lemma skip_first r p' rv : k = S (S (length fs)) -> fl = false -> heap s !! a = Some r -> data r = [] ->
  is_owner p' = true -> tnode p' = Some a -> (forall t l', (a ∉ l') -> (a ∉ pooled t) -> heap t !! a = Some r -> tok t l' p') ->
  (forall t, orel t p' fs o Null [] [] (S (length fs)) false) ->
  pstep e s p = Some (set_log (history s) (ended s ++ [(ticket r, true)]) s, p', rv, [], []) -> stepped e s ths i p.
Proof.
  intros Hk Hfl Hr Hd Hp' Hn Htok Hrel Hst. destruct pop_facts as (Ho & Hload & Hnot).
  pose proof (in_contents _ _ _ Hinv) as Hc. cbn [nodes set_up failing app] in Hc. rewrite Hfl in Hc.
  pose proof (pop_contents s a r _ k true Hc Hr ltac:(intros _; split; [done|]; lia)) as Hc'. cbn [negb] in Hc'. rewrite Hk, Nat.sub_1_r, Nat.pred_succ in Hc'.
  eexists _, p', rv, [], [], (VOwned i fs o Null [] [] back (S (length fs)) false). split; [exact Hst|]. split; [done|]. split; cbn [nodes set_up failing app]; try done.
  - apply (shape_owner s _ _ _ p _ (a :: fs) o Null [] [] back k fl); try done. apply Hinv.
  - apply (threads_touch s ths i p (a :: fs) o Null [] [] back k fl Hinv Hi); try done.
    + by left.
    + cbn [app]. set_solver.
    + intros b. cbn [app]. rewrite elem_of_cons. intros [->|?]; [right|by left]. by rewrite Hload.
    + apply Htok; try done. apply (node_alive s ths _ Hinv). cbn [nodes app]. set_solver.
    + intros b. rewrite Hn. intros [= <-]. split; [cbn [app]; set_solver|]. by rewrite Hload.
  - destruct (in_accounts _ _ _ Hinv) as [Ha _]. rewrite pop_sum in Ha. split; [|by left]. cbn [set_log _unwritten_bytes].
    rewrite (core_sum s) by done. assert (counted s a = 0) as H0 by (unfold counted; rewrite Hr, Hd; by destruct (user_message r)). by rewrite H0 in Ha.
Qed.
Lemma step_skip req tail : p = KSkip req tail -> stepped e s ths i p.
Proof.
  intros Hp. destruct (owner_rel s ths i p _ _ _ _ _ _ _ _ Hinv Hi) as [Hrel _]. rewrite Hp in Hrel. cbn [orel hd] in Hrel. destruct Hrel as (Hcalm & Hreq & Htl).
  destruct pop_request as (r & Hr & Hnx). pose proof Hcalm as (_ & _ & _ & Hk & Hfl). cbn [length] in Hk. subst req.
  destruct (data r) as [|x d] eqn:Hd.
  - apply (skip_first r (Success0 a (RSkip (hd o fs) tail (need_shutdown_write r))) None); try done.
    + intros t l' ? ? ?. cbn [tok]. split; [done|]. split; [done|]. by exists r.
    + rewrite Hp. cbn [pstep KeepWrite_step]. rewrite Hr. cbn [mbind option_bind]. by rewrite Hnx, Hd.
  - apply (move e s ths i p _ _ _ _ _ _ _ _ Hinv Hi s (KWrite a tail) None); try done. rewrite Hp. cbn [pstep KeepWrite_step]. rewrite Hr. cbn [mbind option_bind]. by rewrite Hnx, Hd.
Qed.
Lemma step_krelease req tail wt : p = KRelease req tail wt -> stepped e s ths i p.
Proof.
  intros Hp. destruct (owner_rel s ths i p _ _ _ _ _ _ _ _ Hinv Hi) as [Hrel _]. rewrite Hp in Hrel. cbn [orel hd] in Hrel. destruct Hrel as (Hcalm & Hreq & Htl).
  destruct pop_request as (r & Hr & Hnx). pose proof Hcalm as (_ & _ & _ & Hk & Hfl). cbn [length] in Hk. subst req.
  destruct (data r) as [|x d] eqn:Hd.
  - apply (skip_first r (Success0 a (RRelease (hd o fs) tail wt (need_shutdown_write r))) None); try done.
    + intros t l' ? ? ?. cbn [tok]. split; [done|]. split; [done|]. by exists r.
    + rewrite Hp. cbn [pstep KeepWrite_step]. rewrite Hr. cbn [mbind option_bind]. by rewrite Hnx, Hd.
  - apply (move e s ths i p _ _ _ _ _ _ _ _ Hinv Hi s (KWait a tail wt) None); try done. rewrite Hp. cbn [pstep KeepWrite_step]. rewrite Hr. cbn [mbind option_bind]. by rewrite Hnx, Hd.
Qed.
(** It has failed. *)
Lemma step_release1 req er rc : p = Release1 req er rc -> stepped e s ths i p.
Proof.
  intros Hp. destruct (owner_rel s ths i p _ _ _ _ _ _ _ _ Hinv Hi) as [Hrel _]. rewrite Hp in Hrel. cbn [orel hd] in Hrel. destruct Hrel as (_ & _ & _ & Hfl & Hreq). subst req.
  destruct pop_request as (r & Hr & Hnx). destruct pop_facts as (Ho & Hload & Hnot). destruct (abandon_spec s a r Hr) as (s1 & acc & r' & Hst & Hacc & []).
  assert (forall b, b <> a -> heap s1 !! b = heap s !! b) as Hh by (intros b Hb; by rewrite ab_heap0, lookup_insert_ne).
  assert (heap s1 !! a = Some r') as Hr' by (by rewrite ab_heap0, lookup_insert_eq).
  assert (forall b, b ∈ fs ++ o :: back -> heap s1 !! b = heap s !! b) as Hnodes by (intros b Hb; apply Hh; by intros ->).
  set (s' := set_log (history s1) (ended s1 ++ [(ticket r, false)]) s1).
  pose proof (in_contents _ _ _ Hinv) as Hc. cbn [nodes set_up failing app] in Hc. rewrite Hfl in Hc.
  pose proof (pop_contents s a r _ k false Hc Hr ltac:(done)) as Hc'. cbn [negb] in Hc'.
  eexists s', (Fail0 a er (FNext (hd o fs) rc)), None, [], acc, (VOwned i fs o Null [] [] back (k - 1) true).
  split; [rewrite Hp; cbn [pstep Return_step]; rewrite Hr; cbn [mbind option_bind]; rewrite Hnx, Hst; done|]. split; [done|].
  assert (forall b, b ∈ fs ++ o :: back -> core s' b = core s b) as Hcore by (intros b Hb; by apply core_heap, Hnodes).
  split; cbn [nodes set_up failing app]; try done.
  - apply (shape_owner s _ _ _ p _ (a :: fs) o Null [] [] back k fl); try done; [apply Hinv|]. cbn [s' set_log _write_head]. rewrite ab_head0.
    apply (owned_ext (load_next s) _ (wait ths)); [|done|done]. intros b Hb. unfold load_next. by rewrite <- (Hnodes b Hb).
  - apply (threads_touch s ths i p (a :: fs) o Null [] [] back k fl Hinv Hi); try done.
    + intros b. cbn [s' set_log heap]. destruct (decide (b = a)) as [->|Hb]; [right|left; by apply Hh]. split; [left|]. left. by rewrite Hload.
    + intros b Hb. cbn [s' set_log heap]. destruct (decide (b = a)) as [->|Hba]; [by rewrite Hr'|by rewrite Hh].
    + cbn [app]. set_solver.
    + intros b. cbn [app]. rewrite elem_of_cons. intros [->|?]; [right|by left]. by rewrite Hload.
    + cbn [tok]. split; [done|]. split; [|by exists r']. cbn [s' set_log pooled]. rewrite ab_pooled0. apply (node_alive s ths _ Hinv). cbn [nodes app]. set_solver.
    + intros b [= <-]. split; [cbn [app]; set_solver|]. by rewrite Hload.
  - refine (contents_frame _ s' _ _ _ _ _ _ _ Hc'); try done. cbn [s' set_log ended]. by rewrite ab_ended0.
  - destruct (in_accounts _ _ _ Hinv) as [Hu _]. rewrite pop_sum in Hu. split; [|by left]. cbn [s' set_log _unwritten_bytes].
    rewrite (ab_unwritten0 _ Hu), (core_sum s s') by done. f_equal. lia.
Qed.
End Pop.

(** The owner has one request, as far as it knows. *)
Section Last.
Context (e : env) (s : Socket) (ths : list pc) (i : nat) (p : pc).
Context (o : addr) (back : list addr) (k : nat) (fl : bool).
Abbreviation w := (VOwned i [] o Null [] [] back k fl).
Hypothesis Hinv : invw s ths w.
Hypothesis Hi : ths !! i = Some p.
Hypothesis Hdue : due = 0.

Lemma last_facts : exists r, heap s !! o = Some r /\ next r = Null /\ owned (load_next s) (wait ths) (_write_head s) [] o Null [] [] back /\
  orel s p [] o Null [] [] k fl.
Proof.
  destruct (owner_rel s ths i p _ _ _ _ _ _ _ _ Hinv Hi) as [Hrel Ho]. pose proof (ow_last _ _ _ _ _ _ _ _ _ Ho) as Hl. unfold load_next in Hl.
  destruct (heap s !! o) as [r|] eqn:Hr; [|done]. exists r. split; [done|]. injection Hl as Hl. done.
Qed.
Lemma step_skip_last req tail : p = KSkip req tail -> stepped e s ths i p.
Proof.
  intros Hp. destruct last_facts as (r & Hr & Hnx & _ & Hrel). rewrite Hp in Hrel. cbn [orel hd] in Hrel. destruct Hrel as (Hcalm & <- & Htl).
  apply (move e s ths i p _ _ _ _ _ _ _ _ Hinv Hi s (KWrite o tail) None); try done. rewrite Hp. cbn [pstep KeepWrite_step]. rewrite Hr. cbn [mbind option_bind]. by rewrite Hnx.
Qed.
Lemma step_krelease_last req tail wt : p = KRelease req tail wt -> stepped e s ths i p.
Proof.
  intros Hp. destruct last_facts as (r & Hr & Hnx & _ & Hrel). rewrite Hp in Hrel. cbn [orel hd] in Hrel. destruct Hrel as (Hcalm & <- & Htl).
  apply (move e s ths i p _ _ _ _ _ _ _ _ Hinv Hi s (KWait o tail wt) None); try done. rewrite Hp. cbn [pstep KeepWrite_step]. rewrite Hr. cbn [mbind option_bind]. by rewrite Hnx.
Qed.
Lemma step_release1_last req er rc : p = Release1 req er rc -> stepped e s ths i p.
Proof.
  intros Hp. destruct last_facts as (r & Hr & Hnx & _ & Hrel). rewrite Hp in Hrel. cbn [orel hd] in Hrel. destruct Hrel as (_ & _ & _ & Hfl & <-).
  apply (move e s ths i p _ _ _ _ _ _ _ _ Hinv Hi s (Release2 o er rc) None); try done. rewrite Hp. cbn [pstep Return_step]. rewrite Hr. cbn [mbind option_bind]. by rewrite Hnx.
Qed.
(** The last request is emptied. *)
Lemma step_release2 req er rc : p = Release2 req er rc -> stepped e s ths i p.
Proof.
  intros Hp. destruct last_facts as (r & Hr & Hnx & Ho & Hrel). rewrite Hp in Hrel. cbn [orel hd] in Hrel. destruct Hrel as (_ & _ & _ & Hfl & _ & Hreq). subst req.
  destruct (abandon_spec s o r Hr) as (s' & acc & r' & Hst & Hacc & [Hh Hd Hu Hn Htk Hpl Hhd Hw Hhi He Hun]). rewrite Hnx in Hn.
  assert (forall b, b <> o -> heap s' !! b = heap s !! b) as Hoth by (intros b Hb; by rewrite Hh, lookup_insert_ne).
  assert (heap s' !! o = Some r') as Ho' by (by rewrite Hh, lookup_insert_eq).
  assert (forall b, load_next s' b = load_next s b) as Hload.
  { intros b. unfold load_next. destruct (decide (b = o)) as [->|Hb]; [rewrite Ho', Hr; cbn; congruence|by rewrite Hoth]. }
  pose proof (ow_nodup _ _ _ _ _ _ _ _ _ Ho) as Hnd. cbn [app] in Hnd. apply NoDup_cons in Hnd as [Hob _].
  assert (forall b, b ∈ back -> core s' b = core s b) as Hcore by (intros b Hb; apply core_heap, Hoth; by intros ->).
  pose proof (in_contents _ _ _ Hinv) as Hc. cbn [nodes set_up failing app] in Hc. rewrite Hfl in Hc.
  eexists s', (Complete0 (InRelease er rc) o true), None, [], acc, (VOwned i [] o Null [] [] back k true).
  split; [rewrite Hp; cbn [pstep Return_step]; by rewrite Hst|]. split; [done|]. split; cbn [nodes set_up failing app]; try done.
  - apply (shape_owner s _ _ _ p _ [] o Null [] [] back k fl); try done; [apply Hinv|]. rewrite Hhd. by apply (owned_ext (load_next s) _ (wait ths)).
  - apply (threads_touch s ths i p [] o Null [] [] back k fl Hinv Hi); try done.
    + intros b. destruct (decide (b = o)) as [->|Hb]; [right|left; by apply Hoth]. split; [left|]. left. unfold load_next. rewrite Hr. cbn. congruence.
    + intros b Hb. destruct (decide (b = o)) as [->|Hbo]; [by rewrite Ho'|by rewrite Hoth].
    + intros b. by left.
  - assert (pending s' = pending s) as Hpe by (unfold pending; by rewrite Hhi, He). destruct Hc as [H1 H2 H3 H4 (ws & V & H5 & H6 & H7)].
    split; rewrite ?Hhi, ?He, ?Hw, ?Hpe; try done.
    + apply Forall2_cons_inv_l in H2 as (h & hs & _ & H2 & ->). constructor.
      * exists r'. split; [done|]. rewrite Hu, Hd. apply suffix_nil.
      * apply Forall2_same_length_lookup. split; [by eapply Forall2_length|]. intros j b x Hb Hx. apply (core_holds s); [apply Hcore; by eapply list_elem_of_lookup_2|].
        apply (Forall2_lookup_lr _ _ _ _ _ _ H2 Hb Hx).
    + intros j b r0 Hj Hr0. destruct (decide (b = o)) as [->|Hb].
      * rewrite Ho' in Hr0. simplify_eq. rewrite Htk. by apply (H3 j o).
      * rewrite Hoth in Hr0 by done. by apply (H3 j b).
    + exists ws, V. split; [done|]. split; [done|]. unfold progress in *. by rewrite Hpe.
  - destruct (in_accounts _ _ _ Hinv) as [Hacc' _]. split; [|by left]. cbn [nodes app sum] in Hacc' |- *. rewrite (Hun _ Hacc').
    assert (counted s' o = 0) as -> by (unfold counted; by rewrite Ho', Hu, Hd). rewrite (core_sum s s') by done. f_equal. lia.
Qed.

Lemma contents_empty s1 k1 : contents s1 [] k1 true -> contents s1 [] 0 false.
Proof.
  intros [H1 H2 H3 H4 (ws & V & H5 & H6 & H7)]. split; try done. exists ws, V. split; [done|]. split; [done|]. apply Forall2_nil_inv_l in H2. unfold progress in *.
  rewrite H2 in *. apply prefix_nil_inv in H7 as ->. by split.
Qed.
(** The compare-exchange succeeds with a request that is finished. *)
Lemma step_close c sg r : p = Complete0 c o sg -> back = [] -> heap s !! o = Some r -> data r = [] -> sg = true -> stepped e s ths i p.
Proof.
  intros Hp Hb Hr Hd Hsg. destruct last_facts as (r0 & Hr0 & Hnx & Ho & Hrel). rewrite Hr in Hr0. injection Hr0 as <-. rewrite Hp in Hrel. cbn [orel hd] in Hrel.
  destruct Hrel as (_ & _ & _ & _ & Hca & _). rewrite Hb in *.
  pose proof (in_contents _ _ _ Hinv) as Hc. cbn [nodes set_up failing app] in Hc.
  set (ok := negb (releasing c)). set (s1 := set_write_head None s). set (s' := set_log (history s) (ended s ++ [(ticket r, ok)]) s1).
  assert (exists p', is_owner p' = false /\ tnode p' = Some o /\ (forall t l', (o ∉ l') -> (o ∉ pooled t) -> heap t !! o = Some r -> tok t l' p') /\ (forall a b, p' <> WLink a b) /\
    pstep e s p = Some (s', p', None, [], [])) as (p' & Hno & Htn & Htok & Hnl & Hst).
  { pose proof (ow_head _ _ _ _ _ _ _ _ _ Ho) as Hh. cbn in Hh. destruct c; cbn [caller hd] in Hca; destruct_and?.
    - exists (Success0 o RDone). split; [done|]. split; [done|]. split; [|split; [done|]].
      + intros t l' ? ? ?. split; [done|]. split; [done|]. by exists r.
      + rewrite Hp. cbn [pstep IsWriteComplete_step]. rewrite Hr. cbn [mbind option_bind]. rewrite Hd, Hsg. cbn [negb]. by rewrite decide_True.
    - exists (Success0 o RDone). split; [done|]. split; [done|]. split; [|split; [done|]].
      + intros t l' ? ? ?. split; [done|]. split; [done|]. by exists r.
      + rewrite Hp. cbn [pstep IsWriteComplete_step]. rewrite Hr. cbn [mbind option_bind]. rewrite Hd, Hsg. cbn [negb]. rewrite decide_True by done. cbn [complete]. by subst.
    - exists (Release3 o e0 rc). split; [done|]. split; [done|]. split; [|split; [done|]].
      + intros t l' ? ? ?. split; [done|]. split; [done|]. by exists r.
      + rewrite Hp. cbn [pstep IsWriteComplete_step]. rewrite Hr. cbn [mbind option_bind]. rewrite Hd, Hsg. cbn [negb]. by rewrite decide_True. }
  eexists s', p', None, [], [], VEmpty. split; [done|]. split; [done|].
  assert (contents s' [] 0 false) as Hc'.
  { assert (fl = negb ok) as Hfl by (unfold ok; destruct c; cbn [caller releasing negb] in *; destruct_and?; by subst). rewrite Hfl in Hc.
    pose proof (pop_contents s o r [] k ok Hc Hr) as Hpop. unfold ok in *. destruct c; cbn [caller releasing negb] in *; destruct_and?.
    - assert (contents (set_log (history s) (ended s ++ [(ticket r, true)]) s) [] 0 false) as Hres by (subst k; apply Hpop; intros _; split; [done|lia]).
      refine (contents_frame _ s' _ _ _ _ _ _ _ Hres); done.
    - assert (contents (set_log (history s) (ended s ++ [(ticket r, true)]) s) [] 0 false) as Hres by (subst k; apply Hpop; intros _; split; [done|cbn; lia]).
      refine (contents_frame _ s' _ _ _ _ _ _ _ Hres); done.
    - assert (contents (set_log (history s) (ended s ++ [(ticket r, false)]) s) [] 0 false) as Hres by (eapply contents_empty, Hpop; done).
      refine (contents_frame _ s' _ _ _ _ _ _ _ Hres); done. }
  split; cbn [nodes set_up failing]; try done.
  - split; [done|]. intros j q. rewrite app_nil_r, list_lookup_insert_Some. intros [(_ & <- & _)|[Hne Hj]]; [done|].
    destruct (is_owner q) eqn:Hq; [|done]. destruct (in_shape _ _ _ Hinv) as (_ & _ & Huniq). destruct Hne. symmetry. by apply (Huniq j q).
  - apply (threads_touch s ths i p [] o Null [] [] [] k fl Hinv Hi); try done.
    + by left.
    + intros b []%elem_of_nil.
    + intros b. cbn [app]. rewrite list_elem_of_singleton. intros ->. right. unfold load_next. rewrite Hr. cbn. congruence.
    + apply Htok; try done; [by intros ?%elem_of_nil|]. apply (node_alive s ths _ Hinv). cbn [nodes app]. left.
    + intros b. rewrite Htn. intros [= <-]. split; [left|]. unfold load_next. rewrite Hr. cbn. congruence.
  - destruct (in_accounts _ _ _ Hinv) as [Hacc _]. split; [|by left]. cbn [nodes app sum] in *.
    assert (counted s o = 0) as H0 by (unfold counted; rewrite Hr, Hd; by destruct (user_message r)). by rewrite H0 in Hacc.
Qed.
End Last.

Lemma step_complete0 e s ths i p fs o back k fl c sg :
  invw s ths (VOwned i fs o Null [] [] back k fl) -> ths !! i = Some p -> due = 0 -> p = Complete0 c o sg -> stepped e s ths i p.
Proof.
  intros Hinv Hi Hdue Hp. destruct (owner_rel s ths i p _ _ _ _ _ _ _ _ Hinv Hi) as [Hrel Ho]. rewrite Hp in Hrel. cbn [orel] in Hrel.
  destruct Hrel as (_ & _ & _ & _ & Hca & Hsg). destruct (node_request s ths i fs o Null [] [] back k fl Hinv o) as [r Hr]; [set_solver|].
  destruct (decide (_write_head s = Some o)) as [Hhd|Hhd].
  - pose proof Ho as Ho'. rewrite Hhd in Ho'. apply owned_alone in Ho' as Hb.
    destruct (match data r with [] => negb sg | _ => true end) eqn:Hun.
    + apply (move e s ths i p _ _ _ _ _ _ _ _ Hinv Hi s (incomplete c o o) None); try done; destruct c; cbn [incomplete orel caller is_owner tnode tok] in *; destruct_and?; subst; try done.
      * split; [done|]. split; [done|]. by right.
      * cbn [pstep IsWriteComplete_step]. rewrite Hr. cbn [mbind option_bind]. by rewrite Hun, decide_True.
      * cbn [pstep IsWriteComplete_step]. rewrite Hr. cbn [mbind option_bind]. by rewrite Hun, decide_True.
      * cbn [pstep IsWriteComplete_step]. rewrite Hr. cbn [mbind option_bind]. by rewrite Hun, decide_True.
    + destruct (data r) eqn:Hd; [|done]. destruct sg eqn:Hsg'; [|done].
      assert (fs = []) as Hfs. { destruct c; cbn [caller singular_ok] in *; destruct_and?; try done. symmetry in Hsg. by apply bool_decide_eq_true in Hsg. }
      rewrite Hfs in Hinv. by apply (step_close e s ths i p o back k fl Hinv Hi Hdue c true r).
  - pose proof (ow_head _ _ _ _ _ _ _ _ _ Ho) as Hh. cbn [app] in Hh. destruct back as [|q t _] using rev_ind; [done|]. rewrite top_snoc in Hh.
    exists s, (Complete1 c o q q Null), None, [], [], (VOwned i fs o Null (t ++ [q]) [] [] k fl). split.
    { rewrite Hp. cbn [pstep IsWriteComplete_step]. rewrite Hr. cbn [mbind option_bind]. rewrite decide_False by done. by rewrite Hh. }
    split; [done|]. assert (nodes (VOwned i fs o Null (t ++ [q]) [] [] k fl) = fs ++ o :: t ++ [q]) as Hn by (cbn [nodes app]; by rewrite app_nil_r).
    destruct Hinv as [H1 H2 H3 H4]. cbn [nodes set_up failing app] in H2, H3, H4. split; rewrite ?Hn; try done.
    + apply (shape_owner s s _ _ p _ fs o Null [] [] (t ++ [q]) k fl); try done; [by apply owned_take|].
      cbn [orel]. do 3 (split; [done|]). exists t. split; [done|]. split; [done|]. by rewrite app_nil_r, top_snoc.
    + apply (threads_update s s _ (fs ++ o :: t ++ [q])); try done; [by eapply lookup_lt_Some|]. apply (th_pool _ _ _ H2).
Qed.
(** The owner returns a request that it has skipped. *)
Lemma step_success e s ths i p fs o lo todo rev back k fl a kk :
  invw s ths (VOwned i fs o lo todo rev back k fl) -> ths !! i = Some p -> p = Success0 a kk -> kk <> RDone -> stepped e s ths i p.
Proof.
  intros Hinv Hi Hp Hkk. destruct (owner_rel s ths i p _ _ _ _ _ _ _ _ Hinv Hi) as [Hrel Ho]. rewrite Hp in Hrel.
  pose proof (th_ok _ _ _ (in_threads _ _ _ Hinv) i p Hi) as Hok. rewrite Hp in Hok. destruct Hok as (Hal & Hap & r & Hr & Hd).
  set (s' := set_pooled (pooled s ∪ {[a]}) s).
  exists s', (Success1 a (id_wait r) kk), None, [], [], (VOwned i fs o lo todo rev back k fl). split; [rewrite Hp; cbn [pstep Return_step]; by rewrite Hr|]. split; [done|]. split.
  - apply (shape_owner s s' _ _ p _ fs o lo todo rev back k fl); try done; [apply Hinv|by destruct kk].
  - apply (pool_threads s ths _ i Hinv s' p _ a r); try done; [by rewrite Hp|]. cbn [tok s' set_pooled heap]. by rewrite Hr.
  - apply (contents_frame s); try done; apply Hinv.
  - apply (accounts_frame s); try done; apply Hinv.
Qed.
(** The owner returns a request that has failed. *)
Lemma step_fail e s ths i p fs o lo todo rev back k fl a er req rc :
  invw s ths (VOwned i fs o lo todo rev back k fl) -> ths !! i = Some p -> p = Fail0 a er (FNext req rc) -> stepped e s ths i p.
Proof.
  intros Hinv Hi Hp. destruct (owner_rel s ths i p _ _ _ _ _ _ _ _ Hinv Hi) as [Hrel Ho]. rewrite Hp in Hrel.
  pose proof (th_ok _ _ _ (in_threads _ _ _ Hinv) i p Hi) as Hok. rewrite Hp in Hok. destruct Hok as (Hal & Hap & r & Hr & Hd).
  set (s' := set_pooled (pooled s ∪ {[a]}) s).
  exists s', (Release1 req er rc), None, [], (if id_wait r =? INVALID_BTHREAD_ID then [] else [ASignal (id_wait r) er]), (VOwned i fs o lo todo rev back k fl).
  split; [rewrite Hp; cbn [pstep Return_step]; by rewrite Hr|]. split; [by case_match|]. split.
  - by apply (shape_owner s s' _ _ p _ fs o lo todo rev back k fl); [apply Hinv|..].
  - by apply (pool_threads s ths _ i Hinv s' p _ a r); [|rewrite Hp|..].
  - apply (contents_frame s); try done; apply Hinv.
  - apply (accounts_frame s); try done; apply Hinv.
Qed.
End Inv.
End SocketWriteInv.
