(* ===== verification/SocketWriteSteps.v ===== *)
(** * Every step of the write path keeps the invariant

    The calls of writev, which take bytes from the front of the requests that are set
    up, and the invariant of all states that schedules reach. *)
From stdpp Require Import base list gmap sets.
From Stdlib Require Import ZArith Lia Bool.
From S2P Require Import Prelude PushList IOBufWriter SocketWrite SocketWriteInv.

Open Scope Z_scope.

Module SocketWriteSteps.
Import PushList SocketWrite SocketWriteInv.

(** ** Taking bytes from the front of requests *)
Lemma pop_suffix ds n : Forall2 suffix (IOBufWriter.pop_strings ds n) ds.
Proof. revert n. induction ds as [|d ds IH]; intros n; constructor; [apply suffix_drop|apply IH]. Qed.
Lemma store_all_other l h b : b ∉ l.*1 -> store_all l h !! b = h !! b.
Proof.
  induction l as [|[a d] l IH]; [done|]. cbn. intros Hb. rewrite lookup_alter_ne by set_solver. apply IH. set_solver.
Qed.
Lemma store_all_at l h a d r : NoDup (l.*1) -> (a, d) ∈ l -> h !! a = Some r -> store_all l h !! a = Some (set_data d r).
Proof.
  induction l as [|[b c] l IH]; [by intros _ ?%elem_of_nil|]. cbn. intros [Hb Hnd]%NoDup_cons [[= <- <-]|Hin]%elem_of_cons Hr.
  - rewrite lookup_alter_eq. fold (store_all l h). by rewrite store_all_other, Hr.
  - rewrite lookup_alter_ne; [by apply IH|]. intros ->. apply Hb. apply list_elem_of_fmap. by exists (a, d).
Qed.
Lemma sum_is_set s l : Forall (is_set s) l -> sum s l = size (mjoin (dat s <$> l)).
Proof.
  induction 1 as [|a l (r & Hr & Hm) _ IH]; [done|]. cbn [sum fmap list_fmap mjoin list_join]. rewrite size_app, IH.
  unfold counted, dat. by rewrite Hr, Hm.
Qed.
Lemma sum_unset s l : Forall (unset s) l -> sum s l = 0.
Proof. induction 1 as [|a l (r & Hr & [x Hx]) _ IH]; [done|]. cbn [sum]. rewrite IH. unfold counted. by rewrite Hr, Hx. Qed.

Section Cut.
Context (s : Socket) (l : list addr) (n : Z).
Abbreviation ds := (dat s <$> l).
Abbreviation nw := (Z.max 0 (Z.min n (size (mjoin ds)))).
Abbreviation s' := (cut_into_fd l n s).2.
Hypothesis Hnd : NoDup l.
Hypothesis Halive : forall a, a ∈ l -> is_Some (heap s !! a).

Lemma cut_dats : ((fun a => default [] (data <$> heap s !! a)) <$> l) = ds.
Proof. apply list_fmap_ext. intros j a _. unfold dat. by destruct (heap s !! a). Qed.
Lemma cut_result : cut_into_fd l n s = (nw, s').
Proof. unfold cut_into_fd. by rewrite cut_dats. Qed.
Lemma cut_fst : (zip l (IOBufWriter.pop_strings ds nw)).*1 = l.
Proof. apply fst_zip. pose proof (Forall2_length _ _ _ (pop_suffix ds nw)) as Hlen. rewrite length_fmap in Hlen. lia. Qed.
Lemma cut_heap : heap s' = store_all (zip l (IOBufWriter.pop_strings ds nw)) (heap s).
Proof. unfold cut_into_fd. by rewrite cut_dats. Qed.
Lemma cut_wire : wire s' = wire s ++ take (Z.to_nat nw) (mjoin ds).
Proof. unfold cut_into_fd. by rewrite cut_dats. Qed.
Lemma cut_other b : b ∉ l -> heap s' !! b = heap s !! b.
Proof. intros Hb. rewrite cut_heap. apply store_all_other. by rewrite cut_fst. Qed.
Lemma cut_at j a r : l !! j = Some a -> heap s !! a = Some r ->
  exists d, IOBufWriter.pop_strings ds nw !! j = Some d /\ d `suffix_of` data r /\ heap s' !! a = Some (set_data d r).
Proof.
  intros Hj Hr. assert (ds !! j = Some (data r)) as Hdj by (rewrite list_lookup_fmap, Hj; cbn; unfold dat; by rewrite Hr).
  destruct (Forall2_lookup_r _ _ _ _ _ (pop_suffix ds nw) Hdj) as (d & Hd & Hsuf). exists d. split; [done|]. split; [done|].
  rewrite cut_heap. apply store_all_at; [by rewrite cut_fst| |done]. apply list_elem_of_lookup_2 with j.
  rewrite lookup_zip_with, Hj, Hd. done.
Qed.
Lemma cut_request a r : heap s !! a = Some r -> exists d, d `suffix_of` data r /\ heap s' !! a = Some (set_data d r).
Proof.
  intros Hr. destruct (decide (a ∈ l)) as [[j Hj]%list_elem_of_lookup|Ha].
  - destruct (cut_at j a r Hj Hr) as (d & _ & ? & ?). by exists d.
  - exists (data r). split; [done|]. rewrite cut_other by done. rewrite Hr. by destruct r.
Qed.
Lemma cut_dat : dat s' <$> l = IOBufWriter.pop_strings ds nw.
Proof.
  apply list_eq. intros j. rewrite list_lookup_fmap. destruct (l !! j) as [a|] eqn:Hj; cbn [fmap option_fmap option_map].
  - destruct (Halive a) as [r Hr]; [by eapply list_elem_of_lookup_2|]. destruct (cut_at j a r Hj Hr) as (d & Hd & _ & Hh).
    rewrite Hd. unfold dat at 1. by rewrite Hh.
  - symmetry. apply lookup_ge_None. apply lookup_ge_None in Hj. pose proof (Forall2_length _ _ _ (pop_suffix ds nw)) as Hlen. rewrite length_fmap in Hlen. lia.
Qed.
Lemma cut_load b : load_next s' b = load_next s b.
Proof.
  unfold load_next. destruct (heap s !! b) as [r|] eqn:Hr.
  - by destruct (cut_request b r Hr) as (d & _ & ->).
  - rewrite cut_other, Hr; [done|]. intros Hb. destruct (Halive b Hb). congruence.
Qed.
Lemma cut_is_set b : is_set s b -> is_set s' b.
Proof. intros (r & Hr & Hm). destruct (cut_request b r Hr) as (d & _ & Hh). by exists (set_data d r). Qed.
End Cut.

(** The requests that [DoWrite] gathers are the first ones of the list. *)
Lemma data_list_spec n s fs o : chain (load_next s) fs (To o) -> load_next s o = Some Null ->
  exists m sh, data_list n s (hd o fs) = Some (take m (fs ++ [o]), sh).
Proof.
  revert fs. induction n as [|n IH]; intros fs Hf Ho; [by exists 0%nat, false|]. cbn [data_list].
  assert (exists r, heap s !! hd o fs = Some r /\ next r = first (tail fs) (match fs with [] => Null | _ => To o end)) as (r & Hr & Hnx).
  { destruct fs as [|a fs]; cbn [hd tail first] in *; [|destruct Hf as [Ho' _]; rename Ho into Hx, Ho' into Ho]; unfold load_next in Ho;
      [destruct (heap s !! o) as [r|]|destruct (heap s !! a) as [r|]]; try done; exists r; split; try done; by injection Ho. }
  rewrite Hr. cbn [mbind option_bind]. destruct (need_shutdown_write r).
  - exists 1%nat, true. by destruct fs.
  - rewrite Hnx. destruct fs as [|a fs]; cbn [hd tail first]; [by exists 1%nat, false|].
    destruct (IH fs (proj2 Hf) Ho) as (m & sh & Heq). exists (S m), sh.
    replace (first fs (To o)) with (To (hd o fs)) by by destruct fs. by rewrite Heq.
Qed.

Section Write.
Context (s : Socket) (l : list addr) (k m : nat) (n : Z).
Abbreviation wl := (take m l).
Abbreviation nw := (Z.max 0 (Z.min n (size (mjoin (dat s <$> wl))))).
Abbreviation s' := (cut_into_fd wl n s).2.
Hypothesis Hc : contents s l k false.
Hypothesis Hnd : NoDup l.
Hypothesis Hm : (m <= k)%nat.

Lemma written_nodup : NoDup wl.
Proof. rewrite <- (take_drop m l) in Hnd. by apply NoDup_app in Hnd as [? _]. Qed.
Lemma written_alive a : a ∈ wl -> is_Some (heap s !! a).
Proof.
  intros Ha. assert (a ∈ l) as [j Hj]%list_elem_of_lookup by (rewrite <- (take_drop m l); set_solver).
  destruct (Forall2_lookup_l _ _ _ _ _ (ct_holds _ _ _ _ Hc) Hj) as (h & _ & r & Hr & _). by rewrite Hr.
Qed.
Lemma written_set : Forall (is_set s) (take k l).
Proof. by destruct (ct_wire _ _ _ _ Hc) as (? & ? & _ & _ & _ & _ & ? & _). Qed.
Lemma written_drop a : a ∈ drop m l -> heap s' !! a = heap s !! a.
Proof.
  intros Ha. apply (cut_other s wl n). rewrite <- (take_drop m l) in Hnd. apply NoDup_app in Hnd as (_ & Hd & _). intros Hw. by apply (Hd a).
Qed.
Lemma written_dat : mjoin (dat s' <$> take k l) = drop (Z.to_nat nw) (mjoin (dat s <$> take k l)).
Proof.
  replace (take k l) with (wl ++ take (k - m) (drop m l)).
  2:{ rewrite <- (take_drop m (take k l)), take_take, Nat.min_l, skipn_firstn_comm by lia. done. }
  rewrite !fmap_app, !join_app. change (dat s' <$> wl) with (dat (cut_into_fd wl n s).2 <$> wl).
  rewrite (cut_dat s wl n written_nodup written_alive), IOBufWriter.pop_strings_join by lia. rewrite drop_app_le; [|unfold size; lia].
  do 2 f_equal. apply list_fmap_ext. intros j a Ha. unfold dat. rewrite written_drop; [done|].
  apply list_elem_of_lookup_2 in Ha. rewrite <- (take_drop (k - m) (drop m l)). set_solver.
Qed.
Lemma written_take : take (Z.to_nat nw) (mjoin (dat s <$> take k l)) = take (Z.to_nat nw) (mjoin (dat s <$> wl)).
Proof.
  replace (take k l) with (wl ++ take (k - m) (drop m l)).
  2:{ rewrite <- (take_drop m (take k l)), take_take, Nat.min_l, skipn_firstn_comm by lia. done. }
  rewrite fmap_app, join_app, take_app_le; [done|unfold size; lia].
Qed.
Lemma written_contents : contents s' l k false.
Proof.
  destruct Hc as [H1 H2 H3 H4 (ws & V & H5 & H6 & H7)]. split; try done.
  - apply Forall2_same_length_lookup. split; [by eapply Forall2_length|]. intros j a h Ha Hh.
    destruct (Forall2_lookup_lr _ _ _ _ _ _ H2 Ha Hh) as (r & Hr & Hu). destruct (decide (a ∈ wl)) as [Hw|Hw].
    + destruct (cut_request s wl n written_nodup a r Hr) as (d & Hd & Hr'). exists (set_data d r). split; [done|]. cbn [set_data user_message data].
      assert (is_set s a) as (r0 & Hr0 & Hu0).
      { apply (proj1 (Forall_forall _ _) written_set). rewrite <- (take_drop m (take k l)), take_take, Nat.min_l by lia. set_solver. }
      rewrite Hr in Hr0. injection Hr0 as <-. rewrite Hu0 in *. by transitivity (data r).
    + exists r. split; [|done]. rewrite <- Hr. by apply (cut_other s wl n).
  - intros j a r Ha Hr. destruct (Forall2_lookup_l _ _ _ _ _ H2 Ha) as (h & _ & r0 & Hr0 & _).
    destruct (cut_request s wl n written_nodup a r0 Hr0) as (d & Hd & Hr'). change (heap s' !! a) with (heap (cut_into_fd wl n s).2 !! a) in Hr.
    rewrite Hr' in Hr. injection Hr as <-. exact (H3 j a r0 Ha Hr0).
  - exists ws, (V ++ take (Z.to_nat nw) (mjoin (dat s <$> wl))). split; [|split; [done|]].
    { change (wire s') with (wire (cut_into_fd wl n s).2). by rewrite cut_wire, H5, app_assoc. }
    destruct H7 as (Hk & Heq & Hset & Hun). split; [done|]. split; [|split].
    + rewrite written_dat, <- written_take, <- app_assoc, take_drop. done.
    + apply (Forall_impl _ _ _ Hset). intros a. apply (cut_is_set s wl n written_nodup).
    + apply Forall_forall. intros a Ha. apply (core_unset s); [|by apply (proj1 (Forall_forall _ _) Hun)]. apply core_heap, written_drop.
      rewrite <- (take_drop (k - m) (drop m l)), drop_drop. replace (m + (k - m))%nat with k by lia. set_solver.
Qed.
Lemma written_sum : 0 <= nw <= sum s l /\ sum s' l = sum s l - nw.
Proof.
  pose proof (contents_sum _ _ _ _ Hc) as Hb. pose proof (ct_wire _ _ _ _ written_contents) as (? & ? & _ & _ & _ & _ & Hset' & _).
  assert (sum s (drop k l) = 0 /\ sum s' (drop k l) = 0) as [Hd Hd'].
  { pose proof (ct_wire _ _ _ _ Hc) as (? & ? & _ & _ & _ & _ & _ & Hun). pose proof (ct_wire _ _ _ _ written_contents) as (? & ? & _ & _ & _ & _ & _ & Hun').
    split; by apply sum_unset. }
  assert (forall t, sum t l = sum t (take k l) + sum t (drop k l)) as Hsplit by (intros t; by rewrite <- sum_app, take_drop).
  rewrite !Hsplit, Hd, Hd', (sum_is_set s), (sum_is_set s'), written_dat by (done || apply written_set).
  assert (size (mjoin (dat s <$> wl)) <= size (mjoin (dat s <$> take k l))).
  { rewrite <- (take_drop m (take k l)), take_take, Nat.min_l, fmap_app, join_app, size_app by lia. pose proof (size_nonneg (mjoin (dat s <$> drop m (take k l)))). lia. }
  pose proof (size_nonneg (mjoin (dat s <$> wl))). split; [lia|]. unfold size at 1. rewrite length_drop. unfold size in *. lia.
Qed.
(** What was written is still counted. *)
Lemma written_accounts : accounts 0 s l -> accounts nw s' l.
Proof.
  intros [Hu _]. destruct written_sum as [Hn Heq]. pose proof (sum_bound _ _ _ (ct_holds _ _ _ _ Hc)) as Hb. unfold accounts. rewrite Heq. split.
  - change (_unwritten_bytes s') with (_unwritten_bytes s). rewrite Hu. f_equal. lia.
  - right. split; [lia|]. change (pending s') with (pending s). lia.
Qed.
End Write.

(** ** Every step of every thread *)
Section Steps.
Context (max_unwritten : Z).
Abbreviation stepped := (stepped max_unwritten).
Abbreviation pstep := (pstep max_unwritten).
Implicit Types (e : env) (s : Socket) (ths : list pc) (i : nat) (p : pc) (w : view) (due : Z).

Lemma write_inv s ths i p p' fs o back k n m :
  invw 0 s ths (VOwned i fs o Null [] [] back k false) -> ths !! i = Some p -> k = S (length fs) ->
  is_owner p' = true -> tnode p' = None -> (forall t l, tok t l p') -> (forall t, orel t p' fs o Null [] [] k false) ->
  let cut := cut_into_fd (take m (fs ++ [o])) n s in
  0 <= cut.1 /\ invw cut.1 cut.2 (<[i := p']> ths ++ []) (VOwned i fs o Null [] [] back k false).
Proof.
  intros Hinv Hi Hk Ho' Hn Ht Hr. cbn zeta. destruct (owner_rel 0 s ths i p _ _ _ _ _ _ _ _ Hinv Hi) as [_ Ho].
  pose proof (in_contents _ _ _ _ Hinv) as Hc. pose proof (in_accounts _ _ _ _ Hinv) as Hacc. cbn [nodes set_up failing app] in Hc, Hacc.
  pose proof (ow_nodup _ _ _ _ _ _ _ _ _ Ho) as Hnd. cbn [app] in Hnd.
  replace (take m (fs ++ [o])) with (take (m `min` k) (fs ++ o :: back)).
  2:{ rewrite cons_middle, app_assoc, <- take_take. f_equal. apply take_app_length'. rewrite length_app. cbn. lia. }
  rewrite cut_result. cbn [fst snd]. split; [lia|]. assert (m `min` k <= k)%nat as Hm by lia.
  pose proof (written_alive s _ k (m `min` k) Hc Hnd Hm) as Hal. pose proof (written_nodup _ (m `min` k) Hnd) as Hnd'.
  split; cbn [nodes set_up failing app].
  - apply (shape_owner s _ _ _ p _ fs o Null [] [] back k false); try done; [apply Hinv|].
    apply (owned_ext (load_next s) _ (wait ths)); [|done|done]. intros b _. by apply (cut_load s _ n Hnd' Hal).
  - apply (threads_touch 0 s ths i p fs o Null [] [] back k false Hinv Hi); try done.
    + intros b. destruct (decide (b ∈ take (m `min` k) (fs ++ o :: back))) as [Hb|Hb]; [right|left; by apply (cut_other s _ n)].
      assert (b ∈ fs ++ [o]) as Hbf.
      { rewrite cons_middle, app_assoc, take_app_le in Hb by (rewrite length_app; cbn; lia). rewrite <- (take_drop (m `min` k) (fs ++ [o])). set_solver. }
      destruct (front_node 0 s ths i p fs o Null [] [] back k false Hinv Hi eq_refl b Hbf eq_refl) as (x & r & Hx & Hxu & _ & _ & Hbl). split; [done|]. left. congruence.
    + intros b [r Hb]. destruct (cut_request s _ n Hnd' b r Hb) as (d & _ & Hd). by exists (set_data d r).
    + intros b Hb. by left.
    + intros b. rewrite Hn. done.
  - by apply written_contents.
  - by apply (written_accounts s _ k).
Qed.
(** The owner writes, and owes the subtraction. *)
Definition writes e s ths i p : Prop :=
  exists s' p' n w', pstep e s p = Some (s', p', None, [], [ACancel n]) /\ 0 <= n /\ is_owner p' = true /\ invw n s' (<[i := p']> ths ++ []) w'.
Lemma step_once e s ths i p fs o lo todo rev back k fl a :
  invw 0 s ths (VOwned i fs o lo todo rev back k fl) -> ths !! i = Some p -> p = WOnce a -> stepped 0 e s ths i p \/ writes e s ths i p.
Proof.
  intros Hinv Hi Hp. destruct (owner_rel 0 s ths i p _ _ _ _ _ _ _ _ Hinv Hi) as [Hr Ho]. rewrite Hp in Hr. cbn [orel] in Hr.
  destruct Hr as (-> & <- & -> & -> & -> & -> & ->). destruct (node_request 0 s ths i [] o Null [] [] back 1 false Hinv o) as [r Hr]; [set_solver|].
  destruct (errno e =? 0) eqn:He; [right|left; destruct (negb (errno e =? EAGAIN) && negb (errno e =? EOVERCROWDED)) eqn:He'].
  - destruct (write_inv s ths i p (Complete0 InStart o true) [] o back 1 (nbytes e) 1) as [Hn Hw]; try done.
    eexists _, (Complete0 InStart o true), _, _. split; [|split; [exact Hn|split; [done|exact Hw]]].
    rewrite Hp. cbn [pstep StartWrite_step]. rewrite He, Hr. cbn [negb mbind option_bind]. change (take 1 ([] ++ [o])) with [o]. by destruct (cut_into_fd [o] (nbytes e) s).
  - apply (move_fail max_unwritten 0 e s ths i p [] o Null [] [] back 1 false Hinv Hi (SetFailed (errno e) s) (-1, errno e) None); try done; [apply same_set_failed|].
    rewrite Hp. cbn [pstep StartWrite_step]. by rewrite He, He'.
  - apply (move max_unwritten 0 e s ths i p [] o Null [] [] back 1 false Hinv Hi s (Complete0 InStart o true) None); try done.
    rewrite Hp. cbn [pstep StartWrite_step]. by rewrite He, He'.
Qed.
Lemma step_kwrite e s ths i p fs o lo todo rev back k fl req tail :
  invw 0 s ths (VOwned i fs o lo todo rev back k fl) -> ths !! i = Some p -> p = KWrite req tail -> stepped 0 e s ths i p \/ writes e s ths i p.
Proof.
  intros Hinv Hi Hp. destruct (owner_rel 0 s ths i p _ _ _ _ _ _ _ _ Hinv Hi) as [Hr Ho]. rewrite Hp in Hr. cbn [orel] in Hr.
  destruct Hr as ((-> & -> & -> & -> & ->) & <- & Htl).
  destruct (data_list_spec DATA_LIST_MAX s fs o (ow_front _ _ _ _ _ _ _ _ _ Ho) (ow_last _ _ _ _ _ _ _ _ _ Ho)) as (m & sh & Hdl).
  set (s1 := if sh then set_write_shutdown true s else s). assert (same s s1) as Hs1 by (unfold s1; destruct sh; [apply same_shutdown|apply same_socket_refl]).
  destruct (errno e =? 0) eqn:He; [right|left; destruct (negb (errno e =? EAGAIN) && negb (errno e =? EOVERCROWDED)) eqn:He'].
  - set (cut := cut_into_fd (take m (fs ++ [o])) (nbytes e) s1).
    destruct (write_inv s1 ths i p (KRelease (hd o fs) tail (cut.1 <=? 0)) fs o back (S (length fs)) (nbytes e) m) as [Hn Hw]; try done; [by apply (same_inv _ s)|].
    eexists _, (KRelease (hd o fs) tail (cut.1 <=? 0)), _, _. split; [|split; [exact Hn|split; [done|exact Hw]]].
    rewrite Hp. cbn [pstep KeepWrite_step]. rewrite Hdl. cbn beta iota. fold s1. rewrite He. cbn [negb]. fold cut. by destruct cut.
  - apply (move_fail max_unwritten 0 e s ths i p fs o Null [] [] back _ false Hinv Hi (SetFailed (errno e) s1) (0, 0) None); try done.
    + apply (same_socket_trans s s1); [done|apply same_set_failed].
    + rewrite Hp. cbn [pstep KeepWrite_step]. rewrite Hdl. cbn beta iota. fold s1. by rewrite He, He'.
  - apply (move max_unwritten 0 e s ths i p fs o Null [] [] back _ false Hinv Hi s1 (KRelease (hd o fs) tail true) None); try done.
    rewrite Hp. cbn [pstep KeepWrite_step]. rewrite Hdl. cbn beta iota. fold s1. by rewrite He, He'.
Qed.

Lemma step_other due e s ths i p w : invw due s ths w -> ths !! i = Some p -> is_owner p = false -> p <> Idle -> stepped due e s ths i p.
Proof.
  intros Hinv Hi Ho Hp. destruct p; try done.
  - by apply (step_failed _ _ _ _ _ w).
  - by apply (step_crowded _ _ _ _ _ w).
  - by apply (step_alloc _ _ _ _ _ w).
  - by apply (step_exchange _ _ _ _ _ w).
  - by apply (step_link _ _ _ _ _ w).
  - destruct k; try done. by apply (step_success_done _ _ _ _ _ w).
  - destruct k; try done. by apply (step_signal_done _ _ _ _ _ w).
  - by apply (step_release_done _ _ _ _ _ w).
  - destruct k; try done. by apply (step_fail_done _ _ _ _ _ w).
  - by apply (step_return _ _ _ _ _ w).
Qed.
(** The steps that look at the first request of the list, or give it up. *)
Lemma step_front e s ths i p fs o back k fl : invw 0 s ths (VOwned i fs o Null [] [] back k fl) -> ths !! i = Some p ->
  match p with KSkip _ _ | KRelease _ _ _ | Release1 _ _ _ => True | _ => False end -> stepped 0 e s ths i p.
Proof.
  intros Hinv Hi. destruct fs as [|a fs]; destruct p eqn:Hp; try done; intros _.
  - by eapply step_skip_last.
  - by eapply step_krelease_last.
  - by eapply step_release1_last.
  - by eapply step_skip.
  - by eapply step_krelease.
  - by eapply step_release1.
Qed.
Lemma step_owner e s ths i p fs o lo todo rev back k fl : invw 0 s ths (VOwned i fs o lo todo rev back k fl) -> ths !! i = Some p ->
  is_owner p = true -> stepped 0 e s ths i p \/ writes e s ths i p.
Proof.
  intros Hinv Hi Ho. destruct (owner_rel 0 s ths i p _ _ _ _ _ _ _ _ Hinv Hi) as [Hr _].
  assert (forall a, p = WOnce a -> stepped 0 e s ths i p \/ writes e s ths i p) as H1 by (intros a Hp; by eapply step_once).
  assert (forall req tail, p = KWrite req tail -> stepped 0 e s ths i p \/ writes e s ths i p) as H2 by (intros req tail Hp; by eapply step_kwrite).
  destruct p eqn:Hp; try done; try (by eapply H1); try (by eapply H2); left; clear H1 H2.
  - by eapply step_own.
  - by eapply step_connect.
  - by eapply step_setup.
  - by eapply step_spawn.
  - by eapply step_connected.
  - by eapply step_csetup.
  - by eapply step_cspawn.
  - cbn [orel] in Hr. destruct Hr as ((-> & -> & -> & _) & _). by eapply step_front.
  - cbn [orel] in Hr. destruct Hr as ((-> & -> & -> & _) & _). by eapply step_front.
  - by eapply step_wait.
  - by eapply step_walk.
  - cbn [orel] in Hr. destruct Hr as (<- & -> & -> & -> & _). by eapply step_complete0.
  - by eapply step_complete1.
  - by eapply step_complete2.
  - by eapply step_complete3.
  - by eapply step_complete4.
  - eapply step_success; try done. by intros ->.
  - eapply step_signal; try done. by intros ->.
  - by eapply step_release0.
  - cbn [orel] in Hr. destruct Hr as (-> & -> & -> & _). by eapply step_front.
  - cbn [orel] in Hr. destruct Hr as (-> & -> & -> & Hfl & -> & Hreq). by eapply step_release2.
  - destruct k0; try done. by eapply step_fail.
Qed.
End Steps.
End SocketWriteSteps.
