(* ===== verification/SocketWriteRuns.v ===== *)
(** * Schedules of the write path keep the invariant

    Threads with the accesses to shared memory that they still owe: the invariant of the
    program counters holds with the bytes that are still to be subtracted, and as long as
    no request has failed the flag [_overcrowded] follows the count. *)
From stdpp Require Import base list gmap sets.
From Stdlib Require Import ZArith Lia Bool.
From S2P Require Import Prelude PushList IOBufWriter SocketWrite SocketWriteInv SocketWriteSteps.

Open Scope Z_scope.

Module SocketWriteRuns.
Import PushList SocketWrite SocketWriteInv SocketWriteSteps.

(** ** What threads owe *)
Fixpoint owed (l : list access) : Z :=
  match l with [] => 0 | ACancel n :: l => n + owed l | _ :: l => owed l end.
Fixpoint dues (ths : list thread) : Z := match ths with [] => 0 | th :: ths => owed (accesses th) + dues ths end.
(** Only the owner of the list owes a subtraction. *)
Definition owes (th : thread) : Prop :=
  Forall (fun x => match x with ACancel n => 0 <= n | _ => True end) (accesses th) /\
  (is_owner (at_pc th) = false -> plain (accesses th) = true).

Lemma plain_owed l : plain l = true -> owed l = 0.
Proof. induction l as [|[] l IH]; cbn; (done || apply IH). Qed.
Lemma owed_app l1 l2 : owed (l1 ++ l2) = owed l1 + owed l2.
Proof. induction l1 as [|x l1 IH]; [done|]. cbn [app owed]. destruct x; rewrite IH; lia. Qed.
Lemma owed_nonneg l : Forall (fun x => match x with ACancel n => 0 <= n | _ => True end) l -> 0 <= owed l.
Proof. induction 1 as [|[] l Hx _ IH]; cbn [owed]; lia. Qed.
Lemma plain_owes l p : plain l = true -> owes (mkT l p).
Proof. intros H. split; [|done]. cbn [accesses]. induction l as [|[] l IH]; constructor; done || by apply IH. Qed.
Lemma dues_app l1 l2 : dues (l1 ++ l2) = dues l1 + dues l2.
Proof. induction l1 as [|th l1 IH]; [done|]. cbn [app dues]. lia. Qed.
Lemma dues_insert ths i th th' : ths !! i = Some th -> dues (<[i := th']> ths) = dues ths - owed (accesses th) + owed (accesses th').
Proof.
  intros Hi. pose proof (lookup_lt_Some _ _ _ Hi) as Hlt. rewrite insert_take_drop by done. rewrite <- (take_drop_middle ths i th Hi) at 3.
  rewrite !dues_app. cbn [dues]. lia.
Qed.
Lemma dues_new l : dues (mkT [] <$> l) = 0.
Proof. induction l as [|p l IH]; [done|]. cbn [fmap list_fmap dues accesses owed]. lia. Qed.
Lemma dues_nonneg ths : Forall owes ths -> 0 <= dues ths.
Proof. induction 1 as [|th ths [Hx _] _ IH]; [done|]. cbn [dues]. pose proof (owed_nonneg _ Hx). lia. Qed.
Lemma dues_owed ths i th : Forall owes ths -> ths !! i = Some th -> owed (accesses th) <= dues ths.
Proof.
  intros H Hi. rewrite <- (take_drop_middle ths i th Hi), dues_app. cbn [dues]. pose proof (dues_nonneg _ (Forall_take _ i _ H)). pose proof (dues_nonneg _ (Forall_drop _ (S i) _ H)). lia.
Qed.
(** When the owner owes nothing, nobody does. *)
Lemma dues_zero ths : (forall j th, ths !! j = Some th -> owed (accesses th) = 0) -> dues ths = 0.
Proof.
  induction ths as [|th ths IH]; [done|]. intros H. cbn [dues]. rewrite (H 0%nat th eq_refl), IH; [done|]. intros j th' Hj. by apply (H (S j)).
Qed.

Section Runs.
Context (max_unwritten : Z).
Abbreviation pstep := (pstep max_unwritten).
Abbreviation step := (step max_unwritten).
Abbreviation run := (run max_unwritten).
Implicit Types (e : env) (s : Socket) (ths : list thread) (i : nat) (p : pc) (w : view) (t : state).

Definition invs (t : state) (w : view) : Prop :=
  invw (dues (threads t)) (sock t) (at_pc <$> threads t) w /\ Forall owes (threads t).
Definition inv (t : state) : Prop := exists w, invs t w.

Lemma owner_unique due s ths w i j th th' : invw due s (at_pc <$> ths) w -> ths !! i = Some th -> ths !! j = Some th' ->
  is_owner (at_pc th) = true -> is_owner (at_pc th') = true -> i = j.
Proof.
  intros Hinv Hi Hj Ho Ho'. pose proof (in_shape _ _ _ _ Hinv) as Hs.
  assert (forall k x, ths !! k = Some x -> (at_pc <$> ths) !! k = Some (at_pc x)) as Hl by (intros k x Hk; by rewrite list_lookup_fmap, Hk).
  destruct w; [destruct Hs as [_ Hs]; by rewrite (Hs i _ (Hl _ _ Hi)) in Ho|]. destruct Hs as (_ & _ & Hu).
  rewrite (Hu i _ (Hl _ _ Hi) Ho). symmetry. by apply (Hu j _ (Hl _ _ Hj)).
Qed.
Lemma owner_dues t w i p : invs t w -> threads t !! i = Some (mkT [] p) -> is_owner p = true -> dues (threads t) = 0.
Proof.
  intros [Hinv Hall] Hi Ho. apply dues_zero. intros j th Hj. destruct (is_owner (at_pc th)) eqn:Hth.
  - assert (i = j) as -> by by apply (owner_unique _ _ _ _ i j (mkT [] p) th Hinv). rewrite Hi in Hj. by injection Hj as <-.
  - apply plain_owed. by apply (Forall_lookup_1 _ _ _ _ Hall Hj).
Qed.
Lemma pstep_inv e t w i p : invs t w -> threads t !! i = Some (mkT [] p) -> p <> Idle ->
  exists s' p' r new l w', pstep e (sock t) p = Some (s', p', r, new, l) /\ invs (mkS s' (<[i := mkT l p']> (threads t) ++ (mkT [] <$> new))) w'.
Proof.
  intros Ht Hi Hp. pose proof Ht as [Hinv Hall]. assert ((at_pc <$> threads t) !! i = Some p) as Hip by by rewrite list_lookup_fmap, Hi.
  assert (forall s' p' r new l w', pstep e (sock t) p = Some (s', p', r, new, l) -> owes (mkT l p') ->
    invw (dues (threads t) + owed l) s' (<[i := p']> (at_pc <$> threads t) ++ new) w' ->
    exists s' p' r new l w', pstep e (sock t) p = Some (s', p', r, new, l) /\ invs (mkS s' (<[i := mkT l p']> (threads t) ++ (mkT [] <$> new))) w') as Hgo.
  { intros s' p' r new l w' Hst Ho Hw. exists s', p', r, new, l, w'. split; [done|]. split; cbn [sock threads].
    - rewrite dues_app, dues_new, (dues_insert _ _ _ _ Hi), fmap_app, list_fmap_insert, <- list_fmap_compose. cbn [accesses at_pc owed].
      replace (dues (threads t) - 0 + owed l + 0) with (dues (threads t) + owed l) by lia. by rewrite (list_fmap_id new : (at_pc ∘ mkT []) <$> new = new).
    - apply Forall_app. split; [by apply Forall_insert|]. apply Forall_fmap, Forall_true. intros q. by apply plain_owes. }
  assert (stepped max_unwritten (dues (threads t)) e (sock t) (at_pc <$> threads t) i p \/ dues (threads t) = 0 /\ writes max_unwritten e (sock t) (at_pc <$> threads t) i p) as [H|[H0 H]].
  { destruct (is_owner p) eqn:Ho; [|left; by eapply step_other]. pose proof (owner_dues t w i p Ht Hi Ho) as H0. rewrite H0 in *.
    pose proof (in_shape _ _ _ _ Hinv) as Hs. destruct w as [|j fs o lo todo rev back k fl]; [destruct Hs as [_ Hs]; by rewrite (Hs i p Hip) in Ho|].
    destruct Hs as (_ & _ & Hu). rewrite <- (Hu i p Hip Ho) in Hinv. destruct (step_owner max_unwritten e _ _ i p _ _ _ _ _ _ _ _ Hinv Hip Ho); [by left|by right]. }
  - destruct H as (s' & p' & r & new & l & w' & Hst & Hl & Hw). apply (Hgo s' p' r new l w' Hst); [by apply plain_owes|]. by rewrite (plain_owed _ Hl), Z.add_0_r.
  - destruct H as (s' & p' & n & w' & Hst & Hn & Ho & Hw). apply (Hgo s' p' None [] [ACancel n] w' Hst); [split; [by repeat constructor|cbn [at_pc]; congruence]|].
    cbn [owed]. by replace (dues (threads t) + (n + 0)) with n by lia.
Qed.

Lemma cancel_inv due n s pcs w : invw due s pcs w -> 0 <= n <= due -> invw (due - n) (set_unwritten (i64 (_unwritten_bytes s - n)) s) pcs w.
Proof.
  intros [H1 H2 H3 [H4 H5]] Hn. set (s' := set_unwritten _ s). assert (forall a, core s' a = core s a) as Hcore by done. split.
  - by destruct w.
  - destruct H2 as [T1 T2 T3]. split; [done| |done]. intros j p Hj. by apply (tok_frame s s' (nodes w)); [| |apply (T2 j)].
  - by apply (contents_frame s).
  - split; [|].
    + rewrite (core_sum s s') by done. cbn [s' set_unwritten _unwritten_bytes]. rewrite H4, i64_sub. f_equal. lia.
    + rewrite (core_sum s s') by done. change (pending s') with (pending s). lia.
Qed.
Lemma perform_inv t w i x l p : invs t w -> threads t !! i = Some (mkT (x :: l) p) ->
  let '(s', l') := perform max_unwritten x (sock t) in invs (mkS s' (<[i := mkT (l' ++ l) p]> (threads t))) w.
Proof.
  intros [Hinv Hall] Hi. destruct (Forall_lookup_1 _ _ _ _ Hall Hi) as [Hn Hp]. cbn [accesses at_pc] in Hn, Hp. apply Forall_cons in Hn as [Hx Hn].
  pose proof (dues_owed _ _ _ Hall Hi) as Hd. cbn [accesses owed] in Hd.
  assert ((at_pc <$> <[i := mkT l p]> (threads t)) = at_pc <$> threads t) as Hpc.
  { rewrite list_fmap_insert. apply list_insert_id. by rewrite list_lookup_fmap, Hi. }
  assert (forall s' l', same (sock t) s' -> plain [x] = true -> (forall n, x <> ACancel n) -> l' = [] -> invs (mkS s' (<[i := mkT (l' ++ l) p]> (threads t))) w) as Hq.
  { intros s' l' Hs Hpl Hne ->. cbn [app]. split; cbn [sock threads].
    - rewrite Hpc, (dues_insert _ _ _ _ Hi). cbn [accesses owed]. destruct x; try done; (replace (dues (threads t) - owed l + owed l) with (dues (threads t)) by lia); by apply (same_inv _ (sock t)).
    - apply Forall_insert; [done|]. split; [done|]. intros Ho. specialize (Hp Ho). by destruct x. }
  destruct x as [n|b|pi|id er]; cbn [perform]; [|by apply Hq..|by apply Hq; [apply same_error|..]].
  unfold CancelUnwrittenBytes. set (l' := if _ : bool then [AOvercrowded false] else []).
  assert (owed l' = 0 /\ plain l' = true /\ Forall (fun x => match x with ACancel n => 0 <= n | _ => True end) l') as (Ho & Hpl & Hf) by (unfold l'; case_match; by repeat constructor).
  split; cbn [sock threads].
  - rewrite (dues_insert _ _ _ _ Hi), list_fmap_insert, list_insert_id by (by rewrite list_lookup_fmap, Hi). cbn [accesses owed]. rewrite owed_app, Ho.
    replace (dues (threads t) - (n + owed l) + (0 + owed l)) with (dues (threads t) - n) by lia. apply cancel_inv; [done|]. pose proof (owed_nonneg _ Hn). lia.
  - apply Forall_insert; [done|]. split; cbn [accesses at_pc]; [by apply Forall_app|]. intros Hown. by specialize (Hp Hown).
Qed.

(** ** Schedules *)
Lemma write_call_inv due m o s pcs i w : invw due s pcs w -> pcs !! i = Some Idle ->
  invw due (Write_call m o s).1.1 (<[i := (Write_call m o s).1.2]> pcs) w.
Proof.
  intros Hinv Hi. assert (forall s' p', same s s' -> (p' = Idle \/ p' = WFailed m o) -> invw due s' (<[i := p']> pcs) w) as Hq.
  { intros s' p' Hs Hp. rewrite <- (app_nil_r (<[i := p']> pcs)). apply (quiet_other _ s s' pcs w i Idle); try done; destruct Hp as [-> | ->]; try done; by left. }
  unfold Write_call. destruct m as [[|x d]|out]; [|case_match..]; try (apply Hq; [apply same_socket_refl|by right]).
  all: match goal with |- context [SetError ?a ?b ?c] => pose proof (same_set_error a b c); destruct (SetError a b c) end; apply Hq; [done|by left].
Qed.
(** A step of a thread: an access it owes, or its program counter. *)
Lemma step_cases c t t' log : step c t = Some (t', log) ->
  t' = t \/
  (exists i m o, c = SWrite i m o /\ threads t !! i = Some idle /\ t' = mkS (Write_call m o (sock t)).1.1 (<[i := mkT [] (Write_call m o (sock t)).1.2]> (threads t))) \/
  (exists e : Z, c = SFail e /\ t' = mkS (SetFailed e (sock t)) (threads t)) \/
  (exists i x l p, threads t !! i = Some (mkT (x :: l) p) /\ t' = mkS (perform max_unwritten x (sock t)).1 (<[i := mkT ((perform max_unwritten x (sock t)).2 ++ l) p]> (threads t))) \/
  (exists i e p s' p' r new l, threads t !! i = Some (mkT [] p) /\ p <> Idle /\ pstep e (sock t) p = Some (s', p', r, new, l) /\
    t' = mkS s' (<[i := mkT l p']> (threads t) ++ (mkT [] <$> new))).
Proof.
  destruct c as [i m o|e|i e]; cbn [step].
  - destruct (threads t !! i) as [[[|x l] p]|] eqn:Hi; [|intros [= <- <-]; by left..]. destruct p; try (intros [= <- <-]; by left).
    destruct (Write_call m o (sock t)) as [[s' p'] r] eqn:Hw. intros [= <- <-]. right; left. exists i, m, o. by rewrite Hw.
  - intros [= <- <-]. right; right; left. by exists e.
  - destruct (threads t !! i) as [[[|x l] p]|] eqn:Hi; [| |intros [= <- <-]; by left].
    + assert (p = Idle \/ p <> Idle) as [->|Hp] by (destruct p; (by left) || by right); [intros [= <- <-]; by left|].
      assert (forall A (x y : A), match p with Idle => x | _ => y end = y) as Hm by (intros; by destruct p). rewrite Hm.
      destruct (pstep e (sock t) p) as [[[[[s' p'] r] new] l]|] eqn:Hst; [|done]. cbn [mbind option_bind]. intros [= <- <-].
      do 4 right. by exists i, e, p, s', p', r, new, l.
    + destruct (perform max_unwritten x (sock t)) as [s' l'] eqn:Hx. intros [= <- <-]. do 3 right. left. exists i, x, l, p. by rewrite Hx.
Qed.
Lemma write_step_inv c t w : invs t w -> exists t' log w', step c t = Some (t', log) /\ invs t' w'.
Proof.
  intros Ht. pose proof Ht as [Hinv Hall]. destruct c as [i m o|e|i e]; cbn [step].
  - destruct (threads t !! i) as [[[|x l] p]|] eqn:Hi; [|by exists t, [], w..]. destruct p; try by exists t, [], w.
    pose proof (write_call_inv _ m o (sock t) (at_pc <$> threads t) i w Hinv ltac:(by rewrite list_lookup_fmap, Hi)) as H. destruct (Write_call m o (sock t)) as [[s' p'] r].
    eexists _, _, w. split; [done|]. split; cbn [sock threads].
    + rewrite (dues_insert _ _ _ _ Hi), list_fmap_insert. cbn [accesses owed at_pc]. by replace (dues (threads t) - 0 + 0) with (dues (threads t)) by lia.
    + apply Forall_insert; [done|]. by apply plain_owes.
  - eexists _, _, w. split; [done|]. split; [|done]. cbn [sock threads]. apply (same_inv _ (sock t)); [apply same_set_failed|done].
  - destruct (threads t !! i) as [[[|x l] p]|] eqn:Hi; [| |by exists t, [], w].
    + assert (p = Idle \/ p <> Idle) as [->|Hp] by (destruct p; (by left) || by right); [by exists t, [], w|].
      destruct (pstep_inv e t w i p Ht Hi Hp) as (s' & p' & r & new & l & w' & Hst & Hw').
      eexists _, (emit i r), w'. split; [|exact Hw']. destruct p; try done; by rewrite Hst.
    + pose proof (perform_inv t w i x l p Ht Hi) as H. destruct (perform max_unwritten x (sock t)) as [s' l']. by eexists _, _, w.
Qed.
Lemma write_run_inv cs t : inv t -> exists t' log, run cs t = Some (t', log) /\ inv t'.
Proof.
  revert t. induction cs as [|c cs IH]; intros t Ht; [by exists t, []|]. destruct Ht as [w Ht]. destruct (write_step_inv c t w Ht) as (t1 & l1 & w1 & H1 & Ht1).
  destruct (IH t1 (ex_intro _ w1 Ht1)) as (t2 & l2 & H2 & Ht2). exists t2, (l1 ++ l2). split; [|done]. cbn [run]. rewrite H1. cbn [mbind option_bind]. by rewrite H2.
Qed.
Lemma write_start_inv n b : inv (start n b).
Proof.
  assert (dues (replicate n idle) = 0) as Hd by (apply dues_zero; by intros j th [-> _]%lookup_replicate).
  exists VEmpty. split; cbn [sock threads start]; [|apply Forall_replicate; by apply plain_owes]. rewrite Hd, fmap_replicate. split; cbn [nodes set_up failing].
  - split; [done|]. by intros j p [-> _]%lookup_replicate.
  - split; [|by intros j p [-> _]%lookup_replicate|done]. intros j k a. destruct (replicate n (at_pc idle) !! j) as [p|] eqn:Hj; [|done].
    apply lookup_replicate in Hj as [-> _]. done.
  - split; try done. exists [], []. split; [done|]. split; [constructor|]. by split.
  - split; [done|by left].
Qed.

(** ** The flag *)

(** Count and flag once the accesses in [l] are done. *)
Fixpoint settled (l : list access) (u : Z) (c : bool) : Z * bool :=
  match l with
  | [] => (u, c)
  | ACancel n :: l => settled l (i64 (u - n)) (if u <? n + max_unwritten then false else c)
  | AOvercrowded b :: l => settled l u b
  | _ :: l => settled l u c
  end.
Definition quiet (l : list access) : bool := forallb (fun x => match x with ACancel _ | AOvercrowded _ => false | _ => true end) l.
Lemma quiet_settled l u c : quiet l = true -> settled l u c = (u, c).
Proof. induction l as [|[] l IH]; cbn; (done || apply IH). Qed.
Lemma settled_app l1 l2 u c : settled (l1 ++ l2) u c = settled l2 (settled l1 u c).1 (settled l1 u c).2.
Proof. revert u c. induction l1 as [|[] l1 IH]; intros u c; cbn [app settled]; [done|apply IH..]. Qed.
Lemma quiet_join ls u c : Forall (fun l => quiet l = true) ls -> settled (mjoin ls) u c = (u, c).
Proof. induction 1 as [|l ls Hl _ IH]; [done|]. cbn [mjoin list_join]. by rewrite settled_app, (quiet_settled l). Qed.
(** The accesses of one thread count when those of the others do not matter. *)
Lemma settled_thread ths i th u c : ths !! i = Some th -> (forall j th', ths !! j = Some th' -> j <> i -> quiet (accesses th') = true) ->
  settled (mjoin (accesses <$> ths)) u c = settled (accesses th) u c.
Proof.
  intros Hi Hq. assert (i < length ths)%nat as Hlt by by eapply lookup_lt_Some. rewrite <- (take_drop_middle ths i th Hi), fmap_app, join_app. cbn [fmap list_fmap mjoin list_join].
  assert (Forall (fun l => quiet l = true) (accesses <$> take i ths)) as H1.
  { apply Forall_fmap, Forall_lookup. intros j th' [Hj ?]%lookup_take_Some. apply (Hq _ _ Hj). lia. }
  assert (Forall (fun l => quiet l = true) (accesses <$> drop (S i) ths)) as H2.
  { apply Forall_fmap, Forall_lookup. intros j th' Hj. rewrite lookup_drop in Hj. apply (Hq _ _ Hj). lia. }
  rewrite settled_app, (quiet_join _ _ _ H1). cbn [fst snd]. rewrite settled_app, (quiet_join _ _ _ H2). by destruct (settled _ _ _).
Qed.

Definition setup_of (p : pc) : option addr := match p with WSetup a _ | CSetup a | Complete4 _ _ _ a => Some a | _ => None end.
Definition has_failed (s : Socket) : Prop := exists k, (k, false) ∈ ended s.
(** What a step of a program counter does to the count and the flag. *)
Inductive counting (s : Socket) (p : pc) (s' : Socket) (p' : pc) (l : list access) : Prop :=
  | Cquiet : _unwritten_bytes s' = _unwritten_bytes s -> _overcrowded s' = _overcrowded s -> quiet l = true -> counting s p s' p' l
  | Cadd a r : setup_of p = Some a -> is_owner p' = true -> heap s !! a = Some r -> is_Some (user_message r) ->
      settled l (_unwritten_bytes s') (_overcrowded s') = (i64 (_unwritten_bytes s + size (payload r)),
        if max_unwritten <=? _unwritten_bytes s + size (payload r) then true else _overcrowded s) -> counting s p s' p' l
  | Ccancel a r er rc : p = Release2 a er rc -> is_owner p' = true -> heap s !! a = Some r -> user_message r = None ->
      settled l (_unwritten_bytes s') (_overcrowded s') = (i64 (_unwritten_bytes s - size (data r)),
        if _unwritten_bytes s <? size (data r) + max_unwritten then false else _overcrowded s) -> counting s p s' p' l
  | Cwrite n : l = [ACancel n] -> is_owner p = true -> is_owner p' = true -> _unwritten_bytes s' = _unwritten_bytes s ->
      _overcrowded s' = _overcrowded s -> counting s p s' p' l
  | Cfailed : has_failed s' -> counting s p s' p' l
  | Clast a er rc : p = Release3 a er rc -> counting s p s' p' l.

Lemma error_counts id er s : _unwritten_bytes (bthread_id_error id er s) = _unwritten_bytes s /\ _overcrowded (bthread_id_error id er s) = _overcrowded s /\
  ended (bthread_id_error id er s) = ended s /\ history (bthread_id_error id er s) = history s.
Proof. unfold bthread_id_error. by case_match. Qed.
Lemma setup_counts a s s' l : Setup max_unwritten a s = Some (s', l) -> ended s' = ended s /\ history s' = history s /\
  forall p p', setup_of p = Some a -> is_owner p' = true -> counting s p s' p' l.
Proof.
  unfold Setup. destruct (heap s !! a) as [r|] eqn:Hr; [|done]. cbn [mbind option_bind].
  assert (forall r1 s1, exists s2 l2, setup_pipeline a r1 s1 = (s2, l2) /\ quiet l2 = true /\ ended s2 = ended s1 /\ history s2 = history s1 /\
    _unwritten_bytes s2 = _unwritten_bytes s1 /\ _overcrowded s2 = _overcrowded s1) as Hpipe by (intros r1 s1; unfold setup_pipeline; case_match; by eexists _, _).
  assert ((exists er, user_message r = Some (UserMessage (inl er))) \/ user_message r = None \/ (forall er, user_message r <> Some (UserMessage (inl er))) /\ is_Some (user_message r)) as [[er Hm]|[Hm|[Hm [m Hm']]]].
  { destruct (user_message r) as [[|[er|bs]]|]; [right; right|left; by exists er|right; right|by right; left]; split; done. }
  - rewrite Hm. intros [= <- <-]. destruct (error_counts (id_wait r) er (set_heap (<[a := set_data [] (clear_user_message r)]> (heap s)) s)) as (H1 & H2 & H3 & H4).
    split; [done|]. split; [done|]. intros p p' _ _. by apply Cquiet.
  - rewrite Hm. destruct (Hpipe r s) as (s2 & l2 & -> & Hq & He & Hh & Hu & Hc). intros [= <- <-]. split; [done|]. split; [done|]. intros p p' _ _. by apply Cquiet.
  - destruct (Hpipe (set_data (payload r) (clear_user_message r)) (set_unwritten (i64 (_unwritten_bytes s + size (payload r))) s)) as (s2 & l2 & Heq & Hq & He & Hh & Hu & Hc).
    assert (forall x : option (Socket * list access), match user_message r with
      | Some (UserMessage (inl e)) => Some (bthread_id_error (id_wait r) e (set_heap (<[a := set_data [] (clear_user_message r)]> (heap s)) s), [])
      | Some _ => x | None => Some (setup_pipeline a r s) end = x) as Hx by (intros x; rewrite Hm' in *; destruct m as [|[er|bs]]; [done|by destruct (Hm er)|done]).
    cbn zeta. rewrite Hx. clear Hx. cbn [set_data data]. rewrite Heq. intros [= <- <-]. split; [done|]. split; [done|]. intros p p' Hp Hp'.
    apply (Cadd _ _ _ _ _ a r); try done. rewrite settled_app, (quiet_settled l2) by done. rewrite Hu, Hc. cbn [set_unwritten _unwritten_bytes _overcrowded]. by case_match.
Qed.
Lemma abandon_counts a s s' l : abandon max_unwritten a s = Some (s', l) -> ended s' = ended s /\ history s' = history s /\
  forall er rc p', is_owner p' = true -> counting s (Release2 a er rc) s' p' l.
Proof.
  unfold abandon, reset_pipelined_count_and_user_message. destruct (heap s !! a) as [r|] eqn:Hr; [|done]. cbn [mbind option_bind].
  destruct (user_message r) as [m|] eqn:Hm; cbn beta iota zeta; intros [= <- <-]; (split; [done|]); (split; [done|]); intros er rc p' Hp'.
  - by apply Cquiet.
  - apply (Ccancel _ _ _ _ _ a r er rc); try done. unfold CancelUnwrittenBytes. cbn [set_heap set_unwritten _unwritten_bytes _overcrowded]. by case_match.
Qed.

Lemma error_of_counts id er s : exists s' r, SetError id er s = (s', r) /\ _unwritten_bytes s' = _unwritten_bytes s /\ _overcrowded s' = _overcrowded s /\
  ended s' = ended s /\ history s' = history s.
Proof. unfold SetError. case_match; eexists _, _; (split; [done|]); [done|]. apply error_counts. Qed.
Lemma fail_counts er s : _unwritten_bytes (SetFailed er s) = _unwritten_bytes s /\ _overcrowded (SetFailed er s) = _overcrowded s /\
  ended (SetFailed er s) = ended s /\ history (SetFailed er s) = history s.
Proof. unfold SetFailed. by case_match. Qed.
Lemma notify_counts id s : _unwritten_bytes (NotifyOnFailed id s) = _unwritten_bytes s /\ _overcrowded (NotifyOnFailed id s) = _overcrowded s /\
  ended (NotifyOnFailed id s) = ended s /\ history (NotifyOnFailed id s) = history s.
Proof. unfold NotifyOnFailed. case_match; [apply error_counts|done]. Qed.

Definition grows (s s' : Socket) : Prop := ended s `prefix_of` ended s' /\ history s `prefix_of` history s'.
(** A step is accounted for. *)
Definition accounted (s : Socket) (p : pc) (s' : Socket) (p' : pc) (l : list access) : Prop :=
  grows s s' /\ counting s p s' p' l /\ forall a er rc, p' = Release3 a er rc -> has_failed s'.
Lemma accounted_quiet s p s' p' l : _unwritten_bytes s' = _unwritten_bytes s /\ _overcrowded s' = _overcrowded s /\ ended s' = ended s /\ history s' = history s ->
  quiet l = true -> (forall a er rc, p' <> Release3 a er rc) -> accounted s p s' p' l.
Proof. intros (Hu & Hc & He & Hh) Hq Hp. split; [split; by rewrite ?He, ?Hh|]. split; [by apply Cquiet|]. intros a er rc Heq. by destruct (Hp a er rc). Qed.
Lemma accounted_log s p s1 p' l h x : _unwritten_bytes s1 = _unwritten_bytes s /\ _overcrowded s1 = _overcrowded s ->
  h = history s \/ (exists y, h = history s ++ y) -> quiet l = true -> (forall a er rc, p' <> Release3 a er rc) \/ (exists k, x = [(k, false)]) ->
  accounted s p (set_log h (ended s ++ x) s1) p' l.
Proof.
  intros [Hu Hc] Hh Hq Hp. split; [split; cbn [set_log ended history]; [by apply prefix_app_r|destruct Hh as [->|[y ->]]; [done|by apply prefix_app_r]]|].
  split; [by apply Cquiet|]. intros a er rc Heq. destruct Hp as [Hp|[k ->]]; [by destruct (Hp a er rc)|]. exists k. cbn. set_solver.
Qed.
Lemma setup_accounted a s s' l p p' : Setup max_unwritten a s = Some (s', l) -> setup_of p = Some a -> is_owner p' = true -> accounted s p s' p' l.
Proof.
  intros H Hp Hp'. destruct (setup_counts a s s' l H) as (He & Hh & Hc). split; [split; by rewrite ?He, ?Hh|]. split; [by apply Hc|]. by intros a0 er rc ->.
Qed.
Lemma write_accounted s p s' p' n : is_owner p = true -> is_owner p' = true -> _unwritten_bytes s' = _unwritten_bytes s ->
  _overcrowded s' = _overcrowded s -> ended s' = ended s -> history s' = history s -> accounted s p s' p' [ACancel n].
Proof. intros Hp Hp' Hu Hc He Hh. split; [split; by rewrite ?He, ?Hh|]. split; [by apply (Cwrite _ _ _ _ _ n)|]. by intros a er rc ->. Qed.
Ltac counts H := unfold retval, spawn, go, go_after in H; simplify_eq; try (by apply accounted_quiet); try (by apply accounted_quiet; [apply fail_counts|..]).

Lemma Write_counts e s p s' p' r new l : Write_step e s p = Some (s', p', r, new, l) -> accounted s p s' p' l.
Proof.
  unfold Write_step. intros H. destruct p; try done.
  - destruct (failed s); [destruct (error_of_counts (o_id_wait o) (non_zero_error_code z) s) as (s1 & rv & Hs & Hq); rewrite Hs in H|]; counts H.
  - destruct (negb _ && _); [destruct (error_of_counts (o_id_wait o) EOVERCROWDED s) as (s1 & rv & Hs & Hq); rewrite Hs in H|]; counts H.
  - destruct (negb _); [destruct (error_of_counts (o_id_wait o) ENOMEM s) as (s1 & rv & Hs & Hq); rewrite Hs in H; counts H|].
    destruct (heap s !! mem e); [case_decide|]; counts H.
Qed.
Lemma StartWrite_counts e s p s' p' r new l : StartWrite_step max_unwritten e s p = Some (s', p', r, new, l) -> accounted s p s' p' l.
Proof.
  unfold StartWrite_step. intros H. destruct p; try done.
  - unfold update in H. destruct (heap s !! a); [|done]. cbn [mbind option_bind] in H. destruct (_write_head s); counts H.
    all: split; [split; cbn; [done|by apply prefix_app_r]|]; split; [by apply Cquiet|done].
  - unfold update in H. destruct (heap s !! a); [|done]. cbn [mbind option_bind] in H. counts H.
  - unfold update in H. destruct (heap s !! a); [|done]. cbn [mbind option_bind] in H. destruct (_is_write_shutdown s); counts H.
  - destruct (connected s); [|destruct (negb _)]; counts H.
  - destruct (Setup _ a s) as [[s1 l1]|] eqn:Hs; [|done]. cbn [mbind option_bind] in H. counts H. apply (setup_accounted a); try done. by case_match.
  - destruct (negb _); [destruct (negb _ && negb _); counts H|]. destruct (heap s !! a); [|done]. cbn [mbind option_bind] in H.
    destruct (cut_into_fd [a] (nbytes e) s) as [nw s1] eqn:Hc. counts H. unfold cut_into_fd in Hc. simplify_eq. by apply write_accounted.
  - destruct (errno e =? 0); counts H.
  - destruct (errno e =? 0); counts H.
  - destruct (Setup _ a s) as [[s1 l1]|] eqn:Hs; [|done]. cbn [mbind option_bind] in H. counts H. by apply (setup_accounted a).
  - destruct (errno e =? 0); counts H.
Qed.
Lemma KeepWrite_counts e s p s' p' r new l : KeepWrite_step e s p = Some (s', p', r, new, l) -> accounted s p s' p' l.
Proof.
  unfold KeepWrite_step. intros H. destruct p; try done.
  - destruct (heap s !! req); [|done]. cbn [mbind option_bind] in H. destruct (next w); [done|counts H|]. destruct (data w); counts H. apply accounted_log; try done; by left.
  - destruct (data_list _ s req) as [[dl sh]|]; [|done]. destruct (negb _).
    { destruct (negb _ && negb _); destruct sh; counts H. apply accounted_quiet; try done. exact (fail_counts (errno e) (set_write_shutdown true s)). }
    match type of H with context [cut_into_fd ?x ?y ?z] => destruct (cut_into_fd x y z) as [nw s2] eqn:Hc end. counts H. unfold cut_into_fd in Hc. simplify_eq. apply write_accounted; try done; by destruct sh.
  - destruct (heap s !! req); [|done]. cbn [mbind option_bind] in H. destruct (next w); [done|counts H|]. destruct (data w); counts H. apply accounted_log; try done; by left.
  - destruct (_ && _ && _); [counts H|]. destruct tail; counts H.
  - destruct (load_next s t); [|done]. cbn [mbind option_bind] in H. destruct l0; counts H.
Qed.
Lemma IsWriteComplete_counts s p s' p' r new l : IsWriteComplete_step max_unwritten s p = Some (s', p', r, new, l) -> accounted s p s' p' l.
Proof.
  unfold IsWriteComplete_step. intros H. destruct p; try done.
  - destruct (heap s !! old); [|done]. cbn [mbind option_bind] in H. case_decide.
    + destruct (match data w with [] => negb singular | _ => true end); [destruct k; counts H|]. unfold complete in H.
      destruct k; counts H; apply (accounted_log s); try done; (by left) || (right; by eexists).
    + destruct (_write_head s); [|done]. cbn [mbind option_bind] in H. counts H.
  - destruct (load_next s p); [|done]. cbn [mbind option_bind] in H. case_decide; counts H.
  - unfold update in H. destruct (heap s !! p); [|done]. cbn [mbind option_bind] in H. destruct saved; try done. case_decide; counts H.
  - unfold update in H. destruct (heap s !! old); [|done]. cbn [mbind option_bind] in H. destruct tail; try done. counts H.
  - destruct (Setup _ q s) as [[s1 l1]|] eqn:Hs; [|done]. cbn [mbind option_bind] in H. destruct (load_next s1 q) as [x|]; [|done]. cbn [mbind option_bind] in H.
    destruct x; try done; counts H; apply (setup_accounted q); try done. by destruct k.
Qed.
Lemma Return_counts s p s' p' r new l : Return_step max_unwritten s p = Some (s', p', r, new, l) -> p <> Idle -> accounted s p s' p' l.
Proof.
  unfold Return_step. intros H Hp. destruct p; try done.
  - destruct (heap s !! a); [|done]. cbn [mbind option_bind] in H. counts H.
  - destruct (heap s !! a) as [rq|]; [|done]. cbn [mbind option_bind] in H.
    set (s1 := if id =? INVALID_BTHREAD_ID then s else if is_notify_on_success rq && negb (Failed s) then bthread_id_error id 0 s else NotifyOnFailed id s) in H.
    assert (_unwritten_bytes s1 = _unwritten_bytes s /\ _overcrowded s1 = _overcrowded s /\ ended s1 = ended s /\ history s1 = history s) as Hq.
    { clear H. unfold s1. case_match; [done|]. case_match; [apply error_counts|apply notify_counts]. }
    clearbody s1. destruct k as [|req tail []|req tail wt []]; counts H.
  - destruct (failed s); counts H.
  - destruct (heap s !! req) as [rq|] eqn:Hr; [|done]. cbn [mbind option_bind] in H. destruct (next rq); [done|counts H|].
    destruct (abandon _ req s) as [[s1 l1]|] eqn:Hs; [|done]. cbn [mbind option_bind] in H. counts H. destruct (abandon_counts _ _ _ _ Hs) as (He & Hh & _).
    split; [split; cbn [set_log ended history]; rewrite ?He, ?Hh; [by apply prefix_app_r|done]|]. split; [|done]. apply Cfailed. exists (ticket rq). cbn. set_solver.
  - destruct (abandon _ req s) as [[s1 l1]|] eqn:Hs; [|done]. cbn [mbind option_bind] in H. counts H. destruct (abandon_counts _ _ _ _ Hs) as (He & Hh & Hc).
    split; [split; by rewrite ?He, ?Hh|]. split; [by apply Hc|done].
  - destruct (abandon _ req s) as [[s1 l1]|] eqn:Hs; [|done]. cbn [mbind option_bind] in H. counts H. destruct (abandon_counts _ _ _ _ Hs) as (He & Hh & _).
    split; [split; by rewrite ?He, ?Hh|]. split; [by eapply Clast|done].
  - destruct (heap s !! a) as [rq|]; [|done]. cbn [mbind option_bind] in H. destruct (id_wait rq =? _), k; counts H.
  - counts H.
Qed.
Lemma pstep_counts e s p s' p' r new l : pstep e s p = Some (s', p', r, new, l) -> p <> Idle -> accounted s p s' p' l.
Proof.
  intros H Hp. destruct p; cbn [SocketWrite.pstep] in H; try done;
    solve [by eapply Write_counts | by eapply StartWrite_counts | by eapply KeepWrite_counts | by eapply IsWriteComplete_counts | by eapply Return_counts].
Qed.

(** The flag is what the count says, once the owner has done what it owes. *)
Record crowding (t : state) : Prop := mkCrowding {
  cr_threads : forall j th, threads t !! j = Some th ->
    (is_owner (at_pc th) = false -> quiet (accesses th) = true) /\ forall a er rc, at_pc th <> Release3 a er rc;
  cr_flag : (settled (mjoin (accesses <$> threads t)) (_unwritten_bytes (sock t)) (_overcrowded (sock t))).2 =
    (max_unwritten <=? (settled (mjoin (accesses <$> threads t)) (_unwritten_bytes (sock t)) (_overcrowded (sock t))).1) }.
Definition clean (t : state) : Prop := Forall (fun x => x.2 = true) (ended (sock t)) /\ total (history (sock t)) < 2 ^ 63.

Lemma clean_grows t t' : grows (sock t) (sock t') -> clean t' -> clean t.
Proof.
  intros [[x Hx] [y Hy]] [H1 H2]. split; [rewrite Hx in H1; by apply Forall_app in H1 as [? _]|].
  rewrite Hy, messages_app in H2. pose proof (messages_nonneg y). lia.
Qed.
Lemma clean_not_failed t : clean t -> has_failed (sock t) -> False.
Proof. intros [H _] [k Hk]. by pose proof (proj1 (Forall_forall _ _) H _ Hk). Qed.
Lemma settled_quiet ths i th l p u c : ths !! i = Some th -> quiet (accesses th) = true -> quiet l = true ->
  settled (mjoin (accesses <$> <[i := mkT l p]> ths)) u c = settled (mjoin (accesses <$> ths)) u c.
Proof.
  intros Hi H1 H2. assert (i < length ths)%nat as Hlt by by eapply lookup_lt_Some. rewrite insert_take_drop by done. rewrite <- (take_drop_middle ths i th Hi) at 3.
  rewrite !fmap_app, !join_app. cbn [fmap list_fmap mjoin list_join accesses]. rewrite !settled_app, (quiet_settled l), (quiet_settled (accesses th)) by done. done.
Qed.
Lemma settled_new ths new u c : settled (mjoin (accesses <$> ths ++ (mkT [] <$> new))) u c = settled (mjoin (accesses <$> ths)) u c.
Proof.
  rewrite fmap_app, join_app, settled_app, quiet_join; [by destruct (settled _ _ _)|]. rewrite <- list_fmap_compose. apply Forall_fmap, Forall_true. done.
Qed.
(** While thread [i] owns the list, only its accesses matter. *)
Lemma settled_owner t w i th u c : invs t w -> crowding t -> threads t !! i = Some th -> is_owner (at_pc th) = true ->
  (forall j th', threads t !! j = Some th' -> j <> i -> quiet (accesses th') = true) /\
  settled (mjoin (accesses <$> threads t)) u c = settled (accesses th) u c.
Proof.
  intros [Hinv _] Hc Hi Ho. assert (forall j th', threads t !! j = Some th' -> j <> i -> quiet (accesses th') = true) as Hq.
  { intros j th' Hj Hne. apply (cr_threads _ Hc j th' Hj). destruct (is_owner (at_pc th')) eqn:Ho'; [|done]. destruct Hne. by apply (owner_unique _ _ _ _ j i th' th Hinv). }
  split; [done|]. by apply settled_thread with i.
Qed.

(** *** The count in the ranges where it does not wrap *)
Lemma sum_bound_at s l hs j a h : Forall2 (holds s) l hs -> l !! j = Some a -> hs !! j = Some h ->
  0 <= counted s a <= sum s l /\ sum s l - counted s a + size h <= total hs.
Proof.
  intros H. revert j. induction H as [|b g l hs Hb H IH]; intros [|j] Ha Hh; simplify_eq/=.
  - pose proof (counted_bound _ _ _ Hb). pose proof (sum_bound _ _ _ H). rewrite total_cons. lia.
  - pose proof (counted_bound _ _ _ Hb). destruct (IH j Ha Hh). rewrite total_cons. lia.
Qed.
Lemma pending_total s : total (pending s) <= total (history s).
Proof.
  unfold pending. rewrite <- (take_drop (length (ended s)) (history s)) at 2. rewrite messages_app. pose proof (messages_nonneg (take (length (ended s)) (history s))). lia.
Qed.
Lemma node_bound due s pcs w a r : invw due s pcs w -> a ∈ nodes w -> heap s !! a = Some r -> total (history s) < 2 ^ 63 ->
  0 <= sum s (nodes w) < 2 ^ 63 /\ (is_Some (user_message r) -> 0 <= size (payload r) /\ sum s (nodes w) + size (payload r) < 2 ^ 63) /\
  (user_message r = None -> 0 <= size (data r) <= sum s (nodes w)).
Proof.
  intros Hinv [j Hj]%list_elem_of_lookup Hr Ht. pose proof (in_contents _ _ _ _ Hinv) as Hc. pose proof (ct_holds _ _ _ _ Hc) as Hh.
  pose proof (contents_sum _ _ _ _ Hc) as Hs. destruct (Forall2_lookup_l _ _ _ _ _ Hh Hj) as (h & Hh' & r0 & Hr0 & Hm). rewrite Hr in Hr0. injection Hr0 as <-.
  destruct (sum_bound_at _ _ _ _ _ _ Hh Hj Hh') as [H1 H2]. unfold counted in H1, H2. rewrite Hr in H1, H2.
  pose proof (pending_total s) as Hp.
  pose proof (size_nonneg (payload r)). pose proof (size_nonneg (data r)). split; [lia|]. destruct (user_message r); (split; [intros Hu|intros Hu; try done]); [rewrite Hm in *; lia|by destruct Hu].
Qed.
Lemma setup_node due s pcs w i p a : invw due s pcs w -> pcs !! i = Some p -> (setup_of p = Some a \/ exists er rc, p = Release2 a er rc) -> a ∈ nodes w.
Proof.
  intros Hinv Hi Hp. assert (is_owner p = true) as Ho by (destruct Hp as [Hp|(er & rc & ->)]; [by destruct p|done]).
  pose proof (in_shape _ _ _ _ Hinv) as Hs. destruct w as [|j fs o lo todo rev back k fl]; [destruct Hs as [_ Hs]; by rewrite (Hs i p Hi) in Ho|].
  destruct Hs as (_ & (q & Hq & _ & Hr) & Hu). rewrite (Hu i p Hi Ho) in Hi. rewrite Hi in Hq. injection Hq as <-. cbn [nodes].
  destruct Hp as [Hp|(er & rc & ->)]; [|cbn [orel] in Hr; destruct Hr as (_ & _ & _ & _ & -> & ->); set_solver].
  destruct p; simplify_eq/=; [destruct Hr as (-> & -> & _); set_solver..|]. destruct Hr as (_ & _ & _ & _ & _ & _ & l1 & l2 & Hsp & _).
  rewrite cons_middle, app_assoc, Hsp. set_solver.
Qed.
Lemma exact_count t w : invs t w -> total (history (sock t)) < 2 ^ 63 -> dues (threads t) = 0 -> _unwritten_bytes (sock t) = sum (sock t) (nodes w).
Proof.
  intros [Hinv _] Ht Hd. destruct (in_accounts _ _ _ _ Hinv) as [Hu _]. pose proof (contents_sum _ _ _ _ (in_contents _ _ _ _ Hinv)). rewrite Hu, Hd, Z.add_0_r, i64_small by lia. done.
Qed.
Lemma crowded_add x d c : 0 <= x -> 0 <= d -> x + d < 2 ^ 63 -> c = (max_unwritten <=? x) ->
  (if max_unwritten <=? x + d then true else c) = (max_unwritten <=? i64 (x + d)).
Proof. intros Hx Hd Ht ->. rewrite i64_small by lia. destruct (Z.leb_spec max_unwritten (x + d)); [done|]. apply Z.leb_gt. lia. Qed.
Lemma crowded_cancel x d c : 0 <= d <= x -> x < 2 ^ 63 -> c = (max_unwritten <=? x) ->
  (if x <? d + max_unwritten then false else c) = (max_unwritten <=? i64 (x - d)).
Proof.
  intros Hx Ht ->. rewrite i64_small by lia. destruct (Z.ltb_spec x (d + max_unwritten)); symmetry; [apply Z.leb_gt; lia|].
  rewrite (proj2 (Z.leb_le _ x)) by lia. apply Z.leb_le. lia.
Qed.

(** *** Every step keeps it *)
Lemma insert_threads (P : thread -> Prop) ths i th new : (forall j x, ths !! j = Some x -> P x) -> P th -> (forall p, p ∈ new -> P (mkT [] p)) ->
  forall j x, (<[i := th]> ths ++ (mkT [] <$> new)) !! j = Some x -> P x.
Proof.
  intros H1 H2 H3 j x. rewrite lookup_app_Some, list_lookup_insert_Some. intros [[(_ & <- & _)|[_ Hj]]|[_ Hj]]; [done|by eapply H1|].
  apply list_elem_of_lookup_2, list_elem_of_fmap in Hj as (p & -> & Hp). by apply H3.
Qed.
Lemma crowding_quiet t i th s' l p' new : crowding t -> threads t !! i = Some th -> quiet (accesses th) = true -> quiet l = true ->
  _unwritten_bytes s' = _unwritten_bytes (sock t) -> _overcrowded s' = _overcrowded (sock t) -> (forall a er rc, p' <> Release3 a er rc) ->
  (forall p a er rc, p ∈ new -> p <> Release3 a er rc) -> crowding (mkS s' (<[i := mkT l p']> (threads t) ++ (mkT [] <$> new))).
Proof.
  intros [H1 H2] Hi Hth Hl Hu Hc Hp Hn. split; cbn [sock threads].
  - apply (insert_threads (fun th => (is_owner (at_pc th) = false -> quiet (accesses th) = true) /\ forall a er rc, at_pc th <> Release3 a er rc)); [done|by split|].
    intros p Hin. split; [done|]. intros a er rc. by apply Hn.
  - by rewrite settled_new, (settled_quiet _ _ th), Hu, Hc.
Qed.
Lemma crowding_owner t w i p s' l p' new u c : invs t w -> crowding t -> threads t !! i = Some (mkT [] p) -> is_owner p = true -> is_owner p' = true ->
  settled l (_unwritten_bytes s') (_overcrowded s') = (u, c) -> c = (max_unwritten <=? u) ->
  (forall q a er rc, q ∈ new -> q <> Release3 a er rc) -> crowding (mkS s' (<[i := mkT l p']> (threads t) ++ (mkT [] <$> new))).
Proof.
  intros Ht Hcr Hi Ho Ho' Hs Hc Hn. destruct (settled_owner t w i _ 0 false Ht Hcr Hi Ho) as [Hq _]. pose proof Hcr as [H1 H2]. split; cbn [sock threads].
  - apply (insert_threads (fun th => (is_owner (at_pc th) = false -> quiet (accesses th) = true) /\ forall a er rc, at_pc th <> Release3 a er rc)); [done| |].
    + cbn [at_pc accesses]. split; [congruence|]. by intros a er rc ->.
    + intros q Hin. split; [done|]. intros a er rc. by apply Hn.
  - rewrite settled_new, (settled_thread _ i (mkT l p')).
    + cbn [accesses]. by rewrite Hs.
    + apply list_lookup_insert_eq. by eapply lookup_lt_Some.
    + intros j th. rewrite list_lookup_insert_Some. intros [(? & _)|[_ Hj]] Hne; [done|]. by apply (Hq j).
Qed.
Lemma pstep_new e s p s' p' r new l : pstep e s p = Some (s', p', r, new, l) -> forall q a er rc, q ∈ new -> q <> Release3 a er rc.
Proof.
  intros H q a er rc Hq ->. destruct p; cbn [SocketWrite.pstep] in H; try done;
    unfold Write_step, StartWrite_step, KeepWrite_step, IsWriteComplete_step, Return_step, complete, retval, spawn, go, go_after in H;
    repeat (first [apply bind_Some in H as (? & _ & H)|match type of H with context [match ?x with _ => _ end] => destruct x end]; try done); simplify_eq; by (apply elem_of_nil in Hq || apply list_elem_of_singleton in Hq).
Qed.
Lemma pstep_crowding e t w i p s' p' r new l w' : invs t w -> threads t !! i = Some (mkT [] p) -> p <> Idle -> pstep e (sock t) p = Some (s', p', r, new, l) ->
  let t' := mkS s' (<[i := mkT l p']> (threads t) ++ (mkT [] <$> new)) in
  invs t' w' -> (clean t -> crowding t) -> clean t' -> crowding t'.
Proof.
  intros Ht Hi Hp Hst t' Ht' Hcr Hcl. destruct (pstep_counts _ _ _ _ _ _ _ _ Hst Hp) as (Hg & Hcount & Hrel).
  assert (clean t) as Hcl0 by by apply (clean_grows t t'). specialize (Hcr Hcl0). pose proof (pstep_new _ _ _ _ _ _ _ _ Hst) as Hnew.
  assert (has_failed s' -> False) as Hnf by by apply (clean_not_failed t'). assert (forall a er rc, p' <> Release3 a er rc) as Hp' by (intros a er rc Heq; by eapply Hnf, Hrel).
  assert ((at_pc <$> threads t) !! i = Some p) as Hip by by rewrite list_lookup_fmap, Hi. pose proof (proj2 Hcl0) as Htot.
  destruct Hcount as [Hu Hc Hq|a rq Ha Ho' Hr Hm Hs|a rq er rc Ha Ho' Hr Hm Hs|n Hl Ho Ho' Hu Hc|Hf|a er rc Ha].
  - by apply (crowding_quiet t i (mkT [] p)).
  - assert (is_owner p = true) as Ho by by destruct p. pose proof (owner_dues t w i p Ht Hi Ho) as Hd. pose proof (exact_count t w Ht Htot Hd) as Hu.
    pose proof (setup_node _ _ _ _ _ _ _ (proj1 Ht) Hip (or_introl Ha)) as Hn. destruct (node_bound _ _ _ _ a rq (proj1 Ht) Hn Hr Htot) as (H1 & H2 & _).
    destruct (settled_owner t w i _ (_unwritten_bytes (sock t)) (_overcrowded (sock t)) Ht Hcr Hi Ho) as [_ Hso]. pose proof (cr_flag _ Hcr) as Hfl. rewrite Hso in Hfl.
    eapply (crowding_owner t w i p); try done. destruct (H2 Hm). apply crowded_add; try lia. exact Hfl.
  - subst p. pose proof (owner_dues t w i _ Ht Hi eq_refl) as Hd. pose proof (exact_count t w Ht Htot Hd) as Hu.
    pose proof (setup_node _ _ _ _ _ _ _ (proj1 Ht) Hip (or_intror (ex_intro _ er (ex_intro _ rc eq_refl)))) as Hn.
    destruct (node_bound _ _ _ _ a rq (proj1 Ht) Hn Hr Htot) as (H1 & _ & H2).
    destruct (settled_owner t w i _ (_unwritten_bytes (sock t)) (_overcrowded (sock t)) Ht Hcr Hi eq_refl) as [_ Hso]. pose proof (cr_flag _ Hcr) as Hfl. rewrite Hso in Hfl.
    eapply (crowding_owner t w i (Release2 a er rc)); try done. specialize (H2 Hm). apply crowded_cancel; try lia. exact Hfl.
  - pose proof (owner_dues t w i p Ht Hi Ho) as Hd. pose proof (exact_count t w Ht Htot Hd) as Hu0. pose proof (contents_sum _ _ _ _ (in_contents _ _ _ _ (proj1 Ht))) as Hb.
    destruct (settled_owner t w i _ (_unwritten_bytes (sock t)) (_overcrowded (sock t)) Ht Hcr Hi Ho) as [_ Hso]. pose proof (cr_flag _ Hcr) as Hfl. rewrite Hso in Hfl.
    assert (0 <= n <= _unwritten_bytes (sock t)) as Hn.
    { destruct Ht' as [Hinv' Hall']. destruct (in_accounts _ _ _ _ Hinv') as [Hu' Hdue]. unfold t' in Hu', Hdue, Hinv'. cbn [sock threads] in *.
      rewrite dues_app, dues_new, (dues_insert _ _ _ _ Hi), Hd, Hl in Hu', Hdue. cbn [accesses owed] in Hu', Hdue.
      pose proof (contents_sum _ _ _ _ (in_contents _ _ _ _ Hinv')) as Hb'. pose proof (proj2 Hcl) as Htot'. cbn [t' sock] in Htot'.
      rewrite Hu in Hu'. destruct Hdue as [Hz|[Hz Hle]]; [lia|]. rewrite i64_small in Hu'; [lia|]. split; [lia|].
      pose proof (sum_bound _ _ _ (ct_holds _ _ _ _ (in_contents _ _ _ _ Hinv'))).
      pose proof (pending_total s'). lia. }
    subst l. eapply (crowding_owner t w i p _ _ _ _ _ _ Ht Hcr Hi Ho Ho'); [reflexivity| |done]. rewrite Hu, Hc. apply crowded_cancel; try lia. exact Hfl.
  - by destruct (Hnf Hf).
  - destruct (cr_threads _ Hcr i _ Hi) as [_ Hno]. by destruct (Hno a er rc).
Qed.
Lemma perform_settled x s l : let '(s', l') := perform max_unwritten x s in
  settled (l' ++ l) (_unwritten_bytes s') (_overcrowded s') = settled (x :: l) (_unwritten_bytes s) (_overcrowded s) /\
  ended s' = ended s /\ history s' = history s.
Proof.
  destruct x as [n|b|pi|id er]; cbn [perform]; try done.
  - unfold CancelUnwrittenBytes. split; [|done]. cbn [settled set_unwritten _unwritten_bytes _overcrowded]. by case_match.
  - destruct (error_counts id er s) as (Hu & Hc & He & Hh). cbn [app settled]. by rewrite Hu, Hc.
Qed.
Lemma perform_crowding t w i x l p : invs t w -> threads t !! i = Some (mkT (x :: l) p) -> (clean t -> crowding t) ->
  let '(s', l') := perform max_unwritten x (sock t) in
  let t' := mkS s' (<[i := mkT (l' ++ l) p]> (threads t)) in clean t' -> crowding t'.
Proof.
  intros Ht Hi Hcr. pose proof (perform_settled x (sock t) l) as Hps. destruct (perform max_unwritten x (sock t)) as [s' l'] eqn:Hx. destruct Hps as (Hs & He & Hh). intros t' Hcl.
  assert (clean t) as Hcl0 by (apply (clean_grows t t'); [split; cbn [t' sock]; by rewrite ?He, ?Hh|done]). specialize (Hcr Hcl0). pose proof Hcr as [H1 H2].
  destruct (is_owner p) eqn:Ho.
  - destruct (settled_owner t w i _ (_unwritten_bytes (sock t)) (_overcrowded (sock t)) Ht Hcr Hi Ho) as [Hq Hso]. split; cbn [t' sock threads].
    + rewrite <- (app_nil_r (<[i := _]> _)). apply (insert_threads (fun th => (is_owner (at_pc th) = false -> quiet (accesses th) = true) /\ forall a er rc, at_pc th <> Release3 a er rc) _ i _ []); [done| |by intros q []%elem_of_nil].
      cbn [at_pc]. split; [congruence|]. apply (H1 i _ Hi).
    + rewrite (settled_thread _ i (mkT (l' ++ l) p)).
      * cbn [accesses]. rewrite Hs. rewrite Hso in H2. exact H2.
      * apply list_lookup_insert_eq. by eapply lookup_lt_Some.
      * intros j th. rewrite list_lookup_insert_Some. intros [(? & _)|[_ Hj]] Hne; [done|]. by apply (Hq j).
  - destruct (H1 i _ Hi) as [Hq Hno]. specialize (Hq Ho). cbn [accesses at_pc] in Hq, Hno.
    assert (l' = [] /\ _unwritten_bytes s' = _unwritten_bytes (sock t) /\ _overcrowded s' = _overcrowded (sock t)) as (-> & Hu & Hc).
    { destruct x as [n|b|pi|id er]; try done; cbn [perform] in Hx; simplify_eq; [done|]. split; [done|]. destruct (error_counts id er (sock t)) as (Hu & Hc & _). done. }
    unfold t'. rewrite <- (app_nil_r (<[i := _]> _)). apply (crowding_quiet t i (mkT (x :: l) p) s' l p []); try done.
    + by destruct x.
    + by intros q a er rc []%elem_of_nil.
Qed.
Lemma step_crowding c t w t' log w' : invs t w -> step c t = Some (t', log) -> invs t' w' -> (clean t -> crowding t) -> clean t' -> crowding t'.
Proof.
  intros Ht Hst Ht' Hcr Hcl. destruct (step_cases c t t' log Hst) as [->|[(i & m & o & -> & Hi & ->)|[(er & -> & ->)|[(i & x & l & p & Hi & ->)|(i & e & p & s' & p' & r & new & l & Hi & Hp & Hps & ->)]]]].
  - by apply Hcr.
  - assert (_unwritten_bytes (Write_call m o (sock t)).1.1 = _unwritten_bytes (sock t) /\ _overcrowded (Write_call m o (sock t)).1.1 = _overcrowded (sock t) /\
      ended (Write_call m o (sock t)).1.1 = ended (sock t) /\ history (Write_call m o (sock t)).1.1 = history (sock t) /\
      forall a er rc, (Write_call m o (sock t)).1.2 <> Release3 a er rc) as (Hu & Hc & He & Hh & Hn).
    { unfold Write_call. destruct m as [[|y d]|out]; [|case_match..]; try done.
      all: match goal with |- context [SetError ?a ?b ?c] => destruct (error_of_counts a b c) as (s1 & rv & -> & ? & ? & ? & ?) end; done. }
    rewrite <- (app_nil_r (<[i := _]> _)). apply (crowding_quiet t i idle _ [] _ []); try done; [|by intros q a er rc []%elem_of_nil].
    apply Hcr, (clean_grows _ _) with (2 := Hcl). split; cbn [sock]; by rewrite ?He, ?Hh.
  - destruct (fail_counts er (sock t)) as (Hu & Hc & He & Hh). assert (crowding t) as [H1 H2].
    { apply Hcr, (clean_grows _ _) with (2 := Hcl). split; cbn [sock]; by rewrite ?He, ?Hh. }
    split; cbn [sock threads]; [done|]. by rewrite Hu, Hc.
  - pose proof (perform_crowding t w i x l p Ht Hi Hcr) as H. destruct (perform max_unwritten x (sock t)) as [s' l']. by apply H.
  - by apply (pstep_crowding e t w i p s' p' r new l w').
Qed.
(** Every state that a schedule reaches is accounted for, and the flag is right. *)
Lemma run_crowding cs t w t' log : 0 < max_unwritten -> invs t w -> (clean t -> crowding t) -> run cs t = Some (t', log) ->
  exists w', invs t' w' /\ (clean t' -> crowding t').
Proof.
  intros Hm. revert t w log. induction cs as [|c cs IH]; intros t w log Ht Hcr; cbn [SocketWrite.run]; [intros [= <- <-]; by exists w|].
  destruct (write_step_inv c t w Ht) as (t1 & l1 & w1 & H1 & Ht1). rewrite H1. cbn [mbind option_bind].
  destruct (run cs t1) as [[t2 l2]|] eqn:Hr; [|done]. cbn [mbind option_bind]. intros [= <- <-]. apply (IH t1 w1 l2 Ht1); [|done]. by apply (step_crowding c t w t1 l1 w1).
Qed.
Lemma start_crowding n b : 0 < max_unwritten -> crowding (start n b).
Proof.
  intros Hm. split; cbn [start sock threads].
  - by intros j th [-> _]%lookup_replicate.
  - rewrite quiet_join; [cbn; symmetry; by apply Z.leb_gt|]. apply Forall_fmap, Forall_replicate. done.
Qed.
End Runs.
End SocketWriteRuns.
