(* ===== verification/SocketWriteTheorems.v ===== *)
(** * What the write path of Socket promises

    For every schedule of calls of [Write], of the bthreads they start, of failures and
    of answers of the kernel: the order of the bytes in the fd, the count of unwritten
    bytes, what is left when all threads are done, and where a notification gets lost. *)
From stdpp Require Import base list gmap sets.
From Stdlib Require Import ZArith Lia Bool.
From S2P Require Import Prelude PushList SocketWrite SocketWriteInv SocketWriteSteps SocketWriteRuns.

Open Scope Z_scope.

Module SocketWriteTheorems.
Import PushList SocketWrite SocketWriteInv SocketWriteSteps SocketWriteRuns.

(** What a stream of messages looks like that were sent one after the other: of the
    first messages [ok] says which were accepted completely - of the others a prefix
    may have been sent -, and of the rest a prefix was sent. *)
Definition in_order (ok : list bool) (msgs : list (list Z)) (bytes : list Z) : Prop :=
  (length ok <= length msgs)%nat /\
  exists sent rest, bytes = mjoin sent ++ rest /\
    Forall3 (fun w (b : bool) h => w `prefix_of` h /\ (b = true -> w = h)) sent ok (take (length ok) msgs) /\
    rest `prefix_of` mjoin (drop (length ok) msgs).

Lemma delivered_in_order ws es hs : Forall3 delivered ws es hs ->
  Forall3 (fun w (b : bool) h => w `prefix_of` h /\ (b = true -> w = h)) ws es.*2 hs.
Proof. induction 1; by constructor. Qed.
Lemma progress_prefix s l k fl V : progress s l k fl V -> V `prefix_of` mjoin (pending s).
Proof.
  unfold progress. destruct fl; [done|]. intros (_ & Heq & _). transitivity (mjoin (take k (pending s))); [rewrite <- Heq; by apply prefix_app_r|].
  rewrite <- (take_drop k (pending s)) at 2. rewrite join_app. by apply prefix_app_r.
Qed.
Lemma contents_in_order s l k fl : contents s l k fl -> in_order (ended s).*2 (history s) (wire s).
Proof.
  intros [H1 _ _ _ (ws & V & H5 & H6 & H7)]. split; [rewrite length_fmap; lia|]. exists ws, V. rewrite length_fmap. split; [done|].
  split; [by apply delivered_in_order|by eapply progress_prefix].
Qed.
Lemma contents_tickets s l k fl : contents s l k fl -> (ended s).*1 = seq 0 (length (ended s)).
Proof.
  intros Hc. apply list_eq. intros j. rewrite list_lookup_fmap. destruct (ended s !! j) as [x|] eqn:Hj; cbn [fmap option_fmap option_map].
  - rewrite (ct_ended _ _ _ _ Hc j x Hj), lookup_seq_lt by (by eapply lookup_lt_Some). done.
  - symmetry. apply lookup_seq_ge. by apply lookup_ge_None.
Qed.
Lemma reach_inv max_unwritten n b cs t log : 0 < max_unwritten -> run max_unwritten cs (start n b) = Some (t, log) ->
  exists w, invs t w /\ (clean t -> crowding max_unwritten t).
Proof.
  intros Hm Hrun. destruct (write_start_inv n b) as [w Hw]. apply (run_crowding max_unwritten cs (start n b) w t log Hm Hw); [|done].
  intros _. by apply start_crowding.
Qed.

(** C2: For every schedule of any number of threads that call Write, of the KeepWrite
    bthreads and connect callbacks they start, of failures reported by other threads
    and of whatever the kernel answers: no thread ever follows a NULL, unconnected or
    dangling next pointer (the run is defined), and the fd has the messages in the order
    in which the requests were exchanged into _write_head, never interleaved: of the
    requests that left the list - each once, in this order - the successful ones
    completely and of the failed ones a prefix, then a prefix of what the requests in
    the list hold. *)
Theorem socket_write_in_order max_unwritten n b cs : 0 < max_unwritten ->
  exists t log, run max_unwritten cs (start n b) = Some (t, log) /\
    (ended (sock t)).*1 = seq 0 (length (ended (sock t))) /\
    in_order (ended (sock t)).*2 (history (sock t)) (wire (sock t)).
Proof.
  intros Hm. destruct (write_run_inv max_unwritten cs (start n b) (write_start_inv n b)) as (t & log & Hrun & w & [Hinv _]).
  exists t, log. split; [done|]. split; [by eapply contents_tickets, Hinv|by eapply contents_in_order, Hinv].
Qed.

(** C9: As long as fewer than 2^63 bytes were given to Write, _unwritten_bytes is
    exactly the number of unwritten bytes of the requests in the list that were set up,
    plus the bytes of the last write that its owner has not yet subtracted: it never
    wraps, is never negative and never more than what the requests in the list were
    given.  And as long as no request has failed, whenever no thread is between an
    addition to (or subtraction from) the count and the store to _overcrowded that
    follows it, _overcrowded is set exactly when the count is at or above
    -socket_max_unwritten_bytes.  (After a failure a late store can leave it wrong, see
    [late_store_clears_overcrowded].) *)
Theorem socket_unwritten_bytes max_unwritten n b cs t log : 0 < max_unwritten ->
  run max_unwritten cs (start n b) = Some (t, log) -> total (history (sock t)) < 2 ^ 63 ->
  exists l, Forall2 (holds (sock t)) l (pending (sock t)) /\
    0 <= dues (threads t) /\
    _unwritten_bytes (sock t) = sum (sock t) l + dues (threads t) /\
    0 <= _unwritten_bytes (sock t) <= total (pending (sock t)) /\
    (Forall (fun x => x.2 = true) (ended (sock t)) -> Forall (fun th => quiet (accesses th) = true) (threads t) ->
      _overcrowded (sock t) = (max_unwritten <=? _unwritten_bytes (sock t))).
Proof.
  intros Hm Hrun Htot. destruct (reach_inv _ _ _ _ _ _ Hm Hrun) as (w & [Hinv Hall] & Hcr). destruct (in_accounts _ _ _ _ Hinv) as [Hu Hd].
  pose proof (ct_holds _ _ _ _ (in_contents _ _ _ _ Hinv)) as Hh. pose proof (sum_bound _ _ _ Hh) as Hb.
  pose proof (contents_sum _ _ _ _ (in_contents _ _ _ _ Hinv)) as Hs. pose proof (pending_total (sock t)) as Hp. exists (nodes w). split; [done|].
  split; [by apply dues_nonneg|]. assert (0 <= sum (sock t) (nodes w) + dues (threads t) <= total (pending (sock t))) as Hr by (destruct Hd as [->|[? ?]]; lia).
  rewrite i64_small in Hu by lia. rewrite Hu. split; [done|]. split; [done|]. intros He Hq. specialize (Hcr (conj He Htot)). pose proof (cr_flag _ _ Hcr) as Hfl.
  rewrite quiet_join in Hfl by (by apply Forall_fmap). cbn [fst snd] in Hfl. by rewrite Hfl, Hu.
Qed.

(** C10: When all threads are done - every call of Write has returned and no KeepWrite
    or connect callback is left -, _write_head is NULL and _unwritten_bytes 0, every
    request that entered the list has left it, exactly once and in order; and if none of
    them failed, the fd has all the messages, complete and in order. *)
Theorem socket_write_quiescent max_unwritten n b cs t log : 0 < max_unwritten ->
  run max_unwritten cs (start n b) = Some (t, log) -> Forall (eq idle) (threads t) ->
  _write_head (sock t) = None /\ _unwritten_bytes (sock t) = 0 /\
  (ended (sock t)).*1 = seq 0 (length (history (sock t))) /\
  (Forall (fun x => x.2 = true) (ended (sock t)) -> wire (sock t) = mjoin (history (sock t))).
Proof.
  intros Hm Hrun Hidle. destruct (reach_inv _ _ _ _ _ _ Hm Hrun) as (w & [Hinv _] & _).
  assert (w = VEmpty) as ->.
  { destruct w as [|i fs o lo todo rev back k fl]; [done|]. destruct (in_shape _ _ _ _ Hinv) as (_ & (p & Hp & Hown & _) & _).
    rewrite list_lookup_fmap in Hp. destruct (threads t !! i) as [th|] eqn:Hi; [|done]. injection Hp as <-. by rewrite <- (Forall_lookup_1 _ _ _ _ Hidle Hi) in Hown. }
  assert (dues (threads t) = 0) as Hd by (apply dues_zero; intros j th Hj; by rewrite <- (Forall_lookup_1 _ _ _ _ Hidle Hj)).
  pose proof (in_contents _ _ _ _ Hinv) as Hc. destruct (in_accounts _ _ _ _ Hinv) as [Hu _]. rewrite Hd in Hu. cbn [nodes sum] in Hc, Hu.
  pose proof (ct_length _ _ _ _ Hc) as Hlen. cbn [length] in Hlen. split; [apply (in_shape _ _ _ _ Hinv)|]. split; [done|].
  split; [rewrite (contents_tickets _ _ _ _ Hc); f_equal; lia|]. intros Hall.
  destruct Hc as [_ H2 _ _ (ws & V & -> & H6 & H7%progress_prefix)]. apply Forall2_nil_inv_l in H2. rewrite H2 in H7. apply prefix_nil_inv in H7 as ->.
  rewrite take_ge in H6 by lia. rewrite app_nil_r. f_equal. clear -H6 Hall. induction H6 as [|w x h ws es hs [_ H] _ IH]; [done|].
  apply Forall_cons in Hall as [Hx Hall]. by rewrite H, IH.
Qed.

(** ** Concrete schedules *)
Definition opt (id : Z) (notify : bool) : WriteOptions := mkOpt id notify 0 0 false false false.
Definition sys (mem : addr) (nbytes errno : Z) : env := mkEnv mem nbytes errno.
Definition steps (i n : nat) (e : env) : list choice := replicate n (SStep i e).
(** Thread 0 writes a message and is about to look whether it has to notify; thread 1
    writes another one into a request at [a]. *)
Definition notify_schedule (a : addr) : list choice :=
  SWrite 0 (FromIOBuf [1]) (opt 7 true) :: steps 0 12 (sys 0%nat 100 0) ++
  SWrite 1 (FromIOBuf [2]) (opt 9 false) :: steps 1 3 (sys a 100 0) ++ steps 0 1 (sys a 0 0) ++ steps 1 10 (sys a 100 0).

(** ReturnSuccessfulWriteRequest gives the request back to the object pool before
    it asks it is_notify_on_success.  In two schedules that differ only in the address
    the pool gives to another Write, both messages are written completely, all threads
    are done and both calls return 0; but when the request is reused in between, the id
    that asked to be notified on success is put into the list of ids to be notified of a
    failure, and never signalled. *)
Theorem socket_notification_lost : exists t u log,
  run 100 (notify_schedule 1%nat) (start 2 true) = Some (t, log) /\
  run 100 (notify_schedule 0%nat) (start 2 true) = Some (u, log) /\
  wire (sock t) = [1; 2] /\ wire (sock u) = [1; 2] /\ ended (sock t) = ended (sock u) /\
  Forall (eq idle) (threads t) /\ Forall (eq idle) (threads u) /\
  signals (sock t) = [(7, 0)] /\ waiting (sock t) = [9] /\
  signals (sock u) = [] /\ waiting (sock u) = [7; 9].
Proof. eexists _, _, _. split; [vm_compute; reflexivity|]. split; [vm_compute; reflexivity|]. repeat split; by repeat constructor. Qed.

(** The steps of a Write whose connect fails with [err]. *)
Definition connect_error (err : Z) : list choice := steps 0 5 (sys 0%nat 0 0) ++ steps 0 10 (sys 0%nat 0 err).
(** A Write whose connect fails at once returns -1 with the error code of the
    connect, and has also signalled id_wait with it - for every message, id and error
    code. *)
Theorem socket_connect_error max_unwritten d id notify err : 0 < max_unwritten -> d <> [] -> id <> INVALID_BTHREAD_ID -> err <> 0 ->
  exists t, run max_unwritten (SWrite 0 (FromIOBuf d) (opt id notify) :: connect_error err) (start 1 false) = Some (t, [(0%nat, (-1, err))]) /\
    threads t = [idle] /\ signals (sock t) = [(id, err)] /\ failed (sock t) = Some err /\ wire (sock t) = [] /\ _write_head (sock t) = None.
Proof.
  intros Hm Hd Hid Herr. destruct d as [|x d]; [done|]. destruct max_unwritten as [|m|m], id as [|q|q], err as [|r|r]; try done; destruct notify;
    (eexists; split; [vm_compute; reflexivity|done]).
Qed.
(** Thread 0 fails to write, thread 1 has passed the check of _overcrowded before. *)
Definition late_store_schedule : list choice :=
  SWrite 0 (FromIOBuf [1]) (opt 7 true) :: steps 0 7 (sys 0%nat 0 0) ++
  SWrite 1 (FromIOBuf [2; 3; 4; 5; 6]) (opt 9 false) :: steps 1 3 (sys 1%nat 0 0) ++
  steps 0 7 (sys 0%nat 0 32) ++ steps 1 5 (sys 1%nat 0 0).
(** [CancelUnwrittenBytes] subtracts and then stores false.  A thread that has released
    the list of a failed Socket makes this call once more, for the empty last request;
    when its store comes after the addition of a new owner, which sets _overcrowded, the
    flag is left unset - with no store to come - although the count is at or above
    -socket_max_unwritten_bytes. *)
Theorem late_store_clears_overcrowded : exists t u log,
  run 4 late_store_schedule (start 2 true) = Some (t, log) /\ _unwritten_bytes (sock t) = 5 /\ _overcrowded (sock t) = true /\
  run 4 [SStep 0 (sys 0%nat 0 0)] t = Some (u, []) /\ _unwritten_bytes (sock u) = 5 /\ _overcrowded (sock u) = false /\
  Forall (fun th => quiet (accesses th) = true) (threads u).
Proof. eexists _, _, _. split; [vm_compute; reflexivity|]. repeat (split; [vm_compute; reflexivity|]). vm_compute. by repeat constructor. Qed.

Lemma run_app max_unwritten cs1 cs2 t t1 l1 : run max_unwritten cs1 t = Some (t1, l1) ->
  run max_unwritten (cs1 ++ cs2) t = '(t2, l2) ← run max_unwritten cs2 t1; Some (t2, l1 ++ l2).
Proof.
  revert t t1 l1. induction cs1 as [|c cs1 IH]; intros t t1 l1; cbn [run app].
  - intros [= <- <-]. by destruct (run _ cs2 t) as [[? ?]|].
  - destruct (step _ c t) as [[t0 l0]|]; [|done]. cbn [mbind option_bind]. destruct (run _ cs1 t0) as [[t' l']|] eqn:H; [|done].
    cbn [mbind option_bind]. intros [= <- <-]. rewrite (IH _ _ _ H). destruct (run _ cs2 t') as [[? ?]|]; [|done]. cbn [mbind option_bind]. by rewrite app_assoc.
Qed.
Lemma run_step max_unwritten i e cs t p s' p' r new l u log : threads t !! i = Some (mkT [] p) -> pstep max_unwritten e (sock t) p = Some (s', p', r, new, l) ->
  run max_unwritten cs (mkS s' (<[i := mkT l p']> (threads t) ++ (mkT [] <$> new))) = Some (u, log) -> run max_unwritten (SStep i e :: cs) t = Some (u, emit i r ++ log).
Proof.
  intros Hi Hp Hr. cbn [run step]. rewrite Hi. destruct p; try done; rewrite Hp; cbn [mbind option_bind]; by rewrite Hr.
Qed.
Lemma run_write max_unwritten i m o cs t s' p' r u log : threads t !! i = Some idle -> Write_call m o (sock t) = (s', p', r) ->
  run max_unwritten cs (mkS s' (<[i := mkT [] p']> (threads t))) = Some (u, log) -> run max_unwritten (SWrite i m o :: cs) t = Some (u, emit i r ++ log).
Proof. intros Hi Hp Hr. cbn [run step]. rewrite Hi. cbn [idle]. rewrite Hp. cbn [mbind option_bind]. by rewrite Hr. Qed.
(** A Write into a request at [a] while another thread is connecting. *)
Definition queue_one (a : addr) (d : list Z) : list choice := SWrite 0 (FromIOBuf d) (opt INVALID_BTHREAD_ID false) :: steps 0 5 (sys a 0 0).
Fixpoint queue_all (a : addr) (ds : list (list Z)) : list choice := match ds with [] => [] | d :: ds => queue_one a d ++ queue_all (S a) ds end.
Definition connecting (a : addr) (t : state) : Prop :=
  threads t = [idle; mkT [] (Connected 0%nat)] /\ _write_head (sock t) = Some (pred a) /\ _overcrowded (sock t) = false /\ failed (sock t) = None /\
  _unwritten_bytes (sock t) = 0 /\ ended (sock t) = [] /\ (forall b : addr, (a <= b)%nat -> heap (sock t) !! b = None).
Lemma queue_one_ok max_unwritten a d t : d <> [] -> connecting a t ->
  exists t', run max_unwritten (queue_one a d) t = Some (t', [(0%nat, (0, 0))]) /\ connecting (S a) t' /\ history (sock t') = history (sock t) ++ [d].
Proof.
  intros Hd (Hth & Hhd & Hcr & Hf & Hu & He & Hfree). destruct t as [s ths]. cbn [sock threads] in *. subst ths. destruct d as [|x d]; [done|].
  set (r1 := fill (FromIOBuf (x :: d)) (opt INVALID_BTHREAD_ID false) fresh_request).
  exists (mkS (set_heap (<[a := set_next (To (pred a)) (set_ticket (length (history s)) r1)]> (<[a := set_ticket (length (history s)) r1]> (<[a := r1]> (heap s))))
    (set_write_head (Some a) (set_log (history s ++ [x :: d]) (ended s) s))) [idle; mkT [] (Connected 0%nat)]). split; [|split].
  - change [(0%nat, (0, 0))] with (emit 0 None ++ (emit 0 None ++ (emit 0 None ++ (emit 0 None ++ (emit 0 None ++ (emit 0 (Some (0, 0)) ++ [])))))).
    eapply run_write; [done|done|]. eapply run_step; [done|cbn [pstep Write_step sock]; by rewrite Hf|].
    eapply run_step; [done|cbn [pstep Write_step sock]; by rewrite Hcr|].
    eapply run_step; [done|cbn [pstep Write_step sock mem sys]; by rewrite (Hfree a)|].
    eapply run_step; [done|cbn [pstep StartWrite_step sock]; unfold update; cbn [set_heap heap _write_head]; rewrite lookup_insert_eq; cbn [mbind option_bind]; by rewrite Hhd|].
    eapply run_step; [done|cbn [pstep StartWrite_step sock]; unfold update; cbn [set_heap set_write_head set_log heap]; rewrite lookup_insert_eq; done|]. done.
  - repeat split; try done. cbn. intros b Hb. rewrite !lookup_insert_ne by lia. apply Hfree. lia.
  - done.
Qed.
Lemma queue_all_ok max_unwritten ds a t : Forall (fun d => d <> []) ds -> connecting a t ->
  exists t', run max_unwritten (queue_all a ds) t = Some (t', replicate (length ds) (0%nat, (0, 0))) /\
    connecting (a + length ds)%nat t' /\ history (sock t') = history (sock t) ++ ds.
Proof.
  intros Hds. revert a t. induction Hds as [|d ds Hd _ IH]; intros a t Ht; cbn [queue_all length replicate].
  - exists t. rewrite Nat.add_0_r, app_nil_r. done.
  - destruct (queue_one_ok max_unwritten a d t Hd Ht) as (t1 & H1 & Ht1 & Hh1). destruct (IH (S a) t1 Ht1) as (t2 & H2 & Ht2 & Hh2).
    exists t2. rewrite (run_app _ _ _ _ _ _ H1), H2. split; [done|]. rewrite Nat.add_succ_r. split; [done|]. rewrite Hh2, Hh1, <- app_assoc. done.
Qed.
(** Only requests that were set up are counted: while a connect is in progress,
    every Write returns 0 however many bytes are waiting, with _unwritten_bytes 0 and
    _overcrowded false, whatever -socket_max_unwritten_bytes is. *)
Theorem socket_limit_ignored_while_connecting max_unwritten d ds : d <> [] -> Forall (fun d => d <> []) ds ->
  exists t, run max_unwritten ((SWrite 0 (FromIOBuf d) (opt INVALID_BTHREAD_ID false) :: steps 0 6 (sys 0%nat 0 0)) ++ queue_all 1%nat ds) (start 1 false) =
      Some (t, replicate (S (length ds)) (0%nat, (0, 0))) /\
    history (sock t) = d :: ds /\ ended (sock t) = [] /\ _unwritten_bytes (sock t) = 0 /\ _overcrowded (sock t) = false.
Proof.
  intros Hd Hds. destruct d as [|x d]; [done|].
  assert (exists t, run max_unwritten (SWrite 0 (FromIOBuf (x :: d)) (opt INVALID_BTHREAD_ID false) :: steps 0 6 (sys 0%nat 0 0)) (start 1 false) = Some (t, [(0%nat, (0, 0))]) /\
    connecting 1%nat t /\ history (sock t) = [x :: d]) as (t1 & H1 & Ht1 & Hh1).
  { exists (mkS (set_write_head (Some 0%nat) (set_log [x :: d] [] (set_heap {[0%nat := mkReq (x :: d) Null 0 0 (Some DUMMY_USER_MESSAGE) 0 0]} new))) [idle; mkT [] (Connected 0%nat)]).
    split; [vm_compute; reflexivity|]. split; [|done]. repeat split; try done. intros [|b] Hb; [lia|]. by apply lookup_singleton_ne. }
  destruct (queue_all_ok max_unwritten ds 1%nat t1 Hds Ht1) as (t2 & H2 & (_ & _ & Ho & _ & Hu & He & _) & Hh2).
  exists t2. rewrite (run_app _ _ _ _ _ _ H1), H2. split; [done|]. rewrite Hh2, Hh1. done.
Qed.

(** ** Packed fields *)
Lemma pointer_mask_bits n : 0 <= n -> Z.testbit PackedPtr.POINTER_MASK n = (n <? 48).
Proof. intros Hn. change PackedPtr.POINTER_MASK with (Z.ones 48). by rewrite Z.testbit_ones_nonneg by lia. Qed.
Lemma extra_mask_bits n : 0 <= n -> Z.testbit PackedPtr.EXTRA_MASK n = (48 <=? n) && (n <? 64).
Proof.
  intros Hn. change PackedPtr.EXTRA_MASK with (Z.shiftl (Z.ones 16) 48). rewrite Z.shiftl_spec by lia.
  destruct (Z.leb_spec 48 n); [|by rewrite Z.testbit_neg_r by lia]. rewrite Z.testbit_ones_nonneg by lia. cbn [andb].
  destruct (Z.ltb_spec (n - 48) 16), (Z.ltb_spec n 64); try done; lia.
Qed.
Lemma mod_bits x k n : 0 <= k -> 0 <= n -> Z.testbit (x mod 2 ^ k) n = (n <? k) && Z.testbit x n.
Proof. intros Hk Hn. destruct (Z.ltb_spec n k); [by rewrite Z.mod_pow2_bits_low by lia|by rewrite Z.mod_pow2_bits_high by lia]. Qed.
Lemma small_bits x k n : 0 <= k -> 0 <= x < 2 ^ k -> k <= n -> Z.testbit x n = false.
Proof. intros Hk Hx Hn. rewrite <- (Z.mod_small x (2 ^ k)) by lia. by rewrite Z.mod_pow2_bits_high by lia. Qed.
(** Equality of words bit by bit: the comparisons of positions are decided. *)
Ltac bits := apply Z.bits_inj'; let n := fresh "n" in intros n ?;
  unfold PackedPtr.set, PackedPtr.reset, PackedPtr.get, PackedPtr.set_extra, PackedPtr.reset_extra, PackedPtr.extra, PackedPtr.set_ptr_and_extra, PackedPtr.MAX_POINTER_LEN, u64, u16;
  repeat first [rewrite Z.lor_spec | rewrite Z.land_spec | rewrite pointer_mask_bits by lia | rewrite extra_mask_bits by lia | rewrite mod_bits by lia
    | rewrite Z.shiftl_spec by lia | rewrite Z.shiftr_spec by lia | rewrite Z.add_simpl_r | rewrite Z.bits_0];
  repeat match goal with
    | |- context [?a <? ?b] => destruct (Z.ltb_spec a b); try lia
    | |- context [?a <=? ?b] => destruct (Z.leb_spec a b); try lia
  end; cbn [andb orb]; rewrite ?andb_true_r, ?andb_false_r, ?orb_false_r; cbn [andb orb];
  rewrite ?(Z.testbit_neg_r _ (n - 48)), ?orb_false_r by lia; try done.

(** The two halves of a PackedPtr - 48 bits of pointer, 16 bits of anything - do not
    disturb each other: every setter gives back what was set and keeps the other
    half. *)
Theorem packed_ptr_halves p e d : 0 <= p < 2 ^ 48 -> 0 <= e < 2 ^ 16 ->
  PackedPtr.get (PackedPtr.set_ptr_and_extra p e) = p /\ PackedPtr.extra (PackedPtr.set_ptr_and_extra p e) = e /\
  PackedPtr.get (PackedPtr.set p d) = p /\ PackedPtr.extra (PackedPtr.set p d) = PackedPtr.extra d /\
  PackedPtr.get (PackedPtr.set_extra e d) = PackedPtr.get d /\ PackedPtr.extra (PackedPtr.set_extra e d) = e /\
  PackedPtr.get (PackedPtr.reset d) = 0 /\ PackedPtr.extra (PackedPtr.reset d) = PackedPtr.extra d /\
  PackedPtr.get (PackedPtr.reset_extra d) = PackedPtr.get d /\ PackedPtr.extra (PackedPtr.reset_extra d) = 0.
Proof.
  intros Hp He. pose proof (fun n => small_bits p 48 n ltac:(lia) Hp) as Hp'. pose proof (fun n => small_bits e 16 n ltac:(lia) He) as He'.
  repeat split; bits; symmetry; auto with lia.
Qed.

Lemma lor_shiftl_add a b k : 0 <= k -> 0 <= a < 2 ^ k -> Z.lor a (Z.shiftl b k) = a + b * 2 ^ k.
Proof.
  intros Hk Ha. rewrite Z.shiftl_mul_pow2 by done. symmetry.
  rewrite <- Z.lxor_lor; [apply Z.add_nocarry_lxor|]; apply Z.bits_inj'; intros n Hn; rewrite Z.land_spec, Z.bits_0, <- Z.shiftl_mul_pow2, Z.shiftl_spec by lia.
  all: destruct (Z.lt_ge_cases n k); [by rewrite (Z.testbit_neg_r b), andb_false_r by lia|by rewrite (small_bits a k) by lia].
Qed.
(** A request gives back the pipelined count and the authentication flags it was
    made with, for every count below 16384; but Write also accepts the count 16384
    itself (MAX_PIPELINED_COUNT), which is read back as 0 - so that Setup does not
    expect any response to the request - with the lowest authentication flag set. *)
Theorem pipelined_count_roundtrip m o r d : 0 <= o_auth_flags o < 4 ->
  (0 <= o_pipelined_count o < MAX_PIPELINED_COUNT ->
    pipelined_count (fill m o r) = o_pipelined_count o /\ get_auth_flags (fill m o r) = o_auth_flags o) /\
  (o_pipelined_count o = MAX_PIPELINED_COUNT -> forall s, d <> [] ->
    Write_call (FromIOBuf d) o s = (s, WFailed (FromIOBuf d) o, None) /\
    pipelined_count (fill m o r) = 0 /\ get_auth_flags (fill m o r) = Z.lor (o_auth_flags o) 1).
Proof.
  intros Ha. unfold pipelined_count, get_auth_flags, fill, set_pipelined_count_and_user_message, MAX_PIPELINED_COUNT. cbn [pc_bits].
  change 0x3FFF with (Z.ones 14). change 0x03 with (Z.ones 2). rewrite !Z.land_ones, Z.shiftr_div_pow2 by lia. rewrite (Z.mod_small (o_auth_flags o)) by lia. split.
  - intros Hp. assert ((if o_auth_flags o =? 0 then o_pipelined_count o else Z.lor (o_pipelined_count o) (Z.shiftl (o_auth_flags o) 14)) = o_pipelined_count o + o_auth_flags o * 2 ^ 14) as ->.
    { destruct (Z.eqb_spec (o_auth_flags o) 0) as [->|_]; [lia|]. apply lor_shiftl_add; lia. }
    rewrite u16_small by lia. rewrite Z.mod_add, Z.div_add, Z.mod_small, Z.div_small, Z.mod_small by lia. lia.
  - intros Hp s Hd. rewrite Hp. split; [unfold Write_call; rewrite Hp; by destruct d|].
    assert (o_auth_flags o = 0 \/ o_auth_flags o = 1 \/ o_auth_flags o = 2 \/ o_auth_flags o = 3) as [->|[->|[->| ->]]] by lia; done.
Qed.

(** ** The theorems on concrete inputs *)
Lemma socket_write_in_order_witness : 0 < 100 /\ exists t log, run 100 (notify_schedule 1%nat) (start 2 true) = Some (t, log) /\
  (ended (sock t)).*1 = seq 0 (length (ended (sock t))) /\ in_order (ended (sock t)).*2 (history (sock t)) (wire (sock t)).
Proof. split; [lia|]. apply socket_write_in_order. lia. Defined.
(** A message of which the kernel took one byte of five. *)
Definition partial_schedule : list choice := SWrite 0 (FromIOBuf [1; 2; 3; 4; 5]) (opt 7 true) :: steps 0 10 (sys 0%nat 1 0).
Definition reached (cs : list choice) (n : nat) : state := match run 4 cs (start n true) with Some (t, _) => t | None => start n true end.
Lemma socket_unwritten_bytes_witness : exists l,
  Forall2 (holds (sock (reached partial_schedule 1))) l [[1; 2; 3; 4; 5]] /\ 4 = sum (sock (reached partial_schedule 1)) l + 0 /\ 0 <= 4 <= 5 /\ true = (4 <=? 4).
Proof.
  assert (run 4 partial_schedule (start 1 true) = Some (reached partial_schedule 1, [])) as Hr by (vm_compute; reflexivity).
  destruct (socket_unwritten_bytes 4 1 true partial_schedule (reached partial_schedule 1) [] ltac:(lia) Hr ltac:(vm_compute; reflexivity)) as (l & H1 & _ & H2 & H3 & H4).
  exists l. split; [exact H1|]. split; [exact H2|]. split; [exact H3|]. apply H4; vm_compute; by repeat constructor.
Defined.
Lemma socket_write_quiescent_witness : exists t log, run 100 (notify_schedule 1%nat) (start 2 true) = Some (t, log) /\ Forall (eq idle) (threads t) /\
  _write_head (sock t) = None /\ wire (sock t) = mjoin (history (sock t)).
Proof.
  assert (exists x, run 100 (notify_schedule 1%nat) (start 2 true) = Some x) as [[t log] Ht] by (vm_compute; eexists; reflexivity).
  exists t, log. split; [exact Ht|]. assert (Forall (eq idle) (threads t) /\ Forall (fun x => x.2 = true) (ended (sock t))) as [Hi He].
  { vm_compute in Ht. injection Ht as <- _. split; by repeat constructor. }
  split; [exact Hi|]. pose proof (socket_write_quiescent 100 2 true _ t log ltac:(lia) Ht Hi) as (H1 & _ & _ & H4). split; [exact H1|exact (H4 He)].
Defined.
Lemma socket_connect_error_witness : exists t, run 4 (SWrite 0 (FromIOBuf [1]) (opt 7 true) :: connect_error 111) (start 1 false) = Some (t, [(0%nat, (-1, 111))]) /\
  threads t = [idle] /\ signals (sock t) = [(7, 111)] /\ failed (sock t) = Some 111 /\ wire (sock t) = [] /\ _write_head (sock t) = None.
Proof. apply socket_connect_error; done. Defined.
Lemma socket_limit_witness : exists t,
  run 4 ((SWrite 0 (FromIOBuf [1; 2; 3; 4; 5]) (opt INVALID_BTHREAD_ID false) :: steps 0 6 (sys 0%nat 0 0)) ++ queue_all 1%nat [[6; 7]; [8]]) (start 1 false) =
    Some (t, [(0%nat, (0, 0)); (0%nat, (0, 0)); (0%nat, (0, 0))]) /\
  history (sock t) = [[1; 2; 3; 4; 5]; [6; 7]; [8]] /\ ended (sock t) = [] /\ _unwritten_bytes (sock t) = 0 /\ _overcrowded (sock t) = false.
Proof. apply (socket_limit_ignored_while_connecting 4 [1; 2; 3; 4; 5] [[6; 7]; [8]]); [done|by repeat constructor]. Defined.
Lemma packed_ptr_witness : PackedPtr.get (PackedPtr.set_ptr_and_extra 0x7fff12345678 513) = 0x7fff12345678 /\ PackedPtr.extra (PackedPtr.set_ptr_and_extra 0x7fff12345678 513) = 513.
Proof. destruct (packed_ptr_halves 0x7fff12345678 513 0) as (H1 & H2 & _); [lia|lia|]. split; [exact H1|exact H2]. Defined.
Lemma pipelined_count_witness : pipelined_count (fill (FromIOBuf [1]) (mkOpt 7 false 1000 2 false false false) fresh_request) = 1000.
Proof. apply (pipelined_count_roundtrip (FromIOBuf [1]) (mkOpt 7 false 1000 2 false false false) fresh_request [1]); cbn; unfold MAX_PIPELINED_COUNT; lia. Defined.
End SocketWriteTheorems.
