(* ===== verification/HpackHuffman.v ===== *)
(** * HPACK Huffman coding (brpc/details/hpack.cpp, hpack-static-table.h)

    The code table, the tree built from it, the encoder and the decoder as bit-level
    state machines.  The output of the encoder (an [IOBufAppender]) and the input of
    the decoder are lists of bytes.  A null tree pointer dereferenced or a read
    outside the node vector is [None]. *)
From stdpp Require Import base list.
From Stdlib Require Import ZArith Lia Bool.
From S2P Require Import Prelude.

Open Scope Z_scope.

Module Huffman.

Record HuffmanCode := mkCode { code : Z; bit_len : Z }.

Definition s_huffman_table : list HuffmanCode := map (fun p => mkCode p.1 p.2) [
  (0x1ff8, 13); (0x7fffd8, 23); (0xfffffe2, 28); (0xfffffe3, 28); (0xfffffe4, 28); (0xfffffe5, 28);
  (0xfffffe6, 28); (0xfffffe7, 28); (0xfffffe8, 28); (0xffffea, 24); (0x3ffffffc, 30); (0xfffffe9, 28);
  (0xfffffea, 28); (0x3ffffffd, 30); (0xfffffeb, 28); (0xfffffec, 28); (0xfffffed, 28); (0xfffffee, 28);
  (0xfffffef, 28); (0xffffff0, 28); (0xffffff1, 28); (0xffffff2, 28); (0x3ffffffe, 30); (0xffffff3, 28);
  (0xffffff4, 28); (0xffffff5, 28); (0xffffff6, 28); (0xffffff7, 28); (0xffffff8, 28); (0xffffff9, 28);
  (0xffffffa, 28); (0xffffffb, 28); (0x14, 6); (0x3f8, 10); (0x3f9, 10); (0xffa, 12);
  (0x1ff9, 13); (0x15, 6); (0xf8, 8); (0x7fa, 11); (0x3fa, 10); (0x3fb, 10);
  (0xf9, 8); (0x7fb, 11); (0xfa, 8); (0x16, 6); (0x17, 6); (0x18, 6);
  (0x0, 5); (0x1, 5); (0x2, 5); (0x19, 6); (0x1a, 6); (0x1b, 6);
  (0x1c, 6); (0x1d, 6); (0x1e, 6); (0x1f, 6); (0x5c, 7); (0xfb, 8);
  (0x7ffc, 15); (0x20, 6); (0xffb, 12); (0x3fc, 10); (0x1ffa, 13); (0x21, 6);
  (0x5d, 7); (0x5e, 7); (0x5f, 7); (0x60, 7); (0x61, 7); (0x62, 7);
  (0x63, 7); (0x64, 7); (0x65, 7); (0x66, 7); (0x67, 7); (0x68, 7);
  (0x69, 7); (0x6a, 7); (0x6b, 7); (0x6c, 7); (0x6d, 7); (0x6e, 7);
  (0x6f, 7); (0x70, 7); (0x71, 7); (0x72, 7); (0xfc, 8); (0x73, 7);
  (0xfd, 8); (0x1ffb, 13); (0x7fff0, 19); (0x1ffc, 13); (0x3ffc, 14); (0x22, 6);
  (0x7ffd, 15); (0x3, 5); (0x23, 6); (0x4, 5); (0x24, 6); (0x5, 5);
  (0x25, 6); (0x26, 6); (0x27, 6); (0x6, 5); (0x74, 7); (0x75, 7);
  (0x28, 6); (0x29, 6); (0x2a, 6); (0x7, 5); (0x2b, 6); (0x76, 7);
  (0x2c, 6); (0x8, 5); (0x9, 5); (0x2d, 6); (0x77, 7); (0x78, 7);
  (0x79, 7); (0x7a, 7); (0x7b, 7); (0x7ffe, 15); (0x7fc, 11); (0x3ffd, 14);
  (0x1ffd, 13); (0xffffffc, 28); (0xfffe6, 20); (0x3fffd2, 22); (0xfffe7, 20); (0xfffe8, 20);
  (0x3fffd3, 22); (0x3fffd4, 22); (0x3fffd5, 22); (0x7fffd9, 23); (0x3fffd6, 22); (0x7fffda, 23);
  (0x7fffdb, 23); (0x7fffdc, 23); (0x7fffdd, 23); (0x7fffde, 23); (0xffffeb, 24); (0x7fffdf, 23);
  (0xffffec, 24); (0xffffed, 24); (0x3fffd7, 22); (0x7fffe0, 23); (0xffffee, 24); (0x7fffe1, 23);
  (0x7fffe2, 23); (0x7fffe3, 23); (0x7fffe4, 23); (0x1fffdc, 21); (0x3fffd8, 22); (0x7fffe5, 23);
  (0x3fffd9, 22); (0x7fffe6, 23); (0x7fffe7, 23); (0xffffef, 24); (0x3fffda, 22); (0x1fffdd, 21);
  (0xfffe9, 20); (0x3fffdb, 22); (0x3fffdc, 22); (0x7fffe8, 23); (0x7fffe9, 23); (0x1fffde, 21);
  (0x7fffea, 23); (0x3fffdd, 22); (0x3fffde, 22); (0xfffff0, 24); (0x1fffdf, 21); (0x3fffdf, 22);
  (0x7fffeb, 23); (0x7fffec, 23); (0x1fffe0, 21); (0x1fffe1, 21); (0x3fffe0, 22); (0x1fffe2, 21);
  (0x7fffed, 23); (0x3fffe1, 22); (0x7fffee, 23); (0x7fffef, 23); (0xfffea, 20); (0x3fffe2, 22);
  (0x3fffe3, 22); (0x3fffe4, 22); (0x7ffff0, 23); (0x3fffe5, 22); (0x3fffe6, 22); (0x7ffff1, 23);
  (0x3ffffe0, 26); (0x3ffffe1, 26); (0xfffeb, 20); (0x7fff1, 19); (0x3fffe7, 22); (0x7ffff2, 23);
  (0x3fffe8, 22); (0x1ffffec, 25); (0x3ffffe2, 26); (0x3ffffe3, 26); (0x3ffffe4, 26); (0x7ffffde, 27);
  (0x7ffffdf, 27); (0x3ffffe5, 26); (0xfffff1, 24); (0x1ffffed, 25); (0x7fff2, 19); (0x1fffe3, 21);
  (0x3ffffe6, 26); (0x7ffffe0, 27); (0x7ffffe1, 27); (0x3ffffe7, 26); (0x7ffffe2, 27); (0xfffff2, 24);
  (0x1fffe4, 21); (0x1fffe5, 21); (0x3ffffe8, 26); (0x3ffffe9, 26); (0xffffffd, 28); (0x7ffffe3, 27);
  (0x7ffffe4, 27); (0x7ffffe5, 27); (0xfffec, 20); (0xfffff3, 24); (0xfffed, 20); (0x1fffe6, 21);
  (0x3fffe9, 22); (0x1fffe7, 21); (0x1fffe8, 21); (0x7ffff3, 23); (0x3fffea, 22); (0x3fffeb, 22);
  (0x1ffffee, 25); (0x1ffffef, 25); (0xfffff4, 24); (0xfffff5, 24); (0x3ffffea, 26); (0x7ffff4, 23);
  (0x3ffffeb, 26); (0x7ffffe6, 27); (0x3ffffec, 26); (0x3ffffed, 26); (0x7ffffe7, 27); (0x7ffffe8, 27);
  (0x7ffffe9, 27); (0x7ffffea, 27); (0x7ffffeb, 27); (0xffffffe, 28); (0x7ffffec, 27); (0x7ffffed, 27);
  (0x7ffffee, 27); (0x7ffffef, 27); (0x7fffff0, 27); (0x3ffffee, 26); (0x3fffffff, 30)].
Definition HPACK_HUFFMAN_EOS : Z := 256.

(** ** The tree *)
Record HuffmanNode := mkNode { left_child : Z; right_child : Z; value : Z }.
Definition NULL_NODE : Z := 0.
Definition ROOT_NODE : Z := 1.
Definition INVALID_VALUE : Z := 2 ^ 31 - 1.

(** [_node_memory]; node [id] is at index [id - 1]. *)
Definition HuffmanTree : Type := list HuffmanNode.
Definition fresh_node : HuffmanNode := mkNode NULL_NODE NULL_NODE INVALID_VALUE.
Definition HuffmanTree_new : HuffmanTree := [fresh_node].
Definition node (t : HuffmanTree) (id : Z) : option HuffmanNode :=
  if id =? 0 then None
  else if Z.of_nat (length t) <? id then None
  else t !! Z.to_nat (id - 1).
Definition set_node (t : HuffmanTree) (id : Z) (n : HuffmanNode) : option HuffmanTree :=
  match t !! Z.to_nat (id - 1) with Some _ => Some (<[Z.to_nat (id - 1) := n]> t) | None => None end.
Definition AllocNode (t : HuffmanTree) : Z * HuffmanTree := (u16 (Z.of_nat (length t) + 1), t ++ [fresh_node]).

(** [for (i = bit_len; i > 0; i--)]; the CHECKs only log. *)
Fixpoint AddLeafNode_loop (i : nat) (c : Z) (cur : Z) (t : HuffmanTree) : option (Z * HuffmanTree) :=
  match i with
  | O => Some (cur, t)
  | S i' =>
      n ← t !! Z.to_nat (cur - 1);
      if Z.testbit c (Z.of_nat i') then
        if right_child n =? NULL_NODE then
          let (new_id, t1) := AllocNode t in
          t2 ← set_node t1 cur (mkNode (left_child n) new_id (value n));
          AddLeafNode_loop i' c new_id t2
        else AddLeafNode_loop i' c (right_child n) t
      else
        if left_child n =? NULL_NODE then
          let (new_id, t1) := AllocNode t in
          t2 ← set_node t1 cur (mkNode new_id (right_child n) (value n));
          AddLeafNode_loop i' c new_id t2
        else AddLeafNode_loop i' c (left_child n) t
  end.
Definition AddLeafNode (v : Z) (c : HuffmanCode) (t : HuffmanTree) : option HuffmanTree :=
  r ← AddLeafNode_loop (Z.to_nat (bit_len c)) (code c) ROOT_NODE t;
  n ← r.2 !! Z.to_nat (r.1 - 1);
  set_node r.2 r.1 (mkNode (left_child n) (right_child n) v).

(** The loop of [CreateStaticTableOrDie] over the table. *)
Fixpoint add_leaves (v : Z) (cs : list HuffmanCode) (t : HuffmanTree) : option HuffmanTree :=
  match cs with
  | [] => Some t
  | c :: cs' => t' ← AddLeafNode v c t; add_leaves (v + 1) cs' t'
  end.
Definition build_tree : option HuffmanTree := add_leaves 0 s_huffman_table HuffmanTree_new.
Definition s_huffman_tree : HuffmanTree := Eval vm_compute in default [] build_tree.

(** ** Encoder *)
Record HuffmanEncoder := mkEnc { e_out : list Z; _partial_byte : Z; _remain_bit : Z; _out_bytes : Z }.
Definition HuffmanEncoder_new (out : list Z) : HuffmanEncoder := mkEnc out 0 8 0.

(** One turn of the [while (bits_left)] loop, then the rest; [None] if the loop does
    not end within [fuel] turns. *)
Fixpoint Encode_loop (fuel : nat) (c bits_left : Z) (e : HuffmanEncoder) : option HuffmanEncoder :=
  if bits_left =? 0 then Some e
  else match fuel with
  | O => None
  | S fuel' =>
      let adding_bits_len := Z.min (_remain_bit e) bits_left in
      let adding_bits := u8 (Z.shiftr (Z.land c (u32 (Z.shiftl 1 bits_left) - 1)) (bits_left - adding_bits_len)) in
      let partial := u8 (Z.lor (_partial_byte e) (Z.shiftl adding_bits (_remain_bit e - adding_bits_len))) in
      let remain := u16 (_remain_bit e - adding_bits_len) in
      let left := u16 (bits_left - adding_bits_len) in
      if remain =? 0
      then Encode_loop fuel' c left (mkEnc (e_out e ++ [partial]) 0 8 (u32 (_out_bytes e + 1)))
      else Encode_loop fuel' c left (mkEnc (e_out e) partial remain (_out_bytes e))
  end.
Definition Encode (byte : Z) (e : HuffmanEncoder) : option HuffmanEncoder :=
  c ← s_huffman_table !! Z.to_nat byte;
  Encode_loop 32 (code c) (bit_len c) e.
Definition EndStream (e : HuffmanEncoder) : HuffmanEncoder :=
  if _remain_bit e =? 8 then e
  else mkEnc (e_out e ++ [u8 (Z.lor (_partial_byte e) (Z.shiftl 1 (_remain_bit e) - 1))]) 0 0 (u32 (_out_bytes e + 1)).
Fixpoint encode_all (s : list Z) (e : HuffmanEncoder) : option HuffmanEncoder :=
  match s with [] => Some e | b :: s' => e' ← Encode b e; encode_all s' e' end.

(** ** Decoder *)
Record HuffmanDecoder := mkDec { d_out : list Z; _cur_node : HuffmanNode; _cur_depth : Z; _padding : bool }.
Definition HuffmanDecoder_new (t : HuffmanTree) (out : list Z) : option HuffmanDecoder :=
  n ← node t ROOT_NODE; Some (mkDec out n 0 true).

(** The body of the loop for one bit: the return value -1, or 0 to go on.  The outer
    [None] is a null dereference. *)
Definition decode_bit (t : HuffmanTree) (b : bool) (d : HuffmanDecoder) : option (Z * HuffmanDecoder) :=
  match node t (if b then right_child (_cur_node d) else left_child (_cur_node d)) with
  | None => Some (-1, d)
  | Some n =>
      if negb (value n =? INVALID_VALUE) then
        if value n =? HPACK_HUFFMAN_EOS then Some (-1, mkDec (d_out d) n (_cur_depth d) (_padding d))
        else
          root ← node t ROOT_NODE;
          Some (0, mkDec (d_out d ++ [u8 (value n)]) root 0 true)
      else Some (0, mkDec (d_out d) n (u16 (_cur_depth d + 1)) (_padding d && b))
  end.
(** [for (i = 7; i >= 0; --i)]. *)
Fixpoint Decode_loop (i : nat) (t : HuffmanTree) (byte : Z) (d : HuffmanDecoder) : option (Z * HuffmanDecoder) :=
  match i with
  | O => Some (0, d)
  | S i' =>
      r ← decode_bit t (Z.testbit byte (Z.of_nat i')) d;
      if r.1 =? 0 then Decode_loop i' t byte r.2 else Some r
  end.
Definition Decode (t : HuffmanTree) (byte : Z) (d : HuffmanDecoder) : option (Z * HuffmanDecoder) :=
  Decode_loop 8 t byte d.
Definition decoder_EndStream (d : HuffmanDecoder) : Z :=
  if _cur_depth d =? 0 then 0
  else if (_cur_depth d <=? 7) && _padding d then 0
  else -1.
Fixpoint decode_all (t : HuffmanTree) (bytes : list Z) (d : HuffmanDecoder) : option (Z * HuffmanDecoder) :=
  match bytes with
  | [] => Some (0, d)
  | b :: bytes' => r ← Decode t b d; if r.1 =? 0 then decode_all t bytes' r.2 else Some r
  end.


(** ** Codes as bit strings *)

(** The [n] low bits of [c], the highest first. *)
Fixpoint bits (n : nat) (c : Z) : list bool :=
  match n with O => [] | S n' => Z.testbit c (Z.of_nat n') :: bits n' c end.
Definition code_bits (c : HuffmanCode) : list bool := bits (Z.to_nat (bit_len c)) (code c).
(** The bits of a string of symbols. *)
Definition text_bits (s : list Z) : list bool :=
  mjoin (map (fun b => match s_huffman_table !! Z.to_nat b with Some c => code_bits c | None => [] end) s).
Definition bytes_bits (bytes : list Z) : list bool := mjoin (map (bits 8) bytes).

Lemma bits_length n c : length (bits n c) = n.
Proof. induction n; simpl; congruence. Qed.
Lemma bits_lookup n c i : (i < n)%nat -> bits n c !! i = Some (Z.testbit c (Z.of_nat (n - 1 - i))).
Proof.
  revert i. induction n as [|n IH]; intros i Hi; [lia|]. destruct i as [|i]; simpl.
  - do 2 f_equal. lia.
  - rewrite IH by lia. do 3 f_equal. lia.
Qed.
Lemma bytes_bits_app l1 l2 : bytes_bits (l1 ++ l2) = bytes_bits l1 ++ bytes_bits l2.
Proof. unfold bytes_bits. by rewrite map_app, join_app. Qed.
Lemma bytes_bits_length l : length (bytes_bits l) = (8 * length l)%nat.
Proof.
  induction l as [|b l IH]; [done|]. change (bytes_bits (b :: l)) with (bits 8 b ++ bytes_bits l).
  rewrite length_app, bits_length, IH. simpl. lia.
Qed.

(** ** The tree follows the table *)

(** [bs] leads from [n] through inner nodes to the leaf [v]. *)
Fixpoint leads (t : HuffmanTree) (n : HuffmanNode) (bs : list bool) (v : Z) : bool :=
  match bs with
  | [] => false
  | b :: bs' =>
      match node t (if b then right_child n else left_child n) with
      | None => false
      | Some n' =>
          match bs' with
          | [] => value n' =? v
          | _ => (value n' =? INVALID_VALUE) && leads t n' bs' v
          end
      end
  end.
Fixpoint table_leads (t : HuffmanTree) (root : HuffmanNode) (cs : list HuffmanCode) (v : Z) : bool :=
  match cs with
  | [] => true
  | c :: cs' => (0 <? bit_len c) && (bit_len c <=? 30) && leads t root (code_bits c) v && table_leads t root cs' (v + 1)
  end.
Definition root_node : HuffmanNode := default fresh_node (node s_huffman_tree ROOT_NODE).

Lemma build_tree_eq : build_tree = Some s_huffman_tree.
Proof. vm_compute. reflexivity. Qed.
Lemma root_eq : node s_huffman_tree ROOT_NODE = Some root_node.
Proof. reflexivity. Qed.
Lemma table_leads_ok : table_leads s_huffman_tree root_node s_huffman_table 0 = true.
Proof. vm_compute. reflexivity. Qed.

Lemma table_leads_lookup t root cs v i c :
  table_leads t root cs v = true -> cs !! i = Some c ->
  0 < bit_len c <= 30 /\ leads t root (code_bits c) (v + Z.of_nat i) = true.
Proof.
  revert v i. induction cs as [|c0 cs IH]; intros v i Hl Hi; [done|]. simpl in Hl.
  apply andb_true_iff in Hl as [Hl Hrest]. apply andb_true_iff in Hl as [Hl Hlead].
  apply andb_true_iff in Hl as [H1%Z.ltb_lt H2%Z.leb_le]. destruct i as [|i]; simpl in Hi.
  - injection Hi as <-. split; [lia|]. by rewrite Z.add_0_r.
  - destruct (IH (v + 1) i Hrest Hi) as [H3 H4]. split; [done|].
    by replace (v + Z.of_nat (S i)) with (v + 1 + Z.of_nat i) by lia.
Qed.

(** The code of a byte. *)
Lemma table_byte b : 0 <= b < 256 ->
  exists c, s_huffman_table !! Z.to_nat b = Some c /\ 0 < bit_len c <= 30 /\
    leads s_huffman_tree root_node (code_bits c) b = true.
Proof.
  intros Hb. destruct (lookup_lt_is_Some_2 s_huffman_table (Z.to_nat b)) as [c Hc].
  { change (length s_huffman_table) with 257%nat. lia. }
  exists c. split; [done|]. destruct (table_leads_lookup _ _ _ 0 _ _ table_leads_ok Hc) as [H1 H2].
  split; [done|]. by rewrite Z.add_0_l, Z2Nat.id in H2 by lia.
Qed.

(** ** The decoder on bits *)
Section Decoding.
Context (t : HuffmanTree).

Fixpoint dec_bits (bs : list bool) (d : HuffmanDecoder) : option (Z * HuffmanDecoder) :=
  match bs with
  | [] => Some (0, d)
  | b :: bs' => r ← decode_bit t b d; if r.1 =? 0 then dec_bits bs' r.2 else Some r
  end.
Lemma Decode_loop_bits i byte d : Decode_loop i t byte d = dec_bits (bits i byte) d.
Proof.
  revert d. induction i as [|i IH]; intros d; simpl; [done|].
  destruct (decode_bit t _ d) as [r|]; simpl; [|done]. by destruct (r.1 =? 0).
Qed.
Lemma dec_bits_app l1 l2 d : dec_bits (l1 ++ l2) d =
  r ← dec_bits l1 d; if r.1 =? 0 then dec_bits l2 r.2 else Some r.
Proof.
  revert d. induction l1 as [|b l1 IH]; intros d; simpl; [done|].
  destruct (decode_bit t b d) as [r|]; simpl; [|done].
  destruct (r.1 =? 0) eqn:E; [apply IH|]. simpl. by rewrite E.
Qed.
Lemma decode_all_bits bytes d : decode_all t bytes d = dec_bits (bytes_bits bytes) d.
Proof.
  revert d. induction bytes as [|b bytes IH]; intros d; [done|].
  change (bytes_bits (b :: bytes)) with (bits 8 b ++ bytes_bits bytes). rewrite dec_bits_app. cbn [decode_all].
  unfold Decode. rewrite Decode_loop_bits. destruct (dec_bits (bits 8 b) d) as [r|]; simpl; [|done].
  by destruct (r.1 =? 0).
Qed.

(** A path to a leaf pushes its value. *)
Lemma dec_leads root n bs v out depth pad :
  node t ROOT_NODE = Some root -> leads t n bs v = true -> 0 <= v < 256 ->
  dec_bits bs (mkDec out n depth pad) = Some (0, mkDec (out ++ [v]) root 0 true).
Proof.
  intros Hroot. revert n depth pad. induction bs as [|b bs IH]; intros n depth pad Hl Hv; [done|].
  cbn [leads] in Hl. cbn [dec_bits]. unfold decode_bit. cbn [_cur_node].
  destruct (node t (if b then right_child n else left_child n)) as [n'|]; [|done].
  destruct bs as [|b' bs'].
  - apply Z.eqb_eq in Hl. rewrite Hl. rewrite (proj2 (Z.eqb_neq v INVALID_VALUE)) by (unfold INVALID_VALUE; lia).
    rewrite (proj2 (Z.eqb_neq v HPACK_HUFFMAN_EOS)) by (unfold HPACK_HUFFMAN_EOS; lia). cbn [negb]. rewrite Hroot. simpl.
    by rewrite u8_small by lia.
  - apply andb_true_iff in Hl as [Hi Hl]. rewrite Hi. cbn [negb mbind option_bind fst snd Z.eqb]. by apply IH.
Qed.
End Decoding.

Definition at_root (out : list Z) : HuffmanDecoder := mkDec out root_node 0 true.

Lemma dec_text s out : Forall is_byte s ->
  dec_bits s_huffman_tree (text_bits s) (at_root out) = Some (0, at_root (out ++ s)).
Proof.
  revert out. induction s as [|b s IH]; intros out Hs; [by rewrite app_nil_r|].
  apply Forall_cons in Hs as [Hb Hs]. destruct (table_byte b Hb) as (c & Hc & _ & Hl).
  assert (Heq : text_bits (b :: s) = code_bits c ++ text_bits s) by (unfold text_bits; simpl; by rewrite Hc).
  rewrite Heq, dec_bits_app. unfold at_root. rewrite (dec_leads _ root_node _ _ b) by (apply root_eq || done).
  cbn [mbind option_bind fst snd Z.eqb]. fold (at_root (out ++ [b])). rewrite IH by done. by rewrite <- app_assoc.
Qed.

(** Up to seven ones are padding: they lead to no leaf. *)
Lemma dec_ones k out : (k < 8)%nat ->
  exists d, dec_bits s_huffman_tree (replicate k true) (at_root out) = Some (0, d) /\ d_out d = out /\ decoder_EndStream d = 0.
Proof. intros Hk. do 8 (destruct k as [|k]; [eexists; split; [reflexivity|split; reflexivity]|]). lia. Qed.

(** ** The encoder on bits *)

(** [bl] has been written: whole bytes, then the [k] highest bits of the partial byte. *)
Record wrote (e : HuffmanEncoder) (pre : list Z) (bl : list bool) (k : nat) : Prop := mkWrote {
  w_k : (k < 8)%nat;
  w_remain : _remain_bit e = 8 - Z.of_nat k;
  w_partial : 0 <= _partial_byte e < 256;
  w_low : forall j, 0 <= j < 8 - Z.of_nat k -> Z.testbit (_partial_byte e) j = false;
  w_bytes : exists out, e_out e = pre ++ out /\ Forall is_byte out /\
              bl = bytes_bits out ++ take k (bits 8 (_partial_byte e))
}.

Lemma testbit_below v n j : 0 <= v < 2 ^ n -> 0 <= n <= j -> Z.testbit v j = false.
Proof.
  intros Hv Hj. destruct (Z.eq_dec v 0) as [->|]; [apply Z.bits_0|].
  apply Z.bits_above_log2; [lia|]. apply Z.log2_lt_pow2; [lia|]. pose proof (Z.pow_le_mono_r 2 n j). lia.
Qed.

(** The bits the loop takes from the code. *)
Section Chunk.
Context (c left a : Z) (Ha : 0 < a <= left) (Ha8 : a <= 8) (Hl : left <= 30).
Definition chunk : Z := u8 (Z.shiftr (Z.land c (u32 (Z.shiftl 1 left) - 1)) (left - a)).
Lemma chunk_bits j : 0 <= j -> Z.testbit chunk j = (j <? a) && Z.testbit c (left - a + j).
Proof.
  intros Hj. unfold chunk, u8. rewrite Z.shiftl_mul_pow2, Z.mul_1_l by lia.
  pose proof (Z.pow_le_mono_r 2 left 30). pose proof (Z.pow_pos_nonneg 2 left).
  rewrite u32_small by lia. replace (2 ^ left - 1) with (Z.ones left) by (rewrite Z.ones_equiv; lia).
  destruct (Z.ltb_spec j 8).
  - rewrite Z.mod_pow2_bits_low, Z.shiftr_spec, Z.land_spec, Z.testbit_ones_nonneg by lia.
    rewrite (Z.add_comm j). rewrite andb_comm. f_equal.
    destruct (Z.ltb_spec (left - a + j) left), (Z.ltb_spec j a); (done || lia).
  - rewrite Z.mod_pow2_bits_high by lia. by rewrite (proj2 (Z.ltb_ge j a)) by lia.
Qed.
End Chunk.

Lemma partial_bits c left a p r j :
  0 < a <= left -> a <= r -> r <= 8 -> left <= 30 -> 0 <= p < 256 -> 0 <= j < 8 ->
  Z.testbit (u8 (Z.lor p (Z.shiftl (chunk c left a) (r - a)))) j =
    Z.testbit p j || ((r - a <=? j) && (j <? r) && Z.testbit c (left - a + (j - (r - a)))).
Proof.
  intros Ha Har Hr Hl Hp Hj. unfold u8. rewrite Z.mod_pow2_bits_low, Z.lor_spec by lia. f_equal.
  destruct (Z.leb_spec (r - a) j).
  - rewrite Z.shiftl_spec, chunk_bits by lia. simpl. f_equal.
    destruct (Z.ltb_spec (j - (r - a)) a), (Z.ltb_spec j r); (done || lia).
  - rewrite Z.shiftl_spec_low by lia. done.
Qed.

(** Cutting the bits of a code: the first [a] of [left]. *)
Lemma bits_split n m c : bits (n + m) c = bits n (Z.shiftr c (Z.of_nat m)) ++ bits m c.
Proof.
  induction n as [|n IH]; simpl; [done|]. rewrite IH. f_equal. rewrite Z.shiftr_spec by lia. f_equal. lia.
Qed.
Lemma take_partial p p' k a c left :
  (k + a <= 8)%nat -> (a <= left)%nat ->
  (forall i, (i < k)%nat -> Z.testbit p' (Z.of_nat (7 - i)) = Z.testbit p (Z.of_nat (7 - i))) ->
  (forall i, (i < a)%nat -> Z.testbit p' (Z.of_nat (7 - (k + i))) = Z.testbit c (Z.of_nat (left - 1 - i))) ->
  take (k + a) (bits 8 p') = take k (bits 8 p) ++ take a (bits left c).
Proof.
  intros Hka Hal H1 H2. apply list_eq. intros i. destruct (Nat.lt_ge_cases i (k + a)) as [Hi|Hi].
  - rewrite lookup_take_lt, bits_lookup by lia. destruct (Nat.lt_ge_cases i k) as [Hk|Hk].
    + rewrite lookup_app_l by (rewrite length_take, bits_length; lia). rewrite lookup_take_lt, bits_lookup by lia.
      specialize (H1 i Hk). replace (8 - 1 - i)%nat with (7 - i)%nat by lia. by rewrite H1.
    + rewrite lookup_app_r by (rewrite length_take, bits_length; lia). rewrite length_take, bits_length, Nat.min_l by lia.
      rewrite lookup_take_lt, bits_lookup by lia. specialize (H2 (i - k)%nat ltac:(lia)).
      replace (k + (i - k))%nat with i in H2 by lia. replace (8 - 1 - i)%nat with (7 - i)%nat by lia. by rewrite H2.
  - rewrite !lookup_ge_None_2; [done| |]; rewrite ?length_app, !length_take, ?bits_length; lia.
Qed.

Lemma Encode_loop_spec fuel c left e pre bl k :
  wrote e pre bl k -> 0 <= left <= 30 -> left <= Z.of_nat fuel ->
  exists e' k', Encode_loop fuel c left e = Some e' /\ wrote e' pre (bl ++ bits (Z.to_nat left) c) k'.
Proof.
  revert left e bl k. induction fuel as [|fuel IH]; intros left e bl k Hw Hl Hf; cbn [Encode_loop].
  all: destruct (Z.eqb_spec left 0) as [->|Hne]; [exists e, k; split; [done|]; by rewrite app_nil_r|].
  { lia. }
  destruct Hw as [Hk Hr Hp Hlow (out & Ho & Hbytes & Hbl)]. fold (chunk c left (Z.min (_remain_bit e) left)).
  set (a := Z.min (_remain_bit e) left). rewrite Hr in *.
  assert (Ha : 0 < a <= left /\ a <= 8 - Z.of_nat k) by (unfold a; lia).
  set (p' := u8 _). assert (Hp' : 0 <= p' < 256) by apply u8_range.
  assert (Hbits : forall j, 0 <= j < 8 -> Z.testbit p' j = Z.testbit (_partial_byte e) j ||
     ((8 - Z.of_nat k - a <=? j) && (j <? 8 - Z.of_nat k) && Z.testbit c (left - a + (j - (8 - Z.of_nat k - a))))).
  { intros j Hj. unfold p'. apply partial_bits; lia. }
  assert (Htake : take (k + Z.to_nat a) (bits 8 p') = take k (bits 8 (_partial_byte e)) ++ take (Z.to_nat a) (bits (Z.to_nat left) c)).
  { apply take_partial; [lia|lia| |].
    - intros i Hi. rewrite Hbits by lia. rewrite (proj2 (Z.ltb_ge _ _)) by lia. by rewrite andb_false_r, orb_false_r.
    - intros i Hi. rewrite Hbits, Hlow by lia. rewrite (proj2 (Z.leb_le _ _)), (proj2 (Z.ltb_lt _ _)) by lia. simpl.
      f_equal. lia. }
  assert (Hsplit : bits (Z.to_nat left) c = take (Z.to_nat a) (bits (Z.to_nat left) c) ++ bits (Z.to_nat (left - a)) c).
  { replace (Z.to_nat left) with (Z.to_nat a + Z.to_nat (left - a))%nat by lia. rewrite bits_split.
    rewrite take_app_length' by (by rewrite bits_length). done. }
  rewrite (u16_small (left - a)), (u16_small (8 - Z.of_nat k - a)) by lia.
  destruct (Z.eqb_spec (8 - Z.of_nat k - a) 0) as [Hfull|Hpart].
  - destruct (IH (left - a) (mkEnc (e_out e ++ [p']) 0 8 (u32 (_out_bytes e + 1)))
      (bl ++ take (Z.to_nat a) (bits (Z.to_nat left) c)) 0%nat) as (e' & k' & Heq & Hw'); [|lia|lia|].
    + split; simpl; [lia|lia|lia|intros; apply Z.bits_0|]. exists (out ++ [p']). split; [by rewrite Ho, app_assoc|].
      split; [apply Forall_app; split; [done|by constructor]|].
      rewrite bytes_bits_app, app_nil_r, Hbl, <- app_assoc. f_equal. rewrite <- Htake.
      rewrite take_ge by (rewrite bits_length; lia). done.
    + exists e', k'. split; [done|]. by rewrite Hsplit, app_assoc.
  - destruct (IH (left - a) (mkEnc (e_out e) p' (8 - Z.of_nat k - a) (_out_bytes e))
      (bl ++ take (Z.to_nat a) (bits (Z.to_nat left) c)) (k + Z.to_nat a)%nat) as (e' & k' & Heq & Hw'); [|lia|lia|].
    + split; cbn [e_out _partial_byte _remain_bit]; [lia|lia|lia| |].
      * intros j Hj. rewrite Hbits, Hlow by lia. rewrite (proj2 (Z.leb_gt _ _)) by lia. done.
      * exists out. split; [done|]. split; [done|]. by rewrite Hbl, <- app_assoc, Htake.
    + exists e', k'. split; [done|]. by rewrite Hsplit, app_assoc.
Qed.

Lemma encode_all_spec s e pre bl k : wrote e pre bl k -> Forall is_byte s ->
  exists e' k', encode_all s e = Some e' /\ wrote e' pre (bl ++ text_bits s) k'.
Proof.
  revert e bl k. induction s as [|b s IH]; intros e bl k Hw Hs; cbn [encode_all].
  - exists e, k. split; [done|]. by rewrite app_nil_r.
  - apply Forall_cons in Hs as [Hb Hs]. destruct (table_byte b Hb) as (c & Hc & Hlen & _). unfold Encode. rewrite Hc.
    cbn [mbind option_bind]. destruct (Encode_loop_spec 32 (code c) (bit_len c) e pre bl k Hw) as (e1 & k1 & -> & Hw1); [lia|lia|].
    cbn [mbind option_bind]. destruct (IH e1 _ k1 Hw1 Hs) as (e2 & k2 & Heq & Hw2). exists e2, k2. split; [done|].
    assert (Ht : text_bits (b :: s) = code_bits c ++ text_bits s) by (unfold text_bits; simpl; by rewrite Hc).
    rewrite Ht, app_assoc. exact Hw2.
Qed.

(** The finished stream is the text and fewer than eight ones. *)
Lemma EndStream_spec e pre bl k : wrote e pre bl k ->
  exists out n, e_out (EndStream e) = pre ++ out /\ Forall is_byte out /\ (n < 8)%nat /\
    bytes_bits out = bl ++ replicate n true.
Proof.
  intros [Hk Hr Hp Hlow (out & Ho & Hbytes & Hbl)]. unfold EndStream. rewrite Hr.
  destruct (Z.eqb_spec (8 - Z.of_nat k) 8) as [E|E].
  - exists out, 0%nat. split; [done|]. split; [done|]. split; [lia|].
    replace k with 0%nat in Hbl by lia. by rewrite Hbl, !app_nil_r.
  - set (p' := u8 _). exists (out ++ [p']), (8 - k)%nat. simpl. rewrite Ho, <- app_assoc. split; [done|].
    split; [apply Forall_app; split; [done|constructor; [apply u8_range|constructor]]|]. split; [lia|].
    rewrite Hbl, bytes_bits_app, <- app_assoc. f_equal.
    change (bits 8 p' = take k (bits 8 (_partial_byte e)) ++ replicate (8 - k) true).
    assert (Hb : forall j, 0 <= j < 8 -> Z.testbit p' j = Z.testbit (_partial_byte e) j || (j <? 8 - Z.of_nat k)).
    { intros j Hj. unfold p', u8. rewrite Z.mod_pow2_bits_low, Z.lor_spec by lia. f_equal.
      rewrite Z.shiftl_mul_pow2, Z.mul_1_l by lia. replace (2 ^ (8 - Z.of_nat k) - 1) with (Z.ones (8 - Z.of_nat k)) by (rewrite Z.ones_equiv; lia).
      by rewrite Z.testbit_ones_nonneg by lia. }
    rewrite <- (take_drop k (bits 8 p')). f_equal; apply list_eq; intros i; destruct (Nat.lt_ge_cases i 8).
    + destruct (Nat.lt_ge_cases i k) as [Hi|Hi]; [|by rewrite !lookup_take_ge by lia].
      rewrite !lookup_take_lt, !bits_lookup by lia. rewrite Hb by lia. rewrite (proj2 (Z.ltb_ge _ _)) by lia. by rewrite orb_false_r.
    + by rewrite !lookup_take_ge by lia.
    + rewrite lookup_drop. destruct (Nat.lt_ge_cases (k + i) 8) as [Hi|Hi].
      * rewrite bits_lookup, Hb, Hlow by lia. rewrite (proj2 (Z.ltb_lt _ _)) by lia. simpl.
        symmetry. apply lookup_replicate_2. lia.
      * rewrite !lookup_ge_None_2; [done|rewrite length_replicate; lia|rewrite bits_length; lia].
    + rewrite lookup_drop, !lookup_ge_None_2; [done|rewrite length_replicate; lia|rewrite bits_length; lia].
Qed.

(** Encoding appends bytes that decode to the text. *)
Lemma huffman_roundtrip_at s pre : Forall is_byte s ->
  exists e out, encode_all s (HuffmanEncoder_new pre) = Some e /\ e_out (EndStream e) = pre ++ out /\ Forall is_byte out /\
    Z.of_nat (length out) = (Z.of_nat (length (text_bits s)) + 7) / 8 /\
    forall o, exists d, decode_all s_huffman_tree out (at_root o) = Some (0, d) /\ d_out d = o ++ s /\ decoder_EndStream d = 0.
Proof.
  intros Hs. destruct (encode_all_spec s (HuffmanEncoder_new pre) pre [] 0) as (e & k & Heq & Hw); [|done|].
  { split; simpl; [lia|lia|lia|intros; apply Z.bits_0|]. exists []. by rewrite app_nil_r. }
  destruct (EndStream_spec e pre _ k Hw) as (out & n & Hout & Hby & Hn & Hbits). exists e, out.
  split; [done|]. split; [done|]. split; [done|]. split.
  - apply (f_equal length) in Hbits. rewrite bytes_bits_length, length_app, length_replicate in Hbits. simpl in Hbits.
    apply (Z.div_unique _ _ _ (7 - Z.of_nat n)); lia.
  - intros o. rewrite decode_all_bits, Hbits, dec_bits_app. cbn [app]. rewrite dec_text by done.
    cbn [mbind option_bind fst snd Z.eqb]. apply dec_ones. done.
Qed.

End Huffman.
