(* ===== verification/HpackPrimitive.v ===== *)
(** * HPACK primitive types (brpc/details/hpack.cpp): integers and strings

    Integers with a prefix and string literals, plain or Huffman-coded.  The output
    appender is the list of bytes appended, the input iterator the list of bytes
    left.  A function that the code gives a pointer for its result returns
    (return value, result, iterator).  [None] is undefined behaviour or a loop that
    does not end. *)
From stdpp Require Import base list.
From Stdlib Require Import ZArith Lia Bool.
From S2P Require Import Prelude HpackHuffman.

Open Scope Z_scope.

Module Primitive.
Import Huffman.

Abbreviation bytes := (list Z).

(** butil::ascii_tolower on a byte. *)
Definition ascii_tolower (c : Z) : Z := if (65 <=? c) && (c <=? 90) then c + 32 else c.
Definition tolower (s : bytes) : bytes := map ascii_tolower s.

(** ** Integers *)
Definition MAX_HPACK_INTEGER : Z := 10 * 1024 * 1024.

Fixpoint EncodeInteger_loop (fuel : nat) (value : Z) : option bytes :=
  if 128 <=? value then
    match fuel with
    | O => None
    | S fuel' =>
        let c := u8 (Z.lor (Z.land value 127) 128) in
        l ← EncodeInteger_loop fuel' (Z.shiftr value 7);
        Some (c :: l)
    end
  else Some [u8 value].
Definition EncodeInteger (msb prefix_size value : Z) : option bytes :=
  let max_prefix_value := u8 (Z.shiftl 1 prefix_size - 1) in
  if value <? max_prefix_value then Some [u8 (Z.lor msb value)]
  else
    l ← EncodeInteger_loop 5 (u32 (value - max_prefix_value));
    Some (u8 (Z.lor msb max_prefix_value) :: l).

(** The do-while loop; shifting a 64-bit value by 64 or more is undefined. *)
Fixpoint DecodeInteger_loop (iter : bytes) (tmp m in_bytes : Z) : option (Z * Z * bytes) :=
  match iter with
  | [] => Some (0, 0, [])
  | cur_byte :: iter' =>
      if 64 <=? m then None
      else
        let tmp' := u64 (tmp + u64 (Z.shiftl (Z.land cur_byte 127) m)) in
        if negb (Z.land cur_byte 128 =? 0) && (tmp' <? MAX_HPACK_INTEGER)
        then DecodeInteger_loop iter' tmp' (m + 7) (in_bytes + 1)
        else if MAX_HPACK_INTEGER <=? tmp' then Some (-1, 0, iter')
        else Some (in_bytes + 1, u32 tmp', iter')
  end.
Definition DecodeInteger (iter : bytes) (prefix_size : Z) : option (Z * Z * bytes) :=
  match iter with
  | [] => Some (0, 0, [])
  | first_byte :: iter' =>
      let tmp := Z.land first_byte (Z.shiftl 1 prefix_size - 1) in
      if tmp <? u32 (Z.shiftl 1 prefix_size) - 1 then Some (1, u32 tmp, iter')
      else DecodeInteger_loop iter' tmp 0 1
  end.

(** ** Strings *)

(** The sum of the code lengths, in 32 bits. *)
Fixpoint huffman_bit_len (s : bytes) (bit_len_ : Z) : option Z :=
  match s with
  | [] => Some bit_len_
  | b :: s' => c ← s_huffman_table !! Z.to_nat b; huffman_bit_len s' (u32 (bit_len_ + bit_len c))
  end.
Definition EncodeString (LOWERCASE : bool) (s : bytes) (huffman_encoding : bool) : option bytes :=
  let s' := if LOWERCASE then map ascii_tolower s else s in
  if negb huffman_encoding then
    h ← EncodeInteger 0 7 (u32 (Z.of_nat (length s)));
    Some (h ++ s')
  else
    n ← huffman_bit_len s' 0;
    h ← EncodeInteger 128 7 (Z.shiftr n 3 + (if Z.land n 7 =? 0 then 0 else 1));
    e ← encode_all s' (HuffmanEncoder_new h);
    Some (e_out (EndStream e)).

(** [for (; iter != NULL && length; ++iter, --length)]: the return value of the first
    [Decode] that fails, or 0. *)
Fixpoint huffman_loop (iter : bytes) (length_ : Z) (d : HuffmanDecoder) : option (Z * HuffmanDecoder * bytes) :=
  match iter with
  | [] => Some (0, d, [])
  | b :: iter' =>
      if length_ =? 0 then Some (0, d, iter)
      else
        r ← Decode s_huffman_tree b d;
        if negb (r.1 =? 0) then Some (-1, r.2, iter) else huffman_loop iter' (length_ - 1) r.2
  end.
(** [out0] is what the output string held before. *)
Definition DecodeString (iter : bytes) (out0 : bytes) : option (Z * bytes * bytes) :=
  match iter with
  | [] => Some (0, out0, [])
  | first :: _ =>
      let huffman := negb (Z.land first 128 =? 0) in
      '(in_bytes, length_, iter1) ← DecodeInteger iter 7;
      if in_bytes <=? 0 then Some (-1, out0, iter1)
      else if Z.of_nat (length iter1) <? length_ then Some (0, out0, iter1)
      else
        let in_bytes1 := in_bytes + length_ in
        if negb huffman then Some (in_bytes1, take (Z.to_nat length_) iter1, drop (Z.to_nat length_) iter1)
        else
          d0 ← HuffmanDecoder_new s_huffman_tree [];
          '(rc, d, iter2) ← huffman_loop iter1 length_ d0;
          if negb (rc =? 0) then Some (-1, d_out d, iter2)
          else if negb (decoder_EndStream d =? 0) then Some (-1, d_out d, iter2)
          else Some (in_bytes1, d_out d, iter2)
  end.

Example rfc7541_c1 : EncodeInteger 0 5 10 = Some [10] /\ EncodeInteger 0 5 1337 = Some [31; 154; 10].
Proof. vm_compute. done. Qed.

(** ** Integers decode to what was encoded *)
Lemma land_127 v : Z.land v 127 = v mod 128.
Proof. change 127 with (Z.ones 7). by rewrite Z.land_ones by lia. Qed.
Lemma shiftr_7 v : Z.shiftr v 7 = v / 128.
Proof. by rewrite Z.shiftr_div_pow2. Qed.
(** A low part and a flag above it do not overlap. *)
Lemma lor_low n a b : 0 <= n -> 0 <= a < 2 ^ n -> Z.land b (2 ^ n - 1) = 0 -> Z.lor a b = a + b.
Proof.
  intros Hn Ha Hb. rewrite <- Z.add_lor_land. enough (Z.land a b = 0) as -> by lia.
  apply Z.bits_inj'. intros j Hj. rewrite Z.land_spec, Z.bits_0.
  destruct (Z.lt_ge_cases j n) as [Hlt|Hge]; [|by rewrite (testbit_below a n) by lia].
  replace (2 ^ n - 1) with (Z.ones n) in Hb by (rewrite Z.ones_equiv; lia).
  apply (f_equal (fun z => Z.testbit z j)) in Hb. rewrite Z.land_spec, Z.bits_0, Z.testbit_ones_nonneg in Hb by lia.
  rewrite (proj2 (Z.ltb_lt j n)), andb_true_r in Hb by lia. by rewrite Hb, andb_false_r.
Qed.
Lemma lor_byte a b : 0 <= a < 256 -> 0 <= b < 256 -> Z.lor a b < 256.
Proof.
  intros Ha Hb. destruct (Z.eq_dec (Z.lor a b) 0) as [->|]; [lia|].
  apply (Z.log2_lt_pow2 _ 8); [pose proof (proj2 (Z.lor_nonneg a b)); lia|]. rewrite Z.log2_lor by lia.
  assert (forall x, 0 <= x < 256 -> Z.log2 x < 8) as Hl.
  { intros x Hx. destruct (Z.eq_dec x 0) as [->|]; [cbn; lia|]. apply Z.log2_lt_pow2; lia. }
  apply Z.max_lub_lt; by apply Hl.
Qed.
Lemma cont_byte v : 0 <= v -> Z.lor (Z.land v 127) 128 = v mod 128 + 128.
Proof.
  intros Hv. rewrite land_127. pose proof (Z.mod_pos_bound v 128). apply (lor_low 7); [lia|lia|reflexivity].
Qed.

(** Properties of a byte below and above 128. *)
Lemma flag_low b : 0 <= b < 128 -> (Z.land b 128 =? 0) = true.
Proof.
  intros Hb. apply Z.eqb_eq. apply Z.bits_inj'. intros j Hj. rewrite Z.land_spec, Z.bits_0.
  change 128 with (2 ^ 7). rewrite Z.pow2_bits_eqb by lia. destruct (Z.eqb_spec 7 j) as [<-|]; [|apply andb_false_r].
  by rewrite (testbit_below b 7) by lia.
Qed.
Lemma flag_high b : 128 <= b < 256 -> (Z.land b 128 =? 0) = false.
Proof.
  intros Hb. apply Z.eqb_neq. intros H0. apply (f_equal (fun z => Z.testbit z 7)) in H0.
  rewrite Z.land_spec, Z.bits_0 in H0. change (Z.testbit 128 7) with true in H0. rewrite andb_true_r in H0.
  rewrite (Z.testbit_unique b 7 true (b - 128) 0) in H0; [done|lia|simpl; lia].
Qed.
Lemma land_127_high b : 128 <= b < 256 -> Z.land b 127 = b - 128.
Proof. intros Hb. rewrite land_127. symmetry. apply (Z.mod_unique _ _ 1); lia. Qed.

(** What the loop decodes: the digits of [w] above [tmp]. *)
Lemma integer_loop_roundtrip fuel w tmp m n rest :
  0 <= w -> (m = 0 \/ (0 < m /\ 0 < w)) -> 0 <= tmp -> tmp + w * 2 ^ m < MAX_HPACK_INTEGER -> w < 128 * 128 ^ Z.of_nat fuel ->
  exists ds, EncodeInteger_loop fuel w = Some ds /\ Forall is_byte ds /\ (0 < length ds)%nat /\
    DecodeInteger_loop (ds ++ rest) tmp m n = Some (n + Z.of_nat (length ds), tmp + w * 2 ^ m, rest).
Proof.
  unfold MAX_HPACK_INTEGER. revert w tmp m n. induction fuel as [|fuel IH]; intros w tmp m n Hw Hm Ht Hmax Hf; cbn [EncodeInteger_loop].
  all: assert (Hm24 : 0 <= m < 24) by (destruct Hm as [->|[? ?]]; [lia|]; split; [lia|]; apply (Z.pow_lt_mono_r_iff 2); nia).
  all: assert (Hp : 0 < 2 ^ m <= 2 ^ 24) by (split; [apply Z.pow_pos_nonneg; lia|apply Z.pow_le_mono_r; lia]).
  all: destruct (Z.leb_spec 128 w) as [Hge|Hlt].
  all: try (exists [u8 w]; rewrite u8_small by lia; split; [done|]; split; [constructor; [unfold is_byte; lia|constructor]|];
    split; [simpl; lia|]; cbn [app DecodeInteger_loop]; rewrite (proj2 (Z.leb_gt 64 m)) by lia;
    rewrite land_127, Z.mod_small, flag_low, Z.shiftl_mul_pow2 by lia; cbn [negb andb];
    rewrite !u64_small by (rewrite ?u64_small; nia);
    rewrite (proj2 (Z.leb_gt MAX_HPACK_INTEGER _)) by (unfold MAX_HPACK_INTEGER; lia);
    rewrite u32_small by nia; done).
  { simpl in Hf. lia. }
  pose proof (Z.div_mod w 128) as Hdm. pose proof (Z.mod_pos_bound w 128) as Hmb.
  assert (Hpow : 2 ^ (m + 7) = 2 ^ m * 128) by (by rewrite Z.pow_add_r by lia).
  assert (Heq : tmp + (w mod 128) * 2 ^ m + w / 128 * 2 ^ (m + 7) = tmp + w * 2 ^ m) by (rewrite Hpow; nia).
  rewrite shiftr_7. assert (Hd : 0 < w / 128) by (apply Z.div_str_pos; lia).
  destruct (IH (w / 128) (tmp + (w mod 128) * 2 ^ m) (m + 7) (n + 1)) as (ds & -> & Hby & Hlen & Hdec); [lia|right; lia|nia|lia| |].
  { apply Z.div_lt_upper_bound; [lia|]. rewrite Nat2Z.inj_succ, Z.pow_succ_r in Hf by lia. lia. }
  cbn [mbind option_bind]. rewrite cont_byte, u8_small by lia. eexists. split; [done|].
  split; [constructor; [unfold is_byte; lia|done]|]. split; [simpl; lia|].
  cbn [app DecodeInteger_loop]. rewrite (proj2 (Z.leb_gt 64 m)) by lia.
  rewrite land_127_high, flag_high, Z.shiftl_mul_pow2 by lia. replace (w mod 128 + 128 - 128) with (w mod 128) by lia.
  assert (w / 128 * 2 ^ (m + 7) > 0) by (rewrite Hpow; nia).
  rewrite !u64_small by (rewrite ?u64_small; nia). cbn [negb andb].
  rewrite (proj2 (Z.ltb_lt _ MAX_HPACK_INTEGER)) by (unfold MAX_HPACK_INTEGER; lia).
  rewrite Hdec, Heq. do 3 f_equal. cbn [length]. lia.
Qed.

(** The prefix sizes HPACK uses, with the flag bits above the prefix. *)
Definition prefix_ok (msb prefix_size : Z) : Prop :=
  0 < prefix_size < 8 /\ 0 <= msb < 256 /\ Z.land msb (2 ^ prefix_size - 1) = 0.

Lemma integer_roundtrip msb n v rest :
  prefix_ok msb n -> 0 <= v < MAX_HPACK_INTEGER ->
  exists b ds, EncodeInteger msb n v = Some (b :: ds) /\ Forall is_byte (b :: ds) /\
    b = msb + Z.min v (2 ^ n - 1) /\
    DecodeInteger (b :: ds ++ rest) n = Some (Z.of_nat (length (b :: ds)), v, rest).
Proof.
  intros (Hn & Hmsb & Hflag) Hv. pose proof (Z.pow_pos_nonneg 2 n). pose proof (Z.pow_le_mono_r 2 n 7).
  assert (H2 : 2 ^ n = 2 * 2 ^ (n - 1)) by (rewrite <- Z.pow_succ_r by lia; f_equal; lia).
  pose proof (Z.pow_pos_nonneg 2 (n - 1)). set (w := 2 ^ n) in *.
  assert (Hcap : forall x, 0 <= x < w -> Z.lor msb x = msb + x /\ msb + x < 256 /\ Z.land (msb + x) (w - 1) = x).
  { intros x Hx. assert (Hor : Z.lor msb x = msb + x).
    { rewrite Z.lor_comm, Z.add_comm. apply (lor_low n); [lia|done|done]. }
    split; [done|]. rewrite <- Hor. split.
    - pose proof (lor_byte msb x) as Hb. apply Hb; lia.
    - replace (w - 1) with (Z.ones n) by (rewrite Z.ones_equiv; subst w; lia).
      rewrite Z.land_lor_distr_l. replace (w - 1) with (Z.ones n) in Hflag by (rewrite Z.ones_equiv; subst w; lia).
      rewrite Hflag, Z.lor_0_l, Z.land_ones by lia. apply Z.mod_small. subst w. lia. }
  unfold EncodeInteger, DecodeInteger. rewrite !Z.shiftl_mul_pow2, !Z.mul_1_l by lia. fold w.
  rewrite (u8_small (w - 1)), (u32_small w) by lia.
  destruct (Z.ltb_spec v (w - 1)) as [Hlt|Hge].
  - destruct (Hcap v) as (E1 & E2 & E3); [lia|]. rewrite E1, u8_small by lia. eexists _, [].
    split; [done|]. split; [constructor; [unfold is_byte; lia|constructor]|]. split; [lia|].
    cbn [app]. rewrite E3, (proj2 (Z.ltb_lt _ _)), u32_small by (unfold MAX_HPACK_INTEGER in *; lia). done.
  - destruct (Hcap (w - 1)) as (E1 & E2 & E3); [lia|]. rewrite E1, u8_small by lia.
    rewrite u32_small by (unfold MAX_HPACK_INTEGER in *; lia).
    destruct (integer_loop_roundtrip 5 (v - (w - 1)) (w - 1) 0 1 rest) as (ds & -> & Hby & _ & Hdec);
      [lia|by left|lia|simpl; lia|unfold MAX_HPACK_INTEGER in *; simpl; lia|].
    cbn [mbind option_bind]. eexists _, ds. split; [done|]. split; [constructor; [unfold is_byte; lia|done]|]. split; [lia|].
    rewrite E3, (proj2 (Z.ltb_ge _ _)), Hdec by lia. do 3 f_equal; [|simpl; lia]. cbn [length]. lia.
Qed.

(** ** Strings decode to what was encoded *)
Lemma ascii_tolower_byte c : is_byte c -> is_byte (ascii_tolower c).
Proof. unfold is_byte, ascii_tolower. intros Hc. destruct ((65 <=? c) && (c <=? 90)) eqn:E; lia. Qed.
Lemma tolower_bytes s : Forall is_byte s -> Forall is_byte (tolower s).
Proof. intros Hs. apply Forall_map. by eapply Forall_impl; [|intros; apply ascii_tolower_byte]. Qed.
Lemma tolower_length s : length (tolower s) = length s.
Proof. apply length_map. Qed.
Lemma ascii_tolower_idem c : ascii_tolower (ascii_tolower c) = ascii_tolower c.
Proof.
  unfold ascii_tolower at 2 3. destruct ((65 <=? c) && (c <=? 90)) eqn:E; unfold ascii_tolower.
  - rewrite (proj2 (Z.leb_gt (c + 32) 90)) by lia. by rewrite andb_false_r.
  - by rewrite E.
Qed.
Lemma tolower_idem s : tolower (tolower s) = tolower s.
Proof. unfold tolower. rewrite map_map. apply map_ext. apply ascii_tolower_idem. Qed.

Lemma text_bits_bound s : Forall is_byte s -> Z.of_nat (length (text_bits s)) <= 30 * Z.of_nat (length s).
Proof.
  induction 1 as [|b s Hb Hs IH]; [done|]. destruct (table_byte b Hb) as (c & Hc & Hl & _).
  assert (Ht : text_bits (b :: s) = code_bits c ++ text_bits s) by (unfold text_bits; simpl; by rewrite Hc).
  rewrite Ht, length_app. unfold code_bits. rewrite bits_length. cbn [length]. lia.
Qed.
Lemma huffman_bit_len_spec s n : Forall is_byte s -> 0 <= n -> n + Z.of_nat (length (text_bits s)) < 2 ^ 32 ->
  huffman_bit_len s n = Some (n + Z.of_nat (length (text_bits s))).
Proof.
  intros Hs. revert n. induction Hs as [|b s Hb Hs IH]; intros n Hn Hlt; cbn [huffman_bit_len].
  - f_equal. simpl. lia.
  - destruct (table_byte b Hb) as (c & Hc & Hl & _). rewrite Hc. cbn [mbind option_bind].
    assert (Ht : text_bits (b :: s) = code_bits c ++ text_bits s) by (unfold text_bits; simpl; by rewrite Hc).
    rewrite Ht, length_app in *. unfold code_bits in *. rewrite bits_length in *. rewrite u32_small by lia.
    rewrite IH by lia. f_equal. lia.
Qed.

Lemma huffman_loop_spec l rest d d' : decode_all s_huffman_tree l d = Some (0, d') ->
  huffman_loop (l ++ rest) (Z.of_nat (length l)) d = Some (0, d', rest).
Proof.
  revert d. induction l as [|b l IH]; intros d Hd; cbn [app length].
  - injection Hd as <-. by destruct rest.
  - cbn [decode_all] in Hd. cbn [huffman_loop]. rewrite (proj2 (Z.eqb_neq _ 0)) by lia.
    destruct (Decode s_huffman_tree b d) as [r|]; [|done]. cbn [mbind option_bind] in *.
    destruct (Z.eqb_spec (r.1) 0) as [E|E]; cbn [negb].
    + replace (Z.of_nat (S (length l)) - 1) with (Z.of_nat (length l)) by lia. by apply IH.
    + destruct r as [rc d1]. simpl in *. congruence.
Qed.

Definition string_ok (s : bytes) : Prop := Forall is_byte s /\ Z.of_nat (length s) <= 2 ^ 21.

Lemma string_roundtrip (low huffman : bool) s rest out0 : string_ok s ->
  exists b bs, EncodeString low s huffman = Some (b :: bs) /\ Forall is_byte (b :: bs) /\
    DecodeString ((b :: bs) ++ rest) out0 =
      Some (Z.of_nat (length (b :: bs)), if low then tolower s else s, rest).
Proof.
  intros [Hs Hlen]. unfold EncodeString. fold (tolower s). set (s' := if low then tolower s else s).
  assert (Hs' : Forall is_byte s') by (destruct low; [by apply tolower_bytes|done]).
  assert (Hl' : length s' = length s) by (destruct low; [apply tolower_length|done]).
  destruct huffman; cbn [negb].
  - pose proof (text_bits_bound s' Hs') as Hbound. rewrite Hl' in Hbound.
    rewrite huffman_bit_len_spec by (done || lia). cbn [mbind option_bind]. rewrite Z.add_0_l.
    set (n := Z.of_nat (length (text_bits s'))) in *.
    assert (Hceil : Z.shiftr n 3 + (if Z.land n 7 =? 0 then 0 else 1) = (n + 7) / 8).
    { rewrite Z.shiftr_div_pow2 by lia. change 7 with (Z.ones 3) at 1. rewrite Z.land_ones by lia. change (2 ^ 3) with 8.
      pose proof (Z.div_mod n 8). pose proof (Z.mod_pos_bound n 8). destruct (Z.eqb_spec (n mod 8) 0).
      - apply (Z.div_unique _ _ _ 7); lia.
      - apply (Z.div_unique _ _ _ (n mod 8 - 1)); lia. }
    rewrite Hceil. assert (Hmax : 0 <= (n + 7) / 8 < MAX_HPACK_INTEGER).
    { split; [apply Z.div_pos; lia|]. apply Z.div_lt_upper_bound; unfold MAX_HPACK_INTEGER; lia. }
    assert (Hpre : prefix_ok 128 7) by (split; [lia|split; [lia|reflexivity]]).
    destruct (integer_roundtrip 128 7 ((n + 7) / 8) [] Hpre Hmax) as (b & ds & Hint & _). rewrite Hint. cbn [mbind option_bind].
    destruct (huffman_roundtrip_at s' (b :: ds) Hs') as (e & out & -> & Hout & Hby & Hol & Hdec). cbn [mbind option_bind].
    rewrite Hout. fold n in Hol.
    destruct (integer_roundtrip 128 7 ((n + 7) / 8) (out ++ rest) Hpre Hmax) as (b2 & ds2 & Hint2 & Hby2 & Hb2 & Hdeci).
    rewrite Hint in Hint2. injection Hint2 as <- <-. eexists b, _. split; [done|].
    split; [apply (Forall_app_2 _ (b :: ds)); done|].
    cbn [app]. rewrite <- app_assoc. cbn [DecodeString]. rewrite Hdeci. cbn [mbind option_bind].
    assert (Hbr : 128 <= b < 256) by (apply Forall_cons in Hby2 as [Hb _]; unfold is_byte in Hb; lia).
    rewrite flag_high by lia. cbn [negb].
    rewrite (proj2 (Z.leb_gt _ 0)) by (cbn [length]; lia). rewrite (proj2 (Z.ltb_ge _ _)) by (rewrite length_app; lia).
    change (HuffmanDecoder_new s_huffman_tree []) with (Some (at_root [])). cbn [mbind option_bind].
    destruct (Hdec []) as (d & Hd1 & Hd2 & Hd3). rewrite <- Hol, (huffman_loop_spec out rest _ d Hd1). cbn [mbind option_bind].
    cbn [negb Z.eqb]. rewrite Hd3, Hd2. cbn [negb Z.eqb app]. do 3 f_equal. cbn [length]. rewrite length_app. lia.
  - rewrite u32_small by lia. assert (Hmax : 0 <= Z.of_nat (length s) < MAX_HPACK_INTEGER) by (unfold MAX_HPACK_INTEGER; lia).
    assert (Hpre : prefix_ok 0 7) by (split; [lia|split; [lia|reflexivity]]).
    destruct (integer_roundtrip 0 7 (Z.of_nat (length s)) (s' ++ rest) Hpre Hmax) as (b & ds & -> & Hby & Hb & Hdec).
    cbn [mbind option_bind app]. eexists b, _. split; [done|]. split; [by apply (Forall_app_2 _ (b :: ds))|].
    rewrite <- app_assoc. cbn [DecodeString]. rewrite Hdec. cbn [mbind option_bind].
    rewrite flag_low by lia. cbn [negb]. rewrite (proj2 (Z.leb_gt _ 0)) by (cbn [length]; lia).
    rewrite (proj2 (Z.ltb_ge _ _)) by (rewrite length_app; lia). rewrite Nat2Z.id, <- Hl'.
    rewrite take_app_length, drop_app_length. do 3 f_equal. cbn [length]. rewrite length_app. lia.
Qed.

(** The same for every continuation of the input. *)
Lemma integer_roundtrip_all msb n v :
  prefix_ok msb n -> 0 <= v < MAX_HPACK_INTEGER ->
  exists b ds, EncodeInteger msb n v = Some (b :: ds) /\ Forall is_byte (b :: ds) /\
    b = msb + Z.min v (2 ^ n - 1) /\
    forall rest, DecodeInteger ((b :: ds) ++ rest) n = Some (Z.of_nat (length (b :: ds)), v, rest).
Proof.
  intros Hp Hv. destruct (integer_roundtrip msb n v [] Hp Hv) as (b & ds & He & Hb & Hm & _).
  exists b, ds. split; [done|]. split; [done|]. split; [done|]. intros rest.
  destruct (integer_roundtrip msb n v rest Hp Hv) as (b' & ds' & He' & _ & _ & Hd). rewrite He in He'. by injection He' as <- <-.
Qed.
Lemma string_roundtrip_all (low huffman : bool) s : string_ok s ->
  exists b bs, EncodeString low s huffman = Some (b :: bs) /\ Forall is_byte (b :: bs) /\
    forall rest out0, DecodeString ((b :: bs) ++ rest) out0 = Some (Z.of_nat (length (b :: bs)), if low then tolower s else s, rest).
Proof.
  intros Hs. destruct (string_roundtrip low huffman s [] [] Hs) as (b & bs & He & Hb & _).
  exists b, bs. split; [done|]. split; [done|]. intros rest out0.
  destruct (string_roundtrip low huffman s rest out0 Hs) as (b' & bs' & He' & _ & Hd). rewrite He in He'. by injection He' as <- <-.
Qed.

End Primitive.
