(* ===== verification/HpackTable.v ===== *)
(** * HPACK index tables (IndexTable of brpc/details/hpack.cpp)

    A table is a queue of headers, the latest added at the bottom, and for encoders two
    maps from a header and from a name to the serial number of their latest entry.  The
    maps are any implementation of [MapInterface]; [BoundedQueue] is the queue.  The
    specification is the list of entries, oldest first. *)
From stdpp Require Import base list.
From Stdlib Require Import ZArith Lia Bool.
From S2P Require Import Prelude BoundedQueue FlatMap MapInterface HpackPrimitive.

Open Scope Z_scope.

Module Table.
Import MapInterface Primitive.

Record Header := mkHeader { name : bytes; value : bytes }.

(** ** Comparing and hashing names *)

(** [strcasecmp(s1.c_str(), s2.c_str()) == 0]: up to the terminating NUL. *)
Fixpoint strcasecmp_eq (s1 s2 : bytes) : bool :=
  match s1, s2 with
  | [], [] => true
  | [], c :: _ => c =? 0
  | c :: _, [] => c =? 0
  | c1 :: s1', c2 :: s2' =>
      if ascii_tolower c1 =? ascii_tolower c2
      then (if c1 =? 0 then true else strcasecmp_eq s1' s2')
      else false
  end.
Definition CaseIgnoredEqual (s1 s2 : bytes) : bool := (length s1 =? length s2)%nat && strcasecmp_eq s1 s2.
(** [result = result * 101 + c] on the characters as signed values. *)
Definition CaseIgnoredHasher (s : bytes) : Z := fold_left (fun r c => u64 (r * 101 + i8 (ascii_tolower c))) s 0.
Definition DefaultHasher (s : bytes) : Z := fold_left (fun r c => u64 (r * 101 + i8 c)) s 0.
Definition HeaderHasher (h : Header) : Z := u64 (CaseIgnoredHasher (name h) * 101 + DefaultHasher (value h)).
Definition HeaderEqualTo (h1 h2 : Header) : bool :=
  CaseIgnoredEqual (name h1) (name h2) && bool_decide (value h1 = value h2).

Record IndexTableOptions := mkOptions {
  max_size : Z; start_index : Z; static_table : list Header; need_indexes : bool
}.

Section Operations.
Context {HM NM : Type} `{!MapOps HM Header Z} `{!MapOps NM bytes Z}.

Record IndexTable := mkTable {
  _start_index : Z;
  _need_indexes : bool;
  _add_times : Z;
  _max_size : Z;
  _size : Z;
  _header_queue : BoundedQueue.queue Header;
  _header_index : HM;
  _name_index : NM
}.
Definition IndexTable_new : IndexTable :=
  mkTable 0 false 0 0 0 BoundedQueue.BoundedQueue_default map_new map_new.

Definition set_queue (t : IndexTable) (sz times : Z) (q : BoundedQueue.queue Header) : IndexTable :=
  mkTable (_start_index t) (_need_indexes t) times (_max_size t) sz q (_header_index t) (_name_index t).
Definition set_indexes (t : IndexTable) (hm : HM) (nm : NM) : IndexTable :=
  mkTable (_start_index t) (_need_indexes t) (_add_times t) (_max_size t) (_size t) (_header_queue t) hm nm.
Definition set_max_size (t : IndexTable) (n : Z) : IndexTable :=
  mkTable (_start_index t) (_need_indexes t) (_add_times t) n (_size t) (_header_queue t) (_header_index t) (_name_index t).

(** Inner [None]: the NULL pointer. *)
Definition HeaderAt (t : IndexTable) (index : Z) : option (option Header) :=
  if index <? _start_index t then Some None
  else BoundedQueue.bottom_at (index - _start_index t) (_header_queue t).
Definition index_of_id (t : IndexTable) (v : Z) : Z := i32 (u64 (_start_index t + (_add_times t - v) - 1)).
Definition GetIndexOfHeader (t : IndexTable) (h : Header) : option Z :=
  v ← map_seek (_header_index t) h;
  Some (match v with None => 0 | Some v => index_of_id t v end).
Definition GetIndexOfName (t : IndexTable) (n : bytes) : option Z :=
  v ← map_seek (_name_index t) n;
  Some (match v with None => 0 | Some v => index_of_id t v end).
Definition empty (t : IndexTable) : bool := _size t =? 0.
Definition end_index (t : IndexTable) : Z := i32 (_start_index t + BoundedQueue.size (_header_queue t)).
Definition HeaderSize (h : Header) : Z := Z.of_nat (length (name h)) + Z.of_nat (length (value h)) + 32.

(** [*v] of a key that is not there is a null dereference. *)
Definition RemoveHeaderFromIndexes (t : IndexTable) (h : Header) (expected_id : Z) : option IndexTable :=
  hm ← match value h with
       | [] => Some (_header_index t)
       | _ =>
           o ← map_seek (_header_index t) h; v ← o;
           if v =? expected_id then map_erase (_header_index t) h else Some (_header_index t)
       end;
  o ← map_seek (_name_index t) (name h); v ← o;
  nm ← (if v =? expected_id then map_erase (_name_index t) (name h) else Some (_name_index t));
  Some (set_indexes t hm nm).
Definition PopHeader (t : IndexTable) : option IndexTable :=
  o ← BoundedQueue.top (_header_queue t); h ← o;
  let entry_size := HeaderSize h in
  let id := u64 (_add_times t - BoundedQueue.size (_header_queue t)) in
  t1 ← (if _need_indexes t then RemoveHeaderFromIndexes t h id else Some t);
  r ← BoundedQueue.pop (_header_queue t1);
  Some (set_queue t1 (u64 (_size t1 - entry_size)) (_add_times t1) r.2).

(** [while (!empty() && (_size + entry_size) > _max_size) PopHeader()]: at most one
    turn per header of the queue. *)
Fixpoint evict_loop (fuel : nat) (entry_size : Z) (t : IndexTable) : option IndexTable :=
  if negb (empty t) && (_max_size t <? u64 (_size t + entry_size)) then
    match fuel with O => None | S fuel' => t' ← PopHeader t; evict_loop fuel' entry_size t' end
  else Some t.
Definition turns (t : IndexTable) : nat := S (Z.to_nat (BoundedQueue.size (_header_queue t))).

Definition AddHeader (t : IndexTable) (h : Header) : option IndexTable :=
  let entry_size := HeaderSize h in
  t1 ← evict_loop (turns t) entry_size t;
  if _max_size t1 <? entry_size then Some t1
  else
    r ← BoundedQueue.push h (_header_queue t1);
    let id := u64 (i32 (_add_times t1)) in
    let t2 := set_queue t1 (u64 (_size t1 + entry_size)) (u64 (_add_times t1 + 1)) r.2 in
    if _need_indexes t2 then
      hm ← match value h with [] => Some (_header_index t2) | _ => map_insert (_header_index t2) h id end;
      nm ← map_insert (_name_index t2) (name h) id;
      Some (set_indexes t2 hm nm)
    else Some t2.

(** [while (_size > _max_size) PopHeader()]. *)
Fixpoint shrink_loop (fuel : nat) (t : IndexTable) : option IndexTable :=
  if _max_size t <? _size t then
    match fuel with O => None | S fuel' => t' ← PopHeader t; shrink_loop fuel' t' end
  else Some t.
Definition ResetMaxSize (t : IndexTable) (new_max_size : Z) : option IndexTable :=
  if _max_size t <? new_max_size then Some (set_max_size t new_max_size)
  else if new_max_size <? _max_size t then shrink_loop (turns t) (set_max_size t new_max_size)
  else Some t.

(** Headers added one after the other. *)
Fixpoint add_all (hs : list Header) (t : IndexTable) : option IndexTable :=
  match hs with [] => Some t | h :: hs' => t' ← AddHeader t h; add_all hs' t' end.

(** [malloc_ok]: the storage of the queue could be allocated. *)
Definition Init (options : IndexTableOptions) (malloc_ok : bool) : option (Z * IndexTable) :=
  let static_table_size := Z.of_nat (length (static_table options)) in
  let is_static := 0 <? static_table_size in
  let num_headers := if is_static then static_table_size else max_size options / 34 in
  let max := if is_static then 2 ^ 32 - 1 else max_size options in
  let t0 := mkTable 0 false 0 max 0 BoundedQueue.BoundedQueue_default map_new map_new in
  if negb malloc_ok then Some (-1, t0)
  else
    let q := BoundedQueue.BoundedQueue_mem num_headers BoundedQueue.OWNS_STORAGE in
    let t1 := mkTable (i32 (start_index options)) (need_indexes options) 0 max 0 q map_new map_new in
    let fill t := t' ← (if is_static then add_all (reverse (static_table options)) t else Some t); Some (0, t') in
    if need_indexes options then
      n ← map_init (_name_index t1) (u64 (num_headers * 2));
      if negb (n.1 =? 0) then Some (-1, set_indexes t1 (_header_index t1) n.2)
      else
        h ← map_init (_header_index t1) (u64 (num_headers * 2));
        if negb (h.1 =? 0) then Some (-1, set_indexes t1 h.2 n.2)
        else fill (set_indexes t1 h.2 n.2)
    else fill t1.
End Operations.

(** ** Names without NUL *)
Definition good_name (n : bytes) : bool := forallb (fun c => (0 <? c) && (c <? 256)) n.
(** What identifies a header to the maps. *)
Definition hkey (h : Header) : bytes * bytes := (tolower (name h), value h).

Lemma good_name_cons c n : good_name (c :: n) = true <-> 0 < c < 256 /\ good_name n = true.
Proof. unfold good_name. cbn [forallb]. rewrite !andb_true_iff, Z.ltb_lt, Z.ltb_lt. tauto. Qed.
Lemma strcasecmp_eq_spec s1 s2 : good_name s1 = true -> good_name s2 = true ->
  (length s1 =? length s2)%nat && strcasecmp_eq s1 s2 = bool_decide (tolower s1 = tolower s2).
Proof.
  revert s2. induction s1 as [|c1 s1 IH]; intros [|c2 s2] H1 H2; try done.
  apply good_name_cons in H1 as [Hc1 H1]. apply good_name_cons in H2 as [Hc2 H2].
  specialize (IH s2 H1 H2). cbn [length Nat.eqb strcasecmp_eq tolower map].
  destruct (Z.eqb_spec (ascii_tolower c1) (ascii_tolower c2)) as [E|E].
  - rewrite (proj2 (Z.eqb_neq c1 0)) by lia. rewrite IH. apply bool_decide_ext. unfold tolower. rewrite E. split; [by intros ->|by intros [= ?]].
  - rewrite andb_false_r. symmetry. apply bool_decide_eq_false_2. intros [= ? ?]. done.
Qed.
Lemma CaseIgnoredEqual_spec s1 s2 : good_name s1 = true -> good_name s2 = true ->
  CaseIgnoredEqual s1 s2 = bool_decide (tolower s1 = tolower s2).
Proof. apply strcasecmp_eq_spec. Qed.
Lemma HeaderEqualTo_spec h1 h2 : good_name (name h1) = true -> good_name (name h2) = true ->
  HeaderEqualTo h1 h2 = bool_decide (hkey h1 = hkey h2).
Proof.
  intros H1 H2. unfold HeaderEqualTo. rewrite CaseIgnoredEqual_spec by done. unfold hkey.
  rewrite <- bool_decide_and. apply bool_decide_ext. split; [by intros [-> ->]|by intros [= ? ?]].
Qed.
Lemma CaseIgnoredHasher_tolower s : CaseIgnoredHasher (tolower s) = CaseIgnoredHasher s.
Proof.
  unfold CaseIgnoredHasher. generalize 0. induction s as [|c s IH]; intros r; [done|]. cbn [tolower map fold_left].
  rewrite ascii_tolower_idem. apply IH.
Qed.

(** ** The entries of a table *)
Fixpoint tsize (l : list Header) : Z := match l with [] => 0 | h :: l' => HeaderSize h + tsize l' end.
(** The place of the last entry that satisfies [p]. *)
Fixpoint find_last (p : Header -> bool) (l : list Header) : option nat :=
  match l with
  | [] => None
  | h :: l' => match find_last p l' with Some i => Some (S i) | None => if p h then Some 0%nat else None end
  end.
(** Entries dropped for an entry of size [n] to fit. *)
Fixpoint evict (max n : Z) (l : list Header) : list Header :=
  match l with [] => [] | h :: l' => if max <? tsize l + n then evict max n l' else l end.
Definition add (max : Z) (l : list Header) (h : Header) : list Header :=
  if max <? HeaderSize h then [] else evict max (HeaderSize h) l ++ [h].
Fixpoint shrink (max : Z) (l : list Header) : list Header :=
  match l with [] => [] | h :: l' => if max <? tsize l then shrink max l' else l end.

Lemma HeaderSize_pos h : 32 <= HeaderSize h.
Proof. unfold HeaderSize. lia. Qed.
Lemma tsize_nonneg l : 0 <= tsize l.
Proof. induction l as [|h l IH]; simpl; [lia|]. pose proof (HeaderSize_pos h). lia. Qed.
Lemma tsize_length l : 32 * Z.of_nat (length l) <= tsize l.
Proof. induction l as [|h l IH]; [done|]. cbn [length tsize]. pose proof (HeaderSize_pos h). lia. Qed.
Lemma tsize_app l1 l2 : tsize (l1 ++ l2) = tsize l1 + tsize l2.
Proof. induction l1; simpl; lia. Qed.
Lemma tsize_zero l : tsize l = 0 -> l = [].
Proof. destruct l as [|h l]; [done|]. simpl. pose proof (HeaderSize_pos h). pose proof (tsize_nonneg l). lia. Qed.
Lemma evict_suffix max n l : exists d, l = d ++ evict max n l.
Proof.
  induction l as [|h l [d Hd]]; [by exists []|]. cbn [evict]. destruct (max <? tsize (h :: l) + n); [|by exists []].
  exists (h :: d). simpl. by rewrite <- Hd.
Qed.
Lemma evict_fits max n l : n <= max -> tsize (evict max n l) + n <= max.
Proof.
  intros Hn. induction l as [|h l IH]; [simpl; lia|]. cbn [evict]. destruct (Z.ltb_spec max (tsize (h :: l) + n)); [done|lia].
Qed.
Lemma evict_all max n l : 0 <= max < n -> evict max n l = [].
Proof.
  intros Hn. induction l as [|h l IH]; [done|]. cbn [evict]. pose proof (tsize_nonneg (h :: l)).
  by rewrite (proj2 (Z.ltb_lt _ _)) by lia.
Qed.
Lemma find_last_app p l h : find_last p (l ++ [h]) = if p h then Some (length l) else find_last p l.
Proof. induction l as [|x l IH]; simpl; [by destruct (p h)|]. rewrite IH. destruct (p h); [done|]. done. Qed.
Lemma find_last_lookup p l i : find_last p l = Some i -> exists h, l !! i = Some h /\ p h = true.
Proof.
  revert i. induction l as [|x l IH]; intros i; simpl; [done|]. destruct (find_last p l) as [j|].
  - intros [= <-]. by apply IH.
  - destruct (p x) eqn:E; [|done]. intros [= <-]. by exists x.
Qed.
Lemma find_last_None p l : find_last p l = None <-> Forall (fun h => p h = false) l.
Proof.
  induction l as [|x l IH]; simpl; [split; [constructor|done]|]. rewrite Forall_cons, <- IH.
  destruct (find_last p l); [naive_solver|]. destruct (p x); naive_solver.
Qed.

(** What the maps of a table promise. *)
Class TableMaps (HM NM : Type) `{!MapOps HM Header Z} `{!MapOps NM bytes Z} := {
  hm_laws :: MapLaws HM Header Z;
  nm_laws :: MapLaws NM bytes Z;
  hm_dom (h : Header) : good_name (name h) = true -> map_dom h;
  nm_dom (n : bytes) : good_name n = true -> map_dom n;
  hm_eq (h h' : Header) : good_name (name h) = true -> good_name (name h') = true ->
    map_eq h h' = bool_decide (hkey h = hkey h');
  nm_eq (n n' : bytes) : good_name n = true -> good_name n' = true ->
    map_eq n n' = bool_decide (tolower n = tolower n')
}.

Section Spec.
Context {HM NM : Type} `{!MapOps HM Header Z} `{!MapOps NM bytes Z} `{!TableMaps HM NM}.
Abbreviation IndexTable := (@IndexTable HM NM).
Implicit Types (t : IndexTable) (l : list Header) (h : Header).

(** The serial number of the [i]-th entry. *)
Definition id_at t l (i : nat) : Z := _add_times t - Z.of_nat (length l) + Z.of_nat i.
(** Headers without a value are not indexed. *)
Definition has_value (e : Header) : bool := match value e with [] => false | _ => true end.
Definition is_header h (e : Header) : bool := has_value e && bool_decide (hkey e = hkey h).
Definition is_name (n : bytes) (e : Header) : bool := bool_decide (tolower (name e) = tolower n).

Record indexed t l : Prop := mkIndexed {
  ix_good : Forall (fun e => good_name (name e) = true) l;
  ix_hm : map_ok (_header_index t) /\ map_count (_header_index t) <= _add_times t;
  ix_nm : map_ok (_name_index t) /\ map_count (_name_index t) <= _add_times t;
  ix_header h : good_name (name h) = true ->
    map_get (_header_index t) h = id_at t l <$> find_last (is_header h) l;
  ix_name n : good_name n = true -> map_get (_name_index t) n = id_at t l <$> find_last (is_name n) l
}.
(** The table [t] holds the entries [l]. *)
Record tbl t l : Prop := mkTbl {
  tb_queue : BoundedQueue.repr (_header_queue t) l;
  tb_size : _size t = tsize l;
  tb_max : tsize l <= _max_size t < 2 ^ 32;
  tb_times : Z.of_nat (length l) <= _add_times t < 2 ^ 31;
  tb_start : 0 <= _start_index t <= 2 ^ 20;
  tb_index : _need_indexes t = true -> indexed t l
}.
Definition cap t : Z := BoundedQueue._cap (_header_queue t).
(** What the operations leave alone. *)
Definition same t t' : Prop :=
  _start_index t' = _start_index t /\ _need_indexes t' = _need_indexes t /\ _max_size t' = _max_size t /\ cap t' = cap t.
Lemma same_refl t : same t t.
Proof. done. Qed.
Lemma same_trans t1 t2 t3 : same t1 t2 -> same t2 t3 -> same t1 t3.
Proof. intros (?&?&?&?) (?&?&?&?). repeat split; congruence. Qed.

Lemma is_header_self h : has_value h = true -> is_header h h = true.
Proof. intros Hv. unfold is_header. rewrite Hv. by apply bool_decide_eq_true_2. Qed.
Lemma is_header_none h e : value e = [] -> is_header h e = false.
Proof. intros Hv. unfold is_header, has_value. by rewrite Hv. Qed.
Lemma is_name_self h : is_name (name h) h = true.
Proof. by apply bool_decide_eq_true_2. Qed.
Lemma is_header_cong h h' e : hkey h = hkey h' -> is_header h e = is_header h' e.
Proof. intros E. unfold is_header. by rewrite E. Qed.
Lemma is_name_cong n n' e : tolower n = tolower n' -> is_name n e = is_name n' e.
Proof. intros E. unfold is_name. by rewrite E. Qed.
Lemma find_last_ext p q l : (forall e, p e = q e) -> find_last p l = find_last q l.
Proof. intros E. induction l as [|x l IH]; simpl; [done|]. by rewrite IH, E. Qed.

(** Removing the oldest entry's number from a map of latest numbers. *)
Section RemoveOne.
Context {M K : Type} `{!MapOps M K Z} `{!MapLaws M K Z} (m : M) (good : K -> Prop) (key : Header -> K)
  (p : K -> Header -> bool) (x : Header) (l : list Header) (base : Z).
Context (good_dom : forall k, good k -> map_dom k)
  (eq_p : forall k, good k -> map_eq (key x) k = p k x)
  (p_cong : forall k e, good k -> p k x = true -> p k e = p (key x) e)
  (Hok : map_ok m) (Hx : good (key x)) (Hpx : p (key x) x = true)
  (Hget : forall k, good k -> map_get m k = (fun i => base + Z.of_nat i) <$> find_last (p k) (x :: l)).
Lemma remove_one :
  exists v m', map_seek m (key x) = Some (Some v) /\
    (if v =? base then map_erase m (key x) else Some m) = Some m' /\ map_ok m' /\ map_count m' <= map_count m /\
    forall k, good k -> map_get m' k = (fun i => base + 1 + Z.of_nat i) <$> find_last (p k) l.
Proof.
  rewrite seek_law, Hget by auto. cbn [find_last]. destruct (find_last (p (key x)) l) as [i|] eqn:E.
  - exists (base + Z.of_nat (S i)), m. split; [done|]. rewrite (proj2 (Z.eqb_neq _ _)) by lia.
    split; [done|]. split; [done|]. split; [lia|]. intros k Hk. rewrite Hget by done. cbn [find_last].
    destruct (find_last (p k) l) as [j|] eqn:Ej; [simpl; f_equal; lia|]. destruct (p k x) eqn:Epx; [|done].
    rewrite (find_last_ext (p k) (p (key x))) in Ej by (intros; by apply p_cong). congruence.
  - rewrite Hpx. exists (base + Z.of_nat 0). destruct (erase_law m (key x)) as (m' & Heq & Hok' & Hc & Hg); [done|by apply good_dom|].
    exists m'. split; [done|]. rewrite (proj2 (Z.eqb_eq _ _)) by lia. split; [done|]. split; [done|]. split; [done|].
    intros k Hk. rewrite Hg, eq_p, Hget by auto. cbn [find_last]. destruct (p k x) eqn:Epx.
    + rewrite (find_last_ext (p k) (p (key x))) by (intros; by apply p_cong). by rewrite E.
    + destruct (find_last (p k) l); [simpl; f_equal; lia|done].
Qed.
End RemoveOne.

Lemma RemoveHeaderFromIndexes_spec t x l : indexed t (x :: l) -> Z.of_nat (length (x :: l)) <= _add_times t ->
  exists hm nm, RemoveHeaderFromIndexes t x (_add_times t - Z.of_nat (length (x :: l))) = Some (set_indexes t hm nm) /\
    indexed (set_indexes t hm nm) l.
Proof.
  intros [Hgood [Hhm Hhc] [Hnm Hnc] Hgh Hgn] Hlen. apply Forall_cons in Hgood as [Hgx Hgl].
  set (base := _add_times t - Z.of_nat (length (x :: l))) in *. unfold RemoveHeaderFromIndexes.
  destruct (remove_one (_name_index t) (fun n => good_name n = true) name is_name x l base)
    as (v & nm & Hseek & Hnew & Hok & Hc & Hg); try done.
  { apply nm_dom. } { intros k Hk. rewrite nm_eq by done. unfold is_name. done. }
  { intros k e Hk Hp. apply is_name_cong. by apply bool_decide_eq_true_1 in Hp. } { apply is_name_self. }
  rewrite Hseek. assert (Hh : exists hm, match value x with [] => Some (_header_index t) | _ =>
      o ← map_seek (_header_index t) x; v ← o; if v =? base then map_erase (_header_index t) x else Some (_header_index t) end = Some hm /\
    map_ok hm /\ map_count hm <= map_count (_header_index t) /\
    forall h, good_name (name h) = true ->
      map_get hm h = (fun i => base + 1 + Z.of_nat i) <$> find_last (is_header h) l).
  { destruct (value x) as [|c vs] eqn:Ev.
    - exists (_header_index t). split; [done|]. split; [done|]. split; [lia|]. intros h Hh. rewrite Hgh by done. cbn [find_last].
      destruct (find_last (is_header h) l); [simpl; f_equal; unfold id_at, base; lia|]. by rewrite is_header_none.
    - assert (Hv : has_value x = true) by (unfold has_value; by rewrite Ev).
      destruct (remove_one (_header_index t) (fun h => good_name (name h) = true) (fun h => h) is_header x l base)
        as (v' & hm & Hseek' & Hnew' & Hok' & Hc' & Hg'); try done.
      { intros k Hk. by apply hm_dom. } { intros k Hk. rewrite hm_eq by done. unfold is_header. by rewrite Hv. }
      { intros k e _ Hp. apply is_header_cong. symmetry. apply andb_true_iff in Hp as [_ Hp]. by apply bool_decide_eq_true_1 in Hp. }
      { by apply is_header_self. }
      rewrite Hseek'. cbn [mbind option_bind]. exists hm. done. }
  destruct Hh as (hm & -> & Hokh & Hch & Hgh'). cbn [mbind option_bind]. rewrite Hnew. cbn [mbind option_bind].
  exists hm, nm. split; [done|]. cbn [length] in *.
  assert (Hid : forall i, id_at (set_indexes t hm nm) l i = base + 1 + Z.of_nat i) by (intros; unfold id_at, base; simpl; lia).
  split; simpl; [done|split; [done|lia]|split; [done|lia]| |].
  - intros h Hh. rewrite Hgh' by done. destruct (find_last _ l); simpl; [by rewrite Hid|done].
  - intros n Hn. rewrite Hg by done. destruct (find_last _ l); simpl; [by rewrite Hid|done].
Qed.

(** [indexed] does not depend on the queue and the sizes. *)
Lemma indexed_queue t l sz q : indexed t l -> indexed (set_queue t sz (_add_times t) q) l.
Proof. intros [? ? ? ? ?]. by split. Qed.

Lemma PopHeader_spec t x l : tbl t (x :: l) ->
  exists t', PopHeader t = Some t' /\ tbl t' l /\ same t t' /\ _add_times t' = _add_times t.
Proof.
  intros [Hq Hs Hm Ht Hst Hix]. unfold PopHeader. rewrite (BoundedQueue.top_refines _ _ Hq). cbn [head mbind option_bind].
  assert (Hsz : BoundedQueue.size (_header_queue t) = Z.of_nat (length (x :: l))) by apply Hq.
  rewrite Hsz. rewrite u64_small by lia. pose proof (BoundedQueue.pop_refines _ _ Hq) as (q' & Hpop & _ & Hq' & Hcap).
  pose proof (tsize_nonneg l). pose proof (HeaderSize_pos x). cbn [tsize length] in *.
  assert (Ht1 : exists t1, (if _need_indexes t then RemoveHeaderFromIndexes t x (_add_times t - Z.of_nat (S (length l))) else Some t) = Some t1 /\
    (_need_indexes t = true -> indexed t1 l) /\ exists hm nm, t1 = set_indexes t hm nm).
  { destruct (_need_indexes t) eqn:En.
    - destruct (RemoveHeaderFromIndexes_spec t x l (Hix eq_refl)) as (hm & nm & Heq & Hi); [cbn [length]; lia|].
      cbn [length] in Heq. rewrite Heq. eexists. split; [done|]. split; [done|]. by exists hm, nm.
    - exists t. split; [done|]. split; [done|]. exists (_header_index t), (_name_index t). by destruct t. }
  destruct Ht1 as (t1 & -> & Hi1 & hm & nm & ->). cbn [mbind option_bind set_indexes _header_queue].
  rewrite Hpop. cbn [mbind option_bind]. eexists. split; [done|].
  split; [|split; [unfold same, cap; simpl; done|done]].
  split; simpl; [done|rewrite u64_small by lia; lia|lia|lia|lia|].
  intros Hn. apply (indexed_queue (set_indexes t hm nm)). by apply Hi1.
Qed.

Lemma turns_spec t l : tbl t l -> turns t = S (length l).
Proof. intros [Hq _ _ _ _ _]. unfold turns. destruct Hq as (Hc & _). unfold BoundedQueue.size. rewrite Hc. lia. Qed.

Lemma evict_loop_spec fuel n t l : tbl t l -> 0 <= n < 2 ^ 32 -> (length l < fuel)%nat ->
  exists t', evict_loop fuel n t = Some t' /\ tbl t' (evict (_max_size t) n l) /\ same t t' /\ _add_times t' = _add_times t.
Proof.
  intros Ht Hn. revert t Ht fuel. induction l as [|x l IH]; intros t Ht [|fuel] Hf; try (simpl in Hf; lia).
  all: pose proof Ht as [_ Hs Hm _ _ _]; cbn [evict_loop]; unfold empty.
  - rewrite Hs. cbn [tsize Z.eqb negb andb evict]. exists t. split; [done|]. split; [done|]. split; [apply same_refl|done].
  - pose proof (tsize_nonneg l). pose proof (HeaderSize_pos x). cbn [evict].
    rewrite Hs, (proj2 (Z.eqb_neq _ 0)) by (cbn [tsize]; lia). rewrite u64_small by (cbn [tsize] in *; lia). cbn [negb andb].
    destruct (_max_size t <? tsize (x :: l) + n).
    + destruct (PopHeader_spec t x l Ht) as (t1 & -> & Ht1 & Hs1 & Ha1). cbn [mbind option_bind].
      destruct (IH t1 Ht1 fuel) as (t2 & Heq & Ht2 & Hs2 & Ha2); [simpl in Hf; lia|]. pose proof Hs1 as (_ & _ & Hmx & _).
      rewrite Hmx in Ht2. exists t2. split; [done|]. split; [done|]. split; [by eapply same_trans|congruence].
    + exists t. split; [done|]. split; [done|]. split; [apply same_refl|done].
Qed.

(** Giving a key the number of a new entry. *)
Section AddOne.
Context {M K : Type} `{!MapOps M K Z} `{!MapLaws M K Z} (m : M) (good : K -> Prop) (key : Header -> K)
  (p : K -> Header -> bool) (x : Header) (l : list Header) (base : Z).
Context (good_dom : forall k, good k -> map_dom k) (eq_p : forall k, good k -> map_eq (key x) k = p k x)
  (Hok : map_ok m) (Hx : good (key x)) (Hc : map_count m <= 2 ^ 50)
  (Hget : forall k, good k -> map_get m k = (fun i => base + Z.of_nat i) <$> find_last (p k) l).
Lemma add_one :
  exists m', map_insert m (key x) (base + Z.of_nat (length l)) = Some m' /\ map_ok m' /\ map_count m' <= map_count m + 1 /\
    forall k, good k -> map_get m' k = (fun i => base + Z.of_nat i) <$> find_last (p k) (l ++ [x]).
Proof.
  destruct (insert_law m (key x) (base + Z.of_nat (length l))) as (m' & Heq & Hok' & Hc' & Hg); [done|by apply good_dom|done|].
  exists m'. split; [done|]. split; [done|]. split; [done|]. intros k Hk. rewrite Hg, eq_p, find_last_app by auto.
  destruct (p k x); [done|]. by apply Hget.
Qed.
End AddOne.

Lemma AddHeader_spec t l h : tbl t l -> (_need_indexes t = true -> good_name (name h) = true) -> HeaderSize h < 2 ^ 32 -> _add_times t + 1 < 2 ^ 31 ->
  (HeaderSize h <= _max_size t -> Z.of_nat (length (evict (_max_size t) (HeaderSize h) l)) < cap t) ->
  exists t', AddHeader t h = Some t' /\ tbl t' (add (_max_size t) l h) /\ same t t' /\
    _add_times t <= _add_times t' <= _add_times t + 1.
Proof.
  intros Ht Hg Hsz Htm Hcap. pose proof (HeaderSize_pos h) as Hpos. unfold AddHeader, add. rewrite (turns_spec t l Ht).
  destruct (evict_loop_spec (S (length l)) (HeaderSize h) t l Ht) as (t1 & -> & Ht1 & Hsame & Ha1); [lia|lia|].
  cbn [mbind option_bind]. pose proof Hsame as (Hst & Hn & Hmx & Hc). rewrite Hmx.
  destruct (Z.ltb_spec (_max_size t) (HeaderSize h)) as [Hbig|Hfit].
  { rewrite evict_all in Ht1 by (pose proof (tb_max _ _ Ht); pose proof (tsize_nonneg l); lia).
    exists t1. split; [done|]. split; [done|]. split; [done|lia]. }
  set (l1 := evict (_max_size t) (HeaderSize h) l) in *. pose proof Ht1 as [Hq1 Hs1 Hm1 Htm1 Hst1 Hix1].
  pose proof (evict_fits (_max_size t) (HeaderSize h) l Hfit) as Hfits. fold l1 in Hfits.
  pose proof (BoundedQueue.push_refines _ _ h Hq1) as Hpush. rewrite (proj2 (Z.ltb_lt _ _)) in Hpush by (unfold cap in *; specialize (Hcap Hfit); lia).
  destruct Hpush as (q2 & -> & Hq2 & Hc2). cbn [mbind option_bind snd]. pose proof (tsize_nonneg l1).
  unfold i32. rewrite (Z.mod_small (_add_times t1 + 2 ^ 31)) by lia. replace (_add_times t1 + 2 ^ 31 - 2 ^ 31) with (_add_times t1) by lia.
  rewrite (u64_small (_add_times t1)), (u64_small (_add_times t1 + 1)), (u64_small (_size t1 + _)) by lia.
  assert (Hlen : length (l1 ++ [h]) = S (length l1)) by (rewrite length_app; simpl; lia).
  assert (Hbase : forall t2 i, _add_times t2 = _add_times t1 + 1 -> id_at t2 (l1 ++ [h]) i = id_at t1 l1 i).
  { intros t2 i E. unfold id_at. rewrite E, Hlen. lia. }
  assert (Htbl : forall t2, _header_queue t2 = q2 -> _size t2 = _size t1 + HeaderSize h -> _max_size t2 = _max_size t1 ->
    _add_times t2 = _add_times t1 + 1 -> _start_index t2 = _start_index t1 -> (_need_indexes t2 = true -> indexed t2 (l1 ++ [h])) ->
    tbl t2 (l1 ++ [h])).
  { intros t2 E1 E2 E3 E4 E5 Hix. split; [by rewrite E1|rewrite E2, tsize_app; simpl; lia|rewrite E3, Hmx, tsize_app; simpl; lia| |lia|done].
    rewrite E4, Hlen. lia. }
  cbn [_need_indexes set_queue]. destruct (_need_indexes t1) eqn:En1.
  2:{ eexists. split; [done|]. split; [apply Htbl; simpl; try done; congruence|]. split; [|simpl; lia].
      unfold same, cap in *. simpl. repeat split; congruence. }
  rewrite <- Hn in Hg. specialize (Hg eq_refl). specialize (Hix1 eq_refl). destruct Hix1 as [Hgood [Hhm Hhc] [Hnm Hnc] Hgh Hgn]. cbn [_header_index _name_index set_queue].
  assert (Hid : id_at t1 l1 (length l1) = _add_times t1) by (unfold id_at; lia).
  assert (Hh : exists hm, match value h with [] => Some (_header_index t1) | _ => map_insert (_header_index t1) h (_add_times t1) end = Some hm /\
    map_ok hm /\ map_count hm <= map_count (_header_index t1) + 1 /\
    forall k, good_name (name k) = true -> map_get hm k = id_at t1 l1 <$> find_last (is_header k) (l1 ++ [h])).
  { destruct (value h) as [|c vs] eqn:Ev.
    - exists (_header_index t1). split; [done|]. split; [done|]. split; [lia|]. intros k Hk. rewrite find_last_app, Hgh by done.
      by rewrite is_header_none.
    - destruct (add_one (_header_index t1) (fun k => good_name (name k) = true) (fun k => k) is_header h l1
        (_add_times t1 - Z.of_nat (length l1))) as (hm & Heq & Hok & Hc' & Hg'); try done.
      { intros k Hk. by apply hm_dom. } { intros k Hk. rewrite hm_eq by done. unfold is_header, has_value. by rewrite Ev. } { lia. }
      replace (_add_times t1 - Z.of_nat (length l1) + Z.of_nat (length l1)) with (_add_times t1) in Heq by lia.
      exists hm. done. }
  destruct Hh as (hm & -> & Hokh & Hch & Hgh'). cbn [mbind option_bind].
  destruct (add_one (_name_index t1) (fun n => good_name n = true) name is_name h l1 (_add_times t1 - Z.of_nat (length l1)))
    as (nm & Heqn & Hokn & Hcn & Hgn'); try done.
  { apply nm_dom. } { intros k Hk. by rewrite nm_eq. } { lia. }
  replace (_add_times t1 - Z.of_nat (length l1) + Z.of_nat (length l1)) with (_add_times t1) in Heqn by lia.
  rewrite Heqn. cbn [mbind option_bind]. eexists. split; [done|]. split; [|split; [unfold same, cap in *; simpl; repeat split; congruence|simpl; lia]].
  apply Htbl; try done. intros _. split; simpl; [apply Forall_app; split; [done|by constructor]|split; [done|lia]|split; [done|lia]| |].
  - intros k Hk. rewrite Hgh' by done. destruct (find_last _ _); simpl; [by rewrite Hbase|done].
  - intros n Hn'. rewrite Hgn' by done. destruct (find_last _ _); simpl; [by rewrite Hbase|done].
Qed.

Lemma shrink_suffix max l : exists d, l = d ++ shrink max l.
Proof.
  induction l as [|h l [d Hd]]; [by exists []|]. cbn [shrink]. destruct (max <? tsize (h :: l)); [|by exists []].
  exists (h :: d). simpl. by rewrite <- Hd.
Qed.
(** While the table is too big its entries are [l]; [tbl] holds but for the size limit. *)
Definition tbl_big t l : Prop := tbl (set_max_size t (2 ^ 32 - 1)) l /\ 0 <= _max_size t < 2 ^ 32.
Lemma PopHeader_max t n : PopHeader (set_max_size t n) = (fun t' => set_max_size t' n) <$> PopHeader t.
Proof.
  unfold PopHeader. simpl. destruct (BoundedQueue.top _) as [[h|]|]; simpl; try done.
  unfold RemoveHeaderFromIndexes. simpl. destruct (_need_indexes t); simpl.
  - destruct (match value h with [] => _ | _ => _ end) as [hm|]; simpl; [|done].
    destruct (map_seek _ (name h)) as [[v|]|]; simpl; try done. destruct (if v =? _ then _ else _) as [nm|]; simpl; [|done].
    by destruct (BoundedQueue.pop _) as [[]|].
  - by destruct (BoundedQueue.pop _) as [[]|].
Qed.
Lemma tbl_max t l n : tbl t l -> tsize l <= n < 2 ^ 32 -> tbl (set_max_size t n) l.
Proof. intros [Hq Hs Hm Ht Hst Hix] Hn. split; simpl; try done. intros Hne. destruct (Hix Hne). by split. Qed.
Lemma tbl_big_intro t l n : tbl t l -> 0 <= n < 2 ^ 32 -> tbl_big (set_max_size t n) l.
Proof. intros Ht Hn. split; [|done]. apply (tbl_max t l (2 ^ 32 - 1)); [done|]. pose proof (tb_max _ _ Ht). lia. Qed.

Lemma shrink_loop_spec fuel t l : tbl_big t l -> (length l < fuel)%nat ->
  exists t', shrink_loop fuel t = Some t' /\ tbl t' (shrink (_max_size t) l) /\ same t t' /\ _add_times t' = _add_times t.
Proof.
  revert t l. induction fuel as [|fuel IH]; intros t l [Ht Hm] Hf; [lia|]. cbn [shrink_loop].
  pose proof (tb_size _ _ Ht) as Hs. simpl in Hs. rewrite Hs.
  assert (Hback : forall t0 : IndexTable, set_max_size (set_max_size t0 (2 ^ 32 - 1)) (_max_size t0) = t0) by (by intros []).
  destruct (Z.ltb_spec (_max_size t) (tsize l)) as [Hlt|Hge].
  - destruct l as [|x l]; [simpl in Hlt; lia|]. cbn [shrink]. rewrite (proj2 (Z.ltb_lt _ _)) by done.
    destruct (PopHeader_spec _ x l Ht) as (t1 & Heq & Ht1 & Hs1 & Ha1).
    pose proof (PopHeader_max t (2 ^ 32 - 1)) as Hmx. rewrite Heq in Hmx. destruct (PopHeader t) as [t2|] eqn:E2; [|done].
    cbn [fmap option_fmap option_map] in Hmx. injection Hmx as ->. cbn [mbind option_bind].
    assert (Hm2 : _max_size t2 = _max_size t).
    { pose proof (PopHeader_max t (_max_size t)) as Hid. replace (set_max_size t (_max_size t)) with t in Hid by (by destruct t).
      rewrite E2 in Hid. cbn [fmap option_fmap option_map] in Hid. injection Hid as Hid. by rewrite Hid. }
    destruct (IH t2 l) as (t3 & Heq3 & Ht3 & Hs3 & Ha3); [split; [done|by rewrite Hm2]|simpl in Hf; lia|].
    rewrite Hm2 in Ht3. exists t3. split; [done|]. split; [done|]. split; [|simpl in Ha1; congruence].
    destruct Hs1 as (E1 & E4 & _ & E5), Hs3 as (E6 & E7 & E8 & E9). unfold same, cap in *. simpl in *. repeat split; congruence.
  - exists t. split; [done|]. split; [|split; [apply same_refl|done]].
    assert (shrink (_max_size t) l = l) as ->. { destruct l as [|x l]; [done|]. cbn [shrink]. by rewrite (proj2 (Z.ltb_ge _ _)) by done. }
    rewrite <- (Hback t). apply tbl_max; [done|lia].
Qed.
Lemma ResetMaxSize_spec t l n : tbl t l -> 0 <= n < 2 ^ 32 ->
  exists t', ResetMaxSize t n = Some t' /\ tbl t' (shrink n l) /\ same (set_max_size t n) t' /\ _add_times t' = _add_times t.
Proof.
  intros Ht Hn. pose proof (tb_max _ _ Ht) as Hm. unfold ResetMaxSize.
  assert (Hkeep : tsize l <= n -> shrink n l = l).
  { intros Hle. destruct l as [|x l]; [done|]. cbn [shrink]. by rewrite (proj2 (Z.ltb_ge _ _)) by done. }
  destruct (Z.ltb_spec (_max_size t) n) as [Hup|Hdown].
  - eexists. split; [done|]. rewrite Hkeep by lia. split; [by apply tbl_max; [|lia]|]. done.
  - destruct (Z.ltb_spec n (_max_size t)) as [Hlt|Hge].
    + rewrite (turns_spec t l Ht). apply (shrink_loop_spec (S (length l)) (set_max_size t n)); [by apply tbl_big_intro|lia].
    + exists t. split; [done|]. assert (n = _max_size t) as -> by lia. rewrite Hkeep by lia. split; [done|]. by destruct t.
Qed.

(** ** Looking up *)
Lemma HeaderAt_spec t l i : tbl t l -> 0 <= i ->
  HeaderAt t (_start_index t + i) = Some (reverse l !! Z.to_nat i).
Proof.
  intros [Hq _ _ _ _ _] Hi. unfold HeaderAt. rewrite (proj2 (Z.ltb_ge _ _)) by lia.
  rewrite (BoundedQueue.bottom_at_refines _ _ _ Hq) by lia. do 3 f_equal. lia.
Qed.
Lemma index_of_id_spec t l i : tbl t l -> (i < length l)%nat ->
  index_of_id t (id_at t l i) = _start_index t + Z.of_nat (length l - 1 - i).
Proof.
  intros [_ _ Hm Ht Hs _] Hi. pose proof (tsize_length l). unfold index_of_id, id_at. rewrite u64_small by lia. unfold i32. rewrite Z.mod_small by lia. lia.
Qed.
(** The index found for a header or a name designates an entry that matches. *)
Definition found (p : Header -> bool) t l (i : Z) : Prop :=
  (i = 0 /\ find_last p l = None) \/
  (exists j e, i = _start_index t + Z.of_nat j /\ reverse l !! j = Some e /\ p e = true).
Lemma found_last p t l : tbl t l ->
  found p t l (match id_at t l <$> find_last p l with None => 0 | Some v => index_of_id t v end).
Proof.
  intros Ht. destruct (find_last p l) as [i|] eqn:E; simpl; [right|by left].
  destruct (find_last_lookup p l i E) as (e & He & Hp). pose proof (lookup_lt_Some _ _ _ He) as Hlt.
  exists (length l - 1 - i)%nat, e. split; [by apply index_of_id_spec|]. split; [|done].
  rewrite reverse_lookup by lia. rewrite <- He. f_equal. lia.
Qed.
Lemma GetIndexOfHeader_spec t l h : tbl t l -> _need_indexes t = true -> good_name (name h) = true ->
  exists i, GetIndexOfHeader t h = Some i /\ found (is_header h) t l i.
Proof.
  intros Ht Hn Hg. destruct (tb_index _ _ Ht Hn) as [_ [Hok _] _ Hget _]. unfold GetIndexOfHeader.
  rewrite seek_law by (done || by apply hm_dom). cbn [mbind option_bind]. rewrite Hget by done.
  eexists. split; [done|]. by apply found_last.
Qed.
Lemma GetIndexOfName_spec t l n : tbl t l -> _need_indexes t = true -> good_name n = true ->
  exists i, GetIndexOfName t n = Some i /\ found (is_name n) t l i.
Proof.
  intros Ht Hn Hg. destruct (tb_index _ _ Ht Hn) as [_ _ [Hok _] _ Hget]. unfold GetIndexOfName.
  rewrite seek_law by (done || by apply nm_dom). cbn [mbind option_bind]. rewrite Hget by done.
  eexists. split; [done|]. by apply found_last.
Qed.

(** ** Building tables *)
Lemma evict_none max n l : tsize l + n <= max -> evict max n l = l.
Proof. intros Hle. destruct l as [|h l]; [done|]. cbn [evict]. by rewrite (proj2 (Z.ltb_ge _ _)) by done. Qed.
Lemma add_all_spec hs t l : tbl t l -> Forall (fun h => good_name (name h) = true) hs ->
  tsize l + tsize hs <= _max_size t -> Z.of_nat (length l + length hs) <= cap t -> _add_times t + Z.of_nat (length hs) < 2 ^ 31 ->
  exists t', add_all hs t = Some t' /\ tbl t' (l ++ hs) /\ same t t' /\ _add_times t' <= _add_times t + Z.of_nat (length hs).
Proof.
  revert t l. induction hs as [|h hs IH]; intros t l Ht Hg Hsz Hc Htm; cbn [add_all].
  - exists t. rewrite app_nil_r. split; [done|]. split; [done|]. split; [apply same_refl|simpl; lia].
  - apply Forall_cons in Hg as [Hgh Hg]. cbn [tsize length] in *. pose proof (tsize_nonneg hs). pose proof (tsize_nonneg l).
    pose proof (HeaderSize_pos h). pose proof (tb_max _ _ Ht) as Hm.
    destruct (AddHeader_spec t l h Ht) as (t1 & -> & Ht1 & Hs1 & Ha1); [done|lia|lia|rewrite evict_none by lia; lia|].
    unfold add in Ht1. rewrite (proj2 (Z.ltb_ge _ _)), evict_none in Ht1 by lia. cbn [mbind option_bind].
    pose proof Hs1 as (_ & _ & Hmx & Hcp).
    destruct (IH t1 (l ++ [h])) as (t2 & Heq & Ht2 & Hs2 & Ha2); [done|done| | |lia|].
    + rewrite Hmx, tsize_app. simpl. lia.
    + rewrite Hcp, length_app. simpl. lia.
    + exists t2. split; [done|]. rewrite <- app_assoc in Ht2. split; [done|]. split; [by eapply same_trans|lia].
Qed.
Lemma repr_mem n own : 0 < n <= 2 ^ 31 -> BoundedQueue.repr (T := Header) (BoundedQueue.BoundedQueue_mem n own) [].
Proof. intros Hn. exact (BoundedQueue.repr_new n Hn). Qed.

(** The outcome of initialization: an empty table, or -1 when memory ran out. *)
Definition num_headers (options : IndexTableOptions) : Z :=
  if 0 <? Z.of_nat (length (static_table options)) then Z.of_nat (length (static_table options)) else max_size options / 34.
Definition limit (options : IndexTableOptions) : Z :=
  if 0 <? Z.of_nat (length (static_table options)) then 2 ^ 32 - 1 else max_size options.
Lemma Init_spec options ok :
  0 < num_headers options <= 2 ^ 27 -> 0 <= limit options < 2 ^ 32 -> 0 <= start_index options <= 2 ^ 20 ->
  Forall (fun h => good_name (name h) = true) (static_table options) -> tsize (reverse (static_table options)) < 2 ^ 32 ->
  exists r t, Init options ok = Some (r, t) /\
    (r = -1 \/ (r = 0 /\ tbl t (reverse (static_table options)) /\ _start_index t = start_index options /\
      _need_indexes t = need_indexes options /\ _max_size t = limit options /\ cap t = num_headers options /\
      _add_times t <= Z.of_nat (length (static_table options)))).
Proof.
  intros Hnum Hmax Hst Hg Hts. unfold Init. fold (num_headers options). fold (limit options).
  destruct ok; cbn [negb]; [|eexists _, _; split; [done|by left]].
  assert (Hi32 : i32 (start_index options) = start_index options) by (unfold i32; rewrite Z.mod_small by lia; lia). rewrite Hi32.
  assert (Hfill : forall t, tbl t [] -> _max_size t = limit options -> cap t = num_headers options -> _add_times t = 0 ->
    exists t', (if 0 <? Z.of_nat (length (static_table options)) then add_all (reverse (static_table options)) t else Some t) = Some t' /\
      tbl t' (reverse (static_table options)) /\ same t t' /\ _add_times t' <= Z.of_nat (length (static_table options))).
  { intros t Ht Hm Hc Ha. unfold limit, num_headers in *. destruct (Z.ltb_spec 0 (Z.of_nat (length (static_table options)))) as [Hs|Hs].
    - destruct (add_all_spec (reverse (static_table options)) t [] Ht) as (t' & Heq & Ht' & Hs' & Ha').
      + by apply Forall_reverse. + simpl. lia. + rewrite length_reverse. simpl. lia. + rewrite length_reverse. lia.
      + exists t'. split; [done|]. split; [done|]. split; [done|]. rewrite length_reverse in Ha'. lia.
    - destruct (static_table options); [|simpl in Hs; lia]. exists t. split; [done|]. split; [done|]. split; [apply same_refl|simpl; lia]. }
  rewrite u64_small by lia.
  assert (Hcap0 : BoundedQueue._cap (T := Header) (BoundedQueue.BoundedQueue_mem (num_headers options) BoundedQueue.OWNS_STORAGE) = num_headers options)
    by (simpl; apply u32_small; lia).
  assert (Hfin : forall t, tbl t [] -> _max_size t = limit options -> cap t = num_headers options -> _add_times t = 0 ->
     _start_index t = start_index options -> _need_indexes t = need_indexes options ->
     exists r t', (t' ← (if 0 <? Z.of_nat (length (static_table options)) then add_all (reverse (static_table options)) t else Some t);
       Some (0, t')) = Some (r, t') /\ (r = -1 \/ (r = 0 /\ tbl t' (reverse (static_table options)) /\ _start_index t' = start_index options /\
      _need_indexes t' = need_indexes options /\ _max_size t' = limit options /\ cap t' = num_headers options /\
      _add_times t' <= Z.of_nat (length (static_table options))))).
  { intros t Ht Hm Hc Ha Hs Hn. destruct (Hfill t Ht Hm Hc Ha) as (t' & -> & Ht' & (E1 & E2 & E3 & E4) & Ha'). cbn [mbind option_bind].
    exists 0, t'. split; [done|]. right. split; [done|]. split; [done|]. repeat split; (congruence || lia). }
  destruct (need_indexes options) eqn:En.
  - cbn [_name_index _header_index set_indexes].
    destruct (init_law (M := NM) (K := bytes) (V := Z) (num_headers options * 2)) as (rn & nm & -> & Hn); [lia|].
    cbn [mbind option_bind fst snd]. destruct (Z.eqb_spec rn 0) as [->|]; cbn [negb]; [|eexists _, _; split; [done|by left]].
    destruct (init_law (M := HM) (K := Header) (V := Z) (num_headers options * 2)) as (rh & hm & -> & Hh); [lia|].
    cbn [mbind option_bind fst snd]. destruct (Z.eqb_spec rh 0) as [->|]; cbn [negb]; [|eexists _, _; split; [done|by left]].
    destruct (Hn eq_refl) as (Hn1 & Hn2 & Hn3). destruct (Hh eq_refl) as (Hh1 & Hh2 & Hh3).
    apply Hfin; try done. split; simpl; [apply repr_mem; lia|done|lia|lia|lia|]. intros _.
    split; simpl; [constructor|split; [done|lia]|split; [done|lia]|intros; apply Hh3|intros; apply Hn3].
  - apply Hfin; try done. split; simpl; [apply repr_mem; lia|done|lia|lia|lia|done].
Qed.
End Spec.

End Table.
