(* ===== verification/Hpack.v ===== *)
(** * HPACK (HPacker of brpc/details/hpack.cpp, hpack.h)

    Header compression for HTTP/2: an encoder and a decoder, each with a dynamic table,
    over the static table shared by all.  An encoder and the decoder of its peer stay in
    step: what one encodes the other decodes, with names in lower case. *)
From stdpp Require Import base list.
From Stdlib Require Import ZArith Lia Bool Ascii.
From Stdlib Require String.
Import (notations) String.
From S2P Require Import Prelude BoundedQueue MapInterface HpackHuffman HpackPrimitive HpackTable.

Open Scope Z_scope.

Module Hpack.
Import MapInterface Primitive Table.

Fixpoint str (s : String.string) : bytes :=
  match s with String.EmptyString => [] | String.String c s' => Z.of_nat (nat_of_ascii c) :: str s' end.
Definition s_static_headers : list Header := map (fun p => mkHeader (str p.1) (str p.2)) [
  (":authority", String.EmptyString); (":method", "GET"); (":method", "POST");
  (":path", "/"); (":path", "/index.html"); (":scheme", "http");
  (":scheme", "https"); (":status", "200"); (":status", "204");
  (":status", "206"); (":status", "304"); (":status", "400");
  (":status", "404"); (":status", "500"); ("accept-charset", String.EmptyString);
  ("accept-encoding", "gzip, deflate"); ("accept-language", String.EmptyString); ("accept-ranges", String.EmptyString);
  ("accept", String.EmptyString); ("access-control-allow-origin", String.EmptyString); ("age", String.EmptyString);
  ("allow", String.EmptyString); ("authorization", String.EmptyString); ("cache-control", String.EmptyString);
  ("content-disposition", String.EmptyString); ("content-encoding", String.EmptyString); ("content-language", String.EmptyString);
  ("content-length", String.EmptyString); ("content-location", String.EmptyString); ("content-range", String.EmptyString);
  ("content-type", String.EmptyString); ("cookie", String.EmptyString); ("date", String.EmptyString);
  ("etag", String.EmptyString); ("expect", String.EmptyString); ("expires", String.EmptyString);
  ("from", String.EmptyString); ("host", String.EmptyString); ("if-match", String.EmptyString);
  ("if-modified-since", String.EmptyString); ("if-none-match", String.EmptyString); ("if-range", String.EmptyString);
  ("if-unmodified-since", String.EmptyString); ("last-modified", String.EmptyString); ("link", String.EmptyString);
  ("location", String.EmptyString); ("max-forwards", String.EmptyString); ("proxy-authenticate", String.EmptyString);
  ("proxy-authorization", String.EmptyString); ("range", String.EmptyString); ("referer", String.EmptyString);
  ("refresh", String.EmptyString); ("retry-after", String.EmptyString); ("server", String.EmptyString);
  ("set-cookie", String.EmptyString); ("strict-transport-security", String.EmptyString); ("transfer-encoding", String.EmptyString);
  ("user-agent", String.EmptyString); ("vary", String.EmptyString); ("via", String.EmptyString);
  ("www-authenticate", String.EmptyString)
]%string.
Definition DEFAULT_HEADER_TABLE_SIZE : Z := 4096.

Inductive HeaderIndexPolicy := HPACK_INDEX_HEADER | HPACK_NOT_INDEX_HEADER | HPACK_NEVER_INDEX_HEADER.
Record HPackOptions := mkPackOptions { index_policy : HeaderIndexPolicy; encode_name : bool; encode_value : bool }.
Definition HPackOptions_default : HPackOptions := mkPackOptions HPACK_INDEX_HEADER false false.

Section HPacker.
Context {HM NM : Type} `{!MapOps HM Header Z} `{!MapOps NM bytes Z}.
Abbreviation IndexTable := (@IndexTable HM NM).

Definition CreateStaticTable (malloc_ok : bool) : option (Z * IndexTable) :=
  Init (mkOptions (2 ^ 32 - 1) 1 s_static_headers true) malloc_ok.

Record HPacker := mkPacker { _encode_table : IndexTable; _decode_table : IndexTable }.
(** [st] is the static table. *)
Definition HPacker_Init (st : IndexTable) (max_table_size : Z) (malloc_enc malloc_dec : bool) : option (Z * HPacker) :=
  e ← Init (mkOptions max_table_size (end_index st) [] true) malloc_enc;
  if negb (e.1 =? 0) then Some (-1, mkPacker e.2 IndexTable_new)
  else
    d ← Init (mkOptions max_table_size (end_index st) [] false) malloc_dec;
    if negb (d.1 =? 0) then Some (-1, mkPacker e.2 d.2) else Some (0, mkPacker e.2 d.2).

(** ** Encoding *)
Definition FindHeaderFromIndexTable (st : IndexTable) (p : HPacker) (h : Header) : option Z :=
  index ← GetIndexOfHeader st h;
  if 0 <? index then Some index else GetIndexOfHeader (_encode_table p) h.
Definition FindNameFromIndexTable (st : IndexTable) (p : HPacker) (n : bytes) : option Z :=
  index ← GetIndexOfName st n;
  if 0 <? index then Some index else GetIndexOfName (_encode_table p) n.

(** What is appended to [out]. *)
Definition Encode (st : IndexTable) (p : HPacker) (header : Header) (options : HPackOptions) : option (bytes * HPacker) :=
  index ← match index_policy options with
          | HPACK_NEVER_INDEX_HEADER => Some 0
          | _ => FindHeaderFromIndexTable st p header
          end;
  if 0 <? index then
    out ← EncodeInteger 128 7 (u32 index);
    Some (out, p)
  else
    name_index ← FindNameFromIndexTable st p (name header);
    p1 ← match index_policy options with
         | HPACK_INDEX_HEADER => e ← AddHeader (_encode_table p) header; Some (mkPacker e (_decode_table p))
         | _ => Some p
         end;
    i ← match index_policy options with
        | HPACK_INDEX_HEADER => EncodeInteger 64 6 (u32 name_index)
        | HPACK_NOT_INDEX_HEADER => EncodeInteger 0 4 (u32 name_index)
        | HPACK_NEVER_INDEX_HEADER => EncodeInteger 16 4 (u32 name_index)
        end;
    n ← (if name_index =? 0 then EncodeString true (name header) (encode_name options) else Some []);
    v ← EncodeString false (value header) (encode_value options);
    Some (i ++ n ++ v, p1).

(** ** Decoding *)
Definition HPacker_HeaderAt (st : IndexTable) (p : HPacker) (index : Z) : option (option Header) :=
  if _start_index (_decode_table p) <=? index then HeaderAt (_decode_table p) index else HeaderAt st index.

(** (return value, header, iterator); [h] is what the header held before. *)
Definition DecodeWithKnownPrefix (st : IndexTable) (p : HPacker) (iter : bytes) (h : Header) (prefix_size : Z)
    : option (Z * Header * bytes) :=
  '(index_bytes, index, iter1) ← DecodeInteger iter prefix_size;
  if index_bytes <=? 0 then Some (-1, h, iter1)
  else
    let finish name_bytes h1 iter2 :=
      '(value_bytes, v, iter3) ← DecodeString iter2 (value h1);
      let h2 := mkHeader (name h1) v in
      if value_bytes <=? 0 then Some (-1, h2, iter3)
      else Some (index_bytes + name_bytes + value_bytes, h2, iter3) in
    if negb (i32 index =? 0) then
      o ← HPacker_HeaderAt st p (i32 index);
      match o with
      | None => Some (-1, h, iter1)
      | Some e => finish 0 (mkHeader (name e) (value h)) iter1
      end
    else
      '(name_bytes, n, iter2) ← DecodeString iter1 (name h);
      if name_bytes <=? 0 then Some (-1, mkHeader n (value h), iter2)
      else finish name_bytes (mkHeader (tolower n) (value h)) iter2.

(** The recursion after a size update consumes input: [fuel] bounds it. *)
Fixpoint Decode (fuel : nat) (st : IndexTable) (p : HPacker) (iter : bytes) (h : Header)
    : option (Z * Header * bytes * HPacker) :=
  match fuel with
  | O => None
  | S fuel' =>
      match iter with
      | [] => Some (0, h, [], p)
      | first_byte :: _ =>
          let kind := Z.shiftr first_byte 4 in
          if 8 <=? kind then
            '(index_bytes, index, iter1) ← DecodeInteger iter 7;
            if index_bytes <=? 0 then Some (index_bytes, h, iter1, p)
            else
              o ← HPacker_HeaderAt st p (i32 index);
              match o with
              | None => Some (-1, h, iter1, p)
              | Some e => Some (index_bytes, e, iter1, p)
              end
          else if 4 <=? kind then
            '(bytes_consumed, h1, iter1) ← DecodeWithKnownPrefix st p iter h 6;
            if bytes_consumed <=? 0 then Some (-1, h1, iter1, p)
            else
              d ← AddHeader (_decode_table p) h1;
              Some (bytes_consumed, h1, iter1, mkPacker (_encode_table p) d)
          else if 2 <=? kind then
            '(read_bytes, max_size, iter1) ← DecodeInteger iter 5;
            if read_bytes <=? 0 then Some (read_bytes, h, iter1, p)
            else if DEFAULT_HEADER_TABLE_SIZE <? max_size then Some (-1, h, iter1, p)
            else
              d ← ResetMaxSize (_decode_table p) max_size;
              Decode fuel' st (mkPacker (_encode_table p) d) iter1 h
          else
            '(rc, h1, iter1) ← DecodeWithKnownPrefix st p iter h 4;
            Some (rc, h1, iter1, p)
      end
  end.
Definition decode_fuel (iter : bytes) : nat := S (length iter).
Definition HPacker_Decode (st : IndexTable) (p : HPacker) (iter : bytes) (h : Header) := Decode (decode_fuel iter) st p iter h.

(** [Decode(IOBuf* source, Header* h)]: pops the bytes that were decoded. *)
Definition Decode_buf (st : IndexTable) (p : HPacker) (source : bytes) (h : Header) : option (Z * Header * bytes * HPacker) :=
  '(nc, h1, _, p1) ← HPacker_Decode st p source h;
  Some (nc, h1, if 0 <? nc then drop (Z.to_nat nc) source else source, p1).
End HPacker.

(** ** Encoder and decoder in step *)
Definition lower (h : Header) : Header := mkHeader (tolower (name h)) (value h).

Lemma lower_size h : HeaderSize (lower h) = HeaderSize h.
Proof. unfold HeaderSize, lower. simpl. by rewrite tolower_length. Qed.
Lemma tsize_lower l : tsize (map lower l) = tsize l.
Proof. induction l as [|h l IH]; [done|]. cbn [map tsize]. by rewrite lower_size, IH. Qed.
Lemma evict_lower max n l : evict max n (map lower l) = map lower (evict max n l).
Proof.
  induction l as [|h l IH]; [done|]. change (map lower (h :: l)) with (lower h :: map lower l). cbn [evict tsize].
  rewrite lower_size, tsize_lower, IH. by destruct (max <? HeaderSize h + tsize l + n).
Qed.
Lemma add_lower max l h : add max (map lower l) (lower h) = map lower (add max l h).
Proof.
  unfold add. rewrite lower_size, evict_lower. destruct (max <? HeaderSize h); [done|]. by rewrite map_app.
Qed.
Lemma lower_hkey x h : hkey x = hkey h -> lower x = lower h.
Proof. unfold hkey, lower. by intros [= -> ->]. Qed.

Lemma static_length : length s_static_headers = 61%nat.
Proof. reflexivity. Qed.
Lemma static_good : Forall (fun h => good_name (name h) = true) s_static_headers.
Proof. apply Forall_forall. intros h Hin. revert h Hin. apply Forall_forall. by repeat constructor. Qed.
Lemma static_lower : map lower s_static_headers = s_static_headers.
Proof. reflexivity. Qed.
Lemma static_size : tsize (reverse s_static_headers) < 2 ^ 32.
Proof. by vm_compute. Qed.

Section Proofs.
Context {HM NM : Type} `{!MapOps HM Header Z} `{!MapOps NM bytes Z} `{!TableMaps HM NM}.
Abbreviation IndexTable := (@IndexTable HM NM).
Implicit Types (st e d : IndexTable) (l : list Header) (h x : Header).

Record static_ok st : Prop := mkStatic {
  st_tbl : tbl st (reverse s_static_headers);
  st_start : _start_index st = 1;
  st_need : _need_indexes st = true
}.
(** The encoder table [e] holds [l], the decoder table [d] of the peer the same in lower case. *)
Record in_step e d l : Prop := mkStep {
  is_enc : tbl e l;
  is_dec : tbl d (map lower l);
  is_need : _need_indexes e = true /\ _need_indexes d = false;
  is_start : _start_index e = 62 /\ _start_index d = 62;
  is_max : _max_size e = _max_size d /\ 0 <= _max_size e <= 2 ^ 26;
  is_cap : _max_size e < 34 * (cap e + 1) /\ _max_size e < 34 * (cap d + 1);
  is_entries : Forall (fun h => 34 <= HeaderSize h) l
}.

Lemma entries_bound l : Forall (fun h => 34 <= HeaderSize h) l -> 34 * Z.of_nat (length l) <= tsize l.
Proof. induction 1; cbn [length tsize]; lia. Qed.
(** There is a free slot once the entry fits. *)
Lemma room max c n l : Forall (fun h => 34 <= HeaderSize h) l -> max < 34 * (c + 1) -> 34 <= n -> n <= max ->
  Z.of_nat (length (evict max n l)) < c.
Proof.
  intros Hl Hc Hn Hfit. pose proof (evict_fits max n l Hfit) as Hf. destruct (evict_suffix max n l) as [dr Hdr].
  rewrite Hdr in Hl. apply Forall_app in Hl as [_ Hl]. pose proof (entries_bound _ Hl). lia.
Qed.

(** ** Indexes found by the encoder designate the header for the decoder *)
Definition designates st d (i : Z) x : Prop :=
  0 < i < MAX_HPACK_INTEGER /\ forall p, _decode_table p = d -> HPacker_HeaderAt st p i = Some (Some (lower x)).

Lemma static_designates st d P i : static_ok st -> _start_index d = 62 -> found P st (reverse s_static_headers) i ->
  i = 0 \/ exists x, P x = true /\ designates st d i x.
Proof.
  intros [Hst Hs _] Hd [[-> _]|(j & x & -> & Hj & HP)]; [by left|]. right. exists x. split; [done|].
  rewrite reverse_involutive in Hj. pose proof (lookup_lt_Some _ _ _ Hj) as Hlt. rewrite static_length in Hlt.
  split; [rewrite Hs; unfold MAX_HPACK_INTEGER; lia|]. intros p Hp. unfold HPacker_HeaderAt. rewrite Hp, Hd.
  rewrite (proj2 (Z.leb_gt _ _)) by lia. rewrite (HeaderAt_spec _ _ _ Hst) by lia.
  rewrite reverse_involutive, Nat2Z.id. rewrite <- static_lower in Hj |- *. rewrite list_lookup_fmap in Hj |- *.
  destruct (s_static_headers !! j) as [y|]; [|done]. cbn in Hj |- *. injection Hj as <-.
  unfold lower. cbn [name value]. by rewrite tolower_idem.
Qed.
Lemma dynamic_designates st e d l P i : in_step e d l -> found P e l i ->
  i = 0 \/ exists x, P x = true /\ designates st d i x.
Proof.
  intros Hin [[-> _]|(j & x & -> & Hj & HP)]; [by left|]. right. exists x. split; [done|].
  destruct Hin as [He Hd _ [Hse Hsd] [_ Hmax] _ _]. pose proof (lookup_lt_Some _ _ _ Hj) as Hlt. rewrite length_reverse in Hlt.
  pose proof (tsize_length l). pose proof (tb_max _ _ He) as Hm.
  split; [rewrite Hse; unfold MAX_HPACK_INTEGER; lia|]. intros p Hp. unfold HPacker_HeaderAt. rewrite Hp, Hse, Hsd.
  rewrite (proj2 (Z.leb_le _ _)) by lia. rewrite <- Hsd, (HeaderAt_spec _ _ _ Hd) by lia.
  rewrite Nat2Z.id. change (map lower l) with (lower <$> l). rewrite <- fmap_reverse, list_lookup_fmap, Hj. done.
Qed.
Lemma FindHeader_spec st e d l p h : static_ok st -> in_step e d l -> _encode_table p = e -> good_name (name h) = true ->
  exists i, FindHeaderFromIndexTable st p h = Some i /\ (i = 0 \/ exists x, is_header h x = true /\ designates st d i x).
Proof.
  intros Hst Hin Hp Hg. unfold FindHeaderFromIndexTable. rewrite Hp.
  destruct (GetIndexOfHeader_spec st _ h (st_tbl _ Hst) (st_need _ Hst) Hg) as (i & -> & Hf). cbn [mbind option_bind].
  destruct (static_designates st d _ i Hst (proj2 (is_start _ _ _ Hin)) Hf) as [->|Hx]; cycle 1.
  - pose proof Hx as (x & _ & [Hi _]). rewrite (proj2 (Z.ltb_lt _ _)) by lia. exists i. split; [done|by right].
  - simpl. destruct (GetIndexOfHeader_spec e l h (is_enc _ _ _ Hin) (proj1 (is_need _ _ _ Hin)) Hg) as (i & Heq & Hf').
    exists i. split; [done|]. by apply (dynamic_designates st e d l).
Qed.
Lemma FindName_spec st e d l p n : static_ok st -> in_step e d l -> _encode_table p = e -> good_name n = true ->
  exists i, FindNameFromIndexTable st p n = Some i /\ (i = 0 \/ exists x, is_name n x = true /\ designates st d i x).
Proof.
  intros Hst Hin Hp Hg. unfold FindNameFromIndexTable. rewrite Hp.
  destruct (GetIndexOfName_spec st _ n (st_tbl _ Hst) (st_need _ Hst) Hg) as (i & -> & Hf). cbn [mbind option_bind].
  destruct (static_designates st d _ i Hst (proj2 (is_start _ _ _ Hin)) Hf) as [->|Hx]; cycle 1.
  - pose proof Hx as (x & _ & [Hi _]). rewrite (proj2 (Z.ltb_lt _ _)) by lia. exists i. split; [done|by right].
  - simpl. destruct (GetIndexOfName_spec e l n (is_enc _ _ _ Hin) (proj1 (is_need _ _ _ Hin)) Hg) as (i & Heq & Hf').
    exists i. split; [done|]. by apply (dynamic_designates st e d l).
Qed.

(** ** One header *)
Record header_ok h : Prop := mkHeaderOk {
  hd_name : good_name (name h) = true /\ string_ok (name h);
  hd_value : string_ok (value h);
  hd_size : 34 <= HeaderSize h
}.

(** A literal: an index for the name, or the name itself, then the value. *)
Lemma literal_roundtrip st p h msb n i b1 b2 :
  header_ok h -> prefix_ok msb n ->
  (i = 0 \/ exists x, is_name (name h) x = true /\ designates st (_decode_table p) i x) ->
  exists bi bn bv, EncodeInteger msb n (u32 i) = Some bi /\
    (if i =? 0 then EncodeString true (name h) b1 else Some []) = Some bn /\ EncodeString false (value h) b2 = Some bv /\
    Forall is_byte (bi ++ bn ++ bv) /\
    (exists b bi', bi = b :: bi' /\ msb <= b < msb + 2 ^ n) /\
    forall rest h0, DecodeWithKnownPrefix st p ((bi ++ bn ++ bv) ++ rest) h0 n =
      Some (Z.of_nat (length (bi ++ bn ++ bv)), lower h, rest).
Proof.
  intros [[Hg Hn] Hv _] Hpre Hi. assert (Hir : 0 <= i < MAX_HPACK_INTEGER).
  { destruct Hi as [->|(x & _ & [? _])]; unfold MAX_HPACK_INTEGER in *; lia. }
  rewrite u32_small by (unfold MAX_HPACK_INTEGER in *; lia).
  destruct (string_roundtrip_all false b2 (value h) Hv) as (v0 & vs & Hev & Hbv & Hdv). rewrite Hev.
  assert (Hname : exists bn, (if i =? 0 then EncodeString true (name h) b1 else Some []) = Some bn /\ Forall is_byte bn /\
    if i =? 0 then (0 < length bn)%nat /\ forall rest out0, DecodeString (bn ++ rest) out0 = Some (Z.of_nat (length bn), tolower (name h), rest)
    else bn = []).
  { destruct (i =? 0); [|by exists []]. destruct (string_roundtrip_all true b1 (name h) Hn) as (c & cs & Hen & Hbn & Hdn).
    exists (c :: cs). split; [done|]. split; [done|]. split; [simpl; lia|done]. }
  destruct Hname as (bn & Hbn & Hbby & Hdn). rewrite Hbn.
  destruct (integer_roundtrip_all msb n i Hpre Hir) as (b & bi & Hei & Hbb & Hb & Hdi). rewrite Hei.
  eexists (b :: bi), bn, (v0 :: vs). split; [done|]. split; [done|]. split; [done|]. split; [by repeat apply Forall_app_2|].
  destruct Hpre as (Hn1 & Hmsb & _). pose proof (Z.pow_pos_nonneg 2 n). split; [exists b, bi; split; [done|lia]|].
  intros rest h0. unfold DecodeWithKnownPrefix. rewrite <- !app_assoc, Hdi. cbn [mbind option_bind].
  rewrite (proj2 (Z.leb_gt _ 0)) by (cbn [length]; lia). rewrite i32_small by (unfold MAX_HPACK_INTEGER in *; lia).
  assert (Hlen : length ((b :: bi) ++ bn ++ v0 :: vs) = (length (b :: bi) + length bn + length (v0 :: vs))%nat) by (rewrite !length_app; lia).
  rewrite Hlen. destruct (Z.eqb_spec i 0) as [->|Hne]; cbn [negb].
  - destruct Hdn as [Hbl Hdn]. rewrite Hdn. cbn [mbind option_bind].
    rewrite (proj2 (Z.leb_gt _ 0)) by lia. cbn [value]. rewrite Hdv. cbn [mbind option_bind].
    rewrite (proj2 (Z.leb_gt _ 0)) by (cbn [length]; lia). cbn [name]. rewrite tolower_idem. do 3 f_equal. lia.
  - subst bn. destruct Hi as [->|(x & Hx & [_ Hat])]; [done|]. rewrite (Hat p eq_refl), app_nil_l. cbn [mbind option_bind value].
    rewrite Hdv. cbn [mbind option_bind name lower]. rewrite (proj2 (Z.leb_gt _ 0)) by (cbn [length]; lia).
    apply bool_decide_eq_true_1 in Hx. rewrite Hx. unfold lower. do 3 f_equal. cbn [length]. lia.
Qed.

(** The decoding of what was encoded for one header. *)
Definition decoded st (pd : HPacker) (bs : bytes) h (pd' : HPacker) : Prop :=
  forall rest h0, HPacker_Decode st pd (bs ++ rest) h0 = Some (Z.of_nat (length bs), lower h, rest, pd').

(** The kind of a representation is told by its first byte. *)
Lemma kind_of b : Z.shiftr b 4 = b / 16.
Proof. by rewrite Z.shiftr_div_pow2. Qed.
Lemma kind_le k b : (k <=? b / 16) = (16 * k <=? b).
Proof.
  destruct (Z.leb_spec (16 * k) b), (Z.leb_spec k (b / 16)); try done.
  - pose proof (Z.div_le_lower_bound b 16 k). lia.
  - pose proof (Z.div_lt_upper_bound b 16 k). lia.
Qed.
(** A literal that is not added to the table. *)
Lemma decode_unindexed st pd b bs h n :
  0 <= b < 32 -> (forall rest h0, DecodeWithKnownPrefix st pd ((b :: bs) ++ rest) h0 4 = Some (n, lower h, rest)) ->
  n = Z.of_nat (length (b :: bs)) -> decoded st pd (b :: bs) h pd.
Proof.
  intros Hb Hd -> rest h0. unfold HPacker_Decode, decode_fuel. cbn [app Decode]. rewrite !kind_of, !kind_le.
  rewrite (proj2 (Z.leb_gt _ b)), (proj2 (Z.leb_gt (16 * 4) b)), (proj2 (Z.leb_gt (16 * 2) b)) by lia.
  specialize (Hd rest h0). cbn [app] in Hd. rewrite Hd. done.
Qed.
Lemma decode_indexing st pd b bs h d' n :
  64 <= b < 128 -> (forall rest h0, DecodeWithKnownPrefix st pd ((b :: bs) ++ rest) h0 6 = Some (n, lower h, rest)) ->
  n = Z.of_nat (length (b :: bs)) -> AddHeader (_decode_table pd) (lower h) = Some d' ->
  decoded st pd (b :: bs) h (mkPacker (_encode_table pd) d').
Proof.
  intros Hb Hd -> Hadd rest h0. unfold HPacker_Decode, decode_fuel. cbn [app Decode]. rewrite !kind_of, !kind_le.
  rewrite (proj2 (Z.leb_gt _ b)), (proj2 (Z.leb_le (16 * 4) b)) by lia.
  specialize (Hd rest h0). cbn [app] in Hd. rewrite Hd. cbn [mbind option_bind].
  rewrite (proj2 (Z.leb_gt _ 0)) by (cbn [length]; lia). by rewrite Hadd.
Qed.
Lemma decode_indexed st pd i x h : designates st (_decode_table pd) i x -> hkey x = hkey h ->
  exists bs, EncodeInteger 128 7 (u32 i) = Some bs /\ Forall is_byte bs /\ decoded st pd bs h pd.
Proof.
  intros [Hi Hat] Hk. rewrite u32_small by (unfold MAX_HPACK_INTEGER in *; lia).
  destruct (integer_roundtrip_all 128 7 i) as (b & bs & He & Hby & Hb & Hd); [split; [lia|split; [lia|reflexivity]]|lia|].
  exists (b :: bs). split; [done|]. split; [done|]. intros rest h0. unfold HPacker_Decode, decode_fuel. cbn [app Decode].
  rewrite kind_of, kind_le. rewrite (proj2 (Z.leb_le _ b)) by (change (2 ^ 7) with 128 in Hb; lia).
  specialize (Hd rest). cbn [app] in Hd. rewrite Hd. cbn [mbind option_bind].
  rewrite (proj2 (Z.leb_gt _ 0)) by (cbn [length]; lia). rewrite i32_small by (unfold MAX_HPACK_INTEGER in *; lia).
  rewrite (Hat pd eq_refl). cbn [mbind option_bind]. by rewrite (lower_hkey x h Hk).
Qed.

(** Adding the header to both tables keeps them in step. *)
Lemma add_in_step e d l h : in_step e d l -> header_ok h -> _add_times e + 1 < 2 ^ 31 -> _add_times d + 1 < 2 ^ 31 ->
  exists e' d', AddHeader e h = Some e' /\ AddHeader d (lower h) = Some d' /\ in_step e' d' (add (_max_size e) l h) /\
    _add_times e' <= _add_times e + 1 /\ _add_times d' <= _add_times d + 1.
Proof.
  intros [He Hd [Hne Hnd] [Hse Hsd] [Hm Hmax] [Hce Hcd] Hl] [[Hg [_ Hnl]] [_ Hvl] Hsz] Hte Htd.
  assert (Hhs : HeaderSize h < 2 ^ 32) by (unfold HeaderSize; lia).
  destruct (AddHeader_spec e l h He) as (e' & Heq & He' & (E1 & E2 & E3 & E4) & Ha); [done|done|done| |].
  { intros Hfit. by apply room. }
  destruct (AddHeader_spec d (map lower l) (lower h) Hd) as (d' & Heqd & Hd' & (D1 & D2 & D3 & D4) & Had);
    [by rewrite Hnd|by rewrite lower_size|done| |].
  { intros Hfit. rewrite lower_size in *. rewrite evict_lower, length_map, <- Hm. apply room; [done|done|done|lia]. }
  exists e', d'. split; [done|]. split; [done|]. split; [|split; lia].
  rewrite <- Hm, add_lower in Hd'. split; [done|done|split; congruence|split; congruence|split; [congruence|by rewrite E3]| |].
  - rewrite E3, E4, D4. done.
  - unfold add. destruct (_max_size e <? HeaderSize h); [constructor|]. destruct (evict_suffix (_max_size e) (HeaderSize h) l) as [dr Hdr].
    apply Forall_app. split; [|by constructor]. rewrite Hdr in Hl. by apply Forall_app in Hl as [_ Hl].
Qed.

Lemma header_roundtrip st pe pd l h o :
  static_ok st -> in_step (_encode_table pe) (_decode_table pd) l -> header_ok h ->
  _add_times (_encode_table pe) + 1 < 2 ^ 31 -> _add_times (_decode_table pd) + 1 < 2 ^ 31 ->
  exists bs pe' pd' l', Encode st pe h o = Some (bs, pe') /\ Forall is_byte bs /\ decoded st pd bs h pd' /\
    in_step (_encode_table pe') (_decode_table pd') l' /\
    _add_times (_encode_table pe') <= _add_times (_encode_table pe) + 1 /\ _add_times (_decode_table pd') <= _add_times (_decode_table pd) + 1.
Proof.
  intros Hst Hin Hok Hte Htd. pose proof Hok as [[Hg Hns] Hvs Hsz]. unfold Encode.
  destruct (FindHeader_spec st _ _ l pe h Hst Hin eq_refl Hg) as (i & Hfind & Hi).
  destruct (FindName_spec st _ _ l pe (name h) Hst Hin eq_refl Hg) as (ni & Hfn & Hni).
  assert (Hidx : exists i', match index_policy o with HPACK_NEVER_INDEX_HEADER => Some 0 | _ => FindHeaderFromIndexTable st pe h end = Some i' /\
    (i' = 0 \/ exists x, is_header h x = true /\ designates st (_decode_table pd) i' x)).
  { destruct (index_policy o); [by exists i|by exists i|exists 0; split; [done|by left]]. }
  destruct Hidx as (i' & -> & [->|(x & Hx & Hdes)]); cbn [mbind option_bind].
  - cbn [Z.ltb Z.compare]. rewrite Hfn. cbn [mbind option_bind]. destruct (index_policy o) eqn:Ho.
    + destruct (add_in_step _ _ l h Hin Hok Hte Htd) as (e' & d' & -> & Hdadd & Hin' & Hae & Had). cbn [mbind option_bind].
      destruct (literal_roundtrip st pd h 64 6 ni (encode_name o) (encode_value o) Hok) as (bi & bn & bv & -> & -> & -> & Hby & (b & bi' & -> & Hb) & Hdec);
        [split; [lia|split; [lia|reflexivity]]|done|]. cbn [mbind option_bind].
      eexists _, _, (mkPacker (_encode_table pd) d'), _. split; [done|]. split; [done|]. split; [|split; [exact Hin'|done]].
      eapply decode_indexing; [change (2 ^ 6) with 64 in Hb; lia|exact Hdec|done|done].
    + destruct (literal_roundtrip st pd h 0 4 ni (encode_name o) (encode_value o) Hok) as (bi & bn & bv & -> & -> & -> & Hby & (b & bi' & -> & Hb) & Hdec);
        [split; [lia|split; [lia|reflexivity]]|done|]. cbn [mbind option_bind].
      eexists _, _, pd, l. split; [done|]. split; [done|]. split; [|split; [done|lia]].
      eapply decode_unindexed; [change (2 ^ 4) with 16 in Hb; lia|exact Hdec|done].
    + destruct (literal_roundtrip st pd h 16 4 ni (encode_name o) (encode_value o) Hok) as (bi & bn & bv & -> & -> & -> & Hby & (b & bi' & -> & Hb) & Hdec);
        [split; [lia|split; [lia|reflexivity]]|done|]. cbn [mbind option_bind].
      eexists _, _, pd, l. split; [done|]. split; [done|]. split; [|split; [done|lia]].
      eapply decode_unindexed; [change (2 ^ 4) with 16 in Hb; lia|exact Hdec|done].
  - rewrite (proj2 (Z.ltb_lt _ _)) by (destruct Hdes; lia). apply andb_true_iff in Hx as [_ Hx]. apply bool_decide_eq_true_1 in Hx.
    destruct (decode_indexed st pd i' x h Hdes Hx) as (bs & -> & Hby & Hd). cbn [mbind option_bind].
    eexists _, pe, pd, l. split; [done|]. split; [done|]. split; [done|]. split; [done|lia].
Qed.

(** ** A block of headers *)
Fixpoint encode_block st (p : HPacker) (hs : list (Header * HPackOptions)) : option (bytes * HPacker) :=
  match hs with
  | [] => Some ([], p)
  | (h, o) :: hs' => r ← Encode st p h o; r' ← encode_block st r.2 hs'; Some (r.1 ++ r'.1, r'.2)
  end.
(** Decoding headers until the input is empty. *)
Fixpoint decode_block (n : nat) st (p : HPacker) (iter : bytes) : option (list Header * bytes * HPacker) :=
  match n with
  | O => Some ([], iter, p)
  | S n' =>
      '(rc, h, iter1, p1) ← HPacker_Decode st p iter (mkHeader [] []);
      if rc <=? 0 then Some ([], iter1, p1)
      else '(hs, iter2, p2) ← decode_block n' st p1 iter1; Some (h :: hs, iter2, p2)
  end.
Lemma block_roundtrip st hs : forall pe pd l,
  static_ok st -> in_step (_encode_table pe) (_decode_table pd) l -> Forall (fun ho : Header * HPackOptions => header_ok ho.1) hs ->
  _add_times (_encode_table pe) + Z.of_nat (length hs) < 2 ^ 31 -> _add_times (_decode_table pd) + Z.of_nat (length hs) < 2 ^ 31 ->
  exists bs pe' pd' l', encode_block st pe hs = Some (bs, pe') /\ in_step (_encode_table pe') (_decode_table pd') l' /\
    forall rest, decode_block (length hs) st pd (bs ++ rest) = Some (map (fun ho => lower ho.1) hs, rest, pd').
Proof.
  induction hs as [|[h o] hs IH]; intros pe pd l Hst Hin Hok Hte Htd; cbn [encode_block decode_block length].
  - exists [], pe, pd, l. done.
  - apply Forall_cons in Hok as [Hh Hok]. cbn [length fst] in *.
    destruct (header_roundtrip st pe pd l h o Hst Hin Hh) as (bs & pe1 & pd1 & l1 & -> & Hby & Hd & Hin1 & Ha1 & Ha2); [lia|lia|].
    cbn [mbind option_bind fst snd]. destruct (IH pe1 pd1 l1 Hst Hin1 Hok) as (bs2 & pe2 & pd2 & l2 & -> & Hin2 & Hd2); [lia|lia|].
    cbn [mbind option_bind fst snd]. exists (bs ++ bs2), pe2, pd2, l2. split; [done|]. split; [done|]. intros rest.
    rewrite <- app_assoc, Hd. cbn [mbind option_bind].
    assert (Hpos : 0 < Z.of_nat (length bs)) by (destruct bs; [pose proof (Hd [] (mkHeader [1] [])) as Q1; pose proof (Hd [] (mkHeader [2] [])) as Q2;
        cbn in Q1, Q2; congruence|cbn [length]; lia]).
    rewrite (proj2 (Z.leb_gt _ 0)) by lia. rewrite Hd2. done.
Qed.
End Proofs.

End Hpack.
