(* ===== verification/HpackTheorems.v ===== *)
(** * HPACK: theorems

    The maps of the index tables are FlatMaps.  Two peers started with the same table
    size decode each other's header blocks; the remaining theorems are about the
    primitives, the index table and four corner cases. *)
From stdpp Require Import base list.
From Stdlib Require Import ZArith Lia Bool Ascii.
From Stdlib Require String.
Import (notations) String.
From S2P Require Import Prelude BoundedQueue FlatMap MapInterface HpackHuffman HpackPrimitive HpackTable Hpack.

Open Scope Z_scope.

Module HpackTheorems.
Import MapInterface Huffman Primitive Table Hpack.

(** ** The maps of brpc *)
Section Maps.
Context (alloc : Z -> bool).
#[export] Instance header_params : FlatMap.Params Header Z :=
  FlatMap.Build_Params Header Z HeaderHasher HeaderEqualTo 0 false alloc alloc (fun _ => 0).
#[export] Instance name_params : FlatMap.Params bytes Z :=
  FlatMap.Build_Params bytes Z CaseIgnoredHasher CaseIgnoredEqual 0 false alloc alloc (fun _ => 0).

Lemma hash_range (f : Z -> Z) s r : 0 <= r < 2 ^ 64 -> 0 <= fold_left (fun r c => u64 (r * 101 + f c)) s r < 2 ^ 64.
Proof. revert r. induction s as [|c s IH]; intros r Hr; [done|]. apply IH, u64_range. Qed.
Lemma hasher_eq s1 s2 : tolower s1 = tolower s2 -> CaseIgnoredHasher s1 = CaseIgnoredHasher s2.
Proof. intros E. by rewrite <- (CaseIgnoredHasher_tolower s1), <- (CaseIgnoredHasher_tolower s2), E. Qed.

#[export] Instance header_lawful : LawfulOn (P := header_params) (fun h => good_name (name h)).
Proof.
  split; cbn [FlatMap._eql FlatMap._hashfn header_params]; intros; rewrite ?HeaderEqualTo_spec in * by done.
  - by apply bool_decide_eq_true_2.
  - apply bool_decide_ext. split; congruence.
  - apply bool_decide_eq_true_1 in H2, H3. apply bool_decide_eq_true_2. congruence.
  - apply bool_decide_eq_true_1 in H1. unfold hkey in H1. injection H1 as E1 E2. unfold HeaderHasher. by rewrite (hasher_eq _ _ E1), E2.
  - apply u64_range.
Qed.
#[export] Instance name_lawful : LawfulOn (P := name_params) good_name.
Proof.
  split; cbn [FlatMap._eql FlatMap._hashfn name_params]; intros; rewrite ?CaseIgnoredEqual_spec in * by done.
  - by apply bool_decide_eq_true_2.
  - apply bool_decide_ext. split; congruence.
  - apply bool_decide_eq_true_1 in H2, H3. apply bool_decide_eq_true_2. congruence.
  - apply bool_decide_eq_true_1 in H1. by apply hasher_eq.
  - apply (hash_range (fun c => i8 (ascii_tolower c))). lia.
Qed.

#[export] Instance flat_tables : TableMaps (@FlatMap.FlatMap Header Z) (@FlatMap.FlatMap bytes Z) := {|
  hm_laws := flatmap_laws (P := header_params) (fun h => good_name (name h)) eq_refl;
  nm_laws := flatmap_laws (P := name_params) good_name eq_refl;
  hm_dom h Hh := Hh;
  nm_dom n Hn := Hn;
  hm_eq := HeaderEqualTo_spec;
  nm_eq := CaseIgnoredEqual_spec
|}.
Abbreviation Packer := (@HPacker (@FlatMap.FlatMap Header Z) (@FlatMap.FlatMap bytes Z)).

(** ** Fresh packers are in step *)
Lemma static_table_ok st : CreateStaticTable true = Some (0, st) -> static_ok st.
Proof.
  intros Hc. unfold CreateStaticTable in Hc.
  destruct (Init_spec (mkOptions (2 ^ 32 - 1) 1 s_static_headers true) true) as (r & t & Heq & Ht);
    [split; reflexivity || (vm_compute; congruence)|split; reflexivity || (vm_compute; congruence)|simpl; lia|apply static_good|apply static_size|].
  rewrite Hc in Heq. injection Heq as <- <-. destruct Ht as [?|(_ & Ht & Hs & Hn & _)]; [done|]. by split.
Qed.
Lemma fresh_in_step st M pe pd : static_ok st -> 34 <= M <= 2 ^ 26 ->
  HPacker_Init st M true true = Some (0, pe) -> HPacker_Init st M true true = Some (0, pd) ->
  in_step (_encode_table pe) (_decode_table pd) [] /\ _add_times (_encode_table pe) = 0 /\ _add_times (_decode_table pd) = 0.
Proof.
  intros Hst HM He Hd. rewrite He in Hd. injection Hd as <-. unfold HPacker_Init in He.
  assert (Hend : end_index st = 62).
  { unfold end_index. destruct Hst as [Ht Hs _]. pose proof (tb_queue _ _ Ht) as (Hc & _). unfold BoundedQueue.size.
    rewrite Hc, Hs, length_reverse, static_length. reflexivity. }
  rewrite Hend in He. assert (Hnum : 0 < M / 34 <= 2 ^ 27) by (split; [apply Z.div_str_pos; lia|apply Z.div_le_upper_bound; lia]).
  pose proof (Z.div_mod M 34). pose proof (Z.mod_pos_bound M 34).
  destruct (Init_spec (mkOptions M 62 [] true) true) as (re & te & Ee & Hte);
    [exact Hnum|unfold limit; simpl; lia|simpl; lia|constructor|done|].
  destruct (Init_spec (mkOptions M 62 [] false) true) as (rd & td & Ed & Htd);
    [exact Hnum|unfold limit; simpl; lia|simpl; lia|constructor|done|].
  rewrite Ee, Ed in He. cbn [mbind option_bind fst snd] in He.
  destruct Hte as [->|(-> & Hte & Hse & Hne & Hme & Hce & Hae)]; [done|]. cbn [negb Z.eqb] in He.
  destruct Htd as [->|(-> & Htd & Hsd & Hnd & Hmd & Hcd & Had)]; [done|]. cbn [negb Z.eqb] in He. injection He as <-.
  cbn [_encode_table _decode_table]. pose proof (tb_times _ _ Hte) as Hx. pose proof (tb_times _ _ Htd) as Hy.
  simpl in *. split; [|split; lia]. unfold limit, num_headers in *. simpl in *.
  split; [done|done|done|done|split; [congruence|lia]|split; lia|constructor].
Qed.

(** C12: Two HPackers initialized with the same table size, 34 bytes to 64 MB, with memory
    for their tables: every block of fewer than 2^31 headers that one encodes, with any
    index policies and Huffman choices, is decoded by the other to the same headers with
    lower-case names, consuming exactly its bytes. The headers (header_ok) count at least 34
    bytes as table entries, that is name and value have at least two bytes together, names
    have no NUL, and names and values have at most 2 MB. (Shorter entries can overflow the
    table: small_entries_overflow_the_queue.) *)
Theorem hpack_peers_roundtrip (M : Z) st (pe pd : Packer) (hs : list (Header * HPackOptions)) :
  34 <= M <= 2 ^ 26 ->
  CreateStaticTable true = Some (0, st) ->
  HPacker_Init st M true true = Some (0, pe) -> HPacker_Init st M true true = Some (0, pd) ->
  Forall (fun ho : Header * HPackOptions => header_ok ho.1) hs -> Z.of_nat (length hs) < 2 ^ 31 ->
  exists bs pe' pd', encode_block st pe hs = Some (bs, pe') /\
    forall rest, decode_block (length hs) st pd (bs ++ rest) = Some (map (fun ho => lower ho.1) hs, rest, pd').
Proof.
  intros HM Hc He Hd Hok Hlen. pose proof (static_table_ok st Hc) as Hst.
  destruct (fresh_in_step st M pe pd Hst HM He Hd) as (Hin & Ha1 & Ha2).
  destruct (block_roundtrip st hs pe pd [] Hst Hin Hok) as (bs & pe' & pd' & l' & Henc & _ & Hdec); [lia|lia|].
  by exists bs, pe', pd'.
Qed.
End Maps.

(** ** Theorems *)

(** The allocator of the examples never fails. *)
Definition yes : Z -> bool := fun _ => true.
#[local] Instance yes_headers : MapOps (@FlatMap.FlatMap Header Z) Header Z := @flatmap_ops _ _ (header_params yes).
#[local] Instance yes_names : MapOps (@FlatMap.FlatMap bytes Z) bytes Z := @flatmap_ops _ _ (name_params yes).
Definition example_block : list (Header * HPackOptions) := [
  (mkHeader [58; 109; 101; 116; 104; 111; 100] [71; 69; 84], HPackOptions_default);
  (mkHeader [88; 45; 65] [49; 50], mkPackOptions HPACK_INDEX_HEADER true true);
  (mkHeader [120; 45; 97] [49; 50], mkPackOptions HPACK_NOT_INDEX_HEADER true true);
  (mkHeader [99; 111; 111; 107; 105; 101] [0; 255; 128], mkPackOptions HPACK_NEVER_INDEX_HEADER false true)].
Lemma example_block_ok : Forall (fun ho : Header * HPackOptions => header_ok ho.1) example_block.
Proof.
  repeat (apply Forall_cons; split; [|]); [..|constructor].
  all: split; [split; [reflexivity|split; [repeat constructor; unfold is_byte; lia|simpl; lia]]|split; [repeat constructor; unfold is_byte; lia|simpl; lia]|vm_compute; congruence].
Qed.
Definition example_st : @IndexTable (@FlatMap.FlatMap Header Z) (@FlatMap.FlatMap bytes Z) :=
  Eval vm_compute in match CreateStaticTable true with Some r => r.2 | None => IndexTable_new end.
Definition example_packer (M : Z) : @HPacker (@FlatMap.FlatMap Header Z) (@FlatMap.FlatMap bytes Z) :=
  match HPacker_Init example_st M true true with Some r => r.2 | None => mkPacker IndexTable_new IndexTable_new end.
Lemma hpack_peers_witness :
  CreateStaticTable true = Some (0, example_st) /\
  HPacker_Init example_st 4096 true true = Some (0, example_packer 4096) /\
  exists bs pe' pd', encode_block example_st (example_packer 4096) example_block = Some (bs, pe') /\
    forall rest, decode_block (length example_block) example_st (example_packer 4096) (bs ++ rest) =
      Some (map (fun ho => lower ho.1) example_block, rest, pd').
Proof.
  split; [vm_compute; reflexivity|]. split; [vm_compute; reflexivity|].
  apply (hpack_peers_roundtrip yes 4096); [lia|vm_compute; reflexivity|vm_compute; reflexivity|vm_compute; reflexivity|apply example_block_ok|].
  simpl. lia.
Defined.

(** Adding a header to a table of any size evicts the oldest entries until the new one fits and
    appends it (or empties the table when it is larger than the limit); afterwards every index
    found for a header or a name with a match in the table designates a matching entry. *)
Theorem index_table_adds_and_finds {HM NM : Type} `{!MapOps HM Header Z} `{!MapOps NM bytes Z} `{!TableMaps HM NM}
    (t : @IndexTable HM NM) (l : list Header) (h k : Header) :
  tbl t l -> _need_indexes t = true -> good_name (name h) = true -> good_name (name k) = true -> HeaderSize h < 2 ^ 32 ->
  _add_times t + 1 < 2 ^ 31 -> (HeaderSize h <= _max_size t -> Z.of_nat (length (evict (_max_size t) (HeaderSize h) l)) < cap t) ->
  exists t' i j, AddHeader t h = Some t' /\ tbl t' (add (_max_size t) l h) /\
    GetIndexOfHeader t' k = Some i /\ found (is_header k) t' (add (_max_size t) l h) i /\
    GetIndexOfName t' (name k) = Some j /\ found (is_name (name k)) t' (add (_max_size t) l h) j.
Proof.
  intros Ht Hn Hg Hgk Hs Ha Hc. destruct (AddHeader_spec t l h Ht) as (t' & Heq & Ht' & (_ & Hn' & _) & _); try done.
  rewrite <- Hn' in Hn. destruct (GetIndexOfHeader_spec t' _ k Ht' Hn Hgk) as (i & Hi & Hfi).
  destruct (GetIndexOfName_spec t' _ (name k) Ht' Hn Hgk) as (j & Hj & Hfj). exists t', i, j. done.
Qed.
Lemma index_table_witness :
  let t := _encode_table (example_packer 4096) in
  exists t' i j, AddHeader t (mkHeader [97] [98]) = Some t' /\
    tbl (TableMaps0 := flat_tables yes) t' (add 4096 [] (mkHeader [97] [98])) /\
    GetIndexOfHeader t' (mkHeader [65] [98]) = Some i /\ found (is_header (mkHeader [65] [98])) t' (add 4096 [] (mkHeader [97] [98])) i /\
    GetIndexOfName t' [65] = Some j /\ found (is_name [65]) t' (add 4096 [] (mkHeader [97] [98])) j.
Proof.
  assert (Hst : static_ok (TableMaps0 := flat_tables yes) example_st) by (apply (static_table_ok yes); vm_compute; reflexivity).
  destruct (fresh_in_step yes example_st 4096 (example_packer 4096) (example_packer 4096) Hst) as (Hin & _);
    [lia|vm_compute; reflexivity|vm_compute; reflexivity|].
  apply (index_table_adds_and_finds (TableMaps0 := flat_tables yes) (_encode_table (example_packer 4096)) [] (mkHeader [97] [98]) (mkHeader [65] [98]));
    [apply Hin|reflexivity|reflexivity|reflexivity|reflexivity|reflexivity|intros _; reflexivity].
Defined.

(** C34: The Huffman code is decodable: encoding any byte string and ending the stream
    appends bytes that the decoder of the tree built from the table accepts and maps back to
    the string; their number is the sum of the code lengths rounded up to bytes. *)
Theorem huffman_roundtrip (s pre : bytes) :
  Forall is_byte s ->
  exists t e out, build_tree = Some t /\ encode_all s (HuffmanEncoder_new pre) = Some e /\
    e_out (EndStream e) = pre ++ out /\ Z.of_nat (length out) = (Z.of_nat (length (text_bits s)) + 7) / 8 /\
    exists d0 d, HuffmanDecoder_new t [] = Some d0 /\ decode_all t out d0 = Some (0, d) /\ d_out d = s /\ decoder_EndStream d = 0.
Proof.
  intros Hs. destruct (huffman_roundtrip_at s pre Hs) as (e & out & He & Ho & _ & Hl & Hd).
  exists s_huffman_tree, e, out. split; [apply build_tree_eq|]. split; [done|]. split; [done|]. split; [done|].
  destruct (Hd []) as (d & H1 & H2 & H3). by exists (at_root []), d.
Qed.
Lemma huffman_roundtrip_witness :
  exists t e out, build_tree = Some t /\ encode_all [119; 119; 119; 0; 255] (HuffmanEncoder_new [1]) = Some e /\
    e_out (EndStream e) = [1] ++ out /\ Z.of_nat (length out) = (Z.of_nat (length (text_bits [119; 119; 119; 0; 255])) + 7) / 8 /\
    exists d0 d, HuffmanDecoder_new t [] = Some d0 /\ decode_all t out d0 = Some (0, d) /\ d_out d = [119; 119; 119; 0; 255] /\ decoder_EndStream d = 0.
Proof. apply (huffman_roundtrip [119; 119; 119; 0; 255] [1]). repeat constructor; unfold is_byte; lia. Defined.

(** An integer below the 10 MB limit, encoded with any prefix of 1 to 7 bits and any flags above
    it, decodes to itself and leaves what follows. *)
Theorem hpack_integer_roundtrip (msb prefix_size v : Z) (rest : bytes) :
  prefix_ok msb prefix_size -> 0 <= v < MAX_HPACK_INTEGER ->
  exists bs, EncodeInteger msb prefix_size v = Some bs /\ Forall is_byte bs /\
    DecodeInteger (bs ++ rest) prefix_size = Some (Z.of_nat (length bs), v, rest).
Proof.
  intros Hp Hv. destruct (integer_roundtrip_all msb prefix_size v Hp Hv) as (b & ds & He & Hb & _ & Hd).
  exists (b :: ds). done.
Qed.
Lemma hpack_integer_witness : exists bs, EncodeInteger 32 5 1337 = Some bs /\ Forall is_byte bs /\
  DecodeInteger (bs ++ [7]) 5 = Some (Z.of_nat (length bs), 1337, [7]).
Proof.
  apply (hpack_integer_roundtrip 32 5 1337 [7]); [split; [lia|split; [lia|reflexivity]]|unfold MAX_HPACK_INTEGER; lia].
Defined.

(** Ten continuation bytes 0x80 after a full prefix leave the value unchanged but raise the
    shift to 70: decoding such an integer is undefined. *)
Theorem decode_integer_shifts_too_far (b : Z) (rest : bytes) :
  DecodeInteger (127 :: replicate 10 128 ++ b :: rest) 7 = None.
Proof. reflexivity. Qed.

(** A literal header cut off after its first byte is reported as malformed (-1), not as
    incomplete (0). *)
Theorem truncated_literal_is_malformed {HM NM : Type} `{!MapOps HM Header Z} `{!MapOps NM bytes Z}
    (st : @IndexTable HM NM) (p : HPacker) (h : Header) :
  HPacker_Decode st p [64] h = Some (-1, mkHeader (name h) (value h), [], p).
Proof. reflexivity. Qed.

(** A dynamic table size update in front of a header is not counted: decoding from an IOBuf
    returns the size of the header alone and leaves its last bytes in the buffer. *)
Theorem size_update_is_not_popped {HM NM : Type} `{!MapOps HM Header Z} `{!MapOps NM bytes Z} `{!TableMaps HM NM}
    (st : @IndexTable HM NM) (p : HPacker) (l : list Header) (h : Header) :
  static_ok st -> tbl (_decode_table p) l -> _start_index (_decode_table p) = 62 ->
  exists p', Decode_buf st p [32; 130] h = Some (1, mkHeader (str ":method"%string) (str "GET"%string), [130], p').
Proof.
  intros Hst Ht Hs. destruct (ResetMaxSize_spec (_decode_table p) l 0 Ht) as (d & Hd & Ht' & (Hs' & _) & _); [lia|].
  exists (mkPacker (_encode_table p) d). unfold Decode_buf, HPacker_Decode, decode_fuel.
  cbn [length Decode]. change (8 <=? Z.shiftr 32 4) with false. change (4 <=? Z.shiftr 32 4) with false. change (2 <=? Z.shiftr 32 4) with true.
  change (DecodeInteger [32; 130] 5) with (Some (1, 0, [130])). cbn [mbind option_bind]. change (1 <=? 0) with false.
  change (DEFAULT_HEADER_TABLE_SIZE <? 0) with false. cbn iota. rewrite Hd. cbn [mbind option_bind].
  change (8 <=? Z.shiftr 130 4) with true. change (DecodeInteger [130] 7) with (Some (1, 2, @nil Z)). cbn [mbind option_bind].
  change (1 <=? 0) with false. change (i32 2) with 2. cbn iota.
  unfold HPacker_HeaderAt. cbn [_decode_table]. simpl in Hs'. rewrite Hs', Hs. change (62 <=? 2) with false. cbn iota.
  destruct Hst as [Hst Hst1 _]. change 2 with (1 + 1). rewrite <- Hst1 at 1. rewrite (HeaderAt_spec st _ 1 Hst) by lia.
  rewrite reverse_involutive. reflexivity.
Qed.
Lemma size_update_witness : exists p', Decode_buf example_st (example_packer 4096) [32; 130] (mkHeader [] []) =
  Some (1, mkHeader (str ":method"%string) (str "GET"%string), [130], p').
Proof.
  assert (Hst : static_ok (TableMaps0 := flat_tables yes) example_st) by (apply (static_table_ok yes); vm_compute; reflexivity).
  destruct (fresh_in_step yes example_st 4096 (example_packer 4096) (example_packer 4096) Hst) as (Hin & _);
    [lia|vm_compute; reflexivity|vm_compute; reflexivity|].
  apply (size_update_is_not_popped (TableMaps0 := flat_tables yes) example_st (example_packer 4096) []); [exact Hst|apply Hin|reflexivity].
Defined.

(** The queue of a table holds [max_size / 34] entries, but an entry with a one-byte name and
    no value has size 33: with a table of 66 bytes the second such header is indexed although
    it was not stored, and the third header is decoded with the wrong name. *)
Theorem small_entries_overflow_the_queue :
  fst <$> encode_block example_st (example_packer 66)
    [(mkHeader [97] [], HPackOptions_default); (mkHeader [98] [], HPackOptions_default); (mkHeader [98] [], HPackOptions_default)]
    = Some [64; 1; 97; 0; 64; 1; 98; 0; 126; 0] /\
  fst <$> decode_block 3 example_st (example_packer 66) [64; 1; 97; 0; 64; 1; 98; 0; 126; 0]
    = Some ([mkHeader [97] []; mkHeader [98] []; mkHeader [97] []], []).
Proof. split; vm_compute; reflexivity. Qed.

End HpackTheorems.
