(* ===== verification/Arena.v ===== *)
(** * butil::Arena (butil/arena.h, arena.cpp)

    Memory is taken from malloc in blocks and handed out in pieces that live until the
    arena is cleared.  The world holds the arena and the heap: how often malloc was
    called and which of its blocks are live, with the bytes they have after their
    header.  malloc succeeds as the parameter [malloc_ok] says for the number of the
    call and the size.  [None] is a null pointer dereferenced or a bad free. *)
From stdpp Require Import base list.
From Stdlib Require Import ZArith Lia Bool.
From S2P Require Import Prelude.

Open Scope Z_scope.
Open Scope m_scope.

Module Arena.

(** ** Data *)
Record ArenaOptions := mkOptions { initial_block_size : Z; max_block_size : Z }.
Definition default_options : ArenaOptions := mkOptions 64 8192.

(** [blk_id] is the address of the block. *)
Record Block := mkBlock { blk_id : nat; alloc_size : Z; blk_size : Z }.
Definition left_space (b : Block) : Z := u32 (blk_size b - alloc_size b).

Record Arena := mkArena {
  _cur_block : option Block; _isolated_blocks : list Block; _block_size : Z; _options : ArenaOptions }.
Definition new_arena (options : ArenaOptions) : Arena := mkArena None [] (initial_block_size options) options.

Record World := mkWorld { arena : Arena; nmalloc : nat; live : list (nat * Z) }.
Definition set_arena (a : Arena) (w : World) : World := mkWorld a (nmalloc w) (live w).

(** offsetof(Block, data). *)
Definition header_size : Z := 16.

Section Malloc.
Context (malloc_ok : nat -> Z -> bool).

(** ** The heap *)
Definition malloc (size : Z) : M World (option nat) := fun w =>
  let id := nmalloc w in
  if malloc_ok id size
  then Some (Some id, mkWorld (arena w) (S id) ((id, size - header_size) :: live w))
  else Some (None, mkWorld (arena w) (S id) (live w)).
Definition free (id : nat) : M World unit := fun w =>
  if bool_decide (id ∈ (live w).*1)
  then Some (tt, mkWorld (arena w) (nmalloc w) (filter (fun e => e.1 <> id) (live w)))
  else None.

(** ** Allocation: a block and an offset in its data, or NULL *)
Definition allocate_new_block (n : Z) : M World (option (nat * Z)) :=
  let* p := malloc (u64 (header_size + n)) in
  match p with
  | None => ub
  | Some id =>
      let* w := mget in
      let a := arena w in
      let b := mkBlock id (u32 n) (u32 n) in
      do* mmod (set_arena (mkArena (_cur_block a) (b :: _isolated_blocks a) (_block_size a) (_options a))) in
      mret (Some (id, 0))
  end.

Definition allocate_in_other_blocks (n : Z) : M World (option (nat * Z)) :=
  let* w0 := mget in
  if _block_size (arena w0) / 4 <? n then allocate_new_block n
  else
    let a := arena w0 in
    let bs := match _cur_block a with
              | Some _ => Z.min (u64 (2 * _block_size a)) (max_block_size (_options a))
              | None => _block_size a end in
    do* mmod (set_arena (mkArena (_cur_block a) (_isolated_blocks a) bs (_options a))) in
    let new_size := if bs <? n then n else bs in
    let* p := malloc (u64 (header_size + new_size)) in
    match p with
    | None => mret None
    | Some id =>
        let isolated := match _cur_block a with
                        | Some c => c :: _isolated_blocks a
                        | None => _isolated_blocks a end in
        do* mmod (set_arena (mkArena (Some (mkBlock id (u32 n) (u32 new_size))) isolated bs (_options a))) in
        mret (Some (id, 0))
    end.

Definition allocate (n : Z) : M World (option (nat * Z)) :=
  let* w := mget in
  let a := arena w in
  match _cur_block a with
  | Some c =>
      if n <=? left_space c
      then
        let c' := mkBlock (blk_id c) (u32 (alloc_size c + n)) (blk_size c) in
        do* mmod (set_arena (mkArena (Some c') (_isolated_blocks a) (_block_size a) (_options a))) in
        mret (Some (blk_id c, alloc_size c))
      else allocate_in_other_blocks n
  | None => allocate_in_other_blocks n
  end.

(** ** Destruction, [swap] and [clear] *)
Fixpoint free_blocks (l : list Block) : M World unit :=
  match l with [] => mret tt | b :: l' => do* free (blk_id b) in free_blocks l' end.
Definition destroy (a : Arena) : M World unit :=
  do* free_blocks (match _cur_block a with Some c => [c] | None => [] end) in
  free_blocks (_isolated_blocks a).
Definition swap (a other : Arena) : Arena * Arena := (other, a).
(** A fresh arena takes the place of this one, which is destroyed. *)
Definition clear : M World unit :=
  let* w := mget in
  let '(this, a) := swap (arena w) (new_arena default_options) in
  do* mmod (set_arena this) in
  destroy a.

(** ** Clients *)
Inductive op := Allocate (n : Z) | Clear.
(** A region handed out: block, offset and size. *)
Definition region : Type := nat * Z * Z.
Definition step (o : op) (rs : list region) : M World (list region) :=
  match o with
  | Allocate n =>
      let* p := allocate n in
      mret (match p with Some (id, off) => (id, off, n) :: rs | None => rs end)
  | Clear => do* clear in mret []
  end.
Fixpoint run (ops : list op) (rs : list region) : M World (list region) :=
  match ops with [] => mret rs | o :: ops' => let* rs' := step o rs in run ops' rs' end.
End Malloc.

Definition init : World := mkWorld (new_arena default_options) 0 [].
Definition op_ok (o : op) : Prop := match o with Allocate n => 0 <= n < 2 ^ 64 - header_size | Clear => True end.

(** ** Invariant *)
Definition blocks (a : Arena) : list Block :=
  match _cur_block a with Some c => c :: _isolated_blocks a | None => _isolated_blocks a end.
Definition region_ok (w : World) (r : region) : Prop :=
  let '(id, off, n) := r in 0 <= off /\ 0 <= n /\ exists size, (id, size) ∈ live w /\ off + n <= size.
Definition disjoint_regions (r1 r2 : region) : Prop :=
  let '(i1, o1, n1) := r1 in let '(i2, o2, n2) := r2 in i1 <> i2 \/ o1 + n1 <= o2 \/ o2 + n2 <= o1.

Record inv (w : World) (rs : list region) : Prop := mkInv {
  inv_blocks : blk_id <$> blocks (arena w) ≡ₚ (live w).*1;
  inv_fresh : Forall (fun e => (e.1 < nmalloc w)%nat) (live w);
  inv_nodup : NoDup (live w).*1;
  inv_sizes : 64 <= _block_size (arena w) <= 8192;
  inv_options : _options (arena w) = default_options;
  inv_cur : forall c, _cur_block (arena w) = Some c ->
    (blk_id c, blk_size c) ∈ live w /\ 0 <= alloc_size c <= blk_size c /\ blk_size c <= 8192 /\
    Forall (fun r : region => r.1.1 = blk_id c -> r.1.2 + r.2 <= alloc_size c) rs;
  inv_regions : Forall (region_ok w) rs;
  inv_disjoint : forall i j r1 r2, rs !! i = Some r1 -> rs !! j = Some r2 -> i <> j -> disjoint_regions r1 r2 }.

(** ** Lemmas *)
Definition memory (malloc_ok : nat -> Z -> bool) : Prop := forall k size, malloc_ok k size = true.

Lemma disjoint_cons r rs :
  Forall (disjoint_regions r) rs ->
  (forall i j r1 r2, rs !! i = Some r1 -> rs !! j = Some r2 -> i <> j -> disjoint_regions r1 r2) ->
  forall i j r1 r2, (r :: rs) !! i = Some r1 -> (r :: rs) !! j = Some r2 -> i <> j -> disjoint_regions r1 r2.
Proof.
  rewrite Forall_forall. intros Hr Hrs [|i] [|j] r1 r2 H1 H2 Hij; simpl in *; simplify_eq.
  - apply Hr. by eapply list_elem_of_lookup_2.
  - assert (disjoint_regions r2 r1) as Hd by (apply Hr; by eapply list_elem_of_lookup_2).
    destruct r1 as [[??]?], r2 as [[??]?]. unfold disjoint_regions in *. destruct Hd as [?|[?|?]]; auto.
  - eapply Hrs; eauto.
Qed.

Lemma region_ok_live w w' r : (forall e, e ∈ live w -> e ∈ live w') -> region_ok w r -> region_ok w' r.
Proof. destruct r as [[id off] n]. intros Hl (? & ? & size & ? & ?). repeat split; [done..|]. eauto. Qed.

(** The blocks of the regions are not the next one that malloc returns. *)
Lemma region_fresh w rs : inv w rs -> Forall (fun r : region => (r.1.1 < nmalloc w)%nat) rs.
Proof.
  intros Hi. eapply Forall_impl; [apply (inv_regions _ _ Hi)|]. intros [[id off] n] (_ & _ & size & He & _).
  pose proof (inv_fresh _ _ Hi) as Hf. rewrite Forall_forall in Hf. exact (Hf _ He).
Qed.

(** Taking a new block from malloc and giving out its first [n] bytes. *)
Lemma inv_new_block w rs n size cur isolated bs :
  inv w rs -> 0 <= n <= size -> 64 <= bs <= 8192 ->
  let id := nmalloc w in
  let a := mkArena cur isolated bs (_options (arena w)) in
  blk_id <$> blocks a ≡ₚ id :: (blk_id <$> blocks (arena w)) ->
  cur = _cur_block (arena w) \/ (cur = Some (mkBlock id n size) /\ size <= 8192) ->
  inv (mkWorld a (S id) ((id, size) :: live w)) ((id, 0, n) :: rs).
Proof.
  intros Hi Hn Hbs id a Hperm Hcur. pose proof (region_fresh _ _ Hi) as Hfr.
  pose proof (inv_fresh _ _ Hi) as Hlf. destruct Hi as [Hb Hf Hnd Hs Ho Hc Hr Hd]. split; simpl; subst a id.
  - rewrite Hperm, Hb. done.
  - constructor; simpl; [lia|]. eapply Forall_impl; [exact Hf|]. intros e He. simpl in He. lia.
  - constructor; [|done]. rewrite list_elem_of_fmap. intros (e & He & Hin).
    rewrite Forall_forall in Hlf. specialize (Hlf e Hin). simpl in Hlf. lia.
  - done.
  - done.
  - intros c Hcc. destruct Hcur as [->|[-> Hsz]].
    + destruct (Hc c Hcc) as (Hin & Ha & Hsz & Hall). repeat split; [by right|lia..|].
      constructor; simpl; [|done]. intros Heq. rewrite Forall_forall in Hlf. specialize (Hlf _ Hin). simpl in Hlf. lia.
    + injection Hcc as <-. simpl. repeat split; [by left|lia..|].
      constructor; simpl; [lia|]. eapply Forall_impl; [exact Hfr|]. intros r Hlt Heq. simpl in *. lia.
  - constructor.
    + repeat split; [lia..|]. exists size. split; [by left|lia].
    + eapply Forall_impl; [exact Hr|]. intros r. apply region_ok_live. simpl. by right.
  - apply disjoint_cons; [|done]. eapply Forall_impl; [exact Hfr|]. intros [[i o] m] Hlt. left. simpl in *. lia.
Qed.

Lemma allocate_in_other_blocks_spec malloc_ok w rs n :
  memory malloc_ok -> inv w rs -> 0 <= n < 2 ^ 64 - header_size ->
  exists id off w', allocate_in_other_blocks malloc_ok n w = Some (Some (id, off), w') /\ inv w' ((id, off, n) :: rs).
Proof.
  intros Hmem Hi Hn. unfold header_size in Hn.
  pose proof (inv_sizes _ _ Hi) as Hs. pose proof (inv_options _ _ Hi) as Ho.
  unfold allocate_in_other_blocks, mbind', mget.
  destruct (Z.ltb_spec (_block_size (arena w) / 4) n) as [Hbig|Hsmall].
  - unfold allocate_new_block, mbind', malloc, mget, mmod, mret, header_size. rewrite Hmem. simpl.
    eexists _, _, _. split; [reflexivity|]. unfold set_arena. simpl.
    rewrite (u64_small (16 + n)) by lia. replace (16 + n - 16) with n by lia.
    apply inv_new_block; [done|lia|done| |by left]. unfold blocks. simpl.
    destruct (_cur_block (arena w)); simpl; [apply Permutation_swap|done].
  - set (bs := match _cur_block (arena w) with Some _ => _ | None => _ end).
    assert (Hbs : 64 <= bs <= 8192 /\ n <= bs).
    { assert (n <= _block_size (arena w) / 4) by lia.
      subst bs. rewrite Ho. destruct (_cur_block (arena w)); simpl;
        [rewrite u64_small by lia|]; (split; [lia|]); Z.to_euclidean_division_equations; lia. }
    unfold malloc, mmod, mret, header_size. simpl. rewrite Hmem. rewrite (proj2 (Z.ltb_ge _ _)) by lia.
    eexists _, _, _. split; [reflexivity|]. unfold set_arena. simpl.
    rewrite (u64_small (16 + bs)) by lia. replace (16 + bs - 16) with bs by lia.
    rewrite (u32_small n), (u32_small bs) by lia.
    apply inv_new_block; [done|lia|lia| |right; split; [done|lia]]. unfold blocks. simpl.
    by destruct (_cur_block (arena w)).
Qed.

Lemma allocate_spec malloc_ok w rs n :
  memory malloc_ok -> inv w rs -> 0 <= n < 2 ^ 64 - header_size ->
  exists id off w', allocate malloc_ok n w = Some (Some (id, off), w') /\ inv w' ((id, off, n) :: rs).
Proof.
  intros Hmem Hi Hn. pose proof (allocate_in_other_blocks_spec _ _ _ _ Hmem Hi Hn) as Hother.
  unfold allocate, mbind', mget. destruct (_cur_block (arena w)) as [c|] eqn:Ec; [|done].
  destruct (Z.leb_spec n (left_space c)) as [Hfit|]; [|done].
  clear Hother. unfold mmod, mret, set_arena. eexists _, _, _. split; [reflexivity|].
  destruct Hi as [Hb Hf Hnd Hs Ho Hc Hrg Hd]. destruct (Hc c Ec) as (Hin & Ha & Hsz & Hall).
  unfold left_space in Hfit. rewrite u32_small in Hfit by lia.
  split; simpl; [|done|done|done|done| | |].
  - rewrite <- Hb. unfold blocks. by rewrite Ec.
  - intros c' [= <-]. simpl. rewrite u32_small by lia. repeat split; [done|lia..|].
    constructor; simpl; [lia|]. eapply Forall_impl; [exact Hall|]. intros r Hr Hid. specialize (Hr Hid). lia.
  - constructor; [|done]. repeat split; [lia..|]. exists (blk_size c). split; [done|lia].
  - apply disjoint_cons; [|done]. eapply Forall_impl; [exact Hall|]. intros [[i o] m] Hr. simpl in *.
    destruct (decide (i = blk_id c)) as [->|]; [right|left; done]. specialize (Hr eq_refl). lia.
Qed.

(** Freeing distinct live blocks. *)
Lemma free_blocks_spec l w :
  NoDup (live w).*1 -> NoDup (blk_id <$> l) -> (forall b, b ∈ l -> blk_id b ∈ (live w).*1) ->
  exists w', free_blocks l w = Some (tt, w') /\ arena w' = arena w /\ nmalloc w' = nmalloc w /\
    live w' = filter (fun e => e.1 ∉ blk_id <$> l) (live w).
Proof.
  revert w. induction l as [|b l IH]; intros w Hnd Hl Hin.
  - exists w. repeat split. clear. induction (live w) as [|e l IH]; [done|].
    rewrite filter_cons_True by apply not_elem_of_nil. by f_equal.
  - cbn [free_blocks]. unfold mbind', free. rewrite bool_decide_eq_true_2 by (apply Hin; by left).
    cbn [fmap list_fmap] in Hl. apply NoDup_cons in Hl as [Hb Hl].
    destruct (IH (mkWorld (arena w) (nmalloc w) (filter (fun e => e.1 <> blk_id b) (live w)))) as (w' & Hr & Ha & Hm & Hlv); simpl.
    + eapply sublist_NoDup; [exact Hnd|]. apply fmap_sublist. apply sublist_filter.
    + done.
    + intros b' Hb'. assert (Hlive : blk_id b' ∈ (live w).*1) by (apply Hin; by right).
      apply list_elem_of_fmap in Hlive as (e & He & Hel). apply list_elem_of_fmap. exists e. split; [done|].
      apply list_elem_of_filter. split; [|done]. rewrite <- He. intros Heq. apply Hb. rewrite <- Heq.
      by apply list_elem_of_fmap_2.
    + exists w'. repeat split; [done..|]. rewrite Hlv. simpl. rewrite list_filter_filter.
      apply list_filter_iff. intros e. cbn [fmap list_fmap]. rewrite not_elem_of_cons. tauto.
Qed.

Lemma inv_empty w : arena w = new_arena default_options -> live w = [] -> inv w [].
Proof.
  intros Ha Hl. split; rewrite ?Ha, ?Hl; simpl;
    first [done | lia | apply perm_nil | apply NoDup_nil_2 | apply Forall_nil_2].
Qed.

Lemma arena_clear_spec w rs : inv w rs -> exists w', clear w = Some (tt, w') /\ inv w' [] /\ live w' = [].
Proof.
  intros [Hb Hf Hnd _ _ _ _ _]. unfold clear, mbind', mget, mmod, swap, destroy.
  set (a := arena w) in *. set (w1 := set_arena _ w).
  assert (Hall : free_blocks (blocks a) w1 =
    match free_blocks (match _cur_block a with Some c => [c] | None => [] end) w1 with
    | Some (_, s') => free_blocks (_isolated_blocks a) s' | None => None end).
  { unfold blocks. destruct (_cur_block a) as [c|]; [|done]. cbn [free_blocks]. unfold mbind', mret.
    by destruct (free (blk_id c) w1) as [[[] ?]|]. }
  unfold mbind'. rewrite <- Hall.
  destruct (free_blocks_spec (blocks a) w1) as (w' & Hr & Ha & Hm & Hl).
  - done.
  - by rewrite Hb.
  - intros b Hin. simpl. rewrite <- Hb. by apply list_elem_of_fmap_2.
  - assert (Hlive : live w' = []).
    { rewrite Hl. simpl. destruct (filter _ (live w)) as [|e l] eqn:Ef; [done|].
      assert (He : e ∈ e :: l) by left. rewrite <- Ef in He. apply list_elem_of_filter in He as [Hn He].
      destruct Hn. rewrite Hb. by apply list_elem_of_fmap_2. }
    exists w'. rewrite Hr. split; [done|]. split; [|done]. by apply inv_empty.
Qed.

(** The sizes asked for since the last [clear], the latest first, after those of [l]. *)
Definition requested_by (l : list Z) (o : op) : list Z := match o with Allocate n => n :: l | Clear => [] end.
Definition requested (ops : list op) (l : list Z) : list Z := fold_left requested_by ops l.
Definition sizes (rs : list region) : list Z := (fun r : region => r.2) <$> rs.

Lemma step_spec malloc_ok o w rs :
  memory malloc_ok -> op_ok o -> inv w rs ->
  exists rs' w', step malloc_ok o rs w = Some (rs', w') /\ inv w' rs' /\ sizes rs' = requested_by (sizes rs) o.
Proof.
  intros Hmem Ho Hi. destruct o as [n|]; cbn [step]; unfold mbind'.
  - destruct (allocate_spec malloc_ok w rs n Hmem Hi Ho) as (id & off & w' & -> & Hi'). by eexists _, _.
  - destruct (arena_clear_spec w rs Hi) as (w' & -> & Hi' & _). by eexists _, _.
Qed.

Lemma run_spec malloc_ok ops w rs :
  memory malloc_ok -> Forall op_ok ops -> inv w rs ->
  exists rs' w', run malloc_ok ops rs w = Some (rs', w') /\ inv w' rs' /\ sizes rs' = requested ops (sizes rs).
Proof.
  intros Hmem Hops. revert w rs. induction Hops as [|o ops Ho _ IH]; intros w rs Hi; [by eexists _, _|].
  cbn [run requested fold_left]. unfold mbind'.
  destruct (step_spec malloc_ok o w rs Hmem Ho Hi) as (rs1 & w1 & -> & Hi1 & <-). by apply IH.
Qed.

(** C37: When malloc always succeeds, every sequence of clears and of allocations of 0 <= n <
    2^64 - 16 bytes on a fresh arena runs and no allocation returns NULL: the pieces handed
    out since the last clear are, in order, of exactly the sizes asked for. They lie in live
    blocks and do not overlap, and a final clear gives every block back to malloc. *)
Theorem arena_pieces_are_disjoint malloc_ok ops :
  memory malloc_ok -> Forall op_ok ops ->
  exists rs w w', run malloc_ok ops [] init = Some (rs, w) /\ sizes rs = requested ops [] /\ Forall (region_ok w) rs /\
    (forall i j r1 r2, rs !! i = Some r1 -> rs !! j = Some r2 -> i <> j -> disjoint_regions r1 r2) /\
    clear w = Some (tt, w') /\ live w' = [].
Proof.
  intros Hmem Hops.
  destruct (run_spec malloc_ok ops init [] Hmem Hops (inv_empty init eq_refl eq_refl)) as (rs & w & Hr & Hi & Hs).
  destruct (arena_clear_spec w rs Hi) as (w' & Hc & _ & Hl). exists rs, w, w'.
  split; [done|]. split; [exact Hs|]. split; [apply Hi|]. split; [apply Hi|]. done.
Qed.

(** ** What the clients of an arena rely on *)
Class ArenaOps (A : Type) := { arena_allocate : Z -> M A bool; arena_clear : M A unit }.
(** With memory available, a request of a possible size is granted. *)
Class ArenaLaws (A : Type) `{ArenaOps A} := {
  arena_inv : A -> Prop;
  arena_granted : forall n a, arena_inv a -> 0 <= n < 2 ^ 64 - header_size ->
    exists a', arena_allocate n a = Some (true, a') /\ arena_inv a';
  arena_cleared : forall a, arena_inv a -> exists a', arena_clear a = Some (tt, a') /\ arena_inv a' }.

#[export] Instance World_ops (malloc_ok : nat -> Z -> bool) : ArenaOps World := {|
  arena_allocate := fun n => let* p := allocate malloc_ok n in mret (match p with Some _ => true | None => false end);
  arena_clear := clear |}.
#[export, refine] Instance World_laws : @ArenaLaws World (World_ops (fun _ _ => true)) :=
  {| arena_inv := fun w => exists rs, inv w rs |}.
Proof.
  - intros n w [rs Hi] Hn. destruct (allocate_spec (fun _ _ => true) w rs n) as (id & off & w' & Hr & Hi'); [done..|].
    exists w'. split; [|by eexists]. cbn. unfold mbind'. by rewrite Hr.
  - intros w [rs Hi]. destruct (arena_clear_spec w rs Hi) as (w' & Hr & Hi' & _). exists w'. split; [done|by eexists].
Defined.

(** Small pieces share a block, a large one gets its own, the next block is larger. *)
Lemma arena_pieces_witness :
  exists w w', run (fun _ _ => true) [Allocate 16; Clear; Allocate 16; Allocate 16; Allocate 16; Allocate 16; Allocate 16; Allocate 1000] [] init =
    Some ([(3%nat, 0, 1000); (2%nat, 0, 16); (1%nat, 48, 16); (1%nat, 32, 16); (1%nat, 16, 16); (1%nat, 0, 16)], w) /\ clear w = Some (tt, w') /\ live w' = [].
Proof.
  destruct (arena_pieces_are_disjoint (fun _ _ => true) [Allocate 16; Clear; Allocate 16; Allocate 16; Allocate 16; Allocate 16; Allocate 16; Allocate 1000])
    as (rs & w & w' & Hr & _ & _ & _ & Hc & Hl).
  - done.
  - repeat (apply Forall_cons; split; [cbn; unfold header_size; done || lia|]). apply Forall_nil_2.
  - exists w, w'. split; [|split; assumption]. rewrite Hr. vm_compute in Hr. injection Hr as <- <-. reflexivity.
Defined.

(** When malloc fails for an outlier the null pointer is written to; for a small request
    [allocate] returns NULL. *)
Theorem large_allocation_without_memory_is_undefined n :
  16 < n -> allocate (fun _ _ => false) n init = None.
Proof.
  intros Hn. unfold allocate, allocate_in_other_blocks, mbind', mget. cbn [init arena new_arena _cur_block _block_size initial_block_size default_options].
  rewrite (proj2 (Z.ltb_lt (64 / 4) n)) by (change (64 / 4) with 16; lia). reflexivity.
Qed.

End Arena.
