(* ===== verification/RedisReply.v ===== *)
(** * Redis replies (brpc/redis_reply.h, redis_reply.cpp)

    A reply is a tree whose nodes and long strings live in an arena.  It is built by the
    Set functions and serialized, or parsed from an IOBuf that grows as data arrives: a
    parse that lacks data remembers in the arrays how far it came ([last_index]) and
    continues in the next call.  An IOBuf is its byte string, as the theorems on IOBuf
    justify.  The arena is any implementation of [ArenaOps].  [None] is undefined
    behaviour: an uninitialized or wrong member of the union, a read outside a string or
    an array, signed overflow. *)
From stdpp Require Import base list.
From Stdlib Require Import ZArith Lia Bool.
From S2P Require Import Prelude Arena IOBufSearch.

Open Scope Z_scope.
Open Scope m_scope.

Module RedisReply.
Import Arena.
Abbreviation find_sub := IOBufSearch.find_sub.

Definition bytes : Type := list Z.
Definition size (b : bytes) : Z := Z.of_nat (length b).
Definition crlf : bytes := [13; 10].

(** ** Numbers *)

(** The loop of [append_decimal] and [AppendDecimal] fills [buf[24]] from its end. *)
Fixpoint decimal_loop (n : nat) (d : Z) (buf : bytes) : option bytes :=
  match n with
  | O => None
  | S n' =>
      let q := d / 10 in
      let buf' := (d - q * 10 + 48) :: buf in
      if q =? 0 then Some buf' else decimal_loop n' q buf'
  end.
(** [IOBufAppender::append_decimal]; negating the least long overflows. *)
Definition append_decimal (d : Z) : option bytes :=
  if d =? - 2 ^ 63 then None
  else ds ← decimal_loop 24 (Z.abs d) []; Some (if d <? 0 then 45 :: ds else ds).
(** [ostream << int64_t]. *)
Definition print_int (d : Z) : option bytes :=
  ds ← decimal_loop 24 (Z.abs d) []; Some (if d <? 0 then 45 :: ds else ds).

Definition isspace (c : Z) : bool := (c =? 32) || ((9 <=? c) && (c <=? 13)).
Definition isdigit (c : Z) : bool := (48 <=? c) && (c <=? 57).
Fixpoint take_while (f : Z -> bool) (s : bytes) : bytes :=
  match s with c :: s' => if f c then c :: take_while f s' else [] | [] => [] end.
Definition digits_value (ds : bytes) : Z := foldl (fun v c => v * 10 + (c - 48)) 0 ds.
(** strtoll(s, &endptr, 10): the value and [endptr - s]. *)
Definition strtoll (s : bytes) : Z * Z :=
  let ws := length (take_while isspace s) in
  let '(neg, sg, s1) :=
    match drop ws s with
    | c :: t => if c =? 45 then (true, 1%nat, t) else if c =? 43 then (false, 1%nat, t) else (false, 0%nat, c :: t)
    | [] => (false, 0%nat, [])
    end in
  let ds := take_while isdigit s1 in
  match ds with
  | [] => (0, 0)
  | _ => let v := if neg then - digits_value ds else digits_value ds in
         (Z.max (- 2 ^ 63) (Z.min (2 ^ 63 - 1) v), Z.of_nat (ws + sg + length ds))
  end.

(** The line after a first character: [intbuf] has the first 31 bytes. *)
Inductive Number := NoCrlf | NotDecimal | Decimal (value crlf_pos : Z).
Definition read_number (buf : bytes) : Number :=
  let intbuf := take 31 buf in
  match find_sub crlf intbuf with
  | None => NoCrlf
  | Some crlf_pos =>
      let '(value, endptr) := strtoll (drop 1 intbuf) in
      if 1 + endptr =? Z.of_nat crlf_pos then Decimal value (Z.of_nat crlf_pos) else NotDecimal
  end.

(** ** Data *)
Inductive ParseError :=
  | PARSE_OK | PARSE_ERROR_TRY_OTHERS | PARSE_ERROR_NOT_ENOUGH_DATA | PARSE_ERROR_TOO_BIG_DATA
  | PARSE_ERROR_NO_RESOURCE | PARSE_ERROR_ABSOLUTELY_WRONG.
#[global] Instance ParseError_eq_dec : EqDecision ParseError.
Proof. solve_decision. Defined.

Inductive RedisReplyType :=
  | REDIS_REPLY_STRING | REDIS_REPLY_ARRAY | REDIS_REPLY_INTEGER | REDIS_REPLY_NIL | REDIS_REPLY_STATUS | REDIS_REPLY_ERROR.
#[global] Instance RedisReplyType_eq_dec : EqDecision RedisReplyType.
Proof. solve_decision. Defined.

(** The union: the member written last.  Strings include what follows them ('\0'). *)
Inductive Data (R : Type) :=
  | Integer (z : Z) | Short_str (s : bytes) | Long_str (s : bytes) | Array (last_index : Z) (replies : list R).
Arguments Integer {R}. Arguments Short_str {R}. Arguments Long_str {R}. Arguments Array {R}.
#[warnings="-register-all"]
Inductive RedisReply := mkReply (_type : RedisReplyType) (_length : Z) (_data : Data RedisReply).
Definition _type (r : RedisReply) := let 'mkReply t _ _ := r in t.
Definition _length (r : RedisReply) := let 'mkReply _ l _ := r in l.
Definition _data (r : RedisReply) := let 'mkReply _ _ d := r in d.

Definition npos : Z := -1.
Definition sizeof_short_str : Z := 16.
Definition sizeof_RedisReply : Z := 32.

(** Reading members.  [last_index] shares its bytes with the low half of [integer]. *)
Definition last_index (d : Data RedisReply) : option Z :=
  match d with Array i _ => Some i | Integer z => Some (i32 z) | _ => None end.
Definition replies (d : Data RedisReply) : option (list RedisReply) :=
  match d with Array _ l => Some l | _ => None end.
(** StringPiece(_data.short_str or _data.long_str, _length). *)
Definition string_data (len : Z) (d : Data RedisReply) : option bytes :=
  match d, len <? sizeof_short_str with
  | Short_str s, true | Long_str s, false =>
      if (0 <=? len) && (len <=? size s) then Some (take (Z.to_nat len) s) else None
  | _, _ => None
  end.

(** ** Construction and the Set functions *)
Definition Reset : RedisReply := mkReply REDIS_REPLY_NIL 0 (Array (-1) []).
Definition new_reply : RedisReply := Reset.
Definition reset_unless_nil (r : RedisReply) : RedisReply :=
  if decide (_type r = REDIS_REPLY_NIL) then r else Reset.

Definition SetNullArray (r : RedisReply) : RedisReply := mkReply REDIS_REPLY_ARRAY npos (_data (reset_unless_nil r)).
Definition SetNullString (r : RedisReply) : RedisReply := mkReply REDIS_REPLY_STRING npos (_data (reset_unless_nil r)).
Definition SetInteger (value : Z) (r : RedisReply) : RedisReply := mkReply REDIS_REPLY_INTEGER 0 (Integer value).

Section Arena.
Context {A : Type} `{ArenaOps A}.

Definition SetArray (n : Z) (r : RedisReply) : M A RedisReply :=
  let r1 := reset_unless_nil r in
  if n <? 0 then mret (mkReply REDIS_REPLY_ARRAY (_length r1) (_data r1))
  else if n =? 0 then mret (mkReply REDIS_REPLY_ARRAY 0 (_data r1))
  else
    let* ok := arena_allocate (u64 (sizeof_RedisReply * n)) in
    if negb ok then mret (mkReply REDIS_REPLY_ARRAY (_length r1) (_data r1))
    else
      let* i := mlift (last_index (_data r1)) in
      mret (mkReply REDIS_REPLY_ARRAY n (Array i (replicate (Z.to_nat n) new_reply))).

Definition SetStringImpl (str : bytes) (type : RedisReplyType) (r : RedisReply) : M A RedisReply :=
  let r1 := reset_unless_nil r in
  let sz := size str in
  if sz <? sizeof_short_str then mret (mkReply type (i32 sz) (Short_str (str ++ [0])))
  else
    let* ok := arena_allocate (u64 ((sz / 8 + 1) * 8)) in
    if negb ok then mret r1
    else mret (mkReply type (i32 sz) (Long_str (str ++ [0]))).
Definition SetStatus (str : bytes) := SetStringImpl str REDIS_REPLY_STATUS.
Definition SetError (str : bytes) := SetStringImpl str REDIS_REPLY_ERROR.
Definition SetString (str : bytes) := SetStringImpl str REDIS_REPLY_STRING.

(** ** Parsing *)

(** The loop over sub replies from [last_index] on: what the failed one returned, the
    replies, how many were finished, and the rest of the buffer. *)
Fixpoint consume_subs (consume1 : RedisReply -> bytes -> M A (ParseError * RedisReply * bytes))
  (subs : list RedisReply) (buf : bytes) : M A (ParseError * list RedisReply * Z * bytes) :=
  match subs with
  | [] => mret (PARSE_OK, [], 0, buf)
  | s :: subs' =>
      let* res := consume1 s buf in
      let '(err, s', buf1) := res in
      if decide (err = PARSE_OK) then
        let* res' := consume_subs consume1 subs' buf1 in
        let '(err', l, n, buf2) := res' in
        mret (err', s' :: l, n + 1, buf2)
      else mret (err, s' :: subs', 0, buf1)
  end.

(** Goes on with an array from sub reply [i]; [len] is the bound of the loop. *)
Definition consume_array (consume1 : RedisReply -> bytes -> M A (ParseError * RedisReply * bytes))
  (_length len i : Z) (subs : list RedisReply) (buf : bytes) : M A (ParseError * RedisReply * bytes) :=
  if (len <=? i) || (len <=? Z.of_nat (length subs)) then
    let* res := consume_subs consume1 (take (Z.to_nat (len - i)) (drop (Z.to_nat i) subs)) buf in
    let '(err, l, n, buf') := res in
    let subs' := take (Z.to_nat i) subs ++ l ++ drop (Z.to_nat (Z.max i len)) subs in
    let i' := if decide (err = PARSE_OK) then -1 else i + n in
    mret (err, mkReply REDIS_REPLY_ARRAY _length (Array i' subs'), buf')
  else ub.

Definition string_type (fc : Z) : RedisReplyType := if fc =? 45 then REDIS_REPLY_ERROR else REDIS_REPLY_STATUS.

(** "-<message>\r\n" and "+<string>\r\n". *)
Definition consume_simple (fc : Z) (r : RedisReply) (buf : bytes) : M A (ParseError * RedisReply * bytes) :=
  match find_sub crlf buf with
  | None => mret (if 2 ^ 32 - 1 <? size buf then PARSE_ERROR_ABSOLUTELY_WRONG else PARSE_ERROR_NOT_ENOUGH_DATA, r, buf)
  | Some p =>
      let str := take p buf in
      let buf' := drop (p + 2) buf in
      let len := size str - 1 in
      if len <? sizeof_short_str then
        mret (PARSE_OK, mkReply (string_type fc) (i32 len) (Short_str (drop 1 str ++ [0])), buf')
      else
        let* ok := arena_allocate (u64 ((len / 8 + 1) * 8)) in
        if negb ok then mret (PARSE_ERROR_ABSOLUTELY_WRONG, r, buf')
        else mret (PARSE_OK, mkReply (string_type fc) (i32 len) (Long_str (drop 1 str ++ [0])), buf')
  end.

(** The bytes of a bulk string and the CRLF after them, once all are there. *)
Definition consume_bulk (len : Z) (d : bytes -> Data RedisReply) (buf : bytes) : ParseError * RedisReply * bytes :=
  let r' := mkReply REDIS_REPLY_STRING (i32 len) (d (take (Z.to_nat len) buf ++ [0])) in
  let buf1 := drop (Z.to_nat len) buf in
  if bool_decide (take 2 buf1 = crlf) then (PARSE_OK, r', drop 2 buf1)
  else (PARSE_ERROR_ABSOLUTELY_WRONG, r', drop 2 buf1).

(** "$<length>\r\n<string>\r\n" after its number was read. *)
Definition consume_string (len crlf_pos : Z) (r : RedisReply) (buf : bytes) : M A (ParseError * RedisReply * bytes) :=
  let buf1 := drop (Z.to_nat (crlf_pos + 2)) buf in
  if len <? 0 then mret (PARSE_OK, mkReply REDIS_REPLY_NIL 0 (Integer 0), buf1)
  else if 2 ^ 32 - 1 <? len then mret (PARSE_ERROR_ABSOLUTELY_WRONG, r, buf)
  else if size buf <? crlf_pos + 2 + len + 2 then mret (PARSE_ERROR_NOT_ENOUGH_DATA, r, buf)
  else if len <? sizeof_short_str then mret (consume_bulk len Short_str buf1)
  else
    let* ok := arena_allocate (u64 ((len / 8 + 1) * 8)) in
    if negb ok then mret (PARSE_ERROR_ABSOLUTELY_WRONG, r, buf)
    else mret (consume_bulk len Long_str buf1).

(** A reply from its first byte on; [consume1] is [ConsumePartialIOBuf] for the sub replies. *)
Definition parse_reply (consume1 : RedisReply -> bytes -> M A (ParseError * RedisReply * bytes)) (r : RedisReply) (buf : bytes)
  : M A (ParseError * RedisReply * bytes) :=
  match buf with
  | [] => mret (PARSE_ERROR_NOT_ENOUGH_DATA, r, buf)
  | fc :: _ =>
      if (fc =? 45) || (fc =? 43) then consume_simple fc r buf
      else if (fc =? 36) || (fc =? 42) || (fc =? 58) then
        match read_number buf with
        | NoCrlf => mret (PARSE_ERROR_NOT_ENOUGH_DATA, r, buf)
        | NotDecimal => mret (PARSE_ERROR_ABSOLUTELY_WRONG, r, buf)
        | Decimal value crlf_pos =>
            let buf1 := drop (Z.to_nat (crlf_pos + 2)) buf in
            if fc =? 58 then mret (PARSE_OK, mkReply REDIS_REPLY_INTEGER 0 (Integer value), buf1)
            else if fc =? 36 then consume_string value crlf_pos r buf
            else
              let count := value in
              if count <? 0 then mret (PARSE_OK, mkReply REDIS_REPLY_NIL 0 (Integer 0), buf1)
              else if count =? 0 then mret (PARSE_OK, mkReply REDIS_REPLY_ARRAY 0 (Array (-1) []), buf1)
              else if 2 ^ 32 - 1 <? count then mret (PARSE_ERROR_ABSOLUTELY_WRONG, r, buf)
              else
                let* ok := arena_allocate (u64 (sizeof_RedisReply * count)) in
                if negb ok then mret (PARSE_ERROR_ABSOLUTELY_WRONG, r, buf)
                else consume_array consume1 (i32 count) count 0 (replicate (Z.to_nat count) new_reply) buf1
        end
      else mret (PARSE_ERROR_ABSOLUTELY_WRONG, r, buf)
  end.

(** [ConsumePartialIOBuf]; [fuel] bounds the nesting. *)
Fixpoint consume (fuel : nat) (r : RedisReply) (buf : bytes) : M A (ParseError * RedisReply * bytes) :=
  match fuel with
  | O => ub
  | S fuel' =>
      if decide (_type r = REDIS_REPLY_ARRAY) then
        let* i := mlift (last_index (_data r)) in
        if 0 <=? i then
          let* subs := mlift (replies (_data r)) in
          consume_array (consume fuel') (_length r) (_length r) i subs buf
        else parse_reply (consume fuel') r buf
      else parse_reply (consume fuel') r buf
  end.

Fixpoint depth (r : RedisReply) : nat :=
  match r with mkReply _ _ (Array _ l) => foldr Nat.max O (map (fun x => S (depth x)) l) | _ => O end.
Definition ConsumePartialIOBuf (r : RedisReply) (buf : bytes) : M A (ParseError * RedisReply * bytes) :=
  consume (S (length buf + depth r)) r buf.

(** ** Copying *)

(** [subs[i].CopyFromDifferentArena(other.replies[i])] for the first [n] of them. *)
Fixpoint copy_subs (copy1 : RedisReply -> RedisReply -> M A RedisReply) (l : list RedisReply) (n : nat) (subs : list RedisReply)
  : M A (list RedisReply) :=
  match l, n, subs with
  | _, O, _ => mret subs
  | o :: l', S n', s :: subs' =>
      let* s1 := copy1 o s in
      let* rest := copy_subs copy1 l' n' subs' in
      mret (s1 :: rest)
  | _, _, _ => ub
  end.

(** The bytes that memcpy copies with the terminating '\0'. *)
Definition string_with_nul (len : Z) (d : Data RedisReply) : option bytes :=
  match d, len <? sizeof_short_str with
  | Short_str s, true | Long_str s, false => if len + 1 <=? size s then Some (take (Z.to_nat (len + 1)) s) else None
  | _, _ => None
  end.

Fixpoint CopyFromDifferentArena (other r : RedisReply) : M A RedisReply :=
  match other with
  | mkReply t len d =>
      match t with
      | REDIS_REPLY_ARRAY =>
          let* ok := arena_allocate (u64 (sizeof_RedisReply * len)) in
          if negb ok then mret (mkReply t len (_data r))
          else
            let* i := mlift (last_index d) in
            let n := Z.to_nat (if 0 <? i then i else len) in
            let fresh := replicate (Z.to_nat len) new_reply in
            match d, n with
            | _, O => mret (mkReply t len (Array i fresh))
            | Array _ l, _ =>
                let* subs := copy_subs CopyFromDifferentArena l n fresh in
                mret (mkReply t len (Array i subs))
            | _, _ => ub
            end
      | REDIS_REPLY_INTEGER => match d with Integer z => mret (mkReply t len (Integer z)) | _ => ub end
      | REDIS_REPLY_NIL => mret (mkReply t len (_data r))
      | _ =>
          if len <? sizeof_short_str then
            if len + 1 =? 0 then mret (mkReply t len (_data r))
            else let* s := mlift (string_with_nul len d) in mret (mkReply t len (Short_str s))
          else if 2 ^ 31 <=? (len / 8 + 1) * 8 then ub
          else
            let* ok := arena_allocate (u64 ((len / 8 + 1) * 8)) in
            if negb ok then mret (mkReply t len (_data r))
            else let* s := mlift (string_with_nul len d) in mret (mkReply t len (Long_str s))
      end
  end.
End Arena.

(** ** Serialization *)
Definition append_number (fc d : Z) (out : bytes) : option bytes :=
  ds ← append_decimal d; Some (out ++ fc :: ds ++ crlf).

(** The first [n] sub replies, until one fails. *)
Fixpoint serialize_subs (serialize1 : RedisReply -> bytes -> option (bool * bytes)) (l : list RedisReply) (n : nat) (o : bytes)
  : option (bool * bytes) :=
  match l, n with
  | _, O => Some (true, o)
  | x :: l', S n' => '(ok, o') ← serialize1 x o; if ok : bool then serialize_subs serialize1 l' n' o' else Some (false, o')
  | [], S _ => None
  end.

Fixpoint SerializeTo (r : RedisReply) (out : bytes) : option (bool * bytes) :=
  match r with
  | mkReply t len d =>
      match t with
      | REDIS_REPLY_ERROR | REDIS_REPLY_STATUS =>
          s ← string_data len d;
          Some (true, out ++ (if decide (t = REDIS_REPLY_ERROR) then 45 else 43) :: s ++ crlf)
      | REDIS_REPLY_INTEGER =>
          match d with Integer z => o ← append_number 58 z out; Some (true, o) | _ => None end
      | REDIS_REPLY_STRING =>
          o ← append_number 36 len out;
          if len =? npos then Some (true, o)
          else s ← string_data len d; Some (true, o ++ s ++ crlf)
      | REDIS_REPLY_ARRAY =>
          o ← append_number 42 len out;
          if len <=? 0 then Some (true, o)
          else
            match d with
            | Array _ l => serialize_subs SerializeTo l (Z.to_nat len) o
            | _ => None
            end
      | REDIS_REPLY_NIL => Some (false, out)
      end
  end.

(** ** Printing *)
Definition hex_digit (d : Z) : Z := if d <? 10 then d + 48 else d - 10 + 65.
(** [RedisStringPrinter::Print]; [pending] is the part of the string not flushed yet. *)
Fixpoint print_string (s pending : bytes) : bytes :=
  match s with
  | [] => pending
  | c :: s' =>
      if i8 c <=? 0 then pending ++ [92; 117; 48; 48; hex_digit (Z.land c 15); hex_digit (Z.shiftr c 4)] ++ print_string s' []
      else if (c =? 34) || (c =? 92) then pending ++ [92; c] ++ print_string s' []
      else print_string s' (pending ++ [c])
  end.

Fixpoint print_subs (print1 : RedisReply -> option bytes) (l : list RedisReply) (n : nat) (first : bool) : option bytes :=
  match l, n with
  | _, O => Some []
  | x :: l', S n' =>
      p ← print1 x; o ← print_subs print1 l' n' false;
      Some ((if first then [] else [44; 32]) ++ p ++ o)
  | [], S _ => None
  end.

Fixpoint Print (r : RedisReply) : option bytes :=
  match r with
  | mkReply t len d =>
      match t with
      | REDIS_REPLY_STRING => s ← string_data len d; Some ([34] ++ print_string s [] ++ [34])
      | REDIS_REPLY_ARRAY =>
          if len <=? 0 then Some [91; 93]
          else match d with
               | Array _ l =>
                   o ← print_subs Print l (Z.to_nat len) true;
                   Some ([91] ++ o ++ [93])
               | _ => None
               end
      | REDIS_REPLY_INTEGER =>
          match d with
          | Integer z => ds ← print_int z; Some ([40; 105; 110; 116; 101; 103; 101; 114; 41; 32] ++ ds)
          | _ => None
          end
      | REDIS_REPLY_NIL => Some [40; 110; 105; 108; 41]
      | REDIS_REPLY_ERROR => s ← string_data len d; Some ([40; 101; 114; 114; 111; 114; 41; 32] ++ print_string s [])
      | REDIS_REPLY_STATUS => s ← string_data len d; Some (print_string s [])
      end
  end.

(** ** Reading *)
Definition is_nil (r : RedisReply) : bool := bool_decide (_type r = REDIS_REPLY_NIL) || (_length r =? npos).
Definition is_error (r : RedisReply) : bool := bool_decide (_type r = REDIS_REPLY_ERROR).
Definition is_integer (r : RedisReply) : bool := bool_decide (_type r = REDIS_REPLY_INTEGER).
Definition is_string (r : RedisReply) : bool :=
  bool_decide (_type r = REDIS_REPLY_STRING) || bool_decide (_type r = REDIS_REPLY_STATUS).
Definition is_array (r : RedisReply) : bool := bool_decide (_type r = REDIS_REPLY_ARRAY).
Definition integer (r : RedisReply) : option Z :=
  if is_integer r then match _data r with Integer z => Some z | _ => None end else Some 0.
Definition data (r : RedisReply) : option bytes := if is_string r then string_data (_length r) (_data r) else Some [].
Definition error_message (r : RedisReply) : option bytes := if is_error r then string_data (_length r) (_data r) else Some [].
Definition reply_size (r : RedisReply) : Z := u64 (_length r).
(** [operator[]]: the nil reply when there is no such element. *)
Definition at_index (r : RedisReply) (index : Z) : option RedisReply :=
  if is_array r && (index <? u64 (_length r))
  then l ← replies (_data r); l !! Z.to_nat index
  else Some new_reply.

End RedisReply.
