(* ===== verification/RedisReplySpec.v ===== *)
(** * Redis replies: what is sent is what is received

    [value] is what a reply means; [encode] is the redis protocol.  A reply that a server
    builds and serializes is parsed by the client to the same value, however the bytes
    are cut into pieces on their way. *)
From stdpp Require Import base list.
From Stdlib Require Import ZArith Lia Bool.
From S2P Require Import Prelude Arena IOBufSearch RedisReply.

Open Scope Z_scope.
Open Scope m_scope.

Module RedisReplySpec.
Import Arena RedisReply.

(** ** Numbers *)
Definition digits (d : Z) (ds : bytes) : Prop :=
  ds <> [] /\ Forall (fun c => 48 <= c <= 57) ds /\ digits_value ds = d.

Lemma foldl_digits ds v : foldl (fun v c => v * 10 + (c - 48)) v ds = v * 10 ^ size ds + digits_value ds.
Proof.
  unfold digits_value, size. revert v. induction ds as [|c ds IH]; intros v; [simpl; lia|].
  cbn [foldl length]. rewrite (IH (v * 10 + (c - 48))), (IH (0 * 10 + (c - 48))), Nat2Z.inj_succ, Z.pow_succ_r by lia. lia.
Qed.
Lemma digits_value_cons c ds : digits_value (c :: ds) = (c - 48) * 10 ^ size ds + digits_value ds.
Proof. unfold digits_value at 1. cbn [foldl]. rewrite foldl_digits. lia. Qed.

Lemma decimal_loop_spec n d buf :
  0 <= d < 10 ^ Z.of_nat n -> (0 < n)%nat -> Forall (fun c => 48 <= c <= 57) buf ->
  exists ds, decimal_loop n d buf = Some ds /\ ds <> [] /\ Forall (fun c => 48 <= c <= 57) ds /\
    digits_value ds = d * 10 ^ size buf + digits_value buf /\ size ds <= size buf + Z.of_nat n.
Proof.
  revert d buf. induction n as [|n IH]; intros d buf Hd Hn Hbuf; [lia|]. cbn [decimal_loop].
  rewrite Nat2Z.inj_succ, Z.pow_succ_r in Hd by lia.
  set (c := d - d / 10 * 10 + 48). assert (Hc : 48 <= c <= 57) by (subst c; Z.to_euclidean_division_equations; lia).
  assert (Hs : size (c :: buf) = size buf + 1) by (unfold size; simpl length; lia).
  destruct (Z.eqb_spec (d / 10) 0) as [Hq|Hq].
  - exists (c :: buf). split; [done|]. split; [done|]. split; [by constructor|].
    rewrite digits_value_cons. subst c. split; [|lia]. replace (d - d / 10 * 10 + 48 - 48) with d by lia. done.
  - assert (0 < Z.of_nat n) by (destruct n; [simpl in Hd; Z.to_euclidean_division_equations; lia|lia]).
    destruct (IH (d / 10) (c :: buf)) as (ds & -> & Hne & Hds & Hv & Hl).
    + split; [apply Z.div_pos; lia|]. apply Z.div_lt_upper_bound; lia.
    + lia.
    + by constructor.
    + exists ds. repeat split; [done..| |lia]. rewrite Hv, Hs, Z.pow_add_r, digits_value_cons by (unfold size; lia).
      subst c. lia.
Qed.

(** The decimal text of a long. *)
Definition decimal (z : Z) (s : bytes) : Prop :=
  exists ds, digits (Z.abs z) ds /\ s = (if z <? 0 then 45 :: ds else ds) /\ size s <= 25.

Lemma append_decimal_spec z : - 2 ^ 63 < z < 2 ^ 63 -> exists s, append_decimal z = Some s /\ decimal z s.
Proof.
  intros Hz. unfold append_decimal. rewrite (proj2 (Z.eqb_neq _ _)) by lia.
  destruct (decimal_loop_spec 24 (Z.abs z) []) as (ds & -> & Hne & Hds & Hv & Hl); [|lia|constructor|].
  { change (10 ^ Z.of_nat 24) with 1000000000000000000000000. lia. }
  exists (if z <? 0 then 45 :: ds else ds). split; [done|]. exists ds.
  split; [split; [done|]; split; [done|]; rewrite Hv; unfold size; simpl; unfold digits_value; simpl; lia|].
  split; [done|]. unfold size in *. destruct (z <? 0); simpl in *; lia.
Qed.

Lemma take_while_all (f : Z -> bool) ds c s :
  Forall (fun x => f x = true) ds -> f c = false -> take_while f (ds ++ c :: s) = ds.
Proof. intros Hds Hc. induction Hds as [|x ds Hx _ IH]; simpl; [by rewrite Hc|]. rewrite Hx. by f_equal. Qed.

Lemma isdigit_true c : 48 <= c <= 57 -> isdigit c = true.
Proof. unfold isdigit. lia. Qed.
Lemma isspace_false c : 33 <= c -> isspace c = false.
Proof. unfold isspace. lia. Qed.

Lemma strtoll_decimal z s rest :
  - 2 ^ 63 < z < 2 ^ 63 -> decimal z s -> strtoll (s ++ crlf ++ rest) = (z, size s).
Proof.
  intros Hz (ds & (Hne & Hds & Hv) & -> & _). unfold strtoll.
  assert (Hd : take_while isdigit (ds ++ crlf ++ rest) = ds).
  { apply take_while_all; [|done]. eapply Forall_impl; [exact Hds|]. intros; by apply isdigit_true. }
  destruct ds as [|d ds]; [done|]. apply Forall_cons in Hds as Hds'. destruct Hds' as [Hd1 _].
  destruct (Z.ltb_spec z 0) as [Hn|Hn].
  - rewrite <- !app_comm_cons in *. cbn [take_while]. rewrite (isspace_false 45) by lia. cbn [length drop Z.eqb Pos.eqb].
    rewrite Hd, Hv. apply (f_equal2 pair); [lia|]. unfold size. simpl. lia.
  - rewrite <- !app_comm_cons in *. cbn [take_while]. rewrite isspace_false by lia. cbn [length drop].
    rewrite !(proj2 (Z.eqb_neq d _)) by lia. cbn [take_while] in Hd. cbn [take_while]. rewrite Hd, Hv.
    apply (f_equal2 pair); [lia|]. unfold size. simpl. lia.
Qed.

(** ** Lines *)
Lemma find_sub_app d b t p : find_sub d b = Some p -> find_sub d (b ++ t) = Some p.
Proof.
  revert p. induction b as [|c b IH]; intros p Hf.
  - apply IOBufSearch.find_sub_bound in Hf as Hl. simpl in Hl. destruct d; [|simpl in Hl; lia]. simpl in *.
    injection Hf as <-. by destruct t.
  - pose proof (IOBufSearch.find_sub_bound _ _ _ Hf) as Hb.
    cbn [app IOBufSearch.find_sub] in *. rewrite app_comm_cons, take_app_le by lia.
    case_bool_decide; [done|]. destruct (find_sub d b) as [q|]; [|done]. by rewrite (IH q eq_refl).
Qed.
Lemma find_crlf s rest : find_sub crlf s = None -> find_sub crlf (s ++ crlf ++ rest) = Some (length s).
Proof.
  induction s as [|c s IH]; intros Hs; [done|]. cbn [app IOBufSearch.find_sub length] in *.
  case_bool_decide as Hc; [done|]. rewrite bool_decide_eq_false_2.
  - destruct (find_sub crlf s); [done|]. by rewrite IH.
  - intros Heq. apply Hc. unfold crlf in *. destruct s as [|x s]; simpl in *; [congruence|done].
Qed.
Lemma find_crlf_prefix b t s : find_sub crlf s = None -> b ++ t = s ++ crlf -> t <> [] -> find_sub crlf b = None.
Proof.
  intros Hs Heq Ht. destruct (find_sub crlf b) as [p|] eqn:Hp; [|done].
  pose proof (IOBufSearch.find_sub_bound _ _ _ Hp) as Hb. apply (find_sub_app _ _ t) in Hp. rewrite Heq in Hp.
  pose proof (find_crlf s [] Hs) as Hf. rewrite app_nil_r in Hf. rewrite Hf in Hp. injection Hp as <-.
  apply (f_equal length) in Heq. rewrite !length_app in Heq. destruct t; [done|]. simpl in *. lia.
Qed.
Lemma no_cr_no_crlf s : Forall (fun c => c <> 13) s -> find_sub crlf s = None.
Proof.
  induction 1 as [|c s Hc _ IH]; [done|]. cbn [IOBufSearch.find_sub]. rewrite IH, bool_decide_eq_false_2; [done|].
  unfold crlf. simpl. congruence.
Qed.
Lemma decimal_no_cr z s : decimal z s -> Forall (fun c => c <> 13) s.
Proof.
  intros (ds & (_ & Hds & _) & -> & _). assert (Forall (fun c => c <> 13) ds) by (eapply Forall_impl; [exact Hds|]; simpl; lia).
  destruct (z <? 0); [by constructor|done].
Qed.

Lemma read_number_decimal fc z s rest :
  fc <> 13 -> - 2 ^ 63 < z < 2 ^ 63 -> decimal z s -> read_number (fc :: s ++ crlf ++ rest) = Decimal z (size s + 1).
Proof.
  intros Hfc Hz Hs. unfold read_number.
  assert (Hl : (length s <= 25)%nat) by (destruct Hs as (? & _ & _ & Hl); unfold size in Hl; lia).
  assert (Ht : take 31 (fc :: s ++ crlf ++ rest) = (fc :: s) ++ crlf ++ take (28 - length s) rest).
  { cbn [take app]. f_equal. rewrite take_app_ge by lia. f_equal. rewrite take_app_ge by (simpl; lia). f_equal. f_equal. simpl. lia. }
  rewrite Ht, find_crlf.
  - cbn [drop app]. rewrite drop_0, (strtoll_decimal z) by done. cbn [length].
    rewrite (proj2 (Z.eqb_eq _ _)) by (unfold size; lia). f_equal. unfold size. lia.
  - apply no_cr_no_crlf. constructor; [done|]. by eapply decimal_no_cr.
Qed.
Lemma read_number_partial fc z s b t :
  fc <> 13 -> decimal z s -> b ++ t = fc :: s ++ crlf -> t <> [] -> read_number b = NoCrlf.
Proof.
  intros Hfc Hs Heq Ht. unfold read_number. rewrite (find_crlf_prefix _ (drop 31 b ++ t) (fc :: s)); [done|..].
  - apply no_cr_no_crlf. constructor; [done|]. by eapply decimal_no_cr.
  - rewrite app_assoc, take_drop. done.
  - by destruct (drop 31 b).
Qed.

(** ** Values and the protocol *)
#[warnings="-register-all"]
Inductive value :=
  | VStatus (s : bytes) | VError (s : bytes) | VInteger (z : Z) | VString (s : bytes)
  | VNullString | VNullArray | VNil | VArray (vs : list value).

Section ValueInd.
Context (P : value -> Prop).
Context (Hstatus : forall s, P (VStatus s)) (Herror : forall s, P (VError s)) (Hint : forall z, P (VInteger z))
  (Hstring : forall s, P (VString s)) (Hns : P VNullString) (Hna : P VNullArray) (Hnil : P VNil)
  (Harray : forall vs, Forall P vs -> P (VArray vs)).
Fixpoint value_ind' (v : value) : P v :=
  match v with
  | VStatus s => Hstatus s | VError s => Herror s | VInteger z => Hint z | VString s => Hstring s
  | VNullString => Hns | VNullArray => Hna | VNil => Hnil
  | VArray vs => Harray vs ((fix go l : Forall P l := match l with [] => Forall_nil_2 _ | x :: l' => Forall_cons_2 _ _ _ (value_ind' x) (go l') end) vs)
  end.
End ValueInd.

(** What can be sent: no nil, simple strings of one line, lengths and numbers that fit. *)
#[warnings="-register-all"]
Inductive sendable : value -> Prop :=
  | send_status s : find_sub crlf s = None -> size s < 2 ^ 31 - 8 -> sendable (VStatus s)
  | send_error s : find_sub crlf s = None -> size s < 2 ^ 31 - 8 -> sendable (VError s)
  | send_integer z : - 2 ^ 63 < z < 2 ^ 63 -> sendable (VInteger z)
  | send_string s : size s < 2 ^ 31 - 8 -> sendable (VString s)
  | send_null_string : sendable VNullString
  | send_null_array : sendable VNullArray
  | send_array vs : Forall sendable vs -> Z.of_nat (length vs) < 2 ^ 31 -> sendable (VArray vs).

(** What is received: both nulls become nil. *)
Fixpoint received (v : value) : value :=
  match v with VNullString | VNullArray => VNil | VArray vs => VArray (map received vs) | _ => v end.

(** The meaning of a reply. *)
Fixpoint value_of (r : RedisReply) : option value :=
  match r with
  | mkReply t len d =>
      match t with
      | REDIS_REPLY_STATUS => VStatus <$> string_data len d
      | REDIS_REPLY_ERROR => VError <$> string_data len d
      | REDIS_REPLY_INTEGER => match d with Integer z => Some (VInteger z) | _ => None end
      | REDIS_REPLY_STRING => if len =? npos then Some VNullString else VString <$> string_data len d
      | REDIS_REPLY_NIL => Some VNil
      | REDIS_REPLY_ARRAY =>
          if len =? npos then Some VNullArray
          else if len =? 0 then Some (VArray [])
          else match d with
               | Array _ l => if Z.of_nat (length l) =? len then VArray <$> mapM value_of l else None
               | _ => None
               end
      end
  end.

(** The redis protocol. *)
Definition dec (z : Z) : bytes := default [] (append_decimal z).
Fixpoint encode (v : value) : bytes :=
  match v with
  | VStatus s => 43 :: s ++ crlf
  | VError s => 45 :: s ++ crlf
  | VInteger z => 58 :: dec z ++ crlf
  | VString s => 36 :: dec (size s) ++ crlf ++ s ++ crlf
  | VNullString => 36 :: dec npos ++ crlf
  | VNullArray => 42 :: dec npos ++ crlf
  | VNil => []
  | VArray vs => 42 :: dec (Z.of_nat (length vs)) ++ crlf ++ concat (map encode vs)
  end.

Lemma dec_spec z : - 2 ^ 63 < z < 2 ^ 63 -> append_decimal z = Some (dec z) /\ decimal z (dec z).
Proof. intros Hz. unfold dec. destruct (append_decimal_spec z Hz) as (s & -> & Hs). done. Qed.
Lemma encode_nonempty v : sendable v -> encode v <> [].
Proof. by destruct 1. Qed.

Lemma stored_string s t : size s < 2 ^ 31 - 8 ->
  string_data (i32 (size s)) (if size s <? sizeof_short_str then Short_str (s ++ [0]) else Long_str (s ++ [0])) = Some s /\
  value_of (mkReply REDIS_REPLY_STRING (i32 (size s)) t) = VString <$> string_data (i32 (size s)) t.
Proof.
  intros Hs. assert (0 <= size s) by (unfold size; lia). rewrite i32_small by lia.
  assert (Hsz : size (s ++ [0]) = size s + 1) by (unfold size; rewrite length_app; simpl; lia).
  split.
  - unfold string_data. destruct (size s <? sizeof_short_str);
      rewrite Hsz, (proj2 (Z.leb_le 0 _)), (proj2 (Z.leb_le (size s) _)) by lia;
      unfold size; rewrite Nat2Z.id; simpl; by rewrite take_app_length.
  - cbn [value_of]. rewrite (proj2 (Z.eqb_neq _ npos)) by (unfold npos; lia). done.
Qed.

(** ** Parsing *)
Section Parse.
Context {A : Type} `{ArenaLaws A}.
Implicit Types (a : A).

Definition complete (r : RedisReply) (v : value) : Prop := value_of r = Some (received v).
(** A reply that does not continue an array. *)
Definition starts (r : RedisReply) : Prop :=
  _type r = REDIS_REPLY_ARRAY -> exists i, last_index (_data r) = Some i /\ i < 0.
(** [r] has consumed a prefix of [v]; the bytes [t] are to come. *)
Inductive pending : RedisReply -> value -> bytes -> Prop :=
  | pending_start r v : starts r -> pending r v (encode v)
  | pending_array rs us cur v vs t :
      Forall2 complete rs us -> pending cur v t ->
      pending (mkReply REDIS_REPLY_ARRAY (Z.of_nat (length us + S (length vs)))
                 (Array (Z.of_nat (length us)) (rs ++ cur :: replicate (length vs) new_reply)))
              (VArray (us ++ v :: vs)) (t ++ concat (map encode vs)).

(** The two outcomes of a call with the bytes [b] where [t] are needed. *)
Definition finishes (c : M A (ParseError * RedisReply * bytes)) (v : value) (a : A) (rest : bytes) : Prop :=
  exists r a', c a = Some ((PARSE_OK, r, rest), a') /\ complete r v /\ arena_inv a'.
Definition waits (c : M A (ParseError * RedisReply * bytes)) (v : value) (a : A) (b t2 : bytes) : Prop :=
  exists r b' a', c a = Some ((PARSE_ERROR_NOT_ENOUGH_DATA, r, b'), a') /\ pending r v (b' ++ t2) /\ arena_inv a' /\
    (length b' <= length b)%nat.
(** [c1] parses [v] on the buffers and replies that [ok] admits. *)
Definition parses_with (c1 : RedisReply -> bytes -> M A (ParseError * RedisReply * bytes)) (ok : bytes -> RedisReply -> Prop)
  (v : value) : Prop := forall r t b a,
  pending r v t -> arena_inv a -> ok b r ->
  (forall rest, b = t ++ rest -> finishes (c1 r b) v a rest) /\
  (forall t2, t = b ++ t2 -> t2 <> [] -> waits (c1 r b) v a b t2).
Definition parses (f : nat) : value -> Prop := parses_with (consume f) (fun b r => (length b + depth r < f)%nat).

Lemma waits_unchanged r b v a t2 :
  starts r -> encode v = b ++ t2 -> arena_inv a -> waits (mret (PARSE_ERROR_NOT_ENOUGH_DATA, r, b)) v a b t2.
Proof. intros Hr Hv Ha. exists r, b, a. split; [done|]. rewrite <- Hv. by repeat split; [constructor| |lia]. Qed.

Lemma find_sub_cons c s : c <> 13 -> find_sub crlf s = None -> find_sub crlf (c :: s) = None.
Proof. intros Hc Hs. cbn [IOBufSearch.find_sub]. rewrite Hs, bool_decide_eq_false_2; [done|]. unfold crlf. simpl. congruence. Qed.

(** Simple strings. *)
Lemma simple_finishes fc s r rest a (v : value) :
  fc <> 13 -> find_sub crlf s = None -> size s < 2 ^ 31 - 8 -> arena_inv a ->
  (forall d, string_data (size s) d = Some s -> complete (mkReply (string_type fc) (size s) d) v) ->
  finishes (consume_simple fc r (fc :: s ++ crlf ++ rest)) v a rest.
Proof.
  intros Hfc Hs Hsz Ha Hv. pose proof (stored_string s (Integer 0) Hsz) as [Hst _].
  assert (0 <= size s) by (unfold size; lia). rewrite i32_small in Hst by lia.
  unfold consume_simple. rewrite app_comm_cons, find_crlf by by apply find_sub_cons. cbn zeta.
  assert (Htk : take (length (fc :: s)) ((fc :: s) ++ crlf ++ rest) = fc :: s) by apply take_app_length.
  assert (Hdr : drop (length (fc :: s) + 2) ((fc :: s) ++ crlf ++ rest) = rest)
    by (rewrite drop_app_add'; [apply (drop_app_length crlf)|done]).
  rewrite Htk, Hdr. replace (size (fc :: s) - 1) with (size s) by (unfold size; simpl length; lia).
  cbn [drop]. rewrite drop_0. rewrite (i32_small (size s)) by lia.
  destruct (size s <? sizeof_short_str).
  - eexists _, a. split; [reflexivity|]. split; [by apply Hv|done].
  - destruct (arena_granted (u64 ((size s / 8 + 1) * 8)) a Ha) as (a' & Hal & Ha').
    { unfold header_size. rewrite u64_small by (Z.to_euclidean_division_equations; lia). Z.to_euclidean_division_equations; lia. }
    eexists _, a'. unfold mbind'. rewrite Hal. split; [reflexivity|]. split; [by apply Hv|done].
Qed.

(** ** Lines with a number *)
Lemma split_prefix (b t h x : bytes) : b ++ t = h ++ x ->
  (exists t3, t3 <> [] /\ b ++ t3 = h /\ t = t3 ++ x) \/ (exists b1, b = h ++ b1 /\ x = b1 ++ t).
Proof.
  intros Heq. destruct (app_eq_inv _ _ _ _ Heq) as [(k & -> & ->)|(k & -> & ->)].
  - right. exists k. done.
  - destruct k as [|c k]; [right; exists []; by rewrite !app_nil_r|]. left. exists (c :: k). done.
Qed.

Definition number_char (fc : Z) : Prop := fc = 36 \/ fc = 42 \/ fc = 58.
Lemma number_waits c1 fc z r b t3 :
  number_char fc -> - 2 ^ 63 < z < 2 ^ 63 -> b ++ t3 = fc :: dec z ++ crlf -> t3 <> [] ->
  @parse_reply A _ c1 r b = mret (PARSE_ERROR_NOT_ENOUGH_DATA, r, b).
Proof.
  intros Hfc Hz Heq Ht. destruct (dec_spec z Hz) as [_ Hd].
  assert (Hn : read_number b = NoCrlf) by (eapply read_number_partial; [|done..]; destruct Hfc as [->|[->| ->]]; lia).
  destruct b as [|c b]; [done|]. simpl in Heq. injection Heq as -> Heq. unfold parse_reply.
  destruct Hfc as [->|[->| ->]]; cbn [Z.eqb Pos.eqb orb]; by rewrite Hn.
Qed.

Lemma number_line fc z rest : number_char fc -> - 2 ^ 63 < z < 2 ^ 63 ->
  read_number (fc :: dec z ++ crlf ++ rest) = Decimal z (size (dec z) + 1) /\
  drop (Z.to_nat (size (dec z) + 1 + 2)) (fc :: dec z ++ crlf ++ rest) = rest.
Proof.
  intros Hfc Hz. split.
  - apply read_number_decimal; [|done|by apply dec_spec]. destruct Hfc as [->|[->| ->]]; lia.
  - rewrite app_comm_cons, app_assoc, drop_app_length'; [done|]. rewrite length_app. unfold size. simpl. lia.
Qed.

Lemma integer_finishes c1 z r rest a : - 2 ^ 63 < z < 2 ^ 63 -> arena_inv a ->
  finishes (parse_reply c1 r (58 :: dec z ++ crlf ++ rest)) (VInteger z) a rest.
Proof.
  intros Hz Ha. destruct (number_line 58 z rest) as [Hn Hd]; [unfold number_char; lia|done|].
  unfold parse_reply. rewrite Hn. cbn [Z.eqb Pos.eqb orb]. cbn zeta. rewrite Hd.
  eexists _, a. split; [reflexivity|]. done.
Qed.
Lemma null_finishes c1 fc r rest a : fc = 36 \/ fc = 42 -> arena_inv a ->
  finishes (parse_reply c1 r (fc :: dec npos ++ crlf ++ rest)) (if fc =? 36 then VNullString else VNullArray) a rest.
Proof.
  intros Hfc Ha. destruct (number_line fc npos rest) as [Hn Hd]; [unfold number_char; lia|unfold npos; lia|].
  unfold parse_reply. rewrite Hn.
  destruct Hfc as [->| ->]; cbn [Z.eqb Pos.eqb orb]; cbn zeta; unfold consume_string; cbn zeta; rewrite Hd;
    (eexists _, a; split; [reflexivity|]; done).
Qed.

(** Bulk strings. *)
Lemma bulk_ok s d rest : size s < 2 ^ 31 - 8 ->
  consume_bulk (size s) d (s ++ crlf ++ rest) = (PARSE_OK, mkReply REDIS_REPLY_STRING (i32 (size s)) (d (s ++ [0])), rest).
Proof.
  intros Hs. unfold consume_bulk, size. rewrite Nat2Z.id, take_app_length, drop_app_length. cbn zeta.
  by rewrite bool_decide_eq_true_2.
Qed.
Lemma string_finishes c1 s r rest a : size s < 2 ^ 31 - 8 -> arena_inv a ->
  finishes (parse_reply c1 r (36 :: dec (size s) ++ crlf ++ s ++ crlf ++ rest)) (VString s) a rest.
Proof.
  intros Hs Ha. assert (0 <= size s) by (unfold size; lia).
  destruct (number_line 36 (size s) (s ++ crlf ++ rest)) as [Hn Hd]; [unfold number_char; lia|lia|].
  unfold parse_reply. rewrite Hn. cbn [Z.eqb Pos.eqb orb]. cbn zeta. unfold consume_string. rewrite Hd.
  pose proof (stored_string s) as Hst.
  rewrite (proj2 (Z.ltb_ge (size s) 0)), (proj2 (Z.ltb_ge (2 ^ 32 - 1) _)) by lia.
  rewrite (proj2 (Z.ltb_ge (size (36 :: _)) _)) by (unfold size; cbn [length]; rewrite !length_app; simpl length; lia).
  destruct (size s <? sizeof_short_str) eqn:Esz; cbn zeta.
  - rewrite bulk_ok by done. eexists _, a. split; [reflexivity|]. split; [|done]. unfold complete.
    destruct (Hst (Short_str (s ++ [0])) Hs) as [Hsd ->]. by rewrite Hsd.
  - destruct (arena_granted (u64 ((size s / 8 + 1) * 8)) a Ha) as (a' & Hal & Ha').
    { unfold header_size. rewrite u64_small by (Z.to_euclidean_division_equations; lia). Z.to_euclidean_division_equations; lia. }
    unfold mbind'. eexists _, a'. rewrite Hal. cbn [negb]. rewrite bulk_ok by done. split; [reflexivity|]. split; [|done]. unfold complete.
    destruct (Hst (Long_str (s ++ [0])) Hs) as [Hsd ->]. by rewrite Hsd.
Qed.
Lemma string_waits c1 s r b1 t a : size s < 2 ^ 31 - 8 -> b1 ++ t = s ++ crlf -> t <> [] ->
  parse_reply c1 r (36 :: dec (size s) ++ crlf ++ b1) a = Some ((PARSE_ERROR_NOT_ENOUGH_DATA, r, 36 :: dec (size s) ++ crlf ++ b1), a).
Proof.
  intros Hs Heq Ht. assert (0 <= size s) by (unfold size; lia).
  destruct (number_line 36 (size s) b1) as [Hn _]; [unfold number_char; lia|lia|].
  unfold parse_reply. rewrite Hn. cbn [Z.eqb Pos.eqb orb]. cbn zeta. unfold consume_string.
  rewrite (proj2 (Z.ltb_ge (size s) 0)), (proj2 (Z.ltb_ge (2 ^ 32 - 1) _)) by lia.
  rewrite (proj2 (Z.ltb_lt (size (36 :: _)) _)); [done|].
  apply (f_equal length) in Heq. rewrite !length_app in Heq. assert (0 < length t)%nat by (destruct t; simpl; [done|lia]).
  unfold size in *. cbn [length]. rewrite !length_app. simpl length in *. lia.
Qed.

(** ** Arrays *)
Lemma depth_elem t len i l x : x ∈ l -> (depth x < depth (mkReply t len (Array i l)))%nat.
Proof. cbn [depth]. induction 1 as [l|y l Hx IH]; simpl; lia. Qed.

Lemma array_complete rs vs : (0 < length vs)%nat -> Forall2 complete rs vs ->
  complete (mkReply REDIS_REPLY_ARRAY (Z.of_nat (length vs)) (Array (-1) rs)) (VArray vs).
Proof.
  intros Hl Hrs. unfold complete. cbn [value_of received]. rewrite (Forall2_length _ _ _ Hrs), Z.eqb_refl.
  rewrite (proj2 (Z.eqb_neq _ npos)), (proj2 (Z.eqb_neq _ 0)) by (unfold npos; lia).
  assert (Hm : mapM value_of rs = Some (map received vs)); [|by rewrite Hm].
  apply mapM_Some. change (map received vs) with (received <$> vs). by apply Forall2_fmap_r.
Qed.

Lemma consume_subs_cons (c1 : RedisReply -> bytes -> M A (ParseError * RedisReply * bytes)) x l b :
  consume_subs c1 (x :: l) b = let* res := c1 x b in
      let '(err, s', buf1) := res in
      if decide (err = PARSE_OK) then
        let* res' := consume_subs c1 l buf1 in let '(err', l', n, buf2) := res' in mret (err', s' :: l', n + 1, buf2)
      else mret (err, s' :: l, 0, buf1).
Proof. done. Qed.

Lemma subs_spec c1 ok vs : forall cur v t b a,
  Forall (parses_with c1 ok) (v :: vs) -> pending cur v t -> arena_inv a -> ok b cur ->
  (forall b1, (length b1 <= length b)%nat -> ok b1 new_reply) ->
  (forall rest, b = t ++ concat (map encode vs) ++ rest -> exists rs a',
     consume_subs c1 (cur :: replicate (length vs) new_reply) b a = Some ((PARSE_OK, rs, Z.of_nat (S (length vs)), rest), a') /\
     Forall2 complete rs (v :: vs) /\ arena_inv a') /\
  (forall t2, t ++ concat (map encode vs) = b ++ t2 -> t2 <> [] -> exists rs us cur' v' vs' t' b' a',
     consume_subs c1 (cur :: replicate (length vs) new_reply) b a =
       Some ((PARSE_ERROR_NOT_ENOUGH_DATA, rs ++ cur' :: replicate (length vs') new_reply, Z.of_nat (length us), b'), a') /\
     v :: vs = us ++ v' :: vs' /\ Forall2 complete rs us /\ pending cur' v' t' /\ t' ++ concat (map encode vs') = b' ++ t2 /\
     arena_inv a' /\ (length b' <= length b)%nat).
Proof.
  induction vs as [|v1 vs IH]; intros cur v t b a Hp Hcur Ha Hf1 Hf2; apply Forall_cons in Hp as [Hv Hp];
    destruct (Hv cur t b a Hcur Ha Hf1) as [Hfin Hwait]; cbn [length replicate map concat]; rewrite consume_subs_cons.
  - split.
    + intros rest ->. rewrite app_nil_l in *. destruct (Hfin rest eq_refl) as (r & a' & Hc & Hr & Ha').
      exists [r], a'. unfold mbind'. rewrite Hc. split; [done|]. split; [by constructor|done].
    + intros t2 Heq Ht. rewrite app_nil_r in Heq. destruct (Hwait t2 Heq Ht) as (r & b' & a' & Hc & Hr & Ha' & Hl).
      exists [], [], r, v, [], (b' ++ t2), b', a'. unfold mbind'. rewrite Hc. cbn [concat map]. rewrite app_nil_r. by repeat split; [constructor|..].
  - assert (Hn : pending new_reply v1 (encode v1)) by (constructor; by intros ?).
    split.
    + intros rest Hb. destruct (Hfin (encode v1 ++ concat (map encode vs) ++ rest)) as (r & a1 & Hc & Hr & Ha1).
      { rewrite Hb. by rewrite <- !app_assoc. }
      set (b1 := encode v1 ++ concat (map encode vs) ++ rest) in *.
      assert (Hl : (length b1 <= length b)%nat) by (rewrite Hb; subst b1; rewrite !length_app; lia).
      assert (Hd2 : forall b2, (length b2 <= length b1)%nat -> ok b2 new_reply) by (intros; apply Hf2; lia).
      destruct (IH new_reply v1 (encode v1) b1 a1 Hp Hn Ha1 (Hf2 b1 Hl) Hd2) as [Hfin1 _].
      destruct (Hfin1 rest eq_refl) as (rs & a' & Hc1 & Hrs & Ha').
      exists (r :: rs), a'. unfold mbind'. rewrite Hc. cbn [decide]. rewrite decide_True by done. rewrite Hc1. unfold mret.
      split; [repeat f_equal; lia|]. split; [by constructor|done].
    + intros t2 Heq Ht. symmetry in Heq. destruct (split_prefix _ _ _ _ Heq) as [(t3 & Ht3 & <- & ->)|(b1 & -> & Hx)].
      * destruct (Hwait t3 eq_refl Ht3) as (r & b' & a' & Hc & Hr & Ha' & Hl).
        exists [], [], r, v, (v1 :: vs), (b' ++ t3), b', a'. unfold mbind'. rewrite Hc, decide_False by done.
        split; [done|]. split; [done|]. split; [constructor|]. split; [done|]. split; [by rewrite <- !app_assoc|]. done.
      * destruct (Hfin b1 eq_refl) as (r & a1 & Hc & Hr & Ha1).
        assert (Hl : (length b1 <= length (t ++ b1))%nat) by (rewrite length_app; lia).
        assert (Hd2 : forall b2, (length b2 <= length b1)%nat -> ok b2 new_reply) by (intros; apply Hf2; lia).
        destruct (IH new_reply v1 (encode v1) b1 a1 Hp Hn Ha1 (Hf2 b1 Hl) Hd2) as [_ Hw1].
        destruct (Hw1 t2 Hx Ht) as (rs & us & cur' & v' & vs' & t' & b' & a' & Hc1 & Hsplit & Hrs & Hp' & Heq' & Ha' & Hl').
        exists (r :: rs), (v :: us), cur', v', vs', t', b', a'. unfold mbind'. rewrite Hc, decide_True, Hc1 by done. unfold mret.
        split; [cbn [length app]; repeat f_equal; lia|]. split; [by rewrite Hsplit|]. split; [by constructor|]. repeat split; [done..|lia].
Qed.

(** Continuing an array whose first [us] are complete. *)
Lemma array_spec f rs us cur v vs t b a :
  let n := Z.of_nat (length us + S (length vs)) in
  Forall (parses f) (v :: vs) -> Forall2 complete rs us -> pending cur v t -> arena_inv a ->
  (length b + depth cur < f)%nat -> (length b < f)%nat ->
  let c := consume_array (consume f) n n (Z.of_nat (length us)) (rs ++ cur :: replicate (length vs) new_reply) b in
  (forall rest, b = t ++ concat (map encode vs) ++ rest -> finishes c (VArray (us ++ v :: vs)) a rest) /\
  (forall t2, t ++ concat (map encode vs) = b ++ t2 -> t2 <> [] -> waits c (VArray (us ++ v :: vs)) a b t2).
Proof.
  intros n Hp Hrs Hcur Ha Hf1 Hf2 c. pose proof (Forall2_length _ _ _ Hrs) as Hlen.
  destruct (subs_spec (consume f) _ vs cur v t b a Hp Hcur Ha Hf1) as [Hfin Hwait]; [intros; cbn; lia|].
  assert (Hall : length (rs ++ cur :: replicate (length vs) new_reply) = (length us + S (length vs))%nat)
    by (rewrite length_app; simpl; rewrite length_replicate; lia).
  assert (Hc : c a = (let* res := consume_subs (consume f) (cur :: replicate (length vs) new_reply) b in
    let '(err, l, k, buf') := res in
    mret (err, mkReply REDIS_REPLY_ARRAY n (Array (if decide (err = PARSE_OK) then -1 else Z.of_nat (length us) + k) (rs ++ l)), buf')) a).
  { subst c. unfold consume_array. rewrite Hall, (proj2 (Z.leb_le n (Z.of_nat (length us + S (length vs))))), orb_true_r by done.
    replace (Z.max (Z.of_nat (length us)) n) with n by lia.
    rewrite (drop_ge _ (Z.to_nat n)) by lia. replace (n - Z.of_nat (length us)) with (Z.of_nat (S (length vs))) by lia.
    rewrite !Nat2Z.id, drop_app_length', take_app_length' by done.
    rewrite take_ge by (simpl; rewrite length_replicate; lia). unfold mbind'.
    destruct (consume_subs _ _ _ a) as [[[[[err l] k] b'] a']|]; [|done]. by rewrite app_nil_r. }
  unfold finishes, waits. rewrite Hc. clear Hc c. split.
  - intros rest Hb. destruct (Hfin rest Hb) as (l & a' & Hr & Hl & Ha'). eexists _, a'. unfold mbind'. rewrite Hr.
    split; [reflexivity|]. split; [|done]. rewrite decide_True by done.
    replace n with (Z.of_nat (length (us ++ v :: vs))) by (rewrite length_app; done).
    apply array_complete; [rewrite length_app; simpl; lia|]. by apply Forall2_app.
  - intros t2 Heq Ht. destruct (Hwait t2 Heq Ht) as (rs' & us' & cur' & v' & vs' & t' & b' & a' & Hr & Hs & Hrs' & Hp' & Heq' & Ha' & Hl).
    eexists _, b', a'. unfold mbind'. rewrite Hr. split; [reflexivity|]. split; [|done]. rewrite decide_False by done.
    rewrite Hs, <- Heq'. rewrite (app_assoc rs), (app_assoc us).
    replace n with (Z.of_nat (length (us ++ us') + S (length vs'))).
    2: { subst n. apply (f_equal length) in Hs. simpl in Hs. rewrite length_app in Hs. simpl in Hs. rewrite length_app. lia. }
    replace (Z.of_nat (length us) + Z.of_nat (length us')) with (Z.of_nat (length (us ++ us'))) by (rewrite length_app; lia).
    constructor; [by apply Forall2_app|done].
Qed.

(** ** All values *)
Lemma consume_starts f r b : starts r -> @consume A _ (S f) r b = parse_reply (consume f) r b.
Proof.
  intros Hr. cbn [consume]. destruct (decide _) as [Ht|]; [|done]. destruct (Hr Ht) as (i & Hi & Hneg).
  unfold mbind', mlift. rewrite Hi. cbn. by rewrite (proj2 (Z.leb_gt 0 i)) by lia.
Qed.

Lemma simple_waits fc c1 s r b t2 a v :
  fc = 43 \/ fc = 45 -> find_sub crlf s = None -> size s < 2 ^ 31 - 8 -> arena_inv a -> starts r ->
  encode v = fc :: s ++ crlf -> encode v = b ++ t2 -> t2 <> [] -> waits (parse_reply c1 r b) v a b t2.
Proof.
  intros Hfc Hs Hsz Ha Hr Hv Heq Ht. assert (Hc : parse_reply c1 r b = mret (PARSE_ERROR_NOT_ENOUGH_DATA, r, b)).
  { destruct b as [|c b]; [done|]. rewrite Hv in Heq. injection Heq as <- Heq. unfold parse_reply.
    replace ((fc =? 45) || (fc =? 43)) with true by (destruct Hfc as [->| ->]; done).
    unfold consume_simple. rewrite (find_crlf_prefix _ t2 (fc :: s)); [|apply find_sub_cons; [lia|done]|by rewrite <- !app_comm_cons, Heq|done].
    rewrite (proj2 (Z.ltb_ge _ _)); [done|]. apply (f_equal length) in Heq. rewrite !length_app in Heq.
    unfold size in *. simpl in *. lia. }
  rewrite Hc. by apply waits_unchanged.
Qed.

(** A value that is one line with a number. *)
Lemma line_waits c1 fc z v r b t2 a :
  number_char fc -> - 2 ^ 63 < z < 2 ^ 63 -> encode v = fc :: dec z ++ crlf -> starts r -> arena_inv a ->
  encode v = b ++ t2 -> t2 <> [] -> waits (parse_reply c1 r b) v a b t2.
Proof.
  intros Hfc Hz Hv Hr Ha Heq Ht. rewrite (number_waits c1 fc z r b t2); [by apply waits_unchanged|done..| |done]. congruence.
Qed.

Lemma array_start f r vs b a :
  Forall (parses f) vs -> Z.of_nat (length vs) < 2 ^ 31 -> starts r -> arena_inv a -> (length b < S f)%nat ->
  (forall rest, b = encode (VArray vs) ++ rest -> finishes (parse_reply (consume f) r b) (VArray vs) a rest) /\
  (forall t2, encode (VArray vs) = b ++ t2 -> t2 <> [] -> waits (parse_reply (consume f) r b) (VArray vs) a b t2).
Proof.
  intros Hp Hn Hr Ha Hf. set (n := Z.of_nat (length vs)) in *.
  assert (Hz : - 2 ^ 63 < n < 2 ^ 63) by lia. assert (H42 : number_char 42) by (unfold number_char; lia).
  (* after the header, when there are elements *)
  assert (Hgo : forall b1, 0 < n -> arena_inv a -> exists a1, arena_inv a1 /\
    parse_reply (consume f) r (42 :: dec n ++ crlf ++ b1) a =
    consume_array (consume f) n n 0 (replicate (length vs) new_reply) b1 a1).
  { intros b1 Hpos _. destruct (number_line 42 n b1 H42 Hz) as [Hr1 Hd].
    destruct (arena_granted (u64 (sizeof_RedisReply * n)) a Ha) as (a1 & Hal & Ha1).
    { unfold sizeof_RedisReply, header_size. rewrite u64_small by lia. lia. }
    exists a1. split; [done|]. unfold parse_reply. rewrite Hr1. cbn [Z.eqb Pos.eqb orb]. cbn zeta.
    rewrite (proj2 (Z.ltb_ge n 0)), (proj2 (Z.eqb_neq n 0)), (proj2 (Z.ltb_ge (2 ^ 32 - 1) n)) by lia.
    unfold mbind'. rewrite Hal. cbn [negb]. rewrite Hd, i32_small by lia. subst n. by rewrite Nat2Z.id. }
  assert (He : encode (VArray vs) = (42 :: dec n ++ crlf) ++ concat (map encode vs))
    by (cbn [encode]; subst n; by rewrite <- app_comm_cons, <- app_assoc).
  assert (Hdone : vs = [] -> forall rest, finishes (parse_reply (consume f) r (42 :: dec n ++ crlf ++ rest)) (VArray vs) a rest).
  { intros -> rest. destruct (number_line 42 n rest H42 Hz) as [Hr1 Hd]. unfold parse_reply. rewrite Hr1. cbn [Z.eqb Pos.eqb orb]. cbn zeta.
    rewrite Hd. exists (mkReply REDIS_REPLY_ARRAY 0 (Array (-1) [])), a. split; [reflexivity|]. done. }
  split.
  - intros rest Hb. rewrite He, <- !app_assoc, <- app_comm_cons, <- !app_assoc in Hb.
    destruct vs as [|v vs]; [rewrite Hb; by apply Hdone|].
    destruct (Hgo (concat (map encode (v :: vs)) ++ rest)) as (a1 & Ha1 & Heq); [subst n; simpl; lia|done|].
    destruct (array_spec f [] [] new_reply v vs (encode v) (concat (map encode (v :: vs)) ++ rest) a1) as [Hfin _];
      [done|constructor|by constructor|done| | |].
    1,2: rewrite Hb in Hf; cbn [length] in Hf; rewrite 2!length_app in Hf;
      change (length crlf) with 2%nat in Hf; change (depth new_reply) with 0%nat; lia.
    destruct (Hfin rest) as (r' & a' & Hc & Hr' & Ha'); [cbn; by rewrite <- app_assoc|].
    exists r', a'. rewrite Hb, Heq. done.
  - intros t2 Hb Ht. rewrite He in Hb. symmetry in Hb. apply split_prefix in Hb as [(t3 & Ht3 & Hb & ->)|(b1 & -> & Hx)].
    + rewrite (number_waits (consume f) 42 n r b t3) by done. apply waits_unchanged; [done| |done]. rewrite He, <- Hb. by rewrite <- app_assoc.
    + destruct vs as [|v vs]; [by destruct b1|].
      destruct (Hgo b1) as (a1 & Ha1 & Heq); [subst n; simpl; lia|done|].
      destruct (array_spec f [] [] new_reply v vs (encode v) b1 a1) as [_ Hwait];
        [done|constructor|by constructor|done| | |].
      1,2: cbn [app length] in Hf; rewrite !length_app in Hf; change (length crlf) with 2%nat in Hf; change (depth new_reply) with 0%nat; lia.
      destruct (Hwait t2 Hx Ht) as (r' & b' & a' & Hc & Hp' & Ha' & Hl).
      exists r', b', a'. rewrite <- app_comm_cons, <- app_assoc, Heq. split; [done|]. split; [done|]. split; [done|].
      cbn [app length]. rewrite !length_app. lia.
Qed.

Lemma parses_all f v : sendable v -> parses f v.
Proof.
  revert v. induction f as [|f IH]; intros v Hv r t b a Hp Ha Hf; [lia|].
  destruct Hp as [r v Hr|rs us cur v vs t Hrs Hcur].
  - rewrite consume_starts by done. assert (Hint : forall z, - 2 ^ 63 < z < 2 ^ 63 -> number_char 58 /\ number_char 36 /\ number_char 42) by (unfold number_char; lia).
    destruct (Hint 0) as (H58 & H36 & H42); [lia|]. assert (Hnp : - 2 ^ 63 < npos < 2 ^ 63) by (unfold npos; lia).
    destruct Hv as [s Hs Hsz|s Hs Hsz|z Hz|s Hsz| | |vs Hvs Hn].
    + split; intros x Heq.
      * subst b. cbn [encode]. rewrite <- app_comm_cons, <- app_assoc. unfold parse_reply. cbn [Z.eqb Pos.eqb orb].
        apply simple_finishes; [lia|done..|]. intros d Hd. unfold complete. cbn. by rewrite Hd.
      * intros Ht. by eapply (simple_waits 43); [lia|..].
    + split; intros x Heq.
      * subst b. cbn [encode]. rewrite <- app_comm_cons, <- app_assoc. unfold parse_reply. cbn [Z.eqb Pos.eqb orb].
        apply simple_finishes; [lia|done..|]. intros d Hd. unfold complete. cbn. by rewrite Hd.
      * intros Ht. by eapply (simple_waits 45); [lia|..].
    + split; intros x Heq; [subst b; cbn [encode]; rewrite <- app_comm_cons, <- app_assoc; by apply integer_finishes|].
      intros Ht. by eapply (line_waits _ 58 z).
    + split; intros x Heq.
      * subst b. cbn [encode]. rewrite <- app_comm_cons, <- !app_assoc. by apply string_finishes.
      * intros Ht. cbn [encode] in Heq. rewrite app_comm_cons, app_assoc in Heq. symmetry in Heq.
        apply split_prefix in Heq as [(t3 & Ht3 & Hb & ->)|(b1 & -> & Hx)].
        -- rewrite (number_waits (consume f) 36 (size s) r b t3); [|done|unfold size in *; lia|by rewrite Hb, <- app_comm_cons|done].
           apply waits_unchanged; [done| |done]. cbn [encode]. rewrite (app_assoc b), Hb. by rewrite <- !app_comm_cons, <- !app_assoc.
        -- assert (Hb : ((36 :: dec (size s)) ++ crlf) ++ b1 = 36 :: dec (size s) ++ crlf ++ b1)
             by (by rewrite <- app_assoc, <- app_comm_cons).
           rewrite Hb. exists r, (36 :: dec (size s) ++ crlf ++ b1), a. split; [by eapply string_waits|]. split; [|split; [done|lia]].
           replace ((36 :: dec (size s) ++ crlf ++ b1) ++ x) with (encode (VString s)); [by constructor|].
           cbn [encode]. rewrite Hx. by rewrite <- !app_comm_cons, <- !app_assoc.
    + split; intros x Heq; [subst b; cbn [encode]; rewrite <- app_comm_cons, <- app_assoc; by apply (null_finishes _ 36); [left|]|].
      intros Ht. by eapply (line_waits _ 36 npos).
    + split; intros x Heq; [subst b; cbn [encode]; rewrite <- app_comm_cons, <- app_assoc; by apply (null_finishes _ 42); [right|]|].
      intros Ht. by eapply (line_waits _ 42 npos).
    + apply array_start; [|done..|lia]. eapply Forall_impl; [exact Hvs|]. exact IH.
  - inversion Hv as [| | | | | |? Hvs Hn]; subst. apply Forall_app in Hvs as [_ Hvs].
    cbn [consume _type]. rewrite decide_True by done. cbn [_data last_index _length replies].
    assert (Hd : (depth cur < depth (mkReply REDIS_REPLY_ARRAY (Z.of_nat (length us + S (length vs)))
      (Array (Z.of_nat (length us)) (rs ++ cur :: replicate (length vs) new_reply))))%nat) by (apply depth_elem, elem_of_app; right; left).
    destruct (array_spec f rs us cur v vs t b a) as [Hfin Hwait]; [|done..|lia|lia|].
    { eapply Forall_impl; [exact Hvs|]. exact IH. }
    unfold finishes, waits, mbind', mlift in *. cbn [fmap option_fmap option_map].
    rewrite (proj2 (Z.leb_le 0 _)) by lia. split.
    + intros rest Hb. apply Hfin. by rewrite Hb, <- app_assoc.
    + exact Hwait.
Qed.

(** ** Receiving in pieces: the parser is called again whenever data arrives *)
Fixpoint feed (chunks : list bytes) (err : ParseError) (r : RedisReply) (buf : bytes) : M A (ParseError * RedisReply * bytes) :=
  match chunks with
  | [] => mret (err, r, buf)
  | c :: chunks' =>
      if decide (err = PARSE_ERROR_NOT_ENOUGH_DATA) then
        let* res := ConsumePartialIOBuf r (buf ++ c) in
        let '(err', r', buf') := res in feed chunks' err' r' buf'
      else feed chunks' err r (buf ++ c)
  end.

Lemma feed_done chunks r buf a : feed chunks PARSE_OK r buf a = Some ((PARSE_OK, r, buf ++ concat chunks), a).
Proof.
  revert buf. induction chunks as [|c chunks IH]; intros buf; cbn [feed concat]; [by rewrite app_nil_r|].
  rewrite decide_False by done. by rewrite IH, <- app_assoc.
Qed.

Lemma feed_spec v chunks : forall r buf t2 rest a,
  sendable v -> pending r v (buf ++ t2) -> t2 <> [] -> concat chunks = t2 ++ rest -> arena_inv a ->
  finishes (feed chunks PARSE_ERROR_NOT_ENOUGH_DATA r buf) v a rest.
Proof.
  induction chunks as [|c chunks IH]; intros r buf t2 rest a Hv Hp Ht Hc Ha; cbn [concat] in Hc; [by destruct t2|].
  unfold finishes. cbn [feed]. rewrite decide_True by done. unfold mbind', ConsumePartialIOBuf.
  destruct (parses_all (S (length (buf ++ c) + depth r)) v Hv r _ (buf ++ c) a Hp Ha) as [Hfin Hwait]; [lia|].
  apply split_prefix in Hc as [(t3 & Ht3 & <- & Hc)|(c1 & -> & ->)].
  - destruct (Hwait t3) as (r' & b' & a' & Hr & Hp' & Ha' & _); [by rewrite app_assoc|done|]. rewrite Hr.
    by eapply IH.
  - destruct (Hfin c1) as (r' & a' & Hr & Hcm & Ha'); [by rewrite app_assoc|]. rewrite Hr.
    exists r', a'. by rewrite feed_done.
Qed.

(** ** Building a reply with the Set functions *)
Fixpoint build_subs (build1 : value -> RedisReply -> M A RedisReply) (vs : list value) (l : list RedisReply) : M A (list RedisReply) :=
  match vs, l with
  | v :: vs', x :: l' => let* x' := build1 v x in let* rest := build_subs build1 vs' l' in mret (x' :: rest)
  | _, _ => mret l
  end.
Fixpoint build (v : value) (r : RedisReply) : M A RedisReply :=
  match v with
  | VStatus s => SetStatus s r
  | VError s => SetError s r
  | VInteger z => mret (SetInteger z r)
  | VString s => SetString s r
  | VNullString => mret (SetNullString r)
  | VNullArray => mret (SetNullArray r)
  | VNil => mret r
  | VArray vs =>
      let* r1 := SetArray (Z.of_nat (length vs)) r in
      match r1 with
      | mkReply t len (Array i l) => let* l' := build_subs build vs l in mret (mkReply t len (Array i l'))
      | _ => mret r1
      end
  end.

Definition builds (v : value) : Prop := forall a, arena_inv a ->
  exists r a', build v new_reply a = Some (r, a') /\ value_of r = Some v /\ arena_inv a'.

Lemma set_string_spec s t a :
  size s < 2 ^ 31 - 8 -> arena_inv a -> exists r a', SetStringImpl s t new_reply a = Some (r, a') /\ arena_inv a' /\
    exists d, r = mkReply t (size s) d /\ string_data (size s) d = Some s.
Proof.
  intros Hs Ha. pose proof (stored_string s (Integer 0) Hs) as [Hst _]. assert (0 <= size s) by (unfold size; lia).
  unfold SetStringImpl. rewrite i32_small in * by lia. destruct (size s <? sizeof_short_str).
  - eexists _, a. by repeat split; [..|eexists].
  - destruct (arena_granted (u64 ((size s / 8 + 1) * 8)) a Ha) as (a' & Hal & Ha').
    { unfold header_size. rewrite u64_small by (Z.to_euclidean_division_equations; lia). Z.to_euclidean_division_equations; lia. }
    unfold mbind'. rewrite Hal. eexists _, a'. by repeat split; [..|eexists].
Qed.

Lemma build_subs_spec vs a : Forall builds vs -> arena_inv a ->
  exists l a', build_subs build vs (replicate (length vs) new_reply) a = Some (l, a') /\
    mapM value_of l = Some vs /\ length l = length vs /\ arena_inv a'.
Proof.
  intros Hvs. revert a. induction Hvs as [|v vs Hv _ IH]; intros a Ha; [by eexists [], a|].
  destruct (Hv a Ha) as (r & a1 & Hr & Hval & Ha1). destruct (IH a1 Ha1) as (l & a2 & Hl & Hm & Hlen & Ha2).
  exists (r :: l), a2. cbn [length replicate build_subs]. unfold mbind'. rewrite Hr, Hl. split; [done|].
  split; [|split; [simpl; lia|done]]. cbn [mapM]. by rewrite Hval, Hm.
Qed.

Lemma build_spec v : sendable v -> builds v.
Proof.
  induction v as [s|s|z|s| | | |vs IH] using value_ind'; intros Hv a Ha; inversion Hv as [? Hs Hsz|? Hs Hsz|? Hz|? Hsz| | |? Hvs Hn]; subst.
  - destruct (set_string_spec s REDIS_REPLY_STATUS a Hsz Ha) as (r & a' & Hr & Ha' & d & -> & Hd).
    eexists _, a'. split; [exact Hr|]. cbn. by rewrite Hd.
  - destruct (set_string_spec s REDIS_REPLY_ERROR a Hsz Ha) as (r & a' & Hr & Ha' & d & -> & Hd).
    eexists _, a'. split; [exact Hr|]. cbn. by rewrite Hd.
  - by eexists _, a.
  - destruct (set_string_spec s REDIS_REPLY_STRING a Hsz Ha) as (r & a' & Hr & Ha' & d & -> & Hd).
    eexists _, a'. split; [exact Hr|]. cbn [value_of]. rewrite (proj2 (Z.eqb_neq _ npos)) by (unfold npos, size; lia). by rewrite Hd.
  - by eexists _, a.
  - by eexists _, a.
  - cbn [build]. unfold mbind', SetArray. set (n := Z.of_nat (length vs)) in *. rewrite (proj2 (Z.ltb_ge n 0)) by lia.
    destruct (Z.eqb_spec n 0) as [Hn0|Hn0].
    + assert (vs = []) as -> by (destruct vs; [done|simpl in n; lia]). by eexists _, a.
    + destruct (arena_granted (u64 (sizeof_RedisReply * n)) a Ha) as (a1 & Hal & Ha1).
      { unfold sizeof_RedisReply, header_size. rewrite u64_small by lia. lia. }
      unfold mbind'. rewrite Hal. cbn [negb]. unfold mlift.
      change (last_index (_data (reset_unless_nil new_reply))) with (Some (-1)). cbn [fmap option_fmap option_map]. unfold mret. cbn iota.
      destruct (build_subs_spec vs a1) as (l & a2 & Hl & Hm & Hlen & Ha2); [|done|].
      { rewrite Forall_forall in IH, Hvs |- *. intros x Hx. apply IH; auto. }
      replace (Z.to_nat n) with (length vs) by lia. rewrite Hl. eexists _, a2. split; [reflexivity|]. split; [|done].
      cbn [value_of]. rewrite Hlen, (proj2 (Z.eqb_neq n npos)), (proj2 (Z.eqb_neq n 0)), Z.eqb_refl by (unfold npos; lia). by rewrite Hm.
Qed.
End Parse.

(** ** Replies with a meaning *)
Inductive means : RedisReply -> value -> Prop :=
  | means_status len d s : string_data len d = Some s -> means (mkReply REDIS_REPLY_STATUS len d) (VStatus s)
  | means_error len d s : string_data len d = Some s -> means (mkReply REDIS_REPLY_ERROR len d) (VError s)
  | means_integer len z : means (mkReply REDIS_REPLY_INTEGER len (Integer z)) (VInteger z)
  | means_string len d s : len <> npos -> string_data len d = Some s -> means (mkReply REDIS_REPLY_STRING len d) (VString s)
  | means_null_string d : means (mkReply REDIS_REPLY_STRING npos d) VNullString
  | means_null_array d : means (mkReply REDIS_REPLY_ARRAY npos d) VNullArray
  | means_nil len d : means (mkReply REDIS_REPLY_NIL len d) VNil
  | means_empty d : means (mkReply REDIS_REPLY_ARRAY 0 d) (VArray [])
  | means_array i l vs : l <> [] -> mapM value_of l = Some vs ->
      means (mkReply REDIS_REPLY_ARRAY (Z.of_nat (length l)) (Array i l)) (VArray vs).

Lemma value_of_means r v : value_of r = Some v -> means r v.
Proof.
  destruct r as [t len d]; cbn [value_of]. destruct t.
  - destruct (Z.eqb_spec len npos) as [->|]; [intros [= <-]; constructor|].
    destruct (string_data len d) as [s|] eqn:E; [|done]. intros [= <-]. by constructor.
  - destruct (Z.eqb_spec len npos) as [->|]; [intros [= <-]; constructor|].
    destruct (Z.eqb_spec len 0) as [->|]; [intros [= <-]; constructor|].
    destruct d as [| | |i l]; try done. destruct (Z.eqb_spec (Z.of_nat (length l)) len) as [<-|]; [|done].
    destruct (mapM value_of l) as [vs|] eqn:E; [|done]. intros [= <-]. constructor; [by intros ->|done].
  - destruct d; try done. intros [= <-]. constructor.
  - intros [= <-]. constructor.
  - destruct (string_data len d) as [s|] eqn:E; [|done]. intros [= <-]. by constructor.
  - destruct (string_data len d) as [s|] eqn:E; [|done]. intros [= <-]. by constructor.
Qed.

(** ** Serialization *)
Lemma string_data_size len d s : string_data len d = Some s -> len = size s.
Proof.
  unfold string_data. destruct d as [z|x|x|i l]; destruct (len <? sizeof_short_str); try done;
    (destruct ((0 <=? len) && (len <=? size x)) eqn:E; [|done]); intros [= <-];
    unfold size in *; rewrite length_take; lia.
Qed.
Lemma append_number_spec fc z out : - 2 ^ 63 < z < 2 ^ 63 -> append_number fc z out = Some (out ++ fc :: dec z ++ crlf).
Proof. intros Hz. unfold append_number. by rewrite (proj1 (dec_spec z Hz)). Qed.

Definition serializes (v : value) : Prop := forall r out, value_of r = Some v -> SerializeTo r out = Some (true, out ++ encode v).

Lemma serialize_subs_spec l vs out : Forall serializes vs -> mapM value_of l = Some vs ->
  serialize_subs SerializeTo l (length l) out = Some (true, out ++ concat (map encode vs)).
Proof.
  intros Hvs. revert l out. induction Hvs as [|v vs Hv _ IH]; intros l out Hm.
  - destruct l as [|x l]; [by rewrite app_nil_r|]. cbn in Hm. destruct (value_of x); [|done]. by destruct (mapM value_of l).
  - destruct l as [|x l]; [done|]. cbn in Hm. destruct (value_of x) as [w|] eqn:Hx; [|done].
    cbn in Hm. destruct (mapM value_of l) as [ws|] eqn:Hl; [|done]. injection Hm as -> ->.
    cbn [length serialize_subs map concat]. rewrite (Hv x out Hx). cbn. by rewrite (IH l _ Hl), <- app_assoc.
Qed.

Lemma serialize_spec v : sendable v -> serializes v.
Proof.
  induction v as [s|s|z|s| | | |vs IH] using value_ind'; intros Hv r out Hr;
    inversion Hv as [? Hs Hsz|? Hs Hsz|? Hz|? Hsz| | |? Hvs Hn]; subst; apply value_of_means in Hr;
    inversion Hr as [? ? ? Hd|? ? ? Hd|? ?|? ? ? Hl Hd| | | |? |? ? ? Hl Hm]; subst; cbn [SerializeTo];
    try (rewrite append_number_spec by (unfold npos; lia); done).
  - by rewrite Hd.
  - by rewrite Hd.
  - apply string_data_size in Hd as Hlen. subst len. rewrite append_number_spec by (unfold size in *; lia). cbn.
    rewrite (proj2 (Z.eqb_neq _ _)) by done. rewrite Hd. cbn. by rewrite <- !app_assoc, <- !app_comm_cons, <- !app_assoc.
  - pose proof (proj1 (mapM_Some _ _ _) Hm) as Hf. apply Forall2_length in Hf. rewrite append_number_spec by lia. cbn.
    rewrite (proj2 (Z.leb_gt _ 0)) by (destruct l; [done|simpl; lia]).
    rewrite Nat2Z.id, (serialize_subs_spec l vs) by first [done | rewrite Forall_forall in IH, Hvs |- *; auto].
    rewrite Hf. by rewrite <- !app_assoc, <- !app_comm_cons, <- !app_assoc.
Qed.

(** ** Any input: the parser returns and leaves a well-formed reply *)
#[warnings="-register-all"]
Inductive typed : RedisReply -> Prop :=
  | typed_status len d s : string_data len d = Some s -> typed (mkReply REDIS_REPLY_STATUS len d)
  | typed_error len d s : string_data len d = Some s -> typed (mkReply REDIS_REPLY_ERROR len d)
  | typed_string len d s : string_data len d = Some s -> typed (mkReply REDIS_REPLY_STRING len d)
  | typed_null_string d : typed (mkReply REDIS_REPLY_STRING npos d)
  | typed_integer z : - 2 ^ 63 <= z < 2 ^ 63 -> typed (mkReply REDIS_REPLY_INTEGER 0 (Integer z))
  | typed_nil d : typed (mkReply REDIS_REPLY_NIL 0 d)
  | typed_null_array i l : i < 0 -> typed (mkReply REDIS_REPLY_ARRAY npos (Array i l))
  | typed_array i l : Forall typed l -> i < Z.of_nat (length l) \/ i <= 0 ->
      typed (mkReply REDIS_REPLY_ARRAY (Z.of_nat (length l)) (Array i l)).

Section Total.
Context {A : Type} `{ArenaLaws A}.
Implicit Types (a : A).

(** No line of the buffer announces an array of 2^31 or more elements, whose length does
    not fit into the [int] of the reply. *)
Fixpoint modest (b : bytes) : bool :=
  match b with
  | [] => true
  | c :: b' => (if c =? 42 then match read_number b with Decimal v _ => v <? 2 ^ 31 | _ => true end else true) && modest b'
  end.
Lemma modest_suffix b' b : b' `suffix_of` b -> modest b = true -> modest b' = true.
Proof. intros [k ->]. induction k as [|c k IH]; [done|]. cbn [app modest]. intros [_ Hm]%andb_true_iff. by apply IH. Qed.
Lemma modest_array b v pos : hd 0 b = 42 -> modest b = true -> read_number b = Decimal v pos -> v < 2 ^ 31.
Proof. destruct b as [|c b]; [done|]. cbn [hd modest]. intros -> [Hm _]%andb_true_iff Hn. rewrite Hn in Hm. by apply Z.ltb_lt in Hm. Qed.

Definition returns (c : M A (ParseError * RedisReply * bytes)) (b : bytes) (a : A) : Prop :=
  exists err r b' a', c a = Some ((err, r, b'), a') /\ typed r /\ b' `suffix_of` b /\ arena_inv a'.

Lemma returns_now err r b b' a : typed r -> b' `suffix_of` b -> arena_inv a -> returns (mret (err, r, b')) b a.
Proof. intros. by exists err, r, b', a. Qed.
Lemma suffix_drop (b : bytes) n : drop n b `suffix_of` b.
Proof. exists (take n b). by rewrite take_drop. Qed.
Lemma typed_stored t s d : t = REDIS_REPLY_STATUS \/ t = REDIS_REPLY_ERROR \/ t = REDIS_REPLY_STRING ->
  size s < 2 ^ 31 - 8 -> d = (if size s <? sizeof_short_str then Short_str (s ++ [0]) else Long_str (s ++ [0])) ->
  typed (mkReply t (i32 (size s)) d).
Proof.
  intros Ht Hs ->. destruct (stored_string s (Integer 0) Hs) as [Hd _].
  destruct Ht as [->|[->| ->]]; [eapply typed_status|eapply typed_error|eapply typed_string]; exact Hd.
Qed.

Lemma string_granted len a : arena_inv a -> 0 <= len < 2 ^ 33 ->
  exists a', arena_allocate (u64 ((len / 8 + 1) * 8)) a = Some (true, a') /\ arena_inv a'.
Proof.
  intros Ha Hl. apply arena_granted; [done|]. unfold header_size. rewrite u64_small by (Z.to_euclidean_division_equations; lia). Z.to_euclidean_division_equations; lia.
Qed.
Lemma simple_returns fc r b a : typed r -> size b < 2 ^ 31 - 8 -> b <> [] -> hd 0 b <> 13 -> arena_inv a -> returns (consume_simple fc r b) b a.
Proof.
  intros Hr Hb Hne Hfc Ha. unfold consume_simple. destruct (find_sub crlf b) as [p|] eqn:Hp; [|by apply returns_now].
  pose proof (IOBufSearch.find_sub_bound _ _ _ Hp) as Hbound. change (length crlf) with 2%nat in Hbound.
  assert (Hp0 : (0 < p)%nat).
  { destruct b as [|c b]; [done|]. destruct p; [|lia]. cbn [IOBufSearch.find_sub] in Hp. case_bool_decide as Hc; [|by destruct (find_sub crlf b)].
    unfold crlf in Hc. simpl in *. destruct b; simpl in Hc; congruence. }
  cbn zeta. set (s := drop 1 (take p b)).
  assert (Hs : size (take p b) - 1 = size s) by (subst s; unfold size; rewrite length_drop, length_take; lia).
  assert (Hsz : size s < 2 ^ 31 - 8) by (rewrite <- Hs; unfold size in *; rewrite length_take; lia).
  assert (Ht : string_type fc = REDIS_REPLY_STATUS \/ string_type fc = REDIS_REPLY_ERROR \/ string_type fc = REDIS_REPLY_STRING)
    by (unfold string_type; destruct (fc =? 45); auto).
  rewrite Hs. destruct (size s <? sizeof_short_str) eqn:E.
  - apply returns_now; [|apply suffix_drop|done]. apply typed_stored; [done..|by rewrite E].
  - destruct (string_granted (size s) a Ha) as (a' & Hal & Ha'); [unfold size in *; lia|]. unfold returns, mbind'. rewrite Hal. cbn [negb].
    apply returns_now; [|apply suffix_drop|done]. apply typed_stored; [done..|by rewrite E].
Qed.

Lemma bulk_typed len d b : 0 <= len -> len + 2 <= size b -> size b < 2 ^ 31 - 8 ->
  (forall s, size s = len -> d (s ++ [0]) = if size s <? sizeof_short_str then Short_str (s ++ [0]) else Long_str (s ++ [0])) ->
  exists err r b', consume_bulk len d b = (err, r, b') /\ typed r /\ b' `suffix_of` b.
Proof.
  intros Hlen Hb Hsz Hd. unfold consume_bulk. cbn zeta. set (s := take (Z.to_nat len) b).
  assert (Hs : size s = len) by (subst s; unfold size in *; rewrite length_take; lia).
  assert (Ht : typed (mkReply REDIS_REPLY_STRING (i32 len) (d (s ++ [0])))).
  { rewrite <- Hs. apply typed_stored; [auto|lia|by apply Hd]. }
  rewrite drop_drop. case_bool_decide; eexists _, _, _; (split; [reflexivity|]); (split; [done|]); apply suffix_drop.
Qed.

Lemma string_returns len pos r b a :
  typed r -> size b < 2 ^ 31 - 8 -> 0 <= pos -> arena_inv a -> returns (consume_string len pos r b) b a.
Proof.
  intros Hr Hb Hpos Ha. unfold consume_string. cbn zeta.
  destruct (Z.ltb_spec len 0); [apply returns_now; [constructor|apply suffix_drop|done]|].
  destruct (2 ^ 32 - 1 <? len); [by apply returns_now|].
  destruct (Z.ltb_spec (size b) (pos + 2 + len + 2)); [by apply returns_now|].
  set (b1 := drop (Z.to_nat (pos + 2)) b).
  assert (Hl : size b1 = size b - (pos + 2)) by (subst b1; unfold size in *; rewrite length_drop; lia).
  assert (Hbulk : forall d, (forall s, size s = len -> d (s ++ [0]) = if size s <? sizeof_short_str then Short_str (s ++ [0]) else Long_str (s ++ [0])) ->
    forall a, arena_inv a -> returns (mret (consume_bulk len d b1)) b a).
  { intros d Hd a1 Ha1. destruct (bulk_typed len d b1) as (err & r' & b' & -> & Ht & Hs); [lia..|done|].
    apply returns_now; [done| |done]. etrans; [exact Hs|]. apply suffix_drop. }
  destruct (len <? sizeof_short_str) eqn:E; [apply Hbulk; [by intros s ->; rewrite E|done]|].
  destruct (string_granted len a Ha) as (a' & Hal & Ha'); [lia|]. unfold returns, mbind'. rewrite Hal. cbn [negb].
  apply Hbulk; [by intros s ->; rewrite E|done].
Qed.

(** What holds of the calls for the sub replies. *)
Definition total (f : nat) : Prop := forall r b a,
  typed r -> size b < 2 ^ 31 - 8 -> modest b = true -> (length b + depth r < f)%nat -> arena_inv a -> returns (consume f r b) b a.

Lemma suffix_length_le (b' b : bytes) : b' `suffix_of` b -> (length b' <= length b)%nat.
Proof. intros [k ->]. rewrite length_app. lia. Qed.

Lemma subs_return f l b a :
  total f -> Forall typed l -> Forall (fun x => (length b + depth x < f)%nat) l -> size b < 2 ^ 31 - 8 -> modest b = true -> arena_inv a ->
  exists err l' n b' a', consume_subs (consume f) l b a = Some ((err, l', n, b'), a') /\ Forall typed l' /\
    length l' = length l /\ 0 <= n /\ (err <> PARSE_OK -> n < Z.of_nat (length l)) /\ b' `suffix_of` b /\ arena_inv a'.
Proof.
  intros Hf Hl. revert b a. induction Hl as [|x l Hx Hl IH]; intros b a Hd Hb Hmo Ha.
  - by exists PARSE_OK, [], 0, b, a.
  - apply Forall_cons in Hd as [Hdx Hd]. destruct (Hf x b a Hx Hb Hmo Hdx Ha) as (err & x' & b1 & a1 & Hc & Hx' & Hb1 & Ha1).
    cbn [consume_subs]. unfold mbind'. rewrite Hc. destruct (decide (err = PARSE_OK)).
    + apply suffix_length_le in Hb1 as Hlen. destruct (IH b1 a1) as (err' & l' & n & b' & a' & -> & Hl' & Hll & Hn & Hne & Hb' & Ha').
      { eapply Forall_impl; [exact Hd|]. simpl. intros. lia. }
      { unfold size in *. lia. }
      { by eapply modest_suffix. }
      { done. }
      exists err', (x' :: l'), (n + 1), b', a'. split; [done|]. split; [by constructor|]. cbn [length].
      split; [lia|]. split; [lia|]. split; [|split; [by etrans|done]]. intros He. specialize (Hne He). lia.
    + exists err, (x' :: l), 0, b1, a1. split; [done|]. split; [by constructor|]. cbn [length]. repeat split; [lia..|done|done].
Qed.

Lemma array_returns f i l b a :
  total f -> Forall typed l -> Forall (fun x => (length b + depth x < f)%nat) l -> size b < 2 ^ 31 - 8 -> modest b = true -> arena_inv a ->
  0 <= i <= Z.of_nat (length l) ->
  returns (consume_array (consume f) (Z.of_nat (length l)) (Z.of_nat (length l)) i l b) b a.
Proof.
  intros Hf Hl Hd Hb Hmo Ha Hi. unfold consume_array. rewrite Z.leb_refl, orb_true_r. unfold returns, mbind'.
  rewrite take_ge by (rewrite length_drop; lia). rewrite (drop_ge l (Z.to_nat (Z.max i _))) by lia.
  destruct (subs_return f (drop (Z.to_nat i) l) b a) as (err & l' & n & b' & a' & -> & Hl' & Hll & Hn & Hne & Hb' & Ha');
    [done|by apply Forall_drop|by apply Forall_drop|done..|].
  eexists _, _, _, _. split; [reflexivity|]. split; [|done]. rewrite length_drop in Hll, Hne. rewrite app_nil_r.
  replace (Z.of_nat (length l)) with (Z.of_nat (length (take (Z.to_nat i) l ++ l'))) by (rewrite length_app, length_take; lia).
  constructor; [apply Forall_app; split; [by apply Forall_take|done]|].
  rewrite length_app, length_take. destruct (decide (err = PARSE_OK)) as [|He]; [right; lia|]. specialize (Hne He). lia.
Qed.

Lemma read_number_pos b v pos : read_number b = Decimal v pos -> 0 <= pos /\ pos + 2 <= size b /\ - 2 ^ 63 <= v < 2 ^ 63.
Proof.
  unfold read_number. destruct (find_sub crlf (take 31 b)) as [p|] eqn:Hp; [|done].
  apply IOBufSearch.find_sub_bound in Hp. rewrite length_take in Hp. change (length crlf) with 2%nat in Hp.
  destruct (strtoll _) as [x e] eqn:Hx. destruct (1 + e =? Z.of_nat p); [|done]. intros [= <- <-].
  assert (Hv : - 2 ^ 63 <= x < 2 ^ 63).
  { unfold strtoll in Hx. destruct (match drop _ _ with [] => _ | _ => _ end) as [[neg sg] s1]. cbn zeta in Hx.
    destruct (take_while isdigit s1); injection Hx as <- <-; lia. }
  unfold size. lia.
Qed.

Lemma parse_returns f r b a :
  total f -> typed r -> size b < 2 ^ 31 - 8 -> modest b = true -> (length b < S f)%nat -> arena_inv a -> returns (parse_reply (consume f) r b) b a.
Proof.
  intros Hf Hr Hb Hmo Hl Ha. unfold parse_reply. destruct b as [|fc b0] eqn:Eb; [by apply returns_now|]. rewrite <- Eb in *.
  destruct ((fc =? 45) || (fc =? 43)) eqn:Efc; [apply simple_returns; [done..|by rewrite Eb|rewrite Eb; simpl; lia|done]|].
  destruct ((fc =? 36) || (fc =? 42) || (fc =? 58)) eqn:Efc'; [|by apply returns_now].
  destruct (read_number b) as [| |v pos] eqn:Hn; [by apply returns_now..|]. pose proof (fun H42 => modest_array b v pos H42 Hmo Hn) as Hsmall. apply read_number_pos in Hn as (Hpos & Hlen & Hv).
  cbn zeta. set (b1 := drop (Z.to_nat (pos + 2)) b). assert (Hs : b1 `suffix_of` b) by apply suffix_drop.
  destruct (Z.eqb_spec fc 58) as [|H58]; [apply returns_now; [by constructor|done..]|].
  destruct (Z.eqb_spec fc 36) as [|H36]; [by apply string_returns|].
  destruct (Z.ltb_spec v 0); [apply returns_now; [constructor|done..]|].
  destruct (Z.eqb_spec v 0); [apply returns_now; [apply (typed_array (-1) []); [constructor|lia]|done..]|].
  destruct (Z.ltb_spec (2 ^ 32 - 1) v); [by apply returns_now|].
  assert (v < 2 ^ 31) as Hv31 by (apply Hsmall; rewrite Eb; cbn [hd]; lia).
  destruct (arena_granted (u64 (sizeof_RedisReply * v)) a Ha) as (a1 & Hal & Ha1).
  { unfold header_size, sizeof_RedisReply. rewrite u64_small by lia. lia. }
  unfold returns, mbind'. rewrite Hal. cbn [negb].
  assert (Hb1 : (length b1 + 2 <= length b)%nat) by (subst b1; rewrite length_drop; unfold size in Hlen; lia).
  destruct (array_returns f 0 (replicate (Z.to_nat v) new_reply) b1 a1) as (err & r' & b' & a' & Hc & Hr' & Hb' & Ha').
  - done.
  - apply Forall_replicate. constructor.
  - apply Forall_replicate. cbn. lia.
  - unfold size in *. lia.
  - by eapply modest_suffix.
  - done.
  - lia.
  - rewrite length_replicate, Z2Nat.id in Hc by lia. rewrite i32_small by lia.
    exists err, r', b', a'. split; [done|]. split; [done|]. split; [by etrans|done].
Qed.

Lemma consume_total f : total f.
Proof.
  induction f as [|f IH]; intros r b a Hr Hb Hmo Hd Ha; [lia|]. cbn [consume].
  destruct (decide (_type r = REDIS_REPLY_ARRAY)) as [Ht|]; [|apply parse_returns; [done..|lia|done]].
  destruct Hr as [| | | | | |i l Hi|i l Hl Hi] eqn:Er; try done; unfold mlift, returns, mbind'; cbn [_data last_index fmap option_fmap option_map].
  - rewrite (proj2 (Z.leb_gt 0 i)) by lia. apply parse_returns; [done|by constructor|done|done|lia|done].
  - destruct (Z.leb_spec 0 i); [|apply parse_returns; [done|by constructor|done|done|lia|done]]. cbn [_length replies fmap option_fmap option_map].
    apply array_returns; [done..| |done|done|done|lia]. apply Forall_forall. intros x Hx.
    pose proof (depth_elem REDIS_REPLY_ARRAY (Z.of_nat (length l)) i l x Hx). lia.
Qed.

End Total.

(** ** Copying *)

(** No array of the reply is suspended; strings have their '\0'. *)
Fixpoint intact (r : RedisReply) : bool :=
  match r with
  | mkReply t len d =>
      match t with
      | REDIS_REPLY_ARRAY =>
          match d with
          | Array i l => (i <=? 0) && forallb intact l
          | _ => bool_decide (is_Some (last_index d)) && (default 0 (last_index d) <=? 0)
          end
      | REDIS_REPLY_INTEGER | REDIS_REPLY_NIL => true
      | _ => (len =? npos) || bool_decide (is_Some (string_with_nul len d))
      end
  end.
#[warnings="-register-all"]
Inductive copyable : value -> Prop :=
  | copy_status s : size s < 2 ^ 31 - 8 -> copyable (VStatus s)
  | copy_error s : size s < 2 ^ 31 - 8 -> copyable (VError s)
  | copy_integer z : copyable (VInteger z)
  | copy_string s : size s < 2 ^ 31 - 8 -> copyable (VString s)
  | copy_null_string : copyable VNullString
  | copy_nil : copyable VNil
  | copy_array vs : Forall copyable vs -> Z.of_nat (length vs) < 2 ^ 31 -> copyable (VArray vs).

Section Copy.
Context {A : Type} `{ArenaLaws A}.
Implicit Types (a : A).

Definition copies (v : value) : Prop := forall r x a, value_of r = Some v -> intact r = true -> arena_inv a ->
  exists r' a', CopyFromDifferentArena r x a = Some (r', a') /\ value_of r' = Some v /\ arena_inv a'.

(** The copy of a string with its '\0' reads as the string. *)
Lemma copied_string len d s : string_data len d = Some s -> is_Some (string_with_nul len d) ->
  exists s', string_with_nul len d = Some s' /\
    string_data len (if len <? sizeof_short_str then Short_str s' else Long_str s') = Some s.
Proof.
  intros Hs [s' Hs']. exists s'. split; [done|]. unfold string_data, string_with_nul in *.
  destruct d as [z|x|x|i l]; destruct (len <? sizeof_short_str); try done;
    (destruct ((0 <=? len) && (len <=? size x)) eqn:E; [|done]); injection Hs as <-;
    (destruct (Z.leb_spec (len + 1) (size x)); [|done]); injection Hs' as <-;
    rewrite (proj2 (Z.leb_le 0 len)), (proj2 (Z.leb_le len _)) by (unfold size in *; rewrite ?length_take; lia);
    simpl; f_equal; rewrite take_take; f_equal; lia.
Qed.

Lemma copy_string_spec t len d s x a :
  t = REDIS_REPLY_STATUS \/ t = REDIS_REPLY_ERROR \/ t = REDIS_REPLY_STRING ->
  string_data len d = Some s -> size s < 2 ^ 31 - 8 -> intact (mkReply t len d) = true -> arena_inv a ->
  exists d' a', CopyFromDifferentArena (mkReply t len d) x a = Some (mkReply t len d', a') /\
    string_data len d' = Some s /\ arena_inv a'.
Proof.
  intros Ht Hs Hsz Hi Ha. apply string_data_size in Hs as Hlen. assert (0 <= len) by (unfold size in *; lia).
  assert (Hnul : is_Some (string_with_nul len d)).
  { destruct Ht as [->|[->| ->]]; cbn [intact] in Hi; rewrite (proj2 (Z.eqb_neq len npos)) in Hi by (unfold npos; lia);
      by apply bool_decide_eq_true in Hi. }
  destruct (copied_string len d s Hs Hnul) as (s' & Hs' & Hd).
  assert (Hr : CopyFromDifferentArena (mkReply t len d) x a =
    if len <? sizeof_short_str then Some (mkReply t len (Short_str s'), a)
    else (let* ok := arena_allocate (u64 ((len / 8 + 1) * 8)) in
          if negb ok then mret (mkReply t len (_data x)) else mret (mkReply t len (Long_str s'))) a).
  { destruct Ht as [->|[->| ->]]; cbn [CopyFromDifferentArena]; rewrite Hs', (proj2 (Z.eqb_neq (len + 1) 0)) by lia;
      (destruct (len <? sizeof_short_str); [done|]);
      rewrite (proj2 (Z.leb_gt (2 ^ 31) _)) by (Z.to_euclidean_division_equations; lia); done. }
  rewrite Hr. destruct (len <? sizeof_short_str); [by eexists _, a|].
  destruct (arena_granted (u64 ((len / 8 + 1) * 8)) a Ha) as (a' & Hal & Ha').
  { unfold header_size. rewrite u64_small by (Z.to_euclidean_division_equations; lia). Z.to_euclidean_division_equations; lia. }
  unfold mbind'. rewrite Hal. by eexists _, a'.
Qed.

Lemma copy_subs_spec vs : forall l k a, Forall copies vs -> mapM value_of l = Some vs -> forallb intact l = true -> arena_inv a ->
  length k = length l ->
  exists l' a', copy_subs CopyFromDifferentArena l (length l) k a = Some (l', a') /\ mapM value_of l' = Some vs /\ arena_inv a'.
Proof.
  induction vs as [|v vs IH]; intros l k a Hvs Hm Hi Ha Hk; apply mapM_Some in Hm as Hf; inversion Hf as [|r ? l0 ? Hr Hl0]; subst.
  - destruct k; [|done]. by exists [], a.
  - destruct k as [|x k]; [done|]. apply Forall_cons in Hvs as [Hv Hvs]. apply andb_true_iff in Hi as [Hi1 Hi2].
    destruct (Hv r x a Hr Hi1 Ha) as (r' & a1 & Hc & Hr' & Ha1).
    destruct (IH l0 k a1) as (l' & a2 & Hc2 & Hl' & Ha2); [done|by apply mapM_Some|done..|simpl in Hk; lia|].
    exists (r' :: l'), a2. cbn [length copy_subs]. unfold mbind'. rewrite Hc, Hc2. split; [done|]. split; [|done].
    apply mapM_Some. constructor; [done|]. by apply mapM_Some.
Qed.

Lemma reply_copy_spec v : copyable v -> copies v.
Proof.
  induction v as [s|s|z|s| | | |vs IH] using value_ind'; intros Hv r x a Hr Hi Ha;
    inversion Hv as [? Hsz|? Hsz| |? Hsz| | |? Hvs Hn]; subst; apply value_of_means in Hr;
    inversion Hr as [? ? ? Hd|? ? ? Hd|? ?|? ? ? Hl Hd| | | |? |? ? ? Hl Hm]; subst.
  - destruct (copy_string_spec REDIS_REPLY_STATUS len d s x a) as (d' & a' & Hc & Hd' & Ha'); [auto..|].
    eexists _, a'. split; [exact Hc|]. cbn. by rewrite Hd'.
  - destruct (copy_string_spec REDIS_REPLY_ERROR len d s x a) as (d' & a' & Hc & Hd' & Ha'); [auto..|].
    eexists _, a'. split; [exact Hc|]. cbn. by rewrite Hd'.
  - by eexists _, a.
  - destruct (copy_string_spec REDIS_REPLY_STRING len d s x a) as (d' & a' & Hc & Hd' & Ha'); [auto..|].
    eexists _, a'. split; [exact Hc|]. cbn. rewrite (proj2 (Z.eqb_neq len _)) by done. by rewrite Hd'.
  - by eexists _, a.
  - by eexists _, a.
  - cbn [CopyFromDifferentArena]. destruct (arena_granted 0 a Ha) as (a' & Hal & Ha'); [unfold header_size; lia|].
    unfold mbind'. change (u64 (sizeof_RedisReply * 0)) with 0. rewrite Hal. cbn [negb].
    destruct (last_index d) as [i|] eqn:Hlast; [|destruct d; cbn [intact] in Hi; rewrite ?Hlast in Hi; done].
    unfold mlift. cbn [fmap option_fmap option_map].
    assert (i <= 0) as Hi0. { destruct d; cbn [intact] in Hi; rewrite ?Hlast in Hi; cbn in *; simplify_eq; lia. }
    rewrite (proj2 (Z.ltb_ge 0 i)) by lia. exists (mkReply REDIS_REPLY_ARRAY 0 (Array i [])), a'. destruct d; done.
  - apply mapM_Some in Hm as Hf. apply Forall2_length in Hf. cbn [CopyFromDifferentArena].
    destruct (arena_granted (u64 (sizeof_RedisReply * Z.of_nat (length l))) a Ha) as (a1 & Hal & Ha1).
    { unfold sizeof_RedisReply, header_size. rewrite u64_small by lia. lia. }
    unfold mbind'. rewrite Hal. cbn [negb last_index]. unfold mlift. cbn [fmap option_fmap option_map].
    cbn [intact] in Hi. apply andb_true_iff in Hi as [Hi0 Hil]. rewrite (proj2 (Z.ltb_ge 0 i)) by lia. rewrite Nat2Z.id.
    destruct (copy_subs_spec vs l (replicate (length l) new_reply) a1) as (l' & a2 & Hc & Hl' & Ha2); [|done..|by rewrite length_replicate|].
    { rewrite Forall_forall in IH, Hvs |- *. auto. }
    exists (mkReply REDIS_REPLY_ARRAY (Z.of_nat (length l)) (Array i l')), a2.
    split; [destruct (length l) eqn:E; [by destruct l|]; by rewrite Hc|]. split; [|done].
    cbn [value_of]. apply mapM_Some in Hl' as Hf'. apply Forall2_length in Hf'.
    replace (length l') with (length l) by congruence. rewrite Z.eqb_refl.
    rewrite (proj2 (Z.eqb_neq _ npos)), (proj2 (Z.eqb_neq _ 0)) by (unfold npos; destruct l; simpl; done || lia). by rewrite Hl'.
Qed.
End Copy.

End RedisReplySpec.
