(* ===== verification/IOBufAppender.v ===== *)
(** * What the writers on an IOBuf build

    IOBufAppender builds a byte string, which is what the models of HPACK and redis take it
    for; IOBufAsZeroCopyOutputStream and IOBufAsSnappySink append what is written to the areas
    that they lend. *)
From stdpp Require Import base list gmap.
From Stdlib Require Import ZArith Lia Bool.
From S2P Require Import Prelude IOBufBlock IOBufView IOBuf IOBufSpec IOBufFrame IOBufShrink IOBufCaps IOBufOutput RedisReply RedisReplySpec.

Open Scope Z_scope.
Open Scope m_scope.

Module IOBufAppender.
Import Block View IOBuf IOBufSpec IOBufFrame IOBufShrink IOBufCaps IOBufOutput.

(** [append_decimal]: the digits are those of the model of redis. *)
Definition append_decimal `{Env} (a : Appender) (d : Z) : M World (Z * Appender) :=
  let* ds := mlift (RedisReply.append_decimal d) in append a ds.

(** ** The appender *)
Section Appending.
Context (ws : World) (rs : list bid) `{Env}.
Definition no_memory : Prop := ~ forall k, malloc_ok k = true.
(** Either nothing is left to write to, or the rest of a block is lent. *)
Definition appending (w : World) (a : Appender) (bs : list Z) : Prop :=
  _block_size (_zc_stream a) = 0 /\
  ((_data a = _data_end a /\ idle ws rs w (a_buf a) (_zc_stream a) bs) \/
   exists k, a_block a = Some k /\ 0 <= _data a < _data_end a /\ _data_end a <= DEFAULT_BLOCK_SIZE /\ lent ws rs w (a_buf a) (_zc_stream a) bs k (_data a) (_data_end a)).
Lemma appending_room w a bs : appending w a bs -> 0 <= _data_end a - _data a <= DEFAULT_BLOCK_SIZE.
Proof. intros [_ [[-> _]|(k & _ & ? & ? & _)]]; unfold DEFAULT_BLOCK_SIZE in *; lia. Qed.
Lemma write_area_spec w a bs src : appending w a bs -> len src <= _data_end a - _data a ->
  exists w', write_area a src w = Some (tt, w') /\ appending w' (set_data_ptr (_data a + len src) a) (bs ++ src).
Proof.
  intros Hap Hfit. pose proof Hap as (Hz & Hcase). destruct src as [|c src].
  { exists w. split; [done|]. rewrite app_nil_r. cbn [Datatypes.length]. rewrite Z.add_0_r. by destruct a. }
  set (t := c :: src) in *. assert (0 < len t) as Hpos by (cbn; lia). destruct Hcase as [[Heq _]|(k & Hk & Hd & He & Hl)]; [lia|].
  destruct (write_lent ws rs w _ _ bs k _ _ t Hl) as (w' & Heq & Hl'); [lia|]. exists w'. split; [unfold write_area; rewrite Hk; exact Heq|]. split; [done|]. cbn [set_data_ptr _data _data_end a_block a_buf _zc_stream].
  destruct (decide (_data a + len t = _data_end a)) as [He'|Hne]; [left|right].
  - split; [done|]. rewrite He' in Hl'. by eapply lent_all.
  - exists k. split; [done|]. split; [lia|done].
Qed.
Lemma add_block_spec w a bs : appending w a bs -> _data a = _data_end a -> 2 * (len bs + DEFAULT_BLOCK_SIZE) < limit ->
  exists rc a' w', add_block a w = Some ((rc, a'), w') /\ appending w' a' bs /\ (rc = 0 /\ _data a' < _data_end a' \/ rc = -1 /\ no_memory).
Proof.
  intros (Hz & Hcase) Hde Hlim. assert (idle ws rs w (a_buf a) (_zc_stream a) bs) as Hid by (destruct Hcase as [[_ ?]|(k & _ & ? & _)]; [done|lia]).
  destruct (out_next_spec ws rs w _ _ bs Hid (or_introl Hz) Hlim) as (o & b' & s' & w' & Heq & Hz' & Ho). unfold add_block. rewrite (bind_run _ _ _ _ _ Heq). destruct o as [[k d n]|].
  - destruct Ho as (Hl & Hn & Hd & Hdn & _). eexists _, _, w'. split; [done|]. split; [|left; cbn; split; [done|lia]]. split; [by rewrite <- Hz|]. right. exists k. cbn [a_block _data _data_end a_buf _zc_stream]. split; [done|]. split; [lia|]. split; [lia|done].
  - destruct Ho as (-> & Hid' & _ & _ & Hm). eexists _, _, w'. split; [done|]. split; [|by right]. split; [by rewrite <- Hz|]. by left.
Qed.
Lemma app_append_loop_spec fuel w a bs src : appending w a bs -> (Datatypes.length src + (if decide (_data a = _data_end a) then 1 else 0) < fuel)%nat -> 2 * (len bs + len src + DEFAULT_BLOCK_SIZE) < limit ->
  exists rc a' w' p, append_loop fuel a src w = Some ((rc, a'), w') /\ appending w' a' (bs ++ p) /\ (rc = 0 /\ p = src \/ rc = -1 /\ p `prefix_of` src /\ no_memory).
Proof.
  revert w a bs src. induction fuel as [|fuel IH]; intros w a bs src Hap Hf Hlim; [lia|]. cbn [append_loop]. pose proof (appending_room _ _ _ Hap) as Hroom. unfold DEFAULT_BLOCK_SIZE in Hroom.
  set (n := _data_end a - _data a) in *. rewrite (u64_small n) by lia. destruct (Z.leb_spec (len src) n) as [Hle|Hgt].
  - destruct (write_area_spec w a bs src Hap Hle) as (w' & Heq & Hap'). rewrite (bind_run _ _ _ _ _ Heq). eexists _, _, w', src. split; [done|]. split; [exact Hap'|by left].
  - set (p := take (Z.to_nat n) src). assert (len p = n) as Hp by (unfold p; rewrite length_take; lia).
    destruct (write_area_spec w a bs p Hap) as (w1 & Heq1 & Hap1); [lia|]. rewrite (bind_run _ _ _ _ _ Heq1). rewrite Hp in Hap1.
    (* the pointer is not stored before the next block is fetched, which does not look at it *)
    assert (add_block a = add_block (set_data_ptr (_data a + n) a)) as -> by done.
    destruct (add_block_spec w1 _ _ Hap1) as (rc & a2 & w2 & Heq2 & Hap2 & Hrc); [cbn; lia|rewrite length_app; lia|]. rewrite (bind_run _ _ _ _ _ Heq2). destruct Hrc as [[-> Hr2]|[-> Hm]]; cbn [Z.eqb negb].
    + destruct (IH w2 a2 (bs ++ p) (drop (Z.to_nat n) src) Hap2) as (rc & a3 & w3 & q & Heq3 & Hap3 & Hrc).
      { rewrite decide_False by lia. rewrite length_drop. destruct (decide (_data a = _data_end a)); lia. } { rewrite length_app, length_drop. lia. }
      exists rc, a3, w3, (p ++ q). rewrite app_assoc. split; [exact Heq3|]. split; [exact Hap3|]. destruct Hrc as [[-> ->]|(-> & Hq & Hm)].
      * left. split; [done|]. unfold p. by rewrite take_drop.
      * right. split; [done|]. split; [|done]. rewrite <- (take_drop (Z.to_nat n) src). by apply prefix_app.
    + exists (-1), a2, w2, p. split; [done|]. split; [exact Hap2|]. right. split; [done|]. split; [|done]. apply prefix_take.
Qed.
Lemma app_append_spec w a bs src : appending w a bs -> 2 * (len bs + len src + DEFAULT_BLOCK_SIZE) < limit ->
  exists rc a' w' p, append a src w = Some ((rc, a'), w') /\ appending w' a' (bs ++ p) /\ (rc = 0 /\ p = src \/ rc = -1 /\ p `prefix_of` src /\ no_memory).
Proof. intros Hap Hlim. apply app_append_loop_spec; [done| |done]. destruct (decide _); lia. Qed.
Lemma app_push_back_spec w a bs c : appending w a bs -> 2 * (len bs + DEFAULT_BLOCK_SIZE) < limit ->
  exists rc a' w' p, push_back a c w = Some ((rc, a'), w') /\ appending w' a' (bs ++ p) /\ (rc = 0 /\ p = [c] \/ rc = -1 /\ p = [] /\ no_memory).
Proof.
  intros Hap Hlim. assert (exists rc a1 w1, (if _data a =? _data_end a then add_block a else mret (0, a)) w = Some ((rc, a1), w1) /\ appending w1 a1 bs /\
    (rc = 0 /\ _data a1 < _data_end a1 \/ rc = -1 /\ no_memory)) as (rc & a1 & w1 & Heq1 & Hap1 & Hrc).
  { destruct (Z.eqb_spec (_data a) (_data_end a)) as [He|He]; [by apply add_block_spec|]. exists 0, a, w. split; [done|]. split; [done|]. left. split; [done|]. pose proof (appending_room _ _ _ Hap). lia. }
  unfold push_back. rewrite (bind_run _ _ _ _ _ Heq1). destruct Hrc as [[-> Hr]|[-> Hm]]; cbn [Z.eqb negb].
  - destruct (write_area_spec w1 a1 bs [c] Hap1) as (w2 & Heq2 & Hap2); [cbn; lia|]. rewrite (bind_run _ _ _ _ _ Heq2). eexists _, _, w2, [c]. split; [done|]. split; [exact Hap2|by left].
  - eexists _, _, w1, []. rewrite app_nil_r. split; [done|]. split; [exact Hap1|by right].
Qed.
Lemma shrink_spec w a bs : appending w a bs ->
  exists a' w', shrink a w = Some (a', w') /\ _data a' = _data_end a' /\ appending w' a' bs /\ idle ws rs w' (a_buf a') (_zc_stream a') bs.
Proof.
  intros Hap. pose proof (appending_room _ _ _ Hap) as Hroom. unfold DEFAULT_BLOCK_SIZE in Hroom. unfold shrink. rewrite u64_small by lia. destruct Hap as (Hz & [[Heq Hid]|(k & Hk & Hd & He & Hl)]).
  - rewrite Heq, Z.sub_diag. exists a, w. split; [done|]. split; [done|]. split; [|done]. split; [done|by left].
  - rewrite (proj2 (Z.eqb_neq _ _)) by lia. rewrite i32_small by lia. destruct (back_up_spec ws rs w _ _ bs k _ _ Hl) as (b' & s' & w' & Heq & Hid & Hz' & _); [lia|unfold DEFAULT_BLOCK_SIZE in He; lia|].
    rewrite (bind_run _ _ _ _ _ Heq). eexists _, w'. split; [done|]. split; [done|]. split; [|exact Hid]. split; [by rewrite <- Hz|]. by left.
Qed.
(** [move_to] hands out the string; the appender goes on with an empty one. *)
Lemma move_to_spec w a bs target ts rs' : rs = owned target ++ rs' -> appending w a bs -> holds ws target ts ->
  exists t a' w', move_to a target w = Some ((t, a'), w') /\ holds w' t bs /\ stable ws w' rs' /\ _block_size (_zc_stream a') = 0 /\ _data a' = _data_end a' /\ a_buf a' = IOBuf_empty /\
    default_caps w' /\ accounted w' (_zc_stream a') (owned t ++ rs').
Proof.
  intros Hrs Hap Ht. destruct (shrink_spec w a bs Hap) as (a1 & w1 & Heq1 & Hd1 & (Hz1 & _) & Hh1 & Hst1 & Hcap1 & tc & Hi1 & Hn1 & Hk1). rewrite Hrs in Hst1, Hi1. unfold move_to, buf. rewrite (bind_run _ _ _ _ _ Heq1).
  assert (holds w1 target ts) as Ht1 by (eapply holds_stable; [exact Hst1|intros x Hx; apply elem_of_app; by left|done]).
  destruct (clear_yields w1 target ts (held (_zc_stream a1) ++ owned (a_buf a1) ++ rs') Ht1) as (w2 & Heq2 & _ & Hi2 & Hst2).
  { exists tc. split; [|done]. eapply inv_perm; [|exact Hi1]. intros x. rewrite !cnt_app. lia. }
  rewrite (bind_run _ _ _ _ _ Heq2). pose proof (framing_clear target _ _ _ Heq2) as Hfr. cbn [app] in Hi2.
  eexists _, _, w2. split; [done|]. split; [eapply holds_stable; [exact Hst2|intros x Hx; rewrite !elem_of_app; tauto|done]|].
  split; [eapply stable_trans; (eapply stable_sub; [|eassumption]); intros x Hx; rewrite ?elem_of_app; tauto|].
  cbn [_zc_stream _data _data_end a_buf]. do 3 (split; [done|]). split; [exact (capped_framing _ (framing_clear target) _ _ _ Heq2 Hcap1)|].
  destruct (frame_inv _ tc w1 w2 _ _ Hfr Hi1 eq_refl Hn1 Hi2) as [Hi2' Hn2]. exists tc. split; [exact Hi2'|]. split; [done|]. intros k Hk. destruct (Hk1 k Hk) as (Hni & blk & Hb & Hud). split; [done|].
  destruct (inv_live _ _ _ _ Hi2' k) as [blk2 Hb2]; [unfold held; rewrite Hk; by left|]. exists blk2. split; [done|]. destruct (proj1 Hfr k blk2 Hb2) as (b0 & Hb0 & ->). simplify_eq. done.
Qed.

(** ** Sessions *)
Inductive aop := AAppend (src : list Z) | APush (c : Z) | ADecimal (d : Z) | ABuf.
Inductive aans := ARc (rc : Z) | AContent (bs : list Z).
Definition aexec (o : aop) (a : Appender) : M World (aans * Appender) :=
  match o with
  | AAppend src => let* (rc, a') := append a src in mret (ARc rc, a')
  | APush c => let* (rc, a') := push_back a c in mret (ARc rc, a')
  | ADecimal d => let* (rc, a') := append_decimal a d in mret (ARc rc, a')
  | ABuf => let* a' := buf a in let* s := to_string (a_buf a') in mret (AContent s, a')
  end.
Fixpoint arun (os : list aop) (a : Appender) : M World (list aans * Appender) :=
  match os with
  | [] => mret ([], a)
  | o :: os => let* (x, a1) := aexec o a in let* (l, a2) := arun os a1 in mret (x :: l, a2)
  end.
(** The text of an operation that appends. *)
Definition text_of (o : aop) : list Z :=
  match o with AAppend src => src | APush c => [c] | ADecimal d => default [] (RedisReply.append_decimal d) | ABuf => [] end.
Inductive text_step : aop -> list Z -> aans -> list Z -> Prop :=
| text_append o bs : o <> ABuf -> text_step o bs (ARc 0) (bs ++ text_of o)
| text_fails o bs p : o <> ABuf -> no_memory -> p `prefix_of` text_of o -> text_step o bs (ARc (-1)) (bs ++ p)
| text_buf bs : text_step ABuf bs (AContent bs) bs.
Inductive text_steps : list aop -> list Z -> list aans -> list Z -> Prop :=
| text_steps_nil bs : text_steps [] bs [] bs
| text_steps_cons o os bs x bs1 l bs2 : text_step o bs x bs1 -> text_steps os bs1 l bs2 -> text_steps (o :: os) bs (x :: l) bs2.
Definition aop_ok (o : aop) : Prop := match o with ADecimal d => - 2 ^ 63 < d < 2 ^ 63 | _ => True end.
Definition text_length (os : list aop) : Z := foldr (fun o z => len (text_of o) + z) 0 os.

Lemma aexec_spec o w a bs : appending w a bs -> aop_ok o -> 2 * (len bs + len (text_of o) + DEFAULT_BLOCK_SIZE) < limit ->
  exists x a' w' bs', aexec o a w = Some ((x, a'), w') /\ text_step o bs x bs' /\ appending w' a' bs' /\ len bs' <= len bs + len (text_of o).
Proof.
  intros Hap Hok Hlim. assert (forall src p rc, src = text_of o -> o <> ABuf -> (rc = 0 /\ p = src \/ rc = -1 /\ p `prefix_of` src /\ no_memory) -> text_step o bs (ARc rc) (bs ++ p) /\ len (bs ++ p) <= len bs + len (text_of o)) as Hres.
  { intros src p rc -> Ho [[-> ->]|(-> & Hp & Hm)]; (split; [by constructor|]); rewrite length_app; [lia|]. apply prefix_length in Hp. lia. }
  destruct o as [src|c|d|]; cbn [aexec text_of aop_ok] in *.
  - destruct (app_append_spec w a bs src Hap Hlim) as (rc & a' & w' & p & Heq & Hap' & Hrc). rewrite (bind_run _ _ _ _ _ Heq). destruct (Hres src p rc) as [Hs Hl]; [done|done|done|]. by eexists _, _, w', _.
  - destruct (app_push_back_spec w a bs c Hap) as (rc & a' & w' & p & Heq & Hap' & Hrc); [lia|]. rewrite (bind_run _ _ _ _ _ Heq). destruct (Hres [c] p rc) as [Hs Hl]; [done|done| |by eexists _, _, w', _].
    destruct Hrc as [?|(-> & -> & Hm)]; [by left|right]. split; [done|]. split; [apply prefix_nil|done].
  - destruct (RedisReplySpec.append_decimal_spec d Hok) as (ds & Hds & _). rewrite Hds in Hlim, Hres |- *. cbn [default] in *. unfold append_decimal. rewrite Hds.
    destruct (app_append_spec w a bs ds Hap Hlim) as (rc & a' & w' & p & Heq & Hap' & Hrc). rewrite (bind_run _ _ _ (rc, a') w') by exact Heq. destruct (Hres ds p rc) as [Hs Hl]; [done|done|done|]. by eexists _, _, w', _.
  - destruct (shrink_spec w a bs Hap) as (a' & w' & Heq & _ & Hap' & Hid). unfold buf. rewrite (bind_run _ _ _ _ _ Heq). pose proof Hid as (Hh & _ & _ & Hacc).
    rewrite (bind_run _ _ _ bs w'); [|apply (to_string_spec _ _ _ _ Hh (accounted_inv _ _ _ Hacc)); unfold limit, DEFAULT_BLOCK_SIZE in Hlim; lia]. eexists _, _, w', bs. split; [done|]. split; [constructor|]. split; [done|cbn; lia].
Qed.
Lemma arun_spec os w a bs : appending w a bs -> Forall aop_ok os -> 2 * (len bs + text_length os + DEFAULT_BLOCK_SIZE) < limit ->
  exists l a' w' bs', arun os a w = Some ((l, a'), w') /\ text_steps os bs l bs' /\ appending w' a' bs'.
Proof.
  revert w a bs. induction os as [|o os IH]; intros w a bs Hap Hok Hlim; cbn [arun].
  { eexists _, _, w, bs. split; [done|]. split; [constructor|done]. }
  apply Forall_cons in Hok as [Ho Hok]. cbn [text_length foldr] in Hlim. fold (text_length os) in Hlim. assert (0 <= text_length os) by (clear; induction os; cbn; unfold text_length in *; lia).
  destruct (aexec_spec o w a bs Hap Ho) as (x & a1 & w1 & bs1 & Heq1 & Hs1 & Hap1 & Hl1); [lia|]. destruct (IH w1 a1 bs1 Hap1 Hok) as (l & a2 & w2 & bs2 & Heq2 & Hs2 & Hap2); [lia|].
  rewrite (bind_run _ _ _ _ _ Heq1), (bind_run _ _ _ _ _ Heq2). eexists _, _, w2, bs2. split; [done|]. split; [by econstructor|done].
Qed.
Lemma app_delete_spec w a bs : appending w a bs -> exists w', Appender_delete a w = Some (tt, w') /\ inv w' rs /\ stable ws w' rs.
Proof.
  intros (_ & Hcase). assert (exists bs', idle ws rs w (a_buf a) (_zc_stream a) bs') as [bs' Hid].
  { destruct Hcase as [[_ Hid]|(k & _ & _ & _ & Hl)]; [by exists bs|]. destruct (lent_idle _ _ _ _ _ _ _ _ _ Hl) as [fill Hid]. by eexists. }
  destruct (delete_idle ws rs w _ _ bs' Hid) as (w1 & w2 & Heq1 & _ & _ & _ & Heq2 & Hi & Hst). exists w2. unfold Appender_delete. by rewrite (bind_run _ _ _ _ _ Heq1), (bind_run _ _ _ _ _ Heq2).
Qed.
Lemma appending_new : inv ws rs -> default_caps ws -> appending ws Appender_new [].
Proof.
  intros (tc & Hi & Hn) Hcap. split; [done|]. left. split; [done|]. split; [apply holds_empty|]. split; [apply stable_refl|]. split; [done|]. exists tc. by split_and!.
Qed.
End Appending.

(** C22: An IOBufAppender builds a string.  Under any sequence of append, push_back,
    append_decimal and buf() the content of buf() is exactly what was appended so far, in
    order; without memory an operation returns -1 and has appended a prefix of its text.  What
    other buffers hold, in the same blocks too, does not change, and the destructor returns
    every reference. *)
Theorem appender_builds_a_string `{Env} ws rs os :
  inv ws rs -> default_caps ws -> Forall aop_ok os -> 2 * (text_length os + DEFAULT_BLOCK_SIZE) < limit ->
  exists l a w bs, arun os Appender_new ws = Some ((l, a), w) /\ text_steps os [] l bs /\ stable ws w rs /\
    (exists a' w', buf a w = Some (a', w') /\ holds w' (a_buf a') bs /\ stable ws w' rs) /\
    exists w', Appender_delete a w = Some (tt, w') /\ inv w' rs /\ stable ws w' rs.
Proof.
  intros Hi Hcap Hok Hlim. destruct (arun_spec ws rs os ws Appender_new [] (appending_new ws rs Hi Hcap) Hok) as (l & a & w & bs & Heq & Hs & Hap); [cbn; lia|].
  exists l, a, w, bs. split; [exact Heq|]. split; [exact Hs|]. split; [destruct Hap as (_ & [[_ Hid]|(k & _ & _ & _ & Hl)]); [apply Hid|apply Hl]|]. split; [|by eapply app_delete_spec].
  destruct (shrink_spec ws rs w a bs Hap) as (a' & w' & Heq' & _ & _ & Hid). exists a', w'. split; [exact Heq'|]. split; apply Hid.
Qed.
Definition some_appends : list aop := [AAppend [1; 2]; APush 3; ABuf; ADecimal (-40); AAppend (replicate 20 7); ABuf].
Example some_appends_answers : (fun x => x.1.1) <$> arun (H := plenty) some_appends Appender_new w0 =
  Some [ARc 0; ARc 0; AContent [1; 2; 3]; ARc 0; ARc 0; AContent ([1; 2; 3; 45; 52; 48] ++ replicate 20 7)].
Proof. vm_compute. reflexivity. Qed.
Lemma appender_witness : exists a w bs, arun (H := plenty) some_appends Appender_new w0 =
    Some (([ARc 0; ARc 0; AContent [1; 2; 3]; ARc 0; ARc 0; AContent ([1; 2; 3; 45; 52; 48] ++ replicate 20 7)], a), w) /\
  exists a' w', buf a w = Some (a', w') /\ holds w' (a_buf a') bs.
Proof.
  destruct (appender_builds_a_string (H := plenty) w0 [] some_appends) as (l & a & w & bs & Heq & _ & _ & (a' & w' & Hb & Hh & _) & _);
    [apply inv_w0|intros k blk Hk; cbn in Hk; by rewrite lookup_empty in Hk|repeat constructor; cbn; lia|vm_compute; reflexivity|].
  pose proof some_appends_answers as Ha. rewrite Heq in Ha. injection Ha as ->. exists a, w, bs. split; [exact Heq|]. exists a', w'. exact (conj Hb Hh).
Defined.

(** ** The output stream

    One use of the stream: the caller asks for an area, writes as much of its text as fits and
    gives the rest of the area back; the answer is the number of bytes written. *)
Section Streaming.
Context (ws : World) (rs : list bid) `{Env}.
Definition put (src : list Z) (b : buffer) (s : OutStream) : M World (option Z * buffer * OutStream) :=
  let* (o, b1, s1) := Next b s in
  match o with
  | None => mret (None, b1, s1)
  | Some (mkArea k d n) =>
      let p := Z.min n (len src) in
      do* write_at k d (take (Z.to_nat p) src) in
      if p <? n then let* (b2, s2) := BackUp b1 s1 (n - p) in mret (Some p, b2, s2) else mret (Some p, b1, s1)
  end.
Fixpoint puts (srcs : list (list Z)) (b : buffer) (s : OutStream) : M World (list (option Z) * buffer * OutStream) :=
  match srcs with
  | [] => mret ([], b, s)
  | src :: srcs => let* (x, b1, s1) := put src b s in let* (l, b2, s2) := puts srcs b1 s1 in mret (x :: l, b2, s2)
  end.
(** What an answer adds to the buffer. *)
Definition put_text (src : list Z) (x : option Z) : list Z := match x with Some p => take (Z.to_nat p) src | None => [] end.
Definition put_ok (src : list Z) (x : option Z) : Prop := match x with Some p => 0 <= p <= len src /\ (src <> [] -> 0 < p) | None => no_memory end.
Definition streaming (w : World) (b : buffer) (s : OutStream) (bs : list Z) (n : Z) : Prop := idle ws rs w b s bs /\ size_ok s /\ _byte_count s = n.
Lemma out_put_spec w b s bs c src : streaming w b s bs c -> 0 <= c <= len bs -> 2 * (len bs + DEFAULT_BLOCK_SIZE) < limit ->
  exists x b' s' w', put src b s w = Some ((x, b', s'), w') /\ put_ok src x /\ streaming w' b' s' (bs ++ put_text src x) (c + len (put_text src x)).
Proof.
  intros (Hid & Hsz & Hc) Hc0 Hlim. pose proof Hlim as Hlim'. unfold limit, DEFAULT_BLOCK_SIZE in Hlim'. destruct (out_next_spec ws rs w b s bs Hid Hsz Hlim) as (o & b1 & s1 & w1 & Heq1 & Hz1 & Ho). unfold put. rewrite (bind_run _ _ _ _ _ Heq1). destruct o as [[k d n]|].
  2:{ destruct Ho as (-> & Hid1 & Hb1 & _ & Hm). eexists _, _, _, w1. split; [done|]. split; [exact Hm|]. rewrite app_nil_r. split; [exact Hid1|]. split; [unfold size_ok in *; by rewrite Hz1|]. rewrite Hb1. cbn. lia. }
  destruct Ho as (Hl & Hn & Hd & Hdn & Hb1). set (p := Z.min n (len src)). set (t := take (Z.to_nat p) src). assert (len t = p) as Ht by (unfold t; rewrite length_take; lia).
  destruct (write_lent ws rs w1 b1 s1 bs k d (d + n) t Hl) as (w2 & Heq2 & Hl2); [lia|]. rewrite (bind_run _ _ _ _ _ Heq2). rewrite Ht in Hl2.
  assert (put_ok src (Some p)) as Hp by (split; [lia|]; intros Hne; destruct src; [done|cbn in *; lia]). destruct (Z.ltb_spec p n) as [Hlt|Hge].
  - destruct (back_up_spec ws rs w2 b1 s1 _ k _ _ Hl2) as (b2 & s2 & w3 & Heq3 & Hid3 & Hz3 & Hb3 & _); [lia|unfold DEFAULT_BLOCK_SIZE in *; lia|]. replace (d + n - (d + p)) with (n - p) in * by lia.
    rewrite (bind_run _ _ _ _ _ Heq3). eexists _, _, _, w3. split; [done|]. split; [exact Hp|]. cbn [put_text]. fold t. rewrite Ht. split; [exact Hid3|]. split; [unfold size_ok in *; by rewrite Hz3, Hz1|].
    rewrite Hb3, Hb1, Hc. unfold DEFAULT_BLOCK_SIZE in *. rewrite (i64_small (c + n)) by lia. rewrite i64_small by lia. lia.
  - assert (p = n) as Hpn by lia. rewrite Hpn in Hl2. eexists _, _, _, w2. split; [done|]. split; [exact Hp|]. cbn [put_text]. fold t. rewrite Ht. split; [by eapply lent_all|]. split; [unfold size_ok in *; by rewrite Hz1|].
    rewrite Hb1, Hc. unfold DEFAULT_BLOCK_SIZE in *. rewrite i64_small by lia. lia.
Qed.
Lemma out_puts_spec srcs w b s bs c : streaming w b s bs c -> 0 <= c <= len bs -> 2 * (len bs + len (mjoin srcs) + DEFAULT_BLOCK_SIZE) < limit ->
  exists l b' s' w', puts srcs b s w = Some ((l, b', s'), w') /\ Forall2 put_ok srcs l /\ streaming w' b' s' (bs ++ mjoin (zip_with put_text srcs l)) (c + len (mjoin (zip_with put_text srcs l))).
Proof.
  revert w b s bs c. induction srcs as [|src srcs IH]; intros w b s bs c Hst Hc Hlim; cbn [puts].
  { eexists _, _, _, w. split; [done|]. split; [constructor|]. cbn [zip_with]. change (mjoin []) with (@nil Z). rewrite app_nil_r. cbn [Datatypes.length]. by rewrite Z.add_0_r. }
  change (mjoin (src :: srcs)) with (src ++ mjoin srcs) in Hlim. rewrite length_app in Hlim.
  destruct (out_put_spec w b s bs c src Hst Hc) as (x & b1 & s1 & w1 & Heq1 & Hx & Hst1); [lia|]. assert (len (put_text src x) <= len src) as Hle by (destruct x; cbn; [rewrite length_take|]; lia).
  destruct (IH w1 b1 s1 _ _ Hst1) as (l & b2 & s2 & w2 & Heq2 & Hl & Hst2); [rewrite length_app; lia|rewrite length_app; lia|].
  rewrite (bind_run _ _ _ _ _ Heq1), (bind_run _ _ _ _ _ Heq2). eexists _, _, _, w2. split; [done|]. split; [by constructor|]. cbn [zip_with]. change (mjoin (?a :: ?m)) with (a ++ mjoin m).
  rewrite length_app, app_assoc, Nat2Z.inj_add, Z.add_assoc. exact Hst2.
Qed.
End Streaming.

(** C23: The output stream appends what is written to the areas it lends: whatever callers
    write between Next and BackUp, with blocks of the cache of the thread or with blocks of
    a size of 33 to 8192 bytes, the buffer gets exactly these bytes behind its old content,
    ByteCount is their number, each Next gives room for at least one byte unless memory runs
    out, and what others hold does not change; the destructor keeps the content. The blocks
    of the heap have at most the default size and the buffer stays below 2^29 bytes. (Larger
    sizes are not covered, and with 25 to 32 bytes, which the constructor accepts, it is
    false: small_block_size_is_accepted.) *)
Theorem output_stream_appends `{Env} ws b bs0 rs s srcs :
  holds ws b bs0 -> inv ws (owned b ++ rs) -> default_caps ws -> s = OutStream_new \/ (exists n, OutStream_sized n = Some s /\ sizeof_Block < n <= DEFAULT_BLOCK_SIZE) ->
  2 * (len bs0 + len (mjoin srcs) + DEFAULT_BLOCK_SIZE) < limit ->
  exists l b' s' w' (text := mjoin (zip_with put_text srcs l)), puts srcs b s ws = Some ((l, b', s'), w') /\ Forall2 put_ok srcs l /\
    holds w' b' (bs0 ++ text) /\ ByteCount s' = len text /\ stable ws w' rs /\
    exists w2, OutStream_delete s' w' = Some (tt, w2) /\ holds w2 b' (bs0 ++ text) /\ inv w2 (owned b' ++ rs).
Proof.
  intros Hh (tc & Hi & Hn) Hcap Hs Hlim. assert (size_ok s /\ _cur_block s = None /\ _byte_count s = 0) as (Hsz & Hc & Hb).
  { destruct Hs as [->|(n & Hs & Hn')]; [split; [by left|done]|]. unfold OutStream_sized in Hs. destruct (_ <=? _); [done|]. injection Hs as <-. split; [by right|done]. }
  destruct (out_puts_spec ws rs srcs ws b s bs0 0) as (l & b' & s' & w' & Heq & Hl & Hid & _ & Hcount); [|lia|lia|].
  { split; [|by split]. split; [done|]. split; [apply stable_refl|]. split; [done|]. exists tc. unfold held. rewrite Hc. by split_and!. }
  destruct (delete_idle ws rs w' b' s' _ Hid) as (w2 & _ & Heq2 & Hh2 & Hi2 & _). exists l, b', s', w'. cbv zeta. split; [exact Heq|]. split; [exact Hl|]. split; [apply Hid|]. split; [exact Hcount|]. split; [apply Hid|]. by exists w2.
Qed.
Definition some_puts : list (list Z) := [[1; 2; 3]; []; replicate 20 7].
Example some_puts_answers : (fun x => x.1.1.1) <$> puts (H := plenty) some_puts IOBuf_empty (mkOut 40 None 0) w0 = Some [Some 3; Some 0; Some 5].
Proof. vm_compute. reflexivity. Qed.
Lemma output_stream_witness : exists b' s' w', puts (H := plenty) some_puts IOBuf_empty (mkOut 40 None 0) w0 = Some (([Some 3; Some 0; Some 5], b', s'), w') /\ holds w' b' [1; 2; 3; 7; 7; 7; 7; 7] /\ ByteCount s' = 8.
Proof.
  destruct (output_stream_appends (H := plenty) w0 IOBuf_empty [] [] (mkOut 40 None 0) some_puts) as (l & b' & s' & w' & Heq & _ & Hh & Hb & _);
    [apply holds_empty|apply inv_w0|intros k blk Hk; cbn in Hk; by rewrite lookup_empty in Hk|right; exists 40; split; [reflexivity|unfold sizeof_Block, DEFAULT_BLOCK_SIZE; lia]|vm_compute; reflexivity|].
  pose proof some_puts_answers as Ha. rewrite Heq in Ha. injection Ha as ->. exists b', s', w'. exact (conj Heq (conj Hh Hb)).
Defined.

(** ** IOBufAsSnappySink *)
#[global] Instance capped_drop_full fuel b : Capped (drop_full fuel b).
Proof. revert b. induction fuel; intros b; cbn [drop_full]; capped. Qed.
#[global] Instance capped_share `{Env} : Capped share_tls_block.
Proof. unfold share_tls_block, share_tls_finish. capped. Qed.
#[global] Instance capped_buf_append_loop `{Env} fuel b src : Capped (IOBuf.append_loop fuel b src).
Proof. revert b src. induction fuel; intros b src; cbn [IOBuf.append_loop]; capped. Qed.
#[global] Instance capped_buf_append `{Env} b src : Capped (IOBuf.append b src).
Proof. unfold IOBuf.append, IOBuf.push_back. capped. Qed.

(** One use of the sink by the compressor: it asks for [length] bytes of memory, writes its
    output, which is not longer, and says how much it is. *)
Section Sinking.
Context (ws : World) (rs : list bid) `{Env}.
Definition collect (length : Z) (src : list Z) (b : buffer) (s : SnappySink) : M World (buffer * SnappySink) :=
  let* (o, b1, s1) := GetAppendBuffer b s length in
  do* match o with Some ar => write_at (ar_block ar) (ar_data ar) src | None => mret tt end in
  Append b1 s1 src.
Fixpoint collect_all (l : list (Z * list Z)) (b : buffer) (s : SnappySink) : M World (buffer * SnappySink) :=
  match l with
  | [] => mret (b, s)
  | (n, src) :: l => let* (b1, s1) := collect n src b s in collect_all l b1 s1
  end.
Definition sinking (w : World) (b : buffer) (s : SnappySink) (bs : list Z) : Prop :=
  _cur_len s = 0 /\ _block_size (_buf_stream s) = 0 /\ _cur_block (_buf_stream s) = None /\ idle ws rs w b (_buf_stream s) bs.
Lemma sink_append w b s bs src : sinking w b s bs -> 2 * (len bs + len src) < limit ->
  exists b' w' p, Append b s src w = Some ((b', s), w') /\ sinking w' b' s (bs ++ p) /\ p `prefix_of` src /\ ((forall k, malloc_ok k = true) -> p = src).
Proof.
  intros (Hl & Hz & Hc & Hh & Hst & Hcap & tc & Hi & Hn & _) Hlim. unfold held in Hi. rewrite Hc in Hi. cbn [app] in Hi.
  destruct (append_spec w b bs rs src Hh (ex_intro _ tc (conj Hi Hn)) Hlim) as (rc & b' & k & (w' & Heq & Hh' & (tc' & Hi' & Hn') & Hst') & Hm & Hk). unfold Append. rewrite Hl. cbn [Z.ltb Z.compare].
  rewrite (bind_run _ _ _ _ _ Heq). exists b', w', (take k src). split; [done|]. split; [|split; [apply prefix_take|]].
  - do 3 (split; [done|]). split; [done|]. split; [by eapply stable_trans|]. split; [exact (capped_buf_append _ _ _ _ _ Heq Hcap)|]. exists tc'. unfold held. rewrite Hc. by split_and!.
  - intros Hall. destruct Hk as [[_ ->]|[Hrc _]]; [apply firstn_all|]. specialize (Hm Hall). lia.
Qed.
Lemma get_append_buffer_spec w b s bs n : sinking w b s bs -> 2 * (len bs + DEFAULT_BLOCK_SIZE) < limit ->
  exists o b1 s1 w1, GetAppendBuffer b s n w = Some ((o, b1, s1), w1) /\
    match o with
    | None => sinking w1 b1 s1 bs
    | Some (mkArea k d m) => n <= m /\ 0 < m /\ 0 <= d /\ d + m < 2 ^ 31 /\ _cur_len s1 = m /\ _block_size (_buf_stream s1) = 0 /\ lent ws rs w1 b1 (_buf_stream s1) bs k d (d + m)
    end.
Proof.
  intros Hs Hlim. pose proof Hs as (_ & Hz & Hc & Hid). unfold GetAppendBuffer. destruct (n <=? 8000); [|eexists None, _, _, w; split; [done|]; by split_and!].
  destruct (out_next_spec ws rs w b _ bs Hid (or_introl Hz) Hlim) as (o & b1 & s1 & w1 & Heq1 & Hz1 & Ho). rewrite Hz in Hz1. rewrite (bind_run _ _ _ _ _ Heq1). destruct o as [[k d m]|].
  2:{ destruct Ho as (-> & Hid1 & _ & Hc1 & _). eexists None, _, _, w1. split; [done|]. by split_and!. }
  destruct Ho as (Hlent & Hm & Hd & Hdm & _). cbn [ar_size]. unfold DEFAULT_BLOCK_SIZE in Hdm. destruct (Z.leb_spec n m) as [Hnm|Hnm].
  - eexists (Some _), _, _, w1. split; [done|]. cbn [_cur_len _buf_stream]. split; [done|]. split; [lia|]. split; [lia|]. split; [lia|]. by split_and!.
  - destruct (back_up_spec ws rs w1 b1 s1 bs k _ _ Hlent) as (b2 & s2 & w2 & Heq2 & Hid2 & Hz2 & _ & Hc2); [lia|lia|]. replace (d + m - d) with m in Heq2 by lia. rewrite (bind_run _ _ _ _ _ Heq2).
    eexists None, _, _, w2. split; [done|]. rewrite Hz1 in Hz2, Hc2. split; [done|]. split; [done|]. split; [by apply Hc2|done].
Qed.
Lemma collect_spec w b s bs n src : sinking w b s bs -> len src <= n -> 2 * (len bs + len src + DEFAULT_BLOCK_SIZE) < limit ->
  exists b' s' w' p, collect n src b s w = Some ((b', s'), w') /\ sinking w' b' s' (bs ++ p) /\ p `prefix_of` src /\ ((forall k, malloc_ok k = true) -> p = src).
Proof.
  intros Hs Hle Hlim. unfold DEFAULT_BLOCK_SIZE in Hlim. destruct (get_append_buffer_spec w b s bs n Hs) as (o & b1 & s1 & w1 & Heq1 & Ho); [unfold DEFAULT_BLOCK_SIZE; lia|].
  unfold collect. rewrite (bind_run _ _ _ _ _ Heq1). destruct o as [[k d m]|].
  - destruct Ho as (Hnm & Hm & Hd & Hdm & Hcl & Hz1 & Hlent). cbn [ar_block ar_data]. destruct (write_lent ws rs w1 b1 _ bs k d (d + m) src Hlent) as (w2 & Heq2 & Hlent2); [lia|]. rewrite (bind_run _ _ _ _ _ Heq2).
    destruct (back_up_spec ws rs w2 b1 _ _ k _ _ Hlent2) as (b2 & s2 & w3 & Heq3 & Hid3 & Hz3 & _ & Hc3); [lia|lia|]. replace (d + m - (d + len src)) with (m - len src) in Heq3 by lia.
    unfold Append. rewrite Hcl, (proj2 (Z.ltb_lt 0 m)), i32_small by lia. rewrite (bind_run _ _ _ _ _ Heq3).
    eexists _, _, w3, src. split; [done|]. split; [|done]. split; [done|]. cbn [_buf_stream]. rewrite Hz1 in Hz3, Hc3. split; [done|]. split; [by apply Hc3|done].
  - rewrite (bind_run _ _ _ tt w1) by done. destruct (sink_append w1 b1 s1 bs src Ho) as (b' & w' & p & Heq & Hrest); [lia|]. by exists b', s1, w', p.
Qed.
Lemma collect_all_spec l w b s bs : (forall k, malloc_ok k = true) -> sinking w b s bs -> Forall (fun x => len x.2 <= x.1) l -> 2 * (len bs + len (mjoin (map snd l)) + DEFAULT_BLOCK_SIZE) < limit ->
  exists b' s' w', collect_all l b s w = Some ((b', s'), w') /\ sinking w' b' s' (bs ++ mjoin (map snd l)).
Proof.
  intros Hm. revert w b s bs. induction l as [|[n src] l IH]; intros w b s bs Hs Hl Hlim; cbn [collect_all map snd].
  - eexists _, _, w. split; [done|]. change (mjoin []) with (@nil Z). by rewrite app_nil_r.
  - apply Forall_cons in Hl as [Hx Hl]. cbn [fst snd map] in Hx, Hlim. change (mjoin (src :: map snd l)) with (src ++ mjoin (map snd l)) in *. rewrite length_app in Hlim.
    destruct (collect_spec w b s bs n src Hs Hx) as (b1 & s1 & w1 & p & Heq1 & Hs1 & _ & Hp); [lia|]. rewrite (Hp Hm) in Hs1. destruct (IH w1 b1 s1 _ Hs1 Hl) as (b2 & s2 & w2 & Heq2 & Hs2); [rewrite length_app; lia|].
    rewrite (bind_run _ _ _ _ _ Heq1). exists b2, s2, w2. split; [exact Heq2|]. by rewrite app_assoc.
Qed.
End Sinking.
(** What a compressor writes through IOBufAsSnappySink arrives in the buffer.  For any
    sequence of GetAppendBuffer and Append, with outputs that fit what was asked for, the
    buffer has its old content and behind it all outputs in order, whether they were written
    in place or copied, if memory does not run out; what others hold does not change. *)
Theorem snappy_sink_collects `{Env} ws b bs0 rs l :
  holds ws b bs0 -> inv ws (owned b ++ rs) -> default_caps ws -> (forall k, malloc_ok k = true) -> Forall (fun x => len x.2 <= x.1) l ->
  2 * (len bs0 + len (mjoin (map snd l)) + DEFAULT_BLOCK_SIZE) < limit ->
  exists b' s' w', collect_all l b SnappySink_new ws = Some ((b', s'), w') /\ holds w' b' (bs0 ++ mjoin (map snd l)) /\ inv w' (owned b' ++ rs) /\ stable ws w' rs.
Proof.
  intros Hh (tc & Hi & Hn) Hcap Hm Hl Hlim. destruct (collect_all_spec ws rs l ws b SnappySink_new bs0 Hm) as (b' & s' & w' & Heq & _ & _ & Hc & Hh' & Hst & _ & Hacc); [|done|done|].
  { do 3 (split; [done|]). split; [done|]. split; [apply stable_refl|]. split; [done|]. by exists tc. }
  exists b', s', w'. split; [exact Heq|]. split; [done|]. split; [|done]. apply accounted_inv in Hacc. unfold held in Hacc. by rewrite Hc in Hacc.
Qed.
Lemma snappy_sink_witness : exists b' s' w', collect_all (H := plenty) [(5, [1; 2; 3]); (9000, [4]); (2, [5; 6])] IOBuf_empty SnappySink_new w0 = Some ((b', s'), w') /\ holds w' b' [1; 2; 3; 4; 5; 6].
Proof.
  destruct (snappy_sink_collects (H := plenty) w0 IOBuf_empty [] [] [(5, [1; 2; 3]); (9000, [4]); (2, [5; 6])]) as (b' & s' & w' & Heq & Hh & _);
    [apply holds_empty|apply inv_w0|intros k blk Hk; cbn in Hk; by rewrite lookup_empty in Hk|done|repeat constructor; cbn; lia|vm_compute; reflexivity|].
  exists b', s', w'. exact (conj Heq Hh).
Defined.

(** Block sizes that are too small are accepted.  The constructor refuses sizes up to the
    offset of the pointer [data] in a block, 24, but a block needs 32 bytes for itself: with 25 the
    capacity wraps around, Next puts 4294967289 bytes into the buffer, announces an area
    of size -7 and a write to it is outside of the memory; with 32 every Next succeeds and
    gives no byte. *)
Theorem small_block_size_is_accepted (next := fun s => Next (H := plenty) IOBuf_empty s) :
  OutStream_sized 24 = None /\ OutStream_sized 25 = Some (mkOut 25 None 0) /\
  (fun x => (x.1.1.1, length_ x.1.1.2)) <$> next (mkOut 25 None 0) w0 = Some (Some (mkArea 1 0 (-7)), 4294967289) /\
  (let* _ := next (mkOut 25 None 0) in write_at 1 0 [7]) w0 = None /\
  (fun x => (x.1.1.1, length_ x.1.1.2)) <$> next (mkOut 32 None 0) w0 = Some (Some (mkArea 1 0 0), 0).
Proof. vm_compute. done. Qed.

(** Eight bytes are written through a stream with blocks of that capacity, the buffer is
    copied, another area is asked for and BackUp takes it back with four of the bytes; then
    four other bytes are written.  The copy before and after, and the buffer. *)
Definition back_up_a_copy : M World (list Z * list Z * list Z) :=
  let* (_, b1, s1) := put (H := plenty) [1; 2; 3; 4; 5; 6; 7; 8] IOBuf_empty (mkOut 40 None 0) in
  let* copy := IOBuf_copy b1 in
  let* before := to_string copy in
  let* (_, b2, s2) := Next (H := plenty) b1 s1 in
  let* (b3, s3) := BackUp b2 s2 12 in
  let* (_, b4, _) := put (H := plenty) [9; 9; 9; 9] b3 s3 in
  let* after := to_string copy in
  let* final := to_string b4 in
  mret (before, after, final).
(** BackUp over more than one area makes bytes that others hold writable.  The size of the
    shared block is reduced together with the reference, although a copy of the buffer still
    refers to these bytes; the next area is on top of them and the copy changes. *)
Theorem back_up_overwrites_shared_bytes :
  fst <$> back_up_a_copy w0 = Some ([1; 2; 3; 4; 5; 6; 7; 8], [1; 2; 3; 4; 9; 9; 9; 9], [1; 2; 3; 4; 9; 9; 9; 9]).
Proof. vm_compute. done. Qed.
End IOBufAppender.
