(* ===== verification/RedisCommand.v ===== *)
(** * Redis commands (brpc/redis_command.h, redis_command.cpp)

    Commands are written from a format string with arguments, from plain text or from
    their components, and read back by [RedisCommandParser], which like the parser of
    replies is called again as data arrives.  [None] is undefined behaviour; of the
    arguments of a format, pointers are the memory they point to.  [vsnprintf] is a
    parameter: the text for a conversion and its argument, [None] for an error.
    [resize_ok] says which sizes a vector can have. *)
From stdpp Require Import base list.
From Stdlib Require Import ZArith Lia Bool.
From S2P Require Import Prelude Arena RedisReply HpackPrimitive.

Open Scope Z_scope.
Open Scope m_scope.

Module RedisCommand.
Import Arena RedisReply.

(** ** Headers *)
Definition AppendDecimal (d : Z) : option bytes := decimal_loop 24 d [].
Definition AppendHeader (buf : bytes) (fc value : Z) : option bytes :=
  ds ← AppendDecimal value; Some (buf ++ fc :: ds ++ crlf).

(** The local variables of the formatters. *)
Record Formatter := mkFormatter {
  nocount_buf : bytes; compbuf : bytes; ncomponent : Z; quote_char : Z; quote_pos : Z }.
Definition init_formatter : Formatter := mkFormatter [] [] 0 0 0.
Definition push_back (s : bytes) (st : Formatter) : Formatter :=
  mkFormatter (nocount_buf st) (compbuf st ++ s) (ncomponent st) (quote_char st) (quote_pos st).
Definition pop_back (st : Formatter) : Formatter :=
  mkFormatter (nocount_buf st) (removelast (compbuf st)) (ncomponent st) (quote_char st) (quote_pos st).
Definition set_quote (q pos : Z) (st : Formatter) : Formatter :=
  mkFormatter (nocount_buf st) (compbuf st) (ncomponent st) q pos.
(** The number of components is an int. *)
Definition FlushComponent (st : Formatter) : option Formatter :=
  o ← AppendHeader (nocount_buf st) 36 (size (compbuf st));
  if ncomponent st =? 2 ^ 31 - 1 then None
  else Some (mkFormatter (o ++ compbuf st ++ crlf) [] (ncomponent st + 1) (quote_char st) (quote_pos st)).
Definition flush_nonempty (st : Formatter) : option Formatter :=
  match compbuf st with [] => Some st | _ => FlushComponent st end.

(** A character that is not part of a conversion; [pos] is its offset. *)
Definition text_char (c pos : Z) (st : Formatter) : option Formatter :=
  if c =? 32 then if quote_char st =? 0 then flush_nonempty st else Some (push_back [c] st)
  else if (c =? 34) || (c =? 39) then
    if quote_char st =? 0 then flush_nonempty (set_quote c pos st)
    else if quote_char st =? c then
      if default 0 (last (compbuf st)) =? 92 then Some (push_back [c] (pop_back st))
      else FlushComponent (set_quote 0 (quote_pos st) st)
    else Some (push_back [c] st)
  else Some (push_back [c] st).

Inductive Status := OK | UnmatchedQuote (ctx : bytes) (offset : Z) | InvalidFormat | EmptyCommand.
Definition CTX_WIDTH : Z := 5.

(** The end of both formatters: [text] is the format or the command. *)
Definition finish (outbuf text : bytes) (st : Formatter) : option (Status * bytes) :=
  if quote_char st =? 0 then
    st1 ← flush_nonempty st;
    o ← AppendHeader outbuf 42 (u64 (ncomponent st1));
    Some (OK, o ++ nocount_buf st1)
  else
    let ctx_begin := quote_pos st - Z.min (quote_pos st) CTX_WIDTH in
    let ctx_size := Z.min (size text - ctx_begin) (CTX_WIDTH * 2 + 1) in
    Some (UnmatchedQuote (take (Z.to_nat ctx_size) (drop (Z.to_nat ctx_begin) text)) (quote_pos st), outbuf).

(** ** Plain text *)
Fixpoint noformat_loop (s : bytes) (pos : Z) (st : Formatter) : option Formatter :=
  match s with [] => Some st | c :: s' => st' ← text_char c pos st; noformat_loop s' (pos + 1) st' end.
(** [cmd == NULL] compares contents: it holds for the empty command. *)
Definition RedisCommandNoFormat (outbuf cmd : bytes) : option (Status * bytes) :=
  match cmd with
  | [] => Some (EmptyCommand, outbuf)
  | _ => st ← noformat_loop cmd 0 init_formatter; finish outbuf cmd st
  end.

(** ** Components *)
Fixpoint append_components (output : bytes) (components : list bytes) : option bytes :=
  match components with
  | [] => Some output
  | c :: cs => o ← AppendHeader output 36 (size c); append_components (o ++ c ++ crlf) cs
  end.
Definition RedisCommandByComponents (output : bytes) (components : list bytes) : option (Status * bytes) :=
  o ← AppendHeader output 42 (Z.of_nat (length components));
  o' ← append_components o components;
  Some (OK, o').

(** ** Formats *)

(** An argument; a pointer is the memory from its address on. *)
Inductive Arg := ArgPtr (mem : bytes) | ArgSize (n : Z) | ArgInt (z : Z) | ArgLong (z : Z) | ArgLongLong (z : Z) | ArgDouble (bits : Z).
Inductive ArgKind := KInt | KLong | KLongLong | KDouble.
Definition has_kind (k : ArgKind) (a : Arg) : bool :=
  match k, a with KInt, ArgInt _ | KLong, ArgLong _ | KLongLong, ArgLongLong _ | KDouble, ArgDouble _ => true | _, _ => false end.
Fixpoint strlen (mem : bytes) : option nat :=
  match mem with [] => None | c :: m => if c =? 0 then Some O else S <$> strlen m end.

Definition is_in (l : list Z) (c : Z) : bool := bool_decide (c ∈ l).
Definition intfmts : list Z := [100; 105; 111; 117; 120; 88].
Definition doublefmts : list Z := [101; 69; 102; 70; 103; 71; 97; 65].
Definition flags : list Z := [35; 48; 45; 43; 32].
Definition skip_while (f : Z -> bool) (s : bytes) : bytes := drop (length (take_while f s)) s.
Definition is_at (f : Z -> bool) (s : bytes) : bool := match s with c :: _ => f c | [] => false end.

(** The conversion that starts after '%' at [s]: the kind of its argument and the rest of
    the format from its last character on.  strchr also finds the '\0' that ends the
    format ([[]]), which makes it an integer conversion. *)
Definition scan_conversion (s : bytes) : option (ArgKind * bytes) :=
  let p := skip_while isdigit (skip_while (is_in flags) s) in
  let p := if is_at (Z.eqb 46) p then skip_while isdigit (drop 1 p) else p in
  let sized (k : ArgKind) (q : bytes) := if is_at (is_in intfmts) q then Some (k, q) else None in
  match p with
  | [] => Some (KInt, [])
  | x :: t =>
      if is_in intfmts x then Some (KInt, p)
      else if is_in doublefmts x then Some (KDouble, p)
      else if (x =? 104) && is_at (Z.eqb 104) t then sized KInt (drop 1 t)
      else if x =? 104 then sized KInt t
      else if (x =? 108) && is_at (Z.eqb 108) t then sized KLongLong (drop 1 t)
      else if x =? 108 then sized KLong t
      else None
  end.

Section Format.
Context (vsnprintf : bytes -> Arg -> option bytes).

(** [compbuf.append(_printed, plen)] where [_printed] has 40 bytes and was filled by vsnprintf. *)
Definition append_printed (text : option bytes) (st : Formatter) : option Formatter :=
  match text with
  | None => Some st
  | Some t =>
      let plen := size t in
      if plen <? 40 then Some (push_back t st)
      else if plen =? 40 then Some (push_back (take 39 t ++ [0]) st)
      else None
  end.

(** The loop over the format from [s] on; [len] is the length of the format. *)
Fixpoint format_loop (fuel : nat) (len : Z) (s : bytes) (args : list Arg) (st : Formatter) : option (Status + Formatter) :=
  match fuel with
  | O => None
  | S fuel' =>
      match s with
      | [] => Some (inr st)
      | c :: s' =>
          if negb (c =? 37) || bool_decide (s' = []) then
            st' ← text_char c (len - size s) st; format_loop fuel' len s' args st'
          else
            match s' with
            | [] => None
            | c1 :: s'' =>
                if c1 =? 115 then
                  match args with
                  | ArgPtr mem :: args' => n ← strlen mem; format_loop fuel' len s'' args' (push_back (take n mem) st)
                  | _ => None
                  end
                else if c1 =? 98 then
                  match args with
                  | ArgPtr mem :: ArgSize n :: args' =>
                      if (0 <=? n) && (n <=? size mem) then format_loop fuel' len s'' args' (push_back (take (Z.to_nat n) mem) st)
                      else None
                  | _ => None
                  end
                else if c1 =? 37 then format_loop fuel' len s'' args (push_back [37] st)
                else
                  match scan_conversion s' with
                  | None => Some (inl InvalidFormat)
                  | Some (k, p) =>
                      match args with
                      | arg :: args' =>
                          if negb (has_kind k arg) then None
                          else
                            let l := size s - size p + 1 in
                            if l <? 22 then
                              st' ← append_printed (vsnprintf (take (Z.to_nat l) s) arg) st;
                              match p with
                              | [] => None
                              | _ :: p' => format_loop fuel' len p' args' st'
                              end
                            else format_loop fuel' len s'' args' st
                      | [] => None
                      end
                  end
            end
      end
  end.
Definition RedisCommandFormatV (outbuf fmt : bytes) (ap : list Arg) : option (Status * bytes) :=
  r ← format_loop (S (length fmt)) (size fmt) fmt ap init_formatter;
  match r with inl e => Some (e, outbuf) | inr st => finish outbuf fmt st end.
End Format.

(** ** Parsing *)
Record RedisCommandParser := mkParser {
  _parsing_array : bool; _length : Z; _index : Z; _args : list bytes }.
Definition Reset : RedisCommandParser := mkParser false 0 0 [].
Definition new_parser : RedisCommandParser := Reset.
Definition ParsedArgsSize (p : RedisCommandParser) : Z := Z.of_nat (length (_args p)).

Section Parser.
Context {A : Type} `{ArenaOps A} (resize_ok : Z -> bool).

Definition resize (n : Z) (args : list bytes) : option (list bytes) :=
  if resize_ok n then Some (take (Z.to_nat n) args ++ replicate (Z.to_nat n - length args) []) else None.

(** Returns also [*args] when it was assigned.  The name of the command is converted to
    lower case (::tolower of the C locale) by a loop over an [int], which overflows when
    the name has 2^31 bytes or more. *)
Fixpoint Consume_loop (fuel : nat) (p : RedisCommandParser) (buf : bytes) : M A (ParseError * RedisCommandParser * option (list bytes) * bytes) :=
  match fuel with
  | O => ub
  | S fuel' =>
      match buf with
      | [] => mret (PARSE_ERROR_NOT_ENOUGH_DATA, p, None, buf)
      | fc :: _ =>
          if negb (_parsing_array p) && negb (fc =? 42) then mret (PARSE_ERROR_TRY_OTHERS, p, None, buf)
          else if _parsing_array p && negb (fc =? 36) then mret (PARSE_ERROR_ABSOLUTELY_WRONG, p, None, buf)
          else
            match read_number buf with
            | NoCrlf => mret (PARSE_ERROR_NOT_ENOUGH_DATA, p, None, buf)
            | NotDecimal => mret (PARSE_ERROR_ABSOLUTELY_WRONG, p, None, buf)
            | Decimal value crlf_pos =>
                let buf1 := drop (Z.to_nat (crlf_pos + 2)) buf in
                if value <? 0 then mret (PARSE_ERROR_ABSOLUTELY_WRONG, p, None, buf)
                else if negb (_parsing_array p) then
                  let* args := mlift (resize value (_args p)) in
                  Consume_loop fuel' (mkParser true (i32 value) 0 args) buf1
                else
                  let len := value in
                  if 2 ^ 32 - 1 <? len then mret (PARSE_ERROR_ABSOLUTELY_WRONG, p, None, buf)
                  else if size buf <? crlf_pos + 2 + len + 2 then mret (PARSE_ERROR_NOT_ENOUGH_DATA, p, None, buf)
                  else
                    let* ok := arena_allocate (u64 ((len / 8 + 1) * 8)) in
                    if negb ok then ub
                    else if (0 <=? _index p) && (_index p <? Z.of_nat (length (_args p))) then
                      if (_index p =? 0) && (2 ^ 31 <=? len) then ub
                      else
                      let d0 := take (Z.to_nat len) buf1 in
                      let d := if _index p =? 0 then Primitive.tolower d0 else d0 in
                      let p1 := mkParser true (_length p) (_index p) (<[Z.to_nat (_index p) := d]> (_args p)) in
                      let buf2 := drop (Z.to_nat len) buf1 in
                      let buf3 := drop 2 buf2 in
                      if negb (bool_decide (take 2 buf2 = crlf)) then mret (PARSE_ERROR_ABSOLUTELY_WRONG, p1, None, buf3)
                      else
                        let p2 := mkParser true (_length p) (_index p + 1) (_args p1) in
                        if _index p2 <? _length p2 then Consume_loop fuel' p2 buf3
                        else mret (PARSE_OK, Reset, Some (_args p2), buf3)
                    else ub
            end
      end
  end.
(** Every call of itself is on a shorter buffer. *)
Definition Consume (p : RedisCommandParser) (buf : bytes) := Consume_loop (S (length buf)) p buf.
End Parser.

End RedisCommand.
