(* ===== verification/RedisCommandSpec.v ===== *)
(** * Redis commands: what is written is what is parsed

    A command on the wire is an array of bulk strings.  The parser gives back the
    components, the name of the command in lower case, however the bytes are cut into
    pieces; quoted text and formats give the components they should. *)
From stdpp Require Import base list.
From Stdlib Require Import ZArith Lia Bool.
From S2P Require Import Prelude Arena IOBufSearch RedisReply RedisReplySpec HpackPrimitive RedisCommand.

Open Scope Z_scope.
Open Scope m_scope.

Module RedisCommandSpec.
Import Arena RedisReply RedisReplySpec RedisCommand.

Definition bulk (c : bytes) : bytes := encode (VString c).
Definition wire (comps : list bytes) : bytes := encode (VArray (map VString comps)).
Definition lowered (comps : list bytes) : list bytes :=
  match comps with c :: cs => Primitive.tolower c :: cs | [] => [] end.
(** Components that a command can have: fewer than 2^31, of fewer than 2^32 bytes each,
    the name of fewer than 2^31. *)
Definition command_ok (comps : list bytes) : Prop :=
  Z.of_nat (length comps) < 2 ^ 31 /\ size (default [] (head comps)) < 2 ^ 31 /\ Forall (fun c => size c < 2 ^ 32) comps.

Lemma wire_eq comps : wire comps = 42 :: dec (Z.of_nat (length comps)) ++ crlf ++ concat (map bulk comps).
Proof. unfold wire. cbn [encode]. by rewrite length_map, map_map. Qed.

(** ** Writing components *)
Lemma append_header buf fc v : 0 <= v < 2 ^ 63 -> AppendHeader buf fc v = Some (buf ++ fc :: dec v ++ crlf).
Proof.
  intros Hv. destruct (dec_spec v) as [Hd _]; [lia|]. unfold AppendHeader, AppendDecimal.
  unfold append_decimal in Hd. rewrite (proj2 (Z.eqb_neq v _)), Z.abs_eq, (proj2 (Z.ltb_ge v 0)) in Hd by lia.
  destruct (decimal_loop 24 v []) as [ds|]; [|done]. cbn in *. injection Hd as <-. done.
Qed.
Lemma append_components_spec comps out : Forall (fun c => size c < 2 ^ 63) comps ->
  append_components out comps = Some (out ++ concat (map bulk comps)).
Proof.
  intros Hc. revert out. induction Hc as [|c cs Hc _ IH]; intros out; cbn [append_components map concat]; [by rewrite app_nil_r|].
  rewrite append_header by (unfold size in *; lia). cbn. rewrite IH. unfold bulk. cbn [encode].
  by rewrite <- !app_assoc, <- !app_comm_cons, <- !app_assoc.
Qed.
Lemma by_components_spec comps out : Z.of_nat (length comps) < 2 ^ 63 -> Forall (fun c => size c < 2 ^ 63) comps ->
  RedisCommandByComponents out comps = Some (OK, out ++ wire comps).
Proof.
  intros Hn Hc. unfold RedisCommandByComponents. rewrite append_header by lia. cbn [mbind option_bind]. rewrite append_components_spec by done.
  cbn [mbind option_bind]. rewrite wire_eq. by rewrite <- !app_assoc, <- !app_comm_cons, <- !app_assoc.
Qed.

(** ** The parser *)
Section Parse.
Context {A : Type} `{ArenaLaws A} (resize_ok : Z -> bool) (comps : list bytes).
Context (Hresize : resize_ok (Z.of_nat (length comps)) = true) (Hok : command_ok comps) (Hne : comps <> []).
Implicit Types (a : A).

(** The parser after [k] components. *)
Definition parser_at (k : nat) : RedisCommandParser :=
  mkParser true (Z.of_nat (length comps)) (Z.of_nat k) (take k (lowered comps) ++ replicate (length comps - k) []).
Definition rest_at (k : nat) : bytes := concat (map bulk (drop k comps)).

Lemma lowered_length : length (lowered comps) = length comps.
Proof. by destruct comps. Qed.
Lemma lowered_lookup k c : comps !! k = Some c ->
  lowered comps !! k = Some (if Z.of_nat k =? 0 then Primitive.tolower c else c).
Proof. destruct comps as [|c0 cs]; [done|]. destruct k; cbn; [by intros [= ->]|]. by rewrite (proj2 (Z.eqb_neq _ 0)) by lia. Qed.

Lemma insert_next k x : lowered comps !! k = Some x ->
  <[k := x]> (take k (lowered comps) ++ replicate (length comps - k) []) = take (S k) (lowered comps) ++ replicate (length comps - S k) [].
Proof.
  intros Hx. pose proof (lookup_lt_Some _ _ _ Hx) as Hk. rewrite lowered_length in Hk.
  rewrite insert_app_r_alt by (rewrite length_take, lowered_length; lia).
  rewrite length_take, lowered_length. replace (k - k `min` length comps)%nat with 0%nat by lia.
  replace (length comps - k)%nat with (S (length comps - S k)) by lia. cbn [replicate insert list_insert].
  by rewrite (take_S_r _ _ _ Hx), <- app_assoc.
Qed.

Lemma bulk_waits f k c b t3 a :
  size c < 2 ^ 32 -> bulk c = b ++ t3 -> t3 <> [] ->
  Consume_loop resize_ok (S f) (parser_at k) b a = Some ((PARSE_ERROR_NOT_ENOUGH_DATA, parser_at k, None, b), a).
Proof.
  intros Hc Heq Ht. assert (0 <= size c) by (unfold size; lia). unfold bulk in Heq. cbn [encode] in Heq.
  rewrite app_comm_cons, app_assoc in Heq. symmetry in Heq. cbn [Consume_loop].
  apply split_prefix in Heq as [(t4 & Ht4 & Hb & ->)|(b1 & -> & Hx)].
  - assert (Hn : read_number b = NoCrlf).
    { eapply (read_number_partial 36 (size c)); [lia|apply dec_spec; lia|rewrite Hb; by rewrite <- app_comm_cons|done]. }
    destruct b as [|x b]; [done|]. cbn in Hb. injection Hb as -> _. cbn [_parsing_array parser_at negb andb]. by rewrite Hn.
  - rewrite <- !app_assoc, <- app_comm_cons. cbn [_parsing_array parser_at negb andb Z.eqb Pos.eqb].
    destruct (number_line 36 (size c) b1) as [-> _]; [unfold number_char; lia|lia|].
    cbn zeta. rewrite (proj2 (Z.ltb_ge (size c) 0)), (proj2 (Z.ltb_ge (2 ^ 32 - 1) _)) by lia.
    rewrite (proj2 (Z.ltb_lt (size (36 :: _)) _)); [done|].
    apply (f_equal length) in Hx. rewrite !length_app in Hx. assert (0 < length t3)%nat by (destruct t3; simpl; [done|lia]).
    change (length crlf) with 2%nat in Hx. unfold size in *. cbn [length]. rewrite !length_app. change (length crlf) with 2%nat. lia.
Qed.

Lemma bulk_step f k c b1 a :
  comps !! k = Some c -> arena_inv a -> exists a', arena_inv a' /\
  Consume_loop resize_ok (S f) (parser_at k) (bulk c ++ b1) a =
    if Z.of_nat (S k) <? Z.of_nat (length comps) then Consume_loop resize_ok f (parser_at (S k)) b1 a'
    else Some ((PARSE_OK, Reset, Some (lowered comps), b1), a').
Proof.
  intros Hk Ha. destruct Hok as (Hn & Hname & Hs). rewrite Forall_forall in Hs.
  assert (Hc : size c < 2 ^ 32) by (apply Hs; by eapply list_elem_of_lookup_2).
  assert (0 <= size c) by (unfold size; lia). pose proof (lookup_lt_Some _ _ _ Hk) as Hlt.
  destruct (arena_granted (u64 ((size c / 8 + 1) * 8)) a Ha) as (a' & Hal & Ha').
  { unfold header_size. rewrite u64_small by (Z.to_euclidean_division_equations; lia). Z.to_euclidean_division_equations; lia. }
  exists a'. split; [done|]. unfold bulk. cbn [encode]. rewrite <- app_comm_cons, <- !app_assoc. cbn [Consume_loop].
  cbn [_parsing_array parser_at negb andb Z.eqb Pos.eqb].
  destruct (number_line 36 (size c) (c ++ crlf ++ b1)) as [-> Hd]; [unfold number_char; lia|lia|].
  cbn zeta. rewrite Hd, (proj2 (Z.ltb_ge (size c) 0)), (proj2 (Z.ltb_ge (2 ^ 32 - 1) _)) by lia.
  rewrite (proj2 (Z.ltb_ge (size (36 :: _)) _)) by (unfold size; cbn [length]; rewrite !length_app; change (length crlf) with 2%nat; lia).
  unfold mbind'. rewrite Hal. cbn [negb _index _args _length parser_at].
  assert (Hlen : length (take k (lowered comps) ++ replicate (length comps - k) []) = length comps)
    by (rewrite length_app, length_take, length_replicate, lowered_length; lia).
  rewrite Hlen, (proj2 (Z.leb_le 0 (Z.of_nat k))), (proj2 (Z.ltb_lt (Z.of_nat k) _)) by lia. cbn [andb].
  assert ((Z.of_nat k =? 0) && (2 ^ 31 <=? size c) = false) as ->.
  { destruct k as [|k]; [|done]. destruct comps as [|c0 cs]; [done|]. injection Hk as ->. cbn in Hname. cbn [Z.of_nat Z.eqb andb]. by apply Z.leb_gt. }
  assert (Htk : take (Z.to_nat (size c)) (c ++ crlf ++ b1) = c) by (unfold size; by rewrite Nat2Z.id, take_app_length).
  assert (Hdr : drop (Z.to_nat (size c)) (c ++ crlf ++ b1) = crlf ++ b1) by (unfold size; by rewrite Nat2Z.id, drop_app_length).
  pose proof (insert_next k _ (lowered_lookup k c Hk)) as Hins. rewrite Htk, Hdr, Nat2Z.id. unfold bytes in *. rewrite Hins. rewrite bool_decide_eq_true_2 by done. cbn [negb].
  replace (Z.of_nat k + 1) with (Z.of_nat (S k)) by lia. change (drop 2 (crlf ++ b1)) with b1.
  destruct (Z.ltb_spec (Z.of_nat (S k)) (Z.of_nat (length comps))) as [|Hlast]; [done|].
  replace (S k) with (length comps) by lia. pose proof lowered_length as Hll. unfold bytes in *.
  by rewrite Nat.sub_diag, app_nil_r, take_ge by lia.
Qed.

Lemma rest_at_step k c : comps !! k = Some c -> rest_at k = bulk c ++ rest_at (S k).
Proof. intros Hk. unfold rest_at. by rewrite (drop_S _ _ _ Hk). Qed.

Lemma components_spec m : forall k f b a, (length comps - k <= m)%nat -> (k < length comps)%nat -> arena_inv a -> (length b < f)%nat ->
  (forall rest, b = rest_at k ++ rest -> exists a',
     Consume_loop resize_ok f (parser_at k) b a = Some ((PARSE_OK, Reset, Some (lowered comps), rest), a') /\ arena_inv a') /\
  (forall t2, rest_at k = b ++ t2 -> t2 <> [] -> exists k' b' a',
     Consume_loop resize_ok f (parser_at k) b a = Some ((PARSE_ERROR_NOT_ENOUGH_DATA, parser_at k', None, b'), a') /\
     (k' < length comps)%nat /\ rest_at k' = b' ++ t2 /\ arena_inv a').
Proof.
  induction m as [|m IH]; intros k f b a Hm Hk Ha Hf; [lia|].
  destruct (lookup_lt_is_Some_2 comps k Hk) as [c Hc]. rewrite (rest_at_step k c Hc).
  destruct f as [|f]; [lia|].
  assert (Hb0 : (0 < length (bulk c))%nat) by (cbn; lia).
  assert (Hcs : size c < 2 ^ 32).
  { destruct Hok as (_ & _ & Hs). rewrite Forall_forall in Hs. apply Hs. by eapply list_elem_of_lookup_2. }
  split.
  - intros rest ->. rewrite <- app_assoc. destruct (bulk_step f k c (rest_at (S k) ++ rest) a Hc Ha) as (a1 & Ha1 & ->).
    destruct (Z.ltb_spec (Z.of_nat (S k)) (Z.of_nat (length comps))).
    + destruct (IH (S k) f (rest_at (S k) ++ rest) a1) as [Hfin _]; [lia..|done| |by apply Hfin].
      rewrite <- app_assoc, length_app in Hf. lia.
    + exists a1. split; [|done]. unfold rest_at. by rewrite drop_ge by lia.
  - intros t2 Heq Ht. symmetry in Heq. apply split_prefix in Heq as [(t3 & Ht3 & Hb & Heq)|(b1 & -> & Hx)].
    + exists k, b, a. rewrite (bulk_waits f k c b t3) by done. split; [done|]. split; [done|]. split; [|done].
      by rewrite (rest_at_step k c Hc), <- Hb, Heq, <- app_assoc.
    + destruct (bulk_step f k c b1 a Hc Ha) as (a1 & Ha1 & ->).
      destruct (Z.ltb_spec (Z.of_nat (S k)) (Z.of_nat (length comps))).
      * destruct (IH (S k) f b1 a1) as [_ Hw]; [lia..|done| |by apply Hw]. rewrite length_app in Hf. lia.
      * unfold rest_at in Hx. rewrite drop_ge in Hx by lia. by destruct b1.
Qed.

(** A parser that waits for the bytes [t]. *)
Definition waiting (p : RedisCommandParser) (t : bytes) : Prop :=
  (p = new_parser /\ t = wire comps) \/ (exists k, (k < length comps)%nat /\ p = parser_at k /\ t = rest_at k).

Lemma command_start_spec f b a : arena_inv a -> (length b < f)%nat ->
  (forall rest, b = wire comps ++ rest -> exists a',
     Consume_loop resize_ok f new_parser b a = Some ((PARSE_OK, Reset, Some (lowered comps), rest), a') /\ arena_inv a') /\
  (forall t2, wire comps = b ++ t2 -> t2 <> [] -> exists p b' a',
     Consume_loop resize_ok f new_parser b a = Some ((PARSE_ERROR_NOT_ENOUGH_DATA, p, None, b'), a') /\
     waiting p (b' ++ t2) /\ arena_inv a').
Proof.
  intros Ha Hf. destruct f as [|f]; [lia|]. set (n := Z.of_nat (length comps)). destruct Hok as [Hn _].
  assert (Hpos : (0 < length comps)%nat) by (destruct comps; [done|simpl; lia]).
  assert (H42 : number_char 42) by (unfold number_char; lia). assert (Hz : - 2 ^ 63 < n < 2 ^ 63) by lia.
  assert (Hw : wire comps = (42 :: dec n ++ crlf) ++ rest_at 0)
    by (rewrite wire_eq; unfold rest_at; rewrite drop_0; by rewrite <- app_comm_cons, <- app_assoc).
  assert (Hgo : forall b1, Consume_loop resize_ok (S f) new_parser ((42 :: dec n ++ crlf) ++ b1) a =
    Consume_loop resize_ok f (parser_at 0) b1 a).
  { intros b1. rewrite <- app_comm_cons, <- app_assoc. cbn [Consume_loop _parsing_array new_parser Reset negb andb Z.eqb Pos.eqb].
    destruct (number_line 42 n b1 H42 Hz) as [-> Hd]. cbn zeta. rewrite Hd, (proj2 (Z.ltb_ge n 0)) by lia.
    unfold mbind', mlift, resize. cbn [_args new_parser Reset]. unfold n at 1. rewrite Hresize. cbn [fmap option_fmap option_map].
    rewrite i32_small by lia. unfold parser_at. rewrite take_nil, take_0. subst n. by rewrite Nat2Z.id. }
  split.
  - intros rest ->. rewrite Hw, <- app_assoc, Hgo. destruct (components_spec (length comps) 0 f (rest_at 0 ++ rest) a) as [Hfin _]; [lia..|done| |by apply Hfin].
    rewrite Hw, <- app_assoc in Hf. rewrite (length_app (42 :: _)) in Hf. cbn [length] in Hf. lia.
  - intros t2 Heq Ht. rewrite Hw in Heq. symmetry in Heq. apply split_prefix in Heq as [(t3 & Ht3 & Hb & Heq)|(b1 & -> & Hx)].
    + exists new_parser, b, a. assert (Hnum : read_number b = NoCrlf) by (eapply (read_number_partial 42 n); [lia|apply dec_spec; lia|done..]).
      split; [|split; [left; split; [done|]; rewrite Hw, <- Hb, Heq; by rewrite <- app_assoc|done]].
      destruct b as [|x b]; [done|]. injection Hb as -> _. cbn [Consume_loop _parsing_array new_parser Reset negb andb Z.eqb Pos.eqb]. by rewrite Hnum.
    + rewrite Hgo. destruct (components_spec (length comps) 0 f b1 a) as [_ Hwait]; [lia..|done| |].
      { rewrite (length_app (42 :: _)) in Hf. cbn [length] in Hf. lia. }
      destruct (Hwait t2 Hx Ht) as (k & b' & a' & Hc & Hk & Hr & Ha'). exists (parser_at k), b', a'.
      split; [done|]. split; [right; by exists k|done].
Qed.

Lemma waiting_spec f p t b a : waiting p t -> arena_inv a -> (length b < f)%nat ->
  (forall rest, b = t ++ rest -> exists a',
     Consume_loop resize_ok f p b a = Some ((PARSE_OK, Reset, Some (lowered comps), rest), a') /\ arena_inv a') /\
  (forall t2, t = b ++ t2 -> t2 <> [] -> exists p' b' a',
     Consume_loop resize_ok f p b a = Some ((PARSE_ERROR_NOT_ENOUGH_DATA, p', None, b'), a') /\ waiting p' (b' ++ t2) /\ arena_inv a').
Proof.
  intros [[-> ->]|(k & Hk & -> & ->)] Ha Hf; [by apply command_start_spec|].
  destruct (components_spec (length comps) k f b a) as [Hfin Hwait]; [lia|done..|]. split; [done|].
  intros t2 Heq Ht. destruct (Hwait t2 Heq Ht) as (k' & b' & a' & Hc & Hk' & Hr & Ha'). exists (parser_at k'), b', a'.
  split; [done|]. split; [right; by exists k'|done].
Qed.

(** [Consume] is called whenever data arrives. *)
Fixpoint feed_command (chunks : list bytes) (err : ParseError) (p : RedisCommandParser) (args : option (list bytes)) (buf : bytes)
  : M A (ParseError * RedisCommandParser * option (list bytes) * bytes) :=
  match chunks with
  | [] => mret (err, p, args, buf)
  | c :: chunks' =>
      if decide (err = PARSE_ERROR_NOT_ENOUGH_DATA) then
        let* res := Consume resize_ok p (buf ++ c) in
        let '(err', p', args', buf') := res in feed_command chunks' err' p' args' buf'
      else feed_command chunks' err p args (buf ++ c)
  end.

Lemma feed_command_done chunks p args buf a :
  feed_command chunks PARSE_OK p args buf a = Some ((PARSE_OK, p, args, buf ++ concat chunks), a).
Proof.
  revert buf. induction chunks as [|c chunks IH]; intros buf; cbn [feed_command concat]; [by rewrite app_nil_r|].
  rewrite decide_False by done. by rewrite IH, <- app_assoc.
Qed.

Lemma feed_command_spec chunks : forall p args buf t2 rest a,
  waiting p (buf ++ t2) -> t2 <> [] -> concat chunks = t2 ++ rest -> arena_inv a ->
  exists a', feed_command chunks PARSE_ERROR_NOT_ENOUGH_DATA p args buf a = Some ((PARSE_OK, new_parser, Some (lowered comps), rest), a').
Proof.
  induction chunks as [|c chunks IH]; intros p args buf t2 rest a Hp Ht Hc Ha; cbn [concat] in Hc; [by destruct t2|].
  cbn [feed_command]. rewrite decide_True by done. unfold mbind', Consume.
  destruct (waiting_spec (S (length (buf ++ c))) p _ (buf ++ c) a Hp Ha) as [Hfin Hwait]; [lia|].
  apply split_prefix in Hc as [(t3 & Ht3 & <- & Hc)|(c1 & -> & ->)].
  - destruct (Hwait t3) as (p' & b' & a' & Hr & Hp' & Ha'); [by rewrite app_assoc|done|]. rewrite Hr. by eapply IH.
  - destruct (Hfin c1) as (a' & Hr & Ha'); [by rewrite app_assoc|]. rewrite Hr. exists a'. by rewrite feed_command_done.
Qed.
End Parse.

(** ** Text *)
Fixpoint join (l : list bytes) : bytes :=
  match l with [] => [] | [x] => x | x :: l' => x ++ 32 :: join l' end.
Definition escape (s : bytes) : bytes := concat (map (fun c => if c =? 34 then [92; 34] else [c]) s).
Definition quote (s : bytes) : bytes := 34 :: escape s ++ [34].
Definition quotable (s : bytes) : Prop := size s < 2 ^ 63 /\ last s <> Some 92.

Lemma flush_spec nb cb n q qp : size cb < 2 ^ 63 -> n < 2 ^ 31 - 1 ->
  FlushComponent (mkFormatter nb cb n q qp) = Some (mkFormatter (nb ++ bulk cb) [] (n + 1) q qp).
Proof.
  intros Hs Hn. unfold FlushComponent. cbn [nocount_buf compbuf ncomponent quote_char quote_pos].
  rewrite append_header by (unfold size in *; lia). cbn [mbind option_bind]. rewrite (proj2 (Z.eqb_neq n _)) by lia.
  unfold bulk. cbn [encode]. by rewrite <- !app_assoc, <- !app_comm_cons, <- !app_assoc.
Qed.

Lemma noformat_app s t pos st :
  noformat_loop (s ++ t) pos st = (st' ← noformat_loop s pos st; noformat_loop t (pos + size s) st').
Proof.
  revert pos st. induction s as [|c s IH]; intros pos st; cbn [app noformat_loop]; [cbn; by rewrite Z.add_0_r|].
  destruct (text_char c pos st) as [st1|]; [|done]. cbn [mbind option_bind]. rewrite IH.
  replace (pos + size (c :: s)) with (pos + 1 + size s) by (unfold size; cbn [length]; lia). done.
Qed.

(** Inside quotes the escaped text is taken as it was. *)
Lemma escape_spec s : forall nb cb n qp pos,
  noformat_loop (escape s) pos (mkFormatter nb cb n 34 qp) = Some (mkFormatter nb (cb ++ s) n 34 qp).
Proof.
  induction s as [|c s IH]; intros nb cb n qp pos; [cbn; by rewrite app_nil_r|].
  change (escape (c :: s)) with ((if c =? 34 then [92; 34] else [c]) ++ escape s). rewrite noformat_app.
  destruct (Z.eqb_spec c 34) as [->|Hc].
  - assert (Ht : forall p, text_char 34 p (mkFormatter nb (cb ++ [92]) n 34 qp) = Some (mkFormatter nb (cb ++ [34]) n 34 qp)).
    { intros p. unfold text_char, push_back, pop_back. cbn [Z.eqb Pos.eqb orb quote_char compbuf nocount_buf ncomponent quote_pos].
      by rewrite last_snoc, removelast_last. }
    cbn [noformat_loop]. change (text_char 92 pos (mkFormatter nb cb n 34 qp)) with (Some (mkFormatter nb (cb ++ [92]) n 34 qp)).
    cbn [mbind option_bind]. rewrite Ht. cbn [mbind option_bind]. rewrite IH. by rewrite <- app_assoc.
  - assert (Ht : text_char c pos (mkFormatter nb cb n 34 qp) = Some (mkFormatter nb (cb ++ [c]) n 34 qp)).
    { unfold text_char, push_back. cbn [quote_char compbuf nocount_buf ncomponent quote_pos]. change (34 =? 0) with false.
      rewrite (proj2 (Z.eqb_neq c 34)), (proj2 (Z.eqb_neq 34 c)) by lia. destruct (c =? 32); [done|]. by destruct (c =? 39). }
    cbn [noformat_loop]. rewrite Ht. cbn [mbind option_bind]. rewrite IH. by rewrite <- app_assoc.
Qed.

Lemma quote_spec s nb n qp pos : quotable s -> n < 2 ^ 31 - 1 ->
  noformat_loop (quote s) pos (mkFormatter nb [] n 0 qp) = Some (mkFormatter (nb ++ bulk s) [] (n + 1) 0 pos).
Proof.
  intros [Hs Hl] Hn. unfold quote. cbn [noformat_loop].
  change (text_char 34 pos (mkFormatter nb [] n 0 qp)) with (Some (mkFormatter nb [] n 34 pos)). cbn [mbind option_bind].
  rewrite noformat_app, escape_spec. cbn [mbind option_bind noformat_loop app].
  assert (Ht : forall p, text_char 34 p (mkFormatter nb s n 34 pos) = Some (mkFormatter (nb ++ bulk s) [] (n + 1) 0 pos)).
  { intros p. unfold text_char. cbn [Z.eqb Pos.eqb orb quote_char compbuf]. rewrite (proj2 (Z.eqb_neq (default 0 (last s)) 92)).
    - unfold set_quote. cbn [nocount_buf compbuf ncomponent quote_pos]. by apply flush_spec.
    - destruct (last s) as [c|]; cbn; [congruence|done]. }
  by rewrite Ht.
Qed.

Lemma quotes_spec comps : forall nb n qp pos, Forall quotable comps -> 0 <= n -> n + Z.of_nat (length comps) < 2 ^ 31 -> exists qp',
  noformat_loop (join (map quote comps)) pos (mkFormatter nb [] n 0 qp) =
    Some (mkFormatter (nb ++ concat (map bulk comps)) [] (n + Z.of_nat (length comps)) 0 qp').
Proof.
  induction comps as [|c comps IH]; intros nb n qp pos Hq Hn Hl; [exists qp; cbn; by rewrite app_nil_r, Z.add_0_r|].
  apply Forall_cons in Hq as [Hc Hq]. cbn [length] in Hl. destruct comps as [|c2 comps].
  - exists pos. cbn [map join length concat]. rewrite quote_spec by (done || lia). by rewrite app_nil_r.
  - change (join (map quote (c :: c2 :: comps))) with (quote c ++ 32 :: join (map quote (c2 :: comps))).
    rewrite noformat_app, quote_spec by (done || lia). cbn [mbind option_bind]. cbn [noformat_loop].
    change (text_char 32 (pos + size (quote c)) (mkFormatter (nb ++ bulk c) [] (n + 1) 0 pos))
      with (Some (mkFormatter (nb ++ bulk c) [] (n + 1) 0 pos)). cbn [mbind option_bind].
    destruct (IH (nb ++ bulk c) (n + 1) pos (pos + size (quote c) + 1)) as [qp' Hr]; [done|lia|cbn [length] in *; lia|].
    exists qp'. rewrite Hr. do 2 f_equal; [|cbn [length]; lia]. cbn [map concat]. by rewrite <- !app_assoc.
Qed.

(** The end of a formatter whose last component may still be open. *)
Lemma finish_spec out text nb n qp comps st :
  st = mkFormatter nb [] n 0 qp -> nb = concat (map bulk comps) -> n = Z.of_nat (length comps) -> n < 2 ^ 31 ->
  finish out text st = Some (OK, out ++ wire comps).
Proof.
  intros -> -> -> Hn. unfold finish. cbn [quote_char Z.eqb flush_nonempty compbuf mbind option_bind ncomponent nocount_buf].
  rewrite u64_small by lia. rewrite append_header by lia. cbn [mbind option_bind]. rewrite wire_eq.
  by rewrite <- !app_assoc, <- !app_comm_cons, <- !app_assoc.
Qed.

(** ** Formats *)

(** A word of a format: literal text, %s or %b. *)
Inductive piece := PLit (s : bytes) | PStr (s : bytes) | PBin (s : bytes).
Definition piece_fmt (p : piece) : bytes := match p with PLit s => s | PStr _ => [37; 115] | PBin _ => [37; 98] end.
Definition piece_args (p : piece) : list Arg :=
  match p with PLit _ => [] | PStr s => [ArgPtr (s ++ [0])] | PBin s => [ArgPtr s; ArgSize (size s)] end.
Definition piece_text (p : piece) : bytes := match p with PLit s | PStr s | PBin s => s end.
Definition piece_ok (p : piece) : Prop :=
  size (piece_text p) < 2 ^ 63 /\
  match p with
  | PLit s => Forall (fun c => c <> 32 /\ c <> 34 /\ c <> 39 /\ c <> 37) s
  | PStr s => Forall (fun c => c <> 0) s
  | PBin _ => True
  end.
Definition nonempty (l : list bytes) : list bytes := filter (fun s => s <> []) l.

Lemma strlen_spec s : Forall (fun c => c <> 0) s -> strlen (s ++ [0]) = Some (length s).
Proof. induction 1 as [|c s Hc _ IH]; [done|]. cbn [app strlen length]. by rewrite (proj2 (Z.eqb_neq c 0)), IH by done. Qed.

Section Formats.
Context (vsnprintf : bytes -> Arg -> option bytes) (len : Z).
Abbreviation loop := (format_loop vsnprintf).

Definition out_of_quotes (st : Formatter) : Prop := quote_char st = 0.

Lemma literal_spec s : forall f r args st,
  Forall (fun c => c <> 32 /\ c <> 34 /\ c <> 39 /\ c <> 37) s -> (length (s ++ r) < f)%nat ->
  exists f', (length r < f')%nat /\ loop f len (s ++ r) args st = loop f' len r args (push_back s st).
Proof.
  induction s as [|c s IH]; intros f r args st Hs Hf.
  - exists f. split; [done|]. unfold push_back. rewrite app_nil_r. by destruct st.
  - apply Forall_cons in Hs as [Hc Hs]. destruct f as [|f]; [lia|]. cbn [app length] in Hf.
    destruct (IH f r args (push_back [c] st) Hs) as (f' & Hf' & Hr); [lia|]. exists f'. split; [done|].
    cbn [app format_loop]. rewrite (proj2 (Z.eqb_neq c 37)) by tauto. cbn [negb orb].
    assert (Ht : text_char c (len - size (c :: s ++ r)) st = Some (push_back [c] st)).
    { unfold text_char. rewrite (proj2 (Z.eqb_neq c 32)), (proj2 (Z.eqb_neq c 34)), (proj2 (Z.eqb_neq c 39)) by tauto. done. }
    rewrite Ht. cbn [mbind option_bind]. rewrite Hr. unfold push_back. cbn [nocount_buf compbuf ncomponent quote_char quote_pos].
    by rewrite <- app_assoc.
Qed.

Lemma piece_spec p f r args st : piece_ok p -> (length (piece_fmt p ++ r) < f)%nat ->
  exists f', (length r < f')%nat /\
    loop f len (piece_fmt p ++ r) (piece_args p ++ args) st = loop f' len r args (push_back (piece_text p) st).
Proof.
  intros [Hs Hp] Hf. destruct p as [s|s|s]; cbn [piece_fmt piece_args piece_text app] in *.
  - by apply literal_spec.
  - destruct f as [|f]; [lia|]. exists f. cbn [length] in Hf. split; [lia|].
    cbn [format_loop Z.eqb Pos.eqb negb orb]. rewrite bool_decide_eq_false_2 by done. rewrite strlen_spec by done.
    cbn [mbind option_bind]. by rewrite take_app_length.
  - destruct f as [|f]; [lia|]. exists f. cbn [length] in Hf. split; [lia|].
    cbn [format_loop Z.eqb Pos.eqb negb orb]. rewrite bool_decide_eq_false_2 by done.
    rewrite (proj2 (Z.leb_le 0 _)), Z.leb_refl by (unfold size; lia). cbn [andb]. unfold size. by rewrite Nat2Z.id, take_ge by lia.
Qed.

Lemma flush_nonempty_spec nb s n qp : size s < 2 ^ 63 -> n < 2 ^ 31 - 1 ->
  flush_nonempty (mkFormatter nb s n 0 qp) =
    Some (mkFormatter (nb ++ concat (map bulk (nonempty [s]))) [] (n + Z.of_nat (length (nonempty [s]))) 0 qp).
Proof.
  intros Hs Hn. unfold flush_nonempty. cbn [compbuf]. destruct s as [|c s].
  - unfold nonempty. rewrite filter_cons_False by tauto. cbn. by rewrite app_nil_r, Z.add_0_r.
  - unfold nonempty. rewrite filter_cons_True by done. cbn [filter list_filter map concat length]. rewrite app_nil_r.
    by apply flush_spec.
Qed.
Lemma nonempty_cons s l : nonempty (s :: l) = nonempty [s] ++ nonempty l.
Proof. unfold nonempty. apply (filter_app _ [s] l). Qed.

(** After the last piece the component of its text is still open. *)
Lemma pieces_spec ps : forall f nb n qp, ps <> [] -> Forall piece_ok ps -> (length (join (map piece_fmt ps)) < f)%nat ->
  0 <= n -> n + Z.of_nat (length ps) < 2 ^ 31 -> exists st,
  loop f len (join (map piece_fmt ps)) (concat (map piece_args ps)) (mkFormatter nb [] n 0 qp) = Some (inr st) /\
  quote_char st = 0 /\
  flush_nonempty st = Some (mkFormatter (nb ++ concat (map bulk (nonempty (map piece_text ps)))) []
    (n + Z.of_nat (length (nonempty (map piece_text ps)))) 0 qp).
Proof.
  induction ps as [|p ps IH]; intros f nb n qp Hne Hps Hf Hn Hl; [done|]. apply Forall_cons in Hps as [Hp Hps]. cbn [length] in Hl.
  destruct ps as [|p2 ps].
  - cbn [map join concat] in *. destruct (piece_spec p f [] [] (mkFormatter nb [] n 0 qp) Hp) as (f' & Hf' & Hr); [by rewrite app_nil_r|].
    rewrite app_nil_r in Hr. rewrite Hr. destruct f' as [|f']; [simpl in Hf'; lia|]. eexists. split; [reflexivity|]. split; [done|].
    unfold push_back. cbn [nocount_buf compbuf ncomponent quote_char quote_pos app]. apply flush_nonempty_spec; [apply Hp|lia].
  - change (join (map piece_fmt (p :: p2 :: ps))) with (piece_fmt p ++ 32 :: join (map piece_fmt (p2 :: ps))) in *.
    change (concat (map piece_args (p :: p2 :: ps))) with (piece_args p ++ concat (map piece_args (p2 :: ps))).
    destruct (piece_spec p f (32 :: join (map piece_fmt (p2 :: ps))) (concat (map piece_args (p2 :: ps))) (mkFormatter nb [] n 0 qp) Hp Hf)
      as (f' & Hf' & Hr). rewrite Hr. destruct f' as [|f']; [lia|]. cbn [length] in Hf'.
    unfold push_back. cbn [nocount_buf compbuf ncomponent quote_char quote_pos app].
    assert (Hk : (length (nonempty [piece_text p]) <= 1)%nat) by (unfold nonempty; apply (length_filter _ [piece_text p])).
    destruct (IH f' (nb ++ concat (map bulk (nonempty [piece_text p]))) (n + Z.of_nat (length (nonempty [piece_text p]))) qp) as (st & Hlp & Hq & Hfl);
      [done|done|lia|lia|cbn [length] in *; lia|].
    exists st. split; [|split; [done|]].
    + cbn [format_loop Z.eqb Pos.eqb negb orb]. unfold text_char. cbn [Z.eqb Pos.eqb quote_char].
      rewrite flush_nonempty_spec by (apply Hp || lia). cbn [mbind option_bind]. exact Hlp.
    + rewrite Hfl. change (map piece_text (p :: p2 :: ps)) with (piece_text p :: map piece_text (p2 :: ps)).
      rewrite (nonempty_cons (piece_text p) (map piece_text (p2 :: ps))), map_app, concat_app, length_app, <- app_assoc. do 2 f_equal. lia.
Qed.
End Formats.

End RedisCommandSpec.
