(* ===== verification/RedisTheorems.v ===== *)
(** * Redis: theorems

    Replies and commands survive the wire in any pieces, every input is parsed without
    undefined behaviour, and the corner cases in which the code goes wrong.  The concrete
    inputs of the witnesses use the arena of butil. *)
From stdpp Require Import base list.
From Stdlib Require Import ZArith Lia Bool.
From S2P Require Import Prelude Arena RedisReply RedisReplySpec HpackPrimitive RedisCommand RedisCommandSpec.

Open Scope Z_scope.
Open Scope m_scope.

Module RedisTheorems.
Import Arena RedisReply RedisReplySpec RedisCommand RedisCommandSpec.

(** The arena of the examples: memory never runs out. *)
#[local] Instance World_plenty : ArenaOps World := World_ops (fun _ _ => true).
#[local] Instance World_plenty_laws : ArenaLaws World := World_laws.
Lemma init_ok : arena_inv init.
Proof. exists []. by apply inv_empty. Qed.

(** ** Replies *)

(** C13: A reply built with the Set functions from a nested value, while the arena gets its
    memory, is serialized to bytes which a client, in whatever pieces they arrive and
    whatever follows them, parses to the value it is received as, leaving what follows: the
    same value, but null strings and null arrays anywhere in it become nil. The value
    (sendable) has statuses and errors without CRLF, these and strings below 2^31 - 8 bytes,
    integers other than INT64_MIN and arrays below 2^31 elements. *)
Theorem redis_reply_roundtrip {A} `{ArenaLaws A} v (a : A) :
  sendable v -> arena_inv a ->
  exists r a1 out, build v new_reply a = Some (r, a1) /\ value_of r = Some v /\ SerializeTo r [] = Some (true, out) /\
    forall chunks rest, concat chunks = out ++ rest -> exists r' a2,
      feed chunks PARSE_ERROR_NOT_ENOUGH_DATA new_reply [] a1 = Some ((PARSE_OK, r', rest), a2) /\ value_of r' = Some (received v).
Proof.
  intros Hv Ha. destruct (build_spec v Hv a Ha) as (r & a1 & Hb & Hr & Ha1). exists r, a1, (encode v).
  split; [done|]. split; [done|]. split; [exact (serialize_spec v Hv r [] Hr)|]. intros chunks rest Hc.
  destruct (feed_spec v chunks new_reply [] (encode v) rest a1) as (r' & a2 & Hf & Hr' & _); [done| |by apply encode_nonempty|done..|].
  - constructor. done.
  - by exists r', a2.
Qed.

(** Two elements, a null and an inner array, one byte at a time. *)
Definition sample : value :=
  VArray [VStatus [79; 75]; VNullString; VArray [VInteger (-5); VString [97; 13; 10; 98; 97; 97; 97; 97; 97; 97; 97; 97; 97; 97; 97; 97; 97]]].
Lemma redis_reply_roundtrip_witness :
  exists r a1 r' a2, build sample new_reply init = Some (r, a1) /\ SerializeTo r [] = Some (true, encode sample) /\
    feed (map (fun c => [c]) (encode sample ++ [43])) PARSE_ERROR_NOT_ENOUGH_DATA new_reply [] a1 = Some ((PARSE_OK, r', [43]), a2) /\
    value_of r' = Some (received sample).
Proof.
  destruct (redis_reply_roundtrip sample init) as (r & a1 & out & Hb & Hr & Hs & Hf); [|exact init_ok|].
  - repeat first [reflexivity | lia | constructor].
  - assert (Hout : out = encode sample).
    { vm_compute in Hb. injection Hb as <- <-. vm_compute in Hs. injection Hs as <-. reflexivity. }
    subst out. destruct (Hf (map (fun c => [c]) (encode sample ++ [43])) [43]) as (r' & a2 & Hfeed & Hval); [reflexivity|].
    exists r, a1, r', a2. repeat split; assumption.
Defined.

(** C16: As long as the arena gets its memory (the laws ArenaLaws, which the model of
    butil::Arena satisfies when malloc does not fail), for every reply object in a
    well-formed state and every buffer of less than 2^31 - 8 bytes, however malformed, in
    which no line announces an array of 2^31 or more elements, ConsumePartialIOBuf returns:
    it reads no wrong member of the union and nothing outside of a string or an array,
    leaves the object well-formed and only takes bytes from the front of the buffer. (When
    malloc fails the arena dereferences a null pointer: huge_array_is_undefined.) *)
Theorem redis_parser_is_total {A} `{ArenaLaws A} r buf (a : A) :
  arena_inv a -> typed r -> size buf < 2 ^ 31 - 8 -> modest buf = true ->
  exists err r' buf' a', ConsumePartialIOBuf r buf a = Some ((err, r', buf'), a') /\ typed r' /\ buf' `suffix_of` buf /\ arena_inv a'.
Proof. intros Ha Hr Hb Hm. unfold ConsumePartialIOBuf. apply consume_total; [done..|lia|done]. Qed.

(** An array of one element of a type that does not exist. *)
Lemma redis_parser_is_total_witness :
  exists r a', ConsumePartialIOBuf new_reply [42; 49; 13; 10; 63; 13; 10] init =
    Some ((PARSE_ERROR_ABSOLUTELY_WRONG, r, [63; 13; 10]), a') /\ typed r.
Proof.
  destruct (redis_parser_is_total new_reply [42; 49; 13; 10; 63; 13; 10] init) as (err & r & b & a' & Hc & Hr & _).
  - exact init_ok.
  - constructor.
  - reflexivity.
  - vm_compute. reflexivity.
  - exists r, a'. vm_compute in Hc. injection Hc as <- <- <- <-. split; [reflexivity|exact Hr].
Defined.
(** An array for which the arena breaks. *)
Lemma array_refused {A} `{ArenaOps A} c r b v pos (a : A) : read_number (42 :: b) = Decimal v pos -> 0 < v < 2 ^ 32 ->
  arena_allocate (u64 (sizeof_RedisReply * v)) a = None -> parse_reply c r (42 :: b) a = None.
Proof.
  intros Hn Hv Ha. unfold parse_reply. rewrite Hn. cbn zeta. cbn [Z.eqb Pos.eqb orb].
  rewrite (proj2 (Z.ltb_ge v 0)), (proj2 (Z.eqb_neq v 0)), (proj2 (Z.ltb_ge (2 ^ 32 - 1) v)) by lia. unfold mbind'. by rewrite Ha.
Qed.
Lemma fresh_array_refused {A} `{ArenaOps A} b v pos (a : A) : read_number (42 :: b) = Decimal v pos -> 0 < v < 2 ^ 32 ->
  arena_allocate (u64 (sizeof_RedisReply * v)) a = None -> ConsumePartialIOBuf new_reply (42 :: b) a = None.
Proof. intros Hn Hv Ha. unfold ConsumePartialIOBuf. cbn [consume]. rewrite decide_False by done. by apply (array_refused _ _ _ v pos). Qed.
(** The thirteen bytes ["*4294967295\r\n"] ask the arena for 128 GB; when malloc
    refuses them, the null pointer is dereferenced. *)
Theorem huge_array_is_undefined malloc_ok : (forall k n, 2 ^ 37 - 2 ^ 10 <= n -> malloc_ok k n = false) ->
  @ConsumePartialIOBuf World (World_ops malloc_ok) new_reply [42; 52; 50; 57; 52; 57; 54; 55; 50; 57; 53; 13; 10] init = None.
Proof.
  intros Hm. apply (fresh_array_refused _ 4294967295 11); [vm_compute; reflexivity|lia|].
  assert (Hn : allocate malloc_ok (u64 (sizeof_RedisReply * 4294967295)) init = None).
  - change (u64 (sizeof_RedisReply * 4294967295)) with 137438953440. unfold allocate, mbind', mget, allocate_in_other_blocks.
    cbn [init arena new_arena _cur_block _block_size initial_block_size default_options]. unfold mbind', mget.
    cbn [arena init new_arena _block_size initial_block_size default_options].
    change (64 / 4 <? 137438953440) with true. cbn iota.
    unfold allocate_new_block, mbind', malloc. change (u64 (header_size + 137438953440)) with 137438953456.
    by rewrite Hm by lia.
  - cbn [arena_allocate World_ops]. unfold mbind'. by rewrite Hn.
Qed.

(** [CopyFromDifferentArena] of a reply that is not being parsed and holds no null
    array gives a reply with the same value. *)
Theorem redis_copy_is_equal {A} `{ArenaLaws A} r x v (a : A) :
  value_of r = Some v -> copyable v -> intact r = true -> arena_inv a ->
  exists r' a', CopyFromDifferentArena r x a = Some (r', a') /\ value_of r' = Some v.
Proof.
  intros Hr Hv Hi Ha. destruct (reply_copy_spec v Hv r x a Hr Hi Ha) as (r' & a' & Hc & Hr' & _). by exists r', a'.
Qed.

Lemma redis_copy_is_equal_witness : exists r' a',
  CopyFromDifferentArena (mkReply REDIS_REPLY_ARRAY 2 (Array (-1)
    [mkReply REDIS_REPLY_STRING 1 (Short_str [97; 0]); mkReply REDIS_REPLY_NIL 0 (Integer 0)])) new_reply init = Some (r', a') /\
  value_of r' = Some (VArray [VString [97]; VNil]).
Proof.
  apply (redis_copy_is_equal _ new_reply (VArray [VString [97]; VNil]) init).
  - reflexivity.
  - repeat first [reflexivity | lia | constructor].
  - reflexivity.
  - exact init_ok.
Defined.

(** Null replies are only good for sending: printing a null string reads outside of
    it, and copying a null array asks for 2^64 - 32 bytes, which malloc refuses for any
    size above PTRDIFF_MAX, and writes to the null pointer. *)
Theorem null_replies_are_undefined malloc_ok r :
  (forall k n, 2 ^ 63 <= n -> malloc_ok k n = false) ->
  Print (SetNullString r) = None /\
  @CopyFromDifferentArena World (World_ops malloc_ok) (SetNullArray new_reply) r init = None.
Proof.
  intros Hm. split.
  - unfold SetNullString. cbn [Print]. unfold string_data. by destruct (_data (reset_unless_nil r)).
  - cbn -[Z.pow Z.sub Z.ltb]. unfold mbind'.
    assert (Hn : allocate malloc_ok (u64 (sizeof_RedisReply * npos)) init = None); [|by rewrite Hn].
    change (u64 (sizeof_RedisReply * npos)) with 18446744073709551584. unfold allocate, mbind', mget, allocate_in_other_blocks.
    cbn [init arena new_arena _cur_block _block_size initial_block_size default_options]. unfold mbind', mget.
    cbn [arena init new_arena _block_size initial_block_size default_options].
    change (64 / 4 <? 18446744073709551584) with true. cbn iota.
    unfold allocate_new_block, mbind', malloc. change (u64 (header_size + 18446744073709551584)) with 18446744073709551600.
    by rewrite Hm by lia.
Qed.
Lemma null_replies_are_undefined_witness :
  @CopyFromDifferentArena World (World_ops (fun _ n => n <? 2 ^ 40)) (SetNullArray new_reply) new_reply init = None.
Proof.
  apply (null_replies_are_undefined (fun _ n => n <? 2 ^ 40) new_reply). intros k n Hn. apply Z.ltb_ge. lia.
Defined.

(** A copy of a reply that is being parsed loses the elements of an inner array that
    were already consumed.  The client has received ["*2\r\n+a\r\n*2\r\n+b\r\n"] of the
    reply [a, [b, c]]; with the remaining ["+c\r\n"] the original becomes complete
    and the copy becomes [a, c]. *)
Theorem copy_of_a_suspended_reply_differs :
  exists r r1 a1 a2 r' a3 c' a4,
    ConsumePartialIOBuf new_reply ([42; 50; 13; 10; 43; 97; 13; 10] ++ [42; 50; 13; 10; 43; 98; 13; 10]) init =
      Some ((PARSE_ERROR_NOT_ENOUGH_DATA, r, []), a1) /\
    CopyFromDifferentArena r new_reply a1 = Some (r1, a2) /\
    ConsumePartialIOBuf r [43; 99; 13; 10] a2 = Some ((PARSE_OK, r', []), a3) /\
    value_of r' = Some (VArray [VStatus [97]; VArray [VStatus [98]; VStatus [99]]]) /\
    ConsumePartialIOBuf r1 [43; 99; 13; 10] a2 = Some ((PARSE_OK, c', []), a4) /\
    value_of c' = Some (VArray [VStatus [97]; VStatus [99]]).
Proof. do 8 eexists. repeat (split; [vm_compute; reflexivity|]). vm_compute. reflexivity. Qed.

(** The empty number is zero, but whether it is accepted depends on where the data
    was cut: [":\r\n"] is the integer 0, and with a digit after it the same line is an
    error. *)
Theorem empty_number_depends_on_the_pieces :
  (exists a, ConsumePartialIOBuf new_reply [58; 13; 10] init = Some ((PARSE_OK, mkReply REDIS_REPLY_INTEGER 0 (Integer 0), []), a)) /\
  (exists a, ConsumePartialIOBuf new_reply [58; 13; 10; 53] init = Some ((PARSE_ERROR_ABSOLUTELY_WRONG, new_reply, [58; 13; 10; 53]), a)).
Proof. split; eexists; vm_compute; reflexivity. Qed.

(** ** Commands *)

(** C17: The bytes of RedisCommandByComponents for at least one and fewer than 2^31
    components, the first below 2^31 bytes and the others below 2^32 bytes, in any pieces
    and with anything after them, are parsed by RedisCommandParser, while memory lasts, to
    the components with the first one in lower case; the parser is then ready for the next
    command. (A command without components is not parsed back:
    empty_command_writes_outside.) *)
Theorem redis_command_roundtrip {A} `{ArenaLaws A} resize_ok comps out chunks rest (a : A) :
  command_ok comps -> comps <> [] -> resize_ok (Z.of_nat (length comps)) = true -> arena_inv a ->
  RedisCommandByComponents [] comps = Some (OK, out) -> concat chunks = out ++ rest ->
  exists a', feed_command resize_ok chunks PARSE_ERROR_NOT_ENOUGH_DATA new_parser None [] a =
    Some ((PARSE_OK, new_parser, Some (lowered comps), rest), a').
Proof.
  intros Hok Hne Hr Ha Hout Hc. rewrite by_components_spec in Hout.
  - injection Hout as <-. eapply feed_command_spec; [done..| | |exact Hc|done].
    + left. by split.
    + by rewrite wire_eq.
  - destruct Hok. lia.
  - eapply Forall_impl; [apply Hok|]. simpl. intros. lia.
Qed.

Lemma redis_command_roundtrip_witness : exists a',
  feed_command (fun _ => true) [[42; 50; 13; 10; 36]; [51; 13; 10; 71; 69]; [84; 13; 10; 36; 49; 13; 10; 107; 13]; [10; 42]]
    PARSE_ERROR_NOT_ENOUGH_DATA new_parser None [] init = Some ((PARSE_OK, new_parser, Some [[103; 101; 116]; [107]], [42]), a').
Proof.
  apply (redis_command_roundtrip (fun _ => true) [[71; 69; 84]; [107]] [42; 50; 13; 10; 36; 51; 13; 10; 71; 69; 84; 13; 10; 36; 49; 13; 10; 107; 13; 10]).
  - split; [reflexivity|]. split; [reflexivity|]. repeat constructor.
  - discriminate.
  - reflexivity.
  - exact init_ok.
  - vm_compute. reflexivity.
  - reflexivity.
Defined.

(** C38: Plain text of at least one and fewer than 2^31 components between double quotes,
    with the quotes inside them escaped by backslashes and separated by spaces, gives
    exactly the same command as the components themselves, empty and binary ones included,
    provided that no component ends in a backslash (which would escape the closing quote) or
    has 2^63 bytes. *)
Theorem quoted_text_gives_the_components out comps :
  comps <> [] -> Forall quotable comps -> Z.of_nat (length comps) < 2 ^ 31 ->
  RedisCommandNoFormat out (join (map quote comps)) = RedisCommandByComponents out comps.
Proof.
  intros Hne Hq Hl. rewrite by_components_spec by (lia || (eapply Forall_impl; [exact Hq|]; intros ? [? ?]; lia)).
  unfold RedisCommandNoFormat. destruct (join (map quote comps)) as [|c0 t] eqn:Ej.
  - destruct comps as [|c cs]; [done|]. cbn in Ej. by destruct cs.
  - rewrite <- Ej. destruct (quotes_spec comps [] 0 0 0 Hq) as [qp Hr]; [lia..|]. unfold init_formatter. rewrite Hr.
    cbn [mbind option_bind]. rewrite Z.add_0_l. by eapply finish_spec.
Qed.
Lemma quoted_text_gives_the_components_witness :
  RedisCommandNoFormat [] ([34; 115; 101; 116; 34] ++ [32] ++ [34; 97; 32; 92; 34; 34] ++ [32] ++ [34; 34]) =
  RedisCommandByComponents [] [[115; 101; 116]; [97; 32; 34]; []].
Proof.
  apply (quoted_text_gives_the_components [] [[115; 101; 116]; [97; 32; 34]; []]).
  - discriminate.
  - repeat constructor; discriminate.
  - reflexivity.
Defined.

(** A format of words, literal, %s or %b, separated by single spaces gives one
    component for each word with its argument taken verbatim, spaces and quotes included;
    words that come out empty are dropped. *)
Theorem format_substitutes_verbatim vsnprintf out ps :
  ps <> [] -> Forall piece_ok ps -> Z.of_nat (length ps) < 2 ^ 31 ->
  RedisCommandFormatV vsnprintf out (join (map piece_fmt ps)) (concat (map piece_args ps)) =
  RedisCommandByComponents out (nonempty (map piece_text ps)).
Proof.
  intros Hne Hps Hl. assert (Hlen : (length (nonempty (map piece_text ps)) <= length ps)%nat).
  { etrans; [apply length_filter|]. by rewrite length_map. }
  rewrite by_components_spec; [|lia|].
  - unfold RedisCommandFormatV, init_formatter.
    destruct (pieces_spec vsnprintf (size (join (map piece_fmt ps))) ps (S (length (join (map piece_fmt ps)))) [] 0 0)
      as (st & -> & Hq & Hfl); [done..|lia|lia|lia|]. cbn [mbind option_bind].
    assert (Hfin : finish out (join (map piece_fmt ps)) st =
      finish out (join (map piece_fmt ps)) (mkFormatter (concat (map bulk (nonempty (map piece_text ps)))) [] (Z.of_nat (length (nonempty (map piece_text ps)))) 0 0)).
    { unfold finish. rewrite Hq, Hfl. done. }
    rewrite Hfin. eapply finish_spec; [reflexivity..|lia].
  - apply Forall_forall. intros s Hs. apply list_elem_of_filter in Hs as [_ Hs]. apply list_elem_of_fmap in Hs as (q & -> & Hq).
    rewrite Forall_forall in Hps. destruct (Hps q Hq) as [Hz _]. lia.
Qed.
Lemma format_substitutes_verbatim_witness :
  RedisCommandFormatV (fun _ _ => None) [] ([83; 69; 84] ++ [32] ++ [37; 115] ++ [32] ++ [37; 98]) [ArgPtr [97; 32; 98; 0]; ArgPtr []; ArgSize 0] =
  RedisCommandByComponents [] [[83; 69; 84]; [97; 32; 98]].
Proof.
  apply (format_substitutes_verbatim (fun _ _ => None) [] [PLit [83; 69; 84]; PStr [97; 32; 98]; PBin []]).
  - discriminate.
  - repeat (constructor; try lia).
  - reflexivity.
Defined.

(** A conversion that prints more than 40 characters makes the formatter copy bytes
    from behind its buffer of 40. *)
Theorem long_conversion_reads_outside vsnprintf out z text :
  vsnprintf [37; 53; 48; 100] (ArgInt z) = Some text -> 40 < size text ->
  RedisCommandFormatV vsnprintf out [37; 53; 48; 100] [ArgInt z] = None.
Proof.
  intros Ht Hs. unfold RedisCommandFormatV. cbn [format_loop length Z.eqb Pos.eqb negb orb].
  rewrite bool_decide_eq_false_2 by done. cbn [Z.eqb Pos.eqb].
  change (scan_conversion [53; 48; 100]) with (Some (KInt, [100])). cbn [has_kind negb].
  change (size [37; 53; 48; 100] - size [100] + 1) with 4. cbn [Z.ltb Z.compare Pos.compare Pos.compare_cont].
  change (take (Z.to_nat 4) [37; 53; 48; 100]) with [37; 53; 48; 100]. rewrite Ht. unfold append_printed.
  by rewrite (proj2 (Z.ltb_ge (size text) 40)), (proj2 (Z.eqb_neq (size text) 40)) by lia.
Qed.
Lemma long_conversion_reads_outside_witness :
  RedisCommandFormatV (fun _ _ => Some (replicate 50 32)) [] [37; 53; 48; 100] [ArgInt 7] = None.
Proof. apply (long_conversion_reads_outside _ _ _ (replicate 50 32)); reflexivity. Defined.

(** A format that ends inside a conversion ("%5") is taken for an integer conversion,
    because strchr finds the terminating '\0', and the loop goes on behind the end of
    the format. *)
Theorem unfinished_conversion_reads_outside vsnprintf out z :
  RedisCommandFormatV vsnprintf out [37; 53] [ArgInt z] = None.
Proof.
  unfold RedisCommandFormatV. cbn [format_loop length Z.eqb Pos.eqb negb orb].
  rewrite bool_decide_eq_false_2 by done. cbn [Z.eqb Pos.eqb].
  change (scan_conversion [53]) with (Some (KInt, [] : bytes)). cbn [has_kind negb].
  change (size [37; 53] - size [] + 1) with 3. cbn [Z.ltb Z.compare Pos.compare Pos.compare_cont].
  by destruct (append_printed _ _).
Qed.

(** A command with an empty array followed by a string, ["*0\r\n$1\r\na\r\n"], makes
    the parser write to the first element of an empty vector. *)
Theorem empty_command_writes_outside {A} `{ArenaLaws A} resize_ok (a : A) :
  resize_ok 0 = true -> arena_inv a ->
  Consume resize_ok new_parser [42; 48; 13; 10; 36; 49; 13; 10; 97; 13; 10] a = None.
Proof.
  intros Hr Ha. destruct (arena_granted 8 a Ha) as (a1 & Hal & _); [unfold header_size; lia|].
  assert (H1 : forall f, Consume_loop resize_ok (S f) new_parser [42; 48; 13; 10; 36; 49; 13; 10; 97; 13; 10] a =
    Consume_loop resize_ok f (mkParser true 0 0 []) [36; 49; 13; 10; 97; 13; 10] a).
  { intros f. cbn [Consume_loop _parsing_array new_parser Reset negb andb Z.eqb Pos.eqb].
    change (read_number [42; 48; 13; 10; 36; 49; 13; 10; 97; 13; 10]) with (Decimal 0 2). cbn zeta.
    unfold mbind', mlift, resize. change (0 <? 0) with false. cbn iota. by rewrite Hr. }
  assert (H2 : forall f, Consume_loop resize_ok (S f) (mkParser true 0 0 []) [36; 49; 13; 10; 97; 13; 10] a = None).
  { intros f. cbn [Consume_loop _parsing_array negb andb Z.eqb Pos.eqb].
    change (read_number [36; 49; 13; 10; 97; 13; 10]) with (Decimal 1 2). cbn zeta. unfold mbind'.
    change (1 <? 0) with false. change (2 ^ 32 - 1 <? 1) with false. cbn iota.
    change (size [36; 49; 13; 10; 97; 13; 10] <? 2 + 2 + 1 + 2) with false. cbn iota.
    cbv beta. change (u64 ((1 / 8 + 1) * 8)) with 8. by rewrite Hal. }
  unfold Consume. cbn [length]. by rewrite H1, H2.
Qed.
Lemma empty_command_writes_outside_witness :
  Consume (fun _ => true) new_parser [42; 48; 13; 10; 36; 49; 13; 10; 97; 13; 10] init = None.
Proof. apply (empty_command_writes_outside (fun _ => true) init); [reflexivity|exact init_ok]. Defined.

End RedisTheorems.
