(* ===== verification/Redis.v ===== *)
(** * Redis clients and servers (brpc/redis.h, redis.cpp, policy/redis_protocol.cpp)

    A request collects commands; a response parses as many replies as there were
    commands.  The server parses commands as they arrive, runs their handlers and sends
    the replies.  The handlers are parameters: how they are found, run and start a
    transaction.  [A] is the state they and the arena share. *)
From stdpp Require Import base list.
From Stdlib Require Import ZArith Lia Bool.
From S2P Require Import Prelude Arena HpackPrimitive RedisReply RedisReplySpec RedisCommand RedisCommandSpec.

Open Scope Z_scope.
Open Scope m_scope.

Module Redis.
Import Arena RedisReply RedisReplySpec RedisCommand RedisCommandSpec.

(** ** RedisRequest *)
Record RedisRequest := mkRequest { _ncommand : Z; _has_error : bool; _buf : bytes }.
Definition new_request : RedisRequest := mkRequest 0 false [].
(** The common part of the Add functions: [st] is the status and the new buffer. *)
Definition add (st : option (Status * bytes)) (r : RedisRequest) : option (bool * RedisRequest) :=
  if _has_error r then Some (false, r)
  else
    '(status, buf) ← st;
    match status with
    | OK => Some (true, mkRequest (_ncommand r + 1) false buf)
    | _ => Some (false, mkRequest (_ncommand r) true buf)
    end.
Definition AddCommand (command : bytes) (r : RedisRequest) := add (RedisCommandNoFormat (_buf r) command) r.
Definition AddCommandByComponents (components : list bytes) (r : RedisRequest) :=
  add (RedisCommandByComponents (_buf r) components) r.
Definition AddCommandV (vsnprintf : bytes -> Arg -> option bytes) (fmt : bytes) (ap : list Arg) (r : RedisRequest) :=
  add (RedisCommandFormatV vsnprintf (_buf r) fmt ap) r.
Definition Request_MergeFrom (from r : RedisRequest) : RedisRequest :=
  mkRequest (_ncommand r + _ncommand from) (_has_error r || _has_error from) (_buf r ++ _buf from).
Definition Request_SerializeTo (r : RedisRequest) : option bytes := if _has_error r then None else Some (_buf r).

Section Arena.
Context {A : Type} `{ArenaOps A}.

(** ** RedisResponse *)
Record RedisResponse := mkResponse {
  _first_reply : RedisReply; _other_replies : option (list RedisReply); _nreply : Z; _cached_size_ : Z }.
Definition new_response : RedisResponse := mkResponse new_reply None 0 0.
Definition reply (r : RedisResponse) (index : Z) : option RedisReply :=
  if index <? _nreply r
  then if index =? 0 then Some (_first_reply r)
       else if index <? 0 then None else l ← _other_replies r; l !! Z.to_nat (index - 1)
  else Some new_reply.

(** The loop over the other replies: also how many were finished and of how many bytes. *)
Fixpoint consume_others (l : list RedisReply) (buf : bytes) : M A (ParseError * list RedisReply * Z * Z * bytes) :=
  match l with
  | [] => mret (PARSE_OK, [], 0, 0, buf)
  | x :: l' =>
      let* res := ConsumePartialIOBuf x buf in
      let '(err, x', buf1) := res in
      if decide (err = PARSE_OK) then
        let* res' := consume_others l' buf1 in
        let '(err', l1, n, k, buf2) := res' in
        mret (err', x' :: l1, n + 1, k + (size buf - size buf1), buf2)
      else mret (err, x' :: l', 0, 0, buf1)
  end.

(** The replies after the first. *)
Definition response_others (r : RedisResponse) (buf : bytes) (reply_count : Z) : M A (ParseError * RedisResponse * bytes) :=
  let* others :=
    match _other_replies r with
    | Some l => mret (Some l)
    | None =>
        let* ok := arena_allocate (u64 (sizeof_RedisReply * (reply_count - 1))) in
        mret (if ok : bool then Some (replicate (Z.to_nat (reply_count - 1)) new_reply) else None)
    end in
  match others with
  | None => mret (PARSE_ERROR_ABSOLUTELY_WRONG, r, buf)
  | Some l =>
      let i := _nreply r in
      if (1 <=? i) && ((reply_count <=? i) || (reply_count - 1 <=? Z.of_nat (length l))) then
        let from := Z.to_nat (i - 1) in
        let upto := Z.to_nat (Z.max i reply_count - 1) in
        let* res := consume_others (take (upto - from) (drop from l)) buf in
        let '(err, l1, n, k, buf') := res in
        mret (err, mkResponse (_first_reply r) (Some (take from l ++ l1 ++ drop upto l)) (i + n) (i32 (_cached_size_ r + k)), buf')
      else ub
  end.

Definition Response_ConsumePartialIOBuf (r : RedisResponse) (buf : bytes) (reply_count : Z) : M A (ParseError * RedisResponse * bytes) :=
  let continue (r : RedisResponse) (buf : bytes) :=
    if 1 <? reply_count then response_others r buf reply_count else mret (PARSE_OK, r, buf) in
  if _nreply r =? 0 then
    let* res := ConsumePartialIOBuf (_first_reply r) buf in
    let '(err, first, buf1) := res in
    if decide (err = PARSE_OK)
    then continue (mkResponse first (_other_replies r) 1 (i32 (_cached_size_ r + (size buf - size buf1)))) buf1
    else mret (err, mkResponse first (_other_replies r) (_nreply r) (_cached_size_ r), buf1)
  else continue r buf.

(** ** The server *)
Inductive RedisCommandHandlerResult := REDIS_CMD_HANDLED | REDIS_CMD_CONTINUE | REDIS_CMD_BATCHED.

Context {Handler : Type} (FindCommandHandler : bytes -> option Handler)
  (Run : Handler -> list bytes -> bool -> RedisReply -> M A (RedisCommandHandlerResult * RedisReply))
  (NewTransactionHandler : Handler -> option Handler) (resize_ok : Z -> bool).

Record RedisConnContext := mkContext {
  transaction_handler : option Handler; batched_size : Z; parser : RedisCommandParser }.
Definition new_context : RedisConnContext := mkContext None 0 new_parser.
Definition set_parser (p : RedisCommandParser) (ctx : RedisConnContext) : RedisConnContext :=
  mkContext (transaction_handler ctx) (batched_size ctx) p.

(** snprintf(buf, 64, "ERR unknown command `%s`", name). *)
Definition unknown_command (name : bytes) : bytes :=
  take 63 ([69; 82; 82; 32; 117; 110; 107; 110; 111; 119; 110; 32; 99; 111; 109; 109; 97; 110; 100; 32; 96] ++
           take_while (fun c => negb (c =? 0)) name ++ [96]).

(** The elements of the array are the replies of a batch. *)
Fixpoint serialize_batch (l : list RedisReply) (n : nat) (out : bytes) : option bytes :=
  match l, n with
  | _, O => Some out
  | x :: l', S n' => o ← SerializeTo x out; serialize_batch l' n' o.2
  | [], S _ => None
  end.

Definition run_handler (ctx : RedisConnContext) (args : list bytes) (flush_batched : bool)
  : M A (Z * RedisCommandHandlerResult * RedisReply * RedisConnContext) :=
  match transaction_handler ctx with
  | Some h =>
      let* res := Run h args flush_batched new_reply in
      let '(result, output) := res in
      match result with
      | REDIS_CMD_HANDLED => mret (0, result, output, mkContext None (batched_size ctx) (parser ctx))
      | REDIS_CMD_BATCHED => mret (-1, result, output, ctx)
      | REDIS_CMD_CONTINUE => mret (0, result, output, ctx)
      end
  | None =>
      match args with
      | [] => ub
      | name :: _ =>
          match FindCommandHandler name with
          | None => let* output := SetError (unknown_command name) new_reply in mret (0, REDIS_CMD_HANDLED, output, ctx)
          | Some h =>
              let* res := Run h args flush_batched new_reply in
              let '(result, output) := res in
              match result with
              | REDIS_CMD_CONTINUE =>
                  if batched_size ctx =? 0
                  then mret (0, result, output, mkContext (NewTransactionHandler h) (batched_size ctx) (parser ctx))
                  else mret (-1, result, output, ctx)
              | REDIS_CMD_BATCHED => mret (0, result, output, mkContext None (batched_size ctx + 1) (parser ctx))
              | REDIS_CMD_HANDLED => mret (0, result, output, ctx)
              end
          end
      end
  end.

(** Returns 0 or -1 and what the appender holds then. *)
Definition ConsumeCommand (ctx : RedisConnContext) (args : list bytes) (flush_batched : bool) (appender : bytes)
  : M A (Z * RedisConnContext * bytes) :=
  let* res := run_handler ctx args flush_batched in
  let '(rc, result, output, ctx1) := res in
  if negb (rc =? 0) then mret (-1, ctx1, appender)
  else
    match result with
    | REDIS_CMD_HANDLED =>
        if batched_size ctx1 =? 0 then let* o := mlift (SerializeTo output appender) in mret (0, ctx1, o.2)
        else if i32 (reply_size output) =? batched_size ctx1 + 1 then
          if is_array output then
            let* l := mlift (replies (_data output)) in
            let* o := mlift (serialize_batch l (Z.to_nat (batched_size ctx1 + 1)) appender) in
            mret (0, mkContext (transaction_handler ctx1) 0 (parser ctx1), o)
          else mret (0, mkContext (transaction_handler ctx1) 0 (parser ctx1), appender)
        else mret (-1, ctx1, appender)
    | REDIS_CMD_CONTINUE => let* o := mlift (SerializeTo output appender) in mret (0, ctx1, o.2)
    | REDIS_CMD_BATCHED => mret (0, ctx1, appender)
    end.

(** The last command of a call: it flushes batches, and the replies are sent.  The arena
    is cleared when no argument of the next command is in it. *)
Definition serve_last (err : ParseError) (ctx : RedisConnContext) (current_args : list bytes) (source appender : bytes)
  : M A (ParseError * RedisConnContext * bytes * option bytes) :=
  let* res := ConsumeCommand ctx current_args true appender in
  let '(rc, ctx2, appender1) := res in
  if rc =? 0 then
    do* (if ParsedArgsSize (parser ctx2) =? 0 then arena_clear else mret tt) in
    mret (err, ctx2, source, Some appender1)
  else mret (PARSE_ERROR_ABSOLUTELY_WRONG, ctx2, source, None).

(** The commands after [current_args]: each is run when the next one is complete, the last
    with [flush_batched].  The result is the error of the call, whether the replies are
    sent, and the replies. *)
Fixpoint serve_loop (fuel : nat) (ctx : RedisConnContext) (current_args : list bytes) (source appender : bytes)
  : M A (ParseError * RedisConnContext * bytes * option bytes) :=
  match fuel with
  | O => ub
  | S fuel' =>
      let* res := Consume resize_ok (parser ctx) source in
      let '(err, p, next_args, source1) := res in
      let ctx1 := set_parser p ctx in
      match err, next_args with
      | PARSE_OK, Some next =>
          let* res' := ConsumeCommand ctx1 current_args false appender in
          let '(rc, ctx2, appender1) := res' in
          if rc =? 0 then serve_loop fuel' ctx2 next source1 appender1
          else mret (PARSE_ERROR_ABSOLUTELY_WRONG, ctx2, source1, None)
      | _, _ => serve_last err ctx1 current_args source1 appender
      end
  end.

(** [ParseRedisMessage] on the server's side, for data that is not at the end of file. *)
Definition ParseRedisMessage (ctx : RedisConnContext) (source : bytes) : M A (ParseError * RedisConnContext * bytes * option bytes) :=
  match source with
  | [] => mret (PARSE_ERROR_NOT_ENOUGH_DATA, ctx, source, None)
  | _ =>
      let* res := Consume resize_ok (parser ctx) source in
      let '(err, p, args, source1) := res in
      let ctx1 := set_parser p ctx in
      match err, args with
      | PARSE_OK, Some current_args => serve_loop (S (length source1)) ctx1 current_args source1 []
      | _, _ => mret (err, ctx1, source1, None)
      end
  end.
End Arena.

(** ** Responses *)
Section Responses.
Context {A : Type} `{ArenaLaws A}.
Implicit Types (a : A).

Lemma reply_parses v : sendable v -> parses_with (@ConsumePartialIOBuf A _) (fun _ _ => True) v.
Proof. intros Hv r t b a Hp Ha _. apply parses_all; [done..|]. lia. Qed.

Lemma others_of_subs l : forall b a err l' n b' a',
  consume_subs ConsumePartialIOBuf l b a = Some ((err, l', n, b'), a') ->
  exists k, consume_others l b a = Some ((err, l', n, k, b'), a').
Proof.
  induction l as [|x l IH]; intros b a err l' n b' a' Hc; cbn [consume_subs consume_others] in *.
  - injection Hc as <- <- <- <- <-. by exists 0.
  - unfold mbind' in *. destruct (ConsumePartialIOBuf x b a) as [[[[e x'] b1] a1]|]; [|done]. destruct (decide (e = PARSE_OK)).
    + destruct (consume_subs _ l b1 a1) as [[[[[e2 l2] n2] b2] a2]|] eqn:E; [|done]. injection Hc as <- <- <- <- <-.
      destruct (IH _ _ _ _ _ _ _ E) as [k Hk]. eexists. by rewrite Hk.
    + injection Hc as <- <- <- <- <-. by exists 0.
Qed.

(** All replies are there. *)
Definition complete_response (r : RedisResponse) (vs : list value) : Prop :=
  _nreply r = Z.of_nat (length vs) /\ Forall2 complete (_first_reply r :: default [] (_other_replies r)) vs.
(** The response has consumed a prefix of the replies; [t] are the bytes to come. *)
Inductive awaiting : RedisResponse -> list value -> bytes -> Prop :=
  | awaiting_first first v vs t c : pending first v t -> awaiting (mkResponse first None 0 c) (v :: vs) (t ++ concat (map encode vs))
  | awaiting_others first v0 rs us cur v vs t c :
      complete first v0 -> Forall2 complete rs us -> pending cur v t ->
      awaiting (mkResponse first (Some (rs ++ cur :: replicate (length vs) new_reply)) (1 + Z.of_nat (length us)) c)
        (v0 :: us ++ v :: vs) (t ++ concat (map encode vs)).

Definition response_done (c : M A (ParseError * RedisResponse * bytes)) vs a rest : Prop :=
  exists r a', c a = Some ((PARSE_OK, r, rest), a') /\ complete_response r vs /\ arena_inv a'.
Definition response_waits (c : M A (ParseError * RedisResponse * bytes)) vs a t2 : Prop :=
  exists r b' a', c a = Some ((PARSE_ERROR_NOT_ENOUGH_DATA, r, b'), a') /\ awaiting r vs (b' ++ t2) /\ arena_inv a'.

Lemma others_spec first v0 rs us cur v vs t c count b a :
  Forall sendable (v :: vs) -> complete first v0 -> Forall2 complete rs us -> pending cur v t -> arena_inv a ->
  count = 1 + Z.of_nat (length us) + 1 + Z.of_nat (length vs) ->
  let r := mkResponse first (Some (rs ++ cur :: replicate (length vs) new_reply)) (1 + Z.of_nat (length us)) c in
  (forall rest, b = t ++ concat (map encode vs) ++ rest -> response_done (response_others r b count) (v0 :: us ++ v :: vs) a rest) /\
  (forall t2, t ++ concat (map encode vs) = b ++ t2 -> t2 <> [] -> response_waits (response_others r b count) (v0 :: us ++ v :: vs) a t2).
Proof.
  intros Hs Hf Hrs Hcur Ha Hcount r. pose proof (Forall2_length _ _ _ Hrs) as Hlen.
  destruct (subs_spec ConsumePartialIOBuf (fun _ _ => True) vs cur v t b a) as [Hfin Hwait]; [|done..|].
  { eapply Forall_impl; [exact Hs|]. apply reply_parses. }
  assert (Hall : length (rs ++ cur :: replicate (length vs) new_reply) = (length us + S (length vs))%nat)
    by (rewrite length_app; simpl; rewrite length_replicate; lia).
  assert (Hc : forall err l n b' a', consume_subs ConsumePartialIOBuf (cur :: replicate (length vs) new_reply) b a = Some ((err, l, n, b'), a') ->
    exists k, response_others r b count a = Some ((err, mkResponse first (Some (rs ++ l)) (1 + Z.of_nat (length us) + n) k, b'), a')).
  { intros err l n b' a' Hsub. destruct (others_of_subs _ _ _ _ _ _ _ _ Hsub) as [k Hk]. exists (i32 (c + k)).
    unfold response_others, mbind', mret. subst r. cbn [_other_replies _nreply _first_reply _cached_size_]. rewrite Hall.
    rewrite (proj2 (Z.leb_le 1 _)), (proj2 (Z.leb_le (count - 1) _)), orb_true_r by lia. cbn [andb].
    replace (Z.to_nat (1 + Z.of_nat (length us) - 1)) with (length us) by lia.
    replace (Z.to_nat (Z.max (1 + Z.of_nat (length us)) count - 1)) with (length us + S (length vs))%nat by lia.
    rewrite (drop_ge _ (length us + S (length vs))) by lia. rewrite drop_app_length', take_app_length' by done.
    rewrite take_ge by (simpl; rewrite length_replicate; lia). rewrite Hk. by rewrite app_nil_r. }
  split.
  - intros rest Hb. destruct (Hfin rest Hb) as (l & a' & Hsub & Hl & Ha'). destruct (Hc _ _ _ _ _ Hsub) as [k Hk].
    eexists _, a'. split; [exact Hk|]. split; [|done]. split; cbn [_nreply _first_reply _other_replies default].
    + cbn [length]. rewrite length_app. cbn [length]. lia.
    + constructor; [done|]. by apply Forall2_app.
  - intros t2 Heq Ht. destruct (Hwait t2 Heq Ht) as (rs' & us' & cur' & v' & vs' & t' & b' & a' & Hsub & Hsp & Hrs' & Hp' & Heq' & Ha' & _).
    destruct (Hc _ _ _ _ _ Hsub) as [k Hk]. eexists _, b', a'. split; [exact Hk|]. split; [|done].
    rewrite Hsp, <- Heq', (app_assoc rs), (app_assoc us).
    replace (1 + Z.of_nat (length us) + Z.of_nat (length us')) with (1 + Z.of_nat (length (us ++ us'))) by (rewrite length_app; lia).
    constructor; [done|by apply Forall2_app|done].
Qed.

Lemma response_spec r vs t b a :
  Forall sendable vs -> Z.of_nat (length vs) < 2 ^ 31 -> awaiting r vs t -> arena_inv a ->
  let c := Response_ConsumePartialIOBuf r b (Z.of_nat (length vs)) in
  (forall rest, b = t ++ rest -> response_done c vs a rest) /\
  (forall t2, t = b ++ t2 -> t2 <> [] -> response_waits c vs a t2).
Proof.
  intros Hs Hl Hw Ha. destruct Hw as [first v vs t c Hp|first v0 rs us cur v vs t c Hf Hrs Hp]; cbn zeta.
  - apply Forall_cons in Hs as [Hv Hs]. set (count := Z.of_nat (length (v :: vs))).
    assert (Hn : count = 1 + Z.of_nat (length vs)) by (subst count; cbn [length]; lia).
    (* after the first reply is complete *)
    assert (Hgo : forall b1, b = t ++ b1 -> exists f k a1, complete f v /\ arena_inv a1 /\
      Response_ConsumePartialIOBuf (mkResponse first None 0 c) b count a =
      (if 1 <? count then response_others (mkResponse f None 1 k) b1 count else mret (PARSE_OK, mkResponse f None 1 k, b1)) a1).
    { intros b1 Hb. destruct (reply_parses v Hv first t b a Hp Ha I) as [Hfin _].
      destruct (Hfin b1 Hb) as (f & a1 & Hc & Hf & Ha1). eexists f, _, a1. split; [done|]. split; [done|].
      unfold Response_ConsumePartialIOBuf, mbind'. cbn [_nreply _first_reply _other_replies _cached_size_ Z.eqb]. rewrite Hc.
      rewrite decide_True by done. reflexivity. }
    (* and the array for the others is allocated *)
    assert (Halloc : forall f k b1 a1 v1 vs1, vs = v1 :: vs1 -> arena_inv a1 -> exists a2, arena_inv a2 /\
      response_others (mkResponse f None 1 k) b1 count a1 =
      response_others (mkResponse f (Some (new_reply :: replicate (length vs1) new_reply)) 1 k) b1 count a2).
    { intros f k b1 a1 v1 vs1 -> Ha1. destruct (arena_granted (u64 (sizeof_RedisReply * (count - 1))) a1 Ha1) as (a2 & Hal & Ha2).
      { unfold sizeof_RedisReply, header_size. rewrite u64_small by (cbn [length] in *; lia). cbn [length] in *. lia. }
      exists a2. split; [done|]. unfold response_others, mbind'. cbn [_other_replies]. rewrite Hal. unfold mret at 1.
      replace (Z.to_nat (count - 1)) with (S (length vs1)) by (cbn [length] in *; lia). reflexivity. }
    split.
    + intros rest Hb. rewrite <- app_assoc in Hb. destruct (Hgo _ Hb) as (f & k & a1 & Hf & Ha1 & Heq). unfold response_done. rewrite Heq.
      destruct vs as [|v1 vs1].
      * rewrite (proj2 (Z.ltb_ge 1 count)) by (cbn [length] in *; lia). cbn [map concat app].
        eexists _, a1. split; [reflexivity|]. split; [|done]. split; [done|]. by constructor.
      * rewrite (proj2 (Z.ltb_lt 1 count)) by (cbn [length] in *; lia). destruct (Halloc f k (concat (map encode (v1 :: vs1)) ++ rest) a1 v1 vs1 eq_refl Ha1) as (a2 & Ha2 & ->).
        destruct (others_spec f v [] [] new_reply v1 vs1 (encode v1) k count (concat (map encode (v1 :: vs1)) ++ rest) a2) as [Hfin _];
          [done|done|constructor|by constructor|done|cbn [length] in *; lia|]. apply Hfin. cbn [map concat]. by rewrite <- app_assoc.
    + intros t2 Heq Ht. symmetry in Heq. apply split_prefix in Heq as [(t3 & Ht3 & Hb & ->)|(b1 & Hb & Hx)].
      * destruct (reply_parses v Hv first t b a Hp Ha I) as [_ Hwait]. destruct (Hwait t3) as (f & b' & a1 & Hc & Hp' & Ha1 & _); [done|done|].
        unfold response_waits, Response_ConsumePartialIOBuf, mbind'. cbn [_nreply _first_reply _other_replies _cached_size_ Z.eqb]. rewrite Hc.
        rewrite decide_False by done. eexists _, b', a1. split; [reflexivity|]. split; [|done]. rewrite app_assoc. by constructor.
      * destruct (Hgo _ Hb) as (f & k & a1 & Hf & Ha1 & Heq). unfold response_waits. rewrite Heq.
        destruct vs as [|v1 vs1]; [by destruct b1|].
        rewrite (proj2 (Z.ltb_lt 1 count)) by (cbn [length] in *; lia). destruct (Halloc f k b1 a1 v1 vs1 eq_refl Ha1) as (a2 & Ha2 & ->).
        destruct (others_spec f v [] [] new_reply v1 vs1 (encode v1) k count b1 a2) as [_ Hwait];
          [done|done|constructor|by constructor|done|cbn [length] in *; lia|]. by apply Hwait.
  - apply Forall_cons in Hs as [_ Hs]. apply Forall_app in Hs as [_ Hs].
    set (count := Z.of_nat (length (v0 :: us ++ v :: vs))).
    assert (Hn : count = 1 + Z.of_nat (length us) + 1 + Z.of_nat (length vs)) by (subst count; cbn [length]; rewrite length_app; cbn [length]; lia).
    destruct (others_spec first v0 rs us cur v vs t c count b a) as [Hfin Hwait]; [done..|].
    unfold response_done, response_waits, Response_ConsumePartialIOBuf in *. cbn [_nreply].
    rewrite (proj2 (Z.eqb_neq (1 + _) 0)), (proj2 (Z.ltb_lt 1 count)) by lia. split; [|exact Hwait].
    intros rest ->. apply Hfin. by rewrite <- app_assoc.
Qed.

(** The response is given the data as it arrives. *)
Fixpoint feed_response (chunks : list bytes) (count : Z) (err : ParseError) (r : RedisResponse) (buf : bytes)
  : M A (ParseError * RedisResponse * bytes) :=
  match chunks with
  | [] => mret (err, r, buf)
  | c :: chunks' =>
      if decide (err = PARSE_ERROR_NOT_ENOUGH_DATA) then
        let* res := Response_ConsumePartialIOBuf r (buf ++ c) count in
        let '(err', r', buf') := res in feed_response chunks' count err' r' buf'
      else feed_response chunks' count err r (buf ++ c)
  end.

Lemma feed_response_done chunks count r buf a :
  feed_response chunks count PARSE_OK r buf a = Some ((PARSE_OK, r, buf ++ concat chunks), a).
Proof.
  revert buf. induction chunks as [|c chunks IH]; intros buf; cbn [feed_response concat]; [by rewrite app_nil_r|].
  rewrite decide_False by done. by rewrite IH, <- app_assoc.
Qed.

Lemma feed_response_spec vs chunks : forall r buf t2 rest a,
  Forall sendable vs -> Z.of_nat (length vs) < 2 ^ 31 -> awaiting r vs (buf ++ t2) -> t2 <> [] ->
  concat chunks = t2 ++ rest -> arena_inv a ->
  response_done (feed_response chunks (Z.of_nat (length vs)) PARSE_ERROR_NOT_ENOUGH_DATA r buf) vs a rest.
Proof.
  induction chunks as [|c chunks IH]; intros r buf t2 rest a Hs Hl Hw Ht Hc Ha; cbn [concat] in Hc; [by destruct t2|].
  unfold response_done. cbn [feed_response]. rewrite decide_True by done. unfold mbind'.
  destruct (response_spec r vs _ (buf ++ c) a Hs Hl Hw Ha) as [Hfin Hwait].
  apply split_prefix in Hc as [(t3 & Ht3 & <- & Hc)|(c1 & -> & ->)].
  - destruct (Hwait t3) as (r' & b' & a' & Hr & Hw' & Ha'); [by rewrite app_assoc|done|]. rewrite Hr. by eapply IH.
  - destruct (Hfin c1) as (r' & a' & Hr & Hcm & Ha'); [by rewrite app_assoc|]. rewrite Hr. exists r', a'. by rewrite feed_response_done.
Qed.

Lemma complete_reply r vs i v : complete_response r vs -> vs !! i = Some v ->
  exists x, reply r (Z.of_nat i) = Some x /\ value_of x = Some (received v).
Proof.
  intros [Hn Hall] Hv. pose proof (lookup_lt_Some _ _ _ Hv) as Hi. unfold reply. rewrite Hn, (proj2 (Z.ltb_lt _ _)) by lia.
  destruct (Forall2_lookup_r _ _ _ _ _ Hall Hv) as (x & Hx & Hc). exists x. split; [|exact Hc].
  destruct i as [|i]; [by injection Hx as ->|]. rewrite (proj2 (Z.eqb_neq _ 0)), (proj2 (Z.ltb_ge _ 0)) by lia.
  replace (Z.to_nat (Z.of_nat (S i) - 1)) with i by lia. cbn in Hx. destruct (_other_replies r) as [l|]; [done|]. by destruct i.
Qed.
End Responses.

(** ** Serving *)
Section Server.
Context {A : Type} `{ArenaLaws A} {Handler : Type} (FindCommandHandler : bytes -> option Handler)
  (Run : Handler -> list bytes -> bool -> RedisReply -> M A (RedisCommandHandlerResult * RedisReply))
  (NewTransactionHandler : Handler -> option Handler) (resize_ok : Z -> bool) (handle : Handler -> list bytes -> value).
Implicit Types (a : A).

(** Handlers that answer every command at once; [handle] is what they answer. *)
Definition immediate : Prop := forall h args flush a, arena_inv a -> exists r a',
  Run h args flush new_reply a = Some ((REDIS_CMD_HANDLED, r), a') /\ value_of r = Some (handle h args) /\ arena_inv a'.
(** The answer to a command. *)
Definition answer (args : list bytes) : value :=
  match FindCommandHandler (default [] (head args)) with
  | Some h => handle h args
  | None => VError (unknown_command (default [] (head args)))
  end.
Definition request_ok (comps : list bytes) : Prop :=
  command_ok comps /\ comps <> [] /\ resize_ok (Z.of_nat (length comps)) = true /\ sendable (answer (lowered comps)).
Definition answers_to (cmds : list (list bytes)) : bytes := concat (map (fun c => encode (answer (lowered c))) cmds).

Context (Himm : immediate).

Lemma unknown_command_size name : size (unknown_command name) <= 63.
Proof. unfold unknown_command, size. rewrite length_take. lia. Qed.

Lemma consume_command_spec comps p flush out a :
  request_ok comps -> arena_inv a -> exists a',
    ConsumeCommand FindCommandHandler Run NewTransactionHandler (mkContext None 0 p) (lowered comps) flush out a =
      Some ((0, mkContext None 0 p, out ++ encode (answer (lowered comps))), a') /\ arena_inv a'.
Proof.
  intros (_ & Hne & _ & Hs) Ha. unfold ConsumeCommand.
  assert (Hrun : exists r a', run_handler FindCommandHandler Run NewTransactionHandler (mkContext None 0 p) (lowered comps) flush a =
    Some ((0, REDIS_CMD_HANDLED, r, mkContext None 0 p), a') /\ value_of r = Some (answer (lowered comps)) /\ arena_inv a').
  { unfold run_handler. cbn [transaction_handler]. destruct comps as [|c cs]; [done|]. cbn [lowered].
    unfold answer. cbn [head default from_option]. unfold id.
    destruct (FindCommandHandler (Primitive.tolower c)) as [h|].
    - destruct (Himm h (Primitive.tolower c :: cs) flush a Ha) as (r & a' & Hr & Hv & Ha'). exists r, a'. unfold mbind'. by rewrite Hr.
    - pose proof (unknown_command_size (Primitive.tolower c)).
      destruct (set_string_spec (unknown_command (Primitive.tolower c)) REDIS_REPLY_ERROR a) as (r & a' & Hr & Ha' & d & -> & Hd); [lia|done|].
      eexists _, a'. unfold mbind', SetError. rewrite Hr. split; [reflexivity|]. split; [|done]. cbn [value_of]. by rewrite Hd. }
  destruct Hrun as (r & a' & Hr & Hv & Ha'). exists a'. unfold mbind', mlift. rewrite Hr. cbn [Z.eqb negb batched_size].
  by rewrite (serialize_spec _ Hs r out Hv).
Qed.

(** Between two calls: the commands [rest] are to come, of the first one the parser and
    the buffer [b] hold a part; [t] are the bytes to come. *)
Definition server_at (p : RedisCommandParser) (b t : bytes) (rest : list (list bytes)) : Prop :=
  match rest with
  | [] => p = new_parser /\ b = [] /\ t = []
  | c :: cs => exists t1, t1 <> [] /\ waiting c p (b ++ t1) /\ t = t1 ++ concat (map wire cs)
  end.

(** The end of a call. *)
Lemma serve_last_spec err comps p source out a :
  request_ok comps -> arena_inv a -> exists a',
    serve_last FindCommandHandler Run NewTransactionHandler err (mkContext None 0 p) (lowered comps) source out a =
      Some ((err, mkContext None 0 p, source, Some (out ++ encode (answer (lowered comps)))), a') /\ arena_inv a'.
Proof.
  intros Hc Ha. destruct (consume_command_spec comps p true out a Hc Ha) as (a1 & Hr & Ha1). unfold serve_last, mbind'. rewrite Hr. cbn [Z.eqb parser].
  destruct (ParsedArgsSize p =? 0).
  - destruct (arena_cleared a1 Ha1) as (a2 & Hcl & Ha2). exists a2. by rewrite Hcl.
  - by exists a1.
Qed.

Abbreviation serve := (serve_loop FindCommandHandler Run NewTransactionHandler resize_ok).

Lemma serve_loop_spec rest : forall c0 f s t out a,
  Forall request_ok (c0 :: rest) -> s ++ t = concat (map wire rest) -> (length s < f)%nat -> arena_inv a ->
  exists p b fin rest' a', rest = fin ++ rest' /\ server_at p b t rest' /\ arena_inv a' /\
    serve f (mkContext None 0 new_parser) (lowered c0) s out a =
      Some ((PARSE_ERROR_NOT_ENOUGH_DATA, mkContext None 0 p, b, Some (out ++ answers_to (c0 :: fin))), a').
Proof.
  induction rest as [|c cs IH]; intros c0 f s t out a Hok Heq Hf Ha; apply Forall_cons in Hok as [H0c Hok]; (destruct f as [|f]; [lia|]);
    cbn [serve_loop]; unfold mbind', set_parser; cbn [parser transaction_handler batched_size].
  - apply app_eq_nil in Heq as [-> ->]. cbn [Consume Consume_loop length]. unfold mret at 1.
    destruct (serve_last_spec PARSE_ERROR_NOT_ENOUGH_DATA c0 new_parser [] out a H0c Ha) as (a' & Hr & Ha').
    exists new_parser, [], [], [], a'. split; [done|]. split; [done|]. split; [done|]. unfold answers_to. cbn [map concat]. rewrite app_nil_r. exact Hr.
  - apply Forall_cons in Hok as [Hc Hcs]. pose proof Hc as (Hcok & Hne & Hrs & _).
    destruct (waiting_spec resize_ok c Hrs Hcok Hne (S (length s)) new_parser (wire c) s a) as [Hfin Hwait]; [by left|done|lia|].
    cbn [map concat] in Heq. apply split_prefix in Heq as [(t3 & Ht3 & Hs & Ht)|(b1 & -> & Hx)].
    + destruct (Hwait t3) as (p & b & a1 & Hr & Hw & Ha1); [done|done|]. unfold Consume. rewrite Hr.
      destruct (serve_last_spec PARSE_ERROR_NOT_ENOUGH_DATA c0 p b out a1 H0c Ha1) as (a' & Hl & Ha').
      exists p, b, [], (c :: cs), a'. split; [done|]. split; [by exists t3|]. split; [done|].
      unfold answers_to. cbn [map concat]. rewrite app_nil_r. exact Hl.
    + destruct (Hfin b1 eq_refl) as (a1 & Hr & Ha1). unfold Consume. rewrite Hr. change RedisCommand.Reset with new_parser.
      destruct (consume_command_spec c0 new_parser false out a1 H0c Ha1) as (a2 & Hcc & Ha2). rewrite Hcc. cbn [Z.eqb].
      destruct (IH c f b1 t (out ++ encode (answer (lowered c0))) a2) as (p & b & fin & rest' & a' & -> & Hat & Ha' & Hloop);
        [by constructor|done|rewrite length_app in Hf; rewrite wire_eq in Hf; cbn [length] in Hf; lia|done|].
      exists p, b, (c :: fin), rest', a'. split; [done|]. split; [done|]. split; [done|]. rewrite Hloop.
      unfold answers_to. cbn [map concat]. by rewrite <- app_assoc.
Qed.

Abbreviation call := (ParseRedisMessage FindCommandHandler Run NewTransactionHandler resize_ok).

Lemma call_spec p b c t t' cmds a :
  Forall request_ok cmds -> server_at p b t cmds -> t = c ++ t' -> arena_inv a ->
  exists p' b' fin rest' a' sent, cmds = fin ++ rest' /\ server_at p' b' t' rest' /\ arena_inv a' /\
    default [] sent = answers_to fin /\
    call (mkContext None 0 p) (b ++ c) a = Some ((PARSE_ERROR_NOT_ENOUGH_DATA, mkContext None 0 p', b', sent), a').
Proof.
  intros Hok Hat Heq Ha. destruct cmds as [|c0 cs].
  - destruct Hat as (-> & -> & ->). symmetry in Heq. apply app_eq_nil in Heq as [-> ->].
    by exists new_parser, [], [], [], a, None.
  - destruct Hat as (t1 & Ht1 & Hw & Ht). rewrite Ht in Heq. symmetry in Heq. apply Forall_cons in Hok as [Hc Hcs].
    pose proof Hc as (Hcok & Hne & Hrs & _).
    destruct (waiting_spec resize_ok c0 Hrs Hcok Hne (S (length (b ++ c))) p (b ++ t1) (b ++ c) a) as [Hfin Hwait]; [done|done|lia|].
    apply split_prefix in Heq as [(t3 & Ht3 & <- & ->)|(c1 & -> & Hx)].
    + destruct (b ++ c) as [|x s] eqn:Es.
      * exists p, [], [], (c0 :: cs), a, None. split; [done|]. split; [|by repeat split].
        apply app_eq_nil in Es as [-> ->]. by exists t3.
      * destruct (Hwait t3) as (p' & b' & a' & Hr & Hw' & Ha'); [by rewrite app_assoc, Es|done|].
        exists p', b', [], (c0 :: cs), a', None. split; [done|]. split; [by exists t3|]. split; [done|]. split; [done|].
        unfold ParseRedisMessage, mbind', Consume. cbn [parser]. by rewrite Hr.
    + destruct (Hfin c1) as (a1 & Hr & Ha1); [by rewrite app_assoc|].
      destruct (serve_loop_spec cs c0 (S (length c1)) c1 t' [] a1) as (p' & b' & fin & rest' & a' & -> & Hat & Ha' & Hl); [by constructor|done|lia|done|].
      exists p', b', (c0 :: fin), rest', a', (Some (answers_to (c0 :: fin))). split; [done|]. split; [done|]. split; [done|]. split; [done|].
      unfold ParseRedisMessage. destruct (b ++ t1 ++ c1) as [|x s] eqn:Es.
      { apply app_eq_nil in Es as [_ Es]. apply app_eq_nil in Es as [-> _]. done. }
      unfold mbind', Consume. cbn [parser]. rewrite Hr. exact Hl.
Qed.

(** The server is called whenever data arrives; the last component is all it has sent. *)
Fixpoint serve_chunks (chunks : list bytes) (ctx : RedisConnContext) (buf sent : bytes) : M A (ParseError * RedisConnContext * bytes * bytes) :=
  match chunks with
  | [] => mret (PARSE_ERROR_NOT_ENOUGH_DATA, ctx, buf, sent)
  | c :: chunks' =>
      let* res := call ctx (buf ++ c) in
      let '(err, ctx', buf', out) := res in
      if decide (err = PARSE_ERROR_NOT_ENOUGH_DATA)
      then serve_chunks chunks' ctx' buf' (sent ++ default [] out)
      else mret (err, ctx', buf', sent ++ default [] out)
  end.

Lemma serve_chunks_spec chunks : forall p b t cmds sent a,
  Forall request_ok cmds -> server_at p b t cmds -> t = concat chunks -> arena_inv a -> exists a',
    serve_chunks chunks (mkContext None 0 p) b sent a = Some ((PARSE_ERROR_NOT_ENOUGH_DATA, new_context, [], sent ++ answers_to cmds), a').
Proof.
  induction chunks as [|c chunks IH]; intros p b t cmds sent a Hok Hat Ht Ha; cbn [concat] in Ht.
  - subst t. destruct cmds as [|c0 cs].
    + destruct Hat as (-> & -> & _). exists a. cbn. by rewrite app_nil_r.
    + destruct Hat as (t1 & Ht1 & _ & Ht). by destruct t1.
  - destruct (call_spec p b c t (concat chunks) cmds a Hok Hat Ht Ha) as (p' & b' & fin & rest & a1 & out & -> & Hat' & Ha1 & Hout & Hr).
    cbn [serve_chunks]. unfold mbind'. rewrite Hr, decide_True by done. apply Forall_app in Hok as [_ Hok].
    destruct (IH p' b' _ rest (sent ++ default [] out) a1 Hok Hat' eq_refl Ha1) as (a' & Hl). exists a'. rewrite Hl, Hout.
    unfold answers_to. by rewrite map_app, concat_app, <- app_assoc.
Qed.
End Server.

(** ** Theorems *)
#[local] Instance World_memory : ArenaOps World := World_ops (fun _ _ => true).
#[local] Instance World_memory_laws : ArenaLaws World := World_laws.
Lemma world_ok : arena_inv init.
Proof. exists []. by apply inv_empty. Qed.

(** C15: A server whose handlers answer every command at once, given any sequence of
    pipelined commands in any pieces while memory lasts, sends exactly the answers in the
    order of the commands and is ready for more. The commands (request_ok) have at least one
    and fewer than 2^31 components, a name below 2^31 bytes and other components below 2^32
    bytes, and their answers are sendable: in particular neither a status nor an error, so
    neither the name in the error for an unknown command, contains CRLF. *)
Theorem redis_server_answers_in_order {A} `{ArenaLaws A} {Handler} Find Run (New : Handler -> option Handler) resize_ok handle cmds chunks (a : A) :
  immediate Run handle -> Forall (request_ok Find resize_ok handle) cmds -> concat chunks = concat (map wire cmds) -> arena_inv a ->
  exists a', serve_chunks Find Run New resize_ok chunks new_context [] [] a =
    Some ((PARSE_ERROR_NOT_ENOUGH_DATA, new_context, [], answers_to Find handle cmds), a').
Proof.
  intros Hi Hok Hc Ha. eapply (serve_chunks_spec Find Run New resize_ok handle Hi chunks new_parser [] (concat (map wire cmds)) cmds []); [done| |done..].
  destruct cmds as [|c cs]; [done|]. exists (wire c). split; [by rewrite wire_eq|]. split; [by left|]. done.
Qed.

(** "GET" is answered with the number of arguments, other names are unknown. *)
Definition find_get (name : bytes) : option unit := if bool_decide (name = [103; 101; 116]) then Some tt else None.
Definition run_get (_ : unit) (args : list bytes) (_ : bool) (r : RedisReply) : M World (RedisCommandHandlerResult * RedisReply) :=
  mret (REDIS_CMD_HANDLED, SetInteger (Z.of_nat (length args)) r).
Definition handle_get (_ : unit) (args : list bytes) : value := VInteger (Z.of_nat (length args)).
Lemma redis_server_witness : exists a',
  serve_chunks find_get run_get (fun _ => None) (fun _ => true)
    [take 9 (wire [[71; 69; 84]; [97]]); drop 9 (wire [[71; 69; 84]; [97]]) ++ wire [[120]]] new_context [] [] init =
    Some ((PARSE_ERROR_NOT_ENOUGH_DATA, new_context, [], answers_to find_get handle_get [[[71; 69; 84]; [97]]; [[120]]]), a').
Proof.
  apply (redis_server_answers_in_order find_get run_get (fun _ => None) (fun _ => true) handle_get).
  - intros h args flush a Ha. exists (SetInteger (Z.of_nat (length args)) new_reply), a. split; [reflexivity|]. split; [reflexivity|exact Ha].
  - repeat first [apply Forall_nil_2 | apply Forall_cons; split]; (split; [split; [reflexivity|repeat constructor]|]; split; [discriminate|]; split; [reflexivity|]).
    + constructor. vm_compute. split; reflexivity.
    + constructor; vm_compute; reflexivity.
  - reflexivity.
  - exact world_ok.
Defined.

(** A response parses the replies to as many commands as were pipelined, in whatever
    pieces they arrive: all replies are there in order, and what follows stays in the
    buffer. *)
Theorem redis_response_is_pipelined {A} `{ArenaLaws A} vs chunks rest (a : A) :
  Forall sendable vs -> vs <> [] -> Z.of_nat (length vs) < 2 ^ 31 -> concat chunks = concat (map encode vs) ++ rest -> arena_inv a ->
  exists r a', feed_response chunks (Z.of_nat (length vs)) PARSE_ERROR_NOT_ENOUGH_DATA new_response [] a = Some ((PARSE_OK, r, rest), a') /\
    _nreply r = Z.of_nat (length vs) /\
    forall i v, vs !! i = Some v -> exists x, reply r (Z.of_nat i) = Some x /\ value_of x = Some (received v).
Proof.
  intros Hs Hne Hl Hc Ha. destruct vs as [|v vs]; [done|].
  destruct (feed_response_spec (v :: vs) chunks new_response [] (concat (map encode (v :: vs))) rest a) as (r & a' & Hr & Hcm & _);
    [done|done| | |done..|].
  - change ([] ++ concat (map encode (v :: vs))) with (encode v ++ concat (map encode vs)). apply awaiting_first. constructor. done.
  - apply Forall_cons in Hs as [Hv _]. cbn [map concat]. pose proof (encode_nonempty v Hv). by destruct (encode v).
  - exists r, a'. split; [exact Hr|]. split; [apply Hcm|]. intros i w Hi. by eapply complete_reply.
Qed.
Lemma redis_response_witness : exists r a',
  feed_response [[43; 79; 75; 13]; [10; 58; 49]; [13; 10; 58]] 2 PARSE_ERROR_NOT_ENOUGH_DATA new_response [] init = Some ((PARSE_OK, r, [58]), a') /\
  exists x, reply r 1 = Some x /\ value_of x = Some (VInteger 1).
Proof.
  destruct (redis_response_is_pipelined [VStatus [79; 75]; VInteger 1] [[43; 79; 75; 13]; [10; 58; 49]; [13; 10; 58]] [58] init) as (r & a' & Hr & _ & Hx).
  - repeat first [reflexivity | lia | constructor].
  - discriminate.
  - reflexivity.
  - vm_compute. reflexivity.
  - exact world_ok.
  - exists r, a'. split; [exact Hr|]. exact (Hx 1%nat (VInteger 1) eq_refl).
Defined.

(** The name of an unknown command is sent back unquoted in a one-line error, so that
    a CRLF in it ends the reply: the client reads the error and finds the rest of the
    name in front of its next reply. *)
Theorem unknown_command_splits_the_reply :
  exists out a1 r a2, ParseRedisMessage find_get run_get (fun _ => None) (fun _ => true) new_context (wire [[97; 13; 10; 58; 55]]) init =
      Some ((PARSE_ERROR_NOT_ENOUGH_DATA, new_context, [], Some out), a1) /\
    feed_response [out] 2 PARSE_ERROR_NOT_ENOUGH_DATA new_response [] a1 = Some ((PARSE_ERROR_ABSOLUTELY_WRONG, r, [58; 55; 96; 13; 10]), a2) /\
    exists x, reply r 0 = Some x /\ value_of x = Some (VError (take 22 (unknown_command [97]))).
Proof. do 4 eexists. split; [vm_compute; reflexivity|]. split; [vm_compute; reflexivity|]. eexists. split; vm_compute; reflexivity. Qed.

End Redis.
