(* ===== verification/StringSplitter.v ===== *)
(** * StringSplitter (butil/string_splitter.h, string_splitter_inl.h)

    StringSplitter and StringMultiSplitter are the same code over a test for separators.
    Pointers are positions in the string; the string ends at [str_end] or before its NUL.
    The byte behind the end is read but does not matter. *)
From stdpp Require Import base list.
From Stdlib Require Import ZArith Lia Bool.
From S2P Require Import Prelude.

Open Scope Z_scope.

Module StringSplitter.

Record StringSplitter := mkSp { _str : list Z; _head : nat; _tail : nat; _is_sep : Z -> bool; _skip_empty : bool }.
Section Splitter.
Context (is_sep : Z -> bool).
(** [for (; is_sep of *p && not_end(p); ++p)], on the rest of the string. *)
Fixpoint skip_seps (l : list Z) (p : nat) : nat :=
  match l with [] => p | c :: l' => if is_sep c then skip_seps l' (S p) else p end.
(** [for (; not is_sep of *p && not_end(p); ++p)] *)
Fixpoint find_sep (l : list Z) (p : nat) : nat :=
  match l with [] => p | c :: l' => if is_sep c then p else find_sep l' (S p) end.
End Splitter.
Definition not_end (sp : StringSplitter) (p : nat) : bool := (p <? length (_str sp))%nat.
Definition init (s : list Z) (is_sep : Z -> bool) (skip_empty : bool) : StringSplitter :=
  let head := if skip_empty then skip_seps is_sep s 0 else 0%nat in
  mkSp s head (find_sep is_sep (drop head s) head) is_sep skip_empty.
Definition next (sp : StringSplitter) : StringSplitter :=
  let s := _str sp in
  let tail := if not_end sp (_tail sp)
              then (if _skip_empty sp then skip_seps (_is_sep sp) (drop (S (_tail sp)) s) (S (_tail sp)) else S (_tail sp))
              else _tail sp in
  mkSp s tail (find_sep (_is_sep sp) (drop tail s) tail) (_is_sep sp) (_skip_empty sp).
(** [operator const void*] *)
Definition valid (sp : StringSplitter) : bool := not_end sp (_head sp).
Definition length_ (sp : StringSplitter) : nat := (_tail sp - _head sp)%nat.
Definition field_sp (sp : StringSplitter) : list Z := take (length_ sp) (drop (_head sp) (_str sp)).
Definition StringSplitter_new (s : list Z) (sep : Z) (skip_empty : bool) : StringSplitter := init s (fun c => c =? sep) skip_empty.
Definition StringMultiSplitter_new (s seps : list Z) (skip_empty : bool) : StringSplitter := init s (fun c => bool_decide (c ∈ seps)) skip_empty.

(** [for (; sp; ++sp)] *)
Fixpoint fields (fuel : nat) (sp : StringSplitter) : option (list (list Z)) :=
  if valid sp then
    match fuel with
    | O => None
    | S fuel' => cons (field_sp sp) <$> fields fuel' (next sp)
    end
  else Some [].

(** ** Key-value pairs *)
Record KeyValuePairsSplitter := mkKV { _sp : StringSplitter; _delim_pos : nat; _key_value_delim : Z }.
Definition key_and_value (kv : KeyValuePairsSplitter) : list Z := field_sp (_sp kv).
Definition UpdateDelimiterPosition (sp : StringSplitter) (delim : Z) : KeyValuePairsSplitter :=
  mkKV sp (find_sep (fun c => c =? delim) (field_sp sp) 0) delim.
Definition KeyValuePairsSplitter_new (s : list Z) (pair_delimiter key_value_delimiter : Z) : KeyValuePairsSplitter :=
  UpdateDelimiterPosition (StringSplitter_new s pair_delimiter true) key_value_delimiter.
Definition kv_next (kv : KeyValuePairsSplitter) : KeyValuePairsSplitter := UpdateDelimiterPosition (next (_sp kv)) (_key_value_delim kv).
Definition key (kv : KeyValuePairsSplitter) : list Z := take (_delim_pos kv) (key_and_value kv).
Definition value (kv : KeyValuePairsSplitter) : list Z := drop (S (_delim_pos kv)) (key_and_value kv).

(** ** The fields of a string *)
Fixpoint split (is_sep : Z -> bool) (s : list Z) : list (list Z) :=
  match s with
  | [] => [[]]
  | c :: s' =>
      if is_sep c then [] :: split is_sep s'
      else match split is_sep s' with f :: fs => (c :: f) :: fs | [] => [[c]] end
  end.
Definition nonempty (f : list Z) : bool := match f with [] => false | _ => true end.
(** All fields but a last one that is empty. *)
Fixpoint drop_last_empty (fs : list (list Z)) : list (list Z) :=
  match fs with [] => [] | [[]] => [] | f :: fs' => f :: drop_last_empty fs' end.
Definition fields_of (is_sep : Z -> bool) (skip_empty : bool) (s : list Z) : list (list Z) :=
  if skip_empty then List.filter nonempty (split is_sep s) else drop_last_empty (split is_sep s).

Section Laws.
Context (is_sep : Z -> bool).
Lemma split_field l : exists f rest, l = f ++ rest /\ Forall (fun c => is_sep c = false) f /\ (forall p, find_sep is_sep l p = (p + length f)%nat) /\
  match rest with
  | [] => split is_sep l = [f]
  | c :: rest' => is_sep c = true /\ split is_sep l = f :: split is_sep rest'
  end.
Proof.
  induction l as [|c l IH]; [exists [], []; split; [done|]; split; [constructor|]; split; [|done]; intros p; cbn; lia|]. cbn [split find_sep]. destruct (is_sep c) eqn:Hc.
  - exists [], (c :: l). split; [done|]. split; [constructor|]. split; [intros p; cbn; lia|done].
  - destruct IH as (f & rest & -> & Hf & Hfind & Hrest). exists (c :: f), rest. split; [done|]. split; [by constructor|]. split; [intros p; rewrite Hfind; cbn; lia|]. destruct rest as [|c' rest'].
    + by rewrite Hrest.
    + destruct Hrest as [Hc' ->]. done.
Qed.
Lemma split_nonempty l : split is_sep l <> [].
Proof. destruct (split_field l) as (f & rest & _ & _ & _ & H). destruct rest; [by rewrite H|]. by destruct H as [_ ->]. Qed.
Lemma split_app f l : Forall (fun c => is_sep c = false) f -> split is_sep (f ++ l) = match split is_sep l with g :: gs => (f ++ g) :: gs | [] => [f] end.
Proof.
  induction 1 as [|c f Hc Hf IH]; cbn [app]; [destruct (split is_sep l) eqn:E; [by apply split_nonempty in E|done]|]. cbn [split]. rewrite Hc, IH. by destruct (split is_sep l).
Qed.
Lemma skip_seps_spec l p : exists seps rest, l = seps ++ rest /\ Forall (fun c => is_sep c = true) seps /\ skip_seps is_sep l p = (p + length seps)%nat /\
  (match rest with c :: _ => is_sep c = false | [] => True end) /\ List.filter nonempty (split is_sep l) = List.filter nonempty (split is_sep rest).
Proof.
  revert p. induction l as [|c l IH]; intros p; [exists [], []; split; [done|]; split; [constructor|]; split; [cbn; lia|done]|]. cbn [skip_seps]. destruct (is_sep c) eqn:Hc.
  - destruct (IH (S p)) as (seps & rest & -> & Hs & Heq & Hr & Hf). exists (c :: seps), rest. split; [done|]. split; [by constructor|]. split; [rewrite Heq; cbn; lia|]. split; [done|]. cbn [app split]. rewrite Hc. exact Hf.
  - exists [], (c :: l). split; [done|]. split; [constructor|]. split; [cbn; lia|done].
Qed.
End Laws.

(** ** Iterating *)
Definition at_ (s : list Z) (is_sep : Z -> bool) (skip_empty : bool) (h : nat) : StringSplitter := mkSp s h (find_sep is_sep (drop h s) h) is_sep skip_empty.
(** The field at [h], and where the next one starts. *)
Lemma field_at s is_sep skip_empty h : (h < length s)%nat ->
  exists f rest, drop h s = f ++ rest /\ Forall (fun c => is_sep c = false) f /\ field_sp (at_ s is_sep skip_empty h) = f /\ _tail (at_ s is_sep skip_empty h) = (h + length f)%nat /\
    match rest with
    | [] => split is_sep (drop h s) = [f] /\ next (at_ s is_sep skip_empty h) = at_ s is_sep skip_empty (length s)
    | c :: rest' => is_sep c = true /\ split is_sep (drop h s) = f :: split is_sep rest' /\ drop (h + length f + 1) s = rest' /\
        next (at_ s is_sep skip_empty h) = at_ s is_sep skip_empty (if skip_empty then skip_seps is_sep rest' (h + length f + 1) else h + length f + 1)%nat
    end.
Proof.
  intros Hh. destruct (split_field is_sep (drop h s)) as (f & rest & Hl & Hf & Hfind & Hrest). exists f, rest. split; [done|]. split; [done|].
  assert (_tail (at_ s is_sep skip_empty h) = (h + length f)%nat) as Ht by (cbn; apply Hfind). pose proof (f_equal length Hl) as Hlen. rewrite length_drop, length_app in Hlen.
  split; [unfold field_sp, length_; rewrite Ht; cbn [_head at_ _str]; rewrite Hl; replace (h + length f - h)%nat with (length f) by lia; apply take_app_length|]. split; [done|]. unfold next, not_end. rewrite Ht. cbn [_str _is_sep _skip_empty at_].
  destruct rest as [|c rest'].
  - split; [done|]. cbn [length] in Hlen. rewrite (proj2 (Nat.ltb_ge _ _)) by lia. by replace (h + length f)%nat with (length s) by lia.
  - destruct Hrest as [Hc Hs]. cbn [length] in Hlen. assert (drop (h + length f + 1) s = rest') as Hdrop by (replace (h + length f + 1)%nat with (h + (length f + 1))%nat by lia; rewrite <- drop_drop, Hl, drop_app_ge by lia; by replace (length f + 1 - length f)%nat with 1%nat by lia).
    split; [done|]. split; [done|]. split; [done|]. rewrite (proj2 (Nat.ltb_lt _ _)) by lia. rewrite <- Nat.add_1_r, Hdrop. by destruct skip_empty.
Qed.
Lemma fields_at s is_sep skip_empty fuel h : (length s - h <= fuel)%nat -> (h <= length s)%nat ->
  (skip_empty = true -> match drop h s with c :: _ => is_sep c = false | [] => True end) ->
  fields fuel (at_ s is_sep skip_empty h) = Some (fields_of is_sep skip_empty (drop h s)).
Proof.
  revert h. induction fuel as [|fuel IH]; intros h Hf Hh Hsk.
  { assert (h = length s) as -> by lia. cbn [fields]. unfold valid, not_end. cbn [_head at_ _str]. rewrite Nat.ltb_irrefl, drop_ge by lia. by destruct skip_empty. }
  cbn [fields]. unfold valid, not_end. cbn [_head at_ _str]. destruct (Nat.ltb_spec h (length s)) as [Hlt|Hge].
  2:{ assert (h = length s) as -> by lia. rewrite drop_ge by lia. by destruct skip_empty. }
  destruct (field_at s is_sep skip_empty h Hlt) as (f & rest & Hl & Hfs & Hfield & _ & Hrest). pose proof (f_equal length Hl) as Hlen. rewrite length_drop, length_app in Hlen. rewrite Hfield. unfold fields_of. destruct rest as [|c rest'].
  - destruct Hrest as [-> ->]. rewrite IH by (lia || (intros; by rewrite drop_ge by lia)). rewrite drop_ge by lia. rewrite app_nil_r in Hl. cbn [length] in Hlen. destruct f; [cbn in Hlen; lia|]. by destruct skip_empty.
  - destruct Hrest as (Hc & -> & Hd & ->). cbn [length] in Hlen. destruct skip_empty.
    + destruct (skip_seps_spec is_sep rest' (h + length f + 1)) as (seps & r2 & Hr2 & _ & -> & Hr2h & Hfilter). pose proof (f_equal length Hr2) as Hlen2. rewrite length_app in Hlen2.
      assert (drop (h + length f + 1 + length seps) s = r2) as Hd2 by (by rewrite <- drop_drop, Hd, Hr2, drop_app_length). rewrite IH by (lia || by rewrite Hd2). unfold fields_of. rewrite Hd2, <- Hfilter.
      rewrite Hl in Hsk. specialize (Hsk eq_refl). destruct f as [|x f]; [cbn in Hsk; congruence|done].
    + rewrite IH by (lia || done). unfold fields_of. rewrite Hd. cbn [fmap option_fmap option_map]. f_equal. pose proof (split_nonempty is_sep rest'). destruct (split is_sep rest') as [|g gs]; [done|]. by destruct f.
Qed.
(** The start of an iteration. *)
Lemma init_at s is_sep skip_empty : exists h, init s is_sep skip_empty = at_ s is_sep skip_empty h /\ (h <= length s)%nat /\
  (skip_empty = true -> match drop h s with c :: _ => is_sep c = false | [] => True end) /\ fields_of is_sep skip_empty (drop h s) = fields_of is_sep skip_empty s.
Proof.
  unfold init. destruct skip_empty; [|exists 0%nat; split; [done|]; split; [lia|done]]. destruct (skip_seps_spec is_sep s 0) as (seps & rest & Hs & _ & -> & Hr & Hf). exists (length seps). split; [done|].
  rewrite Hs at 1. rewrite length_app. split; [lia|]. assert (drop (length seps) s = rest) as -> by (rewrite Hs; apply drop_app_length). split; [done|]. by unfold fields_of.
Qed.
(** Iterating over a StringSplitter, or a StringMultiSplitter, visits exactly the fields of
    the string between separators, in order: without the empty ones, or with them but for an
    empty one at the end. *)
Theorem splitter_visits_the_fields s is_sep skip_empty : fields (length s) (init s is_sep skip_empty) = Some (fields_of is_sep skip_empty s).
Proof. destruct (init_at s is_sep skip_empty) as (h & -> & Hh & Hsk & <-). apply fields_at; [lia|done|done]. Qed.
Example some_fields : fields 9 (StringSplitter_new [44; 97; 44; 44; 98; 99; 44] 44 true) = Some [[97]; [98; 99]] /\
  fields 9 (StringSplitter_new [44; 97; 44; 44; 98; 99; 44] 44 false) = Some [[]; [97]; []; [98; 99]] /\
  fields 9 (StringMultiSplitter_new [44; 97; 59; 44; 98] [44; 59] true) = Some [[97]; [98]].
Proof. vm_compute. done. Qed.
End StringSplitter.
