(* ===== verification/QueryRemover.v ===== *)
(** * Queries (brpc/uri.h, uri.cpp): QuerySplitter, QueryRemover, append_query

    QueryRemover walks over the pairs of a query and builds the query without some of
    them. *)
From stdpp Require Import base list.
From Stdlib Require Import ZArith Lia Bool.
From S2P Require Import Prelude StringSplitter.

Open Scope Z_scope.

Module QueryRemover.
Import StringSplitter.

Definition amp : Z := 38.
Definition equals_sign : Z := 61.
Definition is_amp (c : Z) : bool := c =? amp.
Definition QuerySplitter (s : list Z) : KeyValuePairsSplitter := KeyValuePairsSplitter_new s amp equals_sign.

Record QueryRemover := mkQR { _query : list Z; _qs : KeyValuePairsSplitter; _modified_query : list Z; _iterated_len : nat; _removed_current_key_value : bool; _ever_removed : bool }.
Definition QueryRemover_new (str : list Z) : QueryRemover := mkQR str (QuerySplitter str) [] 0 false false.
Definition qr_valid (qr : QueryRemover) : bool := valid (_sp (_qs qr)).
(** [std::string::resize] *)
Definition resize (n : nat) (s : list Z) : list Z := take n s ++ replicate (n - length s) 0.
Definition qr_next (qr : QueryRemover) : QueryRemover :=
  if negb (qr_valid qr) then qr
  else if negb (_ever_removed qr) then mkQR (_query qr) (kv_next (_qs qr)) (_modified_query qr) (_iterated_len qr) (_removed_current_key_value qr) (_ever_removed qr)
  else if negb (_removed_current_key_value qr) then
    let m := resize (_iterated_len qr) (_modified_query qr) in
    let '(m, n) := match m with [] => (m, _iterated_len qr) | _ => (m ++ [amp], S (_iterated_len qr)) end in
    let kv := key_and_value (_qs qr) in
    mkQR (_query qr) (kv_next (_qs qr)) (m ++ kv) (n + length kv) false true
  else mkQR (_query qr) (kv_next (_qs qr)) (_modified_query qr) (_iterated_len qr) false true.
(** [key().data() - _query->data()] is the position of the splitter. *)
Definition remove_current_key_and_value (qr : QueryRemover) : QueryRemover :=
  if negb (_ever_removed qr) then
    let offset := _head (_sp (_qs qr)) in
    let behind_amp := (0 <? offset)%nat && (nth (offset - 1)%nat (_query qr) 0 =? amp) in
    let len := (offset - if behind_amp then 1 else 0)%nat in
    mkQR (_query qr) (_qs qr) (_modified_query qr ++ take len (_query qr)) (_iterated_len qr + len) true true
  else mkQR (_query qr) (_qs qr) (_modified_query qr) (_iterated_len qr) true true.
(** The result and the new state; the loop skips the separators behind the current pair. *)
Definition modified_query (qr : QueryRemover) : list Z * QueryRemover :=
  if negb (_ever_removed qr) then (_query qr, qr)
  else
    let q := _query qr in
    let offset := _head (_sp (_qs qr)) in
    let offset := if _removed_current_key_value qr
                  then skip_seps is_amp (drop (offset + length (key_and_value (_qs qr))) q) (offset + length (key_and_value (_qs qr)))
                  else offset in
    let m := resize (_iterated_len qr) (_modified_query qr) in
    let m := if (offset <? length q)%nat then match m with [] => m | _ => m ++ [amp] end ++ drop offset q else m in
    (m, mkQR q (_qs qr) m (_iterated_len qr) (_removed_current_key_value qr) true).
Definition append_query (query_string key value : list Z) : list Z :=
  match last query_string with
  | Some c => if c =? 63 then query_string else query_string ++ [amp]
  | None => query_string
  end ++ key ++ [equals_sign] ++ value.

(** ** The pairs of a query *)
Definition pairs (s : list Z) : list (list Z) := fields_of is_amp true s.
Lemma split_sep a c b : is_amp c = true -> split is_amp (a ++ c :: b) = split is_amp a ++ split is_amp b.
Proof.
  intros Hc. induction a as [|x a IH]; cbn [app split]; [by rewrite Hc|]. rewrite IH. destruct (is_amp x); [done|]. pose proof (split_nonempty is_amp a). by destruct (split is_amp a).
Qed.
Lemma pairs_sep a c b : is_amp c = true -> pairs (a ++ c :: b) = pairs a ++ pairs b.
Proof. intros Hc. unfold pairs, fields_of. by rewrite split_sep, List.filter_app. Qed.
Lemma pairs_seps a seps : Forall (fun c => is_amp c = true) seps -> pairs (a ++ seps) = pairs a.
Proof.
  intros Hs. revert a. induction Hs as [|c seps Hc Hs IH]; intros a; [by rewrite app_nil_r|]. rewrite pairs_sep by done. replace seps with ([] ++ seps) by done. rewrite IH. cbn. by rewrite app_nil_r.
Qed.
Lemma pairs_one f : Forall (fun c => is_amp c = false) f -> f <> [] -> pairs f = [f].
Proof. intros Hf Hne. unfold pairs, fields_of. rewrite <- (app_nil_r f) at 1. rewrite split_app by done. cbn [split]. rewrite app_nil_r. by destruct f. Qed.
(** What ends with a separator, or is empty: a pair can follow. *)
Definition open_end (pre : list Z) : Prop := pre = [] \/ exists a c, pre = a ++ [c] /\ is_amp c = true.
Lemma pairs_open pre f : open_end pre -> Forall (fun c => is_amp c = false) f -> f <> [] -> pairs (pre ++ f) = pairs pre ++ [f].
Proof.
  intros [->|(a & c & -> & Hc)] Hf Hne; cbn [app]; [by rewrite pairs_one|]. rewrite <- app_assoc. cbn [app]. rewrite !pairs_sep by done. by rewrite (pairs_one f), app_nil_r.
Qed.
Lemma pairs_joined m t : pairs (match m with [] => m | _ => m ++ [amp] end ++ t) = pairs m ++ pairs t.
Proof. destruct m as [|x m]; [done|]. rewrite <- app_assoc. by apply pairs_sep. Qed.

(** ** Where the splitter stands *)
Definition split_at (q : list Z) (h : nat) : KeyValuePairsSplitter := UpdateDelimiterPosition (at_ q is_amp true h) equals_sign.
(** A position of the splitter: the end, or the start of a pair behind a separator. *)
Definition good (q : list Z) (h : nat) : Prop :=
  (h <= length q)%nat /\ match drop h q with [] => True | c :: _ => is_amp c = false /\ open_end (take h q) end.
Lemma open_seps pre seps : Forall (fun c => is_amp c = true) seps -> (seps = [] -> open_end pre) -> open_end (pre ++ seps).
Proof. intros Hs Hp. destruct seps as [|c seps _] using rev_ind; [rewrite app_nil_r; by apply Hp|]. right. exists (pre ++ seps), c. rewrite app_assoc. split; [done|]. apply Forall_app in Hs as [_ Hs]. by inversion Hs. Qed.
Lemma start_good q : exists h, QuerySplitter q = split_at q h /\ good q h /\ pairs (take h q) = [] /\ pairs (drop h q) = pairs q.
Proof.
  unfold QuerySplitter, KeyValuePairsSplitter_new, StringSplitter_new, init. change (fun c => c =? amp) with is_amp. destruct (skip_seps_spec is_amp q 0) as (seps & rest & Hq & Hs & -> & Hr & Hf). exists (length seps). split; [done|].
  unfold good, pairs, fields_of. rewrite Hq, length_app, take_app_length, drop_app_length. split; [split; [lia|]; destruct rest; [done|]; split; [done|]; apply (open_seps [] seps); [done|by left]|].
  split; [apply (pairs_seps [] seps Hs)|]. rewrite <- Hf. by rewrite Hq.
Qed.
(** The current pair, and the step behind it. *)
Lemma step_good q h : good q h -> (h < length q)%nat -> exists f h' seps, kv_next (split_at q h) = split_at q h' /\ good q h' /\ key_and_value (split_at q h) = f /\
  drop (h + length f) q = seps ++ drop h' q /\ Forall (fun c => is_amp c = true) seps /\ h' = (h + length f + length seps)%nat /\
  pairs (drop h q) = f :: pairs (drop h' q) /\ pairs (take h' q) = pairs (take h q) ++ [f] /\ Forall (fun c => is_amp c = false) f /\ f <> [].
Proof.
  intros [Hh Hg] Hlt. destruct (field_at q is_amp true h Hlt) as (f & rest & Hl & Hf & Hfield & _ & Hrest). rewrite Hl in Hg.
  assert (f <> []) as Hne by (destruct f; [|done]; destruct rest as [|c rest']; [apply (f_equal length) in Hl; rewrite length_drop in Hl; cbn in Hl; lia|destruct Hrest as [? _], Hg as [? _]; congruence]).
  assert (open_end (take h q)) as Hop by (destruct f; [done|]; by destruct Hg).
  pose proof (take_drop h q) as Hq. rewrite Hl in Hq. pose proof (f_equal length Hl) as Hlen. rewrite length_drop, length_app in Hlen.
  assert (forall h', next (at_ q is_amp true h) = at_ q is_amp true h' -> kv_next (split_at q h) = split_at q h') as Hnext.
  { intros h' H. unfold kv_next, split_at, UpdateDelimiterPosition. cbn [_sp _key_value_delim]. by rewrite H. }
  exists f. destruct rest as [|c rest'].
  - destruct Hrest as [_ Hn]. rewrite app_nil_r in *. cbn [length] in Hlen. exists (length q), []. rewrite (drop_ge q (length q)), (drop_ge q (h + length f)), (take_ge q (length q)) by lia. unfold good. rewrite drop_ge by lia.
    split; [by apply Hnext|]. split; [split; [lia|done]|]. split; [exact Hfield|]. split; [done|]. split; [constructor|]. split; [cbn; lia|]. rewrite Hl, pairs_one by done. split; [done|]. split; [|done]. rewrite <- Hq at 1. by apply pairs_open.
  - destruct Hrest as (Hc & _ & Hd & Hn). cbn [length] in Hlen. destruct (skip_seps_spec is_amp rest' (h + length f + 1)) as (seps & r2 & Hr2 & Hs & Hsk & Hr2h & _). rewrite Hsk in Hn. pose proof (f_equal length Hr2) as Hlen2. rewrite length_app in Hlen2.
    exists (h + length f + 1 + length seps)%nat, (c :: seps). assert (q = (take h q ++ f ++ c :: seps) ++ r2) as Hq' by (rewrite <- !app_assoc; cbn [app]; by rewrite <- Hr2, Hq).
    assert (length (take h q ++ f ++ c :: seps) = h + length f + 1 + length seps)%nat as Hl' by (rewrite !length_app, length_take; cbn [length]; lia).
    assert (drop (h + length f + 1 + length seps) q = r2) as Hd' by (rewrite Hq' at 1; by rewrite <- Hl', drop_app_length).
    assert (take (h + length f + 1 + length seps) q = take h q ++ f ++ c :: seps) as Ht' by (rewrite Hq' at 1; by rewrite <- Hl', take_app_length).
    assert (Forall (fun c => is_amp c = true) (c :: seps)) as Hs' by by constructor.
    split; [by apply Hnext|]. rewrite Hd', Ht'. split; [unfold good; rewrite Hd', Ht'; split; [lia|]; destruct r2; [done|]; split; [done|]; rewrite app_assoc; by apply open_seps|].
    split; [exact Hfield|]. rewrite <- drop_drop, Hl, drop_app_length, Hr2. split; [done|]. split; [done|]. split; [cbn [length]; lia|].
    assert (pairs (seps ++ r2) = pairs r2) as Hp by (unfold pairs, fields_of; clear - Hs; induction Hs as [|x seps Hx Hs IH]; [done|]; cbn [app split]; by rewrite Hx).
    rewrite pairs_sep, pairs_one, Hp by done. split; [done|]. split; [|done]. rewrite app_assoc, pairs_seps by done. by apply pairs_open.
Qed.

(** ** A walk over the pairs *)
Inductive QOp := QRemove | QNext | QModified.
Definition qr_step (op : QOp) (qr : QueryRemover) : QueryRemover :=
  match op with
  | QRemove => remove_current_key_and_value qr
  | QNext => qr_next qr
  | QModified => (modified_query qr).2
  end.
(** What is kept of the pairs passed so far, the pairs from the current one on, and whether
    the current one was removed. *)
Record QSpec := mkQS { kept : list (list Z); rest : list (list Z); cur_removed : bool }.
Definition spec_step (op : QOp) (sp : QSpec) : QSpec :=
  match op, rest sp with
  | QRemove, _ => mkQS (kept sp) (rest sp) true
  | QNext, f :: fs => mkQS (if cur_removed sp then kept sp else kept sp ++ [f]) fs false
  | _, _ => sp
  end.
Definition spec_result (sp : QSpec) : list (list Z) := kept sp ++ if cur_removed sp then tail (rest sp) else rest sp.
Record R (q : list Z) (qr : QueryRemover) (sp : QSpec) : Prop := mkR {
  r_query : _query qr = q;
  r_pos : exists h, _qs qr = split_at q h /\ good q h /\ rest sp = pairs (drop h q) /\ (_ever_removed qr = false -> kept sp = pairs (take h q));
  r_removed : _removed_current_key_value qr = cur_removed sp;
  r_never : _ever_removed qr = false -> _modified_query qr = [] /\ _iterated_len qr = 0%nat /\ cur_removed sp = false;
  r_ever : _ever_removed qr = true -> (_iterated_len qr <= length (_modified_query qr))%nat /\ pairs (take (_iterated_len qr) (_modified_query qr)) = kept sp }.
Lemma good_rest q h : good q h -> pairs (drop h q) = [] <-> h = length q.
Proof.
  intros Hg. split; [|intros ->; by rewrite drop_ge]. intros Hp. destruct (decide (h < length q)%nat) as [Hlt|?]; [|destruct Hg; lia].
  destruct (step_good q h Hg Hlt) as (f & h' & seps & _ & _ & _ & _ & _ & _ & Hp' & _). by rewrite Hp' in Hp.
Qed.
Lemma valid_at q h : valid (_sp (split_at q h)) = (h <? length q)%nat.
Proof. done. Qed.
Lemma new_R q : R q (QueryRemover_new q) (mkQS [] (pairs q) false).
Proof.
  destruct (start_good q) as (h & Hs & Hg & Ht & Hd). constructor; cbn [QueryRemover_new _query _qs _removed_current_key_value _modified_query _iterated_len _ever_removed kept rest cur_removed]; [done| |done|done|done]. exists h. by rewrite Hs, Hd, Ht.
Qed.
Lemma resize_take n m : (n <= length m)%nat -> resize n m = take n m.
Proof. intros H. unfold resize. replace (n - length m)%nat with 0%nat by lia. apply app_nil_r. Qed.
Ltac qr_simpl := cbn [_query _qs _modified_query _iterated_len _removed_current_key_value _ever_removed kept rest cur_removed spec_step fst snd negb].
Lemma trim_pairs q h : (h <= length q)%nat ->
  pairs (take (h - if (0 <? h)%nat && (nth (h - 1)%nat q 0 =? amp)%Z then 1 else 0)%nat q) = pairs (take h q).
Proof.
  intros Hh. destruct h as [|h]; [done|]. cbn [Nat.ltb Nat.leb andb]. replace (S h - 1)%nat with h by lia. destruct (Z.eqb_spec (nth h q 0) amp) as [Hc|_]; [|by replace (S h - 0)%nat with (S h) by lia].
  destruct (lookup_lt_is_Some_2 q h) as [c Hc']; [lia|]. rewrite nth_lookup, Hc' in Hc. cbn in Hc. subst c. rewrite (take_S_r _ _ _ Hc'). replace (S h - 1)%nat with h by lia. by rewrite pairs_seps by (by constructor).
Qed.
Lemma remove_R q qr sp : R q qr sp -> R q (remove_current_key_and_value qr) (spec_step QRemove sp).
Proof.
  intros [Hq (h & Hqs & Hg & Hrest & Hkept) Hrem Hnever Hever]. unfold remove_current_key_and_value. destruct (_ever_removed qr) eqn:He; cbn [negb].
  - constructor; qr_simpl; [done| |done|done|done]. exists h. done.
  - destruct (Hnever eq_refl) as (-> & -> & _). rewrite Hqs, Hq. cbn [_head split_at UpdateDelimiterPosition at_ _sp].
    constructor; qr_simpl; [done| |done|done|]; [exists h; done|]. intros _. cbn [app Nat.add]. rewrite length_take. split; [destruct Hg; lia|]. rewrite take_take, Nat.min_id, trim_pairs by apply Hg. by rewrite Hkept.
Qed.
Lemma next_R q qr sp : R q qr sp -> R q (qr_next qr) (spec_step QNext sp).
Proof.
  intros HR. destruct (HR) as [Hq (h & Hqs & Hg & Hrest & Hkept) Hrem Hnever Hever]. unfold qr_next, qr_valid. rewrite Hqs, valid_at. destruct (Nat.ltb_spec h (length q)) as [Hlt|Hge]; cbn [negb].
  2:{ unfold spec_step. rewrite Hrest, (proj2 (good_rest q h Hg)) by (destruct Hg; lia). done. }
  destruct (step_good q h Hg Hlt) as (f & h' & seps & Hn & Hg' & Hkv & _ & _ & _ & Hp & Ht & Hf & Hne). unfold spec_step. rewrite Hrest, Hp, Hn, Hkv, <- Hrem. destruct (_ever_removed qr) eqn:He; cbn [negb].
  - destruct (Hever eq_refl) as [Hil Hm]. destruct (_removed_current_key_value qr) eqn:Hc; cbn [negb].
    + constructor; qr_simpl; [done| |done|done|done]. exists h'. done.
    + rewrite resize_take by done. assert (length (take (_iterated_len qr) (_modified_query qr)) = _iterated_len qr) as Hlen by (rewrite length_take; lia).
      pose proof (pairs_joined (take (_iterated_len qr) (_modified_query qr)) f) as Hj. rewrite Hm, (pairs_one f) in Hj by done.
      destruct (take (_iterated_len qr) (_modified_query qr)) as [|x m]; constructor; qr_simpl; try done; try (by exists h'); intros _; rewrite <- Hlen; (split; [rewrite !length_app; cbn [length]; lia|]).
      all: rewrite take_ge by (rewrite !length_app; cbn [length]; lia); exact Hj.
  - destruct (Hnever eq_refl) as (Hm & Hi & Hcr). rewrite Hrem, Hcr. constructor; qr_simpl; [done| |done|done|done]. exists h'. split; [done|]. split; [done|]. split; [done|]. intros _. by rewrite Hkept, Ht.
Qed.
Lemma pairs_split q h : good q h -> pairs q = pairs (take h q) ++ pairs (drop h q).
Proof.
  intros [Hh Hg]. pose proof (take_drop h q) as Hq. destruct (drop h q) as [|c d] eqn:Hd; [rewrite app_nil_r in Hq; by rewrite Hq, app_nil_r|]. destruct Hg as [_ [Ho|(a & x & Ho & Hx)]]; rewrite Ho in *; rewrite <- Hq at 1; [done|].
  rewrite <- app_assoc. cbn [app]. rewrite pairs_sep by done. f_equal. symmetry. apply pairs_seps. by constructor.
Qed.
Lemma skip_seps_app seps l p : Forall (fun c => is_amp c = true) seps -> match l with [] => True | c :: _ => is_amp c = false end -> skip_seps is_amp (seps ++ l) p = (p + length seps)%nat.
Proof.
  intros Hs Hl. revert p. induction Hs as [|c seps Hc Hs IH]; intros p; cbn [app skip_seps length]; [destruct l; cbn; [lia|]; rewrite Hl; lia|]. rewrite Hc, IH. lia.
Qed.
(** Where the rest of the query starts, as [modified_query] finds it. *)
Lemma rest_offset q h (removed : bool) : good q h ->
  pairs (drop (if removed then skip_seps is_amp (drop (h + length (key_and_value (split_at q h))) q) (h + length (key_and_value (split_at q h))) else h) q) =
  if removed then tail (pairs (drop h q)) else pairs (drop h q).
Proof.
  intros Hg. destruct removed; [|done]. destruct (decide (h < length q)%nat) as [Hlt|Hge].
  - destruct (step_good q h Hg Hlt) as (f & h' & seps & _ & [_ Hg'] & -> & Hd & Hs & Hh' & -> & _). cbn [tail]. rewrite Hd, skip_seps_app, Hh' by (done || by destruct (drop h' q); [|destruct Hg']). done.
  - assert (h = length q) as -> by (destruct Hg; lia). rewrite (drop_ge q (length q + _)), (drop_ge q (length q)) by lia. cbn [skip_seps]. by rewrite drop_ge by lia.
Qed.
Lemma modified_R q qr sp : R q qr sp -> R q (modified_query qr).2 (spec_step QModified sp) /\ pairs (modified_query qr).1 = spec_result sp.
Proof.
  intros HR. destruct (HR) as [Hq (h & Hqs & Hg & Hrest & Hkept) Hrem Hnever Hever]. unfold modified_query, spec_result. destruct (_ever_removed qr) eqn:He; qr_simpl.
  - destruct (Hever eq_refl) as [Hil Hm]. rewrite Hqs, Hq, resize_take, Hrem, Hrest by done. change (_head (_sp (split_at q h))) with h. rewrite <- (rest_offset q h (cur_removed sp) Hg). set (off := if cur_removed sp then _ else h).
    set (m0 := take (_iterated_len qr) (_modified_query qr)) in *. assert (length m0 = _iterated_len qr) as Hlen by (unfold m0; rewrite length_take; lia).
    pose proof (pairs_joined m0 (drop off q)) as Hj. rewrite Hm in Hj. set (m := if (off <? length q)%nat then _ else m0). assert (exists t, m = m0 ++ t) as [t Ht] by (unfold m; destruct (off <? length q)%nat; [|exists []; by rewrite app_nil_r]; destruct m0; [by exists (drop off q)|]; rewrite <- app_assoc; eauto).
    split.
    + constructor; qr_simpl; [done|exists h; by destruct (rest sp)|by destruct (rest sp)|done|]. intros _. rewrite Ht, length_app, <- Hlen, take_app_length. split; [lia|]. by destruct (rest sp).
    + unfold m. destruct (Nat.ltb_spec off (length q)) as [_|Hge]; [exact Hj|]. rewrite drop_ge by lia. by rewrite Hm, app_nil_r.
  - destruct (Hnever eq_refl) as (Hm & Hi & ->). split; [unfold spec_step; by destruct (rest sp)|]. rewrite Hq, Hrest, Hkept by done. by apply pairs_split.
Qed.
Lemma steps_R q ops qr sp : R q qr sp -> R q (foldl (fun s op => qr_step op s) qr ops) (foldl (fun s op => spec_step op s) sp ops).
Proof.
  revert qr sp. induction ops as [|op ops IH]; intros qr sp HR; [done|]. cbn [foldl]. apply IH. destruct op; [by apply remove_R|by apply next_R|by apply modified_R].
Qed.
(** C27: Whatever sequence of removals, steps forward and intermediate results a QueryRemover
    performs on whatever query, its modified query consists of exactly the pairs that were not
    removed, unchanged and in order; the ones that were not visited yet are included. *)
Theorem query_remover_refines q ops :
  pairs (modified_query (foldl (fun s op => qr_step op s) (QueryRemover_new q) ops)).1 =
  spec_result (foldl (fun s op => spec_step op s) (mkQS [] (pairs q) false) ops).
Proof. eapply modified_R, steps_R, new_R. Qed.

(** ** Removing by a test of the pair: [for (QueryRemover qr(&q); qr; ++qr) if (p) qr.remove_current_key_and_value();] *)
Fixpoint remove_matching (fuel : nat) (p : list Z -> bool) (qr : QueryRemover) : option QueryRemover :=
  if qr_valid qr then
    match fuel with
    | O => None
    | S fuel' => remove_matching fuel' p (qr_next (if p (key_and_value (_qs qr)) then remove_current_key_and_value qr else qr))
    end
  else Some qr.
Lemma current_pair q qr sp : R q qr sp -> qr_valid qr = nonempty (key_and_value (_qs qr)) /\ head (rest sp) = if qr_valid qr then Some (key_and_value (_qs qr)) else None.
Proof.
  intros [Hq (h & Hqs & Hg & Hrest & _) _ _ _]. unfold qr_valid. rewrite Hqs, valid_at, Hrest. destruct (Nat.ltb_spec h (length q)) as [Hlt|Hge].
  - destruct (step_good q h Hg Hlt) as (f & h' & seps & _ & _ & -> & _ & _ & _ & -> & _ & _ & Hne). split; [by destruct f|done].
  - assert (h = length q) as -> by (destruct Hg; lia). unfold key_and_value, field_sp. cbn [_sp split_at UpdateDelimiterPosition at_ _str _head]. rewrite drop_ge, take_nil by lia. done.
Qed.
Lemma remove_matching_R q p fuel qr sp : R q qr sp -> cur_removed sp = false -> (length (rest sp) <= fuel)%nat ->
  exists qr', remove_matching fuel p qr = Some qr' /\ R q qr' (mkQS (kept sp ++ List.filter (fun f => negb (p f)) (rest sp)) [] false).
Proof.
  revert qr sp. induction fuel as [|fuel IH]; intros qr [k r c] HR Hc Hf; cbn in Hc, Hf; subst c; destruct (current_pair _ _ _ HR) as [_ Hcur]; cbn [rest] in Hcur.
  - assert (r = []) as -> by (destruct r; [done|cbn in Hf; lia]). cbn [remove_matching]. destruct (qr_valid qr); [done|]. exists qr. cbn. by rewrite app_nil_r.
  - cbn [remove_matching]. destruct (qr_valid qr); destruct r as [|f r]; try done; [|exists qr; cbn; by rewrite app_nil_r]. injection Hcur as <-. cbn [kept rest List.filter].
    assert (forall b : bool, R q (qr_next (if b then remove_current_key_and_value qr else qr)) (mkQS (if b then k else k ++ [f]) r false)) as Hn.
    { intros []; [apply (next_R _ _ _ (remove_R _ _ _ HR))|apply (next_R _ _ _ HR)]. }
    destruct (IH _ _ (Hn (p f))) as (qr' & -> & HR'); [done|cbn in *; lia|]. exists qr'. split; [done|]. cbn [kept rest] in HR'. destruct (p f); cbn [negb]; [done|]. by rewrite <- app_assoc in HR'.
Qed.
(** Walking over a query and removing the pairs that pass a test ends, and leaves a query
    whose pairs are exactly those that fail the test, in order. *)
Theorem removing_filters_the_query q p :
  exists qr, remove_matching (length (pairs q)) p (QueryRemover_new q) = Some qr /\ pairs (modified_query qr).1 = List.filter (fun f => negb (p f)) (pairs q).
Proof.
  destruct (remove_matching_R q p (length (pairs q)) _ _ (new_R q)) as (qr & -> & HR); [done|done|]. exists qr. split; [done|]. rewrite (proj2 (modified_R _ _ _ HR)). cbn. by rewrite app_nil_r.
Qed.
(** Appending a pair to a query. *)
Theorem append_query_appends q k v : Forall (fun c => is_amp c = false) (k ++ v) -> last q <> Some 63 -> pairs (append_query q k v) = pairs q ++ [k ++ [equals_sign] ++ v].
Proof.
  intros Hf Hl. unfold append_query. assert (pairs (k ++ [equals_sign] ++ v) = [k ++ [equals_sign] ++ v]) as Hp.
  { apply pairs_one; [|by destruct k]. apply Forall_app in Hf as [? ?]. apply Forall_app; split; [done|]. by constructor. }
  destruct (last q) as [c|] eqn:E; [|apply last_None in E as ->; exact Hp]. destruct (Z.eqb_spec c 63) as [->|_]; [done|]. rewrite <- app_assoc. cbn [app]. rewrite pairs_sep by done. by f_equal.
Qed.
Example remove_b : option_map (fun qr => (modified_query qr).1) (remove_matching 5 (fun f => bool_decide (f = [98; 61; 49])) (QueryRemover_new [38; 97; 38; 38; 98; 61; 49; 38; 38; 99; 38])) = Some [38; 97; 38; 38; 99].
Proof. vm_compute. done. Qed.
End QueryRemover.
