(* ===== verification/Uri.v ===== *)
(** * URI (brpc/uri.h, uri.cpp)

    Parsing and printing of URLs.  A character is a signed char, a std::string the list of
    its characters; a pointer into a NUL-terminated string is the suffix it points to, and
    the NUL is read behind the end of the list.  [None] is undefined behaviour of the map
    of queries. *)
From Stdlib Require Import String.
From stdpp Require Import base list.
From Stdlib Require Import ZArith Lia Bool.
From S2P Require Import Prelude BitArray FlatMap StringSplitter QueryRemover.

Open Scope list_scope.
Open Scope Z_scope.

Module Uri.
Import FlatMap QueryRemover.

Definition EINVAL : Z := 22.
Definition QUERY_MAP_INITIAL_BUCKET : Z := 16.

(** ** Pointers *)
Definition char_at (p : list Z) : Z := match p with [] => 0 | c :: _ => c end.
(** [assign(start, p - start)] *)
Definition between (start p : list Z) : list Z := take (length start - length p) start.
(** The part of a string before its first NUL. *)
Fixpoint c_str (s : list Z) : list Z := match s with [] => [] | c :: s' => if c =? 0 then [] else c :: c_str s' end.
Fixpoint skip_blanks (p : list Z) : list Z := match p with c :: p' => if c =? 32 then skip_blanks p' else p | [] => [] end.
Definition is_all_spaces (p : list Z) : bool := char_at (skip_blanks p) =? 0.

(** ** Characters *)
Definition isalnum (c : Z) : bool := ((48 <=? c) && (c <=? 57)) || ((65 <=? c) && (c <=? 90)) || ((97 <=? c) && (c <=? 122)).
Definition other_valid_char : list Z :=
  [58; 47; 63; 35; 91; 93; 64; 33; 36; 38; 39; 40; 41; 42; 43; 44; 59; 61; 45; 46; 95; 126; 37; 32].
Definition is_valid_char (c : Z) : bool := isalnum c || bool_decide (c ∈ other_valid_char).
Definition URI_PARSE_CONTINUE : Z := 0.
Definition URI_PARSE_CHECK : Z := 1.
Definition URI_PARSE_BREAK : Z := 2.
Definition g_url_parsing_fast_action_map_raw : list Z :=
  [
   0; 0; 0; 0; 0; 0; 0; 0; 0; 0;
   0; 0; 0; 0; 0; 0; 0; 0; 0; 0;
   0; 0; 0; 0; 0; 0; 0; 0; 0; 0;
   0; 0; 0; 0; 0; 0; 0; 0; 0; 0;
   0; 0; 0; 0; 0; 0; 0; 0; 0; 0;
   0; 0; 0; 0; 0; 0; 0; 0; 0; 0;
   0; 0; 0; 0; 0; 0; 0; 0; 0; 0;
   0; 0; 0; 0; 0; 0; 0; 0; 0; 0;
   0; 0; 0; 0; 0; 0; 0; 0; 0; 0;
   0; 0; 0; 0; 0; 0; 0; 0; 0; 0;
   0; 0; 0; 0; 0; 0; 0; 0; 0; 0;
   0; 0; 0; 0; 0; 0; 0; 0; 0; 0;
   0; 0; 0; 0; 0; 0; 0; 0; URI_PARSE_BREAK; 0;
   0; 0; 0; 0; 0; 0; 0; 0; 0; 0;
   0; 0; 0; 0; 0; 0; 0; 0; 0; 0;
   0; 0; 0; 0; 0; 0; 0; 0; 0; 0;
   URI_PARSE_CHECK; 0; 0; URI_PARSE_BREAK; 0; 0; 0; 0; 0; 0;
   0; 0; 0; 0; 0; URI_PARSE_BREAK; 0; 0; 0; 0;
   0; 0; 0; 0; 0; 0; URI_PARSE_CHECK; 0; 0; 0;
   0; URI_PARSE_BREAK; URI_PARSE_CHECK; 0; 0; 0; 0; 0; 0; 0;
   0; 0; 0; 0; 0; 0; 0; 0; 0; 0;
   0; 0; 0; 0; 0; 0; 0; 0; 0; 0;
   0; 0; 0; 0; 0; 0; 0; 0; 0; 0;
   0; 0; 0; 0; 0; 0; 0; 0; 0; 0;
   0; 0; 0; 0; 0; 0; 0; 0; 0; 0;
   0; 0; 0; 0; 0; 0].
(** The entry of a signed char. *)
Definition g_url_parsing_fast_action_map (c : Z) : Z := nth (Z.to_nat (c + 128)) g_url_parsing_fast_action_map_raw 0.

(** ** Host and port *)
(** The loop over [q], from the end of the host down to its second character. *)
Fixpoint find_port (r : list Z) (port_raw multiply : Z) : option (Z * list Z) :=
  match r with
  | [] | [_] => None
  | c :: r' =>
      if (48 <=? c) && (c <=? 57) then find_port r' (u64 (port_raw + (c - 48) * multiply)) (u64 (multiply * 10))
      else if c =? 58 then Some (port_raw, r')
      else None
  end.
(** The host before [host_end], and the port. *)
Definition SplitHostAndPort (h : list Z) : list Z * Z :=
  match find_port (rev h) 0 1 with
  | Some (port_raw, r) => (rev r, i32 port_raw)
  | None => (h, -1)
  end.

(** ** The state *)
Definition query_hash (s : list Z) : Z := foldl (fun result c => u64 (result * 101 + c)) 0 s.
(** QueryMap, with the allocator of its buckets. *)
Definition query_params (alloc : Z -> bool) : Params (list Z) (list Z) :=
  Build_Params (list Z) (list Z) query_hash (fun s1 s2 => bool_decide (s1 = s2)) [] false alloc (fun _ => true) (fun _ => 0).
Abbreviation QueryMap := (@FlatMap (list Z) (list Z)).
Record Status := mkStatus { error_code : Z; error_message : string }.
#[export] Instance Status_eq_dec : EqDecision Status.
Proof. unfold EqDecision, Decision. decide equality; [apply string_dec|apply Z.eq_dec]. Defined.
Definition OK : Status := mkStatus 0 "".
Record URI := mkURI { _st : Status; _port : Z; _query_was_modified : bool; _initialized_query_map : bool;
  _host : list Z; _path : list Z; _user_info : list Z; _fragment : list Z; _scheme : list Z; _query : list Z; _query_map : QueryMap }.
Definition URI_new : URI := mkURI OK (-1) false false [] [] [] [] [] [] FlatMap_new.
Definition set_st (u : URI) st := mkURI st (_port u) (_query_was_modified u) (_initialized_query_map u) (_host u) (_path u) (_user_info u) (_fragment u) (_scheme u) (_query u) (_query_map u).
Definition set_port (u : URI) port := mkURI (_st u) port (_query_was_modified u) (_initialized_query_map u) (_host u) (_path u) (_user_info u) (_fragment u) (_scheme u) (_query u) (_query_map u).
Definition set_host (u : URI) host := mkURI (_st u) (_port u) (_query_was_modified u) (_initialized_query_map u) host (_path u) (_user_info u) (_fragment u) (_scheme u) (_query u) (_query_map u).
Definition set_path (u : URI) path := mkURI (_st u) (_port u) (_query_was_modified u) (_initialized_query_map u) (_host u) path (_user_info u) (_fragment u) (_scheme u) (_query u) (_query_map u).
Definition set_user_info (u : URI) ui := mkURI (_st u) (_port u) (_query_was_modified u) (_initialized_query_map u) (_host u) (_path u) ui (_fragment u) (_scheme u) (_query u) (_query_map u).
Definition set_fragment (u : URI) f := mkURI (_st u) (_port u) (_query_was_modified u) (_initialized_query_map u) (_host u) (_path u) (_user_info u) f (_scheme u) (_query u) (_query_map u).
Definition set_scheme (u : URI) s := mkURI (_st u) (_port u) (_query_was_modified u) (_initialized_query_map u) (_host u) (_path u) (_user_info u) (_fragment u) s (_query u) (_query_map u).
Definition set_query (u : URI) q := mkURI (_st u) (_port u) (_query_was_modified u) (_initialized_query_map u) (_host u) (_path u) (_user_info u) (_fragment u) (_scheme u) q (_query_map u).
Definition set_queries (u : URI) (modified initialized : bool) (m : QueryMap) := mkURI (_st u) (_port u) modified initialized (_host u) (_path u) (_user_info u) (_fragment u) (_scheme u) (_query u) m.
Definition Clear (u : URI) : option URI := m ← clear (_query_map u); Some (mkURI OK (-1) false false [] [] [] [] [] [] m).
Definition Swap (u rhs : URI) : URI * URI := (rhs, u).

(** ** Parsing *)
(** The loop that finds the end of the host, with [_scheme] and [_user_info] as they are
    assigned: an error, the two strings, [start] and [p]. *)
Fixpoint find_host_end (p start scheme user_info : list Z) (need_scheme need_user_info : bool) : option string * list Z * list Z * list Z * list Z :=
  match p with
  | [] => (None, scheme, user_info, start, p)
  | c :: p' =>
      let action := g_url_parsing_fast_action_map c in
      if action =? URI_PARSE_CONTINUE then find_host_end p' start scheme user_info need_scheme need_user_info
      else if action =? URI_PARSE_BREAK then (None, scheme, user_info, start, p)
      else if negb (is_valid_char c) then (Some "invalid character in url"%string, scheme, user_info, start, p)
      else if c =? 58 then
        match p' with
        | c1 :: c2 :: p'' =>
            if (c1 =? 47) && (c2 =? 47) && need_scheme then find_host_end p'' p'' (between start p) user_info false need_user_info
            else find_host_end p' start scheme user_info need_scheme need_user_info
        | _ => find_host_end p' start scheme user_info need_scheme need_user_info
        end
      else if c =? 64 then
        if need_user_info then find_host_end p' p' scheme (between start p) need_scheme false
        else find_host_end p' start scheme user_info need_scheme need_user_info
      else if c =? 32 then
        if negb (is_all_spaces p') then (Some "Invalid space in url"%string, scheme, user_info, start, p)
        else (None, scheme, user_info, start, p)
      else find_host_end p' start scheme user_info need_scheme need_user_info
  end.
(** The loops over path, query and fragment: where they stop, or [None] at a space in the middle. *)
Fixpoint find_part_end (stops : Z -> bool) (p : list Z) : option (list Z) :=
  match p with
  | [] => Some p
  | c :: p' =>
      if (c =? 0) || stops c then Some p
      else if c =? 32 then if negb (is_all_spaces p') then None else Some p
      else find_part_end stops p'
  end.
Definition ends_path (c : Z) : bool := (c =? 63) || (c =? 35).
Definition ends_query (c : Z) : bool := c =? 35.
Definition ends_fragment (c : Z) : bool := false.
Definition parse_error (u : URI) (message : string) : Z * URI := (-1, set_st u (mkStatus EINVAL message)).
Definition parse_fragment (u : URI) (p : list Z) : Z * URI :=
  if char_at p =? 35 then
    match find_part_end ends_fragment (tail p) with
    | None => parse_error u "Invalid space in fragment"
    | Some p' => (0, set_fragment u (between (tail p) p'))
    end
  else (0, u).
Definition parse_query (u : URI) (p : list Z) : Z * URI :=
  if char_at p =? 63 then
    match find_part_end ends_query (tail p) with
    | None => parse_error u "Invalid space in query"
    | Some p' => parse_fragment (set_query u (between (tail p) p')) p'
    end
  else parse_fragment u p.
Definition parse_path (u : URI) (p : list Z) : Z * URI :=
  if char_at p =? 47 then
    match find_part_end ends_path (tail p) with
    | None => parse_error u "Invalid space in path"
    | Some p' => parse_query (set_path u (between p p')) p'
    end
  else parse_query u p.
Definition SetHttpURL (u : URI) (url : list Z) : option (Z * URI) :=
  u0 ← Clear u;
  let p := skip_blanks url in
  let '(err, scheme, user_info, start, p) := find_host_end p p [] [] true true in
  let u1 := set_user_info (set_scheme u0 scheme) user_info in
  match err with
  | Some message => Some (parse_error u1 message)
  | None =>
      let '(host, port) := SplitHostAndPort (between start p) in
      Some (parse_path (set_host (set_port u1 port) host) p)
  end.

(** ParseURL has its own copy of the loop. *)
Fixpoint ParseURL_loop (p start : list Z) (scheme : option (list Z)) (need_scheme need_user_info : bool) : bool * option (list Z) * list Z * list Z :=
  match p with
  | [] => (true, scheme, start, p)
  | c :: p' =>
      let action := g_url_parsing_fast_action_map c in
      if action =? URI_PARSE_CONTINUE then ParseURL_loop p' start scheme need_scheme need_user_info
      else if action =? URI_PARSE_BREAK then (true, scheme, start, p)
      else if c =? 58 then
        match p' with
        | c1 :: c2 :: p'' =>
            if (c1 =? 47) && (c2 =? 47) && need_scheme then ParseURL_loop p'' p'' (Some (between start p)) false need_user_info
            else ParseURL_loop p' start scheme need_scheme need_user_info
        | _ => ParseURL_loop p' start scheme need_scheme need_user_info
        end
      else if c =? 64 then
        if need_user_info then ParseURL_loop p' p' scheme need_scheme false
        else ParseURL_loop p' start scheme need_scheme need_user_info
      else if c =? 32 then
        if negb (is_all_spaces p') then (false, scheme, start, p) else (true, scheme, start, p)
      else ParseURL_loop p' start scheme need_scheme need_user_info
  end.
(** The result, and what is assigned to the outputs that are not NULL. *)
Record ParsedURL := mkParsed { p_ret : Z; scheme_out : option (list Z); host_out : option (list Z); port_out : option Z }.
Definition ParseURL (url : list Z) : ParsedURL :=
  let p := skip_blanks url in
  let '(ok, scheme, start, p) := ParseURL_loop p p None true true in
  if ok then
    let '(host, port) := SplitHostAndPort (between start p) in mkParsed 0 scheme (Some host) (Some port)
  else mkParsed (-1) scheme None None.

(** ** Printing *)
(** [os << n] for an int that is not negative. *)
Fixpoint print_digits (fuel : nat) (n : Z) (acc : list Z) : list Z :=
  match fuel with
  | O => acc
  | S fuel' => let acc := 48 + n mod 10 :: acc in if n / 10 =? 0 then acc else print_digits fuel' (n / 10) acc
  end.
Definition print_int (n : Z) : list Z := print_digits 10 n [].

(** ** Queries *)
Section Queries.
Context (alloc : Z -> bool).
#[local] Hint Extern 0 (Params (list Z) (list Z)) => exact (query_params alloc) : typeclass_instances.
Definition init_query_map (m : QueryMap) : option QueryMap := snd <$> init m QUERY_MAP_INITIAL_BUCKET 80.
Fixpoint ParseQueries_loop (fuel : nat) (sp : StringSplitter.KeyValuePairsSplitter) (m : QueryMap) : option QueryMap :=
  if StringSplitter.valid (StringSplitter._sp sp) then
    match fuel with
    | O => None
    | S fuel' =>
        m' ← (match StringSplitter.key sp with
              | [] => Some m
              | key => m0 ← (if initialized m then Some m else init_query_map m); insert m0 key (StringSplitter.value sp)
              end);
        ParseQueries_loop fuel' (StringSplitter.kv_next sp) m'
    end
  else Some m.
Definition ParseQueries (m : QueryMap) (query : list Z) : option QueryMap :=
  m ← clear m;
  match query with
  | [] => Some m
  | _ => ParseQueries_loop (length (c_str query)) (QuerySplitter (c_str query)) m
  end.
Definition InitializeQueryMap (u : URI) : option URI :=
  m0 ← (if initialized (_query_map u) then Some (_query_map u) else init_query_map (_query_map u));
  m ← ParseQueries m0 (_query u);
  Some (set_queries u false true m).
Definition get_query_map (u : URI) : option URI := if _initialized_query_map u then Some u else InitializeQueryMap u.
Definition GetQuery (u : URI) (key : list Z) : option (option (list Z) * URI) :=
  u ← get_query_map u; r ← seek (_query_map u) key; Some (r, u).
Definition SetQuery (u : URI) (key value : list Z) : option URI :=
  u ← get_query_map u; m ← insert (_query_map u) key value; Some (set_queries u true (_initialized_query_map u) m).
Definition RemoveQuery (u : URI) (key : list Z) : option (Z * URI) :=
  u ← get_query_map u;
  '(n, _, m) ← erase (_query_map u) key;
  Some (if negb (n =? 0) then (1, set_queries u true (_initialized_query_map u) m) else (0, set_queries u (_query_was_modified u) (_initialized_query_map u) m)).
Definition QueryCount (u : URI) : option (Z * URI) := u ← get_query_map u; Some (size (_query_map u), u).
(** From [QueryBegin()] to [QueryEnd()]. *)
Definition Queries (u : URI) : option (list (list Z * list Z) * URI) := u ← get_query_map u; l ← visit (_query_map u); Some (l, u).
Definition append_pair (e : list Z * list Z) : list Z := e.1 ++ match e.2 with [] => [] | _ => equals_sign :: e.2 end.
Definition AppendQueryString (u : URI) (query : list Z) (append_question_mark : bool) : option (list Z * URI) :=
  if empty (_query_map u) then Some (query, u)
  else
    let query := if append_question_mark then query ++ [63] else query in
    '(l, u) ← Queries u;
    match l with
    | [] => None
    | e :: l => Some (foldl (fun q e => (q ++ [amp]) ++ append_pair e) (query ++ append_pair e) l, u)
    end.
Definition query (u : URI) : option (list Z * URI) :=
  if _initialized_query_map u && _query_was_modified u then
    let u := set_query (set_queries u false (_initialized_query_map u) (_query_map u)) [] in
    '(q, u) ← AppendQueryString u (_query u) false;
    Some (q, set_query u q)
  else Some (_query u, u).

(** ** Printing *)
Definition print_queries (l : list (list Z * list Z)) : list Z :=
  (foldl (fun '(out, is_first) e => (out ++ (if is_first : bool then [63] else [amp]) ++ append_pair e, false)) ([], true) l).1.
Definition PrintWithoutHost (u : URI) : option (list Z * URI) :=
  let path := match _path u with [] => [47] | _ => _path u end in
  '(q, u) ← (if _initialized_query_map u && _query_was_modified u then '(l, u) ← Queries u; Some (print_queries l, u)
             else Some (match _query u with [] => [] | _ => 63 :: _query u end, u));
  Some (path ++ q ++ match _fragment u with [] => [] | _ => 35 :: _fragment u end, u).
Definition http : list Z := [104; 116; 116; 112].
Definition slashes : list Z := [58; 47; 47].
Definition Print (u : URI) : option (list Z * URI) :=
  let authority :=
    match _host u with
    | [] => []
    | _ => match _scheme u with [] => http | _ => _scheme u end ++ slashes ++ _host u ++ if 0 <=? _port u then 58 :: print_int (_port u) else []
    end in
  '(rest, u) ← PrintWithoutHost u;
  Some (authority ++ rest, u).
Definition GenerateH2Path (u : URI) : option (list Z * URI) :=
  let h2_path := match _path u with [] => [47] | _ => _path u end in
  '(h2_path, u) ← (if _initialized_query_map u && _query_was_modified u then AppendQueryString u h2_path true
                   else Some (match _query u with [] => h2_path | _ => (h2_path ++ [63]) ++ _query u end, u));
  Some (match _fragment u with [] => h2_path | _ => (h2_path ++ [35]) ++ _fragment u end, u).
End Queries.

Definition SetHostAndPort (u : URI) (host_and_port : list Z) : URI :=
  let '(host, port) := SplitHostAndPort host_and_port in set_host (set_port u port) host.
(** [for (; *p && not a stop; ++p)] *)
Fixpoint find_stop (stops : Z -> bool) (p : list Z) : list Z :=
  match p with [] => p | c :: p' => if (c =? 0) || stops c then p else find_stop stops p' end.
Definition SetH2Path (u : URI) (h2_path : list Z) : option URI :=
  m ← clear (_query_map u);
  let u := set_queries (set_fragment (set_query (set_path u []) []) []) false false m in
  let p := find_stop ends_path h2_path in
  let u := set_path u (between h2_path p) in
  let '(u, p) := if char_at p =? 63 then let p' := find_stop ends_query (tail p) in (set_query u (between (tail p) p'), p') else (u, p) in
  Some (if char_at p =? 35 then set_fragment u (between (tail p) (find_stop ends_fragment (tail p))) else u).
(** The implicit copy constructor. *)
Definition URI_copy (alloc : Z -> bool) (u : URI) : option URI :=
  m ← @FlatMap_copy _ _ (query_params alloc) (_query_map u); Some (set_queries u (_query_was_modified u) (_initialized_query_map u) m).
End Uri.
