(* ===== verification/UriParse.v ===== *)
(** * Parsing and printing URLs

    What SetHttpURL, ParseURL, Print, GenerateH2Path and SetH2Path promise about each
    other. *)
From Stdlib Require Import String.
From stdpp Require Import base list.
From Stdlib Require Import ZArith Lia Bool.
From S2P Require Import Prelude BitArray FlatMap StringSplitter QueryRemover Uri.

Open Scope list_scope.
Open Scope Z_scope.

Module UriParse.
Import FlatMap QueryRemover Uri.

(** ** Pointers *)
Lemma between_app a p : between (a ++ p) p = a.
Proof. unfold between. rewrite length_app. replace (length a + length p - length p)%nat with (length a) by lia. apply take_app_length. Qed.
Lemma skip_blanks_id c l : c <> 32 -> skip_blanks (c :: l) = c :: l.
Proof. intros Hc. cbn. by rewrite (proj2 (Z.eqb_neq _ _)). Qed.

(** ** Characters *)
Definition plain (c : Z) : bool := g_url_parsing_fast_action_map c =? URI_PARSE_CONTINUE.
Definition host_char (c : Z) : bool := plain c || (c =? 58).
Lemma action_table n : (n < 256)%nat ->
  let a := nth n g_url_parsing_fast_action_map_raw 0 in
  a = URI_PARSE_CONTINUE \/ a = URI_PARSE_BREAK \/ a = URI_PARSE_CHECK /\ (n = 160%nat \/ n = 186%nat \/ n = 192%nat).
Proof.
  intros Hn. assert (forallb (fun n => let a := nth n g_url_parsing_fast_action_map_raw 0 in
    (a =? URI_PARSE_CONTINUE) || (a =? URI_PARSE_BREAK) || ((a =? URI_PARSE_CHECK) && ((n =? 160)%nat || (n =? 186)%nat || (n =? 192)%nat))) (seq 0 256) = true) as H by (vm_compute; done).
  rewrite forallb_forall in H. specialize (H n). rewrite in_seq in H. specialize (H ltac:(lia)). cbv zeta in *.
  rewrite !orb_true_iff, andb_true_iff, !orb_true_iff, !Z.eqb_eq, !Nat.eqb_eq in H. tauto.
Qed.
(** Only three characters are checked. *)
Lemma action_cases c : g_url_parsing_fast_action_map c = URI_PARSE_CONTINUE \/ g_url_parsing_fast_action_map c = URI_PARSE_BREAK \/
  g_url_parsing_fast_action_map c = URI_PARSE_CHECK /\ (c = 32 \/ c = 58 \/ c = 64).
Proof.
  unfold g_url_parsing_fast_action_map. destruct (decide (Z.to_nat (c + 128) < 256)%nat) as [Hc|Hc].
  - destruct (action_table _ Hc) as [H|[H|[H Hn]]]; [by left|right; by left|right; right]. split; [done|]. lia.
  - left. rewrite nth_overflow; [done|]. cbn [length g_url_parsing_fast_action_map_raw]. lia.
Qed.
Lemma action_check c : g_url_parsing_fast_action_map c = URI_PARSE_CHECK -> c = 32 \/ c = 58 \/ c = 64.
Proof. intros H. destruct (action_cases c) as [H'|[H'|[_ H']]]; [by rewrite H' in H..|done]. Qed.
Lemma check_is_valid c : g_url_parsing_fast_action_map c = URI_PARSE_CHECK -> is_valid_char c = true.
Proof. intros [->|[->| ->]]%action_check; done. Qed.

(** ** Ports *)
Definition digit (c : Z) : bool := (48 <=? c) && (c <=? 57).
(** The number that digits denote, the last one first. *)
Fixpoint le_value (r : list Z) : Z := match r with [] => 0 | c :: r' => (c - 48) + 10 * le_value r' end.
Definition dec_value (ds : list Z) : Z := le_value (rev ds).
Lemma find_port_digits r raw m x t : forallb digit r = true -> 0 <= raw < 2 ^ 64 ->
  find_port (r ++ 58 :: x :: t) raw m = Some (u64 (raw + m * le_value r), x :: t).
Proof.
  revert raw m. induction r as [|c r IH]; intros raw m Hr Hraw; [cbn; by rewrite Z.mul_0_r, Z.add_0_r, u64_small|]. cbn [forallb] in Hr. apply andb_true_iff in Hr as [Hc Hr].
  assert (find_port ((c :: r) ++ 58 :: x :: t) raw m = find_port (r ++ 58 :: x :: t) (u64 (raw + (c - 48) * m)) (u64 (m * 10))) as ->.
  { cbn [app find_port]. unfold digit in Hc. rewrite Hc. by destruct r. }
  rewrite IH by (done || apply u64_range). do 2 f_equal. unfold u64. cbn [le_value]. rewrite Z.add_mod_idemp_l, <- Z.add_mod_idemp_r, Z.mul_mod_idemp_l, Z.add_mod_idemp_r by lia. f_equal. lia.
Qed.
Lemma digits_rev r : forallb digit (rev r) = forallb digit r.
Proof. induction r as [|c r IH]; [done|]. cbn [rev forallb]. rewrite forallb_app, IH. cbn [forallb]. rewrite andb_true_r. apply andb_comm. Qed.
Lemma split_port host ds : host <> [] -> forallb digit ds = true -> SplitHostAndPort (host ++ 58 :: ds) = (host, i32 (u64 (dec_value ds))).
Proof.
  intros Hh Hd. unfold SplitHostAndPort. rewrite rev_app_distr. cbn [rev]. rewrite <- app_assoc. cbn [app].
  destruct host as [|x t _] using rev_ind; [done|]. rewrite rev_app_distr. cbn [rev app]. rewrite find_port_digits; [|by rewrite digits_rev|lia].
  cbn [rev]. by rewrite rev_involutive, Z.add_0_l, Z.mul_1_l.
Qed.
(** A host followed by a colon and decimal digits is split into that host and the number the
    digits denote, modulo 2^64 and then truncated to an int: a port that is out of range is not
    rejected. *)
Theorem port_is_truncated host ds : host <> [] -> forallb digit ds = true -> SplitHostAndPort (host ++ 58 :: ds) = (host, i32 (u64 (dec_value ds))).
Proof. apply split_port. Qed.
Lemma port_is_truncated_witness : SplitHostAndPort ([97] ++ 58 :: [52; 50; 57; 52; 57; 54; 55; 51; 55; 54]) = ([97], 80).
Proof. rewrite (port_is_truncated [97] [52; 50; 57; 52; 57; 54; 55; 51; 55; 54]); [vm_compute; reflexivity|discriminate|reflexivity]. Defined.
Lemma print_digits_spec fuel n acc : 0 <= n < 10 ^ Z.of_nat fuel -> (0 < fuel)%nat ->
  exists ds, print_digits fuel n acc = ds ++ acc /\ forallb digit ds = true /\ dec_value ds = n.
Proof.
  revert n acc. induction fuel as [|fuel IH]; intros n acc Hn Hf; [lia|]. cbn [print_digits]. pose proof (Z.mod_pos_bound n 10 ltac:(lia)). pose proof (Z.div_mod n 10 ltac:(lia)).
  assert (digit (48 + n mod 10) = true) as Hd by (unfold digit; apply andb_true_iff; rewrite !Z.leb_le; lia). destruct (Z.eqb_spec (n / 10) 0) as [Hz|Hz].
  - exists [48 + n mod 10]. split; [done|]. split; [cbn [forallb]; by rewrite Hd|]. unfold dec_value. cbn [rev app le_value]. lia.
  - rewrite Nat2Z.inj_succ, Z.pow_succ_r in Hn by lia. assert (0 < n / 10 < 10 ^ Z.of_nat fuel) as Hq by (split; [assert (0 <= n / 10) by (apply Z.div_pos; lia); lia|apply Z.div_lt_upper_bound; lia]).
    destruct fuel as [|fuel]; [cbn in Hq; lia|]. destruct (IH (n / 10) (48 + n mod 10 :: acc)) as (ds & -> & Hds & Hv); [lia|lia|]. exists (ds ++ [48 + n mod 10]). split; [by rewrite <- app_assoc|]. split; [rewrite forallb_app, Hds; cbn [forallb]; by rewrite Hd|].
    unfold dec_value. rewrite rev_app_distr. cbn [rev app le_value]. fold (dec_value ds). lia.
Qed.
Lemma print_int_spec n : 0 <= n < 2 ^ 31 -> forallb digit (print_int n) = true /\ dec_value (print_int n) = n.
Proof. intros Hn. destruct (print_digits_spec 10 n []) as (ds & Heq & H1 & H2); [change (10 ^ Z.of_nat 10) with 10000000000; lia|lia|]. unfold print_int. rewrite Heq, app_nil_r. done. Qed.

(** ** The two parsers *)
Lemma loops_agree p start scheme user_info so ns nu : default [] so = scheme ->
  let '(err, scheme', _, start', p') := find_host_end p start scheme user_info ns nu in
  exists so', ParseURL_loop p start so ns nu = (match err with None => true | Some _ => false end, so', start', p') /\ default [] so' = scheme' /\
    (err = None \/ err = Some "Invalid space in url"%string).
Proof.
  remember (length p) as n eqn:Hn. revert p Hn start scheme user_info so ns nu. induction (lt_wf n) as [n _ IH]. intros p Hn start scheme user_info so ns nu Hso. destruct p as [|c p]; [exists so; by auto|].
  cbn [find_host_end ParseURL_loop]. cbn [length] in Hn. destruct (action_cases c) as [Ha|[Ha|[Ha Hc]]].
  - rewrite Ha. cbn [Z.eqb URI_PARSE_CONTINUE]. by eapply (IH (length p)); [lia|..].
  - rewrite Ha. exists so; by auto.
  - rewrite (check_is_valid c Ha), Ha. cbn [Z.eqb URI_PARSE_CONTINUE URI_PARSE_CHECK URI_PARSE_BREAK negb]. change (URI_PARSE_CHECK =? URI_PARSE_CONTINUE) with false. change (URI_PARSE_CHECK =? URI_PARSE_BREAK) with false. cbn iota.
    destruct Hc as [->|[->| ->]].
    + destruct (is_all_spaces p); exists so; by auto.
    + cbn [Z.eqb Pos.eqb]. assert (forall st sc so' ns', default [] so' = sc -> let '(err, scheme', _, start', p') := find_host_end p st sc user_info ns' nu in
        exists so'', ParseURL_loop p st so' ns' nu = (match err with None => true | Some _ => false end, so'', start', p') /\ default [] so'' = scheme' /\ (err = None \/ err = Some "Invalid space in url"%string)) as Hrec by (intros; by eapply (IH (length p)); [lia|..]).
      destruct p as [|c1 [|c2 p]]; [by apply Hrec..|]. destruct ((c1 =? 47) && (c2 =? 47) && ns); [|by apply Hrec]. eapply (IH (length p)); [cbn in Hn; lia|done|done].
    + cbn [Z.eqb Pos.eqb]. destruct nu; by eapply (IH (length p)); [lia|..].
Qed.
(** The parts behind the host do not change it. *)
Definition same_host (u u' : URI) : Prop := _host u' = _host u /\ _port u' = _port u /\ _scheme u' = _scheme u /\ _user_info u' = _user_info u.
Lemma parse_fragment_host u p : same_host u (parse_fragment u p).2.
Proof. unfold parse_fragment. destruct (char_at p =? 35); [|done]. by destruct (find_part_end _ _). Qed.
Lemma parse_query_host u p : same_host u (parse_query u p).2.
Proof. unfold parse_query. destruct (char_at p =? 63); [|apply parse_fragment_host]. destruct (find_part_end _ _) as [p'|]; [|done]. apply (parse_fragment_host (set_query u _)). Qed.
Lemma parse_path_host u p : same_host u (parse_path u p).2.
Proof. unfold parse_path. destruct (char_at p =? 47); [|apply parse_query_host]. destruct (find_part_end _ _) as [p'|]; [|done]. apply (parse_query_host (set_path u _)). Qed.
(** An error behind the host is not the one about the host. *)
Definition host_error : Status := mkStatus EINVAL "Invalid space in url".
Lemma parse_path_st u p : _st u <> host_error -> _st (parse_path u p).2 <> host_error.
Proof.
  intros Hu. unfold parse_path, parse_query, parse_fragment. repeat (case_match; cbn; try done).
Qed.
(** C28: ParseURL and SetHttpURL agree on every URL: ParseURL fails exactly when SetHttpURL
    reports a space inside the part up to the host, and otherwise yields the scheme, host and
    port of the URI, also when SetHttpURL rejects a later part. *)
Theorem parse_url_agrees u url r u' : SetHttpURL u url = Some (r, u') ->
  exists scheme, default [] scheme = _scheme u' /\
    ParseURL url = if bool_decide (_st u' = host_error) then mkParsed (-1) scheme None None else mkParsed 0 scheme (Some (_host u')) (Some (_port u')).
Proof.
  unfold SetHttpURL, ParseURL. destruct (Clear u) as [u0|] eqn:Hu0; [|done]. cbn [mbind option_bind].
  assert (_st u0 = OK) as Hst by (unfold Clear in Hu0; destruct (clear _); [|done]; by injection Hu0 as <-).
  pose proof (loops_agree (skip_blanks url) (skip_blanks url) [] [] None true true eq_refl) as H. destruct (find_host_end _ _ _ _ _ _) as [[[[err scheme] user_info] start] p]. destruct H as (so & -> & Hso & Herr). destruct err as [msg|].
  - intros [= <- <-]. exists so. split; [done|]. destruct Herr as [?|[= ->]]; [done|]. by rewrite bool_decide_true by done.
  - destruct (SplitHostAndPort _) as [host port]. intros [= H]. pose proof (parse_path_host (set_host (set_port (set_user_info (set_scheme u0 scheme) user_info) port) host) p) as (Hh & Hp & Hs & _). pose proof (parse_path_st (set_host (set_port (set_user_info (set_scheme u0 scheme) user_info) port) host) p) as Hne.
    rewrite H in Hh, Hp, Hs, Hne. cbn in Hh, Hp, Hs, Hne. exists so. rewrite Hh, Hp, Hs. split; [done|]. rewrite bool_decide_false; [done|]. apply Hne. by rewrite Hst.
Qed.
Lemma parse_path_message u p : error_message (_st u) <> "invalid character in url"%string -> error_message (_st (parse_path u p).2) <> "invalid character in url"%string.
Proof. intros Hu. unfold parse_path, parse_query, parse_fragment. repeat (case_match; cbn; try done). Qed.
(** No character is rejected: only a space, a colon and an at sign are passed to
    [is_valid_char], which holds of them. *)
Theorem no_character_is_invalid u url r u' : SetHttpURL u url = Some (r, u') -> error_message (_st u') <> "invalid character in url"%string.
Proof.
  unfold SetHttpURL. destruct (Clear u) as [u0|] eqn:Hu0; [|done]. cbn [mbind option_bind]. assert (_st u0 = OK) as Hst by (unfold Clear in Hu0; destruct (clear _); [|done]; by injection Hu0 as <-).
  pose proof (loops_agree (skip_blanks url) (skip_blanks url) [] [] None true true eq_refl) as H. destruct (find_host_end _ _ _ _ _ _) as [[[[err scheme] user_info] start] p]. destruct H as (_ & _ & _ & Herr). destruct err as [msg|].
  - intros [= <- <-]. by destruct Herr as [?|[= ->]].
  - destruct (SplitHostAndPort _) as [host port]. intros [= H]. match type of H with parse_path ?v _ = _ => pose proof (parse_path_message v p) as Hm; rewrite H in Hm end. apply Hm. cbn. by rewrite Hst.
Qed.
Lemma parse_url_agrees_witness : exists scheme, default [] scheme = http /\ ParseURL [104; 116; 116; 112; 58; 47; 47; 97; 58; 56; 48; 47; 32; 120] = mkParsed 0 scheme (Some [97]) (Some 80).
Proof.
  eassert (SetHttpURL URI_new [104; 116; 116; 112; 58; 47; 47; 97; 58; 56; 48; 47; 32; 120] = Some (-1, _)) as H by (vm_compute; reflexivity).
  destruct (parse_url_agrees _ _ _ _ H) as (scheme & H1 & H2). exists scheme. split; [exact H1|exact H2].
Defined.

(** ** Reading back what was printed *)
Definition default_path (p : list Z) : list Z := match p with [] => [47] | _ => p end.
Definition default_scheme (s : list Z) : list Z := match s with [] => http | _ => s end.
(** Characters of a path, query or fragment that do not end it. *)
Definition part_char (stops : Z -> bool) (c : Z) : bool := negb ((c =? 0) || stops c) && negb (c =? 32).
Record printable (u : URI) : Prop := mkPrintable {
  ok_scheme : forallb plain (_scheme u) = true;
  ok_host : _host u <> [] /\ forallb host_char (_host u) = true;
  ok_port : -1 <= _port u < 2 ^ 31 /\ (_port u = -1 -> SplitHostAndPort (_host u) = (_host u, -1));
  ok_path : _path u = [] \/ exists p, _path u = 47 :: p /\ forallb (part_char ends_path) p = true;
  ok_query : forallb (part_char ends_query) (_query u) = true;
  ok_fragment : forallb (part_char ends_fragment) (_fragment u) = true }.
Lemma find_part_app stops a p : forallb (part_char stops) a = true -> char_at p = 0 \/ stops (char_at p) = true -> find_part_end stops (a ++ p) = Some p.
Proof.
  intros Ha Hp. induction a as [|c a IH]; cbn [app].
  - destruct p as [|c p]; [done|]. cbn in *. by destruct Hp as [-> | ->]; [|rewrite orb_true_r].
  - cbn [forallb] in Ha. apply andb_true_iff in Ha as [Hc Ha]. unfold part_char in Hc. apply andb_true_iff in Hc as [Hc1%negb_true_iff Hc2%negb_true_iff]. cbn [find_part_end]. rewrite Hc1, Hc2. by apply IH.
Qed.
Lemma plain_scan a p start s ui ns nu : forallb plain a = true -> find_host_end (a ++ p) start s ui ns nu = find_host_end p start s ui ns nu.
Proof. intros Ha. induction a as [|c a IH]; [done|]. cbn [forallb] in Ha. apply andb_true_iff in Ha as [Hc Ha]. cbn [app find_host_end]. unfold plain in Hc. by rewrite Hc, IH. Qed.
Lemma host_scan a p start s ui nu : forallb host_char a = true -> find_host_end (a ++ p) start s ui false nu = find_host_end p start s ui false nu.
Proof.
  intros Ha. induction a as [|c a IH]; [done|]. cbn [forallb] in Ha. apply andb_true_iff in Ha as [Hc Ha]. specialize (IH Ha). unfold host_char in Hc. destruct (plain c) eqn:Hp.
  - cbn [app find_host_end]. unfold plain in Hp. by rewrite Hp.
  - cbn [orb] in Hc. apply Z.eqb_eq in Hc as ->. rewrite <- IH. cbn [app find_host_end].
    change (g_url_parsing_fast_action_map 58) with URI_PARSE_CHECK. change (is_valid_char 58) with true. change (URI_PARSE_CHECK =? URI_PARSE_CONTINUE) with false. change (URI_PARSE_CHECK =? URI_PARSE_BREAK) with false. cbn [negb Z.eqb Pos.eqb].
    destruct (a ++ p) as [|c1 [|c2 l]]; [done..|]. by rewrite andb_false_r.
Qed.
Definition query_part (q : list Z) : list Z := match q with [] => [] | _ => 63 :: q end.
Definition fragment_part (f : list Z) : list Z := match f with [] => [] | _ => 35 :: f end.
Lemma parse_fragment_print u f : forallb (part_char ends_fragment) f = true -> _fragment u = [] -> parse_fragment u (fragment_part f) = (0, set_fragment u f).
Proof.
  intros Hf Hu. unfold parse_fragment, fragment_part. destruct f as [|c f]; [destruct u; cbn in *; by subst|]. cbn [char_at tail Z.eqb Pos.eqb].
  pose proof (find_part_app ends_fragment (c :: f) [] Hf (or_introl eq_refl)) as H. pose proof (between_app (c :: f) []) as Hb. rewrite app_nil_r in H, Hb. by rewrite H, Hb.
Qed.
Lemma parse_query_print u q f : forallb (part_char ends_query) q = true -> forallb (part_char ends_fragment) f = true -> _query u = [] -> _fragment u = [] ->
  parse_query u (query_part q ++ fragment_part f) = (0, set_fragment (set_query u q) f).
Proof.
  intros Hq Hf Hu Hu'. unfold parse_query. destruct q as [|c q]; cbn [query_part app].
  - assert ((char_at (fragment_part f) =? 63) = false) as -> by by destruct f. rewrite parse_fragment_print by done. do 2 f_equal. destruct u; cbn in *; by subst.
  - cbn [char_at tail Z.eqb Pos.eqb]. rewrite (find_part_app _ (c :: q) (fragment_part f)) by (done || (destruct f; [by left|by right])). 
    replace (between (c :: q ++ fragment_part f) (fragment_part f)) with (c :: q) by (symmetry; apply (between_app (c :: q))). by apply parse_fragment_print.
Qed.
Lemma parse_path_print u p q f : forallb (part_char ends_path) p = true -> forallb (part_char ends_query) q = true -> forallb (part_char ends_fragment) f = true -> _query u = [] -> _fragment u = [] ->
  parse_path u (47 :: p ++ query_part q ++ fragment_part f) = (0, set_fragment (set_query (set_path u (47 :: p)) q) f).
Proof.
  intros Hp Hq Hf Hu Hu'. unfold parse_path. cbn [char_at tail Z.eqb Pos.eqb]. rewrite find_part_app by (done || (destruct q; [destruct f; [by left|by right]|by right])).
  change (47 :: p ++ query_part q ++ fragment_part f) with ((47 :: p) ++ query_part q ++ fragment_part f). rewrite between_app. by apply parse_query_print.
Qed.
Definition port_part (port : Z) : list Z := if 0 <=? port then 58 :: print_int port else [].
Lemma digit_host_char ds : forallb digit ds = true -> forallb host_char ds = true.
Proof.
  intros H. rewrite forallb_forall in *. intros c Hc. specialize (H c Hc). unfold digit in H. apply andb_true_iff in H as [H1%Z.leb_le H2%Z.leb_le].
  unfold host_char. apply orb_true_iff. left. assert (c = 48 \/ c = 49 \/ c = 50 \/ c = 51 \/ c = 52 \/ c = 53 \/ c = 54 \/ c = 55 \/ c = 56 \/ c = 57) as Hd by lia. by repeat destruct Hd as [->|Hd]; subst.
Qed.
Lemma split_printed u : printable u -> forallb host_char (_host u ++ port_part (_port u)) = true /\ SplitHostAndPort (_host u ++ port_part (_port u)) = (_host u, _port u).
Proof.
  intros [_ [Hh Hhc] [Hp Hm] _ _ _]. unfold port_part. destruct (Z.leb_spec 0 (_port u)) as [H0|H0].
  - destruct (print_int_spec (_port u)) as [Hd Hv]; [lia|]. rewrite forallb_app, Hhc. cbn [forallb]. rewrite digit_host_char by done. split; [done|]. rewrite split_port by done. by rewrite Hv, u64_small, i32_small by lia.
  - rewrite app_nil_r. split; [done|]. assert (_port u = -1) as Hp1 by lia. rewrite Hp1. by apply Hm.
Qed.
Definition dense (u : URI) : Prop := _thumbnail (_query_map u) = None.
Lemma Clear_dense u : dense u -> exists m, Clear u = Some (mkURI OK (-1) false false [] [] [] [] [] [] m).
Proof. unfold dense, Clear, clear. intros ->. destruct (_ =? 0); eauto. Qed.
(** C25: A URI with a host whose parts have no delimiters of their own, once printed, is parsed
    back: host, port, query and fragment as they are, an empty scheme as http and an empty path
    as the root. *)
Theorem print_parse_roundtrip alloc u u0 : printable u -> _query_was_modified u = false -> dense u0 ->
  exists text u', Print alloc u = Some (text, u) /\ SetHttpURL u0 text = Some (0, u') /\ _st u' = OK /\
    _scheme u' = default_scheme (_scheme u) /\ _user_info u' = [] /\ _host u' = _host u /\ _port u' = _port u /\
    _path u' = default_path (_path u) /\ _query u' = _query u /\ _fragment u' = _fragment u.
Proof.
  intros Hu Hm Hd. destruct (Clear_dense u0 Hd) as [m Hclear]. destruct (split_printed u Hu) as [Hhc Hsplit]. destruct Hu as [Hs [Hh _] _ Hp Hq Hf].
  assert (exists p, default_path (_path u) = 47 :: p /\ forallb (part_char ends_path) p = true) as (p & Hp1 & Hp2) by (destruct Hp as [-> |(p & -> & ?)]; [by exists []|by exists p]).
  set (sch := default_scheme (_scheme u)). assert (forallb plain sch = true /\ exists c s, sch = c :: s) as [Hsch (c & s & Hcs)] by (unfold sch; destruct (_scheme u); [split; [done|by repeat eexists]|split; [done|by eauto]]).
  set (tail_ := 47 :: p ++ query_part (_query u) ++ fragment_part (_fragment u)).
  exists (sch ++ slashes ++ (_host u ++ port_part (_port u)) ++ tail_). eexists. split; [|split].
  - unfold Print, PrintWithoutHost. rewrite Hm, andb_false_r. cbn [mbind option_bind]. fold (default_path (_path u)) (query_part (_query u)) (fragment_part (_fragment u)). rewrite Hp1. destruct (_host u) eqn:Eh; [done|]. fold sch. fold (default_scheme (_scheme u)). rewrite <- !app_assoc. done.
  - unfold SetHttpURL. rewrite Hclear. cbn [mbind option_bind]. assert (plain c = true) as Hc by (rewrite Hcs in Hsch; cbn [forallb] in Hsch; by apply andb_true_iff in Hsch as [? _]).
    assert (forall l, skip_blanks (sch ++ l) = sch ++ l) as Hsk by (intros l; rewrite Hcs; apply skip_blanks_id; by intros ->). rewrite Hsk, plain_scan by done.
    set (rest_ := (_host u ++ port_part (_port u)) ++ tail_). change (slashes ++ rest_) with (58 :: 47 :: 47 :: rest_).
    replace (find_host_end (58 :: 47 :: 47 :: rest_) _ [] [] true true) with (find_host_end rest_ rest_ sch [] false true) by (rewrite <- (between_app sch (58 :: 47 :: 47 :: rest_)) at 1; done).
    unfold rest_ at 1. rewrite host_scan by done. change (find_host_end tail_ rest_ sch [] false true) with (@None string, sch, @nil Z, rest_, tail_). cbv beta iota. unfold rest_. rewrite between_app, Hsplit. unfold tail_. rewrite parse_path_print by done. done.
  - rewrite Hp1. done.
Qed.
Definition sample : URI := mkURI OK 8080 false false [97; 58; 98] [47; 120] [] [122] [] [107; 61; 118] FlatMap_new.
Lemma sample_printable : printable sample.
Proof. split; [reflexivity|split; [discriminate|reflexivity]|split; [cbn; lia|discriminate]|right; exists [120]; split; reflexivity|reflexivity|reflexivity]. Defined.
Lemma print_parse_roundtrip_witness : exists text u', Print (fun _ => true) sample = Some (text, sample) /\ SetHttpURL URI_new text = Some (0, u') /\
  _scheme u' = http /\ _host u' = [97; 58; 98] /\ _port u' = 8080 /\ _query u' = [107; 61; 118].
Proof.
  destruct (print_parse_roundtrip (fun _ => true) sample URI_new sample_printable eq_refl eq_refl) as (text & u' & H1 & H2 & _ & H3 & _ & H4 & H5 & _ & H6 & _).
  exists text, u'. split; [exact H1|]. split; [exact H2|]. split; [exact H3|]. split; [exact H4|]. split; [exact H5|exact H6].
Defined.

(** ** The path of HTTP/2 *)
Definition h2_char (stops : Z -> bool) (c : Z) : bool := negb ((c =? 0) || stops c).
Lemma find_stop_app stops a p : forallb (h2_char stops) a = true -> char_at p = 0 \/ stops (char_at p) = true -> find_stop stops (a ++ p) = p.
Proof.
  intros Ha Hp. induction a as [|c a IH]; cbn [app].
  - destruct p as [|c p]; [done|]. cbn in *. by destruct Hp as [-> | ->]; [|rewrite orb_true_r].
  - cbn [forallb] in Ha. apply andb_true_iff in Ha as [Hc%negb_true_iff Ha]. cbn [find_stop]. rewrite Hc. by apply IH.
Qed.
Record h2_ok (u : URI) : Prop := mkH2 {
  h2_path_ok : forallb (h2_char ends_path) (_path u) = true;
  h2_query_ok : forallb (h2_char ends_query) (_query u) = true;
  h2_fragment_ok : forallb (h2_char ends_fragment) (_fragment u) = true }.
Lemma h2_fragment u f : forallb (h2_char ends_fragment) f = true -> _fragment u = [] ->
  (if char_at (fragment_part f) =? 35 then set_fragment u (between (tail (fragment_part f)) (find_stop ends_fragment (tail (fragment_part f)))) else u) = set_fragment u f.
Proof.
  intros Hf Hu. destruct f as [|c f]; [destruct u; cbn in *; by subst|]. cbn [fragment_part char_at tail Z.eqb Pos.eqb].
  pose proof (find_stop_app ends_fragment (c :: f) [] Hf (or_introl eq_refl)) as H. pose proof (between_app (c :: f) []) as Hb. rewrite app_nil_r in H, Hb. by rewrite H, Hb.
Qed.
Lemma h2_query u q f : forallb (h2_char ends_query) q = true -> _query u = [] ->
  (if char_at (query_part q ++ fragment_part f) =? 63
   then (set_query u (between (tail (query_part q ++ fragment_part f)) (find_stop ends_query (tail (query_part q ++ fragment_part f)))), find_stop ends_query (tail (query_part q ++ fragment_part f)))
   else (u, query_part q ++ fragment_part f)) = (set_query u q, fragment_part f).
Proof.
  intros Hq Hu. destruct q as [|c q]; [cbn [query_part app]; assert ((char_at (fragment_part f) =? 63) = false) as -> by (by destruct f); destruct u; cbn in *; by subst|]. cbn [query_part app char_at tail Z.eqb Pos.eqb].
  pose proof (find_stop_app ends_query (c :: q) (fragment_part f) Hq) as H. cbn [app] in H. rewrite H by (destruct f; [by left|by right]). pose proof (between_app (c :: q) (fragment_part f)) as Hb. cbn [app] in Hb. by rewrite Hb.
Qed.
(** The path that GenerateH2Path makes of path, query and fragment is split by SetH2Path into
    the same three parts, an empty path read as the root; scheme, host and port are kept. *)
Theorem h2_path_roundtrip alloc u u0 : h2_ok u -> _query_was_modified u = false -> dense u0 ->
  exists text u', GenerateH2Path alloc u = Some (text, u) /\ SetH2Path u0 text = Some u' /\ same_host u0 u' /\
    _path u' = default_path (_path u) /\ _query u' = _query u /\ _fragment u' = _fragment u /\ _initialized_query_map u' = false.
Proof.
  intros [Hp Hq Hf] Hm Hd. assert (exists m, clear (_query_map u0) = Some m) as [m Hclear] by (unfold dense, clear in *; rewrite Hd; destruct (_ =? 0); eauto).
  assert (forallb (h2_char ends_path) (default_path (_path u)) = true) as Hp' by by destruct (_path u).
  exists (default_path (_path u) ++ query_part (_query u) ++ fragment_part (_fragment u)). eexists. split; [|split].
  - unfold GenerateH2Path. rewrite Hm, andb_false_r. cbn [mbind option_bind]. fold (default_path (_path u)). destruct (_query u), (_fragment u); cbn [query_part fragment_part app]; by rewrite ?app_nil_r, <- ?app_assoc.
  - unfold SetH2Path. rewrite Hclear. cbn [mbind option_bind]. rewrite find_stop_app by (done || (destruct (_query u); [destruct (_fragment u); [by left|by right]|by right])). rewrite between_app.
    rewrite h2_query by done. rewrite h2_fragment by done. reflexivity.
  - done.
Qed.
Lemma h2_path_roundtrip_witness : exists text u', GenerateH2Path (fun _ => true) sample = Some (text, sample) /\ SetH2Path URI_new text = Some u' /\ _path u' = [47; 120] /\ _query u' = [107; 61; 118] /\ _fragment u' = [122].
Proof.
  destruct (h2_path_roundtrip (fun _ => true) sample URI_new) as (text & u' & H1 & H2 & _ & H3 & H4 & H5 & _); [split; reflexivity|reflexivity|reflexivity|].
  exists text, u'. split; [exact H1|]. split; [exact H2|]. split; [exact H3|]. split; [exact H4|exact H5].
Defined.
End UriParse.
