(* ===== verification/UriQuery.v ===== *)
(** * The queries of a URI

    The map of queries and the query string of a URI stand for one mapping from keys to
    values; the map is a FlatMap, used through the results of [FlatMapSpec]. *)
From stdpp Require Import base list.
From Stdlib Require Import ZArith Lia Bool.
From S2P Require Import Prelude BitArray FlatMap FlatMapSpec StringSplitter QueryRemover Uri UriParse.

Open Scope Z_scope.

Module UriQuery.
Import FlatMap FlatMapSpec QueryRemover Uri UriParse.

Ltac uri_simpl := cbn [set_queries set_query _query_map _initialized_query_map _query_was_modified _query].

(** ** The mapping a query string stands for *)
Definition is_equals (c : Z) : bool := c =? equals_sign.
Definition kv_of (f : list Z) : list Z * list Z :=
  let d := StringSplitter.find_sep is_equals f 0 in (take d f, drop (S d) f).
Definition has_key (e : list Z * list Z) : bool := StringSplitter.nonempty e.1.
Definition kv_list (fs : list (list Z)) : list (list Z * list Z) := List.filter has_key (map kv_of fs).
Definition parse_list (q : list Z) : list (list Z * list Z) := kv_list (pairs (c_str q)).
(** The last pair with a key counts. *)
Definition update (k : list Z) (acc : option (list Z)) (e : list Z * list Z) : option (list Z) := if bool_decide (e.1 = k) then Some e.2 else acc.
Definition parse_map (q : list Z) (k : list Z) : option (list Z) := foldl (update k) None (parse_list q).

Definition key_char (c : Z) : bool := negb ((c =? 0) || is_amp c || is_equals c).
Definition value_char (c : Z) : bool := negb ((c =? 0) || is_amp c).
Definition clean (e : list Z * list Z) : Prop := e.1 <> [] /\ forallb key_char e.1 = true /\ forallb value_char e.2 = true.

Lemma forallb_impl (p q : Z -> bool) l : (forall c, p c = true -> q c = true) -> forallb p l = true -> forallb q l = true.
Proof. intros H. rewrite !forallb_forall. auto. Qed.
Lemma key_value_char l : forallb key_char l = true -> forallb value_char l = true.
Proof. apply forallb_impl. intros c. unfold key_char, value_char. by destruct (c =? 0), (is_amp c), (is_equals c). Qed.
Lemma not_amp l : forallb value_char l = true -> Forall (fun c => is_amp c = false) l.
Proof. rewrite forallb_forall, List.Forall_forall. intros H c Hc. specialize (H c Hc). unfold value_char in H. by destruct (is_amp c), (c =? 0). Qed.
Lemma c_str_no_nul l : forallb (fun c => negb (c =? 0)) (c_str l) = true.
Proof. induction l as [|c l IH]; [done|]. cbn [c_str]. destruct (c =? 0) eqn:Hc; [done|]. cbn [forallb]. by rewrite Hc, IH. Qed.

(** ** Pairs of a query string *)
Lemma split_chars p l : forallb p l = true -> Forall (fun f => forallb p f = true /\ Forall (fun c => is_amp c = false) f) (StringSplitter.split is_amp l).
Proof.
  induction l as [|c l IH]; cbn [StringSplitter.split forallb]; [intros _; repeat constructor|]. intros [Hc Hl]%andb_true_iff. specialize (IH Hl). destruct (is_amp c) eqn:Ha; [constructor; [repeat constructor|done]|].
  destruct (StringSplitter.split is_amp l) as [|f fs]; [constructor; [|done]; cbn; rewrite Hc; split; [done|by repeat constructor]|]. inversion_clear IH as [|? ? [Hf Hfa] Hfs]. constructor; [|done]. cbn. rewrite Hc, Hf. split; [done|by constructor].
Qed.
Lemma pairs_chars s : Forall (fun f => f <> [] /\ forallb value_char f = true) (pairs (c_str s)).
Proof.
  pose proof (split_chars _ _ (c_str_no_nul s)) as H. unfold pairs, StringSplitter.fields_of. rewrite List.Forall_forall in *. intros f [Hin Hne]%List.filter_In. destruct (H f Hin) as [H0 Ha]. split; [by destruct f|].
  rewrite forallb_forall in *. intros c Hc. rewrite List.Forall_forall in Ha. unfold value_char. rewrite (Ha c Hc). specialize (H0 c Hc). by destruct (c =? 0).
Qed.
Lemma find_equals f : exists k r, f = k ++ r /\ Forall (fun c => is_equals c = false) k /\ kv_of f = (k, tail r) /\ match r with [] => True | c :: _ => is_equals c = true end.
Proof.
  destruct (StringSplitter.split_field is_equals f) as (k & r & -> & Hk & Hfind & Hr). exists k, r. split; [done|]. split; [done|]. unfold kv_of. rewrite Hfind. cbn [Nat.add]. rewrite take_app_length. split; [|destruct r; [done|apply Hr]].
  f_equal. rewrite <- Nat.add_1_r, <- drop_drop, drop_app_length. by destruct r.
Qed.
Lemma parse_list_clean s : Forall clean (parse_list s).
Proof.
  unfold parse_list, kv_list. pose proof (pairs_chars s) as H. rewrite List.Forall_forall in *. intros e [Hin Hk]%List.filter_In. apply in_map_iff in Hin as (f & <- & Hf). destruct (H f Hf) as [_ Hv].
  destruct (find_equals f) as (k & r & -> & Hke & Heq & _). unfold clean. rewrite Heq in *. cbn [fst snd] in *. rewrite forallb_app in Hv. apply andb_true_iff in Hv as [Hv1 Hv2]. split; [by destruct k|]. split.
  - rewrite forallb_forall in *. rewrite List.Forall_forall in Hke. intros c Hc. specialize (Hv1 c Hc). specialize (Hke c Hc). unfold key_char, value_char in *. rewrite Hke. by destruct (c =? 0), (is_amp c).
  - destruct r; [done|]. cbn [forallb tail] in *. by apply andb_true_iff in Hv2 as [_ ?].
Qed.
(** ** Printed pairs are parsed *)
Lemma kv_of_app k r : Forall (fun c => is_equals c = false) k -> match r with [] => True | c :: _ => is_equals c = true end -> kv_of (k ++ r) = (k, tail r).
Proof.
  intros Hk Hr. assert (forall p, StringSplitter.find_sep is_equals (k ++ r) p = (p + length k)%nat) as Hf.
  { induction Hk as [|c k Hc Hk IH]; intros p; cbn [app StringSplitter.find_sep length]; [destruct r; cbn; [lia|rewrite Hr; lia]|]. rewrite Hc, IH. lia. }
  unfold kv_of. rewrite Hf. cbn [Nat.add]. rewrite take_app_length. f_equal. rewrite <- Nat.add_1_r, <- drop_drop, drop_app_length. by destruct r.
Qed.
Lemma append_pair_clean e : clean e -> append_pair e <> [] /\ forallb value_char (append_pair e) = true /\ kv_of (append_pair e) = e.
Proof.
  intros (Hne & Hk & Hv). destruct e as [k v]. cbn [fst snd] in *. unfold append_pair. cbn [fst snd]. split; [by destruct k|]. rewrite forallb_app, (key_value_char k Hk). split; [destruct v; [done|exact Hv]|].
  rewrite kv_of_app; [by destruct v| |by destruct v]. rewrite forallb_forall in Hk; apply List.Forall_forall; intros c Hc; specialize (Hk c Hc); unfold key_char in Hk. destruct (is_equals c); [by rewrite orb_true_r in Hk|done].
Qed.
(** What AppendQueryString appends. *)
Definition joined (l : list (list Z * list Z)) : list Z := match l with [] => [] | e :: l => foldl (fun q e => (q ++ [amp]) ++ append_pair e) (append_pair e) l end.
Lemma joined_app q l a : foldl (fun q e => (q ++ [amp]) ++ append_pair e) (a ++ q) l = a ++ foldl (fun q e => (q ++ [amp]) ++ append_pair e) q l.
Proof. revert q. induction l as [|e l IH]; intros q; cbn [foldl]; [done|]. by rewrite <- IH, !app_assoc. Qed.
Lemma joined_pairs q l : Forall clean l -> pairs (foldl (fun q e => (q ++ [amp]) ++ append_pair e) q l) = pairs q ++ map append_pair l.
Proof.
  intros Hl. revert q. induction Hl as [|e l He Hl IH]; intros q; cbn [foldl map]; [by rewrite app_nil_r|]. destruct (append_pair_clean e He) as (Hne & Hv & _).
  rewrite IH, <- (app_assoc q). cbn [app]. rewrite pairs_sep by done. rewrite (pairs_one (append_pair e)) by (done || by apply not_amp). by rewrite <- app_assoc.
Qed.
Lemma joined_no_nul q l : Forall clean l -> forallb (fun c => negb (c =? 0)) q = true -> forallb (fun c => negb (c =? 0)) (foldl (fun q e => (q ++ [amp]) ++ append_pair e) q l) = true.
Proof.
  intros Hl. revert q. induction Hl as [|e l He Hl IH]; intros q Hq; cbn [foldl]; [done|]. apply IH. rewrite !forallb_app, Hq. destruct (append_pair_clean e He) as (_ & Hv & _). cbn [forallb]. eapply forallb_impl, Hv. intros c. unfold value_char. by destruct (c =? 0).
Qed.
Lemma c_str_id l : forallb (fun c => negb (c =? 0)) l = true -> c_str l = l.
Proof. induction l as [|c l IH]; [done|]. cbn [forallb c_str]. intros [Hc Hl]%andb_true_iff. destruct (c =? 0); [done|]. by rewrite IH. Qed.
Lemma kv_list_clean l : Forall clean l -> kv_list (map append_pair l) = l.
Proof.
  unfold kv_list. induction 1 as [|e l He Hl IH]; [done|]. cbn [map]. destruct (append_pair_clean e He) as (_ & _ & ->). cbn [List.filter]. assert (has_key e = true) as -> by (destruct He as [He _]; unfold has_key; by destruct e.1). by rewrite IH.
Qed.
(** The string made of clean pairs parses into exactly them. *)
Lemma parse_joined l : Forall clean l -> parse_list (joined l) = l.
Proof.
  intros Hl. unfold parse_list, joined. destruct Hl as [|e l He Hl]; [done|]. destruct (append_pair_clean e He) as (Hne & Hv & _).
  rewrite c_str_id by (apply joined_no_nul; [done|]; eapply forallb_impl, Hv; intros c; unfold value_char; by destruct (c =? 0)). rewrite joined_pairs by done. rewrite pairs_one by (done || by apply not_amp). apply (kv_list_clean (e :: l)). by constructor.
Qed.

(** ** The map *)
Section Queries.
Context (alloc : Z -> bool).
#[local] Hint Extern 0 (Params (list Z) (list Z)) => exact (query_params alloc) : typeclass_instances.
#[local] Instance qlawful : Lawful (list Z) (list Z).
Proof.
  split; intros; cbn [_eql _hashfn query_params] in *.
  - by apply bool_decide_true.
  - apply bool_decide_ext. split; congruence.
  - rewrite bool_decide_eq_true in *. congruence.
  - rewrite bool_decide_eq_true in *. by subst.
  - unfold query_hash. destruct k as [|c k _] using rev_ind; [cbn; lia|]. rewrite foldl_app. apply u64_range.
Qed.
Lemma find_in_last l k : distinct l -> foldl (update k) None l = find_in l k.
Proof.
  assert (forall l acc, distinct l -> foldl (update k) acc l = match find_in l k with Some v => Some v | None => acc end) as H.
  { clear l. induction l as [|e l IH]; intros acc; cbn [foldl distinct find_in]; [done|]. intros [He Hl]. rewrite IH by done. unfold update. cbn [_eql query_params]. case_bool_decide as Hk; [|done]. by rewrite <- Hk, He. }
  intros Hl. rewrite H by done. by destruct (find_in l k).
Qed.
Lemma wf_initialized (m : QueryMap) : wf m -> initialized m = true.
Proof. intros (bs & a & Hwf). unfold initialized. by rewrite (wf_buckets _ _ _ Hwf). Qed.
Lemma insert_get (m m' : QueryMap) k v : inserted m m' k v -> _size m' <= _size m + 1 /\ forall k', get m' k' = update k' (get m k') (k, v).
Proof. intros (_ & Hup & ->). split; [destruct (get m k); lia|exact Hup]. Qed.
(** One pair after the other. *)
Lemma ParseQueries_loop_spec s fuel h (m : QueryMap) : good s h -> (length (pairs (drop h s)) <= fuel)%nat -> wf m -> _size m + Z.of_nat (length (pairs (drop h s))) <= 2 ^ 50 ->
  exists m', ParseQueries_loop alloc fuel (split_at s h) m = Some m' /\ wf m' /\ _size m' <= _size m + Z.of_nat (length (pairs (drop h s))) /\
    forall k, get m' k = foldl (update k) (get m k) (kv_list (pairs (drop h s))).
Proof.
  revert h m. induction fuel as [|fuel IH]; intros h m Hg Hf Hwf Hs; cbn [ParseQueries_loop]; rewrite valid_at.
  all: destruct (Nat.ltb_spec h (length s)) as [Hlt|Hge].
  2,4: assert (pairs (drop h s) = []) as -> by (apply good_rest; [done|destruct Hg; lia]); exists m; split; [done|]; split; [done|]; split; [cbn; lia|done].
  - destruct (pairs (drop h s)) eqn:E; [apply (good_rest s h Hg) in E; lia|cbn in Hf; lia].
  - destruct (step_good s h Hg Hlt) as (f & h' & seps & -> & Hg' & Hkv & _ & _ & _ & Hp & _). rewrite Hp in *. cbn [length] in Hf, Hs.
    assert ((StringSplitter.key (split_at s h), StringSplitter.value (split_at s h)) = kv_of f) as Hkf by (unfold StringSplitter.key, StringSplitter.value, kv_of; by rewrite Hkv, <- Hkv).
    unfold kv_list. cbn [map]. destruct (kv_of f) as [k v]. injection Hkf as Hk Hv. rewrite Hk, Hv. cbn [List.filter]. fold (kv_list (pairs (drop h' s))). unfold has_key. cbn [fst]. destruct k as [|c k]; cbn [StringSplitter.nonempty mbind option_bind].
    + destruct (IH h' m Hg') as (m' & Heq & Hwf' & Hs' & Hget); [lia|done|lia|]. exists m'. split; [exact Heq|]. split; [done|]. split; [cbn [length]; lia|exact Hget].
    + rewrite wf_initialized by done. cbn [mbind option_bind]. destruct (insert_spec m (c :: k) v Hwf) as (m1 & Heq1 & Hins); [lia|]. rewrite Heq1. cbn [mbind option_bind]. destruct (insert_get _ _ _ _ Hins) as [Hs1 Hg1].
      destruct (IH h' m1 Hg') as (m' & Heq & Hwf' & Hs' & Hget); [lia|apply Hins|lia|]. exists m'. split; [exact Heq|]. split; [done|]. split; [cbn [length]; lia|]. intros k'. by rewrite Hget, Hg1.
Qed.
(** ** The invariant *)
Definition fresh (m : QueryMap) : Prop := _buckets m = None /\ _size m = 0 /\ _thumbnail m = None.
Record inv (u : URI) : Prop := mkInv {
  inv_ready : _initialized_query_map u = true -> wf (_query_map u) /\ (forall k v, get (_query_map u) k = Some v -> clean (k, v)) /\
    (_query_was_modified u = false -> forall k, parse_map (_query u) k = get (_query_map u) k);
  inv_not_yet : _initialized_query_map u = false -> _query_was_modified u = false /\ (fresh (_query_map u) \/ wf (_query_map u)) }.
(** The mapping, and a bound of its size. *)
Definition queries (u : URI) (k : list Z) : option (list Z) := if _initialized_query_map u then get (_query_map u) k else parse_map (_query u) k.
Definition bound (u : URI) : Z := if _initialized_query_map u then _size (_query_map u) else Z.of_nat (length (_query u)).
Lemma parse_map_clean q k v : parse_map q k = Some v -> clean (k, v).
Proof.
  unfold parse_map. assert (forall l acc, Forall clean l -> (forall v, acc = Some v -> clean (k, v)) -> forall v, foldl (update k) acc l = Some v -> clean (k, v)) as H.
  { induction l as [|e l IH]; intros acc Hl Hacc; [done|]. inversion_clear Hl as [|? ? He Hl']. cbn [foldl]. apply IH; [done|]. intros v' Hv'. unfold update in Hv'. case_bool_decide as Hk; [|by apply Hacc]. injection Hv' as <-. subst k. by destruct e. }
  apply H; [apply parse_list_clean|done].
Qed.
Lemma pairs_length s : (length (pairs s) <= length s)%nat.
Proof.
  assert (forall n s, (length s <= n)%nat -> (length (pairs s) <= length s)%nat) as H; [|by apply (H (length s))]. clear s. induction n as [|n IH]; intros s Hs; [destruct s; [done|cbn in Hs; lia]|].
  destruct (StringSplitter.split_field is_amp s) as (f & r & Heq & Hf & _ & Hr). destruct r as [|c r].
  - unfold pairs, StringSplitter.fields_of. rewrite Hr, Heq, app_nil_r. cbn [List.filter]. destruct f; cbn; lia.
  - destruct Hr as [Hc _]. rewrite Heq, pairs_sep, !length_app in * by done. cbn [length] in *. assert (length (pairs f) <= length f)%nat by (destruct f as [|x f]; [done|]; rewrite pairs_one by done; cbn; lia). specialize (IH r). lia.
Qed.
Lemma c_str_length s : (length (c_str s) <= length s)%nat.
Proof. induction s as [|c s IH]; [done|]. cbn [c_str]. destruct (c =? 0); cbn [length]; lia. Qed.
Lemma ParseQueries_spec (m : QueryMap) q : wf m -> Z.of_nat (length q) <= 2 ^ 50 ->
  exists m', ParseQueries alloc m q = Some m' /\ wf m' /\ _size m' <= Z.of_nat (length q) /\ forall k, get m' k = parse_map q k.
Proof.
  intros Hwf Hq. unfold ParseQueries. destruct (clear_map_spec m Hwf) as (m0 & -> & Hwf0 & He0 & Hs0 & _). cbn [mbind option_bind].
  assert (forall k, get m0 k = None) as Hg0 by (intros k; unfold get; by rewrite He0).
  destruct q as [|c q]; [exists m0; split; [done|]; split; [done|]; split; [cbn; lia|done]|]. set (q1 := c :: q) in *. destruct (start_good (c_str q1)) as (h & -> & Hg & _ & Hp).
  pose proof (pairs_length (c_str q1)). pose proof (c_str_length q1).
  destruct (ParseQueries_loop_spec (c_str q1) (length (c_str q1)) h m0 Hg) as (m' & -> & Hwf' & Hs' & Hget); [rewrite Hp; lia|done|rewrite Hp; lia|]. rewrite Hp in *. exists m'. split; [done|]. split; [done|]. split; [lia|]. intros k. by rewrite Hget, Hg0.
Qed.
Lemma init_query_map_spec (m : QueryMap) : fresh m -> alloc 16 = true -> exists m', init_query_map alloc m = Some m' /\ wf m'.
Proof.
  intros (Hb & _ & Ht) Ha. unfold init_query_map. destruct (init_spec m QUERY_MAP_INITIAL_BUCKET 80 4) as (r & m' & -> & Hr); [done|done|done|done|lia|lia|done|]. cbn. destruct Hr as [[_ [H|[H _]]]|(_ & Hwf & _)]; [change (alloc 16 = false) in H; congruence|done|]. by exists m'.
Qed.
(** What reading the map keeps. *)
Definition same_queries (u u' : URI) : Prop := (forall k, queries u' k = queries u k) /\ bound u' <= bound u.
Lemma get_query_map_spec u : inv u -> alloc 16 = true -> bound u <= 2 ^ 50 ->
  exists u', get_query_map alloc u = Some u' /\ inv u' /\ _initialized_query_map u' = true /\ same_queries u u' /\ _query u' = _query u /\ _query_was_modified u' = _query_was_modified u.
Proof.
  intros [Hready Hnot] Ha Hb. unfold get_query_map, same_queries, bound, queries in *. destruct (_initialized_query_map u) eqn:Hi.
  { exists u. split; [done|]. split; [by split; rewrite Hi|]. split; [done|]. split; [rewrite Hi; split; [done|lia]|done]. }
  destruct (Hnot eq_refl) as [Hm Hmap]. unfold InitializeQueryMap.
  assert (exists m0, (if initialized (_query_map u) then Some (_query_map u) else init_query_map alloc (_query_map u)) = Some m0 /\ wf m0) as (m0 & -> & Hwf0).
  { destruct Hmap as [Hf|Hwf]; [|rewrite wf_initialized by done; eauto]. assert (initialized (_query_map u) = false) as -> by (destruct Hf as [Hf _]; unfold initialized; by rewrite Hf). by apply init_query_map_spec. }
  cbn [mbind option_bind]. destruct (ParseQueries_spec m0 (_query u) Hwf0 Hb) as (m & -> & Hwf & Hs & Hg). cbn [mbind option_bind]. eexists. split; [done|]. uri_simpl. split; [|split; [done|rewrite Hm; by split; [split|]]].
  split; uri_simpl; [|done]. intros _. split; [done|]. split; [|done]. intros k v. rewrite Hg. apply parse_map_clean.
Qed.

(** ** The operations *)
Inductive UOp := UGet (k : list Z) | USet (k v : list Z) | URemove (k : list Z) | UCount | UQuery.
Inductive URes := RValue (v : option (list Z)) | RDone | RNumber (n : Z) | RString (s : list Z).
Definition u_step (op : UOp) (u : URI) : option (URes * URI) :=
  match op with
  | UGet k => '(v, u') ← GetQuery alloc u k; Some (RValue v, u')
  | USet k v => u' ← SetQuery alloc u k v; Some (RDone, u')
  | URemove k => '(n, u') ← RemoveQuery alloc u k; Some (RNumber n, u')
  | UCount => '(n, u') ← QueryCount alloc u; Some (RNumber n, u')
  | UQuery => '(s, u') ← query alloc u; Some (RString s, u')
  end.
Definition clean_op (op : UOp) : Prop := match op with USet k v => clean (k, v) | _ => True end.
Definition mapping : Type := list Z -> option (list Z).
Definition u_spec (op : UOp) (f : mapping) : mapping := fun k' =>
  match op with
  | USet k v => if bool_decide (k = k') then Some v else f k'
  | URemove k => if bool_decide (k = k') then None else f k'
  | _ => f k'
  end.
Definition u_answers (op : UOp) (f : mapping) (r : URes) : Prop :=
  match op, r with
  | UGet k, RValue v => v = f k
  | USet _ _, RDone => True
  | URemove k, RNumber n => n = match f k with Some _ => 1 | None => 0 end
  | UCount, RNumber n => exists l : list (list Z * list Z), NoDup (map fst l) /\ n = Z.of_nat (length l) /\ forall k v, (k, v) ∈ l <-> f k = Some v
  | UQuery, RString s => forall k, parse_map s k = f k
  | _, _ => False
  end.
Lemma distinct_NoDup (l : list (list Z * list Z)) : distinct l -> NoDup (map fst l).
Proof.
  induction l as [|e l IH]; cbn [distinct map]; [constructor|]. intros [He Hl]. constructor; [|by apply IH]. intros Hin. apply list_elem_of_In, in_map_iff in Hin as (e' & Heq & Hin). apply find_in_None in He. rewrite List.Forall_forall in He. specialize (He e' Hin). cbn in He. by rewrite bool_decide_eq_false in He.
Qed.
Lemma map_elements (m : QueryMap) : wf m -> distinct (elems m) /\ _size m = Z.of_nat (length (elems m)) /\ visit m = Some (elems m) /\ forall k v, (k, v) ∈ elems m <-> get m k = Some v.
Proof.
  intros Hwf. pose proof Hwf as (bs & a & Hat). assert (distinct (elems m)) as Hd by (rewrite (elems_eq _ _ _ Hat); apply Hat). split; [done|]. split; [apply (size_get _ _ _ Hat)|]. split; [by apply visit_spec|].
  intros k v. split; [apply (find_in_distinct _ (k, v) Hd)|]. intros (e & He & Hk & <-)%find_in_elem. cbn in Hk. apply bool_decide_eq_true in Hk. subst k. by destruct e.
Qed.
Lemma elems_clean (m : QueryMap) : wf m -> (forall k v, get m k = Some v -> clean (k, v)) -> Forall clean (elems m).
Proof. intros Hwf Hclean. destruct (map_elements _ Hwf) as (_ & _ & _ & Hin). apply List.Forall_forall. intros [k' v] Hin'. apply Hclean, Hin. by apply list_elem_of_In. Qed.
Lemma append_query_string u out mark : wf (_query_map u) -> _initialized_query_map u = true ->
  AppendQueryString alloc u out mark = Some (match elems (_query_map u) with [] => out | _ => (if mark then out ++ [63] else out) ++ joined (elems (_query_map u)) end, u).
Proof.
  intros Hwf Hi. destruct (map_elements _ Hwf) as (Hd & Hs & Hv & Hin). unfold AppendQueryString, Queries, get_query_map, empty. rewrite Hi, Hs. cbn [mbind option_bind]. rewrite Hv. cbn [mbind option_bind]. destruct (elems (_query_map u)) as [|e l]; [done|]. cbn [length Z.of_nat Z.eqb]. by rewrite joined_app.
Qed.
Lemma joined_query u : wf (_query_map u) -> (forall k v, get (_query_map u) k = Some v -> clean (k, v)) -> _initialized_query_map u = true -> exists s, AppendQueryString alloc u [] false = Some (s, u) /\ forall k, parse_map s k = get (_query_map u) k.
Proof.
  intros Hwf Hclean Hi. destruct (map_elements _ Hwf) as (Hd & Hs & Hv & Hin). exists (joined (elems (_query_map u))). split.
  - rewrite append_query_string by done. by destruct (elems (_query_map u)).
  - intros k. unfold parse_map. rewrite parse_joined; [by apply find_in_last|by apply elems_clean].
Qed.
Lemma queries_ready u k : _initialized_query_map u = true -> queries u k = get (_query_map u) k.
Proof. unfold queries. by intros ->. Qed.
Lemma bound_ready u : _initialized_query_map u = true -> bound u = _size (_query_map u).
Proof. unfold bound. by intros ->. Qed.
Lemma obind_eq {A B} (o : option A) (f : A -> option B) x : o = Some x -> mbind f o = f x.
Proof. by intros ->. Qed.
Definition stepped (op : UOp) (u : URI) (r : URes) (u' : URI) : Prop :=
  inv u' /\ u_answers op (queries u) r /\ (forall k, queries u' k = u_spec op (queries u) k) /\ bound u' <= bound u + 1.
Section Step.
Context u (Hu : inv u) (Ha : alloc 16 = true) (Hb : bound u <= 2 ^ 50).
Lemma get_step k : exists r u', u_step (UGet k) u = Some (r, u') /\ stepped (UGet k) u r u'.
Proof.
  destruct (get_query_map_spec u Hu Ha Hb) as (u1 & Heq & Hinv & Hi & [Hq Hb1] & _). destruct (inv_ready _ Hinv Hi) as (Hwf & _). unfold u_step, GetQuery. rewrite Heq. cbn [mbind option_bind]. rewrite seek_spec by done. cbn [mbind option_bind].
  eexists _, _. split; [done|]. split; [done|]. cbn [u_answers u_spec]. rewrite <- Hq, queries_ready by done. split; [done|]. split; [done|lia].
Qed.
Lemma count_step : exists r u', u_step UCount u = Some (r, u') /\ stepped UCount u r u'.
Proof.
  destruct (get_query_map_spec u Hu Ha Hb) as (u1 & Heq & Hinv & Hi & [Hq Hb1] & _). destruct (inv_ready _ Hinv Hi) as (Hwf & _). destruct (map_elements _ Hwf) as (Hd & Hs & _ & Hin). unfold u_step, QueryCount, size. rewrite Heq. cbn [mbind option_bind].
  eexists _, _. split; [done|]. split; [done|]. cbn [u_answers u_spec]. split; [|split; [done|lia]]. exists (elems (_query_map u1)). split; [by apply distinct_NoDup|]. split; [done|]. intros k v. by rewrite Hin, <- Hq, queries_ready.
Qed.
Lemma set_step k v : clean (k, v) -> exists r u', u_step (USet k v) u = Some (r, u') /\ stepped (USet k v) u r u'.
Proof.
  intros Hc. destruct (get_query_map_spec u Hu Ha Hb) as (u1 & Heq & Hinv & Hi & [Hq Hb1] & _). destruct (inv_ready _ Hinv Hi) as (Hwf & Hclean & _). unfold u_step, SetQuery.
  destruct (insert_spec (_query_map u1) k v Hwf) as (m & Heqm & Hins); [rewrite (bound_ready u1 Hi) in Hb1; lia|]. destruct (insert_get _ _ _ _ Hins) as [Hs Hg]. rewrite (obind_eq _ _ _ Heq), (obind_eq _ _ _ Heqm). cbn [mbind option_bind]. eexists _, _. split; [done|]. rewrite Hi.
  assert (forall k', get m k' = u_spec (USet k v) (queries u) k') as Hspec by (intros k'; rewrite Hg; cbn [u_spec]; by rewrite <- Hq, queries_ready). split.
  - split; uri_simpl; [|done]. intros _. split; [apply Hins|]. split; [|done]. intros k' v'. rewrite Hspec. cbn [u_spec]. case_bool_decide as Hk; [intros [= <-]; by subst|]. rewrite <- Hq, queries_ready by done. apply Hclean.
  - split; [done|]. split; [exact Hspec|]. rewrite (bound_ready u1 Hi) in Hb1. unfold bound at 1. uri_simpl. lia.
Qed.
Lemma remove_step k : exists r u', u_step (URemove k) u = Some (r, u') /\ stepped (URemove k) u r u'.
Proof.
  destruct (get_query_map_spec u Hu Ha Hb) as (u1 & Heq & Hinv & Hi & [Hq Hb1] & _ & Hm). destruct (inv_ready _ Hinv Hi) as (Hwf & Hclean & Hsync). unfold u_step, RemoveQuery. rewrite Heq. cbn [mbind option_bind].
  destruct (erase_spec (_query_map u1) k Hwf) as (m & -> & Hwf' & Hg & Hs). cbn [mbind option_bind]. rewrite (bound_ready u1 Hi) in Hb1.
  assert (forall k', get m k' = u_spec (URemove k) (queries u) k') as Hspec by (intros k'; rewrite Hg; cbn [u_spec]; by rewrite <- Hq, queries_ready).
  assert (forall k' v', get m k' = Some v' -> clean (k', v')) as Hclean' by (intros k' v'; rewrite Hg; destruct (_eql k k'); [done|apply Hclean]).
  unfold stepped. cbn [u_answers]. rewrite <- Hq, queries_ready by done. destruct (get (_query_map u1) k) as [v|] eqn:Hgk; cbn [Z.eqb negb mbind option_bind]; eexists _, _; (split; [done|]); rewrite Hi; (split; [split; uri_simpl; [|done]; intros _; split; [done|]; split; [done|]|split; [done|]; split; [exact Hspec|unfold bound at 1; uri_simpl; lia]]).
  - done.
  - intros Hm' k'. rewrite Hsync by done. rewrite Hg. cbn [_eql query_params]. case_bool_decide as Hk; [by subst|done].
Qed.
Lemma query_step : exists r u', u_step UQuery u = Some (r, u') /\ stepped UQuery u r u'.
Proof.
  unfold u_step, query. destruct (_initialized_query_map u) eqn:Hi; [destruct (_query_was_modified u) eqn:Hm|]; cbn [andb mbind option_bind].
  - destruct (inv_ready _ Hu Hi) as (Hwf & Hclean & _). match goal with |- context [AppendQueryString alloc ?x (_query ?x) false] => change (_query x) with (@nil Z) end. destruct (joined_query (set_query (set_queries u false true (_query_map u)) [])) as (s & -> & Hs); [done|done|done|]. cbn [mbind option_bind]. eexists _, _. split; [done|].
    split; [split; uri_simpl; [by intros _|done]|]. unfold queries at 1, bound. cbn [u_answers u_spec]. rewrite Hi. split; [exact Hs|]. unfold queries. rewrite Hi. uri_simpl. split; [done|lia].
  - eexists _, _. split; [done|]. split; [done|]. split; [|split; [done|lia]]. cbn [u_answers]. intros k. rewrite queries_ready by done. by apply (inv_ready _ Hu Hi).
  - eexists _, _. split; [done|]. split; [done|]. split; [|split; [done|lia]]. cbn [u_answers]. intros k. unfold queries. by rewrite Hi.
Qed.
Lemma op_step op : clean_op op -> exists r u', u_step op u = Some (r, u') /\ stepped op u r u'.
Proof. destruct op; intros Hc; [apply get_step|by apply set_step|apply remove_step|apply count_step|apply query_step]. Qed.
End Step.

(** ** Sequences of operations *)
Fixpoint u_run (ops : list UOp) (u : URI) : option (list URes * URI) :=
  match ops with
  | [] => Some ([], u)
  | op :: ops' => '(r, u1) ← u_step op u; '(rs, u2) ← u_run ops' u1; Some (r :: rs, u2)
  end.
Fixpoint u_spec_run (ops : list UOp) (f : mapping) (rs : list URes) : Prop :=
  match ops, rs with
  | [], [] => True
  | op :: ops', r :: rs' => u_answers op f r /\ u_spec_run ops' (u_spec op f) rs'
  | _, _ => False
  end.
Abbreviation eqm := (pointwise_relation (list Z) (@eq (option (list Z)))).
#[local] Instance u_spec_proper op : Proper (eqm ==> eqm) (u_spec op).
Proof. intros f g Hfg k. destruct op; cbn [u_spec]; by rewrite ?Hfg. Qed.
#[local] Instance u_answers_proper op : Proper (eqm ==> eq ==> iff) (u_answers op).
Proof.
  intros f g Hfg r ? <-. destruct op, r; cbn [u_answers]; try done; try (by rewrite (Hfg k)).
  - split; intros (l & ? & ? & Hl); exists l; (split; [done|]); (split; [done|]); intros k v; [rewrite <- (Hfg k)|rewrite (Hfg k)]; apply Hl.
  - split; intros H k; [rewrite <- (Hfg k)|rewrite (Hfg k)]; apply H.
Qed.
#[local] Instance u_spec_run_proper ops : Proper (eqm ==> eq ==> iff) (u_spec_run ops).
Proof.
  induction ops as [|op ops IH]; intros f g Hfg rs ? <-; [done|]. destruct rs as [|r rs]; [done|]. cbn [u_spec_run]. by rewrite Hfg.
Qed.
Lemma u_run_refines ops u : inv u -> alloc 16 = true -> Forall clean_op ops -> bound u + Z.of_nat (length ops) <= 2 ^ 50 ->
  exists rs u', u_run ops u = Some (rs, u') /\ inv u' /\ u_spec_run ops (queries u) rs /\ forall k, queries u' k = foldl (fun f op => u_spec op f) (queries u) ops k.
Proof.
  intros Hu Ha Hops. revert u Hu. induction Hops as [|op ops Hop Hops IH]; intros u Hu Hb; [by exists [], u|]. cbn [length u_run] in *.
  destruct (op_step u Hu Ha ltac:(lia) op Hop) as (r & u1 & Heq & Hu1 & Hans & Hq & Hb1). destruct (IH u1 Hu1) as (rs & u' & Heq' & Hu' & Hrun & Hfin); [lia|]. exists (r :: rs), u'. rewrite (obind_eq _ _ _ Heq). rewrite (obind_eq _ _ _ Heq'). split; [done|]. split; [done|]. split.
  - cbn [u_spec_run]. split; [done|]. by rewrite (u_spec_run_proper ops (queries u1) (u_spec op (queries u)) Hq rs rs eq_refl) in Hrun.
  - intros k. rewrite Hfin. cbn [foldl]. assert (Proper (eqm ==> eqm) (fun f => foldl (fun f op => u_spec op f) f ops)) as Hproper; [|by apply Hproper].
    clear. intros f g Hfg. revert f g Hfg. induction ops as [|op ops IH]; intros f g Hfg; [done|]. cbn [foldl]. apply IH. by apply u_spec_proper.
Qed.
End Queries.

(** ** URIs that were parsed *)
Lemma parsed_flags u p : let u' := (parse_path u p).2 in _initialized_query_map u' = _initialized_query_map u /\ _query_was_modified u' = _query_was_modified u /\ _query_map u' = _query_map u.
Proof. unfold parse_path, parse_query, parse_fragment. by repeat (case_match; cbn). Qed.
Lemma parsed_inv alloc url r u : SetHttpURL URI_new url = Some (r, u) -> inv alloc u /\ _initialized_query_map u = false.
Proof.
  unfold SetHttpURL. cbn [Clear URI_new _query_map clear FlatMap_new _size Z.eqb mbind option_bind]. destruct (find_host_end _ _ _ _ _ _) as [[[[err scheme] user_info] start] p]. destruct err as [msg|].
  - intros [= <- <-]. split; [split; cbn; [done|]; intros _; split; [done|by left]|done].
  - destruct (SplitHostAndPort _) as [host port]. intros [= H]. match type of H with parse_path ?v _ = _ => pose proof (parsed_flags v p) as Hf; rewrite H in Hf end. cbn in Hf. destruct Hf as (H1 & H2 & H3). split; [|done]. split; rewrite H1, H2, H3; [done|]. intros _. split; [done|by left].
Qed.
(** C24: On a URI parsed from any URL, any sequence of GetQuery, SetQuery, RemoveQuery,
    QueryCount and query() is defined and behaves like one mapping from keys to values that
    starts with the pairs of the query, the last one of a key winning; every string query()
    returns parses back into the mapping of that moment. SetQuery gets keys that are not
    empty and have no NUL, = or &, and values without NUL or &, since query() does not
    escape them; the first buckets of the map can be allocated, and query length and
    operations are at most 2^50. *)
Theorem uri_queries_refine_mapping alloc url r u ops : SetHttpURL URI_new url = Some (r, u) -> alloc 16 = true -> Forall clean_op ops ->
  Z.of_nat (length (_query u) + length ops) <= 2 ^ 50 ->
  exists rs u', u_run alloc ops u = Some (rs, u') /\ u_spec_run ops (parse_map (_query u)) rs.
Proof.
  intros Hset Ha Hops Hb. destruct (parsed_inv alloc _ _ _ Hset) as [Hinv Hi]. destruct (u_run_refines alloc ops u Hinv Ha Hops) as (rs & u' & Heq & _ & Hrun & _); [unfold bound; rewrite Hi; lia|]. exists rs, u'. split; [done|].
  unfold queries in Hrun. rewrite Hi in Hrun. exact Hrun.
Qed.
(** http://a?k=1&k=2 *)
Definition url_k : list Z := [104; 116; 116; 112; 58; 47; 47; 97; 63; 107; 61; 49; 38; 107; 61; 50].
Lemma uri_queries_witness : exists rs u', (exists r u, SetHttpURL URI_new url_k = Some (r, u) /\ u_run (fun _ => true) [UGet [107]; USet [98] []; UQuery] u = Some (rs, u') /\
  u_spec_run [UGet [107]; USet [98] []; UQuery] (parse_map [107; 61; 49; 38; 107; 61; 50]) rs).
Proof.
  eassert (SetHttpURL URI_new url_k = Some (0, _)) as H by (vm_compute; reflexivity).
  destruct (uri_queries_refine_mapping (fun _ => true) _ _ _ [UGet [107]; USet [98] []; UQuery] H) as (rs & u' & H1 & H2); [reflexivity|repeat constructor; discriminate|cbn; lia|].
  exists rs, u'. do 2 eexists. split; [exact H|]. split; [exact H1|exact H2].
Defined.

(** ** Printing the current queries *)
Lemma print_queries_joined l : Forall clean l -> print_queries l = query_part (joined l) /\ (l <> [] -> joined l <> []).
Proof.
  intros Hl. destruct Hl as [|e l He Hl]; [done|]. destruct (append_pair_clean e He) as (Hne & _ & _). unfold print_queries, joined. cbn [foldl app].
  assert (forall q, (foldl (fun '(out, is_first) e => (out ++ (if is_first : bool then [63] else [amp]) ++ append_pair e, false)) (q, false) l).1 = foldl (fun q e => (q ++ [amp]) ++ append_pair e) q l) as ->.
  { clear. induction l as [|e l IH]; intros q; cbn [foldl]; [done|]. by rewrite IH, app_assoc. }
  assert (foldl (fun q e => (q ++ [amp]) ++ append_pair e) (append_pair e) l <> []) as Hj.
  { revert Hne. generalize (append_pair e). clear. induction l as [|e l IH]; intros q Hq; cbn [foldl]; [done|]. apply IH. by destruct q. }
  change (63 :: append_pair e) with ([63] ++ append_pair e). rewrite joined_app. by destruct (foldl _ _ l).
Qed.
(** Print and GenerateH2Path write the same text behind the host: the path, the string that
    query() returns at that moment and the fragment, whether the queries were modified or not. *)
Theorem printing_uses_the_current_queries alloc u : inv alloc u ->
  exists q u', query alloc u = Some (q, u') /\
    let text := default_path (_path u) ++ query_part q ++ fragment_part (_fragment u) in
    PrintWithoutHost alloc u = Some (text, u) /\ GenerateH2Path alloc u = Some (text, u).
Proof.
  intros Hu. unfold query, PrintWithoutHost, GenerateH2Path. fold (default_path (_path u)). destruct (_initialized_query_map u && _query_was_modified u) eqn:Hm.
  2:{ eexists _, _. split; [done|]. cbn [mbind option_bind]. split; [done|]. unfold query_part, fragment_part. destruct (_query u), (_fragment u); by rewrite ?app_nil_r, <- ?app_assoc. }
  apply andb_true_iff in Hm as [Hi Hm]. destruct (inv_ready _ _ Hu Hi) as (Hwf & Hclean & _). destruct (map_elements alloc _ Hwf) as (_ & _ & Hv & _). destruct (print_queries_joined _ (elems_clean alloc _ Hwf Hclean)) as [Hp Hne].
  exists (joined (elems (_query_map u))). eexists. split.
  - rewrite (obind_eq _ _ _ (append_query_string alloc (set_query (set_queries u false (_initialized_query_map u) (_query_map u)) []) _ false Hwf Hi)). cbv beta iota. uri_simpl. f_equal. f_equal. by destruct (elems (_query_map u)).
  - cbv zeta. unfold Queries, get_query_map. rewrite Hi. cbn [mbind option_bind]. rewrite (append_query_string alloc u _ true Hwf Hi). cbn [mbind option_bind]. rewrite Hv. cbn [mbind option_bind]. rewrite Hp. split; [done|]. f_equal. f_equal. fold (fragment_part (_fragment u)).
    assert ((match elems (_query_map u) with [] => default_path (_path u) | _ => (default_path (_path u) ++ [63]) ++ joined (elems (_query_map u)) end) = default_path (_path u) ++ query_part (joined (elems (_query_map u)))) as ->.
    { destruct (elems (_query_map u)) as [|e l]; [by rewrite app_nil_r|]. rewrite <- app_assoc. unfold query_part. by destruct (joined (e :: l)); [specialize (Hne ltac:(done))|]. }
    destruct (_fragment u); cbn [fragment_part]; by rewrite ?app_nil_r, <- ?app_assoc.
Qed.
(** The URI of [http://a?k=1], with the query changed to [k=2]. *)
Lemma printing_witness : exists u, SetQuery (fun _ => true) (set_query URI_new [107; 61; 49]) [107] [50] = Some u /\
  exists q u', query (fun _ => true) u = Some (q, u') /\ PrintWithoutHost (fun _ => true) u = Some (default_path [] ++ query_part q ++ [], u).
Proof.
  assert (inv (fun _ => true) (set_query URI_new [107; 61; 49])) as H0 by (split; cbn; [discriminate|]; intros _; split; [reflexivity|by left]).
  destruct (set_step (fun _ => true) _ H0 eq_refl ltac:(cbn; lia) [107] [50]) as (r & u & Heq & Hu & _); [split; [discriminate|split; reflexivity]|].
  unfold u_step in Heq. destruct (SetQuery _ _ _ _) as [u1|] eqn:E; [|discriminate]. injection Heq as _ <-. exists u1. split; [reflexivity|].
  destruct (printing_uses_the_current_queries (fun _ => true) u1 Hu) as (q & u' & H1 & H2 & _). exists q, u'. split; [exact H1|]. rewrite H2. vm_compute in E. injection E as <-. reflexivity.
Defined.
(** C40: Copying a URI whose queries were read and are empty gives a URI on which SetQuery is
    undefined, whatever key it sets: the copied map has no buckets but counts as initialized. *)
Theorem copied_uri_cannot_set_queries alloc u k v : _initialized_query_map u = true -> size (_query_map u) = 0 ->
  exists u', URI_copy alloc u = Some u' /\ GetQuery alloc u' k = Some (None, u') /\ SetQuery alloc u' k v = None.
Proof.
  unfold size. intros Hi Hs. unfold URI_copy, FlatMap_copy, assign, clear, empty. cbn [_size Z.eqb mbind option_bind]. rewrite Hs. cbn [mbind option_bind]. eexists. split; [done|]. unfold GetQuery, SetQuery, get_query_map. cbn [set_queries _initialized_query_map]. rewrite Hi. split; [done|].
  unfold insert. generalize resize_fuel. by intros [|fuel].
Qed.
Lemma copied_uri_witness : exists u u', GetQuery (fun _ => true) URI_new [107] = Some (None, u) /\ URI_copy (fun _ => true) u = Some u' /\ SetQuery (fun _ => true) u' [107] [118] = None.
Proof.
  eassert (GetQuery (fun _ => true) URI_new [107] = Some (None, _)) as H by (vm_compute; reflexivity).
  match type of H with _ = Some (_, ?u) => destruct (copied_uri_cannot_set_queries (fun _ => true) u [107] [118] eq_refl eq_refl) as (u' & H1 & _ & H2) end. eexists _, u'. split; [exact H|]. split; [exact H1|exact H2].
Defined.
End UriQuery.
