(* ===== verification/DoublyBuffered.v ===== *)
(** * DoublyBufferedData (butil/containers/doubly_buffered_data.h)

    Two instances of the data: readers use the foreground one, Modify changes the
    background one, flips the index, waits for the readers of the old foreground and changes
    that too.  Tasks are pthreads, or bthreads when reads may be suspended
    ([AllowBthreadSuspended]); a Wrapper belongs to a pthread and is named by it.  Every
    access to what tasks share is a step, in any interleaving; the last access of a critical
    section releases its mutex in the same step.  A call of the user's function is two steps,
    so that other tasks run while the instance is being written.  A condition variable wakes
    whoever sleeps on it when it is signalled, and may wake a task at any time.  Memory
    suffices, and there are fewer than 2^31 readers, so that [_ref] does not overflow. *)
From stdpp Require Import base functions list.
From Stdlib Require Import ZArith Lia Bool.
From S2P Require Import Prelude.

Open Scope Z_scope.

Module DoublyBuffered.

Section Model.
Context {T : Type}.
(** The template argument, and whether a pthread exits only when no task reads through its
    Wrapper. *)
Context (AllowBthreadSuspended orderly : bool).

(** The function of a Modify: the new instance and the result. *)
Abbreviation Fn := (T -> T * Z).
Record Wrapper := mkW { _control : bool; _mutex : option nat; _ref : bool -> Z; _modify_wait : bool }.
(** Instances and indexes 0 and 1 are [false] and [true]; mutexes name their owners. *)
Record DoublyBufferedData := mkD { _data : bool -> T; _index : bool; _wrappers : list nat; _wrappers_mutex : option nat; _modify_mutex : option nat;
  tls : nat -> Wrapper; exited : nat -> bool }.

(** Who called WaitReadDone(index). *)
Inductive Caller := ByModify (f : Fn) (bg : bool) (ret : Z) (n : nat) | ByExit (index : bool).
Inductive pc :=
  | Idle
  | Add0 (w : nat)                                 (* AddWrapper: test _control *)
  | Add1 (w : nat)                                 (* lock _wrappers_mutex *)
  | Add2 (w : nat)                                 (* push_back *)
  | Begin0 (w : nat)                               (* BeginRead: lock _mutex *)
  | Begin1 (w : nat)                               (* UnsafeRead: load _index *)
  | Begin2 (w : nat) (i : bool) (v : T)            (* AddRef, BeginReadRelease *)
  | Reading (w : nat) (i : bool) (v : T)           (* the ScopedPtr is alive; v is what it pointed to at first *)
  | End0 (w : nat) (i : bool) (v : T)              (* EndRead: lock _mutex *)
  | End1 (w : nat) (i : bool) (v : T)              (* SubRef, SignalReadCond *)
  | Mod0 (f : Fn)                                  (* lock _modify_mutex *)
  | Mod1 (f : Fn)                                  (* load _index *)
  | Mod2 (f : Fn) (bg : bool)                      (* in fn(_data[bg_index]) *)
  | Mod3 (f : Fn) (bg : bool) (ret : Z)            (* store _index *)
  | Mod4 (f : Fn) (bg : bool) (ret : Z)            (* lock _wrappers_mutex; bg is flipped *)
  | Mod5 (f : Fn) (bg : bool) (ret : Z) (n : nat)  (* the loop, at _wrappers[n] *)
  | Mod6 (f : Fn) (bg : bool) (ret : Z)            (* in fn(_data[bg_index]) again *)
  | Wait0 (w : nat) (i : bool) (k : Caller)        (* WaitReadDone: lock _mutex *)
  | Wait1 (w : nat) (i : bool) (k : Caller)        (* test of the count *)
  | Asleep (w : nat) (i : bool) (k : Caller)       (* pthread_cond_wait *)
  | Exit0 (w : nat)                                (* RemoveWrapper: lock _wrappers_mutex *)
  | Exit1 (w : nat).                               (* remove *)
Record state := mkS { dbd : DoublyBufferedData; tasks : list pc }.

Definition set_data (i : bool) (x : T) (d : DoublyBufferedData) := mkD (<[i := x]> (_data d)) (_index d) (_wrappers d) (_wrappers_mutex d) (_modify_mutex d) (tls d) (exited d).
Definition set_index (i : bool) (d : DoublyBufferedData) := mkD (_data d) i (_wrappers d) (_wrappers_mutex d) (_modify_mutex d) (tls d) (exited d).
Definition set_wrappers (l : list nat) (d : DoublyBufferedData) := mkD (_data d) (_index d) l (_wrappers_mutex d) (_modify_mutex d) (tls d) (exited d).
Definition set_wrappers_mutex (o : option nat) (d : DoublyBufferedData) := mkD (_data d) (_index d) (_wrappers d) o (_modify_mutex d) (tls d) (exited d).
Definition set_modify_mutex (o : option nat) (d : DoublyBufferedData) := mkD (_data d) (_index d) (_wrappers d) (_wrappers_mutex d) o (tls d) (exited d).
Definition set_tls (w : nat) (x : Wrapper) (d : DoublyBufferedData) := mkD (_data d) (_index d) (_wrappers d) (_wrappers_mutex d) (_modify_mutex d) (<[w := x]> (tls d)) (exited d).
Definition set_exited (w : nat) (d : DoublyBufferedData) := mkD (_data d) (_index d) (_wrappers d) (_wrappers_mutex d) (_modify_mutex d) (tls d) (<[w := true]> (exited d)).
Definition set_control (x : Wrapper) := mkW true (_mutex x) (_ref x) (_modify_wait x).
Definition set_mutex (o : option nat) (x : Wrapper) := mkW (_control x) o (_ref x) (_modify_wait x).
Definition set_ref (i : bool) (n : Z) (x : Wrapper) := mkW (_control x) (_mutex x) (<[i := n]> (_ref x)) (_modify_wait x).
Definition set_modify_wait (b : bool) (x : Wrapper) := mkW (_control x) (_mutex x) (_ref x) b.
Definition upd_w (w : nat) (g : Wrapper -> Wrapper) (d : DoublyBufferedData) := set_tls w (g (tls d w)) d.
Definition free (o : option nat) : bool := match o with None => true | Some _ => false end.

(** ** Events *)
(** A read got its instance; what it sees there; a modification was published; Modify returned. *)
Inductive event := EBegin (t : nat) (v : T) | ESee (t : nat) (v : T) | ECommit (t : nat) (f : Fn) | EReturn (t : nat) (f : Fn) (ret : Z).

(** ** Steps *)
(** RemoveWrapper moves the last one to the place of the removed one. *)
Fixpoint replace_first (w x : nat) (l : list nat) : list nat := match l with [] => [] | y :: l' => if (y =? w)%nat then x :: l' else y :: replace_first w x l' end.
Definition remove_wrapper (w : nat) (l : list nat) : list nat :=
  match last l with
  | Some x => if bool_decide (w ∈ l) then removelast (replace_first w x l) else l
  | None => l
  end.
(** Who sleeps on [_cond[i]] of [w] wakes and locks the mutex again. *)
Definition wake (w : nat) (i : bool) (p : pc) : pc :=
  match p with Asleep w' i' k => if (w =? w')%nat && eqb i i' then Wait0 w' i' k else p | _ => p end.
(** The end of WaitReadDone. *)
Definition after_wait (w : nat) (k : Caller) : pc :=
  match k with
  | ByModify f bg ret n => Mod5 f bg ret (S n)
  | ByExit false => Wait0 w true (ByExit true)
  | ByExit true => Idle
  end.
(** The pthread that runs a task: it runs no other one until the task may be suspended. *)
Definition on_thread (p : pc) : option nat :=
  match p with
  | Add0 w | Add1 w | Add2 w | Begin0 w | Begin1 w | Begin2 w _ _ => Some w
  | Reading w _ _ => if AllowBthreadSuspended then None else Some w
  | _ => None
  end.
(** The Wrapper a task reads through. *)
Definition touches (p : pc) : option nat :=
  match p with
  | Add0 w | Add1 w | Add2 w | Begin0 w | Begin1 w | Begin2 w _ _ | Reading w _ _ | End0 w _ _ | End1 w _ _ => Some w
  | _ => None
  end.
Definition none_at (h : pc -> option nat) (w : nat) (ps : list pc) : bool := forallb (fun p => negb (bool_decide (h p = Some w))) ps.

(** One step of the task [t] at [p]: shared state, its own next step, the other tasks, events;
    [None] when it has to wait. *)
Definition result : Type := DoublyBufferedData * pc * list pc * list event.
Definition go (d : DoublyBufferedData) (p : pc) (ps : list pc) : option result := Some (d, p, ps, []).
Definition AddWrapper_step (t : nat) (p : pc) (d : DoublyBufferedData) (ps : list pc) : option result :=
  match p with
  | Add0 w => if _control (tls d w) then go d (Begin0 w) ps else go (upd_w w set_control d) (Add1 w) ps
  | Add1 w => if free (_wrappers_mutex d) then go (set_wrappers_mutex (Some t) d) (Add2 w) ps else None
  | Add2 w => go (set_wrappers_mutex None (set_wrappers (_wrappers d ++ [w]) d)) (Begin0 w) ps
  | _ => None
  end.
(** [EndRead(index)] *)
Definition EndRead_step (t : nat) (p : pc) (d : DoublyBufferedData) (ps : list pc) : option result :=
  match p with
  | End0 w i v => if free (_mutex (tls d w)) then go (upd_w w (set_mutex (Some t)) d) (End1 w i v) ps else None
  | End1 w i v =>
      let n := _ref (tls d w) i - 1 in
      go (upd_w w (fun x => set_mutex None (set_ref i n x)) d) Idle (if (n =? 0) && _modify_wait (tls d w) then map (wake w i) ps else ps)
  | _ => None
  end.
Definition Read_step (t : nat) (p : pc) (d : DoublyBufferedData) (ps : list pc) : option result :=
  match p with
  | Add0 _ | Add1 _ | Add2 _ => AddWrapper_step t p d ps
  | Begin0 w => if free (_mutex (tls d w)) then go (upd_w w (set_mutex (Some t)) d) (Begin1 w) ps else None
  | Begin1 w =>
      let i := _index d in
      Some (d, if AllowBthreadSuspended then Begin2 w i (_data d i) else Reading w i (_data d i), ps, [EBegin t (_data d i)])
  | Begin2 w i v => go (upd_w w (fun x => set_mutex None (set_ref i (_ref x i + 1) x)) d) (Reading w i v) ps
  | End0 _ _ _ | End1 _ _ _ => EndRead_step t p d ps
  | _ => None
  end.
Definition Wait_step (t : nat) (p : pc) (d : DoublyBufferedData) (ps : list pc) : option result :=
  match p with
  | Wait0 w i k => if free (_mutex (tls d w)) then go (upd_w w (set_mutex (Some t)) d) (Wait1 w i k) ps else None
  | Wait1 w i k =>
      if AllowBthreadSuspended && negb (_ref (tls d w) i =? 0)
      then go (upd_w w (fun x => set_mutex None (set_modify_wait true x)) d) (Asleep w i k) ps
      else go (upd_w w (fun x => set_mutex None (set_modify_wait false x)) d) (after_wait w k) ps
  | Asleep w i k => go d (Wait0 w i k) ps
  | _ => None
  end.
Definition Modify_step (t : nat) (p : pc) (d : DoublyBufferedData) (ps : list pc) : option result :=
  match p with
  | Mod0 f => if free (_modify_mutex d) then go (set_modify_mutex (Some t) d) (Mod1 f) ps else None
  | Mod1 f => go d (Mod2 f (negb (_index d))) ps
  | Mod2 f bg =>
      let '(x, ret) := f (_data d bg) in
      if ret =? 0 then Some (set_modify_mutex None (set_data bg x d), Idle, ps, [EReturn t f 0]) else go (set_data bg x d) (Mod3 f bg ret) ps
  | Mod3 f bg ret => Some (set_index bg d, Mod4 f (negb bg) ret, ps, [ECommit t f])
  | Mod4 f bg ret => if free (_wrappers_mutex d) then go (set_wrappers_mutex (Some t) d) (Mod5 f bg ret 0) ps else None
  | Mod5 f bg ret n =>
      match _wrappers d !! n with
      | Some w => go d (Wait0 w bg (ByModify f bg ret n)) ps
      | None => go (set_wrappers_mutex None d) (Mod6 f bg ret) ps
      end
  | Mod6 f bg ret => let '(x, ret2) := f (_data d bg) in Some (set_modify_mutex None (set_data bg x d), Idle, ps, [EReturn t f ret2])
  | _ => None
  end.
(** ~Wrapper when a pthread exits. *)
Definition Exit_step (t : nat) (p : pc) (d : DoublyBufferedData) (ps : list pc) : option result :=
  match p with
  | Exit0 w => if _control (tls d w) then (if free (_wrappers_mutex d) then go (set_wrappers_mutex (Some t) d) (Exit1 w) ps else None)
               else go d (if AllowBthreadSuspended then Wait0 w false (ByExit false) else Idle) ps
  | Exit1 w => go (set_wrappers_mutex None (set_wrappers (remove_wrapper w (_wrappers d)) d)) (if AllowBthreadSuspended then Wait0 w false (ByExit false) else Idle) ps
  | _ => None
  end.
Inductive choice := CRead (w : nat) | CModify (f : Fn) | CExit (w : nat) | CSee | CEnd | CGo.
(** What a task starts, or its next step. *)
Definition task_step (t : nat) (c : choice) (p : pc) (d : DoublyBufferedData) (ps : list pc) : option result :=
  match p, c with
  | Idle, CRead w => if negb (exited d w) && none_at on_thread w ps then go d (Add0 w) ps else None
  | Idle, CModify f => go d (Mod0 f) ps
  | Idle, CExit w =>
      if negb (exited d w) && none_at on_thread w ps && (negb orderly || none_at touches w ps)
      then go (set_exited w d) (Exit0 w) ps else None
  | Reading w i v, CSee => Some (d, p, ps, [ESee t (_data d i)])
  | Reading w i v, CEnd => if AllowBthreadSuspended then go d (End0 w i v) ps else go (upd_w w (set_mutex None) d) Idle ps
  | (Add0 _ | Add1 _ | Add2 _ | Begin0 _ | Begin1 _ | Begin2 _ _ _ | End0 _ _ _ | End1 _ _ _), CGo => Read_step t p d ps
  | (Wait0 _ _ _ | Wait1 _ _ _ | Asleep _ _ _), CGo => Wait_step t p d ps
  | (Mod0 _ | Mod1 _ | Mod2 _ _ | Mod3 _ _ _ | Mod4 _ _ _ | Mod5 _ _ _ _ | Mod6 _ _ _), CGo => Modify_step t p d ps
  | (Exit0 _ | Exit1 _), CGo => Exit_step t p d ps
  | _, _ => None
  end.
Definition step (s : state) (tc : nat * choice) : state * list event :=
  match (p ← tasks s !! tc.1; task_step tc.1 tc.2 p (dbd s) (tasks s)) with
  | Some (d, p', ps, evs) => (mkS d (<[tc.1 := p']> ps), evs)
  | None => (s, [])
  end.
Fixpoint run (cs : list (nat * choice)) (s : state) : state * list event :=
  match cs with
  | [] => (s, [])
  | c :: cs' => let '(s1, e1) := step s c in let '(s2, e2) := run cs' s1 in (s2, e1 ++ e2)
  end.
Definition DoublyBufferedData_new (x : T) : DoublyBufferedData := mkD (fun _ => x) false [] None None (fun _ => mkW false None (fun _ => 0) false) (fun _ => false).
Definition start (n : nat) (x : T) : state := mkS (DoublyBufferedData_new x) (replicate n Idle).
End Model.
End DoublyBuffered.
