(* ===== verification/DoublyBufferedInv.v ===== *)
(** * DoublyBufferedData: the invariant

    What holds between the steps: who owns the mutexes, who is counted, which readers of the
    old instance a Modify still has to wait for, and how the two instances relate to the
    current value.  Threads exit in order: nobody reads through their Wrappers. *)
From stdpp Require Import base functions list.
From Stdlib Require Import ZArith Lia Bool.
From S2P Require Import Prelude DoublyBuffered.

Open Scope Z_scope.

Module DoublyBufferedInv.
Import DoublyBuffered.

Section Inv.
Context {T : Type} (susp : bool).
Abbreviation pc := (@pc T).
Abbreviation event := (@event T).
Abbreviation Fn := (T -> T * Z).
Abbreviation DBD := (@DoublyBufferedData T).
Abbreviation on_thread := (on_thread susp).

(** ** The specification: one value, snapshots of it, and results of modifications *)
Record spec := mkSpec { cur : T; snap : nat -> option T; ret_of : nat -> option Z }.
Definition accepts (e : event) (sp : spec) : Prop :=
  match e with
  | EBegin t v => v = cur sp
  | ESee t v => snap sp t = Some v
  | ECommit t f => (f (cur sp)).2 <> 0 /\ ret_of sp t = None
  | EReturn t f ret => if ret =? 0 then ret_of sp t = None /\ (f (cur sp)).2 = 0 else ret_of sp t = Some ret
  end.
Definition after (e : event) (sp : spec) : spec :=
  match e with
  | EBegin t v => mkSpec (cur sp) (<[t := Some v]> (snap sp)) (ret_of sp)
  | ESee t v => sp
  | ECommit t f => mkSpec (f (cur sp)).1 (snap sp) (<[t := Some (f (cur sp)).2]> (ret_of sp))
  | EReturn t f ret => mkSpec (cur sp) (snap sp) (<[t := None]> (ret_of sp))
  end.
Fixpoint accepts_all (es : list event) (sp : spec) : Prop := match es with [] => True | e :: es' => accepts e sp /\ accepts_all es' (after e sp) end.
Definition after_all (es : list event) (sp : spec) : spec := foldl (fun sp e => after e sp) sp es.
(** A function that returns 0 leaves the instance as it is. *)
Definition honest (f : Fn) : Prop := forall x, (f x).2 = 0 -> (f x).1 = x.

(** ** What a task at a step has *)
Definition by_modify (k : @Caller T) : bool := match k with ByModify _ _ _ _ => true | ByExit _ => false end.
Definition holds_modify (p : pc) : bool :=
  match p with Mod1 _ | Mod2 _ _ | Mod3 _ _ _ | Mod4 _ _ _ | Mod5 _ _ _ _ | Mod6 _ _ _ => true | Wait0 _ _ k | Wait1 _ _ k | Asleep _ _ k => by_modify k | _ => false end.
Definition holds_wrappers (p : pc) : bool :=
  match p with Add2 _ | Mod5 _ _ _ _ | Exit1 _ => true | Wait0 _ _ k | Wait1 _ _ k | Asleep _ _ k => by_modify k | _ => false end.
Definition holds (p : pc) : option nat :=
  match p with Begin1 w | Begin2 w _ _ | End1 w _ _ | Wait1 w _ _ => Some w | Reading w _ _ => if susp then None else Some w | _ => None end.
Definition reads (p : pc) : option (nat * bool * T) :=
  match p with Begin2 w i v | Reading w i v | End0 w i v | End1 w i v => Some (w, i, v) | _ => None end.
Definition uses (p : pc) : option nat :=
  match p with Begin0 w | Begin1 w | Begin2 w _ _ | Reading w _ _ | End0 w _ _ | End1 w _ _ => Some w | _ => None end.
Definition counts (w : nat) (i : bool) (p : pc) : bool :=
  match p with Reading w' i' _ | End0 w' i' _ | End1 w' i' _ => (w =? w')%nat && eqb i i' | _ => false end.
Definition fn_of (p : pc) : option Fn :=
  match p with
  | Mod0 f | Mod1 f | Mod2 f _ | Mod3 f _ _ | Mod4 f _ _ | Mod5 f _ _ _ | Mod6 f _ _ => Some f
  | Wait0 _ _ (ByModify f _ _ _) | Wait1 _ _ (ByModify f _ _ _) | Asleep _ _ (ByModify f _ _ _) => Some f
  | _ => None
  end.
Definition exiting (p : pc) : option nat :=
  match p with Exit0 w | Exit1 w | Wait0 w _ (ByExit _) | Wait1 w _ (ByExit _) | Asleep w _ (ByExit _) => Some w | _ => None end.
(** Steps of suspendable reads only. *)
Definition suspendable (p : pc) : bool := match p with Begin2 _ _ _ | End0 _ _ _ | End1 _ _ _ | Asleep _ _ _ => true | _ => false end.

Record task_ok (d : DBD) (sp : spec) (t : nat) (p : pc) : Prop := mkOk {
  ok_modify : holds_modify p = true -> _modify_mutex d = Some t;
  ok_wrappers : holds_wrappers p = true -> _wrappers_mutex d = Some t;
  ok_mutex w : holds p = Some w -> _mutex (tls d w) = Some t;
  ok_reads w i v : reads p = Some (w, i, v) -> _data d i = v /\ snap sp t = Some v;
  ok_uses w : uses p = Some w -> w ∈ _wrappers d;
  ok_touches w : touches p = Some w -> exited d w = false;
  ok_exit w : exiting p = Some w -> exited d w = true;
  ok_susp : suspendable p = true -> susp = true;
  ok_asleep w i k : p = Asleep w i k -> _ref (tls d w) i <> 0 /\ _modify_wait (tls d w) = true;
  ok_fn f : fn_of p = Some f -> honest f;
  ok_ret : holds_modify p = false -> ret_of sp t = None }.

Fixpoint tally (f : pc -> bool) (l : list pc) : Z := match l with [] => 0 | p :: l' => (if f p then 1 else 0) + tally f l' end.

(** Readers of the instance that is not the foreground are on these Wrappers. *)
Definition stale_in (l : list nat) (d : DBD) (ps : list pc) : Prop :=
  forall t p w v, ps !! t = Some p -> reads p = Some (w, negb (_index d), v) -> w ∈ l.
Definition quiet (d : DBD) (ps : list pc) (sp : spec) : Prop := (forall i, _data d i = cur sp) /\ stale_in [] d ps.
(** After the flip: the background is one modification behind. *)
Definition behind (f : Fn) (bg : bool) (ret : Z) (d : DBD) (sp : spec) (t : nat) : Prop :=
  bg = negb (_index d) /\ _data d (_index d) = cur sp /\ f (_data d bg) = (cur sp, ret) /\ ret <> 0 /\ ret_of sp t = Some ret.
Definition phase (d : DBD) (ps : list pc) (sp : spec) (t : nat) (p : pc) : Prop :=
  match p with
  | Mod1 f => quiet d ps sp /\ ret_of sp t = None
  | Mod2 f bg => quiet d ps sp /\ ret_of sp t = None /\ bg = negb (_index d)
  | Mod3 f bg ret => bg = negb (_index d) /\ _data d (_index d) = cur sp /\ f (cur sp) = (_data d bg, ret) /\ ret <> 0 /\ stale_in [] d ps /\ ret_of sp t = None
  | Mod4 f bg ret => behind f bg ret d sp t /\ stale_in (_wrappers d) d ps
  | Mod5 f bg ret n => behind f bg ret d sp t /\ stale_in (drop n (_wrappers d)) d ps
  | Mod6 f bg ret => behind f bg ret d sp t /\ stale_in [] d ps
  | Wait0 w i (ByModify f bg ret n) | Wait1 w i (ByModify f bg ret n) | Asleep w i (ByModify f bg ret n) =>
      i = bg /\ _wrappers d !! n = Some w /\ behind f bg ret d sp t /\ stale_in (drop n (_wrappers d)) d ps
  | _ => False
  end.
Record inv (d : DBD) (ps : list pc) (sp : spec) : Prop := mkInv {
  g_task t p : ps !! t = Some p -> task_ok d sp t p;
  g_thread t t' p p' w : ps !! t = Some p -> ps !! t' = Some p' -> on_thread p = Some w -> on_thread p' = Some w -> t = t';
  g_control w : _control (tls d w) = true -> exited d w = true \/ w ∈ _wrappers d \/ exists t p, ps !! t = Some p /\ (p = Add1 w \/ p = Add2 w);
  g_ref : susp = true -> forall w i, _ref (tls d w) i = tally (counts w i) ps;
  g_phase : match _modify_mutex d with None => quiet d ps sp | Some t => exists p, ps !! t = Some p /\ phase d ps sp t p end }.

(** ** Counting *)
Lemma tally_insert f ps t p p' : ps !! t = Some p -> tally f (<[t := p']> ps) = tally f ps - (if f p then 1 else 0) + (if f p' then 1 else 0).
Proof.
  revert t. induction ps as [|q ps IH]; intros [|t]; cbn [lookup list_lookup]; [done|done| |].
  - intros [= ->]. cbn. lia.
  - intros H. change (<[S t := p']> (q :: ps)) with (q :: <[t := p']> ps). cbn [tally]. rewrite (IH t H). lia.
Qed.
Lemma tally_nonneg f ps : 0 <= tally f ps.
Proof. induction ps as [|p ps IH]; cbn; [lia|]. destruct (f p); lia. Qed.
Lemma tally_pos f ps : 0 < tally f ps <-> exists t p, ps !! t = Some p /\ f p = true.
Proof.
  split.
  - induction ps as [|q ps IH]; cbn; [lia|]. destruct (f q) eqn:Hq; [intros _; by exists 0%nat, q|]. intros H. destruct IH as (t & p & ? & ?); [lia|]. by exists (S t), p.
  - intros (t & p & Hp & Hf). revert t Hp. induction ps as [|q ps IH]; intros [|t]; cbn; [done|done| |].
    + intros [= ->]. rewrite Hf. pose proof (tally_nonneg f ps). lia.
    + intros Hp. specialize (IH t Hp). destruct (f q); lia.
Qed.
Lemma tally_map f g ps : (forall p, f (g p) = f p) -> tally f (map g ps) = tally f ps.
Proof. intros H. induction ps as [|p ps IH]; cbn; [done|]. by rewrite H, IH. Qed.

(** ** Waking is harmless *)
Lemma wake_same w i p : let p' := wake w i p in
  holds_modify p' = holds_modify p /\ holds_wrappers p' = holds_wrappers p /\ holds p' = holds p /\ reads p' = reads p /\ uses p' = uses p /\ touches p' = touches p /\
  exiting p' = exiting p /\ (suspendable p' = true -> suspendable p = true) /\ fn_of p' = fn_of p /\ on_thread p' = on_thread p /\ (forall w i, counts w i p' = counts w i p) /\
  (forall d ps sp t, phase d ps sp t p' <-> phase d ps sp t p) /\ (p' = p \/ exists w i k, p = Asleep w i k /\ p' = Wait0 w i k).
Proof.
  unfold wake. destruct p; try (split_and!; try done; by left). destruct (_ && _); [|split_and!; try done; by left]. split_and!; try done. right. by eexists _, _, _.
Qed.
Lemma wake_at w i (ps : list pc) t : map (wake w i) ps !! t = wake w i <$> ps !! t.
Proof. apply list_lookup_fmap. Qed.
Lemma wake_lookup w i (ps : list pc) t p' : map (wake w i) ps !! t = Some p' -> exists p, ps !! t = Some p /\ p' = wake w i p.
Proof. rewrite wake_at. destruct (ps !! t) as [p|]; [|done]. intros [= <-]. by exists p. Qed.
Lemma wake_stale w i l d (ps : list pc) : stale_in l d ps -> stale_in l d (map (wake w i) ps).
Proof.
  intros H t p' w' v Hp Hr. apply wake_lookup in Hp as (p & Hp & ->). destruct (wake_same w i p) as (_ & _ & _ & Hreads & _). rewrite Hreads in Hr. by eapply H.
Qed.
Lemma wake_phase w i d (ps : list pc) sp t p : phase d ps sp t p -> phase d (map (wake w i) ps) sp t p.
Proof.
  destruct p; cbn [phase]; try done; try destruct k; unfold quiet; try tauto; intros H; decompose [and] H; split_and!; try done; by apply wake_stale.
Qed.
Lemma wake_inv w i d ps sp : inv d ps sp -> inv d (map (wake w i) ps) sp.
Proof.
  intros [Htask Hthr Hctl Href Hph]. split.
  - intros t p' Hp. apply wake_lookup in Hp as (p & Hp & ->). destruct (Htask t p Hp) as [H1 H2 H3 H4 H5 H6 H7 H8 H9 H10 H11]. destruct (wake_same w i p) as (E1 & E2 & E3 & E4 & E5 & E6 & E7 & E8 & E9 & _ & _ & _ & E10).
    split; rewrite ?E1, ?E2, ?E3, ?E4, ?E5, ?E6, ?E7, ?E9; auto. intros w' i' k' Hw. destruct E10 as [Eq|(? & ? & ? & _ & Eq)]; rewrite Eq in Hw; [by eapply H9|done].
  - intros t t' p p' w' Hp Hp' Ho Ho'. apply wake_lookup in Hp as (q & Hq & ->), Hp' as (q' & Hq' & ->). destruct (wake_same w i q) as (_ & _ & _ & _ & _ & _ & _ & _ & _ & E & _). destruct (wake_same w i q') as (_ & _ & _ & _ & _ & _ & _ & _ & _ & E' & _). rewrite E in Ho. rewrite E' in Ho'. by eapply Hthr.
  - intros w' Hw. destruct (Hctl w' Hw) as [?|[?|(t & p & Hp & Hadd)]]; [by left|right; by left|right; right]. exists t, (wake w i p). split; [|by destruct Hadd as [-> | ->]; cbn; auto]. rewrite wake_at, Hp. done.
  - intros Hs w' i'. rewrite (Href Hs w' i'). symmetry. apply tally_map. intros p. destruct (wake_same w i p) as (_ & _ & _ & _ & _ & _ & _ & _ & _ & _ & E & _). apply E.
  - destruct (_modify_mutex d) as [t|].
    + destruct Hph as (p & Hp & Hph). exists (wake w i p). rewrite wake_at, Hp. split; [done|]. destruct (wake_same w i p) as (_ & _ & _ & _ & _ & _ & _ & _ & _ & _ & _ & E & _). apply E. by apply wake_phase.
    + destruct Hph as [Hd Hst]. split; [done|]. by apply wake_stale.
Qed.

(** ** A step of one task *)
Definition lock_ok (t : nat) (o o' : option nat) : Prop := o' = o \/ o = None \/ o = Some t.
(** The changes that other tasks do not notice. *)
Record unnoticed (t : nat) (d d' : DBD) (ps : list pc) (sp sp' : spec) : Prop := mkUn {
  u_modify : lock_ok t (_modify_mutex d) (_modify_mutex d');
  u_wrappers : lock_ok t (_wrappers_mutex d) (_wrappers_mutex d');
  u_mutex w : lock_ok t (_mutex (tls d w)) (_mutex (tls d' w));
  u_data t' p w i v : t' <> t -> ps !! t' = Some p -> reads p = Some (w, i, v) -> _data d' i = _data d i;
  u_snap t' : t' <> t -> snap sp' t' = snap sp t' /\ ret_of sp' t' = ret_of sp t';
  u_member w : w ∈ _wrappers d -> w ∈ _wrappers d' \/ exited d w = true;
  u_exited w : exited d' w = exited d w \/ (exited d' w = true /\ forall t' p, t' <> t -> ps !! t' = Some p -> touches p <> Some w);
  u_asleep t' w i k : t' <> t -> ps !! t' = Some (Asleep w i k) -> _ref (tls d' w) i <> 0 /\ _modify_wait (tls d' w) = true }.
Lemma lock_other t t' o o' : lock_ok t o o' -> t' <> t -> o = Some t' -> o' = Some t'.
Proof. intros [->|[->| ->]] Hne; congruence. Qed.
Lemma uses_touches (p : pc) w : uses p = Some w -> touches p = Some w.
Proof. by destruct p. Qed.
Lemma others_ok t t' d d' ps sp sp' p : unnoticed t d d' ps sp sp' -> t' <> t -> ps !! t' = Some p -> task_ok d sp t' p -> task_ok d' sp' t' p.
Proof.
  intros [U1 U2 U3 U4 U5 U6 U7 U8] Hne Hp [H1 H2 H3 H4 H5 H6 H7 H8 H9 H10 H11]. destruct (U5 t' Hne) as [Es Er]. split.
  - intros H. eapply lock_other; [exact U1|done|auto].
  - intros H. eapply lock_other; [exact U2|done|auto].
  - intros w H. eapply lock_other; [exact (U3 w)|done|auto].
  - intros w i v H. destruct (H4 w i v H) as [Hd Hs]. rewrite Es. split; [|done]. rewrite <- Hd. by eapply U4.
  - intros w H. destruct (U6 w (H5 w H)) as [?|He]; [done|]. specialize (H6 w (uses_touches _ _ H)). congruence.
  - intros w H. destruct (U7 w) as [->|[_ Hno]]; [auto|]. exfalso. by eapply Hno.
  - intros w H. destruct (U7 w) as [->|[-> _]]; auto.
  - done.
  - intros w i k ->. by eapply U8.
  - done.
  - rewrite Er. done.
Qed.
Lemma task_cases (ps : list pc) t p' t' q : <[t := p']> ps !! t' = Some q -> t' = t /\ q = p' \/ t' <> t /\ ps !! t' = Some q.
Proof. intros H. apply list_lookup_insert_Some in H as [(-> & -> & _)|[Hne H]]; [by left|]. right. split; [congruence|done]. Qed.
Lemma task_at (ps : list pc) t p p' : ps !! t = Some p -> <[t := p']> ps !! t = Some p'.
Proof. intros H. apply list_lookup_insert_eq. by eapply lookup_lt_Some. Qed.
Definition phase_of (d : DBD) (ps : list pc) (sp : spec) : Prop :=
  match _modify_mutex d with None => quiet d ps sp | Some t => exists p, ps !! t = Some p /\ phase d ps sp t p end.
Lemma task_moves_inv t p p' d d' ps sp sp' : inv d ps sp -> ps !! t = Some p -> unnoticed t d d' ps sp sp' -> task_ok d' sp' t p' ->
  (forall w, on_thread p' = Some w -> on_thread p = Some w \/ none_at on_thread w ps = true) ->
  (forall w, _control (tls d' w) = true -> _control (tls d w) = false \/ p = Add1 w \/ p = Add2 w -> exited d' w = true \/ w ∈ _wrappers d' \/ p' = Add1 w \/ p' = Add2 w) ->
  (susp = true -> forall w i, _ref (tls d' w) i = _ref (tls d w) i - (if counts w i p then 1 else 0) + (if counts w i p' then 1 else 0)) ->
  phase_of d' (<[t := p']> ps) sp' -> inv d' (<[t := p']> ps) sp'.
Proof.
  intros Hinv Hp Hu Hok Hthr Hctl Href Hph. split.
  - intros t' q Hq. apply task_cases in Hq as [[-> ->]|[Hne Hq]]; [done|]. eapply others_ok; [done|done|done|by apply (g_task _ _ _ Hinv)].
  - assert (forall t' q w, t' <> t -> ps !! t' = Some q -> on_thread q = Some w -> on_thread p' = Some w -> False) as Hno.
    { intros t' q w Hne Hq Ho Ho'. destruct (Hthr w Ho') as [Hp'|Hnone]; [by apply Hne, (g_thread _ _ _ Hinv t' t q p w)|]. unfold none_at in Hnone. rewrite forallb_forall in Hnone. specialize (Hnone q). rewrite bool_decide_true in Hnone by done. by specialize (Hnone ltac:(eapply list_elem_of_In, list_elem_of_lookup_2, Hq)). }
    intros t1 t2 p1 p2 w H1 H2 Ho1 Ho2. apply task_cases in H1 as [[-> ->]|[Hn1 H1]]; apply task_cases in H2 as [[-> ->]|[Hn2 H2]]; [done|exfalso; by eapply (Hno t2)|exfalso; by eapply (Hno t1)|by eapply (g_thread _ _ _ Hinv)].
  - intros w Hw. assert (exited d w = true -> exited d' w = true) as Hex by (intros He; by destruct (u_exited _ _ _ _ _ _ Hu w) as [->|[? _]]).
    destruct (_control (tls d w)) eqn:Hc; [destruct (g_control _ _ _ Hinv w Hc) as [He|[Hin|(t0 & q & Hq & Hadd)]]|].
    + left. auto.
    + destruct (u_member _ _ _ _ _ _ Hu w Hin) as [?|?]; auto.
    + destruct (decide (t0 = t)) as [->|Hne].
      * rewrite Hp in Hq. injection Hq as <-. destruct (Hctl w Hw) as [?|[?|?]]; [tauto|auto|auto|]. right; right. exists t, p'. split; [by eapply task_at|done].
      * right; right. exists t0, q. split; [by rewrite list_lookup_insert_ne|done].
    + destruct (Hctl w Hw) as [?|[?|?]]; [auto|auto|auto|]. right; right. exists t, p'. split; [by eapply task_at|done].
  - intros Hs w i. rewrite (Href Hs), (tally_insert _ _ _ _ _ Hp), (g_ref _ _ _ Hinv Hs w i). done.
  - exact Hph.
Qed.
(** Steps that have nothing to do with Modify keep its phase. *)
Lemma stale_kept t p p' l d d' ps : ps !! t = Some p -> _index d' = _index d -> (forall w i v, reads p' = Some (w, i, v) -> i = _index d \/ reads p = Some (w, i, v)) ->
  stale_in l d ps -> stale_in l d' (<[t := p']> ps).
Proof.
  intros Hp Hi Hfresh Hst t' q w v Hq Hr. rewrite Hi in Hr. apply task_cases in Hq as [[-> ->]|[Hne Hq]]; [|by eapply Hst]. destruct (Hfresh _ _ _ Hr) as [He|Hr']; [by destruct (_index d)|by eapply Hst].
Qed.
Lemma phase_holds d ps sp t p : phase d ps sp t p -> holds_modify p = true.
Proof. destruct p; cbn; try done; by destruct k. Qed.
Lemma phase_ext d d' ps ps' sp sp' t p : _data d' = _data d -> _index d' = _index d -> cur sp' = cur sp -> ret_of sp' t = ret_of sp t ->
  (_wrappers d' = _wrappers d \/ holds_wrappers p = false /\ forall f bg ret, p <> Mod4 f bg ret) ->
  (forall l, stale_in l d ps -> stale_in l d' ps') -> phase d ps sp t p -> phase d' ps' sp' t p.
Proof.
  intros Hd Hi Hc Hr Hw Hst. destruct p; cbn [phase holds_wrappers] in *; try done; try (destruct k; [|done]); unfold quiet, behind; rewrite ?Hd, ?Hi, ?Hc, ?Hr; try (by intuition auto).
  all: destruct Hw as [->|[Hw Hw']]; [by intuition auto|]; (done || by destruct (Hw' f bg ret)).
Qed.
Lemma reads_touches (p : pc) w i v : reads p = Some (w, i, v) -> touches p = Some w.
Proof. destruct p; cbn; congruence. Qed.
Lemma phase_kept t p p' d d' ps sp sp' : inv d ps sp -> ps !! t = Some p -> holds_modify p = false ->
  _modify_mutex d' = _modify_mutex d -> _data d' = _data d -> _index d' = _index d -> cur sp' = cur sp -> (forall t', t' <> t -> ret_of sp' t' = ret_of sp t') ->
  (forall w i v, reads p' = Some (w, i, v) -> i = _index d \/ reads p = Some (w, i, v)) ->
  (_wrappers d' = _wrappers d \/ holds_wrappers p = true /\ forall w, w ∈ _wrappers d -> w ∈ _wrappers d' \/ exited d w = true) ->
  phase_of d' (<[t := p']> ps) sp'.
Proof.
  intros Hinv Hp Hpm Hm Hd Hi Hc Hr Hfresh Hw. assert (forall l, stale_in l d ps -> stale_in l d' (<[t := p']> ps)) as Hst by (intros l; by eapply stale_kept).
  pose proof (g_phase _ _ _ Hinv) as Hph. unfold phase_of. rewrite Hm. destruct (_modify_mutex d) as [tm|] eqn:Hmm; [|destruct Hph as [Hq1 Hq2]; split; [by rewrite Hd, Hc|by apply Hst]].
  destruct Hph as (pm & Hpmt & Hph). assert (tm <> t) as Hne by (intros ->; rewrite Hp in Hpmt; injection Hpmt as <-; apply phase_holds in Hph; congruence).
  exists pm. split; [by rewrite list_lookup_insert_ne|]. destruct Hw as [Hw|[Hhw Hw]]; [eapply phase_ext; eauto|].
  assert (holds_wrappers pm = false) as Hpw.
  { destruct (holds_wrappers pm) eqn:E; [|done]. pose proof (ok_wrappers _ _ _ _ (g_task _ _ _ Hinv _ _ Hpmt) E). pose proof (ok_wrappers _ _ _ _ (g_task _ _ _ Hinv _ _ Hp) Hhw). congruence. }
  destruct pm; try (eapply phase_ext; eauto; by right); cbn [phase] in *. destruct Hph as [Hb Hs]. unfold behind in *. rewrite Hd, Hi, Hc, Hr by done. split; [done|].
  intros t' q w v Hq Hreads. assert (exists q', ps !! t' = Some q' /\ reads q' = Some (w, negb (_index d), v)) as (q' & Hq' & Hr').
  { rewrite Hi in Hreads. apply task_cases in Hq as [[-> ->]|[_ Hq]]; [|by exists q]. exists p. split; [done|]. destruct (Hfresh _ _ _ Hreads) as [He|?]; [by destruct (_index d)|done]. }
  destruct (Hw w (Hs _ _ _ _ Hq' Hr')) as [?|He]; [done|]. pose proof (ok_touches _ _ _ _ (g_task _ _ _ Hinv _ _ Hq') w (reads_touches _ _ _ _ Hr')). congruence.
Qed.
End Inv.
End DoublyBufferedInv.
