(* ===== verification/DoublyBufferedSteps.v ===== *)
(** * DoublyBufferedData: every step keeps the invariant *)
From stdpp Require Import base functions list.
From Stdlib Require Import ZArith Lia Bool.
From S2P Require Import Prelude DoublyBuffered DoublyBufferedInv.

Open Scope Z_scope.

Module DoublyBufferedSteps.
Import DoublyBuffered DoublyBufferedInv.

Section Steps.
Context {T : Type} (susp : bool).
Abbreviation pc := (@pc T).
Abbreviation DBD := (@DoublyBufferedData T).
Abbreviation spec := (@spec T).
Abbreviation inv := (@inv T susp).
Abbreviation task_ok := (@task_ok T susp).
Implicit Types (d : DBD) (ps : list pc) (sp : spec) (p : pc).

Lemma tls_upd w g d w' : tls (upd_w w g d) w' = if decide (w' = w) then g (tls d w') else tls d w'.
Proof. unfold upd_w, set_tls. cbn [tls]. destruct (decide (w' = w)) as [->|Hne]; [by rewrite fn_lookup_insert|by rewrite fn_lookup_insert_ne]. Qed.
(** Nothing but the own snapshot and result changes. *)
Lemma same_unnoticed t d ps sp sp' : inv d ps sp -> (forall t', t' <> t -> snap sp' t' = snap sp t' /\ ret_of sp' t' = ret_of sp t') -> unnoticed t d d ps sp sp'.
Proof.
  intros Hinv Hsp. split; try done; try (intros; by left). intros t' w i k _ Hp. by eapply (ok_asleep _ _ _ _ _ (g_task _ _ _ _ Hinv _ _ Hp)).
Qed.
(** One Wrapper changes. *)
Lemma wrapper_unnoticed t w g d ps sp : inv d ps sp -> lock_ok t (_mutex (tls d w)) (_mutex (g (tls d w))) ->
  (forall t' i k, t' <> t -> ps !! t' = Some (Asleep w i k) -> _ref (g (tls d w)) i <> 0 /\ _modify_wait (g (tls d w)) = true) ->
  unnoticed t d (upd_w w g d) ps sp sp.
Proof.
  intros Hinv Hl Has. split; try done; try (intros; by left).
  - intros w'. rewrite tls_upd. destruct (decide (w' = w)) as [->|]; [done|by left].
  - intros t' w' i k Hne Hp. rewrite tls_upd. destruct (decide (w' = w)) as [->|]; [by eapply Has|]. by eapply (ok_asleep _ _ _ _ _ (g_task _ _ _ _ Hinv _ _ Hp)).
Qed.
Definition threads_ok p p' ps : Prop := forall w, on_thread susp p' = Some w -> on_thread susp p = Some w \/ none_at (on_thread susp) w ps = true.
Definition fresh_reads p p' d : Prop := forall w i v, reads p' = Some (w, i, v) -> i = _index d \/ reads p = Some (w, i, v).
Definition counted (w' : nat) (i : bool) p p' : Z := (if counts w' i p' then 1 else 0) - (if counts w' i p then 1 else 0).
(** A step that changes one Wrapper, or none. *)
Lemma wrapper_step t w g p p' d ps sp : inv d ps sp -> ps !! t = Some p -> lock_ok t (_mutex (tls d w)) (_mutex (g (tls d w))) ->
  (forall t' i k, t' <> t -> ps !! t' = Some (Asleep w i k) -> _ref (g (tls d w)) i <> 0 /\ _modify_wait (g (tls d w)) = true) ->
  task_ok (upd_w w g d) sp t p' -> threads_ok p p' ps -> (forall w', p <> Add1 w' /\ p <> Add2 w') -> (_control (g (tls d w)) = _control (tls d w) \/ p' = Add1 w) ->
  (susp = true -> (forall i, _ref (g (tls d w)) i = _ref (tls d w) i + counted w i p p') /\ forall w' i, w' <> w -> counted w' i p p' = 0) ->
  phase_of (upd_w w g d) (<[t := p']> ps) sp -> inv (upd_w w g d) (<[t := p']> ps) sp.
Proof.
  intros Hinv Hp Hl Has Hok Hthr Hadd Hctl Href Hph. eapply task_moves_inv; [exact Hinv|done|by apply wrapper_unnoticed|done|done| | |done].
  - intros w' Hw' [Hc|[Hc|Hc]]; [|by destruct (Hadd w')..]. rewrite tls_upd in Hw'. destruct (decide (w' = w)) as [->|]; [|congruence]. destruct Hctl as [Hctl| ->]; [congruence|auto].
  - intros Hs w' i. destruct (Href Hs) as [H1 H2]. rewrite tls_upd. destruct (decide (w' = w)) as [->|Hne]; [rewrite H1; unfold counted; lia|]. specialize (H2 w' i Hne). unfold counted in H2. lia.
Qed.
Lemma same_step t p p' d ps sp sp' : inv d ps sp -> ps !! t = Some p -> (forall t', t' <> t -> snap sp' t' = snap sp t' /\ ret_of sp' t' = ret_of sp t') ->
  task_ok d sp' t p' -> threads_ok p p' ps -> (forall w', p <> Add1 w' /\ p <> Add2 w') -> (susp = true -> forall w i, counted w i p p' = 0) ->
  phase_of d (<[t := p']> ps) sp' -> inv d (<[t := p']> ps) sp'.
Proof.
  intros Hinv Hp Hsp Hok Hthr Hadd Href Hph. eapply task_moves_inv; [exact Hinv|done|by apply same_unnoticed|done|done| | |done].
  - intros w' Hw' [Hc|[Hc|Hc]]; [congruence|by destruct (Hadd w')..].
  - intros Hs w' i. specialize (Href Hs w' i). unfold counted in Href. lia.
Qed.
(** Facts about the task that moves. *)
Ltac task_facts Hinv Hp := let H := fresh "Hok" in pose proof (g_task _ _ _ _ Hinv _ _ Hp) as H; destruct H as [K1 K2 K3 K4 K5 K6 K7 K8 K9 K10 K11]; cbn [holds_modify holds_wrappers holds reads uses touches exiting suspendable fn_of by_modify] in K1, K2, K3, K4, K5, K6, K7, K8, K10, K11.
Ltac ok_split := split; cbn [holds_modify holds_wrappers holds reads uses touches exiting suspendable fn_of by_modify upd_w set_tls _modify_mutex _wrappers_mutex _wrappers _data exited]; try done.
Lemma kept t p p' d d' ps sp sp' : inv d ps sp -> ps !! t = Some p -> holds_modify p = false -> _modify_mutex d' = _modify_mutex d -> _data d' = _data d -> _index d' = _index d -> cur sp' = cur sp -> (forall t', t' <> t -> ret_of sp' t' = ret_of sp t') ->
  fresh_reads p p' d -> _wrappers d' = _wrappers d -> phase_of d' (<[t := p']> ps) sp'.
Proof. intros. eapply phase_kept; eauto. Qed.
Lemma Add0_inv t w d ps sp : inv d ps sp -> ps !! t = Some (Add0 w) -> 
  if _control (tls d w) then inv d (<[t := Begin0 w]> ps) sp else inv (upd_w w set_control d) (<[t := Add1 w]> ps) sp.
Proof.
  intros Hinv Hp. task_facts Hinv Hp. destruct (_control (tls d w)) eqn:Hc.
  - eapply same_step; [done|done|done| | |by split|done|by eapply kept].
    + ok_split. intros w' [= <-]. destruct (g_control _ _ _ _ Hinv w Hc) as [He|[?|(t' & q & Hq & Hadd)]]; [by rewrite (K6 w eq_refl) in He|done|].
      assert (t' = t) as -> by (eapply (g_thread _ _ _ _ Hinv t' t _ _ w Hq Hp); [by destruct Hadd as [-> | ->]|done]). rewrite Hp in Hq. injection Hq as <-. by destruct Hadd.
    + by intros w' [= <-]; left.
  - eapply wrapper_step; [done|done|by left| | | |by split|by right| |by eapply kept].
    + intros t' i k Hne Hq. by eapply (ok_asleep _ _ _ _ _ (g_task _ _ _ _ Hinv _ _ Hq)).
    + ok_split.
    + by intros w' [= <-]; left.
    + intros _. split; [intros i; cbn; unfold counted; cbn; lia|done].
Qed.
Lemma free_None o : free o = true -> o = None.
Proof. by destruct o. Qed.
Lemma asleep_ok t w i k d ps sp : inv d ps sp -> ps !! t = Some (Asleep w i k) -> _ref (tls d w) i <> 0 /\ _modify_wait (tls d w) = true /\ susp = true.
Proof. intros Hinv Hp. task_facts Hinv Hp. destruct (K9 w i k eq_refl). auto. Qed.
(** Taking the mutex of a Wrapper. *)
Lemma lock_step t w p p' d ps sp : inv d ps sp -> ps !! t = Some p -> free (_mutex (tls d w)) = true ->
  task_ok (upd_w w (set_mutex (Some t)) d) sp t p' -> threads_ok p p' ps -> (forall w', p <> Add1 w' /\ p <> Add2 w') -> (forall w i, counted w i p p' = 0) ->
  phase_of (upd_w w (set_mutex (Some t)) d) (<[t := p']> ps) sp -> inv (upd_w w (set_mutex (Some t)) d) (<[t := p']> ps) sp.
Proof.
  intros Hinv Hp Hf%free_None Hok Hthr Hadd Hcnt Hph. eapply wrapper_step; [done|done|right; by left| |done|done|done|by left| |done].
  - intros t' i k Hne Hq. destruct (asleep_ok _ _ _ _ _ _ _ Hinv Hq) as (? & ? & _). done.
  - intros _. split; [intros i; rewrite Hcnt; cbn; lia|intros; apply Hcnt].
Qed.
Lemma Begin0_inv t w d ps sp : inv d ps sp -> ps !! t = Some (Begin0 w) -> free (_mutex (tls d w)) = true -> inv (upd_w w (set_mutex (Some t)) d) (<[t := Begin1 w]> ps) sp.
Proof.
  intros Hinv Hp Hf. task_facts Hinv Hp. eapply lock_step; [done|done|done| |by intros w' [= <-]; left|by split|done|by eapply kept].
  ok_split. intros w' [= <-]. rewrite tls_upd, decide_True by done. done.
Qed.
Lemma Begin1_inv t w d ps sp : inv d ps sp -> ps !! t = Some (Begin1 w) -> let i := _index d in
  cur sp = _data d i /\ inv d (<[t := if susp then Begin2 w i (_data d i) else Reading w i (_data d i)]> ps) (after (EBegin t (_data d i)) sp).
Proof.
  intros Hinv Hp i. task_facts Hinv Hp. split.
  - pose proof (g_phase _ _ _ _ Hinv) as Hph. destruct (_modify_mutex d) as [tm|]; [|by rewrite (proj1 Hph)]. destruct Hph as (pm & _ & Hph). unfold quiet, behind in *. subst i. destruct pm; cbn [phase] in Hph; try done; try (destruct k; [|done]); unfold quiet, behind in Hph; by intuition (auto || congruence).
  - assert (forall p', p' = (if susp then Begin2 w i (_data d i) else Reading w i (_data d i)) -> fresh_reads (Begin1 w) p' d) as Hfr by (intros p' -> w' i' v'; destruct susp; cbn; intros [= <- <- <-]; by left).
    eapply same_step; [done|done| | | |by split| |eapply kept; [done..| | |by apply Hfr|done]; [done|done]].
    + intros t' Hne. cbn [after snap ret_of]. by rewrite fn_lookup_insert_ne by done.
    + destruct susp eqn:Es; ok_split; try (intros w' i' v'; intros [= <- <- <-]; cbn [after snap]; by rewrite fn_lookup_insert).
      all: intros w'; rewrite ?Es; auto.
    + intros w'. destruct susp; cbn; intros [= <-]; by left.
    + destruct susp; done.
Qed.
Lemma counts_eq w i w' i' v : counts w i (Reading (T := T) w' i' v) = bool_decide (w = w' /\ i = i').
Proof. cbn. destruct (Nat.eqb_spec w w') as [->|]; cbn [andb]; [|symmetry; apply bool_decide_false; tauto]. destruct i, i'; cbn; symmetry; (apply bool_decide_true || apply bool_decide_false); naive_solver. Qed.
Lemma ref_insert i n (r : bool -> Z) i' : <[i := n]> r i' = if decide (i' = i) then n else r i'.
Proof. destruct (decide (i' = i)) as [->|]; [by rewrite fn_lookup_insert|by rewrite fn_lookup_insert_ne]. Qed.
Lemma Begin2_inv t w i v d ps sp : inv d ps sp -> ps !! t = Some (Begin2 w i v) ->
  inv (upd_w w (fun x => set_mutex None (set_ref i (_ref x i + 1) x)) d) (<[t := Reading w i v]> ps) sp.
Proof.
  intros Hinv Hp. task_facts Hinv Hp. assert (susp = true) as Hs by auto. eapply wrapper_step; [done|done|right; right; by apply K3| | | |by split|by left| |eapply kept; try done; by (intros ? ? ? ?; right)].
  - intros t' i' k Hne Hq. destruct (asleep_ok _ _ _ _ _ _ _ Hinv Hq) as (Hr & Hm & _). cbn. split; [|done]. rewrite ref_insert. destruct (decide (i' = i)) as [->|]; [|done]. rewrite (g_ref _ _ _ _ Hinv Hs) in *. pose proof (tally_nonneg (counts w i) ps). lia.
  - ok_split. by rewrite Hs.
  - intros w'. cbn. rewrite Hs. done.
  - intros _. split; [|intros w' i' Hne; unfold counted; rewrite counts_eq, bool_decide_false by naive_solver; done]. intros i'. cbn. rewrite ref_insert. unfold counted. rewrite counts_eq. cbn [counts].
    destruct (decide (i' = i)) as [->|]; [by rewrite bool_decide_true by done; lia|rewrite bool_decide_false by naive_solver; lia].
Qed.
Lemma End0_inv t w i v d ps sp : inv d ps sp -> ps !! t = Some (End0 w i v) -> free (_mutex (tls d w)) = true -> inv (upd_w w (set_mutex (Some t)) d) (<[t := End1 w i v]> ps) sp.
Proof.
  intros Hinv Hp Hf. task_facts Hinv Hp. eapply lock_step; [done|done|done| |done|by split|by intros; unfold counted; cbn; lia|eapply kept; try done; by (intros ? ? ? ?; right)].
  ok_split. intros w' [= <-]. rewrite tls_upd, decide_True by done. done.
Qed.
Lemma woken_none w i ps t' k : map (wake w i) ps !! t' = Some (Asleep (T := T) w i k) -> False.
Proof. intros H. apply wake_lookup in H as (p & _ & He). destruct p; cbn in He; try done. destruct ((w =? w0)%nat && eqb i i0) eqn:E; [done|]. injection He as <- <- <-. rewrite Nat.eqb_refl, eqb_reflx in E. done. Qed.
Lemma End1_inv t w i v d ps sp : inv d ps sp -> ps !! t = Some (End1 w i v) -> let n := _ref (tls d w) i - 1 in
  inv (upd_w w (fun x => set_mutex None (set_ref i n x)) d) (<[t := Idle]> (if (n =? 0) && _modify_wait (tls d w) then map (wake w i) ps else ps)) sp.
Proof.
  intros Hinv Hp n. assert (susp = true) as Hs by (task_facts Hinv Hp; auto).
  assert (forall ps', inv d ps' sp -> ps' !! t = Some (End1 w i v) -> (forall t' k, n = 0 -> ps' !! t' <> Some (Asleep w i k)) -> inv (upd_w w (fun x => set_mutex None (set_ref i n x)) d) (<[t := Idle]> ps') sp) as Hgen.
  { intros ps' Hinv' Hp' Hno. task_facts Hinv' Hp'. eapply wrapper_step; [done|done|right; right; by apply K3| | |done|by split|by left| |by eapply kept].
    - intros t' i' k Hne Hq. destruct (asleep_ok _ _ _ _ _ _ _ Hinv' Hq) as (Hr & Hm & _). cbn. split; [|done]. rewrite ref_insert. destruct (decide (i' = i)) as [->|]; [|done]. intros Hz. by eapply Hno.
    - ok_split.
    - intros _. assert (forall w' i', counts w' i' (End1 w i v) = counts w' i' (Reading w i v)) as Hce by done. split; [|intros w' i' Hne; unfold counted; rewrite Hce, counts_eq, bool_decide_false by naive_solver; done]. intros i'. cbn. rewrite ref_insert. unfold counted. rewrite Hce, counts_eq. cbn [counts].
      destruct (decide (i' = i)) as [->|]; [by rewrite bool_decide_true by done; unfold n; lia|rewrite bool_decide_false by naive_solver; lia]. }
  destruct ((n =? 0) && _modify_wait (tls d w)) eqn:Hw.
  - apply Hgen; [by apply wake_inv|by rewrite wake_at, Hp|]. intros t' k _ Hq. by eapply woken_none.
  - apply Hgen; [done|done|]. intros t' k Hz Hq. destruct (asleep_ok _ _ _ _ _ _ _ Hinv Hq) as (_ & Hm & _). rewrite Hz, Hm in Hw. done.
Qed.
Lemma end_inv t w i v d ps sp : inv d ps sp -> ps !! t = Some (Reading w i v) ->
  (susp = true -> inv d (<[t := End0 w i v]> ps) sp) /\ (susp = false -> inv (upd_w w (set_mutex None) d) (<[t := Idle]> ps) sp).
Proof.
  intros Hinv Hp. task_facts Hinv Hp. split; intros Es.
  - eapply same_step; [done|done|done|ok_split|done|by split|by intros; unfold counted; cbn; lia|eapply kept; try done; by (intros ? ? ? ?; right)].
  - rewrite Es in K3. eapply wrapper_step; [done|done|right; right; by apply K3| |ok_split|done|by split|by left|congruence|by eapply kept]. intros t' i' k Hne Hq. destruct (asleep_ok _ _ _ _ _ _ _ Hinv Hq) as (_ & _ & ?). congruence.
Qed.
(** ** Starting *)
Lemma start_read_inv t w d ps sp : inv d ps sp -> ps !! t = Some Idle -> exited d w = false -> none_at (on_thread susp) w ps = true -> inv d (<[t := Add0 w]> ps) sp.
Proof.
  intros Hinv Hp He Hn. task_facts Hinv Hp. eapply same_step; [done|done|done| | |by split|done|by eapply kept]; [ok_split; by intros w' [= <-]|intros w' [= <-]; by right].
Qed.
Lemma start_modify_inv t f d ps sp : inv d ps sp -> ps !! t = Some Idle -> honest f -> inv d (<[t := Mod0 f]> ps) sp.
Proof.
  intros Hinv Hp Hf. task_facts Hinv Hp. eapply same_step; [done|done|done| |done|by split|done|by eapply kept]. ok_split. by intros f' [= <-].
Qed.
Lemma start_exit_inv t w d ps sp : inv d ps sp -> ps !! t = Some Idle -> none_at touches w ps = true -> inv (set_exited w d) (<[t := Exit0 w]> ps) sp.
Proof.
  intros Hinv Hp Hn. task_facts Hinv Hp. eapply task_moves_inv; [done|done| | |done| | |by eapply kept].
  - split; try done; try (intros; by left).
    + intros w'. cbn [set_exited exited]. destruct (decide (w' = w)) as [->|Hne]; [|left; by rewrite fn_lookup_insert_ne by done]. right. rewrite fn_lookup_insert. split; [done|]. intros t' p' _ Hp' Ht. unfold none_at in Hn. rewrite forallb_forall in Hn. specialize (Hn p'). rewrite bool_decide_true in Hn by done. by specialize (Hn ltac:(eapply list_elem_of_In, list_elem_of_lookup_2, Hp')).
    + intros t' w' i k _ Hq. destruct (asleep_ok _ _ _ _ _ _ _ Hinv Hq) as (? & ? & _). done.
  - ok_split. intros w' [= <-]. cbn. by rewrite fn_lookup_insert.
  - intros w' Hc [Hc'|[Hc'|Hc']]; [cbn in Hc; congruence|done|done].
  - intros _ w' i. cbn. lia.
Qed.

(** ** The list of Wrappers *)
Lemma set_wrappers_id d : set_wrappers (_wrappers d) d = d.
Proof. by destruct d. Qed.
Lemma wrappers_step t o l p p' d ps sp : inv d ps sp -> ps !! t = Some p -> lock_ok t (_wrappers_mutex d) o -> (forall w, w ∈ _wrappers d -> w ∈ l \/ exited d w = true) ->
  task_ok (set_wrappers_mutex o (set_wrappers l d)) sp t p' -> threads_ok p p' ps -> (forall w, p = Add1 w \/ p = Add2 w -> p' = Add2 w \/ w ∈ l) -> (forall w i, counted w i p p' = 0) ->
  phase_of (set_wrappers_mutex o (set_wrappers l d)) (<[t := p']> ps) sp -> inv (set_wrappers_mutex o (set_wrappers l d)) (<[t := p']> ps) sp.
Proof.
  intros Hinv Hp Hl Hm Hok Hthr Hadd Hcnt Hph. eapply task_moves_inv; [done|done| |done|done| | |done].
  - split; try done; try (intros; by left). intros t' w i k _ Hq. destruct (asleep_ok _ _ _ _ _ _ _ Hinv Hq) as (? & ? & _). done.
  - intros w Hc [Hc'|Hc']; [cbn in Hc; congruence|]. destruct (Hadd w Hc'); auto.
  - intros _ w i. specialize (Hcnt w i). unfold counted in Hcnt. cbn. lia.
Qed.
Lemma Add1_inv t w d ps sp : inv d ps sp -> ps !! t = Some (Add1 w) -> free (_wrappers_mutex d) = true -> inv (set_wrappers_mutex (Some t) d) (<[t := Add2 w]> ps) sp.
Proof.
  intros Hinv Hp Hf%free_None. task_facts Hinv Hp. rewrite <- (set_wrappers_id d) at 1. eapply wrappers_step; [done|done|right; by left|auto|ok_split|by intros w' [= <-]; left| |done|by eapply kept]. intros w' [[= <-]|?]; [by left|done].
Qed.
Lemma Add2_inv t w d ps sp : inv d ps sp -> ps !! t = Some (Add2 w) -> inv (set_wrappers_mutex None (set_wrappers (_wrappers d ++ [w]) d)) (<[t := Begin0 w]> ps) sp.
Proof.
  intros Hinv Hp. task_facts Hinv Hp. eapply wrappers_step; [done|done|right; right; by apply K2| | |by intros w' [= <-]; left| |done|].
  - intros w' Hw. left. apply elem_of_app. by left.
  - ok_split. intros w' [= <-]. cbn. apply elem_of_app. right. by apply list_elem_of_singleton.
  - intros w' [?|[= <-]]; [done|]. right. apply elem_of_app. right. by apply list_elem_of_singleton.
  - eapply phase_kept; [done|done|done|done|done|done|done|done|done|]. right. split; [done|]. intros w' Hw. left. cbn. apply elem_of_app. by left.
Qed.
Lemma Exit0_inv t w d ps sp : inv d ps sp -> ps !! t = Some (Exit0 w) -> free (_wrappers_mutex d) = true -> inv (set_wrappers_mutex (Some t) d) (<[t := Exit1 w]> ps) sp.
Proof.
  intros Hinv Hp Hf%free_None. task_facts Hinv Hp. rewrite <- (set_wrappers_id d) at 1. eapply wrappers_step; [done|done|right; by left|auto|ok_split|done|by intros w' [?|?]|done|by eapply kept].
Qed.
Lemma replace_first_app w x l l2 : w ∈ l -> replace_first w x (l ++ l2) = replace_first w x l ++ l2.
Proof. induction l as [|y l IH]; [by intros ?%elem_of_nil|]. intros Hin. cbn [app replace_first]. destruct (Nat.eqb_spec y w) as [->|Hne]; [done|]. apply elem_of_cons in Hin as [?|Hin]; [congruence|]. by rewrite IH. Qed.
Lemma replace_first_in w x l : w ∈ l -> x ∈ replace_first w x l /\ forall w', w' ∈ l -> w' <> w -> w' ∈ replace_first w x l.
Proof.
  induction l as [|y l IH]; [by intros ?%elem_of_nil|]. intros Hin. cbn [replace_first]. destruct (Nat.eqb_spec y w) as [->|Hne].
  - split; [by left|]. intros w' [?|?]%elem_of_cons ?; [congruence|by right].
  - apply elem_of_cons in Hin as [?|Hin]; [congruence|]. destruct (IH Hin) as [H1 H2]. split; [by right|]. intros w' [->|?]%elem_of_cons ?; [by left|right; auto].
Qed.
Lemma replace_first_last w x l : w ∉ l -> replace_first w x (l ++ [w]) = l ++ [x].
Proof. induction l as [|y l IH]; intros Hn; cbn [app replace_first]; [by rewrite Nat.eqb_refl|]. apply not_elem_of_cons in Hn as [? ?]. rewrite (proj2 (Nat.eqb_neq _ _)) by done. by rewrite IH. Qed.
Lemma remove_wrapper_others w l w' : w' ∈ l -> w' <> w -> w' ∈ remove_wrapper w l.
Proof.
  intros Hin Hne. unfold remove_wrapper. destruct l as [|x l _] using rev_ind; [done|]. rewrite last_snoc. case_bool_decide as Hw; [|done]. apply elem_of_app in Hw. destruct (decide (w ∈ l)) as [Hl|Hl].
  - rewrite replace_first_app, removelast_last by done. destruct (replace_first_in w x l Hl) as [H1 H2]. apply elem_of_app in Hin as [?|?%list_elem_of_singleton]; [auto|by subst].
  - destruct Hw as [?|Hw%list_elem_of_singleton]; [done|]. subst x. rewrite replace_first_last, removelast_last by done. apply elem_of_app in Hin as [?|?%list_elem_of_singleton]; [done|congruence].
Qed.
Definition exit_wait w : pc := if susp then Wait0 w false (ByExit false) else Idle.
Lemma Exit1_inv t w d ps sp : inv d ps sp -> ps !! t = Some (Exit1 w) -> inv (set_wrappers_mutex None (set_wrappers (remove_wrapper w (_wrappers d)) d)) (<[t := exit_wait w]> ps) sp.
Proof.
  intros Hinv Hp. task_facts Hinv Hp. assert (exited d w = true) as He by auto. assert (forall w', w' ∈ _wrappers d -> w' ∈ remove_wrapper w (_wrappers d) \/ exited d w' = true) as Hm.
  { intros w' Hw. destruct (decide (w' = w)) as [->|Hne]; [by right|left; by apply remove_wrapper_others]. }
  unfold exit_wait. eapply wrappers_step; [done|done|right; right; by apply K2|done| |intros w'; by destruct susp|by intros w' [?|?]|intros w' i; by destruct susp|].
  - destruct susp; ok_split.
  - eapply phase_kept; [done|done|done|done|done|done|done|done|intros ? ? ?; by destruct susp|]. right. by split.
Qed.
Lemma exit_none_inv t w d ps sp : inv d ps sp -> ps !! t = Some (Exit0 w) -> inv d (<[t := exit_wait w]> ps) sp.
Proof.
  intros Hinv Hp. task_facts Hinv Hp. unfold exit_wait. eapply same_step; [done|done|done| |intros w'; by destruct susp|by split|intros Hs w' i; by rewrite Hs|eapply kept; try done; intros ? ? ?; by destruct susp]. destruct susp; ok_split.
Qed.

(** ** Waiting *)
(** The phase of a Modify that waits. *)
Lemma own_phase t p d ps sp : inv d ps sp -> ps !! t = Some p -> holds_modify p = true -> _modify_mutex d = Some t /\ phase d ps sp t p.
Proof.
  intros Hinv Hp Hm. pose proof (ok_modify _ _ _ _ _ (g_task _ _ _ _ Hinv _ _ Hp) Hm) as Hmm. split; [done|]. pose proof (g_phase _ _ _ _ Hinv) as Hph. rewrite Hmm in Hph. destruct Hph as (q & Hq & Hph). rewrite Hp in Hq. by injection Hq as <-.
Qed.
(** The same while it stays in the wait, with nothing changed but the Wrapper. *)
Lemma waiting_phase t p p' d d' ps sp : inv d ps sp -> ps !! t = Some p -> reads p' = None -> _modify_mutex d' = _modify_mutex d -> _data d' = _data d -> _index d' = _index d -> _wrappers d' = _wrappers d ->
  holds_modify p = true -> (phase d ps sp t p -> phase d ps sp t p') -> phase_of d' (<[t := p']> ps) sp.
Proof.
  intros Hinv Hp Hr Hm Hd Hi Hw Hh Hpp. destruct (own_phase _ _ _ _ _ Hinv Hp Hh) as [Hmm Hph]. unfold phase_of. rewrite Hm, Hmm. exists p'. split; [by eapply task_at|].
  apply (phase_ext d d' ps _ sp sp t p'); try done; [by left| |by apply Hpp]. intros l Hst. eapply stale_kept; [done|done| |done]. by rewrite Hr.
Qed.
Lemma Wait0_inv t w i k d ps sp : inv d ps sp -> ps !! t = Some (Wait0 w i k) -> free (_mutex (tls d w)) = true -> inv (upd_w w (set_mutex (Some t)) d) (<[t := Wait1 w i k]> ps) sp.
Proof.
  intros Hinv Hp Hf. task_facts Hinv Hp. eapply lock_step; [done|done|done| |done|by split|done|destruct k; [by eapply waiting_phase|by eapply kept]].
  ok_split. intros w' [= <-]. by rewrite tls_upd, decide_True by done.
Qed.
Lemma Asleep_inv t w i k d ps sp : inv d ps sp -> ps !! t = Some (Asleep w i k) -> inv d (<[t := Wait0 w i k]> ps) sp.
Proof. intros Hinv Hp. task_facts Hinv Hp. eapply same_step; [done|done|done|ok_split|done|by split|done|destruct k; [by eapply waiting_phase|by eapply kept]]. Qed.
Lemma sleep_inv t w i k d ps sp : inv d ps sp -> ps !! t = Some (Wait1 w i k) -> susp = true -> _ref (tls d w) i <> 0 ->
  inv (upd_w w (fun x => set_mutex None (set_modify_wait true x)) d) (<[t := Asleep w i k]> ps) sp.
Proof.
  intros Hinv Hp Hs Hr. task_facts Hinv Hp. eapply wrapper_step; [done|done|right; right; by apply K3| | |done|by split|by left| |destruct k; [by eapply waiting_phase|by eapply kept]].
  - intros t' i' k' Hne Hq. destruct (asleep_ok _ _ _ _ _ _ _ Hinv Hq) as (? & ? & _). done.
  - ok_split. intros w' i' k' [= <- <- <-]. rewrite tls_upd, decide_True by done. done.
  - intros _. split; [intros i'; cbn; unfold counted; cbn; lia|done].
Qed.
(** Nobody else sleeps on the Wrapper whose wait ends. *)
Lemma exited_unread w i d ps sp : inv d ps sp -> susp = true -> exited d w = true -> _ref (tls d w) i = 0.
Proof.
  intros Hinv Hs He. rewrite (g_ref _ _ _ _ Hinv Hs). pose proof (tally_nonneg (counts w i) ps). destruct (Z.eq_dec (tally (counts w i) ps) 0) as [->|]; [done|]. destruct (proj1 (tally_pos (counts w i) ps)) as (t & p & Hp & Hc); [lia|].
  pose proof (ok_touches _ _ _ _ _ (g_task _ _ _ _ Hinv _ _ Hp) w) as Ht. destruct p; cbn in Hc, Ht; try done; apply andb_true_iff in Hc as [Hc%Nat.eqb_eq _]; subst; specialize (Ht eq_refl); congruence.
Qed.
Lemma sleepers_alone t w i k t' i' k' d ps sp : inv d ps sp -> ps !! t = Some (Wait1 w i k) -> ps !! t' = Some (Asleep w i' k') -> False.
Proof.
  intros Hinv Hp Hq. destruct (asleep_ok _ _ _ _ _ _ _ Hinv Hq) as (Hr & _ & Hs). destruct (g_task _ _ _ _ Hinv _ _ Hp) as [_ K2 _ _ _ _ K7 _ _ _ _]. destruct (g_task _ _ _ _ Hinv _ _ Hq) as [_ L2 _ _ _ _ L7 _ _ _ _].
  destruct k as [|]; [destruct k' as [|]|]; cbn in *.
  - specialize (K2 eq_refl). specialize (L2 eq_refl). assert (t = t') as -> by congruence. congruence.
  - by apply Hr, (exited_unread _ _ _ _ _ Hinv Hs), L7.
  - by apply Hr, (exited_unread _ _ _ _ _ Hinv Hs), K7.
Qed.
Lemma waited_for t w i k t' p v d ps sp : inv d ps sp -> ps !! t = Some (Wait1 w i k) -> (susp = true -> _ref (tls d w) i = 0) -> ps !! t' = Some p -> reads p = Some (w, i, v) -> False.
Proof.
  intros Hinv Hp Hz Hq Hr. pose proof (ok_mutex _ _ _ _ _ (g_task _ _ _ _ Hinv _ _ Hp) w eq_refl) as Hm. destruct (g_task _ _ _ _ Hinv _ _ Hq) as [_ _ L3 _ _ _ _ L8 _ _ _].
  assert (holds susp p = Some w -> False) as Hh by (intros Hh; assert (t' = t) as -> by (specialize (L3 w Hh); congruence); rewrite Hp in Hq; by injection Hq as <-).
  assert (susp = true -> counts w i p = true -> False) as Hc by (intros Hs Hc; assert (0 < tally (counts w i) ps) by (apply tally_pos; eauto); rewrite <- (g_ref _ _ _ _ Hinv Hs), (Hz Hs) in *; lia).
  destruct p; cbn in Hr; try done; injection Hr as -> -> ->; cbn in *.
  - by apply Hh.
  - destruct susp eqn:Es; [|by apply Hh]. apply Hc; [done|]. by rewrite Nat.eqb_refl, eqb_reflx.
  - apply Hc; [auto|]. by rewrite Nat.eqb_refl, eqb_reflx.
  - by apply Hh.
Qed.
Lemma wait_done_inv t w i k d ps sp : inv d ps sp -> ps !! t = Some (Wait1 w i k) -> (susp = true -> _ref (tls d w) i = 0) ->
  inv (upd_w w (fun x => set_mutex None (set_modify_wait false x)) d) (<[t := after_wait w k]> ps) sp.
Proof.
  intros Hinv Hp Hz. task_facts Hinv Hp. eapply wrapper_step; [done|done|right; right; by apply K3| | | |by split|by left| |].
  - intros t' i' k' Hne Hq. exfalso. by eapply sleepers_alone.
  - destruct k as [f bg ret n|[]]; ok_split.
  - intros w'. by destruct k as [f bg ret n|[]].
  - intros _. split; [intros i'; cbn; unfold counted; destruct k as [f bg ret n|[]]; cbn; lia|intros; by destruct k as [f bg ret n|[]]].
  - destruct k as [f bg ret n|b]; [|eapply kept; try done; intros ? ? ?; by destruct b]. eapply waiting_phase; [done|done|done|done|done|done|done|done|]. cbn [phase after_wait]. intros (-> & Hw & Hb & Hst). split; [done|].
    intros t' q w' v Hq Hr. pose proof (Hst _ _ _ _ Hq Hr) as Hin. rewrite (drop_S _ _ _ Hw) in Hin. apply elem_of_cons in Hin as [->|?]; [|done]. exfalso. destruct Hb as [-> _]. by eapply waited_for.
Qed.

(** ** Modify *)
Lemma no_reader d ps t p w i v : stale_in [] d ps -> ps !! t = Some p -> reads p = Some (w, i, v) -> i <> negb (_index d).
Proof. intros Hst Hp Hr ->. pose proof (Hst _ _ _ _ Hp Hr) as H. by apply elem_of_nil in H. Qed.
(** Steps of the task in Modify, by what they change. *)
Lemma modify_step t p p' d d' ps sp sp' : inv d ps sp -> ps !! t = Some p -> tls d' = tls d -> exited d' = exited d -> _wrappers d' = _wrappers d -> lock_ok t (_modify_mutex d) (_modify_mutex d') -> lock_ok t (_wrappers_mutex d) (_wrappers_mutex d') ->
  (forall i, _data d' i = _data d i \/ i = negb (_index d) /\ stale_in [] d ps) -> (forall t', t' <> t -> snap sp' t' = snap sp t' /\ ret_of sp' t' = ret_of sp t') ->
  task_ok d' sp' t p' -> on_thread susp p' = None -> (forall w', p <> Add1 w' /\ p <> Add2 w') -> (forall w i, counts w i p = false /\ counts w i p' = false) -> phase_of d' (<[t := p']> ps) sp' -> inv d' (<[t := p']> ps) sp'.
Proof.
  intros Hinv Hp Htls Hex Hwr Hl1 Hl2 Hd Hsp Hok Hthr Hadd Hcnt Hph. eapply task_moves_inv; [done|done| |done|by rewrite Hthr| | |done].
  - split; try done; rewrite ?Htls, ?Hex, ?Hwr; try (intros; by left).
    + intros t' q w i v _ Hq Hr. destruct (Hd i) as [?|[Hi Hst]]; [done|]. exfalso. by eapply no_reader.
    + intros t' w i k _ Hq. destruct (asleep_ok _ _ _ _ _ _ _ Hinv Hq) as (? & ? & _). done.
  - intros w'. rewrite Htls. intros Hc [?|[?|?]]; [congruence|by destruct (Hadd w')..].
  - intros _ w' i. destruct (Hcnt w' i) as [-> ->]. rewrite Htls. lia.
Qed.
Lemma Mod0_inv t f d ps sp : inv d ps sp -> ps !! t = Some (Mod0 f) -> free (_modify_mutex d) = true -> inv (set_modify_mutex (Some t) d) (<[t := Mod1 f]> ps) sp.
Proof.
  intros Hinv Hp Hf%free_None. task_facts Hinv Hp. eapply modify_step; [done|done|done|done|done|right; by left|by left|by left|done|ok_split|done|by split|by split|].
  unfold phase_of. cbn. exists (Mod1 f). split; [by eapply task_at|]. pose proof (g_phase _ _ _ _ Hinv) as Hph. rewrite Hf in Hph. destruct Hph as [Hq1 Hq2]. split; [split; [done|by eapply stale_kept]|auto].
Qed.
Lemma Mod1_inv t f d ps sp : inv d ps sp -> ps !! t = Some (Mod1 f) -> inv d (<[t := Mod2 f (negb (_index d))]> ps) sp.
Proof.
  intros Hinv Hp. task_facts Hinv Hp. eapply modify_step; [done|done|done|done|done|by left|by left|by left|done|ok_split|done|by split|by split|]. eapply waiting_phase; try done. cbn. tauto.
Qed.
Lemma quiet_set t p p' d d' ps : ps !! t = Some p -> reads p' = None -> _index d' = _index d -> stale_in [] d ps -> stale_in [] d' (<[t := p']> ps).
Proof. intros Hp Hr Hi Hst. eapply stale_kept; [done|done| |done]. by rewrite Hr. Qed.
Lemma data_insert i x (g : bool -> T) i' : <[i := x]> g i' = if decide (i' = i) then x else g i'.
Proof. destruct (decide (i' = i)) as [->|]; [by rewrite fn_lookup_insert|by rewrite fn_lookup_insert_ne]. Qed.
Lemma Mod2_inv t f bg d ps sp : inv d ps sp -> ps !! t = Some (Mod2 f bg) -> let '(x, ret) := f (_data d bg) in
  if ret =? 0 then accepts (EReturn t f 0) sp /\ inv (set_modify_mutex None (set_data bg x d)) (<[t := Idle]> ps) (after (EReturn t f 0) sp)
  else inv (set_data bg x d) (<[t := Mod3 f bg ret]> ps) sp.
Proof.
  intros Hinv Hp. task_facts Hinv Hp. destruct (own_phase _ _ _ _ _ Hinv Hp eq_refl) as [Hmm ([Hd Hst] & Hret & ->)]. rewrite Hd. pose proof (K10 f eq_refl (cur sp)) as Hhon. destruct (f (cur sp)) as [x ret] eqn:Hf. cbn [fst snd] in Hhon.
  assert (forall i, <[negb (_index d) := x]> (_data d) i = _data d i \/ i = negb (_index d) /\ stale_in [] d ps) as Hdata by (intros i; rewrite data_insert; destruct (decide (i = negb (_index d))); [by right|by left]).
  destruct (Z.eqb_spec ret 0) as [Hz|Hz].
  - rewrite (Hhon Hz) in *. split; [cbn; by rewrite Hf|]. eapply modify_step; [done|done|done|done|done|right; right; by apply K1|by left|exact Hdata| | |done|by split|by split|].
    + intros t' Hne. cbn [after snap ret_of]. by rewrite fn_lookup_insert_ne by done.
    + ok_split. intros _. cbn. by rewrite fn_lookup_insert.
    + unfold phase_of. cbn. split; [|by eapply quiet_set]. intros i. cbn. rewrite data_insert. by destruct (decide _).
  - eapply modify_step; [done|done|done|done|done|by left|by left|exact Hdata|done|ok_split; auto|done|by split|by split|]. unfold phase_of. cbn [set_data _modify_mutex]. rewrite Hmm. exists (Mod3 f (negb (_index d)) ret). split; [by eapply task_at|].
    cbn [phase set_data _data _index]. rewrite !data_insert, decide_False, decide_True by (done || by destruct (_index d)). split_and!; try done. by eapply quiet_set.
Qed.
Lemma Mod3_inv t f bg ret d ps sp : inv d ps sp -> ps !! t = Some (Mod3 f bg ret) -> accepts (ECommit t f) sp /\ inv (set_index bg d) (<[t := Mod4 f (negb bg) ret]> ps) (after (ECommit t f) sp).
Proof.
  intros Hinv Hp. task_facts Hinv Hp. destruct (own_phase _ _ _ _ _ Hinv Hp eq_refl) as [Hmm (-> & Hd & Hf & Hz & Hst & Hret)]. split; [cbn; by rewrite Hf|].
  eapply modify_step; [done|done|done|done|done|by left|by left|by left| | |done|by split|by split|].
  - intros t' Hne. cbn [after snap ret_of]. by rewrite fn_lookup_insert_ne by done.
  - ok_split.
  - unfold phase_of. cbn [set_index _modify_mutex]. rewrite Hmm. eexists. split; [by eapply task_at|]. cbn [phase]. split.
    + unfold behind. cbn [set_index _index _data after cur ret_of]. rewrite negb_involutive, Hd, Hf, fn_lookup_insert. done.
    + intros t' q w v Hq Hr. apply task_cases in Hq as [[_ ->]|[_ Hq]]; [done|]. apply (ok_uses _ _ _ _ _ (g_task _ _ _ _ Hinv _ _ Hq)). by destruct q; cbn in *; try done; injection Hr as -> _ _.
Qed.
Lemma Mod4_inv t f bg ret d ps sp : inv d ps sp -> ps !! t = Some (Mod4 f bg ret) -> free (_wrappers_mutex d) = true -> inv (set_wrappers_mutex (Some t) d) (<[t := Mod5 f bg ret 0]> ps) sp.
Proof.
  intros Hinv Hp Hf%free_None. task_facts Hinv Hp. eapply modify_step; [done|done|done|done|done|by left|right; by left|by left|done|ok_split|done|by split|by split|by eapply waiting_phase].
Qed.
Lemma Mod5_inv t f bg ret n d ps sp : inv d ps sp -> ps !! t = Some (Mod5 f bg ret n) ->
  match _wrappers d !! n with
  | Some w => inv d (<[t := Wait0 w bg (ByModify f bg ret n)]> ps) sp
  | None => inv (set_wrappers_mutex None d) (<[t := Mod6 f bg ret]> ps) sp
  end.
Proof.
  intros Hinv Hp. task_facts Hinv Hp. destruct (_wrappers d !! n) as [w|] eqn:Hw.
  - eapply modify_step; [done|done|done|done|done|by left|by left|by left|done|ok_split|done|by split|by split|]. by eapply waiting_phase; try done; cbn; tauto.
  - eapply modify_step; [done|done|done|done|done|by left|right; right; auto|by left|done|ok_split|done|by split|by split|]. eapply waiting_phase; try done. cbn. by rewrite drop_ge by by apply lookup_ge_None.
Qed.
Lemma Mod6_inv t f bg ret d ps sp : inv d ps sp -> ps !! t = Some (Mod6 f bg ret) -> let '(x, ret2) := f (_data d bg) in
  accepts (EReturn t f ret2) sp /\ inv (set_modify_mutex None (set_data bg x d)) (<[t := Idle]> ps) (after (EReturn t f ret2) sp).
Proof.
  intros Hinv Hp. task_facts Hinv Hp. destruct (own_phase _ _ _ _ _ Hinv Hp eq_refl) as [Hmm [(-> & Hd & Hf & Hz & Hret) Hst]]. rewrite Hf. split; [cbn; by rewrite (proj2 (Z.eqb_neq _ _)) by done|].
  eapply modify_step; [done|done|done|done|done|right; right; by apply K1|by left| | | |done|by split|by split|].
  - intros i. cbn. rewrite data_insert. destruct (decide _); [by right|by left].
  - intros t' Hne. cbn [after snap ret_of]. by rewrite fn_lookup_insert_ne by done.
  - ok_split. intros _. cbn. by rewrite fn_lookup_insert.
  - unfold phase_of. cbn. split; [|by eapply quiet_set]. intros i. cbn. rewrite data_insert. destruct (decide _) as [|Hi]; [done|]. by replace i with (_index d) by (destruct i, (_index d); done).
Qed.

(** ** Every step *)
Definition honest_choice (c : @choice T) : Prop := match c with CModify f => honest f | _ => True end.
Definition kept_by (r : option (@result T)) (t : nat) sp : Prop :=
  forall d' p' ps' evs, r = Some (d', p', ps', evs) -> accepts_all evs sp /\ inv d' (<[t := p']> ps') (after_all evs sp).
Lemma go_kept t d p ps sp : inv d (<[t := p]> ps) sp -> kept_by (go d p ps) t sp.
Proof. by intros H d' p' ps' evs [= <- <- <- <-]. Qed.
Lemma event_kept t d p ps sp e : accepts e sp -> inv d (<[t := p]> ps) (after e sp) -> kept_by (Some (d, p, ps, [e])) t sp.
Proof. by intros H H' d' p' ps' evs [= <- <- <- <-]. Qed.
Lemma none_kept t sp : kept_by None t sp.
Proof. done. Qed.
Lemma if_kept (b : bool) t r r' sp : (b = true -> kept_by r t sp) -> (b = false -> kept_by r' t sp) -> kept_by (if b then r else r') t sp.
Proof. destruct b; auto. Qed.
Lemma Read_step_inv t p d ps sp : inv d ps sp -> ps !! t = Some p -> kept_by (Read_step susp t p d ps) t sp.
Proof.
  intros Hinv Hp. destruct p; cbn [Read_step AddWrapper_step EndRead_step]; try apply none_kept.
  - pose proof (Add0_inv _ _ _ _ _ Hinv Hp) as H. destruct (_control (tls d w)); by apply go_kept.
  - destruct (free _) eqn:Hf; [apply go_kept; by apply Add1_inv|apply none_kept].
  - apply go_kept. by apply Add2_inv.
  - destruct (free _) eqn:Hf; [apply go_kept; by apply Begin0_inv|apply none_kept].
  - destruct (Begin1_inv _ _ _ _ _ Hinv Hp) as [H1 H2]. by apply event_kept.
  - apply go_kept. by apply Begin2_inv.
  - destruct (free _) eqn:Hf; [apply go_kept; by apply End0_inv|apply none_kept].
  - apply go_kept. by eapply End1_inv.
Qed.
Lemma Wait_step_inv t p d ps sp : inv d ps sp -> ps !! t = Some p -> kept_by (Wait_step susp t p d ps) t sp.
Proof.
  intros Hinv Hp. destruct p; cbn [Wait_step]; try apply none_kept.
  - destruct (free _) eqn:Hf; [apply go_kept; by apply Wait0_inv|apply none_kept].
  - destruct (susp && negb (_ref (tls d w) i =? 0)) eqn:Hc; apply go_kept.
    + apply andb_true_iff in Hc as [Hs Hr%negb_true_iff%Z.eqb_neq]. by apply sleep_inv.
    + eapply wait_done_inv; [done|done|]. intros Hs. rewrite Hs in Hc. cbn in Hc. by apply negb_false_iff, Z.eqb_eq in Hc.
  - apply go_kept. by apply Asleep_inv.
Qed.
Lemma Modify_step_inv t p d ps sp : inv d ps sp -> ps !! t = Some p -> kept_by (Modify_step t p d ps) t sp.
Proof.
  intros Hinv Hp. destruct p; cbn [Modify_step]; try apply none_kept.
  - destruct (free _) eqn:Hf; [apply go_kept; by apply Mod0_inv|apply none_kept].
  - apply go_kept. by apply Mod1_inv.
  - pose proof (Mod2_inv _ _ _ _ _ _ Hinv Hp) as H. destruct (f (_data d bg)) as [x ret]. destruct (ret =? 0); [destruct H; by apply event_kept|by apply go_kept].
  - destruct (Mod3_inv _ _ _ _ _ _ _ Hinv Hp). by apply event_kept.
  - destruct (free _) eqn:Hf; [apply go_kept; by apply Mod4_inv|apply none_kept].
  - pose proof (Mod5_inv _ _ _ _ _ _ _ _ Hinv Hp) as H. destruct (_wrappers d !! n); by apply go_kept.
  - pose proof (Mod6_inv _ _ _ _ _ _ _ Hinv Hp) as H. destruct (f (_data d bg)) as [x ret2]. destruct H. by apply event_kept.
Qed.
Lemma Exit_step_inv t p d ps sp : inv d ps sp -> ps !! t = Some p -> kept_by (Exit_step susp t p d ps) t sp.
Proof.
  intros Hinv Hp. destruct p; cbn [Exit_step]; try apply none_kept.
  - destruct (_control _); [destruct (free _) eqn:Hf; [apply go_kept; by apply Exit0_inv|apply none_kept]|apply go_kept; by apply exit_none_inv].
  - apply go_kept. by apply Exit1_inv.
Qed.
Lemma task_step_inv t c p d ps sp : inv d ps sp -> ps !! t = Some p -> honest_choice c -> kept_by (task_step susp true t c p d ps) t sp.
Proof.
  intros Hinv Hp Hc. unfold task_step.
  destruct p eqn:Ep; (destruct c; cbn beta iota; try apply none_kept; try (by apply Read_step_inv); try (by apply Wait_step_inv); try (by apply Modify_step_inv); try (by apply Exit_step_inv)).
  - destruct (negb (exited d w) && none_at _ w ps) eqn:E; [|apply none_kept]. apply andb_true_iff in E as [He%negb_true_iff Hn]. apply go_kept. by apply start_read_inv.
  - apply go_kept. by apply start_modify_inv.
  - destruct (_ && _) eqn:E; [|apply none_kept]. cbn [negb orb] in E. apply andb_true_iff in E as [_ Hn]. apply go_kept. by apply start_exit_inv.
  - destruct (ok_reads _ _ _ _ _ (g_task _ _ _ _ Hinv _ _ Hp) _ _ _ eq_refl) as [Hd Hs]. apply event_kept; [cbn; by rewrite Hd|]. cbn. by rewrite list_insert_id.
  - destruct (end_inv _ _ _ _ _ _ _ Hinv Hp) as [H1 H2]. apply if_kept; intros Es; apply go_kept; auto.
Qed.
Lemma any_step_inv s sp tc : inv (dbd s) (tasks s) sp -> honest_choice tc.2 -> let '(s', evs) := step susp true s tc in accepts_all evs sp /\ inv (dbd s') (tasks s') (after_all evs sp).
Proof.
  intros Hinv Hc. unfold step. destruct (tasks s !! tc.1) as [p|] eqn:Hp; cbn [mbind option_bind]; [|done]. pose proof (task_step_inv _ _ _ _ _ _ Hinv Hp Hc) as H. destruct (task_step _ _ _ _ _ _ _) as [[[[d' p'] ps'] evs]|]; [|done]. by apply H.
Qed.
Lemma accepts_app es1 es2 sp : accepts_all es1 sp -> accepts_all es2 (after_all es1 sp) -> accepts_all (es1 ++ es2) sp.
Proof. revert sp. induction es1 as [|e es IH]; intros sp; [done|]. cbn. intros [? ?] ?. split; [done|]. by apply IH. Qed.
Lemma schedule_inv cs s sp : inv (dbd s) (tasks s) sp -> Forall (fun tc => honest_choice tc.2) cs -> let '(s', evs) := run susp true cs s in accepts_all evs sp /\ inv (dbd s') (tasks s') (after_all evs sp).
Proof.
  intros Hinv Hcs. revert s sp Hinv. induction Hcs as [|c cs Hc Hcs IH]; intros s sp Hinv; cbn [run]; [done|]. pose proof (any_step_inv s sp c Hinv Hc) as H1. destruct (step susp true s c) as [s1 e1]. destruct H1 as [Ha1 Hi1].
  specialize (IH s1 (after_all e1 sp) Hi1). destruct (run susp true cs s1) as [s2 e2]. destruct IH as [Ha2 Hi2]. split; [by apply accepts_app|]. unfold after_all. by rewrite foldl_app.
Qed.
Definition new_spec (x : T) : spec := mkSpec x (fun _ => None) (fun _ => None).
Lemma fresh_inv n x : inv (dbd (start n x)) (tasks (start n x)) (new_spec x).
Proof.
  assert (forall t p, tasks (start n x) !! t = Some p -> p = Idle) as Hidle by (intros t p Hp; by apply lookup_replicate in Hp as [-> _]). split.
  - intros t p Hp. apply Hidle in Hp as ->. ok_split.
  - intros t t' p p' w Hp _. apply Hidle in Hp as ->. done.
  - done.
  - intros _ w i. cbn. clear. induction n; cbn; lia.
  - split; [done|]. intros t p w v Hp. apply Hidle in Hp as ->. done.
Qed.
End Steps.
End DoublyBufferedSteps.
