(* ===== verification/DoublyBufferedTheorems.v ===== *)
(** * DoublyBufferedData: theorems

    What holds in every execution, for both values of AllowBthreadSuspended, and two
    schedules in which the code departs from its comments. *)
From stdpp Require Import base functions list.
From Stdlib Require Import ZArith Lia Bool.
From S2P Require Import Prelude DoublyBuffered DoublyBufferedInv DoublyBufferedSteps.

Open Scope Z_scope.

Module DoublyBufferedTheorems.
Import DoublyBuffered DoublyBufferedInv DoublyBufferedSteps.

(** ** Mutexes are owned *)
Section Owned.
Context {T : Type} (susp : bool).
Abbreviation pc := (@pc T).
Implicit Types (d : @DoublyBufferedData T) (ps : list pc) (p : pc).
Definition owned d ps : Prop :=
  (forall w t, _mutex (tls d w) = Some t -> exists p, ps !! t = Some p /\ holds susp p = Some w) /\
  (forall t, _wrappers_mutex d = Some t -> exists p, ps !! t = Some p /\ holds_wrappers p = true).
(** A step by [t] takes, keeps or releases. *)
Definition passes d d' t p p' : Prop :=
  (forall w, _mutex (tls d' w) = None \/ _mutex (tls d' w) = Some t /\ holds susp p' = Some w \/ _mutex (tls d' w) = _mutex (tls d w) /\ (holds susp p = Some w -> holds susp p' = Some w)) /\
  (_wrappers_mutex d' = None \/ _wrappers_mutex d' = Some t /\ holds_wrappers p' = true \/ _wrappers_mutex d' = _wrappers_mutex d /\ (holds_wrappers p = true -> holds_wrappers p' = true)).
Lemma owned_step d d' ps t p p' : owned d ps -> ps !! t = Some p -> passes d d' t p p' -> owned d' (<[t := p']> ps).
Proof.
  intros [Ho1 Ho2] Hp [H1 H2]. split.
  - intros w t' Hm. destruct (H1 w) as [Hn|[[Hs Hh]|[He Hk]]]; [congruence| |].
    + rewrite Hs in Hm. injection Hm as <-. exists p'. split; [by eapply task_at|done].
    + rewrite He in Hm. destruct (Ho1 w t' Hm) as (q & Hq & Hh). destruct (decide (t' = t)) as [->|Hne]; [exists p'; split; [by eapply task_at|]; apply Hk; by rewrite Hp in Hq; injection Hq as ->|]. exists q. by rewrite list_lookup_insert_ne.
  - intros t' Hm. destruct H2 as [Hn|[[Hs Hh]|[He Hk]]]; [congruence| |].
    + rewrite Hs in Hm. injection Hm as <-. exists p'. split; [by eapply task_at|done].
    + rewrite He in Hm. destruct (Ho2 t' Hm) as (q & Hq & Hh). destruct (decide (t' = t)) as [->|Hne]; [exists p'; split; [by eapply task_at|]; apply Hk; by rewrite Hp in Hq; injection Hq as ->|]. exists q. by rewrite list_lookup_insert_ne.
Qed.
Lemma owned_wake d ps w i : owned d ps -> owned d (map (wake w i) ps).
Proof.
  intros [H1 H2]. split; [intros w' t Hm; destruct (H1 w' t Hm) as (p & Hp & Hh)|intros t Hm; destruct (H2 t Hm) as (p & Hp & Hh)]; exists (wake w i p); rewrite wake_at, Hp; (split; [done|]); destruct (wake_same susp w i p) as (_ & E1 & E2 & _); congruence.
Qed.
Lemma task_step_owned orderly t c p d ps d' p' ps' evs : owned d ps -> ps !! t = Some p -> task_step susp orderly t c p d ps = Some (d', p', ps', evs) -> owned d' (<[t := p']> ps').
Proof.
  intros Ho Hp Hs.
  assert (forall ps0, owned d ps0 -> ps0 !! t = Some p -> passes d d' t p p' -> ps' = ps0 -> owned d' (<[t := p']> ps')) as Hgen by (intros ps0 Ho0 Hp0 Hps ->; by eapply owned_step).
  assert (passes d d' t p p' /\ (ps' = ps \/ exists w i v, p = End1 w i v /\ ps' = map (wake w i) ps)) as [Hps [->|(w & i & v & -> & ->)]]; [|by eapply Hgen|eapply Hgen; [by apply owned_wake|by rewrite wake_at, Hp|done|done]].
  clear Hgen Ho Hp. destruct p, c; cbn [task_step Read_step AddWrapper_step EndRead_step Wait_step Modify_step Exit_step] in Hs; try done; unfold go in Hs; repeat (case_match; try done); simplify_eq.
  all: split; [|by (left + (right; eexists _, _, _))].
  all: split; [intros w'; rewrite ?tls_upd; try (destruct (decide (w' = _)) as [->|]); cbn|cbn].
  all: try (by left); try (by (right; left)); try (by (right; right)).
  all: right; right; (split; [done|]); intros Hx; try (match goal with H : susp = _ |- _ => rewrite H in * end); try destruct k as [|[]]; cbn in *; congruence || done.
Qed.
Lemma run_owned orderly cs (s : @state T) : owned (dbd s) (tasks s) -> owned (dbd (run susp orderly cs s).1) (tasks (run susp orderly cs s).1).
Proof.
  revert s. induction cs as [|c cs IH]; intros s Ho; cbn [run]; [done|]. assert (owned (dbd (step susp orderly s c).1) (tasks (step susp orderly s c).1)) as H1.
  { unfold step. destruct (tasks s !! c.1) as [p|] eqn:Hp; cbn [mbind option_bind]; [|done]. destruct (task_step _ _ _ _ _ _ _) as [[[[d' p'] ps'] evs]|] eqn:Hs; [|done]. by eapply task_step_owned. }
  destruct (step susp orderly s c) as [s1 e1]. specialize (IH s1 H1). by destruct (run susp orderly cs s1).
Qed.
Lemma start_owned n (x : T) : owned (dbd (start n x)) (tasks (start n x)).
Proof. by split. Qed.

(** ** Progress *)
(** The step is one that the code takes: no wakeup without a signal, and no new call. *)
Definition proceeds d ps t p : Prop :=
  (forall w i k, p <> Asleep w i k) /\ (task_step susp true t CGo p d ps <> None \/ task_step susp true t CEnd p d ps <> None).
Context d ps sp (Hinv : inv susp d ps sp) (Hown : owned d ps).
(** Whoever has the mutex of a Wrapper can go on. *)
Lemma mutex_proceeds w t : _mutex (tls d w) = Some t -> exists p, ps !! t = Some p /\ proceeds d ps t p.
Proof.
  intros Hm. destruct (proj1 Hown w t Hm) as (p & Hp & Hh). exists p. split; [done|]. destruct p; cbn in Hh; try done; (split; [done|]); cbn; unfold go; try (by left); [right; by destruct susp|]. left. by case_match.
Qed.
Lemma at_mutex w : free (_mutex (tls d w)) = true \/ exists t p, ps !! t = Some p /\ proceeds d ps t p.
Proof. destruct (_mutex (tls d w)) as [t|] eqn:Hm; [right|by left]. exists t. by eapply mutex_proceeds. Qed.
(** Neither a sleeping task nor one in a wait blocks for ever. *)
Lemma reader_proceeds w i : susp = true -> _ref (tls d w) i <> 0 -> exists t p, ps !! t = Some p /\ proceeds d ps t p.
Proof.
  intros Hs Hr. rewrite (g_ref _ _ _ _ Hinv Hs) in Hr. pose proof (tally_nonneg (counts w i) ps). destruct (proj1 (tally_pos (counts w i) ps)) as (t & p & Hp & Hc); [lia|].
  destruct p; cbn in Hc; try done; apply andb_true_iff in Hc as [<-%Nat.eqb_eq _].
  - eexists t, _. split; [done|]. split; [done|]. right. cbn. by destruct susp.
  - destruct (at_mutex w) as [Hf|?]; [|done]. eexists t, _. split; [done|]. split; [done|]. left. cbn. by rewrite Hf.
  - eexists t, _. split; [done|]. split; [done|]. by left.
Qed.
Lemma wrappers_proceeds t : _wrappers_mutex d = Some t -> exists t p, ps !! t = Some p /\ proceeds d ps t p.
Proof.
  intros Hm. destruct (proj2 Hown t Hm) as (p & Hp & Hh). destruct p; cbn in Hh; try done.
  1,2,6: eexists t, _; (split; [done|]); (split; [done|]); left; cbn; unfold go; by repeat case_match.
  - destruct (at_mutex w) as [Hf|?]; [|done]. eexists t, _. split; [done|]. split; [done|]. left. cbn. by rewrite Hf.
  - eexists t, _. split; [done|]. split; [done|]. left. cbn. unfold go. by case_match.
  - destruct (asleep_ok _ _ _ _ _ _ _ _ Hinv Hp) as (Hr & _ & Hs). by eapply reader_proceeds.
Qed.
Lemma at_wrappers : free (_wrappers_mutex d) = true \/ exists t p, ps !! t = Some p /\ proceeds d ps t p.
Proof. destruct (_wrappers_mutex d) as [t|] eqn:Hm; [right|by left]. by eapply wrappers_proceeds. Qed.
Ltac here t := eexists t, _; split; [eassumption|]; split; [done|]; left; cbn.
Lemma inside_proceeds t p : ps !! t = Some p -> p <> Idle -> (forall f, p <> Mod0 f) -> exists t p, ps !! t = Some p /\ proceeds d ps t p.
Proof.
  intros Hp Hi H0. destruct p; try done; try (by destruct (H0 f)).
  - here t. unfold go. by case_match.
  - destruct at_wrappers as [Hf|?]; [|done]. here t. by rewrite Hf.
  - by here t.
  - destruct (at_mutex w) as [Hf|?]; [|done]. here t. by rewrite Hf.
  - by here t.
  - by here t.
  - eexists t, _. split; [done|]. split; [done|]. right. cbn. by destruct susp.
  - destruct (at_mutex w) as [Hf|?]; [|done]. here t. by rewrite Hf.
  - by here t.
  - by here t.
  - here t. unfold go. by repeat case_match.
  - by here t.
  - destruct at_wrappers as [Hf|?]; [|done]. here t. by rewrite Hf.
  - here t. unfold go. by repeat case_match.
  - here t. by repeat case_match.
  - destruct (at_mutex w) as [Hf|?]; [|done]. here t. by rewrite Hf.
  - here t. unfold go. by case_match.
  - destruct (asleep_ok _ _ _ _ _ _ _ _ Hinv Hp) as (Hr & _ & Hs). by eapply reader_proceeds.
  - destruct at_wrappers as [Hf|?]; [|done]. here t. rewrite Hf. unfold go. by repeat case_match.
  - here t. unfold go. by case_match.
Qed.
Lemma busy_proceeds t p : ps !! t = Some p -> p <> Idle -> exists t p, ps !! t = Some p /\ proceeds d ps t p.
Proof.
  intros Hp Hi. destruct p as [| | | | | | | | | |f| | | | | | | | | | |] eqn:Ep; try (by eapply inside_proceeds). destruct (_modify_mutex d) as [tm|] eqn:Hm; [|here t; by rewrite Hm].
  pose proof (g_phase _ _ _ _ Hinv) as Hph. rewrite Hm in Hph. destruct Hph as (pm & Hpm & Hph%phase_holds). eapply inside_proceeds; [exact Hpm|by intros ->|by intros f' ->].
Qed.
End Owned.

Section Theorems.
Context {T : Type} (susp : bool).
Abbreviation honest_schedule cs := (Forall (fun tc : nat * @choice T => honest_choice tc.2) cs).
(** C6: Reads and modifications of a DoublyBufferedData are linearizable, with suspendable
    reads or without, in every interleaving of any number of tasks in which a pthread exits
    only when nobody reads through its Wrapper and the functions given to Modify leave the
    instance unchanged when they return 0: each modification takes effect at once on one
    value and is counted once, each read gets the value of the moment it begins and sees it
    until it ends, and Modify returns the result of its function. (Without the condition on
    exits it is false: exit_changes_data_under_a_reader.) *)
Theorem doubly_buffered_linearizable n (x : T) cs : honest_schedule cs -> accepts_all (run susp true cs (start n x)).2 (new_spec x).
Proof. intros Hcs. pose proof (schedule_inv susp cs (start n x) (new_spec x) (fresh_inv susp n x) Hcs) as H. destruct (run susp true cs (start n x)). apply H. Qed.
(** C7: In every interleaving in which a pthread exits only when nobody reads through its
    Wrapper and functions that return 0 leave the instance unchanged, no instance is written
    while it is read: while a task is inside the function of a Modify, no ScopedPtr points
    to the instance that the function gets, and what a ScopedPtr points to has the value it
    had when the read began. *)
Theorem written_instance_is_not_read n (x : T) cs t t' f bg ret w i v : honest_schedule cs -> let s := (run susp true cs (start n x)).1 in
  tasks s !! t = Some (Mod2 f bg) \/ tasks s !! t = Some (Mod6 f bg ret) -> tasks s !! t' = Some (Reading w i v) -> i <> bg /\ _data (dbd s) i = v.
Proof.
  intros Hcs s Hw Hr. pose proof (schedule_inv susp cs (start n x) (new_spec x) (fresh_inv susp n x) Hcs) as H. unfold s in *. destruct (run susp true cs (start n x)) as [s' evs]. cbn [fst] in *. destruct H as [_ Hinv]. split; [|by apply (ok_reads _ _ _ _ _ (g_task _ _ _ _ Hinv _ _ Hr) w i v)].
  assert (bg = negb (_index (dbd s')) /\ stale_in [] (dbd s') (tasks s')) as [-> Hst] by (destruct Hw as [Hw|Hw]; destruct (own_phase _ _ _ _ _ _ Hinv Hw eq_refl) as [_ Hph]; cbn in Hph; unfold quiet, behind in Hph; tauto). by eapply no_reader.
Qed.
(** C8: Modify, Read and exits of threads do not deadlock: in every state reached by an
    interleaving in which a pthread exits only when nobody reads through its Wrapper and
    functions that return 0 leave the instance unchanged, if some task is in a call then
    some task in a call that is not asleep can go on, so neither the mutexes nor the
    condition variable block everybody and no wakeup is lost. *)
Theorem doubly_buffered_no_deadlock n (x : T) cs t p : honest_schedule cs -> let s := (run susp true cs (start n x)).1 in
  tasks s !! t = Some p -> p <> Idle -> exists t' p', tasks s !! t' = Some p' /\ proceeds susp (dbd s) (tasks s) t' p'.
Proof.
  intros Hcs s Hp Hi. pose proof (schedule_inv susp cs (start n x) (new_spec x) (fresh_inv susp n x) Hcs) as H. pose proof (run_owned susp true cs (start n x) (start_owned susp n x)) as Ho. unfold s in *. destruct (run susp true cs (start n x)) as [s' evs]. cbn [fst] in *. destruct H as [_ Hinv]. by eapply busy_proceeds.
Qed.
End Theorems.

(** ** Schedules *)
Definition plus1 (x : Z) : Z * Z := (x + 1, 1).
Definition gos (t n : nat) : list (nat * @choice Z) := replicate n (t, CGo).
(** Task 0 begins to read on thread 0, task 1 publishes a modification and waits for it. *)
Definition read_and_modify : list (nat * @choice Z) := (0%nat, CRead 0) :: gos 0 6 ++ (1%nat, CModify plus1) :: gos 1 8.
Lemma plus1_honest : honest plus1.
Proof. intros x. discriminate. Qed.
Lemma read_and_modify_honest : Forall (fun tc : nat * @choice Z => honest_choice tc.2) read_and_modify.
Proof. unfold read_and_modify, gos. repeat constructor. apply plus1_honest. Qed.
Lemma doubly_buffered_linearizable_witness : accepts_all (run true true (read_and_modify ++ [(0%nat, CSee)]) (start 2 0)).2 (new_spec 0) /\
  (run true true (read_and_modify ++ [(0%nat, CSee)]) (start 2 0)).2 = [EBegin 0 0; ECommit 1 plus1; ESee 0 0].
Proof.
  split; [|vm_compute; reflexivity]. apply (doubly_buffered_linearizable true 2 0 (read_and_modify ++ [(0%nat, CSee)])). apply Forall_app; split; [apply read_and_modify_honest|repeat constructor].
Defined.
(** Task 0 reads the old instance while task 1 is in its function for the first time. *)
Definition read_during_call : list (nat * @choice Z) := (0%nat, CRead 0) :: gos 0 6 ++ (1%nat, CModify plus1) :: gos 1 2.
Lemma written_instance_witness : let s := (run true true read_during_call (start 2 0)).1 in
  tasks s !! 1%nat = Some (Mod2 plus1 true) /\ tasks s !! 0%nat = Some (Reading 0 false 0) /\ false <> true /\ _data (dbd s) false = 0.
Proof.
  split; [vm_compute; reflexivity|]. split; [vm_compute; reflexivity|].
  apply (written_instance_is_not_read true 2 0 read_during_call 1 0 plus1 true 0 0 false 0); [unfold read_during_call, gos; repeat constructor; apply plus1_honest|left; vm_compute; reflexivity|vm_compute; reflexivity].
Defined.
(** Modify is asleep, and the reader can end. *)
Lemma doubly_buffered_no_deadlock_witness : let s := (run true true read_and_modify (start 2 0)).1 in
  tasks s !! 1%nat = Some (Asleep 0 false (ByModify plus1 false 1 0)) /\ exists t' p', tasks s !! t' = Some p' /\ proceeds true (dbd s) (tasks s) t' p'.
Proof.
  split; [vm_compute; reflexivity|]. apply (doubly_buffered_no_deadlock true 2 0 read_and_modify 1 (Asleep 0 false (ByModify plus1 false 1 0))); [apply read_and_modify_honest|vm_compute; reflexivity|discriminate].
Defined.
(** Thread 0 exits while task 0, a suspended bthread, still reads through its Wrapper. *)
Definition exit_while_reading : list (nat * @choice Z) :=
  ((0%nat, CRead 0) :: gos 0 6) ++ ((1%nat, CExit 0) :: gos 1 2) ++ ((2%nat, CModify plus1) :: gos 2 7) ++ [(0%nat, CSee)].
(** When a pthread exits while a suspended bthread reads through its Wrapper, the Wrapper is no
    longer in the list when Modify waits for the readers: Modify changes the instance under the
    reader, which sees another value than at first, before the exit has waited for it. *)
Theorem exit_changes_data_under_a_reader :
  exists s evs, run true false exit_while_reading (start 3 0) = (s, evs) /\ evs = [EBegin 0 0; ECommit 2 plus1; EReturn 2 plus1 1; ESee 0 1] /\ ~ accepts_all evs (new_spec 0).
Proof. eexists _, _. split; [vm_compute; reflexivity|]. split; [reflexivity|]. intros (_ & _ & _ & H & _). discriminate H. Qed.
(** The first Read of a thread has to wait for a Modify that waits for a reader in another thread. *)
Theorem first_read_is_blocked : let s := (run true true (read_and_modify ++ (2%nat, CRead 1) :: gos 2 1) (start 3 0)).1 in
  tasks s !! 0%nat = Some (Reading 0 false 0) /\ tasks s !! 1%nat = Some (Asleep 0 false (ByModify plus1 false 1 0)) /\ tasks s !! 2%nat = Some (Add1 1) /\ task_step true true 2 CGo (Add1 1) (dbd s) (tasks s) = None.
Proof. vm_compute. done. Qed.
End DoublyBufferedTheorems.
